(* ===== verification/_CoqProject ===== *)
-Q . S2P
Prelude.v
Outcome.v
BitUtils.v
BytesIO.v
NumericUtils.v
Streams.v
FileStreams.v
MemoryFile.v
StoreUtils.v
Encryption.v
BitPacking.v
Simd.v
BlockCodec.v
DocIterators.v
Bitset.v
Conjunction.v
Disjunction.v
StdHeap.v
HeapDisjunction.v
BlockDisjunction.v
SparseBitmap.v
SparseBitmapWriter.v
SparseBitmapContainers.v
SparseBitmapIterator.v
Coding.v
ColumnFormat.v
ColumnIterators.v
ColumnValues.v
ColumnWriter.v
ColumnReader.v
ColumnStore.v
ColumnIndex.v
SkipList.v
SkipListSeek.v
Postings.v
PostingsWriter.v
PostingsReader.v
PostingsErrors.v
PostingsBlocks.v
PostingsIterator.v
PostingsCursor.v
PostingsUnion.v
TermMeta.v
PostingsRoundtrip.v
Utf8.v
EditDistance.v
Levenshtein.v
LevenshteinStates.v
LevenshteinTables.v
LevenshteinDistance.v
LevenshteinCoding.v
