(* ===== verification/Prelude.v ===== *)
(** * A verification development for the IResearch search engine

    IResearch (src/core) is a search engine library: documents are analysed into terms, terms and
    their postings are written as blocks of integers into the files of a segment, and queries are
    executed by composing document iterators over the postings. The development models, by a shallow
    embedding, the two layers on which everything else rests, the integer and byte coding below the
    index formats and the document iterators of query execution, two formats that are built on both,
    the postings and the column store, and the edit distances of fuzzy search. It is a library of small files;
    each models the code of the sources it names, proves what the code promises, and says where the
    code does not keep its promise.

    ** Coding layer: from bits to blocks

    - [BitUtils]: utils/bit_utils.hpp and utils/math_utils.hpp, integer functions on fixed-width words.
    - [BytesIO]: utils/bytes_utils.hpp, fixed-width and variable-length integers over any output and
      input iterator (type class [InputIterator]) and over memory.
    - [NumericUtils]: utils/numeric_utils.cpp and [numeric_token_stream]: the prefix coding of
      numbers, on bit patterns of floats.
    - [Streams]: store/data_output.* and data_input.*: the interfaces as type classes with laws
      ([DataOutput], [DataInput], [IndexInput]) and the buffered implementations that keep them; every
      codec above is written and proved against the laws.
    - [FileStreams]: positions in outputs and inputs, stored and sought later, as classes with laws
      ([IndexOutput], [FileInput]) and their buffered instances; what inputs promise of [length], [dup] and
      [reopen] ([input_laws]).
    - [MemoryFile]: store/memory_directory.* and utils/container_utils.hpp: files kept in buckets of
      growing size, the streams that write and read them, as instances of the classes.
    - [StoreUtils]: store/store_utils.*: strings, zig-zag integers and floats on streams, memory views.
    - [Outcome]: results that are values or exceptions (error/error.hpp), as a monad.
    - [Encryption]: utils/encryption.*, utils/ctr_encryption.*: the interface of cipher streams as a
      class with laws, the counter mode as its instance, the encryption header of a file, encrypted
      outputs and inputs.
    - [BitPacking]: utils/bit_packing.*: the unrolled block codecs as their sequences of steps.
    - [Simd]: utils/simd_utils.hpp, lane by lane, for any number of lanes.
    - [BlockCodec]: utils/bitpack.hpp, store/store_avg_utils.hpp and the block functions of
      formats/formats_10.cpp and formats/columnstore.cpp, which compose all of the above.

    The theorems of this layer are round trips (what was written is read back, for any stream that
    keeps the laws), refinements (a buffered stream is a sequence of bytes with a cursor),
    equivalences (vector and scalar code) and order preservation. Integers are [Z] with the wrap-around
    of their width written out ([wrap], [x +[w] y]); bytes and words are lists of [Z]; memory that the
    code leaves uninitialised is an arbitrary list.

    ** Query layer: document iterators

    - [DocIterators]: the contract of [doc_iterator] (index/iterators.hpp) as operations
      ([DocIterator]) and laws ([DocIteratorSpec]): an iterator over a set of documents behaves as the
      abstract cursor [cursor_step]. [run_refines] turns the laws into statements about whole
      sequences of calls.
    - [Bitset]: utils/bitset.hpp and the iterators over words of bits, eager and lazy.
    - [Conjunction], [Disjunction], [HeapDisjunction], [BlockDisjunction]: the compound iterators of
      search/conjunction.hpp, exclusion.hpp and disjunction.hpp, over any iterators that keep the
      laws; all but the last are instances of the laws again, so they nest. [StdHeap] models
      std::push_heap and std::pop_heap.

    - [SparseBitmap] and [SparseBitmapWriter], [SparseBitmapContainers], [SparseBitmapIterator]:
      formats/sparse_bitmap.*, the set of documents of a column on disk: the definitions, the layout
      the writer produces, the containers of a block and the iterator, which is an instance of the laws.

    The theorems of this layer say that a compound iterator refines the cursor over the intersection,
    difference, union or minimum-match of the sets of its iterators for any sequence of calls, and
    that every loop ends. State is passed explicitly; a loop is [iterate k body s] with an option for
    failure and at most [2 ^ k] rounds. The bounds are large enough for every input of the code's
    types: [doc_fuel] (33) where a loop moves a 32-bit document forward, 64 where it goes through a
    vector or the words of a bitset; the theorems prove that the loops return within them.

    ** Column store: documents with values on disk

    - [Coding]: how writers and readers of formats compose, for any lawful output and input.
    - [ColumnFormat]: formats/columnstore2.*: the header, the index of blocks and the tables of a column.
    - [ColumnIterators]: the iterators over a range and over a bitmap of documents, proved against a
      class of payload readers ([PayloadReader], [PayloadReaderSpec]).
    - [ColumnValues]: the value readers (in memory, buffered, encrypted) and the payload readers of the
      kinds of columns, instances of that class.
    - [ColumnWriter]: [column]: Prepare, the writes, reset, flush_block, finalize and finish.
    - [ColumnReader]: prepare_index, the kinds of columns, and the opening of iterators.
    - [ColumnStore]: what the reader makes of what the writer wrote, end to end.
    - [ColumnIndex]: the index file of a whole store, its errors, and the deviations.

    A column under construction is [column_at g docs fvals pvals junk c]: [fvals] are in blocks in the file
    [g], [pvals] in the memory of the column. Exceptions are the values of [outcome]; a step that
    leaves the memory it may use is [None]. The calls on a column are a list of [column_op], in which [op_other]
    is what other columns write to the shared data file. Compressions are a parameter (the registered ones
    do not compress column values); an input promises [length], [reopen] and [dup] by [input_laws].

    ** Postings: the documents of terms on disk

    - [SkipList], [SkipListSeek]: formats/skip_list.*: the writer and the reader over any number of levels, for any
      function that writes entries and any reader of them; where a seek leads.
    - [Postings]: formats/formats_10.cpp: term metadata, the blocks of documents and frequencies, the writer
      ([BeginDocument], [EndDocument], [EndTerm], [WriteSkip], [encode]). [PostingsWriter]: the bytes it writes for
      the documents of a term.
    - [PostingsReader]: the iterators of documents ([doc_iterator_next], [doc_iterator_seek]) and [bit_union];
      [PostingsErrors]: the exceptions of writer and reader.
    - [PostingsBlocks], [PostingsIterator], [PostingsCursor]: the invariant of an iterator between its blocks, its
      operations, and that it is an instance of the laws of [DocIterators].
    - [TermMeta]: metadata is decoded as it was encoded. [PostingsUnion]: [bit_union] is the union.
    - [PostingsRoundtrip]: what the reader makes of what the writer wrote, end to end.

    [good_postings] says what documents and frequencies a term may have, [term_bytes] what they are on disk and
    [stands] where an iterator is in them. Seeks and scans run at most [2 ^ doc_fuel] rounds, the skip list
    at most [2 ^ skip_fuel]. The buffers of the iterators are arbitrary memory before they are read into.

    ** Fuzzy search

    - [Utf8]: utils/utf8_utils.hpp: code points and their bytes.
    - [EditDistance]: the template [edit_distance] of utils/levenshtein_utils.hpp and the theory of edit
      distances: alignments, their least cost, edits one after the other.
    - [Levenshtein]: utils/levenshtein_utils.*: parametric descriptions, which are tables of an automaton for a
      maximum distance and any word: how they are made, stored, and run over a word. [LevenshteinStates]: the states
      that are made, and that making them ends; [LevenshteinTables]: tables that are complete; [LevenshteinDistance]: what running a table computes;
      [LevenshteinCoding]: the stored form.

    A state is a list of positions; [represents] says that it stands for the distances of the prefixes of a word to what
    was read of another. The states are keys of a hash map of the abseil library and found through pointers to them, which dangle when the map
    moves its entries. When it does is a parameter ([moves]); the theorems ask of it what the library documents, that a map does not move its entries while
    there are no more than it was reserved for ([reserved]). The code reserves the predicted number, so a
    description is certain to be made when the prediction is right ([predicted]). The loop over the states runs at most [2 ^ states_fuel] rounds: a state is a set of
    positions that are in a box, so the fuel is more than the number of positions with and without transposition.
    A table is [complete] when the loop did not stop before the last state, as it does when the prediction is right. [LevenshteinTables] lists the states for distances up to 2, and for 3 without
    transpositions: each is found from one before it, and the list is closed under transitions, so the predicted
    numbers are the numbers of states. Larger tables are not listed, for the time it takes to check them.

    ** Where the code deviates

    Examples evaluate concrete inputs on which the code does not do what it means to:
    [sparse_bitmap_deviations], [small_visit_loses_iterators], [block_disjunction_deviations]; so do parts of
    [roundup_power2_spec] and [ctr_encryption_spec]. [zvfloat_roundtrip], [remapped_seek_pointer],
    [simd_zig_zag_roundtrip], [memory_file_boundaries] and [column_store_deviations] state such behaviour for all
    inputs that lead to it.

    ** Not modelled

    Scores (floating-point, only the position of a score in its buffer is modelled), allocation failure, threads, file systems and directories (system calls), the term dictionary
    (it rests on OpenFst, a submodule), the automata that are made of parametric descriptions and of wildcards
    (OpenFst too), text analysis (ICU, snowball and generated Unicode tables),
    the index writer (threads and directories), third-party code under src/external, bindings, tests and tools. Of the column store: the in-memory
    caching of columns (make_buffered) and the headers and footers of its files. Of the postings: positions, payloads
    and offsets (fields with positions are refused by [postings_iterator]; their metadata is modelled), block-max
    scores, file names, headers and footers. *)
From stdpp Require Export base numbers list option sorting.
From Stdlib Require Export ZArith Lia.

Global Open Scope Z_scope.

(** ** Fixed-width unsigned words *)

(** The value a [w]-bit unsigned object holds after being assigned [x]. *)
Definition wrap (w x : Z) : Z := x mod 2 ^ w.

(** Two's-complement reading of a [w]-bit pattern: [static_cast<intN_t>]. *)
Definition to_signed (w x : Z) : Z :=
  let u := wrap w x in if u <? 2 ^ (w - 1) then u else u - 2 ^ w.

(** [x] is the value of an unsigned object of width [w]. *)
Definition is_word (w x : Z) : Prop := 0 <= x < 2 ^ w.

(** [x] is the value of a signed object of width [w]. *)
Definition is_int (w x : Z) : Prop := - 2 ^ (w - 1) <= x < 2 ^ (w - 1).

(** A byte of a stream ([byte_type]). *)
Abbreviation is_byte := (is_word 8).

Declare Scope word_scope.
Delimit Scope word_scope with word.
Notation "x +[ w ] y" := (wrap w (x + y)) (at level 50, left associativity) : word_scope.
Notation "x -[ w ] y" := (wrap w (x - y)) (at level 50, left associativity) : word_scope.
Notation "x <<[ w ] n" := (wrap w (Z.shiftl x n)) (at level 35, right associativity) : word_scope.
Notation "~[ w ] x" := (wrap w (Z.lnot x)) (at level 35, right associativity) : word_scope.
Global Open Scope word_scope.

#[global] Instance is_word_dec w x : Decision (is_word w x).
Proof. unfold is_word. apply _. Defined.

#[global] Instance is_int_dec w x : Decision (is_int w x).
Proof. unfold is_int. apply _. Defined.

(** Linear arithmetic with division and modulo. *)
Ltac word_lia := Z.to_euclidean_division_equations; lia.

(** A loop with a bound on its iterations: [None] when the bound is exceeded. *)
Fixpoint while {St : Type} (fuel : nat) (cond : St -> bool) (body : St -> St) (s : St) : option St :=
  if cond s then
    match fuel with
    | O => None
    | S fuel => while fuel cond body (body s)
    end
  else Some s.

(** A loop whose body may leave it with a result, or fail: [2 ^ k] iterations at most
    ([None] also when the bound is exceeded). Only the iterations needed are evaluated. *)
Fixpoint loop {St R : Type} (k : nat) (body : St -> option (St + R)) (s : St) : option (St + R) :=
  match k with
  | O => body s
  | S k =>
      r ← loop k body s;
      match r with
      | inl s' => loop k body s'
      | inr x => Some (inr x)
      end
  end.

Definition iterate {St R : Type} (k : nat) (body : St -> option (St + R)) (s : St) : option R :=
  r ← loop k body s;
  match r with
  | inl _ => None
  | inr x => Some x
  end.

(** ** Tactics *)

Create Rewrite HintDb word.
Create Rewrite HintDb bits.

(** Destructs the boolean comparisons of a goal. *)
Ltac bdestruct_all :=
  repeat match goal with
  | |- context [?a <? ?b] => destruct (Z.ltb_spec a b)
  | |- context [?a <=? ?b] => destruct (Z.leb_spec a b)
  | |- context [?a =? ?b] => destruct (Z.eqb_spec a b)
  | H : context [?a <? ?b] |- _ => destruct (Z.ltb_spec a b)
  | H : context [?a <=? ?b] |- _ => destruct (Z.leb_spec a b)
  | H : context [?a =? ?b] |- _ => destruct (Z.eqb_spec a b)
  end.

(** Splits a monadic bind that returned a result on its first step. *)
Ltac bind_inv H :=
  match type of H with
  | (?m ≫= _) = Some _ =>
      let E := fresh "E" in destruct m eqn:E; [simpl in H|discriminate H]
  end.

(** ** Words *)

Lemma pow2_pos w : 0 <= w -> 0 < 2 ^ w.
Proof. intros; apply Z.pow_pos_nonneg; lia. Qed.

Lemma wrap_range w x : 0 <= w -> is_word w (wrap w x).
Proof. intros. unfold is_word, wrap. apply Z.mod_pos_bound. by apply pow2_pos. Qed.

Lemma wrap_small w x : is_word w x -> wrap w x = x.
Proof. intros. by apply Z.mod_small. Qed.

Lemma wrap_wrap w x : wrap w (wrap w x) = wrap w x.
Proof.
  unfold wrap. destruct (decide (2 ^ w = 0)) as [->|]; [by rewrite !Z.mod_0_r|].
  by rewrite Zmod_mod.
Qed.

Lemma wrap_add_l w x y : wrap w (wrap w x + y) = wrap w (x + y).
Proof. unfold wrap. apply Zplus_mod_idemp_l. Qed.

Lemma wrap_add_r w x y : wrap w (x + wrap w y) = wrap w (x + y).
Proof. unfold wrap. apply Zplus_mod_idemp_r. Qed.

Lemma wrap_sub_l w x y : wrap w (wrap w x - y) = wrap w (x - y).
Proof. unfold wrap. apply Zminus_mod_idemp_l. Qed.

Lemma wrap_sub_r w x y : wrap w (x - wrap w y) = wrap w (x - y).
Proof. unfold wrap. apply Zminus_mod_idemp_r. Qed.

Lemma wrap_land w x : 0 <= w -> wrap w x = Z.land x (Z.ones w).
Proof. intros. unfold wrap. by rewrite Z.land_ones. Qed.

Lemma wrap_add_multiple w x k : 0 <= w -> wrap w (x + k * 2 ^ w) = wrap w x.
Proof. intros. unfold wrap. apply Z_mod_plus_full. Qed.

#[export] Hint Rewrite wrap_wrap wrap_add_l wrap_add_r wrap_sub_l wrap_sub_r : word.

Lemma to_signed_wrap w x : is_int w x -> 1 <= w -> to_signed w (wrap w x) = x.
Proof.
  unfold to_signed, is_int. intros Hx Hw. rewrite wrap_wrap. unfold wrap.
  assert (2 ^ w = 2 * 2 ^ (w - 1)) as E by (rewrite <-Z.pow_succ_r by lia; f_equal; lia).
  pose proof (pow2_pos (w - 1)).
  destruct (decide (0 <= x)).
  - rewrite Z.mod_small by lia. destruct (Z.ltb_spec x (2 ^ (w - 1))); lia.
  - replace (x mod 2 ^ w) with (x + 2 ^ w).
    + destruct (Z.ltb_spec (x + 2 ^ w) (2 ^ (w - 1))); lia.
    + rewrite <-(Z_mod_plus_full x 1). rewrite Z.mul_1_l. symmetry. apply Z.mod_small. lia.
Qed.

Lemma to_signed_range w x : 1 <= w -> is_int w (to_signed w x).
Proof.
  intros Hw. pose proof (wrap_range w x ltac:(lia)) as Hr.
  unfold to_signed, is_int, is_word in *.
  assert (2 ^ w = 2 * 2 ^ (w - 1)) as E by (rewrite <-Z.pow_succ_r by lia; f_equal; lia).
  destruct (Z.ltb_spec (wrap w x) (2 ^ (w - 1))); lia.
Qed.

Lemma wrap_to_signed w x : 1 <= w -> wrap w (to_signed w x) = wrap w x.
Proof.
  intros Hw. unfold to_signed. cbv zeta. destruct (wrap w x <? 2 ^ (w - 1)).
  - apply wrap_wrap.
  - rewrite wrap_sub_l. replace (x - 2 ^ w) with (x + (-1) * 2 ^ w) by lia.
    apply wrap_add_multiple. lia.
Qed.

(** ** Bits *)

Lemma testbit_high w x i : is_word w x -> 0 <= w -> w <= i -> Z.testbit x i = false.
Proof.
  intros Hx Hw Hi. rewrite <-(wrap_small w x Hx). by apply Z.mod_pow2_bits_high.
Qed.

Lemma wrap_testbit w x i : 0 <= w -> 0 <= i -> Z.testbit (wrap w x) i = (i <? w) && Z.testbit x i.
Proof.
  intros Hw Hi. unfold wrap. destruct (Z.ltb_spec i w).
  - by rewrite Z.mod_pow2_bits_low.
  - by rewrite Z.mod_pow2_bits_high.
Qed.

Lemma ones_testbit w i : 0 <= w -> 0 <= i -> Z.testbit (Z.ones w) i = (i <? w).
Proof.
  intros Hw Hi. destruct (Z.ltb_spec i w).
  - by apply Z.ones_spec_low.
  - by apply Z.ones_spec_high.
Qed.

Lemma pow2_testbit n i : 0 <= n -> 0 <= i -> Z.testbit (2 ^ n) i = (i =? n).
Proof.
  intros. destruct (Z.eqb_spec i n); [subst; by apply Z.pow2_bits_true|by apply Z.pow2_bits_false].
Qed.

Lemma shiftl_testbit x n i : 0 <= i -> Z.testbit (Z.shiftl x n) i = Z.testbit x (i - n).
Proof. intros. by apply Z.shiftl_spec. Qed.

Lemma shiftr_testbit x n i : 0 <= i -> Z.testbit (Z.shiftr x n) i = Z.testbit x (i + n).
Proof. intros. by apply Z.shiftr_spec. Qed.

Lemma lnot_testbit x i : 0 <= i -> Z.testbit (Z.lnot x) i = negb (Z.testbit x i).
Proof. intros. by apply Z.lnot_spec. Qed.

Lemma m1_testbit i : 0 <= i -> Z.testbit (-1) i = true.
Proof. intros. by apply Z.bits_m1. Qed.

#[export] Hint Rewrite Z.land_spec Z.lor_spec Z.lxor_spec Z.bits_0 : bits.
#[export] Hint Rewrite wrap_testbit ones_testbit pow2_testbit shiftl_testbit shiftr_testbit
  lnot_testbit m1_testbit using lia : bits.

(** One case split of a bitwise goal: on a comparison, or on the sign of a bit index. *)
Ltac bit_split :=
  match goal with
  | |- context [?a <? ?b] => destruct (Z.ltb_spec a b)
  | |- context [?a =? ?b] => destruct (Z.eqb_spec a b)
  | |- context [Z.testbit ?x ?i] => rewrite (Z.testbit_neg_r x i) by lia
  | |- context [Z.testbit ?x (?i - ?n)] =>
      tryif assert (0 <= i - n) by lia then fail else destruct (Z.ltb_spec i n)
  end.

Ltac bit_simpl :=
  autorewrite with bits;
  cbn [andb orb negb xorb];
  rewrite ?andb_false_r, ?andb_true_r, ?orb_false_r, ?orb_true_r, ?xorb_false_r.

(** Proves an equation of integers bit by bit. *)
Ltac bitwise :=
  apply Z.bits_inj'; intros ?i ?Hi; bit_simpl; repeat (bit_split; bit_simpl);
  try reflexivity; try lia.

(** A number split at bit [k]. *)
Lemma land_low_high x y k : 0 <= k -> is_word k x -> Z.land x (Z.shiftl y k) = 0.
Proof.
  intros Hk Hx. apply Z.bits_inj'. intros i Hi. rewrite Z.land_spec, Z.shiftl_spec, Z.bits_0 by lia.
  destruct (Z.ltb_spec i k).
  - by rewrite (Z.testbit_neg_r y), andb_false_r by lia.
  - by rewrite (testbit_high k x) by (done || lia).
Qed.

Lemma lor_low_high x y k : 0 <= k -> is_word k x -> Z.lor x (Z.shiftl y k) = x + y * 2 ^ k.
Proof.
  intros Hk Hx. rewrite <-Z.lxor_lor, <-Z.add_nocarry_lxor by (by apply land_low_high).
  by rewrite Z.shiftl_mul_pow2.
Qed.

Lemma lxor_ones w x : 0 <= w -> is_word w x -> Z.lxor x (Z.ones w) = 2 ^ w - 1 - x.
Proof.
  intros Hw Hx. assert (Z.lxor x (Z.ones w) = wrap w (Z.lnot x)) as ->.
  { bitwise; by rewrite ?xorb_true_r, ?(testbit_high w x) by (done || lia). }
  unfold wrap. assert (Z.lnot x = -x - 1) as -> by (pose proof (Z.add_lnot_diag x); lia).
  rewrite <-(Z_mod_plus_full _ 1), Z.mul_1_l. rewrite Z.mod_small; unfold is_word in Hx; lia.
Qed.

(** ** Loops *)

(** The rule of a loop: an invariant indexed by what remains to be done, and what holds on leaving. *)
Lemma iterate_ghost {St R} (I : Z -> St -> Prop) (Q : R -> Prop) (body : St -> option (St + R)) :
  (forall n s, I n s -> 0 <= n /\ exists r, body s = Some r /\
     match r with inl s' => exists n', n' < n /\ I n' s' | inr x => Q x end) ->
  forall k n s, I n s -> n < 2 ^ Z.of_nat k -> exists x, iterate k body s = Some x /\ Q x.
Proof.
  intros Hstep.
  assert (forall k n s, I n s -> exists r, loop k body s = Some r /\
            match r with inl s' => exists n', n' + 2 ^ Z.of_nat k <= n /\ I n' s' | inr x => Q x end) as Hloop.
  { induction k as [|k IH]; intros n s HI.
    - destruct (Hstep n s HI) as (_ & r & Hr & Hpost). exists r. split; [done|].
      destruct r; [|done]. destruct Hpost as (n' & ? & ?). exists n'. change (2 ^ Z.of_nat 0) with 1. split; [lia|done].
    - destruct (IH n s HI) as (r & Hr & Hpost). cbn [loop]. rewrite Hr. cbn [mbind option_bind].
      destruct r as [s'|x]; [|by exists (inr x)].
      destruct Hpost as (n' & Hn & HI'). destruct (IH n' s' HI') as (r' & Hr' & Hpost').
      exists r'. split; [done|]. destruct r' as [s''|x]; [|done].
      destruct Hpost' as (n'' & ? & ?). exists n''. rewrite Nat2Z.inj_succ, Z.pow_succ_r by lia. split; [lia|done]. }
  intros k n s HI Hk. destruct (Hloop k n s HI) as (r & Hr & Hpost). unfold iterate. rewrite Hr.
  cbn [mbind option_bind]. destruct r as [s'|x]; [|by exists x].
  destruct Hpost as (n' & Hn & HI'). destruct (Hstep n' s' HI') as [H0 _]. lia.
Qed.

(** The same with a measure of the state. *)
Lemma iterate_rule {St R} (I : St -> Prop) (m : St -> Z) (Q : R -> Prop) (body : St -> option (St + R)) :
  (forall s, I s -> 0 <= m s /\ exists r, body s = Some r /\
     match r with inl s' => I s' /\ m s' < m s | inr x => Q x end) ->
  forall k s, I s -> m s < 2 ^ Z.of_nat k -> exists x, iterate k body s = Some x /\ Q x.
Proof.
  intros Hstep k s HI Hk. apply (iterate_ghost (fun n s => I s /\ m s = n) Q body) with (n := m s); [|done|done].
  intros n s1 [H1 <-]. destruct (Hstep s1 H1) as (H0 & r & Hr & Hpost). split; [done|]. exists r. split; [done|].
  destruct r as [s'|x]; [|done]. destruct Hpost. by exists (m s').
Qed.

(** What a loop that has ended has kept. *)
Lemma iterate_partial {St R} (I : St -> Prop) (Q : R -> Prop) (body : St -> option (St + R)) :
  (forall s r, I s -> body s = Some r -> match r with inl s' => I s' | inr x => Q x end) ->
  forall k s x, I s -> iterate k body s = Some x -> Q x.
Proof.
  intros Hstep. assert (forall k s r, I s -> loop k body s = Some r -> match r with inl s' => I s' | inr x => Q x end) as Hloop.
  { induction k as [|k IH]; intros s r HI Hr; [by apply (Hstep s)|]. cbn [loop] in Hr. destruct (loop k body s) as [r1|] eqn:E1; [|done].
    cbn [mbind option_bind] in Hr. specialize (IH s r1 HI E1) as H1. destruct r1 as [s1|x1]; [by apply (IH s1)|by injection Hr as <-]. }
  intros k s x HI Hx. unfold iterate in Hx. destruct (loop k body s) as [r|] eqn:E; [|done]. cbn [mbind option_bind] in Hx.
  specialize (Hloop k s r HI E). destruct r as [s1|y]; [done|]. by injection Hx as <-.
Qed.

(** ** Lists *)

Lemma rev_replicate {A} n (x : A) : rev (replicate n x) = replicate n x.
Proof.
  assert (forall n, replicate n x ++ [x] = x :: replicate n x) as H.
  { intros k. induction k as [|k IH]; [done|]. cbn [replicate app]. by rewrite IH. }
  induction n as [|n IH]; [done|]. cbn [replicate rev]. by rewrite IH, H.
Qed.

(** [bs] copied over the bytes from [off]. *)
Definition poke {A} (off : nat) (bs data : list A) : list A := take off data ++ bs ++ drop (off + length bs) data.

Lemma poke_length {A} off (bs data : list A) : (off + length bs <= length data)%nat -> length (poke off bs data) = length data.
Proof. intros H. unfold poke. rewrite !length_app, length_take, length_drop. lia. Qed.
