(* ===== verification/Outcome.v ===== *)
(** * Outcomes

    The results of functions that may throw: a value or an exception. [None] around an outcome is a step
    that the code does not check and that leaves its memory or its input. *)
From S2P Require Import Prelude.
From Stdlib Require Import String.
Export String.StringSyntax.

(** The exceptions of core/error/error.hpp, with what the text they are thrown with says. *)
Inductive exception :=
  | io_error (what : string)
  | index_error (what : string)
  | illegal_state (what : string).

Inductive outcome (A : Type) := Done (a : A) | Thrown (e : exception).
Arguments Done {A} a.
Arguments Thrown {A} e.

Definition outcome_bind {A B} (k : A -> option (outcome B)) (x : option (outcome A)) : option (outcome B) :=
  match x with
  | Some (Done a) => k a
  | Some (Thrown e) => Some (Thrown e)
  | None => None
  end.

Definition done_ {A} (x : A) : option (outcome A) := Some (Done x).
Definition throw {A} (e : exception) : option (outcome A) := Some (Thrown e).
(** [if (b) throw e;] *)
Definition throw_if (b : bool) (e : exception) : option (outcome ()) := if b then throw e else done_ ().
(** A step that cannot throw *)
Definition lift {A} (x : option A) : option (outcome A) := Done <$> x.

Declare Scope outcome_scope.
Notation "x ⇐ y ; z" := (outcome_bind (fun x => z) y)
  (at level 20, y at level 100, z at level 200, only parsing) : outcome_scope.
Notation "' x ⇐ y ; z" := (outcome_bind (fun x => z) y)
  (at level 20, x pattern, y at level 100, z at level 200, only parsing) : outcome_scope.
Global Open Scope outcome_scope.

(** The monad laws *)
Lemma bind_done {A B} (k : A -> option (outcome B)) x : outcome_bind k (Some (Done x)) = k x.
Proof. done. Qed.

Lemma bind_done_ {A B} (k : A -> option (outcome B)) x : outcome_bind k (done_ x) = k x.
Proof. done. Qed.

Lemma bind_lift {A B} (k : A -> option (outcome B)) x : outcome_bind k (lift (Some x)) = k x.
Proof. done. Qed.

Lemma bind_check {B} (k : () -> option (outcome B)) e : outcome_bind k (throw_if false e) = k tt.
Proof. done. Qed.

Lemma bind_assoc {A B C} (x : option (outcome A)) (k : A -> option (outcome B)) (l : B -> option (outcome C)) :
  outcome_bind l (outcome_bind k x) = outcome_bind (fun a => outcome_bind l (k a)) x.
Proof. by destruct x as [[|]|]. Qed.

Lemma bind_ret {A} (x : option (outcome A)) : outcome_bind done_ x = x.
Proof. by destruct x as [[|]|]. Qed.
