(* ===== verification/BitUtils.v ===== *)
(** Bit manipulation and integer arithmetic helpers: [core/utils/bit_utils.hpp] (Module [Bit])
    and [core/utils/math_utils.hpp] (Module [Math]).  A template parameter [T] that is an unsigned
    integer type is its width [w] in bits, a value of it an integer [x] with [is_word w x]. *)
From S2P Require Import Prelude.

Module Bit.

(** [bits_required<T>()] and [bits_required<T>(n)] *)
Definition bits_required (w : Z) : Z := w.
Definition bits_required_n (w n : Z) : Z := wrap 64 (bits_required w * n).

Definition set_bit (w value bit : Z) : Z := Z.lor value (1 <<[w] bit).
Definition unset_bit (w value bit : Z) : Z := Z.land value (~[w] (1 <<[w] bit)).
Definition set_bit_to (w value bit : Z) (set : bool) : Z :=
  if set then set_bit w value bit else unset_bit w value bit.
Definition unset_bit_if (w value bit : Z) (unset : bool) : Z :=
  if unset then unset_bit w value bit else value.
Definition check_bit (w value bit : Z) : bool := negb (Z.land value (1 <<[w] bit) =? 0).

Definition rol (w offset value : Z) : Z := Z.lor (value <<[w] offset) (Z.shiftr value (w - offset)).
Definition ror (w offset value : Z) : Z := Z.lor (Z.shiftr value offset) (value <<[w] (w - offset)).

(** [(v >> (w-1)) ^ (uintw_t(v) << 1)] on a signed [v]; the arithmetic shift's result is converted
    to the unsigned type by the exclusive or. *)
Definition zig_zag_encode (w v : Z) : Z :=
  Z.lxor (wrap w (Z.shiftr v (w - 1))) (wrap w v <<[w] 1).
(** [(v >> 1) ^ -(v & 1)] on an unsigned [v], converted to the signed type. *)
Definition zig_zag_decode (w v : Z) : Z :=
  to_signed w (Z.lxor (Z.shiftr v 1) (wrap w (- Z.land v 1))).

Definition zig_zag_encode32 : Z -> Z := zig_zag_encode 32.
Definition zig_zag_decode32 : Z -> Z := zig_zag_decode 32.
Definition zig_zag_encode64 : Z -> Z := zig_zag_encode 64.
Definition zig_zag_decode64 : Z -> Z := zig_zag_decode 64.

(** [enum_bitwise_traits<T>] on the underlying values. *)
Definition enum_bitwise_or (lhs rhs : Z) : Z := Z.lor lhs rhs.
Definition enum_bitwise_xor (lhs rhs : Z) : Z := Z.lxor lhs rhs.
Definition enum_bitwise_and (lhs rhs : Z) : Z := Z.land lhs rhs.
Definition enum_bitwise_not (w v : Z) : Z := ~[w] v.

Lemma shl1 w i : 0 <= i < w -> 1 <<[w] i = 2 ^ i.
Proof.
  intros. rewrite Z.shiftl_1_l. apply wrap_small. split; [apply Z.pow_nonneg; lia|].
  apply Z.pow_lt_mono_r; lia.
Qed.

Lemma check_bit_testbit w x i : 0 <= i < w -> check_bit w x i = Z.testbit x i.
Proof.
  intros Hi. unfold check_bit. rewrite shl1 by done.
  destruct (Z.testbit x i) eqn:E.
  - destruct (Z.eqb_spec (Z.land x (2 ^ i)) 0) as [H|]; [|done].
    apply (f_equal (fun z => Z.testbit z i)) in H.
    rewrite Z.land_spec, E, Z.pow2_bits_true, Z.bits_0 in H by lia. done.
  - destruct (Z.eqb_spec (Z.land x (2 ^ i)) 0) as [|H]; [done|].
    exfalso. apply H. bitwise; subst; by rewrite E.
Qed.

Lemma set_bit_testbit w x i j : 0 <= i < w -> 0 <= j ->
  Z.testbit (set_bit w x i) j = (j =? i) || Z.testbit x j.
Proof. intros. unfold set_bit. rewrite shl1 by done. autorewrite with bits. apply orb_comm. Qed.

Lemma unset_bit_testbit w x i j : 0 <= i < w -> 0 <= j -> is_word w x ->
  Z.testbit (unset_bit w x i) j = negb (j =? i) && Z.testbit x j.
Proof.
  intros. unfold unset_bit. rewrite shl1 by done. autorewrite with bits.
  destruct (Z.ltb_spec j w); [apply andb_comm|].
  rewrite (testbit_high w x j) by (done || lia). lia.
Qed.

Lemma set_bit_word w x i : 0 <= i < w -> is_word w x -> is_word w (set_bit w x i).
Proof.
  intros Hi Hx. rewrite <-(wrap_small w x Hx). unfold set_bit.
  assert (Z.lor (wrap w x) (1 <<[w] i) = wrap w (Z.lor x (1 <<[w] i))) as ->.
  { bitwise. }
  apply wrap_range. lia.
Qed.

Lemma unset_bit_word w x i : 0 <= i < w -> is_word w x -> is_word w (unset_bit w x i).
Proof.
  intros Hi Hx. unfold unset_bit.
  assert (Z.land x (~[w] (1 <<[w] i)) = wrap w (Z.land x (~[w] (1 <<[w] i)))) as ->.
  { symmetry. apply wrap_small. rewrite <-(wrap_small w x Hx).
    assert (Z.land (wrap w x) (~[w] (1 <<[w] i)) = wrap w (Z.land x (Z.lnot (1 <<[w] i)))) as ->.
    { bitwise. }
    apply wrap_range. lia. }
  apply wrap_range. lia.
Qed.

(** Left rotation composed with right rotation by the same offset. *)
Lemma rol_testbit w k x i : 0 <= k <= w -> is_word w x -> 0 <= i < w ->
  Z.testbit (rol w k x) i = Z.testbit x (if i <? k then i - k + w else i - k).
Proof.
  intros Hk Hx Hi. unfold rol. autorewrite with bits.
  destruct (Z.ltb_spec i w); [|lia]. destruct (Z.ltb_spec i k); simpl.
  - rewrite (Z.testbit_neg_r x (i - k)) by lia. simpl. f_equal. lia.
  - rewrite (testbit_high w x (i + (w - k))) by (done || lia). apply orb_false_r.
Qed.

(** [zig_zag_encode] in closed form: non-negative numbers are the even codes, negative ones the odd
    codes. *)
Lemma zig_zag_encode_eq w v : 2 <= w -> is_int w v ->
  zig_zag_encode w v = if 0 <=? v then 2 * v else - 2 * v - 1.
Proof.
  intros Hw Hv. unfold zig_zag_encode, is_int in *.
  assert (2 ^ w = 2 * 2 ^ (w - 1)) as E by (rewrite <-Z.pow_succ_r by lia; f_equal; lia).
  rewrite Z.shiftl_mul_pow2 by lia. change (2 ^ 1) with 2.
  destruct (Z.leb_spec 0 v).
  - rewrite (Z.shiftr_div_pow2 v), Z.div_small by lia. rewrite (wrap_small w v) by (split; lia).
    rewrite !wrap_small by (split; lia). rewrite Z.lxor_0_l. lia.
  - rewrite Z.shiftr_div_pow2 by lia.
    replace (v / 2 ^ (w - 1)) with (-1) by (apply Z.div_unique with (v + 2 ^ (w - 1)); lia).
    assert (wrap w (-1) = Z.ones w) as ->.
    { unfold wrap. rewrite Z.ones_equiv. symmetry. apply Z.mod_unique with (-1); lia. }
    assert (wrap w (wrap w v * 2) = 2 * v + 2 ^ w) as ->.
    { replace (wrap w v) with (v + 2 ^ w).
      - symmetry. unfold wrap. apply Z.mod_unique with 1; lia.
      - unfold wrap. apply Z.mod_unique with (-1); lia. }
    rewrite Z.lxor_comm, lxor_ones by (unfold is_word; lia). lia.
Qed.

Lemma zig_zag_encode_word w v : 2 <= w -> is_int w v -> is_word w (zig_zag_encode w v).
Proof.
  intros Hw Hv. rewrite zig_zag_encode_eq by done. unfold is_int, is_word in *.
  assert (2 ^ w = 2 * 2 ^ (w - 1)) as E by (rewrite <-Z.pow_succ_r by lia; f_equal; lia).
  destruct (Z.leb_spec 0 v); lia.
Qed.

Lemma zig_zag_decode_eq w u : 2 <= w -> is_word w u ->
  zig_zag_decode w u = if u mod 2 =? 0 then u / 2 else - (u / 2) - 1.
Proof.
  intros Hw Hu. unfold zig_zag_decode, is_word in *.
  assert (2 ^ w = 2 * 2 ^ (w - 1)) as E by (rewrite <-Z.pow_succ_r by lia; f_equal; lia).
  change 1 with (Z.ones 1) at 2. rewrite Z.land_ones by lia. change (2 ^ 1) with 2.
  rewrite Z.shiftr_div_pow2 by lia. change (2 ^ 1) with 2.
  pose proof (Z.div_mod u 2 ltac:(lia)). pose proof (Z.mod_pos_bound u 2 ltac:(lia)).
  destruct (Z.eqb_spec (u mod 2) 0) as [E0|E0].
  - rewrite E0, wrap_small by (split; lia). rewrite Z.lxor_0_r. unfold to_signed.
    rewrite wrap_small by (split; lia). destruct (Z.ltb_spec (u / 2) (2 ^ (w - 1))); lia.
  - replace (- (u mod 2)) with (-1) by lia.
    assert (wrap w (-1) = Z.ones w) as ->.
    { unfold wrap. rewrite Z.ones_equiv. symmetry. apply Z.mod_unique with (-1); lia. }
    rewrite lxor_ones by (unfold is_word; lia). unfold to_signed.
    rewrite wrap_small by (split; lia).
    destruct (Z.ltb_spec (2 ^ w - 1 - u / 2) (2 ^ (w - 1))); lia.
Qed.

Lemma zig_zag_decode_encode w v : 2 <= w -> is_int w v -> zig_zag_decode w (zig_zag_encode w v) = v.
Proof.
  intros Hw Hv. rewrite zig_zag_decode_eq by auto using zig_zag_encode_word.
  rewrite zig_zag_encode_eq by done. destruct (Z.leb_spec 0 v).
  - rewrite (Z.mul_comm 2 v), Z_mod_mult, Z.div_mul by lia. done.
  - replace (-2 * v - 1) with (1 + (- v - 1) * 2) by lia.
    rewrite Z_mod_plus_full, Z.div_add by lia. change (1 mod 2) with 1. change (1 / 2) with 0.
    destruct (Z.eqb_spec 1 0); lia.
Qed.

Lemma zig_zag_encode_decode w u : 2 <= w -> is_word w u -> zig_zag_encode w (zig_zag_decode w u) = u.
Proof.
  intros Hw Hu. pose proof (Z.div_mod u 2 ltac:(lia)). pose proof (Z.mod_pos_bound u 2 ltac:(lia)).
  assert (2 ^ w = 2 * 2 ^ (w - 1)) as E by (rewrite <-Z.pow_succ_r by lia; f_equal; lia).
  unfold is_word in Hu.
  rewrite zig_zag_encode_eq; rewrite ?zig_zag_decode_eq by done.
  - destruct (Z.eqb_spec (u mod 2) 0); bdestruct_all; lia.
  - done.
  - unfold is_int. destruct (Z.eqb_spec (u mod 2) 0); lia.
Qed.

End Bit.

Module Math.

(** [std::countl_zero] *)
Definition countl_zero (w x : Z) : Z := match x with Zpos _ => w - 1 - Z.log2 x | _ => w end.

(** [sum_check_overflow]: the flag and the sum *)
Definition sum_check_overflow (w lhs rhs : Z) : bool * Z :=
  let sum := lhs +[w] rhs in ((lhs <=? sum) && (rhs <=? sum), sum).

Definition smear (k v : Z) : Z := Z.lor v (Z.shiftr v k).

(** [roundup_power2(size_t v)] *)
Definition roundup_power2 (v : Z) : Z :=
  let v := v -[64] 1 in
  let v := smear 1 v in
  let v := smear 2 v in
  let v := smear 4 v in
  let v := smear 8 v in
  let v := smear 16 v in
  v +[64] 1.

Definition is_power2 (w v : Z) : bool := Z.land v (v -[w] 1) =? 0.

(** [div_ceil32] and [div_ceil64] *)
Definition div_ceil (w num den : Z) : Z := (num + den -[w] 1) / den.
Definition div_ceil64 := div_ceil 64.
Definition div_ceil32 := div_ceil 32.
(** [ceil32] and [ceil64] on integers *)
Definition ceil (w value step : Z) : Z := wrap w (div_ceil w value step * step).

(** [log(x, base)]: [while (x >= base) { x /= base; ++res; }] *)
Fixpoint log_loop (fuel : nat) (x base res : Z) : option Z :=
  if base <=? x then
    match fuel with
    | O => None
    | S fuel => log_loop fuel (x / base) base (res +[32] 1)
    end
  else Some res.
Definition log (x base : Z) : option Z := log_loop 64 x base 0.

(** [__builtin_clz] and [__builtin_clzll] on a non-zero argument *)
Definition clz (w v : Z) : Z := w - 1 - Z.log2 v.
Definition log2_floor_32 (v : Z) : Z := Z.lxor 31 (clz 32 v).
Definition log2_floor_64 (v : Z) : Z := Z.lxor 63 (clz 64 v).
Definition log2_ceil_32 (v : Z) : Z := wrap 32 (log2_floor_32 v + Z.b2z (negb (is_power2 32 v))).
Definition log2_ceil_64 (v : Z) : Z := wrap 64 (log2_floor_64 v + Z.b2z (negb (is_power2 64 v))).

(** [std::popcount] of one word *)
Fixpoint pos_popcount (p : positive) : Z :=
  match p with
  | xH => 1
  | xO p => pos_popcount p
  | xI p => 1 + pos_popcount p
  end.
Definition popcount_word (x : Z) : Z := match x with Zpos p => pos_popcount p | _ => 0 end.
(** [popcount(begin, end)] *)
Definition popcount (words : list Z) : Z := foldl (fun acc x => wrap 64 (acc + popcount_word x)) 0 words.

(** [math_traits<T>::bits_required] *)
Definition bits_required (w val : Z) : Z := if val =? 0 then 0 else w - clz w val.

Lemma sum_check_overflow_spec w lhs rhs : 0 <= w -> is_word w lhs -> is_word w rhs ->
  sum_check_overflow w lhs rhs = (lhs + rhs <? 2 ^ w, wrap w (lhs + rhs)).
Proof.
  intros Hw Hl Hr. unfold sum_check_overflow, is_word in *. cbv zeta. f_equal.
  destruct (Z.ltb_spec (lhs + rhs) (2 ^ w)).
  - rewrite wrap_small by (unfold is_word; lia). bdestruct_all; lia.
  - replace (wrap w (lhs + rhs)) with (lhs + rhs - 2 ^ w).
    + bdestruct_all; lia.
    + unfold wrap. apply Z.mod_unique with 1; lia.
Qed.

Lemma log2_floor_32_spec v : 0 < v < 2 ^ 32 -> log2_floor_32 v = Z.log2 v.
Proof.
  intros Hv. unfold log2_floor_32, clz.
  assert (0 <= Z.log2 v < 32) by (split; [apply Z.log2_nonneg|apply Z.log2_lt_pow2; lia]).
  rewrite Z.lxor_comm. change 31 with (Z.ones 5). rewrite lxor_ones by (unfold is_word; lia). lia.
Qed.

Lemma log2_floor_64_spec v : 0 < v < 2 ^ 64 -> log2_floor_64 v = Z.log2 v.
Proof.
  intros Hv. unfold log2_floor_64, clz.
  assert (0 <= Z.log2 v < 64) by (split; [apply Z.log2_nonneg|apply Z.log2_lt_pow2; lia]).
  rewrite Z.lxor_comm. change 63 with (Z.ones 6). rewrite lxor_ones by (unfold is_word; lia). lia.
Qed.

(** Bits [L - m + 1 .. L] of [a] are set and no higher one is. *)
Definition smeared (L m a : Z) : Prop :=
  0 <= a /\ (forall i, L < i -> Z.testbit a i = false) /\
  (forall i, 0 <= i -> L - m < i <= L -> Z.testbit a i = true).

Lemma smeared_log2 x : 0 < x -> smeared (Z.log2 x) 1 x.
Proof.
  intros Hx. split; [lia|]. split; intros i Hi.
  - apply Z.bits_above_log2; lia.
  - intros. replace i with (Z.log2 x) by lia. by apply Z.bit_log2.
Qed.

Lemma smear_smeared L m k a : 0 <= k <= m -> smeared L m a -> smeared L (m + k) (smear k a).
Proof.
  intros Hk (Ha & Hhi & Hlo). unfold smear. split; [|split].
  - apply Z.lor_nonneg. split; [done|]. by apply Z.shiftr_nonneg.
  - intros i Hi. destruct (decide (0 <= i)); [|apply Z.testbit_neg_r; lia].
    rewrite Z.lor_spec, Z.shiftr_spec by lia. rewrite !Hhi by lia. done.
  - intros i Hi0 Hi. rewrite Z.lor_spec, Z.shiftr_spec by lia.
    destruct (decide (L - m < i)); [by rewrite Hlo by lia|].
    rewrite (Hlo (i + k)) by lia. apply orb_true_r.
Qed.

Lemma smeared_full L m a : 0 <= L -> L < m -> smeared L m a -> a = 2 ^ (L + 1) - 1.
Proof.
  intros HL Hm (Ha & Hhi & Hlo).
  replace (2 ^ (L + 1) - 1) with (Z.ones (L + 1)) by (rewrite Z.ones_equiv; lia).
  bitwise; [apply Hlo; lia|apply Hhi; lia].
Qed.

(** The value the five shifts of [roundup_power2] compute. *)
Lemma roundup_power2_eq v : 1 <= v <= 2 ^ 32 -> roundup_power2 v = 2 ^ Z.log2_up v.
Proof.
  intros Hv. destruct (decide (v = 1)) as [->|]; [reflexivity|].
  unfold roundup_power2. cbv zeta. rewrite (wrap_small 64 (v - 1)) by (unfold is_word; lia).
  assert (smeared (Z.log2 (v - 1)) 32
    (smear 16 (smear 8 (smear 4 (smear 2 (smear 1 (v - 1))))))) as H.
  { change 32 with (1 + 1 + 2 + 4 + 8 + 16). repeat apply smear_smeared; try lia.
    apply smeared_log2. lia. }
  assert (0 <= Z.log2 (v - 1) < 32) by (split; [apply Z.log2_nonneg|apply Z.log2_lt_pow2; lia]).
  apply smeared_full in H as ->; [|lia|lia]. rewrite Z.log2_up_eqn by lia.
  replace (Z.log2 (v - 1) + 1) with (Z.succ (Z.log2 (Z.pred v))) by (unfold Z.pred; f_equal; f_equal; lia).
  replace (2 ^ Z.succ (Z.log2 (Z.pred v)) - 1 + 1) with (2 ^ Z.succ (Z.log2 (Z.pred v))) by lia.
  apply wrap_small. split; [apply Z.pow_nonneg; lia|]. apply Z.pow_lt_mono_r; unfold Z.pred; try lia.
  replace (v + -1) with (v - 1) by lia. lia.
Qed.

Lemma is_power2_spec w v : 0 < v < 2 ^ w -> is_power2 w v = true <-> v = 2 ^ Z.log2 v.
Proof.
  intros Hv. unfold is_power2. rewrite wrap_small by (unfold is_word; lia).
  pose proof (Z.log2_nonneg v). pose proof (Z.log2_spec v ltac:(lia)) as Hl.
  rewrite Z.eqb_eq. split.
  - intros Hz. destruct (decide (v = 2 ^ Z.log2 v)) as [|Hne]; [done|]. exfalso.
    assert (Z.testbit (Z.land v (v - 1)) (Z.log2 v) = true) as Ht.
    { rewrite Z.land_spec, Z.bit_log2 by lia. simpl.
      replace (Z.log2 v) with (Z.log2 (v - 1)) at 1; [apply Z.bit_log2; lia|].
      apply Z.log2_unique; lia. }
    rewrite Hz, Z.bits_0 in Ht. done.
  - intros ->. set (k := Z.log2 v). replace (2 ^ k - 1) with (Z.ones k) by (rewrite Z.ones_equiv; lia).
    rewrite Z.land_ones by lia. by apply Z_mod_same_full.
Qed.

Lemma div_ceil_spec w num den : 0 < den -> 0 <= num -> num + den <= 2 ^ w ->
  let q := div_ceil w num den in num <= q * den < num + den.
Proof.
  intros Hd Hn Hb. cbv zeta. unfold div_ceil. rewrite wrap_small by (unfold is_word; lia).
  pose proof (Z.div_mod (num + den - 1) den ltac:(lia)).
  pose proof (Z.mod_pos_bound (num + den - 1) den ltac:(lia)). lia.
Qed.

Lemma log_loop_spec base fuel x res : 2 <= base -> 0 < x -> x < base ^ (Z.of_nat fuel + 1) ->
  0 <= res -> res + Z.of_nat fuel < 2 ^ 32 ->
  exists k, log_loop fuel x base res = Some (res + k) /\ 0 <= k /\ base ^ k <= x < base ^ (k + 1).
Proof.
  intros Hb. revert x res. induction fuel as [|fuel IH]; intros x res Hx Hlt Hr Hr'; simpl.
  - destruct (Z.leb_spec base x); [rewrite Z.pow_1_r in Hlt; lia|].
    exists 0. rewrite Z.pow_1_r. split; [f_equal; lia|lia].
  - destruct (Z.leb_spec base x).
    + assert (0 < x / base) by (apply Z.div_str_pos; lia).
      rewrite Nat2Z.inj_succ in Hlt, Hr'.
      destruct (IH (x / base) (res + 1)) as (k & Hk & Hk0 & Hkx); try lia.
      * apply Z.div_lt_upper_bound; [lia|]. rewrite <-Z.pow_succ_r by lia.
        replace (Z.succ (Z.of_nat fuel + 1)) with (Z.succ (Z.of_nat fuel) + 1) by lia. lia.
      * exists (k + 1). rewrite (wrap_small 32 (res + 1)) by (unfold is_word; lia). rewrite Hk.
        split; [f_equal; lia|]. split; [lia|]. rewrite !Z.pow_add_r, Z.pow_1_r in * by lia.
        pose proof (Z.div_mod x base ltac:(lia)). pose proof (Z.mod_pos_bound x base ltac:(lia)). nia.
    + exists 0. rewrite Z.pow_0_r, Z.pow_1_r. split; [f_equal; lia|lia].
Qed.

Lemma bits_required_spec w x : 0 < x < 2 ^ w -> bits_required w x = Z.log2 x + 1.
Proof. intros. unfold bits_required, clz. destruct (Z.eqb_spec x 0); lia. Qed.

Lemma bits_required_bound w x : is_word w x -> 0 <= w ->
  0 <= bits_required w x <= w /\ x < 2 ^ bits_required w x.
Proof.
  intros [Hx0 Hx] Hw. destruct (decide (x = 0)) as [->|].
  - change (bits_required w 0) with 0. split; [lia|]. reflexivity.
  - rewrite bits_required_spec by lia. pose proof (Z.log2_spec x ltac:(lia)) as Hs.
    pose proof (Z.log2_nonneg x). assert (Z.log2 x < w) by (apply Z.log2_lt_pow2; lia).
    unfold Z.succ in Hs. lia.
Qed.

End Math.

(** ** Properties *)

(** Zig-zag coding is a bijection between the signed and the unsigned words of a width; a code's
    last bit is the sign. *)
Theorem zig_zag_bijection w (Hw : 2 <= w) :
  (forall v, is_int w v -> is_word w (Bit.zig_zag_encode w v) /\
     Bit.zig_zag_decode w (Bit.zig_zag_encode w v) = v /\
     Bit.zig_zag_encode w v = if 0 <=? v then 2 * v else - 2 * v - 1) /\
  (forall u, is_word w u -> is_int w (Bit.zig_zag_decode w u) /\
     Bit.zig_zag_encode w (Bit.zig_zag_decode w u) = u).
Proof.
  split.
  - intros v Hv. split_and!; auto using Bit.zig_zag_encode_word, Bit.zig_zag_decode_encode, Bit.zig_zag_encode_eq.
  - intros u Hu. split; [|by apply Bit.zig_zag_encode_decode].
    unfold Bit.zig_zag_decode. apply to_signed_range. lia.
Qed.

Lemma zig_zag_bijection_witness :
  Bit.zig_zag_encode32 (-3) = 5 /\ Bit.zig_zag_decode32 (Bit.zig_zag_encode32 (-3)) = -3.
Proof.
  split; [vm_compute; reflexivity|].
  destruct (zig_zag_bijection 32 ltac:(lia)) as [H _]. apply (H (-3)). unfold is_int; lia.
Defined.

(** [roundup_power2] yields the least power of two that is not below its argument, for arguments
    up to [2^32]; the five shifts do not reach further, and above the result need not be a power of
    two. *)
Theorem roundup_power2_spec :
  (forall v, 1 <= v <= 2 ^ 32 ->
     Math.roundup_power2 v = 2 ^ Z.log2_up v /\ v <= Math.roundup_power2 v /\
     (forall k, 0 <= k -> v <= 2 ^ k -> Math.roundup_power2 v <= 2 ^ k)) /\
  Math.is_power2 64 (Math.roundup_power2 (2 ^ 33 + 1)) = false.
Proof.
  split; [|vm_compute; reflexivity]. intros v Hv. rewrite Math.roundup_power2_eq by done.
  split; [done|]. split.
  - destruct (decide (v = 1)) as [->|]; [done|]. apply Z.log2_up_spec. lia.
  - intros k Hk Hvk. apply Z.pow_le_mono_r; [lia|]. by apply Z.log2_up_le_pow2; [lia|].
Qed.
