(* ===== verification/BytesIO.v ===== *)
(** The integer codecs of [core/utils/bytes_utils.hpp]: fixed-width big-endian integers, the
    variable-length format and its zig-zag form.  An output iterator is the list of bytes written
    through it; an input iterator is any type with a [next] operation ([*in; ++in]), of which the list of
    bytes ahead is one, and reading past the end (which the code leaves undefined) is [None]. *)
From S2P Require Import Prelude BitUtils.

(** [static_cast<irs::byte_type>(x)] *)
Definition to_byte (x : Z) : Z := wrap 8 x.

(** *** Input iterators *)

Class InputIterator (I : Type) := next : I -> option (Z * I).

#[export] Instance list_iterator : InputIterator (list Z) :=
  fun i => match i with b :: i => Some (b, i) | [] => None end.

(** An iterator that refines a list of bytes ahead: under an invariant [ok], [next] yields the head of
    [ahead] and keeps the invariant. *)
Class RefinesList (I : Type) `{InputIterator I} := {
  ok : I -> Prop;
  ahead : I -> list Z;
  next_ahead i b r : ok i -> ahead i = b :: r ->
    exists i', next i = Some (b, i') /\ ok i' /\ ahead i' = r
}.

(** A reader run on an iterator returns what it returns on the list ahead, and leaves the iterator at
    the rest. *)
Definition reads {I A} `{RefinesList I} (x : option (A * I)) (y : option (A * list Z)) : Prop :=
  forall a r, y = Some (a, r) -> exists i', x = Some (a, i') /\ ok i' /\ ahead i' = r.

Lemma reads_next {I} `{RefinesList I} (i : I) : ok i -> reads (next i) (next (ahead i)).
Proof.
  intros Hok a r Ha. destruct (ahead i) as [|b l] eqn:E; [done|]. injection Ha as <- <-.
  by apply next_ahead.
Qed.

Lemma reads_ret {I A} `{RefinesList I} (a : A) (i : I) : ok i -> reads (Some (a, i)) (Some (a, ahead i)).
Proof. intros Hok a' r' [= <- <-]. by exists i. Qed.

Lemma reads_bind {I A B} `{RefinesList I} (x : option (A * I)) (y : option (A * list Z))
    (f : A -> I -> option (B * I)) (g : A -> list Z -> option (B * list Z)) :
  reads x y -> (forall a i, ok i -> reads (f a i) (g a (ahead i))) ->
  reads ('(a, i) ← x; f a i) ('(a, i) ← y; g a i).
Proof.
  intros Hx Hf b r Hy. destruct y as [[a l]|]; [|done]. simpl in Hy.
  destruct (Hx a l eq_refl) as (i & -> & Hok & <-). simpl. by apply (Hf a i Hok b r).
Qed.

Create HintDb reads discriminated.
#[export] Hint Resolve reads_next reads_ret : reads.

(** Follows the binds of a reader, each step by a hint of [reads]. *)
Ltac reads_steps :=
  repeat (apply (reads_bind _ _ (fun b i => _) (fun b i => _)); [solve [eauto with reads]|];
    let b := fresh "b" in let i := fresh "i" in let Hi := fresh "Hok" in intros b i Hi; cbv zeta);
  eauto with reads.

Module Fixed.

Definition write8 (value : Z) : list Z := [to_byte value].
Definition read8 {I} `{InputIterator I} (i : I) : option (Z * I) := next i.

Definition write16 (value : Z) : list Z := [to_byte (Z.shiftr value 8); to_byte value].
Definition read16 {I} `{InputIterator I} (i : I) : option (Z * I) :=
  '(b0, i) ← next i;
  let out := b0 <<[16] 8 in
  '(b1, i) ← next i;
  Some (Z.lor out b1, i).

Definition write32 (x : Z) : list Z :=
  [to_byte (Z.shiftr x 24); to_byte (Z.shiftr x 16); to_byte (Z.shiftr x 8); to_byte x].
Definition read32 {I} `{InputIterator I} (i : I) : option (Z * I) :=
  '(b0, i) ← next i;
  let out := b0 <<[32] 24 in
  '(b1, i) ← next i;
  let out := Z.lor out (b1 <<[32] 16) in
  '(b2, i) ← next i;
  let out := Z.lor out (b2 <<[32] 8) in
  '(b3, i) ← next i;
  Some (Z.lor out b3, i).

Definition write64 (x : Z) : list Z :=
  write32 (wrap 32 (Z.shiftr x 32)) ++ write32 (wrap 32 x).
Definition read64 {I} `{InputIterator I} (i : I) : option (Z * I) :=
  '(hi, i) ← read32 i;
  '(lo, i) ← read32 i;
  Some (Z.lor (hi <<[64] 32) lo, i).

(** *** The pointer overloads: [memcpy] of a value in the host's byte order *)

(** The [n] low bytes of [x], least significant first. *)
Fixpoint le_bytes (n : nat) (x : Z) : list Z :=
  match n with O => [] | S n => to_byte x :: le_bytes n (Z.shiftr x 8) end.
Fixpoint le_value (bs : list Z) : Z :=
  match bs with [] => 0 | b :: bs => Z.lor b (Z.shiftl (le_value bs) 8) end.
(** The memory of an [n]-byte object on a host ([big]: a big-endian one). *)
Definition host_bytes (big : bool) (n : nat) (x : Z) : list Z :=
  if big then rev (le_bytes n x) else le_bytes n x.
Definition host_value (big : bool) (bs : list Z) : Z :=
  le_value (if big then rev bs else bs).
(** [hton32]/[hton64] and [ntoh32]/[ntoh64]: a byte swap on a little-endian host *)
Definition hton (big : bool) (n : nat) (x : Z) : Z :=
  if big then x else le_value (rev (le_bytes n x)).

Definition write32_ptr (big : bool) (x : Z) : list Z :=
  host_bytes big 4 (if big then x else hton big 4 x).
Definition write64_ptr (big : bool) (x : Z) : list Z :=
  host_bytes big 8 (if big then x else hton big 8 x).
Definition read16_ptr (i : list Z) : option (Z * list Z) :=
  match i with
  | b0 :: b1 :: i => Some (wrap 16 (Z.lor (Z.shiftl b0 8) b1), i)
  | _ => None
  end.
Definition read_ptr (big : bool) (n : nat) (i : list Z) : option (Z * list Z) :=
  if decide (n <= length i)%nat then
    let value := host_value big (take n i) in
    Some (if big then value else hton big n value, drop n i)
  else None.
Definition read32_ptr big := read_ptr big 4.
Definition read64_ptr big := read_ptr big 8.

(** *** Little-endian bytes *)

Lemma length_le_bytes n x : length (le_bytes n x) = n.
Proof. revert x. induction n; intros; simpl; auto. Qed.

Lemma le_bytes_bytes n x : Forall is_byte (le_bytes n x).
Proof. revert x. induction n; intros; simpl; constructor; auto. apply wrap_range. lia. Qed.

Lemma le_value_range bs : Forall is_byte bs -> is_word (8 * Z.of_nat (length bs)) (le_value bs).
Proof.
  induction 1 as [|b bs Hb Hbs IH]; simpl; [done|].
  rewrite lor_low_high by (done || lia). unfold is_word in *.
  rewrite Nat2Z.inj_succ. replace (8 * Z.succ (Z.of_nat (length bs))) with (8 * Z.of_nat (length bs) + 8) by lia.
  rewrite Z.pow_add_r by lia. lia.
Qed.

Lemma le_value_bytes n x : le_value (le_bytes n x) = wrap (8 * Z.of_nat n) x.
Proof.
  revert x. induction n as [|n IH]; intros x; cbn [le_bytes le_value].
  - unfold wrap. by rewrite Z.mod_1_r.
  - rewrite IH. unfold to_byte. rewrite Nat2Z.inj_succ. bitwise; f_equal; lia.
Qed.

Lemma le_bytes_value bs : Forall is_byte bs -> le_bytes (length bs) (le_value bs) = bs.
Proof.
  induction 1 as [|b bs Hb Hbs IH]; cbn [length le_bytes le_value]; [done|].
  f_equal.
  - unfold to_byte. rewrite lor_low_high by (done || lia). change (2 ^ 8) with (2 ^ 8).
    rewrite wrap_add_multiple by lia. by apply wrap_small.
  - rewrite lor_low_high, Z.shiftr_div_pow2 by (done || lia).
    unfold is_word in Hb. rewrite Z.div_add, Z.div_small by lia. done.
Qed.

Lemma rev_bytes bs : Forall is_byte bs -> Forall is_byte (rev bs).
Proof. intros. by apply List.Forall_rev. Qed.

(** *** Correspondence of the iterator and pointer forms, and round trips *)

Lemma write32_le x : write32 x = rev (le_bytes 4 x).
Proof. unfold write32. cbn [le_bytes rev app]. by rewrite !Z.shiftr_shiftr by lia. Qed.

Lemma write32_wrap x : write32 (wrap 32 x) = write32 x.
Proof.
  unfold write32, to_byte.
  repeat match goal with |- _ :: _ = _ :: _ => f_equal end; bitwise; f_equal; lia.
Qed.

Lemma write16_wrap x : write16 (wrap 16 x) = write16 x.
Proof.
  unfold write16, to_byte.
  repeat match goal with |- _ :: _ = _ :: _ => f_equal end; bitwise; f_equal; lia.
Qed.

Lemma write64_wrap x : write64 (wrap 64 x) = write64 x.
Proof.
  unfold write64, write32, to_byte. cbn [app].
  repeat match goal with |- _ :: _ = _ :: _ => f_equal end; bitwise; f_equal; lia.
Qed.

Lemma write64_le x : write64 x = rev (le_bytes 8 x).
Proof.
  unfold write64. rewrite !write32_wrap, !write32_le. cbn [le_bytes rev app].
  by rewrite !Z.shiftr_shiftr by lia.
Qed.

Lemma host_bytes_hton big n x :
  host_bytes big n (if big then x else hton big n x) = rev (le_bytes n x).
Proof.
  unfold host_bytes, hton. destruct big; [done|].
  pose proof (le_bytes_value (rev (le_bytes n x)) (rev_bytes _ (le_bytes_bytes n x))) as H.
  by rewrite length_rev, length_le_bytes in H.
Qed.

Lemma write32_ptr_eq big x : write32_ptr big x = write32 x.
Proof. rewrite write32_le. apply host_bytes_hton. Qed.

Lemma write64_ptr_eq big x : write64_ptr big x = write64 x.
Proof. rewrite write64_le. apply host_bytes_hton. Qed.

Lemma read_ptr_eq big n i : Forall is_byte i -> (n <= length i)%nat ->
  read_ptr big n i = Some (le_value (rev (take n i)), drop n i).
Proof.
  intros Hi Hn. unfold read_ptr. rewrite decide_True by done. cbv zeta. f_equal. f_equal.
  destruct big; [done|]. unfold hton, host_value.
  pose proof (le_bytes_value (take n i) (Forall_take _ _ _ Hi)) as H.
  rewrite length_take_le in H by done. by rewrite H.
Qed.

(** Shifting a byte by at most [w - 8] stays within [w] bits. *)
Lemma shiftl_byte w k b : is_byte b -> 0 <= k -> k + 8 <= w -> b <<[w] k = Z.shiftl b k.
Proof.
  intros Hb Hk Hw. apply wrap_small. unfold is_word in *. rewrite Z.shiftl_mul_pow2 by lia.
  pose proof (pow2_pos k Hk).
  assert (2 ^ k * 2 ^ 8 <= 2 ^ w) by (rewrite <-Z.pow_add_r by lia; apply Z.pow_le_mono_r; lia).
  nia.
Qed.

(** Closes an equation between disjunctions of the same words. *)
Ltac lor_ac :=
  repeat match goal with
  | |- context [Z.shiftl ?x (?a + ?b)] =>
      let c := eval vm_compute in (a + b) in change (Z.shiftl x (a + b)) with (Z.shiftl x c)
  end;
  apply Z.bits_inj'; intros ?i ?Hi; rewrite !Z.lor_spec;
  repeat match goal with |- context [Z.testbit ?x ?i] => destruct (Z.testbit x i) end; reflexivity.

Lemma read32_le b0 b1 b2 b3 i : Forall is_byte [b0; b1; b2; b3] ->
  read32 (b0 :: b1 :: b2 :: b3 :: i) = Some (le_value [b3; b2; b1; b0], i).
Proof.
  intros H. repeat rewrite Forall_cons in H. destruct H as (H0 & H1 & H2 & H3 & _).
  unfold read32. cbn [next list_iterator mbind option_bind le_value]. rewrite !shiftl_byte by (done || lia).
  rewrite !Z.shiftl_0_l, !Z.lor_0_r, !Z.shiftl_lor, !Z.shiftl_shiftl by lia.
  do 2 f_equal. lor_ac.
Qed.

Lemma read16_le b0 b1 i : Forall is_byte [b0; b1] ->
  read16 (b0 :: b1 :: i) = Some (le_value [b1; b0], i) /\
  read16_ptr (b0 :: b1 :: i) = Some (le_value [b1; b0], i).
Proof.
  intros H. pose proof (le_value_range [b1; b0]) as Hr. repeat rewrite Forall_cons in *.
  destruct H as (H0 & H1 & _). unfold read16. cbn [next list_iterator mbind option_bind read16_ptr le_value] in *.
  rewrite shiftl_byte by (done || lia). rewrite Z.shiftl_0_l, Z.lor_0_r in *.
  rewrite (Z.lor_comm b1) in *. split; [done|]. by rewrite wrap_small by (apply Hr; auto).
Qed.

(** Reading 64 bits is reading its eight bytes, most significant first. *)
Lemma read64_le b0 b1 b2 b3 b4 b5 b6 b7 i : Forall is_byte [b0; b1; b2; b3; b4; b5; b6; b7] ->
  read64 (b0 :: b1 :: b2 :: b3 :: b4 :: b5 :: b6 :: b7 :: i)
  = Some (le_value [b7; b6; b5; b4; b3; b2; b1; b0], i).
Proof.
  intros H. repeat rewrite Forall_cons in H. destruct H as (H0 & H1 & H2 & H3 & H4 & H5 & H6 & H7 & _).
  unfold read64. rewrite read32_le by auto. cbn [mbind option_bind]. rewrite read32_le by auto.
  cbn [mbind option_bind]. do 2 f_equal.
  pose proof (le_value_range [b3; b2; b1; b0] ltac:(auto)) as Hr. simpl in Hr.
  rewrite wrap_small.
  - cbn [le_value]. rewrite !Z.shiftl_0_l, !Z.lor_0_r, !Z.shiftl_lor, !Z.shiftl_shiftl by lia.
    lor_ac.
  - unfold is_word in *. rewrite Z.shiftl_mul_pow2 by lia. cbn [le_value] in *. lia.
Qed.

Lemma read32_write32 x r : is_word 32 x -> read32 (write32 x ++ r) = Some (x, r).
Proof.
  intros Hx. rewrite write32_le. cbn [le_bytes rev app].
  rewrite read32_le by (repeat constructor; by apply wrap_range).
  change [to_byte x; _; _; _] with (le_bytes 4 x). by rewrite le_value_bytes, wrap_small.
Qed.

Lemma read16_write16 x r : is_word 16 x ->
  read16 (write16 x ++ r) = Some (x, r) /\ read16_ptr (write16 x ++ r) = Some (x, r).
Proof.
  intros Hx. unfold write16. cbn [app].
  destruct (read16_le (to_byte (Z.shiftr x 8)) (to_byte x) r) as [-> ->];
    [repeat constructor; by apply wrap_range|].
  change [to_byte x; _] with (le_bytes 2 x). by rewrite le_value_bytes, wrap_small.
Qed.

Lemma read64_write64 x r : is_word 64 x -> read64 (write64 x ++ r) = Some (x, r).
Proof.
  intros Hx. rewrite write64_le. cbn [le_bytes rev app].
  rewrite read64_le by (repeat constructor; by apply wrap_range).
  change (to_byte x :: _) with (le_bytes 8 x). by rewrite le_value_bytes, wrap_small.
Qed.

Lemma read32_ptr_eq big i : Forall is_byte i -> read32_ptr big i = read32 i.
Proof.
  intros Hi. destruct i as [|b0 [|b1 [|b2 [|b3 i]]]]; try done.
  unfold read32_ptr. rewrite read_ptr_eq by (done || simpl; lia).
  rewrite read32_le; [done|]. by apply (Forall_take _ 4 _) in Hi.
Qed.

Lemma read64_ptr_eq big i : Forall is_byte i -> read64_ptr big i = read64 i.
Proof.
  intros Hi. destruct i as [|b0 [|b1 [|b2 [|b3 [|b4 [|b5 [|b6 [|b7 i]]]]]]]]; try done.
  unfold read64_ptr. rewrite read_ptr_eq by (done || simpl; lia).
  rewrite read64_le; [done|]. by apply (Forall_take _ 8 _) in Hi.
Qed.

Lemma read16_reads {I} `{RefinesList I} (i : I) : ok i -> reads (read16 i) (read16 (ahead i)).
Proof. intros Hok. unfold read16. reads_steps. Qed.

Lemma read32_reads {I} `{RefinesList I} (i : I) : ok i -> reads (read32 i) (read32 (ahead i)).
Proof. intros Hok. unfold read32. reads_steps. Qed.

#[local] Hint Resolve read32_reads : reads.

Lemma read64_reads {I} `{RefinesList I} (i : I) : ok i -> reads (read64 i) (read64 (ahead i)).
Proof. intros Hok. unfold read64. reads_steps. Qed.

End Fixed.

(** *** The variable-length format

    Seven bits per byte, least significant group first; the high bit of a byte says that another
    one follows.  [n] is [const_max_vsize] - 1, the number of continuation bytes: 4 for [uint32_t],
    9 for [uint64_t]. *)
Module VInt.

Definition const_max_vsize (w : Z) : nat :=
  if w =? 8 then 1 else if w =? 16 then 2 else if w =? 32 then 5 else 10.

(** [while (in >= 0x80) { *out++ = byte(in | 0x80); in >>= 7; } *out++ = byte(in);] *)
Fixpoint vwrite_loop (fuel : nat) (v : Z) : option (list Z) :=
  if 128 <=? v then
    match fuel with
    | O => None
    | S fuel => cons (to_byte (Z.lor v 128)) <$> vwrite_loop fuel (Z.shiftr v 7)
    end
  else Some [to_byte v].

Definition vwrite32 (v : Z) : list Z := default [] (vwrite_loop 4 v).
Definition vwrite64 (v : Z) : list Z := default [] (vwrite_loop 9 v).

(** The unrolled reader: [b = *in++; out += b << sh; if (!(b & 0x80)) return out;
    out -= 0x80 << sh;], where the last group is taken without a test of its high bit. *)
Fixpoint vread_from {I} `{InputIterator I} (w : Z) (n : nat) (sh out : Z) (i : I) : option (Z * I) :=
  '(b, i) ← next i;
  let out := out +[w] (b <<[w] sh) in
  match n with
  | O => Some (out, i)
  | S n =>
      if Z.land b 128 =? 0 then Some (out, i)
      else vread_from w n (sh + 7) (out -[w] (128 <<[w] sh)) i
  end.

Definition vread32 {I} `{InputIterator I} : I -> option (Z * I) := vread_from 32 4 0 0.
Definition vread64 {I} `{InputIterator I} : I -> option (Z * I) := vread_from 64 9 0 0.

Fixpoint vskip_from {I} `{InputIterator I} (n : nat) (i : I) : option I :=
  '(v, i) ← next i;
  match n with
  | O => Some i
  | S n => if Z.land v 128 =? 0 then Some i else vskip_from n i
  end.

Definition vskip32 {I} `{InputIterator I} : I -> option I := vskip_from 4.
Definition vskip64 {I} `{InputIterator I} : I -> option I := vskip_from 9.

(** [(73 + 9 * log2_floor(value | 1)) >> 6] *)
Definition vsize32 (value : Z) : Z :=
  Z.shiftr (73 + 9 * Math.log2_floor_32 (Z.lor value 1)) 6.
Definition vsize64 (value : Z) : Z :=
  Z.shiftr (73 + 9 * Math.log2_floor_64 (Z.lor value 1)) 6.

Definition zvwrite32 (v : Z) : list Z := vwrite32 (Bit.zig_zag_encode32 v).
Definition zvwrite64 (v : Z) : list Z := vwrite64 (Bit.zig_zag_encode64 v).
Definition zvread32 {I} `{InputIterator I} (i : I) : option (Z * I) :=
  '(v, i) ← vread32 i; Some (Bit.zig_zag_decode32 v, i).
Definition zvread64 {I} `{InputIterator I} (i : I) : option (Z * I) :=
  '(v, i) ← vread64 i; Some (Bit.zig_zag_decode64 v, i).

Lemma land_128 b : is_byte b -> (Z.land b 128 =? 0) = (b <? 128).
Proof.
  intros Hb. assert (Z.land b 128 = if b <? 128 then 0 else 128) as ->; [|by destruct (b <? 128)].
  destruct (Z.ltb_spec b 128).
  - change 128 with (Z.shiftl 1 7). apply land_low_high; [lia|]. unfold is_word in *. lia.
  - unfold is_word in Hb. replace b with (b - 128 + 1 * 2 ^ 7) by lia.
    rewrite <-lor_low_high by (unfold is_word; lia). change 128 with (Z.shiftl 1 7) at 2 3.
    rewrite Z.land_lor_distr_l, land_low_high by (unfold is_word; lia). rewrite Z.land_diag. apply Z.lor_0_l.
Qed.

Lemma lor_128 v : 0 <= v -> to_byte (Z.lor v 128) = v mod 128 + 128.
Proof.
  intros Hv. change (v mod 128 + 128) with (v mod 2 ^ 7 + 1 * 2 ^ 7).
  rewrite <-lor_low_high; [|lia|by apply (wrap_range 7)]. fold (wrap 7 v).
  unfold to_byte. change 128 with (2 ^ 7). rewrite Z.shiftl_1_l. bitwise.
Qed.

(** The writer's loop ends within [n] continuation bytes and its output is read back by the reader
    whatever is already accumulated and whatever follows. *)
Lemma vwrite_vread w n v : 0 <= w -> 0 <= v < 2 ^ (7 * (Z.of_nat n + 1)) ->
  exists bs, vwrite_loop n v = Some bs /\ Forall is_byte bs /\
    forall sh out r, 0 <= sh ->
      vread_from w n sh out (bs ++ r) = Some (wrap w (out + v * 2 ^ sh), r).
Proof.
  intros Hw. revert v. induction n as [|n IH]; intros v Hv;
    cbn [vwrite_loop]; destruct (Z.leb_spec 128 v).
  - simpl in Hv. lia.
  - exists [to_byte v]. unfold to_byte. rewrite (wrap_small 8) by (unfold is_word; lia).
    split; [done|]. split; [repeat constructor; lia|]. intros sh out r Hsh. cbn [app vread_from next list_iterator mbind option_bind].
    rewrite Z.shiftl_mul_pow2 by lia. autorewrite with word. done.
  - destruct (IH (Z.shiftr v 7)) as (bs & Hw1 & Hb1 & Hr1).
    { rewrite Z.shiftr_div_pow2 by lia. split; [apply Z.div_pos; lia|].
      apply Z.div_lt_upper_bound; [lia|]. rewrite <-Z.pow_add_r by lia.
      replace (7 + 7 * (Z.of_nat n + 1)) with (7 * (Z.of_nat (S n) + 1)) by lia. lia. }
    exists (to_byte (Z.lor v 128) :: bs). rewrite Hw1. split; [done|].
    split; [constructor; [by apply wrap_range|done]|]. intros sh out r Hsh.
    cbn [app vread_from next list_iterator mbind option_bind]. rewrite land_128 by (by apply wrap_range).
    rewrite lor_128 in * by lia. pose proof (Z.mod_pos_bound v 128 ltac:(lia)).
    destruct (Z.ltb_spec (v mod 128 + 128) 128); [lia|].
    rewrite Hr1 by lia. rewrite !Z.shiftl_mul_pow2, Z.shiftr_div_pow2 by lia.
    autorewrite with word. do 2 f_equal.
    rewrite Z.pow_add_r by lia. pose proof (Z.div_mod v 128 ltac:(lia)).
    change (2 ^ 7) with 128. set (q := v / 128) in *. set (m := v mod 128) in *.
    replace (out + wrap w ((m + 128) * 2 ^ sh) - 128 * 2 ^ sh + q * (2 ^ sh * 128))
      with (out - 128 * 2 ^ sh + q * (2 ^ sh * 128) + wrap w ((m + 128) * 2 ^ sh)) by lia.
    autorewrite with word. f_equal. nia.
  - exists [to_byte v]. unfold to_byte. rewrite (wrap_small 8) by (unfold is_word; lia).
    split; [done|]. split; [repeat constructor; lia|]. intros sh out r Hsh. cbn [app vread_from next list_iterator mbind option_bind].
    rewrite land_128 by (unfold is_word; lia). destruct (Z.ltb_spec v 128); [|lia].
    rewrite Z.shiftl_mul_pow2 by lia. autorewrite with word. done.
Qed.

(** The length of the written form. *)
Lemma vwrite_length n v bs : 0 <= v -> vwrite_loop n v = Some bs ->
  Z.of_nat (length bs) = 1 + Z.log2 (Z.lor v 1) / 7.
Proof.
  revert v bs. induction n as [|n IH]; intros v bs Hv H; cbn [vwrite_loop] in H;
    destruct (Z.leb_spec 128 v) as [Hge|Hlt].
  - done.
  - injection H as <-. rewrite Z.log2_lor by lia. simpl length. change (Z.log2 1) with 0.
    pose proof (Z.log2_nonneg v). assert (Z.log2 v < 7).
    { destruct (decide (v = 0)) as [->|]; [done|]. apply Z.log2_lt_pow2; lia. }
    rewrite Z.max_l, Z.div_small by lia. done.
  - destruct (vwrite_loop n (Z.shiftr v 7)) as [bs'|] eqn:E; [|done]. injection H as <-.
    apply IH in E; [|apply Z.shiftr_nonneg; lia]. cbn [length]. rewrite Nat2Z.inj_succ, E.
    rewrite !Z.log2_lor by (lia || (apply Z.shiftr_nonneg; lia)). change (Z.log2 1) with 0.
    pose proof (Z.log2_nonneg v). assert (7 <= Z.log2 v) by (apply Z.log2_le_pow2; lia).
    rewrite Z.log2_shiftr by lia.
    replace (Z.max (Z.max 0 (Z.log2 v - 7)) 0) with (Z.log2 v - 7) by lia. rewrite Z.max_l by lia.
    assert (Z.log2 v / 7 = (Z.log2 v - 7) / 7 + 1); [|lia].
    rewrite <-Z.div_add by lia. f_equal. lia.
  - injection H as <-. rewrite Z.log2_lor by lia. simpl length. change (Z.log2 1) with 0.
    pose proof (Z.log2_nonneg v). assert (Z.log2 v < 7).
    { destruct (decide (v = 0)) as [->|]; [done|]. apply Z.log2_lt_pow2; lia. }
    rewrite Z.max_l, Z.div_small by lia. done.
Qed.

(** [(73 + 9 * k) >> 6 = 1 + k / 7] for the exponents of 64-bit words. *)
Lemma vsize_formula k : 0 <= k < 64 -> Z.shiftr (73 + 9 * k) 6 = 1 + k / 7.
Proof.
  intros Hk. rewrite Z.shiftr_div_pow2 by lia. change (2 ^ 6) with 64.
  assert (forallb (fun n => (73 + 9 * Z.of_nat n) / 64 =? 1 + Z.of_nat n / 7) (seq 0 64) = true) as H
    by (vm_compute; done).
  rewrite forallb_forall in H. specialize (H (Z.to_nat k)).
  rewrite Z2Nat.id in H by lia. apply Z.eqb_eq, H. apply in_seq. lia.
Qed.

Lemma vwrite32_spec v : is_word 32 v ->
  vwrite_loop 4 v = Some (vwrite32 v) /\ Forall is_byte (vwrite32 v) /\
  forall r, vread32 (vwrite32 v ++ r) = Some (v, r).
Proof.
  intros Hv. unfold vwrite32, vread32.
  destruct (vwrite_vread 32 4 v) as (bs & H & Hb & Hr); [lia|unfold is_word in Hv; simpl; lia|].
  rewrite H. split; [done|]. split; [done|]. intros r. simpl default. rewrite Hr by lia.
  by rewrite Z.mul_1_r, Z.add_0_l, wrap_small.
Qed.

Lemma vwrite64_spec v : is_word 64 v ->
  vwrite_loop 9 v = Some (vwrite64 v) /\ Forall is_byte (vwrite64 v) /\
  forall r, vread64 (vwrite64 v ++ r) = Some (v, r).
Proof.
  intros Hv. unfold vwrite64, vread64.
  destruct (vwrite_vread 64 9 v) as (bs & H & Hb & Hr); [lia|unfold is_word in Hv; simpl; lia|].
  rewrite H. split; [done|]. split; [done|]. intros r. simpl default. rewrite Hr by lia.
  by rewrite Z.mul_1_r, Z.add_0_l, wrap_small.
Qed.

(** Skipping moves an input exactly as far as reading does, on any bytes. *)
Lemma vskip_vread {I} `{InputIterator I} w n sh out (i : I) :
  vskip_from n i = snd <$> vread_from w n sh out i.
Proof.
  revert sh out i. induction n as [|n IH]; intros sh out i; simpl; destruct (next i) as [[b i']|]; simpl; try done.
  destruct (Z.land b 128 =? 0); [done|]. apply IH.
Qed.

Lemma vread_from_reads {I} `{RefinesList I} w n sh out (i : I) :
  ok i -> reads (vread_from w n sh out i) (vread_from w n sh out (ahead i)).
Proof.
  revert sh out i. induction n as [|n IH]; intros sh out i Hok; cbn [vread_from]; reads_steps.
  destruct (Z.land b 128 =? 0); [by apply reads_ret|by apply IH].
Qed.

Lemma lor_1_word w v : 1 <= w -> is_word w v -> 0 < Z.lor v 1 < 2 ^ w.
Proof.
  intros Hw Hv. unfold is_word in Hv. split.
  - assert (0 <= Z.lor v 1) by (apply Z.lor_nonneg; lia).
    assert (Z.lor v 1 <> 0) by (intros Hz; apply Z.lor_eq_0_iff in Hz; lia). lia.
  - apply Z.log2_lt_cancel. rewrite Z.log2_lor, Z.log2_pow2 by lia. change (Z.log2 1) with 0.
    destruct (decide (v = 0)) as [->|]; [simpl; lia|].
    assert (Z.log2 v < w) by (apply Z.log2_lt_pow2; lia). lia.
Qed.

Lemma vsize32_length v : is_word 32 v -> Z.of_nat (length (vwrite32 v)) = vsize32 v.
Proof.
  intros Hv. pose proof (lor_1_word 32 v ltac:(lia) Hv).
  rewrite (vwrite_length 4 v (vwrite32 v)); [|apply Hv|by apply vwrite32_spec].
  unfold vsize32. rewrite Math.log2_floor_32_spec by done. rewrite vsize_formula; [done|].
  split; [apply Z.log2_nonneg|]. apply Z.lt_trans with 32; [apply Z.log2_lt_pow2|]; lia.
Qed.

Lemma vsize64_length v : is_word 64 v -> Z.of_nat (length (vwrite64 v)) = vsize64 v.
Proof.
  intros Hv. pose proof (lor_1_word 64 v ltac:(lia) Hv).
  rewrite (vwrite_length 9 v (vwrite64 v)); [|apply Hv|by apply vwrite64_spec].
  unfold vsize64. rewrite Math.log2_floor_64_spec by done. rewrite vsize_formula; [done|].
  split; [apply Z.log2_nonneg|]. apply Z.log2_lt_pow2; lia.
Qed.

Lemma log2_lor_1_bound w v : 1 <= w <= 64 -> is_word w v ->
  0 <= Z.log2 (Z.lor v 1) < w /\ 1 <= Z.shiftr (73 + 9 * Z.log2 (Z.lor v 1)) 6 <= 1 + (w - 1) / 7.
Proof.
  intros Hw Hv. pose proof (lor_1_word w v ltac:(lia) Hv). pose proof (Z.log2_nonneg (Z.lor v 1)).
  assert (Z.log2 (Z.lor v 1) < w) by (apply Z.log2_lt_pow2; lia).
  rewrite vsize_formula by lia. split; [lia|].
  assert (0 <= Z.log2 (Z.lor v 1) / 7) by (apply Z.div_pos; lia).
  assert (Z.log2 (Z.lor v 1) / 7 <= (w - 1) / 7) by (apply Z.div_le_mono; lia). lia.
Qed.

Lemma vsize_bound v :
  (is_word 32 v -> 1 <= vsize32 v <= 5) /\ (is_word 64 v -> 1 <= vsize64 v <= 10).
Proof.
  split; intros Hv.
  - destruct (log2_lor_1_bound 32 v ltac:(lia) Hv). unfold vsize32.
    rewrite Math.log2_floor_32_spec by (by apply lor_1_word). change ((32 - 1) / 7) with 4 in *. lia.
  - destruct (log2_lor_1_bound 64 v ltac:(lia) Hv). unfold vsize64.
    rewrite Math.log2_floor_64_spec by (by apply lor_1_word). change ((64 - 1) / 7) with 9 in *. lia.
Qed.

#[export] Hint Resolve Fixed.read16_reads Fixed.read32_reads Fixed.read64_reads vread_from_reads : reads.

End VInt.

(** ** Properties *)

(** Fixed-width integers are read back as written, whatever follows them; the pointer overloads
    write and read the same bytes on big- and little-endian hosts. *)
Theorem fixed_width_roundtrip (big : bool) (x : Z) (r : list Z) :
  (is_word 16 x -> Fixed.read16 (Fixed.write16 x ++ r) = Some (x, r) /\
                   Fixed.read16_ptr (Fixed.write16 x ++ r) = Some (x, r)) /\
  (is_word 32 x -> Fixed.read32 (Fixed.write32 x ++ r) = Some (x, r)) /\
  (is_word 64 x -> Fixed.read64 (Fixed.write64 x ++ r) = Some (x, r)) /\
  Fixed.write32_ptr big x = Fixed.write32 x /\ Fixed.write64_ptr big x = Fixed.write64 x /\
  (Forall is_byte r -> Fixed.read32_ptr big r = Fixed.read32 r /\ Fixed.read64_ptr big r = Fixed.read64 r).
Proof.
  split_and!; auto using Fixed.read16_write16, Fixed.read32_write32, Fixed.read64_write64,
    Fixed.write32_ptr_eq, Fixed.write64_ptr_eq, Fixed.read32_ptr_eq, Fixed.read64_ptr_eq.
Qed.

(** C38: A variable-length integer is read back as written, whatever follows it; skipping it ends where
    reading it does; [vsize] is the number of bytes written, at most [const_max_vsize]. *)
Theorem vint_roundtrip (v : Z) (r : list Z) :
  (is_word 32 v -> VInt.vread32 (VInt.vwrite32 v ++ r) = Some (v, r) /\
     VInt.vskip32 (VInt.vwrite32 v ++ r) = Some r /\
     Z.of_nat (length (VInt.vwrite32 v)) = VInt.vsize32 v /\
     1 <= VInt.vsize32 v <= Z.of_nat (VInt.const_max_vsize 32)) /\
  (is_word 64 v -> VInt.vread64 (VInt.vwrite64 v ++ r) = Some (v, r) /\
     VInt.vskip64 (VInt.vwrite64 v ++ r) = Some r /\
     Z.of_nat (length (VInt.vwrite64 v)) = VInt.vsize64 v /\
     1 <= VInt.vsize64 v <= Z.of_nat (VInt.const_max_vsize 64)).
Proof.
  split; intros Hv.
  - destruct (VInt.vwrite32_spec v Hv) as (_ & _ & Hr). unfold VInt.vskip32.
    rewrite (VInt.vskip_vread 32 4 0 0). fold (VInt.vread32 (VInt.vwrite32 v ++ r)).
    rewrite Hr, VInt.vsize32_length by done. destruct (VInt.vsize_bound v) as [Hb _].
    do 3 (split; [reflexivity|]). change (Z.of_nat (VInt.const_max_vsize 32)) with 5. auto.
  - destruct (VInt.vwrite64_spec v Hv) as (_ & _ & Hr). unfold VInt.vskip64.
    rewrite (VInt.vskip_vread 64 9 0 0). fold (VInt.vread64 (VInt.vwrite64 v ++ r)).
    rewrite Hr, VInt.vsize64_length by done. destruct (VInt.vsize_bound v) as [_ Hb].
    do 3 (split; [reflexivity|]). change (Z.of_nat (VInt.const_max_vsize 64)) with 10. auto.
Qed.
