(* ===== verification/NumericUtils.v ===== *)
(** The order-preserving binary encoding of numbers of [core/utils/numeric_utils.cpp] and the terms
    [numeric_token_stream] of [core/analysis/token_streams.cpp] makes of a number.

    Floating-point values are their IEEE 754 bit patterns (words of 32 or 64 bits); [big] says whether
    the host is big-endian. *)
From S2P Require Import Prelude BitUtils BytesIO.
Import Fixed.

(** [encode_traits<T>]: the width of the encoded integral type and [TYPE_MAGIC] *)
Inductive encode_type := UINT64 | UINT32 | FLOAT | DOUBLE.

Definition type_bits (t : encode_type) : Z :=
  match t with UINT64 | DOUBLE => 64 | UINT32 | FLOAT => 32 end.
Definition type_size (t : encode_type) : nat :=
  match t with UINT64 | DOUBLE => 8 | UINT32 | FLOAT => 4 end.
Definition TYPE_MAGIC (t : encode_type) : Z :=
  match t with UINT64 => 0x60 | UINT32 => 0 | FLOAT => 0x20 | DOUBLE => 0xA0 end.

(** [encoded_size<T>(shift)] *)
Definition encoded_size (bits shift : Z) : Z :=
  if shift <? bits then 1 + (bits - 1 - shift) / 8 else 0.

(** [encode<T>(value, out, shift)]: the bytes stored in [out] (the returned size is their number) *)
Definition encode (big : bool) (t : encode_type) (value shift : Z) : list Z :=
  let bits := type_bits t in
  let value := Z.lxor value (1 <<[bits] (bits - 1)) in
  let value := Z.land value (Z.lxor (2 ^ bits - 1) ((1 <<[bits] shift) -[bits] 1)) in
  let value := if big then value else hton big (type_size t) value in
  let size := encoded_size bits shift in
  to_byte (wrap 8 shift + TYPE_MAGIC t) :: take (Z.to_nat size) (host_bytes big (type_size t) value).

(** [decode<T>(in)]; the copied bytes fill the start of a zeroed value *)
Definition decode (big : bool) (t : encode_type) (i : list Z) : option Z :=
  let bits := type_bits t in
  match i with
  | [] => None
  | b :: i =>
      let size := Z.to_nat (encoded_size bits (wrap 64 (b - TYPE_MAGIC t))) in
      if decide (size = 0)%nat then Some 0
      else if decide (length i < size)%nat then None
      else
        let mem := take size i ++ replicate (type_size t - size) 0 in
        let value := host_value big mem in
        let value := if big then value else hton big (type_size t) value in
        Some (Z.lxor value (1 <<[bits] (bits - 1)))
  end.

Definition encode64 (big : bool) (value shift : Z) := encode big UINT64 value shift.
Definition encode32 (big : bool) (value shift : Z) := encode big UINT32 value shift.
Definition encodef32 (big : bool) (value shift : Z) := encode big FLOAT value shift.
Definition encoded64 (big : bool) (value shift : Z) := encode big DOUBLE value shift.
Definition decode64 (big : bool) (i : list Z) := decode big UINT64 i.
Definition decode32 (big : bool) (i : list Z) := decode big UINT32 i.
Definition decodef32 (big : bool) (i : list Z) := decode big FLOAT i.
Definition decoded64 (big : bool) (i : list Z) := decode big DOUBLE i.

(** [make_sortable32] and [make_sortable64] on a signed value *)
Definition make_sortable (bits value : Z) : Z :=
  Z.lxor value (Z.land (Z.shiftr value (bits - 1)) (2 ^ (bits - 1) - 1)).
(** [ftoi32], [dtoi64]: from a bit pattern to a signed integer; [i32tof], [i64tod] the inverse *)
Definition ftoi (bits pattern : Z) : Z := make_sortable bits (to_signed bits pattern).
Definition itof (bits value : Z) : Z := wrap bits (make_sortable bits value).
Definition ftoi32 := ftoi 32.
Definition i32tof := itof 32.
Definition dtoi64 := ftoi 64.
Definition i64tod := itof 64.

(** The encoded extreme values ([mini32] .. [maxd64]); the bit patterns of [+inf], [-inf], the least
    positive normal and the greatest finite number are those of IEEE 754. *)
Definition mini32 big := encode32 big (wrap 32 (- 2 ^ 31)) 0.
Definition maxi32 big := encode32 big (2 ^ 31 - 1) 0.
Definition minu32 big := encode32 big 0 0.
Definition maxu32 big := encode32 big (2 ^ 32 - 1) 0.
Definition mini64 big := encode64 big (wrap 64 (- 2 ^ 63)) 0.
Definition maxi64 big := encode64 big (2 ^ 63 - 1) 0.
Definition minu64 big := encode64 big 0 0.
Definition maxu64 big := encode64 big (2 ^ 64 - 1) 0.
Definition finf32 big := encodef32 big (wrap 32 (ftoi32 0x7F800000)) 0.
Definition nfinf32 big := encodef32 big (wrap 32 (ftoi32 0xFF800000)) 0.
Definition minf32 big := encodef32 big (wrap 32 (ftoi32 0x00800000)) 0.
Definition maxf32 big := encodef32 big (wrap 32 (ftoi32 0x7F7FFFFF)) 0.
Definition dinf64 big := encoded64 big (wrap 64 (dtoi64 0x7FF0000000000000)) 0.
Definition ndinf64 big := encoded64 big (wrap 64 (dtoi64 0xFFF0000000000000)) 0.
Definition mind64 big := encoded64 big (wrap 64 (dtoi64 0x0010000000000000)) 0.
Definition maxd64 big := encoded64 big (wrap 64 (dtoi64 0x7FEFFFFFFFFFFFFF)) 0.

(** *** [numeric_token_stream::numeric_term] *)
Inductive NumericType := NT_LONG | NT_DBL | NT_INT | NT_FLOAT.

Record numeric_term := NumericTerm {
  type_ : NumericType; val_ : Z; step_ : Z; shift_ : Z
}.

(** [numeric_term::value]: the term at a shift *)
Definition term_value (big : bool) (ty : NumericType) (val shift : Z) : list Z :=
  match ty with
  | NT_LONG => encode64 big val shift
  | NT_DBL => encoded64 big val shift
  | NT_INT => encode32 big val shift
  | NT_FLOAT => encodef32 big val shift
  end.

Definition BITS_REQUIRED (ty : NumericType) : Z :=
  match ty with NT_LONG | NT_DBL => 64 | NT_INT | NT_FLOAT => 32 end.

(** [numeric_term::next]: [None] is [false]; otherwise the increment, the term and the new state *)
Definition term_next (big : bool) (s : numeric_term) : option (Z * list Z * numeric_term) :=
  if BITS_REQUIRED (type_ s) <=? shift_ s then None
  else
    let out := term_value big (type_ s) (val_ s) (shift_ s) in
    let shift := shift_ s +[32] step_ s in
    Some (if step_ s =? shift then 1 else 0, out,
          NumericTerm (type_ s) (val_ s) (step_ s) shift).

Fixpoint term_all (fuel : nat) (big : bool) (s : numeric_term) : option (list (Z * list Z)) :=
  match term_next big s with
  | None => Some []
  | Some (inc, out, s) =>
      match fuel with O => None | S fuel => cons (inc, out) <$> term_all fuel big s end
  end.

(** *** Lexicographic comparison of byte strings *)
Fixpoint lex_compare (xs ys : list Z) : comparison :=
  match xs, ys with
  | [], [] => Eq
  | [], _ => Lt
  | _, [] => Gt
  | x :: xs, y :: ys => match x ?= y with Eq => lex_compare xs ys | c => c end
  end.

Definition be_value (bs : list Z) : Z := le_value (rev bs).

Lemma le_value_app xs ys : Forall is_byte xs ->
  le_value (xs ++ ys) = le_value xs + le_value ys * 2 ^ (8 * Z.of_nat (length xs)).
Proof.
  induction 1 as [|x xs Hx Hxs IH]; cbn [le_value app length]; [rewrite Z.mul_1_r; done|].
  rewrite !lor_low_high, IH by (done || lia).
  rewrite Nat2Z.inj_succ. replace (8 * Z.succ (Z.of_nat (length xs))) with (8 * Z.of_nat (length xs) + 8) by lia.
  rewrite Z.pow_add_r by lia. lia.
Qed.

Lemma be_value_cons b bs : is_byte b -> Forall is_byte bs ->
  be_value (b :: bs) = be_value bs + b * 2 ^ (8 * Z.of_nat (length bs)).
Proof.
  intros Hb Hbs. unfold be_value. cbn [rev]. rewrite le_value_app by by apply rev_bytes.
  rewrite length_rev. cbn [le_value]. by rewrite Z.shiftl_0_l, Z.lor_0_r.
Qed.

Lemma be_value_range bs : Forall is_byte bs -> is_word (8 * Z.of_nat (length bs)) (be_value bs).
Proof.
  intros Hbs. unfold be_value. rewrite <-length_rev. apply le_value_range. by apply rev_bytes.
Qed.

(** Byte strings of one length compare as the numbers they write in base 256. *)
Lemma lex_compare_be xs ys : Forall is_byte xs -> Forall is_byte ys -> length xs = length ys ->
  lex_compare xs ys = (be_value xs ?= be_value ys).
Proof.
  intros Hxs. revert ys. induction Hxs as [|x xs Hx Hxs IH]; intros ys Hys Hlen.
  - by destruct ys.
  - destruct Hys as [|y ys Hy Hys]; [done|]. simpl in Hlen.
    rewrite !be_value_cons by done. simpl. rewrite IH by (done || lia).
    pose proof (be_value_range xs Hxs) as Hrx. pose proof (be_value_range ys Hys) as Hry.
    replace (length ys) with (length xs) in * by lia. unfold is_word in *.
    set (B := 2 ^ (8 * Z.of_nat (length xs))) in *.
    destruct (Z.compare_spec x y); symmetry.
    + subst. rewrite !(Z.add_comm _ (y * B)). apply Z.add_compare_mono_l.
    + apply Z.compare_lt_iff. nia.
    + apply Z.compare_gt_iff. nia.
Qed.

Lemma lex_compare_app zs xs ys : lex_compare (zs ++ xs) (zs ++ ys) = lex_compare xs ys.
Proof. induction zs; simpl; [done|]. by rewrite Z.compare_refl. Qed.

(** *** The encoded bytes *)

Lemma type_bits_size t : type_bits t = 8 * Z.of_nat (type_size t).
Proof. by destruct t. Qed.

Lemma encoded_size_range t shift : 0 <= shift < type_bits t ->
  1 <= encoded_size (type_bits t) shift <= Z.of_nat (type_size t) /\
  type_bits t - shift <= 8 * encoded_size (type_bits t) shift < type_bits t - shift + 8.
Proof.
  intros Hs. unfold encoded_size. destruct (Z.ltb_spec shift (type_bits t)); [|lia].
  rewrite type_bits_size in *.
  pose proof (Z.div_mod (8 * Z.of_nat (type_size t) - 1 - shift) 8 ltac:(lia)).
  pose proof (Z.mod_pos_bound (8 * Z.of_nat (type_size t) - 1 - shift) 8 ltac:(lia)). lia.
Qed.

(** A value with its sign bit flipped and the bits below [shift] cleared. *)
Definition masked (bits value shift : Z) : Z :=
  Z.shiftl (Z.shiftr (Z.lxor value (2 ^ (bits - 1))) shift) shift.

Lemma lxor_sign bits value : 1 <= bits -> is_word bits value ->
  Z.lxor value (2 ^ (bits - 1)) = if value <? 2 ^ (bits - 1) then value + 2 ^ (bits - 1)
                                  else value - 2 ^ (bits - 1).
Proof.
  intros Hb [Hv0 Hv].
  assert (2 ^ bits = 2 * 2 ^ (bits - 1)) as E by (rewrite <-Z.pow_succ_r by lia; f_equal; lia).
  assert (forall x, is_word (bits - 1) x -> Z.lxor x (2 ^ (bits - 1)) = x + 2 ^ (bits - 1)) as H.
  { intros x Hx. rewrite <-Z.add_nocarry_lxor; [done|].
    rewrite <-(Z.mul_1_l (2 ^ (bits - 1))), <-Z.shiftl_mul_pow2 by lia. apply land_low_high; [lia|done]. }
  destruct (Z.ltb_spec value (2 ^ (bits - 1))).
  - apply H. unfold is_word. lia.
  - replace value with (value - 2 ^ (bits - 1) + 2 ^ (bits - 1)) at 1 by lia.
    rewrite <-H by (unfold is_word; lia). by rewrite Z.lxor_assoc, Z.lxor_nilpotent, Z.lxor_0_r.
Qed.

Lemma lxor_sign_word bits value : 1 <= bits -> is_word bits value ->
  is_word bits (Z.lxor value (2 ^ (bits - 1))).
Proof.
  intros Hb Hv. rewrite lxor_sign by done. unfold is_word in *.
  assert (2 ^ bits = 2 * 2 ^ (bits - 1)) as E by (rewrite <-Z.pow_succ_r by lia; f_equal; lia).
  destruct (Z.ltb_spec value (2 ^ (bits - 1))); lia.
Qed.

Lemma shift_mask_word bits x shift : is_word bits x -> 0 <= shift ->
  is_word bits (Z.shiftl (Z.shiftr x shift) shift).
Proof.
  intros Hx Hs. unfold is_word in *. rewrite Z.shiftl_mul_pow2, Z.shiftr_div_pow2 by lia.
  pose proof (pow2_pos shift Hs). pose proof (Z.div_mod x (2 ^ shift) ltac:(lia)).
  pose proof (Z.mod_pos_bound x (2 ^ shift) ltac:(lia)).
  assert (0 <= x / 2 ^ shift) by (apply Z.div_pos; lia). nia.
Qed.

(** The code's mask clears the low bits. *)
Lemma encode_mask bits value shift : 1 <= bits -> is_word bits value -> 0 <= shift < bits ->
  Z.land (Z.lxor value (1 <<[bits] (bits - 1))) (Z.lxor (2 ^ bits - 1) ((1 <<[bits] shift) -[bits] 1))
  = masked bits value shift.
Proof.
  intros Hb Hv Hs. rewrite !Bit.shl1 by lia. unfold masked.
  set (x := Z.lxor value (2 ^ (bits - 1))).
  assert (is_word bits x) as Hx by by apply lxor_sign_word.
  assert (wrap bits (2 ^ shift - 1) = Z.ones shift) as ->.
  { rewrite Z.ones_equiv. apply wrap_small. unfold is_word. pose proof (pow2_pos shift).
    assert (2 ^ shift < 2 ^ bits) by (apply Z.pow_lt_mono_r; lia). lia. }
  replace (2 ^ bits - 1) with (Z.ones bits) by (rewrite Z.ones_equiv; lia).
  bitwise; rewrite Z.sub_add; [done|]. symmetry. apply (testbit_high bits); done || lia.
Qed.

(** Encoding writes the type byte and the high bytes of the masked value, big-endian. *)
Lemma encode_eq big t value shift : is_word (type_bits t) value -> 0 <= shift < type_bits t ->
  encode big t value shift = to_byte (shift + TYPE_MAGIC t) ::
    take (Z.to_nat (encoded_size (type_bits t) shift)) (rev (le_bytes (type_size t) (masked (type_bits t) value shift))).
Proof.
  intros Hv Hs. unfold encode. cbv zeta. rewrite encode_mask by (done || by destruct t).
  rewrite host_bytes_hton. f_equal. unfold to_byte. by autorewrite with word.
Qed.

Lemma be_value_le n x : is_word (8 * Z.of_nat n) x -> be_value (rev (le_bytes n x)) = x.
Proof. intros Hx. unfold be_value. by rewrite rev_involutive, le_value_bytes, wrap_small. Qed.

(** The leading [k] bytes of a big-endian number are its quotient. *)
Lemma be_value_take k bs : Forall is_byte bs -> (k <= length bs)%nat ->
  be_value (take k bs) = Z.shiftr (be_value bs) (8 * Z.of_nat (length bs - k)).
Proof.
  intros Hbs Hk. rewrite <-(take_drop k bs) at 2. unfold be_value. rewrite rev_app_distr.
  rewrite le_value_app by by apply rev_bytes, Forall_drop.
  pose proof (be_value_range (drop k bs) (Forall_drop _ _ _ Hbs)) as Hr. unfold is_word, be_value in Hr.
  rewrite length_rev, length_drop in *. rewrite Z.shiftr_div_pow2 by lia.
  rewrite Z.div_add, Z.div_small by lia. done.
Qed.

Lemma masked_word t value shift : is_word (type_bits t) value -> 0 <= shift ->
  is_word (8 * Z.of_nat (type_size t)) (masked (type_bits t) value shift).
Proof.
  intros Hv Hs. rewrite <-type_bits_size. apply shift_mask_word; [|done].
  apply lxor_sign_word; [by destruct t|done].
Qed.

(** The number the encoded suffix writes. *)
Lemma encode_suffix_value t value shift : is_word (type_bits t) value -> 0 <= shift < type_bits t ->
  be_value (take (Z.to_nat (encoded_size (type_bits t) shift))
    (rev (le_bytes (type_size t) (masked (type_bits t) value shift))))
  = Z.shiftr (masked (type_bits t) value shift) (type_bits t - 8 * encoded_size (type_bits t) shift).
Proof.
  intros Hv Hs. pose proof (encoded_size_range t shift Hs) as (H1 & H2).
  rewrite be_value_take; [|apply rev_bytes, le_bytes_bytes|rewrite length_rev, length_le_bytes; lia].
  rewrite be_value_le by (apply masked_word; [done|lia]). rewrite length_rev, length_le_bytes.
  f_equal. rewrite type_bits_size in *. lia.
Qed.

(** *** Decoding *)

Lemma host_value_hton big n mem : length mem = n -> Forall is_byte mem ->
  (let value := host_value big mem in if big then value else hton big n value) = be_value mem.
Proof.
  intros <- Hm. unfold host_value, hton, be_value. destruct big; [done|]. cbv zeta.
  by rewrite le_bytes_value.
Qed.

Lemma be_value_zeros bs n : Forall is_byte bs ->
  be_value (bs ++ replicate n 0) = be_value bs * 2 ^ (8 * Z.of_nat n).
Proof.
  intros Hbs. unfold be_value. rewrite rev_app_distr.
  rewrite rev_replicate.
  rewrite le_value_app by (apply Forall_replicate; unfold is_word; lia).
  rewrite length_replicate. assert (le_value (replicate n 0) = 0) as ->; [|lia].
  induction n as [|n IH]; [done|]. simpl. by rewrite IH.
Qed.

(** Decoding an encoded value gives it back with the bits below [shift] cleared. *)
Lemma decode_encode_masked big t value shift r : is_word (type_bits t) value -> 0 <= shift < type_bits t ->
  decode big t (encode big t value shift ++ r) = Some (Z.shiftl (Z.shiftr value shift) shift).
Proof.
  intros Hv Hs. rewrite encode_eq by done. cbn [app]. unfold decode. cbv zeta.
  pose proof (encoded_size_range t shift Hs) as (H1 & H2).
  assert (wrap 64 (to_byte (shift + TYPE_MAGIC t) - TYPE_MAGIC t) = shift) as ->.
  { unfold to_byte. rewrite wrap_small; rewrite wrap_small; destruct t; unfold is_word; simpl in *; lia. }
  set (sz := encoded_size (type_bits t) shift) in *.
  rewrite decide_False by lia.
  set (suf := take (Z.to_nat sz) _).
  assert (length suf = Z.to_nat sz) as Hl.
  { unfold suf. rewrite length_take, length_rev, length_le_bytes. lia. }
  assert (Forall is_byte suf) as Hb by (apply Forall_take, rev_bytes, le_bytes_bytes).
  rewrite decide_False by (rewrite length_app; lia). rewrite take_app_le, take_ge by lia.
  pose proof (host_value_hton big (type_size t) (suf ++ replicate (type_size t - Z.to_nat sz) 0)) as E.
  cbv zeta in E. rewrite E; clear E.
  - rewrite be_value_zeros by done. unfold suf, sz. rewrite encode_suffix_value by done. fold sz.
    rewrite Bit.shl1 by (destruct t; simpl; lia). f_equal.
    assert (8 * Z.of_nat (type_size t - Z.to_nat sz) = type_bits t - 8 * sz) as ->.
    { rewrite type_bits_size. lia. }
    pose proof (type_bits_size t). rewrite <-Z.shiftl_mul_pow2 by lia. unfold masked.
    set (k := type_bits t - 8 * sz) in *. assert (0 <= k <= shift) by lia.
    bitwise; rewrite !Z.sub_add; by destruct (Z.testbit value i).
  - rewrite length_app, length_replicate. lia.
  - apply Forall_app. split; [done|]. apply Forall_replicate. unfold is_word. lia.
Qed.

(** *** Order *)

Lemma masked_int bits a shift : 1 <= bits -> is_int bits a -> 0 <= shift < bits ->
  masked bits (wrap bits a) shift = Z.shiftl (Z.shiftr a shift + 2 ^ (bits - 1 - shift)) shift.
Proof.
  intros Hb Ha Hs. unfold masked. f_equal.
  assert (Z.lxor (wrap bits a) (2 ^ (bits - 1)) = a + 2 ^ (bits - 1)) as ->.
  { rewrite lxor_sign by (done || apply wrap_range; lia). unfold is_int in Ha.
    assert (2 ^ bits = 2 * 2 ^ (bits - 1)) as E by (rewrite <-Z.pow_succ_r by lia; f_equal; lia).
    destruct (decide (0 <= a)).
    - rewrite wrap_small by (unfold is_word; lia). destruct (Z.ltb_spec a (2 ^ (bits - 1))); lia.
    - assert (wrap bits a = a + 2 ^ bits) as ->.
      { symmetry. unfold wrap. apply Z.mod_unique with (-1); lia. }
      destruct (Z.ltb_spec (a + 2 ^ bits) (2 ^ (bits - 1))); lia. }
  rewrite !Z.shiftr_div_pow2 by lia.
  replace (2 ^ (bits - 1)) with (2 ^ (bits - 1 - shift) * 2 ^ shift)
    by (rewrite <-Z.pow_add_r by lia; f_equal; lia).
  apply Z.div_add. pose proof (pow2_pos shift). lia.
Qed.

Lemma mul_pos_compare a b p : 0 < p -> (a * p ?= b * p) = (a ?= b).
Proof. intros Hp. destruct (Z.compare_spec a b); [subst; apply Z.compare_refl| |];
  [apply Z.compare_lt_iff|apply Z.compare_gt_iff]; nia. Qed.

(** Encodings of one type at one shift compare as the numbers without their low bits. *)
Lemma encode_order big t a b shift :
  is_int (type_bits t) a -> is_int (type_bits t) b -> 0 <= shift < type_bits t ->
  lex_compare (encode big t (wrap (type_bits t) a) shift) (encode big t (wrap (type_bits t) b) shift)
  = (Z.shiftr a shift ?= Z.shiftr b shift).
Proof.
  intros Ha Hb Hs. assert (1 <= type_bits t) as Ht by by destruct t.
  rewrite !encode_eq by (done || apply wrap_range; lia). cbn [lex_compare]. rewrite Z.compare_refl.
  rewrite lex_compare_be by (apply Forall_take, rev_bytes, le_bytes_bytes ||
    by rewrite !length_take, !length_rev, !length_le_bytes).
  rewrite !encode_suffix_value by (done || apply wrap_range; lia).
  pose proof (encoded_size_range t shift Hs) as (H1 & H2). pose proof (type_bits_size t).
  set (k := type_bits t - 8 * encoded_size (type_bits t) shift) in *.
  rewrite !masked_int by (done || lia).
  assert (forall x, Z.shiftr (Z.shiftl x shift) k = x * 2 ^ (shift - k)) as E.
  { intros x. rewrite Z.shiftr_shiftl_l by lia. apply Z.shiftl_mul_pow2. lia. }
  rewrite !E, mul_pos_compare by (apply pow2_pos; lia).
  rewrite !(Z.add_comm _ (2 ^ _)). apply Z.add_compare_mono_l.
Qed.

(** *** Sortable floating-point bits *)

Lemma make_sortable_eq bits v : 1 <= bits -> is_int bits v ->
  make_sortable bits v = if 0 <=? v then v else - v - 1 - 2 ^ (bits - 1).
Proof.
  intros Hb Hv. unfold make_sortable, is_int in *. set (k := bits - 1) in *.
  replace (2 ^ k - 1) with (Z.ones k) by (rewrite Z.ones_equiv; lia).
  destruct (Z.leb_spec 0 v).
  - rewrite (Z.shiftr_div_pow2 v), Z.div_small by lia. rewrite Z.land_0_l. apply Z.lxor_0_r.
  - rewrite Z.shiftr_div_pow2 by lia.
    replace (v / 2 ^ k) with (-1) by (apply Z.div_unique with (v + 2 ^ k); lia).
    rewrite Z.land_m1_l. assert (is_word k (v + 2 ^ k)) as Hu by (unfold is_word; lia).
    replace v with (v + 2 ^ k + -1 * 2 ^ k) at 1 by lia. rewrite <-lor_low_high by (done || lia).
    assert (Z.lxor (Z.lor (v + 2 ^ k) (Z.shiftl (-1) k)) (Z.ones k)
            = Z.lor (Z.lxor (v + 2 ^ k) (Z.ones k)) (Z.shiftl (-1) k)) as -> by bitwise.
    rewrite lxor_ones by (done || lia). rewrite lor_low_high by (lia || unfold is_word in *; lia). lia.
Qed.

Lemma make_sortable_int bits v : 1 <= bits -> is_int bits v -> is_int bits (make_sortable bits v).
Proof.
  intros Hb Hv. rewrite make_sortable_eq by done. unfold is_int in *. destruct (Z.leb_spec 0 v); lia.
Qed.

Lemma make_sortable_involutive bits v : 1 <= bits -> is_int bits v ->
  make_sortable bits (make_sortable bits v) = v.
Proof.
  intros Hb Hv. rewrite (make_sortable_eq bits (make_sortable bits v)) by auto using make_sortable_int.
  rewrite make_sortable_eq by done. unfold is_int in Hv. bdestruct_all; lia.
Qed.

Lemma itof_ftoi bits p : 1 <= bits -> is_word bits p -> itof bits (ftoi bits p) = p.
Proof.
  intros Hb Hp. unfold itof, ftoi. rewrite make_sortable_involutive by (done || by apply to_signed_range).
  rewrite wrap_to_signed by done. by apply wrap_small.
Qed.

Lemma ftoi_itof bits v : 1 <= bits -> is_int bits v -> ftoi bits (itof bits v) = v.
Proof.
  intros Hb Hv. unfold itof, ftoi. rewrite to_signed_wrap by (done || by apply make_sortable_int).
  by apply make_sortable_involutive.
Qed.

(** The sign bit and the magnitude of a floating-point pattern. *)
Definition float_sign (bits p : Z) : bool := 2 ^ (bits - 1) <=? p.
Definition float_magnitude (bits p : Z) : Z := if float_sign bits p then p - 2 ^ (bits - 1) else p.

(** The order of floating-point numbers on patterns: negative before positive, magnitudes increasing
    on the positive side and decreasing on the negative one ([-0] is just below [+0]). *)
Definition float_compare (bits p q : Z) : comparison :=
  match float_sign bits p, float_sign bits q with
  | true, false => Lt
  | false, true => Gt
  | false, false => float_magnitude bits p ?= float_magnitude bits q
  | true, true => float_magnitude bits q ?= float_magnitude bits p
  end.

Lemma ftoi_eq bits p : 1 <= bits -> is_word bits p ->
  ftoi bits p = if float_sign bits p then - float_magnitude bits p - 1 else float_magnitude bits p.
Proof.
  intros Hb Hp. unfold ftoi. rewrite make_sortable_eq by (done || by apply to_signed_range).
  unfold float_magnitude, float_sign, to_signed. rewrite wrap_small by done. unfold is_word in Hp.
  assert (2 ^ bits = 2 * 2 ^ (bits - 1)) as E by (rewrite <-Z.pow_succ_r by lia; f_equal; lia).
  bdestruct_all; lia.
Qed.

Lemma ftoi_order bits p q : 1 <= bits -> is_word bits p -> is_word bits q ->
  (ftoi bits p ?= ftoi bits q) = float_compare bits p q.
Proof.
  intros Hb Hp Hq. rewrite !ftoi_eq by done. unfold float_compare, float_magnitude, float_sign, is_word in *.
  assert (2 ^ bits = 2 * 2 ^ (bits - 1)) as E by (rewrite <-Z.pow_succ_r by lia; f_equal; lia).
  set (B := 2 ^ (bits - 1)) in *.
  destruct (Z.leb_spec B p); destruct (Z.leb_spec B q);
    repeat match goal with |- context [?a ?= ?b] => destruct (Z.compare_spec a b) end;
    try reflexivity; lia.
Qed.

(** *** The terms of a number *)

Lemma term_next_spec big ty v step k :
  1 <= step < 2 ^ 31 -> 0 <= k -> k * step < 2 ^ 31 ->
  term_next big (NumericTerm ty v step (k * step)) =
    if k * step <? BITS_REQUIRED ty
    then Some (if k =? 0 then 1 else 0, term_value big ty v (k * step), NumericTerm ty v step ((k + 1) * step))
    else None.
Proof.
  intros Hs Hk Hb. unfold term_next. cbn [type_ val_ step_ shift_]. rewrite Z.leb_antisym.
  destruct (k * step <? BITS_REQUIRED ty); [|done]. simpl.
  rewrite wrap_small by (unfold is_word; lia). replace (k * step + step) with ((k + 1) * step) by lia.
  do 3 f_equal. destruct (Z.eqb_spec step ((k + 1) * step)); destruct (Z.eqb_spec k 0); nia.
Qed.

Lemma term_all_spec big ty v step fuel k : 1 <= step < 2 ^ 30 -> 0 <= k -> k * step < BITS_REQUIRED ty + step ->
  BITS_REQUIRED ty <= (k + Z.of_nat fuel) * step ->
  exists n, 0 <= n /\ BITS_REQUIRED ty <= (k + n) * step /\ (0 < n -> (k + n - 1) * step < BITS_REQUIRED ty) /\
    term_all fuel big (NumericTerm ty v step (k * step)) =
      Some ((fun j => (if j =? 0 then 1 else 0, term_value big ty v (j * step))) <$> seqZ k n).
Proof.
  intros Hs. assert (BITS_REQUIRED ty <= 64) as Hb64 by (destruct ty; simpl; lia).
  revert k. induction fuel as [|fuel IH]; intros k Hk Hlt Hf; cbn [term_all];
    destruct (Z.ltb_spec (k * step) (BITS_REQUIRED ty)) as [Hc|Hc].
  - nia.
  - exists 0. rewrite term_next_spec by lia. destruct (Z.ltb_spec (k * step) (BITS_REQUIRED ty)); [lia|].
    split_and!; try done; lia.
  - rewrite term_next_spec by lia. destruct (Z.ltb_spec (k * step) (BITS_REQUIRED ty)); [|lia].
    destruct (IH (k + 1)) as (n & Hn & Hn1 & Hn2 & ->); [lia|lia|lia|].
    exists (n + 1). split; [lia|]. split; [nia|]. split; [intros; destruct (decide (n = 0)) as [->|]; [nia|]; assert (0 < n) as Hp by lia; specialize (Hn2 Hp); nia|].
    rewrite (seqZ_cons k) by lia. cbn [fmap list_fmap option_fmap option_map]. unfold Z.succ, Z.pred.
    replace (n + 1 + -1) with n by lia. done.
  - exists 0. rewrite term_next_spec by lia. destruct (Z.ltb_spec (k * step) (BITS_REQUIRED ty)); [lia|].
    split_and!; try done; lia.
Qed.

(** ** Properties *)

(** C30: the encoding of numbers preserves their order: encoded integers of one type and shift compare
    byte by byte as the integers without their [shift] low bits, and encoded floating-point numbers in
    the order of floating-point numbers. *)
Theorem encode_preserves_order (big : bool) (t : encode_type) :
  (forall a b shift, is_int (type_bits t) a -> is_int (type_bits t) b -> 0 <= shift < type_bits t ->
     lex_compare (encode big t (wrap (type_bits t) a) shift) (encode big t (wrap (type_bits t) b) shift)
     = (Z.shiftr a shift ?= Z.shiftr b shift)) /\
  (forall p q, is_word (type_bits t) p -> is_word (type_bits t) q ->
     lex_compare (encode big t (wrap (type_bits t) (ftoi (type_bits t) p)) 0)
                 (encode big t (wrap (type_bits t) (ftoi (type_bits t) q)) 0)
     = float_compare (type_bits t) p q).
Proof.
  assert (1 <= type_bits t) by by destruct t. split; [intros; by apply encode_order|].
  assert (forall p, is_word (type_bits t) p -> is_int (type_bits t) (ftoi (type_bits t) p)) as Hi.
  { intros p Hp. unfold ftoi. apply make_sortable_int; [done|]. by apply to_signed_range. }
  intros p q Hp Hq. rewrite encode_order by (auto; lia). rewrite !Z.shiftr_0_r. by apply ftoi_order.
Qed.

(** C40: Decoding an encoded value gives it with the bits below [shift] cleared; with no shift it is a
    round trip, and so is the passage from floating-point patterns to sortable integers. *)
Theorem decode_encode (big : bool) (t : encode_type) (value shift : Z) (r : list Z)
    (Hv : is_word (type_bits t) value) (Hs : 0 <= shift < type_bits t) :
  decode big t (encode big t value shift ++ r) = Some (Z.shiftl (Z.shiftr value shift) shift) /\
  decode big t (encode big t value 0 ++ r) = Some value /\
  itof (type_bits t) (ftoi (type_bits t) value) = value /\
  Z.of_nat (length (encode big t value shift)) = 1 + encoded_size (type_bits t) shift.
Proof.
  split_and!.
  - by apply decode_encode_masked.
  - rewrite decode_encode_masked by (done || lia). by rewrite Z.shiftr_0_r, Z.shiftl_0_r.
  - apply itof_ftoi; [by destruct t|done].
  - pose proof (encoded_size_range t shift Hs). rewrite encode_eq by done.
    cbn [length]. rewrite length_take, length_rev, length_le_bytes. lia.
Qed.

Lemma decode_encode_witness :
  decode false UINT32 (encode false UINT32 0x12345678 8 ++ [7]) = Some 0x12345600.
Proof. exact (proj1 (decode_encode false UINT32 0x12345678 8 [7] ltac:(unfold is_word; simpl; lia) ltac:(simpl; lia))). Defined.

(** C31: [numeric_token_stream] yields one term per precision step, at the shifts [0, step, 2*step, ..]
    below the width of the number, with a position increment on the first term only. *)
Theorem numeric_terms (big : bool) (ty : NumericType) (v step : Z) (Hs : 1 <= step < 2 ^ 30) :
  exists n, BITS_REQUIRED ty <= n * step < BITS_REQUIRED ty + step /\
    term_all 64 big (NumericTerm ty v step 0) =
      Some ((fun k => (if k =? 0 then 1 else 0, term_value big ty v (k * step))) <$> seqZ 0 n).
Proof.
  assert (32 <= BITS_REQUIRED ty <= 64) by (destruct ty; simpl; lia).
  destruct (term_all_spec big ty v step 64 0) as (n & Hn & H1 & H2 & H3); try lia.
  exists n. rewrite Z.mul_0_l, Z.add_0_l in *. split; [|done].
  destruct (decide (n = 0)) as [->|]; [lia|]. assert (0 < n) as Hp by lia. specialize (H2 Hp). nia.
Qed.

Lemma numeric_terms_witness :
  exists n, 32 <= n * 16 < 32 + 16 /\
    term_all 64 false (NumericTerm NT_INT 1 16 0) =
      Some ((fun k => (if k =? 0 then 1 else 0, term_value false NT_INT 1 (k * 16))) <$> seqZ 0 n).
Proof. exact (numeric_terms false NT_INT 1 16 ltac:(lia)). Defined.
