(* ===== verification/Streams.v ===== *)
(** Byte streams: the interfaces [data_output] and [data_input] of [core/store/data_output.hpp] and
    [core/store/data_input.hpp], and their buffered implementations in [data_output.cpp] and
    [data_input.cpp] (Modules [BufferedOutput] and [BufferedInput]).

    Sizes and offsets index objects in memory or in a file and are natural numbers. *)
From S2P Require Import Prelude BitUtils BytesIO.

(** ** [data_output] *)

(** The two pure virtual functions. *)
Class DataOutput (S : Type) := {
  write_byte : Z -> S -> S;
  write_bytes : list Z -> S -> S
}.

(** What an output promises: under an invariant, the bytes written so far only grow by what is
    written. *)
Class DataOutputSpec (S : Type) `{DataOutput S} := {
  out_ok : S -> Prop;
  written : S -> list Z;
  write_byte_spec b s : out_ok s -> out_ok (write_byte b s) /\ written (write_byte b s) = written s ++ [b];
  write_bytes_spec bs s : out_ok s -> out_ok (write_bytes bs s) /\ written (write_bytes bs s) = written s ++ bs
}.

Section data_output.
Context {S : Type} `{DataOutput S}.

(** Writing through the stream as an output iterator: [*out = b; ++out], byte by byte. *)
Definition out_iter (bs : list Z) (s : S) : S := foldl (fun s b => write_byte b s) s bs.

Definition write_short (i : Z) (s : S) : S := out_iter (Fixed.write16 (wrap 16 i)) s.
Definition write_int (i : Z) (s : S) : S := out_iter (Fixed.write32 (wrap 32 i)) s.
Definition write_long (i : Z) (s : S) : S := out_iter (Fixed.write64 (wrap 64 i)) s.
Definition write_vint (i : Z) (s : S) : S := out_iter (VInt.vwrite32 i) s.
Definition write_vlong (i : Z) (s : S) : S := out_iter (VInt.vwrite64 i) s.
End data_output.

(** [output_buf], a [std::streambuf] over an output *)
Definition output_buf_xsputn {S} `{DataOutput S} (c : list Z) (s : S) : nat * S :=
  (length c, write_bytes c s).
Definition output_buf_overflow {S} `{DataOutput S} (c : Z) (s : S) : Z * S :=
  (c, write_byte (to_byte c) s).

(** ** [data_input] *)

Class DataInput (S : Type) := {
  read_byte : S -> option (Z * S);
  read_bytes : nat -> S -> list Z * S
}.

#[global] Instance data_input_iterator {S} `{DataInput S} : InputIterator S := read_byte.

(** What an input promises: [remaining] bytes are delivered in order. *)
Class DataInputSpec (S : Type) `{DataInput S} := {
  in_ok : S -> Prop;
  remaining : S -> list Z;
  read_byte_spec s b r : in_ok s -> remaining s = b :: r ->
    exists s', read_byte s = Some (b, s') /\ in_ok s' /\ remaining s' = r;
  read_bytes_spec n s : in_ok s ->
    fst (read_bytes n s) = take n (remaining s) /\
    in_ok (snd (read_bytes n s)) /\ remaining (snd (read_bytes n s)) = drop n (remaining s)
}.

#[global] Instance data_input_refines {S} `{DataInputSpec S} : RefinesList S := {
  ok := in_ok; ahead := remaining; next_ahead := read_byte_spec
}.

Section data_input.
Context {S : Type} `{DataInput S}.

Definition read_short (s : S) : option (Z * S) := '(v, s) ← Fixed.read16 s; Some (to_signed 16 v, s).
Definition read_int (s : S) : option (Z * S) := '(v, s) ← Fixed.read32 s; Some (to_signed 32 v, s).
Definition read_long (s : S) : option (Z * S) := '(v, s) ← Fixed.read64 s; Some (to_signed 64 v, s).
Definition read_vint (s : S) : option (Z * S) := VInt.vread32 s.
Definition read_vlong (s : S) : option (Z * S) := VInt.vread64 s.
End data_input.

(** ** [index_input]: positions, and direct access to a buffer ([None] for [nullptr]) *)

Class IndexInput (S : Type) `{DataInput S} := {
  file_pointer : S -> nat;
  seek : nat -> S -> S;
  read_buffer : nat -> S -> option (list Z) * S
}.

Class IndexInputSpec (S : Type) `{DataInputSpec S, !IndexInput S} := {
  seek_spec n s : in_ok s -> (n < length (remaining s))%nat -> in_ok (seek (file_pointer s + n) s) /\
    remaining (seek (file_pointer s + n) s) = drop n (remaining s);
  read_buffer_spec n s : in_ok s -> (n <= length (remaining s))%nat ->
    match read_buffer n s with
    | (Some b, s') => b = take n (remaining s) /\ in_ok s' /\ remaining s' = drop n (remaining s)
    | (None, s') => s' = s
    end
}.

(** Not every input can be sought to its end ([memory_index_input] cannot). *)
Class SeekEndSpec (S : Type) `{IndexInputSpec S} :=
  seek_end_spec s : in_ok s -> in_ok (seek (file_pointer s + length (remaining s)) s) /\
    remaining (seek (file_pointer s + length (remaining s)) s) = [].

Lemma seek_ahead {S} `{SeekEndSpec S} n s : in_ok s -> (n <= length (remaining s))%nat ->
  in_ok (seek (file_pointer s + n) s) /\ remaining (seek (file_pointer s + n) s) = drop n (remaining s).
Proof.
  intros Hs Hn. destruct (decide (n = length (remaining s))) as [->|Hne]; [|apply seek_spec; [done|lia]].
  rewrite drop_ge by done. by apply seek_end_spec.
Qed.

(** [output_buf]'s and the writers' effect on any lawful output. *)
Lemma out_iter_spec {S} `{DataOutputSpec S} bs s :
  out_ok s -> out_ok (out_iter bs s) /\ written (out_iter bs s) = written s ++ bs.
Proof.
  revert s. induction bs as [|b bs IH]; intros s Hs; simpl; [by rewrite app_nil_r|].
  destruct (write_byte_spec b s Hs) as [H1 H2]. destruct (IH _ H1) as [H3 H4].
  split; [done|]. by rewrite H4, H2, <-app_assoc.
Qed.

(** Reading from a lawful input a value whose bytes lie ahead. *)
Lemma read_vint_spec {S} `{DataInputSpec S} v r s : in_ok s -> is_word 32 v ->
  remaining s = VInt.vwrite32 v ++ r ->
  exists s', read_vint s = Some (v, s') /\ in_ok s' /\ remaining s' = r.
Proof.
  intros Hs Hv Hr. destruct (VInt.vwrite32_spec v Hv) as (_ & _ & Hread).
  pose proof (VInt.vread_from_reads 32 4 0 0 s) as Hsim. apply (Hsim Hs v r).
  simpl ahead. rewrite Hr. apply Hread.
Qed.

Lemma read_vlong_spec {S} `{DataInputSpec S} v r s : in_ok s -> is_word 64 v ->
  remaining s = VInt.vwrite64 v ++ r ->
  exists s', read_vlong s = Some (v, s') /\ in_ok s' /\ remaining s' = r.
Proof.
  intros Hs Hv Hr. destruct (VInt.vwrite64_spec v Hv) as (_ & _ & Hread).
  pose proof (VInt.vread_from_reads 64 9 0 0 s) as Hsim. apply (Hsim Hs v r).
  simpl ahead. rewrite Hr. apply Hread.
Qed.

Lemma read_short_spec {S} `{DataInputSpec S} v r s : in_ok s -> is_int 16 v ->
  remaining s = Fixed.write16 (wrap 16 v) ++ r ->
  exists s', read_short s = Some (v, s') /\ in_ok s' /\ remaining s' = r.
Proof.
  intros Hs Hv Hr. pose proof (Fixed.read16_reads s) as Hsim.
  destruct (Hsim Hs (wrap 16 v) r) as (s' & H1 & H2).
  { simpl ahead. rewrite Hr. apply Fixed.read16_write16, wrap_range. lia. }
  exists s'. unfold read_short. rewrite H1. simpl. by rewrite to_signed_wrap.
Qed.

Lemma read_int_spec {S} `{DataInputSpec S} v r s : in_ok s -> is_int 32 v ->
  remaining s = Fixed.write32 (wrap 32 v) ++ r ->
  exists s', read_int s = Some (v, s') /\ in_ok s' /\ remaining s' = r.
Proof.
  intros Hs Hv Hr. pose proof (Fixed.read32_reads s) as Hsim.
  destruct (Hsim Hs (wrap 32 v) r) as (s' & H1 & H2).
  { simpl ahead. rewrite Hr. apply Fixed.read32_write32, wrap_range. lia. }
  exists s'. unfold read_int. rewrite H1. simpl. by rewrite to_signed_wrap.
Qed.

Lemma read_long_spec {S} `{DataInputSpec S} v r s : in_ok s -> is_int 64 v ->
  remaining s = Fixed.write64 (wrap 64 v) ++ r ->
  exists s', read_long s = Some (v, s') /\ in_ok s' /\ remaining s' = r.
Proof.
  intros Hs Hv Hr. pose proof (Fixed.read64_reads s) as Hsim.
  destruct (Hsim Hs (wrap 64 v) r) as (s' & H1 & H2).
  { simpl ahead. rewrite Hr. apply Fixed.read64_write64, wrap_range. lia. }
  exists s'. unfold read_long. rewrite H1. simpl. by rewrite to_signed_wrap.
Qed.

(** ** [buffered_index_output] *)
Module BufferedOutput.

(** [file] is what [flush_buffer] has been given, [buf] the bytes in [[buf_, pos_)]; [end_] is
    [buf_ + buf_size_]. *)
Record t := Make { file : list Z; start_ : nat; buf : list Z; buf_size_ : nat }.

(** [reset(buf, size)] *)
Definition reset (size : nat) (s : t) : t := Make (file s) (start_ s) [] size.

Definition remain (s : t) : nat := buf_size_ s - length (buf s).
Definition flush_buffer (b : list Z) (s : t) : t := Make (file s ++ b) (start_ s) (buf s) (buf_size_ s).
(** Bytes stored at [pos_], which advances. *)
Definition put (b : list Z) (s : t) : t := Make (file s) (start_ s) (buf s ++ b) (buf_size_ s).

Definition flush (s : t) : t :=
  let size := length (buf s) in
  if decide (size = 0)%nat then s
  else
    let s := flush_buffer (buf s) s in
    Make (file s) (start_ s + size) [] (buf_size_ s).

Definition write_byte (b : Z) (s : t) : t :=
  let s := if decide (buf_size_ s <= length (buf s))%nat then flush s else s in
  put [b] s.

(** The fill/flush loop over the part of the input not yet written. *)
Fixpoint fill_loop (fuel : nat) (b : list Z) (left : nat) (s : t) : option t :=
  if decide (length b = 0)%nat then Some s
  else
    match fuel with
    | O => None
    | S fuel =>
        let slice_len := Nat.min (length b) left in
        let s := put (take slice_len b) s in
        let b := drop slice_len b in
        let left := (left - slice_len)%nat in
        if decide (length (buf s) = buf_size_ s)%nat then fill_loop fuel b (buf_size_ s) (flush s)
        else fill_loop fuel b left s
    end.

Definition write_bytes (b : list Z) (s : t) : t :=
  let left := (buf_size_ s - length (buf s))%nat in
  if decide (length b < left)%nat then put b s
  else if decide (buf_size_ s <= length b)%nat then
    let s := if decide (0 < length (buf s))%nat then flush s else s in
    let s := flush_buffer b s in
    Make (file s) (start_ s + length b) (buf s) (buf_size_ s)
  else default s (fill_loop (S (length b)) b left s).

#[global] Instance data_output : DataOutput t := { write_byte := write_byte; write_bytes := write_bytes }.

(** The overridden writers go straight to the buffer when it has room. *)
Definition write_short (value : Z) (s : t) : t :=
  if decide (remain s < 2)%nat then Streams.write_short value s else put (Fixed.write16 (wrap 16 value)) s.
Definition write_int (big : bool) (value : Z) (s : t) : t :=
  if decide (remain s < 4)%nat then Streams.write_int value s else put (Fixed.write32_ptr big (wrap 32 value)) s.
Definition write_long (big : bool) (value : Z) (s : t) : t :=
  if decide (remain s < 8)%nat then Streams.write_long value s else put (Fixed.write64_ptr big (wrap 64 value)) s.
Definition write_vint (v : Z) (s : t) : t :=
  if decide (remain s < VInt.const_max_vsize 32)%nat then Streams.write_vint v s else put (VInt.vwrite32 v) s.
Definition write_vlong (v : Z) (s : t) : t :=
  if decide (remain s < VInt.const_max_vsize 64)%nat then Streams.write_vlong v s else put (VInt.vwrite64 v) s.

Definition file_pointer (s : t) : nat := start_ s + length (buf s).

(** [CloseImpl]: the size and the state *)
Definition CloseImpl (s : t) : nat * t :=
  let s := if decide (0 < length (buf s))%nat then flush_buffer (buf s) s else s in
  let size := file_pointer s in
  (size, Make (file s) 0 [] (buf_size_ s)).

(** [index_output::close]: the callback, if one is set, gets the size. *)
Definition close {C} (callback : option (nat -> C)) (s : t) : option C * t :=
  let '(size, s) := CloseImpl s in ((fun f => f size) <$> callback, s).

Definition written (s : t) : list Z := file s ++ buf s.
Definition inv (s : t) : Prop :=
  start_ s = length (file s) /\ (length (buf s) <= buf_size_ s)%nat /\ (0 < buf_size_ s)%nat.

Lemma inv_put b s : inv s -> (length b <= remain s)%nat -> inv (put b s) /\ written (put b s) = written s ++ b.
Proof.
  unfold inv, remain, written. simpl. rewrite length_app, app_assoc. intros (H1 & H2 & H3) Hb. split_and!; lia || done.
Qed.

Lemma inv_flush s : inv s -> inv (flush s) /\ written (flush s) = written s /\ buf (flush s) = [] /\
  buf_size_ (flush s) = buf_size_ s.
Proof.
  unfold inv, flush, written. intros (H1 & H2 & H3). cbv zeta. case_decide as E; simpl.
  - apply nil_length_inv in E. by split_and!.
  - rewrite length_app, app_nil_r. split_and!; lia || done.
Qed.

Lemma write_byte_inv b s : inv s -> inv (write_byte b s) /\ written (write_byte b s) = written s ++ [b].
Proof.
  intros Hs. unfold write_byte. cbv zeta. case_decide.
  - destruct (inv_flush s Hs) as (H1 & H2 & H3 & H4). rewrite <-H2.
    apply inv_put; [done|]. unfold remain. rewrite H3. destruct H1 as (_ & _ & ?). simpl. lia.
  - apply inv_put; [done|]. unfold remain. simpl. lia.
Qed.

(** The loop terminates within one iteration more than there are bytes. *)
Lemma fill_loop_inv fuel b left s : inv s -> left = remain s ->
  (length b <= fuel)%nat -> (left = 0 -> length b < fuel)%nat ->
  exists s', fill_loop fuel b left s = Some s' /\ inv s' /\ written s' = written s ++ b.
Proof.
  revert b left s. induction fuel as [|fuel IH]; intros b left s Hs Hl Hf Hf0; cbn [fill_loop]; case_decide as Eb;
    try (apply nil_length_inv in Eb; subst b; exists s; by rewrite app_nil_r).
  - lia.
  - cbv zeta. set (n := Nat.min (length b) left) in *.
    destruct (inv_put (take n b) s Hs) as (H1 & H2); [rewrite length_take; lia|].
    assert (length (buf (put (take n b) s)) = length (buf s) + n)%nat as Hlen.
    { simpl. rewrite length_app, length_take. lia. }
    assert (buf_size_ (put (take n b) s) = buf_size_ s) as Hsz by done.
    set (s1 := put (take n b) s) in *.
    assert (written s1 ++ drop n b = written s ++ b) as Hw.
    { by rewrite H2, <-app_assoc, take_drop. }
    rewrite <-Hw. unfold remain in *. destruct Hs as (_ & Hsle & Hspos). case_decide.
    + destruct (inv_flush s1 H1) as (H3 & H4 & H5 & H6). rewrite <-H4.
      apply IH; [done|unfold remain; rewrite H5, H6; simpl; lia| |]; rewrite length_drop; lia.
    + apply IH; [done|unfold remain; lia| |]; rewrite length_drop; lia.
Qed.

Lemma write_bytes_inv b s : inv s -> inv (write_bytes b s) /\ written (write_bytes b s) = written s ++ b.
Proof.
  intros Hs. unfold write_bytes. cbv zeta. case_decide; [|case_decide].
  - apply inv_put; [done|unfold remain; lia].
  - case_decide as Hb.
    + destruct (inv_flush s Hs) as ((H1 & H2 & H3) & H4 & H5 & H6). rewrite <-H4.
      unfold inv, written. simpl. rewrite H5 in *. rewrite length_app, !app_nil_r. split_and!; lia || done.
    + assert (buf s = []) as E by (apply nil_length_inv; lia). destruct Hs as (H1 & H2 & H3).
      unfold inv, written. simpl. rewrite E. rewrite length_app, !app_nil_r. simpl. split_and!; lia || done.
  - destruct (fill_loop_inv (S (length b)) b (buf_size_ s - length (buf s)) s) as (s' & -> & H');
      [done|done|lia|lia|]. done.
Qed.

#[global] Instance data_output_spec : DataOutputSpec t := {
  out_ok := inv; written := written; write_byte_spec := write_byte_inv; write_bytes_spec := write_bytes_inv
}.

(** A writer that stores [bs] in the buffer when it has room for [n >= length bs] bytes, and writes
    them one by one otherwise. *)
Lemma buffered_put (n : nat) (bs bs' : list Z) (s : t) : inv s -> bs' = bs -> (length bs <= n)%nat ->
  let s' := if decide (remain s < n)%nat then out_iter bs s else put bs' s in
  inv s' /\ written s' = written s ++ bs.
Proof.
  intros Hs -> Hn. cbv zeta. pose proof (out_iter_spec bs s) as Hiter.
  case_decide; [exact (Hiter Hs)|]. apply inv_put; [done|lia].
Qed.

Lemma length_write32 x : length (Fixed.write32 x) = 4%nat.
Proof. done. Qed.

Lemma length_write64 x : length (Fixed.write64 x) = 8%nat.
Proof. done. Qed.

Lemma vwrite_max_length v :
  (is_word 32 v -> length (VInt.vwrite32 v) <= 5)%nat /\ (is_word 64 v -> length (VInt.vwrite64 v) <= 10)%nat.
Proof.
  destruct (VInt.vsize_bound v) as [H32 H64].
  split; intros Hv; [pose proof (VInt.vsize32_length v Hv); specialize (H32 Hv)|
    pose proof (VInt.vsize64_length v Hv); specialize (H64 Hv)]; lia.
Qed.

(** The abstract effect of every operation: [written] grows by the operation's bytes. *)
Lemma writers_spec (big : bool) (v : Z) (s : t) : inv s ->
  (inv (write_short v s) /\ written (write_short v s) = written s ++ Fixed.write16 (wrap 16 v)) /\
  (inv (write_int big v s) /\ written (write_int big v s) = written s ++ Fixed.write32 (wrap 32 v)) /\
  (inv (write_long big v s) /\ written (write_long big v s) = written s ++ Fixed.write64 (wrap 64 v)) /\
  (is_word 32 v -> inv (write_vint v s) /\ written (write_vint v s) = written s ++ VInt.vwrite32 v) /\
  (is_word 64 v -> inv (write_vlong v s) /\ written (write_vlong v s) = written s ++ VInt.vwrite64 v).
Proof.
  intros Hs. destruct (vwrite_max_length v) as [Hl32 Hl64].
  split; [|split; [|split; [|split; intros Hv]]].
  - apply (buffered_put 2); [done|done|simpl; lia].
  - apply (buffered_put 4); [done|apply Fixed.write32_ptr_eq|by rewrite length_write32].
  - apply (buffered_put 8); [done|apply Fixed.write64_ptr_eq|by rewrite length_write64].
  - apply (buffered_put 5); [done|done|]. by apply Hl32.
  - apply (buffered_put 10); [done|done|]. by apply Hl64.
Qed.

Lemma CloseImpl_spec s : inv s ->
  CloseImpl s = (length (written s), Make (written s) 0 [] (buf_size_ s)).
Proof.
  intros (H1 & H2 & H3). unfold CloseImpl, written, file_pointer. cbv zeta.
  rewrite length_app. case_decide; simpl.
  - by rewrite H1.
  - assert (buf s = []) as -> by (apply nil_length_inv; lia). by rewrite app_nil_r, H1.
Qed.

End BufferedOutput.

(** ** [buffered_index_input] *)
Module BufferedInput.

(** [file] is the underlying file and [phys] the position [read_internal] reads it from; [buf] are
    the valid bytes of the buffer, [begin_] the current position in it and [start_] the position of
    the buffer in the file. *)
Record t := Make {
  file : list Z; phys : nat; buf : list Z; begin_ : nat; start_ : nat; buf_size_ : nat
}.

Inductive BufferHint := NORMAL | PERSISTENT.

(** [reset(buf, size, start)] *)
Definition reset (size start : nat) (s : t) : t := Make (file s) (phys s) [] 0 start size.

Definition remain (s : t) : nat := length (buf s) - begin_ s.
Definition offset (s : t) : nat := begin_ s.
Definition size (s : t) : nat := length (buf s).
Definition file_pointer (s : t) : nat := start_ s + offset s.
Definition file_length (s : t) : nat := length (file s).
Definition eof (s : t) : bool := bool_decide (file_length s <= file_pointer s)%nat.

(** The virtual functions of the file implementations. *)
Definition seek_internal (p : nat) (s : t) : t :=
  Make (file s) p (buf s) (begin_ s) (start_ s) (buf_size_ s).
Definition read_internal (count : nat) (s : t) : list Z * t :=
  let bs := take count (drop (phys s) (file s)) in
  (bs, Make (file s) (phys s + length bs) (buf s) (begin_ s) (start_ s) (buf_size_ s)).

Definition refill (s : t) : nat * t :=
  let data_start := file_pointer s in
  let data_end := Nat.min (data_start + buf_size_ s) (file_length s) in
  if decide (data_end <= data_start)%nat then (0%nat, s)
  else
    let data_size := (data_end - data_start)%nat in
    let '(bs, s) := read_internal data_size s in
    (data_size, Make (file s) (phys s) bs 0 data_start (buf_size_ s)).

(** [*begin_++] *)
Definition take_byte (s : t) : option (Z * t) :=
  match buf s !! begin_ s with
  | Some b => Some (b, Make (file s) (phys s) (buf s) (S (begin_ s)) (start_ s) (buf_size_ s))
  | None => None
  end.

Definition read_byte (s : t) : option (Z * t) :=
  let s := if decide (length (buf s) <= begin_ s)%nat then snd (refill s) else s in take_byte s.

Definition advance (n : nat) (s : t) : t :=
  Make (file s) (phys s) (buf s) (begin_ s + n) (start_ s) (buf_size_ s).

Definition read_bytes (count : nat) (s : t) : list Z * t :=
  let read := Nat.min count (remain s) in
  let b := take read (drop (begin_ s) (buf s)) in
  let s := if decide (read = 0)%nat then s else advance read s in
  if decide (read = count) then (b, s)
  else
    let sz := (count - read)%nat in
    if decide (sz < buf_size_ s)%nat then
      let '(n, s) := refill s in
      let sz := Nat.min sz n in
      (b ++ take sz (drop (begin_ s) (buf s)), advance sz s)
    else
      let '(bs, s) := read_internal sz s in
      (b ++ bs, Make (file s) (phys s) [] 0 (start_ s + (offset s + length bs)) (buf_size_ s)).

Definition seek (p : nat) (s : t) : t :=
  if decide (start_ s <= p /\ p < start_ s + size s)%nat then
    Make (file s) (phys s) (buf s) (p - start_ s) (start_ s) (buf_size_ s)
  else
    let s := seek_internal p s in
    Make (file s) (phys s) [] 0 p (buf_size_ s).

Definition skip (count : nat) (s : t) : t := seek (file_pointer s + count) s.

(** [read_bytes(offset, b, count)] *)
Definition read_bytes_at (off count : nat) (s : t) : list Z * t := read_bytes count (seek off s).

(** [read_buffer(size, hint)]: the bytes the returned pointer gives access to, or [None] for
    [nullptr]; [length() - file_pointer()] is computed in [size_t]. *)
Definition read_buffer (sz : nat) (hint : BufferHint) (s : t) : option (list Z) * t :=
  match hint with
  | PERSISTENT => (None, s)
  | NORMAL =>
      if decide (sz <= remain s)%nat then (Some (take sz (drop (begin_ s) (buf s))), advance sz s)
      else if Z.of_nat sz <=? Z.min (Z.of_nat (buf_size_ s))
                 (wrap 64 (Z.of_nat (file_length s) - Z.of_nat (file_pointer s))) then
        let s := snd (refill (seek_internal (file_pointer s) s)) in
        (Some (take sz (drop (begin_ s) (buf s))), advance sz s)
      else (None, s)
  end.

Definition read_buffer_at (off sz : nat) (hint : BufferHint) (s : t) : option (list Z) * t :=
  match hint with
  | PERSISTENT => (None, s)
  | NORMAL =>
      if decide (sz <= buf_size_ s /\ off + sz <= file_length s)%nat then read_buffer sz hint (seek off s)
      else (None, s)
  end.

#[global] Instance data_input : DataInput t := { read_byte := read_byte; read_bytes := read_bytes }.

(** Lifts a pointer read on the buffer to the state. *)
Definition from_buffer {A} (f : list Z -> option (A * list Z)) (s : t) : option (A * t) :=
  '(v, rest) ← f (drop (begin_ s) (buf s));
  Some (v, Make (file s) (phys s) (buf s) (length (buf s) - length rest) (start_ s) (buf_size_ s)).

Definition read_short (s : t) : option (Z * t) :=
  if decide (remain s < 2)%nat then Streams.read_short s
  else '(v, s) ← from_buffer Fixed.read16_ptr s; Some (to_signed 16 v, s).
Definition read_int (big : bool) (s : t) : option (Z * t) :=
  if decide (remain s < 4)%nat then Streams.read_int s
  else '(v, s) ← from_buffer (Fixed.read32_ptr big) s; Some (to_signed 32 v, s).
Definition read_long (big : bool) (s : t) : option (Z * t) :=
  if decide (remain s < 8)%nat then Streams.read_long s
  else '(v, s) ← from_buffer (Fixed.read64_ptr big) s; Some (to_signed 64 v, s).
Definition read_vint (s : t) : option (Z * t) :=
  if decide (remain s < VInt.const_max_vsize 32)%nat then Streams.read_vint s
  else from_buffer VInt.vread32 s.
Definition read_vlong (s : t) : option (Z * t) :=
  if decide (remain s < VInt.const_max_vsize 64)%nat then Streams.read_vlong s
  else from_buffer VInt.vread64 s.

(** The buffer mirrors the file at [start_], and the file is positioned behind it. *)
Definition inv (s : t) : Prop :=
  buf s = take (length (buf s)) (drop (start_ s) (file s)) /\
  phys s = (start_ s + length (buf s))%nat /\ (begin_ s <= length (buf s))%nat /\ (0 < buf_size_ s)%nat.

Definition remaining (s : t) : list Z := drop (file_pointer s) (file s).

Lemma inv_advance n s : inv s -> (n <= remain s)%nat -> inv (advance n s) /\
  remaining (advance n s) = drop n (remaining s).
Proof.
  unfold inv, remain, remaining, file_pointer, offset. simpl. intros (H1 & H2 & H3 & H4) Hn.
  rewrite drop_drop. split_and!; try done; try lia. f_equal. lia.
Qed.

(** The bytes of the buffer ahead are the next bytes of the file. *)
Lemma buffer_ahead n s : inv s -> (n <= remain s)%nat ->
  take n (drop (begin_ s) (buf s)) = take n (remaining s).
Proof.
  unfold inv, remain, remaining, file_pointer, offset. intros (H1 & _ & H3 & _) Hn.
  rewrite H1, skipn_firstn_comm, drop_drop, take_take. f_equal. lia.
Qed.

Lemma inv_refill s : inv s -> remain s = 0%nat ->
  let s' := snd (refill s) in
  inv s' /\ remaining s' = remaining s /\ fst (refill s) = Nat.min (buf_size_ s) (length (remaining s)) /\
  remain s' = fst (refill s) /\ buf_size_ s' = buf_size_ s.
Proof.
  intros (H1 & H2 & H3 & H4) Hr. unfold refill, remain, remaining, file_pointer, offset, file_length, inv in *.
  cbv zeta. rewrite length_drop. case_decide; simpl.
  - split_and!; try done; lia.
  - rewrite H2. replace (begin_ s) with (length (buf s)) in * by lia.
    rewrite !length_take, length_drop. split_and!; try lia.
    + f_equal. lia.
    + f_equal. lia.
Qed.

Lemma read_byte_inv s b r : inv s -> remaining s = b :: r ->
  exists s', read_byte s = Some (b, s') /\ inv s' /\ remaining s' = r.
Proof.
  intros Hs Hr. unfold read_byte. cbv zeta.
  assert (forall s1, inv s1 -> remaining s1 = b :: r -> (0 < remain s1)%nat ->
    exists s', take_byte s1 = Some (b, s') /\ inv s' /\ remaining s' = r) as Htake.
  { intros s1 Hs1 Hr1 Hrem. destruct (inv_advance 1 s1 Hs1) as (Ha1 & Ha2); [lia|].
    pose proof (buffer_ahead 1 s1 Hs1 ltac:(lia)) as Hb. rewrite Hr1 in Hb, Ha2. simpl in Hb, Ha2.
    unfold take_byte. unfold advance in *. rewrite Nat.add_1_r in *.
    assert (buf s1 !! begin_ s1 = Some b) as ->.
    { rewrite <-(Nat.add_0_r (begin_ s1)), <-lookup_drop.
      destruct (drop (begin_ s1) (buf s1)); simpl in *; congruence. }
    eexists. split; [done|]. split; [exact Ha1|]. rewrite Ha2. by destruct r. }
  destruct Hs as (H1 & H2 & H3 & H4) eqn:Hs'. case_decide as E.
  - destruct (inv_refill s Hs) as (R1 & R2 & R3 & R4 & _); [unfold remain; lia|].
    apply Htake; [done|congruence|]. rewrite R4, R3, Hr. simpl. lia.
  - apply Htake; [done|done|unfold remain; lia].
Qed.

Lemma read_bytes_inv n s : inv s ->
  fst (read_bytes n s) = take n (remaining s) /\ inv (snd (read_bytes n s)) /\
  remaining (snd (read_bytes n s)) = drop n (remaining s).
Proof.
  intros Hs. unfold read_bytes. cbv zeta. set (rd := Nat.min n (remain s)).
  assert (rd <= n /\ rd <= remain s /\ (rd = n \/ rd = remain s))%nat as Hrd by lia. clearbody rd.
  destruct (inv_advance rd s Hs) as (Ha1 & Ha2); [lia|].
  assert ((if decide (rd = 0)%nat then s else advance rd s) = advance rd s) as ->.
  { case_decide as E; [|done]. rewrite E. unfold advance. rewrite Nat.add_0_r. by destruct s. }
  rewrite buffer_ahead by (done || lia). case_decide as E; [subst n; by split|].
  assert (remain (advance rd s) = 0)%nat as Hrem by (unfold remain, advance in *; simpl in *; lia).
  assert (forall k, take rd (remaining s) ++ take k (drop rd (remaining s)) = take (rd + k) (remaining s)) as Htk.
  { intros k. by rewrite take_take_drop. }
  case_decide as E2.
  - destruct (inv_refill (advance rd s) Ha1 Hrem) as (R1 & R2 & R3 & R4 & R5).
    destruct (refill (advance rd s)) as [k s'] eqn:Er. simpl in *.
    set (sz := Nat.min (n - rd) k). destruct (inv_advance sz s' R1) as (A1 & A2); [lia|].
    rewrite buffer_ahead by (done || lia). rewrite A2, R2, Ha2, drop_drop. rewrite Htk.
    rewrite Ha2, length_drop in R3.
    split; [|split; [exact A1|]].
    + destruct (decide (n - rd <= k)%nat); [f_equal; lia|].
      rewrite !take_ge by lia. done.
    + destruct (decide (n - rd <= k)%nat); [f_equal; lia|].
      rewrite !drop_ge by lia. done.
  - destruct Ha1 as (H1 & H2 & H3 & H4). simpl. simpl in H2. rewrite H2. unfold inv, remaining, file_pointer, offset in *.
    simpl in *. unfold remain in Hrem. simpl in Hrem.
    replace (start_ s + length (buf s))%nat with (start_ s + (begin_ s + rd))%nat by lia.
    rewrite Ha2, Htk, !drop_drop, length_take, !length_drop.
    split; [f_equal; lia|]. split; [split_and!; try done; lia|].
    destruct (decide (n - rd <= length (file s) - (start_ s + begin_ s + rd)))%nat;
      [f_equal; lia|rewrite !drop_ge by lia; done].
Qed.

#[global] Instance data_input_spec : DataInputSpec t := {
  in_ok := inv; remaining := remaining; read_byte_spec := read_byte_inv; read_bytes_spec := read_bytes_inv
}.

Lemma seek_inv p s : inv s -> inv (seek p s) /\ file_pointer (seek p s) = p /\
  remaining (seek p s) = drop p (file s).
Proof.
  intros (H1 & H2 & H3 & H4). unfold seek, size. case_decide; unfold inv, file_pointer, offset, remaining; simpl.
  - split_and!; try done; try lia. unfold file_pointer, offset. simpl. f_equal. lia.
  - split_and!; try done; try lia. unfold file_pointer, offset. simpl. f_equal. lia.
Qed.

Lemma skip_spec n s : inv s -> inv (skip n s) /\ file_pointer (skip n s) = (file_pointer s + n)%nat /\
  remaining (skip n s) = drop n (remaining s).
Proof.
  intros Hs. unfold skip. destruct (seek_inv (file_pointer s + n) s Hs) as (H1 & H2 & H3).
  rewrite H3. unfold remaining. by rewrite drop_drop.
Qed.

(** Repositioning the file at the cursor and refilling makes one buffer of it available. *)
Lemma refill_seek sz s : inv s -> (remain s < sz <= Nat.min (buf_size_ s) (file_length s - file_pointer s))%nat ->
  let s' := snd (refill (seek_internal (file_pointer s) s)) in
  inv s' /\ remaining s' = remaining s /\ (sz <= remain s')%nat.
Proof.
  intros (_ & _ & _ & Hpos) Hsz. set (s1 := seek_internal (file_pointer s) s).
  assert (file_pointer s1 = file_pointer s /\ file_length s1 = file_length s /\ buf_size_ s1 = buf_size_ s
    /\ phys s1 = file_pointer s /\ file s1 = file s) as (F1 & F2 & F3 & F4 & F5) by done.
  cbv zeta. unfold refill. cbv zeta. rewrite F1, F2, F3. rewrite decide_False by lia.
  unfold read_internal. rewrite F4, F5. cbn [snd].
  set (fp := file_pointer s) in *. unfold inv, remaining, remain, file_pointer, offset. simpl.
  rewrite Nat.add_0_r, !length_take, !length_drop. unfold file_length in *.
  split_and!; try done; try lia. f_equal; lia.
Qed.

(** A buffer request within the buffer or within one refill of it succeeds and yields the next bytes
    of the file; any other one leaves the input where it was. *)
Lemma read_buffer_spec sz s : inv s -> (file_pointer s <= file_length s)%nat ->
  Z.of_nat (file_length s) < 2 ^ 64 ->
  if decide (sz <= remain s \/ sz <= Nat.min (buf_size_ s) (length (remaining s)))%nat
  then fst (read_buffer sz NORMAL s) = Some (take sz (remaining s)) /\
       inv (snd (read_buffer sz NORMAL s)) /\
       remaining (snd (read_buffer sz NORMAL s)) = drop sz (remaining s)
  else read_buffer sz NORMAL s = (None, s).
Proof.
  intros Hs Hfp Hlen. unfold read_buffer.
  assert (length (remaining s) = file_length s - file_pointer s)%nat as Hrl.
  { unfold remaining, file_length. by rewrite length_drop. }
  rewrite wrap_small by (unfold is_word; lia). cbv zeta.
  destruct (decide (sz <= remain s)%nat) as [Hin|Hout].
  - rewrite decide_True by auto. destruct (inv_advance sz s Hs Hin) as (H1 & H2). simpl.
    by rewrite buffer_ahead.
  - destruct (Z.leb_spec (Z.of_nat sz) (Z.min (Z.of_nat (buf_size_ s)) (Z.of_nat (file_length s) - Z.of_nat (file_pointer s)))).
    + rewrite decide_True by lia. destruct (refill_seek sz s Hs ltac:(lia)) as (R1 & R2 & R3).
      destruct (inv_advance sz _ R1 R3) as (H1 & H2). cbn [fst snd].
      rewrite buffer_ahead by done. rewrite R2 in *. auto.
    + rewrite decide_False by lia. done.
Qed.

(** Whatever the sizes, a buffer request within the file yields the next bytes or nothing. *)
Lemma read_buffer_sound sz s : inv s -> (sz <= length (remaining s))%nat ->
  match read_buffer sz NORMAL s with
  | (Some b, s') => b = take sz (remaining s) /\ inv s' /\ remaining s' = drop sz (remaining s)
  | (None, s') => s' = s
  end.
Proof.
  intros Hs Hsz. unfold remaining in Hsz. rewrite length_drop in Hsz. unfold read_buffer. cbv zeta.
  destruct (decide (sz <= remain s)%nat) as [Hin|Hout].
  - destruct (inv_advance sz s Hs Hin) as (H1 & H2). by rewrite buffer_ahead.
  - destruct (Z.leb_spec (Z.of_nat sz) (Z.min (Z.of_nat (buf_size_ s))
      (wrap 64 (Z.of_nat (file_length s) - Z.of_nat (file_pointer s))))) as [Hle|]; [|done].
    assert (wrap 64 (Z.of_nat (file_length s) - Z.of_nat (file_pointer s)) <=
      Z.of_nat (file_length s) - Z.of_nat (file_pointer s)) by (apply Z.mod_le; unfold file_length; lia).
    destruct (refill_seek sz s Hs ltac:(lia)) as (R1 & R2 & R3).
    destruct (inv_advance sz _ R1 R3) as (H1 & H2). rewrite buffer_ahead by done. rewrite R2 in *. auto.
Qed.

(** A value read by pointer from the buffer is the value whose bytes are next in the file. *)
Lemma from_buffer_spec {A} (f : list Z -> option (A * list Z)) enc v r s :
  (forall r', Forall is_byte r' -> f (enc ++ r') = Some (v, r')) -> Forall is_byte r ->
  inv s -> remaining s = enc ++ r -> (length enc <= remain s)%nat ->
  exists s', from_buffer f s = Some (v, s') /\ inv s' /\ remaining s' = r.
Proof.
  intros Hf Hr Hs Hrem Hlen. unfold from_buffer.
  assert (drop (begin_ s) (buf s) = enc ++ take (remain s - length enc) r) as E.
  { pose proof (buffer_ahead (remain s) s Hs ltac:(lia)) as Hb.
    rewrite take_ge in Hb by (rewrite length_drop; unfold remain; lia).
    by rewrite Hb, Hrem, take_app, (take_ge enc) by lia. }
  assert (length (drop (begin_ s) (buf s)) = remain s) as Hl by by rewrite length_drop.
  rewrite E, Hf by by apply Forall_take. simpl.
  destruct (inv_advance (length enc) s Hs Hlen) as (H1 & H2). exists (advance (length enc) s).
  rewrite H2, Hrem, drop_app_length. split; [|done]. unfold advance. do 3 f_equal.
  rewrite E, length_app in Hl. unfold remain in *. destruct Hs as (_ & _ & H3 & _). lia.
Qed.

#[global] Instance index_input : IndexInput t := {
  file_pointer := file_pointer; seek := seek; read_buffer n := read_buffer n NORMAL
}.
#[global] Instance index_input_spec : IndexInputSpec t.
Proof.
  split.
  - intros n s Hs _. cbn in *. destruct (skip_spec n s Hs) as (H1 & _ & H3). auto.
  - intros n s Hs Hn. cbn in *. by apply read_buffer_sound.
Qed.
#[global] Instance seek_end_input : SeekEndSpec t.
Proof.
  intros s Hs. destruct (skip_spec (length (remaining s)) s Hs) as (H1 & _ & H3).
  rewrite drop_ge in H3 by done. exact (conj H1 H3).
Qed.

End BufferedInput.

(** ** Properties *)

(** C16: a buffered output is a byte sink: whatever the buffer size, every operation appends its bytes to
    what was written before (handed to [flush_buffer] or still buffered), the buffer never exceeds its
    size, [flush] and closing lose nothing and [file_pointer] counts the bytes written. *)
Theorem buffered_output_refines (big : bool) (s : BufferedOutput.t) (Hs : BufferedOutput.inv s) :
  let written := BufferedOutput.written in let inv := BufferedOutput.inv in
  (forall b, inv (BufferedOutput.write_byte b s) /\ written (BufferedOutput.write_byte b s) = written s ++ [b]) /\
  (forall bs, inv (BufferedOutput.write_bytes bs s) /\ written (BufferedOutput.write_bytes bs s) = written s ++ bs) /\
  (forall v, (inv (BufferedOutput.write_short v s) /\
       written (BufferedOutput.write_short v s) = written s ++ Fixed.write16 (wrap 16 v)) /\
     (inv (BufferedOutput.write_int big v s) /\
       written (BufferedOutput.write_int big v s) = written s ++ Fixed.write32 (wrap 32 v)) /\
     (inv (BufferedOutput.write_long big v s) /\
       written (BufferedOutput.write_long big v s) = written s ++ Fixed.write64 (wrap 64 v)) /\
     (is_word 32 v -> inv (BufferedOutput.write_vint v s) /\
       written (BufferedOutput.write_vint v s) = written s ++ VInt.vwrite32 v) /\
     (is_word 64 v -> inv (BufferedOutput.write_vlong v s) /\
       written (BufferedOutput.write_vlong v s) = written s ++ VInt.vwrite64 v)) /\
  inv (BufferedOutput.flush s) /\ BufferedOutput.file (BufferedOutput.flush s) = written s /\
  BufferedOutput.file_pointer s = length (written s) /\
  BufferedOutput.CloseImpl s =
    (length (written s), BufferedOutput.Make (written s) 0 [] (BufferedOutput.buf_size_ s)).
Proof.
  cbv zeta. destruct (BufferedOutput.inv_flush s Hs) as (F1 & F2 & F3 & F4).
  split; [intros b; by apply BufferedOutput.write_byte_inv|].
  split; [intros bs; by apply BufferedOutput.write_bytes_inv|].
  split; [intros v; by apply BufferedOutput.writers_spec|].
  split; [done|]. split; [by rewrite <-F2; unfold BufferedOutput.written; rewrite F3, app_nil_r|].
  split; [|by apply BufferedOutput.CloseImpl_spec].
  unfold BufferedOutput.file_pointer, BufferedOutput.written. rewrite length_app. by destruct Hs as (-> & _).
Qed.

Lemma buffered_output_refines_witness :
  BufferedOutput.written (BufferedOutput.write_bytes [1; 2; 3; 4; 5] (BufferedOutput.Make [] 0 [0] 4)) = [0; 1; 2; 3; 4; 5].
Proof.
  assert (BufferedOutput.inv (BufferedOutput.Make [] 0 [0] 4)) as Hs by (unfold BufferedOutput.inv; simpl; lia).
  exact (proj2 (proj1 (proj2 (buffered_output_refines false _ Hs)) [1; 2; 3; 4; 5])).
Defined.

(** C17: a buffered input is a cursor in the file: byte reads, bulk reads across the end of the buffer,
    seeks inside and outside the buffer, skips and buffer requests all deliver the bytes of the file at
    the cursor and move it accordingly. *)
Theorem buffered_input_refines (s : BufferedInput.t) (Hs : BufferedInput.inv s) :
  let remaining := BufferedInput.remaining in let inv := BufferedInput.inv in
  (forall b r, remaining s = b :: r ->
     exists s', BufferedInput.read_byte s = Some (b, s') /\ inv s' /\ remaining s' = r) /\
  (forall n, fst (BufferedInput.read_bytes n s) = take n (remaining s) /\
     inv (snd (BufferedInput.read_bytes n s)) /\
     remaining (snd (BufferedInput.read_bytes n s)) = drop n (remaining s)) /\
  (forall p, inv (BufferedInput.seek p s) /\ BufferedInput.file_pointer (BufferedInput.seek p s) = p /\
     remaining (BufferedInput.seek p s) = drop p (BufferedInput.file s)) /\
  (forall n, inv (BufferedInput.skip n s) /\
     BufferedInput.file_pointer (BufferedInput.skip n s) = (BufferedInput.file_pointer s + n)%nat) /\
  (forall sz, (BufferedInput.file_pointer s <= BufferedInput.file_length s)%nat ->
     Z.of_nat (BufferedInput.file_length s) < 2 ^ 64 ->
     if decide (sz <= BufferedInput.remain s \/
                sz <= Nat.min (BufferedInput.buf_size_ s) (length (remaining s)))%nat
     then fst (BufferedInput.read_buffer sz BufferedInput.NORMAL s) = Some (take sz (remaining s)) /\
          inv (snd (BufferedInput.read_buffer sz BufferedInput.NORMAL s)) /\
          remaining (snd (BufferedInput.read_buffer sz BufferedInput.NORMAL s)) = drop sz (remaining s)
     else BufferedInput.read_buffer sz BufferedInput.NORMAL s = (None, s)).
Proof.
  cbv zeta. split; [intros b r; by apply BufferedInput.read_byte_inv|].
  split; [intros n; by apply BufferedInput.read_bytes_inv|].
  split; [intros p; by apply BufferedInput.seek_inv|].
  split; [intros n; destruct (BufferedInput.skip_spec n s Hs) as (H1 & H2 & _); auto|].
  intros sz Hfp Hlen. by apply BufferedInput.read_buffer_spec.
Qed.

Lemma buffered_input_refines_witness :
  fst (BufferedInput.read_bytes 3 (BufferedInput.Make [1; 2; 3; 4; 5] 2 [1; 2] 1 0 2)) = [2; 3; 4].
Proof.
  assert (BufferedInput.inv (BufferedInput.Make [1; 2; 3; 4; 5] 2 [1; 2] 1 0 2)) as Hs
    by (unfold BufferedInput.inv; simpl; split_and!; try lia; reflexivity).
  exact (proj1 (proj1 (proj2 (buffered_input_refines _ Hs)) 3%nat)).
Defined.

(** Integers written to any lawful output are read back by a buffered input over the file it made,
    whether or not their bytes straddle the buffer. *)
Theorem buffered_read_values (big : bool) (s : BufferedInput.t) (r : list Z)
    (Hs : BufferedInput.inv s) (Hr : Forall is_byte r) :
  let reads {A} (f : BufferedInput.t -> option (A * BufferedInput.t)) (enc : list Z) (v : A) :=
    BufferedInput.remaining s = enc ++ r ->
    exists s', f s = Some (v, s') /\ BufferedInput.inv s' /\ BufferedInput.remaining s' = r in
  (forall v, is_int 16 v -> reads BufferedInput.read_short (Fixed.write16 (wrap 16 v)) v) /\
  (forall v, is_int 32 v -> reads (BufferedInput.read_int big) (Fixed.write32 (wrap 32 v)) v) /\
  (forall v, is_int 64 v -> reads (BufferedInput.read_long big) (Fixed.write64 (wrap 64 v)) v) /\
  (forall v, is_word 32 v -> reads BufferedInput.read_vint (VInt.vwrite32 v) v) /\
  (forall v, is_word 64 v -> reads BufferedInput.read_vlong (VInt.vwrite64 v) v).
Proof.
  cbv zeta. split; [|split; [|split; [|split]]]; intros v Hv Hrem.
  - pose proof (read_short_spec v r s) as Hslow; specialize (Hslow Hs Hv Hrem). unfold BufferedInput.read_short.
    case_decide; [exact Hslow|].
    destruct (BufferedInput.from_buffer_spec Fixed.read16_ptr (Fixed.write16 (wrap 16 v)) (wrap 16 v) r s)
      as (s' & -> & H'); auto; [|simpl; lia|simpl; rewrite to_signed_wrap; [by exists s'|done|lia]].
    intros r' _. apply Fixed.read16_write16, wrap_range. lia.
  - pose proof (read_int_spec v r s) as Hslow; specialize (Hslow Hs Hv Hrem). unfold BufferedInput.read_int.
    case_decide; [exact Hslow|].
    destruct (BufferedInput.from_buffer_spec (Fixed.read32_ptr big) (Fixed.write32 (wrap 32 v)) (wrap 32 v) r s)
      as (s' & -> & H'); auto; [|simpl; lia|simpl; rewrite to_signed_wrap; [by exists s'|done|lia]].
    intros r' Hr'. rewrite Fixed.read32_ptr_eq; [apply Fixed.read32_write32, wrap_range; lia|].
    apply Forall_app. split; [|done]. repeat constructor; by apply wrap_range.
  - pose proof (read_long_spec v r s) as Hslow; specialize (Hslow Hs Hv Hrem). unfold BufferedInput.read_long.
    case_decide; [exact Hslow|].
    destruct (BufferedInput.from_buffer_spec (Fixed.read64_ptr big) (Fixed.write64 (wrap 64 v)) (wrap 64 v) r s)
      as (s' & -> & H'); auto; [|simpl; lia|simpl; rewrite to_signed_wrap; [by exists s'|done|lia]].
    intros r' Hr'. rewrite Fixed.read64_ptr_eq; [apply Fixed.read64_write64, wrap_range; lia|].
    apply Forall_app. split; [|done]. repeat constructor; by apply wrap_range.
  - pose proof (read_vint_spec v r s) as Hslow; specialize (Hslow Hs Hv Hrem). unfold BufferedInput.read_vint.
    case_decide as E; [exact Hslow|]. change (VInt.const_max_vsize 32) with 5%nat in E.
    pose proof (proj1 (BufferedOutput.vwrite_max_length v) Hv).
    apply (BufferedInput.from_buffer_spec VInt.vread32 (VInt.vwrite32 v)); auto; [|lia].
    intros r' _. by apply VInt.vwrite32_spec.
  - pose proof (read_vlong_spec v r s) as Hslow; specialize (Hslow Hs Hv Hrem). unfold BufferedInput.read_vlong.
    case_decide as E; [exact Hslow|]. change (VInt.const_max_vsize 64) with 10%nat in E.
    pose proof (proj2 (BufferedOutput.vwrite_max_length v) Hv).
    apply (BufferedInput.from_buffer_spec VInt.vread64 (VInt.vwrite64 v)); auto; [|lia].
    intros r' _. by apply VInt.vwrite64_spec.
Qed.

Lemma buffered_read_values_witness :
  exists s', BufferedInput.read_vint (BufferedInput.Make [172; 2; 9] 1 [172] 0 0 1) = Some (300, s') /\
    BufferedInput.inv s' /\ BufferedInput.remaining s' = [9].
Proof.
  assert (BufferedInput.inv (BufferedInput.Make [172; 2; 9] 1 [172] 0 0 1)) as Hs
    by (unfold BufferedInput.inv; simpl; split_and!; try lia; reflexivity).
  assert (Forall is_byte [9]) as Hr by (repeat constructor; lia).
  exact (proj1 (proj2 (proj2 (proj2 (buffered_read_values false _ [9] Hs Hr)))) 300
    ltac:(unfold is_word; lia) ltac:(vm_compute; reflexivity)).
Defined.
