(* ===== verification/FileStreams.v ===== *)
(** * Files: streams with positions

    What the formats need of [index_output] and [index_input] (core/store/data_output.hpp,
    data_input.hpp) beyond the byte streams of [Streams]: positions to be stored and sought later.
    The interfaces as type classes with laws, and the buffered streams as their instances. *)
From S2P Require Import Prelude BitUtils BytesIO Streams.

(** ** [index_output::file_pointer] *)

Class IndexOutput (S : Type) `{DataOutput S} := out_pointer : S -> nat.

(** The pointer counts the bytes written. *)
Class IndexOutputSpec (S : Type) `{DataOutputSpec S, !IndexOutput S} :=
  out_pointer_spec (s : S) : out_ok s -> out_pointer s = length (written s).

#[export] Instance buffered_index_output : IndexOutput BufferedOutput.t := BufferedOutput.file_pointer.
#[export] Instance buffered_index_output_spec : IndexOutputSpec BufferedOutput.t.
Proof.
  intros s Hs. unfold out_pointer, buffered_index_output, BufferedOutput.file_pointer. cbn.
  unfold BufferedOutput.written. rewrite length_app. by destruct Hs as (-> & _).
Qed.

(** ** [index_input] over a whole file *)

(** [read_buffer] with the hint [PERSISTENT] *)
Class FileInput (S : Type) `{IndexInput S} := read_persistent : nat -> S -> option (list Z) * S.

Class FileInputSpec (S : Type) `{IndexInputSpec S, !FileInput S} := {
  contents : S -> list Z;
  contents_remaining s : in_ok s -> remaining s = drop (file_pointer s) (contents s);
  contents_read_byte s b r s' : in_ok s -> (file_pointer s <= length (contents s))%nat -> remaining s = b :: r ->
    read_byte s = Some (b, s') ->
    contents s' = contents s /\ (file_pointer s' <= length (contents s))%nat;
  contents_read_bytes n s : in_ok s -> (file_pointer s + n <= length (contents s))%nat ->
    contents (snd (read_bytes n s)) = contents s /\ (file_pointer (snd (read_bytes n s)) <= length (contents s))%nat;
  contents_read_buffer n s : in_ok s -> (file_pointer s + n <= length (contents s))%nat ->
    contents (snd (read_buffer n s)) = contents s /\ (file_pointer (snd (read_buffer n s)) <= length (contents s))%nat;
  contents_seek p s : in_ok s -> (p < length (contents s))%nat ->
    in_ok (seek p s) /\ contents (seek p s) = contents s /\ file_pointer (seek p s) = p;
  read_persistent_spec n s : in_ok s -> (file_pointer s + n <= length (contents s))%nat ->
    match read_persistent n s with
    | (Some b, s') => b = take n (remaining s) /\ in_ok s' /\ remaining s' = drop n (remaining s) /\
        contents s' = contents s /\ (file_pointer s' <= length (contents s))%nat
    | (None, s') => s' = s
    end
}.

(** The input stands at position [p] of the file [f]. *)
Section positions.
Context {S : Type} {D : DataInput S} {DS : DataInputSpec S} {I : IndexInput S} {IS : IndexInputSpec S}
  {FI : FileInput S} {FS : FileInputSpec S}.
Implicit Types (s : S) (f : list Z) (p n : nat).

Definition at_ f p s : Prop := in_ok s /\ contents s = f /\ file_pointer s = p /\ (p <= length f)%nat.

Lemma at_remaining f p s : at_ f p s -> remaining s = drop p f.
Proof. intros (Hs & <- & <- & _). by apply contents_remaining. Qed.

(** What is left of the file tells the position. *)
Lemma at_intro f p s : in_ok s -> contents s = f -> (file_pointer s <= length f)%nat -> (p <= length f)%nat ->
  remaining s = drop p f -> at_ f p s.
Proof.
  intros Hs <- Hle Hp Hr. split; [done|]. split; [done|]. split; [|done].
  rewrite contents_remaining in Hr by done. apply (f_equal length) in Hr. rewrite !length_drop in Hr. lia.
Qed.

(** Readers written on the input as an iterator keep the file. *)
#[local] Instance pinned (f : list Z) : RefinesList S.
Proof.
  refine {| ok := fun s => in_ok s /\ contents s = f /\ (file_pointer s <= length f)%nat; ahead := remaining |}.
  intros s b r (Hs & Hf & Hp) Hr. destruct (read_byte_spec s b r Hs Hr) as (s' & H1 & H2 & H3).
  exists s'. destruct (contents_read_byte s b r s' Hs ltac:(by rewrite Hf) Hr H1) as [H4 H5].
  split; [exact H1|]. by rewrite H4, <-Hf.
Defined.

Lemma at_reads {A} f p s (x : option (A * S)) (y : option (A * list Z)) enc v r : at_ f p s ->
  (@ok S _ (pinned f) s -> @reads S A _ (pinned f) x y) -> y = Some (v, r) -> drop p f = enc ++ r ->
  exists s', x = Some (v, s') /\ at_ f (p + length enc) s'.
Proof.
  intros (Hs & Hf & Hp & Hle) Hx Hy Hd. destruct (Hx ltac:(cbn; by rewrite Hf, Hp) v r Hy) as (s' & E & (H1 & H2 & H3) & H4).
  exists s'. split; [done|]. pose proof (f_equal length Hd) as Hl. rewrite length_app, length_drop in Hl.
  apply at_intro; [done|done|done|lia|]. cbn in H4. rewrite H4, <-drop_drop, Hd. by rewrite drop_app_length.
Qed.

Lemma read_short_at f p s v r : at_ f p s -> is_int 16 v -> drop p f = Fixed.write16 (wrap 16 v) ++ r ->
  exists s', read_short s = Some (v, s') /\ at_ f (p + 2) s'.
Proof.
  intros Hs Hv Hd. unfold read_short.
  destruct (at_reads f p s (Fixed.read16 s) (Fixed.read16 (drop p f)) (Fixed.write16 (wrap 16 v)) (wrap 16 v) r) as (s' & -> & H');
    [done| | |done|].
  - intros Hok. rewrite <-(at_remaining _ _ _ Hs). exact (Fixed.read16_reads (H0 := pinned f) s Hok).
  - rewrite Hd. apply Fixed.read16_write16, wrap_range. lia.
  - exists s'. cbn [mbind option_bind]. split; [by rewrite to_signed_wrap by (done || lia)|done].
Qed.

Lemma read_int_at f p s v r : at_ f p s -> is_int 32 v -> drop p f = Fixed.write32 (wrap 32 v) ++ r ->
  exists s', read_int s = Some (v, s') /\ at_ f (p + 4) s'.
Proof.
  intros Hs Hv Hd. unfold read_int.
  destruct (at_reads f p s (Fixed.read32 s) (Fixed.read32 (drop p f)) (Fixed.write32 (wrap 32 v)) (wrap 32 v) r) as (s' & -> & H');
    [done| | |done|].
  - intros Hok. rewrite <-(at_remaining _ _ _ Hs). exact (Fixed.read32_reads (H0 := pinned f) s Hok).
  - rewrite Hd. apply Fixed.read32_write32, wrap_range. lia.
  - exists s'. cbn [mbind option_bind]. split; [by rewrite to_signed_wrap by (done || lia)|done].
Qed.

Lemma read_long_at f p s v r : at_ f p s -> is_int 64 v -> drop p f = Fixed.write64 (wrap 64 v) ++ r ->
  exists s', read_long s = Some (v, s') /\ at_ f (p + 8) s'.
Proof.
  intros Hs Hv Hd. unfold read_long.
  destruct (at_reads f p s (Fixed.read64 s) (Fixed.read64 (drop p f)) (Fixed.write64 (wrap 64 v)) (wrap 64 v) r) as (s' & -> & H');
    [done| | |done|].
  - intros Hok. rewrite <-(at_remaining _ _ _ Hs). exact (Fixed.read64_reads (H0 := pinned f) s Hok).
  - rewrite Hd. apply Fixed.read64_write64, wrap_range. lia.
  - exists s'. cbn [mbind option_bind]. split; [by rewrite to_signed_wrap by (done || lia)|done].
Qed.

Lemma seek_at f p q s : at_ f p s -> (q < length f)%nat -> at_ f q (seek q s).
Proof.
  intros (Hs & <- & _) Hq. destruct (contents_seek q s Hs Hq) as (H1 & H2 & H3). split; [done|]. split; [done|].
  split; [done|lia].
Qed.

Lemma read_bytes_at_ f p n s : at_ f p s -> (p + n <= length f)%nat ->
  fst (read_bytes n s) = take n (drop p f) /\ at_ f (p + n) (snd (read_bytes n s)).
Proof.
  intros Hat Hn. pose proof (at_remaining _ _ _ Hat) as Hr. destruct Hat as (Hs & Hf & Hp & Hle).
  destruct (read_bytes_spec n s Hs) as (H1 & H2 & H3). rewrite Hr in *. split; [done|].
  destruct (contents_read_bytes n s Hs) as [H4 H5]; [by rewrite Hf, Hp|].
  apply at_intro; [done|congruence|by rewrite <-Hf|done|]. by rewrite H3, drop_drop.
Qed.

Lemma read_buffer_at_ f p n s : at_ f p s -> (p + n <= length f)%nat ->
  match read_buffer n s with
  | (Some b, s') => b = take n (drop p f) /\ at_ f (p + n) s'
  | (None, s') => s' = s
  end.
Proof.
  intros Hat Hn. pose proof (at_remaining _ _ _ Hat) as Hr. destruct Hat as (Hs & Hf & Hp & Hle).
  pose proof (read_buffer_spec n s Hs) as Hb. rewrite Hr, length_drop in Hb. specialize (Hb ltac:(lia)).
  destruct (contents_read_buffer n s Hs) as [H4 H5]; [by rewrite Hf, Hp|].
  destruct (read_buffer n s) as [[b|] s']; [|done]. destruct Hb as (-> & H1 & H2). cbn in H4, H5. split; [done|].
  apply at_intro; [done|congruence|by rewrite <-Hf|done|]. by rewrite H2, drop_drop.
Qed.

Lemma read_persistent_at f p n s : at_ f p s -> (p + n <= length f)%nat ->
  match read_persistent n s with
  | (Some b, s') => b = take n (drop p f) /\ at_ f (p + n) s'
  | (None, s') => s' = s
  end.
Proof.
  intros Hat Hn. pose proof (at_remaining _ _ _ Hat) as Hr. destruct Hat as (Hs & Hf & Hp & Hle).
  pose proof (read_persistent_spec n s Hs ltac:(by rewrite Hf, Hp)) as Hb.
  destruct (read_persistent n s) as [[b|] s']; [|done]. destruct Hb as (-> & H1 & H2 & H3 & H4). rewrite Hr in *.
  split; [done|]. apply at_intro; [done|congruence|by rewrite <-Hf|done|]. by rewrite H2, drop_drop.
Qed.

(** *** [index_input]: [length], [reopen] and [dup], which may fail *)

Record input_operations := mkInputOps {
  in_length : S -> nat;
  in_reopen : S -> option S;
  in_dup : S -> option S;
}.

(** What the inputs of a directory promise: both preserve the position. *)
Record input_laws f (ops : input_operations) : Prop := {
  length_law s p : at_ f p s -> in_length ops s = length f;
  reopen_law s p : at_ f p s -> exists s', in_reopen ops s = Some s' /\ at_ f p s';
  dup_law s p : at_ f p s -> exists s', in_dup ops s = Some s' /\ at_ f p s';
}.

End positions.
Arguments input_operations : clear implicits.

(** ** Buffered inputs *)

#[export] Instance buffered_file_input : FileInput BufferedInput.t :=
  fun n s => BufferedInput.read_buffer n BufferedInput.PERSISTENT s.

(** The file stays, and the pointer moves by what was read. *)
Definition moved (n : nat) (s s' : BufferedInput.t) : Prop :=
  BufferedInput.file s' = BufferedInput.file s /\
  BufferedInput.file_pointer s' = (BufferedInput.file_pointer s + n)%nat.

Lemma refill_moved s : moved 0 s (snd (BufferedInput.refill s)).
Proof.
  unfold BufferedInput.refill. cbv zeta. case_decide; (split; [done|]); unfold BufferedInput.file_pointer; cbn; lia.
Qed.

Lemma advance_moved n m s s' : moved m s s' -> moved (m + n) s (BufferedInput.advance n s').
Proof. intros [H1 H2]. split; [done|]. unfold BufferedInput.file_pointer, BufferedInput.offset in *. cbn. lia. Qed.

Lemma read_byte_moved s b s' : BufferedInput.read_byte s = Some (b, s') -> moved 1 s s'.
Proof.
  unfold BufferedInput.read_byte. cbv zeta.
  set (s1 := if decide _ then _ else _). assert (moved 0 s s1) as Hm.
  { unfold s1. case_decide; [apply refill_moved|]. split; [done|lia]. }
  clearbody s1. unfold BufferedInput.take_byte. destruct (_ !! _); [|done]. intros [= _ <-].
  pose proof (advance_moved 1 0 s s1 Hm) as Ha. unfold BufferedInput.advance in Ha. 
  rewrite (Nat.add_1_r (BufferedInput.begin_ s1)) in Ha. exact Ha.
Qed.

Lemma read_bytes_moved n s : exists k, (k <= n)%nat /\ moved k s (snd (BufferedInput.read_bytes n s)).
Proof.
  unfold BufferedInput.read_bytes. cbv zeta. set (rd := Nat.min n (BufferedInput.remain s)).
  set (s1 := if decide (rd = 0)%nat then s else BufferedInput.advance rd s).
  assert (rd <= n)%nat as Hle by lia.
  assert (moved rd s s1) as Hm.
  { unfold s1. case_decide as E; [rewrite E; split; [done|lia]|]. apply (advance_moved rd 0). split; [done|lia]. }
  clearbody s1 rd. case_decide; [by exists rd|]. case_decide.
  - pose proof (refill_moved s1) as Hr. destruct (BufferedInput.refill s1) as [k s2]. cbn [snd] in *.
    exists (rd + Nat.min (n - rd) k)%nat. split; [lia|]. apply advance_moved.
    destruct Hm, Hr. split; [congruence|lia].
  - cbn. destruct Hm as [H1 H2]. exists (rd + length (take (n - rd) (drop (BufferedInput.phys s1) (BufferedInput.file s1))))%nat.
    rewrite length_take. split; [lia|]. split; [done|]. unfold BufferedInput.file_pointer, BufferedInput.offset in *. cbn.
    rewrite ?length_take; lia.
Qed.

Lemma read_buffer_moved n h s : exists k, (k <= n)%nat /\ moved k s (snd (BufferedInput.read_buffer n h s)).
Proof.
  assert (moved 0 s s) as H0 by (split; [done|lia]).
  unfold BufferedInput.read_buffer. destruct h; [|by exists 0%nat; split; [lia|]].
  case_decide; [exists n; split; [done|]; by apply (advance_moved n 0)|].
  destruct (_ <=? _); [|by exists 0%nat; split; [lia|]]. cbv zeta. cbn [snd]. exists n. split; [done|]. apply (advance_moved n 0).
  exact (refill_moved (BufferedInput.seek_internal (BufferedInput.file_pointer s) s)).
Qed.

#[export] Instance buffered_file_input_spec : FileInputSpec BufferedInput.t.
Proof.
  refine {| contents := BufferedInput.file |}.
  - done.
  - intros s b r s' Hs Hp Hr Hb. destruct (read_byte_moved s b s' Hb) as [-> E]. split; [done|].
    cbn in *. rewrite E. apply (f_equal length) in Hr. unfold BufferedInput.remaining in Hr. rewrite length_drop in Hr.
    cbn in Hr. lia.
  - intros n s Hs Hn. destruct (read_bytes_moved n s) as (k & Hk & Ef & E). cbn in *. split; [done|]. lia.
  - intros n s Hs Hn. destruct (read_buffer_moved n BufferedInput.NORMAL s) as (k & Hk & Ef & E). cbn in *. split; [done|]. lia.
  - intros p s Hs Hp. destruct (BufferedInput.seek_inv p s Hs) as (H1 & H2 & H3). split; [done|]. split; [|done].
    cbn. unfold BufferedInput.seek. by case_decide.
  - intros n s Hs Hn. done.
Defined.
