(* ===== verification/MemoryFile.v ===== *)
(** * Files in memory

    [raw_block_vector] of core/utils/container_utils.hpp, buckets of doubling size, and over it
    [memory_file], [memory_index_output] and [memory_index_input] of core/store/memory_directory.hpp and
    .cpp. A pointer into the file is a buffer and an offset in it; sizes and offsets of files do not
    overflow, and the memory of a fresh buffer holds arbitrary bytes ([mf_alloc], by buffer and offset).

    An output keeps the laws of outputs and files for any memory; an input keeps the laws of inputs, but
    can only be sought to positions before the end of the file. *)
From S2P Require Import Prelude BitUtils BytesIO Streams FileStreams.

(** ** [BucketMeta], [ComputeBucketOffset], [raw_block_vector] *)

(** The template parameters of [memory_file]: the number of precomputed buckets and the bits of the
    first one. *)
Definition NumBuckets : Z := 16.
Definition SkipBits : Z := 8.

Record BucketInfo := mkBucket { bk_offset : Z; bk_size : Z }.

Fixpoint buckets_from (n : nat) (offset size : Z) : list BucketInfo :=
  match n with
  | O => []
  | S n => mkBucket offset size :: buckets_from n (offset +[64] size) (size <<[64] 1)
  end.

Definition kMeta : list BucketInfo := buckets_from (Z.to_nat NumBuckets) 0 (1 <<[64] SkipBits).
Definition bucket (i : Z) : BucketInfo := nth (Z.to_nat i) kMeta (mkBucket 0 0).
Definition kLast : BucketInfo := bucket (NumBuckets - 1).

Definition ComputeBucketOffset (position : Z) : Z :=
  63 -[64] Math.countl_zero 64 (Z.shiftr position SkipBits +[64] 1).

Record buffer_t := mkBuffer { bf_offset : Z; bf_data : list Z; bf_size : Z }.

Definition buffer_offset (position : Z) : Z :=
  if position <? bk_offset kLast then ComputeBucketOffset position
  else NumBuckets - 1 + (position - bk_offset kLast) / bk_size kLast.

(** [memory_file]: what the memory of its allocator holds, the buffers and [len_] *)
Record memory_file := mkFile { mf_alloc : nat -> nat -> Z; mf_buffers : list buffer_t; mf_len : Z }.

Definition buffer_count (f : memory_file) : Z := Z.of_nat (length (mf_buffers f)).
Definition get_buffer (i : Z) (f : memory_file) : option buffer_t := mf_buffers f !! Z.to_nat i.
Definition mf_set_len (len : Z) (f : memory_file) : memory_file := mkFile (mf_alloc f) (mf_buffers f) len.
Definition mf_reset (f : memory_file) : memory_file := mf_set_len 0 f.
Definition mf_clear (f : memory_file) : memory_file := mkFile (mf_alloc f) [] 0.

Definition fresh_data (i : nat) (size : Z) (f : memory_file) : list Z := map (mf_alloc f i) (seq 0 (Z.to_nat size)).

(** [CreateValue] *)
Definition create_buffer (f : memory_file) : buffer_t :=
  let i := length (mf_buffers f) in
  if buffer_count f <? NumBuckets then
    let b := bucket (buffer_count f) in mkBuffer (bk_offset b) (fresh_data i (bk_size b) f) (bk_size b)
  else
    let back := match last (mf_buffers f) with Some b => b | None => mkBuffer 0 [] 0 end in
    mkBuffer (bf_offset back + bk_size kLast) (fresh_data i (bk_size kLast) f) (bk_size kLast).

Definition push_buffer (f : memory_file) : memory_file := mkFile (mf_alloc f) (mf_buffers f ++ [create_buffer f]) (mf_len f).

(** [memory_file::operator>>] *)
Fixpoint copy_buffers {O} `{DataOutput O} (buffers : list buffer_t) (len : Z) (out : O) : O :=
  match buffers with
  | [] => out
  | b :: buffers =>
      if len =? 0 then out
      else
        let to_copy := Z.min len (bf_size b) in
        copy_buffers buffers (len - to_copy) (Streams.write_bytes (take (Z.to_nat to_copy) (bf_data b)) out)
  end.
Definition copy_to {O} `{DataOutput O} (f : memory_file) (out : O) : O := copy_buffers (mf_buffers f) (mf_len f) out.

(** The used length of the buffer [i]; [None] outside the buffers. *)
Definition buffer_length (i : Z) (f : memory_file) : option Z :=
  let last_buf := buffer_offset (mf_len f) in
  if i =? last_buf then b ← get_buffer i f; Some ((mf_len f - bf_offset b) mod bf_size b)
  else if i <? last_buf then bf_size <$> get_buffer i f else Some 0.

(** [memory_file::visit], from the buffer [i] on *)
Fixpoint visit_from {St} (visitor : list Z -> St -> bool * St) (i : Z) (buffers : list buffer_t) (f : memory_file) (s : St)
    : option (bool * St) :=
  match buffers with
  | [] => Some (true, s)
  | b :: buffers =>
      n ← buffer_length i f;
      let '(go, s) := visitor (take (Z.to_nat n) (bf_data b)) s in
      if go then visit_from visitor (i + 1) buffers f s else Some (false, s)
  end.
Definition visit {St} (visitor : list Z -> St -> bool * St) (f : memory_file) (s : St) : option (bool * St) :=
  visit_from visitor 0 (mf_buffers f) f s.

(** ** [memory_index_output] *)

(** [buf_]: the offset and the size of the current buffer, and its data ([None] for [nullptr]); [pos_]
    and [end_] as offsets in it. *)
Record memory_index_output := mkOut {
  mo_file : memory_file;
  mo_offset : Z;
  mo_data : option nat;
  mo_pos : Z;
  mo_end : Z;
}.

Definition out_make (f : memory_file) : memory_index_output := mkOut f 0 None 0 0.
Definition out_reset (s : memory_index_output) : memory_index_output := mkOut (mo_file s) 0 None 0 0.

Definition mo_remain (s : memory_index_output) : Z := mo_end s - mo_pos s.
Definition mo_file_pointer (s : memory_index_output) : Z := mo_offset s + mo_pos s.

(** Takes the buffer [i] of the file as the current one, at [pos]. *)
Definition enter_buffer (i : nat) (pos : Z) (f : memory_file) : option memory_index_output :=
  b ← mf_buffers f !! i;
  Some (mkOut f (bf_offset b) (Some i) (pos - bf_offset b) (bf_size b)).

(** [switch_buffer]: the next buffer, or a fresh one. *)
Definition switch_buffer (s : memory_index_output) : memory_index_output :=
  let idx := buffer_offset (mo_file_pointer s) in
  let '(f, i) :=
    if idx <? buffer_count (mo_file s) then (mo_file s, Z.to_nat idx)
    else (push_buffer (mo_file s), length (mf_buffers (mo_file s))) in
  match mf_buffers f !! i with
  | Some b => mkOut f (bf_offset b) (Some i) 0 (bf_size b)
  | None => s
  end.

(** [truncate]: [None] is an access outside of the buffers. *)
Definition truncate (pos : Z) (s : memory_index_output) : option memory_index_output :=
  enter_buffer (Z.to_nat (buffer_offset pos)) pos (mo_file s).

(** Bytes stored at [pos_], which advances. *)
Definition poke_buffer (off : nat) (bs : list Z) (b : buffer_t) : buffer_t :=
  mkBuffer (bf_offset b) (poke off bs (bf_data b)) (bf_size b).
Definition mo_put (bs : list Z) (s : memory_index_output) : memory_index_output :=
  let f := mo_file s in
  let buffers := match mo_data s with
                 | Some i => alter (poke_buffer (Z.to_nat (mo_pos s)) bs) i (mf_buffers f)
                 | None => mf_buffers f
                 end in
  mkOut (mkFile (mf_alloc f) buffers (mf_len f)) (mo_offset s) (mo_data s) (mo_pos s + Z.of_nat (length bs)) (mo_end s).

Definition mo_write_byte (b : Z) (s : memory_index_output) : memory_index_output :=
  let s := if mo_end s <=? mo_pos s then switch_buffer s else s in mo_put [b] s.

(** The loop of [write_bytes]; every round copies at least one byte. *)
Fixpoint mo_write_loop (fuel : nat) (b : list Z) (s : memory_index_output) : option memory_index_output :=
  match b with
  | [] => Some s
  | _ =>
      match fuel with
      | O => None
      | S fuel =>
          let s := if mo_end s <=? mo_pos s then switch_buffer s else s in
          let to_copy := Z.to_nat (Z.min (mo_remain s) (Z.of_nat (length b))) in
          mo_write_loop fuel (drop to_copy b) (mo_put (take to_copy b) s)
      end
  end.
Definition mo_write_bytes (b : list Z) (s : memory_index_output) : memory_index_output :=
  default s (mo_write_loop (length b) b s).

#[export] Instance memory_data_output : DataOutput memory_index_output := {
  write_byte := mo_write_byte; write_bytes := mo_write_bytes
}.

(** The overridden writers *)
Definition mo_write_long (big : bool) (v : Z) (s : memory_index_output) : memory_index_output :=
  if mo_remain s <? 8 then write_long v s else mo_put (Fixed.write64_ptr big (wrap 64 v)) s.
Definition mo_write_int (big : bool) (v : Z) (s : memory_index_output) : memory_index_output :=
  if mo_remain s <? 4 then write_int v s else mo_put (Fixed.write32_ptr big (wrap 32 v)) s.
Definition mo_write_vlong (v : Z) (s : memory_index_output) : memory_index_output :=
  if mo_remain s <? Z.of_nat (VInt.const_max_vsize 64) then write_vlong v s else mo_put (VInt.vwrite64 v) s.
Definition mo_write_vint (v : Z) (s : memory_index_output) : memory_index_output :=
  if mo_remain s <? Z.of_nat (VInt.const_max_vsize 32) then write_vint v s else mo_put (VInt.vwrite32 v) s.

Definition mo_flush (s : memory_index_output) : memory_index_output :=
  mkOut (mf_set_len (mo_file_pointer s) (mo_file s)) (mo_offset s) (mo_data s) (mo_pos s) (mo_end s).
Definition mo_CloseImpl (s : memory_index_output) : Z * memory_index_output :=
  let s := mo_flush s in (mf_len (mo_file s), s).

#[export] Instance memory_index_output_pointer : IndexOutput memory_index_output := fun s => Z.to_nat (mo_file_pointer s).

(** ** [memory_index_input] *)

(** A pointer into the file: null, or an offset in a buffer. *)
Inductive pointer := nullptr | in_buffer (i : nat) (off : Z).

(** [p >= q]; a null pointer is below every other one. *)
Definition ptr_ge (p q : pointer) : bool :=
  match p, q with
  | _, nullptr => true
  | nullptr, _ => false
  | in_buffer _ a, in_buffer _ b => b <=? a
  end.

(** [std::distance(p, q)]: [None] when only one of them is null. *)
Definition ptr_distance (p q : pointer) : option Z :=
  match p, q with
  | nullptr, nullptr => Some 0
  | in_buffer _ a, in_buffer _ b => Some (b - a)
  | _, _ => None
  end.

Record memory_index_input := mkIn {
  mi_file : memory_file;
  mi_buf : option nat;
  mi_begin : pointer;
  mi_end : pointer;
  mi_start : Z;
}.

Definition mi_make (f : memory_file) : memory_index_input := mkIn f None nullptr nullptr 0.

Definition mi_length (s : memory_index_input) : Z := mf_len (mi_file s).
(** [buf_] and [begin_] are null together. *)
Definition mi_file_pointer (s : memory_index_input) : Z :=
  mi_start s + match mi_begin s with nullptr => 0 | in_buffer _ off => off end.
Definition mi_eof (s : memory_index_input) : bool := mi_length s <=? mi_file_pointer s.
Definition mi_remain (s : memory_index_input) : option Z := ptr_distance (mi_begin s) (mi_end s).

Definition mi_set_begin (p : pointer) (s : memory_index_input) : memory_index_input :=
  mkIn (mi_file s) (mi_buf s) p (mi_end s) (mi_start s).

(** [switch_buffer(pos)]: [None] is an access outside of the buffers. *)
Definition mi_switch_buffer (pos : Z) (s : memory_index_input) : option memory_index_input :=
  let idx := Z.to_nat (buffer_offset pos) in
  b ← mf_buffers (mi_file s) !! idx;
  let s :=
    if decide (mi_buf s = Some idx) then s
    else mkIn (mi_file s) (Some idx) (mi_begin s)
           (in_buffer idx (Z.min (bf_size b) (mi_length s - bf_offset b))) (bf_offset b) in
  Some (mi_set_begin (in_buffer idx (pos - mi_start s)) s).

Definition mi_seek (pos : Z) (s : memory_index_input) : option memory_index_input :=
  if mi_length s <=? pos then Some (mkIn (mi_file s) None nullptr (mi_end s) (mi_length s))
  else mi_switch_buffer pos s.

(** The bytes a pointer gives access to. *)
Definition bytes_at (n : nat) (p : pointer) (f : memory_file) : option (list Z) :=
  match p with
  | nullptr => None
  | in_buffer i off => b ← mf_buffers f !! i; Some (take n (drop (Z.to_nat off) (bf_data b)))
  end.
Definition ptr_add (n : Z) (p : pointer) : option pointer :=
  match p with nullptr => None | in_buffer i off => Some (in_buffer i (off + n)) end.

(** [read_buffer(offset, size)]; the outer [None] is an access outside of the buffers. *)
Definition mi_read_buffer_at (offset size : Z) (s : memory_index_input) : option (option (list Z) * memory_index_input) :=
  let idx := Z.to_nat (buffer_offset offset) in
  b ← mf_buffers (mi_file s) !! idx;
  let begin := offset - bf_offset b in
  let buf_end := Z.min (bf_size b) (mi_length s - bf_offset b) in
  if begin + size <=? buf_end then
    Some (bytes_at (Z.to_nat size) (in_buffer idx begin) (mi_file s),
      mkIn (mi_file s) (Some idx) (in_buffer idx (begin + size)) (in_buffer idx buf_end) (bf_offset b))
  else Some (None, s).

(** [read_buffer(size)]; from a null pointer it returns null, and a null pointer below [end_] is moved
    to an address of no object. *)
Definition mi_read_buffer (size : Z) (s : memory_index_input) : option (option (list Z) * memory_index_input) :=
  match mi_begin s, mi_end s with
  | nullptr, nullptr => Some (None, s)
  | in_buffer i off, in_buffer _ e =>
      if e <? off + size then Some (None, s)
      else Some (bytes_at (Z.to_nat size) (mi_begin s) (mi_file s), mi_set_begin (in_buffer i (off + size)) s)
  | _, _ => None
  end.

Definition mi_read_byte (s : memory_index_input) : option (Z * memory_index_input) :=
  s ← (if ptr_ge (mi_begin s) (mi_end s) then mi_switch_buffer (mi_file_pointer s) s else Some s);
  bs ← bytes_at 1 (mi_begin s) (mi_file s);
  p ← ptr_add 1 (mi_begin s);
  match bs with b :: _ => Some (b, mi_set_begin p s) | [] => None end.

(** [read_bytes]: the bytes of the rounds; every round copies at least one. *)
Fixpoint mi_read_loop (fuel : nat) (left : Z) (s : memory_index_input) : option (list Z * memory_index_input) :=
  if left =? 0 then Some ([], s)
  else
    match fuel with
    | O => None
    | S fuel =>
        let stop := ptr_ge (mi_begin s) (mi_end s) in
        if stop && mi_eof s then Some ([], s)
        else
          s ← (if stop then mi_switch_buffer (mi_file_pointer s) s else Some s);
          n ← mi_remain s;
          let copied := Z.min n left in
          bs ← bytes_at (Z.to_nat copied) (mi_begin s) (mi_file s);
          p ← ptr_add copied (mi_begin s);
          '(rest, s) ← mi_read_loop fuel (left - copied) (mi_set_begin p s);
          Some (bs ++ rest, s)
    end.
Definition mi_read_bytes (n : nat) (s : memory_index_input) : option (list Z * memory_index_input) :=
  mi_read_loop n (Z.of_nat n) s.
Definition mi_read_bytes_at (offset : Z) (n : nat) (s : memory_index_input) : option (list Z * memory_index_input) :=
  s ← mi_seek offset s; mi_read_bytes n s.

#[export] Instance memory_data_input : DataInput memory_index_input := {
  read_byte := mi_read_byte;
  read_bytes n s := default ([], s) (mi_read_bytes n s);
}.
#[export] Instance memory_index_input_positions : IndexInput memory_index_input := {
  file_pointer s := Z.to_nat (mi_file_pointer s);
  seek p s := default s (mi_seek (Z.of_nat p) s);
  read_buffer n s := default (None, s) (mi_read_buffer (Z.of_nat n) s);
}.
(** The hint is ignored. *)
#[export] Instance memory_file_input : FileInput memory_index_input :=
  fun n s => default (None, s) (mi_read_buffer (Z.of_nat n) s).

(** The overridden readers *)
Definition mi_from_buffer {A} (f : list Z -> option (A * list Z)) (s : memory_index_input) : option (A * memory_index_input) :=
  n ← mi_remain s;
  bs ← bytes_at (Z.to_nat n) (mi_begin s) (mi_file s);
  '(v, rest) ← f bs;
  p ← ptr_add (Z.of_nat (length bs - length rest)) (mi_begin s);
  Some (v, mi_set_begin p s).
Definition mi_read {A} (size : Z) (slow : memory_index_input -> option (A * memory_index_input))
    (fast : list Z -> option (A * list Z)) (s : memory_index_input) : option (A * memory_index_input) :=
  n ← mi_remain s;
  if n <? size then slow s else mi_from_buffer fast s.
Definition mi_read_short (s : memory_index_input) : option (Z * memory_index_input) :=
  mi_read 2 read_short (fun bs => '(v, r) ← Fixed.read16_ptr bs; Some (to_signed 16 v, r)) s.
Definition mi_read_int (big : bool) (s : memory_index_input) : option (Z * memory_index_input) :=
  mi_read 4 read_int (fun bs => '(v, r) ← Fixed.read32_ptr big bs; Some (to_signed 32 v, r)) s.
Definition mi_read_long (big : bool) (s : memory_index_input) : option (Z * memory_index_input) :=
  mi_read 8 read_long (fun bs => '(v, r) ← Fixed.read64_ptr big bs; Some (to_signed 64 v, r)) s.
Definition mi_read_vint (s : memory_index_input) : option (Z * memory_index_input) :=
  mi_read (Z.of_nat (VInt.const_max_vsize 32)) read_vint VInt.vread32 s.
Definition mi_read_vlong (s : memory_index_input) : option (Z * memory_index_input) :=
  mi_read (Z.of_nat (VInt.const_max_vsize 64)) read_vlong VInt.vread64 s.

(** ** The buckets *)

(** Where bucket [i] starts and what it holds. *)
Definition boff (i : Z) : Z := if i <? 15 then 2 ^ 8 * (2 ^ i - 1) else 2 ^ 8 * (2 ^ 15 - 1) + (i - 15) * 2 ^ 23.
Definition bsize (i : Z) : Z := if i <? 15 then 2 ^ 8 * 2 ^ i else 2 ^ 23.

Lemma boff_succ i : 0 <= i -> boff (i + 1) = boff i + bsize i.
Proof.
  intros Hi. unfold boff, bsize. destruct (Z.ltb_spec i 15), (Z.ltb_spec (i + 1) 15); try lia.
  - rewrite Z.pow_add_r by lia. lia.
  - by replace i with 14 by lia.
Qed.

Lemma bsize_pos i : 0 <= i -> 0 < bsize i.
Proof. intros Hi. unfold bsize. destruct (_ <? _); [|done]. pose proof (pow2_pos i Hi). lia. Qed.

Lemma boff_le i j : 0 <= i <= j -> boff i <= boff j.
Proof.
  intros [Hi Hj]. replace j with (i + Z.of_nat (Z.to_nat (j - i))) by lia.
  induction (Z.to_nat (j - i)) as [|n IH]; [by rewrite Z.add_0_r|].
  replace (i + Z.of_nat (S n)) with (i + Z.of_nat n + 1) by lia. rewrite boff_succ by lia.
  pose proof (bsize_pos (i + Z.of_nat n)). lia.
Qed.

Lemma boff_nonneg i : 0 <= i -> 0 <= boff i.
Proof. intros Hi. apply (boff_le 0). lia. Qed.

Lemma boff_lt i j : 0 <= i < j -> boff i + bsize i <= boff j.
Proof. intros Hi. rewrite <-boff_succ by lia. apply boff_le. lia. Qed.

Lemma bucket_spec i : 0 <= i < NumBuckets -> bucket i = mkBucket (boff i) (bsize i).
Proof.
  unfold NumBuckets. intros Hi. 
  assert (forallb (fun n => let i := Z.of_nat n in (bk_offset (bucket i) =? boff i) && (bk_size (bucket i) =? bsize i)) (seq 0 16) = true)
    as H by (vm_compute; reflexivity).
  rewrite forallb_forall in H. specialize (H (Z.to_nat i)). cbv zeta in H. rewrite Z2Nat.id in H by lia.
  apply andb_true_iff in H as [H1 H2]; [|apply in_seq; lia].
  destruct (bucket i) as [o n]. cbn in H1, H2. f_equal; lia.
Qed.

(** [buffer_offset] is the bucket of a position. *)
Lemma buffer_offset_spec p i : 0 <= i -> boff i <= p < boff i + bsize i -> buffer_offset p = i.
Proof.
  intros Hi Hp. unfold buffer_offset. change (bk_offset kLast) with (boff 15). change (bk_size kLast) with (2 ^ 23).
  change (NumBuckets - 1) with 15. pose proof (boff_nonneg i Hi). destruct (Z.ltb_spec p (boff 15)) as [Hlt|Hge].
  - destruct (Z.lt_ge_cases i 15) as [Hi15|?]; [|pose proof (boff_le 15 i); lia].
    unfold boff, bsize in Hp. destruct (Z.ltb_spec i 15); [|lia]. unfold ComputeBucketOffset, SkipBits.
    assert (p < 2 ^ 23) by (change (boff 15) with 8388352 in Hlt; lia).
    rewrite Z.shiftr_div_pow2 by lia. rewrite (wrap_small 64 (_ + 1)) by (unfold is_word; word_lia).
    assert (p / 2 ^ 8 + 1 > 0) by word_lia. assert (Z.log2 (p / 2 ^ 8 + 1) = i) as Hlog.
    { apply Z.log2_unique; [done|]. rewrite Z.pow_succ_r by done. generalize dependent (2 ^ i). intros q Hq. clear -Hq. word_lia. }
    unfold Math.countl_zero. destruct (p / 2 ^ 8 + 1) eqn:E; [lia| |lia]. rewrite Hlog.
    rewrite wrap_small by (unfold is_word; lia). lia.
  - destruct (Z.lt_ge_cases i 15) as [Hi15|Hi15]; [pose proof (boff_lt i 15); lia|].
    change (boff 15) with 8388352 in *. unfold boff, bsize in Hp. destruct (Z.ltb_spec i 15); [lia|].
    enough ((p - 8388352) / 2 ^ 23 = i - 15) by lia. symmetry. apply Z.div_unique with (p - 8388352 - (i - 15) * 2 ^ 23); lia.
Qed.

(** A position before bucket [n] is in one of the buckets before it. *)
Lemma bucket_below n p : 0 <= p < boff (Z.of_nat n) -> exists i, (i < n)%nat /\
  boff (Z.of_nat i) <= p < boff (Z.of_nat i) + bsize (Z.of_nat i).
Proof.
  induction n as [|n IH]; intros Hp; [change (boff (Z.of_nat 0)) with 0 in Hp; lia|].
  destruct (Z.lt_ge_cases p (boff (Z.of_nat n))) as [Hb|Hb]; [destruct IH as (i & ? & ?); [lia|]; exists i; lia|].
  exists n. rewrite Nat2Z.inj_succ in Hp. rewrite <-Z.add_1_r, boff_succ in Hp by lia. lia.
Qed.

Lemma bucket_exists p : 0 <= p -> exists i, boff (Z.of_nat i) <= p < boff (Z.of_nat i) + bsize (Z.of_nat i).
Proof.
  intros Hp. assert (forall n, Z.of_nat n <= boff (Z.of_nat n)) as Hge.
  { induction n as [|n IH]; [done|]. rewrite Nat2Z.inj_succ, <-Z.add_1_r, boff_succ by lia.
    pose proof (bsize_pos (Z.of_nat n)). lia. }
  pose proof (Hge (S (Z.to_nat p))). destruct (bucket_below (S (Z.to_nat p)) p) as (i & _ & H'); [lia|eauto].
Qed.

(** ** The file *)

Definition buffer_ok (i : Z) (b : buffer_t) : Prop :=
  bf_offset b = boff i /\ bf_size b = bsize i /\ Z.of_nat (length (bf_data b)) = bsize i.
Definition file_ok (f : memory_file) : Prop := forall i b, mf_buffers f !! i = Some b -> buffer_ok (Z.of_nat i) b.

(** The bytes of all the buffers *)
Definition file_bytes (f : memory_file) : list Z := mf_buffers f ≫= bf_data.

Lemma buffers_length l : (forall i b, l !! i = Some b -> buffer_ok (Z.of_nat i) b) ->
  Z.of_nat (length (l ≫= bf_data)) = boff (Z.of_nat (length l)).
Proof.
  induction l as [|b l IH] using rev_ind; intros H; [done|].
  rewrite bind_app, bind_singleton, !length_app. cbn [length].
  destruct (H (length l) b) as (_ & _ & Hd); [by apply list_lookup_middle|].
  rewrite Nat2Z.inj_add, Hd, IH.
  - rewrite Nat2Z.inj_add. change (Z.of_nat 1) with 1. by rewrite boff_succ by lia.
  - intros i b' Hi. apply H. rewrite lookup_app_l; [done|]. by eapply lookup_lt_Some.
Qed.

Lemma file_bytes_length f : file_ok f -> Z.of_nat (length (file_bytes f)) = boff (buffer_count f).
Proof. intros H. by apply buffers_length. Qed.

(** The bytes around a buffer *)
Lemma file_split f i b : file_ok f -> mf_buffers f !! i = Some b -> exists l r,
  mf_buffers f = l ++ b :: r /\ length l = i /\ file_bytes f = (l ≫= bf_data) ++ bf_data b ++ (r ≫= bf_data) /\
  Z.of_nat (length (l ≫= bf_data)) = boff (Z.of_nat i).
Proof.
  intros Hf Hi. destruct (list_elem_of_split_length _ _ _ Hi) as (l & r & E & ->). exists l, r.
  split; [done|]. split; [done|]. split; [unfold file_bytes; by rewrite E, bind_app, bind_cons|].
  apply buffers_length. intros j b' Hj. apply Hf. rewrite E, lookup_app_l; [done|]. by eapply lookup_lt_Some.
Qed.

Lemma create_buffer_ok f : file_ok f -> buffer_ok (buffer_count f) (create_buffer f).
Proof.
  intros Hf. unfold create_buffer. pose proof (Nat2Z.is_nonneg (length (mf_buffers f))) as Hn. fold (buffer_count f) in Hn.
  assert (forall i z, 0 <= z -> Z.of_nat (length (fresh_data i z f)) = z) as Hlen
    by (intros i z Hz; unfold fresh_data; rewrite length_map, length_seq; lia).
  destruct (Z.ltb_spec (buffer_count f) NumBuckets) as [Hlt|Hge].
  - cbv zeta. rewrite (bucket_spec (buffer_count f)) by lia. pose proof (bsize_pos (buffer_count f) Hn).
    split; [done|]. split; [done|]. cbn. apply Hlen. lia.
  - unfold NumBuckets in Hge. unfold file_ok in Hf. unfold buffer_count in *.
    destruct (mf_buffers f) as [|b l _] eqn:E using rev_ind; [cbn in Hge; lia|].
    rewrite last_snoc, length_app in *. cbn [length] in *.
    destruct (Hf (length l) b) as (Ho & _ & _); [by apply list_lookup_middle|]. cbn [bf_offset]. rewrite Ho.
    change (bk_size kLast) with (2 ^ 23). rewrite Nat2Z.inj_add in *. change (Z.of_nat 1) with 1 in *.
    assert (bsize (Z.of_nat (length l)) = 2 ^ 23 /\ bsize (Z.of_nat (length l) + 1) = 2 ^ 23) as [B1 B2].
    { unfold bsize. split; case_match; lia. }
    split; [|split]; cbn [bf_offset bf_size bf_data]; [by rewrite boff_succ, B1 by lia|done|rewrite Hlen by done; lia].
Qed.

Lemma push_buffer_ok f : file_ok f -> file_ok (push_buffer f) /\
  file_bytes (push_buffer f) = file_bytes f ++ bf_data (create_buffer f).
Proof.
  intros Hf. split.
  - intros i b Hi. cbn in Hi. apply lookup_app_Some in Hi as [Hi|[Hle Hi]]; [by apply Hf|].
    apply list_lookup_singleton_Some in Hi as [Hi <-]. replace (Z.of_nat i) with (buffer_count f) by (unfold buffer_count; lia).
    by apply create_buffer_ok.
  - unfold file_bytes. cbn. by rewrite bind_app, bind_singleton.
Qed.

(** ** The output is a byte sink *)

(** The current buffer of an output *)
Definition out_position (s : memory_index_output) : Prop :=
  match mo_data s with
  | None => mo_offset s = 0 /\ mo_pos s = 0 /\ mo_end s = 0
  | Some i => (exists b, mf_buffers (mo_file s) !! i = Some b) /\ mo_offset s = boff (Z.of_nat i) /\
      mo_end s = bsize (Z.of_nat i) /\ 0 <= mo_pos s <= mo_end s
  end.
Definition mo_ok (s : memory_index_output) : Prop := file_ok (mo_file s) /\ out_position s.

(** What was written: the bytes of the file before the pointer. *)
Definition mo_written (s : memory_index_output) : list Z := take (Z.to_nat (mo_file_pointer s)) (file_bytes (mo_file s)).

Lemma mo_pointer_range s : mo_ok s -> 0 <= mo_file_pointer s <= Z.of_nat (length (file_bytes (mo_file s))).
Proof.
  intros [Hf Hp]. unfold mo_file_pointer. unfold out_position in Hp. destruct (mo_data s) as [i|]; [|lia].
  destruct Hp as ([b Hb] & Ho & He & Hr). pose proof (boff_nonneg (Z.of_nat i)).
  destruct (file_split _ _ _ Hf Hb) as (l & r & _ & _ & E & Hl). rewrite E, !length_app.
  destruct (Hf _ _ Hb) as (_ & _ & Hd). lia.
Qed.

Lemma mo_written_length s : mo_ok s -> Z.of_nat (length (mo_written s)) = mo_file_pointer s.
Proof. intros H. pose proof (mo_pointer_range s H). unfold mo_written. rewrite length_take. lia. Qed.

(** Entering a buffer at a position of it. *)
Lemma enter_buffer_spec i pos f b : file_ok f -> mf_buffers f !! i = Some b ->
  boff (Z.of_nat i) <= pos <= boff (Z.of_nat i) + bsize (Z.of_nat i) -> exists s,
  enter_buffer i pos f = Some s /\ mo_ok s /\ mo_file s = f /\ mo_file_pointer s = pos.
Proof.
  intros Hf Hb Hp. unfold enter_buffer. rewrite Hb. destruct (Hf _ _ Hb) as (Ho & Hs & _). cbn [mbind option_bind].
  eexists. split; [done|]. rewrite Ho, Hs. split; [|split; [done|unfold mo_file_pointer; cbn; lia]].
  split; [done|]. cbn. split; [by exists b|]. lia.
Qed.

Lemma switch_buffer_spec s : mo_ok s -> mo_end s <= mo_pos s ->
  mo_ok (switch_buffer s) /\ mo_written (switch_buffer s) = mo_written s /\ mo_pos (switch_buffer s) < mo_end (switch_buffer s).
Proof.
  intros Hs Hfull. pose proof (mo_pointer_range s Hs) as Hrange. destruct Hs as [Hf Hp].
  assert (exists idx, 0 <= idx <= buffer_count (mo_file s) /\ mo_file_pointer s = boff idx) as (idx & Hidx & Hfp).
  { unfold mo_file_pointer. unfold out_position in Hp. destruct (mo_data s) as [i|]; [|exists 0; unfold buffer_count; cbn; lia].
    destruct Hp as ([b Hb] & Ho & He & Hr). apply lookup_lt_Some in Hb. exists (Z.of_nat i + 1).
    rewrite boff_succ by lia. unfold buffer_count. lia. }
  pose proof (bsize_pos idx ltac:(lia)) as Hpos. unfold switch_buffer. rewrite (buffer_offset_spec _ idx) by lia.
  unfold mo_written in *.
  assert (forall f' b, file_ok f' -> mf_buffers f' !! Z.to_nat idx = Some b ->
    take (Z.to_nat (boff idx)) (file_bytes f') = take (Z.to_nat (mo_file_pointer s)) (file_bytes (mo_file s)) ->
    let s' := mkOut f' (bf_offset b) (Some (Z.to_nat idx)) 0 (bf_size b) in
    mo_ok s' /\ take (Z.to_nat (mo_file_pointer s')) (file_bytes (mo_file s')) =
      take (Z.to_nat (mo_file_pointer s)) (file_bytes (mo_file s)) /\ mo_pos s' < mo_end s') as Hdone.
  { intros f' b Hf' Hb Hw. destruct (Hf' _ _ Hb) as (Ho & Hz & _). rewrite Z2Nat.id in Ho, Hz by lia. cbn. rewrite Ho, Hz.
    split; [split; [done|]; cbn; rewrite Z2Nat.id by lia; split; [by exists b|lia]|]. split; [|lia].
    unfold mo_file_pointer at 1. cbn. by rewrite Z.add_0_r. }
  destruct (Z.ltb_spec idx (buffer_count (mo_file s))) as [Hlt|Hge].
  - destruct (mf_buffers (mo_file s) !! Z.to_nat idx) as [b|] eqn:Eb; [|apply lookup_ge_None in Eb; unfold buffer_count in *; lia].
    apply Hdone; [done|done|by rewrite Hfp].
  - destruct (push_buffer_ok _ Hf) as [Hf' Hb']. unfold buffer_count in *.
    replace (length (mf_buffers (mo_file s))) with (Z.to_nat idx) by lia.
    destruct (mf_buffers (push_buffer (mo_file s)) !! Z.to_nat idx) as [b|] eqn:Eb;
      [|apply lookup_ge_None in Eb; cbn in Eb; rewrite length_app in Eb; cbn in Eb; lia].
    apply Hdone; [done|done|]. rewrite Hb', Hfp, take_app_le; [done|]. lia.
Qed.

Lemma mo_put_spec bs s : mo_ok s -> mo_pos s + Z.of_nat (length bs) <= mo_end s -> mo_data s <> None ->
  mo_ok (mo_put bs s) /\ mo_written (mo_put bs s) = mo_written s ++ bs.
Proof.
  intros [Hf Hp] Hroom Hd. unfold out_position in Hp. destruct (mo_data s) as [i|] eqn:Ed; [|done].
  destruct Hp as ([b Hb] & Ho & He & Hr). destruct (file_split _ _ _ Hf Hb) as (l & r & E & <- & Eb & Hl).
  destruct (Hf _ _ Hb) as (B1 & B2 & B3). pose proof (boff_nonneg (Z.of_nat (length l)) ltac:(lia)) as Hn0.
  unfold mo_put. rewrite Ed, E, alter_app_r_alt, Nat.sub_diag by lia. cbn [alter list_alter].
  set (f' := mkFile _ _ _).
  assert (file_bytes f' = (l ≫= bf_data) ++ poke (Z.to_nat (mo_pos s)) bs (bf_data b) ++ (r ≫= bf_data)) as Eb'.
  { unfold file_bytes. cbn. by rewrite bind_app, bind_cons. }
  assert (length (poke (Z.to_nat (mo_pos s)) bs (bf_data b)) = length (bf_data b)) as Hlen by (apply poke_length; lia).
  assert (file_ok f') as Hf'.
  { intros j b' Hj. cbn in Hj. destruct (decide (j = length l)) as [->|Hne].
    - rewrite list_lookup_middle in Hj by done. injection Hj as <-. split; [done|]. split; [done|]. cbn. by rewrite Hlen.
    - apply Hf. rewrite E. destruct (decide (j < length l)%nat).
      + rewrite lookup_app_l in * by lia. done.
      + rewrite lookup_app_r in * by lia. destruct (j - length l)%nat eqn:Ej; [lia|done]. }
  split.
  - split; [done|]. cbn. split; [exists (poke_buffer (Z.to_nat (mo_pos s)) bs b); by apply list_lookup_middle|]. lia.
  - unfold mo_written, mo_file_pointer. cbn [mo_file mo_offset mo_pos]. rewrite Eb', Eb, Ho.
    replace (Z.to_nat (boff (Z.of_nat (length l)) + (mo_pos s + Z.of_nat (length bs)))) with
      (length (l ≫= bf_data) + (Z.to_nat (mo_pos s) + length bs))%nat by lia.
    replace (Z.to_nat (boff (Z.of_nat (length l)) + mo_pos s)) with (length (l ≫= bf_data) + Z.to_nat (mo_pos s))%nat by lia.
    rewrite !take_app_add, <-app_assoc. f_equal. unfold poke. rewrite (take_app_le (bf_data b)) by lia.
    rewrite <-app_assoc. rewrite take_app_add' by (rewrite length_take; lia). f_equal. by rewrite <-app_assoc, take_app_length.
Qed.

(** The switch that comes before bytes are stored. *)
Lemma make_room s : mo_ok s ->
  let s' := if mo_end s <=? mo_pos s then switch_buffer s else s in
  mo_ok s' /\ mo_written s' = mo_written s /\ mo_pos s' < mo_end s' /\ mo_data s' <> None.
Proof.
  intros Hs. cbv zeta. assert (forall s', mo_ok s' -> mo_pos s' < mo_end s' -> mo_data s' <> None) as Hd.
  { intros s' [_ Hp] Hlt E. unfold out_position in Hp. rewrite E in Hp. lia. }
  destruct (Z.leb_spec (mo_end s) (mo_pos s)) as [Hle|Hlt].
  - destruct (switch_buffer_spec s Hs Hle) as (H1 & H2 & H3). auto.
  - auto.
Qed.

Lemma mo_write_byte_spec b s : mo_ok s -> mo_ok (mo_write_byte b s) /\ mo_written (mo_write_byte b s) = mo_written s ++ [b].
Proof.
  intros Hs. unfold mo_write_byte. destruct (make_room s Hs) as (H1 & <- & H3 & H4). apply mo_put_spec; [done|cbn [length]; lia|done].
Qed.

Lemma mo_write_loop_spec fuel b s : mo_ok s -> (length b <= fuel)%nat -> exists s',
  mo_write_loop fuel b s = Some s' /\ mo_ok s' /\ mo_written s' = mo_written s ++ b.
Proof.
  revert b s. induction fuel as [|fuel IH]; intros [|x b] s Hs Hf; cbn [length] in Hf; [|lia| |].
  1-2: exists s; by rewrite app_nil_r.
  cbn [mo_write_loop]. destruct (make_room s Hs) as (H1 & <- & H3 & H4).
  set (s1 := if mo_end s <=? mo_pos s then switch_buffer s else s) in *. set (n := Z.to_nat (Z.min (mo_remain s1) (Z.of_nat (length (x :: b))))) in *.
  assert (0 < n <= length (x :: b))%nat as Hn by (unfold n, mo_remain; cbn [length]; lia).
  destruct (mo_put_spec (take n (x :: b)) s1) as [H5 H6]; [done|rewrite length_take; unfold n, mo_remain in *; lia|done|].
  destruct (IH (drop n (x :: b)) (mo_put (take n (x :: b)) s1)) as (s' & E & Hs' & Hw); [done|rewrite length_drop; cbn [length] in *; lia|].
  exists s'. split; [done|]. split; [done|]. by rewrite Hw, H6, <-app_assoc, take_drop.
Qed.

Lemma mo_write_bytes_spec b s : mo_ok s -> mo_ok (mo_write_bytes b s) /\ mo_written (mo_write_bytes b s) = mo_written s ++ b.
Proof.
  intros Hs. unfold mo_write_bytes. destruct (mo_write_loop_spec (length b) b s Hs) as (s' & -> & H); [done|exact H].
Qed.

#[export] Instance memory_data_output_spec : DataOutputSpec memory_index_output := {
  out_ok := mo_ok; written := mo_written; write_byte_spec := mo_write_byte_spec; write_bytes_spec := mo_write_bytes_spec
}.
#[export] Instance memory_index_output_spec : IndexOutputSpec memory_index_output.
Proof.
  intros s Hs. pose proof (mo_written_length s Hs) as H. pose proof (mo_pointer_range s Hs).
  unfold out_pointer, memory_index_output_pointer. cbn. lia.
Qed.

Lemma out_make_ok f : file_ok f -> mo_ok (out_make f) /\ mo_written (out_make f) = [].
Proof. intros Hf. split; [split; [done|]; done|done]. Qed.

(** [truncate] to what was written before keeps the prefix, as long as the position is in a buffer. *)
Lemma truncate_spec pos s : mo_ok s -> 0 <= pos <= mo_file_pointer s -> pos < boff (buffer_count (mo_file s)) -> exists s',
  truncate pos s = Some s' /\ mo_ok s' /\ mo_file s' = mo_file s /\ mo_written s' = take (Z.to_nat pos) (mo_written s).
Proof.
  intros Hs Hp Hlt. unfold truncate.
  destruct (bucket_below (length (mf_buffers (mo_file s))) pos) as (i & Hi & Hpos); [unfold buffer_count in Hlt; lia|].
  rewrite (buffer_offset_spec pos (Z.of_nat i)), Nat2Z.id by lia. destruct (lookup_lt_is_Some_2 _ i Hi) as [b Hb].
  destruct (enter_buffer_spec i pos (mo_file s) b (proj1 Hs) Hb) as (s' & E & H1 & H2 & H3); [lia|].
  exists s'. split; [done|]. split; [done|]. split; [done|]. unfold mo_written. rewrite H2, H3, take_take. f_equal. lia.
Qed.

(** ** The input is a cursor in the file *)

Definition mf_content (f : memory_file) : list Z := take (Z.to_nat (mf_len f)) (file_bytes f).

(** The length lies in the buffers. *)
Definition mf_ok (f : memory_file) : Prop := file_ok f /\ 0 <= mf_len f <= Z.of_nat (length (file_bytes f)).

(** At rest without a buffer, or in a buffer. *)
Definition in_position (s : memory_index_input) : Prop :=
  match mi_buf s, mi_begin s, mi_end s with
  | None, nullptr, nullptr => 0 <= mi_start s <= mi_length s
  | Some i, in_buffer j off, in_buffer k e =>
      j = i /\ k = i /\ (exists b, mf_buffers (mi_file s) !! i = Some b) /\ mi_start s = boff (Z.of_nat i) /\
      e = Z.min (bsize (Z.of_nat i)) (mi_length s - boff (Z.of_nat i)) /\ 0 <= off <= e
  | _, _, _ => False
  end.
Definition mi_ok (s : memory_index_input) : Prop := mf_ok (mi_file s) /\ in_position s.
Definition mi_remaining (s : memory_index_input) : list Z := drop (Z.to_nat (mi_file_pointer s)) (mf_content (mi_file s)).

Lemma mf_content_length f : mf_ok f -> Z.of_nat (length (mf_content f)) = mf_len f.
Proof. intros [_ H]. unfold mf_content. rewrite length_take. lia. Qed.

Lemma mo_flush_ok d : mo_ok d -> mo_ok (mo_flush d) /\ mo_written (mo_flush d) = mo_written d.
Proof. intros [Hf Hp]. split; [by split|done]. Qed.

Lemma flushed_file d : mo_ok d -> mf_ok (mo_file (mo_flush d)) /\ mf_content (mo_file (mo_flush d)) = mo_written d /\
  mf_len (mo_file (mo_flush d)) = Z.of_nat (length (mo_written d)).
Proof.
  intros Hd. pose proof (mo_pointer_range d Hd). rewrite (mo_written_length d Hd). destruct Hd as [Hf Hp].
  split; [by split|]. split; [done|done].
Qed.

Lemma mi_pointer_range s : mi_ok s -> 0 <= mi_file_pointer s <= mi_length s.
Proof.
  intros [_ Hp]. unfold in_position in Hp. unfold mi_file_pointer.
  destruct (mi_buf s) as [i|], (mi_begin s) as [|j o], (mi_end s) as [|k e]; try done; [|lia].
  pose proof (boff_nonneg (Z.of_nat i)). lia.
Qed.

Lemma mi_remaining_length s : mi_ok s -> Z.of_nat (length (mi_remaining s)) = mi_length s - mi_file_pointer s.
Proof.
  intros Hs. pose proof (mi_pointer_range s Hs). unfold mi_remaining. rewrite length_drop.
  pose proof (mf_content_length _ (proj1 Hs)). unfold mi_length in *. lia.
Qed.

(** The buffer of a position of the file *)
Lemma find_buffer f p : mf_ok f -> 0 <= p < mf_len f -> exists i b,
  mf_buffers f !! i = Some b /\ Z.to_nat (buffer_offset p) = i /\
  boff (Z.of_nat i) <= p < boff (Z.of_nat i) + bsize (Z.of_nat i).
Proof.
  intros [Hf Hl] Hp. rewrite (file_bytes_length f Hf) in Hl. unfold buffer_count in Hl.
  destruct (bucket_below (length (mf_buffers f)) p) as (i & Hi & Hr); [lia|].
  destruct (lookup_lt_is_Some_2 (mf_buffers f) i Hi) as [b Hb]. exists i, b. split; [done|]. split; [|done].
  rewrite (buffer_offset_spec p (Z.of_nat i)) by lia. lia.
Qed.

Lemma mi_switch_spec p s : mi_ok s -> 0 <= p < mi_length s -> exists s' i o e,
  mi_switch_buffer p s = Some s' /\ mi_ok s' /\ mi_file s' = mi_file s /\ mi_file_pointer s' = p /\
  mi_begin s' = in_buffer i o /\ mi_end s' = in_buffer i e /\ o < e.
Proof.
  intros [Hf Hpos] Hp. destruct (find_buffer _ p Hf Hp) as (i & b & Hb & Hi & Hr).
  destruct (proj1 Hf _ _ Hb) as (B1 & B2 & _). unfold mi_switch_buffer. cbv zeta. rewrite Hi, Hb. cbn [mbind option_bind].
  assert (exists s1, (if decide (mi_buf s = Some i) then s else mkIn (mi_file s) (Some i) (mi_begin s)
      (in_buffer i (Z.min (bf_size b) (mi_length s - bf_offset b))) (bf_offset b)) = s1 /\
    mi_file s1 = mi_file s /\ mi_buf s1 = Some i /\ mi_start s1 = boff (Z.of_nat i) /\
    mi_end s1 = in_buffer i (Z.min (bsize (Z.of_nat i)) (mi_length s - boff (Z.of_nat i)))) as (s1 & -> & F1 & F2 & F3 & F4).
  { eexists. split; [done|]. case_decide as Ei; cbn; [|by rewrite B1, B2].
    unfold in_position in Hpos. rewrite Ei in Hpos. destruct (mi_begin s), (mi_end s); try done.
    destruct Hpos as (-> & -> & _ & -> & -> & _). done. }
  eexists _, i, _, _. split; [done|]. unfold mi_length in *.
  split; [|split; [done|split; [unfold mi_file_pointer; cbn; lia|split; [done|split; [exact F4|lia]]]]].
  split; [cbn; by rewrite F1|]. unfold in_position. cbn. rewrite F2, F4. unfold mi_length. cbn. rewrite F1.
  split; [done|]. split; [done|]. split; [by exists b|]. split; [done|]. split; [done|lia].
Qed.

(** The bytes at the pointer, within the buffer *)
Lemma mi_bytes_spec n s i o e : mi_ok s -> mi_begin s = in_buffer i o -> mi_end s = in_buffer i e -> Z.of_nat n <= e - o ->
  bytes_at n (mi_begin s) (mi_file s) = Some (take n (mi_remaining s)) /\ Z.of_nat n <= Z.of_nat (length (mi_remaining s)) /\
  let s' := mi_set_begin (in_buffer i (o + Z.of_nat n)) s in
  mi_ok s' /\ mi_file_pointer s' = mi_file_pointer s + Z.of_nat n /\ mi_remaining s' = drop n (mi_remaining s).
Proof.
  intros Hs Eb Ee Hn. pose proof (mi_remaining_length s Hs) as Hlen. pose proof (mi_pointer_range s Hs) as Hrange.
  destruct Hs as [[Hf Hl] Hpos]. pose proof Hpos as Hpos'.
  unfold in_position in Hpos. rewrite Eb, Ee in Hpos. destruct (mi_buf s) as [k|] eqn:Ek; [|done].
  destruct Hpos as (<- & _ & [b Hb] & Hst & He & Ho). pose proof (boff_nonneg (Z.of_nat i) ltac:(lia)) as H0.
  assert (mi_file_pointer s = boff (Z.of_nat i) + o) as Hfp by (unfold mi_file_pointer; rewrite Eb; lia).
  assert (mi_file_pointer (mi_set_begin (in_buffer i (o + Z.of_nat n)) s) = mi_file_pointer s + Z.of_nat n) as Hfp'
    by (rewrite Hfp; unfold mi_file_pointer; cbn; lia).
  unfold mi_length in *. split; [|split; [lia|split; [|split; [done|]]]].
  - rewrite Eb. cbn [bytes_at]. rewrite Hb. cbn [mbind option_bind]. f_equal. unfold mi_remaining, mf_content. rewrite Hfp.
    destruct (file_split _ _ _ Hf Hb) as (l & r & _ & _ & -> & Hbl). destruct (Hf _ _ Hb) as (_ & _ & Hd).
    rewrite skipn_firstn_comm, take_take. replace (Nat.min n (Z.to_nat (mf_len (mi_file s)) - Z.to_nat (boff (Z.of_nat i) + o)))%nat with n by lia.
    replace (Z.to_nat (boff (Z.of_nat i) + o)) with (length (l ≫= bf_data) + Z.to_nat o)%nat by lia.
    rewrite drop_app_add, drop_app_le, take_app_le by (rewrite ?length_drop; lia). done.
  - split; [by split|]. unfold in_position. cbn. rewrite Ek, Ee. unfold mi_length. cbn. rewrite <-He.
    split; [done|]. split; [done|]. split; [by exists b|]. split; [done|]. split; [done|lia].
  - unfold mi_remaining. rewrite Hfp'. cbn. rewrite drop_drop. f_equal. lia.
Qed.

(** The next buffer is entered before reading when the current one is exhausted. *)
Lemma mi_enter s : mi_ok s -> mi_file_pointer s < mi_length s -> exists s' i o e,
  (if ptr_ge (mi_begin s) (mi_end s) then mi_switch_buffer (mi_file_pointer s) s else Some s) = Some s' /\ mi_ok s' /\
  mi_file s' = mi_file s /\ mi_file_pointer s' = mi_file_pointer s /\
  mi_begin s' = in_buffer i o /\ mi_end s' = in_buffer i e /\ o < e.
Proof.
  intros Hs Hlt. pose proof (mi_pointer_range s Hs). destruct (ptr_ge _ _) eqn:E.
  - apply mi_switch_spec; [done|lia].
  - pose proof Hs as [_ Hpos]. unfold in_position in Hpos.
    destruct (mi_buf s) as [i|], (mi_begin s) as [|j o] eqn:Eb, (mi_end s) as [|k e] eqn:Ee; try done.
    destruct Hpos as (-> & -> & _). cbn in E. exists s, i, o, e.
    split; [done|]. split; [done|]. split; [done|]. split; [done|]. split; [done|]. split; [done|lia].
Qed.

Lemma mi_read_byte_spec s b r : mi_ok s -> mi_remaining s = b :: r -> exists s',
  mi_read_byte s = Some (b, s') /\ mi_ok s' /\ mi_remaining s' = r /\ mi_file s' = mi_file s.
Proof.
  intros Hs Hr. pose proof (mi_remaining_length s Hs) as Hlen. rewrite Hr in Hlen. cbn [length] in Hlen.
  destruct (mi_enter s Hs ltac:(lia)) as (s1 & i & o & e & E & Hs1 & Ef & Efp & Eb & Ee & Ho).
  destruct (mi_bytes_spec 1 s1 i o e Hs1 Eb Ee ltac:(lia)) as (B1 & _ & B2 & _ & B3).
  unfold mi_read_byte. rewrite E. cbn [mbind option_bind]. rewrite B1. cbn [mbind option_bind]. rewrite Eb.
  assert (mi_remaining s1 = b :: r) as Hr1 by (unfold mi_remaining; by rewrite Efp, Ef).
  rewrite Hr1 in *. cbn [ptr_add mbind option_bind take]. eexists. split; [done|]. split; [done|]. split; [exact B3|done].
Qed.

Lemma mi_read_loop_spec fuel left s : mi_ok s -> 0 <= left <= Z.of_nat fuel -> exists s',
  mi_read_loop fuel left s = Some (take (Z.to_nat left) (mi_remaining s), s') /\ mi_ok s' /\
  mi_remaining s' = drop (Z.to_nat left) (mi_remaining s) /\ mi_file s' = mi_file s.
Proof.
  revert left s. induction fuel as [|fuel IH]; intros left s Hs Hl.
  1: { replace left with 0 by lia. exists s. cbn. split; [by rewrite take_0|]. by rewrite drop_0. }
  cbn [mi_read_loop]. destruct (Z.eqb_spec left 0) as [->|Hne]; [exists s; split; [by rewrite take_0|]; by rewrite drop_0|].
  pose proof (mi_remaining_length s Hs) as Hlen. pose proof (mi_pointer_range s Hs) as Hrange.
  unfold mi_eof. destruct (Z.leb_spec (mi_length s) (mi_file_pointer s)) as [Heof|Hmore].
  - assert (mi_remaining s = []) as Hnil by (apply nil_length_inv; lia).
    assert (ptr_ge (mi_begin s) (mi_end s) = true) as ->.
    { pose proof Hs as [_ Hpos]. unfold in_position in Hpos.
      destruct (mi_buf s) as [i|], (mi_begin s) as [|j o] eqn:Eb, (mi_end s) as [|k e] eqn:Ee; try done.
      cbn. unfold mi_file_pointer in Heof. rewrite Eb in Heof. lia. }
    cbn [andb]. exists s. rewrite Hnil, take_nil, drop_nil. done.
  - rewrite andb_false_r. destruct (mi_enter s Hs Hmore) as (s1 & i & o & e & E & Hs1 & Ef & Efp & Eb & Ee & Ho).
    rewrite E. cbn [mbind option_bind]. unfold mi_remain. rewrite Eb, Ee. cbn [ptr_distance mbind option_bind].
    rewrite <-Eb. set (n := Z.to_nat (Z.min (e - o) left)).
    assert (Z.min (e - o) left = Z.of_nat n) as En by lia.
    destruct (mi_bytes_spec n s1 i o e Hs1 Eb Ee ltac:(lia)) as (B1 & B0 & B2 & _ & B3).
    rewrite B1. cbn [mbind option_bind]. rewrite Eb. cbn [ptr_add mbind option_bind]. rewrite En.
    destruct (IH (left - Z.of_nat n) (mi_set_begin (in_buffer i (o + Z.of_nat n)) s1) B2 ltac:(lia)) as (s' & -> & H1 & H2 & H3).
    cbn [mbind option_bind]. assert (mi_remaining s1 = mi_remaining s) as Hr1 by (unfold mi_remaining; by rewrite Efp, Ef).
    rewrite B3, Hr1 in *. exists s'. split; [|split; [done|split; [|by rewrite H3]]].
    + do 2 f_equal. rewrite take_take_drop. f_equal. lia.
    + rewrite H2, drop_drop. f_equal. lia.
Qed.

Lemma mi_read_bytes_spec n s : mi_ok s -> exists s',
  mi_read_bytes n s = Some (take n (mi_remaining s), s') /\ mi_ok s' /\ mi_remaining s' = drop n (mi_remaining s) /\ mi_file s' = mi_file s.
Proof. intros Hs. pose proof (mi_read_loop_spec n (Z.of_nat n) s Hs ltac:(lia)) as H. by rewrite Nat2Z.id in H. Qed.

Lemma mi_read_buffer_spec n s : mi_ok s -> exists r, mi_read_buffer (Z.of_nat n) s = Some r /\
  match r with
  | (Some b, s') => b = take n (mi_remaining s) /\ mi_ok s' /\ mi_remaining s' = drop n (mi_remaining s) /\
      mi_file s' = mi_file s /\ (n <= length (mi_remaining s))%nat
  | (None, s') => s' = s
  end.
Proof.
  intros Hs. pose proof Hs as [_ Hpos]. unfold in_position in Hpos. unfold mi_read_buffer.
  destruct (mi_buf s) as [i|], (mi_begin s) as [|j o] eqn:Eb, (mi_end s) as [|k e] eqn:Ee; try done; [|by eexists].
  destruct Hpos as (-> & -> & _). destruct (Z.ltb_spec e (o + Z.of_nat n)); [by eexists|].
  destruct (mi_bytes_spec n s i o e Hs Eb Ee ltac:(lia)) as (B1 & B0 & B2 & _ & B3).
  rewrite Nat2Z.id, <-Eb, B1. eexists. split; [done|]. cbn. split; [done|]. split; [exact B2|]. split; [exact B3|]. split; [done|lia].
Qed.

#[export] Instance memory_data_input_spec : DataInputSpec memory_index_input.
Proof.
  refine {| in_ok := mi_ok; remaining := mi_remaining |}.
  - intros s b r Hs Hr. destruct (mi_read_byte_spec s b r Hs Hr) as (s' & H1 & H2 & H3 & _). by exists s'.
  - intros n s Hs. destruct (mi_read_bytes_spec n s Hs) as (s' & E & H1 & H2 & _). cbn. by rewrite E.
Defined.

#[export] Instance memory_index_input_spec : IndexInputSpec memory_index_input.
Proof.
  split; cbn.
  - intros n s Hs Hn. pose proof (mi_remaining_length s Hs) as Hlen. pose proof (mi_pointer_range s Hs) as Hr.
    unfold mi_seek. destruct (Z.leb_spec (mi_length s) (Z.of_nat (Z.to_nat (mi_file_pointer s) + n))); [lia|].
    destruct (mi_switch_spec (Z.of_nat (Z.to_nat (mi_file_pointer s) + n)) s Hs ltac:(lia)) as (s' & i & o & e & -> & H1 & H2 & H3 & _).
    cbn. split; [done|]. unfold mi_remaining. rewrite H2, H3, drop_drop, Nat2Z.id. done.
  - intros n s Hs Hn. destruct (mi_read_buffer_spec n s Hs) as ([[b|] s'] & -> & H); cbn; [|done]. tauto.
Qed.

#[export] Instance memory_file_input_spec : FileInputSpec memory_index_input.
Proof.
  assert (forall s' s, mi_ok s' -> mi_file s' = mi_file s -> mf_content (mi_file s') = mf_content (mi_file s) /\
    (Z.to_nat (mi_file_pointer s') <= length (mf_content (mi_file s)))%nat) as Hkeep.
  { intros s' s Hs' Hf. rewrite <-Hf. split; [done|]. pose proof (mi_pointer_range s' Hs').
    pose proof (mf_content_length _ (proj1 Hs')). unfold mi_length in *. lia. }
  refine {| contents := fun s => mf_content (mi_file s) |}; cbn.
  - done.
  - intros s b r s' Hs Hp Hr Hb. destruct (mi_read_byte_spec s b r Hs Hr) as (s1 & E & H1 & _ & H2).
    rewrite E in Hb. injection Hb as <-. by apply Hkeep.
  - intros n s Hs Hn. destruct (mi_read_bytes_spec n s Hs) as (s' & -> & H1 & _ & H2). by apply Hkeep.
  - intros n s Hs Hn. destruct (mi_read_buffer_spec n s Hs) as ([[b|] s'] & -> & H); cbn; [|subst; by apply Hkeep].
    apply Hkeep; tauto.
  - intros p s Hs Hp. rewrite <-(Nat2Z.id (length _)), (mf_content_length _ (proj1 Hs)) in Hp.
    unfold mi_seek. change (mi_length s) with (mf_len (mi_file s)). destruct (Z.leb_spec (mf_len (mi_file s)) (Z.of_nat p)); [lia|].
    destruct (mi_switch_spec (Z.of_nat p) s Hs) as (s' & i & o & e & -> & H1 & H2 & H3 & _); [unfold mi_length; lia|].
    cbn. split; [done|]. split; [by rewrite H2|]. by rewrite H3, Nat2Z.id.
  - intros n s Hs Hn. unfold read_persistent, memory_file_input.
    destruct (mi_read_buffer_spec n s Hs) as ([[b|] s'] & -> & H); cbn; [|done]. destruct H as (H1 & H2 & H3 & H4 & _).
    split; [done|]. split; [done|]. split; [done|]. by apply Hkeep.
Defined.

(** ** Copies of the file *)

Lemma file_sizes f : file_ok f -> Forall (fun b => bf_size b = Z.of_nat (length (bf_data b))) (mf_buffers f).
Proof.
  intros Hf. apply Forall_lookup_2. intros i b Hb. destruct (Hf _ _ Hb) as (_ & -> & ->). done.
Qed.

Lemma copy_buffers_spec {O} `{DataOutputSpec O} buffers len (out : O) : out_ok out ->
  Forall (fun b => bf_size b = Z.of_nat (length (bf_data b))) buffers -> 0 <= len ->
  out_ok (copy_buffers buffers len out) /\
  written (copy_buffers buffers len out) = written out ++ take (Z.to_nat len) (buffers ≫= bf_data).
Proof.
  intros Ho Hb. revert len out Ho. induction Hb as [|b buffers Hsz _ IH]; intros len out Ho Hl; cbn [copy_buffers].
  - cbn. by rewrite take_nil, app_nil_r.
  - rewrite bind_cons. destruct (Z.eqb_spec len 0) as [->|Hne]; [by rewrite take_0, app_nil_r|]. cbv zeta.
    set (n := Z.to_nat (Z.min len (bf_size b))).
    destruct (write_bytes_spec (take n (bf_data b)) out Ho) as [H1 H2].
    destruct (IH (len - Z.min len (bf_size b)) _ H1 ltac:(lia)) as [H3 H4]. split; [done|]. rewrite H4, H2, <-app_assoc. f_equal.
    destruct (Z.le_gt_cases len (bf_size b)).
    + replace (Z.to_nat (len - _)) with 0%nat by lia. rewrite take_0, app_nil_r, take_app_le by lia. f_equal. lia.
    + rewrite (take_ge (bf_data b)) by lia. replace (Z.to_nat len) with (length (bf_data b) + Z.to_nat (len - Z.min len (bf_size b)))%nat by lia.
      by rewrite take_app_add.
Qed.

Lemma copy_to_spec {O} `{DataOutputSpec O} f (out : O) : mf_ok f -> out_ok out ->
  out_ok (copy_to f out) /\ written (copy_to f out) = written out ++ mf_content f.
Proof. intros [Hf Hl] Ho. apply copy_buffers_spec; [done|by apply file_sizes|lia]. Qed.

(** A visitor over consecutive parts of the file, until it stops *)
Fixpoint visit_parts {St} (visitor : list Z -> St -> bool * St) (parts : list (list Z)) (s : St) : bool * St :=
  match parts with
  | [] => (true, s)
  | p :: parts => let '(go, s) := visitor p s in if go then visit_parts visitor parts s else (false, s)
  end.

(** The used part of each buffer *)
Definition used (f : memory_file) (i : nat) : Z := Z.max 0 (Z.min (bsize (Z.of_nat i)) (mf_len f - boff (Z.of_nat i))).

Lemma buffer_length_spec f i b : mf_ok f -> mf_buffers f !! i = Some b -> buffer_length (Z.of_nat i) f = Some (used f i).
Proof.
  intros [Hf Hl] Hb. unfold buffer_length, get_buffer, used. rewrite Nat2Z.id, Hb. cbv zeta.
  destruct (Hf _ _ Hb) as (B1 & B2 & _). pose proof (bsize_pos (Z.of_nat i)) as Hpos.
  destruct (bucket_exists (mf_len f)) as (j & Hr); [lia|]. rewrite (buffer_offset_spec (mf_len f) (Z.of_nat j)) by lia.
  destruct (Z.eqb_spec (Z.of_nat i) (Z.of_nat j)) as [Hij|Hij].
  - apply Nat2Z.inj in Hij as ->. cbn [mbind option_bind]. rewrite B1, B2, Z.mod_small by lia. f_equal. lia.
  - destruct (Z.ltb_spec (Z.of_nat i) (Z.of_nat j)) as [Hlt|Hge].
    + cbn. rewrite B2. f_equal. pose proof (boff_lt (Z.of_nat i) (Z.of_nat j)). lia.
    + f_equal. pose proof (boff_lt (Z.of_nat j) (Z.of_nat i)). lia.
Qed.

(** [visit] shows a visitor the file in consecutive parts. *)
Lemma visit_spec f : mf_ok f -> exists parts, concat parts = mf_content f /\
  forall St (visitor : list Z -> St -> bool * St) s, visit visitor f s = Some (visit_parts visitor parts s).
Proof.
  intros Hf. exists (imap (fun i b => take (Z.to_nat (used f i)) (bf_data b)) (mf_buffers f)). split.
  - destruct Hf as [Hf Hl]. unfold mf_content. unfold file_bytes in *.
    assert (forall l r, mf_buffers f = l ++ r ->
      concat (imap (fun i b => take (Z.to_nat (used f (length l + i))) (bf_data b)) r) =
      take (Z.to_nat (mf_len f - boff (Z.of_nat (length l)))) (r ≫= bf_data)) as H.
    { intros l r. revert l. induction r as [|b r IH]; intros l E; [cbn; by rewrite take_nil|].
      cbn [imap concat]. rewrite bind_cons, Nat.add_0_r.
      assert (mf_buffers f = (l ++ [b]) ++ r) as E' by (by rewrite <-app_assoc). specialize (IH _ E').
      rewrite length_app in IH. cbn [length] in IH.
      rewrite (imap_ext _ (fun i b => take (Z.to_nat (used f (length l + 1 + i))) (bf_data b)))
        by (intros; cbn; do 3 f_equal; lia). rewrite IH.
      destruct (Hf (length l) b) as (_ & _ & Hd); [by rewrite E; apply list_lookup_middle|].
      rewrite Nat2Z.inj_add. change (Z.of_nat 1) with 1. rewrite boff_succ by lia. unfold used.
      destruct (Z.le_gt_cases (mf_len f - boff (Z.of_nat (length l))) (bsize (Z.of_nat (length l)))).
      + replace (Z.to_nat (mf_len f - (_ + _))) with 0%nat by lia. rewrite take_0, app_nil_r, take_app_le by lia. f_equal. lia.
      + rewrite (take_ge (bf_data b)) by lia.
        replace (Z.to_nat (mf_len f - boff (Z.of_nat (length l)))) with
          (length (bf_data b) + Z.to_nat (mf_len f - (boff (Z.of_nat (length l)) + bsize (Z.of_nat (length l)))))%nat by lia.
        by rewrite take_app_add. }
    specialize (H [] (mf_buffers f) eq_refl). cbn [length] in H. change (boff (Z.of_nat 0)) with 0 in H. rewrite Z.sub_0_r in H. exact H.
  - intros St visitor s. unfold visit.
    assert (forall l r s, mf_buffers f = l ++ r -> visit_from visitor (Z.of_nat (length l)) r f s =
      Some (visit_parts visitor (imap (fun i b => take (Z.to_nat (used f (length l + i))) (bf_data b)) r) s)) as H.
    { intros l r. revert l. induction r as [|b r IH]; intros l s0 E; [done|]. cbn [visit_from imap visit_parts].
      rewrite (buffer_length_spec f (length l) b Hf) by (rewrite E; by apply list_lookup_middle).
      cbn [mbind option_bind]. rewrite Nat.add_0_r. destruct (visitor _ s0) as [[] s1]; [|done].
      assert (mf_buffers f = (l ++ [b]) ++ r) as E' by (by rewrite <-app_assoc). specialize (IH _ s1 E').
      rewrite length_app in IH. cbn [length] in IH. rewrite Nat2Z.inj_add in IH. change (Z.of_nat 1) with 1 in IH. rewrite IH.
      do 2 f_equal. apply imap_ext. intros; cbn. do 3 f_equal. lia. }
    exact (H [] (mf_buffers f) s eq_refl).
Qed.

(** ** The overridden writers and readers *)

(** A writer that stores [bs] in the buffer when it has room for [n >= length bs] bytes, and writes
    them one by one otherwise. *)
Lemma mo_value_spec (n : Z) (bs bs' : list Z) s : mo_ok s -> bs' = bs -> Z.of_nat (length bs) <= n -> 0 < n ->
  let s' := if mo_remain s <? n then out_iter bs s else mo_put bs' s in
  mo_ok s' /\ mo_written s' = mo_written s ++ bs.
Proof.
  intros Hs -> Hn H0. cbv zeta. destruct (Z.ltb_spec (mo_remain s) n); [exact (out_iter_spec bs s Hs)|].
  unfold mo_remain in *. apply mo_put_spec; [done|lia|]. destruct Hs as [_ Hp]. unfold out_position in Hp. destruct (mo_data s); [done|lia].
Qed.

Lemma mo_write_vint_spec v s : mo_ok s -> is_word 32 v ->
  mo_ok (mo_write_vint v s) /\ mo_written (mo_write_vint v s) = mo_written s ++ VInt.vwrite32 v.
Proof.
  intros Hs Hv. pose proof (proj1 (BufferedOutput.vwrite_max_length v) Hv). apply (mo_value_spec 5); [done|done|lia|lia].
Qed.

Lemma mo_write_vlong_spec v s : mo_ok s -> is_word 64 v ->
  mo_ok (mo_write_vlong v s) /\ mo_written (mo_write_vlong v s) = mo_written s ++ VInt.vwrite64 v.
Proof.
  intros Hs Hv. pose proof (proj2 (BufferedOutput.vwrite_max_length v) Hv). apply (mo_value_spec 10); [done|done|lia|lia].
Qed.

Lemma mi_read_spec {A} size slow fast enc (v : A) r s : mi_ok s -> mi_remaining s = enc ++ r -> Z.of_nat (length enc) <= size -> 0 < size ->
  (exists s', slow s = Some (v, s') /\ mi_ok s' /\ mi_remaining s' = r) ->
  (forall r', Forall is_byte r' -> fast (enc ++ r') = Some (v, r')) -> Forall is_byte r ->
  exists s', mi_read size slow fast s = Some (v, s') /\ mi_ok s' /\ mi_remaining s' = r.
Proof.
  intros Hs Hr Hle H0 Hslow Hfast Hb. unfold mi_read. pose proof Hs as [_ Hpos]. unfold in_position in Hpos. unfold mi_remain.
  destruct (mi_buf s) as [i|], (mi_begin s) as [|j o] eqn:Eb, (mi_end s) as [|k e] eqn:Ee; try done; cbn [ptr_distance mbind option_bind].
  2: { destruct (Z.ltb_spec 0 size); [done|lia]. }
  destruct Hpos as (-> & -> & _). destruct (Z.ltb_spec (e - o) size); [done|].
  unfold mi_from_buffer, mi_remain. rewrite Eb, Ee. cbn [ptr_distance mbind option_bind]. rewrite <-Eb.
  destruct (mi_bytes_spec (Z.to_nat (e - o)) s i o e Hs Eb Ee ltac:(lia)) as (-> & Hlen & _). cbn [mbind option_bind].
  rewrite Hr, take_app, (take_ge enc) by lia. rewrite Hfast by by apply Forall_take. cbn [mbind option_bind].
  rewrite Eb. cbn [ptr_add mbind option_bind]. rewrite length_app.
  replace (length enc + length (take (Z.to_nat (e - o) - length enc) r) - length (take (Z.to_nat (e - o) - length enc) r))%nat
    with (length enc) by lia.
  destruct (mi_bytes_spec (length enc) s i o e Hs Eb Ee ltac:(lia)) as (_ & _ & H1 & _ & H2).
  eexists. split; [done|]. split; [exact H1|]. by rewrite H2, Hr, drop_app_length.
Qed.

(** ** Properties *)

(** C18: a memory output keeps its invariant and is a byte sink: every operation appends its bytes to what
    was written before, in the buffers of the file, whatever their memory held; the pointer counts the
    bytes; a flush makes them the contents of the file; truncating to a position in the buffers keeps the
    bytes before it. *)
Theorem memory_output_invariant (big : bool) (s : memory_index_output) (Hs : mo_ok s) :
  (forall b, mo_ok (mo_write_byte b s) /\ mo_written (mo_write_byte b s) = mo_written s ++ [b]) /\
  (forall bs, mo_ok (mo_write_bytes bs s) /\ mo_written (mo_write_bytes bs s) = mo_written s ++ bs) /\
  (forall v, (mo_ok (mo_write_int big v s) /\ mo_written (mo_write_int big v s) = mo_written s ++ Fixed.write32 (wrap 32 v)) /\
     (mo_ok (mo_write_long big v s) /\ mo_written (mo_write_long big v s) = mo_written s ++ Fixed.write64 (wrap 64 v)) /\
     (is_word 32 v -> mo_ok (mo_write_vint v s) /\ mo_written (mo_write_vint v s) = mo_written s ++ VInt.vwrite32 v) /\
     (is_word 64 v -> mo_ok (mo_write_vlong v s) /\ mo_written (mo_write_vlong v s) = mo_written s ++ VInt.vwrite64 v)) /\
  mo_file_pointer s = Z.of_nat (length (mo_written s)) /\
  (mo_ok (mo_flush s) /\ mf_ok (mo_file (mo_flush s)) /\ mf_content (mo_file (mo_flush s)) = mo_written s /\
     fst (mo_CloseImpl s) = Z.of_nat (length (mo_written s))) /\
  (forall pos, 0 <= pos <= mo_file_pointer s -> pos < boff (buffer_count (mo_file s)) -> exists s',
     truncate pos s = Some s' /\ mo_ok s' /\ mo_written s' = take (Z.to_nat pos) (mo_written s)).
Proof.
  pose proof (mo_written_length s Hs) as Hlen. pose proof (mo_pointer_range s Hs) as Hrange.
  split; [intros b; by apply mo_write_byte_spec|]. split; [intros bs; by apply mo_write_bytes_spec|].
  split; [|split; [done|split]].
  - intros v. destruct (BufferedOutput.vwrite_max_length v) as [H32 H64]. split; [|split; [|split; intros Hv]].
    + apply (mo_value_spec 4); [done|apply Fixed.write32_ptr_eq|by rewrite BufferedOutput.length_write32|lia].
    + apply (mo_value_spec 8); [done|apply Fixed.write64_ptr_eq|by rewrite BufferedOutput.length_write64|lia].
    + by apply mo_write_vint_spec.
    + by apply mo_write_vlong_spec.
  - destruct Hs as [Hf Hp]. split; [by split|]. split; [by split|]. split; [|cbn; lia]. unfold mf_content, mo_written. done.
  - intros pos Hpos Hlt. destruct (truncate_spec pos s Hs Hpos Hlt) as (s' & H1 & H2 & _ & H3). by exists s'.
Qed.

Lemma memory_output_invariant_witness :
  mo_ok (mo_write_bytes [1; 2; 3] (out_make (mkFile (fun _ _ => 7) [] 0))) /\
  mo_written (mo_write_bytes [1; 2; 3] (out_make (mkFile (fun _ _ => 7) [] 0))) = [] ++ [1; 2; 3].
Proof.
  assert (mo_ok (out_make (mkFile (fun _ _ => 7) [] 0))) as Hs by (split; [intros i b Hb; discriminate Hb|done]).
  exact (proj1 (proj2 (memory_output_invariant false _ Hs)) [1; 2; 3]).
Defined.

(** C19: a memory input is a cursor in the contents of its file: byte, bulk, buffer and integer reads
    deliver the bytes at the cursor, across the buffers, and a seek to a position before the end moves it
    there. Copying and visiting a file deliver its contents. *)
Theorem memory_input_refines (big : bool) (s : memory_index_input) (Hs : mi_ok s) :
  (forall b r, mi_remaining s = b :: r -> exists s', mi_read_byte s = Some (b, s') /\ mi_ok s' /\ mi_remaining s' = r) /\
  (forall n, exists s', mi_read_bytes n s = Some (take n (mi_remaining s), s') /\ mi_ok s' /\ mi_remaining s' = drop n (mi_remaining s)) /\
  (forall p, 0 <= p < mi_length s -> exists s', mi_seek p s = Some s' /\ mi_ok s' /\ mi_file_pointer s' = p /\
     mi_remaining s' = drop (Z.to_nat p) (mf_content (mi_file s))) /\
  (forall n, exists r, mi_read_buffer (Z.of_nat n) s = Some r /\
     match r with
     | (Some b, s') => b = take n (mi_remaining s) /\ mi_ok s' /\ mi_remaining s' = drop n (mi_remaining s)
     | (None, s') => s' = s
     end) /\
  (forall r, Forall is_byte r ->
     (forall v, is_int 16 v -> mi_remaining s = Fixed.write16 (wrap 16 v) ++ r -> exists s',
        mi_read_short s = Some (v, s') /\ mi_ok s' /\ mi_remaining s' = r) /\
     (forall v, is_int 32 v -> mi_remaining s = Fixed.write32 (wrap 32 v) ++ r -> exists s',
        mi_read_int big s = Some (v, s') /\ mi_ok s' /\ mi_remaining s' = r) /\
     (forall v, is_int 64 v -> mi_remaining s = Fixed.write64 (wrap 64 v) ++ r -> exists s',
        mi_read_long big s = Some (v, s') /\ mi_ok s' /\ mi_remaining s' = r) /\
     (forall v, is_word 32 v -> mi_remaining s = VInt.vwrite32 v ++ r -> exists s',
        mi_read_vint s = Some (v, s') /\ mi_ok s' /\ mi_remaining s' = r) /\
     (forall v, is_word 64 v -> mi_remaining s = VInt.vwrite64 v ++ r -> exists s',
        mi_read_vlong s = Some (v, s') /\ mi_ok s' /\ mi_remaining s' = r)) /\
  (forall O (D : DataOutput O) (DS : DataOutputSpec O) (out : O), out_ok out ->
     out_ok (copy_to (mi_file s) out) /\ written (copy_to (mi_file s) out) = written out ++ mf_content (mi_file s)) /\
  (exists parts, concat parts = mf_content (mi_file s) /\
     forall St (visitor : list Z -> St -> bool * St) st, visit visitor (mi_file s) st = Some (visit_parts visitor parts st)).
Proof.
  assert (forall r' bs, Forall is_byte r' -> Forall is_byte bs -> Forall is_byte (bs ++ r')) as Happ by (intros; by apply Forall_app).
  split; [intros b r Hr; destruct (mi_read_byte_spec s b r Hs Hr) as (s' & ? & ? & ? & _); by exists s'|].
  split; [intros n; destruct (mi_read_bytes_spec n s Hs) as (s' & ? & ? & ? & _); by exists s'|].
  split; [|split; [|split; [|split]]].
  - intros p Hp. unfold mi_seek. destruct (Z.leb_spec (mi_length s) p); [lia|].
    destruct (mi_switch_spec p s Hs Hp) as (s' & i & o & e & -> & H1 & H2 & H3 & _). exists s'.
    split; [done|]. split; [done|]. split; [done|]. unfold mi_remaining. by rewrite H2, H3.
  - intros n. destruct (mi_read_buffer_spec n s Hs) as ([[b|] s'] & E & H); eexists; (split; [exact E|]); cbn in *; tauto.
  - intros r Hr. pose proof (read_short_spec (S := memory_index_input)) as Hshort. pose proof (read_int_spec (S := memory_index_input)) as Hint.
    pose proof (read_long_spec (S := memory_index_input)) as Hlong. pose proof (read_vint_spec (S := memory_index_input)) as Hvint.
    pose proof (read_vlong_spec (S := memory_index_input)) as Hvlong. cbn in *.
    split; [|split; [|split; [|split]]]; intros v Hv Hrem.
    + apply (mi_read_spec 2 _ _ (Fixed.write16 (wrap 16 v)) v r); [done..|cbn; lia|lia|by apply Hshort| |done].
      intros r' _. assert (Fixed.read16_ptr (Fixed.write16 (wrap 16 v) ++ r') = Some (wrap 16 v, r')) as ->
        by (apply Fixed.read16_write16, wrap_range; lia).
      cbn [mbind option_bind]. by rewrite to_signed_wrap by (done || lia).
    + apply (mi_read_spec 4 _ _ (Fixed.write32 (wrap 32 v)) v r); [done..|cbn; lia|lia|by apply Hint| |done].
      intros r' Hr'. rewrite Fixed.read32_ptr_eq by (apply Happ; [done|]; repeat constructor; by apply wrap_range).
      rewrite Fixed.read32_write32 by (apply wrap_range; lia). cbn [mbind option_bind]. by rewrite to_signed_wrap by (done || lia).
    + apply (mi_read_spec 8 _ _ (Fixed.write64 (wrap 64 v)) v r); [done..|cbn; lia|lia|by apply Hlong| |done].
      intros r' Hr'. rewrite Fixed.read64_ptr_eq by (apply Happ; [done|]; repeat constructor; by apply wrap_range).
      rewrite Fixed.read64_write64 by (apply wrap_range; lia). cbn [mbind option_bind]. by rewrite to_signed_wrap by (done || lia).
    + pose proof (proj1 (BufferedOutput.vwrite_max_length v) Hv).
      apply (mi_read_spec 5 _ _ (VInt.vwrite32 v) v r); [done..|lia|lia|by apply Hvint| |done].
      intros r' _. by apply VInt.vwrite32_spec.
    + pose proof (proj2 (BufferedOutput.vwrite_max_length v) Hv).
      apply (mi_read_spec 10 _ _ (VInt.vwrite64 v) v r); [done..|lia|lia|by apply Hvlong| |done].
      intros r' _. by apply VInt.vwrite64_spec.
  - intros O D DS out Ho. by apply copy_to_spec; [apply Hs|].
  - apply visit_spec, Hs.
Qed.

(** The file of three bytes in its first buffer. *)
Definition small_file : memory_file := mo_file (mo_flush (mo_write_bytes [1; 2; 3] (out_make (mkFile (fun _ _ => 7) [] 0)))).

Lemma memory_input_refines_witness : exists s',
  mi_read_bytes 5 (mi_make small_file) = Some (take 5 (mi_remaining (mi_make small_file)), s') /\
  mi_ok s' /\ mi_remaining s' = drop 5 (mi_remaining (mi_make small_file)).
Proof.
  assert (mf_ok small_file) as Hf.
  { split; [|vm_compute; split; discriminate]. intros [|i] b Hb; vm_compute in Hb; [|discriminate Hb].
    injection Hb as <-. split; [reflexivity|]. split; reflexivity. }
  assert (mi_ok (mi_make small_file)) as Hs by (split; [done|]; vm_compute; split; discriminate).
  exact (proj1 (proj2 (memory_input_refines false _ Hs)) 5%nat).
Defined.

(** C36: the boundaries that the code misses. [truncate] to the end of the buffers accesses a buffer that does not exist, whatever the file: at 0 in an
    empty one, at 256 behind the first 256 bytes, and so on. A seek to the end or beyond leaves the end of the buffer behind: an
    input that had a buffer says that it is at its end, and then reads from a null pointer, whatever it reads, where one that had none reads nothing. *)
Theorem memory_file_boundaries :
  (forall o, truncate (boff (buffer_count (mo_file o))) o = None) /\
  (forall s pos i e, mi_length s <= pos -> mi_end s = in_buffer i e -> exists s', mi_seek pos s = Some s' /\ mi_eof s' = true /\
     mi_read_byte s' = None /\ mi_read_short s' = None /\ forall n, (0 < n)%nat -> mi_read_bytes n s' = None) /\
  (forall s pos, mi_length s <= pos -> mi_end s = nullptr -> exists s', mi_seek pos s = Some s' /\ mi_eof s' = true /\
     forall n, mi_read_bytes n s' = Some ([], s')).
Proof.
  split; [|split].
  - intros o. unfold truncate, enter_buffer. pose proof (bsize_pos (buffer_count (mo_file o)) ltac:(unfold buffer_count; lia)) as Hpos.
    rewrite (buffer_offset_spec _ (buffer_count (mo_file o))) by (unfold buffer_count in *; lia). unfold buffer_count. by rewrite Nat2Z.id, lookup_ge_None_2.
  - intros s pos i e Hpos He. unfold mi_seek. destruct (Z.leb_spec (mi_length s) pos); [|lia]. eexists. split; [done|].
    split; [apply Z.leb_le; unfold mi_file_pointer, mi_length; cbn; lia|]. unfold mi_read_byte, mi_read_short, mi_read, mi_read_bytes, mi_remain.
    cbn [mi_begin mi_end mi_file]. rewrite He. split; [done|]. split; [done|]. intros [|n] Hn; [lia|]. done.
  - intros s pos Hpos He. unfold mi_seek. destruct (Z.leb_spec (mi_length s) pos); [|lia]. eexists. split; [done|]. split; [apply Z.leb_le; unfold mi_file_pointer, mi_length; cbn; lia|].
    intros [|n]; [done|]. unfold mi_read_bytes. cbn [mi_read_loop]. unfold mi_eof, mi_file_pointer, mi_length. cbn [mi_begin mi_end mi_file mi_buf mi_start].
    rewrite He. cbn [ptr_ge andb]. destruct (Z.eqb_spec (Z.of_nat (S n)) 0); [lia|]. by rewrite Z.add_0_r, Z.leb_refl.
Qed.

(** [memory_file_boundaries] for a file of 256 bytes that is truncated to its end, and for a file that is sought to its end after a byte was read. *)
Lemma memory_file_boundaries_witness :
  truncate 256 (mo_write_bytes (replicate 256 1) (out_make (mkFile (fun _ _ => 7) [] 0))) = None /\
  exists s s', mi_read_byte (mi_make small_file) = Some (1, s) /\ mi_seek 3 s = Some s' /\ mi_eof s' = true /\ mi_read_bytes 1 s' = None.
Proof.
  destruct memory_file_boundaries as (Ht & Hs & _). split.
  - exact (Ht (mo_write_bytes (replicate 256 1) (out_make (mkFile (fun _ _ => 7) [] 0)))).
  - assert (mi_length (mkIn small_file (Some 0%nat) (in_buffer 0 1) (in_buffer 0 3) 0) <= 3) as Hl by (vm_compute; discriminate).
    destruct (Hs _ 3 0%nat 3 Hl eq_refl) as (s' & E & He & _ & _ & Hn). eexists _, s'. split; [vm_compute; reflexivity|].
    split; [exact E|]. split; [exact He|]. by apply Hn, Nat.lt_0_1.
Defined.
