(* ===== verification/StoreUtils.v ===== *)
(** The value formats of [core/store/store_utils.hpp] and [store_utils.cpp] over the stream interfaces:
    enums and sizes, zig-zag integers, floats, strings, packed flags, delta coding; the byte-array
    output [bytes_output] and the inputs [bytes_view_input] (Module [BytesView]) and
    [remapped_bytes_view_input] (Module [Remapped]). *)
From S2P Require Import Prelude BitUtils BytesIO NumericUtils Streams FileStreams.
Import Fixed.

(** ** Writers and readers *)
Section writers.
Context {S : Type} `{DataOutput S}.

(** [detail::read_write_helper<T, N>::write], by the size of [T] in bytes *)
Definition rw_write (size : nat) (v : Z) (out : S) : S :=
  match size with
  | 1%nat => write_byte v out
  | 2%nat => write_short v out
  | 4%nat => write_vint v out
  | _ => write_vlong v out
  end.
Definition write_enum (size : nat) (v : Z) (out : S) : S := rw_write size v out.
Definition write_size (v : Z) (out : S) : S := rw_write 8 v out.
Definition write_zvint (v : Z) (out : S) : S := write_vint (Bit.zig_zag_encode32 v) out.
Definition write_zvlong (v : Z) (out : S) : S := write_vlong (Bit.zig_zag_encode64 v) out.
Definition write_string (s : list Z) (out : S) : S :=
  write_bytes s (write_vint (wrap 32 (Z.of_nat (length s))) out).

(** [v] is the bit pattern of the float. *)
Definition write_zvfloat (v : Z) (out : S) : S :=
  let iv := ftoi32 v in
  if (-1 <=? iv) && (iv <=? 125) then write_byte (to_byte (Z.lor 0x80 (1 + iv))) out
  else if negb (float_sign 32 v) then write_int iv out
  else write_int iv (write_byte 0xFF out).

(** [write_bytes(out, value, size)] over the memory of the values; the number of bytes *)
Definition write_raw (bs : list Z) (out : S) : nat * S := (length bs, out_iter bs out).
Definition vwrite_string (value : list Z) (out : S) : S :=
  out_iter value (write_vlong (Z.of_nat (length value)) out).
End writers.

(** Conversion of a [uint32_t] to [float], rounding to nearest, ties to even: the bit pattern. *)
Definition float_of_uint32 (n : Z) : Z :=
  if n =? 0 then 0
  else
    let e := Z.log2 n in
    if e <=? 23 then (e + 127) * 2 ^ 23 + (n * 2 ^ (23 - e) - 2 ^ 23)
    else
      let sh := e - 23 in
      let q := n / 2 ^ sh in
      let rem := n mod 2 ^ sh in
      let half := 2 ^ (sh - 1) in
      let q := if (half <? rem) || ((rem =? half) && Z.odd q) then q + 1 else q in
      (e + 127) * 2 ^ 23 + (q - 2 ^ 23).

Section readers.
Context {S : Type} `{DataInput S}.

Definition rw_read (size : nat) (i : S) : option (Z * S) :=
  match size with
  | 1%nat => read_byte i
  | 2%nat => '(v, i) ← read_short i; Some (wrap 16 v, i)
  | 4%nat => read_vint i
  | _ => read_vlong i
  end.
Definition read_enum (size : nat) (i : S) : option (Z * S) := rw_read size i.
Definition read_size (i : S) : option (Z * S) := rw_read 8 i.
Definition read_zvint (i : S) : option (Z * S) := '(v, i) ← read_vint i; Some (Bit.zig_zag_decode32 v, i).
Definition read_zvlong (i : S) : option (Z * S) := '(v, i) ← read_vlong i; Some (Bit.zig_zag_decode64 v, i).

(** The string is made of [len] zeros before its bytes are read into it. *)
Definition read_string (i : S) : option (list Z * S) :=
  '(len, i) ← read_vint i;
  let '(bs, i) := read_bytes (Z.to_nat len) i in
  Some (bs ++ replicate (Z.to_nat len - length bs) 0, i).

Definition read_zvfloat (i : S) : option (Z * S) :=
  '(b, i) ← read_byte i;
  if 0xFF =? b then
    '(iv, i) ← read_int i; Some (i32tof iv, i)
  else if negb (Z.land b 0x80 =? 0) then
    Some (float_of_uint32 (Z.land b 0x7F -[32] 1), i)
  else
    '(s, i) ← read_short i;
    let part := wrap 16 s <<[32] 8 in
    '(b0, i) ← read_byte i;
    Some (i32tof (to_signed 32 (Z.lor (Z.lor (b <<[32] 24) part) b0)), i).
End readers.

(** [to_string(begin)] and [vread_string(in)] over memory *)
Definition to_string (begin : list Z) : option (list Z) :=
  '(size, rest) ← VInt.vread32 begin; Some (take (Z.to_nat size) rest).
Definition vread_string (i : list Z) : option (list Z * list Z) :=
  '(size, rest) ← VInt.vread64 i; Some (take (Z.to_nat size) rest, drop (Z.to_nat size) rest).

(** [shift_pack_64]/[shift_pack_32] and their inverses *)
Definition shift_pack (w val : Z) (b : bool) : Z := Z.lor (val <<[w] 1) (Z.b2z b).
Definition shift_pack_64 := shift_pack 64.
Definition shift_pack_32 := shift_pack 32.
Definition shift_unpack (i : Z) : bool * Z := (negb (Z.land i 1 =? 0), Z.shiftr i 1).
Definition shift_unpack_64 := shift_unpack.
Definition shift_unpack_32 := shift_unpack.

(** [encode::delta]: [std::transform] in place, on unsigned values of width [w] *)
Fixpoint delta_decode_from (w prev : Z) (l : list Z) : list Z :=
  match l with
  | [] => []
  | x :: l => let y := x +[w] prev in y :: delta_decode_from w y l
  end.
Definition delta_decode (w : Z) (l : list Z) : list Z :=
  match l with [] => [] | x :: l => x :: delta_decode_from w x l end.
(** From the end, each element has its predecessor subtracted. *)
Fixpoint delta_encode_from (w prev : Z) (l : list Z) : list Z :=
  match l with [] => [] | x :: l => (x -[w] prev) :: delta_encode_from w x l end.
Definition delta_encode (w : Z) (l : list Z) : list Z :=
  match l with [] => [] | x :: l => x :: delta_encode_from w x l end.

(** ** [bytes_output] *)
#[global] Instance bytes_output : DataOutput (list Z) := {
  write_byte := fun b buf => buf ++ [b]; write_bytes := fun b buf => buf ++ b
}.
#[global] Instance bytes_output_spec : DataOutputSpec (list Z).
Proof.
  refine {| out_ok := fun _ => True; written := fun buf => buf |}; intros; by split.
Defined.

(** ** [bytes_view_input] *)
Module BytesView.

Record t := Make { data_ : list Z; pos_ : nat }.

Definition skip (size : nat) (s : t) : t := Make (data_ s) (pos_ s + size).
Definition seek (pos : nat) (s : t) : t := Make (data_ s) pos.
Definition file_pointer (s : t) : nat := pos_ s.
Definition view_length (s : t) : nat := length (data_ s).
Definition eof (s : t) : bool := bool_decide (length (data_ s) <= pos_ s)%nat.
Definition read_byte (s : t) : option (Z * t) :=
  match data_ s !! pos_ s with Some b => Some (b, Make (data_ s) (S (pos_ s))) | None => None end.

(** [read_buffer(offset, size, hint)] and [read_buffer(size, hint)] *)
Definition read_buffer_at (offset size : nat) (s : t) : option (list Z) * t :=
  if decide (offset + size <= length (data_ s))%nat
  then (Some (take size (drop offset (data_ s))), Make (data_ s) (offset + size))
  else (None, s).
Definition read_buffer (size : nat) (s : t) : option (list Z) * t :=
  if decide (pos_ s + size <= length (data_ s))%nat
  then (Some (take size (drop (pos_ s) (data_ s))), Make (data_ s) (pos_ s + size))
  else (None, s).

Definition read_bytes (size : nat) (s : t) : list Z * t :=
  let size := Nat.min size (length (data_ s) - pos_ s) in
  (take size (drop (pos_ s) (data_ s)), Make (data_ s) (pos_ s + size)).
Definition read_bytes_at (offset size : nat) (s : t) : list Z * t :=
  if decide (offset < length (data_ s))%nat then
    let size := Nat.min size (length (data_ s) - offset) in
    (take size (drop offset (data_ s)), Make (data_ s) (offset + size))
  else ([], Make (data_ s) (length (data_ s))).
(** [read_bytes(buf, size)]: appends to [buf] *)
Definition read_bytes_append (buf : list Z) (size : nat) (s : t) : list Z * t :=
  let '(bs, s) := read_bytes size s in
  (buf ++ bs ++ replicate (size - length bs) 0, s).
Definition reset (data : list Z) : t := Make data 0.

#[global] Instance data_input : DataInput t := { read_byte := read_byte; read_bytes := read_bytes }.

Definition inv (s : t) : Prop := (pos_ s <= length (data_ s))%nat.
Definition remaining (s : t) : list Z := drop (pos_ s) (data_ s).

Lemma view_read_byte s b r : inv s -> remaining s = b :: r ->
  exists s', read_byte s = Some (b, s') /\ inv s' /\ remaining s' = r.
Proof.
  unfold inv, remaining, read_byte. intros Hs Hr.
  assert (data_ s !! pos_ s = Some b) as E.
  { rewrite <-(Nat.add_0_r (pos_ s)), <-lookup_drop, Hr. done. }
  rewrite E. eexists. split; [done|]. simpl. apply lookup_lt_Some in E. split; [lia|].
  rewrite <-Nat.add_1_r, <-drop_drop, Hr. done.
Qed.

Lemma view_read_bytes n s : inv s ->
  fst (read_bytes n s) = take n (remaining s) /\ inv (snd (read_bytes n s)) /\
  remaining (snd (read_bytes n s)) = drop n (remaining s).
Proof.
  unfold inv, remaining, read_bytes. intros Hs. cbv zeta. simpl. rewrite drop_drop.
  split; [|split; [lia|]].
  - destruct (decide (n <= length (data_ s) - pos_ s)%nat); [f_equal; lia|].
    rewrite !take_ge by (rewrite length_drop; lia). done.
  - destruct (decide (n <= length (data_ s) - pos_ s)%nat); [f_equal; lia|].
    rewrite !drop_ge by lia. done.
Qed.

#[global] Instance data_input_spec : DataInputSpec t := {
  in_ok := inv; remaining := remaining; read_byte_spec := view_read_byte; read_bytes_spec := view_read_bytes
}.

#[global] Instance index_input : IndexInput t := {
  file_pointer := file_pointer; seek := seek; read_buffer := read_buffer
}.
#[global] Instance index_input_spec : IndexInputSpec t.
Proof.
  split; cbn; unfold inv, remaining, seek, file_pointer, read_buffer; cbn; intros n s Hs Hn;
    rewrite length_drop in Hn; rewrite ?drop_drop.
  - split; [lia|done].
  - rewrite decide_True by lia. cbn. split; [done|]. split; [lia|done].
Qed.

#[global] Instance seek_end_input : SeekEndSpec t.
Proof.
  intros s Hs. cbn in *. unfold inv, remaining, seek, file_pointer in *. cbn. rewrite length_drop.
  split; [lia|]. apply drop_ge. lia.
Qed.

(** The view is a file that is always read in place. *)
#[global] Instance file_input : FileInput t := read_buffer.
#[global] Instance file_input_spec : FileInputSpec t.
Proof.
  refine {| contents := data_ |}; cbn; unfold inv, remaining, file_pointer, seek.
  - done.
  - intros s b r s' Hs Hp Hr. unfold read_byte. destruct (_ !! _) eqn:E; [|done]. intros [= <- <-].
    apply lookup_lt_Some in E. cbn. split; [done|lia].
  - intros n s Hs Hn. cbn. split; [done|lia].
  - intros n s Hs Hn. unfold read_buffer. rewrite decide_True by done. cbn. split; [done|lia].
  - intros p s Hs Hp. split; [cbn; lia|done].
  - intros n s Hs Hn. unfold read_persistent, file_input, read_buffer. rewrite decide_True by done. cbn. rewrite drop_drop. split; [done|]. split; [lia|done].
Defined.

Lemma view_direct f n p (s : t) : at_ f p s -> (p + n <= length f)%nat -> is_Some (Streams.read_buffer n s).1.
Proof. intros (_ & <- & <- & _) Hn. cbn in *. unfold read_buffer. rewrite decide_True by done. by eexists. Qed.

End BytesView.

(** [length], [reopen] and [dup] of [bytes_view_input]: copies *)
Definition view_inputs : input_operations BytesView.t := mkInputOps BytesView.view_length Some Some.

Lemma view_at (f : list Z) (q : nat) : (q <= length f)%nat -> at_ f q (BytesView.Make f q).
Proof. intros Hq. split; [exact Hq|]. split; [done|]. by split. Qed.

Lemma view_laws f : input_laws f view_inputs.
Proof. split; intros s q Hs; [|by exists s..]. destruct Hs as (_ & E & _). cbn in *. by rewrite <-E. Qed.


(** ** [remapped_bytes_view_input] *)
Module Remapped.

Record t := Make { view : BytesView.t; mapping_ : list (nat * nat) }.

(** [std::lower_bound] on the first components: the number of leading pairs below [t] *)
Fixpoint lower_bound (m : list (nat * nat)) (t : nat) : nat :=
  match m with
  | [] => 0
  | (a, _) :: m => if decide (a < t)%nat then S (lower_bound m t) else 0%nat
  end.

(** [None]: the decrement of [mapping_.begin()], undefined in the code *)
Definition src_to_internal (m : list (nat * nat)) (t : nat) : option nat :=
  let i := lower_bound m t in
  let back := match i with O => None | S i => m !! i end in
  it ← match m !! i with
       | None => back
       | Some (a, b) => if decide (t < a)%nat then back else Some (a, b)
       end;
  Some (snd it + (t - fst it))%nat.

(** One iteration of the loop of [file_pointer]: the best pair so far and its distance. *)
Definition closest (addr : nat) (acc : option nat * (nat * nat)) (m : nat * nat) : option nat * (nat * nat) :=
  if decide (snd m < addr)%nat then
    let d := (addr - snd m)%nat in
    match fst acc with
    | Some diff => if decide (d < diff)%nat then (Some d, m) else acc
    | None => (Some d, m)
    end
  else acc.

(** [None] for [diff] is [numeric_limits<size_t>::max()]. *)
Definition file_pointer (s : t) : nat :=
  let addr := BytesView.file_pointer (view s) in
  match mapping_ s with
  | [] => 0
  | front :: _ =>
      let '(diff, src) := foldl (closest addr) (None, front) (mapping_ s) in
      match diff with
      | None => 0
      | Some _ => fst src + (addr - snd src)
      end
  end%nat.

Definition seek (pos : nat) (s : t) : option t :=
  p ← src_to_internal (mapping_ s) pos; Some (Make (BytesView.seek p (view s)) (mapping_ s)).
Definition read_buffer_at (offset size : nat) (s : t) : option (option (list Z) * t) :=
  p ← src_to_internal (mapping_ s) offset;
  let '(b, v) := BytesView.read_buffer_at p size (view s) in Some (b, Make v (mapping_ s)).
Definition read_bytes_at (offset size : nat) (s : t) : option (list Z * t) :=
  p ← src_to_internal (mapping_ s) offset;
  let '(b, v) := BytesView.read_bytes_at p size (view s) in Some (b, Make v (mapping_ s)).

(** The constructor's sort, by the first component. *)
Definition by_first (x y : nat * nat) : Prop := (fst x <= fst y)%nat.
#[local] Instance by_first_dec x y : Decision (by_first x y).
Proof. unfold by_first. apply _. Defined.
Definition construct (data : list Z) (mapping : list (nat * nat)) : t :=
  Make (BytesView.reset data) (merge_sort by_first mapping).






End Remapped.

(** ** Lemmas *)

Lemma write_vint_spec {S} `{DataOutputSpec S} v s : out_ok s ->
  out_ok (write_vint v s) /\ written (write_vint v s) = written s ++ VInt.vwrite32 v.
Proof. apply out_iter_spec. Qed.

Lemma shift_pack_word w val b : 1 <= w -> is_word (w - 1) val -> is_word w (shift_pack w val b) /\
  shift_pack w val b = 2 * val + Z.b2z b.
Proof.
  intros Hw Hv. unfold is_word in *.
  assert (2 ^ w = 2 * 2 ^ (w - 1)) as E by (rewrite <-Z.pow_succ_r by lia; f_equal; lia).
  assert (shift_pack w val b = 2 * val + Z.b2z b) as ->.
  { unfold shift_pack. rewrite wrap_small by (rewrite Z.shiftl_mul_pow2 by lia; unfold is_word; lia).
    rewrite Z.lor_comm, lor_low_high by (lia || destruct b; unfold is_word; simpl; lia). lia. }
  destruct b; simpl; lia.
Qed.

Lemma shift_unpack_pack w val b : 1 <= w -> is_word (w - 1) val -> shift_unpack (shift_pack w val b) = (b, val).
Proof.
  intros Hw Hv. destruct (shift_pack_word w val b Hw Hv) as (_ & ->). unfold shift_unpack, is_word in *.
  change 1 with (Z.ones 1) at 1. rewrite Z.land_ones, Z.shiftr_div_pow2 by lia. change (2 ^ 1) with 2.
  rewrite (Z.add_comm (2 * val)), (Z.mul_comm 2), Z_mod_plus_full, Z.div_add by lia.
  by destruct b.
Qed.

Lemma delta_from w prev l : 0 <= w -> Forall (is_word w) l ->
  delta_decode_from w prev (delta_encode_from w prev l) = l.
Proof.
  intros Hw Hl. revert prev. induction Hl as [|x l Hx Hl IH]; intros prev; simpl; [done|].
  rewrite wrap_add_l. replace (x - prev + prev) with x by lia. rewrite wrap_small by done.
  by rewrite IH.
Qed.

(** The value a written float is read back as. *)
Definition zvfloat_result (v : Z) : Z :=
  let iv := ftoi32 v in
  if (-1 <=? iv) && (iv <=? 125) then float_of_uint32 (wrap 32 iv) else v.

Lemma ftoi32_int v : is_int 32 (ftoi32 v).
Proof. unfold ftoi32, ftoi. apply make_sortable_int; [lia|]. by apply to_signed_range. Qed.

Lemma i32tof_ftoi32 v : is_word 32 v -> i32tof (ftoi32 v) = v.
Proof. intros. by apply itof_ftoi. Qed.

(** The positive branch of [read_zvfloat] reassembles the four bytes of an integer. *)
Lemma zvfloat_positive_parts b0 b1 b2 b3 : Forall is_byte [b0; b1; b2; b3] ->
  Z.lor (Z.lor (b3 <<[32] 24) (wrap 16 (to_signed 16 (le_value [b1; b2])) <<[32] 8)) b0
  = le_value [b0; b1; b2; b3].
Proof.
  intros H. pose proof (le_value_range [b1; b2]) as Hr. repeat rewrite Forall_cons in *.
  destruct H as (H0 & H1 & H2 & H3 & _). specialize (Hr ltac:(auto)). simpl in Hr.
  rewrite wrap_to_signed by lia. rewrite (wrap_small 16) by done.
  rewrite Fixed.shiftl_byte by (done || lia).
  rewrite wrap_small.
  - cbn [le_value]. rewrite !Z.shiftl_0_l, !Z.lor_0_r, !Z.shiftl_lor, !Z.shiftl_shiftl by lia. lor_ac.
  - unfold is_word in *. rewrite Z.shiftl_mul_pow2 by lia. cbn [le_value] in *. lia.
Qed.

(** The bytes of a written float do not depend on the output. *)
Definition zvfloat_bytes (v : Z) : list Z := write_zvfloat v ([] : list Z).

Lemma out_iter_list bs (l : list Z) : out_iter bs l = l ++ bs.
Proof. exact (proj2 (out_iter_spec bs l I)). Qed.

Lemma zvfloat_bytes_eq v : zvfloat_bytes v =
  let iv := ftoi32 v in
  if (-1 <=? iv) && (iv <=? 125) then [to_byte (Z.lor 0x80 (1 + iv))]
  else if negb (float_sign 32 v) then Fixed.write32 (wrap 32 iv)
  else 0xFF :: Fixed.write32 (wrap 32 iv).
Proof.
  unfold zvfloat_bytes, write_zvfloat. cbv zeta.
  destruct ((-1 <=? ftoi32 v) && (ftoi32 v <=? 125)); [done|].
  destruct (negb (float_sign 32 v)); unfold write_int; by rewrite out_iter_list.
Qed.

Lemma write_zvfloat_spec {S} `{DataOutputSpec S} v (s : S) : out_ok s ->
  out_ok (write_zvfloat v s) /\ written (write_zvfloat v s) = written s ++ zvfloat_bytes v.
Proof.
  intros Hs. rewrite zvfloat_bytes_eq. unfold write_zvfloat. cbv zeta.
  destruct ((-1 <=? ftoi32 v) && (ftoi32 v <=? 125)); [by apply write_byte_spec|].
  destruct (negb (float_sign 32 v)); [by apply out_iter_spec|].
  destruct (write_byte_spec 0xFF s Hs) as (H1 & H2).
  destruct (out_iter_spec (Fixed.write32 (wrap 32 (ftoi32 v))) _ H1) as (H3 & H4).
  split; [done|]. unfold write_int. by rewrite H4, H2, <-app_assoc.
Qed.

Lemma read_short_bytes {S} `{DataInputSpec S} b0 b1 r (s : S) : in_ok s -> Forall is_byte [b0; b1] ->
  remaining s = b0 :: b1 :: r ->
  exists s', read_short s = Some (to_signed 16 (le_value [b1; b0]), s') /\ in_ok s' /\ remaining s' = r.
Proof.
  intros Hs Hb Hr. pose proof (Fixed.read16_reads s) as Hsim.
  destruct (Hsim Hs (le_value [b1; b0]) r) as (s' & E & H').
  { simpl ahead. rewrite Hr. by apply read16_le. }
  exists s'. unfold read_short. by rewrite E.
Qed.

Lemma read_zvfloat_small {S} `{DataInputSpec S} v r (s : S) : in_ok s ->
  -1 <= ftoi32 v <= 125 -> remaining s = zvfloat_bytes v ++ r ->
  exists s', read_zvfloat s = Some (zvfloat_result v, s') /\ in_ok s' /\ remaining s' = r.
Proof.
  intros Hs Hiv Hr. rewrite zvfloat_bytes_eq in Hr. unfold zvfloat_result, read_zvfloat. cbv zeta in *.
  rewrite (proj2 (andb_true_iff _ _)) in Hr |- * by (split; apply Z.leb_le; lia).
  destruct (read_byte_spec _ _ _ Hs Hr) as (s' & -> & H'). exists s'. split; [|done]. cbn [mbind option_bind].
  clear Hr. remember (ftoi32 v) as iv eqn:Eiv. clear Eiv.
  assert (exists n, (n < 127)%nat /\ iv = Z.of_nat n - 1) as (n & Hn & ->).
  { exists (Z.to_nat (iv + 1)). lia. }
  assert (forall m, (m < 127)%nat ->
    (0xFF =? to_byte (Z.lor 0x80 (1 + (Z.of_nat m - 1)))) = false /\
    (Z.land (to_byte (Z.lor 0x80 (1 + (Z.of_nat m - 1)))) 0x80 =? 0) = false /\
    Z.land (to_byte (Z.lor 0x80 (1 + (Z.of_nat m - 1)))) 0x7F = Z.of_nat m) as Htab.
  { intros m Hm. assert (forallb (fun m =>
      negb (0xFF =? to_byte (Z.lor 0x80 (1 + (Z.of_nat m - 1)))) &&
      negb (Z.land (to_byte (Z.lor 0x80 (1 + (Z.of_nat m - 1)))) 0x80 =? 0) &&
      (Z.land (to_byte (Z.lor 0x80 (1 + (Z.of_nat m - 1)))) 0x7F =? Z.of_nat m)) (seq 0 127) = true) as Hall
      by (vm_compute; reflexivity).
    rewrite forallb_forall in Hall. specialize (Hall m ltac:(apply in_seq; lia)).
    apply andb_prop in Hall as [Hall H3]. apply andb_prop in Hall as [H1 H2].
    apply negb_true_iff in H1, H2. apply Z.eqb_eq in H3. auto. }
  destruct (Htab n Hn) as (-> & -> & ->). done.
Qed.

Lemma read_zvfloat_negative {S} `{DataInputSpec S} v r (s : S) : in_ok s -> is_word 32 v ->
  remaining s = 0xFF :: Fixed.write32 (wrap 32 (ftoi32 v)) ++ r ->
  exists s', read_zvfloat s = Some (v, s') /\ in_ok s' /\ remaining s' = r.
Proof.
  intros Hs Hv Hr. destruct (read_byte_spec _ _ _ Hs Hr) as (s1 & E1 & Hs1 & Hr1).
  destruct (read_int_spec _ _ _ Hs1 (ftoi32_int v) Hr1) as (s2 & E2 & H2).
  exists s2. split; [|done]. unfold read_zvfloat. rewrite E1. cbn [mbind option_bind].
  rewrite Z.eqb_refl, E2. cbn [mbind option_bind].
  by rewrite i32tof_ftoi32.
Qed.

Lemma read_zvfloat_positive {S} `{DataInputSpec S} v r (s : S) : in_ok s -> is_word 32 v ->
  0 <= ftoi32 v -> remaining s = Fixed.write32 (wrap 32 (ftoi32 v)) ++ r ->
  exists s', read_zvfloat s = Some (v, s') /\ in_ok s' /\ remaining s' = r.
Proof.
  intros Hs Hv Hpos Hr. pose proof (ftoi32_int v) as Hi. unfold is_int in Hi. set (iv := ftoi32 v) in *.
  rewrite wrap_small in Hr by (unfold is_word; lia). unfold Fixed.write32 in Hr. cbn [app] in Hr.
  set (b3 := to_byte (Z.shiftr iv 24)) in *. set (b2 := to_byte (Z.shiftr iv 16)) in *.
  set (b1 := to_byte (Z.shiftr iv 8)) in *. set (b0 := to_byte iv) in *.
  assert (Forall is_byte [b0; b1; b2; b3]) as Hb by (repeat constructor; by apply wrap_range).
  assert (b3 < 128) as Hb3.
  { unfold b3, to_byte. rewrite Z.shiftr_div_pow2 by lia. rewrite wrap_small.
    - apply Z.div_lt_upper_bound; lia.
    - split; [apply Z.div_pos; lia|]. apply Z.div_lt_upper_bound; lia. }
  assert (le_value [b0; b1; b2; b3] = iv) as Hval.
  { replace [b0; b1; b2; b3] with (le_bytes 4 iv).
    - rewrite le_value_bytes. apply wrap_small. unfold is_word. simpl. lia.
    - unfold b0, b1, b2, b3. cbn [le_bytes]. by rewrite !Z.shiftr_shiftr by lia. }
  pose proof Hb as Hb'. repeat rewrite Forall_cons in Hb'. destruct Hb' as (H0' & H1' & H2' & H3' & _).
  destruct (read_byte_spec _ _ _ Hs Hr) as (s1 & E1 & Hs1 & Hr1).
  destruct (read_short_bytes b2 b1 _ s1 Hs1 ltac:(auto) Hr1) as (s2 & E2 & Hs2 & Hr2).
  destruct (read_byte_spec _ _ _ Hs2 Hr2) as (s3 & E3 & H3). exists s3. split; [|done].
  unfold read_zvfloat. rewrite E1. cbn [mbind option_bind]. destruct (Z.eqb_spec 255 b3); [lia|].
  rewrite VInt.land_128 by done. destruct (Z.ltb_spec b3 128); [|lia]. cbn [negb].
  rewrite E2. cbn [mbind option_bind]. rewrite E3. cbn [mbind option_bind].
  rewrite zvfloat_positive_parts by done. rewrite Hval. do 2 f_equal.
  assert (to_signed 32 iv = iv) as ->; [|by apply i32tof_ftoi32].
  unfold to_signed. rewrite wrap_small by (unfold is_word; lia).
  destruct (Z.ltb_spec iv (2 ^ (32 - 1))); [done|lia].
Qed.

(** A number is written with its small form only when it is [-0], [+0] or one of the 125 least
    positive denormals; of these only [+0] is read back unchanged. *)
Lemma zvfloat_result_exact v : is_word 32 v ->
  zvfloat_result v = v <-> ~ (ftoi32 v = -1 \/ 1 <= ftoi32 v <= 125).
Proof.
  intros Hv. unfold zvfloat_result. cbv zeta. set (iv := ftoi32 v).
  assert (i32tof iv = v) as Hinv by by apply i32tof_ftoi32. rewrite <-Hinv at 2.
  destruct (Z.leb_spec (-1) iv); destruct (Z.leb_spec iv 125); simpl; try (split; [lia|done]).
  assert (exists n, (n < 127)%nat /\ iv = Z.of_nat n - 1) as (n & Hn & ->).
  { exists (Z.to_nat (iv + 1)). lia. }
  assert (forallb (fun m => Bool.eqb (float_of_uint32 (wrap 32 (Z.of_nat m - 1)) =? i32tof (Z.of_nat m - 1))
    (Z.of_nat m =? 1)) (seq 0 127) = true) as Hall by (vm_compute; reflexivity).
  rewrite forallb_forall in Hall. specialize (Hall n ltac:(apply in_seq; lia)).
  apply Bool.eqb_prop in Hall.
  destruct (Z.eqb_spec (float_of_uint32 (wrap 32 (Z.of_nat n - 1))) (i32tof (Z.of_nat n - 1)));
    destruct (Z.eqb_spec (Z.of_nat n) 1); try done; split; intros; try done; lia.
Qed.

(** ** Properties *)

(** C34: [read_zvfloat] applied to what [write_zvfloat] wrote, on any streams, returns the float written
    exactly when it is not [-0] and not one of the 125 least positive denormals; those are returned as
    the conversion of their sortable integer ([1.0] for the least denormal, [2^32] for [-0]). *)
Theorem zvfloat_roundtrip {O I} `{DataOutputSpec O} `{DataInputSpec I} (v : Z) (o : O) (i : I) (r : list Z)
    (Hv : is_word 32 v) (Ho : out_ok o) (Hi : in_ok i) (Hr : remaining i = zvfloat_bytes v ++ r) :
  written (write_zvfloat v o) = written o ++ zvfloat_bytes v /\
  (exists i', read_zvfloat i = Some (zvfloat_result v, i') /\ in_ok i' /\ remaining i' = r) /\
  (zvfloat_result v = v <-> ~ (ftoi32 v = -1 \/ 1 <= ftoi32 v <= 125)).
Proof.
  split; [by apply write_zvfloat_spec|]. split; [|by apply zvfloat_result_exact].
  destruct (decide (-1 <= ftoi32 v <= 125)) as [Hs|Hs]; [by apply read_zvfloat_small|].
  assert (zvfloat_result v = v) as -> by (apply zvfloat_result_exact; [done|lia]).
  rewrite zvfloat_bytes_eq in Hr. cbv zeta in Hr.
  assert ((-1 <=? ftoi32 v) && (ftoi32 v <=? 125) = false) as E.
  { destruct (Z.leb_spec (-1) (ftoi32 v)); destruct (Z.leb_spec (ftoi32 v) 125); simpl; done || lia. }
  rewrite E in Hr. pose proof (ftoi_eq 32 v ltac:(lia) Hv) as Hf. fold ftoi32 in Hf.
  destruct (float_sign 32 v) eqn:Es; simpl in Hr.
  - by apply read_zvfloat_negative.
  - apply read_zvfloat_positive; try done. change (ftoi 32 v) with (ftoi32 v) in Hf. rewrite Hf.
    unfold float_magnitude. rewrite Es. apply Hv.
Qed.

Lemma zvfloat_roundtrip_witness :
  exists i', read_zvfloat (BytesView.Make [0x80; 7] 0) = Some (0x4F800000, i') /\
    BytesView.inv i' /\ BytesView.remaining i' = [7].
Proof.
  assert (BytesView.inv (BytesView.Make [0x80; 7] 0)) as Hi by (unfold BytesView.inv; simpl; lia).
  exact (proj1 (proj2 (zvfloat_roundtrip (O:=list Z) (I:=BytesView.t) 0x80000000 [] _ [7]
    ltac:(unfold is_word; lia) I Hi ltac:(vm_compute; reflexivity)))).
Defined.

(** Strings on lawful streams. *)
Definition string_bytes (s : list Z) : list Z := VInt.vwrite32 (Z.of_nat (length s)) ++ s.

Lemma write_string_spec {O} `{DataOutputSpec O} s (o : O) : out_ok o -> Z.of_nat (length s) < 2 ^ 32 ->
  out_ok (write_string s o) /\ written (write_string s o) = written o ++ string_bytes s.
Proof.
  intros Ho Hs. unfold write_string. rewrite wrap_small by (unfold is_word; lia).
  destruct (write_vint_spec (Z.of_nat (length s)) o Ho) as (H1' & H2'). destruct (write_bytes_spec s _ H1') as (H3' & H4').
  split; [done|]. by rewrite H4', H2', <-app_assoc.
Qed.

Lemma read_string_spec {I} `{DataInputSpec I} s r (i : I) : in_ok i -> Z.of_nat (length s) < 2 ^ 32 ->
  remaining i = string_bytes s ++ r -> exists i', read_string i = Some (s, i') /\ in_ok i' /\ remaining i' = r.
Proof.
  intros Hi Hs Hr. unfold string_bytes in Hr. rewrite <-app_assoc in Hr.
  destruct (read_vint_spec (Z.of_nat (length s)) _ _ Hi ltac:(unfold is_word; lia) Hr) as (i1 & E1 & Hi1 & Hr1).
  destruct (read_bytes_spec (length s) i1 Hi1) as (B1 & B2 & B3).
  unfold read_string. rewrite E1. cbn [mbind option_bind]. rewrite Nat2Z.id.
  destruct (read_bytes (length s) i1) as [bs i2]. cbn [fst snd] in *. exists i2.
  rewrite B3, B1, Hr1, take_app_length, Nat.sub_diag, app_nil_r, drop_app_length. done.
Qed.

(** C33: strings and zig-zag integers written to any output are read back from any input, whatever
    follows them; so are strings in memory, packed flags and delta-coded sequences. *)
Theorem value_roundtrip {O I} `{DataOutputSpec O} `{DataInputSpec I} (o : O) (i : I) (r : list Z)
    (Ho : out_ok o) (Hi : in_ok i) :
  let roundtrip {A} (w : O -> O) (rd : I -> option (A * I)) (x : A) := exists enc,
    written (w o) = written o ++ enc /\
    (remaining i = enc ++ r -> exists i', rd i = Some (x, i') /\ in_ok i' /\ remaining i' = r) in
  (forall s, Z.of_nat (length s) < 2 ^ 32 -> roundtrip (write_string s) read_string s) /\
  (forall v, is_int 32 v -> roundtrip (write_zvint v) read_zvint v) /\
  (forall v, is_int 64 v -> roundtrip (write_zvlong v) read_zvlong v) /\
  (forall s, Z.of_nat (length s) < 2 ^ 64 -> vread_string (vwrite_string s [] ++ r) = Some (s, r)) /\
  (forall w val b, 1 <= w -> is_word (w - 1) val ->
     is_word w (shift_pack w val b) /\ shift_unpack (shift_pack w val b) = (b, val)) /\
  (forall w l, 0 <= w -> Forall (is_word w) l -> delta_decode w (delta_encode w l) = l).
Proof.
  cbv zeta. split; [|split; [|split; [|split; [|split]]]].
  - intros s Hs. exists (string_bytes s). split; [by apply write_string_spec|]. intros Hr. by apply read_string_spec.
  - intros v Hv. assert (is_word 32 (Bit.zig_zag_encode32 v)) as Hw by (apply Bit.zig_zag_encode_word; done || lia).
    exists (VInt.vwrite32 (Bit.zig_zag_encode32 v)). split; [by apply write_vint_spec|]. intros Hr.
    destruct (read_vint_spec _ _ _ Hi Hw Hr) as (i1 & E1 & H').
    exists i1. split; [|done]. unfold read_zvint. rewrite E1. cbn [mbind option_bind].
    unfold Bit.zig_zag_decode32, Bit.zig_zag_encode32. by rewrite Bit.zig_zag_decode_encode.
  - intros v Hv. assert (is_word 64 (Bit.zig_zag_encode64 v)) as Hw by (apply Bit.zig_zag_encode_word; done || lia).
    exists (VInt.vwrite64 (Bit.zig_zag_encode64 v)). split; [by apply out_iter_spec|]. intros Hr.
    destruct (read_vlong_spec _ _ _ Hi Hw Hr) as (i1 & E1 & H').
    exists i1. split; [|done]. unfold read_zvlong. rewrite E1. cbn [mbind option_bind].
    unfold Bit.zig_zag_decode64, Bit.zig_zag_encode64. by rewrite Bit.zig_zag_decode_encode.
  - intros s Hs. unfold vwrite_string, write_vlong. rewrite !out_iter_list. simpl. rewrite <-app_assoc.
    destruct (VInt.vwrite64_spec (Z.of_nat (length s))) as (_ & _ & Hread); [unfold is_word; lia|].
    unfold vread_string. rewrite Hread. cbn [mbind option_bind].
    by rewrite Nat2Z.id, take_app_length, drop_app_length.
  - intros w val b Hw Hv. split; [by apply shift_pack_word|by apply (shift_unpack_pack w)].
  - intros w [|x l] Hw Hl; [done|]. simpl. f_equal. apply delta_from; [done|]. by apply Forall_cons in Hl as [_ Hl].
Qed.

Lemma value_roundtrip_witness :
  vread_string (vwrite_string [104; 105] [] ++ [7]) = Some ([104; 105], [7]) /\
  shift_unpack (shift_pack 32 5 true) = (true, 5).
Proof.
  assert (BytesView.inv (BytesView.Make [] 0)) as Hi by (unfold BytesView.inv; simpl; lia).
  pose proof (value_roundtrip (O:=list Z) (I:=BytesView.t) [] (BytesView.Make [] 0) [7] I Hi) as H.
  exact (conj (proj1 (proj2 (proj2 (proj2 H))) [104; 105] ltac:(simpl; lia))
    (proj2 (proj1 (proj2 (proj2 (proj2 (proj2 H)))) 32 5 true ltac:(lia) ltac:(unfold is_word; simpl; lia)))).
Defined.


