(* ===== verification/Encryption.v ===== *)
(** * Encryption

    The interface of cipher streams (core/store/directory_attributes.hpp) as a type class with laws, the
    counter mode of core/utils/ctr_encryption.cpp as its instance over any block cipher, and
    core/utils/encryption.cpp: the encryption header of a file, [encrypted_output] and
    [encrypted_input]. *)
From S2P Require Import Prelude BytesIO Streams FileStreams StoreUtils Outcome.

(** ** [encryption::stream] and [encryption] *)

(** [encrypt] and [decrypt] work in place at an offset of the file: the result and the data after it. *)
Class EncryptionStream (C : Type) := {
  stream_block_size : C -> nat;
  encrypt : Z -> list Z -> C -> option (bool * list Z);
  decrypt : Z -> list Z -> C -> option (bool * list Z);
}.

(** What the writers and readers of files rely on: what is encrypted at an offset is decrypted there,
    and data may be cut anywhere. [image c o l] is the cipher text of [l] at the offset [o]. *)
Class EncryptionStreamSpec (C : Type) `{EncryptionStream C} := {
  stream_ok : C -> Prop;
  image : C -> Z -> list Z -> list Z;
  block_size_spec c : stream_ok c -> (0 < stream_block_size c)%nat;
  encrypt_spec c o l : stream_ok c -> is_word 64 o -> Forall is_byte l -> encrypt o l c = Some (true, image c o l);
  decrypt_spec c o l : stream_ok c -> is_word 64 o -> Forall is_byte l -> decrypt o (image c o l) c = Some (true, l);
  image_app c o a b : image c o (a ++ b) = image c o a ++ image c (o + Z.of_nat (length a)) b;
  image_length c o l : length (image c o l) = length l;
  image_bytes c o l : stream_ok c -> 0 <= o -> Forall is_byte l -> Forall is_byte (image c o l);
}.

(** [create_header] fills the memory of the header, [create_stream] decrypts it in place. *)
Class EncryptionProvider (E C : Type) := {
  header_length : E -> nat;
  create_header : list Z -> list Z -> E -> option (bool * list Z);
  create_stream : list Z -> list Z -> E -> option (option C * list Z);
}.

(** ** [ctr_cipher_stream] *)

(** [cipher]: the block cipher, which works in place *)
Record cipher := mkCipher { cipher_block_size : nat; cipher_encrypt : list Z -> bool * list Z }.

Record ctr_cipher_stream := mkCtr { cs_cipher : cipher; iv_ : list Z; counter_base_ : Z }.

Definition ctr_block_size (s : ctr_cipher_stream) : nat := cipher_block_size (cs_cipher s).

(** [scratch] has [block_size] bytes, and 8 of them are written. *)
Definition crypt_block (block_index : Z) (data : list Z) (s : ctr_cipher_stream) : option (bool * list Z) :=
  let block_size := ctr_block_size s in
  let scratch := take block_size (iv_ s) in
  if decide (length scratch < 8)%nat then None
  else
    let scratch := poke 0 (Fixed.write64 (counter_base_ s +[64] block_index)) scratch in
    let '(ok, scratch) := cipher_encrypt (cs_cipher s) scratch in
    if ok : bool then Some (true, zip_with Z.lxor data scratch) else Some (false, data).

(** [bstring::resize] *)
Definition resize (n : nat) (l : list Z) : list Z := take n l ++ replicate (n - length l) 0.

(** The loop over the blocks, the same in [encrypt] and [decrypt]; what is left of the data. *)
Fixpoint crypt_loop (fuel : nat) (block_index : Z) (block_offset : nat) (block_buf data : list Z) (s : ctr_cipher_stream)
    : option (bool * list Z) :=
  match fuel with
  | O => None
  | S fuel =>
      let block_size := ctr_block_size s in
      let n := Nat.min (length data) (block_size - block_offset) in
      '(ok, (piece, block_buf)) ←
        (if decide (n = block_size) then
           '(ok, block) ← crypt_block block_index (take n data) s; Some (ok, (block, block_buf))
         else
           let block_buf := poke block_offset (take n data) (resize block_size block_buf) in
           '(ok, block) ← crypt_block block_index block_buf s;
           Some (ok, (take n (drop block_offset block), block)));
      if negb ok then Some (false, data)
      else
        if decide (length data - n = 0)%nat then Some (true, piece)
        else
          '(ok, rest) ← crypt_loop fuel (block_index +[64] 1) 0 block_buf (drop n data) s;
          Some (ok, piece ++ rest)
  end.

Definition ctr_encrypt (offset : Z) (data : list Z) (s : ctr_cipher_stream) : option (bool * list Z) :=
  let block_size := Z.of_nat (ctr_block_size s) in
  crypt_loop (S (length data)) (offset / block_size) (Z.to_nat (offset mod block_size)) [] data s.
Definition ctr_decrypt (offset : Z) (data : list Z) (s : ctr_cipher_stream) : option (bool * list Z) :=
  let block_size := Z.of_nat (ctr_block_size s) in
  crypt_loop (S (length data)) (offset / block_size) (Z.to_nat (offset mod block_size)) [] data s.

#[export] Instance ctr_stream : EncryptionStream ctr_cipher_stream := {
  stream_block_size := ctr_block_size; encrypt := ctr_encrypt; decrypt := ctr_decrypt;
}.

(** ** [ctr_encryption] *)

Definition DEFAULT_HEADER_LENGTH : nat := 4096.
Definition MIN_HEADER_LENGTH : nat := 8.

(** The cipher, and the values that [rand] gives while a header is created *)
Record ctr_encryption := mkCtrEncryption { ce_cipher : cipher; ce_rand : nat -> Z }.

Definition decode_ctr_header (header : list Z) (block_size : nat) : option (Z * list Z) :=
  '(base_counter, _) ← Fixed.read64 header;
  if decide (length header < 2 * block_size)%nat then None
  else Some (base_counter, take block_size (drop block_size header)).

(** A call on the memory of a header from its third block on, in place *)
Definition ctr_tail (f : Z -> list Z -> ctr_cipher_stream -> option (bool * list Z)) (block_size : nat) (header : list Z)
    (s : ctr_cipher_stream) : option (bool * list Z) :=
  '(ok, tail) ← f 0 (drop (2 * block_size) header) s; Some (ok, take (2 * block_size) header ++ tail).

Definition ctr_create_header (filename header : list Z) (e : ctr_encryption) : option (bool * list Z) :=
  let block_size := cipher_block_size (ce_cipher e) in
  if decide (block_size = 0)%nat then Some (false, header)
  else if decide (DEFAULT_HEADER_LENGTH < MIN_HEADER_LENGTH)%nat then Some (false, header)
  else if decide (DEFAULT_HEADER_LENGTH < 2 * block_size)%nat then Some (false, header)
  else
    let header := map (fun i => Z.land (ce_rand e i) 0xFF) (seq 0 DEFAULT_HEADER_LENGTH) in
    '(base_counter, iv) ← decode_ctr_header header block_size;
    ctr_tail ctr_encrypt block_size header (mkCtr (ce_cipher e) iv base_counter).

Definition ctr_create_stream (filename header : list Z) (e : ctr_encryption) : option (option ctr_cipher_stream * list Z) :=
  let block_size := cipher_block_size (ce_cipher e) in
  if decide (block_size = 0)%nat then Some (None, header)
  else if decide (DEFAULT_HEADER_LENGTH < MIN_HEADER_LENGTH)%nat then Some (None, header)
  else if decide (DEFAULT_HEADER_LENGTH < 2 * block_size)%nat then Some (None, header)
  else
    '(base_counter, iv) ← decode_ctr_header header block_size;
    '(ok, header) ← ctr_tail ctr_decrypt block_size header (mkCtr (ce_cipher e) iv base_counter);
    Some (if negb ok then None else Some (mkCtr (ce_cipher e) (take block_size iv) base_counter), header).

#[export] Instance ctr_provider : EncryptionProvider ctr_encryption ctr_cipher_stream := {
  header_length _ := DEFAULT_HEADER_LENGTH; create_header := ctr_create_header; create_stream := ctr_create_stream;
}.

(** ** The encryption header of a file: [irs::encrypt] and [irs::decrypt] *)

Section headers.
Context {E C : Type} `{EncryptionProvider E C, !EncryptionStream C}.
(** [crc32c] of the abseil library *)
Context (crc32c : list Z -> Z).

Definition file_encrypt {O} `{DataOutput O} (filename : list Z) (enc : option E) (out : O) : option (outcome (option C * O)) :=
  match enc with
  | None => done_ (None, write_string [] out)
  | Some enc =>
      if decide (header_length enc = 0)%nat then done_ (None, write_string [] out)
      else
        '(ok, header) ⇐ lift (create_header filename (replicate (header_length enc) 0) enc);
        _ ⇐ throw_if (negb ok) (index_error "failed to initialize encryption header");
        let out := write_string header out in
        '(c, header) ⇐ lift (create_stream filename header enc);
        match c with
        | None => throw (index_error "Failed to instantiate encryption stream")
        | Some c =>
            _ ⇐ throw_if (bool_decide (stream_block_size c = 0%nat))
              (index_error "Failed to instantiate encryption stream with block of size 0");
            done_ (Some c, write_vlong (crc32c header) out)
        end
  end.

Definition file_decrypt {I} `{DataInput I} (filename : list Z) (enc : option E) (in_ : I) : option (outcome (option C * I)) :=
  '(header, in_) ⇐ lift (read_string in_);
  if decide (length header = 0)%nat then done_ (None, in_)
  else
    match enc with
    | None => throw (index_error "Failed to open encrypted file without cipher")
    | Some enc =>
        _ ⇐ throw_if (bool_decide (length header <> header_length enc))
          (index_error "failed to open encrypted file, unexpected size of the encryption header");
        '(c, header) ⇐ lift (create_stream filename header enc);
        match c with
        | None => throw (index_error "Failed to open encrypted file")
        | Some c =>
            _ ⇐ throw_if (bool_decide (stream_block_size c = 0%nat))
              (index_error "Invalid block size 0 specified for encrypted file");
            '(sum, in_) ⇐ lift (read_vlong in_);
            _ ⇐ throw_if (negb (crc32c header =? sum)) (index_error "Invalid ecryption header");
            done_ (Some c, in_)
        end
    end.

End headers.

(** ** [encrypted_output] *)

Section output.
Context {W C : Type} {DO : DataOutput W} {IO : IndexOutput W} {EC : EncryptionStream C}.

(** [eo_buf]: the bytes between [buf_] and [pos_] *)
Record encrypted_output := mkEncOut { eo_out : W; eo_cipher : C; eo_buf_size : nat; eo_start : nat; eo_buf : list Z }.

Definition eo_make (out : W) (cipher : C) (num_buffers : nat) : encrypted_output :=
  mkEncOut out cipher (stream_block_size cipher * Nat.max 1 num_buffers) 0 [].

Definition eo_remain (s : encrypted_output) : nat := eo_buf_size s - length (eo_buf s).
Definition eo_put (b : list Z) (s : encrypted_output) : encrypted_output :=
  mkEncOut (eo_out s) (eo_cipher s) (eo_buf_size s) (eo_start s) (eo_buf s ++ b).

Definition eo_flush (s : encrypted_output) : option (outcome encrypted_output) :=
  '(ok, buf) ⇐ lift (encrypt (Z.of_nat (out_pointer (eo_out s))) (eo_buf s) (eo_cipher s));
  _ ⇐ throw_if (negb ok) (io_error "Buffer size is not multiple of cipher block size");
  done_ (mkEncOut (write_bytes buf (eo_out s)) (eo_cipher s) (eo_buf_size s) (eo_start s + length (eo_buf s)) []).

Definition eo_write_byte (b : Z) (s : encrypted_output) : option (outcome encrypted_output) :=
  s ⇐ (if decide (eo_buf_size s <= length (eo_buf s))%nat then eo_flush s else done_ s);
  done_ (eo_put [b] s).

(** Writing through the stream as an output iterator *)
Fixpoint eo_iter (bs : list Z) (s : encrypted_output) : option (outcome encrypted_output) :=
  match bs with
  | [] => done_ s
  | b :: bs => s ⇐ eo_write_byte b s; eo_iter bs s
  end.

(** [while (slice_pos < length)] *)
Fixpoint eo_write_loop (fuel : nat) (b : list Z) (left : nat) (s : encrypted_output) : option (outcome encrypted_output) :=
  if decide (length b = 0)%nat then done_ s
  else
    match fuel with
    | O => None
    | S fuel =>
        let slice_len := Nat.min (length b) left in
        let s := eo_put (take slice_len b) s in
        let b := drop slice_len b in
        let left := (left - slice_len)%nat in
        if decide (length (eo_buf s) = eo_buf_size s)%nat then
          s ⇐ eo_flush s; eo_write_loop fuel b (eo_buf_size s) s
        else eo_write_loop fuel b left s
    end.

Definition eo_write_bytes (b : list Z) (s : encrypted_output) : option (outcome encrypted_output) :=
  let left := (eo_buf_size s - length (eo_buf s))%nat in
  if decide (length b <= left)%nat then
    let s := eo_put b s in
    if decide (length (eo_buf s) = eo_buf_size s)%nat then eo_flush s else done_ s
  else eo_write_loop (S (length b)) b left s.

Definition eo_write_int (big : bool) (value : Z) (s : encrypted_output) : option (outcome encrypted_output) :=
  if decide (eo_remain s < 4)%nat then eo_iter (Fixed.write32 (wrap 32 value)) s
  else done_ (eo_put (Fixed.write32_ptr big (wrap 32 value)) s).
Definition eo_write_long (big : bool) (value : Z) (s : encrypted_output) : option (outcome encrypted_output) :=
  if decide (eo_remain s < 8)%nat then eo_iter (Fixed.write64 (wrap 64 value)) s
  else done_ (eo_put (Fixed.write64_ptr big (wrap 64 value)) s).
Definition eo_write_vint (v : Z) (s : encrypted_output) : option (outcome encrypted_output) :=
  if decide (eo_remain s < VInt.const_max_vsize 32)%nat then eo_iter (VInt.vwrite32 v) s else done_ (eo_put (VInt.vwrite32 v) s).
Definition eo_write_vlong (v : Z) (s : encrypted_output) : option (outcome encrypted_output) :=
  if decide (eo_remain s < VInt.const_max_vsize 64)%nat then eo_iter (VInt.vwrite64 v) s else done_ (eo_put (VInt.vwrite64 v) s).

Definition eo_file_pointer (s : encrypted_output) : nat := eo_start s + length (eo_buf s).

(** [CloseImpl]: the size and the state *)
Definition eo_CloseImpl (s : encrypted_output) : option (outcome (nat * encrypted_output)) :=
  s ⇐ eo_flush s;
  done_ (eo_file_pointer s, mkEncOut (eo_out s) (eo_cipher s) (eo_buf_size s) 0 []).

End output.

Arguments encrypted_output : clear implicits.

(** ** [encrypted_input]: what its buffered base class calls *)

Section input.
Context {I C : Type} {DI : DataInput I} {II : IndexInput I} {EC : EncryptionStream C}.

Record encrypted_input := mkEncIn { ei_in : I; ei_cipher : C; ei_buf_size : nat; ei_start : nat; ei_length : nat }.

(** [length] is that of the file. *)
Definition ei_make (length : nat) (in_ : I) (cipher : C) (num_buffers padding : nat) : encrypted_input :=
  mkEncIn in_ cipher (stream_block_size cipher * Nat.max 1 num_buffers) (file_pointer in_) (length - file_pointer in_ - padding).

Definition ei_seek_internal (pos : nat) (s : encrypted_input) : encrypted_input :=
  let pos := (pos + ei_start s)%nat in
  let in_ := if decide (pos = file_pointer (ei_in s)) then ei_in s else seek pos (ei_in s) in
  mkEncIn in_ (ei_cipher s) (ei_buf_size s) (ei_start s) (ei_length s).

Definition ei_read_internal (count : nat) (s : encrypted_input) : option (outcome (list Z * encrypted_input)) :=
  let offset := file_pointer (ei_in s) in
  let '(b, in_) := read_bytes count (ei_in s) in
  '(ok, b) ⇐ lift (decrypt (Z.of_nat offset) b (ei_cipher s));
  _ ⇐ throw_if (negb ok) (io_error "Buffer size is not multiple of cipher block size");
  done_ (b, mkEncIn in_ (ei_cipher s) (ei_buf_size s) (ei_start s) (ei_length s)).

End input.

Arguments encrypted_input : clear implicits.

(** ** The counter mode *)

Section ctr.
Implicit Types (s : ctr_cipher_stream) (l data : list Z).

(** A block cipher works on blocks of its size and does not fail. *)
Definition cipher_ok (k : cipher) : Prop := (8 <= cipher_block_size k)%nat /\
  forall l, length l = cipher_block_size k -> Forall is_byte l -> exists l',
    cipher_encrypt k l = (true, l') /\ length l' = cipher_block_size k /\ Forall is_byte l'.

Definition ctr_ok s : Prop := cipher_ok (cs_cipher s) /\ length (iv_ s) = ctr_block_size s /\ Forall is_byte (iv_ s).

(** The key stream: a block for each counter, and its byte for a position of the file *)
Definition pad s (i : Z) : list Z :=
  snd (cipher_encrypt (cs_cipher s) (poke 0 (Fixed.write64 (counter_base_ s +[64] i)) (take (ctr_block_size s) (iv_ s)))).
Definition key s (p : Z) : Z :=
  let bs := Z.of_nat (ctr_block_size s) in nth (Z.to_nat (p mod bs)) (pad s (p / bs)) 0.
Definition ctr_image s (o : Z) l : list Z := imap (fun i b => Z.lxor b (key s (o + Z.of_nat i))) l.

Lemma write64_bytes x : Forall is_byte (Fixed.write64 x).
Proof. unfold Fixed.write64. repeat constructor; unfold to_byte; apply wrap_range; lia. Qed.

Lemma pad_spec s i : ctr_ok s -> cipher_encrypt (cs_cipher s)
    (poke 0 (Fixed.write64 (counter_base_ s +[64] i)) (take (ctr_block_size s) (iv_ s))) = (true, pad s i) /\
  length (pad s i) = ctr_block_size s /\ Forall is_byte (pad s i).
Proof.
  intros ([H8 Hk] & Hl & Hb). fold (ctr_block_size s) in *. unfold pad. rewrite take_ge by lia.
  set (l := poke 0 _ (iv_ s)). destruct (Hk l) as (l' & E & H).
  - unfold l. rewrite poke_length; [done|]. rewrite Streams.BufferedOutput.length_write64. unfold ctr_block_size in *. lia.
  - unfold l, poke. rewrite take_0, app_nil_l. apply Forall_app_2; [apply write64_bytes|by apply Forall_drop].
  - rewrite E. cbn [snd]. by split.
Qed.

Lemma zip_with_imap {A} (f : A -> Z -> A) (l : list A) m : length l = length m ->
  zip_with f l m = imap (fun i a => f a (nth i m 0)) l.
Proof.
  revert m. induction l as [|a l IH]; intros [|x m]; try done. cbn [length zip_with imap]. intros [= H]. f_equal. by rewrite IH.
Qed.

Lemma key_in_block s i (j : nat) : (j < ctr_block_size s)%nat ->
  key s (i * Z.of_nat (ctr_block_size s) + Z.of_nat j) = nth j (pad s i) 0.
Proof.
  intros Hj. unfold key. cbv zeta. rewrite (Z.add_comm (_ * _)), Z_mod_plus_full, Z.div_add by lia.
  rewrite Z.mod_small, Z.div_small by lia. cbn [Z.add]. by rewrite Nat2Z.id.
Qed.

Lemma crypt_block_spec s i data : ctr_ok s -> length data = ctr_block_size s ->
  crypt_block (wrap 64 i) data s = Some (true, ctr_image s (i * Z.of_nat (ctr_block_size s)) data).
Proof.
  intros Hs Hl. destruct (pad_spec s i Hs) as (E & Hp & _). unfold crypt_block. rewrite wrap_add_r, E.
  destruct Hs as ([H8 _] & Hiv & _). rewrite decide_False by (rewrite length_take; unfold ctr_block_size in *; lia).
  f_equal. f_equal. rewrite zip_with_imap by lia. unfold ctr_image. apply list_eq. intros j. rewrite !list_lookup_imap.
  destruct (data !! j) as [b|] eqn:Ej; [|done]. cbn. apply lookup_lt_Some in Ej. by rewrite key_in_block by lia.
Qed.

Lemma ctr_image_length s o l : length (ctr_image s o l) = length l.
Proof. apply length_imap. Qed.

Lemma ctr_image_app s o a b : ctr_image s o (a ++ b) = ctr_image s o a ++ ctr_image s (o + Z.of_nat (length a)) b.
Proof.
  unfold ctr_image. rewrite imap_app. f_equal. apply imap_ext. intros i x _. cbn. do 2 f_equal. lia.
Qed.

Lemma ctr_image_piece s o (k n : nat) l : ctr_image s (o + Z.of_nat k) (take n (drop k l)) = take n (drop k (ctr_image s o l)).
Proof.
  apply list_eq. intros i. unfold ctr_image. rewrite list_lookup_imap. destruct (Nat.lt_ge_cases i n) as [Hi|Hi].
  - rewrite !lookup_take_lt, !lookup_drop, list_lookup_imap by done. destruct (l !! (k + i)%nat); [|done]. cbn. do 3 f_equal. lia.
  - by rewrite !lookup_take_ge by done.
Qed.

Lemma poke_piece off (bs data : list Z) : (off + length bs <= length data)%nat -> take (length bs) (drop off (poke off bs data)) = bs.
Proof.
  intros H. unfold poke. assert (length (take off data) = off) as E by (rewrite length_take; lia).
  rewrite drop_app_le, drop_ge by lia. cbn [app]. by rewrite take_app_length.
Qed.

Lemma resize_length n l : length (resize n l) = n.
Proof. unfold resize. rewrite length_app, length_take, length_replicate. lia. Qed.

(** One round of the loop. *)
Lemma crypt_piece s i (off : nat) block_buf data n : ctr_ok s -> (off < ctr_block_size s)%nat ->
  n = Nat.min (length data) (ctr_block_size s - off) -> exists buf',
  (if decide (n = ctr_block_size s) then
     '(ok, block) ← crypt_block (wrap 64 i) (take n data) s; Some (ok, (block, block_buf))
   else
     '(ok, block) ← crypt_block (wrap 64 i) (poke off (take n data) (resize (ctr_block_size s) block_buf)) s;
     Some (ok, (take n (drop off block), block))) =
  Some (true, (ctr_image s (i * Z.of_nat (ctr_block_size s) + Z.of_nat off) (take n data), buf')).
Proof.
  intros Hs Hoff Hn. assert (length (take n data) = n) as Hl by (rewrite length_take; lia). case_decide as Hb.
  - assert (off = 0)%nat as -> by lia. rewrite crypt_block_spec by (done || lia). cbn [mbind option_bind].
    exists block_buf. by rewrite Z.add_0_r.
  - pose proof (resize_length (ctr_block_size s) block_buf) as Hr.
    rewrite crypt_block_spec; [|done|rewrite poke_length; lia]. cbn [mbind option_bind]. eexists. do 3 f_equal.
    rewrite <-ctr_image_piece. f_equal. rewrite <-Hl at 1. apply poke_piece. lia.
Qed.

Lemma crypt_loop_spec fuel : forall s i (off : nat) block_buf data, ctr_ok s -> (off < ctr_block_size s)%nat ->
  (length data < fuel)%nat ->
  crypt_loop fuel (wrap 64 i) off block_buf data s =
    Some (true, ctr_image s (i * Z.of_nat (ctr_block_size s) + Z.of_nat off) data).
Proof.
  induction fuel as [|fuel IH]; intros s i off block_buf data Hs Hoff Hf; [lia|]. cbn [crypt_loop].
  cbv zeta. destruct (crypt_piece s i off block_buf data _ Hs Hoff eq_refl) as [buf' ->]. cbn [mbind option_bind].
  set (n := Nat.min (length data) (ctr_block_size s - off)). cbn [negb]. case_decide as Hd.
  - rewrite take_ge by lia. done.
  - rewrite wrap_add_l. rewrite IH; [|done|lia|rewrite length_drop; lia]. cbn [mbind option_bind].
    do 2 f_equal. rewrite <-(take_drop n data) at 3. rewrite ctr_image_app, length_take. do 2 f_equal.
    assert (n = ctr_block_size s - off)%nat as -> by lia. nia.
Qed.

Lemma ctr_crypt_spec s o data : ctr_ok s -> is_word 64 o ->
  crypt_loop (S (length data)) (o / Z.of_nat (ctr_block_size s)) (Z.to_nat (o mod Z.of_nat (ctr_block_size s))) [] data s
    = Some (true, ctr_image s o data).
Proof.
  intros Hs Ho. set (bs := Z.of_nat (ctr_block_size s)). assert (8 <= bs) as Hbs.
  { destruct Hs as ([H8 _] & _). unfold bs, ctr_block_size. lia. }
  pose proof (Z.mod_pos_bound o bs ltac:(lia)). rewrite <-(wrap_small 64 (o / bs)).
  - rewrite crypt_loop_spec; [|done|unfold bs in *; lia|lia]. fold bs. do 3 f_equal. rewrite Z2Nat.id by lia.
    rewrite (Z.div_mod o bs) at 3 by lia. lia.
  - unfold is_word in *. split; [apply Z.div_pos; lia|]. apply Z.div_lt_upper_bound; nia.
Qed.

Lemma ctr_image_twice s o data : Forall is_byte data -> ctr_image s o (ctr_image s o data) = data.
Proof.
  intros _. unfold ctr_image. apply list_eq. intros i. rewrite !list_lookup_imap.
  destruct (data !! i); [|done]. cbn. by rewrite Z.lxor_assoc, Z.lxor_nilpotent, Z.lxor_0_r.
Qed.

Lemma is_byte_lxor a b : is_byte a -> is_byte b -> is_byte (Z.lxor a b).
Proof.
  intros Ha Hb. rewrite <-(wrap_small _ a Ha), <-(wrap_small _ b Hb).
  replace (Z.lxor (wrap 8 a) (wrap 8 b)) with (wrap 8 (Z.lxor a b)); [apply wrap_range; lia|].
  apply Z.bits_inj'. intros i Hi. rewrite Z.lxor_spec, !wrap_testbit, Z.lxor_spec by lia. by destruct (i <? 8).
Qed.

Lemma key_byte s p : ctr_ok s -> 0 <= p -> is_byte (key s p).
Proof.
  intros Hs Hp. unfold key. destruct (pad_spec s (p / Z.of_nat (ctr_block_size s)) Hs) as (_ & _ & Hb).
  destruct (nth_in_or_default (Z.to_nat (p mod Z.of_nat (ctr_block_size s))) (pad s (p / Z.of_nat (ctr_block_size s))) 0) as [Hin| ->].
  - rewrite Forall_forall in Hb. apply Hb. by apply list_elem_of_In.
  - split; lia.
Qed.

End ctr.

#[export, program] Instance ctr_stream_spec : EncryptionStreamSpec ctr_cipher_stream := {
  stream_ok := ctr_ok; image := ctr_image;
}.
Next Obligation. intros c ([H8 _] & _). cbn. unfold ctr_block_size. lia. Qed.
Next Obligation. intros c o l Hc Ho _. by apply ctr_crypt_spec. Qed.
Next Obligation.
  intros c o l Hc Ho Hl. etransitivity; [by apply (ctr_crypt_spec c o (ctr_image c o l))|]. by rewrite ctr_image_twice.
Qed.
Next Obligation. intros. apply ctr_image_app. Qed.
Next Obligation. intros. apply ctr_image_length. Qed.
Next Obligation.
  intros c o l Hc Ho Hl. cbn. unfold ctr_image. apply Forall_lookup_2. intros i x Hx. rewrite list_lookup_imap in Hx.
  destruct (l !! i) as [b|] eqn:E; [|done]. injection Hx as <-. apply is_byte_lxor; [by eapply Forall_lookup_1|].
  apply key_byte; [done|lia].
Qed.

(** Cutting cipher text *)
Lemma image_nil {C} `{EncryptionStreamSpec C} c o : image c o [] = [].
Proof. apply nil_length_inv. by rewrite image_length. Qed.

Lemma image_take {C} `{EncryptionStreamSpec C} c o (n : nat) l : take n (image c o l) = image c o (take n l).
Proof.
  destruct (Nat.le_ge_cases n (length l)) as [Hn|Hn].
  - rewrite <-(take_drop n l) at 1. rewrite image_app, take_app_length'; [done|]. rewrite image_length, length_take. lia.
  - by rewrite !take_ge by (rewrite ?image_length; done).
Qed.

Lemma image_piece {C} `{EncryptionStreamSpec C} c o (k n : nat) l : (k <= length l)%nat ->
  take n (drop k (image c o l)) = image c (o + Z.of_nat k) (take n (drop k l)).
Proof.
  intros Hk. rewrite <-(take_drop k l) at 1. rewrite image_app, drop_app_length' by (rewrite image_length, length_take; lia).
  rewrite length_take, Nat.min_l by done. apply image_take.
Qed.

(** ** Encrypted outputs *)

Section output_lemmas.
Context {W C : Type} {DO : DataOutput W} {DS : DataOutputSpec W} {IO : IndexOutput W} {IS : IndexOutputSpec W}
  {EC : EncryptionStream C} {ES : EncryptionStreamSpec C}.
Implicit Types (s : encrypted_output W C) (plain bs : list Z).

(** The stream was opened on an output with [pre] in it and has been given [plain]. *)
Record eo_inv (pre plain : list Z) s : Prop := {
  eo_cipher_ok : stream_ok (eo_cipher s);
  eo_out_ok : out_ok (eo_out s);
  eo_room : (length (eo_buf s) <= eo_buf_size s)%nat;
  eo_size : (0 < eo_buf_size s)%nat;
  eo_plain : exists flushed, plain = flushed ++ eo_buf s /\ eo_start s = length flushed /\
    written (eo_out s) = pre ++ image (eo_cipher s) (Z.of_nat (length pre)) flushed;
  eo_bytes : Forall is_byte plain;
  eo_small : Z.of_nat (length pre) + Z.of_nat (length plain) < 2 ^ 64;
}.

(** A result that kept the invariant *)
Abbreviation keeps pre plain x := (exists s', x = Some (Done s') /\ eo_inv pre plain s').

Lemma eo_make_inv (out : W) (c : C) n : out_ok out -> stream_ok c -> Z.of_nat (length (written out)) < 2 ^ 64 ->
  eo_inv (written out) [] (eo_make out c n).
Proof.
  intros Ho Hc Hl. pose proof (block_size_spec c Hc) as Hb. split; cbn [eo_make eo_out eo_cipher eo_buf eo_buf_size eo_start]; [done|done|cbn; lia|nia| |constructor|cbn; lia].
  exists []. split; [done|]. split; [done|]. by rewrite image_nil, app_nil_r.
Qed.

Lemma eo_put_inv pre plain bs s : eo_inv pre plain s -> (length bs <= eo_remain s)%nat -> Forall is_byte bs ->
  Z.of_nat (length pre) + Z.of_nat (length (plain ++ bs)) < 2 ^ 64 -> eo_inv pre (plain ++ bs) (eo_put bs s).
Proof.
  intros [H1 H2 H3 H4 (fl & -> & H5 & H6) H7 H8] Hb Hbs Hl. unfold eo_remain in Hb.
  split; cbn [eo_put eo_out eo_cipher eo_buf eo_buf_size eo_start]; [done|done|rewrite length_app; lia|done| |by apply Forall_app_2|done].
  exists fl. by rewrite app_assoc.
Qed.

Lemma eo_flush_inv pre plain s : eo_inv pre plain s -> exists s', eo_flush s = Some (Done s') /\ eo_inv pre plain s' /\
  eo_buf s' = [] /\ eo_buf_size s' = eo_buf_size s /\
  written (eo_out s') = pre ++ image (eo_cipher s) (Z.of_nat (length pre)) plain.
Proof.
  intros [H1 H2 H3 H4 (fl & -> & H5 & H6) H7 H8]. unfold eo_flush. rewrite out_pointer_spec by done. rewrite length_app in H8.
  rewrite H6, length_app, image_length. apply Forall_app in H7 as [Hf Hb].
  rewrite encrypt_spec; [|done|unfold is_word; lia|done]. rewrite bind_lift. cbn [negb]. rewrite bind_check.
  destruct (write_bytes_spec (image (eo_cipher s) (Z.of_nat (length pre + length fl)) (eo_buf s)) (eo_out s) H2) as [Ho Hw].
  eexists. split; [reflexivity|].
  assert (written (write_bytes (image (eo_cipher s) (Z.of_nat (length pre + length fl)) (eo_buf s)) (eo_out s)) =
    pre ++ image (eo_cipher s) (Z.of_nat (length pre)) (fl ++ eo_buf s)) as E.
  { rewrite Hw, H6, <-app_assoc, image_app. do 4 f_equal. lia. }
  split; [|done]. split; cbn [eo_out eo_cipher eo_buf eo_buf_size eo_start]; [done|done|cbn; lia|done| |by apply Forall_app_2|rewrite length_app; lia].
  exists (fl ++ eo_buf s). rewrite app_nil_r, length_app. split; [done|]. split; [lia|done].
Qed.

Lemma eo_write_byte_inv pre plain b s : eo_inv pre plain s -> is_byte b ->
  Z.of_nat (length pre) + Z.of_nat (length (plain ++ [b])) < 2 ^ 64 -> keeps pre (plain ++ [b]) (eo_write_byte b s).
Proof.
  intros Hs Hb Hl. unfold eo_write_byte. case_decide as Hfull.
  - destruct (eo_flush_inv pre plain s Hs) as (s' & -> & Hs' & Ebuf & Esz & _). rewrite bind_done. eexists. split; [reflexivity|].
    apply eo_put_inv; [done| |by apply Forall_singleton|done]. unfold eo_remain. rewrite Ebuf, Esz. pose proof (eo_size _ _ _ Hs). cbn. lia.
  - eexists. split; [reflexivity|]. apply eo_put_inv; [done|unfold eo_remain; cbn; lia|by apply Forall_singleton|done].
Qed.

Lemma eo_iter_inv pre bs : forall plain s, eo_inv pre plain s -> Forall is_byte bs ->
  Z.of_nat (length pre) + Z.of_nat (length (plain ++ bs)) < 2 ^ 64 -> keeps pre (plain ++ bs) (eo_iter bs s).
Proof.
  induction bs as [|b bs IH]; intros plain s Hs Hb Hl; [exists s; by rewrite app_nil_r|]. apply Forall_cons in Hb as [Hb Hbs].
  rewrite !length_app in *. cbn [length] in *.
  destruct (eo_write_byte_inv pre plain b s Hs Hb) as (s' & E & Hs'); [rewrite length_app; cbn [length]; lia|].
  cbn [eo_iter]. rewrite E, bind_done. destruct (IH _ s' Hs' Hbs) as (s2 & E2 & H2); [rewrite !length_app; cbn [length]; lia|].
  exists s2. split; [done|]. by rewrite <-app_assoc in H2.
Qed.

Lemma eo_write_loop_inv pre fuel : forall b left plain s, eo_inv pre plain s -> left = eo_remain s -> Forall is_byte b ->
  (length b <= fuel)%nat -> (left = 0 -> length b < fuel)%nat -> Z.of_nat (length pre) + Z.of_nat (length (plain ++ b)) < 2 ^ 64 ->
  keeps pre (plain ++ b) (eo_write_loop fuel b left s).
Proof.
  induction fuel as [|fuel IH]; intros b left plain s Hs Hl Hb Hf Hf0 Hsz; cbn [eo_write_loop]; case_decide as Eb;
    try (apply nil_length_inv in Eb; subst b; exists s; by rewrite app_nil_r).
  - lia.
  - cbv zeta. set (n := Nat.min (length b) left) in *. rewrite length_app in Hsz.
    assert (length (take n b) = n) as Hn by (rewrite length_take; lia). assert (n = Nat.min (length b) left) as Hnd by done. clearbody n.
    pose proof (eo_put_inv pre plain (take n b) s Hs ltac:(lia) (Forall_take _ _ _ Hb) ltac:(rewrite length_app; lia)) as Hp.
    assert ((plain ++ take n b) ++ drop n b = plain ++ b) as Eb' by by rewrite <-app_assoc, take_drop.
    rewrite <-Eb'.
    assert (length (eo_buf (eo_put (take n b) s)) = length (eo_buf s) + n)%nat as Hlen by (cbn; rewrite length_app; lia).
    assert (Z.of_nat (length pre) + Z.of_nat (length ((plain ++ take n b) ++ drop n b)) < 2 ^ 64) as Hsz'.
    { rewrite Eb', length_app. lia. }
    pose proof (eo_size _ _ _ Hs). unfold eo_remain in *. change (eo_buf_size (eo_put (take n b) s)) with (eo_buf_size s) in *. case_decide as Hfull.
    + destruct (eo_flush_inv _ _ _ Hp) as (s' & E & Hs' & Ebuf & Esz & _). rewrite E, bind_done. change (eo_buf_size s' = eo_buf_size s) in Esz.
      apply IH; [done|rewrite Ebuf; cbn; lia|by apply Forall_drop| | |done]; rewrite length_drop; lia.
    + pose proof (eo_room _ _ _ Hp) as Hr. rewrite Hlen in *. cbn [eo_put eo_buf_size] in Hr.
      apply IH; [done|cbn [eo_put eo_buf eo_buf_size]; rewrite length_app; lia|by apply Forall_drop| | |done]; rewrite length_drop; lia.
Qed.

Lemma eo_write_bytes_inv pre plain b s : eo_inv pre plain s -> Forall is_byte b ->
  Z.of_nat (length pre) + Z.of_nat (length (plain ++ b)) < 2 ^ 64 -> keeps pre (plain ++ b) (eo_write_bytes b s).
Proof.
  intros Hs Hb Hl. unfold eo_write_bytes. case_decide as Hfit.
  - pose proof (eo_put_inv pre plain b s Hs Hfit Hb Hl) as Hp. case_decide; [|by eexists].
    destruct (eo_flush_inv _ _ _ Hp) as (s' & E & Hs' & _). by exists s'.
  - by apply eo_write_loop_inv; try done; lia.
Qed.

(** A writer that goes to the buffer when it has room for [n] bytes, and byte by byte otherwise *)
Lemma eo_value_inv pre plain (n : nat) bs bs' s : eo_inv pre plain s -> bs' = bs -> Forall is_byte bs -> (length bs <= n)%nat ->
  Z.of_nat (length pre) + Z.of_nat (length (plain ++ bs)) < 2 ^ 64 ->
  keeps pre (plain ++ bs) (if decide (eo_remain s < n)%nat then eo_iter bs s else done_ (eo_put bs' s)).
Proof.
  intros Hs -> Hb Hn Hl. case_decide; [by apply eo_iter_inv|]. eexists. split; [reflexivity|]. apply eo_put_inv; done || lia.
Qed.

Lemma eo_pointer pre plain s : eo_inv pre plain s -> eo_file_pointer s = length plain.
Proof. intros [_ _ _ _ (fl & -> & H & _) _ _]. unfold eo_file_pointer. rewrite length_app. lia. Qed.

Lemma eo_close_spec pre plain s : eo_inv pre plain s -> exists s', eo_CloseImpl s = Some (Done (length plain, s')) /\
  written (eo_out s') = pre ++ image (eo_cipher s) (Z.of_nat (length pre)) plain.
Proof.
  intros Hs. unfold eo_CloseImpl. destruct (eo_flush_inv _ _ _ Hs) as (s' & -> & Hs' & _ & _ & Hw). rewrite bind_done.
  rewrite (eo_pointer _ _ _ Hs'). by eexists.
Qed.

End output_lemmas.

(** ** Encrypted inputs *)

Section input_lemmas.
Context {I C : Type} {DI : DataInput I} {DIS : DataInputSpec I} {II : IndexInput I} {IIS : IndexInputSpec I}
  {FI : FileInput I} {FS : FileInputSpec I} {EC : EncryptionStream C} {ES : EncryptionStreamSpec C}.
Implicit Types (s : encrypted_input I C) (plain f : list Z).

(** The input is at the position [p] of [plain], which is stored in the file [f]. *)
Definition ei_at f plain (p : nat) s : Prop :=
  stream_ok (ei_cipher s) /\ at_ f (ei_start s + p) (ei_in s) /\ (p <= length plain)%nat /\ Forall is_byte plain /\
  (exists rest, drop (ei_start s) f = image (ei_cipher s) (Z.of_nat (ei_start s)) plain ++ rest) /\
  (ei_start s <= length f)%nat /\ Z.of_nat (length f) < 2 ^ 64 /\ ei_length s = length plain.

Lemma ei_make_at f plain pre rest (c : C) (in_ : I) n padding : f = pre ++ image c (Z.of_nat (length pre)) plain ++ rest ->
  padding = length rest -> at_ f (length pre) in_ -> stream_ok c -> Forall is_byte plain -> Z.of_nat (length f) < 2 ^ 64 ->
  ei_at f plain 0 (ei_make (length f) in_ c n padding).
Proof.
  intros Hf -> Hat Hc Hb Hl. pose proof Hat as (_ & _ & Hp & Hle). unfold ei_at, ei_make.
  cbn [ei_cipher ei_start ei_in ei_length]. rewrite Hp, Nat.add_0_r.
  split; [done|]. split; [done|]. split; [lia|]. split; [done|].
  split; [exists rest; by rewrite Hf, drop_app_length|]. split; [done|]. split; [done|].
  rewrite Hf, !length_app, image_length. lia.
Qed.

Lemma ei_file f plain p s : ei_at f plain p s -> (ei_start s + length plain <= length f)%nat.
Proof.
  intros (_ & _ & _ & _ & [rest Hd] & Hs & _). apply (f_equal length) in Hd. rewrite length_drop, length_app, image_length in Hd. lia.
Qed.

Lemma ei_seek_at f plain p q s : ei_at f plain p s -> (q < length plain)%nat -> ei_at f plain q (ei_seek_internal q s).
Proof.
  intros Hat Hq. pose proof (ei_file _ _ _ _ Hat). destruct Hat as (H1 & Hin & H2 & H3 & H4 & H5 & H6 & H7).
  unfold ei_at, ei_seek_internal. cbn [ei_cipher ei_start ei_in ei_length]. split; [done|]. split; [|by split_and!; lia || done].
  rewrite (Nat.add_comm q). case_decide as E.
  - destruct Hin as (G1 & G2 & G3 & G4). rewrite G3 in E. assert (q = p) as -> by lia. done.
  - eapply seek_at; [done|lia].
Qed.

Lemma ei_read_at f plain p n s : ei_at f plain p s -> (p + n <= length plain)%nat -> exists s',
  ei_read_internal n s = Some (Done (take n (drop p plain), s')) /\ ei_at f plain (p + n) s'.
Proof.
  intros Hat Hn. pose proof (ei_file _ _ _ _ Hat). destruct Hat as (H1 & Hin & H2 & H3 & [rest H4] & H5 & H6 & H7).
  unfold ei_read_internal. destruct (read_bytes_at_ f (ei_start s + p) n (ei_in s) Hin ltac:(lia)) as [Eb Hin'].
  assert (file_pointer (ei_in s) = ei_start s + p)%nat as -> by apply Hin.
  destruct (read_bytes n (ei_in s)) as [b in_]. cbn [fst snd] in *.
  assert (b = image (ei_cipher s) (Z.of_nat (ei_start s + p)) (take n (drop p plain))) as ->.
  { rewrite Eb, <-drop_drop, H4, drop_app_le, take_app_le by (rewrite ?length_drop, image_length; lia).
    rewrite image_piece by done. by rewrite Nat2Z.inj_add. }
  rewrite decrypt_spec; [|done|unfold is_word; lia|by apply Forall_take, Forall_drop].
  rewrite bind_lift. cbn [negb]. rewrite bind_check. eexists. split; [reflexivity|].
  unfold ei_at. cbn [ei_cipher ei_start ei_in ei_length]. split; [done|]. split; [by rewrite Nat.add_assoc|].
  split; [lia|]. split; [done|]. split; [by exists rest|]. done.
Qed.

End input_lemmas.

(** ** Encryption headers *)

(** A header that was created gives a stream, and its memory is not kept. *)
Class EncryptionProviderSpec (E C : Type) `{EncryptionProvider E C, EncryptionStreamSpec C} := {
  provider_ok : E -> Prop;
  header_length_spec e : provider_ok e -> (0 < header_length e)%nat /\ Z.of_nat (header_length e) < 2 ^ 32;
  create_header_spec filename e : provider_ok e -> exists h c h',
    create_header filename (replicate (header_length e) 0) e = Some (true, h) /\ length h = header_length e /\
    create_stream filename h e = Some (Some c, h') /\ stream_ok c;
}.

Lemma ctr_header_parts (h : list Z) (bs : nat) : length h = DEFAULT_HEADER_LENGTH -> (2 * bs <= DEFAULT_HEADER_LENGTH)%nat ->
  Forall is_byte h -> (8 <= bs)%nat -> exists b, decode_ctr_header h bs = Some (b, take bs (drop bs h)) /\
  forall t, length t = (DEFAULT_HEADER_LENGTH - 2 * bs)%nat -> decode_ctr_header (take (2 * bs) h ++ t) bs = Some (b, take bs (drop bs h)).
Proof.
  intros Hl Hbs Hb H8. set (n := DEFAULT_HEADER_LENGTH) in *. assert (8 <= n)%nat as Hn by (unfold n, DEFAULT_HEADER_LENGTH; lia). clearbody n.
  assert (exists b, forall t, Fixed.read64 (take 8 h ++ t) = Some (b, t)) as [b Hread].
  { destruct h as [|h0 [|h1 [|h2 [|h3 [|h4 [|h5 [|h6 [|h7 h]]]]]]]]; cbn [length] in Hl; try lia. eexists. intros t. reflexivity. }
  exists b. unfold decode_ctr_header. split.
  - rewrite <-(take_drop 8 h) at 1. rewrite Hread. cbn [mbind option_bind]. by rewrite decide_False by lia.
  - intros t Ht. assert (take (2 * bs) h ++ t = take 8 h ++ (take (2 * bs - 8) (drop 8 h) ++ t)) as E.
    { rewrite app_assoc. f_equal. rewrite <-(take_drop 8 (take (2 * bs) h)), take_take, Nat.min_l by lia. by rewrite skipn_firstn_comm. }
    rewrite E at 1. rewrite Hread. cbn [mbind option_bind].
    rewrite decide_False by (rewrite length_app, length_take; lia). do 2 f_equal.
    rewrite drop_app_le by (rewrite length_take; lia). rewrite take_app_le by (rewrite length_drop, length_take; lia).
    rewrite skipn_firstn_comm, take_take, Nat.min_l by lia. done.
Qed.

#[export, program] Instance ctr_provider_spec : EncryptionProviderSpec ctr_encryption ctr_cipher_stream := {
  provider_ok e := cipher_ok (ce_cipher e) /\ (2 * cipher_block_size (ce_cipher e) <= DEFAULT_HEADER_LENGTH)%nat;
}.
Next Obligation. intros e _. split; [apply (Nat.lt_0_succ 4095)|reflexivity]. Qed.
Next Obligation.
  intros filename e [Hk Hbs]. pose proof Hk as [H8 _]. cbn [create_header create_stream header_length ctr_provider].
  unfold ctr_create_header, ctr_create_stream. set (bs := cipher_block_size (ce_cipher e)) in *.
  assert (forall A (x y : A), (if decide (bs = 0)%nat then x else if decide (DEFAULT_HEADER_LENGTH < MIN_HEADER_LENGTH)%nat then x
    else if decide (DEFAULT_HEADER_LENGTH < 2 * bs)%nat then x else y) = y) as Hchecks.
  { intros A x y. rewrite !decide_False; [done|lia|unfold DEFAULT_HEADER_LENGTH, MIN_HEADER_LENGTH; lia|lia]. }
  rewrite Hchecks.
  set (h := map (fun i => Z.land (ce_rand e i) 0xFF) (seq 0 DEFAULT_HEADER_LENGTH)).
  assert (length h = DEFAULT_HEADER_LENGTH) as Hl by (unfold h; by rewrite length_map, length_seq).
  assert (Forall is_byte h) as Hh.
  { apply Forall_forall. intros x (i & -> & _)%list_elem_of_fmap. change 0xFF with (Z.ones 8). rewrite Z.land_ones by lia. apply (wrap_range 8). lia. }
  destruct (ctr_header_parts h bs Hl Hbs Hh H8) as (b & E1 & E2). rewrite E1. cbn [mbind option_bind].
  set (s := mkCtr (ce_cipher e) (take bs (drop bs h)) b).
  assert (ctr_ok s) as Hs.
  { split; [done|]. split; [unfold ctr_block_size; cbn [s cs_cipher iv_]; fold bs; rewrite length_take, length_drop; lia|].
    by apply Forall_take, Forall_drop. }
  unfold ctr_tail. pose proof (encrypt_spec s 0 (drop (2 * bs) h) Hs ltac:(unfold is_word; lia) ltac:(by apply Forall_drop)) as Ee.
  cbn [encrypt ctr_stream] in Ee. rewrite Ee. cbn [mbind option_bind].
  eexists _, _, _. split; [reflexivity|]. split; [rewrite length_app, image_length, length_take, length_drop; lia|].
  rewrite Hchecks.
  rewrite E2 by (rewrite image_length, length_drop; lia). cbn [mbind option_bind]. fold s.
  rewrite drop_app_length' by (rewrite length_take; lia).
  pose proof (decrypt_spec s 0 (drop (2 * bs) h) Hs ltac:(unfold is_word; lia) ltac:(by apply Forall_drop)) as Ed.
  cbn [decrypt ctr_stream] in Ed. rewrite Ed. cbn [mbind option_bind negb]. split; [reflexivity|].
  rewrite take_take, Nat.min_id. exact Hs.
Qed.

(** A block that is too small for the counter *)
Lemma crypt_loop_small fuel i off buf data s : (ctr_block_size s < 8)%nat -> crypt_loop (S fuel) i off buf data s = None.
Proof.
  intros Hs. assert (forall i data, crypt_block i data s = None) as Hn.
  { intros. unfold crypt_block. rewrite decide_True; [done|]. rewrite length_take. lia. }
  cbn [crypt_loop]. cbv zeta. rewrite !Hn. by destruct (decide (_ = ctr_block_size s)).
Qed.

(** ** Properties *)

(** C21: the counter mode. Whatever block cipher of at least 8 bytes it is built on, encrypting at an offset
    of the file is the exclusive or with a key stream that depends on the position only, so that data may
    be encrypted and decrypted in other pieces; decrypting inverts it. With blocks of less than 8 bytes the
    counter is written behind the scratch block, and no check of [create_header] prevents it. *)
Theorem ctr_encryption_spec :
  (forall (s : ctr_cipher_stream) (o : Z) (data : list Z), ctr_ok s -> is_word 64 o -> Forall is_byte data ->
     ctr_encrypt o data s = Some (true, imap (fun i b => Z.lxor b (key s (o + Z.of_nat i))) data) /\
     ctr_decrypt o (ctr_image s o data) s = Some (true, data) /\
     forall k n, (k < length data)%nat -> o + Z.of_nat k < 2 ^ 64 ->
       ctr_decrypt (o + Z.of_nat k) (take n (drop k (ctr_image s o data))) s = Some (true, take n (drop k data))) /\
  (forall e filename header, (0 < cipher_block_size (ce_cipher e) < 8)%nat -> ctr_create_header filename header e = None).
Proof.
  split.
  - intros s o data Hs Ho Hb. split; [by apply ctr_crypt_spec|]. split; [exact (decrypt_spec s o data Hs Ho Hb)|]. intros k n Hk Hlt.
    rewrite <-ctr_image_piece. exact (decrypt_spec s (o + Z.of_nat k) (take n (drop k data)) Hs ltac:(unfold is_word in *; lia) (Forall_take _ _ _ (Forall_drop _ _ _ Hb))).
  - intros e filename header Hbs. unfold ctr_create_header. set (bs := cipher_block_size (ce_cipher e)) in *.
    rewrite !decide_False by (unfold DEFAULT_HEADER_LENGTH, MIN_HEADER_LENGTH; lia).
    destruct (decode_ctr_header _ bs) as [[b iv]|] eqn:Ed; [|done]. cbn [mbind option_bind]. unfold ctr_tail, ctr_encrypt.
    by rewrite crypt_loop_small by (unfold ctr_block_size; cbn [cs_cipher]; lia).
Qed.

(** A toy cipher for the examples *)
Definition sample_cipher : cipher := mkCipher 16 (fun l => (true, map (fun b => Z.lxor b 0x5A) l)).

Lemma sample_cipher_ok : cipher_ok sample_cipher.
Proof.
  split; [apply (Nat.leb_le 8 16); reflexivity|]. intros l Hl Hb. eexists. split; [reflexivity|].
  split; [by rewrite length_map|]. apply Forall_forall. intros x (y & -> & Hy)%list_elem_of_fmap. rewrite Forall_forall in Hb.
  apply is_byte_lxor; [by apply Hb|split; lia].
Qed.

Definition sample_stream : ctr_cipher_stream := mkCtr sample_cipher (map Z.of_nat (seq 0 16)) 12345.

Lemma sample_stream_ok : ctr_ok sample_stream.
Proof. split; [apply sample_cipher_ok|]. split; [reflexivity|]. apply (bool_decide_unpack _). vm_compute. exact I. Qed.

Lemma ctr_encryption_spec_witness :
  ctr_decrypt 1000 (ctr_image sample_stream 1000 [1; 2; 3]) sample_stream = Some (true, [1; 2; 3]) /\
  ctr_create_header [] [] (mkCtrEncryption (mkCipher 4 (fun l => (true, l))) (fun _ => 0)) = None.
Proof.
  destruct ctr_encryption_spec as [H1 H2]. split; [|apply H2; split; apply Nat.ltb_lt; reflexivity].
  apply (H1 sample_stream 1000 [1; 2; 3]); [exact sample_stream_ok|split; lia|apply (bool_decide_unpack _); vm_compute; exact I].
Defined.

(** C22: the encryption header. What [encrypt] writes at the start of a file makes [decrypt] return the same
    cipher stream, for any provider that gives a stream for the headers it makes; an encrypted file is
    not opened without a provider, nor when the checksum of its decrypted header is another; a file without
    encryption is opened with or without a provider. *)
Theorem encryption_header_roundtrip {E C O I} `{EncryptionProviderSpec E C} `{DataOutputSpec O} `{DataInputSpec I}
    (crc : list Z -> Z) (filename : list Z) (out : O) (Hcrc : forall l, is_word 32 (crc l)) (Hout : out_ok out) :
  (forall e, provider_ok e -> exists c out' header,
     file_encrypt crc filename (Some e) out = Some (Done (Some c, out')) /\ stream_ok c /\ out_ok out' /\
     written out' = written out ++ header /\
     forall (in_ : I) (rest : list Z), in_ok in_ -> remaining in_ = header ++ rest ->
       (exists in', file_decrypt crc filename (Some e) in_ = Some (Done (Some c, in')) /\ in_ok in' /\ remaining in' = rest) /\
       file_decrypt (E := E) (C := C) crc filename None in_ = Some (Thrown (index_error "Failed to open encrypted file without cipher")) /\
       forall crc', (forall l, crc' l <> crc l) ->
         file_decrypt crc' filename (Some e) in_ = Some (Thrown (index_error "Invalid ecryption header"))) /\
  exists out' header, file_encrypt (E := E) (C := C) crc filename None out = Some (Done (None, out')) /\
    written out' = written out ++ header /\
    forall (in_ : I) (rest : list Z) (e : option E), in_ok in_ -> remaining in_ = header ++ rest ->
      exists in', file_decrypt (C := C) crc filename e in_ = Some (Done (None, in')) /\ in_ok in' /\ remaining in' = rest.
Proof.
  split.
  - intros e He. destruct (header_length_spec e He) as [Hpos Hlen].
    destruct (create_header_spec filename e He) as (h & c & h' & E1 & Hh & E2 & Hc). pose proof (block_size_spec c Hc) as Hbs.
    destruct (write_string_spec h out Hout ltac:(lia)) as [Ho1 Hw1].
    destruct (out_iter_spec (VInt.vwrite64 (crc h')) (write_string h out) Ho1) as [Ho2 Hw2].
    eexists c, (write_vlong (crc h') (write_string h out)), (string_bytes h ++ VInt.vwrite64 (crc h')).
    split; [|split; [done|split; [done|split; [by rewrite app_assoc, <-Hw1|]]]].
    { unfold file_encrypt. rewrite decide_False by lia. rewrite E1, bind_lift. cbn [negb]. rewrite bind_check.
      rewrite E2, bind_lift. by rewrite bool_decide_false by lia. }
    intros in_ rest Hin Hr. rewrite <-app_assoc in Hr.
    destruct (read_string_spec h _ in_ Hin ltac:(lia) Hr) as (in1 & R1 & Hin1 & Hr1).
    assert (is_word 64 (crc h')) as Hw64 by (pose proof (Hcrc h') as Hw; unfold is_word in *; lia).
    destruct (read_vlong_spec _ _ _ Hin1 Hw64 Hr1) as (in2 & R2 & Hin2 & Hr2).
    assert (forall crc', file_decrypt crc' filename (Some e) in_ =
      if crc' h' =? crc h' then Some (Done (Some c, in2)) else Some (Thrown (index_error "Invalid ecryption header"))) as Hdec.
    { intros crc'. unfold file_decrypt. rewrite R1, bind_lift. rewrite decide_False by lia.
      rewrite bool_decide_false by (intros Hne; apply Hne; exact Hh). rewrite bind_check, E2, bind_lift.
      rewrite bool_decide_false by lia. rewrite bind_check, R2, bind_lift. by destruct (crc' h' =? crc h'). }
    split; [|split].
    + exists in2. rewrite Hdec, Z.eqb_refl. done.
    + unfold file_decrypt. rewrite R1, bind_lift. by rewrite decide_False by lia.
    + intros crc' Hne. rewrite Hdec. destruct (Z.eqb_spec (crc' h') (crc h')) as [Eq|]; [by apply Hne in Eq|done].
  - exists (write_string [] out), (string_bytes []). split; [done|]. split; [by apply write_string_spec|].
    intros in_ rest e Hin Hr. destruct (read_string_spec [] _ in_ Hin ltac:(done) Hr) as (in1 & R1 & Hin1 & Hr1).
    exists in1. split; [|done]. unfold file_decrypt. rewrite R1, bind_lift. done.
Qed.

Definition sample_encryption : ctr_encryption := mkCtrEncryption sample_cipher Z.of_nat.

Lemma encryption_header_roundtrip_witness :
  (exists c out' header, file_encrypt (fun _ => 7) [102] (Some sample_encryption) (BufferedOutput.Make [] 0 [] 16) = Some (Done (Some c, out')) /\
     exists in', file_decrypt (fun _ => 7) [102] (Some sample_encryption) (BytesView.Make (header ++ [9]) 0) = Some (Done (Some c, in')) /\
       remaining in' = [9]).
Proof.
  destruct (encryption_header_roundtrip (I := BytesView.t) (fun _ => 7) [102] (BufferedOutput.Make [] 0 [] 16)
    ltac:(intros; split; lia) ltac:(split; cbn; lia)) as [H _].
  destruct (H sample_encryption) as (c & out' & header & E & _ & _ & _ & Hin).
  - split; [exact sample_cipher_ok|]. apply Nat.leb_le. vm_compute. reflexivity.
  - exists c, out', header. split; [exact E|].
    destruct (Hin (BytesView.Make (header ++ [9]) 0) [9]) as [(in' & E' & _ & Hr) _]; [apply Nat.le_0_l|reflexivity|].
    exists in'. split; [exact E'|exact Hr].
Defined.

(** C20: an encrypted output is a byte sink over the output below, and an encrypted input reads it back. Every
    operation of the output keeps its invariant and appends its bytes to the plain text, the pointer counts
    them, and flushing and closing leave the cipher text of all of them behind what the file held before;
    what the buffer of an encrypted input is filled with, at any position of a file with that cipher text and
    with padding behind it, is the plain text. *)
Theorem encrypted_stream_refines {O I C} `{IndexOutputSpec O} `{FileInputSpec I} `{EncryptionStreamSpec C} (big : bool)
    (pre plain : list Z) (s : encrypted_output O C) (Hs : eo_inv pre plain s) :
  let keeps bs x := exists s', x = Some (Done s') /\ eo_inv pre (plain ++ bs) s' in
  (forall bs, Forall is_byte bs -> Z.of_nat (length pre) + Z.of_nat (length (plain ++ bs)) < 2 ^ 64 ->
     keeps bs (eo_write_bytes bs s) /\ (forall b, bs = [b] -> keeps bs (eo_write_byte b s)) /\
     (forall v, bs = Fixed.write32 (wrap 32 v) -> keeps bs (eo_write_int big v s)) /\
     (forall v, bs = Fixed.write64 (wrap 64 v) -> keeps bs (eo_write_long big v s)) /\
     (forall v, is_word 32 v -> bs = VInt.vwrite32 v -> keeps bs (eo_write_vint v s)) /\
     (forall v, is_word 64 v -> bs = VInt.vwrite64 v -> keeps bs (eo_write_vlong v s))) /\
  eo_file_pointer s = length plain /\
  (exists s', eo_flush s = Some (Done s') /\ eo_inv pre plain s' /\ eo_buf s' = [] /\
     written (eo_out s') = pre ++ image (eo_cipher s) (Z.of_nat (length pre)) plain) /\
  exists s', eo_CloseImpl s = Some (Done (length plain, s')) /\
    forall (in_ : I) (rest : list Z) (num_buffers p n : nat), let f := written (eo_out s') ++ rest in
      at_ f (length pre) in_ -> Z.of_nat (length f) < 2 ^ 64 -> (p < length plain)%nat -> (p + n <= length plain)%nat ->
      let ei := ei_make (length f) in_ (eo_cipher s) num_buffers (length rest) in
      ei_length ei = length plain /\
      exists ei', ei_read_internal n (ei_seek_internal p ei) = Some (Done (take n (drop p plain), ei')).
Proof.
  cbv zeta. split; [|split; [by apply (eo_pointer pre)|split]].
  - intros bs Hb Hl. split; [by apply eo_write_bytes_inv|]. split; [|split; [|split; [|split]]].
    + intros b ->. apply eo_write_byte_inv; [done| |done]. exact (proj1 (Forall_singleton _ _) Hb).
    + intros v ->. apply eo_value_inv; [done|apply Fixed.write32_ptr_eq|done|done|done].
    + intros v ->. apply eo_value_inv; [done|apply Fixed.write64_ptr_eq|done|done|done].
    + intros v Hv ->. apply eo_value_inv; [done|done|done|by apply BufferedOutput.vwrite_max_length|done].
    + intros v Hv ->. apply eo_value_inv; [done|done|done|by apply BufferedOutput.vwrite_max_length|done].
  - destruct (eo_flush_inv _ _ _ Hs) as (s' & F1 & F2 & F3 & _ & F4). by exists s'.
  - destruct (eo_close_spec _ _ _ Hs) as (s' & Ecl & Hw). exists s'. split; [done|]. intros in_ rest nb p n Hat Hl Hp Hn.
    pose proof (ei_make_at (written (eo_out s') ++ rest) plain pre rest (eo_cipher s) in_ nb (length rest)
      ltac:(by rewrite Hw, <-app_assoc) eq_refl Hat (eo_cipher_ok _ _ _ Hs) (eo_bytes _ _ _ Hs) Hl) as Hei.
    split; [apply Hei|]. pose proof (ei_seek_at _ _ _ _ _ Hei Hp) as Hei'.
    destruct (ei_read_at _ _ _ n _ Hei' Hn) as (ei' & E' & _). by exists ei'.
Qed.

Lemma encrypted_stream_refines_witness : exists s', eo_write_bytes [1; 2; 3] (eo_make (BufferedOutput.Make [] 0 [] 4) sample_stream 1) = Some (Done s') /\
  eo_inv [] ([] ++ [1; 2; 3]) s'.
Proof.
  apply (encrypted_stream_refines (I := BytesView.t) false [] [] (eo_make (BufferedOutput.Make [] 0 [] 4) sample_stream 1)).
  - pose proof (eo_make_inv (BufferedOutput.Make [] 0 [] 4) sample_stream 1) as H.
    assert (written (BufferedOutput.Make [] 0 [] 4) = []) as E by reflexivity. rewrite E in H.
    apply H; [split; cbn; lia|exact sample_stream_ok|reflexivity].
  - apply (bool_decide_unpack _). vm_compute. exact I.
  - reflexivity.
Defined.
