(* ===== verification/BitPacking.v ===== *)
(** Bit packing: the block codecs of [core/utils/bit_packing.cpp] and [bit_packing.hpp] (Module
    [packed]).

    A block of [W] words of [W] bits ([W] = 32 or 64) whose values need [N] bits is stored as [N] words.
    The source unrolls the loop over the [W] values of a block; [fastpack_steps] and [fastunpack_steps]
    run the unrolled steps in order.  An access outside the arrays is [None]. *)
From S2P Require Import Prelude BitUtils BytesIO.

(** ** Radix [2^w] digits, least significant first *)

Fixpoint digits_value (w : Z) (l : list Z) : Z :=
  match l with [] => 0 | x :: l => Z.lor x (Z.shiftl (digits_value w l) w) end.
Fixpoint digits (w : Z) (n : nat) (x : Z) : list Z :=
  match n with O => [] | S n => wrap w x :: digits w n (Z.shiftr x w) end.

Module packed.

(** *** Packing *)

(** [*(out + k) |= x] *)
Definition word_or (k x : Z) (out : list Z) : option (list Z) :=
  w ← out !! Z.to_nat k; Some (<[Z.to_nat k := Z.lor w x]> out).

(** [n] unrolled steps of [fastpack<N>], the first with number [j]; [o] is the index of [out]. *)
Fixpoint fastpack_steps (W N : Z) (n : nat) (j o : Z) (in_ out : list Z) : option (list Z) :=
  match n, in_ with
  | O, _ => Some out
  | S n, v :: in_ =>
      out ← word_or o ((v mod 2 ^ N) <<[W] ((N * j) mod W)) out;
      match n with
      | O => Some out
      | S _ =>
          if (N * (j + 1)) mod W <? (N * j) mod W then
            out ← word_or (o + 1) (Z.shiftr (v mod 2 ^ N) (N - (N * (j + 1)) mod W)) out;
            fastpack_steps W N n (j + 1) (o + 1) in_ out
          else fastpack_steps W N n (j + 1) o in_ out
      end
  | S _, [] => None
  end.

(** [fastpack<N>], of [W] unrolled steps; [fastpack<W>] copies the block. *)
Definition fastpack (W N : Z) (in_ out : list Z) : option (list Z) :=
  if N =? W then
    if decide (Z.to_nat W <= length in_ /\ Z.to_nat W <= length out)%nat
    then Some (take (Z.to_nat W) in_ ++ drop (Z.to_nat W) out) else None
  else fastpack_steps W N (Z.to_nat W) 0 0 in_ out.
Definition fastpack_32 := fastpack 32.
Definition fastpack_64 := fastpack 64.

(** [pack_block]: the switch over [bit]; the default case leaves [out]. *)
Definition pack_block (W : Z) (in_ out : list Z) (bit : Z) : option (list Z) :=
  if (1 <=? bit) && (bit <=? W) then fastpack W bit in_ out else Some out.
Definition pack_block_32 := pack_block 32.
Definition pack_block_64 := pack_block 64.

(** *** Unpacking *)

(** [n] unrolled steps of [fastunpack<N>], the first with number [j]; [o] is the index of [in]. *)
Fixpoint fastunpack_steps (W N : Z) (n : nat) (j o : Z) (in_ : list Z) : option (list Z) :=
  match n with
  | O => Some []
  | S n =>
      w ← in_ !! Z.to_nat o;
      let x := Z.shiftr w ((N * j) mod W) mod 2 ^ N in
      match n with
      | O => Some [x]
      | S _ =>
          if (N * (j + 1)) mod W <? (N * j) mod W then
            w' ← in_ !! Z.to_nat (o + 1);
            rest ← fastunpack_steps W N n (j + 1) (o + 1) in_;
            Some (Z.lor x ((w' mod 2 ^ ((N * (j + 1)) mod W)) <<[W] (N - (N * (j + 1)) mod W)) :: rest)
          else
            rest ← fastunpack_steps W N n (j + 1) o in_;
            Some (x :: rest)
      end
  end.

Definition fastunpack (W N : Z) (in_ : list Z) : option (list Z) :=
  if N =? W then
    if decide (Z.to_nat W <= length in_)%nat then Some (take (Z.to_nat W) in_) else None
  else fastunpack_steps W N (Z.to_nat W) 0 0 in_.
Definition fastunpack_32 := fastunpack 32.
Definition fastunpack_64 := fastunpack 64.

(** [unpack_block]: the block written over [out]; the default case leaves [out]. *)
Definition unpack_block (W : Z) (in_ out : list Z) (bit : Z) : option (list Z) :=
  if (1 <=? bit) && (bit <=? W) then
    block ← fastunpack W bit in_; Some (block ++ drop (length block) out)
  else Some out.
Definition unpack_block_32 := unpack_block 32.
Definition unpack_block_64 := unpack_block 64.

(** *** Random access *)

(** [fastpack_at<N, I>] *)
Definition fastpack_at_NI (W N I : Z) (in_ : list Z) : option Z :=
  if ((N * (I + 1)) mod W <? (N * I) mod W) && (1 + N * I / W <? N) then
    a ← in_ !! Z.to_nat (N * I / W);
    b ← in_ !! Z.to_nat (1 + N * I / W);
    Some (Z.lor (Z.shiftr a ((N * I) mod W) mod 2 ^ N)
                ((b mod 2 ^ ((N * (I + 1)) mod W)) <<[W] (N - (N * (I + 1)) mod W)))
  else
    a ← in_ !! Z.to_nat (N * I / W);
    Some (Z.shiftr a ((N * I) mod W) mod 2 ^ N).

(** [fastpack_at<N>]: the switch over [i] *)
Definition fastpack_at_N (W N : Z) (in_ : list Z) (i : Z) : option Z :=
  if N =? W then in_ !! Z.to_nat i
  else if i <? W then fastpack_at_NI W N i in_ else Some 0.
Definition fastpack_at_N_32 := fastpack_at_N 32.
Definition fastpack_at_N_64 := fastpack_at_N 64.

(** [fastpack_at]: the switch over [bits] *)
Definition fastpack_at (W : Z) (in_ : list Z) (i bits : Z) : option Z :=
  if (1 <=? bits) && (bits <=? W) then fastpack_at_N W bits in_ i else Some 0.
Definition fastpack_at_32 := fastpack_at 32.
Definition fastpack_at_64 := fastpack_at 64.

(** [at] *)
Definition at_ (W : Z) (encoded : list Z) (i bit : Z) : option Z :=
  fastpack_at W (drop (Z.to_nat (bit * (i / W))) encoded) (i mod W) bit.

(** *** Sizes *)

Definition maxbits (W : Z) (vals : list Z) : Z := Math.bits_required W (foldl Z.lor 0 vals).
Definition maxbits32 := maxbits 32.
Definition maxbits64 := maxbits 64.
Definition bytes_required_32 (count bits : Z) : Z := Math.div_ceil32 (wrap 32 (count * bits)) 8.
Definition bytes_required_64 (count bits : Z) : Z := Math.div_ceil64 (wrap 64 (count * bits)) 8.
Definition blocks_required_32 (count bits : Z) : Z := Math.div_ceil32 (wrap 32 (count * bits)) (8 * 4).
Definition blocks_required_64 (count bits : Z) : Z := Math.div_ceil64 (wrap 64 (count * bits)) (8 * 8).
Definition items_required (count : Z) : Z := wrap 32 (32 * Math.div_ceil32 count 32).
Definition iterations_required (count : Z) : Z := items_required count / 32.
Definition max_value (w bits : Z) : Z := if bits =? w then 2 ^ w - 1 else ~[w] (wrap w (-1) <<[w] bits).

(** *** Sequences of blocks: [for (; first < last; first += W, out += bit)] *)

(** The iterations of the loop over [n] values *)
Definition blocks (W : Z) (n : nat) : nat := Z.to_nat ((Z.of_nat n + W - 1) / W).
Fixpoint pack_blocks (W : Z) (blocks : nat) (first out : list Z) (bit : Z) : option (list Z) :=
  match blocks with
  | O => Some out
  | S blocks =>
      out ← pack_block W first out bit;
      rest ← pack_blocks W blocks (drop (Z.to_nat W) first) (drop (Z.to_nat bit) out) bit;
      Some (take (Z.to_nat bit) out ++ rest)
  end.
Definition pack (W : Z) (first out : list Z) (bit : Z) : option (list Z) :=
  pack_blocks W (blocks W (length first)) first out bit.
Definition pack_32 := pack 32.
Definition pack_64 := pack 64.

Fixpoint unpack_blocks (W : Z) (blocks : nat) (first in_ : list Z) (bit : Z) : option (list Z) :=
  match blocks with
  | O => Some first
  | S blocks =>
      first ← unpack_block W in_ first bit;
      rest ← unpack_blocks W blocks (drop (Z.to_nat W) first) (drop (Z.to_nat bit) in_) bit;
      Some (take (Z.to_nat W) first ++ rest)
  end.

Definition unpack (W : Z) (first in_ : list Z) (bit : Z) : option (list Z) :=
  unpack_blocks W (blocks W (length first)) first in_ bit.
Definition unpack_32 := unpack 32.
Definition unpack_64 := unpack 64.

(** *** [iterator<T>] *)

Record iterator := Iterator { packed_ : list Z; i_ : Z; bits_ : Z }.
Definition iter_add (v : Z) (it : iterator) : iterator := Iterator (packed_ it) (wrap 64 (i_ it + v)) (bits_ it).
Definition iter_sub (v : Z) (it : iterator) : iterator := Iterator (packed_ it) (wrap 64 (i_ it - v)) (bits_ it).
Definition iter_next : iterator -> iterator := iter_add 1.
Definition iter_prev : iterator -> iterator := iter_sub 1.
Definition iter_distance (l r : iterator) : Z := to_signed 64 (i_ l - i_ r).
Definition iter_deref (W : Z) (it : iterator) : option Z := at_ W (packed_ it) (i_ it) (bits_ it).
Definition iter_eq (l r : iterator) : bool := i_ l =? i_ r.
Definition iter_lt (l r : iterator) : bool := i_ l <? i_ r.
Definition iter_ge (l r : iterator) : bool := negb (iter_lt l r).
Definition iter_gt (l r : iterator) : bool := i_ r <? i_ l.
Definition iter_le (l r : iterator) : bool := negb (iter_gt l r).

(** *** Digits *)

Lemma length_digits w n x : length (digits w n x) = n.
Proof. revert x. induction n; intros; cbn; auto. Qed.

Lemma digits_words w n x : 0 <= w -> Forall (is_word w) (digits w n x).
Proof. intros Hw. revert x. induction n; intros; constructor; auto. by apply wrap_range. Qed.

Lemma digits_head w x y : 0 <= w -> is_word w x -> wrap w (Z.lor x (Z.shiftl y w)) = x.
Proof. intros Hw Hx. rewrite <-(wrap_small w x Hx) at 2. bitwise. Qed.

Lemma digits_tail w x y : 0 <= w -> is_word w x -> Z.shiftr (Z.lor x (Z.shiftl y w)) w = y.
Proof. intros Hw Hx. rewrite <-(wrap_small w x Hx). bitwise; f_equal; lia. Qed.

Lemma digits_digits_value w l : 0 <= w -> Forall (is_word w) l -> digits w (length l) (digits_value w l) = l.
Proof.
  intros Hw. induction 1 as [|x l Hx Hl IH]; cbn [length digits digits_value]; [done|].
  by rewrite digits_head, digits_tail, IH.
Qed.

Lemma digits_value_range w l : 0 <= w -> Forall (is_word w) l -> is_word (w * Z.of_nat (length l)) (digits_value w l).
Proof.
  intros Hw. induction 1 as [|x l Hx Hl IH]; cbn [length digits_value]; [by rewrite Z.mul_0_r|].
  rewrite lor_low_high by done. unfold is_word in *. rewrite Nat2Z.inj_succ.
  replace (w * Z.succ (Z.of_nat (length l))) with (w * Z.of_nat (length l) + w) by lia.
  rewrite Z.pow_add_r by lia. nia.
Qed.

Lemma digits_value_nonneg w l : 0 <= w -> Forall (is_word w) l -> 0 <= digits_value w l.
Proof. intros Hw Hl. by apply (digits_value_range w l). Qed.

(** The [k]-th digit is a slice of the number. *)
Lemma digits_value_lookup w l (k : nat) x : 0 <= w -> Forall (is_word w) l -> l !! k = Some x ->
  x = wrap w (Z.shiftr (digits_value w l) (w * Z.of_nat k)).
Proof.
  intros Hw Hl. revert k. induction Hl as [|y l Hy Hl IH]; intros k Hk; [done|].
  cbn [digits_value]. destruct k as [|k].
  - injection Hk as ->. by rewrite Z.mul_0_r, Z.shiftr_0_r, digits_head.
  - rewrite (IH k Hk). replace (w * Z.of_nat (S k)) with (w + w * Z.of_nat k) by lia.
    by rewrite <-Z.shiftr_shiftr, digits_tail by (done || nia).
Qed.

Lemma digits_lookup w n x (k : nat) : 0 <= w -> (k < n)%nat ->
  digits w n x !! k = Some (wrap w (Z.shiftr x (w * Z.of_nat k))).
Proof.
  intros Hw. revert x k. induction n as [|n IH]; intros x k Hk; [lia|]. destruct k as [|k]; cbn.
  - by rewrite Z.mul_0_r, Z.shiftr_0_r.
  - rewrite IH by lia. rewrite Z.shiftr_shiftr by nia. do 3 f_equal. lia.
Qed.

Lemma digits_value_app w l1 l2 : 0 <= w ->
  digits_value w (l1 ++ l2) = Z.lor (digits_value w l1) (Z.shiftl (digits_value w l2) (w * Z.of_nat (length l1))).
Proof.
  intros Hw. induction l1 as [|x l1 IH]; cbn [app digits_value length].
  - by rewrite Z.mul_0_r, Z.shiftl_0_r, Z.lor_0_l.
  - rewrite IH, Z.shiftl_lor, Z.lor_assoc, Z.shiftl_shiftl by nia. do 2 f_equal. lia.
Qed.

Lemma digits_value_zeros w n : digits_value w (replicate n 0) = 0.
Proof. induction n as [|n IH]; cbn; [done|]. by rewrite IH, Z.shiftl_0_l. Qed.

(** *** Where a value of a block is stored *)

(** The bits [N*j .. N*(j+1)] of a block begin in word [N*j / W], and end in the next word when the
    comparison of the source holds. *)
Lemma split_point W N j : 0 < N < W -> 0 <= j ->
  let q := N * j / W in let r := (N * j) mod W in
  N * j = q * W + r /\ 0 <= r < W /\ 0 <= q /\
  (((N * (j + 1)) mod W <? r) = (W <=? r + N)) /\
  (W <= r + N -> (N * (j + 1)) mod W = r + N - W /\ N * (j + 1) / W = q + 1) /\
  (r + N < W -> (N * (j + 1)) mod W = r + N /\ N * (j + 1) / W = q).
Proof.
  intros HN Hj q r.
  assert (N * j = q * W + r) as E by (unfold q, r; pose proof (Z.div_mod (N * j) W); lia).
  assert (0 <= r < W) as Hr by (apply Z.mod_pos_bound; lia).
  assert (0 <= q) as Hq by (apply Z.div_pos; nia).
  assert (W <= r + N -> (N * (j + 1)) mod W = r + N - W /\ N * (j + 1) / W = q + 1) as H1.
  { intros H. split; symmetry; [apply (Z.mod_unique_pos _ _ (q + 1))|apply (Z.div_unique_pos _ _ _ (r + N - W))]; lia. }
  assert (r + N < W -> (N * (j + 1)) mod W = r + N /\ N * (j + 1) / W = q) as H2.
  { intros H. split; symmetry; [apply (Z.mod_unique_pos _ _ q)|apply (Z.div_unique_pos _ _ _ (r + N))]; lia. }
  split; [done|]. split; [done|]. split; [done|]. split; [|done].
  destruct (Z.leb_spec W (r + N)) as [H|H].
  - destruct (H1 H) as [-> _]. apply Z.ltb_lt. lia.
  - destruct (H2 H) as [-> _]. apply Z.ltb_ge. lia.
Qed.

(** *** Packing changes the radix *)

Lemma is_word_lor w x y : 0 <= w -> is_word w x -> is_word w y -> is_word w (Z.lor x y).
Proof.
  intros Hw Hx Hy. rewrite <-(wrap_small w x Hx), <-(wrap_small w y Hy).
  replace (Z.lor (wrap w x) (wrap w y)) with (wrap w (Z.lor x y)) by bitwise. by apply wrap_range.
Qed.

Lemma word_or_value W (k : nat) x out : 0 <= W -> Forall (is_word W) out -> is_word W x -> (k < length out)%nat ->
  exists out', word_or (Z.of_nat k) x out = Some out' /\ length out' = length out /\ Forall (is_word W) out' /\
    digits_value W out' = Z.lor (digits_value W out) (Z.shiftl x (W * Z.of_nat k)).
Proof.
  intros HW Hout Hx Hk. unfold word_or. rewrite Nat2Z.id.
  destruct (lookup_lt_is_Some_2 out k Hk) as [w Hw]. rewrite Hw. cbn [mbind option_bind].
  eexists; split; [done|]. rewrite length_insert. split; [done|]. split.
  - apply Forall_insert; [done|]. apply is_word_lor; [done| |done]. by eapply Forall_lookup_1.
  - clear Hk. revert k Hw. induction Hout as [|y out Hy Hout IH]; intros k Hw; [done|]. destruct k as [|k].
    + injection Hw as ->. cbn [insert list_insert digits_value]. rewrite Z.mul_0_r, Z.shiftl_0_r.
      rewrite <-!Z.lor_assoc. f_equal. apply Z.lor_comm.
    + change (<[S k:=?v]> (y :: out)) with (y :: <[k:=v]> out). cbn [digits_value]. rewrite (IH k Hw), Z.shiftl_lor, Z.lor_assoc.
      rewrite Z.shiftl_shiftl by nia. do 2 f_equal. lia.
Qed.

(** A value put at bit [r] of a word, and its overflow put at the start of the next one. *)
Lemma split_value W N r q v : 0 < N < W -> 0 <= r < W -> 0 <= q -> is_word N v ->
  Z.shiftl v (q * W + r) =
  if W <=? r + N
  then Z.lor (Z.shiftl (v <<[W] r) (W * q)) (Z.shiftl (Z.shiftr v (N - (r + N - W))) (W * (q + 1)))
  else Z.shiftl (v <<[W] r) (W * q).
Proof.
  intros HN Hr Hq Hv. replace (q * W + r) with (r + W * q) by lia.
  replace (N - (r + N - W)) with (W - r) by lia. replace (W * (q + 1)) with (W + W * q) by lia.
  assert (0 <= W * q) as Hqw by nia. remember (W * q) as Q eqn:EQ. clear EQ.
  rewrite <-(wrap_small N v Hv).
  destruct (Z.leb_spec W (r + N)); bitwise; f_equal; lia.
Qed.

Lemma shiftl_is_word W r v : 0 <= W -> is_word W (v <<[W] r).
Proof. intros. by apply wrap_range. Qed.

Lemma shiftr_is_word W N k v : 0 < N < W -> 0 <= k -> is_word N v -> is_word W (Z.shiftr v k).
Proof.
  intros HN Hk Hv. unfold is_word in *. rewrite Z.shiftr_div_pow2 by lia. pose proof (pow2_pos k Hk).
  assert (2 ^ N <= 2 ^ W) by (apply Z.pow_le_mono_r; lia).
  split; [apply Z.div_pos; lia|]. apply Z.div_lt_upper_bound; nia.
Qed.

Lemma fastpack_steps_value W N n j in_ out :
  0 < N < W -> 0 <= j -> j + Z.of_nat n = W -> length in_ = n ->
  length out = Z.to_nat N -> Forall (is_word W) out ->
  exists out', fastpack_steps W N n j (N * j / W) in_ out = Some out' /\ length out' = length out /\
    Forall (is_word W) out' /\
    digits_value W out' =
      Z.lor (digits_value W out) (Z.shiftl (digits_value N (map (wrap N) in_)) (N * j)).
Proof.
  intros HN. revert j in_ out. induction n as [|n IH]; intros j in_ out Hj Hn Hin Hlen Hout.
  { destruct in_; [|done]. exists out. cbn. rewrite Z.shiftl_0_l, Z.lor_0_r. done. }
  destruct in_ as [|v in_]; [done|]. injection Hin as Hin.
  destruct (split_point W N j HN Hj) as (Ej & Hr & Hq & Hlt & Hspill & Hfit).
  remember (N * j / W) as q eqn:Eq. remember ((N * j) mod W) as r eqn:Er.
  cbn [fastpack_steps map digits_value]. rewrite <-Er. fold (wrap N v).
  assert (is_word N (wrap N v)) as Hv by (apply wrap_range; lia).
  assert (q < N) as HqN by nia.
  destruct (word_or_value W (Z.to_nat q) (wrap N v <<[W] r) out) as (out1 & E1 & L1 & F1 & V1);
    [lia|done|apply shiftl_is_word; lia|lia|].
  rewrite Z2Nat.id in E1, V1 by lia. rewrite E1. cbn [mbind option_bind].
  rewrite Z.shiftl_lor, Z.lor_assoc, Z.shiftl_shiftl by nia. replace (N + N * j) with (N * (j + 1)) by lia.
  destruct n as [|n].
  - destruct in_; [|done]. exists out1. split; [done|]. rewrite L1. split; [done|]. split; [done|].
    cbn [map digits_value]. rewrite Z.shiftl_0_l, Z.lor_0_r, V1, Ej, (split_value W N r q) by done. f_equal.
    destruct (Z.leb_spec W (r + N)) as [H|H]; [|done].
    assert (r + N = W) as HrN.
    { assert (j = W - 1) as -> by lia. assert (r + N = W * (N - q)) by lia. assert (N - q = 1) by nia. nia. }
    replace (N - (r + N - W)) with N by lia.
    assert (Z.shiftr (wrap N v) N = 0) as -> by bitwise. by rewrite Z.shiftl_0_l, Z.lor_0_r.
  - rewrite Hlt. rewrite Ej, (split_value W N r q) by done.
    destruct (Z.leb_spec W (r + N)) as [H|H].
    + destruct (Hspill H) as [Hm Hd]. rewrite Hm.
      assert (q + 1 < N) as HqN1 by nia.
      destruct (word_or_value W (Z.to_nat (q + 1)) (Z.shiftr (wrap N v) (N - (r + N - W))) out1)
        as (out2 & E2 & L2 & F2 & V2); [lia|done|apply (shiftr_is_word W N); [done|lia|done]|lia|].
      rewrite Z2Nat.id in E2, V2 by lia. rewrite E2. cbn [mbind option_bind]. rewrite <-Hd.
      destruct (IH (j + 1) in_ out2) as (out' & E' & L' & F' & V'); [lia..|done|].
      exists out'. split; [done|]. split; [lia|]. split; [done|].
      by rewrite Hd, V', V2, V1, !Z.lor_assoc.
    + destruct (Hfit H) as [Hm Hd]. rewrite <-Hd.
      destruct (IH (j + 1) in_ out1) as (out' & E' & L' & F' & V'); [lia..|done|].
      exists out'. split; [done|]. split; [lia|]. split; [done|].
      by rewrite Hd, V', V1.
Qed.

(** *** Unpacking changes it back *)

(** A slice of a number, read from the words that hold it. *)
Lemma merge_value W N r q D : 0 < N < W -> 0 <= r < W -> 0 <= q ->
  wrap N (Z.shiftr D (q * W + r)) =
  if W <=? r + N
  then Z.lor (wrap N (Z.shiftr (wrap W (Z.shiftr D (W * q))) r))
         (wrap (r + N - W) (wrap W (Z.shiftr D (W * (q + 1)))) <<[W] (N - (r + N - W)))
  else wrap N (Z.shiftr (wrap W (Z.shiftr D (W * q))) r).
Proof.
  intros HN Hr Hq. replace (q * W + r) with (r + W * q) by lia.
  replace (W * (q + 1)) with (W + W * q) by lia.
  assert (0 <= W * q) as Hqw by nia. remember (W * q) as Q eqn:EQ. clear EQ.
  destruct (Z.leb_spec W (r + N)); bitwise; f_equal; lia.
Qed.

Lemma merge_nothing W k x : wrap 0 x <<[W] k = 0.
Proof. unfold wrap. by rewrite Z.mod_1_r, Z.shiftl_0_l, Zmod_0_l. Qed.

Lemma block_lookup W in_ (k : Z) : 0 <= W -> Forall (is_word W) in_ -> 0 <= k < Z.of_nat (length in_) ->
  in_ !! Z.to_nat k = Some (wrap W (Z.shiftr (digits_value W in_) (W * k))).
Proof.
  intros HW Hin Hk. destruct (lookup_lt_is_Some_2 in_ (Z.to_nat k)) as [w Hw]; [lia|].
  rewrite Hw. f_equal. rewrite (digits_value_lookup W in_ _ _ HW Hin Hw). by rewrite Z2Nat.id by lia.
Qed.

(** The last value of a block ends with its last word. *)
Lemma last_fits W N j : 0 < N < W -> 0 <= j < W -> 0 <= N * j / W < N /\
  (N * j / W + 1 = N -> W <= (N * j) mod W + N -> (N * j) mod W + N = W).
Proof.
  intros HN Hj. pose proof (split_point W N j HN ltac:(lia)) as (Ej & Hr & Hq & _).
  split; [nia|]. intros Hlast Hw. nia.
Qed.

Lemma fastunpack_steps_value W N n j in_ :
  0 < N < W -> 0 <= j -> j + Z.of_nat n = W -> (Z.to_nat N <= length in_)%nat -> Forall (is_word W) in_ ->
  fastunpack_steps W N n j (N * j / W) in_ = Some (digits N n (Z.shiftr (digits_value W in_) (N * j))).
Proof.
  intros HN. revert j. induction n as [|n IH]; intros j Hj Hn Hlen Hin; [done|].
  destruct (split_point W N j HN Hj) as (Ej & Hr & Hq & Hlt & Hspill & Hfit).
  destruct (last_fits W N j HN ltac:(lia)) as [HqN _].
  remember (N * j / W) as q eqn:Eq. remember ((N * j) mod W) as r eqn:Er.
  cbn [fastunpack_steps digits]. rewrite <-Er.
  rewrite (block_lookup W in_ q) by (done || lia). cbn [mbind option_bind].
  rewrite Z.shiftr_shiftr by lia. rewrite Ej at 1. rewrite (merge_value W N r q) by done.
  destruct n as [|n].
  - cbn [digits]. do 2 f_equal. destruct (Z.leb_spec W (r + N)) as [H|H]; [|done].
    assert (r + N = W) as HrN.
    { assert (j = W - 1) as -> by lia. assert (r + N = W * (N - q)) by lia. assert (N - q = 1) by nia. nia. }
    replace (r + N - W) with 0 by lia. by rewrite merge_nothing, Z.lor_0_r.
  - rewrite Hlt. replace (N * j + N) with (N * (j + 1)) by lia.
    destruct (Z.leb_spec W (r + N)) as [H|H].
    + destruct (Hspill H) as [Hm Hd]. rewrite Hm. assert (q + 1 < N) as HqN1 by nia.
      rewrite (block_lookup W in_ (q + 1)) by (done || lia). cbn [mbind option_bind].
      specialize (IH (j + 1) ltac:(lia) ltac:(lia) Hlen Hin). rewrite Hd in IH. by rewrite IH.
    + destruct (Hfit H) as [Hm Hd].
      specialize (IH (j + 1) ltac:(lia) ltac:(lia) Hlen Hin). rewrite Hd in IH. by rewrite IH.
Qed.

Lemma fastpack_at_NI_value W N i in_ : 0 < N < W -> 0 <= i < W -> (Z.to_nat N <= length in_)%nat ->
  Forall (is_word W) in_ ->
  fastpack_at_NI W N i in_ = Some (wrap N (Z.shiftr (digits_value W in_) (N * i))).
Proof.
  intros HN Hi Hlen Hin.
  destruct (split_point W N i HN ltac:(lia)) as (Ei & Hr & Hq & Hlt & Hspill & Hfit).
  destruct (last_fits W N i HN Hi) as [HqN Hlast]. unfold fastpack_at_NI. rewrite Hlt.
  pose proof (merge_value W N _ _ (digits_value W in_) HN Hr Hq) as Hv. rewrite <-Ei in Hv. rewrite Hv.
  remember (N * i / W) as q eqn:Eq. remember ((N * i) mod W) as r eqn:Er.
  destruct (Z.leb_spec W (r + N)) as [H|H]; cbn [andb].
  - destruct (Hspill H) as [Hm Hd]. rewrite Hm. destruct (Z.ltb_spec (1 + q) N) as [Hb|Hb].
    + rewrite (block_lookup W in_ q), (block_lookup W in_ (1 + q)) by (done || lia).
      cbn [mbind option_bind]. by rewrite (Z.add_comm 1 q).
    + rewrite (block_lookup W in_ q) by (done || lia). cbn [mbind option_bind].
      rewrite Hlast by lia. rewrite Z.sub_diag. by rewrite merge_nothing, Z.lor_0_r.
  - by rewrite (block_lookup W in_ q) by (done || lia).
Qed.

(** *** Blocks *)

Lemma word_or_frame k x out out' rest : word_or k x out = Some out' -> word_or k x (out ++ rest) = Some (out' ++ rest).
Proof.
  unfold word_or. intros H. destruct (out !! Z.to_nat k) as [w|] eqn:E; [|done]. cbn [mbind option_bind] in H.
  injection H as <-. rewrite (lookup_app_l_Some _ _ _ _ E). cbn [mbind option_bind].
  rewrite insert_app_l; [done|]. by apply lookup_lt_Some in E.
Qed.

Lemma fastpack_steps_frame W N n j o in_ in_rest out out' rest :
  fastpack_steps W N n j o in_ out = Some out' ->
  fastpack_steps W N n j o (in_ ++ in_rest) (out ++ rest) = Some (out' ++ rest).
Proof.
  revert j o in_ out. induction n as [|n IH]; intros j o in_ out H.
  { destruct (in_ ++ in_rest); cbn in *; by simplify_eq. }
  destruct in_ as [|v in_]; [done|]. cbn [fastpack_steps app] in H |- *.
  destruct (word_or o _ out) as [out1|] eqn:E1; [|done]. cbn [mbind option_bind] in H.
  rewrite (word_or_frame _ _ _ _ rest E1). cbn [mbind option_bind].
  destruct n as [|n]; [by simplify_eq|].
  destruct ((N * (j + 1)) mod W <? (N * j) mod W); [|by apply IH].
  destruct (word_or (o + 1) _ out1) as [out2|] eqn:E2; [|done]. cbn [mbind option_bind] in H.
  rewrite (word_or_frame _ _ _ _ rest E2). cbn [mbind option_bind]. by apply IH.
Qed.

Lemma map_wrap_small w l : Forall (is_word w) l -> map (wrap w) l = l.
Proof. induction 1; cbn; f_equal; auto. by apply wrap_small. Qed.

Lemma zeros_or W out x : Forall (fun w => w = 0) out -> Z.lor (digits_value W out) x = x.
Proof.
  intros H. assert (digits_value W out = 0) as ->; [|done].
  induction H as [|y l -> _ IH]; cbn [digits_value]; [done|]. by rewrite IH, Z.shiftl_0_l.
Qed.

(** [pack_block] writes the number whose radix [2^N] digits are the values, in radix [2^W], over zeroes. *)
Lemma pack_block_value W N in_ in_rest out rest : 0 < N <= W -> length in_ = Z.to_nat W ->
  Forall (is_word W) in_ -> length out = Z.to_nat N -> Forall (fun w => w = 0) out ->
  exists out', pack_block W (in_ ++ in_rest) (out ++ rest) N = Some (out' ++ rest) /\ length out' = length out /\
    Forall (is_word W) out' /\ digits_value W out' = digits_value N (map (wrap N) in_).
Proof.
  intros HN Hin Fin Hlen Hout. unfold pack_block, fastpack.
  destruct (Z.leb_spec 1 N); [|lia]. destruct (Z.leb_spec N W); [|lia]. cbn [andb].
  destruct (Z.eqb_spec N W) as [->|Hne].
  - rewrite decide_True by (rewrite !length_app; lia). rewrite take_app_length', drop_app_length' by lia.
    exists in_. rewrite map_wrap_small by done. split; [done|]. split; [lia|done].
  - destruct (fastpack_steps_value W N (Z.to_nat W) 0 in_ out) as (out' & E & L & F & V);
      [lia|lia|lia|done|done|eapply Forall_impl; [done|]; intros ? ->; unfold is_word; pose proof (pow2_pos W); lia|].
    rewrite Z.mul_0_r, Zdiv_0_l in E. exists out'. split; [by apply fastpack_steps_frame|].
    rewrite Z.mul_0_r, Z.shiftl_0_r, zeros_or in V by done. done.
Qed.

Lemma digits_one_word w n l : 0 <= w -> Forall (is_word w) l -> (n <= length l)%nat ->
  digits w n (digits_value w l) = take n l.
Proof.
  intros Hw Hl. revert n. induction Hl as [|x l Hx Hl IH]; intros [|n] Hn; cbn in Hn |- *; [done|lia|done|].
  rewrite digits_head, digits_tail by done. f_equal. apply IH. lia.
Qed.

Lemma unpack_block_value W N in_ out : 0 < N <= W -> (Z.to_nat N <= length in_)%nat -> Forall (is_word W) in_ ->
  unpack_block W in_ out N = Some (digits N (Z.to_nat W) (digits_value W in_) ++ drop (Z.to_nat W) out).
Proof.
  intros HN Hlen Hin. unfold unpack_block, fastunpack.
  destruct (Z.leb_spec 1 N); [|lia]. destruct (Z.leb_spec N W); [|lia]. cbn [andb].
  destruct (Z.eqb_spec N W) as [->|Hne].
  - rewrite decide_True by done. cbn [mbind option_bind]. rewrite length_take, digits_one_word by (done || lia).
    do 2 f_equal. f_equal. lia.
  - pose proof (fastunpack_steps_value W N (Z.to_nat W) 0 in_ ltac:(lia) ltac:(lia) ltac:(lia) Hlen Hin) as E.
    rewrite Z.mul_0_r, Zdiv_0_l, Z.shiftr_0_r in E. rewrite E. cbn [mbind option_bind]. by rewrite length_digits.
Qed.

Lemma fastpack_at_value W N i in_ : 0 < N <= W -> 0 <= i < W -> (Z.to_nat N <= length in_)%nat ->
  Forall (is_word W) in_ -> fastpack_at W in_ i N = Some (wrap N (Z.shiftr (digits_value W in_) (N * i))).
Proof.
  intros HN Hi Hlen Hin. unfold fastpack_at, fastpack_at_N.
  destruct (Z.leb_spec 1 N); [|lia]. destruct (Z.leb_spec N W); [|lia]. cbn [andb].
  destruct (Z.eqb_spec N W) as [->|Hne].
  - apply block_lookup; [lia|done|lia].
  - destruct (Z.ltb_spec i W); [|lia]. apply fastpack_at_NI_value; lia || done.
Qed.

(** *** Sequences of blocks *)

Lemma digits_app w n m x : 0 <= w -> digits w (n + m) x = digits w n x ++ digits w m (Z.shiftr x (w * Z.of_nat n)).
Proof.
  intros Hw. revert x. induction n as [|n IH]; intros x; cbn [Nat.add digits app].
  - by rewrite Z.mul_0_r, Z.shiftr_0_r.
  - rewrite IH, Z.shiftr_shiftr by nia. do 4 f_equal. lia.
Qed.

Lemma digits_value_drop w n l : 0 <= w -> Forall (is_word w) l ->
  digits_value w (drop n l) = Z.shiftr (digits_value w l) (w * Z.of_nat n).
Proof.
  intros Hw Hl. revert n. induction Hl as [|x l Hx Hl IH]; intros [|n]; cbn [drop digits_value].
  - by rewrite Z.shiftr_0_l.
  - by rewrite Z.shiftr_0_l.
  - by rewrite Z.mul_0_r, Z.shiftr_0_r.
  - rewrite IH. replace (w * Z.of_nat (S n)) with (w + w * Z.of_nat n) by lia.
    by rewrite <-Z.shiftr_shiftr, digits_tail by (done || nia).
Qed.

Lemma digits_low w n x y : 0 <= w -> digits w n (Z.lor x (Z.shiftl y (w * Z.of_nat n))) = digits w n x.
Proof.
  intros Hw. revert x y. induction n as [|n IH]; intros x y; [done|]. cbn [digits].
  replace (Z.shiftr (Z.lor x (Z.shiftl y (w * Z.of_nat (S n)))) w)
    with (Z.lor (Z.shiftr x w) (Z.shiftl y (w * Z.of_nat n))).
  - rewrite IH. f_equal. assert (w <= w * Z.of_nat (S n)) by nia.
    remember (w * Z.of_nat (S n)) as k. clear Heqk. bitwise.
  - rewrite Z.shiftr_lor. f_equal. assert (w * Z.of_nat (S n) = w * Z.of_nat n + w) as -> by lia.
    rewrite Z.shiftr_shiftl_l by nia. f_equal. lia.
Qed.

Lemma split_length {A} (n m : nat) (l : list A) : length l = (n + m)%nat ->
  exists a b, l = a ++ b /\ length a = n /\ length b = m.
Proof.
  intros H. exists (take n l), (drop n l). rewrite take_drop, length_take, length_drop. split; [done|]. lia.
Qed.

Lemma pack_blocks_value W N k vals out rest : 0 < N <= W -> Forall (is_word W) vals ->
  length vals = (k * Z.to_nat W)%nat -> length out = (k * Z.to_nat N)%nat -> Forall (fun w => w = 0) out ->
  exists out', pack_blocks W k vals (out ++ rest) N = Some (out' ++ rest) /\ length out' = length out /\
    Forall (is_word W) out' /\ digits_value W out' = digits_value N (map (wrap N) vals).
Proof.
  intros HN. revert vals out. induction k as [|k IH]; intros vals out Hv Lv Lo Fo.
  { destruct vals; [|done]. destruct out; [|done]. exists []. done. }
  destruct (split_length (Z.to_nat W) (k * Z.to_nat W) vals Lv) as (v1 & v2 & -> & Lv1 & Lv2).
  destruct (split_length (Z.to_nat N) (k * Z.to_nat N) out Lo) as (o1 & o2 & -> & Lo1 & Lo2).
  apply Forall_app in Hv as [Hv1 Hv2]. apply Forall_app in Fo as [Fo1 Fo2]. cbn [pack_blocks]. rewrite <-app_assoc.
  destruct (pack_block_value W N v1 v2 o1 (o2 ++ rest) HN Lv1 Hv1 Lo1 Fo1) as (o1' & E1 & L1 & F1 & V1).
  rewrite E1. cbn [mbind option_bind]. rewrite !drop_app_length' by lia.
  destruct (IH v2 o2 Hv2 Lv2 Lo2 Fo2) as (o2' & E2 & L2 & F2 & V2). rewrite E2. cbn [mbind option_bind].
  rewrite take_app_length' by lia. exists (o1' ++ o2'). rewrite <-app_assoc. split; [done|].
  rewrite !length_app. split; [lia|].
  split; [by apply Forall_app|]. rewrite map_app, !digits_value_app, V1, V2, length_map by lia.
  do 2 f_equal. lia.
Qed.

Lemma unpack_blocks_value W N k first in_ : 0 < N <= W -> Forall (is_word W) in_ ->
  length first = (k * Z.to_nat W)%nat -> (k * Z.to_nat N <= length in_)%nat ->
  unpack_blocks W k first in_ N = Some (digits N (k * Z.to_nat W) (digits_value W in_)).
Proof.
  intros HN. revert first in_. induction k as [|k IH]; intros first in_ Hin Lf Li.
  { by destruct first. }
  cbn [unpack_blocks]. rewrite unpack_block_value by (done || lia). cbn [mbind option_bind].
  rewrite drop_app_length', take_app_length' by (by rewrite length_digits).
  rewrite IH by (try apply Forall_drop; rewrite ?length_drop; done || lia). cbn [mbind option_bind].
  rewrite (digits_app N (Z.to_nat W) (k * Z.to_nat W)) by lia. rewrite digits_value_drop by (done || lia).
  do 4 f_equal. lia.
Qed.

Lemma blocks_exact W k : 0 < W -> blocks W (k * Z.to_nat W) = k.
Proof.
  intros HW. unfold blocks.
  replace ((Z.of_nat (k * Z.to_nat W) + W - 1) / W) with (Z.of_nat k); [lia|].
  apply (Z.div_unique_pos _ _ _ (W - 1)); lia.
Qed.

Lemma at_value W N k in_ i : 0 < N <= W -> Forall (is_word W) in_ -> (k * Z.to_nat N <= length in_)%nat ->
  0 <= i < Z.of_nat k * W -> at_ W in_ i N = Some (wrap N (Z.shiftr (digits_value W in_) (N * i))).
Proof.
  intros HN Fin Li Hi. unfold at_. pose proof (Z.div_mod i W ltac:(lia)) as Ei.
  pose proof (Z.mod_pos_bound i W ltac:(lia)) as Hm.
  assert (0 <= i / W < Z.of_nat k) as Hd by (split; [apply Z.div_pos; lia|apply Z.div_lt_upper_bound; lia]).
  rewrite fastpack_at_value; [|lia|done|rewrite length_drop; nia|by apply Forall_drop].
  rewrite digits_value_drop by (done || lia). rewrite Z.shiftr_shiftr by nia. do 3 f_equal. nia.
Qed.

Lemma maxbits_word W vals : 0 < W -> Forall (is_word W) vals ->
  0 <= maxbits W vals <= W /\ Forall (is_word (maxbits W vals)) vals.
Proof.
  intros HW Hv.
  assert (forall acc, is_word W acc -> is_word W (foldl Z.lor acc vals) /\
    (forall b, 0 <= b -> Z.testbit acc b = true \/ (exists v, v ∈ vals /\ Z.testbit v b = true) ->
     Z.testbit (foldl Z.lor acc vals) b = true)) as H.
  { induction Hv as [|v vals Hv Hvs IH]; intros acc Hacc; cbn [foldl].
    - split; [done|]. intros b Hb [?|(v & Hin & _)]; [done|]. by apply elem_of_nil in Hin.
    - destruct (IH (Z.lor acc v)) as [Hr Hb']; [apply is_word_lor; [lia|done|done]|].
      split; [done|]. intros b Hb H. apply Hb'; [done|]. rewrite Z.lor_spec.
      destruct H as [->|(u & Hin & Hu)]; [by left|]. apply elem_of_cons in Hin as [->|Hin].
      + left. by rewrite Hu, orb_true_r.
      + right. by exists u. }
  destruct (H 0 ltac:(unfold is_word; pose proof (pow2_pos W); lia)) as [Hr Hbits].
  unfold maxbits, Math.bits_required. remember (foldl Z.lor 0 vals) as m eqn:Em.
  assert (forall k, 0 <= k -> is_word k m -> Forall (is_word k) vals) as Hall.
  { intros k Hk Hm. apply Forall_forall. intros v Hin. rewrite Forall_forall in Hv. specialize (Hv v Hin).
    replace v with (wrap k v); [by apply wrap_range|].
    apply Z.bits_inj'. intros b Hb. rewrite wrap_testbit by lia. destruct (Z.ltb_spec b k); [done|]. cbn [andb].
    destruct (Z.testbit v b) eqn:Ev; [|done].
    rewrite <-(testbit_high k m b Hm) by lia. apply Hbits; [done|]. right. by exists v. }
  destruct (Z.eqb_spec m 0) as [E0|E0].
  - split; [lia|]. apply Hall; [lia|]. rewrite E0. by unfold is_word.
  - unfold Math.clz. unfold is_word in Hr. assert (0 < m) as Hm by lia.
    pose proof (Z.log2_nonneg m). pose proof (proj1 (Z.log2_lt_pow2 m W Hm) (proj2 Hr)).
    replace (W - (W - 1 - Z.log2 m)) with (Z.log2 m + 1) by lia. split; [lia|]. apply Hall; [lia|].
    unfold is_word. pose proof (Z.log2_spec m Hm). rewrite Z.add_1_r. lia.
Qed.

End packed.

(** ** Properties *)

(** C25: packing [k] blocks into zeroed memory changes the radix of a number: the packed words are the
    radix [2^W] digits of the number whose radix [2^N] digits are the values (cut to [N] bits).  Unpacking
    gives the values back, and random access to index [i] the [i]-th one. *)
Theorem packed_roundtrip (W N : Z) (k : nat) (vals out : list Z)
    (HN : 0 < N <= W) (Hvals : Forall (is_word W) vals) (Hlen : length vals = (k * Z.to_nat W)%nat)
    (Hout : out = replicate (k * Z.to_nat N) 0) :
  exists enc, packed.pack W vals out N = Some enc /\ length enc = (k * Z.to_nat N)%nat /\
    Forall (is_word W) enc /\ digits_value W enc = digits_value N (map (wrap N) vals) /\
    (forall first, length first = length vals -> packed.unpack W first enc N = Some (map (wrap N) vals)) /\
    (forall i v, vals !! i = Some v -> packed.at_ W enc (Z.of_nat i) N = Some (wrap N v)).
Proof.
  assert (Forall (fun w => w = 0) out) as Fo by (rewrite Hout; by apply Forall_replicate).
  assert (length out = (k * Z.to_nat N)%nat) as Lo by (rewrite Hout; apply length_replicate).
  assert (Forall (is_word N) (map (wrap N) vals)) as Fw.
  { clear -HN. induction vals; constructor; [apply wrap_range; lia|done]. }
  destruct (packed.pack_blocks_value W N k vals out [] HN Hvals Hlen Lo Fo) as (enc & E & L & F & V).
  rewrite !app_nil_r in E.
  exists enc. unfold packed.pack, packed.unpack. rewrite Hlen, packed.blocks_exact, E by lia.
  split; [done|]. split; [lia|]. split; [done|]. split; [done|]. split.
  - intros first Hf. rewrite Hf, packed.blocks_exact by lia.
    rewrite (packed.unpack_blocks_value W N k first enc) by (done || lia). f_equal.
    rewrite V, <-Hlen, <-(length_map (wrap N) vals). apply packed.digits_digits_value; [lia|done].
  - intros i v Hi. pose proof (lookup_lt_Some _ _ _ Hi) as Hlt.
    rewrite (packed.at_value W N k) by (done || lia). f_equal. rewrite V. symmetry.
    apply packed.digits_value_lookup; [lia|done|]. change (map (wrap N) vals) with (wrap N <$> vals).
    by rewrite list_lookup_fmap, Hi.
Qed.

Lemma packed_roundtrip_witness :
  exists enc, packed.pack 4 [1; 5; 7; 2] [0; 0; 0] 3 = Some enc /\
    packed.unpack 4 [0; 0; 0; 0] enc 3 = Some [1; 5; 7; 2] /\ packed.at_ 4 enc 2 3 = Some 7.
Proof.
  assert (Forall (is_word 4) [1; 5; 7; 2]) as Hv by (repeat constructor; lia).
  destruct (packed_roundtrip 4 3 1 [1; 5; 7; 2] [0; 0; 0] ltac:(lia) Hv eq_refl eq_refl)
    as (enc & E & _ & _ & _ & Hu & Ha).
  exists enc. split; [exact E|]. split; [apply (Hu [0; 0; 0; 0] eq_refl)|apply (Ha 2%nat 7 eq_refl)].
Defined.

(** Packing ors the values into the output, so a block is only stored faithfully over zeroes: the bits
    the output had stay set. *)
Theorem pack_block_keeps_stale_bits (W N : Z) (vals out : list Z)
    (HN : 0 < N < W) (Hvals : length vals = Z.to_nat W) (Hlen : length out = Z.to_nat N)
    (Hout : Forall (is_word W) out) :
  exists enc, packed.pack_block W vals out N = Some enc /\
    digits_value W enc = Z.lor (digits_value W out) (digits_value N (map (wrap N) vals)).
Proof.
  destruct (packed.fastpack_steps_value W N (Z.to_nat W) 0 vals out) as (enc & E & _ & _ & V); [lia..|done|].
  rewrite Z.mul_0_r, Zdiv_0_l in E. rewrite Z.mul_0_r, Z.shiftl_0_r in V. exists enc. split; [|done].
  unfold packed.pack_block, packed.fastpack.
  destruct (Z.leb_spec 1 N), (Z.leb_spec N W), (Z.eqb_spec N W); try lia. done.
Qed.

Lemma pack_block_keeps_stale_bits_witness :
  exists enc, packed.pack_block 4 [0; 0; 0; 0] [1; 0; 0] 3 = Some enc /\ digits_value 4 enc = 1.
Proof.
  assert (Forall (is_word 4) [1; 0; 0]) as Hv by (repeat constructor; lia).
  exact (pack_block_keeps_stale_bits 4 3 [0; 0; 0; 0] [1; 0; 0] ltac:(lia) eq_refl eq_refl Hv).
Defined.
