(* ===== verification/Simd.v ===== *)
(** Vectorised helpers: [core/utils/simd_utils.hpp].

    A vector is the list of its lanes and the lane operations of the Highway library are applied lane
    by lane; [step] is the number of lanes ([MaxLanes] of a full vector). *)
From S2P Require Import Prelude BitUtils BitPacking StoreUtils.

Module simd.

(** [Load]/[Store] of the [n] lanes at index [i] of an array *)
Definition load {A} (n i : nat) (mem : list A) : list A := take n (drop i mem).
Definition store {A} (vs : list A) (i : nat) (mem : list A) : list A :=
  take i mem ++ vs ++ drop (i + length vs) mem.

(** *** [all_equal] *)

(** The vector loop: what is left of the array, or [None] when it returned [false] *)
Fixpoint all_equal_steps (steps step : nat) (value : Z) (l : list Z) : option (list Z) :=
  match steps with
  | O => Some l
  | S steps =>
      if forallb (Z.eqb value) (take (step * step) l)
      then all_equal_steps steps step value (drop (step * step) l) else None
  end.
(** [*begin] is read first: the callers assert a non-empty block. *)
Definition all_equal (step : nat) (begin_ : list Z) : bool :=
  match begin_ with
  | [] => true
  | value :: _ =>
      match all_equal_steps (length begin_ / (step * step)) step value begin_ with
      | Some tail => forallb (Z.eqb value) tail
      | None => false
      end
  end.

(** *** [maxbits]: the lanes are combined with [Or], then the greatest lane and the tail *)

Fixpoint lanes_or (n step : nat) (acc l : list Z) : list Z * list Z :=
  match n with
  | O => (acc, l)
  | S n => lanes_or n step (zip_with Z.lor acc (take step l)) (drop step l)
  end.
Definition maxbits (W : Z) (step : nat) (begin_ : list Z) : Z :=
  let unroll := (2 * step)%nat in
  let steps := (length begin_ / (unroll * step))%nat in
  let '(oracc, tail) := lanes_or (steps * unroll) step (replicate step 0) begin_ in
  Math.bits_required W (foldl Z.lor (foldr Z.max 0 oracc) tail).

(** *** [maxmin], on unsigned values of width [W]: the least and the greatest value *)

Fixpoint lanes_minmax (n step : nat) (mn mx l : list Z) : list Z * list Z * list Z :=
  match n with
  | O => (mn, mx, l)
  | S n => lanes_minmax n step (zip_with Z.min mn (take step l)) (zip_with Z.max mx (take step l)) (drop step l)
  end.
Definition maxmin (W : Z) (step : nat) (begin_ : list Z) : Z * Z :=
  let unroll := (2 * step)%nat in
  let steps := (length begin_ / (unroll * step))%nat in
  let '(mn, mx, tail) :=
    lanes_minmax (steps * unroll) step (replicate step (2 ^ W - 1)) (replicate step 0) begin_ in
  (foldl Z.min (foldr Z.min (2 ^ W - 1) mn) tail, foldl Z.max (foldr Z.max 0 mx) tail).

(** *** [zig_zag_encode]/[zig_zag_decode], on one lane: shifts of an unsigned lane are logical, shifts
    of a signed lane are arithmetic *)

Definition zig_zag_encode (W v : Z) : Z :=
  let uv := wrap W v in Z.lxor (Z.shiftr uv (W - 1)) (uv <<[W] 1).
Definition zig_zag_decode (W uv : Z) : Z :=
  let v := to_signed W uv in
  to_signed W (Z.lxor (Z.shiftr v 1) (0 - Z.land v 1)).

(** *** [delta_encode] on [Length] unsigned values of width [w], in place *)

(** Lanes 3.. of [lo ++ hi]: [CombineShiftRightLanes<3>(tag, hi, lo)] *)
Definition combine_shift_right_3 (hi lo : list Z) : list Z := take 4 (drop 3 (lo ++ hi)).

Definition vsub (w : Z) : list Z -> list Z -> list Z := zip_with (fun x y => x -[w] y).

(** 128-bit: [for (i = 0; i < Length; i += 4)] *)
Fixpoint delta_128 (w : Z) (n i : nat) (prev mem : list Z) : list Z :=
  match n with
  | O => mem
  | S n =>
      let vec := load 4 i mem in
      let delta := vsub w vec (combine_shift_right_3 vec prev) in
      delta_128 w n (i + 4) vec (store delta i mem)
  end.

(** 256-bit and wider: the scalar head, and the vector loop that reads one vector ahead *)
Fixpoint delta_head (w : Z) (n i : nat) (init : Z) (mem : list Z) : Z * list Z :=
  match n with
  | O => (init, mem)
  | S n =>
      let prev := nth i mem 0 in
      delta_head w n (S i) prev (<[i := prev -[w] init]> mem)
  end.
Fixpoint delta_wide (w : Z) (step n i : nat) (prev mem : list Z) : list Z :=
  match n with
  | O => store (vsub w (load step i mem) prev) i mem
  | S n =>
      let vec := load step i mem in
      let delta := vsub w vec prev in
      let prev := load step (i + step - 1) mem in
      delta_wide w step n (i + step) prev (store delta i mem)
  end.

Definition delta_encode_128 (w : Z) (mem : list Z) (init : Z) : list Z :=
  delta_128 w (length mem / 4) 0 (replicate 4 init) mem.
Definition delta_encode_wide (w : Z) (step : nat) (mem : list Z) (init : Z) : list Z :=
  let longer := decide (step < length mem)%nat in
  let head := if longer then (step - 1)%nat else step in
  let '(init, mem) := delta_head w head 0 init mem in
  if longer then
    let prev := load step head mem in
    let mem := <[(step - 1)%nat := nth (step - 1) mem 0 -[w] init]> mem in
    delta_wide w step (length mem / step - 2) step prev mem
  else mem.

(** *** The vector loops compute what a loop over the values does *)

Lemma all_equal_steps_spec steps step value l : (steps * (step * step) <= length l)%nat ->
  all_equal_steps steps step value l =
  if forallb (Z.eqb value) (take (steps * (step * step)) l) then Some (drop (steps * (step * step)) l) else None.
Proof.
  revert l. induction steps as [|steps IH]; intros l Hl; cbn [all_equal_steps]; [done|].
  replace (S steps * (step * step))%nat with (step * step + steps * (step * step))%nat by lia.
  rewrite <-take_take_drop, forallb_app, <-drop_drop.
  destruct (forallb _ (take (step * step) l)); [|done]. cbn [andb]. apply IH. rewrite length_drop. lia.
Qed.

Lemma all_equal_spec step l : (0 < step)%nat -> all_equal step l = forallb (Z.eqb (hd 0 l)) l.
Proof.
  intros Hs. destruct l as [|v l0]; [done|]. unfold all_equal. cbn [hd]. remember (v :: l0) as l eqn:El. clear El.
  pose proof (Nat.Div0.mul_div_le (length l) (step * step)).
  rewrite all_equal_steps_spec by lia. remember (length l / (step * step) * (step * step))%nat as n.
  rewrite <-(take_drop n l) at 3. rewrite forallb_app. by destruct (forallb _ (take n l)).
Qed.

(** The lanes collect exactly the values of the vectors: for an operation [f] that is associative,
    commutative and has [e] as its neutral element on the values, folding the lanes folds the array. *)
Section lanes.
Context (f : Z -> Z -> Z) (e : Z) (dom : Z -> Prop).
Context (f_assoc : forall x y z, f x (f y z) = f (f x y) z) (f_comm : forall x y, f x y = f y x).
Context (f_dom : forall x y, dom x -> dom y -> dom (f x y)) (e_dom : dom e).
Context (f_neutral : forall x, dom x -> f e x = x).

Lemma fold_dom l : Forall dom l -> dom (foldr f e l).
Proof. induction 1; cbn; auto. Qed.

Lemma fold_app l1 l2 : Forall dom l1 -> Forall dom l2 -> foldr f e (l1 ++ l2) = f (foldr f e l1) (foldr f e l2).
Proof.
  intros H1 H2. induction H1 as [|x l1 Hx H1 IH]; cbn [app foldr].
  - symmetry. apply f_neutral. by apply fold_dom.
  - by rewrite IH, f_assoc.
Qed.

Lemma fold_zip a b : Forall dom a -> Forall dom b -> length a = length b ->
  foldr f e (zip_with f a b) = f (foldr f e a) (foldr f e b) /\ Forall dom (zip_with f a b).
Proof.
  intros Ha. revert b. induction Ha as [|x a Hx Ha IH]; intros [|y b] Hb Hl; try done; cbn [zip_with foldr].
  - split; [|done]. symmetry. by apply f_neutral.
  - apply Forall_cons in Hb as [Hy Hb]. destruct (IH b Hb) as [E Fz]; [by injection Hl|].
    split; [|constructor; auto]. rewrite E. rewrite <-!f_assoc. f_equal. rewrite !f_assoc. f_equal. apply f_comm.
Qed.

Lemma foldl_fold x l : dom x -> Forall dom l -> foldl f x l = f x (foldr f e l).
Proof.
  intros Hx Hl. revert x Hx. induction Hl as [|y l Hy Hl IH]; intros x Hx; cbn [foldl foldr].
  - rewrite f_comm. symmetry. by apply f_neutral.
  - rewrite IH by auto. by rewrite f_assoc.
Qed.

Fixpoint lanes_fold (n step : nat) (acc l : list Z) : list Z * list Z :=
  match n with
  | O => (acc, l)
  | S n => lanes_fold n step (zip_with f acc (take step l)) (drop step l)
  end.

Lemma lanes_fold_spec n step acc l : Forall dom acc -> Forall dom l -> length acc = step ->
  (n * step <= length l)%nat ->
  foldr f e (fst (lanes_fold n step acc l)) = f (foldr f e acc) (foldr f e (take (n * step) l)) /\
  snd (lanes_fold n step acc l) = drop (n * step) l /\ Forall dom (fst (lanes_fold n step acc l)).
Proof.
  revert acc l. induction n as [|n IH]; intros acc l Ha Hl Hlen Hn; cbn [lanes_fold].
  { cbn. split; [|done]. rewrite f_comm. symmetry. apply f_neutral. by apply fold_dom. }
  destruct (fold_zip acc (take step l)) as [E Fz]; [done|by apply Forall_take|rewrite length_take; lia|].
  destruct (IH (zip_with f acc (take step l)) (drop step l)) as (E1 & E2 & E3);
    [done|by apply Forall_drop|rewrite length_zip_with, length_take; lia|rewrite length_drop; lia|].
  rewrite E1, E2, E. split; [|split; [by rewrite drop_drop|done]].
  rewrite <-f_assoc. f_equal. cbn [Nat.mul]. rewrite <-take_take_drop. symmetry.
  apply fold_app; repeat first [done|apply Forall_take|apply Forall_drop].
Qed.

Lemma fold_replicate k : foldr f e (replicate k e) = e.
Proof. induction k as [|k IH]; cbn; [done|]. rewrite IH. by apply f_neutral. Qed.

Lemma lanes_total n step l : Forall dom l -> (n * step <= length l)%nat ->
  foldl f (foldr f e (fst (lanes_fold n step (replicate step e) l))) (drop (n * step) l) = foldr f e l.
Proof.
  intros Hl Hn.
  destruct (lanes_fold_spec n step (replicate step e) l) as (E & _ & F);
    [by apply Forall_replicate|done|apply length_replicate|done|].
  rewrite foldl_fold by (by apply Forall_drop || by apply fold_dom).
  rewrite E, fold_replicate, f_neutral by (by apply fold_dom, Forall_take).
  rewrite <-fold_app by (by apply Forall_take || by apply Forall_drop). by rewrite take_drop.
Qed.

Lemma lanes_dom n step l : Forall dom l -> (n * step <= length l)%nat ->
  Forall dom (fst (lanes_fold n step (replicate step e) l)) /\
  snd (lanes_fold n step (replicate step e) l) = drop (n * step) l.
Proof.
  intros Hl Hn.
  destruct (lanes_fold_spec n step (replicate step e) l) as (_ & E & F);
    [by apply Forall_replicate|done|apply length_replicate|done|]. done.
Qed.
End lanes.

Lemma lanes_or_fold n step acc l : lanes_or n step acc l = lanes_fold Z.lor n step acc l.
Proof. revert acc l. induction n; intros; cbn; auto. Qed.

Lemma lanes_minmax_fold n step mn mx l : lanes_minmax n step mn mx l =
  (fst (lanes_fold Z.min n step mn l), fst (lanes_fold Z.max n step mx l), snd (lanes_fold Z.max n step mx l)).
Proof. revert mn mx l. induction n; intros; cbn; auto. Qed.

Lemma max_lor_log2 l : Forall (fun x => 0 <= x) l ->
  0 <= foldr Z.max 0 l /\ 0 <= foldr Z.lor 0 l /\
  (foldr Z.max 0 l = 0 <-> foldr Z.lor 0 l = 0) /\ Z.log2 (foldr Z.max 0 l) = Z.log2 (foldr Z.lor 0 l).
Proof.
  induction 1 as [|x l Hx Hl (H1 & H2 & H3 & H4)]; cbn [foldr]; [done|].
  split; [lia|]. split; [by apply Z.lor_nonneg|]. rewrite Z.lor_eq_0_iff, Z.log2_lor, <-H4 by done. split; [lia|].
  destruct (Z.max_spec x (foldr Z.max 0 l)) as [[Hlt ->]|[Hlt ->]].
  - pose proof (Z.log2_le_mono x (foldr Z.max 0 l)). lia.
  - pose proof (Z.log2_le_mono _ _ Hlt). lia.
Qed.

Lemma nonneg_lor x y : 0 <= x -> 0 <= y -> 0 <= Z.lor x y.
Proof. intros. by apply Z.lor_nonneg. Qed.

Lemma maxbits_spec W step l : (0 < step)%nat -> Forall (fun x => 0 <= x) l -> maxbits W step l = packed.maxbits W l.
Proof.
  intros Hs Hl. unfold maxbits, packed.maxbits. cbv zeta. rewrite lanes_or_fold.
  remember (length l / (2 * step * step) * (2 * step))%nat as n eqn:En.
  assert (n * step <= length l)%nat as Hn.
  { pose proof (Nat.Div0.mul_div_le (length l) (2 * step * step)). rewrite En. lia. }
  pose proof (lanes_total Z.lor 0 (fun x => 0 <= x) Z.lor_assoc Z.lor_comm nonneg_lor (Z.le_refl 0) (fun x _ => Z.lor_0_l x)
    n step l Hl Hn) as Etot.
  destruct (lanes_dom Z.lor 0 (fun x => 0 <= x) Z.lor_assoc Z.lor_comm nonneg_lor (Z.le_refl 0) (fun x _ => Z.lor_0_l x)
    n step l Hl Hn) as [E3 Etail].
  destruct (lanes_fold Z.lor n step (replicate step 0) l) as [oracc tail] eqn:EL. cbn [fst snd] in *. subst tail.
  pose proof (foldl_fold Z.lor 0 (fun x => 0 <= x) Z.lor_assoc Z.lor_comm nonneg_lor (fun x _ => Z.lor_0_l x)) as Hfold.
  assert (foldl Z.lor 0 l = Z.lor (foldr Z.lor 0 oracc) (foldr Z.lor 0 (drop (n * step) l))) as ->.
  { rewrite Hfold, Z.lor_0_l, <-Etot, Hfold; try done; try lia; [by apply max_lor_log2|by apply Forall_drop]. }
  rewrite Hfold by (by apply Forall_drop || by apply max_lor_log2).
  destruct (max_lor_log2 oracc E3) as (H1 & H2 & H3 & H4).
  destruct (max_lor_log2 (drop (n * step) l) (Forall_drop _ _ _ Hl)) as (_ & H5 & _ & _).
  remember (foldr Z.lor 0 (drop (n * step) l)) as t. unfold Math.bits_required, Math.clz.
  rewrite !Z.log2_lor, H4 by done.
  destruct (Z.eqb_spec (Z.lor (foldr Z.max 0 oracc) t) 0) as [E|E], (Z.eqb_spec (Z.lor (foldr Z.lor 0 oracc) t) 0) as [E'|E'];
    rewrite Z.lor_eq_0_iff in E, E'; try done; lia.
Qed.

Lemma maxmin_spec W step l : (0 < step)%nat -> 0 <= W -> Forall (is_word W) l ->
  maxmin W step l = (foldr Z.min (2 ^ W - 1) l, foldr Z.max 0 l).
Proof.
  intros Hs HW Hl. unfold maxmin. cbv zeta. rewrite lanes_minmax_fold.
  remember (length l / (2 * step * step) * (2 * step))%nat as n eqn:En.
  assert (n * step <= length l)%nat as Hn.
  { pose proof (Nat.Div0.mul_div_le (length l) (2 * step * step)). rewrite En. lia. }
  assert (forall x, is_word W x -> Z.min (2 ^ W - 1) x = x) as Nmin by (unfold is_word; lia).
  assert (forall x, is_word W x -> Z.max 0 x = x) as Nmax by (unfold is_word; lia).
  assert (is_word W (2 ^ W - 1)) as Wmin by (pose proof (pow2_pos W); unfold is_word; lia).
  assert (is_word W 0) as Wmax by (pose proof (pow2_pos W); unfold is_word; lia).
  assert (forall x y, is_word W x -> is_word W y -> is_word W (Z.min x y)) as Dmin by (unfold is_word; lia).
  assert (forall x y, is_word W x -> is_word W y -> is_word W (Z.max x y)) as Dmax by (unfold is_word; lia).
  pose proof (lanes_total Z.min _ _ Z.min_assoc Z.min_comm Dmin Wmin Nmin n step l Hl Hn) as Emin.
  pose proof (lanes_total Z.max _ _ Z.max_assoc Z.max_comm Dmax Wmax Nmax n step l Hl Hn) as Emax.
  destruct (lanes_dom Z.max _ _ Z.max_assoc Z.max_comm Dmax Wmax Nmax n step l Hl Hn) as [_ Et].
  by rewrite Et, Emin, Emax.
Qed.

(** *** The vector forms of delta encoding compute the differences *)

Lemma length_delta w prev l : length (delta_encode_from w prev l) = length l.
Proof. revert prev. induction l; intros; cbn; auto. Qed.

(** The value before index [i] *)
Definition prev_of (init : Z) (vals : list Z) (i : nat) : Z :=
  match i with O => init | S k => nth k vals 0 end.

Lemma delta_zip w p l n : delta_encode_from w p (take n l) = vsub w (take n l) (take n (p :: l)).
Proof.
  revert p n. induction l as [|x l IH]; intros p n; [by destruct n|].
  destruct n as [|n]; [done|]. cbn [take delta_encode_from]. unfold vsub in *. cbn [zip_with]. f_equal. apply IH.
Qed.

Lemma delta_take_step w init vals i n : (i <= length vals)%nat ->
  delta_encode_from w init (take (i + n) vals) =
  delta_encode_from w init (take i vals) ++ delta_encode_from w (prev_of init vals i) (take n (drop i vals)).
Proof.
  revert init i. induction vals as [|x vals IH]; intros init i Hi.
  { cbn in Hi. replace i with 0%nat by lia. by destruct n. }
  destruct i as [|i]; [done|]. cbn in Hi. cbn [Nat.add take drop delta_encode_from app prev_of nth].
  f_equal. rewrite IH by lia. done.
Qed.

(** The array after the first [i] values have been encoded *)
Definition delta_state (w init : Z) (vals : list Z) (i : nat) : list Z :=
  delta_encode_from w init (take i vals) ++ drop i vals.

Lemma length_delta_state w init vals i : length (delta_state w init vals i) = length vals.
Proof. unfold delta_state. rewrite length_app, length_delta, length_take, length_drop. lia. Qed.

Lemma delta_state_load w init vals i n j : (i <= j)%nat -> (i <= length vals)%nat ->
  load n j (delta_state w init vals i) = take n (drop j vals).
Proof.
  intros Hij Hi. unfold load, delta_state. f_equal.
  rewrite drop_app, (drop_ge (delta_encode_from w init (take i vals))) by (rewrite length_delta, length_take; lia).
  rewrite length_delta, length_take, Nat.min_l, drop_drop by lia. cbn [app]. f_equal. lia.
Qed.

Lemma delta_state_store w init vals i n : (i + n <= length vals)%nat ->
  store (delta_encode_from w (prev_of init vals i) (take n (drop i vals))) i (delta_state w init vals i) =
  delta_state w init vals (i + n).
Proof.
  intros Hi. unfold store. rewrite length_delta, length_take, length_drop, Nat.min_l by lia.
  unfold delta_state at 1 2. rewrite take_app_length' by (rewrite length_delta, length_take; lia).
  rewrite drop_app, (drop_ge (delta_encode_from w init (take i vals))) by (rewrite length_delta, length_take; lia).
  rewrite length_delta, length_take, Nat.min_l, drop_drop by lia. cbn [app].
  unfold delta_state. rewrite delta_take_step, app_assoc by lia. f_equal. f_equal. lia.
Qed.

Lemma drop_nth i (vals : list Z) : (i < length vals)%nat -> drop i vals = nth i vals 0 :: drop (S i) vals.
Proof.
  revert i. induction vals as [|x vals IH]; intros i Hi; cbn in Hi; [lia|].
  destruct i as [|i]; [by rewrite drop_0|]. cbn [drop nth]. by rewrite IH by lia.
Qed.

Lemma delta_state_nth w init vals i j : (i <= j < length vals)%nat -> nth j (delta_state w init vals i) 0 = nth j vals 0.
Proof.
  intros Hj. unfold delta_state. rewrite app_nth2; rewrite length_delta, length_take, Nat.min_l by lia; [|lia].
  rewrite !nth_lookup, lookup_drop. do 2 f_equal. lia.
Qed.

Lemma delta_state_step w init vals i : (i < length vals)%nat ->
  <[i := nth i (delta_state w init vals i) 0 -[w] prev_of init vals i]> (delta_state w init vals i) =
  delta_state w init vals (S i).
Proof.
  intros Hi. rewrite delta_state_nth by lia. rewrite <-(Nat.add_1_r i), <-delta_state_store by lia.
  rewrite (drop_nth i vals) by done. unfold store. rewrite length_delta. cbn [take length delta_encode_from].
  rewrite insert_take_drop by (rewrite length_delta_state; lia). cbn [app]. by rewrite Nat.add_1_r.
Qed.

Lemma delta_head_spec w init vals n i : (i + n <= length vals)%nat ->
  delta_head w n i (prev_of init vals i) (delta_state w init vals i) =
  (prev_of init vals (i + n), delta_state w init vals (i + n)).
Proof.
  revert i. induction n as [|n IH]; intros i Hi; cbn [delta_head]; [by rewrite Nat.add_0_r|].
  rewrite delta_state_step by lia. rewrite delta_state_nth by lia.
  change (nth i vals 0) with (prev_of init vals (S i)). rewrite IH by lia. by rewrite <-Nat.add_succ_comm.
Qed.

Lemma delta_wide_spec w step init vals n i : (0 < step)%nat -> (0 < i)%nat -> length vals = (i + n * step + step)%nat ->
  delta_wide w step n i (take step (drop (i - 1) vals)) (delta_state w init vals i) = delta_encode_from w init vals.
Proof.
  intros Hs. revert i. induction n as [|n IH]; intros i Hi Hlen; cbn [delta_wide];
    rewrite (delta_state_load w init vals i step i) by lia.
  all: assert (vsub w (take step (drop i vals)) (take step (drop (i - 1) vals)) =
    delta_encode_from w (prev_of init vals i) (take step (drop i vals))) as ->
    by (rewrite delta_zip, (drop_nth (i - 1) vals) by lia; destruct i as [|i]; [lia|]; cbn [prev_of]; do 3 f_equal; [f_equal; lia|f_equal; lia]).
  all: rewrite delta_state_store by lia.
  - unfold delta_state. rewrite take_ge, drop_ge by lia. apply app_nil_r.
  - rewrite (delta_state_load w init vals i step (i + step - 1)) by lia. apply IH; lia.
Qed.

Lemma delta_128_spec w init vals n i prev : length prev = 4%nat -> nth 3 prev 0 = prev_of init vals i ->
  length vals = (i + n * 4)%nat ->
  delta_128 w n i prev (delta_state w init vals i) = delta_encode_from w init vals.
Proof.
  intros Hl. revert i prev Hl. induction n as [|n IH]; intros i prev Hl Hp Hlen; cbn [delta_128].
  { unfold delta_state. rewrite take_ge, drop_ge by lia. apply app_nil_r. }
  rewrite (delta_state_load w init vals i 4 i) by lia.
  destruct prev as [|p0 [|p1 [|p2 [|p3 [|]]]]]; try done. cbn [nth] in Hp. subst p3.
  assert (vsub w (take 4 (drop i vals)) (combine_shift_right_3 (take 4 (drop i vals)) [p0; p1; p2; prev_of init vals i]) =
    delta_encode_from w (prev_of init vals i) (take 4 (drop i vals))) as ->.
  { rewrite delta_zip. f_equal. unfold combine_shift_right_3. cbn [app drop take]. f_equal. by rewrite take_take. }
  rewrite delta_state_store by lia. apply IH; [rewrite length_take, length_drop; lia| |lia].
  rewrite nth_lookup, lookup_take_lt, lookup_drop by lia. replace (i + 4)%nat with (S (i + 3)) by lia.
  cbn [prev_of]. by rewrite nth_lookup.
Qed.

Lemma delta_encode_128_spec w vals init : (exists k, length vals = (k * 4)%nat) ->
  delta_encode_128 w vals init = delta_encode_from w init vals.
Proof.
  intros [k Hk]. unfold delta_encode_128. rewrite Hk, Nat.div_mul by lia. by apply (delta_128_spec w init vals k 0).
Qed.

Lemma delta_encode_wide_spec w step vals init : (0 < step)%nat -> (exists k, length vals = (S k * step)%nat) ->
  delta_encode_wide w step vals init = delta_encode_from w init vals.
Proof.
  intros Hs [k Hk]. unfold delta_encode_wide. cbv zeta.
  pose proof (fun n => delta_head_spec w init vals n 0) as Hhead. cbn [Nat.add prev_of] in Hhead.
  change (delta_state w init vals 0) with vals in Hhead.
  destruct (decide (step < length vals)%nat) as [H|H].
  - rewrite Hhead by lia.
    rewrite delta_state_step by lia. rewrite delta_state_load by lia.
    replace (S (step - 1)) with step by lia. rewrite length_delta_state, Hk, Nat.div_mul by lia.
    apply delta_wide_spec; [lia..|]. destruct k as [|k]; lia.
  - rewrite Hhead by nia. unfold delta_state. rewrite take_ge, drop_ge by lia. apply app_nil_r.
Qed.

(** *** The vector zig-zag code *)

Lemma to_signed_id w x : 1 <= w -> is_int w x -> to_signed w x = x.
Proof.
  intros Hw Hx. rewrite <-(to_signed_wrap w x) at 2 by done. unfold to_signed. by rewrite wrap_wrap.
Qed.

Lemma to_signed_large w x : 1 <= w -> 2 ^ (w - 1) <= x < 2 ^ w -> to_signed w x = x - 2 ^ w.
Proof.
  intros Hw Hx. pose proof (pow2_pos (w - 1) ltac:(lia)). unfold to_signed. cbv zeta.
  rewrite wrap_small by (unfold is_word; lia). destruct (Z.ltb_spec x (2 ^ (w - 1))); lia.
Qed.

Lemma even_odd_decode x :
  Z.lxor (Z.shiftr (2 * x) 1) (0 - Z.land (2 * x) 1) = x /\
  Z.lxor (Z.shiftr (2 * x + 1) 1) (0 - Z.land (2 * x + 1) 1) = - x - 1.
Proof.
  assert (forall y, Z.land y 1 = y mod 2) as Hl by (intros y; apply (Z.land_ones y 1); lia).
  rewrite !Z.shiftr_div_pow2, !Hl by lia. change (2 ^ 1) with 2.
  replace (2 * x) with (x * 2) by lia. rewrite Z_mod_mult, Z.div_mul by lia.
  replace (x * 2 + 1) with (1 + x * 2) by lia. rewrite Z_mod_plus_full, Z_div_plus_full by lia.
  split; [apply Z.lxor_0_r|]. change (1 / 2 + x) with x. change (0 - 1 mod 2) with (-1).
  rewrite Z.lxor_m1_r. pose proof (Z.add_lnot_diag x). lia.
Qed.

(** The encoder shifts the unsigned lane, so the sign of a negative value does not spread over it. *)
Lemma zig_zag_encode_value W v : 2 <= W -> is_int W v ->
  zig_zag_encode W v = if 0 <=? v then 2 * v else 2 * v + 2 ^ W + 1.
Proof.
  intros HW Hv. unfold zig_zag_encode, is_int in *. cbv zeta.
  assert (2 ^ W = 2 * 2 ^ (W - 1)) as E by (rewrite <-Z.pow_succ_r by lia; f_equal; lia).
  destruct (Z.leb_spec 0 v) as [Hp|Hn].
  - rewrite (wrap_small W v) by (unfold is_word; lia). rewrite Z.shiftr_div_pow2 by lia.
    rewrite (Z.div_small v) by lia. rewrite Z.lxor_0_l, Z.shiftl_mul_pow2 by lia.
    rewrite wrap_small by (unfold is_word; lia). lia.
  - assert (wrap W v = v + 2 ^ W) as Eu.
    { rewrite <-(wrap_add_multiple W v 1), Z.mul_1_l by lia. apply wrap_small. unfold is_word. lia. }
    rewrite Eu. assert (Z.shiftr (v + 2 ^ W) (W - 1) = 1) as ->.
    { rewrite Z.shiftr_div_pow2 by lia. symmetry. apply (Z.div_unique_pos _ _ _ (v + 2 ^ (W - 1))); lia. }
    assert ((v + 2 ^ W) <<[W] 1 = 2 * (v + 2 ^ (W - 1))) as ->.
    { rewrite Z.shiftl_mul_pow2 by lia. change (2 ^ 1) with 2. rewrite <-(wrap_add_multiple W _ (-1)) by lia.
      rewrite wrap_small; unfold is_word; lia. }
    rewrite Z.lxor_comm. rewrite <-Z.add_nocarry_lxor; [lia|].
    change 1 with (Z.ones 1). rewrite Z.land_ones, Z.mul_comm by lia. apply Z_mod_mult.
Qed.

Lemma zig_zag_lane W v : 2 <= W -> is_int W v ->
  zig_zag_decode W (zig_zag_encode W v) = v <-> 0 <= v < 2 ^ (W - 2).
Proof.
  intros HW Hv. rewrite zig_zag_encode_value by done. unfold zig_zag_decode, is_int in *. cbv zeta.
  assert (2 ^ W = 2 * 2 ^ (W - 1)) as E by (rewrite <-Z.pow_succ_r by lia; f_equal; lia).
  assert (2 ^ (W - 1) = 2 * 2 ^ (W - 2)) as E2 by (rewrite <-Z.pow_succ_r by lia; f_equal; lia).
  pose proof (pow2_pos (W - 2) ltac:(lia)).
  destruct (even_odd_decode v) as [Ev _].
  destruct (even_odd_decode (v - 2 ^ (W - 1))) as [Ev' _].
  destruct (even_odd_decode v) as [_ Eo]. destruct (even_odd_decode (v + 2 ^ (W - 1))) as [_ Eo'].
  destruct (Z.leb_spec 0 v) as [Hp|Hn].
  - destruct (Z.lt_ge_cases v (2 ^ (W - 2))) as [Hlt|Hge].
    + rewrite (to_signed_id W (2 * v)), Ev, to_signed_id by (unfold is_int; lia). lia.
    + rewrite (to_signed_large W (2 * v)) by lia. replace (2 * v - 2 ^ W) with (2 * (v - 2 ^ (W - 1))) by lia.
      rewrite Ev', to_signed_id by (unfold is_int; lia). lia.
  - destruct (Z.lt_ge_cases (2 * v + 2 ^ W + 1) (2 ^ (W - 1))) as [Hlt|Hge].
    + rewrite (to_signed_id W (2 * v + 2 ^ W + 1)) by (unfold is_int; lia).
      replace (2 * v + 2 ^ W + 1) with (2 * (v + 2 ^ (W - 1)) + 1) by lia.
      rewrite Eo', to_signed_id by (unfold is_int; lia). lia.
    + rewrite (to_signed_large W (2 * v + 2 ^ W + 1)) by lia.
      replace (2 * v + 2 ^ W + 1 - 2 ^ W) with (2 * v + 1) by lia.
      rewrite Eo, to_signed_id by (unfold is_int; lia). lia.
Qed.

End simd.

(** ** Properties *)

(** C32: the vectorised reductions of a block compute what a scalar loop over its values computes, whatever
    the number of lanes, and both vector forms of in-place delta encoding compute the differences of
    neighbouring values. *)
Theorem simd_equivalence (W : Z) (step : nat) (vals : list Z) (init : Z)
    (HW : 0 <= W) (Hstep : (0 < step)%nat) (Hvals : Forall (is_word W) vals) :
  simd.all_equal step vals = forallb (Z.eqb (hd 0 vals)) vals /\
  simd.maxbits W step vals = packed.maxbits W vals /\
  simd.maxmin W step vals = (foldr Z.min (2 ^ W - 1) vals, foldr Z.max 0 vals) /\
  ((exists k, length vals = (k * 4)%nat) -> simd.delta_encode_128 W vals init = delta_encode_from W init vals) /\
  ((exists k, length vals = (S k * step)%nat) ->
     simd.delta_encode_wide W step vals init = delta_encode_from W init vals).
Proof.
  split; [by apply simd.all_equal_spec|].
  split; [apply simd.maxbits_spec; [done|]; eapply Forall_impl; [done|]; unfold is_word; lia|].
  split; [by apply simd.maxmin_spec|].
  split; [by apply simd.delta_encode_128_spec|by apply simd.delta_encode_wide_spec].
Qed.

Lemma simd_equivalence_witness :
  simd.delta_encode_wide 32 2 [5; 7; 7; 10; 20; 21] 4 = [1; 2; 0; 3; 10; 1] /\
  simd.maxbits 32 2 [5; 7; 7; 10; 20; 21] = 5.
Proof.
  assert (Forall (is_word 32) [5; 7; 7; 10; 20; 21]) as Hv by (repeat constructor; lia).
  destruct (simd_equivalence 32 2 [5; 7; 7; 10; 20; 21] 4 ltac:(lia) ltac:(lia) Hv) as (_ & Hb & _ & _ & Hd).
  split; [|exact Hb]. apply Hd. by exists 2%nat.
Defined.

(** The vector zig-zag code gives a value back exactly when it is non-negative and below a quarter of
    the range: its encoder does not spread the sign of a negative value, and its decoder spreads the
    top bit of the code. *)
Theorem simd_zig_zag_roundtrip (W v : Z) (HW : 2 <= W) (Hv : is_int W v) :
  simd.zig_zag_decode W (simd.zig_zag_encode W v) = v <-> 0 <= v < 2 ^ (W - 2).
Proof. by apply simd.zig_zag_lane. Qed.

Lemma simd_zig_zag_roundtrip_witness :
  simd.zig_zag_decode 32 (simd.zig_zag_encode 32 (-1)) <> -1.
Proof.
  intros H. apply (simd_zig_zag_roundtrip 32 (-1)) in H; [lia|lia|unfold is_int; lia].
Defined.
