(* ===== verification/BlockCodec.v ===== *)
(** Block codecs of integer sequences: [core/utils/bitpack.hpp] (Module [bitpack]), the average encoding
    of [core/store/store_avg_utils.hpp] (Module [avg]) and the block functions of the [format_traits] of
    [formats_10.cpp] and [columnstore.cpp].

    The overloads for 32-bit and 64-bit values are one definition with a [width]. *)
From S2P Require Import Prelude BitUtils BytesIO Streams BitPacking StoreUtils Simd.

Inductive width := W32 | W64.
Definition bits_of (w : width) : Z := match w with W32 => 32 | W64 => 64 end.
Definition bytes_of (w : width) : nat := match w with W32 => 4 | W64 => 8 end.

(** What the compiled code depends on: the byte order, whether 256-bit vectors are available, the lanes
    of a vector, and what [std::lround] returns for a value outside the range of its result. *)
Record platform := Platform { big_endian : bool; cap_ge256 : bool; lanes : nat; lround_overflow : Z }.

Definition write_var {S} `{DataOutput S} (w : width) : Z -> S -> S :=
  match w with W32 => write_vint | W64 => write_vlong end.
Definition read_var {S} `{DataInput S} (w : width) : S -> option (Z * S) :=
  match w with W32 => read_vint | W64 => read_vlong end.

(** ** Words in memory *)

Definition bytes_of_words (big : bool) (w : width) (ws : list Z) : list Z := ws ≫= Fixed.host_bytes big (bytes_of w).
Fixpoint words_of_bytes (big : bool) (w : width) (n : nat) (bs : list Z) : list Z :=
  match n with
  | O => []
  | S n => Fixed.host_value big (take (bytes_of w) bs) :: words_of_bytes big w n (drop (bytes_of w) bs)
  end.
(** Overwriting the first bytes of an array of words *)
Definition overwrite (big : bool) (w : width) (bs ws : list Z) : list Z :=
  words_of_bytes big w (length ws) (bs ++ drop (length bs) (bytes_of_words big w ws)).

(** ** [bitpack] *)

Module bitpack.

Definition ALL_EQUAL : Z := 0.
Definition rl (bits : Z) : bool := ALL_EQUAL =? bits.

Definition bytes_required (w : width) : Z -> Z -> Z :=
  match w with W32 => packed.bytes_required_32 | W64 => packed.bytes_required_64 end.

(** [#ifdef HWY_CAP_GE256] in [write_block32]; [write_block64] always uses the scalar version *)
Definition maxbits (p : platform) (w : width) (decoded : list Z) : Z :=
  match w with
  | W32 => if cap_ge256 p then simd.maxbits 32 (lanes p) decoded else packed.maxbits32 decoded
  | W64 => packed.maxbits64 decoded
  end.

(** [skip_block32] *)
Definition skip_block32 {S} `{IndexInput S} (size : nat) (in_ : S) : option S :=
  '(bits, in_) ← read_byte in_;
  if ALL_EQUAL =? bits then '(_, in_) ← read_vint in_; Some in_
  else Some (seek (file_pointer in_ + Z.to_nat (packed.bytes_required_32 (Z.of_nat size) bits)) in_).

(** [write_block32]/[write_block64]: the bits, the stream and the scratch buffer *)
Definition write_block {S} `{DataOutput S} (p : platform) (w : width)
    (pack : list Z -> list Z -> Z -> option (list Z)) (out : S) (decoded encoded : list Z)
    : option (Z * S * list Z) :=
  if simd.all_equal (lanes p) decoded then
    Some (ALL_EQUAL, write_var w (hd 0 decoded) (write_byte ALL_EQUAL out), encoded)
  else
    let bits := maxbits p w decoded in
    let buf_size := Z.to_nat (bytes_required w (Z.of_nat (length decoded)) bits) in
    let encoded := overwrite (big_endian p) w (replicate buf_size 0) encoded in
    encoded ← pack decoded encoded bits;
    Some (bits,
      write_bytes (take buf_size (bytes_of_words (big_endian p) w encoded)) (write_byte (Z.land bits 0xFF) out),
      encoded).
Definition write_block32 {S} `{DataOutput S} (p : platform) := write_block (S:=S) p W32.
Definition write_block64 {S} `{DataOutput S} (p : platform) := write_block (S:=S) p W64.

(** [read_block_impl32]: the decoded block, the scratch buffer and the stream *)
Definition read_block32 {S} `{IndexInput S} (p : platform)
    (unpack : list Z -> list Z -> Z -> option (list Z)) (in_ : S) (encoded decoded : list Z)
    : option (list Z * list Z * S) :=
  '(bits, in_) ← read_byte in_;
  if ALL_EQUAL =? bits then
    '(v, in_) ← read_vint in_; Some (replicate (length decoded) v, encoded, in_)
  else
    let required := Z.to_nat (packed.bytes_required_32 (Z.of_nat (length decoded)) bits) in
    match read_buffer required in_ with
    | (Some buf, in_) =>
        decoded ← unpack decoded (words_of_bytes (big_endian p) W32 (required / 4) buf) bits;
        Some (decoded, encoded, in_)
    | (None, in_) =>
        let '(bs, in_) := read_bytes required in_ in
        let encoded := overwrite (big_endian p) W32 bs encoded in
        decoded ← unpack decoded encoded bits;
        Some (decoded, encoded, in_)
    end.

End bitpack.

(** ** The block functions of the formats *)

(** A call on the array that starts at index [k]. *)
Definition at_offset (k : nat) (f : list Z -> option (list Z)) (mem : list Z) : option (list Z) :=
  r ← f (drop k mem); Some (take k mem ++ r).

(** [format_traits] of [formats_10.cpp]: 128 values, four packed blocks *)
Module format_traits.
Definition block_size : nat := 128.
Definition pack_block (decoded encoded : list Z) (bits : Z) : option (list Z) :=
  let n := Z.to_nat bits in
  encoded ← packed.pack_block_32 decoded encoded bits;
  encoded ← at_offset n (fun e => packed.pack_block_32 (drop 32 decoded) e bits) encoded;
  encoded ← at_offset (2 * n) (fun e => packed.pack_block_32 (drop (2 * 32) decoded) e bits) encoded;
  at_offset (3 * n) (fun e => packed.pack_block_32 (drop (3 * 32) decoded) e bits) encoded.
Definition unpack_block (decoded encoded : list Z) (bits : Z) : option (list Z) :=
  let n := Z.to_nat bits in
  decoded ← packed.unpack_block_32 encoded decoded bits;
  decoded ← at_offset 32 (fun d => packed.unpack_block_32 (drop n encoded) d bits) decoded;
  decoded ← at_offset (2 * 32) (fun d => packed.unpack_block_32 (drop (2 * n) encoded) d bits) decoded;
  at_offset (3 * 32) (fun d => packed.unpack_block_32 (drop (3 * n) encoded) d bits) decoded.
Definition write_block {S} `{DataOutput S} (p : platform) (out : S) (in_ buf : list Z) :=
  bitpack.write_block32 p pack_block out in_ buf.
Definition read_block {S} `{IndexInput S} (p : platform) (in_ : S) (buf out : list Z) :=
  bitpack.read_block32 p unpack_block in_ buf out.
Definition skip_block {S} `{IndexInput S} (in_ : S) := bitpack.skip_block32 block_size in_.
End format_traits.

(** [format_traits] of [columnstore.cpp] *)
Module columnstore_traits.
Definition pack32 (decoded encoded : list Z) (bits : Z) : option (list Z) := packed.pack 32 decoded encoded bits.
Definition pack64 (decoded encoded : list Z) (bits : Z) : option (list Z) := packed.pack 64 decoded encoded bits.
End columnstore_traits.

(** ** Non-negative [double] values, as [m * 2^e] *)
Module double.

(** A quotient rounded to the nearest integer, ties to even *)
Definition div_rne (num den : Z) : Z :=
  let q := num / den in let r := num mod den in
  if (2 * r <? den) || ((2 * r =? den) && Z.even q) then q else q + 1.
Definition scale (x k : Z) : Z := if 0 <=? k then x * 2 ^ k else x.
(** The double nearest to [num/den * 2^e]: [k] is such that [num/den * 2^k] has 53 bits *)
Definition of_ratio (num den e : Z) : Z * Z :=
  if num =? 0 then (0, 0)
  else
    let k := 52 - (Z.log2 num - Z.log2 den) in
    let k := if scale num k <? scale den (- k) * 2 ^ 52 then k + 1 else k in
    (div_rne (scale num k) (scale den (- k)), e - k).
(** [static_cast<double>(n)] *)
Definition of_Z (n : Z) : Z * Z := of_ratio n 1 0.
Definition div (x y : Z * Z) : Z * Z := of_ratio (fst x) (fst y) (snd x - snd y).
(** [std::lround]: to the nearest integer, halves away from zero *)
Definition lround (overflow : Z) (x : Z * Z) : Z :=
  let '(m, e) := x in
  let r := if 0 <=? e then m * 2 ^ e else (2 * m + 2 ^ (- e)) / 2 ^ (- e + 1) in
  if r <? 2 ^ 63 then r else overflow.

End double.

(** ** [encode::avg] *)

Module avg.

Definition zig_zag_encode (w : width) : Z -> Z := match w with W32 => Bit.zig_zag_encode32 | W64 => Bit.zig_zag_encode64 end.
Definition zig_zag_decode (w : width) : Z -> Z := match w with W32 => Bit.zig_zag_decode32 | W64 => Bit.zig_zag_decode64 end.

(** The loop: each value becomes the code of its distance to [avg_base += avg]. *)
Fixpoint encode_from (w : width) (avg avg_base : Z) (l : list Z) : list Z :=
  match l with
  | [] => []
  | x :: l =>
      let avg_base := avg_base +[bits_of w] avg in
      zig_zag_encode w (to_signed (bits_of w) (x - avg_base)) :: encode_from w avg avg_base l
  end.

(** The average distance of neighbouring values, [std::lround]ed *)
Definition average (p : platform) (w : width) (base last : Z) (distance : nat) : Z :=
  let d := if decide (0 < distance)%nat then double.of_Z (Z.of_nat distance) else (1, 0) in
  wrap (bits_of w) (double.lround (lround_overflow p) (double.div (double.of_Z (last -[bits_of w] base)) d)).

(** [encode]: the block, its base, its average, and whether all values are zero (64-bit only) *)
Definition encode (p : platform) (w : width) (block : list Z) : option (list Z * Z * Z * bool) :=
  match block with
  | [] => None
  | base :: rest =>
      let avg := average p w base (List.last block 0) (length rest) in
      let deltas := encode_from w avg base rest in
      Some (0 :: deltas, base, avg, foldl Z.lor 0 deltas =? 0)
  end.
Definition encode64 (p : platform) := encode p W64.
Definition encode32 (p : platform) := encode p W32.

(** [visit]: the values the visitor is called with *)
Fixpoint visit (w : width) (base avg : Z) (block : list Z) : list Z :=
  match block with
  | [] => []
  | x :: block => (base +[bits_of w] zig_zag_decode w x) :: visit w (base +[bits_of w] avg) avg block
  end.
Definition visit64 := visit W64.
Definition visit32 := visit W32.
(** [decode] writes them over the block. *)
Definition decode64 := visit64.
Definition decode32 := visit32.

(** [visit_packed], from index [i] on *)
Fixpoint visit_packed_from (w : width) (base avg : Z) (packed_ : list Z) (size : nat) (i bits : Z) : option (list Z) :=
  match size with
  | O => Some []
  | S size =>
      x ← packed.at_ (bits_of w) packed_ i bits;
      rest ← visit_packed_from w (base +[bits_of w] avg) avg packed_ size (i + 1) bits;
      Some ((base +[bits_of w] zig_zag_decode w x) :: rest)
  end.
Definition visit_packed (w : width) (base avg : Z) (packed_ : list Z) (size : nat) (bits : Z) : option (list Z) :=
  visit_packed_from w base avg packed_ size 0 bits.
Definition visit_packed64 := visit_packed W64.
Definition visit_packed32 := visit_packed W32.

Section io.
Context (p : platform) (w : width).

Definition write_block {S} `{DataOutput S} (pack : list Z -> list Z -> Z -> option (list Z)) (out : S)
    (base avg : Z) (decoded encoded : list Z) : option (Z * S * list Z) :=
  bitpack.write_block p w pack (write_var w avg (write_var w base out)) decoded encoded.

(** [visit_block_rl64]/[visit_block_rl32] *)
Fixpoint repeat_visit (base avg : Z) (size : nat) : list Z :=
  match size with O => [] | S size => base :: repeat_visit (base +[bits_of w] avg) avg size end.
Definition visit_block_rl {S} `{DataInput S} (in_ : S) (base avg : Z) (size : nat) : option (list Z * S) :=
  '(v, in_) ← read_var w in_; Some (repeat_visit (base +[bits_of w] v) avg size, in_).

Definition check_block_rl {S} `{DataInput S} (in_ : S) (expected_avg : Z) : option (bool * S) :=
  '(_, in_) ← read_var w in_;
  '(avg, in_) ← read_var w in_;
  '(bits, in_) ← read_vint in_;
  '(value, in_) ← read_var w in_;
  Some ((expected_avg =? avg) && (bitpack.ALL_EQUAL =? bits) && (0 =? value), in_).
(** [read_block_rl64]/[read_block_rl32]: the result, the base and the average *)
Definition read_block_rl {S} `{DataInput S} (in_ : S) : option (bool * Z * Z * S) :=
  '(base, in_) ← read_var w in_;
  '(avg, in_) ← read_var w in_;
  '(bits, in_) ← read_vint in_;
  '(value, in_) ← read_var w in_;
  Some ((bitpack.ALL_EQUAL =? bits) && (0 =? value), base, avg, in_).

Definition blocks_required (block_size bits : Z) : Z :=
  match w with W32 => packed.blocks_required_32 block_size bits | W64 => packed.blocks_required_64 block_size bits end.

(** The common body of [visit_block_packed] and [visit_block_packed_tail], which differ in the size
    of the block that was written *)
Definition visit_block {S} `{DataInput S} (in_ : S) (block_size : Z) (size : nat) (packed_ : list Z)
    : option (list Z * S) :=
  '(base, in_) ← read_var w in_;
  '(avg, in_) ← read_var w in_;
  '(bits, in_) ← read_vint in_;
  if bitpack.ALL_EQUAL =? bits then visit_block_rl in_ base avg size
  else
    let '(bs, in_) := read_bytes (bytes_of w * Z.to_nat (blocks_required block_size bits)) in_ in
    let packed_ := overwrite (big_endian p) w bs packed_ in
    vals ← visit_packed w base avg packed_ size bits; Some (vals, in_).
Definition visit_block_packed_tail {S} `{DataInput S} (in_ : S) (size : nat) (packed_ : list Z) :=
  visit_block in_ (Math.ceil (bits_of w) (Z.of_nat size) (bits_of w)) size packed_.
Definition visit_block_packed {S} `{DataInput S} (in_ : S) (size : nat) (packed_ : list Z) :=
  visit_block in_ (Z.of_nat size) size packed_.
End io.

(** [skip_block32] *)
Definition skip_block32 {S} `{IndexInput S} (in_ : S) (size : nat) : option S :=
  '(_, in_) ← read_vint in_; '(_, in_) ← read_vint in_; bitpack.skip_block32 size in_.

End avg.

(** ** Words in memory: lemmas *)

Lemma bytes_of_bits w : 8 * Z.of_nat (bytes_of w) = bits_of w.
Proof. by destruct w. Qed.

Lemma bits_of_pos w : 0 < bits_of w.
Proof. by destruct w. Qed.

Lemma host_bytes_length big n x : length (Fixed.host_bytes big n x) = n.
Proof. unfold Fixed.host_bytes. destruct big; rewrite ?length_rev; apply Fixed.length_le_bytes. Qed.

Lemma host_bytes_bytes big n x : Forall is_byte (Fixed.host_bytes big n x).
Proof.
  unfold Fixed.host_bytes. destruct big; [apply Fixed.rev_bytes|]; apply Fixed.le_bytes_bytes.
Qed.

Lemma host_value_bytes big w x : is_word (bits_of w) x -> Fixed.host_value big (Fixed.host_bytes big (bytes_of w) x) = x.
Proof.
  intros Hx. unfold Fixed.host_value, Fixed.host_bytes.
  destruct big; rewrite ?rev_involutive, Fixed.le_value_bytes, bytes_of_bits; by apply wrap_small.
Qed.

Lemma bytes_of_words_length big w ws : length (bytes_of_words big w ws) = (bytes_of w * length ws)%nat.
Proof.
  unfold bytes_of_words. induction ws as [|x ws IH]; [cbn; lia|].
  change (mbind ?f (x :: ws)) with (f x ++ mbind f ws). rewrite length_app, host_bytes_length, IH. cbn [length]. lia.
Qed.

Lemma bytes_of_words_bytes big w ws : Forall is_byte (bytes_of_words big w ws).
Proof.
  induction ws as [|x ws IH]; [constructor|]. change (bytes_of_words big w (x :: ws)) with
    (Fixed.host_bytes big (bytes_of w) x ++ bytes_of_words big w ws). apply Forall_app. split; [apply host_bytes_bytes|done].
Qed.

Lemma bytes_of_words_app big w a b : bytes_of_words big w (a ++ b) = bytes_of_words big w a ++ bytes_of_words big w b.
Proof. apply bind_app. Qed.

Lemma words_of_bytes_words big w ws rest : Forall (is_word (bits_of w)) ws ->
  words_of_bytes big w (length ws) (bytes_of_words big w ws ++ rest) = ws.
Proof.
  induction 1 as [|x ws Hx Hws IH]; [done|]. cbn [length words_of_bytes].
  change (bytes_of_words big w (x :: ws)) with (Fixed.host_bytes big (bytes_of w) x ++ bytes_of_words big w ws).
  rewrite <-app_assoc, take_app_length', drop_app_length', IH by (by rewrite host_bytes_length).
  by rewrite host_value_bytes.
Qed.

Lemma bytes_of_words_drop big w n ws : bytes_of_words big w (drop n ws) = drop (bytes_of w * n) (bytes_of_words big w ws).
Proof.
  destruct (decide (n <= length ws)%nat) as [Hn|Hn].
  - rewrite <-(take_drop n ws) at 2. rewrite bytes_of_words_app, drop_app_length'; [done|].
    rewrite bytes_of_words_length, length_take, Nat.min_l by done. done.
  - rewrite !drop_ge by (rewrite ?bytes_of_words_length; nia). done.
Qed.

Lemma overwrite_words big w a ws : Forall (is_word (bits_of w)) a -> Forall (is_word (bits_of w)) ws ->
  (length a <= length ws)%nat -> overwrite big w (bytes_of_words big w a) ws = a ++ drop (length a) ws.
Proof.
  intros Ha Hws Hl. unfold overwrite. rewrite bytes_of_words_length, <-bytes_of_words_drop, <-bytes_of_words_app.
  assert (length ws = length (a ++ drop (length a) ws)) as E by (rewrite length_app, length_drop; lia).
  rewrite E. rewrite <-(app_nil_r (bytes_of_words _ _ _)). apply words_of_bytes_words.
  apply Forall_app. split; [done|by apply Forall_drop].
Qed.

Lemma bytes_of_words_zeros big w n : replicate (bytes_of w * n) 0 = bytes_of_words big w (replicate n 0).
Proof.
  induction n as [|n IH]; [by rewrite Nat.mul_0_r|].
  change (bytes_of_words big w (replicate (S n) 0)) with
    (Fixed.host_bytes big (bytes_of w) 0 ++ bytes_of_words big w (replicate n 0)).
  rewrite <-IH, Nat.mul_succ_r, Nat.add_comm, replicate_add. f_equal. by destruct big, w.
Qed.

Lemma zeros_words w n : Forall (is_word (bits_of w)) (replicate n 0).
Proof. apply Forall_replicate. by destruct w. Qed.

(** ** The interface of a packing function *)

(** [pack] stores blocks of [size] values that fit in [N] bits as the radix [2^W] digits of the number
    they are the radix [2^N] digits of, over zeroes. *)
Class PackFunc (w : width) (size : nat) (pack : list Z -> list Z -> Z -> option (list Z)) :=
  pack_func : forall k N decoded rest, 0 < N <= bits_of w -> size = (k * Z.to_nat (bits_of w))%nat ->
    length decoded = size -> Forall (is_word N) decoded ->
    pack decoded (replicate (k * Z.to_nat N) 0 ++ rest) N =
      Some (digits (bits_of w) (k * Z.to_nat N) (digits_value N decoded) ++ rest).

Class UnpackFunc (w : width) (size : nat) (unpack : list Z -> list Z -> Z -> option (list Z)) :=
  unpack_func : forall k N decoded encoded, 0 < N <= bits_of w -> size = (k * Z.to_nat (bits_of w))%nat ->
    length decoded = size -> (k * Z.to_nat N <= length encoded)%nat -> Forall (is_word (bits_of w)) encoded ->
    unpack decoded encoded N = Some (digits N size (digits_value (bits_of w) encoded)).

Lemma map_wrap_words N l : Forall (is_word N) l -> map (wrap N) l = l.
Proof. induction 1; cbn; f_equal; auto. by apply wrap_small. Qed.

Lemma words_mono N W l : 0 <= N <= W -> Forall (is_word N) l -> Forall (is_word W) l.
Proof.
  intros HN Hl. eapply Forall_impl; [exact Hl|]. unfold is_word. intros x Hx.
  pose proof (Z.pow_le_mono_r 2 N W). lia.
Qed.

(** Packing blocks one after the other is such a function. *)
Lemma pack_blocks_func W N k decoded rest : 0 < N <= W -> length decoded = (k * Z.to_nat W)%nat ->
  Forall (is_word N) decoded ->
  packed.pack_blocks W k decoded (replicate (k * Z.to_nat N) 0 ++ rest) N =
  Some (digits W (k * Z.to_nat N) (digits_value N decoded) ++ rest).
Proof.
  intros HN Hl Hd.
  destruct (packed.pack_blocks_value W N k decoded (replicate (k * Z.to_nat N) 0) rest) as (out & E & L & F & V);
    [done|by apply (words_mono N); [lia|]|done|apply length_replicate|by apply Forall_replicate|].
  rewrite E. do 2 f_equal. rewrite map_wrap_words in V by done. rewrite length_replicate in L.
  rewrite <-V, <-L. symmetry. apply packed.digits_digits_value; [lia|done].
Qed.

#[global] Instance columnstore_pack32 size : PackFunc W32 size columnstore_traits.pack32.
Proof.
  intros k N decoded rest HN -> Hl Hd. unfold columnstore_traits.pack32, packed.pack. cbn [bits_of] in *.
  rewrite Hl, packed.blocks_exact by done. by apply pack_blocks_func.
Qed.
#[global] Instance columnstore_pack64 size : PackFunc W64 size columnstore_traits.pack64.
Proof.
  intros k N decoded rest HN -> Hl Hd. unfold columnstore_traits.pack64, packed.pack. cbn [bits_of] in *.
  rewrite Hl, packed.blocks_exact by done. by apply pack_blocks_func.
Qed.
#[global] Instance packed_unpack w size : UnpackFunc w size (packed.unpack (bits_of w)).
Proof.
  intros k N decoded encoded HN Hs Hl Hle He. pose proof (bits_of_pos w). unfold packed.unpack.
  rewrite Hl, Hs, packed.blocks_exact by done. apply packed.unpack_blocks_value; done || lia.
Qed.

(** The four calls of [format_traits] pack and unpack the four quarters of a block. *)
Lemma at_offset_app f a b b' : f b = Some b' -> at_offset (length a) f (a ++ b) = Some (a ++ b').
Proof.
  intros H. unfold at_offset. rewrite drop_app_length, H. cbn [mbind option_bind]. by rewrite take_app_length.
Qed.

Lemma at_offset_app' n f a b b' : n = length a -> f b = Some b' -> at_offset n f (a ++ b) = Some (a ++ b').
Proof. intros -> H. by apply at_offset_app. Qed.

(** One call: [vals] is a quarter and [more] the values behind it. *)
Lemma pack_quarter W N vals more rest : 0 < N <= W -> length vals = Z.to_nat W -> Forall (is_word N) vals ->
  packed.pack_block W (vals ++ more) (replicate (Z.to_nat N) 0 ++ rest) N =
  Some (digits W (Z.to_nat N) (digits_value N vals) ++ rest).
Proof.
  intros HN Hl Hv.
  destruct (packed.pack_block_value W N vals more (replicate (Z.to_nat N) 0) rest) as (out & E & L & F & V);
    [done|done|by apply (words_mono N); [lia|]|apply length_replicate|by apply Forall_replicate|].
  rewrite E. do 2 f_equal. rewrite map_wrap_words in V by done. rewrite length_replicate in L.
  rewrite <-V, <-L. symmetry. apply packed.digits_digits_value; [lia|done].
Qed.

(** The digits of consecutive blocks *)
Lemma digits_blocks W N k a b : 0 < N <= W -> length a = Z.to_nat W -> Forall (is_word N) a -> Forall (is_word N) b ->
  digits W (Z.to_nat N + k) (digits_value N (a ++ b)) =
  digits W (Z.to_nat N) (digits_value N a) ++ digits W k (digits_value N b).
Proof.
  intros HN Hl Ha Hb. rewrite packed.digits_value_app, Hl, packed.digits_app by lia.
  pose proof (packed.digits_value_range N a ltac:(lia) Ha) as Hr. rewrite Hl, Z2Nat.id in Hr by lia.
  rewrite !Z2Nat.id by lia. rewrite Z.mul_comm. f_equal.
  - pose proof (packed.digits_low W (Z.to_nat N) (digits_value N a) (digits_value N b) ltac:(lia)) as E.
    by rewrite Z2Nat.id in E by lia.
  - f_equal. apply packed.digits_tail; [nia|]. by rewrite Z.mul_comm.
Qed.

(** The call for the quarter [q]: [before] holds what the calls for the quarters [pre] have stored. *)
Lemma pack_call N pre q post before n off rest : 0 < N <= 32 -> length q = 32%nat -> Forall (is_word N) q ->
  off = length pre -> n = length before ->
  at_offset n (fun e => packed.pack_block 32 (drop off (pre ++ q ++ post)) e N)
    (before ++ replicate (Z.to_nat N) 0 ++ rest) =
  Some ((before ++ digits 32 (Z.to_nat N) (digits_value N q)) ++ rest).
Proof.
  intros HN Hl Hq -> ->. rewrite <-app_assoc. apply at_offset_app.
  rewrite drop_app_length. by apply pack_quarter.
Qed.

Lemma format_pack_block N decoded rest : 0 < N <= 32 -> length decoded = 128%nat -> Forall (is_word N) decoded ->
  format_traits.pack_block decoded (replicate (4 * Z.to_nat N) 0 ++ rest) N =
  Some (digits 32 (4 * Z.to_nat N) (digits_value N decoded) ++ rest).
Proof.
  intros HN Hl Hd. unfold format_traits.pack_block, packed.pack_block_32. cbv zeta.
  destruct (packed.split_length 32 96 decoded Hl) as (a & r & -> & La & Lr).
  destruct (packed.split_length 32 64 r Lr) as (b & r2 & -> & Lb & Lr2).
  destruct (packed.split_length 32 32 r2 Lr2) as (c & d & -> & Lc & Ld).
  rewrite !Forall_app in Hd. destruct Hd as (Ha & Hb & Hc & Hd).
  replace (4 * Z.to_nat N)%nat with (Z.to_nat N + (Z.to_nat N + (Z.to_nat N + (Z.to_nat N + 0))))%nat by lia.
  rewrite !replicate_add, <-!app_assoc. cbn [replicate app].
  rewrite pack_quarter by done. cbn [mbind option_bind].
  rewrite pack_call by (rewrite ?packed.length_digits; lia || done). cbn [mbind option_bind].
  replace (a ++ b ++ c ++ d) with ((a ++ b) ++ c ++ d) by by rewrite <-!app_assoc.
  rewrite pack_call by (rewrite ?length_app, ?packed.length_digits; lia || done). cbn [mbind option_bind].
  replace ((a ++ b) ++ c ++ d) with ((a ++ b ++ c) ++ d ++ []) by by rewrite app_nil_r, <-!app_assoc.
  rewrite pack_call by (rewrite ?length_app, ?packed.length_digits; lia || done). f_equal.
  rewrite app_nil_r, <-!app_assoc, Nat.add_0_r.
  rewrite (digits_blocks 32 N _ a), (digits_blocks 32 N _ b), (digits_blocks 32 N _ c)
    by (rewrite ?Forall_app; done || lia). by rewrite <-!app_assoc.
Qed.

Lemma unpack_call N pre q post encoded n off : 0 < N <= 32 -> length q = 32%nat ->
  (n + Z.to_nat N <= length encoded)%nat -> Forall (is_word 32) encoded -> off = length pre ->
  at_offset off (fun d => packed.unpack_block 32 (drop n encoded) d N) (pre ++ q ++ post) =
  Some ((pre ++ digits N 32 (Z.shiftr (digits_value 32 encoded) (32 * Z.of_nat n))) ++ post).
Proof.
  intros HN Hl Hle He ->. rewrite <-app_assoc. apply at_offset_app.
  rewrite packed.unpack_block_value by (rewrite ?length_drop; lia || (by apply Forall_drop) || done).
  rewrite packed.digits_value_drop by done. change (Z.to_nat 32) with 32%nat.
  by rewrite drop_app_length' by done.
Qed.

Lemma digits_quarters N n D x : 0 <= N -> N * Z.of_nat n = x ->
  digits N (n + (n + (n + n))) D =
  digits N n D ++ digits N n (Z.shiftr D x) ++ digits N n (Z.shiftr D (2 * x)) ++ digits N n (Z.shiftr D (3 * x)).
Proof.
  intros HN <-. rewrite !packed.digits_app, !Z.shiftr_shiftr by nia. repeat f_equal; lia.
Qed.

Lemma format_unpack_block N decoded encoded : 0 < N <= 32 -> length decoded = 128%nat ->
  (4 * Z.to_nat N <= length encoded)%nat -> Forall (is_word 32) encoded ->
  format_traits.unpack_block decoded encoded N = Some (digits N 128 (digits_value 32 encoded)).
Proof.
  intros HN Hl Hle He. unfold format_traits.unpack_block, packed.unpack_block_32. cbv zeta.
  destruct (packed.split_length 32 96 decoded Hl) as (a & r & -> & La & Lr).
  destruct (packed.split_length 32 64 r Lr) as (b & r2 & -> & Lb & Lr2).
  destruct (packed.split_length 32 32 r2 Lr2) as (c & d & -> & Lc & Ld).
  rewrite packed.unpack_block_value by (done || lia). cbn [mbind option_bind].
  change (Z.to_nat 32) with 32%nat. rewrite drop_app_length' by done.
  remember (digits_value 32 encoded) as D eqn:ED.
  rewrite unpack_call by (rewrite ?packed.length_digits; done || lia). cbn [mbind option_bind].
  rewrite unpack_call by (rewrite ?length_app, ?packed.length_digits; done || lia). cbn [mbind option_bind].
  rewrite <-(app_nil_r d).
  rewrite unpack_call by (rewrite ?length_app, ?packed.length_digits; done || lia). rewrite app_nil_r, <-ED.
  change 128%nat with (32 + (32 + (32 + 32)))%nat.
  rewrite (digits_quarters N 32 D (32 * Z.of_nat (Z.to_nat N))), <-!app_assoc by lia.
  by replace (32 * Z.of_nat (2 * Z.to_nat N)) with (2 * (32 * Z.of_nat (Z.to_nat N))) by lia;
    replace (32 * Z.of_nat (3 * Z.to_nat N)) with (3 * (32 * Z.of_nat (Z.to_nat N))) by lia.
Qed.

#[global] Instance format_pack : PackFunc W32 format_traits.block_size format_traits.pack_block.
Proof.
  intros k N decoded rest HN Hs Hl Hd. unfold format_traits.block_size in *. cbn [bits_of] in *.
  assert (k = 4%nat) as -> by lia. by apply format_pack_block.
Qed.
#[global] Instance format_unpack : UnpackFunc W32 format_traits.block_size format_traits.unpack_block.
Proof.
  intros k N decoded encoded HN Hs Hl Hle He. unfold format_traits.block_size in *. cbn [bits_of] in *.
  assert (k = 4%nat) as -> by lia. by apply format_unpack_block.
Qed.

(** ** The stored form of a block *)

Definition var_bytes (w : width) (v : Z) : list Z := match w with W32 => VInt.vwrite32 v | W64 => VInt.vwrite64 v end.

Definition block_bytes (big : bool) (w : width) (decoded : list Z) : list Z :=
  if forallb (Z.eqb (hd 0 decoded)) decoded then 0 :: var_bytes w (hd 0 decoded)
  else
    let bits := packed.maxbits (bits_of w) decoded in
    let n := (length decoded / Z.to_nat (bits_of w) * Z.to_nat bits)%nat in
    bits :: bytes_of_words big w (digits (bits_of w) n (digits_value bits decoded)).

Section codec_lemmas.
Context (w : width).

(** A block of [k] packing units whose byte count does not overflow *)
Definition good_block (k : nat) (decoded : list Z) : Prop :=
  length decoded = (k * Z.to_nat (bits_of w))%nat /\ (0 < k)%nat /\
  Z.of_nat (length decoded) * bits_of w + 8 < 2 ^ 32 /\ Forall (is_word (bits_of w)) decoded.

Lemma write_var_spec {S} `{DataOutputSpec S} v s : out_ok s -> is_word (bits_of w) v ->
  out_ok (write_var w v s) /\ written (write_var w v s) = written s ++ var_bytes w v.
Proof. intros Hs Hv. unfold write_var, var_bytes. destruct w; by apply out_iter_spec. Qed.

Lemma read_var_spec {S} `{DataInputSpec S} v r s : in_ok s -> is_word (bits_of w) v ->
  remaining s = var_bytes w v ++ r ->
  exists s', read_var w s = Some (v, s') /\ in_ok s' /\ remaining s' = r.
Proof. unfold read_var, var_bytes. destruct w; [apply read_vint_spec|apply read_vlong_spec]. Qed.

Lemma zeros_all_equal l : Forall (is_word 0) l -> forallb (Z.eqb (hd 0 l)) l = true.
Proof.
  intros H. assert (Forall (fun x => x = 0) l) as H0.
  { eapply Forall_impl; [done|]. unfold is_word. change (2 ^ 0) with 1. lia. }
  assert (hd 0 l = 0) as -> by (destruct H0; done). clear H.
  induction H0 as [|x l -> _ IH]; [done|]. cbn [forallb]. by rewrite IH.
Qed.

Lemma maxbits_bounds k decoded : good_block k decoded -> forallb (Z.eqb (hd 0 decoded)) decoded = false ->
  0 < packed.maxbits (bits_of w) decoded <= bits_of w /\ Forall (is_word (packed.maxbits (bits_of w) decoded)) decoded.
Proof.
  intros (_ & _ & _ & Hd) Hne. destruct (packed.maxbits_word (bits_of w) decoded (bits_of_pos w) Hd) as [Hr Hb].
  split; [|done]. destruct (decide (packed.maxbits (bits_of w) decoded = 0)) as [E|]; [|lia].
  rewrite E in Hb. by rewrite zeros_all_equal in Hne.
Qed.

Lemma bytes_required_spec k decoded bits : good_block k decoded -> 0 < bits <= bits_of w ->
  Z.to_nat (bitpack.bytes_required w (Z.of_nat (length decoded)) bits) = (bytes_of w * (k * Z.to_nat bits))%nat.
Proof.
  intros (Hl & Hk & Hsize & _) Hb. rewrite Hl in *.
  assert (forall W x, 32 <= W -> 0 <= x -> 8 * x + 8 < 2 ^ 32 -> Math.div_ceil W (wrap W (8 * x)) 8 = x) as Hdiv.
  { intros W x HW Hx Hlt. assert (2 ^ 32 <= 2 ^ W) by (apply Z.pow_le_mono_r; lia).
    rewrite (wrap_small W (8 * x)) by (unfold is_word; lia). unfold Math.div_ceil.
    rewrite wrap_small by (unfold is_word; lia). symmetry. apply (Z.div_unique_pos _ _ _ 7); lia. }
  unfold bitpack.bytes_required, packed.bytes_required_32, packed.bytes_required_64, Math.div_ceil32, Math.div_ceil64.
  destruct w; cbn [bits_of bytes_of] in *.
  - replace (Z.of_nat (k * Z.to_nat 32) * bits) with (8 * (4 * Z.of_nat k * bits)) by lia. rewrite Hdiv; nia.
  - replace (Z.of_nat (k * Z.to_nat 64) * bits) with (8 * (8 * Z.of_nat k * bits)) by lia. rewrite Hdiv; nia.
Qed.

Lemma block_words k decoded : good_block k decoded ->
  (length decoded / Z.to_nat (bits_of w))%nat = k.
Proof. intros (-> & _). apply Nat.div_mul. destruct w; done. Qed.

Context (p : platform) (Hlanes : (0 < lanes p)%nat).

Lemma maxbits_eq decoded : Forall (is_word (bits_of w)) decoded ->
  bitpack.maxbits p w decoded = packed.maxbits (bits_of w) decoded.
Proof.
  intros Hd. unfold bitpack.maxbits. destruct w; [|done]. destruct (cap_ge256 p); [|done].
  apply simd.maxbits_spec; [done|]. eapply Forall_impl; [done|]. unfold is_word. lia.
Qed.

(** [write_block] appends the stored form. *)
Lemma write_block_spec {S} `{DataOutputSpec S} pack k decoded encoded s `{!PackFunc w (length decoded) pack} :
  good_block k decoded -> Forall (is_word (bits_of w)) encoded -> (length decoded <= length encoded)%nat -> out_ok s ->
  exists bits s' encoded', bitpack.write_block p w pack s decoded encoded = Some (bits, s', encoded') /\
    out_ok s' /\ written s' = written s ++ block_bytes (big_endian p) w decoded /\
    Forall (is_word (bits_of w)) encoded' /\ length encoded' = length encoded.
Proof.
  intros Hg He Hle Hs. pose proof Hg as (Hl & Hk & Hsize & Hd). unfold bitpack.write_block, block_bytes. cbv zeta.
  rewrite simd.all_equal_spec by done. destruct (forallb _ decoded) eqn:Eq.
  - destruct (write_byte_spec bitpack.ALL_EQUAL s Hs) as [H1 H2].
    destruct (write_var_spec (hd 0 decoded) _ H1) as [H3 H4].
    { destruct Hd; [|done]. by destruct w. }
    do 3 eexists. split; [done|]. split; [done|]. split; [by rewrite H4, H2, <-app_assoc|done].
  - rewrite maxbits_eq by done. destruct (maxbits_bounds k decoded Hg Eq) as [Hb Fb].
    remember (packed.maxbits (bits_of w) decoded) as bits.
    rewrite (bytes_required_spec k) by done. rewrite (block_words k) by done.
    rewrite (bytes_of_words_zeros (big_endian p)), overwrite_words
      by (try apply zeros_words; try done; rewrite length_replicate; destruct w; cbn [bits_of] in *; nia).
    rewrite (pack_func (w:=w) (size:=length decoded) k bits) by done. cbn [mbind option_bind].
    destruct (write_byte_spec (Z.land bits 255) s Hs) as [H1 H2].
    rewrite bytes_of_words_app, take_app_length' by by rewrite bytes_of_words_length, packed.length_digits.
    destruct (write_bytes_spec (bytes_of_words (big_endian p) w (digits (bits_of w) (k * Z.to_nat bits) (digits_value bits decoded))) _ H1)
      as [H3 H4].
    do 3 eexists. split; [done|]. split; [done|]. split.
    2: { split; [apply Forall_app; split; [apply packed.digits_words; by destruct w|by apply Forall_drop]|].
      rewrite length_app, packed.length_digits, length_drop, length_replicate. destruct w; cbn [bits_of] in *; nia. }
    rewrite H4, H2, <-app_assoc. cbn [app].
    assert (Z.land bits 255 = bits) as ->; [|done].
    change 255 with (Z.ones 8). rewrite <-wrap_land by done. apply wrap_small.
    unfold is_word. destruct w; cbn [bits_of] in Hb; lia.
Qed.
End codec_lemmas.

Lemma digits_value_digits w n x : 0 <= w -> digits_value w (digits w n x) = wrap (w * Z.of_nat n) x.
Proof.
  intros Hw. revert x. induction n as [|n IH]; intros x; cbn [digits digits_value].
  - rewrite Z.mul_0_r. unfold wrap. by rewrite Z.mod_1_r.
  - rewrite IH. replace (w * Z.of_nat (S n)) with (w + w * Z.of_nat n) by lia.
    assert (0 <= w * Z.of_nat n) by nia. remember (w * Z.of_nat n) as m. clear Heqm. bitwise; f_equal; lia.
Qed.

(** The number stored in the first [k*N] words, whatever follows them, has the values as its digits. *)
Lemma stored_value W N k decoded rest : 0 < N <= W -> length decoded = (k * Z.to_nat W)%nat -> Forall (is_word N) decoded ->
  digits N (length decoded) (digits_value W (digits W (k * Z.to_nat N) (digits_value N decoded) ++ rest)) = decoded.
Proof.
  intros HN Hl Hd. rewrite packed.digits_value_app, packed.length_digits by lia.
  replace (W * Z.of_nat (k * Z.to_nat N)) with (N * Z.of_nat (length decoded)) by lia.
  rewrite packed.digits_low, digits_value_digits by lia. rewrite wrap_small.
  - apply packed.digits_digits_value; [lia|done].
  - replace (W * Z.of_nat (k * Z.to_nat N)) with (N * Z.of_nat (length decoded)) by lia.
    apply packed.digits_value_range; [lia|done].
Qed.

Lemma all_equal_replicate l : forallb (Z.eqb (hd 0 l)) l = true -> l = replicate (length l) (hd 0 l).
Proof.
  intros H. generalize dependent (hd 0 l). intros v. induction l as [|x l IH]; [done|]. cbn [forallb length replicate].
  rewrite andb_true_iff, Z.eqb_eq. intros [<- H]. f_equal. by apply IH.
Qed.

Section reading.
Context (p : platform).

(** The words of a stored block, read into a buffer of words *)
Lemma read_words w n D (encoded : list Z) : Forall (is_word (bits_of w)) encoded -> (n <= length encoded)%nat ->
  let bs := bytes_of_words (big_endian p) w (digits (bits_of w) n D) in
  overwrite (big_endian p) w bs encoded = digits (bits_of w) n D ++ drop n encoded /\
  words_of_bytes (big_endian p) w n bs = digits (bits_of w) n D.
Proof.
  intros He Hn bs. pose proof (packed.digits_words (bits_of w) n D ltac:(destruct w; done)) as Hw.
  pose proof (packed.length_digits (bits_of w) n D) as Hl. split.
  - unfold bs. rewrite overwrite_words by (done || lia). by rewrite Hl.
  - unfold bs. rewrite <-Hl at 1. rewrite <-(app_nil_r (bytes_of_words _ _ _)). by apply words_of_bytes_words.
Qed.

Lemma read_block32_spec {S} `{IndexInputSpec S} unpack k decoded decoded0 encoded s r
    `{!UnpackFunc W32 (length decoded) unpack} :
  good_block W32 k decoded -> length decoded0 = length decoded ->
  Forall (is_word 32) encoded -> (length decoded <= length encoded)%nat -> in_ok s ->
  remaining s = block_bytes (big_endian p) W32 decoded ++ r ->
  exists encoded' s', bitpack.read_block32 p unpack s encoded decoded0 = Some (decoded, encoded', s') /\
    in_ok s' /\ remaining s' = r.
Proof.
  intros Hg Hlen0 He Hle Hs Hr. pose proof Hg as (Hl & Hk & Hsize & Hd). unfold bitpack.read_block32.
  unfold block_bytes in Hr. cbv zeta in Hr. destruct (forallb _ decoded) eqn:Eq.
  - destruct (read_byte_spec s 0 (var_bytes W32 (hd 0 decoded) ++ r) Hs Hr) as (s1 & -> & Hs1 & Hr1).
    cbn [mbind option_bind]. change (bitpack.ALL_EQUAL =? 0) with true. cbv iota.
    pose proof (read_var_spec W32 (hd 0 decoded) r s1) as Hv. specialize (Hv Hs1).
    destruct Hv as (s2 & E2 & Hs2 & Hr2); [destruct Hd; done|done|].
    change (read_vint s1) with (read_var W32 s1). rewrite E2. cbn [mbind option_bind].
    rewrite Hlen0, <-(all_equal_replicate decoded Eq). by exists encoded, s2.
  - destruct (maxbits_bounds W32 k decoded Hg Eq) as [Hb Fb]. rewrite (block_words W32 k) in Hr by done.
    remember (packed.maxbits (bits_of W32) decoded) as bits. cbn [bits_of] in *.
    destruct (read_byte_spec s bits _ Hs Hr) as (s1 & -> & Hs1 & Hr1). cbn [mbind option_bind].
    destruct (Z.eqb_spec bitpack.ALL_EQUAL bits) as [E0|_]; [unfold bitpack.ALL_EQUAL in E0; lia|].
    rewrite Hlen0. pose proof (bytes_required_spec W32 k decoded bits Hg Hb) as Hreq. cbn [bitpack.bytes_required bytes_of] in Hreq.
    rewrite Hreq. remember (k * Z.to_nat bits)%nat as n eqn:En. rewrite (Nat.mul_comm 4 n), Nat.div_mul by done.
    destruct (read_words W32 n (digits_value bits decoded) encoded He ltac:(nia)) as [Eover Ewords].
    cbn [bits_of] in *. remember (bytes_of_words (big_endian p) W32 (digits 32 n (digits_value bits decoded))) as bs.
    assert (length bs = n * 4)%nat as Lbs by (subst bs; rewrite bytes_of_words_length, packed.length_digits; cbn [bytes_of]; lia).
    pose proof (packed.digits_words 32 n (digits_value bits decoded) ltac:(lia)) as Fdig.
    change (remaining s1 = bs ++ r) in Hr1.
    pose proof (read_buffer_spec (n * 4) s1) as Hbuf. specialize (Hbuf Hs1).
    rewrite Hr1, length_app, take_app_length', drop_app_length' in Hbuf by done. specialize (Hbuf ltac:(lia)).
    destruct (read_buffer (n * 4) s1) as [[buf|] s2].
    + destruct Hbuf as (-> & Hs2 & Hr2). rewrite Ewords.
      rewrite (unpack_func (w:=W32) (size:=length decoded) k) by
        (first [done | cbn [bits_of]; lia | rewrite packed.length_digits; lia]).
      cbn [mbind option_bind]. pose proof (stored_value 32 bits k decoded [] Hb Hl Fb) as Hsv.
      rewrite app_nil_r, <-En in Hsv. cbn [bits_of]. rewrite Hsv. by exists encoded, s2.
    + subst s2. destruct (read_bytes_spec (n * 4) s1 Hs1) as (E1 & E2 & E3).
      destruct (read_bytes (n * 4) s1) as [bs' s2]. cbn [fst snd] in *.
      rewrite Hr1, take_app_length' in E1 by done. rewrite Hr1, drop_app_length' in E3 by done. subst bs'.
      rewrite Eover.
      rewrite (unpack_func (w:=W32) (size:=length decoded) k) by
        (first [done | cbn [bits_of]; lia | rewrite length_app, packed.length_digits; lia
               | apply Forall_app; split; [done|by apply Forall_drop]]).
      cbn [mbind option_bind bits_of]. rewrite En, (stored_value 32 bits k) by done. by eexists _, s2.
Qed.

Lemma skip_block32_spec {S} `{SeekEndSpec S} k decoded s r : good_block W32 k decoded -> in_ok s ->
  remaining s = block_bytes (big_endian p) W32 decoded ++ r ->
  exists s', bitpack.skip_block32 (length decoded) s = Some s' /\ in_ok s' /\ remaining s' = r.
Proof.
  intros Hg Hs Hr. pose proof Hg as (Hl & Hk & Hsize & Hd). unfold bitpack.skip_block32.
  unfold block_bytes in Hr. cbv zeta in Hr. destruct (forallb _ decoded) eqn:Eq.
  - destruct (read_byte_spec s 0 (var_bytes W32 (hd 0 decoded) ++ r) Hs Hr) as (s1 & -> & Hs1 & Hr1).
    cbn [mbind option_bind]. change (bitpack.ALL_EQUAL =? 0) with true. cbv iota.
    pose proof (read_var_spec W32 (hd 0 decoded) r s1) as Hv. specialize (Hv Hs1).
    destruct Hv as (s2 & E2 & Hs2 & Hr2); [destruct Hd; done|done|].
    change (read_vint s1) with (read_var W32 s1). rewrite E2. by exists s2.
  - destruct (maxbits_bounds W32 k decoded Hg Eq) as [Hb Fb]. rewrite (block_words W32 k) in Hr by done.
    remember (packed.maxbits (bits_of W32) decoded) as bits. cbn [bits_of] in *.
    destruct (read_byte_spec s bits _ Hs Hr) as (s1 & -> & Hs1 & Hr1). cbn [mbind option_bind].
    destruct (Z.eqb_spec bitpack.ALL_EQUAL bits) as [E0|_]; [unfold bitpack.ALL_EQUAL in E0; lia|].
    pose proof (bytes_required_spec W32 k decoded bits Hg Hb) as Hreq. cbn [bitpack.bytes_required bytes_of] in Hreq.
    change (remaining s1 = bytes_of_words (big_endian p) W32 (digits 32 (k * Z.to_nat bits) (digits_value bits decoded)) ++ r) in Hr1.
    rewrite Hreq. pose proof (seek_ahead (4 * (k * Z.to_nat bits)) s1) as Hseek. specialize (Hseek Hs1).
    rewrite Hr1, drop_app_length' in Hseek by (rewrite bytes_of_words_length, packed.length_digits; done).
    destruct Hseek as [G1 G2].
    { rewrite length_app, bytes_of_words_length, packed.length_digits. cbn [bytes_of]. lia. }
    eexists. split; [done|]. done.
Qed.
End reading.

(** ** Average encoding *)

Lemma to_signed_word w x : is_int (bits_of w) (to_signed (bits_of w) x).
Proof. apply to_signed_range. by destruct w. Qed.

Lemma zig_zag_inv w v : is_int (bits_of w) v -> avg.zig_zag_decode w (avg.zig_zag_encode w v) = v.
Proof. intros Hv. destruct w; by apply Bit.zig_zag_decode_encode. Qed.

Lemma zig_zag_word w v : is_int (bits_of w) v -> is_word (bits_of w) (avg.zig_zag_encode w v).
Proof. intros Hv. destruct w; by apply Bit.zig_zag_encode_word. Qed.

Lemma encode_from_words w a b l : Forall (is_word (bits_of w)) (avg.encode_from w a b l).
Proof.
  revert b. induction l as [|x l IH]; intros b; constructor; [|apply IH].
  apply zig_zag_word, to_signed_word.
Qed.

Lemma length_encode_from w a b l : length (avg.encode_from w a b l) = length l.
Proof. revert b. induction l; intros; cbn; auto. Qed.

(** Visiting undoes the encoding, whatever average was used. *)
Lemma visit_encode_from w a b l : Forall (is_word (bits_of w)) l ->
  avg.visit w (b +[bits_of w] a) a (avg.encode_from w a b l) = l.
Proof.
  intros Hl. revert b. induction Hl as [|x l Hx Hl IH]; intros b; [done|]. cbn [avg.encode_from avg.visit]. f_equal.
  - rewrite zig_zag_inv by apply to_signed_word. rewrite <-wrap_add_r, wrap_to_signed by (by destruct w).
    rewrite wrap_add_r. replace (_ + _) with x by lia. by apply wrap_small.
  - apply IH.
Qed.

Lemma visit_take w base a n l : take n (avg.visit w base a l) = avg.visit w base a (take n l).
Proof. revert base l. induction n as [|n IH]; intros base [|x l]; cbn; [done..|]. by rewrite IH. Qed.

(** The encoded block decodes to the block. *)
Lemma visit_encode p w block enc base a rl : Forall (is_word (bits_of w)) block ->
  avg.encode p w block = Some (enc, base, a, rl) ->
  avg.visit w base a enc = block /\ length enc = length block /\ Forall (is_word (bits_of w)) enc /\
  is_word (bits_of w) base /\ is_word (bits_of w) a /\ hd 0 enc = 0.
Proof.
  intros Hb He. destruct block as [|x l]; [done|]. apply Forall_cons in Hb as [Hx Hl].
  unfold avg.encode in He. cbv zeta in He. injection He as <- <- <- _. cbn [avg.visit length hd].
  assert (avg.zig_zag_decode w 0 = 0) as -> by by destruct w.
  rewrite Z.add_0_r, wrap_small by done. rewrite visit_encode_from, length_encode_from by done.
  split; [done|]. split; [done|]. split; [constructor; [by destruct w|apply encode_from_words]|].
  split; [done|]. split; [|done]. apply wrap_range. by destruct w.
Qed.

Lemma visit_packed_spec w base a packed_ vals size i bits :
  (forall j, (j < size)%nat -> packed.at_ (bits_of w) packed_ (i + Z.of_nat j) bits = vals !! j) ->
  (size <= length vals)%nat ->
  avg.visit_packed_from w base a packed_ size i bits = Some (avg.visit w base a (take size vals)).
Proof.
  revert base i vals. induction size as [|size IH]; intros base i vals Hat Hlen; [done|].
  destruct vals as [|x vals]; [cbn in Hlen; lia|]. cbn [avg.visit_packed_from].
  pose proof (Hat 0%nat ltac:(lia)) as H0. rewrite Z.add_0_r in H0. rewrite H0. cbn [mbind option_bind lookup list_lookup].
  rewrite (IH _ _ vals); [done| |cbn in Hlen; lia].
  intros j Hj. change (vals !! j) with ((x :: vals) !! S j). rewrite <-Hat by lia. f_equal. lia.
Qed.

Lemma repeat_visit_zero w base a n : is_word (bits_of w) base ->
  avg.repeat_visit w base a n = avg.visit w base a (replicate n 0).
Proof.
  intros Hb. revert base Hb. induction n as [|n IH]; intros base Hb; [done|].
  cbn [avg.repeat_visit replicate avg.visit]. assert (avg.zig_zag_decode w 0 = 0) as -> by by destruct w.
  rewrite Z.add_0_r, (wrap_small _ base) by done. rewrite IH; [done|]. apply wrap_range. by destruct w.
Qed.

Lemma vwrite32_small v : 0 <= v < 128 -> VInt.vwrite32 v = [v].
Proof.
  intros Hv. unfold VInt.vwrite32. cbn [VInt.vwrite_loop]. destruct (Z.leb_spec 128 v); [lia|].
  cbn [default from_option]. unfold to_byte. rewrite wrap_small; [done|unfold is_word; lia].
Qed.

Section visiting.
Context (p : platform) (w : width).

Lemma blocks_required_spec k bits : 0 < bits <= bits_of w ->
  Z.of_nat (k * Z.to_nat (bits_of w)) * bits_of w + 64 < 2 ^ 32 ->
  Z.to_nat (avg.blocks_required w (Z.of_nat (k * Z.to_nat (bits_of w))) bits) = (k * Z.to_nat bits)%nat.
Proof.
  intros Hb Hsize.
  assert (forall W d x, 32 <= W -> 0 < d <= 64 -> 0 <= x -> d * x + d < 2 ^ 32 ->
    Math.div_ceil W (wrap W (d * x)) d = x) as Hdiv.
  { intros W d x HW Hd Hx Hlt. assert (2 ^ 32 <= 2 ^ W) by (apply Z.pow_le_mono_r; lia).
    rewrite (wrap_small W (d * x)) by (unfold is_word; nia). unfold Math.div_ceil.
    rewrite wrap_small by (unfold is_word; nia). symmetry. apply (Z.div_unique_pos _ _ _ (d - 1)); lia. }
  unfold avg.blocks_required, packed.blocks_required_32, packed.blocks_required_64, Math.div_ceil32, Math.div_ceil64.
  destruct w; cbn [bits_of] in *.
  - replace (Z.of_nat (k * Z.to_nat 32) * bits) with ((8 * 4) * (Z.of_nat k * bits)) by lia. rewrite Hdiv; nia.
  - replace (Z.of_nat (k * Z.to_nat 64) * bits) with ((8 * 8) * (Z.of_nat k * bits)) by lia. rewrite Hdiv; nia.
Qed.

(** Visiting a stored block reads its bytes and visits its first [size] values. *)
Lemma visit_block_spec {S} `{DataInputSpec S} k decoded base a packed_ size s r :
  good_block w k decoded -> hd 0 decoded = 0 ->
  Z.of_nat (k * Z.to_nat (bits_of w)) * bits_of w + 64 < 2 ^ 32 ->
  is_word (bits_of w) base -> is_word (bits_of w) a -> (size <= length decoded)%nat ->
  Forall (is_word (bits_of w)) packed_ -> (length decoded <= length packed_)%nat -> in_ok s ->
  remaining s = var_bytes w base ++ var_bytes w a ++ block_bytes (big_endian p) w decoded ++ r ->
  exists s', avg.visit_block p w s (Z.of_nat (k * Z.to_nat (bits_of w))) size packed_ =
      Some (avg.visit w base a (take size decoded), s') /\ in_ok s' /\ remaining s' = r.
Proof.
  intros Hg Hhd Hfit Hbase Ha Hsz Hp Hle Hs Hr. pose proof Hg as (Hl & Hk & Hsize & Hd). unfold avg.visit_block.
  pose proof (read_var_spec w base _ s Hs Hbase Hr) as (s1 & -> & Hs1 & Hr1). cbn [mbind option_bind].
  pose proof (read_var_spec w a _ s1 Hs1 Ha Hr1) as (s2 & -> & Hs2 & Hr2). cbn [mbind option_bind].
  unfold block_bytes in Hr2. cbv zeta in Hr2. rewrite (block_words w k) in Hr2 by done.
  destruct (forallb _ decoded) eqn:Eq.
  - rewrite Hhd in *. pose proof (read_vint_spec 0 (var_bytes w 0 ++ r) s2) as Hv.
    destruct (Hv Hs2 ltac:(done) Hr2) as (s3 & -> & Hs3 & Hr3). cbn [mbind option_bind].
    change (bitpack.ALL_EQUAL =? 0) with true. cbv iota. unfold avg.visit_block_rl.
    assert (is_word (bits_of w) 0) as Hz by by destruct w.
    pose proof (read_var_spec w 0 r s3 Hs3 Hz Hr3) as (s4 & -> & Hs4 & Hr4). cbn [mbind option_bind].
    rewrite Z.add_0_r, wrap_small, repeat_visit_zero by done.
    pose proof (all_equal_replicate decoded) as Hrep. rewrite Hhd in Hrep.
    assert (take size decoded = replicate size 0) as ->; [|by exists s4].
    rewrite (Hrep Eq), take_replicate. f_equal. lia.
  - destruct (maxbits_bounds w k decoded Hg Eq) as [Hb Fb].
    remember (packed.maxbits (bits_of w) decoded) as bits.
    assert (0 <= bits < 128) as Hbits by (destruct w; cbn [bits_of] in Hb; lia).
    remember (bytes_of_words (big_endian p) w (digits (bits_of w) (k * Z.to_nat bits) (digits_value bits decoded))) as bs eqn:Ebs.
    pose proof (read_vint_spec bits (bs ++ r) s2) as Hv. rewrite vwrite32_small in Hv by done.
    destruct (Hv Hs2 ltac:(unfold is_word; lia) Hr2) as (s3 & -> & Hs3 & Hr3). cbn [mbind option_bind].
    destruct (Z.eqb_spec bitpack.ALL_EQUAL bits) as [E0|_]; [unfold bitpack.ALL_EQUAL in E0; lia|].
    rewrite blocks_required_spec by done.
    destruct (read_words p w (k * Z.to_nat bits) (digits_value bits decoded) packed_ Hp ltac:(nia)) as [Eover _].
    assert (length bs = bytes_of w * (k * Z.to_nat bits))%nat as Lbs
      by (subst bs; by rewrite bytes_of_words_length, packed.length_digits).
    destruct (read_bytes_spec (bytes_of w * (k * Z.to_nat bits)) s3 Hs3) as (E1 & E2 & E3).
    destruct (read_bytes _ s3) as [bs' s4]. cbn [fst snd] in *.
    rewrite Hr3, take_app_length' in E1 by done. rewrite Hr3, drop_app_length' in E3 by done. subst bs'.
    rewrite Ebs, Eover. unfold avg.visit_packed. rewrite (visit_packed_spec _ _ _ _ decoded); [by exists s4| |done].
    intros j Hj. pose proof (bits_of_pos w) as Hw.
    assert (Forall (is_word (bits_of w)) (digits (bits_of w) (k * Z.to_nat bits) (digits_value bits decoded) ++
      drop (k * Z.to_nat bits) packed_)) as Fall
      by (apply Forall_app; split; [apply packed.digits_words; lia|by apply Forall_drop]).
    rewrite (packed.at_value _ _ k) by (rewrite ?length_app, ?packed.length_digits; first [done|lia]).
    destruct (lookup_lt_is_Some_2 decoded j) as [v Hv']; [lia|]. rewrite Hv'. f_equal. symmetry.
    rewrite <-(stored_value (bits_of w) bits k decoded (drop (k * Z.to_nat bits) packed_)) in Hv' by done.
    rewrite packed.digits_lookup in Hv' by lia. injection Hv' as <-. by rewrite Z.add_0_l.
Qed.
End visiting.

Lemma ceil_spec w n k pad : (n + pad = k * Z.to_nat (bits_of w))%nat -> (pad < Z.to_nat (bits_of w))%nat ->
  Z.of_nat (k * Z.to_nat (bits_of w)) * bits_of w + 64 < 2 ^ 32 ->
  Math.ceil (bits_of w) (Z.of_nat n) (bits_of w) = Z.of_nat (k * Z.to_nat (bits_of w)).
Proof.
  intros Hn Hpad Hfit. unfold Math.ceil, Math.div_ceil. pose proof (bits_of_pos w).
  assert (2 ^ 32 <= 2 ^ bits_of w) by (destruct w; cbn [bits_of]; apply Z.pow_le_mono_r; lia).
  assert (32 <= bits_of w <= 64) by (by destruct w).
  rewrite (wrap_small _ (_ + _ - 1)) by (unfold is_word; nia).
  assert ((Z.of_nat n + bits_of w - 1) / bits_of w = Z.of_nat k) as ->.
  { symmetry. apply (Z.div_unique_pos _ _ _ (bits_of w - 1 - Z.of_nat pad)); lia. }
  rewrite wrap_small; unfold is_word; nia.
Qed.

(** ** Properties *)

(** C23: a block of 32-bit values written with [write_block32] by any lawful packing function to any output is
    read back by [read_block32] from any input positioned at it, whether the input gives access to its
    buffer or copies, and skipping it ends behind its last byte. *)
Theorem block32_roundtrip {O I : Type} `{DataOutputSpec O} `{SeekEndSpec I} (p : platform)
    (pack unpack : list Z -> list Z -> Z -> option (list Z)) (k : nat) (decoded encoded : list Z) (out : O)
    `{!PackFunc W32 (length decoded) pack} `{!UnpackFunc W32 (length decoded) unpack}
    (Hlanes : (0 < lanes p)%nat) (Hblock : good_block W32 k decoded)
    (Hencoded : Forall (is_word 32) encoded) (Hroom : (length decoded <= length encoded)%nat) (Hout : out_ok out) :
  exists bits out' encoded' bytes,
    bitpack.write_block32 p pack out decoded encoded = Some (bits, out', encoded') /\
    out_ok out' /\ written out' = written out ++ bytes /\
    forall (in_ : I) r, in_ok in_ -> remaining in_ = bytes ++ r ->
      (forall decoded0, length decoded0 = length decoded -> exists buf in', 
         bitpack.read_block32 p unpack in_ encoded decoded0 = Some (decoded, buf, in') /\
         in_ok in' /\ remaining in' = r) /\
      (exists in', bitpack.skip_block32 (length decoded) in_ = Some in' /\ in_ok in' /\ remaining in' = r).
Proof.
  destruct (write_block_spec W32 p Hlanes pack k decoded encoded out Hblock Hencoded Hroom Hout)
    as (bits & out' & encoded' & E & Hout' & Hw & _).
  exists bits, out', encoded', (block_bytes (big_endian p) W32 decoded). split; [done|]. split; [done|]. split; [done|].
  intros in_ r Hin Hr. split.
  - intros decoded0 Hl. exact (read_block32_spec p unpack k decoded decoded0 encoded in_ r Hblock Hl Hencoded Hroom Hin Hr).
  - exact (skip_block32_spec p k decoded in_ r Hblock Hin Hr).
Qed.

Definition example_block : list Z := map Z.of_nat (seq 3 128).
Definition example_platform : platform := Platform false false 4 0.

Lemma example_block_good : good_block W32 4 example_block.
Proof.
  split; [reflexivity|]. split; [lia|]. split; [vm_compute; reflexivity|].
  apply (bool_decide_unpack (Forall (is_word (bits_of W32)) example_block)). vm_compute. exact I.
Qed.

Lemma block32_roundtrip_witness :
  exists bits (out : list Z) buf, bitpack.write_block32 example_platform format_traits.pack_block ([] : list Z)
    example_block (replicate 128 0) = Some (bits, out, buf).
Proof.
  destruct (block32_roundtrip (O := list Z) (I := BytesView.t) example_platform format_traits.pack_block
    format_traits.unpack_block 4 example_block (replicate 128 0) []
    ltac:(cbn; lia) example_block_good (zeros_words W32 128) ltac:(vm_compute; lia) Logic.I)
    as (bits & out & buf & _ & E & _).
  exists bits, out, buf. exact E.
Defined.

(** C24: a block encoded by its average, written with [write_block] together with up to a packing unit of
    arbitrary padding, is visited by [visit_block_packed_tail] as the original values, in order; without
    padding also by [visit_block_packed].  This holds whatever average the floating-point division gave. *)
Theorem avg_block_roundtrip {O I : Type} `{DataOutputSpec O} `{DataInputSpec I} (p : platform) (w : width)
    (pack : list Z -> list Z -> Z -> option (list Z)) (k : nat) (block pad encoded : list Z) (out : O)
    `{!PackFunc w (length block + length pad) pack}
    (Hlanes : (0 < lanes p)%nat) (Hnonempty : block <> []) (Hpad : (length pad < Z.to_nat (bits_of w))%nat)
    (Hlen : (length block + length pad = k * Z.to_nat (bits_of w))%nat)
    (Hfit : Z.of_nat (k * Z.to_nat (bits_of w)) * bits_of w + 64 < 2 ^ 32)
    (Hwords : Forall (is_word (bits_of w)) (block ++ pad ++ encoded))
    (Hroom : (length block + length pad <= length encoded)%nat) (Hout : out_ok out) :
  exists enc base avg rl bits out' encoded' bytes,
    avg.encode p w block = Some (enc, base, avg, rl) /\
    avg.write_block p w pack out base avg (enc ++ pad) encoded = Some (bits, out', encoded') /\
    out_ok out' /\ written out' = written out ++ bytes /\
    avg.visit w base avg enc = block /\
    forall (in_ : I) r, in_ok in_ -> remaining in_ = bytes ++ r ->
      (exists in', avg.visit_block_packed_tail p w in_ (length block) encoded = Some (block, in') /\
         in_ok in' /\ remaining in' = r) /\
      (pad = [] -> exists in', avg.visit_block_packed p w in_ (length block) encoded = Some (block, in') /\
         in_ok in' /\ remaining in' = r).
Proof.
  rewrite !Forall_app in Hwords. destruct Hwords as (Hb & Hp & He).
  destruct block as [|x l]; [done|].
  assert (exists enc base a rl, avg.encode p w (x :: l) = Some (enc, base, a, rl)) as (enc & base & a & rl & Henc) by by repeat eexists.
  remember (x :: l) as block eqn:Eblock. clear Eblock.
  destruct (visit_encode p w block enc base a rl Hb Henc) as (Hvis & Lenc & Fenc & Hbase & Ha & Hhd).
  assert (length (enc ++ pad) = (length block + length pad)%nat) as Ldec by (rewrite length_app; lia).
  assert (0 < k)%nat as Hk.
  { destruct k; [|lia]. destruct block; [done|]. cbn in Hlen. lia. }
  assert (good_block w k (enc ++ pad)) as Hg.
  { split; [lia|]. split; [done|]. split; [|by apply Forall_app].
    rewrite Ldec, Hlen. lia. }
  destruct (write_var_spec w base out Hout Hbase) as [G1 W1].
  destruct (write_var_spec w a _ G1 Ha) as [G2 W2].
  rewrite <-Ldec in PackFunc0. 
  destruct (write_block_spec w p Hlanes pack k (enc ++ pad) encoded _ Hg He ltac:(lia) G2) as (bits & out' & encoded' & E & Hout' & Hw & _).
  exists enc, base, a, rl, bits, out', encoded', (var_bytes w base ++ var_bytes w a ++ block_bytes (big_endian p) w (enc ++ pad)).
  split; [done|]. split; [done|]. split; [done|]. split; [by rewrite Hw, W2, W1, <-!app_assoc|]. split; [done|].
  intros in_ r Hin Hr. rewrite <-!app_assoc in Hr.
  assert (hd 0 (enc ++ pad) = 0) as Hhd' by (destruct enc; [destruct block; done|done]).
  pose proof (visit_block_spec p w k (enc ++ pad) base a encoded (length block) in_ r Hg Hhd' Hfit Hbase Ha
    ltac:(lia) He ltac:(lia) Hin Hr) as Hv.
  rewrite take_app_length', Hvis in Hv by done.
  split.
  - unfold avg.visit_block_packed_tail. by rewrite (ceil_spec w _ k (length pad)).
  - intros ->. unfold avg.visit_block_packed. cbn [length] in Hlen. rewrite Nat.add_0_r in Hlen. by rewrite <-Hlen in Hv.
Qed.

Lemma avg_block_roundtrip_witness :
  exists bits (out : list Z) buf enc base a rl, avg.encode example_platform W64 [10; 13; 15; 30; 31] = Some (enc, base, a, rl) /\
    avg.write_block example_platform W64 columnstore_traits.pack64 ([] : list Z) base a (enc ++ replicate 59 7)
      (replicate 64 0) = Some (bits, out, buf).
Proof.
  assert (Forall (is_word (bits_of W64)) ([10; 13; 15; 30; 31] ++ replicate 59 7 ++ replicate 64 0)) as Hw
    by (apply (bool_decide_unpack (Forall (is_word (bits_of W64)) _)); vm_compute; exact I).
  destruct (avg_block_roundtrip (O := list Z) (I := BytesView.t) example_platform W64 columnstore_traits.pack64 1
    [10; 13; 15; 30; 31] (replicate 59 7) (replicate 64 0) [] ltac:(cbn; lia) ltac:(done) ltac:(vm_compute; lia)
    eq_refl ltac:(vm_compute; reflexivity) Hw ltac:(vm_compute; lia) Logic.I)
    as (enc & base & a & rl & bits & out & buf & _ & E1 & E2 & _).
  exists bits, out, buf, enc, base, a, rl. split; [exact E1|exact E2].
Defined.
