(* ===== verification/DocIterators.v ===== *)
(** * Document iterators

    The contract of [doc_iterator] (core/index/iterators.hpp) as a type class: its operations
    [DocIterator] and its laws [DocIteratorSpec], with the abstract cursor over a set of documents
    that the laws describe; [EmptyDocIterator] (core/index/iterators.cpp) and [AllIterator]
    (core/search/all_iterator.hpp) are the first implementations. *)
From S2P Require Import Prelude.

(** ** Limits of document identifiers: utils/type_limits.hpp *)

Module doc_limits.

Definition eof : Z := 2 ^ 32 - 1.
Definition is_eof (id : Z) : bool := eof =? id.
Definition invalid : Z := 0.
Definition min : Z := 1.
Definition valid (id : Z) : bool := negb (invalid =? id).

End doc_limits.

(** ** The abstract cursor *)

(** A set of documents: identifiers between [min] and [eof]. *)
Definition doc_set (P : Z -> bool) : Prop :=
  forall d, P d = true -> doc_limits.min <= d < doc_limits.eof.

(** [v] is the first document of [P] that is at least [t], or [eof] when there is none. *)
Definition first_from (P : Z -> bool) (t v : Z) : Prop :=
  (v = doc_limits.eof \/ (t <= v /\ P v = true)) /\ forall d, t <= d < v -> P d = false.

(** Where a cursor over [P] may stand: before the first document, on a document, at the end. *)
Definition position (P : Z -> bool) (v : Z) : Prop :=
  v = doc_limits.invalid \/ v = doc_limits.eof \/ P v = true.

(** The calls a client makes. *)
Inductive call :=
  | Next
  | Seek (target : Z).

(** A call that takes a cursor from [v] to [v']. A target must be a document identifier or [eof],
    and must not lie behind the cursor. *)
Inductive cursor_step (P : Z -> bool) : Z -> call -> Z -> Prop :=
  | step_next v v' : first_from P (v + 1) v' -> cursor_step P v Next v'
  | step_seek v t v' :
      doc_limits.min <= t <= doc_limits.eof -> v <= t -> first_from P t v' ->
      cursor_step P v (Seek t) v'.

(** The values a cursor that stands at [v] returns for a sequence of calls. *)
Inductive cursor_trace (P : Z -> bool) : Z -> list call -> list Z -> Prop :=
  | trace_nil v : cursor_trace P v [] []
  | trace_cons v c v' cs vs :
      cursor_step P v c v' -> cursor_trace P v' cs vs -> cursor_trace P v (c :: cs) (v' :: vs).

(** ** The interface: index/iterators.hpp *)

Class DocIterator (S : Type) := {
  value : S -> Z;
  next : S -> option (bool * S);
  seek : Z -> S -> option (Z * S);
}.

(** The laws: [matches s P] says that [s] iterates over the documents of [P] and is well formed.
    A call always returns; it moves the iterator as the cursor over [P] moves. *)
Class DocIteratorSpec (S : Type) {D : DocIterator S} := {
  matches : S -> (Z -> bool) -> Prop;
  matches_docs s P : matches s P -> doc_set P;
  matches_position s P : matches s P -> position P (value s);
  matches_ext s P Q : matches s P -> (forall d, P d = Q d) -> matches s Q;
  next_spec s P : matches s P -> exists s',
    next s = Some (negb (doc_limits.is_eof (value s')), s') /\ matches s' P /\
    first_from P (value s + 1) (value s');
  seek_spec s P t : matches s P -> doc_limits.min <= t <= doc_limits.eof -> value s <= t -> exists s',
    seek t s = Some (value s', s') /\ matches s' P /\ first_from P t (value s');
}.

(** The values an implementation returns for a sequence of calls: after [next], what [value] says;
    for [seek], what it returns. *)
Fixpoint run {S} {D : DocIterator S} (cs : list call) (s : S) : option (list Z * S) :=
  match cs with
  | [] => Some ([], s)
  | Next :: cs =>
      '(b, s) ← next s;
      if Bool.eqb b (doc_limits.is_eof (value s)) then None else
      '(vs, s') ← run cs s;
      Some (value s :: vs, s')
  | Seek t :: cs =>
      '(v, s) ← seek t s;
      if negb (v =? value s) then None else
      '(vs, s') ← run cs s;
      Some (v :: vs, s')
  end.

(** A run on a concrete iterator, by evaluation, with what [f] sees of the iterator it leaves. *)
Lemma run_values {S A} {D : DocIterator S} (f : S -> A) cs s vs a :
  (fun r => (r.1, f r.2)) <$> run cs s = Some (vs, a) -> exists s', run cs s = Some (vs, s') /\ f s' = a.
Proof. destruct (run cs s) as [[vs' s']|]; [|done]. intros [= <- <-]. by exists s'. Qed.

(** ** [EmptyDocIterator] and [AllIterator] *)

Record EmptyDocIterator := mkEmpty { }.

#[export] Instance empty_iterator : DocIterator EmptyDocIterator := {
  value _ := doc_limits.eof;
  next s := Some (false, s);
  seek _ s := Some (doc_limits.eof, s);
}.

Record AllIterator := mkAll {
  max_doc_ : Z;
  all_doc : Z; (* document::value of attrs_ *)
}.

Definition AllIterator_init (docs_count : Z) : AllIterator :=
  {| max_doc_ := wrap 32 (wrap 64 (doc_limits.min + docs_count - 1)); all_doc := doc_limits.invalid |}.

Definition AllIterator_next (s : AllIterator) : bool * AllIterator :=
  if max_doc_ s <=? all_doc s
  then (false, {| max_doc_ := max_doc_ s; all_doc := doc_limits.eof |})
  else (true, {| max_doc_ := max_doc_ s; all_doc := all_doc s +[32] 1 |}).

Definition AllIterator_seek (target : Z) (s : AllIterator) : Z * AllIterator :=
  let v := if target <=? max_doc_ s then target else doc_limits.eof in
  (v, {| max_doc_ := max_doc_ s; all_doc := v |}).

#[export] Instance all_iterator : DocIterator AllIterator := {
  value := all_doc;
  next s := Some (AllIterator_next s);
  seek t s := Some (AllIterator_seek t s);
}.

(** ** Facts on cursors *)

Lemma eof_val : doc_limits.eof = 4294967295.
Proof. reflexivity. Qed.

Lemma is_eof_spec v : doc_limits.is_eof v = true <-> v = doc_limits.eof.
Proof. unfold doc_limits.is_eof. rewrite Z.eqb_eq. done. Qed.

(** Turns the limits into numbers. *)
Ltac doc_lia := unfold doc_limits.is_eof, doc_limits.valid, doc_limits.min, doc_limits.invalid in *;
  rewrite ?eof_val in *; lia.

Section cursors.
Context (P : Z -> bool) (HP : doc_set P).

Lemma first_from_eof t v : first_from P t v -> doc_limits.eof <= t -> v = doc_limits.eof.
Proof using HP. intros [[?|[? Hv]] _] ?; [done|]. apply HP in Hv. lia. Qed.

Lemma first_from_le t v : first_from P t v -> v <= doc_limits.eof.
Proof using HP. intros [[?|[? Hv]] _]; [lia|]. apply HP in Hv. lia. Qed.

Lemma first_from_ge t v : first_from P t v -> t <= doc_limits.eof -> t <= v.
Proof using Type. intros [[?|[? Hv]] _] ?; lia. Qed.

Lemma first_from_position t v : first_from P t v -> position P v.
Proof using Type. intros [[?|[? Hv]] _]; unfold position; auto. Qed.

Lemma first_from_unique t v v' : first_from P t v -> first_from P t v' -> v = v'.
Proof using HP.
  intros H1 H2. pose proof (first_from_le _ _ H1). pose proof (first_from_le _ _ H2).
  destruct H1 as [H1 G1], H2 as [H2 G2].
  destruct (Z.lt_trichotomy v v') as [Hlt|[?|Hlt]]; [|done|].
  - destruct H1 as [->|[? H1]]; [lia|]. rewrite G2 in H1 by lia. done.
  - destruct H2 as [->|[? H2]]; [lia|]. rewrite G1 in H2 by lia. done.
Qed.

Lemma position_range v : position P v -> doc_limits.invalid <= v <= doc_limits.eof.
Proof using HP. intros [->|[->|Hv]]; [doc_lia|doc_lia|]. apply HP in Hv. doc_lia. Qed.

(** A cursor that was moved has left its start. *)
Lemma trace_last v cs vs x : cursor_trace P v cs vs -> doc_limits.invalid <= v -> last vs = Some x -> doc_limits.min <= x.
Proof using HP.
  intros HT. revert x. induction HT as [|v c v' cs vs Hc HT IH]; intros x Hv Hx; [done|].
  assert (doc_limits.min <= v') as Hv'.
  { inversion Hc as [? ? HF|? ? ? ? ? HF]; subst; destruct HF as [[->|[? _]] _]; doc_lia. }
  rewrite last_cons in Hx. destruct (last vs) as [y|]; [|by injection Hx as <-]. apply IH; [doc_lia|done].
Qed.

(** The cursor is total: there always is a first document. *)
Lemma first_from_exists t : exists v, first_from P t v.
Proof using HP.
  assert (forall n t, Z.to_nat (doc_limits.eof - t) = n -> exists v, first_from P t v) as H.
  { induction n as [|n IH]; intros u Hu.
    - exists doc_limits.eof. split; [by left|]. intros d Hd. lia.
    - destruct (P u) eqn:E.
      + exists u. split; [by right|]. intros d Hd. lia.
      + destruct (IH (u + 1)) as [v [Hv Hg]]; [lia|]. exists v. split.
        * destruct Hv as [|[? ?]]; [by left|right; split; [lia|done]].
        * intros d Hd. destruct (decide (d = u)) as [->|]; [done|]. apply Hg. lia. }
  by eapply H.
Qed.

Lemma first_from_shift t u v : first_from P u v -> (forall d, t <= d < u -> P d = false) -> t <= u -> first_from P t v.
Proof using Type.
  intros [Hv Hg] Hgap Hle. split.
  - destruct Hv as [|[? ?]]; [by left|right; split; [lia|done]].
  - intros d Hd. destruct (Z.lt_ge_cases d u); [apply Hgap; lia|apply Hg; lia].
Qed.

Lemma first_from_hit t : P t = true -> first_from P t t.
Proof using Type. intros ?. split; [right; split; [lia|done]|]. intros d Hd. lia. Qed.

End cursors.

Lemma first_from_ext P Q t v : (forall d, P d = Q d) -> first_from P t v -> first_from Q t v.
Proof. intros E [Hv Hg]. split; [by rewrite <-E|]. intros d Hd. rewrite <-E. auto. Qed.

Lemma doc_set_ext P Q : (forall d, P d = Q d) -> doc_set P -> doc_set Q.
Proof. intros E HP d Hd. apply HP. by rewrite E. Qed.

Lemma position_ext P Q v : (forall d, P d = Q d) -> position P v -> position Q v.
Proof. intros E. unfold position. by rewrite E. Qed.

(** A checker of traces, for a set without documents from [n] on. *)
Definition check_first (n : Z) (P : Z -> bool) (t v : Z) : bool :=
  (if doc_limits.is_eof v then true else (t <=? v) && P v) &&
  forallb (fun d => negb (P d)) (seqZ t (Z.min v n - t)).

Fixpoint check_trace (n : Z) (P : Z -> bool) (v : Z) (cs : list call) (vs : list Z) : bool :=
  match cs, vs with
  | [], [] => true
  | Next :: cs, v' :: vs => check_first n P (v + 1) v' && check_trace n P v' cs vs
  | Seek t :: cs, v' :: vs =>
      (doc_limits.min <=? t) && (t <=? doc_limits.eof) && (v <=? t) && check_first n P t v' &&
      check_trace n P v' cs vs
  | _, _ => false
  end.

Lemma check_first_sound n P t v : (forall d, n <= d -> P d = false) -> check_first n P t v = true -> first_from P t v.
Proof.
  intros Hn [Hv Hg]%andb_true_iff. split.
  - destruct (doc_limits.is_eof v) eqn:E; [left; by apply is_eof_spec|right].
    apply andb_true_iff in Hv as [? ?]. split; [lia|done].
  - intros d Hd. destruct (Z.lt_ge_cases d n); [|by apply Hn]. rewrite forallb_forall in Hg.
    specialize (Hg d). rewrite negb_true_iff in Hg. apply Hg, list_elem_of_In, elem_of_seqZ. lia.
Qed.

Lemma check_trace_sound n P cs : (forall d, n <= d -> P d = false) ->
  forall v vs, check_trace n P v cs vs = true -> cursor_trace P v cs vs.
Proof.
  intros Hn. induction cs as [|[|t] cs IH]; intros v [|v' vs] Hc; try done; [constructor| |]; cbn in Hc.
  - apply andb_true_iff in Hc as [Hf Hc]. econstructor; [|by apply IH].
    constructor. by eapply check_first_sound.
  - rewrite !andb_true_iff in Hc. destruct Hc as [[[[H1 H2] H3] Hf] Hc]. econstructor; [|by apply IH].
    constructor; [lia|lia|by eapply check_first_sound].
Qed.

(** ** What the laws give a client *)

Section client.
Context {S : Type} {D : DocIterator S} {L : DocIteratorSpec S}.

Lemma matches_range s P : matches s P -> doc_limits.invalid <= value s <= doc_limits.eof.
Proof. intros H. eapply position_range; [by eapply matches_docs|by apply matches_position]. Qed.

(** Any lawful iterator refines the abstract cursor. *)
Lemma run_refines P cs : forall s vs, matches s P -> cursor_trace P (value s) cs vs ->
  exists s', run cs s = Some (vs, s') /\ matches s' P.
Proof.
  induction cs as [|c cs IH]; intros s vs HM HT; inversion HT; subst; clear HT.
  { exists s. done. }
  pose proof (matches_docs s P HM) as HP.
  match goal with H : cursor_step _ _ _ _ |- _ => inversion H; subst; clear H end.
  - destruct (next_spec s P HM) as (s1 & G1 & HM1 & HF1).
    assert (v' = value s1) as -> by (eapply first_from_unique; eauto).
    destruct (IH s1 _ HM1 ltac:(eassumption)) as (s' & Hrun & HM').
    exists s'. split; [|done]. cbn [run]. rewrite G1. cbn [mbind option_bind].
    destruct (doc_limits.is_eof (value s1)); cbn [negb Bool.eqb]; by rewrite Hrun.
  - destruct (seek_spec s P t HM ltac:(lia) ltac:(lia)) as (s1 & G1 & HM1 & HF1).
    assert (v' = value s1) as -> by (eapply first_from_unique; eauto).
    destruct (IH s1 _ HM1 ltac:(eassumption)) as (s' & Hrun & HM').
    exists s'. split; [|done]. cbn [run]. rewrite G1. cbn [mbind option_bind].
    by rewrite Z.eqb_refl, Hrun.
Qed.

(** The iterator stands where its last call took it. *)
Lemma run_last cs : forall s vs s', run cs s = Some (vs, s') -> value s' = default (value s) (last vs).
Proof.
  induction cs as [|[|t] cs IH]; intros s vs s' H; cbn [run] in H.
  - by injection H as <- <-.
  - bind_inv H. destruct p as [b s1]. destruct (Bool.eqb _ _); [done|]. bind_inv H. destruct p as [vs1 s2].
    injection H as <- <-. rewrite (IH _ _ _ E0), last_cons. by destruct (last vs1).
  - bind_inv H. destruct p as [v s1]. destruct (Z.eqb_spec v (value s1)) as [->|]; [|done]. cbn [negb] in H.
    bind_inv H. destruct p as [vs1 s2]. injection H as <- <-. rewrite (IH _ _ _ E0), last_cons. by destruct (last vs1).
Qed.

(** An iterator of a compound one may lag behind the current document [doc] of the compound, or
    stand on it or beyond it with no document skipped in between. *)
Definition ready (doc : Z) (s : S) (P : Z -> bool) : Prop :=
  matches s P /\ forall d, doc <= d < value s -> P d = false.

Lemma ready_matches doc s P : ready doc s P -> matches s P.
Proof. by intros [? _]. Qed.

Lemma ready_range doc s P : ready doc s P -> doc_limits.invalid <= value s <= doc_limits.eof.
Proof. intros [? _]. by eapply matches_range. Qed.

Lemma ready_initial s P : matches s P -> value s = doc_limits.invalid -> ready doc_limits.invalid s P.
Proof. intros ? E. split; [done|]. intros d Hd. lia. Qed.

Lemma first_from_ready doc t s P : matches s P -> first_from P t (value s) -> t <= doc -> ready doc s P.
Proof. intros HM [_ Hg] Ht. split; [done|]. intros d Hd. apply Hg. lia. Qed.

Lemma ready_eof s P : matches s P -> ready doc_limits.eof s P.
Proof. intros HM. split; [done|]. pose proof (matches_range _ _ HM). intros d Hd. lia. Qed.

(** A position at or beyond a target is the first one from it. *)
Lemma ready_first_from doc t s P :
  ready doc s P -> doc <= t <= value s -> doc_limits.min <= t -> first_from P t (value s).
Proof.
  intros [HM Hg] Ht H0. split; [|intros d Hd; apply Hg; lia].
  destruct (matches_position s P HM) as [E|[E|E]]; [doc_lia|by left|right; split; [lia|done]].
Qed.

Lemma ready_mono doc doc' s P : ready doc s P -> doc <= doc' -> ready doc' s P.
Proof. intros [HM Hg] Hle. split; [done|]. intros d Hd. apply Hg. lia. Qed.

Lemma next_past doc s P : ready doc s P -> value s = doc -> exists s',
  next s = Some (negb (doc_limits.is_eof (value s')), s') /\ matches s' P /\
  first_from P (doc + 1) (value s').
Proof. intros [HM _] <-. by apply next_spec. Qed.

Lemma seek_past doc s P : ready doc s P -> value s < doc -> doc < doc_limits.eof -> exists s',
  seek (doc + 1) s = Some (value s', s') /\ matches s' P /\ first_from P (doc + 1) (value s').
Proof.
  intros [HM _] Hlt Hd. pose proof (matches_range s P HM).
  apply seek_spec; [done|doc_lia|lia].
Qed.

Lemma seek_to doc t s P : ready doc s P -> value s < t -> doc_limits.invalid <= doc -> t <= doc_limits.eof ->
  exists s', seek t s = Some (value s', s') /\ matches s' P /\ first_from P t (value s').
Proof.
  intros [HM _] Hlt H0 Hd. pose proof (matches_range s P HM). apply seek_spec; [done|doc_lia|lia].
Qed.

End client.

(** An iterator that may be sought once more to where it stands: no document lies between the target
    and its place. [DocIteratorSpec] says nothing of targets behind the cursor. *)
Class SeekReady (S : Type) {D : DocIterator S} {L : DocIteratorSpec S} :=
  seek_ready (s : S) P t : ready t s P -> doc_limits.min <= t <= doc_limits.eof -> exists s',
    seek t s = Some (value s', s') /\ matches s' P /\ first_from P t (value s').

(** A trace of a client that stops at the end: only its last value may be [eof]. *)
Definition stops_at_eof (vs : list Z) : Prop := Forall (fun v => v <> doc_limits.eof) (removelast vs).

Lemma stops_at_eof_cons v vs : stops_at_eof (v :: vs) -> vs = [] \/ v <> doc_limits.eof /\ stops_at_eof vs.
Proof. destruct vs as [|w vs]; [by left|]. intros [? ?]%Forall_cons. by right. Qed.

(** ** The basic iterators are lawful *)

#[local] Obligation Tactic := idtac.

#[export, program] Instance empty_iterator_spec : DocIteratorSpec EmptyDocIterator := {
  matches _ P := forall d, P d = false;
}.
Next Obligation. intros s P H d. by rewrite H. Qed.
Next Obligation. intros s P H. right. by left. Qed.
Next Obligation. intros s P Q H E d. by rewrite <-E. Qed.
Next Obligation. intros s P H. exists s. repeat split; [done|by left|auto]. Qed.
Next Obligation. intros s P t H Ht Hle. exists s. repeat split; [done|by left|auto]. Qed.

(** [AllIterator] iterates over the documents [1 .. max_doc_]. *)
#[export, program] Instance all_iterator_spec : DocIteratorSpec AllIterator := {
  matches s P := 0 <= max_doc_ s < doc_limits.eof /\
    (0 <= all_doc s <= max_doc_ s \/ all_doc s = doc_limits.eof) /\
    forall d, P d = (doc_limits.min <=? d) && (d <=? max_doc_ s);
}.
Next Obligation. intros s P (H1 & H2 & H) d. rewrite H. doc_lia. Qed.
Next Obligation.
  intros s P (H1 & H2 & H). cbn [value all_iterator]. unfold position. rewrite H.
  destruct H2; [|auto]. destruct (decide (all_doc s = 0)); [by left|]. right; right. doc_lia.
Qed.
Next Obligation. intros s P Q (H1 & H2 & H) E. repeat split; try done; try lia. intros d. by rewrite <-E. Qed.
Next Obligation.
  intros s P (H1 & H2 & H). cbn. unfold AllIterator_next.
  destruct (Z.leb_spec (max_doc_ s) (all_doc s)).
  - exists {| max_doc_ := max_doc_ s; all_doc := doc_limits.eof |}.
    split; [done|]. split; [split; [done|]; split; [by right|done]|]. cbn [all_doc].
    split; [by left|]. intros d Hd. rewrite H. doc_lia.
  - assert (wrap 32 (all_doc s + 1) = all_doc s + 1) as E by (apply wrap_small; unfold is_word; doc_lia).
    exists {| max_doc_ := max_doc_ s; all_doc := all_doc s + 1 |}. cbn [all_doc max_doc_].
    split; [rewrite E; do 2 f_equal; doc_lia|]. split; [split; [done|]; split; [left; cbn; lia|done]|].
    split; [right; split; [lia|]; rewrite H; doc_lia|]. intros d Hd. lia.
Qed.
Next Obligation.
  intros s P t (H1 & H2 & H) Ht Hle. cbn [seek value all_iterator AllIterator_seek all_doc] in *.
  exists {| max_doc_ := max_doc_ s; all_doc := if t <=? max_doc_ s then t else doc_limits.eof |}.
  split; [done|]. cbn [all_doc].
  destruct (Z.leb_spec t (max_doc_ s)).
  - split; [split; [done|]; split; [left; cbn; doc_lia|done]|].
    split; [right; split; [lia|]; rewrite H; doc_lia|]. intros d Hd. lia.
  - split; [split; [done|]; split; [by right|done]|].
    split; [by left|]. intros d Hd. rewrite H. doc_lia.
Qed.

#[export] Instance all_iterator_ready : SeekReady AllIterator.
Proof.
  intros s P t [(H1 & H2 & H) _] Ht.
  destruct (seek_spec {| max_doc_ := max_doc_ s; all_doc := doc_limits.invalid |} P t) as (s' & Hs & HM & HF).
  - cbn. split; [done|]. split; [left; doc_lia|done].
  - done.
  - cbn. doc_lia.
  - exists s'. done.
Qed.

#[export] Instance empty_iterator_ready : SeekReady EmptyDocIterator.
Proof. intros s P t [H _] Ht. exists s. repeat split; [done|by left|auto]. Qed.

Lemma AllIterator_init_matches docs_count : 0 <= docs_count < doc_limits.eof ->
  matches (AllIterator_init docs_count) (fun d => (doc_limits.min <=? d) && (d <=? docs_count)).
Proof.
  intros Hc. unfold AllIterator_init. cbn.
  replace (doc_limits.min + docs_count - 1) with docs_count by doc_lia.
  rewrite !wrap_small by (rewrite ?wrap_small; unfold is_word; doc_lia).
  repeat split; [lia|lia|doc_lia].
Qed.
