(* ===== verification/Bitset.v ===== *)
(** * Bit sets and the iterator over their documents

    [dynamic_bitset] (core/utils/bitset.hpp), whose memory comes from an allocator that does not
    clear it, and [bitset_doc_iterator] (core/search/bitset_doc_iterator.cpp) with the lazily filled
    variant of core/search/multiterm_query.cpp. A word is a 64-bit [size_t]. *)
From S2P Require Import Prelude BitUtils DocIterators.

#[local] Obligation Tactic := idtac.

(** [std::countr_zero] of a non-zero word *)
Fixpoint pos_ctz (p : positive) : Z :=
  match p with
  | xO p => 1 + pos_ctz p
  | _ => 0
  end.
Definition countr_zero (w x : Z) : Z := match x with Zpos p => pos_ctz p | _ => w end.

(** Word [k] of an array. *)
Definition word_at (words : list Z) (k : Z) : Z := default 0 (words !! Z.to_nat k).

(** Bit [i] of an array of words. *)
Definition word_bit (words : list Z) (i : Z) : bool :=
  (0 <=? i) && Z.testbit (word_at words (i / 64)) (i mod 64).

(** ** [dynamic_bitset]: utils/bitset.hpp *)

Module bitset.

Definition bits_to_words (bits : Z) : Z := wrap 64 (bits + 64 - 1) / 64.
Definition bit (i : Z) : Z := i mod 64.
Definition word (i : Z) : Z := i / 64.
Definition bit_offset (i : Z) : Z := wrap 64 (i * 64).

Record dynamic_bitset := mk {
  data_ : list Z; (* the allocated words: data_.get_deleter().size() many *)
  words_ : Z;
  bits_ : Z;
}.

Definition empty : dynamic_bitset := {| data_ := []; words_ := 0; bits_ := 0 |}.

Definition capacity_words (b : dynamic_bitset) : Z := Z.of_nat (length (data_ b)).
Definition capacity (b : dynamic_bitset) : Z := wrap 64 (64 * capacity_words b).
Definition size (b : dynamic_bitset) : Z := bits_ b.

(** [std::memset(data_.get() + offset_words, 0, ...)] on the words in use *)
Definition clear_offset (offset_words : Z) (b : dynamic_bitset) : dynamic_bitset :=
  if offset_words <? words_ b then
    {| data_ := take (Z.to_nat offset_words) (data_ b) ++
                replicate (Z.to_nat (words_ b - offset_words)) 0 ++ drop (Z.to_nat (words_ b)) (data_ b);
       words_ := words_ b; bits_ := bits_ b |}
  else b.

Definition clear (b : dynamic_bitset) : dynamic_bitset := clear_offset 0 b.

Definition update_word (k : Z) (f : Z -> Z) (b : dynamic_bitset) : dynamic_bitset :=
  {| data_ := <[Z.to_nat k := f (word_at (data_ b) k)]> (data_ b); words_ := words_ b; bits_ := bits_ b |}.

Definition sanitize (b : dynamic_bitset) : dynamic_bitset :=
  let last_word_bits := bit (bits_ b) in
  if last_word_bits =? 0 then b
  else
    let mask := ~[64] (Z.lnot 0 <<[64] last_word_bits) in
    update_word (words_ b - 1) (fun w => Z.land w mask) b.

Definition set (i : Z) (b : dynamic_bitset) : dynamic_bitset :=
  update_word (word i) (fun w => Bit.set_bit 64 w (bit i)) b.
Definition unset (i : Z) (b : dynamic_bitset) : dynamic_bitset :=
  update_word (word i) (fun w => Bit.unset_bit 64 w (bit i)) b.
(** [reset(i, set)] *)
Definition reset_bit (i : Z) (v : bool) (b : dynamic_bitset) : dynamic_bitset :=
  update_word (word i) (fun w => Bit.set_bit_to 64 w (bit i) v) b.
Definition test (i : Z) (b : dynamic_bitset) : bool :=
  Bit.check_bit 64 (word_at (data_ b) (word i)) (bit i).
Definition try_set (i : Z) (b : dynamic_bitset) : bool * dynamic_bitset :=
  let mask := 1 <<[64] bit i in
  if negb (Z.land (word_at (data_ b) (word i)) mask =? 0) then (false, b)
  else (true, update_word (word i) (fun w => Z.lor w mask) b).

(** [begin() .. end()] *)
Definition in_use (b : dynamic_bitset) : list Z := take (Z.to_nat (words_ b)) (data_ b).

Definition any (b : dynamic_bitset) : bool := existsb (fun w => negb (w =? 0)) (in_use b).
Definition none (b : dynamic_bitset) : bool := negb (any b).
Definition count (b : dynamic_bitset) : Z := Math.popcount (in_use b).
Definition all (b : dynamic_bitset) : bool :=
  if words_ b =? 0 then true
  else
    forallb (fun w => w =? 2 ^ 64 - 1) (take (Z.to_nat (words_ b - 1)) (data_ b)) &&
    (Math.popcount_word (word_at (data_ b) (words_ b - 1)) =? bits_ b - (words_ b - 1) * 64).

(** [operator==]: [memcmp] of the words in use *)
Definition eqb (l r : dynamic_bitset) : bool :=
  (bits_ l =? bits_ r) &&
  forallb (fun '(x, y) => x =? y) (zip (in_use l) (take (Z.to_nat (words_ l)) (data_ r))).

Section allocation.
(** [memory::allocate_unique(..., allocate_only)]: words with arbitrary contents. *)
Context (allocate : Z -> list Z).

Definition reserve_words (words : Z) (b : dynamic_bitset) : dynamic_bitset :=
  if capacity_words b <? words then
    {| data_ := take (Z.to_nat (words_ b)) (data_ b) ++ drop (Z.to_nat (words_ b)) (allocate words);
       words_ := words_ b; bits_ := bits_ b |}
  else b.

Definition reserve (bits : Z) (b : dynamic_bitset) : dynamic_bitset :=
  reserve_words (bits_to_words bits) b.

(** [resize<Reserve>]; without [Reserve] the capacity must suffice (an assertion). *)
Definition resize (Reserve : bool) (bits : Z) (b : dynamic_bitset) : dynamic_bitset :=
  let new_words := bits_to_words bits in
  let b := if Reserve then reserve_words new_words b else b in
  let old_words := words_ b in
  let b := {| data_ := data_ b; words_ := new_words; bits_ := bits_ b |} in
  let b := clear_offset old_words b in
  sanitize {| data_ := data_ b; words_ := words_ b; bits_ := bits |}.

Definition reset (bits : Z) (b : dynamic_bitset) : dynamic_bitset :=
  let new_words := bits_to_words bits in
  let data := if capacity_words b <? new_words then allocate new_words else data_ b in
  clear {| data_ := data; words_ := new_words; bits_ := bits |}.

(** [dynamic_bitset(bits)] *)
Definition make (bits : Z) : dynamic_bitset := reset bits empty.

End allocation.

End bitset.

(** ** [bitset_doc_iterator]: search/bitset_doc_iterator.cpp *)

(** The virtual [refill] of a class derived from [bitset_doc_iterator], whose own state is [R]: the
    new bounds when it returns true. *)
Class Refill (R : Type) := refill : R -> option (list Z) * R.

(** [bitset_doc_iterator::refill] *)
#[export] Instance no_refill : Refill unit := fun r => (None, r).

(** [lazy_bitset_iterator]: [field_->bit_union(provider, set)] sets the bits of the documents of
    the terms and returns their number; [field_] is reset after the first call. *)
Record lazy_bitset := mkLazy {
  lazy_docs_count : Z;
  lazy_field_ : option (list Z -> Z * list Z);
}.

#[export] Instance lazy_refill : Refill lazy_bitset := fun r =>
  match lazy_field_ r with
  | None => (None, r)
  | Some bit_union =>
      let bits := wrap 64 (lazy_docs_count r + doc_limits.min) in
      let words := bitset.bits_to_words bits in
      let '(count, set) := bit_union (replicate (Z.to_nat words) 0) in
      let r := mkLazy (lazy_docs_count r) None in
      if negb (count =? 0) then (Some set, r) else (None, r)
  end.

Section iterator.
Context {R : Type} {HR : Refill R}.

Record bitset_doc_iterator := mkBitsetIt {
  it_doc : Z;          (* doc_.value *)
  it_words : list Z;   (* begin_ .. end_ *)
  it_next : Z;         (* next_ - begin_ *)
  it_word : Z;         (* word_ *)
  it_base : Z;         (* base_ *)
  it_derived : R;
}.

Definition bitset_it_reset (doc : Z) (words : list Z) (r : R) : bitset_doc_iterator :=
  {| it_doc := doc; it_words := words; it_next := 0; it_word := 0;
     it_base := doc_limits.invalid -[32] 64; it_derived := r |}.

(** The constructor on the words of a set; the protected one starts without words. *)
Definition bitset_it_make (words : list Z) (r : R) : bitset_doc_iterator :=
  bitset_it_reset (if Math.popcount words =? 0 then doc_limits.eof else doc_limits.invalid) words r.
Definition bitset_it_empty (r : R) : bitset_doc_iterator := bitset_it_reset doc_limits.invalid [] r.

(** [doc_.value = eof; word_ = 0] *)
Definition bitset_it_end (s : bitset_doc_iterator) (r : R) : bitset_doc_iterator :=
  {| it_doc := doc_limits.eof; it_words := it_words s; it_next := it_next s; it_word := 0;
     it_base := it_base s; it_derived := r |}.

(** One round of [while (!word_)]. *)
Definition bitset_it_round (s : bitset_doc_iterator)
    : option (bitset_doc_iterator + (bool * bitset_doc_iterator)) :=
  if negb (it_word s =? 0) then Some (inr (true, s))
  else if Z.of_nat (length (it_words s)) <=? it_next s then
    match refill (it_derived s) with
    | (Some words, r) => Some (inl (bitset_it_reset (it_doc s) words r))
    | (None, r) => Some (inr (false, bitset_it_end s r))
    end
  else
    let base := it_base s +[32] 64 in
    Some (inl {| it_doc := base -[32] 1; it_words := it_words s; it_next := it_next s + 1;
                 it_word := word_at (it_words s) (it_next s); it_base := base;
                 it_derived := it_derived s |}).

Definition bitset_it_next (s : bitset_doc_iterator) : option (bool * bitset_doc_iterator) :=
  '(found, s) ← iterate 64 bitset_it_round s;
  if negb found then Some (false, s)
  else
    let delta := countr_zero 64 (it_word s) in
    Some (true, {| it_doc := it_doc s +[32] (1 + delta); it_words := it_words s; it_next := it_next s;
                   it_word := Z.shiftr (Z.shiftr (it_word s) delta) 1; it_base := it_base s;
                   it_derived := it_derived s |}).

(** One round of [while (1)]. *)
Definition bitset_it_locate (word_idx : Z) (s : bitset_doc_iterator)
    : option (bitset_doc_iterator + (bool * bitset_doc_iterator)) :=
  let s := {| it_doc := it_doc s; it_words := it_words s; it_next := word_idx; it_word := it_word s;
              it_base := it_base s; it_derived := it_derived s |} in
  if Z.of_nat (length (it_words s)) <=? word_idx then
    match refill (it_derived s) with
    | (Some words, r) => Some (inl (bitset_it_reset (it_doc s) words r))
    | (None, r) => Some (inr (false, bitset_it_end s r))
    end
  else Some (inr (true, s)).

Definition bitset_it_seek (target : Z) (s : bitset_doc_iterator) : option (Z * bitset_doc_iterator) :=
  let word_idx := target / 64 in
  '(found, s) ← iterate 64 (bitset_it_locate word_idx) s;
  if negb found then Some (it_doc s, s)
  else
    let bit_idx := target mod 64 in
    let base := wrap 32 (word_idx * 64) in
    '(_, s) ← bitset_it_next
      {| it_doc := base - 1 +[32] bit_idx; it_words := it_words s; it_next := it_next s + 1;
         it_word := Z.shiftr (word_at (it_words s) (it_next s)) bit_idx; it_base := base;
         it_derived := it_derived s |};
    Some (it_doc s, s).

#[export] Instance bitset_iterator : DocIterator bitset_doc_iterator := {
  value := it_doc;
  next := bitset_it_next;
  seek := bitset_it_seek;
}.

End iterator.

Arguments bitset_doc_iterator : clear implicits.

(** ** Words and bits *)

Lemma pos_ctz_spec p : 0 <= pos_ctz p /\ Z.testbit (Zpos p) (pos_ctz p) = true /\
  forall i, 0 <= i < pos_ctz p -> Z.testbit (Zpos p) i = false.
Proof.
  induction p as [p IH|p IH|]; cbn [pos_ctz]; [split; [lia|split; [done|lia]]| |split; [lia|split; [done|lia]]].
  destruct IH as (H0 & H1 & H2). rewrite Pos2Z.inj_xO. split; [lia|]. split.
  - replace (1 + pos_ctz p) with (Z.succ (pos_ctz p)) by lia. by rewrite Z.double_bits_succ.
  - intros i Hi. destruct (decide (i = 0)) as [->|]; [by rewrite Z.testbit_even_0|].
    replace i with (Z.succ (i - 1)) by lia. rewrite Z.double_bits_succ. apply H2. lia.
Qed.

(** The lowest bit of a word. *)
Lemma countr_zero_spec w x : is_word w x -> x <> 0 -> 0 <= w ->
  0 <= countr_zero w x < w /\ Z.testbit x (countr_zero w x) = true /\
  forall i, 0 <= i < countr_zero w x -> Z.testbit x i = false.
Proof.
  intros Hx Hne Hw. destruct x as [|p|p]; [done| |destruct Hx; lia].
  destruct (pos_ctz_spec p) as (H0 & H1 & H2). cbn [countr_zero]. split; [split; [done|]|done].
  destruct (Z.lt_ge_cases (pos_ctz p) w); [done|]. by rewrite (testbit_high w) in H1 by done.
Qed.

Lemma word_eq_0 w x : is_word w x -> 0 <= w -> (forall i, 0 <= i < w -> Z.testbit x i = false) -> x = 0.
Proof.
  intros Hx Hw H. apply Z.bits_inj'. intros i Hi. rewrite Z.bits_0.
  destruct (Z.lt_ge_cases i w); [by apply H|by apply (testbit_high w)].
Qed.

Definition words_ok (words : list Z) : Prop := Forall (is_word 64) words.

Lemma words_ok_at words k : words_ok words -> is_word 64 (word_at words k).
Proof.
  intros H. unfold word_at. destruct (words !! Z.to_nat k) as [x|] eqn:E; cbn.
  - by eapply Forall_lookup_1.
  - unfold is_word. lia.
Qed.

Lemma word_at_high words k : Z.of_nat (length words) <= k -> word_at words k = 0.
Proof. intros. unfold word_at. by rewrite lookup_ge_None_2 by lia. Qed.

Lemma word_at_insert words k x i : 0 <= k < Z.of_nat (length words) -> 0 <= i ->
  word_at (<[Z.to_nat k := x]> words) i = if i =? k then x else word_at words i.
Proof.
  intros Hk Hi. unfold word_at. destruct (Z.eqb_spec i k) as [->|Hne].
  - by rewrite list_lookup_insert_eq by lia.
  - by rewrite list_lookup_insert_ne by lia.
Qed.

Lemma word_bit_neg words i : i < 0 -> word_bit words i = false.
Proof. intros. unfold word_bit. by destruct (Z.leb_spec 0 i); [lia|]. Qed.

Lemma word_bit_nonneg words i : 0 <= i -> word_bit words i = Z.testbit (word_at words (i / 64)) (i mod 64).
Proof. intros. unfold word_bit. by destruct (Z.leb_spec 0 i); [|lia]. Qed.

Lemma word_bit_high words i : 64 * Z.of_nat (length words) <= i -> word_bit words i = false.
Proof.
  intros H. rewrite word_bit_nonneg by lia. rewrite word_at_high; [apply Z.bits_0|].
  apply Z.div_le_lower_bound; lia.
Qed.

Lemma word_bit_word words k j : 0 <= k -> 0 <= j < 64 ->
  word_bit words (64 * k + j) = Z.testbit (word_at words k) j.
Proof.
  intros. rewrite word_bit_nonneg by lia. f_equal.
  - f_equal. symmetry. apply (Z.div_unique _ _ _ j); lia.
  - symmetry. apply (Z.mod_unique _ _ k); lia.
Qed.

Lemma word_bit_insert words k x i : 0 <= k < Z.of_nat (length words) -> 0 <= i ->
  word_bit (<[Z.to_nat k := x]> words) i =
  if i / 64 =? k then Z.testbit x (i mod 64) else word_bit words i.
Proof.
  intros Hk Hi. rewrite !word_bit_nonneg by lia. pose proof (Z.div_pos i 64 Hi ltac:(lia)).
  rewrite word_at_insert by lia. by destruct (i / 64 =? k).
Qed.

(** ** The sets of [dynamic_bitset] *)

(** The members of the set. *)
Definition bit_at (b : bitset.dynamic_bitset) (i : Z) : bool :=
  (i <? bitset.bits_ b) && word_bit (bitset.data_ b) i.

Record bitset_wf (b : bitset.dynamic_bitset) : Prop := {
  wf_bits : 0 <= bitset.bits_ b <= 2 ^ 64 - 64;
  wf_words : bitset.words_ b = (bitset.bits_ b + 63) / 64;
  wf_capacity : bitset.words_ b <= bitset.capacity_words b;
  wf_data : words_ok (bitset.data_ b);
  wf_tail : forall i, bitset.bits_ b <= i < 64 * bitset.words_ b -> word_bit (bitset.data_ b) i = false;
}.

Lemma bits_to_words_eq bits : 0 <= bits <= 2 ^ 64 - 64 -> bitset.bits_to_words bits = (bits + 63) / 64.
Proof. intros. unfold bitset.bits_to_words. rewrite wrap_small by (unfold is_word; lia). f_equal. lia. Qed.

Lemma bitset_wf_index b i : bitset_wf b -> 0 <= i < bitset.bits_ b ->
  0 <= i / 64 < bitset.words_ b /\ 0 <= i mod 64 < 64 /\ i / 64 < Z.of_nat (length (bitset.data_ b)).
Proof. intros [H1 H2 H3 _ _] Hi. unfold bitset.capacity_words in H3. rewrite H2 in *. word_lia. Qed.

(** Changing one bit of the set through a word. *)
Lemma update_word_wf b i f v : bitset_wf b -> 0 <= i < bitset.bits_ b ->
  (forall x, is_word 64 x -> is_word 64 (f x)) ->
  (forall x j, is_word 64 x -> 0 <= j < 64 ->
     Z.testbit (f x) j = if j =? i mod 64 then v (Z.testbit x j) else Z.testbit x j) ->
  let b' := bitset.update_word (i / 64) f b in
  bitset_wf b' /\ bitset.bits_ b' = bitset.bits_ b /\
  forall j, 0 <= j -> bit_at b' j = if j =? i then v (bit_at b i) else bit_at b j.
Proof.
  intros Hwf Hi Hf Ht b'. destruct (bitset_wf_index b i Hwf Hi) as (Hk & Hm & Hl).
  pose proof (words_ok_at _ (i / 64) (wf_data b Hwf)) as Hw.
  assert (forall j, 0 <= j -> word_bit (bitset.data_ b') j =
            if j =? i then v (word_bit (bitset.data_ b) i) else word_bit (bitset.data_ b) j) as Hbit.
  { intros j Hj. unfold b'. cbn [bitset.data_ bitset.update_word]. rewrite word_bit_insert by lia.
    destruct (Z.eqb_spec (j / 64) (i / 64)) as [E|E].
    - rewrite Ht by (done || word_lia). rewrite (word_bit_nonneg _ i), (word_bit_nonneg _ j) by lia.
      rewrite E. destruct (Z.eqb_spec (j mod 64) (i mod 64)) as [E'|E'].
      + rewrite E'. by destruct (Z.eqb_spec j i); [|word_lia].
      + by destruct (Z.eqb_spec j i); [congruence|].
    - by destruct (Z.eqb_spec j i); [congruence|]. }
  split; [|split; [done|]].
  - destruct Hwf as [H1 H2 H3 H4 H5]. constructor; try done.
    + unfold bitset.capacity_words, b' in *. cbn. by rewrite length_insert.
    + unfold b'. cbn. apply Forall_insert; [done|]. by apply Hf.
    + intros j Hj. change (bitset.bits_ b') with (bitset.bits_ b) in Hj.
      change (bitset.words_ b') with (bitset.words_ b) in Hj.
      rewrite Hbit by lia. destruct (Z.eqb_spec j i); [lia|]. by apply H5.
  - intros j Hj. unfold bit_at. change (bitset.bits_ b') with (bitset.bits_ b). rewrite Hbit by done.
    destruct (Z.eqb_spec j i) as [->|]; [|done].
    by replace (i <? bitset.bits_ b) with true by lia.
Qed.

Lemma bitset_set_spec b i : bitset_wf b -> 0 <= i < bitset.bits_ b ->
  bitset_wf (bitset.set i b) /\ bitset.bits_ (bitset.set i b) = bitset.bits_ b /\
  forall j, 0 <= j -> bit_at (bitset.set i b) j = (j =? i) || bit_at b j.
Proof.
  intros Hwf Hi. destruct (bitset_wf_index b i Hwf Hi) as (_ & Hm & _).
  destruct (update_word_wf b i (fun w => Bit.set_bit 64 w (i mod 64)) (fun _ => true)) as (H1 & H2 & H3);
    try done.
  - intros. by apply Bit.set_bit_word.
  - intros x j Hx Hj. rewrite Bit.set_bit_testbit by lia. by destruct (j =? i mod 64).
Qed.

Lemma bitset_unset_spec b i : bitset_wf b -> 0 <= i < bitset.bits_ b ->
  bitset_wf (bitset.unset i b) /\ bitset.bits_ (bitset.unset i b) = bitset.bits_ b /\
  forall j, 0 <= j -> bit_at (bitset.unset i b) j = negb (j =? i) && bit_at b j.
Proof.
  intros Hwf Hi. destruct (bitset_wf_index b i Hwf Hi) as (_ & Hm & _).
  destruct (update_word_wf b i (fun w => Bit.unset_bit 64 w (i mod 64)) (fun _ => false)) as (H1 & H2 & H3);
    try done.
  - intros. by apply Bit.unset_bit_word.
  - intros x j Hx Hj. rewrite Bit.unset_bit_testbit by (done || lia). by destruct (j =? i mod 64).
  - split; [done|]. split; [done|]. intros j Hj. unfold bitset.unset. rewrite H3 by done. by destruct (j =? i).
Qed.

Lemma bitset_reset_bit_spec b i v : bitset_wf b -> 0 <= i < bitset.bits_ b ->
  bitset.reset_bit i v b = if v then bitset.set i b else bitset.unset i b.
Proof. by destruct v. Qed.

Lemma bitset_test_spec b i : bitset_wf b -> 0 <= i < bitset.bits_ b -> bitset.test i b = bit_at b i.
Proof.
  intros Hwf Hi. destruct (bitset_wf_index b i Hwf Hi) as (_ & Hm & _).
  unfold bitset.test, bit_at, bitset.word, bitset.bit. rewrite Bit.check_bit_testbit by done.
  replace (i <? bitset.bits_ b) with true by lia. by rewrite word_bit_nonneg by lia.
Qed.

(** [try_set] sets the bit and says whether it was clear. *)
Lemma bitset_try_set_spec b i : bitset_wf b -> 0 <= i < bitset.bits_ b ->
  bitset.try_set i b = (negb (bit_at b i), if bit_at b i then b else bitset.set i b).
Proof.
  intros Hwf Hi. rewrite <-bitset_test_spec by done.
  unfold bitset.try_set, bitset.test, Bit.check_bit, bitset.set, Bit.set_bit. by destruct (negb _).
Qed.

(** *** Whole-set operations *)

Lemma clear_offset_at o b k : 0 <= o -> 0 <= bitset.words_ b <= bitset.capacity_words b -> 0 <= k ->
  word_at (bitset.data_ (bitset.clear_offset o b)) k =
  if (o <=? k) && (k <? bitset.words_ b) then 0 else word_at (bitset.data_ b) k.
Proof.
  intros Ho Hw Hk. unfold bitset.clear_offset, bitset.capacity_words, word_at in *.
  destruct (Z.ltb_spec o (bitset.words_ b)); [|by replace ((o <=? k) && (k <? bitset.words_ b)) with false by lia].
  cbn [bitset.data_]. destruct (Z.leb_spec o k); cbn [andb].
  - rewrite lookup_app_r by (rewrite length_take; lia). rewrite length_take.
    replace (_ `min` _)%nat with (Z.to_nat o) by lia.
    destruct (Z.ltb_spec k (bitset.words_ b)).
    + rewrite lookup_app_l by (rewrite length_replicate; lia). by rewrite lookup_replicate_2 by lia.
    + rewrite lookup_app_r by (rewrite length_replicate; lia). rewrite length_replicate, lookup_drop.
      do 2 f_equal. lia.
  - rewrite lookup_app_l by (rewrite length_take; lia). by rewrite lookup_take_lt by lia.
Qed.

Lemma clear_offset_length o b : 0 <= o -> 0 <= bitset.words_ b <= bitset.capacity_words b ->
  length (bitset.data_ (bitset.clear_offset o b)) = length (bitset.data_ b).
Proof.
  intros Ho Hw. unfold bitset.clear_offset, bitset.capacity_words in *.
  destruct (Z.ltb_spec o (bitset.words_ b)); [|done]. cbn [bitset.data_].
  rewrite !length_app, length_take, length_replicate, length_drop. lia.
Qed.

Lemma words_ok_zeros n : words_ok (replicate n 0).
Proof. apply Forall_replicate. unfold is_word. lia. Qed.

Lemma clear_offset_ok o b : words_ok (bitset.data_ b) -> words_ok (bitset.data_ (bitset.clear_offset o b)).
Proof.
  intros H. unfold bitset.clear_offset. destruct (_ <? _); [|done]. cbn [bitset.data_].
  apply Forall_app_2; [by apply Forall_take|]. apply Forall_app_2; [apply words_ok_zeros|by apply Forall_drop].
Qed.

Lemma clear_offset_fields o b : bitset.bits_ (bitset.clear_offset o b) = bitset.bits_ b /\
  bitset.words_ (bitset.clear_offset o b) = bitset.words_ b.
Proof. unfold bitset.clear_offset. by destruct (_ <? _). Qed.

Lemma low_mask_testbit n j : 0 <= n < 64 -> 0 <= j < 64 ->
  Z.testbit (~[64] (Z.lnot 0 <<[64] n)) j = (j <? n).
Proof. intros. bit_simpl. repeat (bit_split; bit_simpl); try done; lia. Qed.

Lemma land_word w x y : 0 <= w -> is_word w x -> is_word w (Z.land x y).
Proof.
  intros Hw Hx. assert (Z.land x y = wrap w (Z.land x y)) as ->; [|by apply wrap_range].
  apply Z.bits_inj'. intros i Hi. rewrite wrap_testbit, Z.land_spec by lia.
  destruct (Z.ltb_spec i w); [done|]. by rewrite (testbit_high w x).
Qed.

(** [sanitize] clears the bits behind the last one. *)
Lemma sanitize_spec b : 0 <= bitset.bits_ b <= 2 ^ 64 - 64 ->
  bitset.words_ b = (bitset.bits_ b + 63) / 64 -> bitset.words_ b <= bitset.capacity_words b ->
  words_ok (bitset.data_ b) ->
  let b' := bitset.sanitize b in
  bitset_wf b' /\ bitset.bits_ b' = bitset.bits_ b /\ forall i, 0 <= i -> bit_at b' i = bit_at b i.
Proof.
  intros Hb Hw Hc Hd b'. unfold b', bitset.sanitize, bitset.bit.
  destruct (Z.eqb_spec (bitset.bits_ b mod 64) 0) as [E|E].
  { split; [|done]. constructor; try done. intros i Hi. word_lia. }
  set (f := fun w => Z.land w _).
  assert (forall i, 0 <= i < 64 * bitset.words_ b ->
            word_bit (bitset.data_ (bitset.update_word (bitset.words_ b - 1) f b)) i =
            (i <? bitset.bits_ b) && word_bit (bitset.data_ b) i) as Hbit.
  { intros i Hi. cbn [bitset.update_word bitset.data_]. unfold bitset.capacity_words in Hc.
    rewrite word_bit_insert by word_lia. destruct (Z.eqb_spec (i / 64) (bitset.words_ b - 1)) as [Ei|Ei].
    - unfold f. rewrite Z.land_spec, low_mask_testbit by word_lia. rewrite word_bit_nonneg by lia.
      rewrite Ei, andb_comm. f_equal. word_lia.
    - by replace (i <? bitset.bits_ b) with true by word_lia. }
  split; [|split; [done|]].
  - constructor; try done.
    + unfold bitset.capacity_words in *. cbn. by rewrite length_insert.
    + cbn. apply Forall_insert; [done|]. unfold f.
      apply land_word; [lia|]. by apply words_ok_at.
    + intros i Hi. change (bitset.bits_ (bitset.update_word _ _ _)) with (bitset.bits_ b) in Hi.
      change (bitset.words_ (bitset.update_word _ _ _)) with (bitset.words_ b) in Hi.
      rewrite Hbit by lia. by replace (i <? bitset.bits_ b) with false by lia.
  - intros i Hi. unfold bit_at. change (bitset.bits_ (bitset.update_word _ _ _)) with (bitset.bits_ b).
    destruct (Z.ltb_spec i (bitset.bits_ b)) as [Hlt|]; [|done]. cbn [andb].
    rewrite Hbit by word_lia. by replace (i <? bitset.bits_ b) with true by lia.
Qed.

Section allocation_spec.
Context (allocate : Z -> list Z).
Context (Halloc : forall n, length (allocate n) = Z.to_nat n /\ words_ok (allocate n)).

Lemma reserve_words_spec n b : bitset_wf b -> 0 <= n ->
  let b' := bitset.reserve_words allocate n b in
  bitset.bits_ b' = bitset.bits_ b /\ bitset.words_ b' = bitset.words_ b /\
  n <= bitset.capacity_words b' /\ bitset.capacity_words b <= bitset.capacity_words b' /\
  words_ok (bitset.data_ b') /\
  forall k, 0 <= k < bitset.words_ b -> word_at (bitset.data_ b') k = word_at (bitset.data_ b) k.
Proof using Halloc.
  intros [Hb Hw Hc Hd Ht] Hn b'. unfold b', bitset.reserve_words.
  assert (0 <= bitset.words_ b) by word_lia. destruct (Halloc n) as [Hl Ho].
  destruct (Z.ltb_spec (bitset.capacity_words b) n); [|done].
  unfold bitset.capacity_words in *. cbn [bitset.bits_ bitset.words_ bitset.data_].
  rewrite length_app, length_take, length_drop, Hl. repeat split; try lia.
  - apply Forall_app_2; [by apply Forall_take|by apply Forall_drop].
  - intros k Hk. unfold word_at. rewrite lookup_app_l by (rewrite length_take; lia).
    by rewrite lookup_take_lt by lia.
Qed.

Lemma reserve_spec bits b : bitset_wf b -> 0 <= bits <= 2 ^ 64 - 64 ->
  let b' := bitset.reserve allocate bits b in
  bitset.bits_ b' = bitset.bits_ b /\ bits <= 64 * bitset.capacity_words b' /\
  forall i, 0 <= i -> bit_at b' i = bit_at b i.
Proof using Halloc.
  intros Hwf Hb b'. unfold b', bitset.reserve. rewrite bits_to_words_eq by done.
  destruct (reserve_words_spec ((bits + 63) / 64) b Hwf ltac:(word_lia)) as (H1 & H2 & H3 & H4 & H5 & H6).
  split; [done|]. split; [word_lia|]. intros i Hi. unfold bit_at. rewrite H1.
  destruct (Z.ltb_spec i (bitset.bits_ b)); [|done]. cbn [andb].
  rewrite !word_bit_nonneg by lia. destruct (bitset_wf_index b i Hwf ltac:(lia)). by rewrite H6.
Qed.

(** [resize] keeps the members below the new size and adds none. *)
Lemma resize_spec Reserve bits b : bitset_wf b -> 0 <= bits <= 2 ^ 64 - 64 ->
  (Reserve = true \/ bits <= 64 * bitset.capacity_words b) ->
  let b' := bitset.resize allocate Reserve bits b in
  bitset_wf b' /\ bitset.bits_ b' = bits /\
  forall i, 0 <= i -> bit_at b' i = (i <? bits) && bit_at b i.
Proof using Halloc.
  intros Hwf Hb HR b'. unfold b', bitset.resize. rewrite bits_to_words_eq by done.
  set (n := (bits + 63) / 64). assert (0 <= n) as Hn by (unfold n; word_lia).
  set (b1 := if Reserve then _ else _).
  assert (bitset.words_ b1 = bitset.words_ b /\ n <= bitset.capacity_words b1 /\
    words_ok (bitset.data_ b1) /\
    forall k, 0 <= k < bitset.words_ b -> word_at (bitset.data_ b1) k = word_at (bitset.data_ b) k)
    as (Hw & Hc & Hd & Hk).
  { unfold b1. destruct Reserve.
    - destruct (reserve_words_spec n b Hwf Hn) as (? & ? & ? & ? & ? & ?). done.
    - destruct HR as [?|HR]; [done|]. repeat split; try done; [unfold n; word_lia|apply Hwf]. }
  assert (0 <= bitset.words_ b) by (destruct Hwf; word_lia).
  set (b2 := {| bitset.data_ := bitset.data_ b1; bitset.words_ := n; bitset.bits_ := bitset.bits_ b1 |}).
  assert (0 <= bitset.words_ b2 <= bitset.capacity_words b2) as Hc2 by done.
  pose proof (clear_offset_fields (bitset.words_ b1) b2) as [_ Hw2].
  pose proof (clear_offset_length (bitset.words_ b1) b2 ltac:(lia) Hc2) as Hlen.
  destruct (sanitize_spec {| bitset.data_ := bitset.data_ (bitset.clear_offset (bitset.words_ b1) b2);
     bitset.words_ := bitset.words_ (bitset.clear_offset (bitset.words_ b1) b2); bitset.bits_ := bits |})
    as (Hwf' & Hbits & Hat); cbn [bitset.bits_ bitset.words_ bitset.data_]; rewrite ?Hw2; try done.
  - unfold bitset.capacity_words in *. cbn [bitset.data_]. rewrite Hlen. done.
  - by apply clear_offset_ok.
  - rewrite Hw2 in *. split; [done|]. split; [done|]. intros i Hi. rewrite Hat by done.
    unfold bit_at at 1. cbn [bitset.bits_ bitset.data_].
    destruct (Z.ltb_spec i bits) as [Hlt|]; [|done]. cbn [andb].
    rewrite word_bit_nonneg, clear_offset_at by (done || word_lia). cbn [bitset.words_ bitset.data_ b2].
    replace (i / 64 <? n) with true by (unfold n; word_lia). rewrite andb_true_r, Hw.
    destruct (Z.leb_spec (bitset.words_ b) (i / 64)) as [Hge|Hlt'].
    + rewrite Z.bits_0. symmetry. unfold bit_at. destruct (Z.ltb_spec i (bitset.bits_ b)); [|done].
      destruct (bitset_wf_index b i Hwf ltac:(lia)). lia.
    + rewrite Hk by word_lia. rewrite <-word_bit_nonneg by lia. unfold bit_at.
      destruct (Z.ltb_spec i (bitset.bits_ b)); [done|]. apply (wf_tail b Hwf). word_lia.
Qed.

(** [reset(bits)] gives an empty set whatever the memory held. *)
Lemma reset_spec bits b : words_ok (bitset.data_ b) -> 0 <= bits <= 2 ^ 64 - 64 ->
  let b' := bitset.reset allocate bits b in
  bitset_wf b' /\ bitset.bits_ b' = bits /\ forall i, 0 <= i -> bit_at b' i = false.
Proof using Halloc.
  intros Hd Hb b'. unfold b', bitset.reset. rewrite bits_to_words_eq by done.
  set (n := (bits + 63) / 64). assert (0 <= n) as Hn by (unfold n; word_lia).
  set (data := if _ <? _ then _ else _). destruct (Halloc n) as [Hl Ho].
  assert (words_ok data /\ n <= Z.of_nat (length data)) as [Hok Hlen].
  { unfold data, bitset.capacity_words in *.
    destruct (Z.ltb_spec (Z.of_nat (length (bitset.data_ b))) n); [|done]. rewrite Hl. split; [done|lia]. }
  set (b1 := {| bitset.data_ := data; bitset.words_ := n; bitset.bits_ := bits |}).
  assert (0 <= bitset.words_ b1 <= bitset.capacity_words b1) as Hc by done.
  pose proof (clear_offset_fields 0 b1) as [Hf1 Hf2].
  pose proof (clear_offset_length 0 b1 ltac:(lia) Hc) as Hlen'.
  assert (forall i, 0 <= i < 64 * n -> word_bit (bitset.data_ (bitset.clear_offset 0 b1)) i = false) as Hz.
  { intros i Hi. rewrite word_bit_nonneg, clear_offset_at by (done || word_lia).
    replace ((0 <=? i / 64) && (i / 64 <? bitset.words_ b1)) with true; [apply Z.bits_0|].
    cbn [bitset.words_ b1]. word_lia. }
  unfold bitset.clear. rewrite Hf1. split; [|split; [done|]].
  - constructor; rewrite ?Hf1, ?Hf2; try done.
    + unfold bitset.capacity_words in *. rewrite Hlen'. done.
    + by apply clear_offset_ok.
    + intros i Hi. apply Hz. cbn in Hi. lia.
  - intros i Hi. unfold bit_at. rewrite Hf1. cbn [bitset.bits_ b1].
    destruct (Z.ltb_spec i bits); [|done]. apply Hz. unfold n. word_lia.
Qed.

End allocation_spec.

(** *** Counting *)

(** How many of the first [n] indices satisfy [f]. *)
Fixpoint bits_count (f : Z -> bool) (n : nat) : Z :=
  match n with
  | O => 0
  | S n => bits_count f n + Z.b2z (f (Z.of_nat n))
  end.

Lemma bits_count_ext f g n : (forall i, 0 <= i < Z.of_nat n -> f i = g i) -> bits_count f n = bits_count g n.
Proof. induction n as [|n IH]; intros H; [done|]. cbn. rewrite IH, H by (intros; try apply H; lia). done. Qed.

Lemma bits_count_range f n : 0 <= bits_count f n <= Z.of_nat n.
Proof. induction n as [|n IH]; [done|]. cbn [bits_count]. pose proof (Z.b2z_bit0 (f (Z.of_nat n))). destruct (f _); cbn; lia. Qed.

Lemma bits_count_app f n m : bits_count f (n + m) = bits_count f n + bits_count (fun i => f (Z.of_nat n + i)) m.
Proof.
  induction m as [|m IH]; [rewrite Nat.add_0_r; cbn; lia|]. rewrite Nat.add_succ_r. cbn [bits_count].
  rewrite IH. replace (Z.of_nat (n + m)) with (Z.of_nat n + Z.of_nat m) by lia. lia.
Qed.

Lemma bits_count_zero f n : bits_count f n = 0 <-> forall i, 0 <= i < Z.of_nat n -> f i = false.
Proof.
  induction n as [|n IH]; [cbn; split; [intros _; lia|done]|]. cbn [bits_count].
  pose proof (bits_count_range f n). destruct (f (Z.of_nat n)) eqn:E; cbn [Z.b2z].
  - split; [lia|]. intros H'. rewrite H' in E by lia. done.
  - rewrite Z.add_0_r, IH. split; intros H' i Hi; [|apply H'; lia].
    destruct (decide (i = Z.of_nat n)) as [->|]; [done|]. apply H'. lia.
Qed.

Lemma bits_count_full f n : bits_count f n = Z.of_nat n <-> forall i, 0 <= i < Z.of_nat n -> f i = true.
Proof.
  induction n as [|n IH]; [cbn; split; [intros _; lia|done]|]. cbn [bits_count].
  pose proof (bits_count_range f n). destruct (f (Z.of_nat n)) eqn:E; cbn [Z.b2z].
  - split.
    + intros H' i Hi. destruct (decide (i = Z.of_nat n)) as [->|]; [done|]. apply IH; lia.
    + intros H'. rewrite (proj2 IH); [lia|]. intros. apply H'. lia.
  - split; [lia|]. intros H'. rewrite H' in E by lia. done.
Qed.

Lemma popcount_word_half x : 0 <= x -> Math.popcount_word x = Z.b2z (Z.testbit x 0) + Math.popcount_word (Z.div2 x).
Proof. destruct x as [|[p|p|]|p]; try done; cbn; lia. Qed.

Lemma popcount_word_count n : forall x, is_word (Z.of_nat n) x -> Math.popcount_word x = bits_count (Z.testbit x) n.
Proof.
  induction n as [|n IH]; intros x Hx.
  - unfold is_word in Hx. replace x with 0 by lia. done.
  - rewrite popcount_word_half by (unfold is_word in Hx; lia).
    rewrite (IH (Z.div2 x)).
    + rewrite <-Nat.add_1_l, bits_count_app. cbn [bits_count]. rewrite Z.add_0_l. f_equal.
      apply bits_count_ext. intros i Hi. rewrite Z.div2_spec, Z.shiftr_spec by lia. f_equal. lia.
    + unfold is_word in *. rewrite Nat2Z.inj_succ, Z.pow_succ_r, Z.div2_div in * by lia. word_lia.
Qed.

Lemma popcount_count words : words_ok words -> 64 * Z.of_nat (length words) < 2 ^ 64 ->
  Math.popcount words = bits_count (word_bit words) (64 * length words).
Proof.
  unfold Math.popcount. induction words as [|w ws IH] using rev_ind; intros Hok Hlen; [done|].
  apply Forall_app in Hok as [Hok Hw]. apply Forall_cons_1 in Hw as [Hw _].
  rewrite length_app in *. cbn [length] in *. rewrite foldl_snoc, IH by (done || lia).
  rewrite Nat.mul_add_distr_l, bits_count_app. rewrite (popcount_word_count 64) by done.
  pose proof (bits_count_range (word_bit ws) (64 * length ws)).
  pose proof (bits_count_range (Z.testbit w) 64).
  rewrite wrap_small by (unfold is_word; lia). f_equal.
  - apply bits_count_ext. intros i Hi. rewrite !word_bit_nonneg by lia. unfold word_at.
    by rewrite lookup_app_l by word_lia.
  - change (64 * 1)%nat with 64%nat. apply bits_count_ext. intros i Hi.
    replace (Z.of_nat (64 * length ws) + i) with (64 * Z.of_nat (length ws) + i) by lia.
    rewrite word_bit_word by lia. unfold word_at. rewrite lookup_app_r by lia.
    by replace (Z.to_nat (Z.of_nat (length ws)) - length ws)%nat with 0%nat by lia.
Qed.

Lemma in_use_length b : bitset_wf b -> Z.of_nat (length (bitset.in_use b)) = bitset.words_ b.
Proof.
  intros [Hb Hw Hc _ _]. unfold bitset.in_use, bitset.capacity_words in *. rewrite length_take. word_lia.
Qed.

Lemma in_use_bit b i : bitset_wf b -> 0 <= i < 64 * bitset.words_ b ->
  word_bit (bitset.in_use b) i = bit_at b i.
Proof.
  intros Hwf Hi. transitivity (word_bit (bitset.data_ b) i).
  - rewrite !word_bit_nonneg by lia. unfold bitset.in_use, word_at. by rewrite lookup_take_lt by word_lia.
  - unfold bit_at. destruct (Z.ltb_spec i (bitset.bits_ b)); [done|]. apply (wf_tail b Hwf). lia.
Qed.

Lemma count_spec b : bitset_wf b -> bitset.count b = bits_count (bit_at b) (Z.to_nat (bitset.bits_ b)).
Proof.
  intros Hwf. pose proof (in_use_length b Hwf) as Hl. pose proof Hwf as [Hb Hw Hc Hd Ht].
  unfold bitset.count. rewrite popcount_count; [|by apply Forall_take|word_lia].
  rewrite (bits_count_ext _ (bit_at b)) by (intros; apply in_use_bit; [done|lia]).
  replace (64 * length (bitset.in_use b))%nat
    with (Z.to_nat (bitset.bits_ b) + (64 * length (bitset.in_use b) - Z.to_nat (bitset.bits_ b)))%nat
    by word_lia.
  rewrite bits_count_app. rewrite (proj2 (bits_count_zero
    (fun i => bit_at b (Z.of_nat (Z.to_nat (bitset.bits_ b)) + i)) _)); [lia|].
  intros i Hi. unfold bit_at.
  rewrite Z2Nat.id by lia. by replace (bitset.bits_ b + i <? bitset.bits_ b) with false by lia.
Qed.

Lemma any_spec b : bitset_wf b -> bitset.any b = true <-> exists i, 0 <= i < bitset.bits_ b /\ bit_at b i = true.
Proof.
  intros Hwf. pose proof (in_use_length b Hwf) as Hl. pose proof Hwf as [Hb Hw Hc Hd Ht].
  unfold bitset.any. rewrite existsb_exists. split.
  - intros (w & Hin & Hne). apply list_elem_of_In, list_elem_of_lookup in Hin as [k Hk].
    assert (is_word 64 w) as Hw64 by (eapply Forall_lookup_1; [by apply Forall_take|exact Hk]).
    destruct (countr_zero_spec 64 w Hw64 ltac:(lia) ltac:(lia)) as (Hj & Hbit & _).
    exists (64 * Z.of_nat k + countr_zero 64 w). pose proof (lookup_lt_Some _ _ _ Hk).
    assert (bit_at b (64 * Z.of_nat k + countr_zero 64 w) = true) as Hat.
    2:{ split; [|done]. unfold bit_at in Hat. apply andb_true_iff in Hat as [Hat _]. lia. }
    rewrite <-in_use_bit by (done || lia). rewrite word_bit_word by lia. unfold word_at.
    by rewrite Nat2Z.id, Hk.
  - intros (i & Hi & Hat). destruct (bitset_wf_index b i Hwf Hi) as (Hk & Hm & _).
    rewrite <-in_use_bit, word_bit_nonneg in Hat by (done || word_lia).
    destruct (bitset.in_use b !! Z.to_nat (i / 64)) as [w|] eqn:E.
    + exists w. split; [by apply list_elem_of_In, list_elem_of_lookup; eexists|].
      unfold word_at in Hat. rewrite E in Hat. cbn in Hat. destruct (Z.eqb_spec w 0) as [->|]; [|done].
      by rewrite Z.bits_0 in Hat.
    + apply lookup_ge_None in E. lia.
Qed.

Lemma full_word w : is_word 64 w -> w = 2 ^ 64 - 1 <-> forall i, 0 <= i < 64 -> Z.testbit w i = true.
Proof.
  intros Hw. change (2 ^ 64 - 1) with (Z.ones 64). split; [intros -> i Hi; by apply Z.ones_spec_low|].
  intros H. apply Z.bits_inj'. intros i Hi. rewrite ones_testbit by lia.
  destruct (Z.ltb_spec i 64); [by apply H|by apply (testbit_high 64)].
Qed.

(** [all] compares full words, and counts the bits of the last one. *)
Lemma all_spec b : bitset_wf b -> bitset.all b = true <-> forall i, 0 <= i < bitset.bits_ b -> bit_at b i = true.
Proof.
  intros Hwf. pose proof Hwf as [Hb Hw Hc Hd Ht]. unfold bitset.all, bitset.capacity_words in *.
  destruct (Z.eqb_spec (bitset.words_ b) 0) as [E|E].
  { split; [intros _ i Hi; word_lia|done]. }
  set (k := bitset.words_ b - 1). assert (0 <= k) by word_lia.
  pose proof (words_ok_at (bitset.data_ b) k Hd) as Hwk.
  rewrite andb_true_iff, forallb_forall, (popcount_word_count 64) by done.
  assert (bits_count (Z.testbit (word_at (bitset.data_ b) k)) 64 =
          bits_count (Z.testbit (word_at (bitset.data_ b) k)) (Z.to_nat (bitset.bits_ b - k * 64))) as ->.
  { replace 64%nat with (Z.to_nat (bitset.bits_ b - k * 64) + (64 - Z.to_nat (bitset.bits_ b - k * 64)))%nat
      by (unfold k; word_lia).
    rewrite bits_count_app. rewrite (proj2 (bits_count_zero (fun i => Z.testbit (word_at (bitset.data_ b) k)
      (Z.of_nat (Z.to_nat (bitset.bits_ b - k * 64)) + i)) _)); [lia|].
    intros i Hi. rewrite <-word_bit_word by (unfold k in *; word_lia). apply Ht. unfold k in *. word_lia. }
  assert ((bits_count (Z.testbit (word_at (bitset.data_ b) k)) (Z.to_nat (bitset.bits_ b - k * 64)) =?
           bitset.bits_ b - k * 64) = true <->
          forall i, 64 * k <= i < bitset.bits_ b -> word_bit (bitset.data_ b) i = true) as ->.
  { rewrite Z.eqb_eq. rewrite <-(Z2Nat.id (bitset.bits_ b - k * 64)) at 2 by (unfold k; word_lia).
    rewrite bits_count_full. split; intros H' i Hi.
    - replace i with (64 * k + (i - 64 * k)) by lia. rewrite word_bit_word by (unfold k in *; word_lia).
      apply H'. lia.
    - rewrite <-word_bit_word by (unfold k in *; word_lia). apply H'. lia. }
  split.
  - intros [H1 H2] i Hi. unfold bit_at. replace (i <? bitset.bits_ b) with true by lia. cbn [andb].
    destruct (Z.lt_ge_cases i (64 * k)) as [Hlt|]; [|apply H2; lia].
    rewrite word_bit_nonneg by lia. apply full_word; [by apply words_ok_at| |word_lia].
    destruct (bitset.data_ b !! Z.to_nat (i / 64)) as [w|] eqn:Ek.
    + unfold word_at. rewrite Ek. cbn. apply Z.eqb_eq, H1.
      apply list_elem_of_In, list_elem_of_lookup. exists (Z.to_nat (i / 64)).
      rewrite lookup_take_lt by (unfold k in *; word_lia). done.
    + apply lookup_ge_None in Ek. unfold k in *. word_lia.
  - intros Hall. split.
    + intros w Hin. apply list_elem_of_In, list_elem_of_lookup in Hin as [j Hj].
      apply lookup_take_Some in Hj as [Hj Hlt]. apply Z.eqb_eq, full_word; [by eapply Forall_lookup_1|].
      intros i Hi. specialize (Hall (64 * Z.of_nat j + i) ltac:(unfold k in *; word_lia)).
      unfold bit_at in Hall. apply andb_true_iff in Hall as [_ Hall].
      rewrite word_bit_word in Hall by lia. unfold word_at in Hall. by rewrite Nat2Z.id, Hj in Hall.
    + intros i Hi. specialize (Hall i ltac:(lia)). unfold bit_at in Hall. by apply andb_true_iff in Hall as [_ ?].
Qed.

Lemma word_at_ext ws vs k : words_ok ws -> words_ok vs -> 0 <= k ->
  (forall i, 0 <= i < 64 -> word_bit ws (64 * k + i) = word_bit vs (64 * k + i)) ->
  word_at ws k = word_at vs k.
Proof.
  intros Hws Hvs Hk H. apply Z.bits_inj'. intros i Hi. destruct (Z.lt_ge_cases i 64).
  - specialize (H i ltac:(lia)). by rewrite !word_bit_word in H by lia.
  - by rewrite !(testbit_high 64) by (done || by apply words_ok_at).
Qed.

Lemma forallb_zip_eq (l r : list Z) : length l = length r ->
  forallb (fun '(x, y) => x =? y) (zip l r) = true <-> l = r.
Proof.
  revert r. induction l as [|x l IH]; intros [|y r] Hl; try done. cbn.
  rewrite andb_true_iff, Z.eqb_eq, IH by (cbn in Hl; lia). split; [by intros [-> ->]|by intros [= -> ->]].
Qed.

(** Equality of the words is equality of the sets. *)
Lemma eqb_spec l r : bitset_wf l -> bitset_wf r ->
  bitset.eqb l r = true <-> bitset.bits_ l = bitset.bits_ r /\ forall i, 0 <= i -> bit_at l i = bit_at r i.
Proof.
  intros Hl Hr. pose proof (in_use_length l Hl) as Ll. pose proof (in_use_length r Hr) as Lr.
  pose proof (wf_words l Hl) as Wl. pose proof (wf_words r Hr) as Wr.
  unfold bitset.eqb. rewrite andb_true_iff, Z.eqb_eq.
  destruct (decide (bitset.bits_ l = bitset.bits_ r)) as [E|]; [|tauto].
  assert (bitset.words_ l = bitset.words_ r) as Ew by (rewrite Wl, Wr, E; done).
  rewrite Ew. fold (bitset.in_use r). rewrite forallb_zip_eq by lia.
  split; intros [_ H]; (split; [done|]).
  - intros i Hi. destruct (Z.lt_ge_cases i (bitset.bits_ l)).
    + destruct (bitset_wf_index l i Hl ltac:(lia)). rewrite <-!in_use_bit by (done || word_lia). by rewrite H.
    + unfold bit_at. rewrite <-E. by replace (i <? bitset.bits_ l) with false by lia.
  - apply list_eq_same_length with (n := length (bitset.in_use l)); [lia|done|].
    intros k x y Hk Hx Hy.
    assert (word_at (bitset.in_use l) (Z.of_nat k) = word_at (bitset.in_use r) (Z.of_nat k)) as Hxy.
    { apply word_at_ext; try lia; [by apply Forall_take, Hl|by apply Forall_take, Hr|].
      intros i Hi. rewrite !in_use_bit by (done || lia). apply H. lia. }
    unfold word_at in Hxy. by rewrite Nat2Z.id, Hx, Hy in Hxy.
Qed.

(** ** The iterator enumerates the bits *)

(** [refill] delivers new words at most once. *)
Class RefillOnce (R : Type) {HR : Refill R} :=
  refill_once (r : R) : (refill (refill r).2).1 = None.

#[export] Instance no_refill_once : RefillOnce unit.
Proof. done. Qed.

#[export] Instance lazy_refill_once : RefillOnce lazy_bitset.
Proof.
  intros r. unfold refill at 2, lazy_refill. destruct (lazy_field_ r) as [u|] eqn:E; [|by cbn; unfold refill; rewrite E].
  destruct (u _) as [c set]. destruct (negb _); done.
Qed.

(** Words whose bits are documents. *)
Definition source_ok (words : list Z) : Prop :=
  words_ok words /\ 64 * Z.of_nat (length words) <= 2 ^ 32 - 64 /\ word_bit words doc_limits.invalid = false.

Definition words_fit (words : list Z) : Prop := words_ok words /\ 64 * Z.of_nat (length words) <= 2 ^ 32 - 64.

Lemma source_fit words : source_ok words -> words_fit words.
Proof. by intros (? & ? & _). Qed.

Lemma fit_range words d : words_fit words -> word_bit words d = true -> 0 <= d < 64 * Z.of_nat (length words).
Proof.
  intros (_ & Hl) Hd. destruct (Z.lt_ge_cases d 0); [by rewrite word_bit_neg in Hd by lia|].
  destruct (Z.lt_ge_cases d (64 * Z.of_nat (length words))); [done|]. by rewrite word_bit_high in Hd by lia.
Qed.

Lemma source_docs words : source_ok words -> doc_set (word_bit words).
Proof.
  intros (Hok & Hl & H0) d Hd. destruct (Z.lt_ge_cases d 0); [by rewrite word_bit_neg in Hd by lia|].
  destruct (decide (d = 0)) as [->|]; [unfold doc_limits.invalid in H0; congruence|].
  destruct (Z.lt_ge_cases d (64 * Z.of_nat (length words))); [doc_lia|].
  by rewrite word_bit_high in Hd by lia.
Qed.

Section scan.
Context {R : Type} {HR : Refill R} {HO : RefillOnce R}.
Implicit Types (s : bitset_doc_iterator R) (words : list Z) (D : Z).

Definition drained s : Prop := (refill (it_derived s)).1 = None.

(** The documents behind [D] that precede the next word are in [word_]. *)
Record scan words D s : Prop := {
  scan_words : it_words s = words;
  scan_next : 0 <= it_next s;
  scan_low : -1 <= D < 64 * it_next s \/ D = 0;
  scan_word : is_word 64 (it_word s);
  scan_bits : forall j, 0 <= j ->
    Z.testbit (it_word s) j = (D + 1 + j <? 64 * it_next s) && word_bit words (D + 1 + j);
  scan_base : it_next s < Z.of_nat (length words) -> it_base s = wrap 32 (64 * (it_next s - 1));
  scan_doc : it_word s <> 0 -> it_doc s = wrap 32 D;
  scan_drained : drained s;
}.

(** No word has been asked for yet. *)
Record pending words s : Prop := {
  pending_refill : (refill (it_derived s)).1 = Some words;
  pending_words : it_words s = [];
  pending_next : it_next s = 0;
  pending_word : it_word s = 0;
}.

Lemma scan_reset words doc r : drained (bitset_it_reset doc words r) -> scan words 0 (bitset_it_reset doc words r).
Proof.
  intros Hd. constructor; cbn; try done; try lia.
  intros j Hj. rewrite Z.bits_0. by destruct (Z.ltb_spec (0 + 1 + j) (64 * 0)); [lia|].
Qed.

(** The word in hand says where the next document is, or that there is none before the next word. *)
Lemma scan_empty words D s : scan words D s -> it_word s = 0 ->
  forall d, D < d < 64 * it_next s -> word_bit words d = false.
Proof.
  intros H E d Hd. pose proof (scan_bits _ _ _ H (d - D - 1) ltac:(lia)) as Hb.
  rewrite E, Z.bits_0 in Hb. replace (D + 1 + (d - D - 1)) with d in Hb by lia.
  by replace (d <? 64 * it_next s) with true in Hb by lia.
Qed.

Lemma scan_load words D s base : words_fit words -> scan words D s -> it_next s < Z.of_nat (length words) ->
  base = wrap 32 (it_base s + 64) ->
  scan words (64 * it_next s - 1)
    {| it_doc := base -[32] 1; it_words := it_words s; it_next := it_next s + 1;
       it_word := word_at (it_words s) (it_next s); it_base := base; it_derived := it_derived s |}.
Proof.
  intros (Hok & Hl) H Hlt ->. pose proof (scan_next _ _ _ H). pose proof (scan_base _ _ _ H Hlt) as Hb.
  constructor; cbn [it_doc it_words it_next it_word it_base it_derived]; try lia.
  - apply H.
  - rewrite (scan_words _ _ _ H). by apply words_ok_at.
  - intros j Hj. rewrite (scan_words _ _ _ H).
    replace (64 * it_next s - 1 + 1 + j) with (64 * it_next s + j) by lia.
    destruct (Z.lt_ge_cases j 64).
    + rewrite word_bit_word by lia. by replace (_ <? _) with true by lia.
    + rewrite (testbit_high 64) by (done || lia || by apply words_ok_at).
      by replace (_ <? _) with false by lia.
  - intros _. rewrite Hb, wrap_add_l. f_equal. lia.
  - intros _. rewrite Hb, wrap_add_l, wrap_sub_l. f_equal. lia.
  - apply H.
Qed.

Lemma bitset_round_scan words D s : words_fit words -> scan words D s -> exists r,
  bitset_it_round s = Some r /\
  match r with
  | inl s' => it_word s = 0 /\ it_next s < Z.of_nat (length words) /\ it_next s' = it_next s + 1 /\
              scan words (64 * it_next s - 1) s' /\
              forall d, D < d < 64 * it_next s -> word_bit words d = false
  | inr (true, s') => s' = s /\ it_word s <> 0
  | inr (false, s') => scan words D s' /\ it_word s' = 0 /\ it_doc s' = doc_limits.eof /\
              forall d, D < d -> word_bit words d = false
  end.
Proof using HO.
  intros Hok H. unfold bitset_it_round. destruct (Z.eqb_spec (it_word s) 0) as [E|E]; cbn [negb].
  2:{ eexists. split; [done|]. done. }
  pose proof (scan_empty _ _ _ H E) as Hgap. rewrite (scan_words _ _ _ H).
  destruct (Z.leb_spec (Z.of_nat (length words)) (it_next s)) as [Hge|Hlt].
  - pose proof (scan_drained _ _ _ H) as Hd. unfold drained in Hd. pose proof (refill_once (it_derived s)) as Ho.
    destruct (refill (it_derived s)) as [o r]. cbn in Hd, Ho. subst o.
    eexists. split; [done|]. cbn. split; [|split; [done|split; [done|]]].
    + destruct H. constructor; cbn; try done; try lia. intros j Hj. by rewrite <-scan_bits0, E.
    + intros d Hd. destruct (Z.lt_ge_cases d (64 * it_next s)); [by apply Hgap|]. apply word_bit_high. lia.
  - eexists. split; [done|]. cbn [it_next]. split; [done|]. split; [done|]. split; [done|]. split; [|done].
    rewrite <-(scan_words _ _ _ H). eapply scan_load; try done; try (by rewrite (scan_words _ _ _ H)).
Qed.

(** The iterator between two calls. *)
Definition settled words s : Prop :=
  exists D, scan words D s /\
    ((it_doc s = D /\ 0 <= D < doc_limits.eof) \/
     (it_doc s = doc_limits.eof /\ it_word s = 0 /\ forall d, 64 * it_next s <= d -> word_bit words d = false)).

(** The next document in the word in hand. *)
Lemma scan_found words D s : words_fit words -> scan words D s -> it_word s <> 0 ->
  let v := D + 1 + countr_zero 64 (it_word s) in
  word_bit words v = true /\ (forall d, D < d < v -> word_bit words d = false) /\
  wrap 32 (it_doc s + (1 + countr_zero 64 (it_word s))) = v /\
  scan words v {| it_doc := wrap 32 (it_doc s + (1 + countr_zero 64 (it_word s)));
                  it_words := it_words s; it_next := it_next s;
                  it_word := Z.shiftr (Z.shiftr (it_word s) (countr_zero 64 (it_word s))) 1;
                  it_base := it_base s; it_derived := it_derived s |}.
Proof.
  intros Hok H Hne v.
  destruct (countr_zero_spec 64 _ (scan_word _ _ _ H) Hne ltac:(lia)) as (Hr & Hset & Hlow).
  set (delta := countr_zero 64 (it_word s)) in *.
  rewrite (scan_bits _ _ _ H) in Hset by lia. apply andb_true_iff in Hset as [Hlt Hset].
  assert (wrap 32 (it_doc s + (1 + delta)) = v) as Ev.
  { rewrite (scan_doc _ _ _ H Hne), wrap_add_l. unfold v. rewrite wrap_small; [lia|].
    apply fit_range in Hset; [|done]. destruct Hok. unfold is_word. lia. }
  assert (0 <= v) by (unfold v; destruct (scan_low _ _ _ H); lia).
  split; [done|]. split; [|split; [done|]].
  - intros d Hd. pose proof (Hlow (d - D - 1) ltac:(lia)) as Hb.
    rewrite (scan_bits _ _ _ H) in Hb by lia. replace (D + 1 + (d - D - 1)) with d in Hb by lia.
    destruct (Z.ltb_spec d (64 * it_next s)); [done|]. unfold v in *. lia.
  - pose proof (scan_word _ _ _ H) as Hw. unfold is_word in Hw.
    constructor; cbn [it_doc it_words it_next it_word it_base it_derived]; try apply H; try lia.
    + rewrite Z.shiftr_shiftr by lia. unfold is_word. rewrite Z.shiftr_div_pow2 by lia.
      pose proof (pow2_pos (delta + 1) ltac:(lia)). split; [by apply Z.div_pos; lia|].
      apply Z.div_lt_upper_bound; nia.
    + intros j Hj. rewrite !Z.shiftr_spec, (scan_bits _ _ _ H) by lia.
      by replace (D + 1 + (j + 1 + delta)) with (v + 1 + j) by (unfold v; lia).
    + intros _. apply fit_range in Hset; [|done]. destruct Hok. rewrite Ev, wrap_small; [done|]. unfold is_word. lia.
Qed.

(** The next bit of the words, of whichever index. *)
Lemma bitset_it_next_from words D s : words_fit words -> scan words D s -> -1 <= D < 64 * it_next s ->
  exists r s', bitset_it_next s = Some (r, s') /\
  if r : bool then D < it_doc s' < 64 * it_next s' /\ word_bit words (it_doc s') = true /\ scan words (it_doc s') s' /\
    forall d, D < d < it_doc s' -> word_bit words d = false
  else forall d, D < d -> word_bit words d = false.
Proof using HO.
  intros Hok HS0 HD0.
  destruct (iterate_rule
    (fun s => exists D', scan words D' s /\ D <= D' < 64 * it_next s /\ forall d, D < d <= D' -> word_bit words d = false)
    (fun s => Z.max 0 (Z.of_nat (length words) - it_next s))
    (fun r : bool * bitset_doc_iterator R => exists D', (forall d, D < d <= D' -> word_bit words d = false) /\
       if r.1 then scan words D' r.2 /\ D <= D' < 64 * it_next r.2 /\ it_word r.2 <> 0
       else forall d, D' < d -> word_bit words d = false)
    bitset_it_round) with (k := 64%nat) (s := s) as ([b s1] & Hi & D' & Hgap & Hb).
  - clear s HS0 HD0. intros s (D' & HS & HD & Hgap). split; [lia|].
    destruct (bitset_round_scan words D' s Hok HS) as (r & Hr & Hpost). exists r. split; [done|].
    destruct r as [s'|[[] s']].
    + destruct Hpost as (_ & Hlt & En & HS' & Hg). split; [|lia]. exists (64 * it_next s - 1). split; [done|].
      split; [lia|]. intros d Hd. destruct (Z.le_gt_cases d D'); [apply Hgap; lia|apply Hg; lia].
    + destruct Hpost as [-> Hne]. by exists D'.
    + destruct Hpost as (_ & _ & _ & Hg). exists D'. done.
  - exists D. split; [done|]. split; [lia|]. intros; lia.
  - change (2 ^ Z.of_nat 64) with (2 ^ 64). pose proof (scan_next _ _ _ HS0). destruct Hok. lia.
  - unfold bitset_it_next. rewrite Hi. cbn [mbind option_bind fst snd] in *. destruct b; cbn [negb].
    + destruct Hb as (HS & HD & Hne). destruct (scan_found words D' s1 Hok HS Hne) as (Hv & Hg & Ev & HS').
      destruct (countr_zero_spec 64 _ (scan_word _ _ _ HS) Hne ltac:(lia)) as (Hr & Hset & _).
      rewrite (scan_bits _ _ _ HS) in Hset by lia. apply andb_true_iff in Hset as [Hlt _].
      eexists true, _. split; [done|]. cbn [it_doc it_next]. rewrite Ev. split; [lia|]. split; [done|].
      split; [by rewrite <-Ev at 2|]. intros d Hd. destruct (Z.le_gt_cases d D'); [apply Hgap; lia|apply Hg; lia].
    + exists false, s1. split; [done|]. intros d Hd. destruct (Z.le_gt_cases d D'); [apply Hgap; lia|apply Hb; lia].
Qed.

Lemma bitset_it_next_scan words D0 : source_ok words -> forall s,
  (exists D, scan words D s /\ forall d, D0 < d <= D \/ D < d <= D0 -> word_bit words d = false) \/
  (pending words s /\ D0 = 0) ->
  exists s', bitset_it_next s = Some (negb (doc_limits.is_eof (it_doc s')), s') /\
    settled words s' /\ first_from (word_bit words) (D0 + 1) (it_doc s').
Proof using HO.
  intros Hok s Hs. pose proof (source_docs _ Hok) as Hdocs. pose proof Hok as (_ & Hlen & H0).
  destruct (iterate_rule
    (fun s => (exists D, scan words D s /\ forall d, D0 < d <= D \/ D < d <= D0 -> word_bit words d = false) \/
              (pending words s /\ D0 = 0))
    (fun s => match (refill (it_derived s)).1 with
              | Some _ => 2 ^ 33
              | None => Z.max 0 (Z.of_nat (length words) - it_next s)
              end)
    (fun r : bool * bitset_doc_iterator R => exists D, scan words D r.2 /\ (forall d, D0 < d <= D \/ D < d <= D0 -> word_bit words d = false) /\
       if r.1 then it_word r.2 <> 0
       else it_word r.2 = 0 /\ it_doc r.2 = doc_limits.eof /\ forall d, D < d -> word_bit words d = false)
    bitset_it_round) with (k := 64%nat) (s := s) as ([b s1] & Hi & D & HS & Hgap & Hb).
  - clear s Hs. intros s Hs. split; [destruct (refill _).1; lia|]. destruct Hs as [(D & HS & Hgap)|[HP ->]].
    + destruct (bitset_round_scan words D s (source_fit _ Hok) HS) as (r & Hr & Hpost). exists r. split; [done|].
      destruct r as [s'|[b s']]; [|destruct b].
      * destruct Hpost as (E & Hlt & En & HS' & Hg). split.
        -- left. eexists. split; [exact HS'|]. intros d [Hd|Hd].
           ++ destruct (Z.le_gt_cases d D); [apply Hgap; lia|apply Hg; lia].
           ++ destruct (scan_low _ _ _ HS) as [HL|E0]; [apply Hgap; lia|]. subst D.
              destruct (Z.lt_trichotomy d 0) as [?|[->|?]]; [by apply word_bit_neg|done|apply Hgap; lia].
        -- pose proof (scan_drained _ _ _ HS) as Hd1. pose proof (scan_drained _ _ _ HS') as Hd2.
           unfold drained in *. rewrite Hd1, Hd2, En. lia.
      * destruct Hpost as [-> Hne]. exists D. done.
      * destruct Hpost as (HS' & E & Ed & Hg). exists D. done.
    + destruct HP as [Hr Hw Hn Hz]. unfold bitset_it_round. rewrite Hz, Hw, Hn. cbn [negb Z.eqb length Z.of_nat Z.leb].
      pose proof (refill_once (it_derived s)) as Ho. destruct (refill (it_derived s)) as [o r] eqn:Er.
      cbn in Hr, Ho. subst o. cbn. eexists. split; [done|]. cbn. split; [|rewrite Ho; lia].
      left. exists 0. split; [by apply scan_reset|]. intros d Hd. lia.
  - done.
  - change (2 ^ Z.of_nat 64) with (2 ^ 64).
    assert (0 <= it_next s) by (destruct Hs as [(D & HS & _)|[HP _]]; [apply HS|rewrite (pending_next _ _ HP); done]).
    destruct (refill _).1; lia.
  - unfold bitset_it_next. rewrite Hi. cbn [mbind option_bind fst snd] in *. destruct b; cbn [negb].
    + destruct (scan_found words D s1 (source_fit _ Hok) HS Hb) as (Hv & Hg & Ev & HS'). eexists. split; [|split].
      * do 2 f_equal. cbn [it_doc]. rewrite Ev. apply Hdocs in Hv. doc_lia.
      * eexists. split; [exact HS'|]. left. cbn [it_doc]. rewrite Ev. split; [done|]. apply Hdocs in Hv. doc_lia.
      * cbn [it_doc]. rewrite Ev. split.
        -- right. split; [|done]. apply Z.le_ngt. intros Hlt.
           rewrite Hgap in Hv; [done|]. pose proof (countr_zero_spec 64 _ (scan_word _ _ _ HS) Hb). lia.
        -- intros d Hd. destruct (Z.le_gt_cases d D); [apply Hgap; lia|apply Hg; lia].
    + destruct Hb as (E & Ed & Hg). exists s1. rewrite Ed. split; [done|]. split.
      * exists D. split; [done|]. right. split; [done|]. split; [done|]. intros d Hd.
        destruct (scan_low _ _ _ HS) as [HL|E0]; [apply Hg; lia|]. subst D.
        pose proof (scan_next _ _ _ HS). destruct (decide (d = 0)) as [->|]; [done|apply Hg; lia].
      * split; [by left|]. intros d Hd. destruct (Z.le_gt_cases d D); [apply Hgap; lia|apply Hg; lia].
Qed.

Definition bitset_it_matches s (P : Z -> bool) : Prop :=
  exists words, source_ok words /\ (forall d, P d = word_bit words d) /\ position P (it_doc s) /\
    (settled words s \/ (pending words s /\ it_doc s = doc_limits.invalid)).

(** Locating the word of a target. *)
Lemma bitset_locate_spec words s k : source_ok words -> settled words s \/ pending words s -> 0 <= k ->
  exists b s', iterate 64 (bitset_it_locate k) s = Some (b, s') /\ drained s' /\ it_words s' = words /\
    it_next s' = k /\
    if b then k < Z.of_nat (length words)
    else Z.of_nat (length words) <= k /\ it_doc s' = doc_limits.eof /\ it_word s' = 0.
Proof using HO.
  intros (Hok & Hlen & _) Hs Hk.
  destruct (iterate_rule
    (fun s => (drained s /\ it_words s = words) \/ pending words s)
    (fun s => match (refill (it_derived s)).1 with Some _ => 1 | None => 0 end)
    (fun r : bool * bitset_doc_iterator R => drained r.2 /\ it_words r.2 = words /\ it_next r.2 = k /\
      if r.1 then k < Z.of_nat (length words)
      else Z.of_nat (length words) <= k /\ it_doc r.2 = doc_limits.eof /\ it_word r.2 = 0)
    (bitset_it_locate k)) with (k := 64%nat) (s := s) as ([b s'] & Hi & H1 & H2 & H3 & H4).
  - clear s Hs. intros s Hs. split; [destruct (refill _).1; lia|]. unfold bitset_it_locate, drained.
    cbn [it_words it_derived it_doc]. destruct Hs as [[Hd Hw]|[Hr Hw _ _]]; rewrite Hw.
    + destruct (Z.leb_spec (Z.of_nat (length words)) k) as [Hge|Hlt].
      * unfold drained in Hd. pose proof (refill_once (it_derived s)) as Ho.
        destruct (refill (it_derived s)) as [o r]. cbn in Hd, Ho. subst o. eexists. split; [done|]. done.
      * eexists. split; [done|]. done.
    + cbn [length]. change (Z.of_nat 0) with 0. destruct (Z.leb_spec 0 k); [|lia].
      pose proof (refill_once (it_derived s)) as Ho. destruct (refill (it_derived s)) as [o r].
      cbn in Hr, Ho. subst o. eexists. split; [done|]. cbn. rewrite Ho. split; [by left|lia].
  - destruct Hs as [(D & HS & _)|]; [left; split; apply HS|by right].
  - change (2 ^ Z.of_nat 64) with (2 ^ 64). destruct (refill _).1; lia.
  - exists b, s'. done.
Qed.

Lemma bitset_it_seek_scan words t s : source_ok words -> settled words s \/ pending words s ->
  doc_limits.min <= t <= doc_limits.eof -> exists s',
  bitset_it_seek t s = Some (it_doc s', s') /\ settled words s' /\ first_from (word_bit words) t (it_doc s').
Proof using HO.
  intros Hok Hs Ht. pose proof Hok as (Hw & Hlen & H0). unfold bitset_it_seek.
  assert (0 <= t) as Ht0 by doc_lia.
  destruct (bitset_locate_spec words s (t / 64) Hok Hs ltac:(word_lia)) as (b & s1 & -> & Hd & Hw1 & Hn1 & Hb).
  cbn [mbind option_bind]. destruct b; cbn [negb].
  - set (s2 := {| it_doc := _ |}).
    assert (scan words (t - 1) s2) as HS.
    { constructor; cbn [it_doc it_words it_next it_word it_base it_derived s2]; try done.
      - rewrite Hn1. word_lia.
      - left. rewrite Hn1. word_lia.
      - pose proof (words_ok_at (it_words s1) (it_next s1) ltac:(by rewrite Hw1)) as Hx. unfold is_word in *.
        rewrite Z.shiftr_div_pow2 by word_lia. pose proof (pow2_pos (t mod 64) ltac:(word_lia)).
        split; [by apply Z.div_pos; lia|]. apply Z.div_lt_upper_bound; nia.
      - intros j Hj. rewrite Z.shiftr_spec by lia. rewrite Hw1, Hn1.
        replace (t - 1 + 1 + j) with (64 * (t / 64) + (j + t mod 64)) by word_lia.
        destruct (Z.lt_ge_cases (j + t mod 64) 64).
        + rewrite word_bit_word by word_lia. by replace (_ <? _) with true by lia.
        + rewrite (testbit_high 64) by (done || word_lia || by apply words_ok_at).
          by replace (_ <? _) with false by lia.
      - intros _. rewrite Hn1. f_equal. lia.
      - intros _. replace (wrap 32 (t / 64 * 64) - 1 + t mod 64) with
          (wrap 32 (t / 64 * 64) + (t mod 64 - 1)) by lia. rewrite wrap_add_l. f_equal. word_lia. }
    destruct (bitset_it_next_scan words (t - 1) Hok s2) as (s' & Hn & Hset & HF).
    { left. exists (t - 1). split; [done|]. intros d Hd'. lia. }
    replace (t - 1 + 1) with t in HF by lia. rewrite Hn. cbn [mbind option_bind]. by exists s'.
  - destruct Hb as (Hge & Ed & Ez). exists s1. split; [done|].
    assert (forall d, t <= d -> word_bit words d = false) as Hg by (intros d Hd'; apply word_bit_high; word_lia).
    split; [|rewrite Ed; split; [by left|intros; apply Hg; lia]].
    exists (64 * it_next s1 - 1). split.
    + constructor; rewrite ?Ez, ?Hn1; try done; try word_lia.
      intros j Hj. rewrite Z.bits_0. by replace (_ <? _) with false by lia.
    + right. split; [done|]. split; [done|]. intros d Hd'. rewrite Hn1 in Hd'. apply word_bit_high. word_lia.
Qed.

Lemma bitset_it_next_spec s P : bitset_it_matches s P -> exists s',
  bitset_it_next s = Some (negb (doc_limits.is_eof (it_doc s')), s') /\ bitset_it_matches s' P /\ first_from P (it_doc s + 1) (it_doc s').
Proof using HO.
  intros (words & Hok & HP & Hpos & Hs).
  destruct (bitset_it_next_scan words (it_doc s) Hok s) as (s' & Hn & Hset & HF).
  { destruct Hs as [(D & HS & HD)|[Hp Hd]]; [left|right; done]. exists D. split; [done|].
    destruct HD as [[-> ?]|(Ed & Ez & Hg)]; [lia|]. intros d [Hd|Hd].
    - rewrite Ed in Hd. destruct (word_bit words d) eqn:E; [|done]. apply source_docs in E; [lia|done].
    - destruct (Z.lt_ge_cases d (64 * it_next s)); [|by apply Hg].
      eapply scan_empty; [done|done|lia]. }
  assert (first_from P (it_doc s + 1) (it_doc s')) as HFP
    by (eapply first_from_ext; [|exact HF]; intros d; by rewrite HP).
  exists s'. split; [done|]. split; [|done]. exists words. split; [done|]. split; [done|].
  split; [by eapply first_from_position|by left].
Qed.

Lemma bitset_it_seek_spec s P t : bitset_it_matches s P -> doc_limits.min <= t <= doc_limits.eof -> exists s',
  bitset_it_seek t s = Some (it_doc s', s') /\ bitset_it_matches s' P /\ first_from P t (it_doc s').
Proof using HO.
  intros (words & Hok & HP & Hpos & Hs) Ht.
  destruct (bitset_it_seek_scan words t s Hok) as (s' & Hn & Hset & HF); [destruct Hs as [?|[? _]]; auto|done|].
  assert (first_from P t (it_doc s')) as HFP
    by (eapply first_from_ext; [|exact HF]; intros d; by rewrite HP).
  exists s'. split; [done|]. split; [|done]. exists words. split; [done|]. split; [done|].
  split; [by eapply first_from_position|by left].
Qed.

End scan.

#[export, program] Instance bitset_iterator_spec {R} {HR : Refill R} {HO : RefillOnce R} :
  DocIteratorSpec (bitset_doc_iterator R) := {
  matches := bitset_it_matches;
}.
Next Obligation.
  intros R HR HO s P (words & Hok & HP & _). eapply doc_set_ext; [intros d; symmetry; apply HP|].
  by apply source_docs.
Qed.
Next Obligation. intros R HR HO s P (words & Hok & HP & Hpos & _). exact Hpos. Qed.
Next Obligation.
  intros R HR HO s P Q (words & Hok & HP & Hpos & Hs) E. exists words. split; [done|].
  split; [intros d; by rewrite <-E|]. split; [by eapply position_ext|done].
Qed.
Next Obligation. intros. by apply bitset_it_next_spec. Qed.
Next Obligation. intros. by apply bitset_it_seek_spec. Qed.

#[export] Instance bitset_iterator_ready {R} {HR : Refill R} {HO : RefillOnce R} : SeekReady (bitset_doc_iterator R).
Proof. intros s P t [HM _] Ht. by apply bitset_it_seek_spec. Qed.

(** A fresh iterator over the words of a set stands before the first document, or at the end when
    the set is empty. *)
Lemma bitset_it_make_matches words : source_ok words -> bitset_it_matches (bitset_it_make words tt) (word_bit words).
Proof.
  intros Hok. pose proof Hok as (Hw & Hlen & H0). exists words. split; [done|]. split; [done|].
  assert (scan words 0 (bitset_it_make words tt)) as HS.
  { constructor; cbn; try done; try lia.
    intros j Hj. rewrite Z.bits_0. by destruct (Z.ltb_spec (0 + 1 + j) (64 * 0)); [lia|]. }
  unfold bitset_it_make in *. rewrite popcount_count in * by (done || lia).
  destruct (Z.eqb_spec (bits_count (word_bit words) (64 * length words)) 0) as [E|E]; cbn [it_doc bitset_it_reset].
  - split; [by right; left|]. left. exists 0. split; [done|]. right. split; [done|]. split; [done|].
    intros d Hd. destruct (Z.lt_ge_cases d (64 * Z.of_nat (length words))); [|by apply word_bit_high].
    cbn in Hd. eapply bits_count_zero; [exact E|lia].
  - split; [by left|]. left. exists 0. split; [done|]. left. split; [done|doc_lia].
Qed.

(** The lazily filled iterator. *)
Lemma lazy_it_matches words r : source_ok words -> (refill r).1 = Some words ->
  bitset_it_matches (bitset_it_empty (R := lazy_bitset) r) (word_bit words).
Proof.
  intros Hok Hr. exists words. split; [done|]. split; [done|]. split; [by left|]. right. done.
Qed.

(** ** Properties *)

(** C35: [dynamic_bitset] is a finite set of bit indices, whatever the allocator's memory holds:
    [test], [set], [unset], [reset] and [try_set] read and change one member; [resize] keeps the
    members below the new size and adds none, with or without reserving; [reset] empties the set;
    [count], [any], [all] and [operator==] are the cardinality, the existence of a member, fullness
    and equality of sets. *)
Theorem bitset_refines allocate b
  (Halloc : forall n, length (allocate n) = Z.to_nat n /\ words_ok (allocate n))
  (Hwf : bitset_wf b) :
  (forall i, 0 <= i < bitset.bits_ b ->
     bitset.test i b = bit_at b i /\
     (bitset_wf (bitset.set i b) /\ bitset.bits_ (bitset.set i b) = bitset.bits_ b /\
      forall j, 0 <= j -> bit_at (bitset.set i b) j = (j =? i) || bit_at b j) /\
     (bitset_wf (bitset.unset i b) /\ bitset.bits_ (bitset.unset i b) = bitset.bits_ b /\
      forall j, 0 <= j -> bit_at (bitset.unset i b) j = negb (j =? i) && bit_at b j) /\
     (forall v, bitset.reset_bit i v b = if v then bitset.set i b else bitset.unset i b) /\
     bitset.try_set i b = (negb (bit_at b i), if bit_at b i then b else bitset.set i b)) /\
  (forall Reserve bits, 0 <= bits <= 2 ^ 64 - 64 -> Reserve = true \/ bits <= 64 * bitset.capacity_words b ->
     bitset_wf (bitset.resize allocate Reserve bits b) /\
     bitset.bits_ (bitset.resize allocate Reserve bits b) = bits /\
     forall i, 0 <= i -> bit_at (bitset.resize allocate Reserve bits b) i = (i <? bits) && bit_at b i) /\
  (forall bits, 0 <= bits <= 2 ^ 64 - 64 ->
     bitset_wf (bitset.reset allocate bits b) /\
     bitset.bits_ (bitset.reset allocate bits b) = bits /\
     forall i, 0 <= i -> bit_at (bitset.reset allocate bits b) i = false) /\
  bitset.count b = bits_count (bit_at b) (Z.to_nat (bitset.bits_ b)) /\
  (bitset.any b = true <-> exists i, 0 <= i < bitset.bits_ b /\ bit_at b i = true) /\
  (bitset.all b = true <-> forall i, 0 <= i < bitset.bits_ b -> bit_at b i = true) /\
  (forall r, bitset_wf r -> (bitset.eqb b r = true <->
     bitset.bits_ b = bitset.bits_ r /\ forall i, 0 <= i -> bit_at b i = bit_at r i)).
Proof.
  split; [intros i Hi|]; [|split; [intros Reserve bits Hb HR|split; [intros bits Hb|]]].
  - split; [by apply bitset_test_spec|]. split; [by apply bitset_set_spec|].
    split; [by apply bitset_unset_spec|]. split; [intros v; by apply bitset_reset_bit_spec|].
    by apply bitset_try_set_spec.
  - by apply resize_spec.
  - apply reset_spec; [done|apply Hwf|done].
  - split; [by apply count_spec|]. split; [by apply any_spec|]. split; [by apply all_spec|].
    intros r Hr. by apply eqb_spec.
Qed.

Lemma bitset_refines_witness :
  let garbage n := replicate (Z.to_nat n) (2 ^ 64 - 1) in
  let b := bitset.set 70 (bitset.make garbage 100) in
  bitset_wf b /\ bitset.test 70 b = true /\ bitset.test 69 b = false /\
  (bitset.count b = bits_count (bit_at b) 100 /\ bitset.count b = 1).
Proof.
  intros garbage b.
  assert (forall n, length (garbage n) = Z.to_nat n /\ words_ok (garbage n)) as Ha.
  { intros n. unfold garbage. split; [apply length_replicate|]. apply Forall_replicate. unfold is_word. lia. }
  assert (bitset_wf b) as Hwf.
  { destruct (reset_spec garbage Ha 100 bitset.empty) as (H1 & H2 & _); [constructor|lia|].
    change (bitset.bits_ (bitset.make garbage 100) = 100) in H2.
    apply bitset_set_spec; [exact H1|rewrite H2; lia]. }
  split; [exact Hwf|]. split; [vm_compute; reflexivity|]. split; [vm_compute; reflexivity|].
  split; [|vm_compute; reflexivity].
  exact (proj1 (proj2 (proj2 (proj2 (bitset_refines garbage b Ha Hwf))))).
Defined.

(** C28: An iterator over a set of bits refines the cursor over the set: any calls of [next] and
    forward [seek] return what the cursor returns and terminate, for words given at construction
    and for words that [lazy_bitset_iterator::refill] fetches at the first call. *)
Theorem bitset_iterator_refines words cs vs (Hok : source_ok words)
  (Htrace : cursor_trace (word_bit words) doc_limits.invalid cs vs) :
  (Math.popcount words <> 0 -> exists s', run cs (bitset_it_make words tt) = Some (vs, s')) /\
  (forall r : lazy_bitset, (refill r).1 = Some words -> exists s', run cs (bitset_it_empty r) = Some (vs, s')).
Proof.
  split.
  - intros Hne. destruct (run_refines (word_bit words) cs (bitset_it_make words tt) vs) as (s' & Hr & _).
    + by apply bitset_it_make_matches.
    + cbn [value bitset_iterator]. unfold bitset_it_make.
      by destruct (Z.eqb_spec (Math.popcount words) 0).
    + by exists s'.
  - intros r Hr. destruct (run_refines (word_bit words) cs (bitset_it_empty r) vs) as (s' & Hs & _).
    + by apply lazy_it_matches.
    + done.
    + by exists s'.
Qed.

(** Documents 3, 64 and 130; a union of terms that sets them. *)
Lemma bitset_iterator_refines_witness :
  let words := [8; 1; 4] in
  let r := mkLazy 190 (Some (fun set => (3, words))) in
  source_ok words /\
  cursor_trace (word_bit words) doc_limits.invalid [Next; Seek 65; Next] [3; 130; doc_limits.eof] /\
  (exists s', run [Next; Seek 65; Next] (bitset_it_make words tt) = Some ([3; 130; doc_limits.eof], s')) /\
  (exists s', run [Next; Seek 65; Next] (bitset_it_empty r) = Some ([3; 130; doc_limits.eof], s')).
Proof.
  intros words r.
  assert (source_ok words) as Hok.
  { split; [|split; [vm_compute; discriminate|reflexivity]]. repeat constructor; unfold is_word; lia. }
  assert (cursor_trace (word_bit words) doc_limits.invalid [Next; Seek 65; Next] [3; 130; doc_limits.eof]) as HT.
  { apply (check_trace_sound 192); [intros d Hd; by apply word_bit_high|vm_compute; reflexivity]. }
  split; [exact Hok|]. split; [exact HT|]. split.
  - apply (bitset_iterator_refines words _ _ Hok HT). vm_compute. discriminate.
  - apply (bitset_iterator_refines words _ _ Hok HT). reflexivity.
Defined.
