(* ===== verification/Conjunction.v ===== *)
(** * Conjunctions and exclusions of document iterators

    [Conjunction] (core/search/conjunction.hpp): the first iterator leads, the others follow it;
    [exclusion] (core/search/exclusion.hpp): the documents of one iterator that another does not
    have. Both own their sub-iterators and are document iterators themselves: the laws of the
    parts give the laws of the whole. *)
From S2P Require Import Prelude DocIterators Bitset.

#[local] Obligation Tactic := idtac.

(** Iterations of a loop that moves a document forward. *)
Abbreviation doc_fuel := 33%nat (only parsing).

(** ** [Conjunction]: search/conjunction.hpp *)

Section definitions.
Context {S : Type} {D : DocIterator S}.

(** [itrs_], whose first element [front_] points to; [front_doc_] points to its document. *)
Record Conjunction := mkConj {
  front_ : S;
  rest_ : list S; (* itrs_.begin() + 1 .. itrs_.end() *)
}.

Definition Conjunction_value (c : Conjunction) : Z := value (front_ c).

(** The inner loop of [converge]: seeks the iterators behind the first one to the target, and
    stops at the first that has gone beyond it. *)
Fixpoint converge_others (target : Z) (its : list S) : option (list S * option Z) :=
  match its with
  | [] => Some ([], None)
  | it :: its =>
      '(doc, it) ← seek target it;
      if target <? doc then Some (it :: its, Some doc)
      else
        '(its, r) ← converge_others target its;
        Some (it :: its, r)
  end.

Definition converge_restart (st : Conjunction * Z) : option ((Conjunction * Z) + (Z * Conjunction)) :=
  let '(c, target) := st in
  '(rest, r) ← converge_others target (rest_ c);
  match r with
  | None => Some (inr (target, mkConj (front_ c) rest))
  | Some doc =>
      '(target, front) ← seek doc (front_ c);
      let c := mkConj front rest in
      if doc_limits.is_eof target then Some (inr (target, c)) else Some (inl (c, target))
  end.

Definition converge (target : Z) (c : Conjunction) : option (Z * Conjunction) :=
  iterate doc_fuel converge_restart (c, target).

Definition Conjunction_next (c : Conjunction) : option (bool * Conjunction) :=
  '(b, front) ← next (front_ c);
  let c := mkConj front (rest_ c) in
  if negb b then Some (false, c)
  else
    '(v, c) ← converge (value front) c;
    Some (negb (doc_limits.is_eof v), c).

Definition Conjunction_seek (target : Z) (c : Conjunction) : option (Z * Conjunction) :=
  '(target, front) ← seek target (front_ c);
  let c := mkConj front (rest_ c) in
  if doc_limits.is_eof target then Some (doc_limits.eof, c) else converge target c.

(** ** [exclusion]: search/exclusion.hpp *)

Record exclusion := mkExclusion { incl_ : S; excl_ : S }.

Definition exclusion_value (e : exclusion) : Z := value (incl_ e).

(** [if (excl < target) excl = excl_->seek(target)] *)
Definition excl_seek (target excl : Z) (e : exclusion) : option (Z * exclusion) :=
  if excl <? target then
    '(excl, x) ← seek target (excl_ e);
    Some (excl, mkExclusion (incl_ e) x)
  else Some (excl, e).

(** One round of the loop of the private [next]. *)
Definition exclusion_round (st : exclusion * (Z * Z)) : option ((exclusion * (Z * Z)) + (Z * exclusion)) :=
  let '(e, (target, excl)) := st in
  if negb (excl =? target) then Some (inr (target, e))
  else
    '(b, incl) ← next (incl_ e);
    let e := mkExclusion incl (excl_ e) in
    if negb b then Some (inr (value incl, e))
    else
      let target := value incl in
      '(excl, e) ← excl_seek target excl e;
      Some (inl (e, (target, excl))).

Definition exclusion_next_from (target : Z) (e : exclusion) : option (Z * exclusion) :=
  '(excl, e) ← excl_seek target (value (excl_ e)) e;
  iterate doc_fuel exclusion_round (e, (target, excl)).

Definition exclusion_next (e : exclusion) : option (bool * exclusion) :=
  '(b, incl) ← next (incl_ e);
  let e := mkExclusion incl (excl_ e) in
  if negb b then Some (false, e)
  else
    '(v, e) ← exclusion_next_from (value incl) e;
    Some (negb (doc_limits.is_eof v), e).

Definition exclusion_seek (target : Z) (e : exclusion) : option (Z * exclusion) :=
  if negb (doc_limits.valid target) then Some (value (incl_ e), e)
  else
    '(target, incl) ← seek target (incl_ e);
    let e := mkExclusion incl (excl_ e) in
    if doc_limits.is_eof target then Some (target, e) else exclusion_next_from target e.

End definitions.

Arguments Conjunction : clear implicits.
Arguments exclusion : clear implicits.

#[export] Instance conjunction_iterator {S} {D : DocIterator S} : DocIterator (Conjunction S) := {
  value := Conjunction_value;
  next := Conjunction_next;
  seek := Conjunction_seek;
}.

#[export] Instance exclusion_iterator {S} {D : DocIterator S} : DocIterator (exclusion S) := {
  value := exclusion_value;
  next := exclusion_next;
  seek := exclusion_seek;
}.

(** ** Correctness *)

(** Documents of all the sets. *)
Definition all_of (Ps : list (Z -> bool)) (d : Z) : bool := forallb (fun P => P d) Ps.

Lemma all_of_cons P Ps d : all_of (P :: Ps) d = P d && all_of Ps d.
Proof. done. Qed.

Section conjunction.
Context {S : Type} {D : DocIterator S} {L : DocIteratorSpec S}.
Implicit Types (c : Conjunction S) (its : list S) (P Q : Z -> bool).

(** An iterator behind the leading one. *)
Definition follower (target : Z) (it : S) (P : Z -> bool) : Prop := matches it P /\ value it <= target.

Lemma follower_mono t u it P : follower t it P -> t <= u -> follower u it P.
Proof. intros [? ?] ?. split; [done|lia]. Qed.

Lemma followers_mono t u its Ps : Forall2 (follower t) its Ps -> t <= u -> Forall2 (follower u) its Ps.
Proof. intros H ?. eapply Forall2_impl; [exact H|]. intros. by eapply follower_mono. Qed.

Lemma follower_seek t it P : follower t it P -> doc_limits.min <= t <= doc_limits.eof -> exists it',
  seek t it = Some (value it', it') /\ matches it' P /\ t <= value it' <= doc_limits.eof /\
  first_from P t (value it').
Proof.
  intros [HM Hv] Ht. destruct (seek_spec it P t HM Ht Hv) as (it' & Hs & HM' & HF).
  exists it'. repeat split; try done; try apply HF.
  - eapply first_from_ge; [exact HF|lia].
  - eapply first_from_le; [by eapply matches_docs|exact HF].
Qed.

Lemma converge_others_spec target its : forall Ps, Forall2 (follower target) its Ps ->
  doc_limits.min <= target < doc_limits.eof -> exists its' r,
  converge_others target its = Some (its', r) /\
  match r with
  | None => Forall2 (follower target) its' Ps /\ all_of Ps target = true
  | Some doc => target < doc <= doc_limits.eof /\ Forall2 (follower doc) its' Ps /\
                forall d, target <= d < doc -> all_of Ps d = false
  end.
Proof.
  induction its as [|it its IH]; intros Ps HF Ht; inversion HF as [|? P ? Ps' Hit Hits]; subst.
  { exists [], None. cbn. repeat split. constructor. }
  destruct (follower_seek target it P Hit ltac:(lia)) as (it' & Hs & HM & Hr & HP).
  cbn [converge_others]. rewrite Hs. cbn [mbind option_bind].
  destruct (Z.ltb_spec target (value it')) as [Hlt|Hge].
  - eexists _, _. split; [done|]. split; [lia|]. split.
    + constructor; [split; [done|lia]|]. eapply followers_mono; [done|lia].
    + intros d Hd. rewrite all_of_cons. destruct HP as [_ ->]; [done|lia].
  - assert (value it' = target) as E by lia.
    destruct (IH Ps' Hits Ht) as (its' & r & Hc & Hpost). rewrite Hc. cbn [mbind option_bind].
    eexists _, r. split; [done|]. destruct r as [doc|].
    + destruct Hpost as (Hdoc & Hits' & Hgap). split; [done|]. split.
      * constructor; [split; [done|lia]|done].
      * intros d Hd. rewrite all_of_cons, (Hgap d Hd). by rewrite andb_false_r.
    + destruct Hpost as (Hits' & Hall). split; [constructor; [split; [done|lia]|done]|].
      rewrite all_of_cons, Hall, andb_true_r.
      destruct HP as [[?|[_ HP]] _]; [lia|]. by rewrite <-E.
Qed.

(** The leading iterator stands on [t], a document of its own, and the others are not beyond it. *)
Definition aligned (P0 : Z -> bool) (Ps : list (Z -> bool)) (t : Z) c : Prop :=
  matches (front_ c) P0 /\ value (front_ c) = t /\ Forall2 (follower t) (rest_ c) Ps.

Lemma aligned_hit P0 Ps t c : aligned P0 Ps t c -> doc_limits.min <= t < doc_limits.eof -> P0 t = true.
Proof.
  intros (HM & <- & _) Ht. destruct (matches_position _ _ HM) as [E|[E|?]]; [doc_lia|doc_lia|done].
Qed.

Lemma converge_spec P0 Ps t c : aligned P0 Ps t c -> doc_limits.min <= t < doc_limits.eof ->
  exists c', converge t c = Some (Conjunction_value c', c') /\
    aligned P0 Ps (Conjunction_value c') c' /\
    first_from (all_of (P0 :: Ps)) t (Conjunction_value c').
Proof.
  intros HA Ht.
  destruct (iterate_rule
    (fun st => aligned P0 Ps st.2 st.1 /\ t <= st.2 < doc_limits.eof /\
               forall d, t <= d < st.2 -> all_of (P0 :: Ps) d = false)
    (fun st => doc_limits.eof - st.2)
    (fun r => r.1 = Conjunction_value r.2 /\ aligned P0 Ps r.1 r.2 /\
              first_from (all_of (P0 :: Ps)) t r.1)
    converge_restart) with (k := doc_fuel) (s := (c, t)) as ([v c'] & Hi & Hv & HA' & HF).
  - intros [c1 u] (HA1 & Hu & Hgap). cbn [fst snd] in *. split; [lia|]. unfold converge_restart.
    pose proof (aligned_hit _ _ _ _ HA1 ltac:(lia)) as Hhit. destruct HA1 as (HM & E & HFs).
    destruct (converge_others_spec u (rest_ c1) Ps HFs ltac:(lia)) as (rest & r & -> & Hr).
    cbn [mbind option_bind]. destruct r as [doc|].
    + destruct Hr as (Hdoc & Hrest & Hg).
      destruct (follower_seek doc (front_ c1) P0 ltac:(split; [done|lia]) ltac:(lia))
        as (front & -> & HMf & Hvf & HFf).
      cbn [mbind option_bind].
      assert (forall d, t <= d < value front -> all_of (P0 :: Ps) d = false) as Hgap'.
      { intros d Hd. destruct (Z.lt_ge_cases d u); [apply Hgap; lia|]. rewrite all_of_cons.
        destruct (Z.lt_ge_cases d doc); [|destruct HFf as [_ ->]; [done|lia]].
        rewrite Hg by lia. apply andb_false_r. }
      destruct (doc_limits.is_eof (value front)) eqn:Ee; eexists; (split; [done|]); cbn [fst snd].
      * apply is_eof_spec in Ee. split; [done|]. split; [|by split; [left|]].
        split; [done|]. split; [done|]. eapply followers_mono; [done|lia].
      * assert (value front <> doc_limits.eof) by (rewrite <-is_eof_spec; congruence).
        split; [|lia]. split; [|split; [lia|done]]. split; [done|]. split; [done|].
        eapply followers_mono; [done|lia].
    + destruct Hr as (Hrest & Hall). eexists. split; [done|]. cbn [fst snd].
      split; [done|]. split; [done|]. split; [right; split; [lia|]|done].
      by rewrite all_of_cons, Hhit, Hall.
  - cbn [fst snd]. split; [done|]. split; [lia|]. intros d Hd. lia.
  - cbn [fst snd]. doc_lia.
  - cbn [fst snd] in *. subst v. exists c'. done.
Qed.

Definition Conjunction_matches c (P : Z -> bool) : Prop :=
  exists P0 Ps, aligned P0 Ps (Conjunction_value c) c /\ position P (Conjunction_value c) /\
    forall d, P d = all_of (P0 :: Ps) d.

Lemma Conjunction_docs c P : Conjunction_matches c P -> doc_set P.
Proof.
  intros (P0 & Ps & (HM & _) & _ & HP) d. rewrite HP, all_of_cons. intros [? _]%andb_true_iff.
  by eapply matches_docs.
Qed.

Lemma Conjunction_matches_intro c P0 Ps P t :
  aligned P0 Ps (Conjunction_value c) c -> first_from (all_of (P0 :: Ps)) t (Conjunction_value c) ->
  (forall d, P d = all_of (P0 :: Ps) d) -> Conjunction_matches c P.
Proof.
  intros HA HF HP. exists P0, Ps. repeat split; try done; try apply HA.
  eapply position_ext; [intros d; symmetry; apply HP|]. by eapply first_from_position.
Qed.

(** After the leading iterator has moved to a first document from [t], convergence yields the first
    common document from [t]. *)
Lemma Conjunction_step P0 Ps P t front rest : matches front P0 -> first_from P0 t (value front) ->
  Forall2 (follower (value front)) rest Ps -> doc_limits.min <= t -> value front <> doc_limits.eof ->
  (forall d, P d = all_of (P0 :: Ps) d) ->
  exists c', converge (value front) (mkConj front rest) = Some (Conjunction_value c', c') /\
    Conjunction_matches c' P /\ first_from P t (Conjunction_value c').
Proof.
  intros HM HF0 HFs Ht Hne HP. pose proof (matches_range _ _ HM).
  destruct (converge_spec P0 Ps (value front) (mkConj front rest)) as (c' & Hc & HA & HF).
  { split; [done|]. done. }
  { destruct HF0 as [[?|[? ?]] _]; [done|lia]. }
  exists c'. split; [done|]. split; [by eapply Conjunction_matches_intro|].
  eapply first_from_ext; [intros d; symmetry; apply HP|].
  eapply first_from_shift; [done| |eapply first_from_ge; [exact HF0|]].
  - intros d Hd. rewrite all_of_cons. destruct HF0 as [_ ->]; [done|lia].
  - destruct HF0 as [[?|[? ?]] _]; lia.
Qed.

Lemma Conjunction_seek_spec c P t : Conjunction_matches c P ->
  doc_limits.min <= t <= doc_limits.eof -> Conjunction_value c <= t -> exists c',
  Conjunction_seek t c = Some (Conjunction_value c', c') /\ Conjunction_matches c' P /\
  first_from P t (Conjunction_value c').
Proof.
  intros (P0 & Ps & (HM & _ & HFs) & _ & HP) Ht Hle. unfold Conjunction_value, Conjunction_seek in *.
  destruct (seek_spec _ _ t HM Ht Hle) as (front & -> & HM' & HF). cbn [mbind option_bind].
  assert (Forall2 (follower (value front)) (rest_ c) Ps) as HFs'.
  { eapply followers_mono; [done|]. pose proof (first_from_ge _ _ _ HF). lia. }
  destruct (doc_limits.is_eof (value front)) eqn:E.
  - apply is_eof_spec in E. exists (mkConj front (rest_ c)). cbn [front_]. rewrite E. split; [done|].
    assert (first_from P t (value front)) as HFP.
    { eapply first_from_ext; [intros d; symmetry; apply HP|]. split; [by left|]. intros d Hd.
      rewrite all_of_cons. destruct HF as [_ ->]; [done|lia]. }
    rewrite E in HFP. split; [|done]. exists P0, Ps. unfold Conjunction_value. cbn [front_].
    split; [split; [done|]; split; done|]. split; [|done]. right. by left.
  - apply (Conjunction_step P0 Ps); try done; [lia|]. rewrite <-is_eof_spec. congruence.
Qed.

Lemma Conjunction_next_spec c P : Conjunction_matches c P -> exists c',
  Conjunction_next c = Some (negb (doc_limits.is_eof (Conjunction_value c')), c') /\
  Conjunction_matches c' P /\ first_from P (Conjunction_value c + 1) (Conjunction_value c').
Proof.
  intros (P0 & Ps & (HM & _ & HFs) & _ & HP). unfold Conjunction_value, Conjunction_next in *.
  destruct (next_spec _ _ HM) as (front & -> & HM' & HF). cbn [mbind option_bind].
  pose proof (matches_range _ _ HM) as Hr. pose proof (matches_range _ _ HM').
  assert (Forall2 (follower (value front)) (rest_ c) Ps) as HFs'.
  { eapply followers_mono; [done|]. destruct HF as [[->|[? ?]] _]; lia. }
  rewrite negb_involutive. destruct (doc_limits.is_eof (value front)) eqn:E.
  - apply is_eof_spec in E. exists (mkConj front (rest_ c)). cbn [front_]. rewrite E.
    rewrite (proj2 (is_eof_spec _) eq_refl). split; [done|].
    assert (first_from P (value (front_ c) + 1) (value front)) as HFP.
    { eapply first_from_ext; [intros d; symmetry; apply HP|]. split; [by left|]. intros d Hd.
      rewrite all_of_cons. destruct HF as [_ ->]; [done|lia]. }
    rewrite E in HFP. split; [|done]. exists P0, Ps. unfold Conjunction_value. cbn [front_].
    split; [split; [done|]; split; done|]. split; [|done]. right. by left.
  - destruct (Conjunction_step P0 Ps P (value (front_ c) + 1) front (rest_ c)) as (c' & -> & HM'' & HF'');
      try done; [doc_lia|rewrite <-is_eof_spec; congruence|].
    exists c'. done.
Qed.

(** A fresh conjunction of fresh iterators. *)
Lemma Conjunction_fresh front rest P0 Ps : matches front P0 -> value front = doc_limits.invalid ->
  Forall2 (fun it P => matches it P /\ value it = doc_limits.invalid) rest Ps ->
  Conjunction_matches (mkConj front rest) (all_of (P0 :: Ps)).
Proof.
  intros HM E HF. exists P0, Ps. unfold Conjunction_value. cbn [front_]. rewrite E.
  split; [|split; [by left|done]]. split; [done|]. split; [done|].
  eapply Forall2_impl; [exact HF|]. intros it P [? ?]. split; [done|lia].
Qed.

End conjunction.

#[export, program] Instance conjunction_iterator_spec {S} {D : DocIterator S} {L : DocIteratorSpec S} :
  DocIteratorSpec (Conjunction S) := {
  matches := Conjunction_matches;
}.
Next Obligation. intros. by eapply Conjunction_docs. Qed.
Next Obligation. intros S D L c P (? & ? & _ & ? & _). done. Qed.
Next Obligation.
  intros S D L c P Q (P0 & Ps & HA & Hpos & HP) E. exists P0, Ps. split; [done|].
  split; [by eapply position_ext|]. intros d. by rewrite <-E, HP.
Qed.
Next Obligation. intros. by apply Conjunction_next_spec. Qed.
Next Obligation. intros. by apply Conjunction_seek_spec. Qed.

(** ** Exclusion *)

(** Documents of one set that another does not have. *)
Definition all_but (P Q : Z -> bool) (d : Z) : bool := P d && negb (Q d).

Section exclusion.
Context {S : Type} {D : DocIterator S} {L : DocIteratorSpec S}.
Implicit Types (e : exclusion S) (P Q : Z -> bool).

(** The included iterator stands on [t], the excluded one on [x], its first document from [t] or
    somewhere before [t]. *)
Definition facing P Q (t x : Z) e : Prop :=
  matches (incl_ e) P /\ value (incl_ e) = t /\ matches (excl_ e) Q /\ value (excl_ e) = x /\
  forall d, t <= d < x -> Q d = false.

Lemma excl_seek_spec P Q t x e : facing P Q t x e -> doc_limits.min <= t <= doc_limits.eof ->
  exists x' e', excl_seek t x e = Some (x', e') /\ facing P Q t x' e' /\ t <= x'.
Proof.
  intros (HP & Hv & HQ & Hx & Hg) Ht. unfold excl_seek. destruct (Z.ltb_spec x t).
  - destruct (seek_spec _ _ t HQ Ht ltac:(lia)) as (q & -> & HQ' & HF). cbn [mbind option_bind].
    eexists _, _. split; [done|]. split; [|eapply first_from_ge; [exact HF|lia]].
    repeat split; try done. intros d Hd. by apply HF.
  - exists x, e. repeat split; try done.
Qed.

Lemma facing_excluded P Q t x e : facing P Q t x e -> t <= x -> doc_limits.min <= t < doc_limits.eof ->
  Q t = (x =? t).
Proof.
  intros (HP & Hv & HQ & Hx & Hg) Hle Ht. destruct (Z.eqb_spec x t) as [->|Hne].
  - destruct (matches_position _ _ HQ) as [E|[E|E]]; [doc_lia|doc_lia|by rewrite <-Hx].
  - apply Hg. lia.
Qed.

Definition exclusion_matches e (P : Z -> bool) : Prop :=
  exists Pi Pe x, facing Pi Pe (exclusion_value e) x e /\ position P (exclusion_value e) /\
    forall d, P d = all_but Pi Pe d.

Lemma exclusion_docs e P : exclusion_matches e P -> doc_set P.
Proof.
  intros (Pi & Pe & x & (HM & _) & _ & HP) d. rewrite HP. intros [? _]%andb_true_iff.
  by eapply matches_docs.
Qed.

Lemma exclusion_matches_intro e Pi Pe P t x : facing Pi Pe (exclusion_value e) x e ->
  first_from P t (exclusion_value e) -> (forall d, P d = all_but Pi Pe d) -> exclusion_matches e P.
Proof.
  intros HA HF HP. exists Pi, Pe, x. split; [done|]. split; [|done]. by eapply first_from_position.
Qed.

(** Moving the included iterator forward keeps the two iterators facing each other. *)
Lemma facing_incl_forward P Q t x e p : facing P Q t x e -> matches p P -> t <= value p ->
  facing P Q (value p) x (mkExclusion p (excl_ e)).
Proof.
  intros (HP & Hv & HQ & Hx & Hg) HM Hle. repeat split; try done. intros d Hd. apply Hg. lia.
Qed.

Lemma exclusion_loop Pi Pe t e x : facing Pi Pe t x e -> t <= x -> doc_limits.min <= t < doc_limits.eof ->
  Pi t = true -> exists e' x', iterate doc_fuel exclusion_round (e, (t, x)) = Some (exclusion_value e', e') /\
    facing Pi Pe (exclusion_value e') x' e' /\ first_from (all_but Pi Pe) t (exclusion_value e').
Proof.
  intros HA Hx Ht Hhit.
  destruct (iterate_rule
    (fun st => facing Pi Pe st.2.1 st.2.2 st.1 /\ t <= st.2.1 < doc_limits.eof /\ st.2.1 <= st.2.2 /\
               Pi st.2.1 = true /\ forall d, t <= d < st.2.1 -> all_but Pi Pe d = false)
    (fun st => doc_limits.eof - st.2.1)
    (fun r => r.1 = exclusion_value r.2 /\ (exists x', facing Pi Pe r.1 x' r.2) /\
              first_from (all_but Pi Pe) t r.1)
    exclusion_round) with (k := doc_fuel) (s := (e, (t, x))) as ([v e'] & Hi & Hv & [x' HA'] & HF).
  - intros [e1 [u y]] (HA1 & Hu & Huy & Hhit1 & Hgap). cbn [fst snd] in *. split; [lia|].
    pose proof (facing_excluded _ _ _ _ _ HA1 Huy ltac:(lia)) as Hex. unfold exclusion_round.
    destruct (Z.eqb_spec y u) as [->|Hne]; cbn [negb].
    + pose proof HA1 as (HP & Hvu & _). destruct (next_spec _ _ HP) as (p & -> & HM & HF).
      cbn [mbind option_bind]. rewrite negb_involutive. rewrite Hvu in HF.
      assert (u + 1 <= value p) as Hle by (eapply first_from_ge; [exact HF|lia]).
      assert (facing Pi Pe (value p) u (mkExclusion p (excl_ e1))) as HA2
        by (eapply facing_incl_forward; [done|done|lia]).
      assert (forall d, t <= d < value p -> all_but Pi Pe d = false) as Hgap'.
      { intros d Hd. destruct (Z.lt_trichotomy d u) as [?|[->|?]]; [apply Hgap; lia| |].
        - unfold all_but. by rewrite Hex, andb_false_r.
        - unfold all_but. destruct HF as [_ ->]; [done|lia]. }
      destruct (doc_limits.is_eof (value p)) eqn:E.
      * apply is_eof_spec in E. eexists. split; [done|]. cbn [fst snd].
        split; [done|]. split; [by eexists|]. by split; [left|].
      * assert (value p <> doc_limits.eof) by (rewrite <-is_eof_spec; congruence).
        pose proof (matches_range _ _ HM).
        destruct (excl_seek_spec _ _ _ _ _ HA2 ltac:(doc_lia)) as (y' & e2 & -> & HA3 & Hy).
        cbn [mbind option_bind]. eexists. split; [done|]. cbn [fst snd]. split; [|lia].
        split; [done|]. split; [lia|]. split; [done|]. split; [|done].
        destruct HF as [[?|[_ ?]] _]; done.
    + eexists. split; [done|]. cbn [fst snd]. pose proof HA1 as (_ & Hvu & _).
      split; [done|]. split; [by exists y|]. split; [|done]. right. split; [lia|].
      unfold all_but. by rewrite Hhit1, Hex.
  - cbn [fst snd]. split; [done|]. split; [lia|]. split; [done|]. split; [done|]. intros d Hd. lia.
  - cbn [fst snd]. doc_lia.
  - cbn [fst snd] in *. subst v. exists e', x'. done.
Qed.

(** After the included iterator has moved to a first document of its own from [t]. *)
Lemma exclusion_step Pi Pe P t e x p : facing Pi Pe (exclusion_value e) x e -> matches p Pi ->
  first_from Pi t (value p) -> exclusion_value e <= value p -> doc_limits.min <= t ->
  value p <> doc_limits.eof -> (forall d, P d = all_but Pi Pe d) ->
  exists e', exclusion_next_from (value p) (mkExclusion p (excl_ e)) = Some (exclusion_value e', e') /\
    exclusion_matches e' P /\ first_from P t (exclusion_value e').
Proof.
  intros HA HM HF Hle Ht Hne HP. unfold exclusion_next_from. cbn [excl_].
  pose proof (matches_range _ _ HM).
  assert (t <= value p /\ Pi (value p) = true) as [Htp Hhit] by (destruct HF as [[?|?] _]; done).
  pose proof (facing_incl_forward _ _ _ _ _ p HA HM Hle) as HA'.
  pose proof HA' as (_ & _ & _ & Hx & _). cbn [excl_] in Hx. rewrite Hx.
  destruct (excl_seek_spec _ _ _ _ _ HA' ltac:(doc_lia)) as (x' & e1 & -> & HA1 & Hx').
  cbn [mbind option_bind].
  destruct (exclusion_loop Pi Pe (value p) e1 x') as (e' & x2 & -> & HA2 & HF2); try done; [doc_lia|].
  assert (first_from P t (exclusion_value e')) as HFP.
  { eapply first_from_ext; [intros d; symmetry; apply HP|].
    eapply first_from_shift; [done| |done]. intros d Hd. unfold all_but.
    destruct HF as [_ ->]; [done|lia]. }
  exists e'. split; [done|]. split; [|done]. by eapply exclusion_matches_intro.
Qed.

(** When the included iterator is exhausted, so is the exclusion. *)
Lemma exclusion_exhausted Pi Pe P t e x p : facing Pi Pe (exclusion_value e) x e -> matches p Pi ->
  first_from Pi t (value p) -> exclusion_value e <= value p -> value p = doc_limits.eof ->
  (forall d, P d = all_but Pi Pe d) ->
  exclusion_matches (mkExclusion p (excl_ e)) P /\ first_from P t (value p).
Proof.
  intros HA HM HF Hle E HP.
  assert (first_from P t (value p)) as HFP.
  { split; [by left|]. intros d Hd. rewrite HP. unfold all_but. destruct HF as [_ ->]; [done|lia]. }
  split; [|done]. eapply exclusion_matches_intro; [|exact HFP|done].
  by eapply facing_incl_forward.
Qed.

Lemma exclusion_next_spec e P : exclusion_matches e P -> exists e',
  exclusion_next e = Some (negb (doc_limits.is_eof (exclusion_value e')), e') /\
  exclusion_matches e' P /\ first_from P (exclusion_value e + 1) (exclusion_value e').
Proof.
  intros (Pi & Pe & x & HA & _ & HP). pose proof HA as (HM & _). unfold exclusion_next.
  destruct (next_spec _ _ HM) as (p & -> & HM' & HF). cbn [mbind option_bind].
  rewrite negb_involutive. pose proof (matches_range _ _ HM). pose proof (matches_range _ _ HM').
  assert (exclusion_value e <= value p) as Hle.
  { unfold exclusion_value. destruct HF as [[->|[? _]] _]; lia. }
  destruct (doc_limits.is_eof (value p)) eqn:E.
  - pose proof E as E'. apply is_eof_spec in E'.
    destruct (exclusion_exhausted Pi Pe P (exclusion_value e + 1) e x p) as [HX HFP]; try done.
    eexists. split; [|split; [exact HX|exact HFP]]. unfold exclusion_value. cbn [incl_]. by rewrite E.
  - assert (value p <> doc_limits.eof) by (rewrite <-is_eof_spec; congruence).
    destruct (exclusion_step Pi Pe P (exclusion_value e + 1) e x p) as (e' & -> & HX); try done.
    + unfold exclusion_value. doc_lia.
    + exists e'. done.
Qed.

Lemma exclusion_seek_spec e P t : exclusion_matches e P ->
  doc_limits.min <= t <= doc_limits.eof -> exclusion_value e <= t -> exists e',
  exclusion_seek t e = Some (exclusion_value e', e') /\ exclusion_matches e' P /\
  first_from P t (exclusion_value e').
Proof.
  intros (Pi & Pe & x & HA & _ & HP) Ht Hle. pose proof HA as (HM & _). unfold exclusion_seek.
  replace (doc_limits.valid t) with true by doc_lia. cbn [negb].
  destruct (seek_spec _ _ t HM Ht Hle) as (p & -> & HM' & HF). cbn [mbind option_bind].
  assert (exclusion_value e <= value p) as Hle'.
  { pose proof (first_from_ge _ _ _ HF). lia. }
  destruct (doc_limits.is_eof (value p)) eqn:E.
  - apply is_eof_spec in E. destruct (exclusion_exhausted Pi Pe P t e x p) as [HX HFP]; try done.
    exists (mkExclusion p (excl_ e)). split; [done|]. split; [exact HX|exact HFP].
  - assert (value p <> doc_limits.eof) by (rewrite <-is_eof_spec; congruence).
    apply (exclusion_step Pi Pe P t e x p); try done. lia.
Qed.

(** A fresh exclusion. *)
Lemma exclusion_fresh incl excl P Q : matches incl P -> value incl = doc_limits.invalid ->
  matches excl Q -> value excl = doc_limits.invalid -> exclusion_matches (mkExclusion incl excl) (all_but P Q).
Proof.
  intros HP Hi HQ He. exists P, Q, doc_limits.invalid. unfold exclusion_value. cbn [incl_]. rewrite Hi.
  split; [|split; [by left|done]]. repeat split; try done. intros d Hd. lia.
Qed.

End exclusion.

#[export, program] Instance exclusion_iterator_spec {S} {D : DocIterator S} {L : DocIteratorSpec S} :
  DocIteratorSpec (exclusion S) := {
  matches := exclusion_matches;
}.
Next Obligation. intros. by eapply exclusion_docs. Qed.
Next Obligation. intros S D L e P (Pi & Pe & x & HA & Hpos & HP). exact Hpos. Qed.
Next Obligation.
  intros S D L e P Q (Pi & Pe & x & HA & Hpos & HP) E. exists Pi, Pe, x. split; [done|].
  split; [by eapply position_ext|]. intros d. by rewrite <-E, HP.
Qed.
Next Obligation. intros. by apply exclusion_next_spec. Qed.
Next Obligation. intros. by apply exclusion_seek_spec. Qed.

(** ** Properties *)

(** C4: A conjunction refines the cursor over the documents its iterators share: whatever the
    iterators, any calls of [next] and forward [seek] return what that cursor returns, and
    [converge] terminates. *)
Theorem conjunction_refines {S} {D : DocIterator S} {L : DocIteratorSpec S} front rest P0 Ps cs vs
  (Hfront : matches front P0 /\ value front = doc_limits.invalid)
  (Hrest : Forall2 (fun it P => matches it P /\ value it = doc_limits.invalid) rest Ps)
  (Htrace : cursor_trace (all_of (P0 :: Ps)) doc_limits.invalid cs vs) :
  exists c, run cs (mkConj front rest) = Some (vs, c).
Proof.
  destruct Hfront as [HM Hv].
  destruct (run_refines (all_of (P0 :: Ps)) cs (mkConj front rest) vs) as (c & Hr & _).
  - by apply Conjunction_fresh.
  - cbn [value conjunction_iterator]. unfold Conjunction_value. cbn [front_]. by rewrite Hv.
  - by exists c.
Qed.

(** Three sets of documents, as words. *)
Definition sample_a : list Z := [2 ^ 1 + 2 ^ 5 + 2 ^ 9 + 2 ^ 40; 2 ^ 0 + 2 ^ 7; 2 ^ 63].
Definition sample_b : list Z := [2 ^ 5 + 2 ^ 8 + 2 ^ 40 + 2 ^ 41; 2 ^ 7; 2 ^ 1 + 2 ^ 63].
Definition sample_c : list Z := [2 ^ 2 + 2 ^ 5 + 2 ^ 40; 2 ^ 7 + 2 ^ 8].

Lemma sample_ok words : words = sample_a \/ words = sample_b \/ words = sample_c ->
  matches (bitset_it_make words tt) (word_bit words) /\
  value (bitset_it_make words tt) = doc_limits.invalid /\ forall d, 192 <= d -> word_bit words d = false.
Proof.
  intros Hw. assert (source_ok words) as Hok.
  { destruct Hw as [->|[->| ->]]; (split; [repeat constructor; vm_compute; intuition discriminate|]);
      (split; [vm_compute; discriminate|reflexivity]). }
  split; [by apply bitset_it_make_matches|]. split; [by destruct Hw as [->|[->| ->]]|].
  intros d Hd. apply word_bit_high. destruct Hw as [->|[->| ->]]; cbn [length sample_a sample_b sample_c]; lia.
Qed.

Lemma conjunction_refines_witness :
  let it words := bitset_it_make words tt in
  exists c, run [Next; Next; Seek 50; Next] (mkConj (it sample_a) [it sample_b; it sample_c]) =
    Some ([5; 40; 71; doc_limits.eof], c).
Proof.
  apply (conjunction_refines _ _ (word_bit sample_a) [word_bit sample_b; word_bit sample_c]).
  - destruct (sample_ok sample_a) as (? & ? & _); auto.
  - repeat constructor; eapply sample_ok; auto.
  - apply (check_trace_sound 192); [|vm_compute; reflexivity]. intros d Hd. rewrite all_of_cons.
    by rewrite (proj2 (proj2 (sample_ok sample_a ltac:(auto)))) by done.
Defined.

(** C5: An exclusion refines the cursor over the documents of the included iterator that the
    excluded one does not have, and always terminates. *)
Theorem exclusion_refines {S} {D : DocIterator S} {L : DocIteratorSpec S} incl excl P Q cs vs
  (Hincl : matches incl P /\ value incl = doc_limits.invalid)
  (Hexcl : matches excl Q /\ value excl = doc_limits.invalid)
  (Htrace : cursor_trace (all_but P Q) doc_limits.invalid cs vs) :
  exists e, run cs (mkExclusion incl excl) = Some (vs, e).
Proof.
  destruct Hincl as [HP Hi], Hexcl as [HQ He].
  destruct (run_refines (all_but P Q) cs (mkExclusion incl excl) vs) as (e & Hr & _).
  - by apply exclusion_fresh.
  - cbn [value exclusion_iterator]. unfold exclusion_value. cbn [incl_]. by rewrite Hi.
  - by exists e.
Qed.

Lemma exclusion_refines_witness :
  let it words := bitset_it_make words tt in
  exists e, run [Next; Next; Seek 30; Next] (mkExclusion (it sample_a) (it sample_c)) =
    Some ([1; 9; 64; 191], e).
Proof.
  apply (exclusion_refines _ _ (word_bit sample_a) (word_bit sample_c)).
  - destruct (sample_ok sample_a) as (? & ? & _); auto.
  - destruct (sample_ok sample_c) as (? & ? & _); auto.
  - apply (check_trace_sound 192); [|vm_compute; reflexivity]. intros d Hd. unfold all_but.
    by rewrite (proj2 (proj2 (sample_ok sample_a ltac:(auto)))) by done.
Defined.
