(* ===== verification/Disjunction.v ===== *)
(** * Disjunctions over few iterators

    [unary_disjunction], [basic_disjunction] and [small_disjunction] of core/search/disjunction.hpp:
    the documents of any of the sub-iterators. Sub-iterators may lag behind the current document
    after a [seek] that found its target early; [visit] catches up with them. *)
From S2P Require Import Prelude DocIterators Bitset Conjunction.

#[local] Obligation Tactic := idtac.

(** [std::swap] of two elements of a vector *)
Definition swap {A} (i j : nat) (l : list A) : list A :=
  match l !! i, l !! j with
  | Some x, Some y => <[i := y]> (<[j := x]> l)
  | _, _ => l
  end.

(** An adapter: an iterator, and whether its score is the default one. *)
Abbreviation adapter S := (S * bool)%type.

Section definitions.
Context {S : Type} {D : DocIterator S}.

(** ** [unary_disjunction] *)

Record unary_disjunction := mkUnary { unary_it : S }.

Definition unary_visit (visitor : S -> bool) (u : unary_disjunction) : list S := [unary_it u].

(** ** [basic_disjunction] *)

Record basic_disjunction := mkBasic {
  lhs_ : S;
  rhs_ : S;
  basic_doc : Z;
}.

Definition basic_make (lhs rhs : S) : basic_disjunction :=
  {| lhs_ := lhs; rhs_ := rhs; basic_doc := doc_limits.invalid |}.

Definition basic_next_iterator (doc : Z) (it : S) : option S :=
  let v := value it in
  if doc =? v then '(_, it) ← next it; Some it
  else if v <? doc then '(_, it) ← seek (doc +[32] Z.b2z (negb (doc_limits.is_eof doc))) it; Some it
  else Some it.

Definition basic_seek_iterator (target : Z) (it : S) : option (bool * S) :=
  if value it <? target then '(v, it) ← seek target it; Some (target =? v, it)
  else Some (false, it).

Definition basic_next (b : basic_disjunction) : option (bool * basic_disjunction) :=
  lhs ← basic_next_iterator (basic_doc b) (lhs_ b);
  rhs ← basic_next_iterator (basic_doc b) (rhs_ b);
  let doc := Z.min (value lhs) (value rhs) in
  Some (negb (doc_limits.is_eof doc), mkBasic lhs rhs doc).

Definition basic_seek (target : Z) (b : basic_disjunction) : option (Z * basic_disjunction) :=
  if target <=? basic_doc b then Some (basic_doc b, b)
  else
    '(hit, lhs) ← basic_seek_iterator target (lhs_ b);
    if hit : bool then Some (target, mkBasic lhs (rhs_ b) target)
    else
      '(hit, rhs) ← basic_seek_iterator target (rhs_ b);
      if hit : bool then Some (target, mkBasic lhs rhs target)
      else
        let doc := Z.min (value lhs) (value rhs) in
        Some (doc, mkBasic lhs rhs doc).

(** The iterators the visitor is called on, in order. *)
Definition basic_visit (visitor : S -> bool) (b : basic_disjunction) : option (list S * basic_disjunction) :=
  let hit := value (lhs_ b) =? basic_doc b in
  if hit && negb (visitor (lhs_ b)) then Some ([lhs_ b], b)
  else
    let seen := if hit then [lhs_ b] else [] in
    '(_, rhs) ← basic_seek_iterator (basic_doc b) (rhs_ b);
    let b := mkBasic (lhs_ b) rhs (basic_doc b) in
    if value rhs =? basic_doc b then Some (seen ++ [rhs], b) else Some (seen, b).

(** ** [small_disjunction] *)

Record small_disjunction := mkSmall {
  small_itrs : list (adapter S);
  small_scored_begin : nat;
  small_begin : nat;
  small_end : nat;
  small_doc : Z;
  small_hitched : Z; (* last_hitched_doc_ *)
}.

(** The constructor: iterators without a score from the front, the others from the back. *)
Definition small_make (itrs : list (adapter S)) : small_disjunction :=
  let unscored := filter (fun a => a.2 = true) itrs in
  let scored := filter (fun a => a.2 = false) itrs in
  {| small_itrs := unscored ++ rev scored; small_scored_begin := length unscored;
     small_begin := 0; small_end := length itrs;
     small_doc := if decide (itrs = []) then doc_limits.eof else doc_limits.invalid;
     small_hitched := doc_limits.invalid |}.

Definition small_set_doc (doc : Z) (s : small_disjunction) : small_disjunction :=
  mkSmall (small_itrs s) (small_scored_begin s) (small_begin s) (small_end s) doc (small_hitched s).

(** [*it] after a call that changed it. *)
Definition small_put (i : nat) (it : S) (s : small_disjunction) : small_disjunction :=
  mkSmall (alter (fun a => (it, a.2)) i (small_itrs s)) (small_scored_begin s) (small_begin s)
    (small_end s) (small_doc s) (small_hitched s).

(** [remove_iterator] *)
Definition small_remove (i : nat) (s : small_disjunction) : bool * small_disjunction :=
  let default := match small_itrs s !! i with Some a => a.2 | None => true end in
  let s' :=
    if default then
      mkSmall (swap i (small_begin s) (small_itrs s)) (small_scored_begin s) (small_begin s + 1)
        (small_end s) (small_doc s) (small_hitched s)
    else
      mkSmall (swap i (small_end s - 1) (small_itrs s)) (small_scored_begin s) (small_begin s)
        (small_end s - 1) (small_doc s) (small_hitched s) in
  (negb (Nat.eqb (small_begin s') (small_end s')), s').

Definition small_next_iterator (doc : Z) (it : S) : option (bool * S) :=
  let v := value it in
  if v =? doc then next it
  else if v <? doc then '(v, it) ← seek (doc +[32] 1) it; Some (negb (doc_limits.is_eof v), it)
  else Some (true, it).

(** The state of the loops of [next] and [seek]: the position, the least document met. *)
Definition small_loop : Type := (nat * Z) * small_disjunction.

Definition small_next_round (st : small_loop) : option (small_loop + (bool * small_disjunction)) :=
  let '((begin, min), s) := st in
  if Nat.eqb begin (small_end s) then Some (inr (true, small_set_doc min s))
  else
    a ← small_itrs s !! begin;
    '(alive, it) ← small_next_iterator (small_doc s) a.1;
    let s := small_put begin it s in
    if alive : bool then Some (inl (((begin + 1)%nat, Z.min min (value it)), s))
    else
      let '(more, s) := small_remove begin s in
      if more then Some (inl ((begin, min), s))
      else Some (inr (false, small_set_doc doc_limits.eof s)).

Definition small_next (s : small_disjunction) : option (bool * small_disjunction) :=
  if doc_limits.is_eof (small_doc s) then Some (false, s)
  else iterate 64 small_next_round ((small_begin s, doc_limits.eof), s).

Definition small_seek_round (target : Z) (st : small_loop) : option (small_loop + small_disjunction) :=
  let '((begin, min), s) := st in
  if Nat.eqb begin (small_end s) then Some (inr (small_set_doc min s))
  else
    a ← small_itrs s !! begin;
    if value a.1 <? target then
      '(v, it) ← seek target a.1;
      let s := small_put begin it s in
      if v =? target then Some (inr (small_set_doc v s))
      else if doc_limits.is_eof v then
        let '(more, s) := small_remove begin s in
        if more then Some (inl ((begin, min), s))
        else Some (inr (small_set_doc doc_limits.eof s))
      else Some (inl (((begin + 1)%nat, Z.min min (value it)), s))
    else Some (inl (((begin + 1)%nat, Z.min min (value a.1)), s)).

Definition small_seek (target : Z) (s : small_disjunction) : option (Z * small_disjunction) :=
  if doc_limits.is_eof (small_doc s) then Some (small_doc s, s)
  else
    s ← iterate 64 (small_seek_round target) ((small_begin s, doc_limits.eof), s);
    Some (small_doc s, s).

(** [hitch_all_iterators]: [None] when the loop runs past the end of the vector. *)
Definition small_hitch_round (st : nat * small_disjunction) : option ((nat * small_disjunction) + small_disjunction) :=
  let '(begin, s) := st in
  if Nat.eqb begin (small_end s) then Some (inr s)
  else
    a ← small_itrs s !! begin;
    if value a.1 <? small_doc s then
      '(v, it) ← seek (small_doc s) a.1;
      let s := small_put begin it s in
      let s := if doc_limits.is_eof v then (small_remove begin s).2 else s in
      Some (inl ((begin + 1)%nat, s))
    else Some (inl ((begin + 1)%nat, s)).

Definition small_hitch (s : small_disjunction) : option small_disjunction :=
  if small_hitched s =? small_doc s then Some s
  else
    s ← iterate 64 small_hitch_round (small_begin s, s);
    Some (mkSmall (small_itrs s) (small_scored_begin s) (small_begin s) (small_end s) (small_doc s)
            (small_doc s)).

(** The iterators between two positions of the vector that stand on [doc], up to the first one the
    visitor refuses. *)
Fixpoint visit_hits (visitor : S -> bool) (doc : Z) (itrs : list (adapter S)) : list S :=
  match itrs with
  | [] => []
  | a :: itrs =>
      if value a.1 =? doc then
        a.1 :: (if visitor a.1 then visit_hits visitor doc itrs else [])
      else visit_hits visitor doc itrs
  end.

Definition small_visit (visitor : S -> bool) (s : small_disjunction) : option (list S * small_disjunction) :=
  s ← small_hitch s;
  Some (visit_hits visitor (small_doc s)
          (take (small_end s - small_begin s) (drop (small_begin s) (small_itrs s))), s).

End definitions.

Arguments unary_disjunction : clear implicits.
Arguments basic_disjunction : clear implicits.
Arguments small_disjunction : clear implicits.

#[export] Instance unary_iterator {S} {D : DocIterator S} : DocIterator (unary_disjunction S) := {
  value u := value (unary_it u);
  next u := '(b, it) ← next (unary_it u); Some (b, mkUnary it);
  seek t u := '(v, it) ← seek t (unary_it u); Some (v, mkUnary it);
}.

#[export] Instance basic_iterator {S} {D : DocIterator S} : DocIterator (basic_disjunction S) := {
  value := basic_doc;
  next := basic_next;
  seek := basic_seek;
}.

#[export] Instance small_iterator {S} {D : DocIterator S} : DocIterator (small_disjunction S) := {
  value := small_doc;
  next := small_next;
  seek := small_seek;
}.

(** ** Correctness *)

(** Documents of any of the sets. *)
Definition any_of (Ps : list (Z -> bool)) (d : Z) : bool := existsb (fun P => P d) Ps.

Lemma any_of_cons P Ps d : any_of (P :: Ps) d = P d || any_of Ps d.
Proof. done. Qed.

Lemma any_of_true Ps d : any_of Ps d = true <-> exists P, P ∈ Ps /\ P d = true.
Proof.
  unfold any_of. rewrite existsb_exists. by setoid_rewrite list_elem_of_In.
Qed.

Lemma any_of_false Ps d : any_of Ps d = false <-> forall P, P ∈ Ps -> P d = false.
Proof.
  rewrite <-not_true_iff_false, any_of_true. split.
  - intros H P HP. destruct (P d) eqn:E; [|done]. exfalso. eauto.
  - intros H (P & HP & E). by rewrite H in E.
Qed.

Lemma any_of_perm Ps Qs d : Ps ≡ₚ Qs -> any_of Ps d = any_of Qs d.
Proof. intros H. apply eq_true_iff_eq. rewrite !any_of_true. by setoid_rewrite H. Qed.

Lemma first_from_orb P Q t v w : first_from P t v -> first_from Q t w ->
  v <= doc_limits.eof -> w <= doc_limits.eof -> first_from (fun d => P d || Q d) t (Z.min v w).
Proof.
  intros [Hv Hg] [Hw Hh] ? ?. split.
  - destruct (Z.min_spec v w) as [[? ->]|[? ->]].
    + destruct Hv as [|[? E]]; [by left|right]. split; [done|]. by rewrite E.
    + destruct Hw as [|[? E]]; [by left|right]. split; [done|]. by rewrite E, orb_true_r.
  - intros d Hd. rewrite Hg, Hh by lia. done.
Qed.

Section basic.
Context {S : Type} {D : DocIterator S} {L : DocIteratorSpec S}.
Implicit Types (b : basic_disjunction S) (P Q : Z -> bool).

Lemma basic_next_iterator_spec doc it P : ready doc it P -> doc_limits.invalid <= doc <= doc_limits.eof ->
  exists it', basic_next_iterator doc it = Some it' /\ matches it' P /\ first_from P (doc + 1) (value it').
Proof.
  intros H Hd. pose proof (ready_range _ _ _ H). unfold basic_next_iterator.
  destruct (Z.eqb_spec doc (value it)) as [E|E].
  - destruct (next_past _ _ _ H ltac:(done)) as (it' & -> & HM & HF). by exists it'.
  - destruct (Z.ltb_spec (value it) doc) as [Hlt|Hge].
    + destruct (doc_limits.is_eof doc) eqn:Ee; cbn [negb Z.b2z].
      * apply is_eof_spec in Ee. rewrite Z.add_0_r, wrap_small by (unfold is_word; doc_lia).
        destruct (seek_to _ doc_limits.eof _ _ H ltac:(lia) ltac:(lia) ltac:(lia)) as (it' & Hs & HM & HF).
        rewrite Ee, Hs. cbn. exists it'. split; [done|]. split; [done|].
        apply first_from_eof in HF; [|by eapply matches_docs|lia]. rewrite HF. split; [by left|].
        intros d Hd'. lia.
      * rewrite wrap_small by (unfold is_word; doc_lia).
        destruct (seek_past _ _ _ H ltac:(lia) ltac:(doc_lia)) as (it' & -> & HM & HF). by exists it'.
    + exists it. split; [done|]. split; [apply H|]. eapply ready_first_from; [done|lia|doc_lia].
Qed.

(** The iterator reaches the target, and the answer tells whether it was moved onto it. *)
Lemma basic_seek_iterator_spec doc t it P : ready doc it P -> doc_limits.invalid <= doc < t ->
  t <= doc_limits.eof -> exists hit it', basic_seek_iterator t it = Some (hit, it') /\ matches it' P /\
  first_from P t (value it') /\ (hit = true -> value it' = t).
Proof.
  intros H Hd Ht. unfold basic_seek_iterator. destruct (Z.ltb_spec (value it) t) as [Hlt|Hge].
  - destruct (seek_to _ t _ _ H ltac:(lia) ltac:(lia) ltac:(lia)) as (it' & -> & HM & HF).
    exists (t =? value it'), it'. repeat split; try done; try apply HF. lia.
  - exists false, it. split; [done|]. split; [apply H|]. split; [|done].
    eapply ready_first_from; [done|lia|doc_lia].
Qed.

Definition basic_matches b (P : Z -> bool) : Prop :=
  exists Pl Pr, ready (basic_doc b) (lhs_ b) Pl /\ ready (basic_doc b) (rhs_ b) Pr /\
    position P (basic_doc b) /\ basic_doc b <= value (lhs_ b) /\
    forall d, P d = Pl d || Pr d.

Lemma basic_docs b P : basic_matches b P -> doc_set P.
Proof.
  intros (Pl & Pr & [Hl _] & [Hr _] & _ & _ & HP) d. rewrite HP.
  intros [E|E]%orb_true_iff; [exact (matches_docs _ _ Hl d E)|exact (matches_docs _ _ Hr d E)].
Qed.

Lemma basic_next_spec b P : basic_matches b P -> exists b',
  basic_next b = Some (negb (doc_limits.is_eof (basic_doc b')), b') /\ basic_matches b' P /\
  first_from P (basic_doc b + 1) (basic_doc b').
Proof.
  intros HM. pose proof (basic_docs _ _ HM) as Hdocs. destruct HM as (Pl & Pr & Hl & Hr & Hpos & _ & HP).
  pose proof (position_range _ Hdocs _ Hpos) as Hd. unfold basic_next.
  destruct (basic_next_iterator_spec _ _ _ Hl Hd) as (lhs & -> & HMl & HFl).
  destruct (basic_next_iterator_spec _ _ _ Hr Hd) as (rhs & -> & HMr & HFr). cbn [mbind option_bind].
  pose proof (matches_range _ _ HMl). pose proof (matches_range _ _ HMr).
  assert (first_from P (basic_doc b + 1) (Z.min (value lhs) (value rhs))) as HF.
  { eapply first_from_ext; [intros d; symmetry; apply HP|]. apply first_from_orb; done || lia. }
  exists (mkBasic lhs rhs (Z.min (value lhs) (value rhs))). split; [done|]. cbn [basic_doc]. split; [|done].
  exists Pl, Pr. cbn [lhs_ rhs_ basic_doc].
  assert (forall it Q, matches it Q -> first_from Q (basic_doc b + 1) (value it) ->
    ready (Z.min (value lhs) (value rhs)) it Q) as Hready.
  { intros it Q HMq HFq. destruct HF as [[->|[? _]] _]; [by apply ready_eof|].
    by eapply first_from_ready. }
  split; [by apply Hready|]. split; [by apply Hready|]. split; [by eapply first_from_position|]. split; [lia|done].
Qed.

Lemma basic_seek_spec b P t : basic_matches b P -> doc_limits.min <= t <= doc_limits.eof ->
  basic_doc b <= t -> exists b', basic_seek t b = Some (basic_doc b', b') /\ basic_matches b' P /\
  first_from P t (basic_doc b').
Proof.
  intros HM Ht Hle. pose proof (basic_docs _ _ HM) as Hdocs. pose proof HM as (Pl & Pr & Hl & Hr & Hpos & Hlv & HP).
  pose proof (position_range _ Hdocs _ Hpos) as Hd. unfold basic_seek.
  destruct (Z.leb_spec t (basic_doc b)) as [Hge|Hlt].
  - exists b. split; [done|]. split; [done|]. assert (t = basic_doc b) as -> by lia.
    destruct Hpos as [E|[E|E]]; [doc_lia|rewrite E; split; [by left|lia]|by apply first_from_hit].
  - destruct (basic_seek_iterator_spec _ t _ _ Hl ltac:(lia) ltac:(lia)) as (hit & lhs & -> & HMl & HFl & Hhit).
    cbn [mbind option_bind]. pose proof (matches_range _ _ HMl). destruct hit.
    + specialize (Hhit eq_refl). exists (mkBasic lhs (rhs_ b) t). split; [done|]. cbn [basic_doc].
      assert (first_from P t t) as HF.
      { eapply first_from_ext; [intros d; symmetry; apply HP|]. rewrite Hhit in HFl. split; [|lia].
        destruct HFl as [[E|[? E]] _]; [by left|right; split; [lia|]]. by rewrite E. }
      split; [|done]. exists Pl, Pr. cbn [lhs_ rhs_ basic_doc]. split; [eapply first_from_ready; [done|exact HFl|lia]|].
      split; [eapply ready_mono; [done|lia]|]. split; [by eapply first_from_position|]. split; [lia|done].
    + destruct (basic_seek_iterator_spec _ t _ _ Hr ltac:(lia) ltac:(lia)) as (hit & rhs & -> & HMr & HFr & Hhit').
      cbn [mbind option_bind]. pose proof (matches_range _ _ HMr). clear Hhit.
      assert (first_from P t (Z.min (value lhs) (value rhs))) as HF.
      { eapply first_from_ext; [intros d; symmetry; apply HP|]. apply first_from_orb; done || lia. }
      pose proof (first_from_ge _ _ _ HFl ltac:(lia)). pose proof (first_from_ge _ _ _ HFr ltac:(lia)).
      exists (mkBasic lhs rhs (Z.min (value lhs) (value rhs))). split; [|split; [|done]].
      * destruct hit; [|done]. specialize (Hhit' eq_refl). by replace (Z.min _ _) with t by lia.
      * exists Pl, Pr. cbn [lhs_ rhs_ basic_doc]. split; [eapply first_from_ready; [done|exact HFl|lia]|].
        split; [eapply first_from_ready; [done|exact HFr|lia]|]. split; [by eapply first_from_position|].
        split; [lia|done].
Qed.

(** A visit calls the visitor on the iterators that have the current document, positioned there. *)
Lemma ready_hit doc it P : ready doc it P -> doc_limits.min <= doc < doc_limits.eof ->
  doc <= value it -> P doc = (value it =? doc).
Proof.
  intros [HM Hg] Hd Hle. destruct (Z.eqb_spec (value it) doc) as [E|E]; [|apply Hg; lia].
  destruct (matches_position _ _ HM) as [?|[?|?]]; [doc_lia|lia|congruence].
Qed.

Lemma basic_visit_spec b Pl Pr : ready (basic_doc b) (lhs_ b) Pl -> ready (basic_doc b) (rhs_ b) Pr ->
  doc_limits.min <= basic_doc b < doc_limits.eof -> basic_doc b <= value (lhs_ b) -> exists rhs,
  basic_visit (fun _ => true) b = Some ((if Pl (basic_doc b) then [lhs_ b] else []) ++
                                        (if Pr (basic_doc b) then [rhs] else []),
                                        mkBasic (lhs_ b) rhs (basic_doc b)) /\
  ready (basic_doc b) rhs Pr /\ basic_doc b <= value rhs.
Proof.
  intros Hl Hr Hd Hle. pose proof (ready_hit _ _ _ Hl Hd Hle) as El. unfold basic_visit.
  rewrite andb_false_r, <-El. unfold basic_seek_iterator. destruct (Z.ltb_spec (value (rhs_ b)) (basic_doc b)).
  - destruct (seek_to _ (basic_doc b) _ _ Hr ltac:(lia) ltac:(doc_lia) ltac:(lia)) as (rhs & -> & HM & HF).
    cbn [mbind option_bind]. pose proof (first_from_ge _ _ _ HF ltac:(lia)).
    assert (ready (basic_doc b) rhs Pr) as Hr' by (eapply first_from_ready; [done|exact HF|lia]).
    exists rhs. rewrite (ready_hit _ _ _ Hr' Hd) by lia.
    cbn [basic_doc]. destruct (value rhs =? basic_doc b); [done|]. by rewrite app_nil_r.
  - cbn [mbind option_bind]. exists (rhs_ b). rewrite (ready_hit _ _ _ Hr Hd) by lia.
    cbn [basic_doc]. destruct (value (rhs_ b) =? basic_doc b); [done|]. by rewrite app_nil_r.
Qed.

Lemma basic_fresh lhs rhs P Q : matches lhs P -> matches rhs Q -> value lhs = doc_limits.invalid ->
  value rhs = doc_limits.invalid -> basic_matches (basic_make lhs rhs) (any_of [P; Q]).
Proof.
  intros HP HQ El Er. exists P, Q. cbn [basic_make lhs_ rhs_ basic_doc].
  split; [by apply ready_initial|]. split; [by apply ready_initial|]. split; [by left|]. split; [lia|].
  intros d. cbn. by rewrite orb_false_r.
Qed.

End basic.

#[export, program] Instance unary_iterator_spec {S} {D : DocIterator S} {L : DocIteratorSpec S} :
  DocIteratorSpec (unary_disjunction S) := {
  matches u := matches (unary_it u);
}.
Next Obligation. intros S D L u P HM. exact (matches_docs (unary_it u) P HM). Qed.
Next Obligation. intros S D L u P HM. exact (matches_position (unary_it u) P HM). Qed.
Next Obligation. intros S D L u P Q HM. exact (matches_ext (unary_it u) P Q HM). Qed.
Next Obligation.
  intros S D L u P HM. cbn [next value unary_iterator]. destruct (next_spec _ _ HM) as (it & -> & ? & ?).
  by exists (mkUnary it).
Qed.
Next Obligation.
  intros S D L u P t HM Ht Hle. cbn [seek value unary_iterator] in *.
  destruct (seek_spec _ _ t HM Ht Hle) as (it & -> & ? & ?). by exists (mkUnary it).
Qed.

#[export, program] Instance basic_iterator_spec {S} {D : DocIterator S} {L : DocIteratorSpec S} :
  DocIteratorSpec (basic_disjunction S) := {
  matches := basic_matches;
}.
Next Obligation. intros. by eapply basic_docs. Qed.
Next Obligation. intros S D L b P (Pl & Pr & Hl & Hr & Hpos & HP). exact Hpos. Qed.
Next Obligation.
  intros S D L b P Q (Pl & Pr & Hl & Hr & Hpos & Hv & HP) E. exists Pl, Pr. repeat (split; [done|]).
  split; [by eapply position_ext|]. split; [done|]. intros d. by rewrite <-E.
Qed.
Next Obligation. intros. by apply basic_next_spec. Qed.
Next Obligation. intros. by apply basic_seek_spec. Qed.

(** ** [std::swap] *)

Section swapping.
Context {A : Type}.
Implicit Types (l : list A) (i j k : nat).

Lemma swap_lookup i j k l : (i < length l)%nat -> (j < length l)%nat ->
  swap i j l !! k = if decide (k = i) then l !! j else if decide (k = j) then l !! i else l !! k.
Proof.
  intros Hi Hj. unfold swap.
  destruct (lookup_lt_is_Some_2 l i Hi) as [x Ex], (lookup_lt_is_Some_2 l j Hj) as [y Ey]. rewrite Ex, Ey.
  destruct (decide (k = i)) as [->|].
  - rewrite list_lookup_insert_eq; [done|by rewrite length_insert].
  - rewrite list_lookup_insert_ne by done. destruct (decide (k = j)) as [->|].
    + by rewrite list_lookup_insert_eq.
    + by rewrite list_lookup_insert_ne.
Qed.

Lemma swap_length i j l : length (swap i j l) = length l.
Proof. unfold swap. destruct (l !! i), (l !! j); try done. by rewrite !length_insert. Qed.

Lemma swap_perm i j l : (i < length l)%nat -> (j < length l)%nat -> swap i j l ≡ₚ l.
Proof.
  intros Hi Hj. apply Permutation_inj. split; [apply swap_length|].
  exists (fun k => if decide (k = i) then j else if decide (k = j) then i else k). split.
  - intros k k'. repeat case_decide; lia.
  - intros k. rewrite swap_lookup by done. by repeat case_decide.
Qed.

Lemma swap_fmap {B} (f : A -> B) i j l : f <$> swap i j l = swap i j (f <$> l).
Proof.
  unfold swap. rewrite !list_lookup_fmap. destruct (l !! i), (l !! j); cbn [fmap option_fmap option_map]; try done.
  by rewrite !list_fmap_insert.
Qed.

End swapping.

Section small.
Context {S : Type} {D : DocIterator S} {L : DocIteratorSpec S}.
Implicit Types (s : small_disjunction S) (P Q : Z -> bool) (zs : list (adapter S * (Z -> bool))).

(** The position of the iterator of a pair. *)
Definition zvalue (z : adapter S * (Z -> bool)) : Z := value z.1.1.

(** The state of the loops of [next] and [seek] on the way to [t]: [zs] pairs the adapters with their
    sets; those outside [begin_ .. end_] are exhausted; those before [begin] have reached [t] and
    are not below [min]. *)
Record small_inv (t : Z) (begin : nat) (min : Z) s zs : Prop := {
  si_itrs : small_itrs s = zs.*1;
  si_size : Z.of_nat (length zs) < 2 ^ 62;
  si_ready : Forall (fun z => ready t z.1.1 z.2) zs;
  si_bounds : (small_begin s <= small_end s <= length zs)%nat /\ (begin <= small_end s)%nat;
  si_dead : forall j z, zs !! j = Some z -> (j < small_begin s \/ small_end s <= j)%nat -> zvalue z = doc_limits.eof;
  si_live : forall j z, zs !! j = Some z -> (small_begin s <= j < small_end s)%nat -> zvalue z <> doc_limits.eof;
  si_past : forall j z, zs !! j = Some z -> (j < begin)%nat -> t <= zvalue z /\ min <= zvalue z;
  si_min : min = doc_limits.eof \/ exists z, z ∈ zs /\ zvalue z = min /\ t <= min;
}.

Lemma si_min_le t begin min s zs : small_inv t begin min s zs -> min <= doc_limits.eof.
Proof.
  intros H. destruct (si_min _ _ _ _ _ H) as [->|(z & Hz & <- & _)]; [lia|].
  pose proof (si_ready _ _ _ _ _ H) as Hr. rewrite Forall_forall in Hr. apply Hr in Hz.
  apply ready_range in Hz. unfold zvalue. lia.
Qed.

Lemma put_fmap zs i a P it : zs !! i = Some (a, P) ->
  alter (fun a => (it, a.2)) i zs.*1 = (<[i := ((it, a.2), P)]> zs).*1.
Proof.
  intros E. apply list_eq. intros k. rewrite list_fmap_insert. cbn [fst].
  destruct (decide (i = k)) as [->|Hne].
  - rewrite list_lookup_alter_eq, list_lookup_fmap, E. cbn.
    rewrite list_lookup_insert_eq; [done|]. rewrite length_fmap. by eapply lookup_lt_Some.
  - by rewrite list_lookup_alter_ne, list_lookup_insert_ne.
Qed.

Lemma put_sets zs i a P it : zs !! i = Some (a, P) -> (<[i := ((it, a.2), P)]> zs).*2 = zs.*2.
Proof.
  intros E. rewrite list_fmap_insert. cbn [snd]. apply list_insert_id. by rewrite list_lookup_fmap, E.
Qed.

(** An iterator that had not reached [t] and is still alive afterwards has been moved to [t]. *)
Lemma small_put_inv t begin min s zs a P it : small_inv t begin min s zs -> zs !! begin = Some (a, P) ->
  (begin < small_end s)%nat -> value a.1 < t \/ it = a.1 -> ready t it P -> t <= value it ->
  value it <> doc_limits.eof \/ it = a.1 ->
  small_inv t (begin + 1) (Z.min min (value it)) (small_put begin it s) (<[begin := ((it, a.2), P)]> zs).
Proof.
  intros H E Hlt Hmoved Hr Ht Hne. pose proof (lookup_lt_Some _ _ _ E) as Hlen.
  pose proof (si_min_le _ _ _ _ _ H) as Hmin. pose proof (ready_range _ _ _ Hr).
  constructor; cbn [small_put small_itrs small_begin small_end].
  - rewrite (si_itrs _ _ _ _ _ H). by apply put_fmap.
  - rewrite length_insert. apply H.
  - apply Forall_insert; [apply H|done].
  - rewrite length_insert. pose proof (si_bounds _ _ _ _ _ H). lia.
  - intros j z Hj Hout. apply list_lookup_insert_Some in Hj as [(-> & <- & _)|[_ Hj]].
    + destruct Hne as [?| ->]; [|exact (si_dead _ _ _ _ _ H _ _ E Hout)].
      pose proof (si_dead _ _ _ _ _ H _ _ E Hout) as Hd. unfold zvalue in *. cbn in *.
      destruct Hmoved as [?| ->]; [|done]. lia.
    + by eapply si_dead.
  - intros j z Hj Hin. apply list_lookup_insert_Some in Hj as [(-> & <- & _)|[_ Hj]].
    + destruct Hne as [?| ->]; [done|]. exact (si_live _ _ _ _ _ H _ _ E Hin).
    + by eapply si_live.
  - intros j z Hj Hin. apply list_lookup_insert_Some in Hj as [(-> & <- & _)|[Hjne Hj]].
    + unfold zvalue. cbn. lia.
    + destruct (si_past _ _ _ _ _ H _ _ Hj ltac:(lia)). lia.
  - destruct (Z.min_spec min (value it)) as [[Hm ->]|[Hm ->]].
    + destruct (si_min _ _ _ _ _ H) as [?|(z & Hz & Hv & Hz')]; [by left|right].
      exists z. split; [|done]. apply list_elem_of_lookup in Hz as [j Hj].
      destruct (decide (j = begin)) as [->|Hjne].
      * rewrite E in Hj. injection Hj as <-. unfold zvalue in Hv. cbn in Hv.
        destruct Hmoved as [?| ->]; [lia|]. lia.
      * apply list_elem_of_lookup. exists j. by rewrite list_lookup_insert_ne.
    + right. exists ((it, a.2), P). split; [|done]. apply list_elem_of_lookup. exists begin.
      by rewrite list_lookup_insert_eq.
Qed.

(** The number of rounds left. *)
Definition small_left (begin : nat) s : Z :=
  Z.of_nat (small_end s - begin) + Z.of_nat (small_end s - small_begin s).

(** [remove_iterator] of an iterator that has been exhausted on the way to [t]. *)
Lemma small_remove_inv t begin min s zs a P it more s' : small_inv t begin min s zs ->
  zs !! begin = Some (a, P) -> (begin < small_end s)%nat -> value a.1 < t -> t <= doc_limits.eof ->
  ready t it P -> value it = doc_limits.eof ->
  small_remove begin (small_put begin it s) = (more, s') -> exists zs',
  small_inv t begin min s' zs' /\ zs'.*2 ≡ₚ zs.*2 /\ small_doc s' = small_doc s /\
  small_hitched s' = small_hitched s /\ more = negb (Nat.eqb (small_begin s') (small_end s')) /\
  0 <= small_left begin s' < small_left begin s.
Proof.
  intros H E Hlt Hv Ht Hr Hit Hrem. pose proof (lookup_lt_Some _ _ _ E) as Hlen.
  pose proof (si_min_le _ _ _ _ _ H) as Hmin. pose proof (si_bounds _ _ _ _ _ H) as [Hb1 Hb2].
  assert (small_begin s <= begin)%nat as Hbeg.
  { apply Nat.nlt_ge. intros Hn. pose proof (si_dead _ _ _ _ _ H _ _ E ltac:(lia)) as Hd.
    unfold zvalue in Hd. cbn in Hd. lia. }
  set (z' := ((it, a.2), P)). set (zs1 := <[begin := z']> zs).
  assert (small_itrs (small_put begin it s) = zs1.*1) as Eitrs.
  { cbn. rewrite (si_itrs _ _ _ _ _ H). by apply put_fmap. }
  assert (length zs1 = length zs) as Hl1 by apply length_insert.
  assert (forall j z, zs1 !! j = Some z -> (j <> begin /\ zs !! j = Some z) \/ (j = begin /\ z = z')) as Hz1.
  { intros j z Hj. apply list_lookup_insert_Some in Hj as [(-> & <- & _)|[? ?]]; auto. }
  assert (zs1 !! begin = Some z') as Ez by by apply list_lookup_insert_eq.
  assert (zs1.*1 !! begin = Some (it, a.2)) as Eb by by rewrite list_lookup_fmap, Ez.
  unfold small_remove in Hrem. rewrite Eitrs, Eb in Hrem. cbn [snd] in Hrem.
  (* the place the iterator is swapped with *)
  set (k := if a.2 then small_begin s else (small_end s - 1)%nat).
  assert (k < length zs1)%nat as Hk by (unfold k; destruct a.2; lia).
  assert (s' = mkSmall (swap begin k zs1).*1 (small_scored_begin s)
            (if a.2 then small_begin s + 1 else small_begin s)%nat
            (if a.2 then small_end s else small_end s - 1)%nat (small_doc s) (small_hitched s) /\
          more = negb (Nat.eqb (small_begin s') (small_end s'))) as [-> ->].
  { rewrite swap_fmap. unfold k. destruct a.2; cbn in Hrem; injection Hrem as <- <-; done. }
  clear Hrem. cbn [small_begin small_end small_doc small_hitched]. exists (swap begin k zs1).
  assert (forall j z, swap begin k zs1 !! j = Some z ->
            (j = k /\ z = z') \/ (j <> k /\ j = begin /\ zs !! k = Some z) \/
            (j <> k /\ j <> begin /\ zs !! j = Some z)) as Hz2.
  { intros j z Hj. rewrite swap_lookup in Hj by lia.
    destruct (decide (j = begin)) as [->|Hjb]; [|destruct (decide (j = k)) as [->|Hjk]].
    - apply Hz1 in Hj as [[? ?]|[-> ->]]; [|by left]. right. left. done.
    - apply Hz1 in Hj as [[? ?]|[_ ->]]; [done|by left].
    - apply Hz1 in Hj as [[? ?]|[-> _]]; [auto|done]. }
  split; [constructor; cbn [small_itrs small_begin small_end]|].
  - done.
  - rewrite swap_length, Hl1. apply H.
  - rewrite Forall_lookup. intros j z Hj. pose proof (si_ready _ _ _ _ _ H) as Hready.
    rewrite Forall_lookup in Hready. apply Hz2 in Hj as [(-> & ->)|[(_ & _ & Hj)|(_ & _ & Hj)]]; [done| |];
      by eapply Hready.
  - rewrite swap_length. unfold k in Hk. destruct a.2; lia.
  - intros j z Hj Hout. apply Hz2 in Hj as [(-> & ->)|[(Hjk & -> & Hj)|(Hjk & Hjb & Hj)]].
    + done.
    + exfalso. unfold k in *. destruct a.2; lia.
    + eapply (si_dead _ _ _ _ _ H); [exact Hj|]. unfold k in *. destruct a.2; lia.
  - intros j z Hj Hin. apply Hz2 in Hj as [(-> & ->)|[(Hjk & -> & Hj)|(Hjk & Hjb & Hj)]].
    + exfalso. unfold k in *. destruct a.2; lia.
    + eapply (si_live _ _ _ _ _ H); [exact Hj|]. unfold k in *. destruct a.2; lia.
    + eapply (si_live _ _ _ _ _ H); [exact Hj|]. unfold k in *. destruct a.2; lia.
  - intros j z Hj Hin. apply Hz2 in Hj as [(-> & ->)|[(Hjk & -> & Hj)|(Hjk & Hjb & Hj)]].
    + unfold zvalue. cbn. lia.
    + lia.
    + by eapply si_past.
  - destruct (si_min _ _ _ _ _ H) as [?|(z & Hz & Hzv & Hzt)]; [by left|right]. exists z. split; [|done].
    rewrite swap_perm by lia. apply list_elem_of_lookup in Hz as [j Hj].
    apply list_elem_of_lookup. exists j. unfold zs1. rewrite list_lookup_insert_ne; [done|]. intros <-.
    rewrite E in Hj. injection Hj as <-. unfold zvalue in Hzv. cbn in Hzv. lia.
  - split; [|split; [done|split; [done|split; [done|]]]].
    + rewrite swap_perm by lia. unfold zs1, z'. by rewrite (put_sets _ _ _ _ _ E).
    + unfold small_left. cbn [small_begin small_end]. unfold k in *. destruct a.2; lia.
Qed.

(** A well-formed disjunction over the sets [zs.*2]. *)
Definition small_matches s (P : Z -> bool) : Prop :=
  exists zs, small_itrs s = zs.*1 /\ Z.of_nat (length zs) < 2 ^ 62 /\
    Forall (fun z => ready (small_doc s) z.1.1 z.2) zs /\
    (small_begin s <= small_end s <= length zs)%nat /\
    (forall j z, zs !! j = Some z -> (j < small_begin s \/ small_end s <= j)%nat -> zvalue z = doc_limits.eof) /\
    (small_doc s <> doc_limits.eof -> (small_begin s < small_end s)%nat /\
       forall j z, zs !! j = Some z -> (small_begin s <= j < small_end s)%nat -> zvalue z <> doc_limits.eof) /\
    position P (small_doc s) /\ forall d, P d = any_of zs.*2 d.

Lemma small_docs s P : small_matches s P -> doc_set P.
Proof.
  intros (zs & _ & _ & Hr & _ & _ & _ & _ & HP) d. rewrite HP, any_of_true.
  intros (Q & HQ & Hd). apply list_elem_of_fmap in HQ as (z & -> & Hz).
  rewrite Forall_forall in Hr. exact (matches_docs _ _ (ready_matches _ _ _ (Hr z Hz)) d Hd).
Qed.

(** The loop starts where the disjunction stands. *)
Lemma small_inv_start s P t : small_matches s P -> small_doc s <= t <= doc_limits.eof ->
  small_doc s <> doc_limits.eof -> exists zs, small_inv t (small_begin s) doc_limits.eof s zs /\ (forall d, P d = any_of zs.*2 d).
Proof.
  intros (zs & H1 & H2 & H3 & H4 & H5 & H6 & H7 & H8) Ht Hne. exists zs. split; [|done].
  destruct (H6 Hne) as [H9 H10]. constructor; try done; [|lia| |by left].
  - eapply Forall_impl; [exact H3|]. intros z Hz. eapply ready_mono; [exact Hz|lia].
  - intros j z Hj Hlt. rewrite (H5 j z Hj ltac:(lia)). lia.
Qed.

(** All iterators have reached [t]: the least document is the first one of any of them. *)
Lemma small_reached t begin min s zs P : small_inv t begin min s zs ->
  (begin = small_end s \/ small_begin s = small_end s /\ min = doc_limits.eof) ->
  doc_limits.min <= t <= doc_limits.eof -> (forall d, P d = any_of zs.*2 d) ->
  first_from P t min /\ Forall (fun z => ready min z.1.1 z.2) zs.
Proof.
  intros H Hall Ht HP. pose proof (si_min_le _ _ _ _ _ H) as Hm.
  pose proof (si_ready _ _ _ _ _ H) as Hr. rewrite Forall_forall in Hr.
  assert (forall z, z ∈ zs -> min <= zvalue z /\ first_from z.2 t (zvalue z)) as Hz.
  { intros z Hz. apply list_elem_of_lookup in Hz as [j Hj].
    assert (t <= zvalue z /\ min <= zvalue z) as [Hzt Hzm].
    { pose proof (si_dead _ _ _ _ _ H _ _ Hj) as Hd. pose proof (si_past _ _ _ _ _ H _ _ Hj) as Hp.
      destruct (decide (j < begin)%nat); [by apply Hp|]. rewrite Hd; [lia|]. destruct Hall as [->|[-> _]]; lia. }
    split; [done|]. unfold zvalue in *. eapply ready_first_from; [apply Hr, list_elem_of_lookup; by eexists|lia|lia]. }
  split.
  - split.
    + destruct (si_min _ _ _ _ _ H) as [?|(z & Hzin & <- & Hzt)]; [by left|].
      destruct (Hz z Hzin) as [_ [[E|[_ E]] _]]; [by left|right]. split; [done|].
      rewrite HP. apply any_of_true. exists z.2. split; [by apply list_elem_of_fmap_2|done].
    + intros d Hd. rewrite HP. apply any_of_false. intros Q HQ.
      apply list_elem_of_fmap in HQ as (z & -> & Hzin). destruct (Hz z Hzin) as [? [_ Hg]]. apply Hg. lia.
  - assert (t <= min) as Htm by (destruct (si_min _ _ _ _ _ H) as [->|(z & _ & _ & ?)]; lia).
    apply Forall_forall. intros z Hzin. destruct (Hz z Hzin) as [? HF].
    eapply first_from_ready; [apply Hr, Hzin|exact HF|done].
Qed.

(** The loop ends with the disjunction on the least document. *)
Lemma small_settled t begin min s zs P : small_inv t begin min s zs ->
  (begin = small_end s /\ (small_begin s < small_end s)%nat \/
   small_begin s = small_end s /\ min = doc_limits.eof) ->
  doc_limits.min <= t <= doc_limits.eof -> (forall d, P d = any_of zs.*2 d) ->
  small_matches (small_set_doc min s) P /\ first_from P t min /\
  (min = doc_limits.eof <-> small_begin s = small_end s).
Proof.
  intros H Hall Ht HP. destruct (small_reached t begin min s zs P H ltac:(tauto) Ht HP) as [HF Hr].
  assert (min = doc_limits.eof <-> small_begin s = small_end s) as Heof.
  { destruct Hall as [[-> Hlt]|[-> ->]]; [|done]. split; [|lia]. intros ->.
    pose proof (si_bounds _ _ _ _ _ H) as [Hb _].
    destruct (lookup_lt_is_Some_2 zs (small_begin s) ltac:(lia)) as [z Hz].
    pose proof (si_past _ _ _ _ _ H _ _ Hz ltac:(lia)) as [_ Hp].
    pose proof (si_live _ _ _ _ _ H _ _ Hz ltac:(lia)) as Hl. exfalso. apply Hl.
    pose proof (si_ready _ _ _ _ _ H) as Hrd. rewrite Forall_forall in Hrd.
    specialize (Hrd z ltac:(apply list_elem_of_lookup; by eexists)). apply ready_range in Hrd.
    unfold zvalue in *. lia. }
  split; [|done]. exists zs. cbn [small_set_doc small_itrs small_begin small_end small_doc].
  split; [apply H|]. split; [apply H|]. split; [done|]. split; [apply H|]. split; [apply H|].
  split; [|split; [by eapply first_from_position|done]].
  intros Hne. split; [|apply H]. pose proof (si_bounds _ _ _ _ _ H) as [Hb _].
  assert (small_begin s <> small_end s) by tauto. lia.
Qed.

(** What the loops of [next] and [seek] keep. *)
Definition small_looping t Ps doc (st : small_loop) : Prop :=
  exists zs, small_inv t st.1.1 st.1.2 st.2 zs /\ zs.*2 ≡ₚ Ps /\ small_doc st.2 = doc /\
    (small_begin st.2 < small_end st.2)%nat.

Lemma small_left_bound t Ps doc st : small_looping t Ps doc st -> 0 <= small_left st.1.1 st.2 < 2 ^ 64.
Proof.
  intros (zs & H & _). pose proof (si_bounds _ _ _ _ _ H) as [Hb Hb2]. pose proof (si_size _ _ _ _ _ H).
  unfold small_left. lia.
Qed.

(** One iterator has been moved to [t] or found there. *)
Lemma small_advance t Ps doc begin min s a it P : small_looping t Ps doc ((begin, min), s) ->
  (begin < small_end s)%nat -> (exists zs, small_inv t begin min s zs /\ zs.*2 ≡ₚ Ps /\ zs !! begin = Some (a, P)) ->
  value a.1 < t \/ it = a.1 -> ready t it P -> t <= value it ->
  value it <> doc_limits.eof \/ it = a.1 ->
  small_looping t Ps doc (((begin + 1)%nat, Z.min min (value it)), small_put begin it s) /\
  small_left (begin + 1) (small_put begin it s) < small_left begin s.
Proof.
  intros (_ & _ & _ & Hdoc & Hlive) Hlt (zs & H & Hp & E) Hm Hr Ht Hne. split.
  - exists (<[begin := ((it, a.2), P)]> zs). split; [by apply small_put_inv|].
    split; [by rewrite (put_sets _ _ _ _ _ E)|done].
  - unfold small_left. cbn [small_put small_begin small_end fst snd] in *. lia.
Qed.

(** What a call leaves: [b] for [next]. *)
Definition small_result P t (b : bool) s' : Prop :=
  small_matches s' P /\ first_from P t (small_doc s') /\ b = negb (doc_limits.is_eof (small_doc s')).

Lemma small_finish t Ps doc begin min s P : small_looping t Ps doc ((begin, min), s) -> begin = small_end s ->
  doc_limits.min <= t <= doc_limits.eof -> (forall d, P d = any_of Ps d) ->
  small_result P t true (small_set_doc min s).
Proof.
  intros (zs & H & Hp & Hdoc & Hlt) E Ht HP. cbn [fst snd] in *.
  destruct (small_settled t begin min s zs P H ltac:(auto) Ht) as (HM & HF & He).
  { intros d. rewrite HP. symmetry. by apply any_of_perm. }
  split; [done|]. split; [done|]. cbn [small_set_doc small_doc].
  destruct (doc_limits.is_eof min) eqn:Ee; [|done]. apply is_eof_spec in Ee. apply He in Ee. lia.
Qed.

(** An iterator has been exhausted on the way to [t]. *)
Lemma small_drop t Ps doc begin min s a it P : small_looping t Ps doc ((begin, min), s) ->
  (begin < small_end s)%nat -> (exists zs, small_inv t begin min s zs /\ zs.*2 ≡ₚ Ps /\ zs !! begin = Some (a, P)) ->
  value a.1 < t -> doc_limits.min <= t <= doc_limits.eof -> ready t it P -> value it = doc_limits.eof ->
  forall R, (forall d, R d = any_of Ps d) ->
  let '(more, s') := small_remove begin (small_put begin it s) in
  if more : bool then small_looping t Ps doc ((begin, min), s') /\ small_left begin s' < small_left begin s
  else small_result R t false (small_set_doc doc_limits.eof s').
Proof.
  intros (_ & _ & _ & Hdoc & Hlive) Hlt (zs & H & Hp & E) Hv Ht Hr Hit R HR.
  destruct (small_remove begin (small_put begin it s)) as [more s'] eqn:Hrem.
  destruct (small_remove_inv _ _ _ _ _ _ _ _ _ _ H E Hlt Hv ltac:(lia) Hr Hit Hrem)
    as (zs' & H' & Hp' & Hd' & _ & -> & Hleft).
  destruct (Nat.eqb_spec (small_begin s') (small_end s')) as [Eb|Eb]; cbn [negb].
  - assert (small_inv t begin doc_limits.eof s' zs') as He.
    { destruct H'. constructor; try done; [|by left]. intros j z Hj Hjlt.
      rewrite (si_dead0 j z Hj ltac:(lia)). lia. }
    destruct (small_settled t begin doc_limits.eof s' zs' R He ltac:(auto) Ht) as (HM & HF & _).
    { intros d. rewrite HR. symmetry. apply any_of_perm. by rewrite Hp'. }
    split; [done|]. split; [done|]. cbn. by rewrite (proj2 (is_eof_spec _) eq_refl).
  - split; [|lia]. exists zs'. split; [done|]. cbn [fst snd] in *. split; [by rewrite Hp'|]. split; [by rewrite Hd'|].
    pose proof (si_bounds _ _ _ _ _ H') as [Hb _]. cbn in *. lia.
Qed.

(** The iterator the loop looks at. *)
Lemma small_current t Ps doc begin min s : small_looping t Ps doc ((begin, min), s) -> begin <> small_end s ->
  (begin < small_end s)%nat /\ exists a P, small_itrs s !! begin = Some a /\ ready t a.1 P /\
  exists zs, small_inv t begin min s zs /\ zs.*2 ≡ₚ Ps /\ zs !! begin = Some (a, P).
Proof.
  intros (zs & H & Hp & _) Hne. cbn [fst snd] in *. pose proof (si_bounds _ _ _ _ _ H) as [Hb1 Hb2].
  split; [lia|]. destruct (lookup_lt_is_Some_2 zs begin ltac:(lia)) as [[a P] Hz]. exists a, P.
  split; [by rewrite (si_itrs _ _ _ _ _ H), list_lookup_fmap, Hz|]. split; [|by exists zs].
  pose proof (si_ready _ _ _ _ _ H) as Hr. rewrite Forall_lookup in Hr. by apply (Hr begin (a, P)).
Qed.

Lemma small_next_round_spec t Ps doc st P : small_looping t Ps doc st -> t = doc + 1 ->
  doc_limits.invalid <= doc < doc_limits.eof -> (forall d, P d = any_of Ps d) -> exists r,
  small_next_round st = Some r /\
  match r with
  | inl st' => small_looping t Ps doc st' /\ small_left st'.1.1 st'.2 < small_left st.1.1 st.2
  | inr (b, s') => small_result P t b s'
  end.
Proof.
  intros HL Et Hd HP. destruct st as [[begin min] s]. unfold small_next_round.
  assert (doc_limits.min <= t <= doc_limits.eof) as Ht by doc_lia.
  destruct (Nat.eqb_spec begin (small_end s)) as [E|E].
  { eexists. split; [done|]. by eapply small_finish. }
  destruct (small_current _ _ _ _ _ _ HL E) as (Hlt & a & P0 & -> & Hr & Hz). cbn [mbind option_bind].
  assert (small_doc s = doc) as Hdoc by (destruct HL as (? & _ & _ & ? & _); done).
  unfold small_next_iterator. rewrite Hdoc. pose proof (ready_range _ _ _ Hr).
  (* an iterator that has not passed the document moves past it *)
  assert (forall it, matches it P0 -> first_from P0 t (value it) -> value a.1 < t -> exists r,
    (if negb (doc_limits.is_eof (value it)) then
       Some (inl (((begin + 1)%nat, Z.min min (value it)), small_put begin it s))
     else let '(more, s) := small_remove begin (small_put begin it s) in
          if more : bool then Some (inl ((begin, min), s))
          else Some (inr (false, small_set_doc doc_limits.eof s))) = Some r /\
    match r with
    | inl st' => small_looping t Ps doc st' /\ small_left st'.1.1 st'.2 < small_left begin s
    | inr (b, s') => small_result P t b s'
    end) as Hmoved.
  { intros it HM HF Hv. pose proof (first_from_ge _ _ _ HF ltac:(lia)).
    assert (ready t it P0) as Hr' by (eapply first_from_ready; [done|exact HF|lia]).
    destruct (doc_limits.is_eof (value it)) eqn:Ee; cbn [negb].
    - apply is_eof_spec in Ee.
      pose proof (small_drop _ _ _ _ _ _ _ it P0 HL Hlt Hz Hv Ht Hr' Ee P HP) as Hdrop.
      destruct (small_remove begin (small_put begin it s)) as [more s'].
      destruct more; eexists; (split; [done|]); done.
    - eexists. split; [done|]. eapply small_advance; eauto.
      left. rewrite <-is_eof_spec. congruence. }
  destruct (Z.eqb_spec (value a.1) doc) as [Ev|Ev]; [|destruct (Z.ltb_spec (value a.1) doc) as [Hv|Hv]].
  - destruct (next_spec _ _ (ready_matches _ _ _ Hr)) as (it & -> & HM & HF). cbn [mbind option_bind].
    rewrite Ev, <-Et in HF. apply Hmoved; [done|done|lia].
  - rewrite wrap_small by (unfold is_word; doc_lia). rewrite <-Et.
    destruct (seek_spec _ _ t (ready_matches _ _ _ Hr) Ht ltac:(lia)) as (it & -> & HM & HF).
    cbn [mbind option_bind]. apply Hmoved; [done|done|lia].
  - cbn [mbind option_bind]. eexists. split; [done|]. eapply small_advance; eauto. lia.
Qed.

Lemma small_next_spec s P : small_matches s P -> exists s',
  small_next s = Some (negb (doc_limits.is_eof (small_doc s')), s') /\ small_matches s' P /\
  first_from P (small_doc s + 1) (small_doc s').
Proof.
  intros HM. pose proof (small_docs _ _ HM) as Hdocs. unfold small_next.
  assert (position P (small_doc s)) as Hpos by (destruct HM as (? & _ & _ & _ & _ & _ & _ & ? & _); done).
  pose proof (position_range _ Hdocs _ Hpos) as Hd. destruct (doc_limits.is_eof (small_doc s)) eqn:E.
  { exists s. rewrite E. split; [done|]. split; [done|]. apply is_eof_spec in E. rewrite E.
    split; [by left|lia]. }
  assert (small_doc s <> doc_limits.eof) as Hne by (rewrite <-is_eof_spec; congruence).
  destruct (small_inv_start s P (small_doc s + 1) HM ltac:(lia) Hne) as (zs & H & HP).
  assert (small_begin s < small_end s)%nat as Hlive
    by (destruct HM as (? & _ & _ & _ & _ & _ & Hl & _); by apply Hl).
  destruct (iterate_rule (small_looping (small_doc s + 1) zs.*2 (small_doc s))
    (fun st => small_left st.1.1 st.2) (fun r => small_result P (small_doc s + 1) r.1 r.2) small_next_round)
    with (k := 64%nat) (s := ((small_begin s, doc_limits.eof), s)) as ([b s'] & -> & HR).
  - intros st HL. split; [by eapply small_left_bound|].
    destruct (small_next_round_spec _ _ _ _ P HL eq_refl ltac:(lia) HP) as (r & Hr & Hpost).
    exists r. split; [done|]. destruct r as [?|[b s']]; done.
  - by exists zs.
  - eapply Z.lt_le_trans; [eapply (small_left_bound _ zs.*2 (small_doc s)); by exists zs|done].
  - destruct HR as (HM' & HF & Hb). cbn [fst snd] in *. exists s'. by rewrite Hb.
Qed.

Lemma small_put_id i s (a : adapter S) : small_itrs s !! i = Some a -> small_put i a.1 s = s.
Proof.
  intros E. destruct s as [itrs sb b e d h]. unfold small_put. cbn in *. f_equal.
  apply list_eq. intros k. destruct (decide (i = k)) as [->|].
  - rewrite list_lookup_alter_eq, E. by destruct a.
  - by rewrite list_lookup_alter_ne.
Qed.

(** An iterator has been moved exactly onto the target: the others may lag behind. *)
Lemma small_hit t Ps doc begin min s a it P R : small_looping t Ps doc ((begin, min), s) ->
  (begin < small_end s)%nat -> (exists zs, small_inv t begin min s zs /\ zs.*2 ≡ₚ Ps /\ zs !! begin = Some (a, P)) ->
  value a.1 < t -> doc_limits.min <= t <= doc_limits.eof -> ready t it P -> value it = t ->
  (forall d, R d = any_of Ps d) ->
  small_result R t (negb (doc_limits.is_eof t)) (small_set_doc t (small_put begin it s)).
Proof.
  intros (_ & _ & _ & Hdoc & Hlive) Hlt (zs & H & Hp & E) Hv Ht Hr Hit HR. cbn [fst snd] in *.
  pose proof (lookup_lt_Some _ _ _ E) as Hlen. pose proof (si_bounds _ _ _ _ _ H) as [Hb _].
  assert (position R t) as Hpos.
  { destruct (matches_position _ _ (ready_matches _ _ _ Hr)) as [Ei|[Ei|Ei]]; rewrite Hit in Ei; [doc_lia|by right; left|].
    right; right. rewrite HR, <-(any_of_perm _ _ _ Hp). apply any_of_true. exists P. split; [|done].
    apply list_elem_of_fmap. exists (a, P). split; [done|]. apply list_elem_of_lookup. by exists begin. }
  split; [|split; [|done]].
  - exists (<[begin := ((it, a.2), P)]> zs). cbn [small_set_doc small_put small_itrs small_begin small_end small_doc].
    split; [rewrite (si_itrs _ _ _ _ _ H); by apply put_fmap|]. rewrite length_insert. split; [apply H|].
    split; [apply Forall_insert; [apply H|done]|]. split; [lia|].
    assert (small_begin s <= begin)%nat as Hbeg.
    { apply Nat.nlt_ge. intros Hn. pose proof (si_dead _ _ _ _ _ H _ _ E ltac:(lia)) as Hd.
      unfold zvalue in Hd. cbn in Hd. lia. }
    split; [|split; [|split; [done|]]].
    + intros j z Hj Hout. apply list_lookup_insert_Some in Hj as [(-> & _)|[_ Hj]]; [lia|by eapply si_dead].
    + intros Hne. split; [done|]. intros j z Hj Hin.
      apply list_lookup_insert_Some in Hj as [(-> & <- & _)|[_ Hj]]; [|by eapply si_live].
      unfold zvalue. cbn. by rewrite Hit.
    + intros d. rewrite (put_sets _ _ _ _ _ E), HR. symmetry. by apply any_of_perm.
  - cbn [small_set_doc small_doc]. destruct Hpos as [->|[->|?]]; [doc_lia|by split; [left|lia]|by apply first_from_hit].
Qed.

Lemma small_seek_round_spec t Ps doc st P : small_looping t Ps doc st ->
  doc_limits.min <= t <= doc_limits.eof -> (forall d, P d = any_of Ps d) -> exists r,
  small_seek_round t st = Some r /\
  match r with
  | inl st' => small_looping t Ps doc st' /\ small_left st'.1.1 st'.2 < small_left st.1.1 st.2
  | inr s' => exists b, small_result P t b s'
  end.
Proof.
  intros HL Ht HP. destruct st as [[begin min] s]. unfold small_seek_round.
  destruct (Nat.eqb_spec begin (small_end s)) as [E|E].
  { eexists. split; [done|]. exists true. by eapply small_finish. }
  destruct (small_current _ _ _ _ _ _ HL E) as (Hlt & a & P0 & Ea & Hr & Hz). rewrite Ea. cbn [mbind option_bind].
  pose proof (ready_range _ _ _ Hr). destruct (Z.ltb_spec (value a.1) t) as [Hv|Hv].
  2:{ exists (inl (((begin + 1)%nat, Z.min min (value a.1)), small_put begin a.1 s)).
      split; [by rewrite (small_put_id _ _ _ Ea)|]. eapply small_advance; eauto. }
  destruct (seek_spec _ _ t (ready_matches _ _ _ Hr) Ht ltac:(lia)) as (it & -> & HM & HF).
  cbn [mbind option_bind]. pose proof (first_from_ge _ _ _ HF ltac:(lia)).
  assert (ready t it P0) as Hr' by (eapply first_from_ready; [done|exact HF|lia]).
  destruct (Z.eqb_spec (value it) t) as [Et|Et].
  { eexists. split; [done|]. exists (negb (doc_limits.is_eof t)). rewrite Et. by eapply small_hit. }
  destruct (doc_limits.is_eof (value it)) eqn:Ee.
  - apply is_eof_spec in Ee.
    pose proof (small_drop _ _ _ _ _ _ _ it P0 HL Hlt Hz Hv Ht Hr' Ee P HP) as Hdrop.
    destruct (small_remove begin (small_put begin it s)) as [more s'].
    destruct more; eexists; (split; [done|]); [done|by exists false].
  - eexists. split; [done|]. eapply small_advance; eauto. left. rewrite <-is_eof_spec. congruence.
Qed.

Lemma small_seek_spec s P t : small_matches s P -> doc_limits.min <= t <= doc_limits.eof ->
  small_doc s <= t -> exists s',
  small_seek t s = Some (small_doc s', s') /\ small_matches s' P /\ first_from P t (small_doc s').
Proof.
  intros HM Ht Hle. unfold small_seek. destruct (doc_limits.is_eof (small_doc s)) eqn:E.
  { exists s. split; [done|]. split; [done|]. apply is_eof_spec in E. rewrite E. split; [by left|lia]. }
  assert (small_doc s <> doc_limits.eof) as Hne by (rewrite <-is_eof_spec; congruence).
  destruct (small_inv_start s P t HM ltac:(lia) Hne) as (zs & H & HP).
  assert (small_begin s < small_end s)%nat as Hlive
    by (destruct HM as (? & _ & _ & _ & _ & _ & Hl & _); by apply Hl).
  destruct (iterate_rule (small_looping t zs.*2 (small_doc s))
    (fun st => small_left st.1.1 st.2) (fun r => exists b, small_result P t b r) (small_seek_round t))
    with (k := 64%nat) (s := ((small_begin s, doc_limits.eof), s)) as (s' & -> & b & HR).
  - intros st HL. split; [by eapply small_left_bound|].
    destruct (small_seek_round_spec _ _ _ _ P HL Ht HP) as (r & Hr & Hpost).
    exists r. split; [done|]. by destruct r.
  - by exists zs.
  - eapply Z.lt_le_trans; [eapply (small_left_bound _ zs.*2 (small_doc s)); by exists zs|done].
  - destruct HR as (HM' & HF & _). by exists s'.
Qed.

Lemma small_filter_fmap (ps : list (adapter S * (Z -> bool))) b :
  (filter (fun z => z.1.2 = b) ps).*1 = filter (fun a => a.2 = b) ps.*1.
Proof.
  induction ps as [|z ps IH]; [done|]. rewrite fmap_cons, !filter_cons.
  destruct (decide (z.1.2 = b)); cbn; by rewrite IH.
Qed.

(** A fresh disjunction of fresh iterators. *)
Lemma small_fresh (ps : list (adapter S * (Z -> bool))) : ps <> [] -> Z.of_nat (length ps) < 2 ^ 62 ->
  Forall (fun z => matches z.1.1 z.2 /\ value z.1.1 = doc_limits.invalid) ps ->
  small_matches (small_make ps.*1) (any_of ps.*2).
Proof.
  intros Hne Hlen HF.
  set (zs := filter (fun z => z.1.2 = true) ps ++ rev (filter (fun z => z.1.2 = false) ps)).
  assert (zs ≡ₚ ps) as Hp.
  { unfold zs. rewrite <-Permutation_rev. clear. induction ps as [|[[it b] P] ps IH]; [done|].
    rewrite !filter_cons. cbn [fst snd]. destruct b.
    - rewrite decide_True, decide_False by done. cbn. by rewrite IH.
    - rewrite decide_False, decide_True by done. rewrite <-Permutation_middle. by rewrite IH. }
  exists zs. unfold small_make. cbn [small_itrs small_doc small_begin small_end].
  rewrite decide_False by (intros E; by apply fmap_nil_inv in E).
  assert (Forall (fun z => matches z.1.1 z.2 /\ value z.1.1 = doc_limits.invalid) zs) as HF' by (by rewrite Hp).
  split; [|split; [by rewrite Hp|split; [|split; [|split; [|split; [|split; [by left|]]]]]]].
  - unfold zs. rewrite fmap_app, <-!small_filter_fmap. f_equal. symmetry. apply (map_rev fst).
  - eapply Forall_impl; [exact HF'|]. intros z [? ?]. by apply ready_initial.
  - rewrite length_fmap, Hp. lia.
  - intros j z Hj Hout. apply lookup_lt_Some in Hj. rewrite Hp in Hj. rewrite length_fmap in Hout. lia.
  - intros _. rewrite length_fmap. split; [destruct ps; [done|cbn; lia]|].
    intros j z Hj _. rewrite Forall_lookup in HF'. destruct (HF' j z Hj) as [_ E]. unfold zvalue. rewrite E. done.
  - intros d. apply any_of_perm. by rewrite Hp.
Qed.

End small.

#[export, program] Instance small_iterator_spec {S} {D : DocIterator S} {L : DocIteratorSpec S} :
  DocIteratorSpec (small_disjunction S) := {
  matches := small_matches;
}.
Next Obligation. intros. by eapply small_docs. Qed.
Next Obligation. intros S D L s P (zs & _ & _ & _ & _ & _ & _ & Hpos & _). exact Hpos. Qed.
Next Obligation.
  intros S D L s P Q (zs & H1 & H2 & H3 & H4 & H5 & H6 & H7 & H8) E. exists zs.
  repeat (split; [done|]). split; [by eapply position_ext|]. intros d. by rewrite <-E.
Qed.
Next Obligation. intros. by apply small_next_spec. Qed.
Next Obligation. intros. by apply small_seek_spec. Qed.

(** ** Properties *)

(** C6: The disjunctions over one, two and a few iterators refine the cursor over the documents any
    of the iterators has, in whatever order the iterators are given and whether or not they are
    scored; the loops that remove exhausted iterators terminate. *)
Theorem disjunction_refines {S} {D : DocIterator S} {L : DocIteratorSpec S}
  (ps : list (adapter S * (Z -> bool))) cs vs
  (Hfresh : Forall (fun z => matches z.1.1 z.2 /\ value z.1.1 = doc_limits.invalid) ps)
  (Htrace : cursor_trace (any_of ps.*2) doc_limits.invalid cs vs) :
  match ps with
  | [(a, _)] => exists u, run cs (mkUnary a.1) = Some (vs, u)
  | [(a, _); (b, _)] => exists u, run cs (basic_make a.1 b.1) = Some (vs, u)
  | _ => True
  end /\
  (ps <> [] -> Z.of_nat (length ps) < 2 ^ 62 -> exists u, run cs (small_make ps.*1) = Some (vs, u)).
Proof.
  split.
  - destruct ps as [|[a P] [|[b Q] [|? ?]]]; try done.
    + apply Forall_cons_1 in Hfresh as [[HM Hv] _]. cbn in HM, Hv.
      destruct (run_refines (any_of [P]) cs (mkUnary a.1) vs) as (u & Hr & _); [| |by exists u].
      * apply (matches_ext a.1 P); [done|]. intros d. cbn. by rewrite orb_false_r.
      * cbn. by rewrite Hv.
    + apply Forall_cons_1 in Hfresh as [[HM1 Hv1] Hf]. apply Forall_cons_1 in Hf as [[HM2 Hv2] _].
      destruct (run_refines (any_of [P; Q]) cs (basic_make a.1 b.1) vs) as (u & Hr & _); [|done|by exists u].
      by apply basic_fresh.
  - intros Hne Hlen. destruct (run_refines (any_of ps.*2) cs (small_make ps.*1) vs) as (u & Hr & _);
      [by apply small_fresh| |by exists u].
    cbn [value small_iterator small_make small_doc].
    by rewrite decide_False by (intros E; by apply fmap_nil_inv in E).
Qed.

Lemma disjunction_refines_witness :
  let it words b := ((bitset_it_make words tt, b), word_bit words) in
  let ps := [it sample_a true; it sample_b false; it sample_c true] in
  exists u, run [Next; Seek 6; Next; Seek 100; Next] (small_make ps.*1) = Some ([1; 8; 9; 129; 191], u).
Proof.
  intros it ps.
  assert (Forall (fun z => matches z.1.1 z.2 /\ value z.1.1 = doc_limits.invalid) ps) as Hf.
  { repeat constructor; cbn [fst snd it]; eapply sample_ok; auto. }
  assert (cursor_trace (any_of ps.*2) doc_limits.invalid [Next; Seek 6; Next; Seek 100; Next]
            [1; 8; 9; 129; 191]) as HT.
  { apply (check_trace_sound 192); [|vm_compute; reflexivity]. intros d Hd. apply any_of_false. intros P HP.
    cbn in HP. rewrite !elem_of_cons in HP.
    destruct HP as [-> |[-> |[-> |HP]]]; [| | |by apply elem_of_nil in HP]; apply sample_ok; auto. }
  apply (disjunction_refines ps _ _ Hf HT); [discriminate|reflexivity].
Defined.

(** [small_disjunction::hitch_all_iterators] goes wrong when a scored iterator is found to be
    exhausted: the iterator swapped into its place is skipped, so that [visit] misses an iterator
    that has the current document; and when the exhausted iterator is the last one, the loop runs
    past the end of the vector. *)
Example small_visit_loses_iterators :
  let it words := (bitset_it_make words tt, false) in
  let a := it [2 ^ 2 + 2 ^ 5] in let b := it [2 ^ 2 + 2 ^ 3] in let c := it [2 ^ 1 + 2 ^ 5] in
  let visited itrs :=
    '(vs, s) ← run [Next; Seek 5] (small_make itrs);
    Some (vs, option_map (fun r => map value r.1) (small_visit (fun _ => true) s)) in
  word_bit [2 ^ 2 + 2 ^ 5] 5 = true /\
  visited [a; b; c] = Some ([1; 5], Some [5]) /\
  visited [a; c] = Some ([1; 5], Some [5; 5]) /\
  visited [b; a; c] = Some ([1; 5], None).
Proof. vm_compute. repeat split; reflexivity. Qed.
