(* ===== verification/StdHeap.v ===== *)
(** * Binary heaps of the standard library

    [std::push_heap] and [std::pop_heap] on a vector, as core/search/disjunction.hpp and
    core/search/min_match_disjunction.hpp use them: the element at the top may have changed when it
    is popped, so that all that is known of the range is that the order holds below the top.
    [comp x y] says that [x] has less priority than [y]. *)
From S2P Require Import Prelude Disjunction.

Section heap.
Context {A : Type} {HA : Inhabited A} (comp : A -> A -> bool).

(** Moves the hole up to the place of [v]. *)
Fixpoint sift_up (fuel : nat) (l : list A) (hole top : nat) (v : A) : list A :=
  match fuel with
  | O => <[hole := v]> l
  | S fuel =>
      let parent := ((hole - 1) / 2)%nat in
      if (top <? hole)%nat && comp (l !!! parent) v
      then sift_up fuel (<[hole := l !!! parent]> l) parent top v
      else <[hole := v]> l
  end.

(** [std::push_heap(begin, end)]: the last element joins the heap before it. *)
Definition push_heap (l : list A) : list A :=
  let last := (length l - 1)%nat in
  sift_up last l last 0 (l !!! last).

(** Moves the hole down to a leaf of the first [len] elements, along the children of greater
    priority. *)
Fixpoint sift_down (fuel : nat) (l : list A) (hole len : nat) : list A * nat :=
  match fuel with
  | O => (l, hole)
  | S fuel =>
      if (hole <? (len - 1) / 2)%nat then
        let second := (2 * (hole + 1))%nat in
        let second := if comp (l !!! second) (l !!! (second - 1)%nat) then (second - 1)%nat else second in
        sift_down fuel (<[hole := l !!! second]> l) second len
      else if Nat.even len && (hole =? (len - 2) / 2)%nat then
        let second := (2 * hole + 1)%nat in
        (<[hole := l !!! second]> l, second)
      else (l, hole)
  end.

(** [std::pop_heap(begin, end)]: the top goes to the end, the rest becomes a heap. *)
Definition pop_heap (l : list A) : list A :=
  let last := (length l - 1)%nat in
  if (length l <=? 1)%nat then l
  else
    let v := l !!! last in
    let h := take last (<[last := l !!! 0%nat]> l) in
    let '(h, hole) := sift_down last h 0 last in
    sift_up hole h hole 0 v ++ [l !!! 0%nat].

(** ** Heap order *)

(** [c] is a child of [p]. *)
Definition child (p c : nat) : Prop := (c = 2 * p + 1 \/ c = 2 * p + 2)%nat.

Definition prec (x y : A) : Prop := comp x y = false.

Definition edge (h : list A) (p c : nat) : Prop :=
  forall x y, h !! p = Some x -> h !! c = Some y -> prec x y.

Definition is_heap (h : list A) : Prop := forall p c, child p c -> edge h p c.

(** The order holds below the top. *)
Definition below_top (h : list A) : Prop := forall p c, child p c -> (0 < p)%nat -> edge h p c.

Class StrictWeakOrder := {
  prec_refl x : prec x x;
  prec_trans x y z : prec x y -> prec y z -> prec x z;
  prec_total x y : prec x y \/ prec y x;
}.

Context {HO : StrictWeakOrder}.

(** All edges but the one to the hole; grandparent and grandchildren of the hole are in order. *)
Definition heap_except (i : nat) (h : list A) : Prop :=
  (forall p c, child p c -> c <> i -> edge h p c) /\
  (forall p c, child p i -> child i c -> edge h p c).

Definition heap_around (i : nat) (h : list A) : Prop :=
  (forall p c, child p c -> c <> i -> p <> i -> edge h p c) /\
  (forall p c, child p i -> child i c -> edge h p c).

Lemma swap_insert (h : list A) i j x y : h !! i = Some x -> h !! j = Some y ->
  swap i j h = <[i := y]> (<[j := x]> h).
Proof using Type. intros E1 E2. unfold swap. by rewrite E1, E2. Qed.

Lemma sift_up_spec fuel : forall l hole v, (hole <= fuel)%nat -> (hole < length l)%nat ->
  heap_except hole (<[hole := v]> l) ->
  sift_up fuel l hole 0 v ≡ₚ <[hole := v]> l /\ is_heap (sift_up fuel l hole 0 v).
Proof using HO.
  induction fuel as [|fuel IH]; intros l hole v Hf Hlen HE.
  { split; [done|]. intros p c Hc. apply (proj1 HE); [done|]. unfold child in Hc. lia. }
  cbn [sift_up]. set (parent := ((hole - 1) / 2)%nat).
  destruct (Nat.ltb_spec 0 hole) as [Hpos|Hz]; cbn [andb].
  2:{ split; [done|]. intros p c Hc. apply (proj1 HE); [done|]. unfold child in Hc. lia. }
  assert (child parent hole) as Hch.
  { unfold child, parent. pose proof (Nat.div_mod_eq (hole - 1) 2).
    pose proof (Nat.mod_upper_bound (hole - 1) 2 ltac:(lia)). lia. }
  assert (parent < hole)%nat by (unfold child in Hch; lia).
  destruct (lookup_lt_is_Some_2 l parent ltac:(lia)) as [x Ex].
  rewrite (list_lookup_total_correct _ _ _ Ex). set (h := <[hole := v]> l) in *.
  assert (h !! hole = Some v) as Ev by by apply list_lookup_insert_eq.
  assert (h !! parent = Some x) as Exh by (unfold h; by rewrite list_lookup_insert_ne by lia).
  destruct (comp x v) eqn:Ec.
  - assert (<[parent := v]> (<[hole := x]> l) = swap parent hole h) as Esw.
    { rewrite (swap_insert _ _ _ _ _ Exh Ev). unfold h. by rewrite list_insert_insert_eq. }
    assert (length h = length l) as Hl by apply length_insert.
    assert (prec v x) as Hvx by (destruct (prec_total x v) as [Hp|Hp]; [unfold prec in Hp; congruence|done]).
    destruct (IH (<[hole := x]> l) parent v) as [Hp Hh]; [lia|rewrite length_insert; lia| |].
    + rewrite Esw. destruct HE as [HE1 HE2]. split; intros p c Hc Hc2 a b Ha Hb;
        rewrite !swap_lookup in Ha, Hb by lia; unfold child in *.
      * destruct (decide (c = parent)); [done|]. destruct (decide (c = hole)) as [->|].
        -- assert (p = parent) as -> by lia. rewrite decide_True in Ha by done. congruence.
        -- destruct (decide (p = parent)) as [->|].
           ++ apply (prec_trans _ x); [congruence|]. apply (HE1 parent c); try done; unfold child; lia.
           ++ destruct (decide (p = hole)) as [->|].
              ** rewrite Exh in Ha. injection Ha as <-. by apply (HE2 parent c).
              ** by apply (HE1 p c).
      * destruct (decide (p = parent)); [lia|]. destruct (decide (p = hole)); [lia|].
        assert (prec a x) as Hax by (apply (HE1 p parent); try done; unfold child; lia).
        destruct (decide (c = parent)); [lia|]. destruct (decide (c = hole)) as [->|]; [congruence|].
        apply (prec_trans _ x); [done|]. apply (HE1 parent c); try done; unfold child; lia.
    + split; [|done]. rewrite Hp, Esw. apply swap_perm; lia.
  - split; [done|]. intros p c Hc. destruct (decide (c = hole)) as [->|]; [|by apply (proj1 HE)].
    assert (p = parent) as -> by (unfold child in *; lia). intros a b Ha Hb. rewrite Exh in Ha. rewrite Ev in Hb.
    unfold prec. congruence.
Qed.

Lemma push_heap_spec h x : is_heap h -> push_heap (h ++ [x]) ≡ₚ h ++ [x] /\ is_heap (push_heap (h ++ [x])).
Proof using HO.
  intros Hh. unfold push_heap. rewrite length_app. cbn [length].
  replace (length h + 1 - 1)%nat with (length h) by lia.
  rewrite (list_lookup_total_middle h [] x (length h) eq_refl).
  assert (<[length h := x]> (h ++ [x]) = h ++ [x]) as E.
  { apply list_insert_id. by rewrite list_lookup_middle. }
  rewrite <-E at 2. apply sift_up_spec; [lia|rewrite length_app; cbn; lia|]. rewrite E. split.
  - intros p c Hc Hne a b Ha Hb. pose proof (lookup_lt_Some _ _ _ Hb) as Hlt. rewrite length_app in Hlt. cbn in Hlt.
    assert (c < length h)%nat by lia. assert (p < c)%nat by (unfold child in Hc; lia).
    rewrite lookup_app_l in Ha, Hb by lia. by apply (Hh p c).
  - intros p c _ Hc a b _ Hb. apply lookup_lt_Some in Hb. rewrite length_app in Hb. cbn in Hb.
    unfold child in Hc. lia.
Qed.

(** Moving the child [c] of greatest priority into the hole [p]. *)
Lemma hole_down (h : list A) p c v y : (p < length h)%nat -> h !! c = Some y -> child p c ->
  heap_around p (<[p := v]> h) ->
  (forall d z, child p d -> h !! d = Some z -> prec y z) ->
  <[c := v]> (<[p := y]> h) ≡ₚ <[p := v]> h /\ heap_around c (<[c := v]> (<[p := y]> h)).
Proof using HO.
  intros Hp Ey Hc [H1 H2] Hbest. set (g := <[p := v]> h) in *.
  assert (p < c)%nat as Hpc by (unfold child in Hc; lia).
  assert (g !! p = Some v) as Ev by by apply list_lookup_insert_eq.
  assert (forall d, d <> p -> g !! d = h !! d) as Hg by (intros; by apply list_lookup_insert_ne).
  assert (length g = length h) as Hl by apply length_insert.
  pose proof (lookup_lt_Some _ _ _ Ey) as Hcl.
  assert (<[c := v]> (<[p := y]> h) = swap c p g) as Esw.
  { rewrite (swap_insert g c p y v) by (try done; by rewrite Hg by lia). unfold g.
    by rewrite list_insert_insert_eq. }
  rewrite Esw. split; [apply swap_perm; lia|].
  split; intros q d Hq; [intros Hdc Hqc|intros Hd]; intros a b Ha Hb; rewrite !swap_lookup in Ha, Hb by lia.
  - rewrite (decide_False (P := q = c)) in Ha by done. rewrite (decide_False (P := d = c)) in Hb by done.
    destruct (decide (q = p)) as [->|Hqp].
    + rewrite Hg, Ey in Ha by lia. injection Ha as <-. rewrite decide_False in Hb by (unfold child in *; lia).
      rewrite Hg in Hb by (unfold child in *; lia). by apply (Hbest d).
    + destruct (decide (d = p)) as [->|Hdp].
      * rewrite Hg, Ey in Hb by lia. injection Hb as <-. apply (H2 q c); [done|done|done|by rewrite Hg by lia].
      * by apply (H1 q d).
  - assert (q = p) as -> by (unfold child in *; lia). rewrite decide_False, decide_True in Ha by lia.
    rewrite Hg, Ey in Ha by lia. injection Ha as <-.
    rewrite decide_False, decide_False in Hb by (unfold child in *; lia).
    apply (H1 c d); [done|unfold child in *; lia|lia|by rewrite Hg by lia|done].
Qed.

Lemma sift_down_spec fuel : forall h hole v, (hole < length h)%nat -> (length h <= fuel + hole)%nat ->
  heap_around hole (<[hole := v]> h) ->
  let '(h', hole') := sift_down fuel h hole (length h) in
  (hole' < length h')%nat /\ length h' = length h /\ <[hole' := v]> h' ≡ₚ <[hole := v]> h /\
  heap_except hole' (<[hole' := v]> h').
Proof using HO.
  induction fuel as [|fuel IH]; intros h hole v Hlt Hf HA'; [lia|]. cbn [sift_down].
  assert (forall h' hole', heap_around hole' h' -> (forall c, child hole' c -> (length h' <= c)%nat) ->
            heap_except hole' h') as Hleaf.
  { intros h' hole' [H1 H2] Hno. split; [|done]. intros p c Hc Hne.
    destruct (decide (p = hole')) as [->|]; [|by apply H1].
    intros a b _ Hb. apply lookup_lt_Some in Hb. specialize (Hno c Hc). lia. }
  pose proof (Nat.div_mod_eq (length h - 1) 2) as Hd1.
  pose proof (Nat.mod_upper_bound (length h - 1) 2 ltac:(lia)) as Hm1.
  destruct (Nat.ltb_spec hole ((length h - 1) / 2)) as [Hin|Hout].
  - set (r := (2 * (hole + 1))%nat). set (c := if comp _ _ then (r - 1)%nat else r).
    destruct (lookup_lt_is_Some_2 h r ltac:(lia)) as [yr Er].
    destruct (lookup_lt_is_Some_2 h (r - 1) ltac:(lia)) as [yl El].
    assert (child hole c) as Hch by (unfold c, child; destruct (comp _ _); lia).
    assert (exists y, h !! c = Some y /\ (forall d z, child hole d -> h !! d = Some z -> prec y z)) as (y & Ey & Hbest).
    { unfold c. rewrite (list_lookup_total_correct _ _ _ Er), (list_lookup_total_correct _ _ _ El).
      destruct (comp yr yl) eqn:Ec; eexists; (split; [eassumption|]); intros d z [->|Hd] Hz.
      - replace (2 * hole + 1)%nat with (r - 1)%nat in Hz by lia. rewrite El in Hz. injection Hz as <-. apply prec_refl.
      - replace d with r in Hz by lia. rewrite Er in Hz. injection Hz as <-.
        destruct (prec_total yl yr) as [|Hp]; [done|unfold prec in Hp; congruence].
      - replace (2 * hole + 1)%nat with (r - 1)%nat in Hz by lia. rewrite El in Hz. by injection Hz as <-.
      - replace d with r in Hz by lia. rewrite Er in Hz. injection Hz as <-. apply prec_refl. }
    rewrite (list_lookup_total_correct _ _ _ Ey).
    destruct (hole_down h hole c v y Hlt Ey Hch HA' Hbest) as [Hp Ha].
    specialize (IH (<[hole := y]> h) c v). rewrite length_insert in IH.
    specialize (IH ltac:(by eapply lookup_lt_Some) ltac:(unfold child in Hch; lia) Ha).
    destruct (sift_down fuel (<[hole:=y]> h) c (length h)) as [h' hole'].
    destruct IH as (I1 & I2 & I3 & I4). split; [done|]. split; [done|]. split; [by rewrite I3|done].
  - destruct (Nat.even (length h)) eqn:Eev; cbn [andb].
    + apply Nat.even_spec in Eev as [m Em].
      assert ((length h - 2) / 2 = m - 1)%nat as -> by (symmetry; apply (Nat.div_unique _ _ _ 0); lia).
      destruct (Nat.eqb_spec hole (m - 1)) as [Eh|Eh].
      * destruct (lookup_lt_is_Some_2 h (2 * hole + 1) ltac:(lia)) as [y Ey].
        rewrite (list_lookup_total_correct _ _ _ Ey).
        destruct (hole_down h hole (2 * hole + 1)%nat v y Hlt Ey ltac:(unfold child; lia) HA') as [Hp Ha].
        { intros d z [->|Hd] Hz; [rewrite Ey in Hz; injection Hz as <-; apply prec_refl|].
          apply lookup_lt_Some in Hz. lia. }
        rewrite length_insert. split; [lia|]. split; [done|]. split; [done|]. apply Hleaf; [done|].
        rewrite !length_insert. unfold child. lia.
      * split; [done|]. split; [done|]. split; [done|]. apply Hleaf; [done|]. rewrite length_insert. unfold child. lia.
    + assert (Nat.odd (length h) = true) as Hodd by (by rewrite <-Nat.negb_even, Eev).
      apply Nat.odd_spec in Hodd as [m Em].
      split; [done|]. split; [done|]. split; [done|]. apply Hleaf; [done|]. rewrite length_insert. unfold child. lia.
Qed.

Lemma pop_heap_spec x t : below_top (x :: t) -> exists h,
  pop_heap (x :: t) = h ++ [x] /\ h ≡ₚ t /\ is_heap h.
Proof using HO.
  intros Hb. unfold pop_heap. cbn [length]. destruct (Nat.leb_spec (S (length t)) 1) as [Hle|Hgt].
  { destruct t; [|cbn in Hle; lia]. exists []. split; [done|]. split; [done|]. intros p c _ a b Ha. by rewrite lookup_nil in Ha. }
  replace (S (length t) - 1)%nat with (length t) by lia.
  destruct t as [|z t' _] using rev_ind; [cbn in Hgt; lia|]. rewrite length_app in *. cbn [length] in *.
  replace (length t' + 1)%nat with (S (length t')) in * by lia.
  change ((x :: t' ++ [z]) !!! 0%nat) with x.
  assert ((x :: t' ++ [z]) !!! S (length t') = z) as ->.
  { apply (list_lookup_total_middle (x :: t') [] z). done. }
  assert (take (S (length t')) (<[S (length t') := x]> (x :: t' ++ [z])) = x :: t') as ->.
  { rewrite take_insert_ge by lia. cbn. by rewrite take_app_length. }
  pose proof (sift_down_spec (S (length t')) (x :: t') 0 z ltac:(cbn; lia) ltac:(cbn; lia)) as Hdown.
  cbn [length] in Hdown. destruct (sift_down _ _ _ _) as [h' hole'].
  destruct Hdown as (H1 & H2 & H3 & H4).
  { split.
    - intros p c Hc Hc0 Hp0 a b Ha Hb'. cbn in Ha, Hb'. destruct p as [|p]; [done|]. destruct c as [|c]; [done|].
      cbn in Ha, Hb'. apply (Hb (S p) (S c) Hc ltac:(lia)); cbn.
      + by apply lookup_app_l_Some.
      + by apply lookup_app_l_Some.
    - intros p c Hp. unfold child in Hp. lia. }
  destruct (sift_up_spec hole' h' hole' z ltac:(lia) H1 H4) as [Hp Hh].
  exists (sift_up hole' h' hole' 0 z). split; [done|]. split; [|done]. rewrite Hp, H3. cbn.
  by rewrite Permutation_app_comm.
Qed.

Lemma pop_heap_heap x t : is_heap (x :: t) -> exists h, pop_heap (x :: t) = h ++ [x] /\ h ≡ₚ t /\ is_heap h.
Proof using HO. intros H. apply pop_heap_spec. intros p c Hc _. by apply H. Qed.

(** The top precedes every element. *)
Lemma is_heap_top x t : is_heap (x :: t) -> forall y, y ∈ x :: t -> prec x y.
Proof using HO.
  intros H. assert (forall n i y, (i <= n)%nat -> (x :: t) !! i = Some y -> prec x y) as Hi.
  { induction n as [|n IH]; intros i y Hle Hy.
    - replace i with 0%nat in Hy by lia. injection Hy as <-. apply prec_refl.
    - destruct i as [|i]; [injection Hy as <-; apply prec_refl|].
      pose proof (Nat.div_mod_eq i 2). pose proof (Nat.mod_upper_bound i 2 ltac:(lia)).
      pose proof (lookup_lt_Some _ _ _ Hy).
      destruct (lookup_lt_is_Some_2 (x :: t) (i / 2) ltac:(lia)) as [z Hz].
      apply (prec_trans _ z); [apply (IH (i / 2)%nat); [lia|done]|].
      apply (H (i / 2)%nat (S i)); [unfold child; lia|done|done]. }
  intros y [i Hy]%list_elem_of_lookup. by apply (Hi i i).
Qed.

End heap.

Arguments StrictWeakOrder {A} comp.

(** The order depends on the elements' priorities only. *)
Lemma is_heap_ext {A} (comp comp' : A -> A -> bool) h :
  (forall x y, x ∈ h -> y ∈ h -> comp x y = comp' x y) -> is_heap comp h -> is_heap comp' h.
Proof.
  intros E H p c Hc x y Hx Hy. unfold prec. rewrite <-E; [by apply (H p c)| |];
    apply list_elem_of_lookup; by eexists.
Qed.
