(* ===== verification/HeapDisjunction.v ===== *)
(** * The heap-based disjunction

    [disjunction] of core/search/disjunction.hpp: an external heap of iterator indices, ordered by
    document, behind a leading iterator on the current document. Iterators in the heap may lag
    behind the current document after a [seek] that found its target early. *)
From S2P Require Import Prelude DocIterators Bitset Conjunction Disjunction StdHeap.

#[local] Obligation Tactic := idtac.

Section definitions.
Context {S : Type} {D : DocIterator S}.

Record disjunction := mkDisj {
  dj_itrs : list S;
  dj_heap : list nat;
  dj_doc : Z;
}.

(** The document of [itrs_[i]]. *)
Definition itr_value (itrs : list S) (i : nat) : Z :=
  match itrs !! i with Some it => value it | None => 0 end.

(** [itrs_[lhs].value() > itrs_[rhs].value()] *)
Definition dj_comp (itrs : list S) (lhs rhs : nat) : bool := itr_value itrs rhs <? itr_value itrs lhs.

Definition disjunction_make (itrs : list S) : disjunction :=
  {| dj_itrs := itrs; dj_heap := seq 0 (length itrs);
     dj_doc := if decide (itrs = []) then doc_limits.eof else doc_limits.invalid |}.

Definition dj_set_doc (doc : Z) (d : disjunction) : disjunction := mkDisj (dj_itrs d) (dj_heap d) doc.
Definition dj_set_heap (heap : list nat) (d : disjunction) : disjunction := mkDisj (dj_itrs d) heap (dj_doc d).
(** [itrs_[i]] after a call that changed it. *)
Definition dj_put (i : nat) (it : S) (d : disjunction) : disjunction :=
  mkDisj (<[i := it]> (dj_itrs d)) (dj_heap d) (dj_doc d).

Definition dj_push (d : disjunction) (range : list nat) : list nat := push_heap (dj_comp (dj_itrs d)) range.
(** [detail::pop_heap] *)
Definition dj_pop (d : disjunction) (range : list nat) : list nat := pop_heap (dj_comp (dj_itrs d)) range.

(** [lead()]: the index [heap_.back()] and the iterator *)
Definition dj_lead (d : disjunction) : option (nat * S) :=
  i ← last (dj_heap d);
  it ← dj_itrs d !! i;
  Some (i, it).

(** [top()] *)
Definition dj_top (d : disjunction) : option (nat * S) :=
  i ← head (dj_heap d);
  it ← dj_itrs d !! i;
  Some (i, it).

Definition remove_lead (d : disjunction) : bool * disjunction :=
  let heap := removelast (dj_heap d) in
  match heap with
  | [] => (false, dj_set_heap [] d)
  | _ => (true, dj_set_heap (dj_pop d heap) d)
  end.

Definition refresh_lead (d : disjunction) : disjunction :=
  dj_set_heap (dj_pop d (dj_push d (dj_heap d))) d.

Definition disjunction_next_round (d : disjunction) : option (disjunction + (bool * disjunction)) :=
  '(i, it) ← dj_lead d;
  if dj_doc d <? value it then Some (inr (true, dj_set_doc (value it) d))
  else
    '(exhausted, it) ← (if value it =? dj_doc d then '(b, it) ← next it; Some (negb b, it)
                        else '(v, it) ← seek (dj_doc d +[32] 1) it; Some (doc_limits.is_eof v, it));
    let d := dj_put i it d in
    if exhausted : bool then
      let '(more, d) := remove_lead d in
      if more : bool then Some (inl (refresh_lead d))
      else Some (inr (false, dj_set_doc doc_limits.eof d))
    else Some (inl (refresh_lead d)).

Definition disjunction_next (d : disjunction) : option (bool * disjunction) :=
  if doc_limits.is_eof (dj_doc d) then Some (false, d) else iterate 64 disjunction_next_round d.

Definition disjunction_seek_round (target : Z) (d : disjunction) : option (disjunction + disjunction) :=
  '(i, it) ← dj_lead d;
  if target <=? value it then Some (inr (dj_set_doc (value it) d))
  else
    '(v, it) ← seek target it;
    let d := dj_put i it d in
    if doc_limits.is_eof v then
      let '(more, d) := remove_lead d in
      if negb more then Some (inr (dj_set_doc doc_limits.eof d))
      else Some (inl (if v =? target then d else refresh_lead d))
    else Some (inl (if v =? target then d else refresh_lead d)).

Definition disjunction_seek (target : Z) (d : disjunction) : option (Z * disjunction) :=
  if doc_limits.is_eof (dj_doc d) then Some (dj_doc d, d)
  else
    d ← iterate 64 (disjunction_seek_round target) d;
    Some (dj_doc d, d).

(** [hitch_all_iterators]: one round of its loop; the range is the heap without the lead. *)
Definition dj_hitch_round (d : disjunction) : option (disjunction + disjunction) :=
  lead ← last (dj_heap d);
  let range := removelast (dj_heap d) in
  match range with
  | [] => Some (inr d)
  | _ =>
      '(i, it) ← dj_top d;
      if value it <? dj_doc d then
        '(v, it) ← seek (dj_doc d) it;
        let d := dj_put i it d in
        if doc_limits.is_eof v then
          (* pop(begin, end); swap( *--end, heap_.back()); heap_.pop_back() *)
          Some (inl (dj_set_heap (removelast (dj_pop d range) ++ [lead]) d))
        else Some (inl (dj_set_heap (dj_push d (dj_pop d range) ++ [lead]) d))
      else Some (inr d)
  end.

Definition dj_hitch (d : disjunction) : option disjunction := iterate 64 dj_hitch_round d.

End definitions.

(** [irstd::heap::for_each_if] (core/utils/std.hpp) with a function that collects: the elements of a
    range that satisfy the predicate and whose ancestors do, in preorder. *)
Fixpoint for_each_if {A} (fuel : nat) (range : list A) (idx : nat) (pred : A -> bool) : list A :=
  match fuel with
  | O => []
  | S fuel =>
      match range !! idx with
      | Some x =>
          if pred x then
            x :: for_each_if fuel range (2 * idx + 1) pred ++ for_each_if fuel range (2 * idx + 2) pred
          else []
      | None => []
      end
  end.

Arguments disjunction : clear implicits.

(** [visit] with a visitor that always continues: the indices of the iterators it is called on. *)
Definition disjunction_visit {S} {D : DocIterator S} (d : disjunction S) : option (list nat * disjunction S) :=
  match dj_heap d with
  | [] => Some ([], d)
  | _ =>
      d ← dj_hitch d;
      '(i, it) ← dj_lead d;
      let range := removelast (dj_heap d) in
      Some (i :: for_each_if (Datatypes.S (length range)) range 0
                   (fun k => itr_value (dj_itrs d) k =? value it), d)
  end.

#[export] Instance disjunction_iterator {S} {D : DocIterator S} : DocIterator (disjunction S) := {
  value := dj_doc;
  next := disjunction_next;
  seek := disjunction_seek;
}.

(** ** Correctness *)

#[export] Instance dj_order {S} {D : DocIterator S} (itrs : list S) : StrictWeakOrder (dj_comp itrs).
Proof. split; unfold prec, dj_comp; intros; lia. Qed.

Section correctness.
Context {S : Type} {D : DocIterator S} {L : DocIteratorSpec S}.
Implicit Types (d : disjunction S) (P : Z -> bool) (zs : list (S * (Z -> bool))) (i j : nat) (heap : list nat).

Lemma dj_prec (itrs : list S) i j : prec (dj_comp itrs) i j <-> itr_value itrs i <= itr_value itrs j.
Proof. unfold prec, dj_comp. lia. Qed.

(** The iterators with their sets on the way to [t]; those not in the heap are exhausted. *)
Record dj_pool (t : Z) zs d : Prop := {
  dp_itrs : dj_itrs d = zs.*1;
  dp_size : Z.of_nat (length zs) < 2 ^ 62;
  dp_ready : Forall (fun z => ready t z.1 z.2) zs;
  dp_nodup : NoDup (dj_heap d);
  dp_index : forall i, i ∈ dj_heap d -> (i < length zs)%nat;
  dp_dead : forall i z, zs !! i = Some z -> i ∉ dj_heap d -> value z.1 = doc_limits.eof;
  dp_live : forall i, i ∈ dj_heap d -> itr_value (dj_itrs d) i <> doc_limits.eof;
}.

Definition dj_val d i : Z := itr_value (dj_itrs d) i.

(** The lead, and the heap before it. *)
Definition split_heap d (head : list nat) (lead : nat) : Prop :=
  dj_heap d = head ++ [lead] /\ is_heap (dj_comp (dj_itrs d)) head.

(** The lead is the least. *)
Definition lead_least d lead : Prop := forall i, i ∈ dj_heap d -> dj_val d lead <= dj_val d i.

Lemma dj_pool_perm t zs d heap : dj_pool t zs d -> heap ≡ₚ dj_heap d -> dj_pool t zs (dj_set_heap heap d).
Proof.
  intros H Hp. destruct H. constructor; cbn [dj_set_heap dj_itrs dj_heap]; try done.
  - by rewrite Hp.
  - intros i. rewrite Hp. auto.
  - intros i z Hz. rewrite Hp. eauto.
  - intros i. rewrite Hp. auto.
Qed.

Lemma dj_pool_lookup t zs d i : dj_pool t zs d -> i ∈ dj_heap d -> exists it P,
  zs !! i = Some (it, P) /\ dj_itrs d !! i = Some it /\ dj_val d i = value it /\ ready t it P.
Proof.
  intros H Hi. destruct (lookup_lt_is_Some_2 zs i (dp_index _ _ _ H i Hi)) as [[it P] Hz].
  exists it, P. unfold dj_val, itr_value. rewrite (dp_itrs _ _ _ H), list_lookup_fmap, Hz. cbn.
  pose proof (dp_ready _ _ _ H) as Hr. rewrite Forall_lookup in Hr. specialize (Hr i _ Hz). done.
Qed.

(** Popping a heap and leading with what was popped. *)
Lemma dj_pop_least d heap : is_heap (dj_comp (dj_itrs d)) heap -> heap <> [] -> exists head lead,
  dj_pop d heap = head ++ [lead] /\ head ++ [lead] ≡ₚ heap /\ is_heap (dj_comp (dj_itrs d)) head /\
  forall i, i ∈ heap -> dj_val d lead <= dj_val d i.
Proof.
  intros Hh Hne. destruct heap as [|x heap]; [done|].
  destruct (pop_heap_heap (dj_comp (dj_itrs d)) x heap Hh) as (head & E & Hp & Hh').
  exists head, x. split; [done|]. split; [rewrite Hp; by rewrite Permutation_app_comm|]. split; [done|].
  intros i Hi. apply dj_prec. by apply (is_heap_top (dj_comp (dj_itrs d)) x heap).
Qed.

Lemma refresh_lead_spec t zs d head lead : dj_pool t zs d -> split_heap d head lead -> exists head' lead',
  split_heap (refresh_lead d) head' lead' /\ lead_least (refresh_lead d) lead' /\
  dj_pool t zs (refresh_lead d) /\ dj_heap (refresh_lead d) ≡ₚ dj_heap d.
Proof.
  intros H [E Hh]. unfold refresh_lead. rewrite E. unfold dj_push.
  destruct (push_heap_spec (dj_comp (dj_itrs d)) head lead Hh) as [Hp Hh'].
  destruct (dj_pop_least d (push_heap (dj_comp (dj_itrs d)) (head ++ [lead])) Hh') as (head' & lead' & -> & Hp' & Hh2 & Hl).
  { intros En. rewrite En in Hp. apply Permutation_nil in Hp. by destruct head. }
  assert (head' ++ [lead'] ≡ₚ dj_heap d) as Hp2 by (by rewrite Hp', Hp, E).
  exists head', lead'. split; [done|]. split; [|split; [by apply dj_pool_perm|by rewrite <-E]].
  intros i Hi. cbn [dj_set_heap dj_heap] in Hi. unfold dj_val. cbn [dj_set_heap dj_itrs].
  apply Hl. by rewrite <-Hp'.
Qed.

(** Moving the lead leaves the heap before it in order. *)
Lemma dj_put_split d head lead it : split_heap d head lead -> NoDup (dj_heap d) ->
  split_heap (dj_put lead it d) head lead.
Proof.
  intros [E Hh] Hnd. split; [done|]. cbn [dj_put dj_itrs]. eapply is_heap_ext; [|exact Hh].
  rewrite E in Hnd. apply NoDup_app in Hnd as (_ & Hnin & _).
  assert (forall x, x ∈ head -> itr_value (<[lead := it]> (dj_itrs d)) x = itr_value (dj_itrs d) x) as Hv.
  { intros x Hx. unfold itr_value. rewrite list_lookup_insert_ne; [done|]. intros <-.
    by apply (Hnin lead Hx), list_elem_of_singleton. }
  intros x y Hx Hy. unfold dj_comp. by rewrite !Hv.
Qed.

Lemma dj_put_val d i it j : (i < length (dj_itrs d))%nat ->
  dj_val (dj_put i it d) j = if decide (j = i) then value it else dj_val d j.
Proof.
  intros Hi. unfold dj_val, itr_value. cbn [dj_put dj_itrs]. case_decide as E.
  - subst j. by rewrite list_lookup_insert_eq.
  - by rewrite list_lookup_insert_ne.
Qed.

(** An iterator of the heap has been moved to [t] and is not exhausted. *)
Lemma dj_put_pool t zs d i it P it0 : dj_pool t zs d -> i ∈ dj_heap d -> zs !! i = Some (it0, P) ->
  ready t it P -> value it <> doc_limits.eof -> dj_pool t (<[i := (it, P)]> zs) (dj_put i it d).
Proof.
  intros H Hi Hz Hr Hne. pose proof (dp_itrs _ _ _ H) as Eit.
  assert (i < length (dj_itrs d))%nat as Hlt by (rewrite Eit, length_fmap; by eapply lookup_lt_Some).
  destruct H. constructor; cbn [dj_put dj_itrs dj_heap]; try done.
  - by rewrite list_fmap_insert, Eit.
  - by rewrite length_insert.
  - by apply Forall_insert.
  - intros j. rewrite length_insert. auto.
  - intros j z Hj Hnin. apply list_lookup_insert_Some in Hj as [(-> & _)|[_ Hj]]; [done|eauto].
  - intros j Hj. change (itr_value (<[i := it]> (dj_itrs d)) j) with (dj_val (dj_put i it d) j).
    rewrite dj_put_val by done. case_decide; [done|by apply dp_live0].
Qed.

(** It is exhausted: it leaves the heap. *)
Lemma dj_drop_pool t zs d i it P it0 heap : dj_pool t zs d -> zs !! i = Some (it0, P) ->
  dj_heap d ≡ₚ i :: heap -> ready t it P -> value it = doc_limits.eof ->
  dj_pool t (<[i := (it, P)]> zs) (dj_set_heap heap (dj_put i it d)).
Proof.
  intros H Hz Hp Hr He. pose proof (dp_itrs _ _ _ H) as Eit. pose proof (dp_nodup _ _ _ H) as Hnd.
  assert (i < length (dj_itrs d))%nat as Hlt by (rewrite Eit, length_fmap; by eapply lookup_lt_Some).
  rewrite Hp in Hnd. apply NoDup_cons in Hnd as [Hnin Hnd].
  assert (forall j, j ∈ heap -> j ∈ dj_heap d) as Hin by (intros j; rewrite Hp, elem_of_cons; auto).
  destruct H. constructor; cbn [dj_set_heap dj_put dj_itrs dj_heap]; try done.
  - by rewrite list_fmap_insert, Eit.
  - by rewrite length_insert.
  - by apply Forall_insert.
  - intros j. rewrite length_insert. auto.
  - intros j z Hj Hn. apply list_lookup_insert_Some in Hj as [(-> & <- & _)|[Hne Hj]]; [done|].
    apply (dp_dead0 j z Hj). rewrite Hp, elem_of_cons. intros [->|?]; done.
  - intros j Hj. change (itr_value (<[i := it]> (dj_itrs d)) j) with (dj_val (dj_put i it d) j).
    rewrite dj_put_val by done. case_decide; [congruence|by apply dp_live0, Hin].
Qed.

Lemma dj_put_sets zs i it it0 (P : Z -> bool) : zs !! i = Some (it0, P) -> (<[i := (it, P)]> zs).*2 = zs.*2.
Proof. intros E. rewrite list_fmap_insert. cbn [snd]. apply list_insert_id. by rewrite list_lookup_fmap, E. Qed.

(** The number of iterators of the heap that have not reached [t]. *)
Definition dj_behind t d : Z := Z.of_nat (length (filter (fun i => dj_val d i < t) (dj_heap d))).

Lemma dj_behind_perm t d heap : heap ≡ₚ dj_heap d -> dj_behind t (dj_set_heap heap d) = dj_behind t d.
Proof. intros Hp. unfold dj_behind. cbn [dj_set_heap dj_heap]. by rewrite Hp. Qed.

Lemma dj_behind_split t d head lead : dj_heap d = head ++ [lead] ->
  dj_behind t d = Z.of_nat (length (filter (fun i => dj_val d i < t) head)) + (if dj_val d lead <? t then 1 else 0).
Proof.
  intros E. unfold dj_behind. rewrite E, filter_app, length_app, filter_cons.
  destruct (Z.ltb_spec (dj_val d lead) t); [rewrite decide_True by done|rewrite decide_False by lia]; cbn; lia.
Qed.

(** Moving an iterator does not change the position of the others. *)
Lemma dj_put_other d x it i : i <> x -> dj_val (dj_put x it d) i = dj_val d i.
Proof. intros Hne. unfold dj_val, itr_value. cbn. by rewrite list_lookup_insert_ne. Qed.

Lemma dj_filter_put t d x it heap : x ∉ heap ->
  filter (fun i => dj_val (dj_put x it d) i < t) heap = filter (fun i => dj_val d i < t) heap.
Proof.
  induction heap as [|y heap IH]; intros Hx; [done|]. apply not_elem_of_cons in Hx as [Hy Hx].
  rewrite !filter_cons, dj_put_other, IH by done. done.
Qed.

Lemma dj_behind_head t d head lead it : split_heap d head lead -> NoDup (dj_heap d) ->
  filter (fun i => dj_val (dj_put lead it d) i < t) head = filter (fun i => dj_val d i < t) head.
Proof.
  intros [E _] Hnd. rewrite E in Hnd. apply NoDup_app in Hnd as (_ & Hnin & _).
  apply dj_filter_put. intros Hin. by apply (Hnin lead Hin), list_elem_of_singleton.
Qed.

(** What the loops keep: the sets, the order, and that a lead that has reached [t] is the least or
    stands on [t]. *)
Definition dj_looping t (Ps : list (Z -> bool)) doc d : Prop :=
  exists zs head lead, dj_pool t zs d /\ zs.*2 = Ps /\ split_heap d head lead /\ dj_doc d = doc /\
    (t <= dj_val d lead -> lead_least d lead \/ dj_val d lead = t).

Lemma dj_lead_eq d head lead it : dj_heap d = head ++ [lead] -> dj_itrs d !! lead = Some it ->
  dj_lead d = Some (lead, it).
Proof. intros E Ei. unfold dj_lead. rewrite E, last_snoc. cbn. by rewrite Ei. Qed.

(** The lead has been moved to [t], and is alive. *)
Lemma dj_step_live t zs d head lead it0 it P : dj_pool t zs d -> split_heap d head lead ->
  zs !! lead = Some (it0, P) -> dj_val d lead < t -> ready t it P -> t <= value it ->
  value it <> doc_limits.eof ->
  let d1 := dj_put lead it d in let zs1 := <[lead := (it, P)]> zs in
  dj_pool t zs1 d1 /\ split_heap d1 head lead /\ dj_behind t d1 < dj_behind t d /\ dj_val d1 lead = value it.
Proof.
  intros H Hs Hz Hlt Hr Hge Hne d1 zs1. pose proof Hs as [E _].
  assert (lead ∈ dj_heap d) as Hin by (rewrite E, elem_of_app, list_elem_of_singleton; auto).
  assert (lead < length (dj_itrs d))%nat as Hll.
  { rewrite (dp_itrs _ _ _ H), length_fmap. by eapply lookup_lt_Some. }
  assert (dj_val d1 lead = value it) as Hv by (unfold d1; rewrite dj_put_val by done; by rewrite decide_True).
  split; [by eapply dj_put_pool|]. split; [apply dj_put_split; [done|apply H]|]. split; [|done].
  rewrite (dj_behind_split t d head lead E), (dj_behind_split t d1 head lead E), Hv.
  unfold d1. rewrite dj_behind_head by (done || apply H). bdestruct_all; lia.
Qed.

(** The lead has been exhausted. *)
Lemma dj_step_dead t zs d head lead it0 it P : dj_pool t zs d -> split_heap d head lead ->
  zs !! lead = Some (it0, P) -> dj_val d lead < t -> ready t it P -> value it = doc_limits.eof ->
  let zs1 := <[lead := (it, P)]> zs in
  let '(more, d2) := remove_lead (dj_put lead it d) in
  dj_pool t zs1 d2 /\ dj_doc d2 = dj_doc d /\ dj_behind t d2 < dj_behind t d /\
  if more : bool then exists head2 lead2, split_heap d2 head2 lead2 /\ lead_least d2 lead2
  else dj_heap d2 = [].
Proof.
  intros H Hs Hz Hlt Hr He zs1. pose proof Hs as [E Hh].
  set (d1 := dj_put lead it d).
  assert (dj_pool t zs1 (dj_set_heap head d1)) as Hpool.
  { eapply dj_drop_pool; try done. rewrite E. by rewrite Permutation_app_comm. }
  destruct (dj_put_split d head lead it Hs (dp_nodup _ _ _ H)) as [_ Hh1]. fold d1 in Hh1.
  assert (dj_behind t (dj_set_heap head d1) < dj_behind t d) as Hb.
  { rewrite (dj_behind_split t d head lead E). unfold dj_behind. cbn [dj_set_heap dj_heap].
    change (dj_val (dj_set_heap head d1)) with (dj_val d1). unfold d1.
    rewrite dj_behind_head by (done || apply H). bdestruct_all; lia. }
  assert (removelast (dj_heap d1) = head) as Erm by (cbn [d1 dj_put dj_heap]; rewrite E; apply removelast_last).
  unfold remove_lead. rewrite Erm. destruct head as [|x head'] eqn:Ehd; [done|]. rewrite <-Ehd in *.
  destruct (dj_pop_least d1 head Hh1 ltac:(by rewrite Ehd)) as (head2 & lead2 & -> & Hp & Hh2 & Hl).
  assert (head2 ++ [lead2] ≡ₚ dj_heap (dj_set_heap head d1)) as Hp' by done.
  change (dj_set_heap (head2 ++ [lead2]) d1) with (dj_set_heap (head2 ++ [lead2]) (dj_set_heap head d1)).
  split; [by apply dj_pool_perm|]. split; [done|]. split; [by rewrite dj_behind_perm|].
  exists head2, lead2. split; [done|]. intros i Hi. apply Hl. cbn [dj_set_heap dj_heap] in Hi. by rewrite <-Hp.
Qed.

(** ** Invariant *)

(** The disjunction is over the iterators of the sets [Ps], in this order. *)
Definition disjunction_over (Ps : list (Z -> bool)) d P : Prop :=
  exists zs, dj_itrs d = zs.*1 /\ zs.*2 = Ps /\ Z.of_nat (length zs) < 2 ^ 62 /\
    Forall (fun z => ready (dj_doc d) z.1 z.2) zs /\ position P (dj_doc d) /\
    (forall x, P x = any_of Ps x) /\
    (dj_doc d <> doc_limits.eof -> exists head lead, dj_pool (dj_doc d) zs d /\ split_heap d head lead /\
       dj_val d lead = dj_doc d).

Definition dj_result Ps P t d' : Prop := disjunction_over Ps d' P /\ first_from P t (dj_doc d').

(** The loop stops at a lead that has reached [t]. *)
Lemma dj_finish t Ps doc d P head lead : dj_looping t Ps doc d -> split_heap d head lead ->
  t <= dj_val d lead -> doc_limits.min <= t <= doc_limits.eof -> (forall x, P x = any_of Ps x) ->
  dj_result Ps P t (dj_set_doc (dj_val d lead) d) /\ dj_val d lead <> doc_limits.eof.
Proof.
  intros (zs & head' & lead' & H & Hps & Hs' & _ & Hl) Hs Hge Ht HP. pose proof Hs as [E _]. pose proof Hs' as [E' _].
  assert (lead' = lead) as -> by (rewrite E in E'; by apply app_inj_tail in E' as [_ ->]).
  assert (lead ∈ dj_heap d) as Hin by (rewrite E, elem_of_app, list_elem_of_singleton; auto).
  destruct (dj_pool_lookup _ _ _ _ H Hin) as (it & Q & Hz & Hi & Hv & Hr).
  pose proof (dp_live _ _ _ H lead Hin) as Hne. fold (dj_val d lead) in Hne.
  assert (P (dj_val d lead) = true) as Hhit.
  { rewrite HP, <-Hps. apply any_of_true. exists Q. split; [apply list_elem_of_fmap; exists (it, Q); split; [done|]; by eapply list_elem_of_lookup_2|].
    rewrite Hv in *. destruct (matches_position _ _ (ready_matches _ _ _ Hr)) as [?|[?|?]]; [doc_lia|done|done]. }
  split; [|done]. split.
  - exists zs. cbn [dj_set_doc dj_itrs dj_doc]. split; [apply H|]. split; [done|]. split; [apply H|].
    assert (Forall (fun z => ready (dj_val d lead) z.1 z.2) zs) as Hready.
    { eapply Forall_impl; [apply H|]. intros z Hzr. eapply ready_mono; [exact Hzr|done]. }
    split; [done|]. split; [by right; right|]. split; [done|]. intros _.
    exists head, lead. split; [|done]. destruct H. by constructor.
  - cbn [dj_set_doc dj_doc]. split; [by right|]. intros x Hx. destruct (Hl Hge) as [Hleast|Heq]; [|lia].
    rewrite HP, <-Hps. apply any_of_false. intros R HR. apply list_elem_of_fmap in HR as ([it' R'] & -> & Hz').
    apply list_elem_of_lookup in Hz' as [j Hj].
    pose proof (dp_ready _ _ _ H) as Hrd. rewrite Forall_lookup in Hrd. destruct (Hrd j _ Hj) as [_ Hg]. apply Hg.
    split; [lia|]. cbn [fst]. destruct (decide (j ∈ dj_heap d)) as [Hjin|Hjn].
    + pose proof (Hleast j Hjin). destruct (dj_pool_lookup _ _ _ _ H Hjin) as (it2 & P2 & Hz2 & _ & Hv2 & _).
      rewrite Hj in Hz2. injection Hz2 as <- <-. lia.
    + pose proof (dp_dead _ _ _ H _ _ Hj Hjn) as Hd. cbn in Hd. rewrite Hd.
      rewrite Hv in *. apply ready_range in Hr. lia.
Qed.

(** All iterators are exhausted. *)
Lemma dj_finish_eof t zs d P : dj_pool t zs d -> dj_heap d = [] -> (forall x, P x = any_of zs.*2 x) ->
  dj_result zs.*2 P t (dj_set_doc doc_limits.eof d).
Proof.
  intros H E HP. split.
  - exists zs. cbn [dj_set_doc dj_itrs dj_doc]. split; [apply H|]. split; [done|]. split; [apply H|]. split.
    + eapply Forall_impl; [apply H|]. intros z Hz. apply ready_eof. exact (ready_matches _ _ _ Hz).
    + split; [by right; left|]. split; [done|]. done.
  - cbn [dj_set_doc dj_doc]. split; [by left|]. intros x Hx. rewrite HP. apply any_of_false. intros R HR.
    apply list_elem_of_fmap in HR as ([it R'] & -> & Hz). apply list_elem_of_lookup in Hz as [j Hj].
    pose proof (dp_ready _ _ _ H) as Hrd. rewrite Forall_lookup in Hrd. destruct (Hrd j _ Hj) as [_ Hg]. apply Hg.
    rewrite (dp_dead _ _ _ H _ _ Hj) by (rewrite E; apply not_elem_of_nil). done.
Qed.

(** Where the loops start. *)
Lemma dj_start Ps d P t : disjunction_over Ps d P -> dj_doc d <> doc_limits.eof -> dj_doc d <= t ->
  dj_looping t Ps (dj_doc d) d /\ forall x, P x = any_of Ps x.
Proof.
  intros (zs & H1 & HPs & H2 & H3 & H4 & H5 & H6) Hne Hle. destruct (H6 Hne) as (head & lead & Hp & Hs & Hv).
  split; [|done]. exists zs, head, lead. split.
  - destruct Hp. constructor; try done. eapply Forall_impl; [exact dp_ready0|]. intros z Hz.
    eapply ready_mono; [exact Hz|done].
  - split; [done|]. split; [done|]. split; [done|]. intros Ht. right. lia.
Qed.

Lemma dj_behind_bound t Ps doc d : dj_looping t Ps doc d -> 0 <= dj_behind t d < 2 ^ 64.
Proof.
  intros (zs & _ & _ & H & _). unfold dj_behind. pose proof (dp_size _ _ _ H) as Hsz.
  pose proof (length_filter (fun i => dj_val d i < t) (dj_heap d)) as Hf.
  assert (length (dj_heap d) <= length (seq 0 (length zs)))%nat as Hl.
  { apply NoDup_incl_length; [apply NoDup_ListNoDup, H|]. intros i Hi. apply list_elem_of_In in Hi.
    apply in_seq. pose proof (dp_index _ _ _ H i Hi). lia. }
  rewrite length_seq in Hl. lia.
Qed.

Lemma dj_behind_refresh t d : dj_heap (refresh_lead d) ≡ₚ dj_heap d -> dj_behind t (refresh_lead d) = dj_behind t d.
Proof. exact (dj_behind_perm t d _). Qed.

(** The lead the loop looks at. *)
Lemma dj_current t Ps doc d : dj_looping t Ps doc d -> exists zs head lead it P,
  dj_pool t zs d /\ zs.*2 = Ps /\ split_heap d head lead /\ dj_doc d = doc /\
  dj_lead d = Some (lead, it) /\ zs !! lead = Some (it, P) /\ dj_val d lead = value it /\ ready t it P.
Proof.
  intros (zs & head & lead & H & Hps & Hs & Hd & _). pose proof Hs as [E _].
  assert (lead ∈ dj_heap d) as Hin by (rewrite E, elem_of_app, list_elem_of_singleton; auto).
  destruct (dj_pool_lookup _ _ _ _ H Hin) as (it & P & Hz & Hi & Hv & Hr).
  exists zs, head, lead, it, P. repeat (split; [done|]). split; [by eapply dj_lead_eq|]. done.
Qed.

(** One round, once the lead has been moved to [t]. *)
Lemma dj_moved {R} t Ps doc d zs head lead it0 it P Q (fin : bool -> disjunction S -> R) :
  dj_pool t zs d -> zs.*2 = Ps -> split_heap d head lead -> dj_doc d = doc ->
  zs !! lead = Some (it0, P) -> dj_val d lead < t -> ready t it P -> t <= value it ->
  (forall x, Q x = any_of Ps x) -> forall hit : bool, (hit = true -> value it = t) -> exists r,
  (if doc_limits.is_eof (value it) then
     let '(more, d) := remove_lead (dj_put lead it d) in
     if more : bool then Some (inl (if hit then d else refresh_lead d))
     else Some (inr (fin false (dj_set_doc doc_limits.eof d)))
   else Some (inl (if hit then dj_put lead it d else refresh_lead (dj_put lead it d)))) = Some r /\
  match r with
  | inl d' => dj_looping t Ps doc d' /\ dj_behind t d' < dj_behind t d
  | inr x => exists d', x = fin false d' /\ dj_result Ps Q t d' /\ dj_doc d' = doc_limits.eof
  end.
Proof.
  intros H Hps Hs Hd Hz Hlt Hr Hge HQ hit Hhit.
  assert ((<[lead := (it, P)]> zs).*2 = Ps) as Hps1 by (by rewrite (dj_put_sets _ _ _ _ _ Hz)).
  destruct (doc_limits.is_eof (value it)) eqn:Ee.
  - apply is_eof_spec in Ee. pose proof (dj_step_dead _ _ _ _ _ _ _ _ H Hs Hz Hlt Hr Ee) as Hstep.
    cbv zeta in Hstep. destruct (remove_lead (dj_put lead it d)) as [more d2].
    destruct Hstep as (Hp2 & Hd2 & Hb & Hm). destruct more.
    + destruct Hm as (head2 & lead2 & Hs2 & Hl2). eexists. split; [done|]. destruct hit.
      * split; [|done]. exists (<[lead := (it, P)]> zs), head2, lead2. repeat (split; [congruence || done|]). auto.
      * destruct (refresh_lead_spec _ _ _ _ _ Hp2 Hs2) as (head3 & lead3 & Hs3 & Hl3 & Hp3 & Hperm).
        split; [|by rewrite (dj_behind_refresh t d2 Hperm)].
        exists (<[lead := (it, P)]> zs), head3, lead3. split; [done|]. split; [done|]. split; [done|].
        split; [by rewrite <-Hd, <-Hd2|auto].
    + eexists. split; [done|]. eexists. split; [done|]. split; [|done].
      rewrite <-Hps1. apply (dj_finish_eof t (<[lead := (it, P)]> zs)); try done. by rewrite Hps1.
  - assert (value it <> doc_limits.eof) as Hne by (rewrite <-is_eof_spec; congruence).
    destruct (dj_step_live _ _ _ _ _ _ _ _ H Hs Hz Hlt Hr Hge Hne) as (Hp1 & Hs1 & Hb & Hv1).
    eexists. split; [done|]. destruct hit.
    + split; [|done]. exists (<[lead := (it, P)]> zs), head, lead. repeat (split; [done|]).
      intros _. right. by rewrite Hv1, Hhit.
    + destruct (refresh_lead_spec _ _ _ _ _ Hp1 Hs1) as (head3 & lead3 & Hs3 & Hl3 & Hp3 & Hperm).
      split; [|by rewrite (dj_behind_refresh t (dj_put lead it d) Hperm)].
      exists (<[lead := (it, P)]> zs), head3, lead3. repeat (split; [done|]). auto.
Qed.

Lemma disjunction_next_round_spec t Ps doc d P : dj_looping t Ps doc d -> t = doc + 1 ->
  doc_limits.invalid <= doc < doc_limits.eof -> (forall x, P x = any_of Ps x) -> exists r,
  disjunction_next_round d = Some r /\
  match r with
  | inl d' => dj_looping t Ps doc d' /\ dj_behind t d' < dj_behind t d
  | inr (b, d') => dj_result Ps P t d' /\ b = negb (doc_limits.is_eof (dj_doc d'))
  end.
Proof.
  intros HL Et Hd HP. assert (doc_limits.min <= t <= doc_limits.eof) as Ht by doc_lia.
  destruct (dj_current _ _ _ _ HL) as (zs & head & lead & it0 & Q & H & Hps & Hs & Hdoc & El & Hz & Hv & Hr).
  unfold disjunction_next_round. rewrite El. cbn [mbind option_bind]. rewrite Hdoc.
  pose proof (ready_range _ _ _ Hr). destruct (Z.ltb_spec doc (value it0)) as [Hlt|Hge].
  - destruct (dj_finish _ _ _ _ P head lead HL Hs ltac:(lia) Ht HP) as [HR Hne]. rewrite Hv in *.
    eexists. split; [done|]. split; [done|]. cbn [dj_set_doc dj_doc].
    destruct (doc_limits.is_eof (value it0)) eqn:E; [|done]. by apply is_eof_spec in E.
  - assert (exists it, (if value it0 =? doc then '(b, it) ← next it0; Some (negb b, it)
             else '(v, it) ← seek (doc +[32] 1) it0; Some (doc_limits.is_eof v, it)) =
             Some (doc_limits.is_eof (value it), it) /\ matches it Q /\ first_from Q t (value it))
      as (it & -> & HM & HF).
    { destruct (Z.eqb_spec (value it0) doc) as [E|E].
      - destruct (next_spec _ _ (ready_matches _ _ _ Hr)) as (it & -> & HM & HF). exists it.
        cbn [mbind option_bind]. rewrite negb_involutive. split; [done|]. by rewrite Et, <-E.
      - rewrite wrap_small by (unfold is_word; doc_lia). rewrite <-Et.
        destruct (seek_spec _ _ t (ready_matches _ _ _ Hr) Ht ltac:(lia)) as (it & -> & HM & HF). by exists it. }
    cbn [mbind option_bind]. pose proof (first_from_ge _ _ _ HF ltac:(lia)).
    destruct (dj_moved t Ps doc d zs head lead it0 it Q P pair H Hps Hs Hdoc Hz ltac:(lia)
                ltac:(eapply first_from_ready; [done|exact HF|lia]) ltac:(done) HP false ltac:(done)) as (r & Hr' & Hpost).
    destruct (doc_limits.is_eof (value it)); (exists r; split; [exact Hr'|]);
      (destruct r as [d'|[b d']]; [done|]); destruct Hpost as (d2 & [= -> ->] & HR & He); split; try done;
      by rewrite He.
Qed.

Lemma disjunction_docs Ps d P : disjunction_over Ps d P -> doc_set P.
Proof.
  intros (zs & _ & <- & _ & Hr & _ & HP & _) x. rewrite HP, any_of_true.
  intros (Q & HQ & Hx). apply list_elem_of_fmap in HQ as (z & -> & Hz).
  rewrite Forall_forall in Hr. exact (matches_docs _ _ (ready_matches _ _ _ (Hr z Hz)) x Hx).
Qed.

Lemma disjunction_next_spec Ps d P : disjunction_over Ps d P -> exists d',
  disjunction_next d = Some (negb (doc_limits.is_eof (dj_doc d')), d') /\ disjunction_over Ps d' P /\
  first_from P (dj_doc d + 1) (dj_doc d').
Proof.
  intros HM. unfold disjunction_next. pose proof (disjunction_docs _ _ _ HM) as Hdocs.
  assert (position P (dj_doc d)) as Hpos by (destruct HM as (? & _ & _ & _ & _ & ? & _); done).
  pose proof (position_range _ Hdocs _ Hpos) as Hd. destruct (doc_limits.is_eof (dj_doc d)) eqn:E.
  { exists d. rewrite E. split; [done|]. split; [done|]. apply is_eof_spec in E. rewrite E. split; [by left|lia]. }
  assert (dj_doc d <> doc_limits.eof) as Hne by (rewrite <-is_eof_spec; congruence).
  destruct (dj_start Ps d P (dj_doc d + 1) HM Hne ltac:(lia)) as (HL & HP).
  destruct (iterate_rule (dj_looping (dj_doc d + 1) Ps (dj_doc d)) (dj_behind (dj_doc d + 1))
    (fun r : bool * disjunction S => dj_result Ps P (dj_doc d + 1) r.2 /\ r.1 = negb (doc_limits.is_eof (dj_doc r.2)))
    disjunction_next_round) with (k := 64%nat) (s := d) as ([b d'] & -> & [HM' HF] & Hb).
  - intros d1 HL1. split; [by eapply dj_behind_bound|].
    destruct (disjunction_next_round_spec _ _ _ _ P HL1 eq_refl ltac:(lia) HP) as (r & Hr & Hpost).
    exists r. split; [done|]. destruct r as [?|[b d']]; done.
  - done.
  - eapply dj_behind_bound in HL. lia.
  - cbn in *. exists d'. by rewrite Hb.
Qed.

Lemma disjunction_seek_round_spec t Ps doc d P : dj_looping t Ps doc d ->
  doc_limits.min <= t <= doc_limits.eof -> (forall x, P x = any_of Ps x) -> exists r,
  disjunction_seek_round t d = Some r /\
  match r with
  | inl d' => dj_looping t Ps doc d' /\ dj_behind t d' < dj_behind t d
  | inr d' => dj_result Ps P t d'
  end.
Proof.
  intros HL Ht HP.
  destruct (dj_current _ _ _ _ HL) as (zs & head & lead & it0 & Q & H & Hps & Hs & Hdoc & El & Hz & Hv & Hr).
  unfold disjunction_seek_round. rewrite El. cbn [mbind option_bind].
  pose proof (ready_range _ _ _ Hr). destruct (Z.leb_spec t (value it0)) as [Hlt|Hge].
  - destruct (dj_finish _ _ _ _ P head lead HL Hs ltac:(lia) Ht HP) as [HR Hne]. rewrite Hv in *. by eexists.
  - destruct (seek_spec _ _ t (ready_matches _ _ _ Hr) Ht ltac:(lia)) as (it & -> & HM & HF).
    cbn [mbind option_bind]. pose proof (first_from_ge _ _ _ HF ltac:(lia)).
    destruct (dj_moved t Ps doc d zs head lead it0 it Q P (fun _ d => d) H Hps Hs Hdoc Hz ltac:(lia)
                ltac:(eapply first_from_ready; [done|exact HF|lia]) ltac:(done) HP (value it =? t) (proj1 (Z.eqb_eq _ _)))
      as (r & Hr' & Hpost).
    exists r. split.
    + destruct (doc_limits.is_eof (value it)); [|exact Hr'].
      destruct (remove_lead (dj_put lead it d)) as [[] d2]; exact Hr'.
    + destruct r as [d'|d']; [done|]. by destruct Hpost as (d2 & -> & ? & _).
Qed.

Lemma disjunction_seek_spec Ps d P t : disjunction_over Ps d P -> doc_limits.min <= t <= doc_limits.eof ->
  dj_doc d <= t -> exists d',
  disjunction_seek t d = Some (dj_doc d', d') /\ disjunction_over Ps d' P /\ first_from P t (dj_doc d').
Proof.
  intros HM Ht Hle. unfold disjunction_seek. destruct (doc_limits.is_eof (dj_doc d)) eqn:E.
  { exists d. split; [done|]. split; [done|]. apply is_eof_spec in E. rewrite E. split; [by left|lia]. }
  assert (dj_doc d <> doc_limits.eof) as Hne by (rewrite <-is_eof_spec; congruence).
  destruct (dj_start Ps d P t HM Hne Hle) as (HL & HP).
  destruct (iterate_rule (dj_looping t Ps (dj_doc d)) (dj_behind t) (dj_result Ps P t) (disjunction_seek_round t))
    with (k := 64%nat) (s := d) as (d' & -> & HM' & HF).
  - intros d1 HL1. split; [by eapply dj_behind_bound|].
    destruct (disjunction_seek_round_spec _ _ _ _ P HL1 Ht HP) as (r & Hr & Hpost). by exists r.
  - done.
  - eapply dj_behind_bound in HL. lia.
  - by exists d'.
Qed.

(** A fresh disjunction of fresh iterators. *)
Lemma disjunction_fresh zs : zs <> [] -> Z.of_nat (length zs) < 2 ^ 62 ->
  Forall (fun z => matches z.1 z.2 /\ value z.1 = doc_limits.invalid) zs ->
  disjunction_over zs.*2 (disjunction_make zs.*1) (any_of zs.*2).
Proof.
  intros Hne Hlen HF. exists zs. unfold disjunction_make. cbn [dj_itrs dj_doc].
  rewrite decide_False by (intros E; by apply fmap_nil_inv in E).
  assert (Forall (fun z => ready doc_limits.invalid z.1 z.2) zs) as Hr.
  { eapply Forall_impl; [exact HF|]. intros z [? ?]. by apply ready_initial. }
  assert (forall i, (i < length zs)%nat -> itr_value zs.*1 i = doc_limits.invalid) as Hv.
  { intros i Hi. destruct (lookup_lt_is_Some_2 zs i Hi) as [z Hz]. unfold itr_value.
    rewrite list_lookup_fmap, Hz. cbn. rewrite Forall_lookup in HF. by destruct (HF i z Hz). }
  split; [done|]. split; [done|]. split; [done|]. split; [done|]. split; [by left|]. split; [done|]. intros _.
  rewrite length_fmap. set (n := (length zs - 1)%nat).
  assert (length zs = n + 1)%nat as En by (unfold n; destruct zs; [done|cbn; lia]).
  exists (seq 0 n), n. split; [|split; [split|]].
  - constructor; cbn [dj_itrs dj_heap]; try done.
    + apply NoDup_seq.
    + intros i [_ ?]%elem_of_seq. lia.
    + intros i z Hz Hnin. exfalso. apply Hnin, elem_of_seq. apply lookup_lt_Some in Hz. lia.
    + intros i [_ Hi]%elem_of_seq. rewrite Hv by lia. done.
  - cbn [dj_heap]. rewrite En, seq_app. done.
  - intros p c _ x y Hx Hy. apply dj_prec. cbn [dj_itrs].
    apply lookup_seq in Hx as [-> ?], Hy as [-> ?]. rewrite !Hv by lia. done.
  - unfold dj_val. cbn [dj_itrs]. rewrite Hv by lia. done.
Qed.

(** ** Visiting the iterators that have the current document *)

Inductive desc : nat -> nat -> Prop :=
  | desc_refl i : desc i i
  | desc_step i c j : child i c -> desc c j -> desc i j.

Lemma desc_snoc i p j : desc i p -> child p j -> desc i j.
Proof. induction 1 as [|i c p Hc _ IH]; intros Hj; [econstructor; [done|constructor]|econstructor; [done|auto]]. Qed.

Lemma desc_root j : desc 0 j.
Proof.
  induction j as [j IH] using lt_wf_ind. destruct j as [|j]; [constructor|].
  pose proof (Nat.div_mod_eq j 2). pose proof (Nat.mod_upper_bound j 2 ltac:(lia)).
  apply (desc_snoc _ (j / 2)); [apply IH; lia|unfold child; lia].
Qed.

Lemma for_each_if_elem {A} (range : list A) pred :
  (forall p c x y, child p c -> range !! p = Some x -> range !! c = Some y -> pred y = true -> pred x = true) ->
  forall fuel idx y, (length range < fuel + idx)%nat ->
  y ∈ for_each_if fuel range idx pred <-> exists j, desc idx j /\ range !! j = Some y /\ pred y = true.
Proof.
  intros Hclosed.
  assert (forall i j y, desc i j -> range !! j = Some y -> pred y = true -> exists x, range !! i = Some x /\ pred x = true) as Hup.
  { intros i j y Hd. induction Hd as [|i c j Hc _ IH]; intros Hy Hpy; [eauto|].
    destruct (IH Hy Hpy) as (x & Hx & Hpx). pose proof (lookup_lt_Some _ _ _ Hx).
    destruct (lookup_lt_is_Some_2 range i ltac:(unfold child in Hc; lia)) as [x' Hx']. eauto. }
  induction fuel as [|fuel IH]; intros idx y Hf.
  - cbn. split; [by intros ?%elem_of_nil|]. intros (j & Hd & Hy & Hp).
    destruct (Hup _ _ _ Hd Hy Hp) as (x & Hx & _). apply lookup_lt_Some in Hx. lia.
  - cbn [for_each_if]. destruct (range !! idx) as [x|] eqn:Ex.
    2:{ split; [by intros ?%elem_of_nil|]. intros (j & Hd & Hy & Hp).
        destruct (Hup _ _ _ Hd Hy Hp) as (x & Hx & _). congruence. }
    destruct (pred x) eqn:Epx.
    2:{ split; [by intros ?%elem_of_nil|]. intros (j & Hd & Hy & Hp).
        destruct (Hup _ _ _ Hd Hy Hp) as (x' & Hx & ?). congruence. }
    rewrite elem_of_cons, elem_of_app, !IH by lia. split.
    + intros [->|[(j & Hd & Hj)|(j & Hd & Hj)]]; [exists idx; split; [constructor|done]| |];
        exists j; (split; [|done]); (eapply desc_step; [|exact Hd]); unfold child; lia.
    + intros (j & Hd & Hy & Hp). inversion Hd as [|? c ? Hc Hd']; subst; [left; congruence|right].
      destruct Hc as [->|Hc]; [left; eauto|right]. exists j. split; [|done].
      by replace (2 * idx + 2)%nat with c by lia.
Qed.

Lemma desc_le i j : desc i j -> (i <= j)%nat.
Proof. induction 1 as [|i c j Hc _ IH]; [done|]. unfold child in Hc. lia. Qed.

Lemma desc_parent i j : desc i j -> i = j \/ exists p, child p j /\ desc i p.
Proof.
  induction 1 as [|i c j Hc Hd IH]; [by left|right]. destruct IH as [->|(p & Hp & Hd')]; [exists i; split; [done|constructor]|].
  exists p. split; [done|]. by eapply desc_step.
Qed.

(** The subtrees of two siblings have nothing in common. *)
Lemma desc_comparable j : forall a b, desc a j -> desc b j -> desc a b \/ desc b a.
Proof.
  induction j as [j IH] using lt_wf_ind. intros a b Ha Hb. destruct (desc_parent a j Ha) as [->|(p & Hp & Hap)]; [by right|].
  destruct (desc_parent b j Hb) as [->|(q & Hq & Hbq)]; [by left|]. assert (q = p) as -> by (unfold child in *; lia).
  apply (IH p); [unfold child in Hp; lia|done..].
Qed.

Lemma desc_siblings i j : desc (2 * i + 1) j -> desc (2 * i + 2) j -> False.
Proof.
  intros H1 H2. destruct (desc_comparable j _ _ H1 H2) as [H|H%desc_le]; [|lia].
  destruct (desc_parent _ _ H) as [?|(p & Hp & Hd%desc_le)]; [lia|]. unfold child in Hp. lia.
Qed.

Lemma for_each_if_desc {A} (range : list A) pred fuel : forall idx y, y ∈ for_each_if fuel range idx pred -> exists j, desc idx j /\ range !! j = Some y.
Proof.
  induction fuel as [|fuel IH]; intros idx y; cbn [for_each_if]; [by intros ?%elem_of_nil|].
  destruct (range !! idx) as [x|] eqn:E; [|by intros ?%elem_of_nil]. destruct (pred x); [|by intros ?%elem_of_nil].
  intros [->|[(j & Hd & Hj)%IH|(j & Hd & Hj)%IH]%elem_of_app]%elem_of_cons; [exists idx; split; [constructor|done]|exists j..];
    (split; [|done]); (eapply desc_step; [|exact Hd]); unfold child; lia.
Qed.

Lemma for_each_if_nodup {A} (range : list A) pred fuel : NoDup range -> forall idx, NoDup (for_each_if fuel range idx pred).
Proof.
  intros Hn. induction fuel as [|fuel IH]; intros idx; cbn [for_each_if]; [constructor|].
  destruct (range !! idx) as [x|] eqn:E; [|constructor]. destruct (pred x); [|constructor]. constructor; [|apply NoDup_app; split; [apply IH|split; [|apply IH]]].
  - intros [(j & Hd%desc_le & Hj)%for_each_if_desc|(j & Hd%desc_le & Hj)%for_each_if_desc]%elem_of_app; pose proof (NoDup_lookup _ _ _ _ Hn E Hj); lia.
  - intros y (j & Hd & Hj)%for_each_if_desc (k & Hd' & Hk)%for_each_if_desc. pose proof (NoDup_lookup _ _ _ _ Hn Hj Hk) as ->. by eapply desc_siblings.
Qed.

(** One round of [hitch_all_iterators]: the top of the heap has been moved to the current document. *)
Lemma dj_hitch_step doc zs d x rest lead it0 it P : dj_pool doc zs d -> split_heap d (x :: rest) lead ->
  zs !! x = Some (it0, P) -> dj_val d x < doc -> ready doc it P -> doc <= value it -> x <> lead ->
  let d1 := dj_put x it d in let zs1 := <[x := (it, P)]> zs in
  let popped := dj_pop d1 (x :: rest) in
  (value it = doc_limits.eof -> exists head', removelast popped = head' /\
     let d2 := dj_set_heap (head' ++ [lead]) d1 in
     dj_pool doc zs1 d2 /\ split_heap d2 head' lead /\ dj_val d2 lead = dj_val d lead /\ dj_behind doc d2 < dj_behind doc d) /\
  (value it <> doc_limits.eof -> exists head', dj_push d1 popped = head' /\
     let d2 := dj_set_heap (head' ++ [lead]) d1 in
     dj_pool doc zs1 d2 /\ split_heap d2 head' lead /\ dj_val d2 lead = dj_val d lead /\ dj_behind doc d2 < dj_behind doc d).
Proof.
  intros H [E Hh] Hz Hlt Hr Hge Hxl d1 zs1 popped. pose proof (dp_nodup _ _ _ H) as Hnd. rewrite E in Hnd.
  assert (x ∉ rest ++ [lead]) as Hnin by (cbn in Hnd; by apply NoDup_cons in Hnd as [? _]).
  assert (x ∈ dj_heap d) as Hin by (rewrite E; by left).
  assert (below_top (dj_comp (dj_itrs d1)) (x :: rest)) as Hbt.
  { intros p c Hc Hp a b Ha Hb. apply dj_prec.
    assert (a ∈ rest /\ b ∈ rest) as [Har Hbr].
    { destruct p as [|p]; [lia|]. destruct c as [|c]; [unfold child in Hc; lia|].
      split; by eapply list_elem_of_lookup_2. }
    change (dj_val d1 a <= dj_val d1 b). unfold d1.
    rewrite !dj_put_other by (intros ->; apply Hnin, elem_of_app; auto).
    apply (dj_prec (dj_itrs d)). by apply (Hh p c). }
  destruct (pop_heap_spec (dj_comp (dj_itrs d1)) x rest Hbt) as (h & Epop & Hp & Hhh).
  assert (popped = h ++ [x]) as -> by exact Epop.
  assert (dj_val d1 lead = dj_val d lead) as Hvl by (apply dj_put_other; congruence).
  assert (dj_behind doc d = 1 + Z.of_nat (length (filter (fun i => dj_val d i < doc) (rest ++ [lead])))) as Hb0.
  { unfold dj_behind. rewrite E. cbn [app]. rewrite filter_cons, decide_True by done. cbn [length]. lia. }
  split; intros He.
  - exists h. split; [apply removelast_last|]. cbn zeta. split; [|split; [done|split; [done|]]].
    + eapply dj_drop_pool; try done. rewrite E, Hp. done.
    + rewrite Hb0. unfold dj_behind. cbn [dj_set_heap dj_heap].
      change (dj_val (dj_set_heap (h ++ [lead]) d1)) with (dj_val d1). rewrite Hp.
      unfold d1. rewrite dj_filter_put by done. lia.
  - destruct (push_heap_spec (dj_comp (dj_itrs d1)) h x Hhh) as [Hp2 Hh2].
    exists (push_heap (dj_comp (dj_itrs d1)) (h ++ [x])). split; [done|]. cbn zeta.
    assert (push_heap (dj_comp (dj_itrs d1)) (h ++ [x]) ++ [lead] ≡ₚ x :: rest ++ [lead]) as Hp3.
    { rewrite Hp2, Hp. cbn. by rewrite (Permutation_app_comm rest [x]). }
    split; [|split; [done|split; [done|]]].
    + apply dj_pool_perm; [by eapply dj_put_pool|]. cbn [d1 dj_put dj_heap]. by rewrite E, Hp3.
    + rewrite Hb0. unfold dj_behind. cbn [dj_set_heap dj_heap].
      change (dj_val (dj_set_heap _ d1)) with (dj_val d1). rewrite Hp3.
      assert (dj_val d1 x = value it) as Hvx.
      { unfold d1. rewrite dj_put_val, decide_True; [done|done|].
        rewrite (dp_itrs _ _ _ H), length_fmap. by eapply lookup_lt_Some. }
      rewrite filter_cons, decide_False by lia. unfold d1. rewrite dj_filter_put by done. lia.
Qed.

(** [hitch_all_iterators] brings every iterator of the heap to the current document. *)
Lemma dj_hitch_spec doc Ps d : dj_looping doc Ps doc d -> (exists head lead, split_heap d head lead /\ dj_val d lead = doc) ->
  doc_limits.min <= doc < doc_limits.eof -> exists d' zs head lead,
  dj_hitch d = Some d' /\ dj_pool doc zs d' /\ zs.*2 = Ps /\ split_heap d' head lead /\ dj_doc d' = doc /\
  dj_val d' lead = doc /\ forall i, i ∈ head -> doc <= dj_val d' i.
Proof.
  intros HL Hlead Hd.
  destruct (iterate_rule
    (fun d => exists zs head lead, dj_pool doc zs d /\ zs.*2 = Ps /\ split_heap d head lead /\ dj_doc d = doc /\ dj_val d lead = doc)
    (dj_behind doc)
    (fun d' => exists zs head lead, dj_pool doc zs d' /\ zs.*2 = Ps /\ split_heap d' head lead /\ dj_doc d' = doc /\
       dj_val d' lead = doc /\ forall i, i ∈ head -> doc <= dj_val d' i)
    dj_hitch_round) with (k := 64%nat) (s := d) as (d' & Hi & zs & head & lead & Hpost).
  - clear d HL Hlead. intros d (zs & head & lead & H & Hps & [E Hh] & Hdoc & Hv). split.
    { eapply dj_behind_bound. exists zs, head, lead. split; [exact H|]. split; [done|]. split; [done|].
      split; [exact Hdoc|auto]. }
    unfold dj_hitch_round. rewrite E, last_snoc, removelast_last. cbn [mbind option_bind].
    destruct head as [|x rest] eqn:Ehd.
    { eexists. split; [done|]. exists zs, [], lead. repeat (split; [done|]). intros i ?%elem_of_nil. done. }
    assert (x ∈ dj_heap d) as Hin by (rewrite E; by left).
    assert (x <> lead) as Hxl.
    { pose proof (dp_nodup _ _ _ H) as Hnd. rewrite E in Hnd. cbn in Hnd. apply NoDup_cons in Hnd as [Hn _].
      intros ->. apply Hn, elem_of_app. right. by left. }
    destruct (dj_pool_lookup _ _ _ _ H Hin) as (it0 & P & Hz & Hit & Hvx & Hr).
    assert (dj_top d = Some (x, it0)) as -> by (unfold dj_top; rewrite E; cbn; by rewrite Hit).
    cbn [mbind option_bind]. rewrite Hdoc. destruct (Z.ltb_spec (value it0) doc) as [Hlt|Hge].
    2:{ eexists. split; [done|]. exists zs, (x :: rest), lead. repeat (split; [done|]). intros i Hi.
        pose proof (is_heap_top (dj_comp (dj_itrs d)) x rest Hh i Hi) as Hpx. apply dj_prec in Hpx.
        unfold dj_val in *. lia. }
    pose proof (ready_range _ _ _ Hr).
    destruct (seek_spec _ _ doc (ready_matches _ _ _ Hr) ltac:(lia) ltac:(lia)) as (it & -> & HM & HF).
    cbn [mbind option_bind]. pose proof (first_from_ge _ _ _ HF ltac:(lia)).
    assert (ready doc it P) as Hr' by (eapply first_from_ready; [done|exact HF|lia]).
    destruct (dj_hitch_step doc zs d x rest lead it0 it P H ltac:(by split) Hz ltac:(lia) Hr' ltac:(done) Hxl)
      as (Hdead & Hlive).
    destruct (doc_limits.is_eof (value it)) eqn:Ee.
    + apply is_eof_spec in Ee. destruct (Hdead Ee) as (head' & Hh' & H' & Hs' & Hv' & Hb').
      eexists. split; [done|]. rewrite Hh'. split; [|exact Hb'].
      exists (<[x := (it, P)]> zs), head', lead. split; [done|].
      split; [by rewrite (dj_put_sets _ _ _ _ _ Hz)|]. split; [done|]. split; [done|]. by rewrite Hv'.
    + assert (value it <> doc_limits.eof) as Hne by (rewrite <-is_eof_spec; congruence).
      destruct (Hlive Hne) as (head' & Hh' & H' & Hs' & Hv' & Hb').
      eexists. split; [done|]. rewrite Hh'. split; [|exact Hb'].
      exists (<[x := (it, P)]> zs), head', lead. split; [done|].
      split; [by rewrite (dj_put_sets _ _ _ _ _ Hz)|]. split; [done|]. split; [done|]. by rewrite Hv'.
  - destruct HL as (zs & head & lead & H & Hps & Hs & Hdoc & _). destruct Hlead as (head' & lead' & Hs' & Hv).
    exists zs, head', lead'. done.
  - eapply dj_behind_bound in HL. lia.
  - exists d', zs, head, lead. split; [exact Hi|exact Hpost].
Qed.

(** A visit brings every iterator up, and reaches exactly those whose sets have the current document, each once. *)
Lemma disjunction_visit_spec Ps d P : disjunction_over Ps d P -> doc_limits.min <= dj_doc d < doc_limits.eof ->
  exists visited d', disjunction_visit d = Some (visited, d') /\ dj_doc d' = dj_doc d /\ disjunction_over Ps d' P /\ NoDup visited /\
  (forall i, i ∈ visited <-> exists Q, Ps !! i = Some Q /\ Q (dj_doc d) = true) /\
  forall i, i ∈ visited -> exists it, dj_itrs d' !! i = Some it /\ value it = dj_doc d.
Proof.
  intros HM Hd. assert (dj_doc d <> doc_limits.eof) as Hne by lia.
  destruct (dj_start Ps d P (dj_doc d) HM Hne ltac:(lia)) as (HL & HP).
  pose proof HM as (zs0 & _ & _ & _ & _ & Hpos & _ & H6). destruct (H6 Hne) as (head0 & lead0 & _ & Hs0 & Hv0).
  destruct (dj_hitch_spec (dj_doc d) Ps d HL ltac:(by exists head0, lead0) Hd)
    as (d' & zs & head & lead & Hh & H & Hps & Hs & Hdoc & Hvl & Hge).
  pose proof Hs as [E Hheap]. unfold disjunction_visit.
  assert (lead ∈ dj_heap d') as Hin by (rewrite E, elem_of_app, list_elem_of_singleton; auto).
  destruct (dj_pool_lookup _ _ _ _ H Hin) as (it & Q & Hz & Hit & Hv & Hr).
  destruct (dj_heap d) eqn:Ed; [destruct Hs0 as [E0 _]; rewrite Ed in E0; by destruct head0|].
  rewrite Hh. cbn [mbind option_bind]. rewrite (dj_lead_eq _ _ _ _ E Hit). cbn [mbind option_bind].
  rewrite E, removelast_last. rewrite <-Hv, Hvl.
  set (pred := fun k => itr_value (dj_itrs d') k =? dj_doc d).
  assert (forall y, y ∈ for_each_if (Datatypes.S (length head)) head 0 pred <-> y ∈ head /\ dj_val d' y = dj_doc d) as Hfe.
  { intros y. rewrite for_each_if_elem; [|clear y|lia].
    - split; [intros (j & _ & Hj & Hp)|intros [(j & Hj)%list_elem_of_lookup Hy]].
      + split; [by eapply list_elem_of_lookup_2|]. by apply Z.eqb_eq in Hp.
      + exists j. split; [apply desc_root|]. split; [done|]. by apply Z.eqb_eq.
    - intros p c x y Hc Hx Hy Hpy%Z.eqb_eq. apply Z.eqb_eq. pose proof (Hheap p c Hc x y Hx Hy) as Hpr. apply dj_prec in Hpr.
      change (dj_val d' y = dj_doc d) in Hpy. change (dj_val d' x <= dj_val d' y) in Hpr. change (dj_val d' x = dj_doc d).
      pose proof (Hge x ltac:(by eapply list_elem_of_lookup_2)). lia. }
  assert (forall k, k ∈ lead :: for_each_if (Datatypes.S (length head)) head 0 pred <-> k ∈ dj_heap d' /\ dj_val d' k = dj_doc d) as Hvis.
  { intros k. rewrite elem_of_cons, Hfe, E, elem_of_app, list_elem_of_singleton. split; [intros [->|[? ?]]; auto|intros [[?| ->] ?]; auto]. }
  assert (disjunction_over Ps d' P) as HM'.
  { exists zs. rewrite Hdoc. split; [apply H|]. split; [done|]. split; [apply H|]. split; [apply H|]. split; [done|]. split; [done|]. intros _.
    by exists head, lead. }
  pose proof (dp_nodup _ _ _ H) as Hnd. rewrite E in Hnd. apply NoDup_app in Hnd as (Hndh & Hnl & _).
  eexists _, d'. split; [done|]. split; [done|]. split; [done|]. split; [|split].
  - constructor; [|by apply for_each_if_nodup]. rewrite Hfe. intros [Hl _]. apply (Hnl lead Hl). by left.
  - intros i. rewrite Hvis. split.
    + intros [Hi Ei]. destruct (dj_pool_lookup _ _ _ _ H Hi) as (itk & Qk & Hzk & _ & Hvk & Hrk). exists Qk.
      split; [by rewrite <-Hps, list_lookup_fmap, Hzk|]. change (itr_value (dj_itrs d') i) with (dj_val d' i) in Hvk. rewrite Hvk in Ei.
      destruct (matches_position _ _ (ready_matches _ _ _ Hrk)) as [?|[?|?]]; [doc_lia|lia|congruence].
    + intros (Qk & HQ & HQd). rewrite <-Hps, list_lookup_fmap in HQ. destruct (zs !! i) as [[itk Q']|] eqn:Hzk; [|done]. injection HQ as ->.
      pose proof (dp_ready _ _ _ H) as Hrd. rewrite Forall_lookup in Hrd. destruct (Hrd i _ Hzk) as [_ Hg]. cbn [fst snd] in Hg.
      assert (value itk <= dj_doc d) as Hle.
      { destruct (Z.le_gt_cases (value itk) (dj_doc d)); [done|]. rewrite (Hg (dj_doc d)) in HQd by lia. done. }
      destruct (decide (i ∈ dj_heap d')) as [Hi|Hi]; [|pose proof (dp_dead _ _ _ H _ _ Hzk Hi) as Hdead; cbn in Hdead; lia].
      split; [done|]. destruct (dj_pool_lookup _ _ _ _ H Hi) as (itk' & Qk' & Hzk' & _ & Hvk & _). rewrite Hzk in Hzk'. injection Hzk' as <- <-.
      change (itr_value (dj_itrs d') i) with (dj_val d' i) in Hvk. rewrite E, elem_of_app, list_elem_of_singleton in Hi. destruct Hi as [Hi| ->]; [|done].
      pose proof (Hge i Hi). lia.
  - intros i [Hi Ei]%Hvis. destruct (dj_pool_lookup _ _ _ _ H Hi) as (itk & Qk & _ & Hik & Hvk & _). exists itk. split; [done|]. by rewrite <-Hvk.
Qed.

Definition disjunction_matches d P : Prop := exists Ps, disjunction_over Ps d P.

End correctness.

(** The laws, for a disjunction over the iterators of given sets and for any one *)
#[program] Definition disjunction_over_spec {S} {D : DocIterator S} {L : DocIteratorSpec S} (Ps : list (Z -> bool)) :
  DocIteratorSpec (disjunction S) := {| matches := disjunction_over Ps |}.
Next Obligation. intros. by eapply disjunction_docs. Qed.
Next Obligation. intros S D L Ps d P (zs & _ & _ & _ & _ & Hpos & _). exact Hpos. Qed.
Next Obligation.
  intros S D L Ps d P Q (zs & H1 & H2 & H3 & H4 & H5 & H6 & H7) E. exists zs. repeat (split; [done|]).
  split; [by eapply position_ext|]. split; [intros x; by rewrite <-E|done].
Qed.
Next Obligation. intros. by apply disjunction_next_spec. Qed.
Next Obligation. intros. by apply disjunction_seek_spec. Qed.

#[export, program] Instance disjunction_iterator_spec {S} {D : DocIterator S} {L : DocIteratorSpec S} :
  DocIteratorSpec (disjunction S) := {
  matches := disjunction_matches;
}.
Next Obligation. intros S D L d P [Ps HM]. by eapply disjunction_docs. Qed.
Next Obligation. intros S D L d P [Ps HM]. exact (matches_position (DocIteratorSpec := disjunction_over_spec Ps) d P HM). Qed.
Next Obligation. intros S D L d P Q [Ps HM] E. exists Ps. exact (matches_ext (DocIteratorSpec := disjunction_over_spec Ps) d P Q HM E). Qed.
Next Obligation.
  intros S D L d P [Ps HM]. destruct (disjunction_next_spec Ps d P HM) as (d' & E & HM' & HF). exists d'. split; [done|]. split; [by exists Ps|done].
Qed.
Next Obligation.
  intros S D L d P t [Ps HM] Ht Hle. destruct (disjunction_seek_spec Ps d P t HM Ht Hle) as (d' & E & HM' & HF). exists d'. split; [done|].
  split; [by exists Ps|done].
Qed.

(** ** Properties *)

(** C3: The heap-based disjunction refines the cursor over the documents any of its iterators has:
    whatever their number and order, [next] and forward [seek] return what the cursor returns and
    terminate, although iterators lag behind after a [seek] that hits its target. A visit at any
    moment reaches exactly the iterators whose sets have the current document, each once and moved up to it, and the
    calls after it still return what the cursor returns. *)
Theorem heap_disjunction_refines {S} {D : DocIterator S} {L : DocIteratorSpec S}
  (zs : list (S * (Z -> bool))) cs vs
  (Hfresh : Forall (fun z => matches z.1 z.2 /\ value z.1 = doc_limits.invalid) zs)
  (Hsize : 0 < Z.of_nat (length zs) < 2 ^ 62)
  (Htrace : cursor_trace (any_of zs.*2) doc_limits.invalid cs vs) :
  exists d, run cs (disjunction_make zs.*1) = Some (vs, d) /\
    (doc_limits.min <= value d < doc_limits.eof -> exists visited d',
       disjunction_visit d = Some (visited, d') /\ value d' = value d /\ NoDup visited /\
       (forall i, i ∈ visited <-> exists P, zs.*2 !! i = Some P /\ P (value d) = true) /\
       (forall i, i ∈ visited -> exists it, dj_itrs d' !! i = Some it /\ value it = value d) /\
       forall cs' vs', cursor_trace (any_of zs.*2) (value d) cs' vs' -> exists d2, run cs' d' = Some (vs', d2)).
Proof.
  assert (zs <> []) as Hne by (intros ->; cbn in Hsize; lia). set (over := disjunction_over_spec zs.*2).
  destruct (run_refines (L := over) (any_of zs.*2) cs (disjunction_make zs.*1) vs) as (d & Hr & HM).
  - apply disjunction_fresh; [done|lia|done].
  - cbn [value disjunction_iterator disjunction_make dj_doc].
    by rewrite decide_False by (intros E; by apply fmap_nil_inv in E).
  - exists d. split; [done|]. intros Hd.
    destruct (disjunction_visit_spec zs.*2 d _ HM Hd) as (visited & d' & H1 & H2 & H3 & H4 & H5 & H6).
    exists visited, d'. split; [done|]. split; [done|]. split; [done|]. split; [done|]. split; [done|]. intros cs' vs' Ht.
    change (dj_doc d) with (value d) in H2. change (dj_doc d') with (value d') in H2. rewrite <-H2 in Ht.
    destruct (run_refines (L := over) (any_of zs.*2) cs' d' vs' H3 Ht) as (d2 & Hr' & _). by exists d2.
Qed.

Lemma heap_disjunction_refines_witness :
  let it words := (bitset_it_make words tt, word_bit words) in
  let zs := [it sample_a; it sample_b; it sample_c; it sample_a; it sample_c] in
  exists d, run [Next; Seek 5; Next; Seek 41] (disjunction_make zs.*1) = Some ([1; 5; 8; 41], d) /\
    value d = 41 /\ exists visited d', disjunction_visit d = Some (visited, d') /\ 1%nat ∈ visited /\ 0%nat ∉ visited.
Proof.
  intros it zs.
  assert (Forall (fun z => matches z.1 z.2 /\ value z.1 = doc_limits.invalid) zs) as Hf.
  { repeat constructor; cbn [fst snd it]; eapply sample_ok; auto. }
  assert (cursor_trace (any_of zs.*2) doc_limits.invalid [Next; Seek 5; Next; Seek 41] [1; 5; 8; 41]) as HT.
  { apply (check_trace_sound 192); [|vm_compute; reflexivity]. intros d Hd. apply any_of_false. intros P HP.
    cbn in HP. rewrite !elem_of_cons in HP.
    destruct HP as [-> |[-> |[-> |[-> |[-> |HP]]]]]; [| | | | |by apply elem_of_nil in HP]; apply sample_ok; auto. }
  destruct (heap_disjunction_refines zs _ _ Hf ltac:(cbn; lia) HT) as (d & Hr & Hvisit).
  assert (value d = 41) as Hv.
  { pose proof Hr as Hr'. vm_compute in Hr'. by injection Hr' as <-. }
  exists d. split; [exact Hr|]. split; [exact Hv|]. destruct (Hvisit ltac:(rewrite Hv; doc_lia)) as (visited & d' & Ev & _ & _ & Hvis & _).
  exists visited, d'. split; [exact Ev|]. rewrite !Hvis, Hv. split.
  - eexists. split; [reflexivity|]. vm_compute. reflexivity.
  - intros (P & [= <-] & HP). apply (f_equal negb) in HP. vm_compute in HP. discriminate.
Defined.
