(* ===== verification/BlockDisjunction.v ===== *)
(** * The block disjunction

    [block_disjunction] of core/search/disjunction.hpp, the iterator behind boolean and multi-term
    queries: it reads the documents of all its iterators ahead into the bit mask of a window of
    [kWindow] documents, counting the matches of each document when a minimum is required. Scores
    are not modelled, only the position in the score buffer that is read for a document. *)
From S2P Require Import Prelude BitUtils DocIterators Bitset Conjunction Disjunction.

#[local] Obligation Tactic := idtac.

Module MatchType.

Inductive t := kMatch | kMinMatchFast | kMinMatch.

End MatchType.

(** [block_disjunction_traits], and whether the merger has a score *)
Record block_traits := mkTraits {
  bt_min_match : MatchType.t;
  bt_seek_readahead : bool;
  bt_num_blocks : Z;
  bt_has_score : bool;
}.

Definition kMinMatchEarlyPruning (T : block_traits) : bool :=
  match bt_min_match T with MatchType.kMinMatchFast => true | _ => false end.
Definition kMinMatch (T : block_traits) : bool :=
  kMinMatchEarlyPruning T || match bt_min_match T with MatchType.kMatch => false | _ => true end.
Definition kBlockSize : Z := 64.
Definition kNumBlocks (T : block_traits) : Z := Z.max 1 (bt_num_blocks T).
Definition kWindow (T : block_traits) : Z := kBlockSize * kNumBlocks T.

(** [disjunction_iterator] and [min_match_iterator] *)
Definition disjunction_traits (has_score : bool) : block_traits := mkTraits MatchType.kMatch false 8 has_score.
Definition min_match_traits (has_score : bool) : block_traits := mkTraits MatchType.kMinMatch false 8 has_score.

(** ** [min_match_buffer] *)

Record min_match_buffer := mkBuffer {
  min_match_count_ : Z;
  match_count_buf : list Z; (* match_count_[Size] *)
}.

Definition buffer_make (min_match_count : Z) (size : Z) : min_match_buffer :=
  mkBuffer (Z.max 1 min_match_count) (replicate (Z.to_nat size) 0).
Definition buffer_match_count (b : min_match_buffer) (i : Z) : Z := default 0 (match_count_buf b !! Z.to_nat i).
(** [++match_count_[i] < min_match_count_] *)
Definition buffer_inc (i : Z) (b : min_match_buffer) : bool * min_match_buffer :=
  let c := wrap 32 (buffer_match_count b i + 1) in
  (c <? min_match_count_ b, mkBuffer (min_match_count_ b) (<[Z.to_nat i := c]> (match_count_buf b))).
Definition buffer_clear (b : min_match_buffer) : min_match_buffer :=
  mkBuffer (min_match_count_ b) (replicate (length (match_count_buf b)) 0).
(** [min_match_count(n)] *)
Definition buffer_raise (n : Z) (b : min_match_buffer) : min_match_buffer :=
  mkBuffer (Z.max n (min_match_count_ b)) (match_count_buf b).

(** [irstd::swap_remove] *)
Definition swap_remove {A} (i : nat) (l : list A) : list A := removelast (swap i (length l - 1) l).

Section definitions.
Context {S : Type} {D : DocIterator S} (T : block_traits).

Record block_disjunction := mkBlock {
  bd_mask : list Z;
  bd_itrs : list S;
  bd_begin : Z;        (* begin_ - mask_ *)
  bd_cur : Z;
  bd_doc_base : Z;
  bd_min : Z;
  bd_max : Z;
  bd_doc : Z;
  bd_match_count : Z;
  bd_buf_offset : Z;
  bd_match_buf : min_match_buffer;
  bd_score : Z;        (* score_value_ as a position in score_buf_ *)
}.

(** With a minimum the constructor also sorts the iterators by their cost: [itrs] is the sorted list. *)
Definition block_make (itrs : list S) (min_match_count : Z) : block_disjunction :=
  {| bd_mask := replicate (Z.to_nat (kNumBlocks T)) 0; bd_itrs := itrs; bd_begin := kNumBlocks T; bd_cur := 0;
     bd_doc_base := doc_limits.invalid; bd_min := doc_limits.min; bd_max := doc_limits.invalid;
     bd_doc := if decide (itrs = []) then doc_limits.eof else doc_limits.invalid;
     bd_match_count := if decide (itrs = []) then 0 else Z.b2z (negb (kMinMatch T));
     bd_buf_offset := 0; bd_match_buf := buffer_make min_match_count (if kMinMatch T then kWindow T else 0);
     bd_score := 0 |}.

(** Changes of some of the members. *)
Definition bd_set_doc (doc count : Z) (b : block_disjunction) : block_disjunction :=
  mkBlock (bd_mask b) (bd_itrs b) (bd_begin b) (bd_cur b) (bd_doc_base b) (bd_min b) (bd_max b) doc count
    (bd_buf_offset b) (bd_match_buf b) (bd_score b).
Definition bd_set_itrs (itrs : list S) (b : block_disjunction) : block_disjunction :=
  mkBlock (bd_mask b) itrs (bd_begin b) (bd_cur b) (bd_doc_base b) (bd_min b) (bd_max b) (bd_doc b)
    (bd_match_count b) (bd_buf_offset b) (bd_match_buf b) (bd_score b).
(** The scanning position: [begin_], [cur_], [doc_base_], [buf_offset_]. *)
Definition bd_set_scan (begin cur doc_base buf_offset : Z) (b : block_disjunction) : block_disjunction :=
  mkBlock (bd_mask b) (bd_itrs b) begin cur doc_base (bd_min b) (bd_max b) (bd_doc b)
    (bd_match_count b) buf_offset (bd_match_buf b) (bd_score b).
(** The window that is read: [doc_base_], [max_], [min_], [mask_] and the counts. *)
Definition bd_set_window (mask : list Z) (doc_base min max : Z) (buf : min_match_buffer) (b : block_disjunction) :=
  mkBlock mask (bd_itrs b) (bd_begin b) (bd_cur b) doc_base min max (bd_doc b)
    (bd_match_count b) (bd_buf_offset b) buf (bd_score b).

(** [reset] *)
Definition block_reset (b : block_disjunction) : block_disjunction :=
  let b := bd_set_window (replicate (length (bd_mask b)) 0) (bd_doc_base b) (bd_min b) (bd_max b)
    (if kMinMatch T then buffer_clear (bd_match_buf b) else bd_match_buf b) b in
  mkBlock (bd_mask b) (bd_itrs b) (bd_begin b) (bd_cur b) (bd_doc_base b) (bd_min b) (bd_max b) (bd_doc b)
    (bd_match_count b) (bd_buf_offset b) (bd_match_buf b) (if bt_has_score T then 0 else bd_score b).

(** [visit_and_purge]: calls the visitor on the iterators in turn and removes those it refuses. The
    visitor changes the iterator, what it captures ([E]) and the other members. *)
Definition purge_round {E} (visitor : S -> E * block_disjunction -> option (bool * (S * (E * block_disjunction))))
    (st : nat * (E * block_disjunction)) : option ((nat * (E * block_disjunction)) + (bool * (E * block_disjunction))) :=
  let '(i, (e, b)) := st in
  match bd_itrs b !! i with
  | None => Some (inr (false, (e, b)))
  | Some it =>
      '(keep, (it, (e, b))) ← visitor it (e, b);
      let itrs := <[i := it]> (bd_itrs b) in
      if keep : bool then Some (inl ((i + 1)%nat, (e, bd_set_itrs itrs b)))
      else
        let itrs := swap_remove i itrs in
        if kMinMatchEarlyPruning T && (Z.of_nat (length itrs) <? min_match_count_ (bd_match_buf b))
        then Some (inr (true, (e, bd_set_itrs [] b)))
        else Some (inl (i, (e, bd_set_itrs itrs b)))
  end.

Definition visit_and_purge {E} (visitor : S -> E * block_disjunction -> option (bool * (S * (E * block_disjunction))))
    (e : E) (b : block_disjunction) : option (E * block_disjunction) :=
  '(pruned, (e, b)) ← iterate 64 (purge_round visitor) (0%nat, (e, b));
  if negb pruned && kMinMatch T && negb (kMinMatchEarlyPruning T) &&
     (Z.of_nat (length (bd_itrs b)) <? min_match_count_ (bd_match_buf b))
  then Some (e, bd_set_itrs [] b)
  else Some (e, b).

(** The loop of [refill(it, empty)]: marks the documents of the iterator inside the window. *)
Definition refill_round (st : S * (bool * block_disjunction))
    : option ((S * (bool * block_disjunction)) + (bool * (S * (bool * block_disjunction)))) :=
  let '(it, (empty, b)) := st in
  let v := value it in
  if bd_max b <=? v then
    Some (inr (true, (it, (empty, bd_set_window (bd_mask b) (bd_doc_base b) (Z.min v (bd_min b)) (bd_max b)
                                    (bd_match_buf b) b))))
  else
    let offset := v -[32] bd_doc_base b in
    let k := Z.to_nat (offset / kBlockSize) in
    let mask := <[k := Bit.set_bit 64 (word_at (bd_mask b) (offset / kBlockSize)) (offset mod kBlockSize)]> (bd_mask b) in
    let '(empty, buf) :=
      if kMinMatch T then
        let '(low, buf) := buffer_inc offset (bd_match_buf b) in (empty && low, buf)
      else (false, bd_match_buf b) in
    let b := bd_set_window mask (bd_doc_base b) (bd_min b) (bd_max b) buf b in
    '(more, it) ← next it;
    if negb more then Some (inr (false, (it, (empty, b)))) else Some (inl (it, (empty, b))).

(** [refill(it, empty)]: whether the iterator stays *)
Definition refill_iterator (it : S) (st : bool * block_disjunction) : option (bool * (S * (bool * block_disjunction))) :=
  let '(empty, b) := st in
  '(more, it) ← (if value it <? bd_doc_base b then next it else Some (true, it));
  if negb more || doc_limits.is_eof (value it) then Some (false, (it, (empty, b)))
  else iterate doc_fuel refill_round (it, (empty, b)).

(** One round of the loop of [refill()]: reads one window. *)
Definition refill_window (st : bool * block_disjunction)
    : option ((bool * block_disjunction) + (bool * block_disjunction)) :=
  let '(empty, b) := st in
  let b := if kMinMatch T then block_reset b else b in
  let b := bd_set_window (bd_mask b) (bd_min b) doc_limits.eof (bd_min b +[32] kWindow T) (bd_match_buf b) b in
  '(empty, b) ← visit_and_purge refill_iterator empty b;
  if empty && negb (Nat.eqb (length (bd_itrs b)) 0) then Some (inl (empty, b)) else Some (inr (empty, b)).

(** [while (!cur_)] of [refill()]; it stops with [None] behind the mask. *)
Definition refill_scan (b : block_disjunction) : option (block_disjunction + block_disjunction) :=
  if negb (bd_cur b =? 0) then Some (inr b)
  else
    w ← bd_mask b !! Z.to_nat (bd_begin b);
    Some (inl (bd_set_scan (bd_begin b + 1) w (bd_doc_base b +[32] 64)
                 (if kMinMatch T || bt_has_score T then bd_buf_offset b + 64 else bd_buf_offset b) b)).

Definition block_refill (b : block_disjunction) : option (bool * block_disjunction) :=
  if Nat.eqb (length (bd_itrs b)) 0 then Some (false, b)
  else
    let b := if negb (kMinMatch T) then block_reset b else b in
    '(empty, b) ← iterate doc_fuel refill_window (true, b);
    if empty : bool then Some (false, b)
    else
      let b := bd_set_scan 1 (word_at (bd_mask b) 0) (bd_doc_base b)
                 (if kMinMatch T || bt_has_score T then 0 else bd_buf_offset b) b in
      b ← iterate doc_fuel refill_scan b;
      Some (true, b).

(** One round of [while (!cur_)] of [next()]: [inr false] when there is nothing left. *)
Definition block_fill_round (b : block_disjunction) : option (block_disjunction + (bool * block_disjunction)) :=
  if negb (bd_cur b =? 0) then Some (inr (true, b))
  else if kNumBlocks T <=? bd_begin b then
    '(more, b) ← block_refill b;
    if more : bool then Some (inr (true, b)) else Some (inr (false, bd_set_doc doc_limits.eof 0 b))
  else
    Some (inl (bd_set_scan (bd_begin b + 1) (word_at (bd_mask b) (bd_begin b)) (bd_doc_base b +[32] 64)
                 (if kMinMatch T || bt_has_score T then bd_buf_offset b + 64 else bd_buf_offset b) b)).

(** One round of [do ... while (traits_type::kMinMatch)] of [next()]. *)
Definition block_next_round (b : block_disjunction) : option (block_disjunction + (bool * block_disjunction)) :=
  '(more, b) ← iterate doc_fuel block_fill_round b;
  if negb more then Some (inr (false, b))
  else
    let offset := countr_zero 64 (bd_cur b) in
    let b := bd_set_scan (bd_begin b) (Bit.unset_bit 64 (bd_cur b) offset) (bd_doc_base b) (bd_buf_offset b) b in
    let buf_offset := bd_buf_offset b + offset in
    let count := if kMinMatch T then buffer_match_count (bd_match_buf b) buf_offset else bd_match_count b in
    let b := bd_set_doc (bd_doc b) count b in
    if kMinMatch T && (count <? min_match_count_ (bd_match_buf b)) then Some (inl b)
    else
      let b := bd_set_doc (bd_doc_base b +[32] offset) count b in
      Some (inr (true, mkBlock (bd_mask b) (bd_itrs b) (bd_begin b) (bd_cur b) (bd_doc_base b) (bd_min b) (bd_max b)
        (bd_doc b) (bd_match_count b) (bd_buf_offset b) (bd_match_buf b)
        (if bt_has_score T then buf_offset else bd_score b))).

Definition block_next (b : block_disjunction) : option (bool * block_disjunction) :=
  iterate doc_fuel block_next_round b.

(** The visitor of [seek]: moves the iterator, keeps the least document and counts the matches. *)
Definition seek_visitor (target : Z) (it : S) (st : unit * block_disjunction)
    : option (bool * (S * (unit * block_disjunction))) :=
  let '(_, b) := st in
  '(v, it) ← seek target it;
  if doc_limits.is_eof v then Some (false, (it, (tt, b)))
  else if v <? bd_doc b then
    Some (true, (it, (tt, bd_set_doc v (if kMinMatch T then 1 else bd_match_count b) b)))
  else
    Some (true, (it, (tt, bd_set_doc (bd_doc b)
      (if kMinMatch T && (target =? v) then bd_match_count b + 1 else bd_match_count b) b))).

(** [cur_ = 0; begin_ = end(mask_); max_ = doc.value; min_ = ...] *)
Definition block_restart (min buf_offset : Z) (b : block_disjunction) : block_disjunction :=
  mkBlock (bd_mask b) (bd_itrs b) (kNumBlocks T) 0 (bd_doc_base b) min (bd_doc b) (bd_doc b)
    (bd_match_count b) buf_offset (bd_match_buf b) (bd_score b).

Definition block_seek (target : Z) (b : block_disjunction) : option (Z * block_disjunction) :=
  if target <=? bd_doc b then Some (bd_doc b, b)
  else if target <? bd_max b then
    let block_base := bd_max b -[32] kWindow T in
    let target := target -[32] block_base in
    let block_offset := target / kBlockSize in
    let b := bd_set_scan (block_offset + 1)
      (Z.land (word_at (bd_mask b) block_offset) ((~[64] 0) <<[64] (target mod kBlockSize)))
      (block_base +[32] block_offset * kBlockSize) (bd_buf_offset b) b in
    '(_, b) ← block_next b;
    Some (bd_doc b, b)
  else
    let b := bd_set_doc doc_limits.eof (if kMinMatch T then 0 else bd_match_count b) b in
    '(_, b) ← visit_and_purge (seek_visitor target) tt b;
    if Nat.eqb (length (bd_itrs b)) 0 then
      let b := bd_set_doc doc_limits.eof 0 b in Some (bd_doc b, b)
    else if bt_seek_readahead T then
      '(_, b) ← block_next (block_restart (bd_doc b) (bd_buf_offset b) b);
      Some (bd_doc b, b)
    else
      let b := block_restart (bd_doc b +[32] 1) 0 b in
      if kMinMatch T && (bd_match_count b <? min_match_count_ (bd_match_buf b)) then
        '(_, b) ← block_next b;
        Some (bd_doc b, b)
      else Some (bd_doc b, mkBlock (bd_mask b) (bd_itrs b) (bd_begin b) (bd_cur b) (bd_doc_base b) (bd_min b)
        (bd_max b) (bd_doc b) (bd_match_count b) (bd_buf_offset b) (bd_match_buf b)
        (if bt_has_score T then 0 else bd_score b)).

End definitions.

Arguments block_disjunction : clear implicits.

(** The iterator of the traits [T]. *)
Record block_iterator (S : Type) (T : block_traits) := mkBlockIt { block_of : block_disjunction S }.
Arguments mkBlockIt {S} T.
Arguments block_of {S T}.

#[export] Instance block_doc_iterator {S} {D : DocIterator S} T : DocIterator (block_iterator S T) := {
  value b := bd_doc (block_of b);
  next b := '(r, b) ← block_next T (block_of b); Some (r, mkBlockIt T b);
  seek t b := '(v, b) ← block_seek T t (block_of b); Some (v, mkBlockIt T b);
}.

(** ** Counting the iterators that have a document *)

Fixpoint count_of (Ps : list (Z -> bool)) (d : Z) : Z :=
  match Ps with [] => 0 | P :: Ps => Z.b2z (P d) + count_of Ps d end.

(** The documents of at least [m] of the sets. *)
Definition at_least (m : Z) (Ps : list (Z -> bool)) (d : Z) : bool := m <=? count_of Ps d.

Lemma count_of_app Ps Qs d : count_of (Ps ++ Qs) d = count_of Ps d + count_of Qs d.
Proof. induction Ps as [|P Ps IH]; cbn [count_of app]; lia. Qed.

#[export] Instance count_of_perm : Proper (Permutation ==> eq ==> eq) count_of.
Proof. intros Ps Qs H d _ <-. induction H; cbn [count_of]; lia. Qed.

#[export] Instance at_least_perm : Proper (eq ==> Permutation ==> eq ==> eq) at_least.
Proof. intros m _ <- Ps Qs H d _ <-. unfold at_least. by rewrite H. Qed.

Lemma count_of_range Ps d : 0 <= count_of Ps d <= Z.of_nat (length Ps).
Proof. induction Ps as [|P Ps IH]; cbn [count_of length]; [lia|]. destruct (P d); cbn [Z.b2z]; lia. Qed.

Lemma count_of_none Ps d : Forall (fun P => P d = false) Ps -> count_of Ps d = 0.
Proof. intros H. induction H as [|P Ps HP _ IH]; cbn [count_of]; [done|]. by rewrite HP, IH. Qed.

Lemma count_of_some Ps d : 0 < count_of Ps d -> exists P, P ∈ Ps /\ P d = true.
Proof.
  induction Ps as [|P Ps IH]; cbn [count_of]; [lia|]. destruct (P d) eqn:E.
  - intros _. exists P. split; [apply list_elem_of_here|done].
  - cbn [Z.b2z]. intros H. destruct IH as (Q & HQ & ?); [lia|]. exists Q. split; [by apply list_elem_of_further|done].
Qed.

(** With a minimum of one this is the union. *)
Lemma at_least_one Ps d : at_least 1 Ps d = any_of Ps d.
Proof.
  unfold at_least. apply eq_true_iff_eq. rewrite any_of_true, Z.leb_le. split.
  - intros H. apply count_of_some. lia.
  - intros (P & HP & Hd). apply elem_of_Permutation in HP as [k ->]. cbn [count_of]. rewrite Hd.
    pose proof (count_of_range k d). cbn [Z.b2z]. lia.
Qed.

(** ** [swap_remove] and [visit_and_purge] *)

Lemma swap_fmap_remove {A B} (f : A -> B) i (l : list A) : f <$> swap_remove i l = swap_remove i (f <$> l).
Proof.
  unfold swap_remove. rewrite length_fmap, <-swap_fmap. generalize (swap i (length l - 1) l).
  intros k. induction k as [|x k IH]; [done|]. destruct k; [done|]. cbn [removelast fmap list_fmap] in *. by rewrite IH.
Qed.

(** The last element takes the place of the one removed. *)
Lemma swap_remove_middle {A} (k t : list A) x : exists t', swap_remove (length k) (k ++ x :: t) = k ++ t' /\ t' ≡ₚ t.
Proof.
  unfold swap_remove. destruct t as [|y t _] using rev_ind.
  - exists []. split; [|done]. rewrite length_app. cbn [length].
    replace (length k + 1 - 1)%nat with (length k) by lia. unfold swap.
    rewrite lookup_app_r, Nat.sub_diag by done. cbn [lookup list_lookup].
    rewrite insert_app_r_alt, Nat.sub_diag by done. cbn.
    rewrite insert_app_r_alt, Nat.sub_diag by done. cbn. by rewrite removelast_last, app_nil_r.
  - exists (y :: t). split; [|by rewrite Permutation_app_comm]. rewrite length_app. cbn [length]. rewrite length_app.
    cbn [length]. replace (length k + S (length t + 1) - 1)%nat with (length k + S (length t))%nat by lia.
    unfold swap. rewrite (list_lookup_middle k _ x) by done.
    replace ((k ++ x :: t ++ [y]) !! (length k + S (length t))%nat) with (Some y).
    2:{ rewrite lookup_app_r by lia. replace (length k + S (length t) - length k)%nat with (S (length t)) by lia.
        change ((x :: t ++ [y]) !! S (length t)) with ((t ++ [y]) !! length t). by rewrite list_lookup_middle. }
    rewrite insert_app_r. change (<[S (length t) := x]> (x :: t ++ [y])) with (x :: <[length t := x]> (t ++ [y])).
    pose proof (insert_app_r t [y] 0 x) as E. rewrite Nat.add_0_r in E. rewrite E.
    pose proof (insert_app_r k (x :: t ++ <[0%nat := x]> [y]) 0 y) as E'. rewrite Nat.add_0_r in E'. rewrite E'.
    change (k ++ <[0%nat := y]> (x :: t ++ <[0%nat := x]> [y])) with (k ++ (y :: t) ++ [x]).
    rewrite app_assoc. apply removelast_last.
Qed.

(** The rule of [visit_and_purge]: the visitor is called once on each iterator; [J] holds of those
    kept, of the sets of those removed, and of what the visitor changed. *)
Section purging.
Context {S : Type} {D : DocIterator S} {E : Type} (T : block_traits).
Context (HT : kMinMatchEarlyPruning T = false).
Context (visitor : S -> E * block_disjunction S -> option (bool * (S * (E * block_disjunction S)))).
Context (A : S -> (Z -> bool) -> Prop).
Context (J : list (S * (Z -> bool)) -> list (Z -> bool) -> E -> block_disjunction S -> Prop).
Context (Hitrs : forall kept gone e b itrs, J kept gone e b -> J kept gone e (bd_set_itrs itrs b)).
Context (Hvisit : forall it P kept gone e b, A it P -> Z.of_nat (length kept + length gone) + 1 < 2 ^ 32 ->
  J kept gone e b -> exists keep it' e' b',
  visitor it (e, b) = Some (keep, (it', (e', b'))) /\ bd_itrs b' = bd_itrs b /\
  if keep : bool then J (kept ++ [(it', P)]) gone e' b' else J kept (P :: gone) e' b').

Lemma purge_rule zs e b : bd_itrs b = zs.*1 -> Z.of_nat (length zs) < 2 ^ 32 ->
  Forall (fun z => A z.1 z.2) zs -> J [] [] e b -> exists kept gone e' b',
  iterate 64 (purge_round T visitor) (0%nat, (e, b)) = Some (false, (e', b')) /\
  J kept gone e' b' /\ kept.*2 ++ gone ≡ₚ zs.*2 /\ bd_itrs b' = kept.*1.
Proof using All.
  intros Hb Hlen HA HJ.
  destruct (iterate_rule
    (fun st : nat * (E * block_disjunction S) => exists kept gone todo,
       st.1 = length kept /\ bd_itrs st.2.2 = (kept ++ todo).*1 /\ Forall (fun z => A z.1 z.2) todo /\
       kept.*2 ++ gone ++ todo.*2 ≡ₚ zs.*2 /\ J kept gone st.2.1 st.2.2)
    (fun st => Z.of_nat (length (bd_itrs st.2.2)) - Z.of_nat st.1)
    (fun r : bool * (E * block_disjunction S) => exists kept gone, r.1 = false /\
       J kept gone r.2.1 r.2.2 /\ kept.*2 ++ gone ≡ₚ zs.*2 /\ bd_itrs r.2.2 = kept.*1)
    (purge_round T visitor)) with (k := 64%nat) (s := (0%nat, (e, b))) as ([r [e' b']] & Hi & kept & gone & Hr & H).
  - intros [i [e1 b1]] (kept & gone & todo & Hi & Hitr & HA1 & Hp & HJ1). cbn [fst snd] in *. subst i.
    split; [rewrite Hitr, length_fmap, length_app; lia|].
    unfold purge_round. cbn beta iota. rewrite Hitr, list_lookup_fmap, lookup_app_r, Nat.sub_diag by done.
    destruct todo as [|[it P] todo]; cbn [lookup list_lookup fmap option_fmap option_map fst].
    + eexists. split; [done|]. exists kept, gone. rewrite app_nil_r in *. done.
    + apply Forall_cons in HA1 as [HAit HA1].
      destruct (Hvisit it P kept gone e1 b1 HAit) as (keep & it' & e2 & b2 & -> & Hb2 & HJ2).
      { apply Permutation_length in Hp. rewrite !length_app, !length_fmap in Hp. cbn [length] in Hp. lia. }
      { done. }
      cbn [mbind option_bind]. rewrite Hb2, Hitr.
      replace (<[length kept := it']> (kept ++ (it, P) :: todo).*1) with ((kept ++ (it', P) :: todo).*1).
      2:{ rewrite !fmap_app, !fmap_cons. pose proof (insert_app_r kept.*1 (it :: todo.*1) 0 it') as Ei.
          rewrite Nat.add_0_r, length_fmap in Ei. cbn [fst]. by rewrite Ei. }
      destruct keep.
      * eexists. split; [done|]. cbn [fst snd bd_set_itrs bd_itrs]. rewrite !length_fmap, !length_app.
        cbn [length]. split; [|lia]. exists (kept ++ [(it', P)]), gone, todo. rewrite length_app. cbn [length].
        split; [lia|]. split; [by rewrite <-app_assoc|]. split; [done|]. split; [|by apply Hitrs].
        rewrite <-Hp, fmap_app. cbn. rewrite <-app_assoc. cbn. solve_Permutation.
      * rewrite <-swap_fmap_remove. destruct (swap_remove_middle kept todo (it', P)) as (todo' & -> & Hp').
        rewrite HT. cbn [andb]. eexists. split; [done|]. cbn [fst snd bd_set_itrs bd_itrs].
        rewrite !length_fmap, !length_app, Hp'. cbn [length]. split; [|lia].
        exists kept, (P :: gone), todo'. split; [done|]. split; [done|]. split; [by rewrite Hp'|].
        split; [|by apply Hitrs]. rewrite <-Hp, Hp'. cbn. solve_Permutation.
  - exists [], [], zs. done.
  - cbn [fst snd]. rewrite Hb, length_fmap. change (2 ^ Z.of_nat 64) with (2 ^ 64). lia.
  - cbn [fst snd] in *. subst r. by exists kept, gone, e', b'.
Qed.

Lemma visit_and_purge_rule zs e b : bd_itrs b = zs.*1 -> Z.of_nat (length zs) < 2 ^ 32 ->
  Forall (fun z => A z.1 z.2) zs -> J [] [] e b -> exists kept live gone e' b',
  visit_and_purge T visitor e b = Some (e', b') /\
  J kept gone e' b' /\ kept.*2 ++ gone ≡ₚ zs.*2 /\ bd_itrs b' = live.*1 /\
  (live = kept \/ live = [] /\ kMinMatch T = true /\ Z.of_nat (length kept) < min_match_count_ (bd_match_buf b')).
Proof using All.
  intros Hb Hlen HA HJ. unfold visit_and_purge.
  destruct (purge_rule zs e b Hb Hlen HA HJ) as (kept & gone & e' & b' & -> & HJ' & Hp & Hb').
  cbn [mbind option_bind negb andb]. rewrite HT, Hb', length_fmap. cbn [negb]. rewrite andb_true_r.
  destruct (kMinMatch T && _) eqn:Ec.
  - apply andb_true_iff in Ec as [Hm Hl]. exists kept, [], gone, e', (bd_set_itrs [] b').
    split; [done|]. split; [by apply Hitrs|]. split; [done|]. split; [done|]. right. cbn. split; [done|]. split; [done|lia].
  - exists kept, kept, gone, e', b'. split; [done|]. split; [done|]. split; [done|]. split; [done|by left].
Qed.

End purging.

(** ** Reading a window *)

Lemma kWindow_val T : kWindow T = 64 * kNumBlocks T.
Proof. done. Qed.
Lemma kNumBlocks_pos T : 1 <= kNumBlocks T.
Proof. unfold kNumBlocks. lia. Qed.
Lemma kWindow_pos T : 64 <= kWindow T.
Proof. unfold kWindow, kBlockSize, kNumBlocks. lia. Qed.

Section reading.
Context {S : Type} {D : DocIterator S} {L : DocIteratorSpec S} {K : SeekReady S}.
Context (T : block_traits) (HT : kMinMatchEarlyPruning T = false) (HW : kWindow T < doc_limits.eof).
Context (m : Z) (Hm1 : 1 <= m) (Hm : kMinMatch T = false -> m = 1).
Implicit Types (b : block_disjunction S) (P : Z -> bool) (Cs : list (Z -> bool)) (base v d o : Z) (it : S)
  (mask : list Z) (buf : min_match_buffer).

Local Abbreviation W := (kWindow T).

(** The mask and the counts hold the documents of [Cs] in the window at [base]; [empty] says that
    none of them has enough matches. *)
Record marked base Cs (empty : bool) (mask : list Z) (buf : min_match_buffer) : Prop := {
  mk_len : length mask = Z.to_nat (kNumBlocks T);
  mk_ok : words_ok mask;
  mk_bits : forall o, 0 <= o < W -> word_bit mask o = (1 <=? count_of Cs (base + o));
  mk_min : kMinMatch T = true -> min_match_count_ buf = m;
  mk_size : kMinMatch T = true -> length (match_count_buf buf) = Z.to_nat W;
  mk_count : kMinMatch T = true -> forall o, 0 <= o < W -> buffer_match_count buf o = count_of Cs (base + o);
  mk_empty : empty = true <-> forall o, 0 <= o < W -> count_of Cs (base + o) < m;
}.

Lemma marked_ext base Cs Cs' empty mask buf :
  (forall d, base <= d < base + W -> count_of Cs' d = count_of Cs d) ->
  marked base Cs empty mask buf -> marked base Cs' empty mask buf.
Proof using Type.
  intros He H. destruct H as [H1 H2 H3 H4 H5 H6 H7]. constructor; auto.
  - intros o Ho. rewrite He by lia. auto.
  - intros Hk o Ho. rewrite He by lia. auto.
  - rewrite H7. split; intros H o Ho; [rewrite He by lia|rewrite <-He by lia]; auto.
Qed.

(** An empty window, after [reset] or, without a minimum, because nothing was marked. *)
Lemma marked_reset base mask buf : length mask = Z.to_nat (kNumBlocks T) ->
  (kMinMatch T = true -> min_match_count_ buf = m /\ length (match_count_buf buf) = Z.to_nat W) ->
  marked base [] true (replicate (length mask) 0) (if kMinMatch T then buffer_clear buf else buf).
Proof using Hm1.
  intros Hl Hb.
  assert (forall k, word_at (replicate (length mask) 0) k = 0) as Hw.
  { intros k. unfold word_at. destruct (replicate (length mask) 0 !! Z.to_nat k) as [x|] eqn:E; [|done].
    by apply lookup_replicate in E as [-> _]. }
  constructor.
  - by rewrite length_replicate.
  - apply Forall_replicate. unfold is_word. lia.
  - intros o Ho. rewrite word_bit_nonneg, Hw by lia. apply Z.bits_0.
  - intros Hk. rewrite Hk. cbn. by apply Hb.
  - intros Hk. rewrite Hk. cbn. rewrite length_replicate. by apply Hb.
  - intros Hk o Ho. rewrite Hk. unfold buffer_match_count, buffer_clear. cbn [match_count_buf count_of].
    destruct (replicate _ 0 !! Z.to_nat o) as [x|] eqn:E; [|done]. by apply lookup_replicate in E as [-> _].
  - split; [|done]. intros _ o _. cbn. lia.
Qed.

Lemma marked_nothing base base' Cs mask buf : kMinMatch T = false -> marked base Cs true mask buf ->
  marked base' [] true mask buf.
Proof using Hm Hm1.
  intros Hk H. assert (m = 1) as E by auto. pose proof (proj1 (mk_empty _ _ _ _ _ H) eq_refl) as He.
  constructor; try congruence; try apply H.
  - intros o Ho. rewrite (mk_bits _ _ _ _ _ H) by done. specialize (He o Ho). cbn. lia.
  - split; [|done]. intros _ o _. cbn. lia.
Qed.

(** Marking one document of the window. *)
Definition mark_word (mask : list Z) (o : Z) : list Z :=
  <[Z.to_nat (o / kBlockSize) := Bit.set_bit 64 (word_at mask (o / kBlockSize)) (o mod kBlockSize)]> mask.

Lemma mark_word_bit mask o i : length mask = Z.to_nat (kNumBlocks T) -> 0 <= o < W -> 0 <= i ->
  word_bit (mark_word mask o) i = (i =? o) || word_bit mask i.
Proof using Type.
  rewrite kWindow_val. pose proof (kNumBlocks_pos T). intros Hl Ho Hi. unfold mark_word, kBlockSize.
  rewrite word_bit_insert by (rewrite ?Hl; word_lia). destruct (Z.eqb_spec (i / 64) (o / 64)) as [E|E].
  - rewrite Bit.set_bit_testbit by word_lia. rewrite word_bit_nonneg, E by done. f_equal.
    destruct (Z.eqb_spec i o) as [->|]; [by apply Z.eqb_refl|]. apply Z.eqb_neq. word_lia.
  - destruct (Z.eqb_spec i o) as [->|]; [done|]. done.
Qed.

Lemma mark_word_ok mask o : words_ok mask -> words_ok (mark_word mask o).
Proof using Type.
  intros H. apply Forall_insert; [done|]. apply Bit.set_bit_word; [unfold kBlockSize; word_lia|]. by apply words_ok_at.
Qed.

Lemma marked_mark base Cs Cs' empty mask buf o :
  marked base Cs empty mask buf -> 0 <= o < W -> Z.of_nat (length Cs') < 2 ^ 32 ->
  (forall d, base <= d < base + W -> count_of Cs' d = count_of Cs d + Z.b2z (d =? base + o)) ->
  let inc := buffer_inc o buf in
  marked base Cs' (if kMinMatch T then empty && inc.1 else false) (mark_word mask o) (if kMinMatch T then inc.2 else buf).
Proof using Hm Hm1.
  intros H Ho Hlen Hc inc.
  assert (count_of Cs' (base + o) = count_of Cs (base + o) + 1) as Hco by (rewrite Hc, Z.eqb_refl by lia; done).
  pose proof (count_of_range Cs' (base + o)) as Hr.
  assert (forall o', 0 <= o' < W -> o' <> o -> count_of Cs' (base + o') = count_of Cs (base + o')) as Hce.
  { intros o' Ho' Hne. rewrite Hc by lia. replace (base + o' =? base + o) with false by lia. cbn. lia. }
  assert (kMinMatch T = true -> inc = (count_of Cs' (base + o) <? m,
    mkBuffer (min_match_count_ buf) (<[Z.to_nat o := count_of Cs' (base + o)]> (match_count_buf buf)))) as Hinc.
  { intros Hk. unfold inc, buffer_inc. rewrite (mk_count _ _ _ _ _ H Hk o Ho), (mk_min _ _ _ _ _ H Hk), <-Hco.
    rewrite wrap_small by (unfold is_word; pose proof (count_of_range Cs (base + o)); lia). done. }
  constructor.
  - unfold mark_word. rewrite length_insert. apply H.
  - apply mark_word_ok, H.
  - intros o' Ho'. rewrite mark_word_bit by (apply H || lia). rewrite (mk_bits _ _ _ _ _ H) by done.
    pose proof (count_of_range Cs (base + o')).
    destruct (Z.eqb_spec o' o) as [->|Hne]; cbn [orb]; [rewrite Hco; lia|by rewrite Hce].
  - intros Hk. rewrite Hk, (Hinc Hk). apply (mk_min _ _ _ _ _ H Hk).
  - intros Hk. rewrite Hk, (Hinc Hk). cbn. rewrite length_insert. apply (mk_size _ _ _ _ _ H Hk).
  - intros Hk o' Ho'. rewrite Hk, (Hinc Hk). unfold buffer_match_count. cbn [snd match_count_buf].
    pose proof (mk_size _ _ _ _ _ H Hk). destruct (decide (o' = o)) as [->|Hne].
    + by rewrite list_lookup_insert_eq by lia.
    + rewrite list_lookup_insert_ne by lia. rewrite Hce by done. apply (mk_count _ _ _ _ _ H Hk o' Ho').
  - pose proof (mk_empty _ _ _ _ _ H) as He. destruct (kMinMatch T) eqn:Hk.
    + rewrite (Hinc eq_refl). cbn [fst]. rewrite andb_true_iff, He, Z.ltb_lt. split.
      * intros [Hall Hlt] o' Ho'. destruct (decide (o' = o)) as [->|Hne]; [done|]. rewrite Hce; auto.
      * intros Hall. split; [|by apply Hall]. intros o' Ho'. specialize (Hall o' Ho').
        destruct (decide (o' = o)) as [->|Hne]; [lia|]. by rewrite Hce in Hall.
    + split; [done|]. intros Hall. specialize (Hall o Ho). rewrite Hm in Hall by done. pose proof (count_of_range Cs (base + o)). lia.
Qed.

(** The documents of an iterator before its place. *)
Definition before P v : Z -> bool := fun d => P d && (d <? v).

(** What reading the documents of [it] leaves: everything of [P] in the window is marked, and [it]
    stands behind the window or has been read to its end. *)
Definition read_result base Cs P min b0 (r : bool * (S * (bool * block_disjunction S))) : Prop :=
  let '(keep, (it, (empty, b))) := r in
  exists mask buf, matches it P /\ marked base (P :: Cs) empty mask buf /\
    if keep : bool
    then first_from P (base + W) (value it) /\ value it <> doc_limits.eof /\
         b = bd_set_window mask base (Z.min (value it) min) (base + W) buf b0
    else (forall d, base + W <= d -> P d = false) /\ b = bd_set_window mask base min (base + W) buf b0.

Lemma refill_loop base Cs P it empty mask min buf b0 :
  doc_limits.min <= base -> base + W <= doc_limits.eof -> Z.of_nat (length Cs) + 1 < 2 ^ 32 ->
  matches it P -> base <= value it -> value it <> doc_limits.eof ->
  (forall d, base <= d < value it -> P d = false) -> marked base Cs empty mask buf -> exists r,
  iterate doc_fuel (refill_round T) (it, (empty, bd_set_window mask base min (base + W) buf b0)) = Some r /\
  read_result base Cs P min b0 r.
Proof using HW Hm Hm1.
  intros Hb HbW Hlen HM Hv Hne Hgap HMk. pose proof (kWindow_pos T) as HW0.
  apply (iterate_rule (fun st : S * (bool * block_disjunction S) => let '(it, (empty, b)) := st in
      exists mask buf, b = bd_set_window mask base min (base + W) buf b0 /\ matches it P /\
        base <= value it /\ value it <> doc_limits.eof /\ (forall d, base + W <= d < value it -> P d = false) /\
        marked base (before P (value it) :: Cs) empty mask buf)
    (fun st => doc_limits.eof - value st.1)).
  - clear it empty mask buf HM Hv Hne Hgap HMk. intros [it [empty b]] (mask & buf & -> & HM & Hv & Hne & Hgap & HMk).
    pose proof (matches_range it P HM) as Hr. cbn [fst]. split; [lia|]. unfold refill_round.
    cbn [bd_set_window bd_max bd_doc_base bd_mask bd_min bd_match_buf].
    destruct (Z.leb_spec (base + W) (value it)) as [Hge|Hlt].
    + eexists. split; [done|]. exists mask, buf. split; [done|]. split; [|split; [|done]].
      * eapply marked_ext; [|exact HMk]. intros d Hd. cbn [count_of]. unfold before.
        replace (d <? value it) with true by lia. by rewrite andb_true_r.
      * split; [|intros d Hd; apply Hgap; lia]. right. split; [done|].
        destruct (matches_position it P HM) as [E|[E|E]]; [doc_lia|done|done].
    + assert (P (value it) = true) as HPv.
      { destruct (matches_position it P HM) as [E|[E|E]]; [doc_lia|done|done]. }
      set (o := value it - base).
      assert (wrap 32 o = o) as -> by (apply wrap_small; unfold o, is_word; doc_lia).
      destruct (next_spec it P HM) as (it' & Hn & HM' & HF).
      assert (marked base (before P (value it') :: Cs) (if kMinMatch T then empty && (buffer_inc o buf).1 else false)
        (mark_word mask o) (if kMinMatch T then (buffer_inc o buf).2 else buf)) as HMk'.
      { eapply (marked_mark base (before P (value it) :: Cs)); [done|unfold o; lia|cbn [length]; lia|].
        intros d Hd. cbn [count_of]. replace (base + o) with (value it) by (unfold o; lia).
        assert (Z.b2z (before P (value it') d) = Z.b2z (before P (value it) d) + Z.b2z (d =? value it)); [|lia].
        pose proof (first_from_ge P _ _ HF ltac:(lia)). unfold before. destruct HF as [_ Hg].
        destruct (Z.lt_trichotomy d (value it)) as [?|[->|?]].
        - replace (d <? value it') with true by lia. replace (d <? value it) with true by lia.
          replace (d =? value it) with false by lia. cbn [Z.b2z]. lia.
        - replace (value it <? value it') with true by lia. rewrite Z.eqb_refl, Z.ltb_irrefl, HPv. done.
        - replace (d <? value it) with false by lia. replace (d =? value it) with false by lia.
          rewrite andb_false_r. destruct (Z.ltb_spec d (value it')); [rewrite Hg by lia; done|].
          by rewrite andb_false_r. }
      change (<[Z.to_nat (o / kBlockSize) := _]> mask) with (mark_word mask o).
      assert (forall e bf, (if kMinMatch T then let '(low, bf') := buffer_inc o buf in (empty && low, bf') else (false, buf))
        = (e, bf) -> marked base (before P (value it') :: Cs) e (mark_word mask o) bf) as HMk2.
      { intros e bf. destruct (kMinMatch T); [|by intros [= <- <-]]. destruct (buffer_inc o buf) as [low bf'].
        by intros [= <- <-]. }
      clear HMk'. destruct (if kMinMatch T then _ else _) as [e bf]. specialize (HMk2 e bf eq_refl).
      rewrite Hn. cbn [mbind option_bind]. destruct (doc_limits.is_eof (value it')) eqn:Eeof; cbn [negb].
      * apply is_eof_spec in Eeof. eexists. split; [done|]. exists (mark_word mask o), bf. split; [done|].
        split; [|split; [|done]].
        -- eapply marked_ext; [|exact HMk2]. intros d Hd. cbn [count_of]. unfold before. rewrite Eeof.
           replace (d <? doc_limits.eof) with true by doc_lia. by rewrite andb_true_r.
        -- intros d Hd. destruct (P d) eqn:E; [|done]. pose proof (matches_docs it P HM d E).
           destruct HF as [_ Hg]. rewrite Hg in E by lia. done.
      * assert (value it' <> doc_limits.eof) by (intros E; apply is_eof_spec in E; congruence).
        pose proof (first_from_ge P _ _ HF ltac:(lia)).
        eexists. split; [done|]. cbn [fst]. split; [|lia]. exists (mark_word mask o), bf.
        split; [done|]. split; [done|]. split; [lia|]. split; [done|]. split; [|done].
        intros d Hd. apply HF. lia.
  - exists mask, buf. split; [done|]. split; [done|]. split; [done|]. split; [done|]. split; [intros d Hd; apply Hgap; lia|].
    eapply marked_ext; [|exact HMk]. intros d Hd. cbn [count_of]. unfold before.
    destruct (Z.ltb_spec d (value it)); [rewrite Hgap by lia; done|]. by rewrite andb_false_r.
  - cbn [fst]. change (2 ^ Z.of_nat doc_fuel) with (2 ^ 33). doc_lia.
Qed.

(** An iterator at a boundary: no document lies between its place and [base]. *)
Definition at_frontier base it P : Prop :=
  matches it P /\ (forall d, value it < d < base -> P d = false) /\ (forall d, base <= d < value it -> P d = false).

Lemma refill_iterator_spec base Cs P it empty mask min buf b0 :
  doc_limits.min <= base -> base + W <= doc_limits.eof -> Z.of_nat (length Cs) + 1 < 2 ^ 32 ->
  at_frontier base it P -> marked base Cs empty mask buf -> exists r,
  refill_iterator T it (empty, bd_set_window mask base min (base + W) buf b0) = Some r /\
  read_result base Cs P min b0 r.
Proof using HW Hm Hm1.
  intros Hb HbW Hlen (HM & Hlow & Hhigh) HMk. pose proof (kWindow_pos T) as HW0.
  assert (exists more it', (if value it <? base then next it else Some (true, it)) = Some (more, it') /\
    matches it' P /\ base <= value it' /\ (forall d, base <= d < value it' -> P d = false) /\
    (negb more || doc_limits.is_eof (value it') = doc_limits.is_eof (value it'))) as (more & it' & Hn & HM' & Hv & Hgap & Hmore).
  { destruct (Z.ltb_spec (value it) base) as [Hlt|Hge]; [|by exists true, it].
    destruct (next_spec it P HM) as (it' & Hn & HM' & HF). exists (negb (doc_limits.is_eof (value it'))), it'.
    split; [done|]. split; [done|]. rewrite negb_involutive, orb_diag. split; [|split; [intros d Hd; apply HF; lia|done]].
    destruct HF as [[E|[Hge E]] _]; [lia|].
    apply Z.le_ngt. intros ?. rewrite Hlow in E by lia. done. }
  unfold refill_iterator. cbn [bd_set_window bd_doc_base]. rewrite Hn. cbn [mbind option_bind]. rewrite Hmore.
  destruct (doc_limits.is_eof (value it')) eqn:Eeof.
  - apply is_eof_spec in Eeof.
    assert (forall d, base <= d -> P d = false) as Hnone.
    { intros d Hd. destruct (P d) eqn:E; [|done]. pose proof (matches_docs it' P HM' d E).
      rewrite Hgap in E by lia. done. }
    eexists. split; [done|]. exists mask, buf. split; [done|]. split; [|split; [|done]].
    + eapply marked_ext; [|exact HMk]. intros d Hd. cbn [count_of]. rewrite Hnone by lia. done.
    + intros d Hd. apply Hnone. lia.
  - apply refill_loop; try done. intros E. apply is_eof_spec in E. congruence.
Qed.

(** ** The state between two windows *)

Implicit Types (zs : list (S * (Z -> bool))) (H : Z -> bool) (G c : Z).

(** The iterators still to be read: [G] is the first document that is not in the window, [H] the
    documents with enough matches. *)
Record ahead G zs H b : Prop := {
  ah_itrs : bd_itrs b = zs.*1;
  ah_len : Z.of_nat (length zs) < 2 ^ 32;
  ah_frontier : Forall (fun z => matches z.1 z.2 /\ (forall d, value z.1 < d < bd_min b -> z.2 d = false) /\
    (forall d, G <= d < value z.1 -> z.2 d = false)) zs;
  ah_bound : Forall (fun P => forall d, P d = true -> d + 1 + W <= doc_limits.eof) zs.*2;
  ah_min : doc_limits.min <= G <= bd_min b;
  ah_next : zs <> [] -> bd_min b + W <= doc_limits.eof;
  ah_hits : forall d, G <= d -> H d = at_least m zs.*2 d;
  ah_gap : forall d, G <= d < bd_min b -> H d = false;
}.

Definition sane b : Prop :=
  length (bd_mask b) = Z.to_nat (kNumBlocks T) /\
  (kMinMatch T = true -> min_match_count_ (bd_match_buf b) = m /\
     length (match_count_buf (bd_match_buf b)) = Z.to_nat W).

Lemma marked_sane base Cs empty b : marked base Cs empty (bd_mask b) (bd_match_buf b) -> sane b.
Proof using Type. intros H. split; [apply H|]. intros Hk. split; by apply H. Qed.

Lemma at_least_zero Ps d : count_of Ps d < m -> at_least m Ps d = false.
Proof using Type. intros. unfold at_least. lia. Qed.

(** What [visit_and_purge] of a refill has established. *)
Definition window_read base b0 (kept : list (S * (Z -> bool))) (gone : list (Z -> bool)) (empty : bool) b : Prop :=
  exists mask buf min itrs, b = bd_set_itrs itrs (bd_set_window mask base min (base + W) buf b0) /\
    marked base (kept.*2 ++ gone) empty mask buf /\
    Forall (fun z => matches z.1 z.2 /\ first_from z.2 (base + W) (value z.1) /\
      value z.1 <> doc_limits.eof /\ min <= value z.1) kept /\
    Forall (fun P : Z -> bool => forall d, base + W <= d -> P d = false) gone /\
    base + W <= min <= doc_limits.eof /\ (min = doc_limits.eof \/ exists z, z ∈ kept /\ value z.1 = min).

Lemma window_visit base b0 it P kept gone empty b :
  doc_limits.min <= base -> base + W <= doc_limits.eof -> at_frontier base it P ->
  Z.of_nat (length kept + length gone) + 1 < 2 ^ 32 -> window_read base b0 kept gone empty b ->
  exists keep it' e' b', refill_iterator T it (empty, b) = Some (keep, (it', (e', b'))) /\
    bd_itrs b' = bd_itrs b /\
    if keep : bool then window_read base b0 (kept ++ [(it', P)]) gone e' b' else window_read base b0 kept (P :: gone) e' b'.
Proof using HW Hm Hm1.
  intros Hb HbW Hf Hlen (mask & buf & min & itrs & -> & HMk & Hk & Hg & Hmin & Hmk).
  destruct (refill_iterator_spec base (kept.*2 ++ gone) P it empty mask min buf (bd_set_itrs itrs b0))
    as ([keep [it' [e' b']]] & Hr & mask' & buf' & HM' & HMk' & Hpost); [done|done| |done|done|].
  { rewrite length_app, length_fmap. lia. }
  change (bd_set_itrs itrs (bd_set_window mask base min (base + W) buf b0))
    with (bd_set_window mask base min (base + W) buf (bd_set_itrs itrs b0)).
  exists keep, it', e', b'. split; [done|]. destruct keep.
  - destruct Hpost as (HF & Hne & ->). split; [done|].
    exists mask', buf', (Z.min (value it') min), itrs. split; [done|]. split; [|split; [|split; [done|]]].
    + eapply marked_ext; [|exact HMk']. intros d _. rewrite fmap_app. cbn.
      rewrite ?count_of_app. cbn [count_of]. rewrite ?count_of_app. lia.
    + apply Forall_app. split; [|apply Forall_singleton; cbn; repeat (split; [done|]); lia].
      eapply Forall_impl; [exact Hk|]. intros z (H1 & H2 & H3 & H4). repeat (split; [done|]). lia.
    + pose proof (first_from_ge P _ _ HF ltac:(lia)). pose proof (matches_range it' P HM'). split; [lia|].
      destruct (Z.min_spec (value it') min) as [[_ ->]|[_ ->]].
      * right. exists (it', P). split; [|done]. apply elem_of_app. right. apply list_elem_of_here.
      * destruct Hmk as [?|(z & Hz & ?)]; [by left|right]. exists z. split; [|done]. apply elem_of_app. by left.
  - destruct Hpost as (Hnone & ->). split; [done|]. exists mask', buf', min, itrs. split; [done|].
    split; [|split; [done|split; [by constructor|done]]].
    eapply marked_ext; [|exact HMk']. intros d _. rewrite ?count_of_app. cbn [count_of]. rewrite ?count_of_app. lia.
Qed.

(** The mask of a window read at [base], and the documents of the sets in it. *)
Definition holds base H b : Prop :=
  doc_limits.min <= base /\ base + W <= doc_limits.eof /\ bd_doc_base b = base /\ bd_max b = base + W /\
  exists Cs, marked base Cs false (bd_mask b) (bd_match_buf b) /\
    forall d, base <= d < base + W -> H d = at_least m Cs d.

(** Before a round of the loop of [refill]: what the mask holds. *)
Definition blank b : Prop :=
  sane b /\ (kMinMatch T = false -> forall base, marked base [] true (bd_mask b) (bd_match_buf b)).

(** The members a refill leaves alone. *)
Definition same_scan b b' : Prop :=
  bd_doc b' = bd_doc b /\ bd_buf_offset b' = bd_buf_offset b /\ bd_begin b' = bd_begin b /\ bd_cur b' = bd_cur b.

(** After the last iterator of a window: what is ahead of the window. *)
Lemma ahead_window G zs H b base b0 kept gone live empty b' : ahead G zs H b -> zs <> [] -> base = bd_min b ->
  window_read base b0 kept gone empty b' -> kept.*2 ++ gone ≡ₚ zs.*2 -> bd_itrs b' = live.*1 ->
  (live = kept \/ live = [] /\ kMinMatch T = true /\ Z.of_nat (length kept) < min_match_count_ (bd_match_buf b')) ->
  ahead (base + W) live H b' /\ (empty = true -> forall d, G <= d < base + W -> H d = false).
Proof using HW Hm1.
  intros HA Hne -> (mask & buf & min & itrs & -> & HMk & Hk & Hg & Hmin & Hmk) Hp Hlive Hcase.
  cbn [bd_set_itrs bd_set_window bd_itrs bd_match_buf] in *. subst itrs.
  pose proof (kWindow_pos T) as HW0. destruct HA as [_ Hlen _ Hbound Hge Hnext Hhits Hgap].
  assert (forall d, bd_min b + W <= d -> count_of zs.*2 d = count_of kept.*2 d) as Hcount.
  { intros d Hd. rewrite <-Hp, count_of_app, (count_of_none gone); [lia|].
    eapply Forall_impl; [exact Hg|]. intros P HP. by apply HP. }
  assert (length kept <= length zs)%nat as Hlk.
  { apply Permutation_length in Hp. rewrite length_app, !length_fmap in Hp. lia. }
  assert (forall z, z ∈ live -> z ∈ kept) as Hsub by (intros z; destruct Hcase as [->|[-> _]]; [done|]; by intros ?%elem_of_nil).
  assert (Forall (fun z => matches z.1 z.2 /\ first_from z.2 (bd_min b + W) (value z.1) /\
      value z.1 <> doc_limits.eof /\ min <= value z.1) live) as Hl.
  { rewrite Forall_forall in Hk |- *. intros z Hz. apply Hk. apply Hsub. done. }
  split.
  - constructor; cbn [bd_set_itrs bd_set_window bd_itrs bd_min].
    + done.
    + destruct Hcase as [->|[-> _]]; cbn [length]; lia.
    + eapply Forall_impl; [exact Hl|]. intros z (HM & HF & _ & Hv). split; [done|]. split; [intros d Hd; lia|apply HF].
    + rewrite Forall_forall in Hbound |- *. intros P HP. apply Hbound. rewrite <-Hp. apply elem_of_app. left.
      apply list_elem_of_fmap in HP as (z & -> & Hz). apply list_elem_of_fmap. exists z. auto.
    + lia.
    + intros Hln. assert (min < doc_limits.eof) as Hlt.
      { destruct live as [|z l]; [done|]. apply Forall_cons in Hl as [(HM & _ & Hv & Hle) _].
        pose proof (matches_range _ _ HM). lia. }
      destruct Hmk as [?|(z & Hz & Hv)]; [lia|]. rewrite Forall_forall in Hk. destruct (Hk z Hz) as (HM & _).
      rewrite Forall_forall in Hbound.
      assert (z.2 min = true) as HP by (destruct (matches_position _ _ HM) as [E|[E|E]]; [doc_lia|lia|congruence]).
      pose proof (Hbound z.2) as Hb. rewrite <-Hp in Hb. specialize (Hb ltac:(apply elem_of_app; left; apply list_elem_of_fmap; eauto) min HP). lia.
    + intros d Hd. rewrite Hhits by lia. unfold at_least. rewrite Hcount by done.
      destruct Hcase as [->|(-> & Hk2 & Hlt)]; [done|]. rewrite (mk_min _ _ _ _ _ HMk Hk2) in Hlt.
      pose proof (count_of_range kept.*2 d) as Hr. rewrite length_fmap in Hr. cbn. lia.
    + intros d Hd. rewrite Hhits by lia. apply at_least_zero. rewrite Hcount by lia. rewrite count_of_none; [lia|].
      apply Forall_fmap. eapply Forall_impl; [exact Hk|]. intros z (_ & HF & _ & Hv). cbn. apply HF. lia.
  - intros ->. pose proof (proj1 (mk_empty _ _ _ _ _ HMk) eq_refl) as He. intros d Hd.
    destruct (Z.lt_ge_cases d (bd_min b)); [apply Hgap; lia|]. rewrite Hhits by lia. apply at_least_zero.
    rewrite <-Hp. replace d with (bd_min b + (d - bd_min b)) by lia. apply He. lia.
Qed.

(** One window: it has documents to deliver, or none has been skipped. *)
Lemma refill_window_spec G zs H b : ahead G zs H b -> zs <> [] -> blank b -> exists r,
  refill_window T (true, b) = Some r /\
  match r with
  | inl (e', b') => e' = true /\ same_scan b b' /\ blank b' /\ bd_min b < bd_min b' /\
      (exists zs', zs' <> [] /\ ahead (bd_min b + W) zs' H b') /\ forall d, G <= d < bd_min b + W -> H d = false
  | inr (true, b') => same_scan b b' /\ sane b' /\ bd_itrs b' = [] /\ forall d, G <= d -> H d = false
  | inr (false, b') => same_scan b b' /\ holds (bd_min b) H b' /\ exists zs', ahead (bd_min b + W) zs' H b'
  end.
Proof using HW Hm Hm1 HT.
  intros HA Hne [[Hsl Hsb] Hblank]. pose proof (ah_min _ _ _ _ HA) as Hmin. pose proof (ah_next _ _ _ _ HA Hne) as HbW.
  unfold refill_window. set (b1 := if kMinMatch T then block_reset T b else b).
  assert (b1 = bd_set_window (bd_mask b1) (bd_doc_base b) (bd_min b) (bd_max b) (bd_match_buf b1) b1 /\ same_scan b b1 /\
    bd_itrs b1 = bd_itrs b /\ marked (bd_min b) [] true (bd_mask b1) (bd_match_buf b1)) as (E1 & Hsame & Hi1 & HMk).
  { unfold b1. destruct (kMinMatch T) eqn:Hk.
    - split; [done|]. split; [done|]. split; [done|]. pose proof (marked_reset (bd_min b) (bd_mask b) (bd_match_buf b) Hsl) as Hr.
      rewrite Hk in Hr. unfold block_reset. cbn. rewrite Hk. by apply Hr, Hsb.
    - destruct b. split; [done|]. split; [done|]. split; [done|]. by apply Hblank. }
  assert (bd_min b1 = bd_min b) as -> by (rewrite E1; done).
  assert (wrap 32 (bd_min b + W) = bd_min b + W) as ->.
  { apply wrap_small. pose proof (kWindow_pos T). unfold is_word. doc_lia. }
  destruct (visit_and_purge_rule T HT (refill_iterator T) (at_frontier (bd_min b)) (window_read (bd_min b) b1))
    with (zs := zs) (e := true) (b := bd_set_window (bd_mask b1) (bd_min b) doc_limits.eof (bd_min b + W) (bd_match_buf b1) b1)
    as (kept & live & gone & e' & b' & -> & HWr & Hp & Hl & Hcase).
  { intros kept gone e b2 itrs (mask & buf & min & itrs0 & -> & H1). by exists mask, buf, min, itrs. }
  { intros it P kept gone e b2 Hf Hlen HWr. apply window_visit; [lia|done..]. }
  { cbn. by rewrite Hi1, (ah_itrs _ _ _ _ HA). }
  { apply HA. }
  { eapply Forall_impl; [apply HA|]. intros z (HM & H1 & H2). split; [done|]. split; [done|]. intros d Hd. apply H2. lia. }
  { exists (bd_mask b1), (bd_match_buf b1), doc_limits.eof, (bd_itrs b1). split; [by destruct b1|]. split; [done|].
    split; [done|]. split; [done|]. split; [lia|by left]. }
  cbn [mbind option_bind].
  destruct (ahead_window _ _ _ _ _ _ _ _ _ _ _ HA Hne eq_refl HWr Hp Hl Hcase) as [HA' Hskip].
  pose proof HWr as (mask & buf & min & itrs & Eb & HMk' & _). pose proof (kWindow_pos T) as HW0.
  assert (same_scan b b') as Hsame' by (rewrite Eb; exact Hsame).
  assert (sane b') as Hsane by (rewrite Eb; by eapply (marked_sane _ _ _ (bd_set_itrs itrs (bd_set_window mask _ _ _ buf b1)))).
  rewrite Hl, length_fmap. destruct e'; cbn [andb]; [destruct live as [|z live]; cbn [length Nat.eqb negb]|];
    (eexists; split; [done|]).
  - split; [done|]. split; [done|]. split; [done|]. intros d Hd. destruct (Z.lt_ge_cases d (bd_min b + W)); [auto|].
    rewrite (ah_hits _ _ _ _ HA') by lia. apply at_least_zero. cbn. lia.
  - pose proof (ah_min _ _ _ _ HA'). split; [done|]. split; [done|]. split; [split; [done|]|].
    + intros Hk base. rewrite Eb. cbn. by eapply marked_nothing.
    + split; [lia|]. split; [by exists (z :: live)|auto].
  - split; [done|]. split; [|by exists live]. split; [lia|]. split; [lia|]. rewrite Eb. cbn. split; [done|]. split; [done|].
    exists (kept.*2 ++ gone). split; [done|]. intros d Hd. rewrite (ah_hits _ _ _ _ HA) by lia. by rewrite Hp.
Qed.

(** ** Scanning a window *)

(** [begin_ = e, cur_ = w, doc_base_ = ...]: the documents of the window up to [c] are consumed. *)
Record scanning base c b : Prop := {
  sc_base : doc_limits.min <= base /\ base + W <= doc_limits.eof;
  sc_max : bd_max b = base + W;
  sc_begin : 1 <= bd_begin b <= kNumBlocks T;
  sc_doc : bd_doc_base b = base + 64 * (bd_begin b - 1);
  sc_at : bd_doc_base b - 1 <= c < bd_doc_base b + 64;
  sc_cur : is_word 64 (bd_cur b);
  sc_bits : forall j, 0 <= j < 64 ->
    Z.testbit (bd_cur b) j = (c <? bd_doc_base b + j) && word_bit (bd_mask b) (64 * (bd_begin b - 1) + j);
  sc_offset : kMinMatch T = true -> bd_buf_offset b = 64 * (bd_begin b - 1);
}.

(** The iterator in a window: the documents of [Cs] behind [c] are to come. *)
Definition in_window base c H b : Prop :=
  scanning base c b /\ exists Cs empty, marked base Cs empty (bd_mask b) (bd_match_buf b) /\
    forall d, c < d < base + W -> H d = at_least m Cs d.

Lemma window_bit base Cs empty b d : marked base Cs empty (bd_mask b) (bd_match_buf b) -> base <= d < base + W ->
  word_bit (bd_mask b) (d - base) = (1 <=? count_of Cs d).
Proof using Type. intros HMk Hd. rewrite (mk_bits _ _ _ _ _ HMk) by lia. by replace (base + (d - base)) with d by lia. Qed.

(** Without bits in the word in hand there are no documents before the next word. *)
Lemma scan_nothing base c H b : in_window base c H b -> bd_cur b = 0 ->
  forall d, c < d < bd_doc_base b + 64 -> H d = false.
Proof using Hm1.
  intros [HS (Cs & empty & HMk & Hh)] Hcur d Hd. pose proof (sc_at _ _ _ HS). pose proof (sc_doc _ _ _ HS) as E.
  pose proof (sc_begin _ _ _ HS). pose proof (kWindow_val T) as EW.
  assert (base <= d < base + W) as Hd' by lia. rewrite Hh by lia. apply at_least_zero.
  pose proof (sc_bits _ _ _ HS (d - bd_doc_base b) ltac:(lia)) as Hb. rewrite Hcur, Z.bits_0 in Hb.
  replace (c <? bd_doc_base b + (d - bd_doc_base b)) with true in Hb by lia. cbn [andb] in Hb.
  replace (64 * (bd_begin b - 1) + (d - bd_doc_base b)) with (d - base) in Hb by lia.
  rewrite (window_bit base Cs empty b d HMk Hd') in Hb. lia.
Qed.

(** The next word of the mask. *)
Definition next_word b : block_disjunction S :=
  bd_set_scan (bd_begin b + 1) (word_at (bd_mask b) (bd_begin b)) (bd_doc_base b +[32] 64)
    (if kMinMatch T || bt_has_score T then bd_buf_offset b + 64 else bd_buf_offset b) b.

Lemma scanning_load base c b begin off :
  doc_limits.min <= base /\ base + W <= doc_limits.eof -> bd_max b = base + W -> words_ok (bd_mask b) ->
  0 <= begin < kNumBlocks T -> (kMinMatch T = true -> off = 64 * begin) -> base + 64 * begin - 1 <= c < base + 64 * begin + 64 ->
  forall cur, is_word 64 cur ->
  (forall j, 0 <= j < 64 -> Z.testbit cur j = (c <? base + 64 * begin + j) && word_bit (bd_mask b) (64 * begin + j)) ->
  scanning base c (bd_set_scan (begin + 1) cur (base + 64 * begin) off b).
Proof using Type.
  intros Hb Hmax Hok Hbegin Hoff Hc cur Hcur Hbits.
  constructor; cbn [bd_set_scan bd_begin bd_doc_base bd_cur bd_max bd_mask bd_buf_offset];
    replace (begin + 1 - 1) with begin by lia; try done; lia.
Qed.

Lemma next_word_scanning base c H b : in_window base c H b -> bd_cur b = 0 -> bd_begin b < kNumBlocks T ->
  in_window base (bd_doc_base b + 63) H (next_word b) /\ c <= bd_doc_base b + 63 /\
  forall d, c < d <= bd_doc_base b + 63 -> H d = false.
Proof using HW Hm1.
  intros HI Hcur Hlt. pose proof (scan_nothing _ _ _ _ HI Hcur) as Hno. destruct HI as [HS (Cs & empty & HMk & Hh)].
  pose proof (sc_begin _ _ _ HS). pose proof (sc_base _ _ _ HS) as [Hb1 Hb2]. pose proof (sc_doc _ _ _ HS) as E.
  pose proof (kWindow_val T) as EW. pose proof (sc_at _ _ _ HS). split; [|split; [lia|intros d Hd; apply Hno; lia]].
  assert (wrap 32 (bd_doc_base b + 64) = base + 64 * bd_begin b) as Ew.
  { rewrite E. rewrite wrap_small by (unfold is_word; doc_lia). lia. }
  unfold next_word. rewrite Ew. split.
  - apply scanning_load; try done; try lia; try apply HS; try (by apply words_ok_at, HMk); try (by apply HMk).
    + intros Hk. rewrite Hk. cbn [orb]. rewrite (sc_offset _ _ _ HS Hk). lia.
    + intros j Hj. rewrite word_bit_word by lia. replace (_ <? _) with true by lia. done.
  - exists Cs, empty. split; [done|]. intros d Hd. apply Hh. lia.
Qed.

(** ** [refill] *)

Definition scanned base c H b : Prop :=
  in_window base c H b /\ bd_cur b <> 0 /\ forall d, base <= d <= c -> H d = false.

Lemma refill_scan_spec base H b : holds base H b ->
  let b0 := bd_set_scan 1 (word_at (bd_mask b) 0) (bd_doc_base b)
    (if kMinMatch T || bt_has_score T then 0 else bd_buf_offset b) b in
  exists b' c, iterate doc_fuel (refill_scan T) b0 = Some b' /\ scanned base c H b' /\
    bd_doc b' = bd_doc b /\ bd_min b' = bd_min b /\ bd_itrs b' = bd_itrs b.
Proof using HW Hm1.
  intros (Hb1 & Hb2 & Hbase & Hmax & Cs & HMk & Hh) b0. pose proof (kWindow_val T) as EW. pose proof (kNumBlocks_pos T) as Hnb.
  assert (exists o, 0 <= o < W /\ 1 <= count_of Cs (base + o)) as (o & Ho & Hco).
  { destruct (existsb (fun o => m <=? count_of Cs (base + o)) (seqZ 0 W)) eqn:E.
    - apply existsb_exists in E as (o & Ho & Hc). apply list_elem_of_In, elem_of_seqZ in Ho. exists o. split; lia.
    - exfalso. assert (false = true); [|done]. apply (mk_empty _ _ _ _ _ HMk). intros o Ho. apply Z.nle_gt. intros Hc.
      apply not_true_iff_false in E. apply E, existsb_exists. exists o. split; [apply list_elem_of_In, elem_of_seqZ; lia|lia]. }
  destruct (iterate_rule
    (fun b1 => exists c, in_window base c H b1 /\ c < base + o /\ bd_doc b1 = bd_doc b /\ bd_min b1 = bd_min b /\
       bd_itrs b1 = bd_itrs b /\ bd_mask b1 = bd_mask b /\ (forall d, base <= d <= c -> H d = false) /\
       (bd_doc_base b1 <= base + o))
    (fun b1 => kNumBlocks T - bd_begin b1)
    (fun b' => exists c, scanned base c H b' /\ bd_doc b' = bd_doc b /\ bd_min b' = bd_min b /\ bd_itrs b' = bd_itrs b)
    (refill_scan T)) with (k := doc_fuel) (s := b0) as (b' & Hi & c & H1 & H2).
  - intros b1 (c & HI & Hc & Hd & Hmi & Hit & Hma & Hno & Hle). pose proof HI as [HS (Cs1 & e1 & HMk1 & Hh1)].
    pose proof (sc_begin _ _ _ HS). split; [lia|]. unfold refill_scan.
    destruct (Z.eqb_spec (bd_cur b1) 0) as [Ecur|Ecur]; cbn [negb]; [|eexists; split; [done|]; by exists c].
    pose proof (sc_doc _ _ _ HS) as E. assert (bd_doc_base b1 + 64 <= base + o) as Hle2.
    { apply Z.nlt_ge. intros Hlt. pose proof (sc_bits _ _ _ HS (base + o - bd_doc_base b1) ltac:(lia)) as Hb.
      rewrite Ecur, Z.bits_0 in Hb. replace (_ <? _) with true in Hb by lia. cbn [andb] in Hb.
      replace (64 * (bd_begin b1 - 1) + _) with o in Hb by lia. rewrite Hma, (mk_bits _ _ _ _ _ HMk) in Hb by done. lia. }
    assert (bd_begin b1 < kNumBlocks T) as Hlt by lia.
    destruct (next_word_scanning base c H b1 HI Ecur Hlt) as (HI' & Hc' & Hno').
    assert (bd_mask b1 !! Z.to_nat (bd_begin b1) = Some (word_at (bd_mask b1) (bd_begin b1))) as ->.
    { unfold word_at. destruct (lookup_lt_is_Some_2 (bd_mask b1) (Z.to_nat (bd_begin b1))) as [w ->]; [|done].
      rewrite (mk_len _ _ _ _ _ HMk1). lia. }
    cbn [mbind option_bind]. eexists. split; [done|]. fold (next_word b1). split; [|cbn; lia].
    exists (bd_doc_base b1 + 63). split; [done|]. split; [lia|]. split; [done|]. split; [done|]. split; [done|].
    split; [done|]. split.
    + intros d Hd'. destruct (Z.le_gt_cases d c); [apply Hno; lia|apply Hno'; lia].
    + pose proof (sc_doc _ _ _ (proj1 HI')) as E2. cbn in E2 |- *. rewrite E2. lia.
  - exists (base - 1). split; [|cbn; split; [lia|]; repeat (split; [done|]); split; [intros; lia|lia]].
    split; [|exists Cs, false; split; [done|]; intros d Hd; apply Hh; lia].
    unfold b0. pose proof (scanning_load base (base - 1) b 0) as HL. rewrite Z.mul_0_r, Z.add_0_r, Z.add_0_l in HL. rewrite Hbase.
    apply HL; try done; try lia; try (by apply words_ok_at, HMk); try (by apply HMk).
    + intros Hk. by rewrite Hk.
    + intros j Hj. replace (_ <? _) with true by lia. pose proof (word_bit_word (bd_mask b) 0 j ltac:(lia) Hj) as E0.
      rewrite Z.mul_0_r, Z.add_0_l in E0. by rewrite ?Z.add_0_l, E0.
  - pose proof (kWindow_pos T). change (2 ^ Z.of_nat doc_fuel) with (2 ^ 33). cbn. doc_lia.
  - by exists b', c.
Qed.

Lemma ahead_ext G zs H b b' : bd_itrs b' = bd_itrs b -> bd_min b' = bd_min b -> ahead G zs H b -> ahead G zs H b'.
Proof using Type. intros Ei Em HA. destruct HA. constructor; rewrite ?Ei, ?Em; done. Qed.

Lemma block_refill_spec G zs H b : ahead G zs H b -> sane b -> exists r b',
  block_refill T b = Some (r, b') /\
  if r : bool then exists base c zs', scanned base c H b' /\ ahead (base + W) zs' H b' /\ G <= base /\
      bd_doc b' = bd_doc b /\ forall d, G <= d < base -> H d = false
  else forall d, G <= d -> H d = false.
Proof using HW Hm Hm1 HT.
  intros HA Hsane. unfold block_refill. rewrite (ah_itrs _ _ _ _ HA), length_fmap.
  destruct zs as [|z zs]; cbn [length Nat.eqb].
  { exists false, b. split; [done|]. intros d Hd. rewrite (ah_hits _ _ _ _ HA) by done. apply at_least_zero. cbn. lia. }
  set (b0 := if negb (kMinMatch T) then block_reset T b else b).
  assert (ahead G (z :: zs) H b0 /\ bd_doc b0 = bd_doc b /\ blank b0) as (HA0 & Hd0 & Hbl).
  { unfold b0. destruct (kMinMatch T) eqn:Hk; cbn [negb].
    - split; [done|]. split; [done|]. split; [done|]. by rewrite Hk.
    - split; [by eapply ahead_ext; [..|exact HA]|]. split; [done|].
      destruct Hsane as [Hl _]. unfold block_reset. rewrite Hk. split; [split; [|by rewrite Hk]|].
      + cbn. by rewrite length_replicate.
      + intros _ base. cbn. pose proof (marked_reset base (bd_mask b) (bd_match_buf b) Hl) as Hr. rewrite Hk in Hr. by apply Hr. }
  clearbody b0. clear HA.
  destruct (iterate_rule
    (fun st : bool * block_disjunction S => st.1 = true /\ bd_doc st.2 = bd_doc b /\ blank st.2 /\
       exists G' zs', zs' <> [] /\ ahead G' zs' H st.2 /\ G <= G' /\ forall d, G <= d < G' -> H d = false)
    (fun st => doc_limits.eof - bd_min st.2)
    (fun r : bool * block_disjunction S =>
       if r.1 then forall d, G <= d -> H d = false
       else bd_doc r.2 = bd_doc b /\ exists base zs', holds base H r.2 /\ ahead (base + W) zs' H r.2 /\ G <= base /\
         forall d, G <= d < base -> H d = false)
    (refill_window T)) with (k := doc_fuel) (s := (true, b0)) as ([e b1] & -> & Hpost).
  - intros [e b1] (He & Hd & Hb & G' & zs' & Hne & HA & HG & Hno). cbn [fst snd] in *. subst e.
    pose proof (ah_next _ _ _ _ HA Hne). pose proof (kWindow_pos T). pose proof (ah_min _ _ _ _ HA). split; [lia|].
    destruct (refill_window_spec G' zs' H b1 HA Hne Hb) as ([[e b2]|[e b2]] & -> & Hr); (eexists; split; [done|]).
    + destruct Hr as (-> & (Hd2 & _) & Hb2 & Hlt & (zs2 & Hne2 & HA2) & Hno2). cbn [fst snd]. split; [|lia].
      split; [done|]. split; [congruence|]. split; [done|]. exists (bd_min b1 + W), zs2. split; [done|]. split; [done|].
      split; [lia|]. intros d Hd'. destruct (Z.lt_ge_cases d G'); [apply Hno; lia|apply Hno2; lia].
    + destruct e; cbn [fst snd].
      * destruct Hr as (_ & _ & _ & Hno2). intros d Hd'. destruct (Z.lt_ge_cases d G'); [apply Hno; lia|apply Hno2; lia].
      * destruct Hr as ((Hd2 & _) & Hh & zs2 & HA2). split; [congruence|]. exists (bd_min b1), zs2. split; [done|].
        split; [done|]. split; [lia|]. intros d Hd'. destruct (Z.lt_ge_cases d G'); [apply Hno; lia|].
        apply (ah_gap _ _ _ _ HA). lia.
  - cbn [fst snd]. split; [done|]. split; [done|]. split; [done|]. exists G, (z :: zs). split; [done|]. split; [done|].
    split; [lia|]. intros; lia.
  - cbn [snd]. pose proof (ah_min _ _ _ _ HA0). change (2 ^ Z.of_nat doc_fuel) with (2 ^ 33). doc_lia.
  - cbn [mbind option_bind]. cbn [fst snd] in Hpost. destruct e; [by exists false, b1|].
    destruct Hpost as (Hd1 & base & zs' & Hh & HA1 & HG & Hno).
    destruct (refill_scan_spec base H b1 Hh) as (b' & c & -> & HS & Hd' & Hm' & Hi'). cbn [mbind option_bind].
    exists true, b'. split; [done|]. exists base, c, zs'. split; [done|]. split; [by eapply ahead_ext|].
    split; [done|]. split; [congruence|done].
Qed.

(** ** [next] *)

(** The iterator between two calls: [c] is the document it stands on, or the one before a target. *)
Definition resting c H b : Prop :=
  exists G zs, ahead G zs H b /\ sane b /\ 0 <= c < doc_limits.eof /\
    ((bd_cur b = 0 /\ bd_begin b = kNumBlocks T /\ bd_max b <= c + 1 /\ G = c + 1) \/
     (exists base, in_window base c H b /\ G = base + W)).

Lemma fill_spec c H b : resting c H b -> exists r b', iterate doc_fuel (block_fill_round T) b = Some (r, b') /\
  if r : bool then exists c', resting c' H b' /\ (exists base, in_window base c' H b') /\ bd_cur b' <> 0 /\ c <= c' /\
      forall d, c < d <= c' -> H d = false
  else bd_doc b' = doc_limits.eof /\ forall d, c < d -> H d = false.
Proof using HW Hm Hm1 HT.
  intros HR.
  destruct (iterate_rule
    (fun b1 => exists c', resting c' H b1 /\ c <= c' /\ forall d, c < d <= c' -> H d = false)
    (fun b1 => kNumBlocks T - bd_begin b1)
    (fun r : bool * block_disjunction S =>
       if r.1 then exists c', resting c' H r.2 /\ (exists base, in_window base c' H r.2) /\ bd_cur r.2 <> 0 /\ c <= c' /\
         forall d, c < d <= c' -> H d = false
       else bd_doc r.2 = doc_limits.eof /\ forall d, c < d -> H d = false)
    (block_fill_round T)) with (k := doc_fuel) (s := b) as ([r b'] & Hi & Hpost).
  - intros b1 (c' & HR1 & Hle & Hno). pose proof HR1 as (G & zs & HA & Hsane & Hc & Hcase).
    split. { destruct Hcase as [(_ & -> & _)|(base & [HS _] & _)]; [lia|]. pose proof (sc_begin _ _ _ HS). lia. }
    unfold block_fill_round. destruct (Z.eqb_spec (bd_cur b1) 0) as [E|E]; cbn [negb].
    + assert ((forall d, c < d < G -> H d = false) -> exists r b', block_refill T b1 = Some (r, b') /\
        if r : bool then exists c', resting c' H b' /\ (exists base, in_window base c' H b') /\ bd_cur b' <> 0 /\ c <= c' /\
          forall d, c < d <= c' -> H d = false
        else forall d, c < d -> H d = false) as Hrefill.
      { intros HnoG. destruct (block_refill_spec G zs H b1 HA Hsane) as (r & b2 & -> & Hr). exists r, b2. split; [done|].
        destruct r; [|intros d Hd; destruct (Z.lt_ge_cases d G); auto].
        destruct Hr as (base & c2 & zs2 & (HI & Hcur & Hno3) & HA2 & HG & _ & Hno2). pose proof HI as [HS (Cs & e & HMk & _)].
        pose proof (sc_base _ _ _ HS). pose proof (sc_at _ _ _ HS). pose proof (sc_doc _ _ _ HS). pose proof (sc_begin _ _ _ HS).
        pose proof (kWindow_val T). pose proof (ah_min _ _ _ _ HA).
        exists c2. split; [|split; [by exists base|split; [done|split]]].
        - exists (base + W), zs2. split; [done|]. split; [by eapply marked_sane|]. split; [doc_lia|right]. by exists base.
        - destruct Hcase as [(_ & _ & _ & ->)|(base0 & [HS0 _] & ->)]; [lia|].
          pose proof (sc_at _ _ _ HS0). pose proof (sc_doc _ _ _ HS0). pose proof (sc_begin _ _ _ HS0). lia.
        - intros d Hd. destruct (Z.lt_ge_cases d G); [apply HnoG; lia|].
          destruct (Z.lt_ge_cases d base); [apply Hno2; lia|apply Hno3; lia]. }
      destruct Hcase as [(_ & Ebeg & Hmax & ->)|(base & HI & ->)].
      * rewrite Ebeg, Z.leb_refl. destruct Hrefill as (r & b2 & -> & Hr); [intros d Hd; apply Hno; lia|].
        cbn [mbind option_bind]. destruct r; (eexists; split; [done|]); [done|]. done.
      * pose proof HI as [HS (Cs & e & HMk & _)]. pose proof (sc_begin _ _ _ HS). pose proof (sc_doc _ _ _ HS).
        pose proof (kWindow_val T). pose proof (sc_base _ _ _ HS).
        destruct (Z.leb_spec (kNumBlocks T) (bd_begin b1)) as [Hge|Hlt].
        -- destruct Hrefill as (r & b2 & -> & Hr).
           { intros d Hd. destruct (Z.le_gt_cases d c'); [apply Hno; lia|]. apply (scan_nothing base c' H b1 HI E). lia. }
           cbn [mbind option_bind]. destruct r; (eexists; split; [done|]); [done|]. done.
        -- eexists. split; [done|]. fold (next_word b1). split; [|cbn; lia].
           destruct (next_word_scanning base c' H b1 HI E Hlt) as (HI' & Hc' & Hno').
           exists (bd_doc_base b1 + 63). split; [|split; [lia|]].
           ++ exists (base + W), zs. split; [by eapply ahead_ext; [..|exact HA]|]. split; [done|]. split; [lia|right]. by exists base.
           ++ intros d Hd. destruct (Z.le_gt_cases d c'); [apply Hno; lia|apply Hno'; lia].
    + eexists. split; [done|]. cbn [fst snd]. exists c'. split; [done|]. split; [|done].
      destruct Hcase as [(Hcur & _)|(base & HI & _)]; [done|by exists base].
  - exists c. split; [done|]. split; [lia|]. intros; lia.
  - destruct HR as (G & zs & _ & _ & _ & Hcase). pose proof (kWindow_pos T). pose proof (kWindow_val T).
    change (2 ^ Z.of_nat doc_fuel) with (2 ^ 33).
    destruct Hcase as [(_ & -> & _)|(base & [HS _] & _)]; [|pose proof (sc_begin _ _ _ HS)]; doc_lia.
  - by exists r, b'.
Qed.

(** The members the invariants look at; the others may change. *)
Definition same_window b b' : Prop :=
  bd_mask b' = bd_mask b /\ bd_itrs b' = bd_itrs b /\ bd_begin b' = bd_begin b /\ bd_cur b' = bd_cur b /\
  bd_doc_base b' = bd_doc_base b /\ bd_min b' = bd_min b /\ bd_max b' = bd_max b /\
  bd_buf_offset b' = bd_buf_offset b /\ bd_match_buf b' = bd_match_buf b.

Lemma resting_ext c H b b' : same_window b b' -> resting c H b -> resting c H b'.
Proof using Type.
  intros (E1 & E2 & E3 & E4 & E5 & E6 & E7 & E8 & E9) (G & zs & HA & Hs & Hc & Hcase). exists G, zs.
  split; [by eapply ahead_ext|]. split; [unfold sane; by rewrite E1, E9|]. split; [done|].
  destruct Hcase as [Hf|(base & [[] Hd] & ->)]; [left; by rewrite E3, E4, E7|right]. exists base. split; [|done].
  split; [|by rewrite E1, E9]. constructor; rewrite ?E1, ?E3, ?E4, ?E5, ?E7, ?E8; done.
Qed.

(** Taking the lowest bit of the word in hand. *)
Lemma take_bit base c H b : in_window base c H b -> resting c H b -> bd_cur b <> 0 ->
  let o := countr_zero 64 (bd_cur b) in
  let b' := bd_set_scan (bd_begin b) (Bit.unset_bit 64 (bd_cur b) o) (bd_doc_base b) (bd_buf_offset b) b in
  0 <= o < 64 /\ c < bd_doc_base b + o < doc_limits.eof /\ wrap 32 (bd_doc_base b + o) = bd_doc_base b + o /\
  resting (bd_doc_base b + o) H b' /\
  (forall d, c < d < bd_doc_base b + o -> H d = false) /\
  H (bd_doc_base b + o) = (if kMinMatch T then m <=? buffer_match_count (bd_match_buf b) (bd_buf_offset b + o) else true).
Proof using HW Hm Hm1.
  intros HI (G & zs & HA & Hs & Hc & Hcase) Hcur o b'. pose proof HI as [HS (Cs & e & HMk & Hh)].
  destruct (countr_zero_spec 64 (bd_cur b) (sc_cur _ _ _ HS) Hcur ltac:(lia)) as (Ho & Hbit & Hlow). fold o in Ho, Hbit, Hlow.
  pose proof (sc_at _ _ _ HS). pose proof (sc_doc _ _ _ HS) as Ed. pose proof (sc_begin _ _ _ HS).
  pose proof (kWindow_val T) as EW. pose proof (sc_base _ _ _ HS).
  assert (forall j, 0 <= j < 64 -> Z.testbit (bd_cur b) j = (c <? bd_doc_base b + j) && (1 <=? count_of Cs (bd_doc_base b + j))) as Hbits.
  { intros j Hj. rewrite (sc_bits _ _ _ HS j Hj). f_equal. rewrite <-(window_bit base Cs e b _ HMk) by lia. f_equal. lia. }
  rewrite Hbits in Hbit by done. apply andb_true_iff in Hbit as [Hco Hcnt].
  assert (forall d, c < d < bd_doc_base b + o -> H d = false) as Hno.
  { intros d Hd. rewrite Hh by lia. apply at_least_zero. specialize (Hlow (d - bd_doc_base b) ltac:(lia)).
    rewrite Hbits in Hlow by lia. replace (bd_doc_base b + (d - bd_doc_base b)) with d in Hlow by lia. lia. }
  split; [done|]. split; [lia|]. split; [apply wrap_small; unfold is_word; doc_lia|]. split; [|split; [done|]].
  - destruct Hcase as [(? & _)|(base' & HI' & ->)]; [done|]. exists (base' + W), zs.
    assert (base' = base) as -> by (pose proof (sc_max _ _ _ HS); pose proof (sc_max _ _ _ (proj1 HI')); lia).
    split; [by eapply ahead_ext; [..|exact HA]|]. split; [done|]. split; [lia|right]. exists base. split; [|done].
    split; [|exists Cs, e; split; [done|]; intros d Hd; apply Hh; lia].
    constructor; cbn [b' bd_set_scan bd_begin bd_cur bd_doc_base bd_buf_offset bd_max bd_mask]; try apply HS; try lia.
    + apply Bit.unset_bit_word; [done|apply HS].
    + intros j Hj. rewrite Bit.unset_bit_testbit by (done || lia || apply HS).
      rewrite (sc_bits _ _ _ HS j Hj). destruct (Z.lt_trichotomy j o) as [Hlt|[->|Hgt]].
      * pose proof (Hlow j ltac:(lia)) as E0. rewrite (sc_bits _ _ _ HS j Hj) in E0. rewrite E0, andb_false_r.
        by replace (_ <? _) with false by lia.
      * rewrite Z.eqb_refl, Z.ltb_irrefl. done.
      * replace (j =? o) with false by lia. replace (bd_doc_base b + o <? _) with true by lia.
        by replace (c <? _) with true by lia.
  - rewrite Hh by lia. unfold at_least. destruct (kMinMatch T) eqn:Hk; [|rewrite (Hm eq_refl); lia].
    rewrite (sc_offset _ _ _ HS Hk), (mk_count _ _ _ _ _ HMk Hk) by lia. do 2 f_equal. lia.
Qed.

Lemma block_next_spec c H b : doc_set H -> resting c H b -> exists b',
  block_next T b = Some (negb (doc_limits.is_eof (bd_doc b')), b') /\ first_from H (c + 1) (bd_doc b') /\
  (bd_doc b' <> doc_limits.eof -> resting (bd_doc b') H b').
Proof using HW Hm Hm1 HT.
  intros HH HR.
  destruct (iterate_ghost
    (fun n b1 => exists c', n = doc_limits.eof - c' /\ resting c' H b1 /\ c <= c' /\ forall d, c < d <= c' -> H d = false)
    (fun r : bool * block_disjunction S => r.1 = negb (doc_limits.is_eof (bd_doc r.2)) /\ first_from H (c + 1) (bd_doc r.2) /\
       (bd_doc r.2 <> doc_limits.eof -> resting (bd_doc r.2) H r.2))
    (block_next_round T)) with (k := doc_fuel) (n := doc_limits.eof - c) (s := b) as ([r b'] & Hi & Hr & HF & Hrest).
  - intros n b1 (c' & -> & HR1 & Hle & Hno). pose proof HR1 as (_ & _ & _ & _ & Hc & _). split; [lia|].
    unfold block_next_round. destruct (fill_spec c' H b1 HR1) as ([] & b2 & -> & Hfill); cbn [mbind option_bind negb].
    + destruct Hfill as (c2 & HR2 & (base & HI) & Hcur & Hle2 & Hno2).
      destruct (take_bit base c2 H b2 HI HR2 Hcur) as (Ho & Hlt & Ew & HR3 & Hno3 & HH3).
      pose proof HR2 as (_ & _ & _ & [_ Hmin] & _). cbv zeta. cbn [bd_set_scan bd_match_buf bd_buf_offset bd_begin bd_cur bd_doc_base].
      assert (forall d, c < d < bd_doc_base b2 + countr_zero 64 (bd_cur b2) -> H d = false) as Hskip.
      { intros d Hd. destruct (Z.le_gt_cases d c'); [apply Hno; lia|].
        destruct (Z.le_gt_cases d c2); [apply Hno2; lia|apply Hno3; lia]. }
      set (v := bd_doc_base b2 + countr_zero 64 (bd_cur b2)) in *. cbn [bd_set_doc bd_match_buf].
      destruct (kMinMatch T && _) eqn:Elow; cbn [bd_set_doc bd_set_scan bd_match_buf] in Elow; (eexists; split; [done|]).
      * apply andb_true_iff in Elow as [Hk Elow]. rewrite Hk in Elow, HH3. destruct (Hmin Hk) as [Em _]. rewrite Em in Elow.
        exists (doc_limits.eof - v). split; [lia|]. exists v. split; [done|]. split; [by eapply resting_ext; [|exact HR3]|].
        split; [lia|]. intros d Hd. destruct (decide (d = v)) as [->|]; [rewrite HH3; lia|apply Hskip; lia].
      * cbn [fst snd bd_set_doc bd_doc bd_doc_base bd_set_scan]. fold v. rewrite Ew.
        assert (H v = true) as Hv.
        { rewrite HH3. destruct (kMinMatch T) eqn:Hk; [|done]. cbn [andb] in Elow. destruct (Hmin eq_refl) as [Em _]. rewrite Em in Elow. lia. }
        split; [|split; [split; [right; split; [lia|done]|]|]].
        -- unfold doc_limits.is_eof. lia.
        -- intros d Hd. apply Hskip. lia.
        -- intros _. by eapply resting_ext; [|exact HR3].
    + destruct Hfill as [Ed Hno2]. eexists. split; [done|]. cbn [fst snd]. rewrite Ed. split; [done|]. split; [|done].
      split; [by left|]. intros d Hd. destruct (Z.le_gt_cases d c'); [apply Hno; lia|apply Hno2; lia].
  - exists c. split; [done|]. split; [done|]. split; [lia|]. intros; lia.
  - destruct HR as (_ & _ & _ & _ & Hc & _). change (2 ^ Z.of_nat doc_fuel) with (2 ^ 33). doc_lia.
  - exists b'. split; [unfold block_next; cbn [fst snd] in Hr; by rewrite Hi, Hr|done].
Qed.

(** ** [seek] *)

(** What [visit_and_purge] of a seek to [t] has established. *)
Definition sought t b0 (kept : list (S * (Z -> bool))) (gone : list (Z -> bool)) (e : unit) b : Prop :=
  exists doc count itrs, b = bd_set_itrs itrs (bd_set_doc doc count b0) /\
    Forall (fun z => matches z.1 z.2 /\ first_from z.2 t (value z.1) /\ value z.1 <> doc_limits.eof /\ doc <= value z.1) kept /\
    Forall (fun P : Z -> bool => forall d, t <= d -> P d = false) gone /\
    t <= doc <= doc_limits.eof /\ (doc = doc_limits.eof \/ exists z, z ∈ kept /\ value z.1 = doc).

Lemma seek_visit t b0 it P kept gone e b : doc_limits.min <= t <= doc_limits.eof -> ready t it P ->
  sought t b0 kept gone e b -> exists keep it' e' b', seek_visitor T t it (e, b) = Some (keep, (it', (e', b'))) /\
    bd_itrs b' = bd_itrs b /\ if keep : bool then sought t b0 (kept ++ [(it', P)]) gone e' b' else sought t b0 kept (P :: gone) e' b'.
Proof using K.
  intros Ht Hready (doc & count & itrs & -> & Hk & Hg & Hdoc & Hex).
  destruct (seek_ready it P t Hready Ht) as (it' & Hs & HM & HF). unfold seek_visitor. rewrite Hs. cbn [mbind option_bind].
  pose proof (matches_range it' P HM). destruct (doc_limits.is_eof (value it')) eqn:Ee.
  - apply is_eof_spec in Ee. eexists false, it', tt, _. split; [done|]. split; [done|]. exists doc, count, itrs.
    split; [done|]. split; [done|]. split; [|done]. constructor; [|done]. intros d Hd.
    destruct (P d) eqn:E; [|done]. pose proof (matches_docs it' P HM d E). destruct HF as [_ Hn]. rewrite Hn in E by lia. done.
  - assert (value it' <> doc_limits.eof) as Hne by (intros E; apply is_eof_spec in E; congruence).
    pose proof (first_from_ge P _ _ HF ltac:(lia)).
    assert (forall doc' b', doc' = Z.min (value it') doc -> (exists count', b' = bd_set_itrs itrs (bd_set_doc doc' count' b0)) ->
      sought t b0 (kept ++ [(it', P)]) gone tt b') as Hkeep.
    { intros doc' b' -> [count' ->]. exists (Z.min (value it') doc), count', itrs. split; [done|]. split; [|split; [done|split; [lia|]]].
      - apply Forall_app. split; [|apply Forall_singleton; cbn; repeat (split; [done|]); lia].
        eapply Forall_impl; [exact Hk|]. intros z (H1 & H2 & H3 & H4). repeat (split; [done|]). lia.
      - destruct (Z.min_spec (value it') doc) as [[_ ->]|[_ ->]].
        + right. exists (it', P). split; [|done]. apply elem_of_app. right. apply list_elem_of_here.
        + destruct Hex as [?|(z & Hz & ?)]; [by left|right]. exists z. split; [|done]. apply elem_of_app. by left. }
    cbn [bd_set_itrs bd_set_doc bd_doc bd_match_count].
    destruct (Z.ltb_spec (value it') doc) as [Hlt|Hge]; eexists true, it', tt, _; (split; [done|]); (split; [done|]).
    + apply (Hkeep (value it')); [lia|by eexists].
    + apply (Hkeep doc); [lia|by eexists].
Qed.

(** The hits of the iterators that stay. *)
Lemma live_hits t zs (kept live : list (S * (Z -> bool))) gone : kept.*2 ++ gone ≡ₚ zs.*2 ->
  Forall (fun P : Z -> bool => forall d, t <= d -> P d = false) gone ->
  (live = kept \/ live = [] /\ Z.of_nat (length kept) < m) ->
  forall d, t <= d -> at_least m zs.*2 d = at_least m live.*2 d.
Proof using Hm1.
  intros Hp Hg Hcase d Hd. unfold at_least. rewrite <-Hp, count_of_app, (count_of_none gone), Z.add_0_r.
  2:{ eapply Forall_impl; [exact Hg|]. intros P HP. by apply HP. }
  destruct Hcase as [->|[-> Hlt]]; [done|]. pose proof (count_of_range kept.*2 d) as Hr. rewrite length_fmap in Hr. cbn. lia.
Qed.

Lemma ahead_sought G zs H b t b0 kept live gone e b' min b2 : ahead G zs H b -> G <= t ->
  sought t b0 kept gone e b' -> kept.*2 ++ gone ≡ₚ zs.*2 ->
  (live = kept \/ live = [] /\ Z.of_nat (length kept) < m) -> live <> [] ->
  bd_itrs b2 = live.*1 -> bd_min b2 = min -> bd_doc b' <= min <= bd_doc b' + 1 ->
  ahead min live H b2 /\ bd_doc b' + 1 + W <= doc_limits.eof /\ (forall d, t <= d < bd_doc b' -> H d = false) /\
  (m = 1 -> H (bd_doc b') = true).
Proof using HW Hm Hm1.
  intros HA HGt (doc & count & itrs & -> & Hk & Hg & Hdoc & Hex) Hp Hcase Hne Ei <- Hmin.
  cbn [bd_set_itrs bd_set_doc bd_doc] in *. assert (live = kept) as -> by (destruct Hcase as [?|[? _]]; done).
  pose proof (live_hits t zs kept kept gone Hp Hg ltac:(by left)) as Hhits.
  destruct HA as [_ Hlen _ Hbound HG _ HH _]. rewrite Forall_forall in Hk. rewrite Forall_forall in Hbound.
  assert (forall z, z ∈ kept -> z.2 ∈ zs.*2) as Hin.
  { intros z Hz. rewrite <-Hp. apply elem_of_app. left. apply list_elem_of_fmap. eauto. }
  assert (exists z, z ∈ kept /\ value z.1 = doc /\ z.2 doc = true) as (z & Hz & Hv & HP).
  { destruct Hex as [Ed|(z & Hz & Ev)].
    - destruct kept as [|z kept]; [done|]. destruct (Hk z ltac:(apply list_elem_of_here)) as (HM & _ & ? & ?).
      pose proof (matches_range _ _ HM). lia.
    - exists z. split; [done|]. split; [done|]. destruct (Hk z Hz) as (HM & _ & Hv & _).
      destruct (matches_position _ _ HM) as [E|[E|E]]; [doc_lia|done|congruence]. }
  pose proof (Hbound _ (Hin z Hz) doc HP) as Hb. pose proof (kWindow_pos T).
  assert (forall d, t <= d < doc -> H d = false) as Hno.
  { intros d Hd. rewrite HH, Hhits by lia. apply at_least_zero. rewrite count_of_none; [lia|].
    apply Forall_fmap, Forall_forall. intros z' Hz'. cbn. destruct (Hk z' Hz') as (_ & HF & _ & ?). apply HF. lia. }
  split; [|split; [done|split; [done|]]].
  - constructor; try done.
    + apply Permutation_length in Hp. rewrite length_app, !length_fmap in Hp. lia.
    + apply Forall_forall. intros z' Hz'. destruct (Hk z' Hz') as (HM & HF & _ & Hle). split; [done|].
      split; [intros d Hd; lia|]. intros d Hd. apply HF. lia.
    + rewrite Forall_forall. intros P HP'. apply list_elem_of_fmap in HP' as (z' & -> & Hz'). by apply Hbound, Hin.
    + lia.
    + intros _. lia.
    + intros d Hd. rewrite HH by lia. apply Hhits. lia.
    + intros d Hd. lia.
  - intros ->. rewrite HH, Hhits by lia. rewrite at_least_one. apply any_of_true. exists z.2. split; [|done].
    apply list_elem_of_fmap. eauto.
Qed.

(** Seeking needs the counts of a window to be where [buf_offset_] says, and an exact count behind it. *)
Context (Hseek : kMinMatch T = false \/ bt_seek_readahead T = true /\ kNumBlocks T = 1).

Lemma seek_within c t H b : resting c H b -> c < t < bd_max b -> doc_set H ->
  let base := bd_max b -[32] kWindow T in
  let off := t -[32] base in
  let b1 := bd_set_scan (off / kBlockSize + 1)
    (Z.land (word_at (bd_mask b) (off / kBlockSize)) ((~[64] 0) <<[64] (off mod kBlockSize)))
    (base +[32] off / kBlockSize * kBlockSize) (bd_buf_offset b) b in
  resting (t - 1) H b1.
Proof using HW Hseek.
  intros (G & zs & HA & Hs & Hc & Hcase) Ht HH base0 off b1.
  destruct Hcase as [(_ & _ & Hmax & _)|(base & [HS (Cs & e & HMk & Hh)] & ->)]; [lia|].
  pose proof (sc_max _ _ _ HS) as Em. pose proof (sc_base _ _ _ HS). pose proof (sc_at _ _ _ HS).
  pose proof (sc_doc _ _ _ HS) as Ed. pose proof (sc_begin _ _ _ HS). pose proof (kWindow_val T) as EW.
  assert (base0 = base) as Eb.
  { unfold base0. rewrite Em. replace (base + W - W) with base by lia. apply wrap_small. unfold is_word. doc_lia. }
  assert (off = t - base) as Eo.
  { unfold off. rewrite Eb. apply wrap_small. unfold is_word. doc_lia. }
  assert (wrap 32 (base + off / 64 * 64) = base + 64 * (off / 64)) as Ew.
  { rewrite wrap_small by (unfold is_word; rewrite Eo; Z.to_euclidean_division_equations; doc_lia). lia. }
  exists (base + W), zs. split; [by eapply ahead_ext; [..|exact HA]|]. split; [done|]. split; [lia|right].
  exists base. split; [|done]. split; [|exists Cs, e; split; [done|]; intros d Hd; apply Hh; lia].
  unfold b1, kBlockSize. rewrite Eb, Ew. apply scanning_load; try done; try (by apply HMk); try (rewrite Eo; word_lia).
  - intros Hk. destruct Hseek as [?|[_ Hn]]; [congruence|]. rewrite (sc_offset _ _ _ HS Hk). word_lia.
  - pose proof (words_ok_at (bd_mask b) (off / 64) (mk_ok _ _ _ _ _ HMk)) as Hw.
    rewrite <-(wrap_small 64 (word_at _ _) Hw).
    assert (forall x y, Z.land (wrap 64 x) (wrap 64 y) = wrap 64 (Z.land x y)) as Hl by (intros; bitwise).
    rewrite Hl. apply wrap_range. lia.
  - intros j Hj. rewrite word_bit_word by (rewrite ?Eo; word_lia).
    autorewrite with bits. rewrite andb_comm. f_equal.
    replace (j <? 64) with true by lia. cbn [andb]. rewrite Eo.
    destruct (Z.ltb_spec (t - 1) (base + 64 * ((t - base) / 64) + j)).
    + rewrite wrap_testbit by word_lia. rewrite lnot_testbit, Z.bits_0 by word_lia. replace (_ <? _) with true by word_lia. done.
    + rewrite Z.testbit_neg_r by word_lia. done.
Qed.

Lemma block_seek_spec t H b : doc_set H -> resting (bd_doc b) H b -> position H (bd_doc b) ->
  doc_limits.min <= t <= doc_limits.eof -> bd_doc b <= t -> exists b',
  block_seek T t b = Some (bd_doc b', b') /\ first_from H t (bd_doc b') /\
  (bd_doc b' <> doc_limits.eof -> resting (bd_doc b') H b').
Proof using All.
  intros HH HR Hpos Ht Hle. pose proof HR as (G & zs & HA & Hs & Hc & Hcase). unfold block_seek.
  destruct (Z.leb_spec t (bd_doc b)) as [Ht1|Ht1].
  { exists b. split; [done|]. split; [|done]. assert (t = bd_doc b) as -> by lia.
    apply first_from_hit. destruct Hpos as [E|[E|E]]; [doc_lia|lia|done]. }
  destruct (Z.ltb_spec t (bd_max b)) as [Ht2|Ht2].
  { pose proof (seek_within _ t H b HR ltac:(lia) HH) as HR1. cbv zeta in HR1.
    destruct (block_next_spec (t - 1) H _ HH HR1) as (b' & Hn & HF & Hr). cbv zeta. rewrite Hn. cbn [mbind option_bind].
    exists b'. split; [done|]. replace t with (t - 1 + 1) by lia. done. }
  assert (G <= t) as HGt.
  { destruct Hcase as [(_ & _ & _ & ->)|(base & [HS _] & ->)]; [lia|]. pose proof (sc_max _ _ _ HS). lia. }
  set (b0 := bd_set_doc doc_limits.eof (if kMinMatch T then 0 else bd_match_count b) b).
  destruct (visit_and_purge_rule T HT (seek_visitor T t) (ready t) (sought t b0))
    with (zs := zs) (e := tt) (b := b0) as (kept & live & gone & e' & b' & -> & HSo & Hp & Hl & Hcase2).
  { intros kept gone e b2 itrs (doc & count & itrs0 & -> & H1). by exists doc, count, itrs. }
  { intros it P kept gone e b2 Hf Hlen HWr. by apply seek_visit. }
  { apply HA. }
  { apply HA. }
  { eapply Forall_impl; [apply HA|]. intros z (HM & H1 & H2). split; [done|]. intros d Hd. apply H2. lia. }
  { exists doc_limits.eof, (if kMinMatch T then 0 else bd_match_count b), (bd_itrs b). split; [done|]. split; [done|].
    split; [done|]. split; [lia|by left]. }
  cbn [mbind option_bind]. rewrite Hl, length_fmap.
  assert (bd_match_buf b' = bd_match_buf b /\ length (bd_mask b') = length (bd_mask b) /\ sane b') as (Ebuf & _ & Hs').
  { destruct HSo as (doc & count & itrs & -> & _). done. }
  assert (live = kept \/ live = [] /\ Z.of_nat (length kept) < m) as Hcase3.
  { destruct Hcase2 as [?|(? & Hk & Hlt)]; [by left|right]. split; [done|]. destruct Hs' as [_ Hs']. destruct (Hs' Hk) as [Em _]. lia. }
  destruct live as [|z live]; cbn [length Nat.eqb].
  { cbv zeta. eexists. split; [done|]. cbn [bd_set_doc bd_doc]. split; [|done]. split; [by left|].
    intros d Hd. rewrite (ah_hits _ _ _ _ HA) by lia. destruct HSo as (doc & count & itrs & _ & _ & Hg & _).
    rewrite (live_hits t zs kept [] gone Hp Hg Hcase3) by lia. apply at_least_zero. cbn. lia. }
  assert (t <= bd_doc b') as Htd by (destruct HSo as (doc & count & itrs & -> & _ & _ & ? & _); cbn; lia).
  destruct (bt_seek_readahead T) eqn:Era.
  - destruct (ahead_sought G zs H b t b0 kept (z :: live) gone e' b' (bd_doc b')
      (block_restart T (bd_doc b') (bd_buf_offset b') b') HA HGt HSo Hp Hcase3) as (HA' & Hbd & Hno & _); [done..|lia|].
    pose proof (kWindow_pos T).
    assert (resting (bd_doc b' - 1) H (block_restart T (bd_doc b') (bd_buf_offset b') b')) as HR'.
    { exists (bd_doc b'), (z :: live). split; [done|]. split; [done|]. split; [doc_lia|left]. cbn. repeat split; lia. }
    destruct (block_next_spec _ H _ HH HR') as (b2 & Hn & HF & Hr). rewrite Hn. cbn [mbind option_bind].
    exists b2. split; [done|]. split; [|done]. replace (bd_doc b' - 1 + 1) with (bd_doc b') in HF by lia.
    eapply first_from_shift; [exact HF|done|lia].
  - destruct Hseek as [Hk|[? _]]; [|congruence]. rewrite Hk. cbn [andb].
    destruct (ahead_sought G zs H b t b0 kept (z :: live) gone e' b' (bd_doc b' + 1)
      (block_restart T (bd_doc b' + 1) 0 b') HA HGt HSo Hp Hcase3) as (HA' & Hbd & Hno & Hyes); [done..|lia|].
    pose proof (kWindow_pos T).
    assert (wrap 32 (bd_doc b' + 1) = bd_doc b' + 1) as -> by (apply wrap_small; unfold is_word; doc_lia).
    match goal with |- context [Some (_, ?r)] => exists r end. split; [done|]. cbn [bd_doc block_restart]. split.
    + split; [right; split; [lia|by apply Hyes, Hm]|]. done.
    + intros _. exists (bd_doc b' + 1), (z :: live). split; [by eapply ahead_ext; [..|exact HA']|]. split; [done|].
      split; [doc_lia|left]. cbn. repeat split; lia.
Qed.

End reading.

(** ** The whole run *)

(** The documents the iterator of the traits [T] promises. *)
Definition block_docs (T : block_traits) (min_match : Z) (Ps : list (Z -> bool)) (d : Z) : bool :=
  if kMinMatch T then Z.max 1 min_match <=? count_of Ps d else any_of Ps d.

(** The calls it can be trusted with: any, without a minimum; with one, no [seek] unless the
    iterator reads ahead one block only. *)
Definition trusted (T : block_traits) (cs : list call) : Prop :=
  (kMinMatch T = false \/ bt_seek_readahead T = true /\ kNumBlocks T = 1) \/ Forall (eq Next) cs.

Section running.
Context {S : Type} {D : DocIterator S} {L : DocIteratorSpec S} {K : SeekReady S}.
Context (T : block_traits) (HT : kMinMatchEarlyPruning T = false) (HW : kWindow T < doc_limits.eof).
Context (m : Z) (Hm1 : 1 <= m) (Hm : kMinMatch T = false -> m = 1).

Lemma block_run H cs : doc_set H -> trusted T cs -> forall (b : block_disjunction S) vs,
  resting T m (bd_doc b) H b -> position H (bd_doc b) -> cursor_trace H (bd_doc b) cs vs -> stops_at_eof vs ->
  exists b', run cs (mkBlockIt T b) = Some (vs, b').
Proof using K HT HW Hm1 Hm.
  intros HH. induction cs as [|c cs IH]; intros Htr b vs HR Hpos HTr Hstop;
    [inversion HTr; subst; by eexists|].
  inversion HTr as [|? ? v ? vs' Hstep HTr']; subst; clear HTr.
  assert (trusted T cs) as Htr' by (destruct Htr as [?|Hf]; [by left|right; by inversion Hf]).
  assert (forall b1, first_from H v v \/ v = doc_limits.eof -> bd_doc b1 = v ->
    (bd_doc b1 <> doc_limits.eof -> resting T m (bd_doc b1) H b1) ->
    exists b', run cs (mkBlockIt T b1) = Some (vs', b')) as Hrest.
  { intros b1 HF Hv Hr. apply stops_at_eof_cons in Hstop as [->|[Hne Hstop]].
    - inversion HTr'; subst. by eexists.
    - subst v. destruct HF as [HF|?]; [|done]. by apply IH; [| |eapply first_from_position|..]; auto. }
  assert (forall t, first_from H t v -> first_from H v v \/ v = doc_limits.eof) as Hvv.
  { intros t [[?|[_ Hv]] _]; [by right|left; by apply first_from_hit]. }
  inversion Hstep as [? ? HF|? t ? Ht Hle HF]; subst; cbn [run next seek value block_doc_iterator block_of].
  - destruct (block_next_spec T HT HW m Hm1 Hm (bd_doc b) H b HH HR) as (b1 & -> & HF1 & Hr1).
    cbn [mbind option_bind block_of]. assert (v = bd_doc b1) as -> by (eapply first_from_unique; eauto).
    destruct (Hrest b1) as (b' & Hrun); eauto.
    destruct (doc_limits.is_eof (bd_doc b1)); cbn [negb Bool.eqb]; rewrite Hrun; by exists b'.
  - assert (kMinMatch T = false \/ bt_seek_readahead T = true /\ kNumBlocks T = 1) as Hs.
    { destruct Htr as [?|Hf]; [done|]. apply Forall_cons in Hf as [? _]. done. }
    destruct (block_seek_spec T HT HW m Hm1 Hm Hs t H b HH HR Hpos Ht Hle) as (b1 & -> & HF1 & Hr1).
    cbn [mbind option_bind block_of]. assert (v = bd_doc b1) as -> by (eapply first_from_unique; eauto).
    destruct (Hrest b1) as (b' & Hrun); eauto. rewrite Z.eqb_refl. cbn [negb]. rewrite Hrun. by exists b'.
Qed.

(** A fresh iterator. *)
Lemma block_make_resting min_match zs : m = (if kMinMatch T then Z.max 1 min_match else 1) ->
  Forall (fun z : S * (Z -> bool) => ready doc_limits.min z.1 z.2) zs -> 0 < Z.of_nat (length zs) < 2 ^ 32 ->
  Forall (fun P : Z -> bool => forall d, P d = true -> d + 1 + kWindow T <= doc_limits.eof) zs.*2 ->
  let b := block_make T zs.*1 min_match in
  bd_doc b = doc_limits.invalid /\ resting T m doc_limits.invalid (block_docs T min_match zs.*2) b.
Proof using HW Hm Hm1.
  intros Em Hf Hlen Hb b.
  assert (zs <> []) as Hne by (intros ->; cbn in Hlen; lia).
  split. { cbn. rewrite decide_False; [done|]. intros E. by apply fmap_nil_inv in E. }
  exists doc_limits.min, zs. split; [|split; [|split; [doc_lia|left]]].
  - constructor; cbn [b block_make bd_itrs bd_min]; try done; try lia; try doc_lia.
    + eapply Forall_impl; [exact Hf|]. intros z [HM Hg]. split; [done|]. split; [|exact Hg].
      intros d Hd. pose proof (matches_range _ _ HM). doc_lia.
    + intros d Hd. unfold block_docs. rewrite Em. destruct (kMinMatch T); [done|by rewrite at_least_one].
  - split; cbn; [apply length_replicate|]. intros Hk. rewrite Hk in Em |- *. split; [done|apply length_replicate].
  - cbn. repeat split. doc_lia.
Qed.

End running.

(** ** Properties *)

(** C2: The block disjunction refines the cursor over the documents that enough of its iterators have
    (one, or the minimum match count), as far as the first [eof]: for any number of blocks in the
    window, with or without reading ahead on [seek] and whether or not it is scored, [next] and
    forward [seek] return what the cursor returns and terminate, across as many windows as the
    documents need. Not covered, for these the code returns other documents ([block_disjunction_deviations]): the traits with
    early pruning; with a minimum match count, [seek], unless the window is a single block and [seek] reads ahead
    ([trusted]); and calls behind the first [eof]. The documents must leave room for a window before [eof]. *)
Theorem block_disjunction_refines {S} {D : DocIterator S} {L : DocIteratorSpec S} {K : SeekReady S}
  T min_match (zs : list (S * (Z -> bool))) cs vs
  (Hprecise : kMinMatchEarlyPruning T = false) (Hwindow : kWindow T < doc_limits.eof)
  (Hfresh : Forall (fun z => ready doc_limits.min z.1 z.2) zs)
  (Hsize : 0 < Z.of_nat (length zs) < 2 ^ 32)
  (Hroom : Forall (fun P : Z -> bool => forall d, P d = true -> d + 1 + kWindow T <= doc_limits.eof) zs.*2)
  (Hcalls : trusted T cs)
  (Htrace : cursor_trace (block_docs T min_match zs.*2) doc_limits.invalid cs vs)
  (Hstop : stops_at_eof vs) :
  exists b, run cs (mkBlockIt T (block_make T zs.*1 min_match)) = Some (vs, b).
Proof.
  set (m := if kMinMatch T then Z.max 1 min_match else 1).
  assert (1 <= m) as Hm1 by (unfold m; destruct (kMinMatch T); lia).
  assert (kMinMatch T = false -> m = 1) as Hm by (unfold m; by intros ->).
  destruct (block_make_resting T Hwindow m Hm1 Hm min_match zs eq_refl Hfresh Hsize Hroom) as [Hd HR].
  rewrite <-Hd in HR, Htrace. eapply (block_run T Hprecise Hwindow m Hm1 Hm); [|done|exact HR| |done|done].
  - intros d Hd'. assert (0 < count_of zs.*2 d) as Hc.
    { unfold block_docs in Hd'. destruct (kMinMatch T); [lia|]. rewrite <-at_least_one in Hd'. unfold at_least in Hd'. lia. }
    apply count_of_some in Hc as (P & HP & HPd). apply list_elem_of_fmap in HP as (z & -> & Hz).
    rewrite Forall_forall in Hfresh. destruct (Hfresh z Hz) as [HM _]. by apply (matches_docs _ _ HM).
  - rewrite Hd. by left.
Qed.

Definition block_sample (T : block_traits) (min_match : Z) (sets : list (list Z)) : block_iterator _ T :=
  mkBlockIt T (block_make T (map (fun words => bitset_it_make words tt) sets) min_match).

Lemma block_sample_ready words : source_ok words -> Math.popcount words <> 0 ->
  ready doc_limits.min (bitset_it_make words tt) (word_bit words).
Proof.
  intros Hok Hne. split; [by apply bitset_it_make_matches|]. cbn [value bitset_iterator]. unfold bitset_it_make.
  destruct (Z.eqb_spec (Math.popcount words) 0); [done|]. intros d Hd. cbn in Hd. doc_lia.
Qed.

Lemma block_sample_room words d : (length words <= 12)%nat -> word_bit words d = true -> d + 1 + 512 <= doc_limits.eof.
Proof.
  intros Hl Hd. destruct (Z.lt_ge_cases d 768); [doc_lia|]. by rewrite word_bit_high in Hd by lia.
Qed.

(** The iterators of the engine: a disjunction, sought inside its window and behind it, and a
    minimum of two matches. *)
Lemma block_disjunction_refines_witness :
  (exists b, run [Next; Seek 5; Next; Seek 600; Next; Next]
     (block_sample (disjunction_traits true) 1 [sample_a; sample_b; replicate 12 2])
     = Some ([1; 5; 8; 641; 705; doc_limits.eof], b)) /\
  exists b, run [Next; Next; Next; Next; Next] (block_sample (min_match_traits false) 2 [sample_a; sample_b; sample_c])
     = Some ([5; 40; 71; 191; doc_limits.eof], b).
Proof.
  assert (forall words, words ∈ [sample_a; sample_b; sample_c; replicate 12 2] ->
    ready doc_limits.min (bitset_it_make words tt) (word_bit words) /\
    (forall d, word_bit words d = true -> d + 1 + 512 <= doc_limits.eof) /\ forall d, 768 <= d -> word_bit words d = false) as Hok.
  { intros words Hw. assert (source_ok words /\ Math.popcount words <> 0 /\ (length words <= 12)%nat) as (H1 & H2 & H3).
    { rewrite !elem_of_cons, elem_of_nil in Hw. destruct Hw as [->|[->|[->|[->|[]]]]];
        (split; [split; [repeat constructor; vm_compute; intuition discriminate|split; [vm_compute; discriminate|reflexivity]]|]);
        (split; [vm_compute; discriminate|cbn; lia]). }
    split; [by apply block_sample_ready|]. split; [intros d; by apply block_sample_room|].
    intros d Hd. apply word_bit_high. lia. }
  assert (forall sets, (forall words, words ∈ sets -> words ∈ [sample_a; sample_b; sample_c; replicate 12 2]) ->
    let zs := (fun words => (bitset_it_make words tt, word_bit words)) <$> sets in
    Forall (fun z => ready doc_limits.min z.1 z.2) zs /\
    Forall (fun P : Z -> bool => forall d, P d = true -> d + 1 + 512 <= doc_limits.eof) zs.*2 /\
    forall P d, P ∈ zs.*2 -> 768 <= d -> P d = false) as Hsets.
  { intros sets Hin zs. unfold zs. rewrite <-list_fmap_compose.
    split; [|split]; [apply Forall_fmap, Forall_forall|apply Forall_fmap, Forall_forall|];
      [intros w Hw; by apply Hok, Hin|intros w Hw; exact (proj1 (proj2 (Hok w (Hin w Hw))))|].
    intros P d HP Hd. apply list_elem_of_fmap in HP as (w & -> & Hw). by apply (Hok w (Hin w Hw)). }
  split.
  - destruct (Hsets [sample_a; sample_b; replicate 12 2]) as (H1 & H2 & H3); [intros w; rewrite !elem_of_cons; tauto|].
    apply (block_disjunction_refines (disjunction_traits true) 1 _ _ _ eq_refl eq_refl H1 ltac:(cbn; lia) H2); [by left; left| |].
    + apply (check_trace_sound 768); [|vm_compute; reflexivity]. intros d Hd. apply any_of_false. eauto.
    + repeat constructor; discriminate.
  - destruct (Hsets [sample_a; sample_b; sample_c]) as (H1 & H2 & H3); [intros w; rewrite !elem_of_cons; tauto|].
    apply (block_disjunction_refines (min_match_traits false) 2 _ _ _ eq_refl eq_refl H1 ltac:(cbn; lia) H2);
      [right; repeat constructor| |].
    + apply (check_trace_sound 768); [|vm_compute; reflexivity]. intros d Hd. unfold block_docs. cbn [kMinMatch min_match_traits].
      rewrite count_of_none; [done|]. apply Forall_forall. intros P HP. by apply H3.
    + repeat constructor; discriminate.
Defined.

(** Once [seek] has returned [eof] the block disjunction is not at its end: the word in hand and
    the window are left as they were, and [next] delivers the rest of the window. Here the
    documents are 1 and 2; the contract of index/iterators.hpp wants [next] to return false. *)
Lemma block_next_after_end :
  exists b, run [Next; Seek 1000] (block_sample (disjunction_traits false) 1 [[2 ^ 1 + 2 ^ 2]]) = Some ([1; doc_limits.eof], b) /\
    (fun r => (r.1, value r.2)) <$> next b = Some (true, 2).
Proof. apply (run_values (fun b => (fun r => (r.1, value r.2)) <$> next b)). vm_compute. reflexivity. Qed.

(** With a minimum of two matches a [seek] behind the window counts only the iterators that have
    the target itself: from target 3 the iterators over 5, 5 and 7 are at an end, although document 5
    has two matches. *)
Lemma min_match_seek_counts_target :
  fst <$> run [Seek 3] (block_sample (min_match_traits false) 2 [[2 ^ 5]; [2 ^ 5]; [2 ^ 7]]) = Some [doc_limits.eof] /\
  block_docs (min_match_traits false) 2 [word_bit [2 ^ 5]; word_bit [2 ^ 5]; word_bit [2 ^ 7]] 5 = true.
Proof.
  split; vm_compute; reflexivity.
Qed.

(** A [seek] inside the window moves to another word of the mask and leaves [buf_offset_] as it
    was. With a minimum of two, document 65 is delivered although one iterator has it, by the count
    of document 1; of a scored disjunction, 65 is delivered with the score of document 1, the first
    of the window. *)
Lemma block_seek_keeps_offset :
  fst <$> run [Next; Seek 65] (block_sample (min_match_traits false) 2 [[2; 2]; [2]]) = Some [1; 65] /\
  block_docs (min_match_traits false) 2 [word_bit [2; 2]; word_bit [2]] 65 = false /\
  (exists b, run [Next; Seek 65] (block_sample (disjunction_traits true) 1 [[2; 2]; [2]]) = Some ([1; 65], b) /\
     (bd_max (block_of b) - kWindow (disjunction_traits true), bd_score (block_of b)) = (1, 0)) /\
  exists b, run [Next; Next] (block_sample (disjunction_traits true) 1 [[2; 2]; [2]]) = Some ([1; 65], b) /\
     (bd_max (block_of b) - kWindow (disjunction_traits true), bd_score (block_of b)) = (1, 64).
Proof.
  split; [vm_compute; reflexivity|]. split; [reflexivity|].
  split; apply (run_values (fun b => (bd_max (block_of b) - kWindow (disjunction_traits true), bd_score (block_of b))));
    vm_compute; reflexivity.
Qed.

(** [kMinMatchFast] drops the iterators it has not read yet into the window as soon as fewer than
    the minimum are left, although those it has read are counted: over 1, 1 and 2 with a minimum of
    two it delivers nothing. *)
Lemma min_match_fast_misses :
  let T := mkTraits MatchType.kMinMatchFast false 8 false in
  fst <$> run [Next] (block_sample T 2 [[2 ^ 1]; [2 ^ 1]; [2 ^ 2]]) = Some [doc_limits.eof] /\
  block_docs T 2 [word_bit [2 ^ 1]; word_bit [2 ^ 1]; word_bit [2 ^ 2]] 1 = true.
Proof.
  intros T. split; vm_compute; reflexivity.
Qed.

(** Four behaviours of the block disjunction that its contract excludes, each on a small input. An
    in-window [seek] leaves the buffer offset of another word: with a minimum of two, document 65 is
    delivered by the match count of document 1, and a scored disjunction delivers the score of document 1
    for it. A min-match [seek] behind the window counts only the iterators that have the target itself
    and loses a matching document behind it. Once [seek] has returned [eof], [next] delivers the rest of
    the old window. With early pruning the matches in a window that is being read are lost. *)
Example block_disjunction_deviations :
  (fst <$> run [Next; Seek 65] (block_sample (min_match_traits false) 2 [[2; 2]; [2]]) = Some [1; 65] /\
  block_docs (min_match_traits false) 2 [word_bit [2; 2]; word_bit [2]] 65 = false /\
  (exists b, run [Next; Seek 65] (block_sample (disjunction_traits true) 1 [[2; 2]; [2]]) = Some ([1; 65], b) /\
     (bd_max (block_of b) - kWindow (disjunction_traits true), bd_score (block_of b)) = (1, 0)) /\
  exists b, run [Next; Next] (block_sample (disjunction_traits true) 1 [[2; 2]; [2]]) = Some ([1; 65], b) /\
     (bd_max (block_of b) - kWindow (disjunction_traits true), bd_score (block_of b)) = (1, 64)) /\
  (fst <$> run [Seek 3] (block_sample (min_match_traits false) 2 [[2 ^ 5]; [2 ^ 5]; [2 ^ 7]]) = Some [doc_limits.eof] /\
  block_docs (min_match_traits false) 2 [word_bit [2 ^ 5]; word_bit [2 ^ 5]; word_bit [2 ^ 7]] 5 = true) /\
  (exists b, run [Next; Seek 1000] (block_sample (disjunction_traits false) 1 [[2 ^ 1 + 2 ^ 2]]) = Some ([1; doc_limits.eof], b) /\
    (fun r => (r.1, value r.2)) <$> next b = Some (true, 2)) /\
  (let T := mkTraits MatchType.kMinMatchFast false 8 false in
  fst <$> run [Next] (block_sample T 2 [[2 ^ 1]; [2 ^ 1]; [2 ^ 2]]) = Some [doc_limits.eof] /\
  block_docs T 2 [word_bit [2 ^ 1]; word_bit [2 ^ 1]; word_bit [2 ^ 2]] 1 = true).
Proof.
  split; [exact block_seek_keeps_offset|]. split; [exact min_match_seek_counts_target|].
  split; [exact block_next_after_end|exact min_match_fast_misses].
Qed.
