(* ===== verification/SparseBitmap.v ===== *)
(** * The sparse bitmap of document identifiers

    [sparse_bitmap_writer] and [sparse_bitmap_iterator] of core/formats/sparse_bitmap.hpp and .cpp:
    the documents of a column, in blocks of 2^16 stored as arrays, bit sets or ranges. The writer is
    modelled on either host; the iterator on a little-endian one (on a big-endian host the sparse
    container copies two bytes of a value into the high half of an uninitialised [doc_id_t]). *)
From S2P Require Import Prelude BitUtils BytesIO Streams FileStreams DocIterators Bitset.

Definition kBlockSize : Z := 2 ^ 16.
Definition kNumBlocks : Z := kBlockSize / 64.
(** A block with more documents than this is a bit set. *)
Definition kBitSetThreshold : Z := 2 ^ 12 - 1.
Definition kBlockScanThreshold : Z := 2.
Definition kDenseBlockIndexBlockSize : Z := 512.
Definition kDenseBlockIndexNumBlocks : Z := kBlockSize / kDenseBlockIndexBlockSize.
Definition kDenseIndexBlockSizeInBytes : Z := kDenseBlockIndexNumBlocks * 2.
Definition kDenseBlockIndexWordsPerBlock : Z := kDenseBlockIndexBlockSize / 64.

(** ** [sparse_bitmap_writer] *)

(** The array [index] of [write_block_index]: the number of bits before each group of words. *)
Fixpoint block_index_bytes (n : nat) (popcnt : Z) (bits : list Z) : list Z :=
  match n with
  | O => []
  | Datatypes.S n =>
      let k := Z.to_nat kDenseBlockIndexWordsPerBlock in
      Fixed.write16 popcnt ++
      block_index_bytes n (foldl (fun p w => p +[16] Math.popcount_word w) popcnt (take k bits)) (drop k bits)
  end.

Section writer.
Context {S : Type} {DO : DataOutput S} {IO : IndexOutput S} (big : bool).

Definition write_block_index (out : S) (bits : list Z) : S :=
  write_bytes (block_index_bytes (Z.to_nat kDenseBlockIndexNumBlocks) 0 bits) out.

(** [block]: [index] and [offset] *)
Record block := mkBlockEntry { blk_index : Z; blk_offset : Z }.

Record sparse_bitmap_writer := mkWriter {
  sw_out : S;
  sw_origin : Z;
  sw_bits : list Z;
  sw_block_index : list block;
  sw_popcnt : Z;
  sw_block : Z;
  sw_prev_value : Z;
  sw_last_in_flushed_block : Z;
  sw_track_prev_doc : bool;
}.

Definition zero_bits : list Z := replicate (Z.to_nat kNumBlocks) 0.

Definition writer_make (out : S) (track_prev_doc : bool) : sparse_bitmap_writer :=
  mkWriter out (Z.of_nat (out_pointer out)) zero_bits [] 0 0 0 0 track_prev_doc.

Definition sw_set_out (out : S) (w : sparse_bitmap_writer) : sparse_bitmap_writer :=
  mkWriter out (sw_origin w) (sw_bits w) (sw_block_index w) (sw_popcnt w) (sw_block w) (sw_prev_value w)
    (sw_last_in_flushed_block w) (sw_track_prev_doc w).
Definition sw_set_bits (bits : list Z) (w : sparse_bitmap_writer) : sparse_bitmap_writer :=
  mkWriter (sw_out w) (sw_origin w) bits (sw_block_index w) (sw_popcnt w) (sw_block w) (sw_prev_value w)
    (sw_last_in_flushed_block w) (sw_track_prev_doc w).
Definition sw_set_block (block : Z) (w : sparse_bitmap_writer) : sparse_bitmap_writer :=
  mkWriter (sw_out w) (sw_origin w) (sw_bits w) (sw_block_index w) (sw_popcnt w) block (sw_prev_value w)
    (sw_last_in_flushed_block w) (sw_track_prev_doc w).

(** [set] and [reset] of a bit *)
Definition writer_set (value : Z) (w : sparse_bitmap_writer) : sparse_bitmap_writer :=
  sw_set_bits (<[Z.to_nat (value / 64) := Bit.set_bit 64 (word_at (sw_bits w) (value / 64)) (value mod 64)]> (sw_bits w)) w.
Definition writer_reset (value : Z) (w : sparse_bitmap_writer) : sparse_bitmap_writer :=
  sw_set_bits (<[Z.to_nat (value / 64) := Bit.unset_bit 64 (word_at (sw_bits w) (value / 64)) (value mod 64)]> (sw_bits w)) w.

Definition add_block (block_id : Z) (w : sparse_bitmap_writer) : sparse_bitmap_writer :=
  let offset := Z.of_nat (out_pointer (sw_out w)) -[64] sw_origin w in
  let count := (1 + block_id) -[32] Z.of_nat (length (sw_block_index w)) in
  mkWriter (sw_out w) (sw_origin w) (sw_bits w)
    (sw_block_index w ++ replicate (Z.to_nat count) (mkBlockEntry (sw_popcnt w) (wrap 32 offset)))
    (sw_popcnt w) (sw_block w) (sw_prev_value w) (sw_last_in_flushed_block w) (sw_track_prev_doc w).

(** One round of [while (it.next())] of [do_flush]. *)
Definition write_value (st : bitset_doc_iterator unit * S) : option ((bitset_doc_iterator unit * S) + S) :=
  let '(it, out) := st in
  '(more, it) ← bitset_it_next it;
  if more : bool then Some (inl (it, write_short (wrap 16 (it_doc it)) out)) else Some (inr out).

Definition do_flush (popcnt : Z) (w : sparse_bitmap_writer) : option sparse_bitmap_writer :=
  let out := write_short (wrap 16 (sw_block w)) (sw_out w) in
  let out := write_short (wrap 16 (popcnt -[32] 1)) out in
  let '(out, last) :=
    if sw_track_prev_doc w then (write_int (sw_last_in_flushed_block w) out, sw_prev_value w)
    else (out, sw_last_in_flushed_block w) in
  '(out, bits) ←
    (if kBitSetThreshold <? popcnt then
       if negb (popcnt =? kBlockSize) then
         let out := write_block_index out (sw_bits w) in
         let bits := if big then sw_bits w else map (Fixed.hton big 8) (sw_bits w) in
         Some (write_bytes (bits ≫= Fixed.host_bytes big 8) out, bits)
       else Some (out, sw_bits w)
     else
       out ← iterate 64 write_value (bitset_it_make (sw_bits w) tt, out);
       Some (out, sw_bits w));
  Some (mkWriter out (sw_origin w) bits (sw_block_index w) (sw_popcnt w) (sw_block w) (sw_prev_value w)
    last (sw_track_prev_doc w)).

Definition writer_flush (next_block : Z) (w : sparse_bitmap_writer) : option sparse_bitmap_writer :=
  let popcnt := wrap 32 (Math.popcount (sw_bits w)) in
  if popcnt =? 0 then Some w
  else
    w ← do_flush popcnt (add_block next_block w);
    Some (mkWriter (sw_out w) (sw_origin w) zero_bits (sw_block_index w) (sw_popcnt w +[32] popcnt) (sw_block w)
      (sw_prev_value w) (sw_last_in_flushed_block w) (sw_track_prev_doc w)).

Definition push_back (value : Z) (w : sparse_bitmap_writer) : option sparse_bitmap_writer :=
  let block := value / kBlockSize in
  w ← (if negb (block =? sw_block w) then
         w ← writer_flush (sw_block w) w; Some (sw_set_block block w)
       else Some w);
  let w := writer_set (value mod kBlockSize) w in
  Some (mkWriter (sw_out w) (sw_origin w) (sw_bits w) (sw_block_index w) (sw_popcnt w) (sw_block w) value
    (sw_last_in_flushed_block w) (sw_track_prev_doc w)).

Definition erase (value : Z) (w : sparse_bitmap_writer) : bool * sparse_bitmap_writer :=
  if value / kBlockSize <? sw_block w then (false, w)
  else (true, writer_reset (value mod kBlockSize) w).

Definition finish (w : sparse_bitmap_writer) : option sparse_bitmap_writer :=
  w ← writer_flush (sw_block w) w;
  let w := if Z.of_nat (length (sw_block_index w)) <? kBlockSize
           then add_block (if negb (sw_block w =? 0) then sw_block w + 1 else 0) w else w in
  let w := sw_set_block (doc_limits.eof / kBlockSize) w in
  do_flush 1 (writer_set (doc_limits.eof mod kBlockSize) w).

End writer.

Arguments sparse_bitmap_writer : clear implicits.

(** ** [sparse_bitmap_iterator] *)

Inductive AccessType := AT_STREAM | AT_DIRECT | AT_DIRECT_ALIGNED.

(** [sparse_bitmap_iterator::seek_func_] *)
Inductive block_seek_f :=
  | initial_seek
  | seek_range (TrackPrev : bool)
  | seek_sparse (TrackPrev : bool) (Access : AccessType)
  | seek_dense (TrackPrev : bool) (Access : AccessType).

(** The function of the attribute [prev_doc]: none, the one that returns [prev_], [seek_prev]. *)
Inductive prev_doc_f := no_prev | prev_field | seek_prev_f (Access : AccessType).

(** [ctx_.dense]: [u64data] as a position in the words of the block, with their bytes. *)
Record dense_ctx := mkDense {
  dn_data : list Z;
  dn_u64data : Z;
  dn_popcnt : Z;
  dn_word_idx : Z;
  dn_word : Z;
  dn_index : option (list Z);
}.

(** The union [ctx_] *)
Inductive container_iterator_context :=
  | ctx_none
  | ctx_all (missing : Z)
  | ctx_sparse (u8data : list Z) (index : Z)
  | ctx_dense (c : dense_ctx).

Section iterator.
Context {S : Type} {D : DataInput S} {II : IndexInput S} {FI : FileInput S}.

Record sparse_bitmap_iterator := mkBitmapIt {
  si_in : S;
  si_doc : Z;                 (* document::value *)
  si_value_index : Z;         (* value_index::value *)
  si_prev_doc : prev_doc_f;
  si_ctx : container_iterator_context;
  si_seek_func : block_seek_f;
  si_cont_begin : nat;
  si_index : Z;
  si_index_max : Z;
  si_block : Z;
  si_prev : Z;
  si_origin : nat;
  si_blocks : list block;     (* block_index_ *)
  si_use_block_index : bool;
  si_prev_doc_written : bool;
  si_track_prev_doc : bool;
}.

Definition bitmap_make (in_ : S) (blocks : list block) (use_block_index written track : bool) : sparse_bitmap_iterator :=
  mkBitmapIt in_ doc_limits.invalid 0 (if written && track then prev_field else no_prev) ctx_none initial_seek
    (file_pointer in_) 0 0 0 0 (file_pointer in_) blocks use_block_index written (written && track).

(** Changes of some of the members. *)
Definition si_set_in (in_ : S) (it : sparse_bitmap_iterator) : sparse_bitmap_iterator :=
  mkBitmapIt in_ (si_doc it) (si_value_index it) (si_prev_doc it) (si_ctx it) (si_seek_func it) (si_cont_begin it)
    (si_index it) (si_index_max it) (si_block it) (si_prev it) (si_origin it) (si_blocks it) (si_use_block_index it)
    (si_prev_doc_written it) (si_track_prev_doc it).
Definition si_set_pos (doc index : Z) (it : sparse_bitmap_iterator) : sparse_bitmap_iterator :=
  mkBitmapIt (si_in it) doc index (si_prev_doc it) (si_ctx it) (si_seek_func it) (si_cont_begin it)
    (si_index it) (si_index_max it) (si_block it) (si_prev it) (si_origin it) (si_blocks it) (si_use_block_index it)
    (si_prev_doc_written it) (si_track_prev_doc it).
Definition si_set_ctx (c : container_iterator_context) (it : sparse_bitmap_iterator) : sparse_bitmap_iterator :=
  mkBitmapIt (si_in it) (si_doc it) (si_value_index it) (si_prev_doc it) c (si_seek_func it) (si_cont_begin it)
    (si_index it) (si_index_max it) (si_block it) (si_prev it) (si_origin it) (si_blocks it) (si_use_block_index it)
    (si_prev_doc_written it) (si_track_prev_doc it).
Definition si_set_prev (prev : Z) (it : sparse_bitmap_iterator) : sparse_bitmap_iterator :=
  mkBitmapIt (si_in it) (si_doc it) (si_value_index it) (si_prev_doc it) (si_ctx it) (si_seek_func it) (si_cont_begin it)
    (si_index it) (si_index_max it) (si_block it) prev (si_origin it) (si_blocks it) (si_use_block_index it)
    (si_prev_doc_written it) (si_track_prev_doc it).
Definition si_set_func (p : prev_doc_f) (f : block_seek_f) (it : sparse_bitmap_iterator) : sparse_bitmap_iterator :=
  mkBitmapIt (si_in it) (si_doc it) (si_value_index it) p (si_ctx it) f (si_cont_begin it)
    (si_index it) (si_index_max it) (si_block it) (si_prev it) (si_origin it) (si_blocks it) (si_use_block_index it)
    (si_prev_doc_written it) (si_track_prev_doc it).
(** [block_], [index_], [index_max_], [cont_begin_] *)
Definition si_set_block (block index index_max : Z) (cont_begin : nat) (it : sparse_bitmap_iterator) : sparse_bitmap_iterator :=
  mkBitmapIt (si_in it) (si_doc it) (si_value_index it) (si_prev_doc it) (si_ctx it) (si_seek_func it) cont_begin
    index index_max block (si_prev it) (si_origin it) (si_blocks it) (si_use_block_index it)
    (si_prev_doc_written it) (si_track_prev_doc it).

(** [container_iterator<BT_RANGE, TrackPrev>::seek] *)
Definition range_seek (TrackPrev : bool) (missing target : Z) (it : sparse_bitmap_iterator) : bool * sparse_bitmap_iterator :=
  let index := target -[32] missing in
  let it := si_set_pos target index it in
  (true, if TrackPrev && negb (index =? si_index it) then si_set_prev (target -[32] 1) it else it).

(** [container_iterator<BT_SPARSE, TrackPrev>::seek]: the next value, from the stream or the buffer. *)
Definition sparse_value (Access : AccessType) (u8data : list Z) (it : sparse_bitmap_iterator)
    : option (Z * (list Z * sparse_bitmap_iterator)) :=
  match Access with
  | AT_STREAM => '(v, in_) ← read_short (si_in it); Some (wrap 32 v, (u8data, si_set_in in_ it))
  | _ => '(v, u8data) ← Fixed.read16 u8data; Some (v, (u8data, it))
  end.

(** Its loop, over the values that are left in the block. *)
Fixpoint sparse_loop (n : nat) (TrackPrev : bool) (Access : AccessType) (u8data : list Z) (index prev target : Z)
    (it : sparse_bitmap_iterator) : option (bool * sparse_bitmap_iterator) :=
  match n with
  | O => Some (false, si_set_ctx (ctx_sparse u8data index) it)
  | Datatypes.S n =>
      '(doc, (u8data, it)) ← sparse_value Access u8data it;
      if target <=? doc then
        let it := si_set_pos (Z.lor (si_block it) doc) index it in
        let it := if TrackPrev && negb (index =? si_index it) then si_set_prev (Z.lor (si_block it) prev) it else it in
        Some (true, si_set_ctx (ctx_sparse u8data (index +[32] 1)) it)
      else sparse_loop n TrackPrev Access u8data (index +[32] 1) (if TrackPrev then doc else prev) target it
  end.

Definition sparse_seek (TrackPrev : bool) (Access : AccessType) (u8data : list Z) (index target : Z)
    (it : sparse_bitmap_iterator) : option (bool * sparse_bitmap_iterator) :=
  sparse_loop (Z.to_nat (si_index_max it - index)) TrackPrev Access u8data index (si_doc it) (Z.land target 0xFFFF) it.

(** [memcpy] of the word at a position of the block, and [ntoh] *)
Definition load_word (data : list Z) (i : Z) : option Z :=
  if decide (0 <= i /\ (8 * Z.to_nat i + 8 <= length data)%nat)
  then Some (Fixed.host_value false (take 8 (drop (8 * Z.to_nat i) data))) else None.
Definition ntoh64 (w : Z) : Z := Fixed.hton false 8 w.

Definition dn_set (u64data popcnt word_idx word : Z) (c : dense_ctx) : dense_ctx :=
  mkDense (dn_data c) u64data popcnt word_idx word (dn_index c).

(** [container_iterator<BT_DENSE, false>::seek]. The jump by the index of the block: *)
Definition dense_jump (Access : AccessType) (target : Z) (c : dense_ctx) (it : sparse_bitmap_iterator)
    : option (dense_ctx * sparse_bitmap_iterator) :=
  let target_block := Z.land target 0xFFFF in
  let target_word_idx := target_block / 64 in
  match dn_index c with
  | Some u16data =>
      if kDenseBlockIndexWordsPerBlock <=? target_word_idx -[32] dn_word_idx c then
        let index_block := target_block / kDenseBlockIndexBlockSize in
        let popcnt := Fixed.host_value false (take 2 (drop (2 * Z.to_nat index_block) u16data)) in
        let popcnt := wrap 16 (Z.lor (Z.shiftr popcnt 8) (Z.shiftl (Z.land popcnt 0xFF) 8)) in
        let word_idx := index_block * kDenseBlockIndexWordsPerBlock in
        let delta := word_idx -[64] dn_word_idx c in
        '(word, (u64data, it)) ←
          match Access with
          | AT_STREAM =>
              let in_ := Streams.seek (file_pointer (si_in it) + Z.to_nat (wrap 64 ((delta - 1) * 8)))%nat (si_in it) in
              '(w, in_) ← read_long in_; Some (wrap 64 w, (dn_u64data c, si_set_in in_ it))
          | _ =>
              let u64data := dn_u64data c + delta in
              w ← load_word (dn_data c) (u64data - 1); Some (ntoh64 w, (u64data, it))
          end;
        Some (dn_set u64data (wrap 32 (si_index it + popcnt + Math.popcount_word word)) word_idx word c, it)
      else Some (c, it)
  | None => Some (c, it)
  end.

(** The words up to the one of the target; in memory only the last is converted. *)
Fixpoint dense_skip (n : nat) (Access : AccessType) (c : dense_ctx) (it : sparse_bitmap_iterator)
    : option (dense_ctx * sparse_bitmap_iterator) :=
  match n with
  | O => Some (c, it)
  | Datatypes.S n =>
      '(word, (u64data, it)) ←
        match Access with
        | AT_STREAM => '(w, in_) ← read_long (si_in it); Some (wrap 64 w, (dn_u64data c, si_set_in in_ it))
        | _ => w ← load_word (dn_data c) (dn_u64data c); Some (w, (dn_u64data c + 1, it))
        end;
      dense_skip n Access (dn_set u64data (dn_popcnt c +[32] Math.popcount_word word) (dn_word_idx c) word c) it
  end.

Definition dense_locate (Access : AccessType) (target_word_idx : Z) (c : dense_ctx) (it : sparse_bitmap_iterator)
    : option (dense_ctx * sparse_bitmap_iterator) :=
  let word_delta := target_word_idx -[32] dn_word_idx c in
  if word_delta =? 0 then Some (c, it)
  else
    '(c, it) ← dense_skip (Z.to_nat word_delta) Access c it;
    let word := match Access with AT_STREAM => dn_word c | _ => ntoh64 (dn_word c) end in
    Some (dn_set (dn_u64data c) (dn_popcnt c) target_word_idx word c, it).

(** The rest of the block, [n] words from [word_idx]. *)
Fixpoint dense_scan (n : nat) (Access : AccessType) (word_idx : Z) (c : dense_ctx) (it : sparse_bitmap_iterator)
    : option (bool * (dense_ctx * sparse_bitmap_iterator)) :=
  match n with
  | O => Some (false, (dn_set (dn_u64data c) (dn_popcnt c) word_idx (dn_word c) c, it))
  | Datatypes.S n =>
      '(word, (u64data, it)) ←
        match Access with
        | AT_STREAM => '(w, in_) ← read_long (si_in it); Some (wrap 64 w, (dn_u64data c, si_set_in in_ it))
        | _ => w ← load_word (dn_data c) (dn_u64data c); Some (w, (dn_u64data c + 1, it))
        end;
      if negb (word =? 0) then
        let word := match Access with AT_STREAM => word | _ => ntoh64 word end in
        let offset := countr_zero 64 word in
        let it := si_set_pos (wrap 32 (si_block it + word_idx * 64 + offset)) (dn_popcnt c) it in
        Some (true, (dn_set u64data (dn_popcnt c +[32] Math.popcount_word word) word_idx word c, it))
      else dense_scan n Access (word_idx + 1) (dn_set u64data (dn_popcnt c) word_idx word c) it
  end.

Definition dense_seek_plain (Access : AccessType) (c : dense_ctx) (target : Z) (it : sparse_bitmap_iterator)
    : option (bool * sparse_bitmap_iterator) :=
  '(c, it) ← dense_jump Access target c it;
  '(c, it) ← dense_locate Access (Z.land target 0xFFFF / 64) c it;
  let left := Z.shiftr (dn_word c) (target mod 64) in
  if negb (left =? 0) then
    let offset := countr_zero 64 left in
    let it := si_set_pos (target +[32] offset) (wrap 32 (dn_popcnt c - Math.popcount_word left)) it in
    Some (true, si_set_ctx (ctx_dense c) it)
  else
    let word_idx := dn_word_idx c + 1 in
    '(found, (c, it)) ← dense_scan (Z.to_nat (kNumBlocks - word_idx)) Access word_idx c it;
    Some (found, si_set_ctx (ctx_dense c) it).

(** [container_iterator<BT_DENSE, true>::seek] *)
Definition dense_seek (TrackPrev : bool) (Access : AccessType) (c : dense_ctx) (target : Z) (it : sparse_bitmap_iterator)
    : option (bool * sparse_bitmap_iterator) :=
  '(res, it) ← dense_seek_plain Access c target it;
  if TrackPrev && negb (si_value_index it =? si_index it)
  then Some (res, si_set_func (seek_prev_f Access) (seek_dense false Access) it)
  else Some (res, it).

(** [seek_prev]: the document before the current one of a dense block. The words before the one in
    hand, from [word_idx] down, until one that is not zero: *)
Fixpoint prev_words (n : nat) (Access : AccessType) (data : list Z) (prev : Z) (word_idx : Z) (it : sparse_bitmap_iterator)
    : option (Z * (Z * sparse_bitmap_iterator)) :=
  match n with
  | O => None
  | Datatypes.S n =>
      '(word, it) ←
        match Access with
        | AT_STREAM => '(w, in_) ← read_long (Streams.seek (Z.to_nat prev) (si_in it)); Some (wrap 64 w, si_set_in in_ it)
        | _ => w ← load_word data prev; Some (w, it)
        end;
      let word_idx := word_idx - 1 in
      if word =? 0 then prev_words n Access data (match Access with AT_STREAM => prev - 8 | _ => prev - 1 end) word_idx it
      else Some (word, (word_idx, it))
  end.

Definition seek_prev (Access : AccessType) (c : dense_ctx) (it : sparse_bitmap_iterator) : option (Z * sparse_bitmap_iterator) :=
  let offs := si_doc it mod 64 in
  let mask := (1 <<[64] offs) -[64] 1 in
  let word := Z.land (dn_word c) mask in
  '(word, (word_idx, it)) ←
    (if word =? 0 then
       let pos := file_pointer (si_in it) in
       let prev := match Access with AT_STREAM => Z.of_nat pos - 16 | _ => dn_u64data c - 2 end in
       '(word, (word_idx, it)) ← prev_words (Z.to_nat (dn_word_idx c)) Access (dn_data c) prev (dn_word_idx c) it;
       Some (match Access with AT_STREAM => word | _ => ntoh64 word end,
             (word_idx, match Access with AT_STREAM => si_set_in (Streams.seek pos (si_in it)) it | _ => it end))
     else Some (word, (dn_word_idx c, it)));
  Some (wrap 32 (si_block it + ((word_idx + 1) * 64 - Math.countl_zero 64 word - 1)), it).

(** What the attribute [prev_doc] returns. *)
Definition prev_doc (it : sparse_bitmap_iterator) : option (Z * sparse_bitmap_iterator) :=
  match si_prev_doc it, si_ctx it with
  | no_prev, _ => None
  | prev_field, _ => Some (si_prev it, it)
  | seek_prev_f a, ctx_dense c => seek_prev a c it
  | seek_prev_f _, _ => None
  end.

(** [GetSeekFunc]'s access, by the pointer [read_buffer] returned *)
Definition get_access (u8data : option (list Z)) : AccessType := match u8data with Some _ => AT_DIRECT | None => AT_STREAM end.

Definition si_set_cont (cont_begin : nat) (it : sparse_bitmap_iterator) : sparse_bitmap_iterator :=
  si_set_block (si_block it) (si_index it) (si_index_max it) cont_begin it.

(** The start of [read_block_header]: the members and the number of documents of the block. *)
Definition read_block_fields (it : sparse_bitmap_iterator) : option (Z * sparse_bitmap_iterator) :=
  '(v, in_) ← read_short (si_in it);
  let block := wrap 16 v <<[32] 16 in
  '(v, in_) ← read_short in_;
  let popcnt := 1 +[32] wrap 16 v in
  let index := si_index_max it in
  let index_max := index +[32] popcnt in
  '(prev, in_) ← (if si_prev_doc_written it then '(v, in_) ← read_int in_; Some (wrap 32 v, in_) else Some (si_prev it, in_));
  let it := si_set_in in_ (si_set_prev prev (si_set_block block index index_max (si_cont_begin it) it)) in
  Some (popcnt, if si_track_prev_doc it then si_set_func prev_field (si_seek_func it) it else it).

(** The rest of it: the container of the block. *)
Definition read_container (popcnt : Z) (it : sparse_bitmap_iterator) : sparse_bitmap_iterator :=
  let track := si_track_prev_doc it in
  if popcnt =? kBlockSize then
    let it := si_set_cont (file_pointer (si_in it)) (si_set_ctx (ctx_all (si_block it -[32] si_index it)) it) in
    si_set_func (si_prev_doc it) (seek_range track) it
  else if popcnt <=? kBitSetThreshold then
    let block_size := Z.to_nat (2 * popcnt) in
    let it := si_set_cont (file_pointer (si_in it) + block_size)%nat it in
    let '(u8data, in_) := read_buffer block_size (si_in it) in
    let it := si_set_in in_ (si_set_ctx (ctx_sparse (default [] u8data) (si_index it)) it) in
    si_set_func (si_prev_doc it) (seek_sparse track (get_access u8data)) it
  else
    let block_size := Z.to_nat (kBlockSize / 8) in
    let index_size := Z.to_nat kDenseIndexBlockSizeInBytes in
    let '(u16data, in_) :=
      if si_use_block_index it then
        match read_persistent index_size (si_in it) with
        | (Some b, in_) => (Some b, in_)
        | (None, in_) => let '(b, in_) := read_bytes index_size in_ in (Some b, in_)
        end
      else (None, Streams.seek (file_pointer (si_in it) + index_size)%nat (si_in it)) in
    let it := si_set_cont (file_pointer in_ + block_size)%nat it in
    let '(u8data, in_) := read_buffer block_size in_ in
    let it := si_set_in in_ (si_set_ctx (ctx_dense (mkDense (default [] u8data) 0 (si_index it) (-1) 0 u16data)) it) in
    si_set_func (si_prev_doc it) (seek_dense track (get_access u8data)) it.

Definition read_block_header (it : sparse_bitmap_iterator) : option sparse_bitmap_iterator :=
  '(popcnt, it) ← read_block_fields it;
  Some (read_container popcnt it).

(** One round of [do ... while (block_ < target)]. *)
Definition seek_to_block_round (target : Z) (it : sparse_bitmap_iterator)
    : option (sparse_bitmap_iterator + sparse_bitmap_iterator) :=
  it ← read_block_header (si_set_in (Streams.seek (si_cont_begin it) (si_in it)) it);
  Some (if si_block it <? target then inl it else inr it).

Definition seek_to_block (target : Z) (it : sparse_bitmap_iterator) : option sparse_bitmap_iterator :=
  let target_block := target / kBlockSize in
  if negb (Nat.eqb (length (si_blocks it)) 0) && (si_block it / kBlockSize + kBlockScanThreshold <=? target_block) then
    let offset := Z.min target_block (Z.of_nat (length (si_blocks it)) - 1) in
    b ← si_blocks it !! Z.to_nat offset;
    let it := si_set_block (si_block it) (si_index it) (blk_index b) (si_cont_begin it) it in
    read_block_header (si_set_in (Streams.seek (si_origin it + Z.to_nat (blk_offset b))%nat (si_in it)) it)
  else iterate 17 (seek_to_block_round target) it.

(** [seek_func_(this, target)]; [initial_seek] reads the first header and calls [seek]. *)
Definition call_seek_func (seek : Z -> sparse_bitmap_iterator -> option (Z * sparse_bitmap_iterator)) (target : Z)
    (it : sparse_bitmap_iterator) : option (bool * sparse_bitmap_iterator) :=
  match si_seek_func it, si_ctx it with
  | initial_seek, _ =>
      it ← read_block_header it;
      '(_, it) ← seek target it;
      Some (true, it)
  | seek_range track, ctx_all missing => Some (range_seek track missing target it)
  | seek_sparse track a, ctx_sparse u8data index => sparse_seek track a u8data index target it
  | seek_dense track a, ctx_dense c => dense_seek track a c target it
  | _, _ => None
  end.

Definition seek_with (seek : Z -> sparse_bitmap_iterator -> option (Z * sparse_bitmap_iterator)) (target : Z)
    (it : sparse_bitmap_iterator) : option (Z * sparse_bitmap_iterator) :=
  if target <=? si_doc it then Some (si_doc it, it)
  else
    let target_block := Z.land target 0xFFFF0000 in
    it ← (if si_block it <? target_block then seek_to_block target_block it else Some it);
    '(found, it) ← (if si_block it =? target_block then
                      '(found, it) ← call_seek_func seek target it;
                      if found : bool then Some (true, it)
                      else it ← read_block_header it; Some (false, it)
                    else Some (false, it));
    if found : bool then Some (si_doc it, it)
    else
      '(_, it) ← call_seek_func seek (si_block it) it;
      Some (si_doc it, it).

(** The call of [seek] from [initial_seek] does not come back to [initial_seek]. *)
Definition bitmap_seek : Z -> sparse_bitmap_iterator -> option (Z * sparse_bitmap_iterator) :=
  seek_with (seek_with (fun _ _ => None)).

Definition bitmap_next (it : sparse_bitmap_iterator) : option (bool * sparse_bitmap_iterator) :=
  '(v, it) ← bitmap_seek (si_doc it +[32] 1) it;
  Some (negb (doc_limits.is_eof v), it).

Definition bitmap_reset (it : sparse_bitmap_iterator) : sparse_bitmap_iterator :=
  mkBitmapIt (Streams.seek (si_origin it) (si_in it)) doc_limits.invalid (si_value_index it) (si_prev_doc it) (si_ctx it)
    initial_seek (si_origin it) (si_index it) 0 (si_block it) (si_prev it) (si_origin it) (si_blocks it)
    (si_use_block_index it) (si_prev_doc_written it) (si_track_prev_doc it).

End iterator.

Arguments sparse_bitmap_iterator : clear implicits.

#[export] Instance bitmap_doc_iterator {S} {D : DataInput S} {II : IndexInput S} {FI : FileInput S} :
  DocIterator (sparse_bitmap_iterator S) := {
  value := si_doc;
  next := bitmap_next;
  seek := bitmap_seek;
}.
