(* ===== verification/SparseBitmapWriter.v ===== *)
(** * What the sparse bitmap writer writes

    The layout of a sparse bitmap as a function of its blocks, and the proof that
    [sparse_bitmap_writer] writes it, with its index of blocks. *)
From S2P Require Import Prelude BitUtils BytesIO Streams FileStreams DocIterators Bitset SparseBitmap.

(** ** Blocks *)

(** The documents [2^16 * ch_id + o] for the bits [o] of [ch_bits]. *)
Record chunk := mkChunk { ch_id : Z; ch_bits : list Z }.

Definition ch_count (c : chunk) : Z := bits_count (word_bit (ch_bits c)) (Z.to_nat kBlockSize).

Record chunk_ok (c : chunk) : Prop := {
  ch_id_range : 0 <= ch_id c < 2 ^ 16;
  ch_words : words_ok (ch_bits c);
  ch_length : length (ch_bits c) = Z.to_nat kNumBlocks;
  ch_some : 1 <= ch_count c;
}.

(** The indices below [n] that satisfy a predicate, in order. *)
Definition below (P : Z -> bool) (n : Z) : list Z := filter (fun o => P o = true) (seqZ 0 n).

(** The bits of a block in order. *)
Definition offsets (bits : list Z) : list Z := below (word_bit bits) kBlockSize.


(** The block that ends a bitmap. *)
Definition sentinel : chunk := mkChunk 65535 (<[1023%nat := 2 ^ 63]> (replicate 1024 0)).

(** ** The layout *)

Definition chunk_body (c : chunk) : list Z :=
  if kBitSetThreshold <? ch_count c then
    if ch_count c =? kBlockSize then []
    else block_index_bytes (Z.to_nat kDenseBlockIndexNumBlocks) 0 (ch_bits c) ++ (ch_bits c ≫= Fixed.write64)
  else offsets (ch_bits c) ≫= Fixed.write16.

Definition chunk_bytes (track : bool) (prev : Z) (c : chunk) : list Z :=
  Fixed.write16 (ch_id c) ++ Fixed.write16 (ch_count c - 1) ++
  (if track then Fixed.write32 prev else []) ++ chunk_body c.

(** The last document of a block. *)
Definition ch_last (c : chunk) : Z := kBlockSize * ch_id c + default 0 (last (offsets (ch_bits c))).

Fixpoint layout (track : bool) (prev : Z) (cs : list chunk) : list Z :=
  match cs with
  | [] => []
  | c :: cs => chunk_bytes track prev c ++ layout track (ch_last c) cs
  end.

(** The documents of a block. *)
Definition chunk_docs (c : chunk) : list Z := map (fun o => kBlockSize * ch_id c + o) (offsets (ch_bits c)).

Definition chunks_count (cs : list chunk) : Z := foldr (fun c n => ch_count c + n) 0 cs.

(** The entry [i] of the index of blocks: the first block of identifier [i] or more, as the number of
    documents and of bytes before it. *)
Definition entry_ok (track : bool) (cs : list chunk) (i : Z) (b : block) : Prop := exists l c r,
  cs = l ++ c :: r /\ Forall (fun c' => ch_id c' < i) l /\ i <= ch_id c /\
  b = mkBlockEntry (wrap 32 (chunks_count l)) (wrap 32 (Z.of_nat (length (layout track 0 l)))).

(** Identifiers increase. *)
Definition ordered : list chunk -> Prop := StronglySorted (fun c c' => ch_id c < ch_id c').

(** Blocks that hold the documents [docs]. *)
Record chunks_of (docs : list Z) (cs : list chunk) : Prop := {
  chunks_ok : Forall chunk_ok cs;
  chunks_sorted : ordered cs;
  chunks_docs : docs = cs ≫= chunk_docs;
}.

Lemma layout_app track prev cs cs' :
  layout track prev (cs ++ cs') = layout track prev cs ++ layout track (default prev (ch_last <$> last cs)) cs'.
Proof.
  revert prev. induction cs as [|c cs IH]; intros prev; [done|]. cbn [layout app]. rewrite IH, app_assoc. do 2 f_equal.
  rewrite last_cons. by destruct (last cs).
Qed.

(** ** Lists of indices *)

Section below.
Context (P : Z -> bool).
Implicit Types (n o v D : Z).

Lemma below_elem n o : o ∈ below P n <-> 0 <= o < n /\ P o = true.
Proof. unfold below. rewrite list_elem_of_filter, elem_of_seqZ, Z.add_0_l. tauto. Qed.

Lemma below_succ n : 0 <= n -> below P (n + 1) = below P n ++ (if P n then [n] else []).
Proof.
  intros Hn. unfold below. rewrite seqZ_app, filter_app by lia. f_equal.
  change (seqZ (0 + n) 1) with [0 + n]. rewrite filter_cons, filter_nil, Z.add_0_l. by destruct (P n); case_decide.
Qed.

Lemma below_gap n m : 0 <= n <= m -> (forall o, n <= o < m -> P o = false) -> below P m = below P n.
Proof.
  intros [Hn H]. assert (exists k, m = n + Z.of_nat k) as [k ->] by (exists (Z.to_nat (m - n)); lia).
  clear H. induction k as [|k IH]; intros Hg; [by rewrite Z.add_0_r|].
  replace (n + Z.of_nat (Datatypes.S k)) with (n + Z.of_nat k + 1) by lia.
  rewrite below_succ, Hg, app_nil_r by lia. apply IH. intros o Ho. apply Hg. lia.
Qed.

Lemma below_next D v : -1 <= D < v -> P v = true -> (forall d, D < d < v -> P d = false) ->
  below P (v + 1) = below P (D + 1) ++ [v].
Proof.
  intros HD Hv Hg. rewrite below_succ, Hv by lia. f_equal. apply below_gap; [lia|]. intros o Ho. apply Hg. lia.
Qed.

Lemma below_length n : Z.of_nat (length (below P n)) = bits_count P (Z.to_nat n).
Proof.
  destruct (Z.lt_ge_cases n 0) as [Hn|Hn]; [by destruct n|].
  rewrite <-(Z2Nat.id n) at 1 by lia. clear Hn. induction (Z.to_nat n) as [|k IH]; [done|].
  replace (Z.of_nat (Datatypes.S k)) with (Z.of_nat k + 1) by lia. rewrite below_succ, length_app by lia. cbn [bits_count].
  rewrite <-IH. destruct (P (Z.of_nat k)); cbn; lia.
Qed.

(** The place of an index is the number of those before it. *)
Lemma below_split n o : 0 <= o < n -> P o = true -> exists r, below P n = below P o ++ o :: r /\ forall x, x ∈ r -> o < x.
Proof.
  intros Ho HP. assert (exists k, n = o + 1 + Z.of_nat k) as [k ->] by (exists (Z.to_nat (n - o - 1)); lia).
  assert (0 <= o) as H0 by lia. clear Ho. induction k as [|k (r & IH & Hr)].
  - exists []. rewrite Z.add_0_r, below_succ, HP by lia. split; [done|]. intros x []%elem_of_nil.
  - replace (o + 1 + Z.of_nat (Datatypes.S k)) with (o + 1 + Z.of_nat k + 1) by lia.
    rewrite below_succ, IH by lia. eexists. split; [by rewrite <-app_assoc|].
    intros x [?|Hx]%elem_of_app; [by apply Hr|]. destruct (P (o + 1 + Z.of_nat k)); [|by apply elem_of_nil in Hx].
    apply list_elem_of_singleton in Hx. lia.
Qed.

Lemma below_lookup n o : 0 <= o < n -> P o = true -> below P n !! Z.to_nat (bits_count P (Z.to_nat o)) = Some o.
Proof.
  intros Ho HP. destruct (below_split n o Ho HP) as (r & -> & _). apply list_lookup_middle.
  rewrite <-below_length. lia.
Qed.

Lemma below_lookup_inv n i o : below P n !! i = Some o ->
  0 <= o < n /\ P o = true /\ bits_count P (Z.to_nat o) = Z.of_nat i.
Proof.
  intros Hi. pose proof Hi as Ho%list_elem_of_lookup_2. apply below_elem in Ho as [Ho HP].
  split; [done|]. split; [done|]. destruct (below_split n o Ho HP) as (r & E & Hr). rewrite E in Hi.
  rewrite <-below_length. apply lookup_app_Some in Hi as [Hi|[Hle Hi]].
  - apply list_elem_of_lookup_2, below_elem in Hi. lia.
  - destruct (i - length (below P o))%nat as [|j] eqn:Ej; [lia|]. cbn in Hi.
    apply list_elem_of_lookup_2, Hr in Hi. lia.
Qed.

Lemma below_sorted n i j x y : below P n !! i = Some x -> below P n !! j = Some y -> (i < j)%nat -> x < y.
Proof.
  intros (Hx & HPx & Ei)%below_lookup_inv (Hy & HPy & Ej)%below_lookup_inv Hij.
  destruct (Z.lt_ge_cases x y) as [|Hge]; [done|].
  assert (Z.to_nat x = Z.to_nat y + Z.to_nat (x - y))%nat as E by lia. rewrite E, bits_count_app in Ei.
  pose proof (bits_count_range (fun i0 => P (Z.of_nat (Z.to_nat y) + i0)) (Z.to_nat (x - y))). lia.
Qed.

End below.

Lemma below_ext P Q n : (forall i, 0 <= i < n -> P i = Q i) -> below P n = below Q n.
Proof.
  unfold below. intros H. assert (Forall (fun i => 0 <= i < n) (seqZ 0 n)) as Hl.
  { apply Forall_forall. intros i Hi%elem_of_seqZ. lia. }
  induction Hl as [|i l Hi _ IH]; [done|]. rewrite !filter_cons, IH, H by done. by repeat case_decide.
Qed.

(** ** Bits of a block *)

Lemma kBlockSize_eq : kBlockSize = 65536.
Proof. reflexivity. Qed.

Lemma kNumBlocks_eq : kBlockSize = 64 * kNumBlocks.
Proof. reflexivity. Qed.

(** Blocks are large: proofs do not evaluate them. *)
#[global] Opaque kBlockSize kNumBlocks.

Lemma bitmap_blocks_pos : 0 <= kNumBlocks < 2 ^ 16.
Proof. pose proof kNumBlocks_eq. pose proof kBlockSize_eq. lia. Qed.

Lemma kBlockSize_nat : Z.to_nat kBlockSize = (64 * Z.to_nat kNumBlocks)%nat.
Proof. pose proof kNumBlocks_eq. pose proof bitmap_blocks_pos. lia. Qed.

#[local] Ltac blia := pose proof kNumBlocks_eq; pose proof bitmap_blocks_pos; pose proof kBlockSize_eq; lia.

(** The words of a block. *)
Definition block_words (bits : list Z) : Prop := words_ok bits /\ length bits = Z.to_nat kNumBlocks.

Lemma block_words_fit bits : block_words bits -> words_fit bits.
Proof. intros [H1 H2]. split; [done|]. rewrite H2. blia. Qed.

Lemma block_words_popcount bits : block_words bits -> Math.popcount bits = bits_count (word_bit bits) (Z.to_nat kBlockSize).
Proof.
  intros [H1 H2]. rewrite popcount_count by (done || rewrite H2; blia). rewrite H2, <-kBlockSize_nat. reflexivity.
Qed.

Lemma count_bound bits : 0 <= bits_count (word_bit bits) (Z.to_nat kBlockSize) <= 65536.
Proof. pose proof (bits_count_range (word_bit bits) (Z.to_nat kBlockSize)) as H. blia. Qed.

Lemma offsets_length bits : Z.of_nat (length (offsets bits)) = bits_count (word_bit bits) (Z.to_nat kBlockSize).
Proof. apply below_length. Qed.

Lemma offsets_elem bits o : o ∈ offsets bits <-> 0 <= o < kBlockSize /\ word_bit bits o = true.
Proof. apply below_elem. Qed.

Lemma zero_bits_words : block_words zero_bits.
Proof. split; [apply words_ok_zeros|]. apply length_replicate. Qed.

Lemma zero_bits_bit o : word_bit zero_bits o = false.
Proof.
  unfold word_bit, word_at, zero_bits. destruct (replicate _ 0 !! Z.to_nat (o / 64)) as [x|] eqn:E; cbn [default].
  - apply lookup_replicate in E as [-> _]. rewrite Z.bits_0. apply andb_false_r.
  - unfold default. rewrite Z.bits_0. apply andb_false_r.
Qed.

Lemma set_bit_words bits v : block_words bits -> 0 <= v < kBlockSize ->
  let bits' := <[Z.to_nat (v / 64) := Bit.set_bit 64 (word_at bits (v / 64)) (v mod 64)]> bits in
  block_words bits' /\ forall o, 0 <= o -> word_bit bits' o = (o =? v) || word_bit bits o.
Proof.
  intros [H1 H2] Hv. cbv zeta. assert (0 <= v / 64 < Z.of_nat (length bits)) as Hk.
  { rewrite H2. pose proof kNumBlocks_eq. pose proof bitmap_blocks_pos. word_lia. }
  assert (0 <= v mod 64 < 64) as Hm by word_lia.
  split; [split; [|by rewrite length_insert]|].
  - apply Forall_insert; [done|]. apply Bit.set_bit_word; [done|]. by apply words_ok_at.
  - intros o Ho. rewrite word_bit_insert by done. rewrite Bit.set_bit_testbit by word_lia.
    destruct (Z.eqb_spec (o / 64) (v / 64)) as [E|E].
    + rewrite word_bit_nonneg, E by done. destruct (Z.eqb_spec (o mod 64) (v mod 64)), (Z.eqb_spec o v);
        rewrite ?orb_true_r, ?orb_false_r; try done; word_lia.
    + destruct (Z.eqb_spec o v) as [->|]; [done|]. done.
Qed.

(** ** Flushing a block *)

Lemma write_short_spec {S} `{DataOutputSpec S} v (s : S) : out_ok s ->
  out_ok (write_short v s) /\ written (write_short v s) = written s ++ Fixed.write16 (wrap 16 v).
Proof. apply out_iter_spec. Qed.

Lemma write_int_spec {S} `{DataOutputSpec S} v (s : S) : out_ok s ->
  out_ok (write_int v s) /\ written (write_int v s) = written s ++ Fixed.write32 (wrap 32 v).
Proof. apply out_iter_spec. Qed.

Section flush.
Context {S : Type} {DO : DataOutput S} {DS : DataOutputSpec S} {IO : IndexOutput S} {IS : IndexOutputSpec S}
  (big : bool).
Implicit Types (w : sparse_bitmap_writer S) (out : S).

Lemma write_values_spec bits out : block_words bits -> out_ok out -> exists out',
  iterate 64 write_value (bitset_it_make bits tt, out) = Some out' /\ out_ok out' /\
  written out' = written out ++ (offsets bits ≫= Fixed.write16).
Proof.
  intros Hb Ho. pose proof (block_words_fit _ Hb) as Hfit.
  destruct (iterate_ghost
    (fun n st => exists D, n = kBlockSize - D /\ scan bits D st.1 /\ -1 <= D < 64 * it_next st.1 /\ D < kBlockSize /\
       out_ok st.2 /\ written st.2 = written out ++ (below (word_bit bits) (D + 1) ≫= Fixed.write16))
    (fun out' => out_ok out' /\ written out' = written out ++ (offsets bits ≫= Fixed.write16))
    write_value) with (k := 64%nat) (n := kBlockSize + 1) (s := (bitset_it_make bits tt, out)) as (out' & H1 & H2 & H3).
  - intros n [it o] (D & -> & HS & HD & HDk & Hok & Hw). cbn [fst snd] in *. split; [lia|].
    destruct (bitset_it_next_from bits D it Hfit HS HD) as (r & it' & E & Hr). unfold write_value. rewrite E. cbn [mbind option_bind].
    destruct r.
    + destruct Hr as (Hv & Hset & HS' & Hg). pose proof (fit_range _ _ Hfit Hset) as Hrange.
      assert (it_doc it' < kBlockSize) as Hlt.
      { destruct Hb as [_ Hl]. rewrite Hl in Hrange. blia. }
      destruct (write_short_spec (wrap 16 (it_doc it')) o Hok) as [Hok' Hw'].
      eexists. split; [done|]. exists (kBlockSize - it_doc it'). cbn [fst snd]. split; [lia|]. exists (it_doc it').
      split; [done|]. split; [done|]. split; [lia|]. split; [done|]. split; [done|].
      rewrite Hw', Hw, wrap_wrap, (below_next _ D (it_doc it')) by (lia || done). rewrite bind_app, app_assoc. do 2 f_equal.
      cbn [mbind list_bind]. rewrite app_nil_r, wrap_small; [done|]. unfold is_word. blia.
    + eexists. split; [done|]. split; [done|]. rewrite Hw. do 2 f_equal. symmetry. apply below_gap; [lia|].
      intros d Hd. apply Hr. lia.
  - exists (-1). split; [lia|]. cbn [fst snd]. split; [|split; [|split; [|split]]].
    + constructor; cbn; try done; try lia. intros j Hj. rewrite Z.bits_0. destruct (_ <? _) eqn:E; [lia|done].
    + cbn. lia.
    + blia.
    + done.
    + by rewrite app_nil_r.
  - change (Z.of_nat 64) with 64. blia.
  - exists out'. done.
Qed.

Lemma hton_words bits : (if big then bits else map (Fixed.hton big 8) bits) ≫= Fixed.host_bytes big 8 = bits ≫= Fixed.write64.
Proof.
  assert (forall x, Fixed.host_bytes big 8 (if big then x else Fixed.hton big 8 x) = Fixed.write64 x) as H.
  { intros x. by rewrite Fixed.host_bytes_hton, Fixed.write64_le. }
  induction bits as [|x bits IH]; [by destruct big|]. rewrite bind_cons, <-IH, <-H. by destruct big.
Qed.

Definition current w : chunk := mkChunk (sw_block w) (sw_bits w).

Lemma do_flush_spec w : out_ok (sw_out w) -> chunk_ok (current w) -> exists out' bits',
  do_flush big (ch_count (current w)) w =
    Some (mkWriter out' (sw_origin w) bits' (sw_block_index w) (sw_popcnt w) (sw_block w) (sw_prev_value w)
      (if sw_track_prev_doc w then sw_prev_value w else sw_last_in_flushed_block w) (sw_track_prev_doc w)) /\
  out_ok out' /\
  written out' = written (sw_out w) ++ chunk_bytes (sw_track_prev_doc w) (sw_last_in_flushed_block w) (current w).
Proof using DS.
  intros Ho Hc. pose proof (ch_some _ Hc) as Hsome. destruct Hc as [Hid Hwords Hlen _]. cbn [current ch_id ch_bits] in Hid, Hwords, Hlen.
  pose proof (count_bound (sw_bits w)) as Hcount. change (bits_count _ _) with (ch_count (current w)) in Hcount.
  assert (ch_count (current w) -[32] 1 = ch_count (current w) - 1) as E1 by (apply wrap_small; unfold is_word; lia).
  unfold do_flush. rewrite E1. cbv zeta.
  destruct (write_short_spec (wrap 16 (sw_block w)) (sw_out w) Ho) as [H1 W1].
  set (o1 := write_short _ (sw_out w)) in *. clearbody o1.
  destruct (write_short_spec (wrap 16 (ch_count (current w) - 1)) o1 H1) as [H2 W2].
  set (o2 := write_short _ o1) in *. clearbody o2.
  rewrite W1, !wrap_wrap, !wrap_small in W2 by (unfold is_word; lia).
  assert (exists o3, (if sw_track_prev_doc w then (write_int (sw_last_in_flushed_block w) o2, sw_prev_value w)
            else (o2, sw_last_in_flushed_block w)) =
          (o3, if sw_track_prev_doc w then sw_prev_value w else sw_last_in_flushed_block w) /\ out_ok o3 /\
          written o3 = written o2 ++ (if sw_track_prev_doc w then Fixed.write32 (sw_last_in_flushed_block w) else []))
    as (o3 & -> & H3 & W3).
  { destruct (sw_track_prev_doc w); [|exists o2; split; [done|]; split; [done|]; by rewrite app_nil_r].
    destruct (write_int_spec (sw_last_in_flushed_block w) o2 H2) as [? E]. rewrite Fixed.write32_wrap in E. eauto. }
  unfold chunk_bytes, chunk_body. cbn [ch_bits ch_id current]. rewrite !app_assoc, <-W2, <-W3.
  clear W1 W2 W3 E1 o1 o2 H1 H2. destruct (_ <? ch_count _).
  - destruct (_ =? kBlockSize); cbn [negb].
    + eexists o3, _. split; [done|]. split; [done|]. by rewrite app_nil_r.
    + destruct (write_bytes_spec (block_index_bytes (Z.to_nat kDenseBlockIndexNumBlocks) 0 (sw_bits w)) o3 H3) as [H4 W4].
      destruct (write_bytes_spec ((if big then sw_bits w else map (Fixed.hton big 8) (sw_bits w)) ≫= Fixed.host_bytes big 8)
        (write_block_index o3 (sw_bits w)) H4) as [H5 W5].
      eexists _, _. split; [done|]. split; [done|]. rewrite W5, hton_words. unfold write_block_index. by rewrite W4, <-app_assoc.
  - destruct (write_values_spec (sw_bits w) o3) as (o4 & -> & H4 & W4); [done|done|].
    eexists o4, _. split; [done|]. split; [done|]. by rewrite W4.
Qed.

End flush.

(** ** The index of blocks *)

Lemma wrap_wrap_le v w x : 0 <= v <= w -> wrap v (wrap w x) = wrap v x.
Proof. intros. apply Z.bits_inj'. intros i Hi. rewrite !wrap_testbit by lia. destruct (Z.ltb_spec i v), (Z.ltb_spec i w); cbn; done || lia. Qed.

Definition last_id (cs : list chunk) : Z := default (-1) (ch_id <$> last cs).

Record index_inv (track : bool) (cs : list chunk) (idx : list block) : Prop := {
  index_length : Z.of_nat (length idx) = 1 + last_id cs;
  index_entry : forall i b, idx !! i = Some b -> entry_ok track cs (Z.of_nat i) b;
}.

Lemma entry_ok_app track cs cs' i b : entry_ok track cs i b -> entry_ok track (cs ++ cs') i b.
Proof. intros (l & c & r & -> & H). exists l, c, (r ++ cs'). by rewrite <-app_assoc. Qed.

Lemma last_id_snoc cs c : last_id (cs ++ [c]) = ch_id c.
Proof. unfold last_id. by rewrite last_snoc. Qed.

Lemma last_id_lt cs b : 0 <= b -> Forall (fun c => ch_id c < b) cs -> last_id cs < b.
Proof.
  intros Hb H. unfold last_id. destruct (last cs) as [c|] eqn:E; cbn; [|lia].
  apply last_Some_elem_of in E. rewrite Forall_forall in H. by apply H.
Qed.

Lemma ordered_last cs c : ordered cs -> c ∈ cs -> ch_id c <= last_id cs.
Proof.
  intros Hs Hc. destruct cs as [|x cs _] using rev_ind; [by apply elem_of_nil in Hc|]. rewrite last_id_snoc.
  apply elem_of_app in Hc as [Hc|Hc%list_elem_of_singleton]; [|by subst].
  apply Z.lt_le_incl. apply (StronglySorted_app_1_elem_of _ _ _ _ _ Hs Hc). by apply list_elem_of_singleton.
Qed.

Lemma ordered_snoc cs c : ordered cs -> Forall (fun c' => ch_id c' < ch_id c) cs -> ordered (cs ++ [c]).
Proof.
  intros Hs Hc. apply StronglySorted_app_2; [|done|repeat constructor].
  intros x y Hx ->%list_elem_of_singleton. rewrite Forall_forall in Hc. by apply Hc.
Qed.

Lemma index_inv_add track cs c idx : index_inv track cs idx ->
  ordered cs -> Forall (fun c' => ch_id c' < ch_id c) cs -> 0 <= ch_id c ->
  index_inv track (cs ++ [c]) (idx ++ replicate (Z.to_nat (1 + ch_id c - Z.of_nat (length idx)))
    (mkBlockEntry (wrap 32 (chunks_count cs)) (wrap 32 (Z.of_nat (length (layout track 0 cs)))))).
Proof.
  intros [Hl He] Hs Hlt Hc. pose proof (last_id_lt _ _ Hc Hlt). split.
  - rewrite length_app, length_replicate, last_id_snoc. lia.
  - intros i b [Hi|[Hle Hi]]%lookup_app_Some; [by apply entry_ok_app, He|].
    apply lookup_replicate in Hi as [-> Hi]. exists cs, c, []. split; [done|]. split; [|split; [lia|done]].
    rewrite Forall_forall. intros c' Hc'. pose proof (ordered_last _ _ Hs Hc'). lia.
Qed.

(** ** The writer *)

Section writer.
Context {S : Type} {DO : DataOutput S} {DS : DataOutputSpec S} {IO : IndexOutput S} {IS : IndexOutputSpec S}
  (big : bool) (pre : list Z) (track : bool).
Implicit Types (w : sparse_bitmap_writer S) (out : S) (docs : list Z) (cs : list chunk).

(** The blocks [cs] have been written; their identifiers are below [b]. *)
Record writer_base (b : Z) docs cs w : Prop := {
  wb_out : out_ok (sw_out w);
  wb_written : written (sw_out w) = pre ++ layout track 0 cs;
  wb_origin : sw_origin w = Z.of_nat (length pre);
  wb_bits : block_words (sw_bits w);
  wb_docs : docs = (cs ++ [current w]) ≫= chunk_docs;
  wb_ok : Forall chunk_ok cs;
  wb_ordered : ordered cs;
  wb_last : Forall (fun c => ch_id c < b) cs;
  wb_popcnt : sw_popcnt w = wrap 32 (chunks_count cs);
  wb_index : index_inv track cs (sw_block_index w);
  wb_track : sw_track_prev_doc w = track;
  wb_flushed : track = true -> sw_last_in_flushed_block w = default 0 (ch_last <$> last cs);
}.

Record writer_inv docs w cs : Prop := {
  wi_base : writer_base (sw_block w) docs cs w;
  wi_prev : sw_prev_value w = default 0 (last docs);
  wi_docs : Forall (fun d => 0 <= d <= sw_prev_value w) docs;
  wi_range : 0 <= sw_prev_value w < doc_limits.eof;
  wi_block : sw_block w = sw_prev_value w / kBlockSize;
}.

Lemma chunks_count_app cs cs' : chunks_count (cs ++ cs') = chunks_count cs + chunks_count cs'.
Proof. induction cs as [|c cs IH]; [done|]. cbn. fold (chunks_count (cs ++ cs')). fold (chunks_count cs). lia. Qed.

Lemma chunk_bytes_prev p q c : (track = true -> p = q) -> chunk_bytes track p c = chunk_bytes track q c.
Proof. intros H. unfold chunk_bytes. destruct track; [by rewrite H|done]. Qed.

Lemma chunk_docs_last docs c : offsets (ch_bits c) <> [] -> default 0 (last (docs ++ chunk_docs c)) = ch_last c.
Proof.
  intros Hne. unfold ch_last, chunk_docs. destruct (offsets (ch_bits c)) as [|o os _] using rev_ind; [done|].
  rewrite map_app, app_assoc. cbn [map]. by rewrite !last_snoc.
Qed.

Lemma offsets_nil bits : offsets bits = [] <-> bits_count (word_bit bits) (Z.to_nat kBlockSize) = 0.
Proof. rewrite <-offsets_length. destruct (offsets bits); cbn; split; done || lia. Qed.

Lemma ch_count_nil c : ch_count c = 0 <-> offsets (ch_bits c) = [].
Proof. symmetry. apply offsets_nil. Qed.

Lemma chunk_docs_nil c : offsets (ch_bits c) = [] -> chunk_docs c = [].
Proof. unfold chunk_docs. by intros ->. Qed.

Lemma writer_base_block (b b' : Z) docs cs w : writer_base b docs cs w -> b <= b' -> offsets (sw_bits w) = [] ->
  writer_base b' docs cs (sw_set_block b' w).
Proof.
  intros [] Hb Hbits. split; try done.
  - rewrite wb_docs0, !bind_app. cbn [mbind list_bind]. by rewrite !chunk_docs_nil.
  - eapply Forall_impl; [done|]. cbn. lia.
Qed.

Lemma writer_flush_spec docs cs w : writer_base (sw_block w) docs cs w -> 0 <= sw_block w < 2 ^ 16 ->
  sw_prev_value w = default 0 (last docs) ->
  exists w' cs', writer_flush big (sw_block w) w = Some w' /\ writer_base (sw_block w + 1) docs cs' w' /\
    offsets (sw_bits w') = [] /\ sw_block w' = sw_block w /\ sw_prev_value w' = sw_prev_value w /\
    (offsets (sw_bits w) = [] /\ cs' = cs \/ last_id cs' = sw_block w).
Proof using DS IS.
  intros HB Hblk Hprev. pose proof HB as [].
  pose proof (count_bound (sw_bits w)) as Hcount.
  unfold writer_flush. rewrite block_words_popcount by done. rewrite (wrap_small 32) by (unfold is_word; lia).
  change (bits_count _ _) with (ch_count (current w)) in *. destruct (Z.eqb_spec (ch_count (current w)) 0) as [E|E].
  - apply (proj1 (ch_count_nil _)) in E. cbn [ch_bits current] in E. exists w, cs. split; [done|]. split; [|tauto].
    split; try done. eapply Forall_impl; [done|]. cbn. lia.
  - assert (chunk_ok (current w)) as Hc.
    { destruct wb_bits0 as [H1 H2]. split; [exact Hblk|exact H1|exact H2|]. lia. }
    set (w1 := add_block (sw_block w) w).
    destruct (do_flush_spec big w1) as (out' & bits' & Hf & Ho & Hw); [done|done|].
    change (ch_count (current w1)) with (ch_count (current w)) in Hf. rewrite Hf. cbn [mbind option_bind].
    eexists _, (cs ++ [current w]). split; [done|].
    assert (chunks_count (cs ++ [current w]) = chunks_count cs + ch_count (current w)) as Ecount
      by (rewrite chunks_count_app; cbn; lia).
    pose proof (out_pointer_spec _ wb_out0) as Hp. rewrite wb_written0, length_app in Hp.
    pose proof (last_id_lt cs (sw_block w) ltac:(lia) wb_last0) as Hlast.
    split; [split|]; cbn.
    + done.
    + rewrite Hw. change (sw_out w1) with (sw_out w). rewrite wb_written0, layout_app, <-app_assoc.
      cbn [layout]. rewrite app_nil_r. do 2 f_equal.
      change (sw_track_prev_doc w1) with (sw_track_prev_doc w). rewrite wb_track0. by apply chunk_bytes_prev.
    + done.
    + apply zero_bits_words.
    + rewrite bind_app, <-wb_docs0. cbn [mbind list_bind]. rewrite chunk_docs_nil, app_nil_r; [done|].
      apply offsets_nil. apply bits_count_zero. intros. apply zero_bits_bit.
    + apply Forall_app_2; [done|]. constructor; [exact Hc|constructor].
    + by apply ordered_snoc.
    + apply Forall_app_2; [eapply Forall_impl; [done|]; cbn; lia|]. constructor; [cbn; lia|constructor].
    + by rewrite wb_popcnt0, wrap_add_l, Ecount.
    + destruct wb_index0 as [Hl He] eqn:EI. rewrite wb_origin0, wb_popcnt0, Hp, Nat2Z.inj_add.
      replace (Z.of_nat (length pre) + Z.of_nat (length (layout track 0 cs)) - Z.of_nat (length pre))
        with (Z.of_nat (length (layout track 0 cs))) by lia. rewrite wrap_wrap_le by lia.
      rewrite (wrap_small 32 (1 + _ - _)) by (unfold is_word; lia).
      by apply index_inv_add; [|..|cbn; lia].
    + done.
    + intros Ht. rewrite wb_track0, Ht, Hprev. rewrite last_snoc. cbn. rewrite wb_docs0, bind_app. cbn [mbind list_bind].
      rewrite app_nil_r. apply chunk_docs_last. by rewrite <-ch_count_nil.
    + split; [apply offsets_nil, bits_count_zero; intros; apply zero_bits_bit|]. split; [done|]. split; [done|]. right. apply last_id_snoc.
Qed.

Lemma offsets_set bits bits' o : 0 <= o < kBlockSize -> (forall i, 0 <= i -> word_bit bits' i = (i =? o) || word_bit bits i) ->
  (forall i, o <= i < kBlockSize -> word_bit bits i = false) -> offsets bits' = offsets bits ++ [o].
Proof.
  intros Ho Hset Hg. unfold offsets.
  assert (below (word_bit bits') o = below (word_bit bits) o) as E.
  { apply below_ext. intros i Hi. rewrite Hset by lia. by destruct (Z.eqb_spec i o); [lia|]. }
  rewrite (below_gap (word_bit bits') (o + 1)), (below_gap (word_bit bits) o kBlockSize); [|lia|done|lia|].
  - by rewrite below_succ, Hset, Z.eqb_refl, E by lia.
  - intros i Hi. rewrite Hset, Hg by lia. by destruct (Z.eqb_spec i o); [lia|].
Qed.

Lemma chunk_docs_elem c d : d ∈ chunk_docs c <-> d / kBlockSize = ch_id c /\ word_bit (ch_bits c) (d mod kBlockSize) = true.
Proof.
  unfold chunk_docs. rewrite list_elem_of_fmap. setoid_rewrite offsets_elem. rewrite kBlockSize_eq. split.
  - intros (o & -> & Ho & Hb). replace ((65536 * ch_id c + o) / 65536) with (ch_id c) by word_lia.
    by replace ((65536 * ch_id c + o) mod 65536) with o by word_lia.
  - intros [<- Hb]. exists (d mod 65536). split; [word_lia|]. split; [word_lia|done].
Qed.

Lemma writer_set_base docs cs w v b : writer_base b docs cs w -> sw_block w = b -> v / kBlockSize = b -> Forall (fun d => d < v) docs ->
  writer_base b (docs ++ [v]) cs (writer_set (v mod kBlockSize) w).
Proof.
  intros [] <- Hv Hlt. assert (0 <= v mod kBlockSize < kBlockSize) as Ho by (apply Z.mod_pos_bound; blia).
  destruct (set_bit_words (sw_bits w) (v mod kBlockSize) wb_bits0 Ho) as [Hw Hset].
  split; try done. rewrite wb_docs0, !bind_app, <-app_assoc. f_equal. cbn [mbind list_bind]. rewrite !app_nil_r.
  unfold chunk_docs. cbn [ch_bits ch_id current writer_set sw_set_bits sw_bits sw_block].
  rewrite (offsets_set _ _ _ Ho Hset), map_app.
  - cbn [map]. do 2 f_equal. rewrite <-Hv. pose proof (Z.div_mod v kBlockSize). blia.
  - intros i Hi. destruct (word_bit (sw_bits w) i) eqn:E; [|done].
    assert (kBlockSize * sw_block w + i ∈ docs) as Hd.
    { rewrite wb_docs0, bind_app. apply elem_of_app. right. cbn [mbind list_bind]. rewrite app_nil_r.
      apply list_elem_of_fmap. exists i. split; [done|]. apply offsets_elem. split; [lia|done]. }
    rewrite Forall_forall in Hlt. apply Hlt in Hd. rewrite <-Hv in Hd. pose proof (Z.div_mod v kBlockSize). blia.
Qed.

Lemma push_back_spec docs cs w v : writer_inv docs w cs -> sw_prev_value w < v < doc_limits.eof ->
  exists w' cs', push_back big v w = Some w' /\ writer_inv (docs ++ [v]) w' cs'.
Proof using DS IS.
  intros [HB Hp Hd Hr Hb] Hv. assert (sw_block w <= v / kBlockSize) as Hle.
  { rewrite Hb. apply Z.div_le_mono; blia. }
  assert (0 <= v / kBlockSize < 2 ^ 16) as Hrange.
  { rewrite kBlockSize_eq. rewrite eof_val in Hv. word_lia. }
  assert (exists w1 cs', (if negb (v / kBlockSize =? sw_block w)
            then w ← writer_flush big (sw_block w) w; Some (sw_set_block (v / kBlockSize) w) else Some w) = Some w1 /\
          writer_base (v / kBlockSize) docs cs' w1 /\ sw_block w1 = v / kBlockSize) as (w1 & cs' & E & HB1 & Hb1).
  { destruct (Z.eqb_spec (v / kBlockSize) (sw_block w)) as [E|E]; cbn [negb].
    - exists w, cs. by rewrite E.
    - assert (0 <= sw_block w) by (rewrite Hb; apply Z.div_pos; blia).
      destruct (writer_flush_spec docs cs w HB ltac:(lia) Hp) as (w1 & cs' & -> & H1 & H2 & _).
      exists (sw_set_block (v / kBlockSize) w1), cs'. split; [done|]. split; [|done].
      eapply writer_base_block; [done|lia|done]. }
  unfold push_back. rewrite E. cbn [mbind option_bind]. eexists _, cs'. split; [done|].
  assert (Forall (fun d => d < v) docs) as Hlt by (eapply Forall_impl; [done|]; cbn; lia).
  pose proof (writer_set_base docs cs' w1 v _ HB1 Hb1 eq_refl Hlt) as HB2.
  split; cbn [sw_prev_value sw_block writer_set sw_set_bits]; [rewrite <-Hb1 in HB2; by destruct HB2; split|..].
  - by rewrite last_snoc.
  - apply Forall_app_2; [eapply Forall_impl; [exact Hd|]; cbn; lia|]. constructor; [lia|constructor].
  - lia.
  - done.
Qed.

Fixpoint push_all docs w : option (sparse_bitmap_writer S) :=
  match docs with
  | [] => Some w
  | v :: docs => w ← push_back big v w; push_all docs w
  end.

Lemma push_all_spec docs' : forall docs cs w, writer_inv docs w cs -> StronglySorted Z.lt docs' ->
  Forall (fun v => sw_prev_value w < v < doc_limits.eof) docs' ->
  exists w' cs', push_all docs' w = Some w' /\ writer_inv (docs ++ docs') w' cs'.
Proof using DS IS.
  induction docs' as [|v docs' IH]; intros docs cs w HI Hs Hr.
  - exists w, cs. by rewrite app_nil_r.
  - apply Forall_cons in Hr as [Hv Hr]. inversion Hs as [|? ? Hs' Hlt]; subst.
    destruct (push_back_spec docs cs w v HI Hv) as (w1 & cs1 & E & HI1). cbn [push_all]. rewrite E. cbn [mbind option_bind].
    destruct (IH _ cs1 w1 HI1 Hs') as (w2 & cs2 & E2 & HI2).
    { assert (sw_prev_value w1 = v) as -> by (rewrite (wi_prev _ _ _ HI1); by rewrite last_snoc).
      rewrite Forall_forall in *. intros x Hx. pose proof (Hr x Hx). pose proof (Hlt x Hx). lia. }
    exists w2, cs2. split; [done|]. by rewrite <-app_assoc in HI2.
Qed.

Lemma sentinel_bits : ch_bits sentinel =
  <[Z.to_nat (65535 / 64) := Bit.set_bit 64 (word_at zero_bits (65535 / 64)) (65535 mod 64)]> zero_bits.
Proof. vm_compute. reflexivity. Qed.

Lemma zero_bits_offsets : offsets zero_bits = [].
Proof. apply offsets_nil, bits_count_zero. intros. apply zero_bits_bit. Qed.

Lemma sentinel_offsets : offsets (ch_bits sentinel) = [65535].
Proof.
  rewrite sentinel_bits. destruct (set_bit_words zero_bits 65535 zero_bits_words) as [_ Hset]; [blia|].
  rewrite (offsets_set _ _ 65535 ltac:(blia) Hset), zero_bits_offsets; [done|]. intros. apply zero_bits_bit.
Qed.

Lemma sentinel_count : ch_count sentinel = 1.
Proof. unfold ch_count. rewrite <-offsets_length, sentinel_offsets. done. Qed.

Lemma sentinel_ok : chunk_ok sentinel.
Proof.
  destruct (set_bit_words zero_bits 65535 zero_bits_words) as [[H1 H2] _]; [blia|]. rewrite <-sentinel_bits in H1.
  rewrite <-sentinel_bits in H2. split; [cbn; lia|exact H1|exact H2|]. rewrite sentinel_count. lia.
Qed.

Lemma offsets_nil_zero bits : block_words bits -> offsets bits = [] -> bits = zero_bits.
Proof.
  intros [H1 H2] Hn%offsets_nil. rewrite bits_count_zero in Hn. apply list_eq_same_length with (length bits).
  - unfold zero_bits. by rewrite length_replicate.
  - done.
  - intros i x y Hi Hx Hy. pose proof (lookup_replicate_1 _ _ _ _ Hy) as [-> _].
    apply (word_eq_0 64); [by eapply Forall_lookup_1|done|]. intros j Hj.
    assert (word_bit bits (64 * Z.of_nat i + j) = false) as E by (apply Hn; blia).
    rewrite word_bit_word in E by lia. unfold word_at in E. by rewrite Nat2Z.id, Hx in E.
Qed.

(** The flush of the last block, and the entry of the block that ends the bitmap. *)
Lemma finish_flush docs cs w : writer_inv docs w cs -> exists w1 cs', writer_flush big (sw_block w) w = Some w1 /\
  writer_base (sw_block w + 1) docs cs' w1 /\ offsets (sw_bits w1) = [] /\ sw_block w1 = sw_block w /\
  (cs' = [] /\ sw_block w = 0 \/ last_id cs' = sw_block w) /\ 0 <= sw_block w < 2 ^ 16.
Proof using DS IS.
  intros [HB Hp Hd Hr Hb].
  assert (0 <= sw_block w < 2 ^ 16) as Hrange by (rewrite Hb, kBlockSize_eq; rewrite eof_val in Hr; word_lia).
  destruct (writer_flush_spec docs cs w HB Hrange Hp) as (w1 & cs' & E & HB1 & Ho & Eb & _ & Hlast).
  exists w1, cs'. split; [done|]. split; [done|]. split; [done|]. split; [done|]. split; [|done].
  destruct Hlast as [[Hnil ->]|?]; [left|by right].
  assert (docs = cs ≫= chunk_docs) as Edocs.
  { rewrite (wb_docs _ _ _ _ HB), bind_app. cbn [mbind list_bind]. by rewrite chunk_docs_nil, !app_nil_r. }
  destruct docs as [|d docs _] using rev_ind.
  - split; [|by rewrite Hb, Hp]. destruct cs as [|c cs]; [done|]. pose proof (wb_ok _ _ _ _ HB) as [Hc _]%Forall_cons.
    symmetry in Edocs. apply app_nil in Edocs as [Ec _]. apply map_eq_nil in Ec. apply (ch_count_nil c) in Ec.
    pose proof (ch_some _ Hc). lia.
  - rewrite last_snoc in Hp. cbn in Hp. assert (d ∈ cs ≫= chunk_docs) as Hin by (rewrite <-Edocs; apply elem_of_app; right; by apply list_elem_of_singleton).
    apply list_elem_of_bind in Hin as (c & Hc & Hin). apply chunk_docs_elem in Hc as [Hc _].
    pose proof (wb_last _ _ _ _ HB) as Hl. rewrite Forall_forall in Hl. apply Hl in Hin. rewrite <-Hc, <-Hp in Hin. lia.
Qed.

(** The number of entries that [finish] adds. *)
Lemma finish_index docs cs w : writer_base (sw_block w + 1) docs cs w -> 0 <= sw_block w < 2 ^ 16 ->
  cs = [] /\ sw_block w = 0 \/ last_id cs = sw_block w ->
  exists idx, (if Z.of_nat (length (sw_block_index w)) <? kBlockSize
               then add_block (if negb (sw_block w =? 0) then sw_block w + 1 else 0) w else w) =
    mkWriter (sw_out w) (sw_origin w) (sw_bits w) idx (sw_popcnt w) (sw_block w) (sw_prev_value w)
      (sw_last_in_flushed_block w) (sw_track_prev_doc w) /\
    Z.of_nat (length idx) = (if last_id cs <=? 0 then 1 else Z.min (last_id cs + 2) kBlockSize) /\
    forall i b, idx !! i = Some b -> entry_ok track (cs ++ [sentinel]) (Z.of_nat i) b.
Proof using IS.
  intros [] Hblk Hlast. destruct wb_index0 as [Hl He]. pose proof (out_pointer_spec _ wb_out0) as Hp.
  rewrite wb_written0, length_app in Hp. rewrite kBlockSize_eq.
  assert (-1 <= last_id cs <= sw_block w) as Hid by (destruct Hlast as [[-> _]| ->]; cbn; lia).
  assert (forall n, (n <= 1)%nat -> n = 1%nat -> last_id cs < 65535 -> forall i b, 
    (sw_block_index w ++ replicate n (mkBlockEntry (sw_popcnt w) (wrap 32 (Z.of_nat (out_pointer (sw_out w)) -[64] sw_origin w)))) !! i = Some b ->
    entry_ok track (cs ++ [sentinel]) (Z.of_nat i) b) as Hadd.
  { intros n _ -> Hid' i b [Hi|[Hle Hi]]%lookup_app_Some; [by apply entry_ok_app, He|].
    apply list_lookup_singleton_Some in Hi as [Hi <-]. exists cs, sentinel, []. split; [done|]. split; [|split; [cbn; lia|]].
    - apply Forall_forall. intros c Hc. pose proof (ordered_last cs c wb_ordered0 Hc). lia.
    - f_equal; [done|]. rewrite wrap_wrap_le, wb_origin0, Hp by lia. f_equal. lia. }
  destruct (Z.ltb_spec (Z.of_nat (length (sw_block_index w))) 65536) as [Hlen|Hlen].
  - unfold add_block. cbv zeta. eexists. split; [done|].
    set (n := Z.to_nat _). assert (n = 1%nat /\ last_id cs <> 0 \/ n = 0%nat /\ last_id cs = 0) as Hn.
    { unfold n. rewrite Hl. destruct Hlast as [[-> ->]|E]; [left; split; [done|cbn; lia]|]. rewrite E. destruct (Z.eqb_spec (sw_block w) 0) as [->|]; [by right|left].
      cbn [negb]. rewrite wrap_small by (unfold is_word; lia). split; lia. }
    split.
    + rewrite length_app, length_replicate. destruct (Z.leb_spec (last_id cs) 0); lia.
    + destruct Hn as [[-> _]|[-> _]]; [apply (Hadd 1%nat); lia|]. intros i b Hi. cbn in Hi. rewrite app_nil_r in Hi. by apply entry_ok_app, He.
  - exists (sw_block_index w). split; [by destruct w|]. split; [|intros; by apply entry_ok_app, He].
    destruct (Z.leb_spec (last_id cs) 0); lia.
Qed.

Lemma finish_spec docs cs w : writer_inv docs w cs -> exists w' cs', finish big w = Some w' /\ chunks_of docs cs' /\
  out_ok (sw_out w') /\ written (sw_out w') = pre ++ layout track 0 (cs' ++ [sentinel]) /\
  Z.of_nat (length (sw_block_index w')) = (if last_id cs' <=? 0 then 1 else Z.min (last_id cs' + 2) kBlockSize) /\
  forall i b, sw_block_index w' !! i = Some b -> entry_ok track (cs' ++ [sentinel]) (Z.of_nat i) b.
Proof using DS IS.
  intros HI. destruct (finish_flush docs cs w HI) as (w1 & cs' & E & HB & Ho & Eb & Hlast & Hrange).
  rewrite <-Eb in HB, Hlast, Hrange. unfold finish. rewrite E. cbn [mbind option_bind].
  destruct (finish_index docs cs' w1 HB Hrange Hlast) as (idx & -> & Hlen & Hidx). destruct HB.
  apply offsets_nil_zero in Ho; [|done].
  match goal with |- context [do_flush big 1 ?x] => set (w3 := x) end.
  assert (current w3 = sentinel) as Ec.
  { unfold current, w3. cbn. rewrite Ho. change sentinel with (mkChunk 65535 (ch_bits sentinel)). by rewrite sentinel_bits. }
  destruct (do_flush_spec big w3) as (out' & bits' & Hf & Hok & Hw); [done|rewrite Ec; apply sentinel_ok|].
  rewrite Ec in Hf, Hw. rewrite sentinel_count in Hf. eexists _, cs'. split; [exact Hf|]. cbn [sw_out sw_block_index].
  split; [split; [done|done|]|split; [done|split; [|done]]].
  - rewrite wb_docs0, bind_app. cbn [mbind list_bind]. rewrite app_nil_r, chunk_docs_nil, app_nil_r; [done|].
    cbn. rewrite Ho. apply zero_bits_offsets.
  - rewrite Hw. change (sw_out w3) with (sw_out w1). change (sw_track_prev_doc w3) with (sw_track_prev_doc w1).
    change (sw_last_in_flushed_block w3) with (sw_last_in_flushed_block w1). rewrite wb_written0, layout_app, <-app_assoc. f_equal. f_equal. cbn [layout]. rewrite app_nil_r.
    rewrite wb_track0. by apply chunk_bytes_prev.
Qed.

Lemma writer_make_inv out : out_ok out -> written out = pre -> writer_inv [] (writer_make out track) [].
Proof using IS.
  intros Ho Hw.
  assert (writer_base 0 [] [] (writer_make out track)) as HB.
  { split; cbn [writer_make sw_out sw_origin sw_bits sw_block_index sw_popcnt sw_track_prev_doc sw_last_in_flushed_block].
    - done.
    - cbn [layout]. by rewrite app_nil_r.
    - by rewrite (out_pointer_spec _ Ho), Hw.
    - apply zero_bits_words.
    - cbn [app mbind list_bind]. rewrite app_nil_r. symmetry. apply chunk_docs_nil, zero_bits_offsets.
    - constructor.
    - constructor.
    - constructor.
    - reflexivity.
    - split; [reflexivity|]. intros i b Hi. by rewrite lookup_nil in Hi.
    - reflexivity.
    - reflexivity. }
  split; [exact HB|reflexivity|constructor|cbn; rewrite eof_val; lia|]. cbn. by rewrite Z.div_0_l by blia.
Qed.

End writer.

(** ** Properties *)

(** C29: writing increasing documents and finishing writes their blocks in the layout of the format, each
    with the last document before it when these are tracked, and the block of [eof]; the index of blocks
    has an entry for every block identifier up to the last one and, but for a bitmap of documents below
    2^16, one for the end. *)
Theorem sparse_bitmap_written {S} {DO : DataOutput S} {DS : DataOutputSpec S} {IO : IndexOutput S} {IS : IndexOutputSpec S}
    (big track : bool) (docs : list Z) (out : S) (Hout : out_ok out) (Hs : StronglySorted Z.lt docs)
    (Hd : Forall (fun d => doc_limits.min <= d < doc_limits.eof) docs) :
  exists w cs, push_all big docs (writer_make out track) ≫= finish big = Some w /\ chunks_of docs cs /\
    out_ok (sw_out w) /\ written (sw_out w) = written out ++ layout track 0 (cs ++ [sentinel]) /\
    Z.of_nat (length (sw_block_index w)) = (if last_id cs <=? 0 then 1 else Z.min (last_id cs + 2) kBlockSize) /\
    forall i b, sw_block_index w !! i = Some b -> entry_ok track (cs ++ [sentinel]) (Z.of_nat i) b.
Proof.
  destruct (push_all_spec big (written out) track docs [] [] (writer_make out track)) as (w & cs & E & HI).
  - by apply writer_make_inv.
  - done.
  - eapply Forall_impl; [exact Hd|]. cbn. doc_lia.
  - rewrite E. cbn [mbind option_bind]. exact (finish_spec big (written out) track docs cs w HI).
Qed.

Lemma sparse_bitmap_written_witness :
  let out := BufferedOutput.Make [] 0 [] 16 in
  exists w cs, push_all false [1; 40000; 70000] (writer_make out true) ≫= finish false = Some w /\
    chunks_of [1; 40000; 70000] cs /\ out_ok (sw_out w) /\
    written (sw_out w) = written out ++ layout true 0 (cs ++ [sentinel]) /\
    Z.of_nat (length (sw_block_index w)) = (if last_id cs <=? 0 then 1 else Z.min (last_id cs + 2) kBlockSize) /\
    forall i b, sw_block_index w !! i = Some b -> entry_ok true (cs ++ [sentinel]) (Z.of_nat i) b.
Proof.
  apply (sparse_bitmap_written false true [1; 40000; 70000] (BufferedOutput.Make [] 0 [] 16)).
  - split; cbn; lia.
  - repeat constructor; lia.
  - repeat (constructor; [split; vm_compute; discriminate || reflexivity|]). constructor.
Defined.
