(* ===== verification/SparseBitmapContainers.v ===== *)
(** * The containers of a sparse bitmap

    The seeks of the three containers of [sparse_bitmap_iterator] on the bytes that [SparseBitmapWriter]
    lays out: ranges, arrays and bit sets, read from the stream or from a buffer; and the iterator's
    state inside a block. *)
From S2P Require Import Prelude BitUtils BytesIO Streams FileStreams DocIterators Bitset SparseBitmap SparseBitmapWriter.

(** ** Documents, blocks and offsets *)

#[local] Ltac blia := pose proof kNumBlocks_eq; pose proof bitmap_blocks_pos; pose proof kBlockSize_eq; lia.

Lemma target_block t : is_word 32 t -> Z.land t 0xFFFF0000 = kBlockSize * (t / kBlockSize).
Proof.
  intros Ht. rewrite kBlockSize_eq. transitivity (Z.shiftl (Z.shiftr t 16) 16).
  - change 0xFFFF0000 with (Z.shiftl (Z.ones 16) 16). apply Z.bits_inj'. intros i Hi. bit_simpl.
    repeat (bit_split; bit_simpl); try done; try lia.
    + by replace (i - 16 + 16) with i by lia.
    + rewrite (testbit_high 32 t) by (done || lia). by replace (i - 16 + 16) with i by lia.
  - rewrite Z.shiftl_mul_pow2, Z.shiftr_div_pow2 by lia. change (2 ^ 16) with 65536. lia.
Qed.

Lemma target_offset t : Z.land t 0xFFFF = t mod kBlockSize.
Proof. rewrite kBlockSize_eq. change 0xFFFF with (Z.ones 16). by rewrite Z.land_ones. Qed.

Lemma block_offset b o : 0 <= o < kBlockSize -> Z.lor (kBlockSize * b) o = kBlockSize * b + o.
Proof.
  intros Ho. rewrite Z.lor_comm. pose proof (lor_low_high o b 16 ltac:(lia)) as H.
  rewrite Z.shiftl_mul_pow2 in H by lia. rewrite kBlockSize_eq in *. replace (65536 * b) with (b * 2 ^ 16) by lia.
  rewrite H; [lia|]. unfold is_word. lia.
Qed.

(** ** Words of a dense block *)

Lemma popcount_lor b v : is_byte b -> 0 <= v < 2 ^ 64 -> 
  Math.popcount_word (Z.lor b (Z.shiftl v 8)) = Math.popcount_word b + Math.popcount_word v.
Proof.
  intros Hb Hv. assert (is_word (Z.of_nat 72) (Z.lor b (Z.shiftl v 8))) as Hw.
  { rewrite lor_low_high by (done || lia). unfold is_byte, is_word in *. change (2 ^ Z.of_nat 72) with (2 ^ 64 * 2 ^ 8). lia. }
  rewrite (popcount_word_count 72 _ Hw), (popcount_word_count 8 b Hb), (popcount_word_count 64 v Hv).
  change 72%nat with (8 + 64)%nat. rewrite bits_count_app. f_equal; apply bits_count_ext; intros i Hi; bit_simpl.
  - rewrite (Z.testbit_neg_r v) by lia. by rewrite orb_false_r.
  - rewrite (testbit_high 8 b) by (done || lia). cbn [orb]. f_equal. lia.
Qed.

Lemma popcount_le_value bs : Forall is_byte bs -> (length bs <= 8)%nat ->
  Math.popcount_word (Fixed.le_value bs) = foldr (fun b n => Math.popcount_word b + n) 0 bs.
Proof.
  induction 1 as [|b bs Hb Hbs IH]; intros Hl; [done|]. cbn [Fixed.le_value foldr length] in *.
  rewrite popcount_lor, IH; [done|lia|done|]. pose proof (Fixed.le_value_range bs Hbs) as Hr. unfold is_word in Hr.
  assert (2 ^ (8 * Z.of_nat (length bs)) <= 2 ^ 64) by (apply Z.pow_le_mono_r; lia). lia.
Qed.

Lemma foldr_sum_rev (g : Z -> Z) bs : foldr (fun b n => g b + n) 0 (rev bs) = foldr (fun b n => g b + n) 0 bs.
Proof.
  assert (forall l m, foldr (fun b n => g b + n) 0 (l ++ m) = foldr (fun b n => g b + n) 0 l + foldr (fun b n => g b + n) 0 m) as Happ.
  { intros l m. induction l as [|b l IH]; [done|]. cbn. rewrite IH. lia. }
  induction bs as [|b bs IH]; [done|]. cbn [rev foldr]. rewrite Happ, IH. cbn. lia.
Qed.

(** A word as a little-endian host loads it from the file, and its conversion. *)
Definition raw_word (x : Z) : Z := Fixed.hton false 8 x.

Lemma raw_word_ntoh x : is_word 64 x -> ntoh64 (raw_word x) = x.
Proof.
  intros Hx. unfold ntoh64, raw_word, Fixed.hton.
  pose proof (Fixed.le_bytes_value (rev (Fixed.le_bytes 8 x)) (Fixed.rev_bytes _ (Fixed.le_bytes_bytes 8 x))) as H.
  rewrite length_rev, Fixed.length_le_bytes in H. rewrite H, rev_involutive, Fixed.le_value_bytes. by apply wrap_small.
Qed.

Lemma raw_word_popcount x : is_word 64 x -> Math.popcount_word (raw_word x) = Math.popcount_word x.
Proof.
  intros Hx. unfold raw_word, Fixed.hton.
  rewrite popcount_le_value, foldr_sum_rev, <-popcount_le_value, Fixed.le_value_bytes, wrap_small;
    rewrite ?length_rev, ?Fixed.length_le_bytes; try done; [apply Fixed.le_bytes_bytes|apply Fixed.rev_bytes, Fixed.le_bytes_bytes].
Qed.

Lemma raw_word_zero x : is_word 64 x -> (raw_word x =? 0) = (x =? 0).
Proof.
  intros Hx. destruct (Z.eqb_spec x 0) as [->|Hne]; [done|]. apply Z.eqb_neq. intros E.
  apply Hne. rewrite <-(raw_word_ntoh x Hx), E. done.
Qed.

Lemma drop_bind {A} (g : A -> list Z) k (l : list A) i : (forall x, length (g x) = k) -> drop (k * i) (l ≫= g) = drop i l ≫= g.
Proof.
  intros Hg. revert l. induction i as [|i IH]; intros l; [by rewrite Nat.mul_0_r|].
  destruct l as [|x l]; [change ([] ≫= g) with (@nil Z); by rewrite !drop_nil|]. rewrite bind_cons, Nat.mul_succ_r, Nat.add_comm, <-drop_drop. cbn [drop].
  rewrite <-(Hg x), drop_app_length, (Hg x). apply IH.
Qed.

Lemma length_bind_const {A} (g : A -> list Z) k (l : list A) : (forall x, length (g x) = k) -> length (l ≫= g) = (k * length l)%nat.
Proof. intros Hg. induction l as [|x l IH]; [by rewrite Nat.mul_0_r|]. rewrite bind_cons, length_app, IH, Hg. cbn. lia. Qed.

Lemma write16_length x : length (Fixed.write16 x) = 2%nat.
Proof. done. Qed.

Lemma write64_length x : length (Fixed.write64 x) = 8%nat.
Proof. by rewrite Fixed.write64_le, length_rev, Fixed.length_le_bytes. Qed.

Lemma word_at_drop bits i j : 0 <= i -> 0 <= j -> word_at (drop (Z.to_nat i) bits) j = word_at bits (i + j).
Proof. intros. unfold word_at. rewrite lookup_drop. do 2 f_equal. lia. Qed.

Lemma word_bit_sub bits i n j : 0 <= i -> 0 <= j < 64 * Z.of_nat n -> 
  word_bit (take n (drop (Z.to_nat i) bits)) j = word_bit bits (64 * i + j).
Proof.
  intros Hi Hj. assert (0 <= j / 64 < Z.of_nat n) as Hd by word_lia.
  rewrite !word_bit_nonneg by lia. replace ((64 * i + j) / 64) with (i + j / 64) by word_lia.
  replace ((64 * i + j) mod 64) with (j mod 64) by word_lia. f_equal. unfold word_at.
  rewrite lookup_take_lt, lookup_drop by lia. do 2 f_equal. lia.
Qed.

Section dense_words.
Context (bits : list Z) (Hbits : block_words bits).

Lemma word_at_lookup i : 0 <= i < kNumBlocks -> exists r, drop (Z.to_nat i) bits = word_at bits i :: r.
Proof using Hbits.
  intros Hi. destruct Hbits as [_ Hl]. exists (drop (Datatypes.S (Z.to_nat i)) bits). unfold word_at.
  destruct (bits !! Z.to_nat i) as [x|] eqn:E; [by rewrite (drop_S _ _ _ E)|]. apply lookup_ge_None in E. lia.
Qed.

Lemma word_at_word i : is_word 64 (word_at bits i).
Proof using Hbits. apply words_ok_at. by destruct Hbits. Qed.

Lemma words_bytes_length : length (bits ≫= Fixed.write64) = (8 * Z.to_nat kNumBlocks)%nat.
Proof using Hbits. rewrite (length_bind_const _ 8) by apply write64_length. destruct Hbits as [_ ->]. done. Qed.

Lemma words_bytes_drop i : 0 <= i < kNumBlocks -> exists r, 
  drop (8 * Z.to_nat i) (bits ≫= Fixed.write64) = Fixed.write64 (word_at bits i) ++ r.
Proof using Hbits.
  intros Hi. rewrite (drop_bind _ 8) by apply write64_length. destruct (word_at_lookup i Hi) as [r ->].
  rewrite bind_cons. eauto.
Qed.

Lemma load_word_spec i : 0 <= i < kNumBlocks -> load_word (bits ≫= Fixed.write64) i = Some (raw_word (word_at bits i)).
Proof using Hbits.
  intros Hi. unfold load_word. destruct (words_bytes_drop i Hi) as [r ->].
  rewrite decide_True by (rewrite words_bytes_length; lia).
  rewrite <-(write64_length (word_at bits i)), take_app_length, Fixed.write64_le. done.
Qed.

(** The number of documents before word [i]. *)
Definition words_count (i : Z) : Z := bits_count (word_bit bits) (Z.to_nat (64 * i)).

Lemma words_count_range i : 0 <= i <= kNumBlocks -> 0 <= words_count i <= 65536.
Proof using Type. intros Hi. unfold words_count. pose proof (bits_count_range (word_bit bits) (Z.to_nat (64 * i))). blia. Qed.

Lemma words_count_succ i : 0 <= i < kNumBlocks -> words_count (i + 1) = words_count i + Math.popcount_word (word_at bits i).
Proof using Hbits.
  intros Hi. unfold words_count. rewrite (popcount_word_count 64) by apply word_at_word.
  replace (Z.to_nat (64 * (i + 1))) with (Z.to_nat (64 * i) + 64)%nat by lia. rewrite bits_count_app. f_equal.
  apply bits_count_ext. intros j Hj. rewrite <-word_bit_word by lia. f_equal. lia.
Qed.

Lemma foldl_popcount ws p : words_ok ws -> is_word 16 p ->
  foldl (fun p w => p +[16] Math.popcount_word w) p ws = wrap 16 (p + Math.popcount ws).
Proof using Type.
  intros Hws Hp. unfold Math.popcount. induction ws as [|w ws IH] using rev_ind.
  - cbn. rewrite Z.add_0_r. symmetry. by apply wrap_small.
  - apply Forall_app in Hws as [Hws _]. rewrite !foldl_app, IH by done. cbn [foldl].
    rewrite wrap_add_l, <-(wrap_add_r 16 p (wrap 64 _)), wrap_wrap_le, wrap_add_r by lia. f_equal. lia.
Qed.

Lemma block_index_entry n : forall m i, (i < n)%nat -> 8 * Z.of_nat (m + n) <= kNumBlocks ->
  take 2 (drop (2 * i) (block_index_bytes n (wrap 16 (words_count (8 * Z.of_nat m))) (drop (8 * m) bits))) =
  Fixed.write16 (wrap 16 (words_count (8 * Z.of_nat (m + i)))).
Proof using Hbits.
  induction n as [|n IH]; intros m i Hi Hm; [lia|]. cbn [block_index_bytes]. destruct i as [|i].
  - change (2 * 0)%nat with 0%nat. rewrite drop_0. cbv zeta. rewrite take_app_length' by done. by rewrite Nat.add_0_r.
  - replace (2 * Datatypes.S i)%nat with (2 + 2 * i)%nat by lia. rewrite <-drop_drop.
    rewrite (drop_app_length' (Fixed.write16 _)) by done.
    change (Z.to_nat kDenseBlockIndexWordsPerBlock) with 8%nat.
    assert (words_ok (take 8 (drop (8 * m) bits))) as Hok by (destruct Hbits; by apply Forall_take, Forall_drop).
    rewrite drop_drop, foldl_popcount, wrap_add_l by (done || apply wrap_range; lia).
    replace (8 * m + 8)%nat with (8 * Datatypes.S m)%nat by lia.
    replace (words_count (8 * Z.of_nat m) + Math.popcount (take 8 (drop (8 * m) bits))) with (words_count (8 * Z.of_nat (Datatypes.S m))).
    + rewrite IH by lia. do 4 f_equal. lia.
    + assert (length (take 8 (drop (8 * m) bits)) = 8%nat) as Hl8.
      { destruct Hbits as [_ Hl]. rewrite length_take, length_drop, Hl. lia. }
      rewrite popcount_count by (done || rewrite Hl8; lia). rewrite Hl8. unfold words_count.
      replace (Z.to_nat (64 * (8 * Z.of_nat (Datatypes.S m)))) with (Z.to_nat (64 * (8 * Z.of_nat m)) + 64 * 8)%nat by lia.
      rewrite bits_count_app. f_equal. apply bits_count_ext. intros j Hj.
      replace (8 * m)%nat with (Z.to_nat (8 * Z.of_nat m)) by lia. rewrite word_bit_sub by lia. f_equal. lia.
Qed.

Lemma dense_blocks_eq : kNumBlocks = 8 * kDenseBlockIndexNumBlocks.
Proof using Type. vm_compute. reflexivity. Qed.

Lemma kDenseBlockIndexNumBlocks_eq : kDenseBlockIndexNumBlocks = 128.
Proof using Type. vm_compute. reflexivity. Qed.

Lemma length_block_index_bytes n p ws : length (block_index_bytes n p ws) = (2 * n)%nat.
Proof using Type. revert p ws. induction n as [|n IH]; intros p ws; [done|]. cbn [block_index_bytes]. rewrite length_app, IH, write16_length. lia. Qed.

(** The entry of the index, read on a little-endian host. *)
Lemma index_popcnt i : 0 <= i < kDenseBlockIndexNumBlocks ->
  let p := Fixed.host_value false (take 2 (drop (2 * Z.to_nat i) (block_index_bytes (Z.to_nat kDenseBlockIndexNumBlocks) 0 bits))) in
  wrap 16 (Z.lor (Z.shiftr p 8) (Z.shiftl (Z.land p 0xFF) 8)) = words_count (8 * i).
Proof using Hbits.
  intros Hi. pose proof dense_blocks_eq. pose proof kDenseBlockIndexNumBlocks_eq.
  pose proof (block_index_entry (Z.to_nat kDenseBlockIndexNumBlocks) 0 (Z.to_nat i) ltac:(lia) ltac:(lia)) as E.
  replace (8 * Z.of_nat (0 + Z.to_nat i)) with (8 * i) in E by lia.
  assert (is_word 16 (words_count (8 * i))) as Hw.
  { pose proof (bits_count_range (word_bit bits) (Z.to_nat (64 * (8 * i)))). unfold is_word, words_count. lia. }
  change (8 * 0)%nat with 0%nat in E. rewrite drop_0 in E. change (8 * Z.of_nat 0) with 0 in E. change (wrap 16 (words_count 0)) with 0 in E.
  cbv zeta. rewrite E, (wrap_small 16 (words_count _)) by done. unfold Fixed.host_value, Fixed.write16.
  set (x := words_count _) in *. clearbody x. unfold Fixed.le_value, to_byte. change 0xFF with (Z.ones 8).
  bitwise; try (rewrite (testbit_high 16 x) by (done || lia); done); f_equal; lia.
Qed.

End dense_words.

(** ** Offsets of a block *)

(** A stream gives the offsets of a sparse block as signed numbers. *)
Definition stream_safe (c : chunk) : Prop :=
  Forall (fun o => o < 2 ^ 15) (offsets (ch_bits c)) \/ offsets (ch_bits c) = [65535] /\ ch_id c = 65535.

(** The first bit from [o] on, and that there is none. *)
Definition hit (bits : list Z) (to o : Z) : Prop :=
  0 <= o < kBlockSize /\ to <= o /\ word_bit bits o = true /\ forall x, to <= x < o -> word_bit bits x = false.
Definition no_hit (bits : list Z) (to : Z) : Prop := forall x, to <= x < kBlockSize -> word_bit bits x = false.

Definition bit_rank (bits : list Z) (o : Z) : Z := bits_count (word_bit bits) (Z.to_nat o).

(** The members that stay while the iterator is in a block; those that stay always. *)
Section frames.
Context {S : Type}.
Implicit Types it : sparse_bitmap_iterator S.

Definition same_file it it' : Prop :=
  si_origin it' = si_origin it /\ si_blocks it' = si_blocks it /\ si_use_block_index it' = si_use_block_index it /\
  si_prev_doc_written it' = si_prev_doc_written it /\ si_track_prev_doc it' = si_track_prev_doc it.
Definition same_block it it' : Prop := same_file it it' /\
  si_block it' = si_block it /\ si_index it' = si_index it /\ si_index_max it' = si_index_max it /\
  si_cont_begin it' = si_cont_begin it.

#[export] Instance same_file_preorder : PreOrder same_file.
Proof.
  split; [done|]. unfold same_file. intros x y z (? & ? & ? & ? & ?) (? & ? & ? & ? & ?). repeat split; congruence.
Qed.
#[export] Instance same_block_preorder : PreOrder same_block.
Proof.
  split; [done|]. intros x y z [Hxy ?] [Hyz ?]. split; [by etrans|]. repeat split; destruct_and!; congruence.
Qed.
End frames.

#[local] Ltac frame := split; [repeat split|repeat split].

Lemma hit_lookup bits to o : hit bits to o -> offsets bits !! Z.to_nat (bit_rank bits o) = Some o.
Proof. intros (Ho & _ & Hb & _). by apply below_lookup. Qed.

(** Offsets that were passed, and those to come. *)
Lemma offsets_middle bits l o r : offsets bits = l ++ o :: r ->
  0 <= o < kBlockSize /\ word_bit bits o = true /\ bit_rank bits o = Z.of_nat (length l) /\ below (word_bit bits) o = l.
Proof.
  intros E. assert (offsets bits !! length l = Some o) as Hl by (rewrite E; by apply list_lookup_middle).
  apply below_lookup_inv in Hl as (Ho & Hb & Hc). split; [done|]. split; [done|]. split; [done|].
  destruct (below_split (word_bit bits) kBlockSize o Ho Hb) as (r' & E' & _). fold (offsets bits) in E'.
  rewrite E in E'. apply app_inj_1 in E' as [-> _]; [done|]. pose proof (below_length (word_bit bits) o). lia.
Qed.

Lemma offsets_before bits l o r x : offsets bits = l ++ o :: r -> x ∈ l -> x < o.
Proof.
  intros E Hx. destruct (offsets_middle bits l o r E) as (_ & _ & _ & <-). apply below_elem in Hx. lia.
Qed.

Lemma offsets_hit bits to l o r : offsets bits = l ++ o :: r -> Forall (fun x => x < to) l -> to <= o -> hit bits to o.
Proof.
  intros E Hl Ho. destruct (offsets_middle bits l o r E) as (Hr & Hb & _ & Hbl). repeat split; [lia..|done|].
  intros x Hx. destruct (word_bit bits x) eqn:Ex; [|done]. destruct (Z.lt_ge_cases x 0); [by rewrite word_bit_neg in Ex|].
  assert (x ∈ l) as Hin by (rewrite <-Hbl; apply below_elem; split; [lia|done]).
  rewrite Forall_forall in Hl. apply Hl in Hin. lia.
Qed.

Lemma offsets_no_hit bits to : Forall (fun x => x < to) (offsets bits) -> no_hit bits to.
Proof.
  intros H x Hx. destruct (word_bit bits x) eqn:E; [|done]. destruct (Z.lt_ge_cases x 0); [by rewrite word_bit_neg in E|].
  rewrite Forall_forall in H. assert (x < to); [|lia]. apply H, offsets_elem. split; [lia|done].
Qed.

(** ** Containers *)

Section container.
Context {S : Type} {D : DataInput S} {DS : DataInputSpec S} {II : IndexInput S} {IS : IndexInputSpec S}
  {FI : FileInput S} {FS : FileInputSpec S}.
(** The block [c] of the file [f] that ends at [q], after [rk] documents, the last of which is [pv]. *)
Context (f : list Z) (c : chunk) (rk : Z) (q : nat) (pv : Z) (T : bool).
Context (Hc : chunk_ok c) (Hrk : 0 <= rk) (Hmax : rk + ch_count c < 2 ^ 32).
Implicit Types (it : sparse_bitmap_iterator S) (to o : Z) (os : list Z) (a : AccessType) (s : S).

Abbreviation base := (kBlockSize * ch_id c).
Abbreviation bits := (ch_bits c).

Lemma container_words : block_words bits.
Proof using Hc. by destruct Hc. Qed.

Lemma base_range : 0 <= base <= 2 ^ 32 - 65536.
Proof using Hc. pose proof (ch_id_range _ Hc). blia. Qed.

(** *** Arrays *)

(** The offsets that are left of a sparse block, in the buffer or in the stream. *)
Definition src a os (u8 : list Z) s : Prop :=
  match a with
  | AT_STREAM => exists p rest, at_ f p s /\ (p + 2 * length os = q)%nat /\ drop p f = (os ≫= Fixed.write16) ++ rest
  | _ => u8 = os ≫= Fixed.write16 /\ at_ f q s
  end.

Definition sp_value a o : Z := match a with AT_STREAM => wrap 32 (to_signed 16 o) | _ => o end.

Lemma src_end a u8 s : src a [] u8 s -> at_ f q s.
Proof using Type. destruct a; cbn; [|tauto..]. intros (p & rest & H & E & _). by replace q with p by lia. Qed.

Lemma sparse_value_spec a o os u8 it : src a (o :: os) u8 (si_in it) -> is_word 16 o ->
  exists u8' s', sparse_value a u8 it = Some (sp_value a o, (u8', si_set_in s' it)) /\ src a os u8' s'.
Proof using Type*.
  intros Hs Ho. destruct a; cbn [src sparse_value sp_value] in *.
  - destruct Hs as (p & rest & Hat & Hq & Hd). rewrite bind_cons, <-app_assoc in Hd.
    destruct (read_short_at f p (si_in it) (to_signed 16 o) ((os ≫= Fixed.write16) ++ rest)) as (s' & -> & Hat');
      [done|by apply to_signed_range|by rewrite wrap_to_signed, wrap_small|].
    exists u8, s'. cbn [mbind option_bind]. split; [done|]. exists (p + 2)%nat, rest. split; [done|]. cbn [length] in Hq. split; [lia|].
    rewrite <-drop_drop, Hd. by rewrite (drop_app_length' (Fixed.write16 _)).
  - destruct Hs as [-> Hat]. rewrite bind_cons, (proj1 (Fixed.read16_write16 _ _ Ho)). cbn [mbind option_bind].
    exists (os ≫= Fixed.write16), (si_in it). split; [by destruct it|done].
  - destruct Hs as [-> Hat]. rewrite bind_cons, (proj1 (Fixed.read16_write16 _ _ Ho)). cbn [mbind option_bind].
    exists (os ≫= Fixed.write16), (si_in it). split; [by destruct it|done].
Qed.

Definition value_safe a to o : Prop :=
  (to <=? sp_value a o) = (to <=? o) /\ Z.lor base (sp_value a o) = base + o /\ (o < to -> sp_value a o = o).

Lemma value_safe_spec a to o : (a = AT_STREAM -> stream_safe c) -> o ∈ offsets bits -> to < kBlockSize -> value_safe a to o.
Proof using Hc.
  intros Hs Ho Hto. pose proof Ho as [Hr _]%offsets_elem. pose proof base_range.
  assert (sp_value a o = o -> value_safe a to o) as Hsame.
  { intros E. unfold value_safe. rewrite E. split; [done|]. split; [by apply block_offset|done]. }
  destruct a; [|by apply Hsame..]. destruct (Hs eq_refl) as [Hl|[Hl Hid]].
  - apply Hsame. rewrite Forall_forall in Hl. pose proof (Hl o Ho). unfold sp_value, to_signed.
    rewrite (wrap_small 16) by (unfold is_word; blia). destruct (Z.ltb_spec o (2 ^ (16 - 1))); [|lia].
    apply wrap_small. unfold is_word. lia.
  - rewrite Hl in Ho. apply list_elem_of_singleton in Ho as ->. unfold value_safe. rewrite Hid, kBlockSize_eq in *.
    change (sp_value AT_STREAM 65535) with (2 ^ 32 - 1). split; [|split; [reflexivity|lia]]. 
    destruct (Z.leb_spec to 65535), (Z.leb_spec to (2 ^ 32 - 1)); lia || done.
Qed.

Lemma sparse_loop_spec a to os : forall l u8 prev it,
  offsets bits = l ++ os -> src a os u8 (si_in it) -> (forall o, o ∈ os -> value_safe a to o) ->
  Forall (fun x => x < to) l -> (T = true -> l = [] \/ exists l' o, l = l' ++ [o] /\ Z.lor base prev = base + o) ->
  si_block it = base -> si_index it = rk ->
  exists found it', sparse_loop (length os) T a u8 (rk + Z.of_nat (length l)) prev to it = Some (found, it') /\
    same_block it it' /\ si_seek_func it' = si_seek_func it /\ si_prev_doc it' = si_prev_doc it /\
    if found : bool then exists l2 o os2 u8', offsets bits = l2 ++ o :: os2 /\ Forall (fun x => x < to) l2 /\ to <= o /\
      si_doc it' = base + o /\ si_value_index it' = rk + Z.of_nat (length l2) /\
      si_ctx it' = ctx_sparse u8' (rk + Z.of_nat (length l2) + 1) /\ src a os2 u8' (si_in it') /\
      (T = true -> l2 = [] /\ si_prev it' = si_prev it \/ exists l' o', l2 = l' ++ [o'] /\ si_prev it' = base + o')
    else Forall (fun x => x < to) (offsets bits) /\ at_ f q (si_in it').
Proof using All.
  induction os as [|o os IH]; intros l u8 prev it Ho Hs Hsafe Hl Hp Hb Hi; cbn [length sparse_loop].
  - eexists false, _. split; [done|]. split; [done|]. split; [done|]. split; [done|]. rewrite Ho, app_nil_r. split; [done|].
    by apply src_end in Hs.
  - destruct (offsets_middle bits l o os Ho) as (Hor & _ & Hrank & _).
    destruct (sparse_value_spec a o os u8 it Hs) as (u8' & s' & -> & Hs'); [unfold is_word; blia|]. cbn [mbind option_bind].
    destruct (Hsafe o ltac:(left)) as (E1 & E2 & E3). rewrite E1.
    pose proof (offsets_length bits) as Hlen. change (bits_count _ _) with (ch_count c) in Hlen.
    rewrite Ho, length_app in Hlen. cbn [length] in Hlen.
    assert ((rk + Z.of_nat (length l)) +[32] 1 = rk + Z.of_nat (length l) + 1) as Ewrap by (apply wrap_small; unfold is_word; lia).
    destruct (Z.leb_spec to o) as [Hle|Hlt].
    + eexists true, _. split; [done|]. rewrite Ewrap.
      set (it1 := si_set_pos (Z.lor (si_block (si_set_in s' it)) (sp_value a o)) (rk + Z.of_nat (length l)) (si_set_in s' it)).
      set (it2 := if T && _ then _ else it1).
      assert (si_in it2 = s' /\ si_doc it2 = base + o /\ si_value_index it2 = rk + Z.of_nat (length l) /\ same_block it it2 /\
        si_seek_func it2 = si_seek_func it /\ si_prev_doc it2 = si_prev_doc it /\
        si_prev it2 = if T && negb (Nat.eqb (length l) 0) then Z.lor base prev else si_prev it) as (G1 & G2 & G3 & G4 & G5 & G6 & G7).
      { assert (si_index it1 = rk) as F1 by done. 
        assert ((rk + Z.of_nat (length l) =? si_index it1) = Nat.eqb (length l) 0) as F2.
        { rewrite F1. destruct (Z.eqb_spec (rk + Z.of_nat (length l)) rk), (Nat.eqb_spec (length l) 0); lia || done. }
        unfold it2. clear it2. rewrite F2. assert (si_doc it1 = base + o) as F3 by (cbn; by rewrite Hb).
        destruct (T && negb (length l =? 0)%nat); (split; [reflexivity|]); (split; [exact F3|]); (split; [reflexivity|]);
          (split; [frame|]); (split; [reflexivity|]); (split; [reflexivity|]); [|reflexivity].
        cbn [si_prev si_set_prev]. by rewrite <-Hb. }
      split; [exact G4|]. split; [exact G5|]. split; [exact G6|]. exists l, o, os, u8'. split; [done|]. split; [done|]. split; [done|].
      split; [exact G2|]. split; [exact G3|]. split; [done|]. split; [cbn; by rewrite G1|].
      intros HT. cbn [si_prev si_set_ctx]. rewrite G7, HT. destruct (Hp HT) as [->|(l' & o' & -> & Ep)]; [left; split; reflexivity|right].
      exists l', o'. split; [reflexivity|]. rewrite length_app, Nat.add_comm. cbn. exact Ep.
    + assert (offsets bits = (l ++ [o]) ++ os) as Ho' by (by rewrite <-app_assoc).
      destruct (IH (l ++ [o]) u8' (if T then sp_value a o else prev) (si_set_in s' it) Ho' Hs') as (found & it' & E & Hsb & Hf & Hpd & Hpost).
      * intros x Hx. apply Hsafe. by right.
      * apply Forall_app_2; [done|]. by repeat constructor.
      * intros ->. right. exists l, o. split; [done|exact E2].
      * done.
      * done.
      * exists found, it'. rewrite Ewrap. rewrite length_app in E. cbn [length] in E.
        replace (rk + Z.of_nat (length l + 1)) with (rk + Z.of_nat (length l) + 1) in E by lia. rewrite E.
        split; [done|]. split; [done|]. split; [done|]. split; [done|]. exact Hpost.
Qed.

(** *** Bit sets *)

(** A word as the iterator has it in hand before its conversion. *)
Definition mem_word a (x : Z) : Z := match a with AT_STREAM => x | _ => raw_word x end.

Lemma mem_word_popcount a x : is_word 64 x -> Math.popcount_word (mem_word a x) = Math.popcount_word x.
Proof using Type. intros. destruct a; [done|by apply raw_word_popcount..]. Qed.

Lemma mem_word_zero a x : is_word 64 x -> (mem_word a x =? 0) = (x =? 0).
Proof using Type. intros. destruct a; [done|by apply raw_word_zero..]. Qed.

Lemma mem_word_native a x : is_word 64 x -> match a with AT_STREAM => mem_word a x | _ => ntoh64 (mem_word a x) end = x.
Proof using Type. intros. destruct a; [done|by apply raw_word_ntoh..]. Qed.

(** The words of the block in the file; they are not at its end. *)
Definition words_at (b : nat) : Prop :=
  (exists rest, drop b f = (bits ≫= Fixed.write64) ++ rest /\ rest <> []) /\ q = (b + 8 * Z.to_nat kNumBlocks)%nat.

Lemma words_inside b : words_at b -> (q < length f)%nat.
Proof using Hc.
  intros [[rest [Hd Hne]] Hq]. apply (f_equal length) in Hd.
  rewrite length_app, length_drop, (words_bytes_length bits container_words) in Hd.
  destruct rest; [done|]. cbn [length] in Hd. lia.
Qed.

Lemma read_word_at b n s : words_at b -> 0 <= n < kNumBlocks -> at_ f (b + 8 * Z.to_nat n) s -> exists s',
  read_long s = Some (to_signed 64 (word_at bits n), s') /\ at_ f (b + 8 * Z.to_nat (n + 1)) s'.
Proof using All.
  intros [[rest [Hd _]] Hq] Hn Hat. pose proof (word_at_word bits container_words n) as Hw.
  destruct (words_bytes_drop bits container_words n Hn) as [r Er].
  destruct (read_long_at f _ s (to_signed 64 (word_at bits n)) (r ++ rest) Hat) as (s' & E & Hat').
  - by apply to_signed_range.
  - rewrite <-drop_drop, Hd, drop_app_le, Er by (rewrite (words_bytes_length bits container_words); lia).
    by rewrite wrap_to_signed, wrap_small, <-app_assoc.
  - exists s'. split; [done|]. by replace (b + 8 * Z.to_nat (n + 1))%nat with (b + 8 * Z.to_nat n + 8)%nat by lia.
Qed.

(** The input, or the pointer, stands at word [n] of the block. *)
Definition dense_pos a (n : Z) (data : list Z) (u : Z) s : Prop :=
  match a with
  | AT_STREAM => exists b, words_at b /\ at_ f (b + 8 * Z.to_nat n) s
  | _ => data = bits ≫= Fixed.write64 /\ u = n /\ at_ f q s
  end.

Lemma dense_pos_end a data u s : dense_pos a kNumBlocks data u s -> at_ f q s.
Proof using Type. destruct a; cbn; [|tauto..]. by intros (b & [_ ->] & H). Qed.

Lemma dense_pos_seek n n' data u s : dense_pos AT_STREAM n data u s -> 0 <= n <= n' -> n' <= kNumBlocks -> (q <= length f)%nat ->
  dense_pos AT_STREAM n' data u (Streams.seek (file_pointer s + Z.to_nat (8 * (n' - n)))%nat s).
Proof using Type*.
  intros (b & Hwords & Hat) Hn Hn' Hlen. pose proof Hat as (_ & _ & -> & _). exists b. split; [done|].
  replace (b + 8 * Z.to_nat n + Z.to_nat (8 * (n' - n)))%nat with (b + 8 * Z.to_nat n')%nat by lia.
  eapply seek_at; [done|]. pose proof (words_inside b Hwords). destruct Hwords. lia.
Qed.

Lemma next_word_spec a n data u it : dense_pos a n data u (si_in it) -> 0 <= n < kNumBlocks -> exists u' s',
  match a with
  | AT_STREAM => '(w, in_) ← read_long (si_in it); Some (wrap 64 w, (u, si_set_in in_ it))
  | _ => w ← load_word data u; Some (w, (u + 1, it))
  end = Some (mem_word a (word_at bits n), (u', si_set_in s' it)) /\ dense_pos a (n + 1) data u' s'.
Proof using All.
  intros Hp Hn. pose proof (word_at_word bits container_words n) as Hw. destruct a; cbn [dense_pos mem_word] in *.
  - destruct Hp as (b & Hwords & Hat). destruct (read_word_at b n _ Hwords Hn Hat) as (s' & -> & Hat').
    exists u, s'. cbn [mbind option_bind]. rewrite wrap_to_signed, wrap_small by (done || lia). split; [done|]. by exists b.
  - destruct Hp as (-> & -> & Hat). rewrite (load_word_spec bits container_words) by done. cbn [mbind option_bind].
    exists (n + 1), (si_in it). split; [by destruct it|done].
  - destruct Hp as (-> & -> & Hat). rewrite (load_word_spec bits container_words) by done. cbn [mbind option_bind].
    exists (n + 1), (si_in it). split; [by destruct it|done].
Qed.

(** The state of a bit set at word [w]. *)
Record dense_at a (w : Z) (d : dense_ctx) s : Prop := {
  da_range : -1 <= w < kNumBlocks;
  da_word_idx : dn_word_idx d = w;
  da_popcnt : dn_popcnt d = rk + words_count bits (w + 1);
  da_word : 0 <= w -> dn_word d = word_at bits w;
  da_index : dn_index d = None \/ dn_index d = Some (block_index_bytes (Z.to_nat kDenseBlockIndexNumBlocks) 0 bits);
  da_pos : dense_pos a (w + 1) (dn_data d) (dn_u64data d) s;
}.

Lemma words_count_total n : 0 <= n <= kNumBlocks -> 0 <= words_count bits n <= ch_count c.
Proof using Type.
  intros Hn. unfold words_count, ch_count. rewrite kBlockSize_nat.
  replace (64 * Z.to_nat kNumBlocks)%nat with (Z.to_nat (64 * n) + Z.to_nat (64 * (kNumBlocks - n)))%nat by lia.
  rewrite bits_count_app. pose proof (bits_count_range (word_bit bits) (Z.to_nat (64 * n))).
  pose proof (bits_count_range (fun i => word_bit bits (Z.of_nat (Z.to_nat (64 * n)) + i)) (Z.to_nat (64 * (kNumBlocks - n)))). lia.
Qed.

Lemma popcnt_add n : 0 <= n < kNumBlocks ->
  (rk + words_count bits n) +[32] Math.popcount_word (word_at bits n) = rk + words_count bits (n + 1).
Proof using All.
  intros Hn. rewrite (words_count_succ bits container_words) by done. rewrite Z.add_assoc. apply wrap_small.
  pose proof (words_count_total n ltac:(lia)). pose proof (words_count_total (n + 1) ltac:(lia)) as Ht.
  rewrite (words_count_succ bits container_words) in Ht by done. unfold is_word. split; [|lia].
  pose proof (words_count_total (n + 1) ltac:(lia)) as Hs. rewrite (words_count_succ bits container_words) in Hs by done. lia.
Qed.

Lemma dense_skip_spec a n : forall m d it, 0 <= m -> m + Z.of_nat n <= kNumBlocks -> dn_popcnt d = rk + words_count bits m ->
  dense_pos a m (dn_data d) (dn_u64data d) (si_in it) -> exists d' s',
  dense_skip n a d it = Some (d', si_set_in s' it) /\ dn_popcnt d' = rk + words_count bits (m + Z.of_nat n) /\
  dn_data d' = dn_data d /\ dn_index d' = dn_index d /\ dense_pos a (m + Z.of_nat n) (dn_data d') (dn_u64data d') s' /\
  (n <> 0%nat -> dn_word d' = mem_word a (word_at bits (m + Z.of_nat n - 1))).
Proof using All.
  induction n as [|n IH]; intros m d it Hm Hn Hp Hpos; cbn [dense_skip].
  - exists d, (si_in it). rewrite Z.add_0_r. split; [by destruct it|]. repeat split; try done.
  - destruct (next_word_spec a m _ _ it Hpos) as (u' & s' & -> & Hpos'); [lia|]. cbn [mbind option_bind].
    destruct (IH (m + 1) (dn_set u' (dn_popcnt d +[32] Math.popcount_word (mem_word a (word_at bits m))) (dn_word_idx d)
      (mem_word a (word_at bits m)) d) (si_set_in s' it)) as (d' & s2 & E & H1 & H2 & H3 & H4 & H5); [lia|lia| |done|].
    + cbn [dn_popcnt dn_set]. rewrite mem_word_popcount by apply (word_at_word bits container_words). rewrite Hp. apply popcnt_add. lia.
    + exists d', s2. replace (m + Z.of_nat (Datatypes.S n)) with (m + 1 + Z.of_nat n) by lia. split; [exact E|]. split; [done|].
      split; [done|]. split; [done|]. split; [done|]. intros _. destruct n as [|n]; [|by apply H5].
      cbn [dense_skip] in E. injection E as <- _. cbn [dn_word dn_set]. do 2 f_equal. lia.
Qed.

(** The jump by the index of the block. *)
Lemma dense_jump_spec a w d it t : dense_at a w d (si_in it) -> si_index it = rk -> (q <= length f)%nat ->
  w <= t mod kBlockSize / 64 -> exists d' s' w',
  dense_jump a t d it = Some (d', si_set_in s' it) /\ dense_at a w' d' s' /\ w' <= t mod kBlockSize / 64.
Proof using All.
  intros [Hw Hidx Hpc Hword Hindex Hpos] Hrki Hq Hle.
  assert (0 <= t mod kBlockSize < kBlockSize) as Hto by (apply Z.mod_pos_bound; blia).
  assert (Some (d, it) = Some (d, si_set_in (si_in it) it)) as Esame by (by destruct it).
  assert (dense_at a w d (si_in it)) as Hsame by done.
  unfold dense_jump. rewrite target_offset. cbv zeta. set (to := t mod kBlockSize) in *.
  destruct Hindex as [E|E]; rewrite E; [by exists d, (si_in it), w|].
  change kDenseBlockIndexWordsPerBlock with 8. change kDenseBlockIndexBlockSize with 512.
  assert (to / 64 < kNumBlocks) as Htw by (pose proof kNumBlocks_eq; word_lia).
  rewrite Hidx, (wrap_small 32 (to / 64 - w)) by (unfold is_word; blia).
  destruct (Z.leb_spec 8 (to / 64 - w)) as [Hfar|]; [|by exists d, (si_in it), w].
  pose proof dense_blocks_eq as Hblocks.
  set (ib := to / 512) in *. assert (0 <= ib < kDenseBlockIndexNumBlocks /\ w + 1 <= ib * 8 <= to / 64) as [Hib Hn].
  { unfold ib. pose proof kNumBlocks_eq. word_lia. }
  rewrite (index_popcnt bits container_words ib Hib). rewrite (Z.mul_comm 8 ib).
  rewrite (wrap_small 64 (ib * 8 - w)) by (unfold is_word; blia). set (n := ib * 8) in *. clearbody n ib.
  assert (dense_pos a n (dn_data d) (match a with AT_STREAM => dn_u64data d | _ => n end)
    (match a with AT_STREAM => Streams.seek (file_pointer (si_in it) + Z.to_nat (wrap 64 ((n - w - 1) * 8)))%nat (si_in it) | _ => si_in it end)) as Hpos'.
  { destruct a; [|cbn in *; tauto..]. rewrite wrap_small by (unfold is_word; blia).
    replace ((n - w - 1) * 8) with (8 * (n - (w + 1))) by lia. apply (dense_pos_seek (w + 1)); [done|lia|lia|done]. }
  assert (forall d' s', dn_word_idx d' = n -> dn_popcnt d' = wrap 32 (si_index it + words_count bits n + Math.popcount_word (word_at bits n)) ->
            dn_word d' = word_at bits n -> dn_index d' = dn_index d -> dense_pos a (n + 1) (dn_data d') (dn_u64data d') s' ->
            dense_at a n d' s') as Hmake.
  { intros d' s' E1 E2 E3 E4 E5. split; [lia|done| |done|right; congruence|done].
    rewrite E2, Hrki. apply popcnt_add. lia. }
  destruct (next_word_spec a n _ _ (si_set_in _ it) Hpos') as (u' & s' & En & Hpos2); [lia|]. destruct a; cbn [mem_word] in En.
  - cbn [si_in si_set_in] in En. destruct (read_long _) as [[v s2]|]; [|done]. cbn [mbind option_bind] in *.
    injection En as Ev Eu Es. rewrite Ev. eexists _, s2, n. split; [done|]. split; [|lia].
    apply Hmake; try done. cbn [dn_data dn_u64data dn_set]. rewrite Eu, Es. exact Hpos2.
  - cbn [dense_pos] in Hpos, Hpos2. destruct Hpos as (Ed & Eu & Hat). rewrite Eu. replace (w + 1 + (n - w) - 1) with n by lia.
    rewrite Ed, (load_word_spec bits container_words) by lia. cbn [mbind option_bind]. rewrite raw_word_ntoh by apply (word_at_word bits container_words).
    eexists _, (si_in it), n. split; [by destruct it|]. split; [|lia]. apply Hmake; try done.
    cbn [dn_data dn_u64data dn_set dense_pos]. split; [done|]. split; [lia|done].
  - cbn [dense_pos] in Hpos, Hpos2. destruct Hpos as (Ed & Eu & Hat). rewrite Eu. replace (w + 1 + (n - w) - 1) with n by lia.
    rewrite Ed, (load_word_spec bits container_words) by lia. cbn [mbind option_bind]. rewrite raw_word_ntoh by apply (word_at_word bits container_words).
    eexists _, (si_in it), n. split; [by destruct it|]. split; [|lia]. apply Hmake; try done.
    cbn [dn_data dn_u64data dn_set dense_pos]. split; [done|]. split; [lia|done].
Qed.

Lemma dense_locate_spec a w d it tw : dense_at a w d (si_in it) -> w <= tw < kNumBlocks -> 0 <= tw -> exists d' s',
  dense_locate a tw d it = Some (d', si_set_in s' it) /\ dense_at a tw d' s'.
Proof using All.
  intros [Hw Hidx Hpc Hword Hindex Hpos] Htw H0. unfold dense_locate. cbv zeta. rewrite Hidx, wrap_small by (unfold is_word; blia).
  destruct (Z.eqb_spec (tw - w) 0) as [E|E].
  - exists d, (si_in it). split; [by destruct it|]. replace tw with w by lia. done.
  - destruct (dense_skip_spec a (Z.to_nat (tw - w)) (w + 1) d it) as (d' & s' & E' & H1 & H2 & H3 & H4 & H5); [lia|lia|done|done|].
    rewrite E'. cbn [mbind option_bind]. replace (w + 1 + Z.of_nat (Z.to_nat (tw - w))) with (tw + 1) in * by lia.
    eexists _, s'. split; [done|]. specialize (H5 ltac:(lia)). replace (tw + 1 - 1) with tw in H5 by lia.
    split; cbn [dn_set dn_word_idx dn_popcnt dn_word dn_index dn_data dn_u64data]; [lia|done|done| |by rewrite H3|done].
    intros _. rewrite H5. apply mem_word_native, (word_at_word bits container_words).
Qed.

Lemma bit_rank_gap x o : 0 <= x <= o -> (forall y, x <= y < o -> word_bit bits y = false) -> bit_rank bits o = bit_rank bits x.
Proof using Type.
  intros Hx Hg. unfold bit_rank. replace (Z.to_nat o) with (Z.to_nat x + Z.to_nat (o - x))%nat by lia. rewrite bits_count_app.
  enough (bits_count (fun i => word_bit bits (Z.of_nat (Z.to_nat x) + i)) (Z.to_nat (o - x)) = 0) by lia.
  apply bits_count_zero. intros i Hi. apply Hg. lia.
Qed.

(** The first bit of a word from bit [s] on. *)
Lemma word_hit (m s : Z) : 0 <= m < kNumBlocks -> 0 <= s < 64 ->
  let left := Z.shiftr (word_at bits m) s in
  if left =? 0 then forall x, 64 * m + s <= x < 64 * (m + 1) -> word_bit bits x = false
  else let o := 64 * m + s + countr_zero 64 left in
    hit bits (64 * m + s) o /\ o / 64 = m /\ bit_rank bits o + Math.popcount_word left = words_count bits (m + 1).
Proof using All.
  intros Hm Hs. cbv zeta. set (left := Z.shiftr _ _).
  pose proof (word_at_word bits container_words m) as Hw.
  assert (forall j, 0 <= j < 64 - s -> Z.testbit left j = word_bit bits (64 * m + s + j)) as Hbit.
  { intros j Hj. unfold left. rewrite shiftr_testbit by lia. rewrite <-word_bit_word by lia. f_equal. lia. }
  assert (is_word (64 - s) left) as Hl.
  { unfold left, is_word in *. rewrite Z.shiftr_div_pow2 by lia. split; [apply Z.div_pos; lia|].
    apply Z.div_lt_upper_bound; [lia|]. rewrite <-Z.pow_add_r by lia. replace (s + (64 - s)) with 64 by lia. lia. }
  assert (is_word 64 left) as Hl64.
  { unfold is_word in *. assert (2 ^ (64 - s) <= 2 ^ 64) by (apply Z.pow_le_mono_r; lia). lia. }
  destruct (Z.eqb_spec left 0) as [E|E].
  - intros x Hx. replace x with (64 * m + s + (x - 64 * m - s)) by lia. rewrite <-Hbit, E by lia. apply Z.bits_0.
  - destruct (countr_zero_spec 64 left Hl64 E ltac:(lia)) as (Hr & Hset & Hclear). set (z := countr_zero 64 left) in *.
    assert (z < 64 - s) as Hz.
    { destruct (Z.lt_ge_cases z (64 - s)); [done|]. by rewrite (testbit_high (64 - s)) in Hset by (done || lia). }
    assert (forall y, 64 * m + s <= y < 64 * m + s + z -> word_bit bits y = false) as Hg.
    { intros y Hy. replace y with (64 * m + s + (y - 64 * m - s)) by lia. rewrite <-Hbit by lia. apply Hclear. lia. }
    split; [|split; [word_lia|]].
    + split; [blia|]. split; [lia|]. split; [by rewrite <-Hbit by lia|done].
    + rewrite (bit_rank_gap (64 * m + s)) by (lia || done). unfold bit_rank, words_count.
      replace (Z.to_nat (64 * (m + 1))) with (Z.to_nat (64 * m + s) + Z.to_nat (64 - s))%nat by lia. rewrite bits_count_app. f_equal.
      rewrite (popcount_word_count (Z.to_nat (64 - s))) by (by rewrite Z2Nat.id by lia).
      apply bits_count_ext. intros j Hj. rewrite Hbit by lia. f_equal. lia.
Qed.

Lemma dense_scan_spec a n : forall m d it, 0 <= m -> m + Z.of_nat n = kNumBlocks -> dn_popcnt d = rk + words_count bits m ->
  (dn_index d = None \/ dn_index d = Some (block_index_bytes (Z.to_nat kDenseBlockIndexNumBlocks) 0 bits)) ->
  dense_pos a m (dn_data d) (dn_u64data d) (si_in it) -> si_block it = base -> exists found d' it',
  dense_scan n a m d it = Some (found, (d', it')) /\ same_block it it' /\ si_seek_func it' = si_seek_func it /\
  si_prev_doc it' = si_prev_doc it /\ si_prev it' = si_prev it /\
  if found : bool then exists o, hit bits (64 * m) o /\ dense_at a (o / 64) d' (si_in it') /\ si_doc it' = base + o /\
    si_value_index it' = rk + bit_rank bits o
  else no_hit bits (64 * m) /\ at_ f q (si_in it').
Proof using All.
  induction n as [|n IH]; intros m d it Hm Hn Hpc Hidx Hpos Hb; cbn [dense_scan].
  - eexists false, _, it. split; [done|]. split; [frame|]. do 3 (split; [done|]). split; [intros x Hx; blia|].
    replace m with kNumBlocks in Hpos by lia. by apply dense_pos_end in Hpos.
  - destruct (next_word_spec a m _ _ it Hpos) as (u' & s' & -> & Hpos'); [lia|]. cbn [mbind option_bind].
    pose proof (word_at_word bits container_words m) as Hw. rewrite mem_word_zero by done.
    pose proof (word_hit m 0 ltac:(lia) ltac:(lia)) as Hhit. cbv zeta in Hhit. rewrite Z.shiftr_0_r, Z.add_0_r in Hhit.
    destruct (Z.eqb_spec (word_at bits m) 0) as [E|E]; cbn [negb].
    + destruct (IH (m + 1) (dn_set u' (dn_popcnt d) m (mem_word a (word_at bits m)) d) (si_set_in s' it)) as
        (found & d' & it' & E' & H1 & H2 & H3 & H4 & H5); [lia|lia| |done|done|done|].
      { cbn [dn_popcnt dn_set]. rewrite Hpc, (words_count_succ bits container_words), E by lia. cbn. lia. }
      exists found, d', it'. split; [exact E'|]. split; [exact H1|]. do 3 (split; [done|]). destruct found.
      * destruct H5 as (o & (Ho & Hle & Hbit & Hg) & H5). exists o. split; [|done]. split; [done|]. split; [lia|]. split; [done|].
        intros x Hx. destruct (Z.lt_ge_cases x (64 * (m + 1))); [apply Hhit; lia|apply Hg; lia].
      * destruct H5 as [H5 Hat]. split; [|done]. intros x Hx. destruct (Z.lt_ge_cases x (64 * (m + 1))); [apply Hhit; lia|apply H5; lia].
    + assert (match a with AT_STREAM => mem_word a (word_at bits m) | _ => ntoh64 (mem_word a (word_at bits m)) end = word_at bits m) as En
        by (by apply mem_word_native).
      rewrite En. set (o := 64 * m + countr_zero 64 (word_at bits m)) in *. destruct Hhit as (Hh & Hdiv & Hrank).
      pose proof Hh as (Ho & _). pose proof base_range.
      eexists true, _, _. split; [done|]. split; [frame|]. do 3 (split; [done|]). exists o. split; [done|].
      rewrite Hdiv. split; [|split].
      * split; cbn [dn_set dn_word_idx dn_popcnt dn_word dn_index dn_data dn_u64data]; [lia|done| |done|done|done].
        rewrite Hpc. apply popcnt_add. lia.
      * cbn [si_doc si_set_pos si_set_in si_block]. rewrite Hb, wrap_small; unfold o; [lia|unfold is_word; blia].
      * cbn [si_value_index si_set_pos]. rewrite Hpc. rewrite (words_count_succ bits container_words) in Hrank by lia. lia.
Qed.

Lemma dense_seek_plain_spec a w d t it : dense_at a w d (si_in it) -> si_index it = rk -> si_block it = base -> (q <= length f)%nat ->
  base <= t < base + kBlockSize -> w <= t mod kBlockSize / 64 -> exists found it' d',
  dense_seek_plain a d t it = Some (found, it') /\ same_block it it' /\ si_seek_func it' = si_seek_func it /\
  si_prev_doc it' = si_prev_doc it /\ si_prev it' = si_prev it /\ si_ctx it' = ctx_dense d' /\
  if found : bool then exists o, hit bits (t mod kBlockSize) o /\ dense_at a (o / 64) d' (si_in it') /\ si_doc it' = base + o /\
    si_value_index it' = rk + bit_rank bits o
  else no_hit bits (t mod kBlockSize) /\ at_ f q (si_in it').
Proof using All.
  intros Hd Hi Hb Hq Ht Hw. assert (0 <= t mod kBlockSize < kBlockSize) as Hto by (apply Z.mod_pos_bound; blia).
  assert (t = base + t mod kBlockSize) as Et.
  { rewrite kBlockSize_eq in *. word_lia. }
  assert (t mod 64 = (t mod kBlockSize) mod 64) as Em by (rewrite kBlockSize_eq; word_lia).
  destruct (dense_jump_spec a w d it t Hd Hi Hq Hw) as (d1 & s1 & w1 & E1 & Hd1 & Hw1).
  unfold dense_seek_plain. rewrite E1. cbn [mbind option_bind]. rewrite target_offset, Em. set (to := t mod kBlockSize) in *.
  assert (0 <= to / 64 < kNumBlocks) as Htw by (pose proof kNumBlocks_eq; word_lia).
  destruct (dense_locate_spec a w1 d1 (si_set_in s1 it) (to / 64)) as (d2 & s2 & E2 & Hd2); [done|lia|lia|].
  rewrite E2. cbn [mbind option_bind]. destruct Hd2 as [H1 H2 H3 H4 H5 H6]. rewrite H4 by lia.
  pose proof (word_hit (to / 64) (to mod 64) ltac:(lia) ltac:(word_lia)) as Hhit. cbv zeta in Hhit.
  replace (64 * (to / 64) + to mod 64) with to in Hhit by word_lia. pose proof base_range.
  destruct (Z.eqb_spec (Z.shiftr (word_at bits (to / 64)) (to mod 64)) 0) as [E|E]; cbn [negb].
  - rewrite H2. destruct (dense_scan_spec a (Z.to_nat (kNumBlocks - (to / 64 + 1))) (to / 64 + 1) d2 (si_set_in s2 (si_set_in s1 it)))
      as (found & d' & it' & E' & G1 & G2 & G3 & G4 & G5); [lia|lia|done|done|done|done|].
    rewrite E'. cbn [mbind option_bind]. eexists found, _, d'. split; [done|]. split; [exact G1|]. do 3 (split; [done|]).
    split; [done|]. destruct found.
    + destruct G5 as (o & (Ho & Hle & Hbit & Hg) & G5). exists o. split; [|done]. split; [done|]. split; [word_lia|]. split; [done|].
      intros x Hx. destruct (Z.lt_ge_cases x (64 * (to / 64 + 1))); [apply Hhit; lia|apply Hg; lia].
    + destruct G5 as [G5 Hat]. split; [|done]. intros x Hx. destruct (Z.lt_ge_cases x (64 * (to / 64 + 1))); [apply Hhit; lia|apply G5; lia].
  - destruct Hhit as (Hh & Hdiv & Hrank). set (left := Z.shiftr _ _) in *. set (o := to + countr_zero 64 left) in *. pose proof Hh as (Ho & _).
    assert (0 <= bit_rank bits o <= words_count bits (to / 64 + 1)) as Hro.
    { split; [apply bits_count_range|]. enough (0 <= Math.popcount_word left) by lia.
      assert (is_word 64 left) as Hl.
      { pose proof (word_at_word bits container_words (to / 64)) as Hww. unfold left, is_word in *. rewrite Z.shiftr_div_pow2 by word_lia.
        assert (0 < 2 ^ (to mod 64)) by (apply pow2_pos; word_lia).
        split; [apply Z.div_pos; lia|]. apply Z.div_lt_upper_bound; nia. }
      rewrite (popcount_word_count 64) by done. apply bits_count_range. }
    pose proof (words_count_total (to / 64 + 1) ltac:(lia)).
    eexists true, _, d2. split; [done|]. split; [frame|]. do 3 (split; [done|]). split; [done|]. exists o. split; [done|]. rewrite Hdiv.
    split; [done|]. split.
    + cbn [si_doc si_set_ctx si_set_pos]. rewrite wrap_small; unfold o in *; [lia|]. unfold is_word. blia.
    + cbn [si_value_index si_set_ctx si_set_pos]. rewrite H3, wrap_small; [lia|]. unfold is_word. lia.
Qed.

(** *** Inside a block *)

(** The last offset that was returned. *)
Implicit Types (l : option Z).

(** The document before the current one. *)
Definition prev_of l : Z :=
  match l with
  | None => pv
  | Some o => match last (below (word_bit bits) o) with Some o' => base + o' | None => pv end
  end.

Definition passed l : list Z := match l with None => [] | Some o => below (word_bit bits) o ++ [o] end.

(** [prev_] holds the document before the current one. *)
Definition plain_prev l it : Prop := T = true -> si_prev_doc it = prev_field /\ si_prev it = prev_of l.

Inductive in_container l it : Prop :=
  | in_range :
      ch_count c = kBlockSize -> si_seek_func it = seek_range T -> si_ctx it = ctx_all (base -[32] rk) -> at_ f q (si_in it) ->
      plain_prev l it -> in_container l it
  | in_sparse a os u8 :
      offsets bits = passed l ++ os -> si_seek_func it = seek_sparse T a ->
      si_ctx it = ctx_sparse u8 (rk + Z.of_nat (length (passed l))) -> src a os u8 (si_in it) -> (a = AT_STREAM -> stream_safe c) ->
      plain_prev l it -> in_container l it
  | in_dense a t d :
      si_seek_func it = seek_dense t a -> si_ctx it = ctx_dense d ->
      dense_at a (match l with None => -1 | Some o => o / 64 end) d (si_in it) ->
      (match l with
       | Some o => if bit_rank bits o =? 0 then t = T /\ plain_prev l it else t = false /\ (T = true -> si_prev_doc it = seek_prev_f a)
       | None => t = T /\ plain_prev l it
       end) -> in_container l it.

Record in_block l it : Prop := {
  ib_block : si_block it = base;
  ib_index : si_index it = rk;
  ib_max : si_index_max it = rk + ch_count c;
  ib_cont : si_cont_begin it = q;
  ib_track : si_track_prev_doc it = T;
  ib_doc : match l with
    | None => True
    | Some o => 0 <= o < kBlockSize /\ word_bit bits o = true /\ si_doc it = base + o /\ si_value_index it = rk + bit_rank bits o
    end;
  ib_container : in_container l it;
}.

Lemma in_block_move l l' it it' : in_block l it -> same_block it it' ->
  (match l' with
   | None => True
   | Some o => 0 <= o < kBlockSize /\ word_bit bits o = true /\ si_doc it' = base + o /\ si_value_index it' = rk + bit_rank bits o
   end) -> in_container l' it' -> in_block l' it'.
Proof using Type.
  intros [] [(_ & _ & _ & _ & E5) (E1 & E2 & E3 & E4)] Hdoc Hcon. split; [congruence..|done|done].
Qed.

Lemma bit_rank_below o : below (word_bit bits) o = [] <-> bit_rank bits o = 0.
Proof using Type. pose proof (below_length (word_bit bits) o) as H. unfold bit_rank. rewrite <-H. destruct (below _ o); cbn; split; done || lia. Qed.

(** The seek in a block that may hold the target. *)
Definition seek_post it t (found : bool) it' : Prop :=
  same_block it it' /\
  if found then exists o, hit bits (t mod kBlockSize) o /\ in_block (Some o) it'
  else no_hit bits (t mod kBlockSize) /\ at_ f q (si_in it').

Definition seek_pre l it t : Prop :=
  in_block l it /\ base <= t < base + kBlockSize /\ match l with Some o => base + o < t | None => True end.

Lemma range_full o : ch_count c = kBlockSize -> 0 <= o < kBlockSize -> word_bit bits o = true.
Proof using Type.
  intros Hfull Ho. assert (bits_count (word_bit bits) (Z.to_nat kBlockSize) = Z.of_nat (Z.to_nat kBlockSize)) as E.
  { change (ch_count c = Z.of_nat (Z.to_nat kBlockSize)). blia. }
  rewrite bits_count_full in E. apply E. blia.
Qed.

Lemma range_rank o : ch_count c = kBlockSize -> 0 <= o < kBlockSize -> bit_rank bits o = o.
Proof using Type.
  intros Hfull Ho. unfold bit_rank. rewrite <-(Z2Nat.id o) at 2 by lia. apply bits_count_full.
  intros i Hi. apply range_full; [done|lia].
Qed.

Lemma target_in_block t : base <= t < base + kBlockSize -> t = base + t mod kBlockSize /\ 0 <= t mod kBlockSize < kBlockSize.
Proof using Type. intros Ht. rewrite kBlockSize_eq in *. word_lia. Qed.

Lemma seek_range_spec l it t : seek_pre l it t -> ch_count c = kBlockSize -> si_seek_func it = seek_range T ->
  si_ctx it = ctx_all (base -[32] rk) -> at_ f q (si_in it) -> plain_prev l it ->
  seek_post it t true (range_seek T (base -[32] rk) t it).2.
Proof using All.
  intros (Hin & Ht & Hl) Hfull Hfun Hctx Hat Hprev. destruct (target_in_block t Ht) as [Et Hto]. set (to := t mod kBlockSize) in *.
  pose proof base_range. pose proof (ib_index _ _ Hin) as Hidx.
  assert (t -[32] (base -[32] rk) = rk + to) as Ei.
  { rewrite wrap_sub_r. rewrite Et. replace (base + to - (base - rk)) with (rk + to) by lia. apply wrap_small. unfold is_word. lia. }
  unfold range_seek. rewrite Ei. cbn [snd].
  set (it1 := si_set_pos t (rk + to) it). assert (si_index it1 = rk) as E1 by done. rewrite E1.
  set (it2 := if T && negb (rk + to =? rk) then si_set_prev (t -[32] 1) it1 else it1).
  assert (same_block it it2 /\ si_doc it2 = t /\ si_value_index it2 = rk + to /\ si_seek_func it2 = si_seek_func it /\
    si_ctx it2 = si_ctx it /\ si_in it2 = si_in it /\ si_prev_doc it2 = si_prev_doc it /\
    si_prev it2 = if T && negb (rk + to =? rk) then t -[32] 1 else si_prev it) as (G1 & G2 & G3 & G4 & G5 & G6 & G7 & G8).
  { unfold it2. destruct (T && negb (rk + to =? rk)); (split; [frame|]); repeat (split; [reflexivity|]); reflexivity. }
  clearbody it2. split; [done|]. exists to. split.
  - split; [done|]. split; [lia|]. split; [by apply range_full|]. intros x Hx. lia.
  - apply (in_block_move l _ it); [done|done| |].
    + split; [done|]. split; [by apply range_full|]. split; [lia|]. by rewrite range_rank.
    + apply in_range; [done|congruence|congruence|congruence|]. intros HT. destruct (Hprev HT) as [Hp1 Hp2].
      split; [congruence|]. rewrite G8, HT. unfold prev_of. destruct (Z.eqb_spec (rk + to) rk) as [E|E]; cbn [negb andb].
      * assert (to = 0) as E0 by lia. rewrite E0. change (below (word_bit bits) 0) with (@nil Z). cbn [last]. rewrite Hp2. unfold prev_of. destruct l as [o|]; [|done].
        destruct (ib_doc _ _ Hin) as (? & _). lia.
      * assert (below (word_bit bits) to = below (word_bit bits) (to - 1) ++ [to - 1]) as ->.
        { replace to with (to - 1 + 1) at 1 by lia. rewrite below_succ by lia. by rewrite (range_full _ Hfull) by lia. }
        rewrite last_snoc.
        rewrite wrap_small by (unfold is_word; blia). lia.
Qed.

Lemma offset_word l it t : seek_pre l it t -> match l with Some o => 0 <= o < t mod kBlockSize | None => True end.
Proof using All.
  intros (Hin & Ht & Hl). destruct l as [o|]; [|done]. destruct (ib_doc _ _ Hin) as (Ho & _).
  destruct (target_in_block t Ht) as [Et Hto]. lia.
Qed.

Lemma seek_sparse_spec l it t a os u8 : seek_pre l it t -> offsets bits = passed l ++ os -> si_seek_func it = seek_sparse T a ->
  si_ctx it = ctx_sparse u8 (rk + Z.of_nat (length (passed l))) -> src a os u8 (si_in it) -> (a = AT_STREAM -> stream_safe c) ->
  plain_prev l it -> exists found it',
  sparse_seek T a u8 (rk + Z.of_nat (length (passed l))) t it = Some (found, it') /\ seek_post it t found it'.
Proof using All.
  intros Hpre Hos Hfun Hctx Hsrc Hsafe Hprev. pose proof (offset_word l it t Hpre) as Hlast. destruct Hpre as (Hin & Ht & Hl).
  destruct (target_in_block t Ht) as [Et Hto]. set (to := t mod kBlockSize) in *.
  pose proof (offsets_length bits) as Hlen. change (bits_count _ _) with (ch_count c) in Hlen. rewrite Hos, length_app in Hlen.
  unfold sparse_seek. rewrite (ib_max _ _ Hin), target_offset. fold to.
  replace (Z.to_nat (rk + ch_count c - (rk + Z.of_nat (length (passed l))))) with (length os) by lia.
  destruct (sparse_loop_spec a to os (passed l) u8 (si_doc it) it Hos Hsrc) as (found & it' & E & Hsb & Hf & Hpd & Hpost).
  - intros o Ho. apply value_safe_spec; [done| |lia]. rewrite Hos. apply elem_of_app. by right.
  - destruct l as [o|]; [|constructor]. apply Forall_app_2; [|by constructor; [lia|]].
    apply Forall_forall. intros x [Hx _]%below_elem. lia.
  - intros _. destruct l as [o|]; [right|by left]. exists (below (word_bit bits) o), o. split; [done|].
    destruct (ib_doc _ _ Hin) as (Ho & _ & -> & _). rewrite <-block_offset, Z.lor_assoc, Z.lor_diag by done. done.
  - apply (ib_block _ _ Hin).
  - apply (ib_index _ _ Hin).
  - exists found, it'. split; [done|]. split; [done|]. destruct found.
    + destruct Hpost as (l2 & o & os2 & u8' & Ho & Hlt & Hle & G1 & G2 & G3 & G4 & G5). exists o.
      pose proof (offsets_hit bits to l2 o os2 Ho Hlt Hle) as Hh. split; [done|].
      destruct (offsets_middle bits l2 o os2 Ho) as (Hr & Hb & Hrank & Hbl).
      apply (in_block_move l _ it); [done|done| |].
      * split; [done|]. split; [done|]. split; [done|]. by rewrite Hrank.
      * apply (in_sparse _ _ a os2 u8'); [|congruence| |done|done|].
        -- cbn [passed]. by rewrite Hbl, <-app_assoc.
        -- rewrite G3. cbn [passed]. rewrite Hbl, length_app. cbn [length]. f_equal. lia.
        -- intros HT. destruct (Hprev HT) as [Hp1 Hp2]. split; [congruence|]. unfold prev_of. rewrite Hbl.
           destruct (G5 HT) as [[-> E5]|(l' & o' & -> & E5)]; [|by rewrite last_snoc].
           cbn [last]. rewrite E5, Hp2. unfold prev_of. destruct l as [o1|]; [|done]. exfalso.
           destruct (ib_doc _ _ Hin) as (_ & Hb1 & _).
           assert (o1 ∈ below (word_bit bits) o) as Hx by (apply below_elem; split; [lia|done]).
           rewrite Hbl in Hx. by apply elem_of_nil in Hx.
    + destruct Hpost as [Hlt Hat]. split; [by apply offsets_no_hit|done].
Qed.

Lemma seek_dense_spec l it t a t' d : seek_pre l it t -> (q <= length f)%nat -> si_seek_func it = seek_dense t' a -> si_ctx it = ctx_dense d ->
  dense_at a (match l with None => -1 | Some o => o / 64 end) d (si_in it) ->
  (match l with
   | Some o => if bit_rank bits o =? 0 then t' = T /\ plain_prev l it else t' = false /\ (T = true -> si_prev_doc it = seek_prev_f a)
   | None => t' = T /\ plain_prev l it
   end) -> exists found it', dense_seek t' a d t it = Some (found, it') /\ seek_post it t found it'.
Proof using All.
  intros Hpre Hq Hfun Hctx Hat Hprev. pose proof (offset_word l it t Hpre) as Hlast. destruct Hpre as (Hin & Ht & Hl).
  destruct (target_in_block t Ht) as [Et Hto]. set (to := t mod kBlockSize) in *.
  destruct (dense_seek_plain_spec a _ d t it Hat (ib_index _ _ Hin) (ib_block _ _ Hin) Hq Ht) as (found & it1 & d' & E & Hsb & G1 & G2 & G3 & G4 & Hpost).
  { fold to. destruct l as [o|]; [apply Z.div_le_mono; lia|word_lia]. }
  unfold dense_seek. rewrite E. cbn [mbind option_bind]. fold to in Hpost.
  assert (si_index it1 = rk) as Ei by (destruct Hsb as [_ (_ & -> & _)]; apply (ib_index _ _ Hin)). rewrite Ei.
  set (it2 := si_set_func (seek_prev_f a) (seek_dense false a) it1).
  assert (same_block it it2) as Hsb2 by (etrans; [exact Hsb|frame]).
  destruct found.
  - destruct Hpost as (o & Hh & Hd' & Hdoc & Hidx). pose proof Hh as (Hr & Hle & Hb & _).
    assert (forall o1, l = Some o1 -> bit_rank bits o <> 0) as Hnz.
    { intros o1 ->. destruct (ib_doc _ _ Hin) as (_ & Hb1 & _). intros Hz%bit_rank_below.
      assert (o1 ∈ below (word_bit bits) o) as Hx by (apply below_elem; split; [lia|done]). rewrite Hz in Hx. by apply elem_of_nil in Hx. }
    rewrite Hidx. assert ((rk + bit_rank bits o =? rk) = (bit_rank bits o =? 0)) as -> by (destruct (Z.eqb_spec (bit_rank bits o) 0); lia).
    exists true, (if t' && negb (bit_rank bits o =? 0) then it2 else it1). split; [by destruct (t' && _)|].
    split; [by destruct (t' && _)|]. exists o. split; [done|]. apply (in_block_move l _ it); [done|by destruct (t' && _)| |].
    { destruct (t' && _); done. }
    destruct (Z.eqb_spec (bit_rank bits o) 0) as [Ez|Ez]; cbn [negb]; rewrite ?andb_true_r, ?andb_false_r.
    + destruct l as [o1|]; [by destruct (Hnz o1 eq_refl)|]. destruct Hprev as [-> Hprev].
      apply (in_dense _ _ a T d'); [congruence|done|done|]. rewrite Ez, Z.eqb_refl. split; [done|].
      intros HT. destruct (Hprev HT) as [Hp1 Hp2]. split; [congruence|]. rewrite G3, Hp2. unfold prev_of.
      apply bit_rank_below in Ez. by rewrite Ez.
    + assert ((bit_rank bits o =? 0) = false) as Eb by lia. destruct t'.
      * apply (in_dense _ _ a false d'); [done|done|done|]. rewrite Eb. split; done.
      * apply (in_dense _ _ a false d'); [congruence|done|done|]. rewrite Eb. split; [done|]. intros HT. rewrite G2.
        destruct l as [o1|]; [|destruct Hprev; congruence]. destruct (bit_rank bits o1 =? 0); [destruct Hprev; congruence|].
        by apply Hprev.
  - destruct Hpost as [Hno Hq']. exists false, (if t' && negb (si_value_index it1 =? rk) then it2 else it1).
    split; [by destruct (t' && _)|]. split; [by destruct (t' && _)|]. split; [done|]. by destruct (t' && _).
Qed.

Lemma call_seek_spec l it t seek : seek_pre l it t -> (q <= length f)%nat -> exists found it',
  call_seek_func seek t it = Some (found, it') /\ seek_post it t found it'.
Proof using All.
  intros Hpre Hq. pose proof Hpre as (Hin & _). unfold call_seek_func.
  destruct (ib_container _ _ Hin) as [H1 H2 H3 H4 H5|a os u8 H1 H2 H3 H4 H5 H6|a t' d H1 H2 H3 H4].
  - rewrite H2, H3. eexists true, _. split; [|by apply (seek_range_spec l)]. done.
  - rewrite H2, H3. by apply (seek_sparse_spec l _ _ _ os).
  - rewrite H1, H2. by apply (seek_dense_spec l).
Qed.

(** *** The document before the current one *)

Lemma below_last o o' : 0 <= o' < o -> word_bit bits o' = true -> (forall x, o' < x < o -> word_bit bits x = false) ->
  last (below (word_bit bits) o) = Some o'.
Proof using Type.
  intros Ho Hb Hg. rewrite (below_gap _ (o' + 1)) by (lia || (intros; apply Hg; lia)). rewrite below_succ, Hb by lia. apply last_snoc.
Qed.

(** The last bit of a word below bit [s]. *)
Lemma word_top m (s : Z) x : 0 <= m < kNumBlocks -> 0 <= s <= 64 -> x = Z.land (word_at bits m) (Z.ones s) ->
  if x =? 0 then forall y, 64 * m <= y < 64 * m + s -> word_bit bits y = false
  else let o' := 64 * m + (63 - Math.countl_zero 64 x) in
    64 * m <= o' < 64 * m + s /\ word_bit bits o' = true /\ forall y, o' < y < 64 * m + s -> word_bit bits y = false.
Proof using All.
  intros Hm Hs ->. set (x := Z.land _ _). pose proof (word_at_word bits container_words m) as Hw.
  assert (forall j, 0 <= j < 64 -> Z.testbit x j = (j <? s) && word_bit bits (64 * m + j)) as Hbit.
  { intros j Hj. unfold x. rewrite Z.land_spec, ones_testbit, <-word_bit_word, andb_comm by lia. done. }
  assert (is_word 64 x) as Hx by (by apply land_word).
  destruct (Z.eqb_spec x 0) as [E|E].
  - intros y Hy. pose proof (Hbit (y - 64 * m) ltac:(lia)) as Hb. rewrite E, Z.bits_0 in Hb.
    destruct (Z.ltb_spec (y - 64 * m) s); [|lia]. cbn [andb] in Hb. rewrite Hb. f_equal. lia.
  - cbv zeta. assert (0 < x) as Hpos by (unfold is_word in Hx; lia).
    assert (63 - Math.countl_zero 64 x = Z.log2 x) as -> by (unfold Math.countl_zero; destruct x; lia).
    pose proof (Z.log2_nonneg x). assert (Z.log2 x < 64) as Hl by (apply Z.log2_lt_pow2; [done|apply Hx]).
    pose proof (Hbit (Z.log2 x) ltac:(lia)) as Hb. rewrite Z.bit_log2 in Hb by done. symmetry in Hb. apply andb_true_iff in Hb as [Hlt Hb].
    split; [lia|]. split; [done|]. intros y Hy. pose proof (Hbit (y - 64 * m) ltac:(lia)) as Hb'.
    rewrite Z.bits_above_log2 in Hb' by lia. destruct (Z.ltb_spec (y - 64 * m) s); [|lia]. cbn [andb] in Hb'. rewrite Hb'. f_equal. lia.
Qed.

(** Where [seek_prev] reads word [m]. *)
Definition prev_at a (m prev : Z) (data : list Z) s : Prop :=
  match a with
  | AT_STREAM => exists b p, words_at b /\ prev = Z.of_nat b + 8 * m /\ at_ f p s
  | _ => data = bits ≫= Fixed.write64 /\ prev = m
  end.

Lemma prev_words_spec a data n : forall prev it, (q <= length f)%nat -> Z.of_nat n <= kNumBlocks ->
  prev_at a (Z.of_nat n - 1) prev data (si_in it) ->
  (exists y, 0 <= y < 64 * Z.of_nat n /\ word_bit bits y = true) -> exists m s',
  prev_words n a data prev (Z.of_nat n) it = Some (mem_word a (word_at bits m), (m, si_set_in s' it)) /\ 0 <= m < Z.of_nat n /\
  word_at bits m <> 0 /\ (forall y, 64 * (m + 1) <= y < 64 * Z.of_nat n -> word_bit bits y = false) /\
  (a = AT_STREAM -> exists p, at_ f p s') /\ (a <> AT_STREAM -> s' = si_in it).
Proof using All.
  induction n as [|n IH]; intros prev it Hq Hn Hp Hex; [destruct Hex as (y & ? & _); lia|]. cbn [prev_words].
  replace (Z.of_nat (Datatypes.S n) - 1) with (Z.of_nat n) in * by lia.
  assert (exists s', match a with
    | AT_STREAM => '(w, in_) ← read_long (Streams.seek (Z.to_nat prev) (si_in it)); Some (wrap 64 w, si_set_in in_ it)
    | _ => w ← load_word data prev; Some (w, it)
    end = Some (mem_word a (word_at bits (Z.of_nat n)), si_set_in s' it) /\
    (forall m, m = Z.of_nat n - 1 -> prev_at a m (match a with AT_STREAM => prev - 8 | _ => prev - 1 end) data s') /\
    (a = AT_STREAM -> exists p, at_ f p s') /\ (a <> AT_STREAM -> s' = si_in it)) as (s' & E & Hp' & Hs1 & Hs2).
  { pose proof (word_at_word bits container_words (Z.of_nat n)) as Hw. destruct a; cbn [prev_at mem_word] in *.
    - destruct Hp as (b & p & Hwords & -> & Hat).
      assert (Z.to_nat (Z.of_nat b + 8 * Z.of_nat n) = b + 8 * Z.to_nat (Z.of_nat n))%nat as Eb by lia. rewrite Eb.
      destruct (read_word_at b (Z.of_nat n) (Streams.seek (b + 8 * Z.to_nat (Z.of_nat n)) (si_in it)) Hwords) as (s' & -> & Hat'); [lia| |].
      { eapply seek_at; [done|]. pose proof (words_inside b Hwords). destruct Hwords. lia. }
      cbn [mbind option_bind]. rewrite wrap_to_signed, wrap_small by (done || lia). exists s'. split; [done|].
      split; [|split; [eauto|done]]. intros m ->. exists b, (b + 8 * Z.to_nat (Z.of_nat n + 1))%nat. split; [done|]. split; [lia|done].
    - destruct Hp as [-> ->]. rewrite (load_word_spec bits container_words) by lia. exists (si_in it). split; [by destruct it|]. split; [|done].
      intros m ->. done.
    - destruct Hp as [-> ->]. rewrite (load_word_spec bits container_words) by lia. exists (si_in it). split; [by destruct it|]. split; [|done].
      intros m ->. done. }
  rewrite E. cbn [mbind option_bind]. rewrite mem_word_zero by apply (word_at_word bits container_words).
  pose proof (word_hit (Z.of_nat n) 0 ltac:(lia) ltac:(lia)) as Hhit. cbv zeta in Hhit. rewrite Z.shiftr_0_r, Z.add_0_r in Hhit.
  destruct (Z.eqb_spec (word_at bits (Z.of_nat n)) 0) as [Ez|Ez].
  - destruct (IH (match a with AT_STREAM => prev - 8 | _ => prev - 1 end) (si_set_in s' it)) as (m & s2 & E2 & H1 & H2 & H3 & H4 & H5);
      [done|lia|by apply Hp'| |].
    + destruct Hex as (y & Hy & Hb). exists y. split; [|done]. destruct (Z.lt_ge_cases y (64 * Z.of_nat n)); [lia|].
      rewrite Hhit in Hb by lia. done.
    + exists m, s2. split; [exact E2|]. split; [lia|]. split; [done|]. split; [|split; [done|intros Ha; by rewrite H5, <-Hs2]].
      intros y Hy. destruct (Z.lt_ge_cases y (64 * Z.of_nat n)); [apply H3; lia|apply Hhit; lia].
  - exists (Z.of_nat n), s'. split; [done|]. split; [lia|]. split; [done|]. split; [|done]. intros y Hy. lia.
Qed.

(** What the attribute [prev_doc] returns. *)
Lemma prev_doc_spec o it : in_block (Some o) it -> T = true -> (q <= length f)%nat -> exists it',
  prev_doc it = Some (prev_of (Some o), it') /\ in_block (Some o) it' /\ same_block it it' /\
  si_doc it' = si_doc it /\ si_value_index it' = si_value_index it.
Proof using All.
  intros Hin HT Hq. destruct (ib_doc _ _ Hin) as (Ho & Hb & Hdoc & Hval).
  assert (plain_prev (Some o) it -> exists it', prev_doc it = Some (prev_of (Some o), it') /\ in_block (Some o) it' /\ same_block it it' /\
    si_doc it' = si_doc it /\ si_value_index it' = si_value_index it) as Hplain.
  { intros Hp. destruct (Hp HT) as [E1 E2]. exists it. unfold prev_doc. rewrite E1, E2. split; [done|]. split; [done|]. split; [frame|done]. }
  destruct (ib_container _ _ Hin) as [_ _ _ _ Hp|a os u8 _ _ _ _ _ Hp|a t d Hfun Hctx Hd Hp]; [by apply Hplain..|].
  pose proof Hp as Hp0. destruct (Z.eqb_spec (bit_rank bits o) 0) as [Ez|Ez]; [destruct Hp; by apply Hplain|]. destruct Hp as [-> Hp].
  unfold prev_doc. rewrite Hp, Hctx by done. clear Hp Hplain. pose proof Hd as [H1 H2 H3 H4 H5 H6]. pose proof base_range.
  assert (0 <= o / 64 < kNumBlocks) as Hw by (pose proof kNumBlocks_eq; word_lia).
  unfold seek_prev. rewrite Hdoc, H4, H2 by lia.
  replace ((base + o) mod 64) with (o mod 64) by (rewrite kBlockSize_eq; word_lia).
  assert ((1 <<[64] (o mod 64)) -[64] 1 = Z.ones (o mod 64)) as Emask.
  { rewrite Bit.shl1 by word_lia. rewrite Z.ones_equiv, <-Z.sub_1_r. apply wrap_small. assert (0 < 2 ^ (o mod 64)) by (apply pow2_pos; word_lia).
    assert (2 ^ (o mod 64) < 2 ^ 64) by (apply Z.pow_lt_mono_r; word_lia). unfold is_word. lia. }
  cbv zeta. rewrite Emask. set (x := Z.land _ _).
  pose proof (word_top (o / 64) (o mod 64) x Hw ltac:(word_lia) eq_refl) as Htop.
  replace (64 * (o / 64) + o mod 64) with o in Htop by word_lia.
  assert (forall m z s', 0 <= m < kNumBlocks -> 0 <= 64 * m + (63 - Math.countl_zero 64 z) < o -> word_bit bits (64 * m + (63 - Math.countl_zero 64 z)) = true ->
    (forall y, 64 * m + (63 - Math.countl_zero 64 z) < y < o -> word_bit bits y = false) ->
    dense_pos a (o / 64 + 1) (dn_data d) (dn_u64data d) s' ->
    exists it', Some (wrap 32 (si_block it + ((m + 1) * 64 - Math.countl_zero 64 z - 1)), si_set_in s' it) = Some (prev_of (Some o), it') /\
      in_block (Some o) it' /\ same_block it it' /\ si_doc it' = base + o /\ si_value_index it' = si_value_index it) as Hdone.
  { intros m z s' Hm Hlt Hbit Hg Hpos. exists (si_set_in s' it). split.
    - unfold prev_of. rewrite (below_last _ _ Hlt Hbit Hg), (ib_block _ _ Hin).
      rewrite wrap_small by (unfold is_word; blia). do 2 f_equal. lia.
    - split; [|split; [frame|done]]. apply (in_block_move (Some o) _ it); [done|frame|by rewrite <-Hdoc|].
      apply (in_dense _ _ a false d); [done|done| |].
      + by split.
      + destruct (Z.eqb_spec (bit_rank bits o) 0); [done|]. exact Hp0. }
  destruct (Z.eqb_spec x 0) as [Ex|Ex].
  - destruct (prev_words_spec a (dn_data d) (Z.to_nat (o / 64))
      (match a with AT_STREAM => Z.of_nat (file_pointer (si_in it)) - 16 | _ => dn_u64data d - 2 end) it Hq ltac:(lia)) as
      (m & s' & E & Hm & Hne & Hg & Hs1 & Hs2).
    + rewrite Z2Nat.id by lia. destruct a; cbn [dense_pos prev_at] in *; [|split; [tauto|lia]..].
      destruct H6 as (b & Hwords & Hat). pose proof Hat as (_ & _ & -> & _). exists b. eexists. split; [done|]. split; [lia|done].
    + rewrite Z2Nat.id by lia. destruct (below (word_bit bits) (64 * (o / 64))) as [|y ys] eqn:Eb.
      * destruct Ez. apply bit_rank_below in Eb. rewrite <-Eb. apply bit_rank_gap; [word_lia|done].
      * exists y. apply below_elem. rewrite Eb. by left.
    + rewrite Z2Nat.id in E, Hm, Hg by lia. rewrite E. cbn [mbind option_bind].
      rewrite mem_word_native by apply (word_at_word bits container_words).
      pose proof (word_top m 64 (word_at bits m) ltac:(lia) ltac:(lia)) as Htop2.
      rewrite Z.land_ones, Z.mod_small in Htop2 by (done || apply (word_at_word bits container_words)). specialize (Htop2 eq_refl).
      destruct (Z.eqb_spec (word_at bits m) 0) as [?|_]; [done|]. cbv zeta in Htop2. destruct Htop2 as (Hr & Hbit & Hg2).
      set (z := word_at bits m) in *.
      assert (forall y, 64 * m + (63 - Math.countl_zero 64 z) < y < o -> word_bit bits y = false) as Hgap.
      { intros y Hy. destruct (Z.lt_ge_cases y (64 * m + 64)); [apply Hg2; lia|].
        destruct (Z.lt_ge_cases y (64 * (o / 64))); [apply Hg; lia|apply Htop; lia]. }
      assert (0 <= 64 * m + (63 - Math.countl_zero 64 z) < o) as Hlt by word_lia.
      destruct a.
      * destruct (Hs1 eq_refl) as (p & Hat). apply (Hdone m z (Streams.seek (file_pointer (si_in it)) s')); [lia|done|done|done|].
        destruct H6 as (b & Hwords & Hat0). pose proof Hat0 as (_ & _ & -> & _). exists b. split; [done|].
        eapply seek_at; [done|]. pose proof (words_inside b Hwords). destruct Hwords. lia.
      * rewrite Hs2 by done. apply (Hdone m z); [lia|done..].
      * rewrite Hs2 by done. apply (Hdone m z); [lia|done..].
  - cbv zeta in Htop. destruct Htop as (Hr & Hbit & Hg). cbn [mbind option_bind].
    destruct (Hdone (o / 64) x (si_in it)) as (it' & E & Hrest); [lia|word_lia|done|done|done|].
    exists it'. split; [|done]. rewrite <-E. by destruct it.
Qed.

(** *** The header of a block *)

(** How the iterator may read the offsets of a sparse block. *)
Definition access_ok : Prop :=
  kBitSetThreshold < ch_count c \/ stream_safe c \/ forall n p s, at_ f p s -> (p + n <= length f)%nat -> is_Some (read_buffer n s).1.

(** The members that the header sets. *)
Record header it : Prop := {
  hd_block : si_block it = base;
  hd_index : si_index it = rk;
  hd_max : si_index_max it = rk + ch_count c;
  hd_track : si_track_prev_doc it = T;
  hd_prev : T = true -> si_prev_doc it = prev_field /\ si_prev it = pv;
}.

Lemma read_block_fields_spec it p track r : at_ f p (si_in it) -> si_index_max it = rk -> si_prev_doc_written it = track ->
  si_track_prev_doc it = T -> (T = true -> track = true) -> is_word 32 pv ->
  drop p f = chunk_bytes track pv c ++ r -> exists it' p',
  read_block_fields it = Some (ch_count c, it') /\ at_ f p' (si_in it') /\ drop p' f = chunk_body c ++ r /\
  (p' + length (chunk_body c) = p + length (chunk_bytes track pv c))%nat /\
  header it' /\ same_file it it' /\ si_doc it' = si_doc it /\ si_value_index it' = si_value_index it.
Proof using All.
  intros Hat Hmx Hw HT HTt Hpv Hd. pose proof (to_signed_range 32 pv ltac:(lia)) as Hpvs.
  assert (wrap 32 (to_signed 32 pv) = pv) as Epv by (rewrite wrap_to_signed by lia; by apply wrap_small).
  unfold chunk_bytes in Hd. pose proof (ch_id_range _ Hc) as Hid. pose proof (ch_some _ Hc) as Hsome.
  assert (ch_count c <= 65536) as Hcount by (apply count_bound). rewrite <-!app_assoc in Hd.
  destruct (read_short_at f p (si_in it) (to_signed 16 (ch_id c)) _ Hat (to_signed_range 16 _ ltac:(lia))
    ltac:(rewrite wrap_to_signed, wrap_small by (unfold is_word; lia); exact Hd)) as (s1 & E1 & Hat1).
  assert (drop (p + 2) f = Fixed.write16 (ch_count c - 1) ++ (if track then Fixed.write32 pv else []) ++ chunk_body c ++ r) as Hd1.
  { rewrite <-drop_drop, Hd. by rewrite (drop_app_length' (Fixed.write16 _)). }
  destruct (read_short_at f (p + 2) s1 (to_signed 16 (ch_count c - 1)) _ Hat1 (to_signed_range 16 _ ltac:(lia))
    ltac:(rewrite wrap_to_signed, wrap_small by (unfold is_word; lia); exact Hd1)) as (s2 & E2 & Hat2).
  assert (drop (p + 4) f = (if track then Fixed.write32 pv else []) ++ chunk_body c ++ r) as Hd2.
  { replace (p + 4)%nat with (p + 2 + 2)%nat by lia. rewrite <-drop_drop, Hd1. by rewrite (drop_app_length' (Fixed.write16 _)). }
  replace (p + 2 + 2)%nat with (p + 4)%nat in Hat2 by lia.
  set (p' := (p + (if track then 8 else 4))%nat).
  assert (exists s3, (if track then '(v, in_) ← read_int s2; Some (wrap 32 v, in_) else Some (si_prev it, s2)) =
      Some (if track then pv else si_prev it, s3) /\ at_ f p' s3 /\ drop p' f = chunk_body c ++ r) as (s3 & E3 & Hat3 & Hd3).
  { unfold p'. destruct track; [|rewrite app_nil_l in Hd2; exists s2; split; [reflexivity|]; split; [exact Hat2|exact Hd2]].
    destruct (read_int_at f (p + 4) s2 (to_signed 32 pv) _ Hat2 Hpvs ltac:(rewrite Epv; exact Hd2)) as (s3 & -> & Hat3).
    cbn [mbind option_bind]. exists s3. rewrite Epv. split; [done|].
    replace (p + 8)%nat with (p + 4 + 4)%nat by lia. split; [done|]. rewrite <-drop_drop, Hd2. by rewrite (drop_app_length' (Fixed.write32 _)). }
  unfold read_block_fields. rewrite E1. cbn [mbind option_bind]. rewrite E2. cbn [mbind option_bind]. rewrite Hw, E3. cbn [mbind option_bind].
  rewrite !wrap_to_signed by lia. rewrite (wrap_small 16 (ch_id c)), (wrap_small 16 (ch_count c - 1)) by (unfold is_word; lia).
  assert (ch_id c <<[32] 16 = base) as -> by (rewrite Z.shiftl_mul_pow2, wrap_small by (unfold is_word; blia); blia).
  assert (1 +[32] (ch_count c - 1) = ch_count c) as -> by (rewrite wrap_small by (unfold is_word; lia); lia).
  rewrite Hmx, (wrap_small 32 (rk + ch_count c)) by (unfold is_word; lia).
  eexists _, p'. split; [reflexivity|]. cbn [si_track_prev_doc si_set_in si_set_prev si_set_block]. rewrite HT.
  split; [by destruct T|]. split; [done|]. split.
  { unfold p', chunk_bytes. rewrite !length_app, !write16_length. destruct track; cbn [length]; [|lia]. change (length (Fixed.write32 pv)) with 4%nat. lia. }
  split; [|destruct T; (split; [repeat split|split; reflexivity])].
  split; [destruct T; reflexivity..|destruct T; exact HT|]. intros ET. rewrite ET. split; [reflexivity|].
  cbn [si_prev si_set_func si_set_in si_set_prev]. by rewrite HTt.
Qed.

(** Members that a container's choice keeps. *)
Definition container_set ctx func (cont : nat) s it : sparse_bitmap_iterator S :=
  si_set_func (si_prev_doc it) func (si_set_in s (si_set_ctx ctx (si_set_cont cont it))).

Lemma container_set_block ctx func s it : header it -> in_container None (container_set ctx func q s it) ->
  in_block None (container_set ctx func q s it) /\ same_file it (container_set ctx func q s it) /\
  si_doc (container_set ctx func q s it) = si_doc it /\ si_value_index (container_set ctx func q s it) = si_value_index it.
Proof using Type.
  intros [H1 H2 H3 H4 H5] Hin. split; [|split; [repeat split|split; reflexivity]].
  split; [exact H1|exact H2|exact H3|reflexivity|exact H4|exact I|exact Hin].
Qed.

Lemma header_prev ctx func s it : header it -> plain_prev None (container_set ctx func q s it).
Proof using Type. intros H HT. exact (hd_prev _ H HT). Qed.

Lemma bytes_ahead p bs r : drop p f = bs ++ r -> (p <= length f)%nat -> (p + length bs <= length f)%nat.
Proof using Type. intros Hd Hp. apply (f_equal length) in Hd. rewrite length_drop, length_app in Hd. lia. Qed.

Lemma read_container_sparse it p r : at_ f p (si_in it) -> drop p f = (offsets bits ≫= Fixed.write16) ++ r ->
  (p + length (offsets bits ≫= Fixed.write16))%nat = q -> header it -> access_ok -> ch_count c <= kBitSetThreshold ->
  let '(u8data, s) := read_buffer (Z.to_nat (2 * ch_count c)) (si_in it) in
  in_container None (container_set (ctx_sparse (default [] u8data) rk) (seek_sparse T (get_access u8data)) q s it).
Proof using All.
  intros Hat Hd Hq Hh Hacc Hct. pose proof (offsets_length bits) as Hlen. change (bits_count _ _) with (ch_count c) in Hlen.
  assert (length (offsets bits ≫= Fixed.write16) = 2 * length (offsets bits))%nat as Hl by (by rewrite (length_bind_const _ 2)).
  replace (Z.to_nat (2 * ch_count c)) with (length (offsets bits ≫= Fixed.write16)) by lia.
  pose proof (bytes_ahead p _ r Hd ltac:(apply Hat)) as Hle.
  pose proof (read_buffer_at_ f p (length (offsets bits ≫= Fixed.write16)) (si_in it) Hat Hle) as Hb.
  destruct Hacc as [?|[Hsafe|Hdirect]]; [lia| |].
  - destruct (read_buffer _ _) as [[b|] s].
    + destruct Hb as [-> Hat']. apply (in_sparse _ _ AT_DIRECT (offsets bits) (take (length (offsets bits ≫= Fixed.write16)) (drop p f))); [done|reflexivity|cbn; by rewrite Z.add_0_r| |done|by apply header_prev].
      cbn [src]. rewrite Hd, take_app_length. split; [reflexivity|]. rewrite <-Hq. exact Hat'.
    + apply (in_sparse _ _ AT_STREAM (offsets bits) []); [done|reflexivity|cbn; by rewrite Z.add_0_r| |done|by apply header_prev].
      exists p, r. subst s. split; [exact Hat|]. split; [lia|done].
  - specialize (Hdirect _ _ _ Hat Hle). revert Hb Hdirect. generalize (read_buffer (length (offsets bits ≫= Fixed.write16)) (si_in it)).
    intros [[b|] s] Hb Hdirect; [|destruct Hdirect; discriminate].
    destruct Hb as [-> Hat']. apply (in_sparse _ _ AT_DIRECT (offsets bits) (take (length (offsets bits ≫= Fixed.write16)) (drop p f))); [done|reflexivity|cbn; by rewrite Z.add_0_r| |done|by apply header_prev].
    cbn [src]. rewrite Hd, take_app_length. split; [reflexivity|]. rewrite <-Hq. exact Hat'.
Qed.

Lemma read_container_dense it b r idx : r <> [] -> at_ f b (si_in it) -> drop b f = (bits ≫= Fixed.write64) ++ r ->
  (b + 8 * Z.to_nat kNumBlocks)%nat = q -> header it ->
  (idx = None \/ idx = Some (block_index_bytes (Z.to_nat kDenseBlockIndexNumBlocks) 0 bits)) ->
  let '(u8data, s) := read_buffer (Z.to_nat (kBlockSize / 8)) (si_in it) in
  in_container None (container_set (ctx_dense (mkDense (default [] u8data) 0 rk (-1) 0 idx)) (seek_dense T (get_access u8data)) q s it).
Proof using All.
  intros Hr Hat Hd Hq Hh Hidx. pose proof (words_bytes_length bits container_words) as Hl.
  assert (Z.to_nat (kBlockSize / 8) = length (bits ≫= Fixed.write64)) as -> by (rewrite Hl, kNumBlocks_eq; word_lia).
  pose proof (bytes_ahead b _ r Hd ltac:(apply Hat)) as Hle.
  pose proof (read_buffer_at_ f b (length (bits ≫= Fixed.write64)) (si_in it) Hat Hle) as Hb.
  destruct (read_buffer _ _) as [u s].
  apply (in_dense _ _ (get_access u) T (mkDense (default [] u) 0 rk (-1) 0 idx)); [done|done| |split; [done|by apply header_prev]].
  split; cbn [dn_word_idx dn_popcnt dn_word dn_index dn_data dn_u64data]; [blia|done| |lia|done|].
  - change (words_count bits (-1 + 1)) with 0. lia.
  - destruct u as [u|]; cbn [get_access dense_pos default].
    + destruct Hb as [-> Hat']. rewrite Hd, take_app_length. split; [reflexivity|]. split; [reflexivity|]. cbn [si_in container_set si_set_func si_set_in].
      by rewrite <-Hq, <-Hl.
    + exists b. change (8 * Z.to_nat (-1 + 1))%nat with 0%nat. rewrite Nat.add_0_r. split; [split; [by exists r; split|done]|]. by rewrite <-Hb in Hat.
Qed.

Lemma read_container_spec it p r : at_ f p (si_in it) -> drop p f = chunk_body c ++ r -> (p + length (chunk_body c))%nat = q ->
  header it -> access_ok -> (kBitSetThreshold < ch_count c -> r <> []) ->
  in_block None (read_container (ch_count c) it) /\ same_file it (read_container (ch_count c) it) /\
  si_doc (read_container (ch_count c) it) = si_doc it /\ si_value_index (read_container (ch_count c) it) = si_value_index it.
Proof using All.
  intros Hat Hd Hq Hh Hacc Hr. pose proof Hat as (_ & _ & Hfp & _).
  unfold chunk_body in Hd, Hq. unfold read_container. rewrite (hd_track _ Hh). cbv zeta.
  destruct (Z.eqb_spec (ch_count c) kBlockSize) as [Efull|Efull].
  - assert ((kBitSetThreshold <? ch_count c) = true) as E by (rewrite Efull; reflexivity). rewrite E in Hq. cbn [length] in Hq.
    match goal with |- context [in_block None ?x] => assert (x = container_set (ctx_all (base -[32] rk)) (seek_range T) q (si_in it) it) as -> end.
    { rewrite <-(hd_block _ Hh), <-(hd_index _ Hh). replace q with (file_pointer (si_in it)) by lia. by destruct it. }
    apply container_set_block; [done|]. apply in_range; [done|reflexivity|reflexivity| |by apply header_prev].
    replace q with p by lia. exact Hat.
  - destruct (Z.leb_spec (ch_count c) kBitSetThreshold) as [Ht|Ht].
    + assert ((kBitSetThreshold <? ch_count c) = false) as E by lia. rewrite E in Hd, Hq.
      pose proof (read_container_sparse it p r Hat Hd Hq Hh Hacc Ht) as Hin.
      assert (q = file_pointer (si_in it) + Z.to_nat (2 * ch_count c))%nat as Eq.
      { rewrite Hfp, <-Hq, (length_bind_const _ 2) by done. pose proof (offsets_length bits) as Hlen.
        change (bits_count _ _) with (ch_count c) in Hlen. lia. }
      rewrite <-Eq. cbn [si_in si_set_cont si_set_block]. destruct (read_buffer _ (si_in it)) as [u s].
      match goal with |- context [in_block None ?x] =>
        assert (x = container_set (ctx_sparse (default [] u) rk) (seek_sparse T (get_access u)) q s it) as -> end.
      { rewrite <-(hd_index _ Hh). reflexivity. }
      by apply container_set_block.
    + assert ((kBitSetThreshold <? ch_count c) = true) as E by lia. rewrite E in Hd, Hq.
      assert (Z.to_nat kDenseIndexBlockSizeInBytes = length (block_index_bytes (Z.to_nat kDenseBlockIndexNumBlocks) 0 bits)) as Esize.
      { rewrite length_block_index_bytes. unfold kDenseIndexBlockSizeInBytes. pose proof kDenseBlockIndexNumBlocks_eq. lia. }
      set (ib := block_index_bytes (Z.to_nat kDenseBlockIndexNumBlocks) 0 bits) in *. rewrite Esize. clear Esize.
      rewrite <-app_assoc in Hd. rewrite length_app in Hq.
      pose proof (bytes_ahead p ib _ Hd ltac:(apply Hat)) as Hle.
      assert (exists idx s2, (if si_use_block_index it then
          match read_persistent (length ib) (si_in it) with
          | (Some b, in_) => (Some b, in_)
          | (None, in_) => let '(b, in_) := read_bytes (length ib) in_ in (Some b, in_)
          end
        else (None, Streams.seek (file_pointer (si_in it) + length ib)%nat (si_in it))) = (idx, s2) /\
        at_ f (p + length ib) s2 /\ (idx = None \/ idx = Some ib)) as (idx & s2 & Ei & Hat2 & Hidx).
      { destruct (si_use_block_index it).
        - pose proof (read_persistent_at f p (length ib) (si_in it) Hat Hle) as Hb.
          destruct (read_persistent (length ib) (si_in it)) as [[b|] s2].
          + destruct Hb as [-> Hat2]. exists (Some (take (length ib) (drop p f))), s2. split; [done|]. split; [done|]. right. by rewrite Hd, take_app_length.
          + subst s2. destruct (read_bytes_at_ f p (length ib) (si_in it) Hat Hle) as [H1 H2].
            destruct (read_bytes (length ib) (si_in it)) as [b s2]. cbn [fst snd] in H1, H2. exists (Some b), s2. split; [done|]. split; [done|].
            right. by rewrite H1, Hd, take_app_length.
        - eexists None, _. split; [done|]. split; [|by left]. rewrite Hfp. apply (seek_at f p); [done|].
          apply (f_equal length) in Hd. rewrite !length_app, length_drop in Hd. specialize (Hr Ht). destruct r; [exfalso; apply Hr; reflexivity|]. cbn [length] in Hd. lia. }
      rewrite Ei. cbn [si_in si_set_cont si_set_block].
      assert (header (si_set_in s2 it)) as Hh2 by (destruct Hh; by split).
      assert (drop (p + length ib) f = (bits ≫= Fixed.write64) ++ r) as Hd2 by (by rewrite <-drop_drop, Hd, drop_app_length).
      pose proof (words_bytes_length bits container_words) as Hl.
      pose proof (read_container_dense (si_set_in s2 it) (p + length ib) r idx (Hr Ht) Hat2 Hd2 ltac:(lia) Hh2 Hidx) as Hin.
      cbn [si_in si_set_in] in Hin.
      assert (q = file_pointer s2 + Z.to_nat (kBlockSize / 8))%nat as Eq.
      { pose proof Hat2 as (_ & _ & -> & _). rewrite <-Hq, Hl, kNumBlocks_eq. clear. word_lia. }
      rewrite <-Eq. destruct (read_buffer _ s2) as [u s].
      match goal with |- context [in_block None ?x] =>
        assert (x = container_set (ctx_dense (mkDense (default [] u) 0 rk (-1) 0 idx)) (seek_dense T (get_access u)) q s it) as -> end.
      { rewrite <-(hd_index _ Hh). reflexivity. }
      exact (container_set_block _ _ _ it Hh Hin).
Qed.

(** [read_block_header] at the start of a block *)
Lemma read_block_header_spec it p track r : at_ f p (si_in it) -> si_index_max it = rk -> si_prev_doc_written it = track ->
  si_track_prev_doc it = T -> (T = true -> track = true) -> is_word 32 pv -> access_ok ->
  (kBitSetThreshold < ch_count c -> r <> []) -> drop p f = chunk_bytes track pv c ++ r -> (p + length (chunk_bytes track pv c))%nat = q -> exists it',
  read_block_header it = Some it' /\ in_block None it' /\ same_file it it' /\ si_doc it' = si_doc it /\ si_value_index it' = si_value_index it.
Proof using All.
  intros Hat Hmx Hw HT HTt Hpv Hacc Hr Hd Hq.
  destruct (read_block_fields_spec it p track r Hat Hmx Hw HT HTt Hpv Hd) as (it1 & p' & E & Hat' & Hd' & Hq' & Hh & Hsf & E1 & E2).
  destruct (read_container_spec it1 p' r Hat' Hd' ltac:(lia) Hh Hacc Hr) as (Hin & Hsf2 & E3 & E4).
  exists (read_container (ch_count c) it1). unfold read_block_header. rewrite E. split; [done|]. split; [done|].
  split; [by etrans|]. split; congruence.
Qed.

End container.
