(* ===== verification/SparseBitmapIterator.v ===== *)
(** * What the sparse bitmap iterator reads

    [sparse_bitmap_iterator] over the layout of [SparseBitmapWriter]: it is a lawful [DocIterator] over
    the documents of the bitmap, whatever the containers of its blocks and however the input gives access
    to them, with the rank of each document as its value index and the document before it; and the round
    trip with the writer. *)
From S2P Require Import Prelude BitUtils BytesIO Streams FileStreams StoreUtils DocIterators Bitset SparseBitmap SparseBitmapWriter SparseBitmapContainers.

#[local] Ltac blia := pose proof kNumBlocks_eq; pose proof bitmap_blocks_pos; pose proof kBlockSize_eq; lia.

(** ** Bitmaps in a file *)

(** The index of blocks leads every target far enough to the first block that may hold it. *)
Definition index_for (track : bool) (cs : list chunk) (blocks : list block) : Prop := forall j, kBlockScanThreshold <= j < 2 ^ 16 ->
  exists b, blocks !! Z.to_nat (Z.min j (Z.of_nat (length blocks) - 1)) = Some b /\ entry_ok track cs j b.

(** A bitmap of the documents [docs] stands at [p0] of the file [f], with the index [blocks]. *)
Record stored (f : list Z) (p0 : nat) (track : bool) (docs : list Z) (cs : list chunk) (blocks : list block) : Prop := {
  st_chunks : chunks_of docs cs;
  st_sorted : StronglySorted Z.lt docs;
  st_docs : Forall (fun d => doc_limits.min <= d < doc_limits.eof) docs;
  st_file : exists rest, drop p0 f = layout track 0 (cs ++ [sentinel]) ++ rest;
  st_index : blocks = [] \/ index_for track (cs ++ [sentinel]) blocks;
}.

Lemma sorted_length docs a b : StronglySorted Z.lt docs -> Forall (fun d => a <= d < b) docs -> Z.of_nat (length docs) <= Z.max 0 (b - a).
Proof.
  intros Hs. revert a. induction Hs as [|d docs Hs IH Hlt]; intros a Hd; [cbn; lia|]. apply Forall_cons in Hd as [Hd Hr].
  specialize (IH (d + 1)). cbn [length]. enough (Z.of_nat (length docs) <= Z.max 0 (b - (d + 1))) by lia. apply IH.
  rewrite Forall_forall in *. intros x Hx. pose proof (Hlt x Hx). pose proof (Hr x Hx). lia.
Qed.

(** A block takes up to 8 bytes of header and 2^13 of bits with 2^8 of their index: a bitmap is below 2^30 bytes. *)
Lemma chunk_bytes_bound track prev c : chunk_ok c -> Z.of_nat (length (chunk_bytes track prev c)) <= 8456.
Proof.
  intros [_ _ Hl _]. unfold chunk_bytes, chunk_body. rewrite !length_app, !write16_length.
  assert (length (if track then Fixed.write32 prev else []) <= 4)%nat as Ht by (destruct track; cbn; lia).
  pose proof (offsets_length (ch_bits c)) as Ho. change (bits_count _ _) with (ch_count c) in Ho.
  match goal with |- Z.of_nat (_ + (_ + (_ + length ?x))) <= _ => assert (Z.of_nat (length x) <= 8448); [|lia] end.
  destruct (Z.ltb_spec kBitSetThreshold (ch_count c)) as [Hc|Hc].
  - destruct (ch_count c =? kBlockSize); [cbn; lia|]. rewrite length_app, length_block_index_bytes, (length_bind_const _ 8) by done.
    rewrite Hl, kDenseBlockIndexNumBlocks_eq. pose proof kNumBlocks_eq as Hn. rewrite kBlockSize_eq in Hn. lia.
  - rewrite (length_bind_const _ 2) by done. unfold kBitSetThreshold in Hc. lia.
Qed.

Lemma layout_bound track prev cs : Forall chunk_ok cs -> Z.of_nat (length (layout track prev cs)) <= 8456 * Z.of_nat (length cs).
Proof.
  intros Hok. revert prev. induction Hok as [|c cs Hc _ IH]; intros prev; [cbn; lia|]. cbn [layout length]. rewrite length_app.
  pose proof (chunk_bytes_bound track prev c Hc). specialize (IH (ch_last c)). lia.
Qed.

Lemma chunk_docs_length c : Z.of_nat (length (chunk_docs c)) = ch_count c.
Proof. unfold chunk_docs. rewrite length_map. apply offsets_length. Qed.

Lemma docs_length cs : Z.of_nat (length (cs ≫= chunk_docs)) = chunks_count cs.
Proof.
  induction cs as [|c cs IH]; [done|]. rewrite bind_cons, length_app, Nat2Z.inj_add, IH, chunk_docs_length. done.
Qed.

Lemma chunks_count_nonneg cs : 0 <= chunks_count cs.
Proof. rewrite <-docs_length. lia. Qed.

Lemma chunk_docs_range c d : chunk_ok c -> d ∈ chunk_docs c -> kBlockSize * ch_id c <= d < kBlockSize * ch_id c + kBlockSize.
Proof.
  intros Hc [H _]%chunk_docs_elem. rewrite kBlockSize_eq in *. rewrite <-H. word_lia.
Qed.

Lemma ordered_length cs : ordered cs -> Forall (fun c => 0 <= ch_id c) cs -> Z.of_nat (length cs) <= 1 + last_id cs.
Proof.
  induction cs as [|c cs IH] using rev_ind; intros Ho Hr; [done|]. rewrite last_id_snoc, length_app. cbn [length].
  apply Forall_app in Hr as [Hr Hc]. apply Forall_cons in Hc as [Hc _].
  pose proof (StronglySorted_app_1_l _ _ _ Ho) as Hs. specialize (IH Hs Hr).
  enough (last_id cs < ch_id c) by lia. apply last_id_lt; [done|]. apply Forall_forall. intros x Hx.
  apply (StronglySorted_app_1_elem_of _ _ _ _ _ Ho Hx). by apply list_elem_of_singleton.
Qed.

Lemma sentinel_docs : chunk_docs sentinel = [doc_limits.eof].
Proof.
  unfold chunk_docs. rewrite sentinel_offsets. change (ch_id sentinel) with 65535. cbn [map]. rewrite kBlockSize_eq, eof_val.
  apply (f_equal (fun x => [x])). lia.
Qed.

#[local] Obligation Tactic := idtac.

Lemma bitmap_size track docs cs : chunks_of docs cs -> Z.of_nat (length (layout track 0 (cs ++ [sentinel]))) < 2 ^ 30.
Proof.
  intros [Hok Ho _]. assert (Forall (fun c => 0 <= ch_id c < 2 ^ 16) cs) as Hid by (eapply Forall_impl; [exact Hok|]; intros c Hc; apply (ch_id_range _ Hc)).
  assert (Z.of_nat (length cs) <= 1 + last_id cs) by (apply ordered_length; [done|]; eapply Forall_impl; [exact Hid|]; cbn; lia).
  assert (last_id cs < 2 ^ 16) by (apply last_id_lt; [lia|]; eapply Forall_impl; [exact Hid|]; cbn; lia).
  pose proof (layout_bound track 0 (cs ++ [sentinel])) as Hl. rewrite length_app in Hl. cbn [length] in Hl.
  specialize (Hl ltac:(apply Forall_app_2; [done|]; constructor; [apply sentinel_ok|constructor])). lia.
Qed.

Section bitmap.
Context {S : Type} {D : DataInput S} {DS : DataInputSpec S} {II : IndexInput S} {IS : IndexInputSpec S}
  {FI : FileInput S} {FS : FileInputSpec S}.
Context (f : list Z) (p0 : nat) (track T : bool) (docs : list Z) (cs : list chunk) (blocks : list block).
Context (Hst : stored f p0 track docs cs blocks) (HT : T = true -> track = true) (Hp0 : (p0 <= length f)%nat).
Implicit Types (it : sparse_bitmap_iterator S) (l r : list chunk) (c : chunk).

Abbreviation all := (cs ++ [sentinel]).

(** Where the block after [l] starts, and the document before it. *)
Definition start l : nat := (p0 + length (layout track 0 l))%nat.
Definition doc_before l : Z := default 0 (ch_last <$> last l).

Lemma all_ok : Forall chunk_ok all.
Proof using All. apply Forall_app_2; [apply Hst|]. constructor; [apply sentinel_ok|constructor]. Qed.

Lemma all_count : chunks_count all < 2 ^ 32.
Proof using All.
  rewrite chunks_count_app, <-docs_length. change (chunks_count [sentinel]) with (ch_count sentinel + 0). rewrite sentinel_count.
  pose proof (sorted_length docs _ _ (st_sorted _ _ _ _ _ _ Hst) (st_docs _ _ _ _ _ _ Hst)) as H.
  rewrite (chunks_docs _ _ (st_chunks _ _ _ _ _ _ Hst)) in H at 1. unfold doc_limits.min in H. rewrite eof_val in H. lia.
Qed.

Lemma ch_last_word c : chunk_ok c -> is_word 32 (ch_last c).
Proof using All.
  intros Hc. pose proof (ch_id_range _ Hc). unfold ch_last, is_word. destruct (last (offsets (ch_bits c))) as [o|] eqn:E; cbn [default]; [|blia].
  apply last_Some_elem_of, offsets_elem in E as [Ho _]. unfold default, id. blia.
Qed.

Record split_facts l c r : Prop := {
  sf_ok : chunk_ok c;
  sf_rank : 0 <= chunks_count l;
  sf_max : chunks_count l + ch_count c < 2 ^ 32;
  sf_prev : is_word 32 (doc_before l);
  sf_file : exists rest, drop (start l) f = chunk_bytes track (doc_before l) c ++ rest /\ (kBitSetThreshold < ch_count c -> rest <> []);
  sf_next : start (l ++ [c]) = (start l + length (chunk_bytes track (doc_before l) c))%nat;
  sf_end : (start (l ++ [c]) <= length f)%nat;
}.

Lemma length_chunk_bytes prev c : (4 <= length (chunk_bytes track prev c))%nat.
Proof. unfold chunk_bytes. rewrite !length_app, !write16_length. lia. Qed.

Lemma split_all l c r : all = l ++ c :: r -> split_facts l c r.
Proof using All.
  intros E. pose proof all_ok as Hok. rewrite E in Hok. apply Forall_app in Hok as [Hl Hcr]. apply Forall_cons in Hcr as [Hc Hr].
  pose proof all_count as Hcount. rewrite E, chunks_count_app in Hcount. change (chunks_count (c :: r)) with (ch_count c + chunks_count r) in Hcount.
  pose proof (chunks_count_nonneg l). pose proof (chunks_count_nonneg r).
  destruct (st_file _ _ _ _ _ _ Hst) as [rest Hd]. rewrite E, layout_app in Hd. cbn [layout] in Hd. rewrite <-!app_assoc in Hd.
  assert (drop (start l) f = chunk_bytes track (doc_before l) c ++ layout track (ch_last c) r ++ rest) as Hd'.
  { unfold start. by rewrite <-drop_drop, Hd, drop_app_length. }
  assert (start (l ++ [c]) = (start l + length (chunk_bytes track (doc_before l) c))%nat) as Hn.
  { unfold start. rewrite layout_app, length_app. cbn [layout]. rewrite app_nil_r. unfold doc_before. lia. }
  split; [done|lia|lia| | |done|].
  - unfold doc_before. destruct (last l) as [c'|] eqn:El; cbn; [|unfold is_word; lia]. apply ch_last_word.
    rewrite Forall_forall in Hl. by apply Hl, last_Some_elem_of.
  - eexists. split; [exact Hd'|]. intros Ht Hnil. destruct r as [|c' r].
    + apply app_inj_tail in E as [_ <-]. rewrite sentinel_count in Ht. discriminate Ht.
    + cbn [layout] in Hnil. apply (f_equal length) in Hnil. rewrite !length_app in Hnil.
      pose proof (length_chunk_bytes (ch_last c) c'). cbn [length] in Hnil. lia.
  - rewrite Hn. apply (f_equal length) in Hd'. rewrite length_drop, length_app in Hd'.
    destruct (decide (start l <= length f)%nat); [lia|]. exfalso. apply (f_equal length) in Hd. rewrite length_drop, length_app in Hd. unfold start in *. lia.
Qed.

(** ** The iterator in a bitmap *)

Definition static it : Prop :=
  si_origin it = p0 /\ si_blocks it = blocks /\ si_prev_doc_written it = track /\ si_track_prev_doc it = T.

Lemma static_same it it' : static it -> same_file it it' -> static it'.
Proof using All. unfold static, same_file. intros (? & ? & ? & ?) (? & ? & ? & ? & ?). repeat split; congruence. Qed.

(** In the block [c] of the bitmap, after its offset [p]. *)
Record at_block l c r (p : option Z) it : Prop := {
  ab_all : all = l ++ c :: r;
  ab_static : static it;
  ab_block : in_block f c (chunks_count l) (start (l ++ [c])) (doc_before l) T p it;
}.

Lemma header_at l c r it : all = l ++ c :: r -> access_ok (S := S) f c -> static it -> si_index_max it = chunks_count l -> at_ f (start l) (si_in it) ->
  exists it', read_block_header it = Some it' /\ at_block l c r None it' /\ si_doc it' = si_doc it /\ si_value_index it' = si_value_index it.
Proof using All.
  intros E Ha Hs Hm Hat. destruct (split_all l c r E) as [Hc Hr Hmax Hpv [rest [Hd Hrest]] Hn He]. pose proof Hs as (_ & _ & Hw & Htr).
  destruct (read_block_header_spec f c (chunks_count l) (start (l ++ [c])) (doc_before l) T Hc Hr Hmax it (start l) track rest)
    as (it' & E' & Hin & Hsf & E1 & E2); try done.
  exists it'. split; [done|]. split; [|done]. split; [done|by eapply static_same|done].
Qed.

Lemma ids_sentinel l c r tb : all = l ++ c :: r -> ch_id c < tb -> tb < 2 ^ 16 -> exists c' r', r = c' :: r'.
Proof using All.
  intros E Hc Htb. destruct r as [|c' r']; [|eauto]. apply app_inj_tail in E as [_ <-]. cbn in Hc. lia.
Qed.

Lemma all_length : Z.of_nat (length all) <= 65537.
Proof using All.
  destruct (st_chunks _ _ _ _ _ _ Hst) as [Hok Ho _]. rewrite length_app. cbn [length].
  assert (Forall (fun c => 0 <= ch_id c < 2 ^ 16) cs) as Hid by (eapply Forall_impl; [exact Hok|]; intros c Hc; apply (ch_id_range _ Hc)).
  assert (Z.of_nat (length cs) <= 1 + last_id cs) by (apply ordered_length; [done|]; eapply Forall_impl; [exact Hid|]; cbn; lia).
  assert (last_id cs < 2 ^ 16) by (apply last_id_lt; [lia|]; eapply Forall_impl; [exact Hid|]; cbn; lia). lia.
Qed.

Lemma at_block_at l c r p it : at_block l c r p it -> exists q, at_ f q (si_in it).
Proof using All.
  intros [_ _ Hin]. destruct (ib_container _ _ _ _ _ _ _ _ Hin) as [_ _ _ H _|a os u8 _ _ _ H _ _|a t d _ _ H _]; [eauto| |].
  - destruct a; cbn [src] in H; [destruct H as (q2 & ? & H & _); eauto|destruct H; eauto..].
  - pose proof (da_pos _ _ _ _ _ _ _ _ H) as H'. destruct a; cbn [dense_pos] in H'; [destruct H' as (b & _ & H'); eauto|destruct H' as (_ & _ & H'); eauto..].
Qed.

Lemma at_block_move l c r p p' it it' : at_block l c r p it -> same_block it it' ->
  in_block f c (chunks_count l) (start (l ++ [c])) (doc_before l) T p' it' -> at_block l c r p' it'.
Proof using All. intros [H1 H2 H3] [Hsf _] Hin. split; [done|by eapply static_same|done]. Qed.

Lemma call_fresh seek l c r it : at_block l c r None it -> exists o it',
  call_seek_func seek (si_block it) it = Some (true, it') /\ at_block l c r (Some o) it' /\ forall x, 0 <= x < o -> word_bit (ch_bits c) x = false.
Proof using All.
  intros Hab. destruct (split_all _ _ _ (ab_all _ _ _ _ _ Hab)) as [Hc Hr Hmax _ _ _ He]. pose proof (ab_block _ _ _ _ _ Hab) as Hin.
  pose proof (ib_block _ _ _ _ _ _ _ _ Hin) as Hb. pose proof (ch_some _ Hc) as Hsome.
  destruct (call_seek_spec f c (chunks_count l) (start (l ++ [c])) (doc_before l) T Hc Hr Hmax None it (si_block it) seek) as
    (found & it' & E & Hsb & Hpost); [split; [done|]; split; [blia|done]|done|].
  rewrite Hb in Hpost. replace ((kBlockSize * ch_id c) mod kBlockSize) with 0 in Hpost by (rewrite kBlockSize_eq; word_lia). destruct found.
  - destruct Hpost as (o & (_ & _ & _ & Hg) & Hin'). exists o, it'. split; [done|]. split; [by eapply at_block_move|done].
  - exfalso. destruct Hpost as [Hno _]. assert (ch_count c = 0); [|lia]. apply ch_count_nil. apply offsets_nil, bits_count_zero.
    intros i Hi. apply Hno. blia.
Qed.

Lemma sentinel_doc l c o it : at_block l c [] (Some o) it -> si_doc it = doc_limits.eof.
Proof using All.
  intros [E _ Hin]. apply app_inj_tail in E as [_ <-]. destruct (ib_doc _ _ _ _ _ _ _ _ Hin) as (Ho & Hb & -> & _).
  assert (o ∈ offsets (ch_bits sentinel)) as Hx by (by apply offsets_elem). rewrite sentinel_offsets in Hx.
  apply list_elem_of_singleton in Hx as ->. rewrite kBlockSize_eq. reflexivity.
Qed.

(** Before the first call. *)
Definition initial it : Prop :=
  static it /\ si_doc it = doc_limits.invalid /\ si_seek_func it = initial_seek /\ si_block it = 0 /\ si_index_max it = 0 /\
  si_cont_begin it = p0 /\ at_ f p0 (si_in it).

(** A seek to 1 in the first block stops at the first offset. *)
Lemma seek_first c r it : all = c :: r -> at_block [] c r None it -> si_doc it = doc_limits.invalid -> exists o it',
  seek_with (fun _ _ => None) 1 it = Some (si_doc it', it') /\ at_block [] c r (Some o) it' /\
  forall x, 0 <= x < o -> word_bit (ch_bits c) x = true -> kBlockSize * ch_id c + x < 1.
Proof using All.
  intros E Hab Hd. pose proof (ab_block _ _ _ _ _ Hab) as Hin. destruct (split_all [] c r E) as [Hc Hr Hmax _ _ _ He].
  pose proof (ch_id_range _ Hc) as Hid. unfold seek_with. rewrite Hd, (target_block 1) by (unfold is_word; lia). cbv zeta.
  change (1 <=? doc_limits.invalid) with false. cbv iota. replace (kBlockSize * (1 / kBlockSize)) with 0 by (rewrite kBlockSize_eq; reflexivity).
  pose proof (ib_block _ _ _ _ _ _ _ _ Hin) as Hb. destruct (Z.ltb_spec (si_block it) 0) as [?|_]; [blia|]. cbn [mbind option_bind].
  destruct (Z.eqb_spec (si_block it) 0) as [E0|E0].
  - assert (ch_id c = 0) as Eid by blia.
    destruct (call_seek_spec f c (chunks_count []) (start ([] ++ [c])) (doc_before []) T Hc Hr Hmax None it 1 (fun _ _ => None)) as
      (found & it' & -> & Hsb & Hpost); [split; [done|]; split; [blia|done]|done|].
    cbn [mbind option_bind]. replace (1 mod kBlockSize) with 1 in Hpost by (rewrite kBlockSize_eq; reflexivity). destruct found.
    + destruct Hpost as (o & (_ & _ & _ & Hg) & Hin'). exists o, it'. split; [done|]. split; [by eapply at_block_move|].
      intros x Hx Hbit. rewrite Eid. destruct (Z.lt_ge_cases x 1); [lia|]. rewrite Hg in Hbit by lia. done.
    + exfalso. destruct Hpost as [Hno _]. pose proof (ch_some _ Hc) as Hsome.
      destruct (offsets (ch_bits c)) as [|o l] eqn:Eo; [apply ch_count_nil in Eo; lia|].
      assert (o ∈ offsets (ch_bits c)) as Ho by (rewrite Eo; left). pose proof Ho as [Hr1 Hb1]%offsets_elem.
      destruct (Z.lt_ge_cases o 1) as [Hlt|Hge]; [|rewrite Hno in Hb1 by lia; done].
      destruct r as [|c' r _] using rev_ind.
      * change (c :: []) with ([] ++ [c]) in E. apply app_inj_tail in E as [_ <-]. discriminate Eid.
      * rewrite app_comm_cons in E. apply app_inj_tail in E as [E _].
        assert (kBlockSize * ch_id c + o ∈ docs) as Hdoc.
        { rewrite (chunks_docs _ _ (st_chunks _ _ _ _ _ _ Hst)), E. apply list_elem_of_bind. exists c. split; [|left]. apply list_elem_of_fmap. exists o. split; [reflexivity|exact Ho]. }
        pose proof (st_docs _ _ _ _ _ _ Hst) as Hds. rewrite Forall_forall in Hds. apply Hds in Hdoc. rewrite Eid in Hdoc. unfold doc_limits.min in Hdoc. lia.
  - cbn [mbind option_bind]. destruct (call_fresh (fun _ _ => None) [] c r it Hab) as (o & it' & -> & Hab' & Hg). cbn [mbind option_bind]. exists o, it'.
    split; [done|]. split; [done|]. intros x Hx Hbit. by rewrite Hg in Hbit.
Qed.

(** The first document: only the first block is looked at. *)
Lemma bitmap_first c r it : all = c :: r -> access_ok (S := S) f c -> initial it -> exists it',
  bitmap_next it = Some (negb (doc_limits.is_eof (si_doc it')), it') /\ si_doc it' = default doc_limits.eof (head docs).
Proof using All.
  intros E Ha (Hs & Hd & Hf & Hb & Hm & Hc & Hat). assert (start [] = p0) as Hstart by apply Nat.add_0_r.
  unfold bitmap_next. rewrite Hd. change (doc_limits.invalid +[32] 1) with 1. unfold bitmap_seek, seek_with at 1.
  rewrite Hd, (target_block 1) by (unfold is_word; lia). cbv zeta. change (1 <=? doc_limits.invalid) with false. cbv iota.
  replace (kBlockSize * (1 / kBlockSize)) with 0 by (rewrite kBlockSize_eq; reflexivity). rewrite Hb. change (0 <? 0) with false. change (0 =? 0) with true.
  cbn [mbind option_bind]. rewrite Hb. change (0 =? 0) with true. cbv iota. unfold call_seek_func. rewrite Hf.
  destruct (header_at [] c r it E Ha Hs Hm) as (it1 & -> & Hab & Ed & _); [by rewrite Hstart|]. cbn [mbind option_bind]. rewrite Hd in Ed.
  destruct (seek_first c r it1 E Hab Ed) as (o & it2 & -> & Hab2 & Hg). cbn [mbind option_bind].
  exists it2. split; [done|]. destruct r as [|c' r _] using rev_ind.
  - rewrite (sentinel_doc [] c o it2 Hab2). change (c :: []) with ([] ++ [c]) in E. apply app_inj_tail in E as [E _].
    rewrite (chunks_docs _ _ (st_chunks _ _ _ _ _ _ Hst)), E. done.
  - rewrite app_comm_cons in E. apply app_inj_tail in E as [E _].
    destruct (split_all _ _ _ (ab_all _ _ _ _ _ Hab2)) as [Hok _ _ _ _ _ _]. destruct (ib_doc _ _ _ _ _ _ _ _ (ab_block _ _ _ _ _ Hab2)) as (Ho & Hbit & Edoc & _).
    pose proof (chunks_docs _ _ (st_chunks _ _ _ _ _ _ Hst)) as Edocs. rewrite E in Edocs. rewrite bind_cons in Edocs.
    assert (si_doc it2 ∈ chunk_docs c) as Hin by (rewrite Edoc; apply list_elem_of_fmap; exists o; split; [done|by apply offsets_elem]).
    destruct (chunk_docs c) as [|d0 l0] eqn:Ec; [by apply elem_of_nil in Hin|].
    assert (d0 ∈ chunk_docs c) as Hd0 by (rewrite Ec; left). rewrite Edocs. cbn [app head default].
    assert (d0 ∈ docs) as Hdd by (rewrite Edocs; left). pose proof (st_docs _ _ _ _ _ _ Hst) as Hds. rewrite Forall_forall in Hds. apply Hds in Hdd. unfold doc_limits.min in Hdd.
    apply list_elem_of_fmap in Hd0 as (x & Ex & Hx). apply offsets_elem in Hx as [Hx1 Hx2].
    pose proof (st_sorted _ _ _ _ _ _ Hst) as Hsort. rewrite Edocs in Hsort. inversion Hsort as [|? ? _ Hlt]; subst.
    apply elem_of_cons in Hin as [Hin|Hin]; [done|]. rewrite Forall_forall in Hlt. specialize (Hlt (si_doc it2) ltac:(apply elem_of_app; by left)).
    rewrite Edoc in Hlt. destruct (Z.lt_ge_cases x o) as [Hxo|Hxo]; [|lia]. specialize (Hg x ltac:(lia) Hx2). lia.
Qed.

(** *** With access to all blocks *)

Context (Hacc : Forall (access_ok (S := S) f) cs).

Lemma access_all l c r : all = l ++ c :: r -> access_ok (S := S) f c.
Proof using All.
  intros E. destruct r as [|c' r].
  - apply app_inj_tail in E as [_ <-]. right. left. right. split; [apply sentinel_offsets|reflexivity].
  - rewrite Forall_forall in Hacc. apply Hacc. destruct (c' :: r) as [|c1 r1 _] eqn:Er using rev_ind; [done|].
    rewrite app_comm_cons, app_assoc in E. apply app_inj_tail in E as [-> _]. apply elem_of_app. right. by left.
Qed.

(** The walk over the blocks, and the jump by the index. *)
Lemma seek_to_block_spec l c r it tb p : all = l ++ c :: r -> static it -> si_index_max it = chunks_count l -> si_cont_begin it = start l ->
  at_ f p (si_in it) -> 0 <= si_block it -> Forall (fun c' => ch_id c' < tb) l -> 0 <= tb < 2 ^ 16 -> exists l' c' r' it',
  seek_to_block (kBlockSize * tb) it = Some it' /\ at_block l' c' r' None it' /\ Forall (fun c' => ch_id c' < tb) l' /\ tb <= ch_id c' /\
  si_doc it' = si_doc it /\ si_value_index it' = si_value_index it.
Proof using All.
  intros E Hs Hm Hcont Hat Hb Hl Htb. unfold seek_to_block. cbv zeta.
  replace (kBlockSize * tb / kBlockSize) with tb by (rewrite kBlockSize_eq; word_lia). pose proof Hs as (Ho & Hbl & _ & _).
  destruct (_ && _) eqn:Eidx.
  - apply andb_true_iff in Eidx as [Hne Hfar]. rewrite Hbl in *.
    assert (0 <= si_block it / kBlockSize) by (apply Z.div_pos; blia).
    destruct (st_index _ _ _ _ _ _ Hst) as [->|Hidx]; [done|].
    destruct (Hidx tb) as (b & -> & l' & c' & r' & E' & Hl' & Hc' & ->); [lia|]. cbn [mbind option_bind blk_index blk_offset].
    destruct (split_all l' c' r' E') as [Hok' Hr' Hmax' _ _ Hn' He']. pose proof (length_chunk_bytes (doc_before l') c'). pose proof (ch_some _ Hok').
    rewrite (wrap_small 32 (chunks_count l')) by (unfold is_word; lia).
    assert (length (layout track 0 l') <= length (layout track 0 all))%nat as Hlen by (rewrite E', (layout_app track 0 l' (c' :: r')), length_app; lia).
    pose proof (bitmap_size track docs cs (st_chunks _ _ _ _ _ _ Hst)). rewrite (wrap_small 32 (Z.of_nat _)), Nat2Z.id by (unfold is_word; lia).
    cbn [si_origin si_in si_set_block]. rewrite Ho.
    match goal with |- context [read_block_header ?x] => destruct (header_at l' c' r' x) as (it' & E1 & Hab & E2 & E3) end;
      [done|by eapply access_all|done|done|apply (seek_at f p); [done|unfold start in *; lia]|].
    exists l', c', r', it'. done.
  - clear Eidx. destruct (iterate_ghost
      (fun n x => exists l c r q, n = Z.of_nat (length (c :: r)) /\ all = l ++ c :: r /\ static x /\ si_index_max x = chunks_count l /\
         si_cont_begin x = start l /\ at_ f q (si_in x) /\ Forall (fun c' => ch_id c' < tb) l /\ si_doc x = si_doc it /\ si_value_index x = si_value_index it)
      (fun it' => exists l' c' r', at_block l' c' r' None it' /\ Forall (fun c' => ch_id c' < tb) l' /\ tb <= ch_id c' /\
         si_doc it' = si_doc it /\ si_value_index it' = si_value_index it)
      (seek_to_block_round (kBlockSize * tb))) with (k := 17%nat) (n := Z.of_nat (length (c :: r))) (s := it) as (it' & E1 & l' & c' & r' & H).
    + intros n x (l1 & c1 & r1 & q1 & -> & E1 & Hs1 & Hm1 & Hc1 & Hat1 & Hl1 & Hd1 & Hv1). split; [lia|].
      destruct (split_all l1 c1 r1 E1) as [_ _ _ _ _ Hn1 He1]. pose proof (length_chunk_bytes (doc_before l1) c1).
      unfold seek_to_block_round. rewrite Hc1.
      destruct (header_at l1 c1 r1 (si_set_in (Streams.seek (start l1) (si_in x)) x)) as (x' & E2 & Hab & E3 & E4);
        [done|by eapply access_all|done|done|apply (seek_at f q1); [done|lia]|].
      rewrite E2. cbn [mbind option_bind]. pose proof (ab_block _ _ _ _ _ Hab) as Hin. rewrite (ib_block _ _ _ _ _ _ _ _ Hin).
      destruct (Z.ltb_spec (kBlockSize * ch_id c1) (kBlockSize * tb)) as [Hlt|Hge]; eexists; (split; [reflexivity|]).
      * assert (ch_id c1 < tb) as Hid by blia. destruct (ids_sentinel l1 c1 r1 tb E1 Hid) as (c2 & r2 & ->); [lia|].
        exists (Z.of_nat (length (c2 :: r2))). split; [cbn [length]; lia|]. exists (l1 ++ [c1]), c2, r2.
        destruct (at_block_at _ _ _ _ _ Hab) as [q2 Hat2].
        exists q2. split; [done|]. split; [by rewrite <-app_assoc|]. split; [apply (ab_static _ _ _ _ _ Hab)|].
        split; [rewrite (ib_max _ _ _ _ _ _ _ _ Hin), chunks_count_app; cbn; lia|]. split; [apply (ib_cont _ _ _ _ _ _ _ _ Hin)|].
        split; [done|]. split; [apply Forall_app_2; [done|]; by repeat constructor|]. split; [by rewrite E3|by rewrite E4].
      * exists l1, c1, r1. split; [done|]. split; [done|]. split; [blia|]. split; [by rewrite E3|by rewrite E4].
    + exists l, c, r, p. done.
    + pose proof all_length as Hlen. rewrite E, length_app in Hlen. change (2 ^ Z.of_nat 17) with 131072. lia.
    + exists l', c', r', it'. split; [done|]. exact H.
Qed.

(** Identifiers of the blocks before and after one. *)
Lemma ids_before l c r : all = l ++ c :: r -> Forall (fun c' => ch_id c' <= ch_id c) l /\
  match r with c2 :: _ :: _ => ch_id c < ch_id c2 | _ => True end.
Proof using All.
  intros E. destruct (st_chunks _ _ _ _ _ _ Hst) as [Hok Ho _]. destruct r as [|c2 r _] using rev_ind.
  - apply app_inj_tail in E as [<- <-]. split; [|done]. eapply Forall_impl; [exact Hok|]. intros c' Hc'. pose proof (ch_id_range _ Hc'). cbn. lia.
  - rewrite app_comm_cons, app_assoc in E. apply app_inj_tail in E as [-> <-]. split.
    + apply Forall_forall. intros x Hx. apply Z.lt_le_incl. apply (StronglySorted_app_1_elem_of _ _ _ _ _ Ho Hx). by left.
    + destruct r as [|c3 r]; [done|]. cbn. destruct r; cbn; apply StronglySorted_app_1_r in Ho; inversion Ho as [|? ? _ Hlt]; by apply Forall_cons in Hlt as [? _].
Qed.

(** Documents before a position. *)
Definition found_from t l c r o it : Prop :=
  at_block l c r (Some o) it /\ t <= si_doc it /\ Forall (fun d => d < t) (l ≫= chunk_docs) /\
  forall x, 0 <= x < o -> word_bit (ch_bits c) x = true -> kBlockSize * ch_id c + x < t.

Lemma seek_with_spec seek l c r p it t : at_block l c r p it -> si_doc it < t <= doc_limits.eof -> 0 <= t ->
  Forall (fun d => d < t) (l ≫= chunk_docs) -> exists l' c' r' o it',
  seek_with seek t it = Some (si_doc it', it') /\ found_from t l' c' r' o it'.
Proof using All.
  intros Hab Ht H0 Hl. assert (is_word 32 t) as Hword by (unfold is_word; rewrite eof_val in Ht; lia).
  unfold seek_with. destruct (Z.leb_spec t (si_doc it)); [lia|]. rewrite (target_block t Hword). set (tb := t / kBlockSize) in *.
  assert (0 <= tb < 2 ^ 16) as Htb by (unfold tb; rewrite kBlockSize_eq; rewrite eof_val in Ht; word_lia).
  assert (kBlockSize * tb <= t < kBlockSize * tb + kBlockSize) as Htr by (unfold tb; rewrite kBlockSize_eq; word_lia).
  cbv zeta. pose proof (ab_block _ _ _ _ _ Hab) as Hin0. pose proof (ib_block _ _ _ _ _ _ _ _ Hin0) as Hb0.
  assert (exists l1 c1 r1 p1 it1, (if si_block it <? kBlockSize * tb then seek_to_block (kBlockSize * tb) it else Some it) = Some it1 /\
    at_block l1 c1 r1 p1 it1 /\ si_doc it1 = si_doc it /\ Forall (fun d => d < t) (l1 ≫= chunk_docs) /\ tb <= ch_id c1 /\
    (tb < ch_id c1 -> p1 = None)) as (l1 & c1 & r1 & p1 & it1 & -> & Hab1 & Ed1 & Hl1 & Hid1 & Hp1).
  { destruct (Z.ltb_spec (si_block it) (kBlockSize * tb)) as [Hlt|Hge].
    - assert (ch_id c < tb) as Hid by blia. pose proof (ab_all _ _ _ _ _ Hab) as E. destruct (ids_before l c r E) as [Hids _].
      destruct (ids_sentinel l c r tb E Hid ltac:(lia)) as (c2 & r2 & ->). destruct (at_block_at _ _ _ _ _ Hab) as [q Hat].
      destruct (split_all _ _ _ E) as [Hc _ _ _ _ _ _]. pose proof (ch_id_range _ Hc).
      destruct (seek_to_block_spec (l ++ [c]) c2 r2 it tb q) as (l' & c' & r' & it' & E' & Hab' & Hl' & Hc' & Ed' & _).
      + by rewrite <-app_assoc.
      + apply (ab_static _ _ _ _ _ Hab).
      + rewrite (ib_max _ _ _ _ _ _ _ _ Hin0), chunks_count_app. cbn. lia.
      + apply (ib_cont _ _ _ _ _ _ _ _ Hin0).
      + done.
      + blia.
      + apply Forall_app_2; [|by repeat constructor]. eapply Forall_impl; [exact Hids|]. cbn. lia.
      + done.
      + exists l', c', r', None, it'. split; [done|]. split; [done|]. split; [done|]. split; [|done].
        apply Forall_forall. intros d Hd. apply list_elem_of_bind in Hd as (x & Hd & Hx). rewrite Forall_forall in Hl'. pose proof (Hl' x Hx).
        pose proof all_ok as Hok. rewrite (ab_all _ _ _ _ _ Hab') in Hok. apply Forall_app in Hok as [Hok _]. rewrite Forall_forall in Hok.
        pose proof (chunk_docs_range x d (Hok x Hx) Hd). blia.
    - exists l, c, r, p, it. split; [done|]. split; [done|]. split; [done|]. split; [done|]. split; [blia|].
      intros Hlt. destruct p as [o|]; [|done]. destruct (ib_doc _ _ _ _ _ _ _ _ Hin0) as (Ho & _ & Hd & _). blia. }
  cbn [mbind option_bind]. clear Hab Hin0 Hb0 Hl l c r p. pose proof (ab_block _ _ _ _ _ Hab1) as Hin1.
  rewrite (ib_block _ _ _ _ _ _ _ _ Hin1).
  assert (forall l c r it2, at_block l c r None it2 -> Forall (fun d => d < t) (l ≫= chunk_docs) ->
    (tb < ch_id c \/ r = []) -> exists l' c' r' o it',
    ('(_, it) ← call_seek_func seek (si_block it2) it2; Some (si_doc it, it)) = Some (si_doc it', it') /\ found_from t l' c' r' o it') as Hfresh.
  { intros l c r it2 Hab Hl Hid. destruct (call_fresh seek l c r it2 Hab) as (o & it' & -> & Hab' & Hg).
    exists l, c, r, o, it'. split; [done|]. split; [done|]. split; [|split; [done|]].
    - destruct Hid as [Hid| ->]; [|rewrite (sentinel_doc l c o it' Hab'); lia].
      destruct (ib_doc _ _ _ _ _ _ _ _ (ab_block _ _ _ _ _ Hab')) as (Ho & _ & -> & _). blia.
    - intros x Hx Hbit. by rewrite Hg in Hbit. }
  destruct (Z.eqb_spec (kBlockSize * ch_id c1) (kBlockSize * tb)) as [Eb|Eb].
  - assert (ch_id c1 = tb) as Eid by blia. destruct (split_all _ _ _ (ab_all _ _ _ _ _ Hab1)) as [Hc Hr Hmax _ _ _ He].
    destruct (call_seek_spec f c1 (chunks_count l1) (start (l1 ++ [c1])) (doc_before l1) T Hc Hr Hmax p1 it1 t seek) as
      (found & it2 & -> & Hsb & Hpost); [split; [done|]; split; [rewrite Eid; lia|]|done|].
    { destruct p1 as [o|]; [|done]. destruct (ib_doc _ _ _ _ _ _ _ _ Hin1) as (_ & _ & Hd & _). lia. }
    assert (t = kBlockSize * ch_id c1 + t mod kBlockSize /\ 0 <= t mod kBlockSize < kBlockSize) as [Et Hto].
    { rewrite Eid. unfold tb. rewrite kBlockSize_eq. word_lia. }
    cbn [mbind option_bind]. destruct found.
    + destruct Hpost as (o & (Ho & Hle & Hbit & Hg) & Hin2). pose proof (ib_doc _ _ _ _ _ _ _ _ Hin2) as (_ & _ & Ed & _).
      exists l1, c1, r1, o, it2. split; [done|]. split; [by eapply at_block_move|]. split; [lia|]. split; [done|].
      intros x Hx Hb. destruct (Z.lt_ge_cases x (t mod kBlockSize)); [lia|]. rewrite Hg in Hb by lia. done.
    + destruct Hpost as [Hno Hat]. pose proof (ab_all _ _ _ _ _ Hab1) as E.
      assert (exists c2 r2, r1 = c2 :: r2) as (c2 & r2 & ->).
      { destruct r1 as [|c2 r2]; [|eauto]. exfalso. apply app_inj_tail in E as [_ <-].
        assert (65535 ∈ offsets (ch_bits sentinel)) as Hx by (rewrite sentinel_offsets; by left). apply offsets_elem in Hx as [_ Hx].
        rewrite Hno in Hx by blia. done. }
      destruct Hsb as [Hsf (_ & _ & Hm & _)].
      destruct (header_at (l1 ++ [c1]) c2 r2 it2) as (it3 & -> & Hab3 & _).
      * by rewrite <-app_assoc.
      * apply (access_all (l1 ++ [c1]) c2 r2). by rewrite <-app_assoc.
      * eapply static_same; [apply (ab_static _ _ _ _ _ Hab1)|done].
      * rewrite Hm, (ib_max _ _ _ _ _ _ _ _ Hin1), chunks_count_app. cbn. lia.
      * done.
      * cbn [mbind option_bind]. apply (Hfresh (l1 ++ [c1]) c2 r2); [done| |].
        -- rewrite bind_app. cbn [mbind list_bind]. rewrite app_nil_r. apply Forall_app_2; [done|]. apply Forall_forall. intros d Hd.
           pose proof Hd as Hd'. apply chunk_docs_elem in Hd as [Hd1 Hd2]. pose proof (chunk_docs_range c1 d Hc Hd').
           destruct (Z.lt_ge_cases d t); [done|]. rewrite Hno in Hd2; [done|]. rewrite kBlockSize_eq in *. word_lia.
        -- destruct (ids_before l1 c1 (c2 :: r2) E) as [_ Hnext]. destruct r2; [by right|left; lia].
  - assert (tb < ch_id c1) as Hlt by (rewrite kBlockSize_eq in Eb; lia). rewrite (Hp1 Hlt) in Hab1. cbn [mbind option_bind].
    apply (Hfresh l1 c1 r1); [done|done|by left].
Qed.

(** ** The cursor *)

(** On a document, or at the end. *)
Definition standing l c r o it : Prop := at_block l c r (Some o) it /\ Forall (fun d => d < si_doc it) (l ≫= chunk_docs).

Definition state it : Prop := initial it \/ exists l c r o, standing l c r o it.

Lemma docs_below l tb t : Forall chunk_ok l -> Forall (fun c => ch_id c < tb) l -> kBlockSize * tb <= t -> Forall (fun d => d < t) (l ≫= chunk_docs).
Proof using All.
  intros Hok Hl Ht. apply Forall_forall. intros d Hd. apply list_elem_of_bind in Hd as (x & Hd & Hx). rewrite Forall_forall in *.
  pose proof (Hl x Hx). pose proof (chunk_docs_range x d (Hok x Hx) Hd). blia.
Qed.

Lemma found_standing t l c r o it : found_from t l c r o it -> standing l c r o it.
Proof using All. intros (H1 & H2 & H3 & _). split; [done|]. eapply Forall_impl; [exact H3|]. cbn. lia. Qed.

Lemma seek_with_block seek t it it1 : si_doc it < t -> si_doc it1 = si_doc it -> si_block it < Z.land t 0xFFFF0000 ->
  seek_to_block (Z.land t 0xFFFF0000) it = Some it1 -> Z.land t 0xFFFF0000 <= si_block it1 -> seek_with seek t it = seek_with seek t it1.
Proof using All.
  intros Ht Ed Hlt E Hge. unfold seek_with. rewrite Ed, E. cbv zeta.
  destruct (Z.leb_spec t (si_doc it)); [lia|]. destruct (Z.ltb_spec (si_block it) (Z.land t 0xFFFF0000)); [|lia].
  destruct (Z.ltb_spec (si_block it1) (Z.land t 0xFFFF0000)); [lia|]. done.
Qed.

Lemma bitmap_seek_initial it t : initial it -> doc_limits.min <= t <= doc_limits.eof -> exists l c r o it',
  bitmap_seek t it = Some (si_doc it', it') /\ found_from t l c r o it'.
Proof using All.
  intros (Hs & Hd & Hf & Hb & Hm & Hc & Hat) Ht. unfold doc_limits.min in Ht.
  assert (is_word 32 t) as Hword by (unfold is_word; rewrite eof_val in Ht; lia).
  assert (si_doc it < t) as Hlt by (rewrite Hd; unfold doc_limits.invalid; lia).
  assert (exists c r, all = c :: r) as (c & r & E) by (destruct cs; eauto).
  assert (start [] = p0) as Hstart by apply Nat.add_0_r.
  pose proof (target_block t Hword) as Etb. set (tb := t / kBlockSize) in *.
  assert (0 <= tb < 2 ^ 16) as Htb by (unfold tb; rewrite kBlockSize_eq; rewrite eof_val in Ht; word_lia).
  assert (kBlockSize * tb <= t) as Htr by (unfold tb; rewrite kBlockSize_eq; word_lia). unfold bitmap_seek.
  destruct (Z.lt_ge_cases 0 tb) as [Hpos|Hzero].
  - destruct (seek_to_block_spec [] c r it tb p0 E Hs Hm) as (l1 & c1 & r1 & it1 & E1 & Hab & Hl1 & Hid & Ed & _);
      [by rewrite Hstart|done|lia|constructor|done|].
    rewrite (seek_with_block _ t it it1); [|done|done|rewrite Etb, Hb; blia|by rewrite Etb|].
    + apply (seek_with_spec _ l1 c1 r1 None); [done|lia|lia|]. apply (docs_below l1 tb); [|done|done].
      pose proof all_ok as Hok. rewrite (ab_all _ _ _ _ _ Hab) in Hok. by apply Forall_app in Hok as [? _].
    + rewrite Etb, (ib_block _ _ _ _ _ _ _ _ (ab_block _ _ _ _ _ Hab)). blia.
  - assert (tb = 0) as E0 by lia. unfold seek_with at 1. rewrite Etb, E0, Z.mul_0_r, Hb. cbv zeta.
    destruct (Z.leb_spec t (si_doc it)); [lia|]. change (0 <? 0) with false. cbn [mbind option_bind]. change (0 =? 0) with true.
    cbn [mbind option_bind]. unfold call_seek_func. rewrite Hf.
    destruct (header_at [] c r it E (access_all [] c r E) Hs Hm) as (it1 & E1 & Hab & Ed & _); [by rewrite Hstart|]. rewrite E1. cbn [mbind option_bind].
    destruct (seek_with_spec (fun _ _ => None) [] c r None it1 t Hab) as (l' & c' & r' & o & it2 & E2 & Hfound); [lia|lia|constructor|].
    rewrite E2. cbn [mbind option_bind]. exists l', c', r', o, it2. by rewrite Hb.
Qed.

Lemma bitmap_seek_spec it t : state it -> doc_limits.min <= t <= doc_limits.eof -> si_doc it < t -> exists l c r o it',
  bitmap_seek t it = Some (si_doc it', it') /\ found_from t l c r o it'.
Proof using All.
  intros [Hi|(l & c & r & o & Hab & Hl)] Ht Hlt; [by apply bitmap_seek_initial|].
  apply (seek_with_spec _ l c r (Some o)); [done|lia|unfold doc_limits.min in *; lia|].
  eapply Forall_impl; [exact Hl|]. cbn. lia.
Qed.

Definition is_doc (d : Z) : bool := bool_decide (d ∈ docs).

Lemma is_doc_spec d : is_doc d = true <-> d ∈ docs.
Proof using All. apply bool_decide_eq_true. Qed.

Lemma is_doc_set : doc_set is_doc.
Proof using All. intros d Hd%is_doc_spec. pose proof (st_docs _ _ _ _ _ _ Hst) as H. rewrite Forall_forall in H. by apply H. Qed.

Lemma docs_eq : docs = cs ≫= chunk_docs.
Proof using All. apply (chunks_docs _ _ (st_chunks _ _ _ _ _ _ Hst)). Qed.

(** The documents around the place of the iterator. *)
Lemma block_docs l c r o it : at_block l c r (Some o) it -> exists m,
  docs ++ [doc_limits.eof] = (l ≫= chunk_docs) ++ map (fun x => kBlockSize * ch_id c + x) (below (word_bit (ch_bits c)) o) ++ si_doc it :: m /\
  (forall d, d ∈ m -> si_doc it < d).
Proof using All.
  intros [E _ Hin]. destruct (ib_doc _ _ _ _ _ _ _ _ Hin) as (Ho & Hb & Ed & _). rewrite Ed.
  destruct (below_split (word_bit (ch_bits c)) kBlockSize o Ho Hb) as (m1 & Eoff & Hm1). fold (offsets (ch_bits c)) in Eoff.
  exists (map (fun x => kBlockSize * ch_id c + x) m1 ++ (r ≫= chunk_docs)). split.
  - assert (docs ++ [doc_limits.eof] = all ≫= chunk_docs) as ->.
    { rewrite bind_app, <-docs_eq. change ([sentinel] ≫= chunk_docs) with (chunk_docs sentinel ++ []). by rewrite sentinel_docs. }
    rewrite E, bind_app, bind_cons. apply (f_equal (app (l ≫= chunk_docs))). unfold chunk_docs at 1. rewrite Eoff, map_app, <-app_assoc. cbn [map]. done.
  - intros d [Hd|Hd]%elem_of_app.
    + apply list_elem_of_fmap in Hd as (x & -> & Hx). apply Hm1 in Hx. lia.
    + apply list_elem_of_bind in Hd as (c' & Hd & Hc'). pose proof all_ok as Hok. rewrite E in Hok. apply Forall_app in Hok as [_ Hok].
      apply Forall_cons in Hok as [Hc Hr]. rewrite Forall_forall in Hr. pose proof (chunk_docs_range c' d (Hr c' Hc') Hd) as Hdr.
      destruct r as [|cl r0 _] using rev_ind; [by apply elem_of_nil in Hc'|].
      destruct (st_chunks _ _ _ _ _ _ Hst) as [_ Hord _]. rewrite app_comm_cons, app_assoc in E. apply app_inj_tail in E as [E <-].
      apply elem_of_app in Hc' as [Hc'|Hc'%list_elem_of_singleton].
      * assert (ch_id c < ch_id c'); [|blia]. rewrite E in Hord. apply StronglySorted_app_1_r in Hord. inversion Hord as [|? ? _ Hlt].
        rewrite Forall_forall in Hlt. by apply Hlt.
      * subst c'. pose proof Hd as Hd'. rewrite sentinel_docs in Hd'. apply list_elem_of_singleton in Hd'.
        assert (kBlockSize * ch_id c + o ∈ docs) as Hdoc.
        { rewrite docs_eq, E, bind_app, bind_cons. apply elem_of_app. right. apply elem_of_app. left. unfold chunk_docs.
          rewrite Eoff, map_app. apply elem_of_app. right. by left. }
        pose proof (st_docs _ _ _ _ _ _ Hst) as Hds. rewrite Forall_forall in Hds. apply Hds in Hdoc. rewrite Hd'. lia.
Qed.

Lemma found_first t l c r o it : found_from t l c r o it -> first_from is_doc t (si_doc it).
Proof using All.
  intros (Hab & Ht & Hl & Hg). destruct (block_docs l c r o it Hab) as (m & E & Hm).
  assert (forall d, d ∈ docs \/ d = doc_limits.eof <-> d ∈ docs ++ [doc_limits.eof]) as Helem.
  { intros d. by rewrite elem_of_app, list_elem_of_singleton. }
  split.
  - destruct (proj2 (Helem (si_doc it))) as [H|H]; [rewrite E; rewrite !elem_of_app; right; right; by left| |by left].
    right. split; [done|]. by apply is_doc_spec.
  - intros d Hd. destruct (is_doc d) eqn:Ed; [|done]. exfalso. apply is_doc_spec in Ed.
    assert (d ∈ docs ++ [doc_limits.eof]) as Hin by (apply Helem; by left). rewrite E in Hin.
    apply elem_of_app in Hin as [Hin|[Hin|Hin]%elem_of_app].
    + rewrite Forall_forall in Hl. apply Hl in Hin. lia.
    + apply list_elem_of_fmap in Hin as (x & -> & [Hx Hb]%below_elem). pose proof (Hg x Hx Hb). lia.
    + apply elem_of_cons in Hin as [->|Hin]; [lia|]. apply Hm in Hin. lia.
Qed.

(** The rank of the current document, and the one before it. *)
Lemma standing_rank l c r o it : standing l c r o it -> exists i, si_value_index it = Z.of_nat i /\
  (docs ++ [doc_limits.eof]) !! i = Some (si_doc it) /\ (doc_limits.invalid :: docs) !! i = Some (prev_of c (doc_before l) (Some o)).
Proof using All.
  intros [Hab _]. destruct (block_docs l c r o it Hab) as (m & E & _). set (before := (l ≫= chunk_docs) ++ map (fun x => kBlockSize * ch_id c + x) (below (word_bit (ch_bits c)) o)) in *.
  assert (docs ++ [doc_limits.eof] = before ++ si_doc it :: m) as E' by (unfold before; by rewrite <-app_assoc).
  destruct (ib_doc _ _ _ _ _ _ _ _ (ab_block _ _ _ _ _ Hab)) as (_ & _ & _ & Hv).
  exists (length before). split; [|split].
  - unfold before. rewrite Hv, length_app, length_map, Nat2Z.inj_add, docs_length, below_length. done.
  - rewrite E'. by apply list_lookup_middle.
  - assert (prev_of c (doc_before l) (Some o) = default doc_limits.invalid (last before)) as ->.
    { unfold before. cbn [prev_of]. destruct (below (word_bit (ch_bits c)) o) as [|x xs _] using rev_ind.
      - cbn [last map]. rewrite app_nil_r. unfold doc_before. destruct l as [|c' l' _] using rev_ind; [done|]. rewrite last_snoc, bind_app.
        cbn [fmap option_fmap option_map default mbind list_bind]. rewrite app_nil_r. symmetry. apply chunk_docs_last.
        pose proof all_ok as Hok. rewrite (ab_all _ _ _ _ _ Hab) in Hok. apply Forall_app in Hok as [Hok _].
        apply Forall_app in Hok as [_ Hok]. apply Forall_cons in Hok as [Hc' _]. pose proof (ch_some _ Hc').
        rewrite <-ch_count_nil. lia.
      - rewrite last_snoc, map_app, app_assoc. cbn [map]. by rewrite last_snoc. }
    destruct before as [|x xs _] using rev_ind; [done|]. rewrite last_snoc, length_app, Nat.add_1_r. cbn [lookup list_lookup default].
    destruct m as [|y m _] using rev_ind.
    + apply app_inj_tail in E' as [-> _]. by apply list_lookup_middle.
    + rewrite app_comm_cons, app_assoc in E'. apply app_inj_tail in E' as [-> _]. rewrite <-app_assoc. by apply list_lookup_middle.
Qed.

(** What [prev_doc] returns, and the state it leaves. *)
Lemma standing_prev l c r o it : standing l c r o it -> T = true -> exists it',
  prev_doc it = Some (prev_of c (doc_before l) (Some o), it') /\ standing l c r o it' /\ si_doc it' = si_doc it /\
  si_value_index it' = si_value_index it.
Proof using All.
  intros [Hab Hl] HT'. destruct (split_all _ _ _ (ab_all _ _ _ _ _ Hab)) as [Hc Hr Hmax _ _ _ He].
  destruct (prev_doc_spec f c (chunks_count l) (start (l ++ [c])) (doc_before l) T Hc Hr Hmax o it (ab_block _ _ _ _ _ Hab) HT' He)
    as (it' & E & Hin & Hsb & Ed & Ev).
  exists it'. split; [done|]. split; [|done]. split; [by eapply at_block_move|]. by rewrite Ed.
Qed.

Lemma state_position it : state it -> position is_doc (si_doc it).
Proof using All.
  intros [(_ & Hd & _)|(l & c & r & o & Hst')]; [by left|]. right.
  destruct (standing_rank _ _ _ _ _ Hst') as (i & _ & H & _). apply list_elem_of_lookup_2, elem_of_app in H as [H|H%list_elem_of_singleton]; [right|by left].
  by apply is_doc_spec.
Qed.

Lemma state_seek it t : state it -> doc_limits.min <= t <= doc_limits.eof -> si_doc it < t -> exists it',
  bitmap_seek t it = Some (si_doc it', it') /\ state it' /\ first_from is_doc t (si_doc it').
Proof using All.
  intros Hs Ht Hlt. destruct (bitmap_seek_spec it t Hs Ht Hlt) as (l & c & r & o & it' & E & Hf). exists it'. split; [done|].
  split; [right; exists l, c, r, o; by eapply found_standing|by eapply found_first].
Qed.

Lemma seek_stays it t : t <= si_doc it -> bitmap_seek t it = Some (si_doc it, it).
Proof using All. intros Ht. unfold bitmap_seek, seek_with at 1. by destruct (Z.leb_spec t (si_doc it)); [|lia]. Qed.

Lemma state_next it : state it -> exists it',
  bitmap_next it = Some (negb (doc_limits.is_eof (si_doc it')), it') /\ state it' /\ first_from is_doc (si_doc it + 1) (si_doc it').
Proof using All.
  intros Hs. pose proof (position_range is_doc is_doc_set _ (state_position it Hs)) as Hr. unfold bitmap_next.
  destruct (decide (si_doc it = doc_limits.eof)) as [E|Hne].
  - rewrite seek_stays by (rewrite E; rewrite eof_val; change (wrap 32 (4294967295 + 1)) with 0; lia). cbn [mbind option_bind].
    exists it. split; [done|]. split; [done|]. rewrite E. split; [by left|]. intros d Hd. lia.
  - destruct (state_seek it (si_doc it + 1) Hs) as (it' & E & H1 & H2); [doc_lia|lia|].
    rewrite wrap_small by (unfold is_word; doc_lia). rewrite E. cbn [mbind option_bind]. by exists it'.
Qed.

(** The laws of iterators, for this bitmap. *)
#[program] Definition bitmap_spec_at : DocIteratorSpec (sparse_bitmap_iterator S) := {|
  matches it P := state it /\ forall d, P d = is_doc d;
|}.
Next Obligation. intros it P [_ HP]. eapply doc_set_ext; [intros d; symmetry; apply HP|apply is_doc_set]. Qed.
Next Obligation. intros it P [Hs HP]. eapply position_ext; [intros d; symmetry; apply HP|by apply state_position]. Qed.
Next Obligation. intros it P Q [Hs HP] E. split; [done|]. intros d. by rewrite <-E. Qed.
Next Obligation.
  intros it P [Hs HP]. destruct (state_next it Hs) as (it' & E & Hs' & HF). exists it'. split; [exact E|]. split; [done|].
  eapply first_from_ext; [intros d; symmetry; apply HP|done].
Qed.
Next Obligation.
  intros it P t [Hs HP] Ht Hle. cbn [seek value bitmap_doc_iterator] in *. destruct (decide (t = si_doc it)) as [->|Hne].
  - exists it. split; [by apply seek_stays|]. split; [done|]. split; [|intros d Hd; lia].
    destruct (state_position it Hs) as [E|[E|E]]; [doc_lia|by left|right; split; [lia|by rewrite HP]].
  - destruct (state_seek it t Hs Ht ltac:(lia)) as (it' & E & Hs' & HF). exists it'. split; [exact E|]. split; [done|].
    eapply first_from_ext; [intros d; symmetry; apply HP|done].
Qed.

(** After any calls: the place of the iterator, and what is known there. *)
Lemma bitmap_run it calls vs : initial it -> cursor_trace is_doc doc_limits.invalid calls vs -> exists it',
  run calls it = Some (vs, it') /\ (vs <> [] -> exists i, si_value_index it' = Z.of_nat i /\
    (docs ++ [doc_limits.eof]) !! i = Some (si_doc it') /\
    (T = true -> exists prev it2, prev_doc it' = Some (prev, it2) /\ (doc_limits.invalid :: docs) !! i = Some prev)).
Proof using All.
  intros Hi Htr. pose proof Hi as (_ & Hd & _).
  destruct (run_refines (L := bitmap_spec_at) is_doc calls it vs) as (it' & E & Hs & _).
  - split; [by left|done].
  - cbn [value bitmap_doc_iterator]. by rewrite Hd.
  - exists it'. split; [done|]. intros Hne. destruct (last vs) as [x|] eqn:El; [|by apply last_None in El].
    pose proof (trace_last is_doc is_doc_set _ _ _ _ Htr ltac:(lia) El) as Hx. pose proof (run_last _ _ _ _ E) as Ev. rewrite El in Ev.
    change (si_doc it' = x) in Ev. destruct Hs as [(_ & Hd' & _)|(l & c & r & o & Hst')]; [doc_lia|].
    destruct (standing_rank l c r o it' Hst') as (i & H1 & H2 & H3). exists i. split; [done|]. split; [done|].
    intros HT'. destruct (standing_prev l c r o it' Hst' HT') as (it2 & E2 & _). by exists (prev_of c (doc_before l) (Some o)), it2.
Qed.

End bitmap.

(** An iterator over a bitmap of the documents [docs], with ([T]) or without the documents before. *)
Definition bitmap_state {S} {D : DataInput S} {DS : DataInputSpec S} {II : IndexInput S} {IS : IndexInputSpec S}
    {FI : FileInput S} {FS : FileInputSpec S} (docs : list Z) (T : bool) (it : sparse_bitmap_iterator S) : Prop :=
  exists f p0 track cs blocks, stored f p0 track docs cs blocks /\ (T = true -> track = true) /\ (p0 <= length f)%nat /\
    Forall (access_ok (S := S) f) cs /\ state f p0 track T cs blocks it.

Lemma bitmap_state_spec {S} {D : DataInput S} {DS : DataInputSpec S} {II : IndexInput S} {IS : IndexInputSpec S}
    {FI : FileInput S} {FS : FileInputSpec S} docs T (it : sparse_bitmap_iterator S) : bitmap_state docs T it ->
  exists L : DocIteratorSpec (sparse_bitmap_iterator S),
    (forall it', (exists P, matches (DocIteratorSpec := L) it' P) -> bitmap_state docs T it') /\
    forall P, (forall d, P d = is_doc docs d) -> matches (DocIteratorSpec := L) it P.
Proof.
  intros (f & p0 & track & cs & blocks & H1 & H2 & H3 & H4 & Hs). exists (bitmap_spec_at f p0 track T docs cs blocks H1 H2 H3 H4).
  split; [|done]. intros it' [P [Hs' _]]. by exists f, p0, track, cs, blocks.
Qed.

(** The rank of the document the iterator stands at, and the document before it *)
Lemma bitmap_state_rank {S} {D : DataInput S} {DS : DataInputSpec S} {II : IndexInput S} {IS : IndexInputSpec S}
    {FI : FileInput S} {FS : FileInputSpec S} docs T (it : sparse_bitmap_iterator S) : bitmap_state docs T it ->
  si_doc it <> doc_limits.invalid -> exists i, si_value_index it = Z.of_nat i /\ (docs ++ [doc_limits.eof]) !! i = Some (si_doc it) /\
    (T = true -> exists prev it', prev_doc it = Some (prev, it') /\ (doc_limits.invalid :: docs) !! i = Some prev).
Proof.
  intros (f & p0 & track & cs & blocks & H1 & H2 & H3 & H4 & [(_ & Hd & _)|(l & c & r & o & Hs)]) Hne; [done|].
  destruct (standing_rank f p0 track T docs cs blocks H1 H2 H3 H4 l c r o it Hs) as (i & E1 & E2 & E3). exists i. split; [done|]. split; [done|].
  intros HT. destruct (standing_prev f p0 track T docs cs blocks H1 H2 H3 H4 l c r o it Hs HT) as (it' & E & _). eauto.
Qed.

(** An iterator that was made where a bitmap stands *)
Lemma bitmap_make_state {S} {D : DataInput S} {DS : DataInputSpec S} {II : IndexInput S} {IS : IndexInputSpec S}
    {FI : FileInput S} {FS : FileInputSpec S} f p0 track docs cs blocks use_block_index T (in_ : S) :
  stored f p0 track docs cs blocks -> Forall (access_ok (S := S) f) cs -> at_ f p0 in_ ->
  bitmap_state docs (track && T) (bitmap_make in_ blocks use_block_index track T).
Proof.
  intros Hst Hacc Hat. exists f, p0, track, cs, blocks. split; [done|]. split; [by destruct track|]. split; [apply Hat|]. split; [done|].
  left. assert (file_pointer in_ = p0) as E by apply Hat. unfold bitmap_make. rewrite E. repeat split; apply Hat.
Qed.

(** The documents of the block of the first one. An input that reads its offsets from a stream needs
    them below 2^15, unless they are so many that the block is dense. *)
Definition first_block (docs : list Z) : list Z := filter (fun d => d / kBlockSize = default 0 (head docs) / kBlockSize) docs.
Definition first_block_safe (docs : list Z) : Prop :=
  kBitSetThreshold < Z.of_nat (length (first_block docs)) \/ Forall (fun d => d mod kBlockSize < 2 ^ 15) (first_block docs).

Lemma filter_every {A} (P : A -> Prop) `{forall x, Decision (P x)} l : Forall P l -> filter P l = l.
Proof. induction 1 as [|x l Hx _ IH]; [done|]. by rewrite filter_cons_True, IH. Qed.
Lemma filter_never {A} (P : A -> Prop) `{forall x, Decision (P x)} l : Forall (fun x => ~ P x) l -> filter P l = [].
Proof. induction 1 as [|x l Hx _ IH]; [done|]. by rewrite filter_cons_False. Qed.

Lemma first_block_chunk docs c cs : chunks_of docs (c :: cs) -> first_block docs = chunk_docs c.
Proof.
  intros [Hok Ho ->]. rewrite bind_cons. apply Forall_cons in Hok as [Hc Hcs]. inversion Ho as [|? ? _ Hlt]; subst.
  assert (forall d, d ∈ chunk_docs c -> d / kBlockSize = ch_id c) as Hin by (intros d [Hd _]%chunk_docs_elem; done).
  assert (default 0 (head (chunk_docs c ++ (cs ≫= chunk_docs))) / kBlockSize = ch_id c) as E.
  { pose proof (ch_some _ Hc) as Hn. destruct (chunk_docs c) as [|d l] eqn:Ed; [|apply Hin; left].
    exfalso. pose proof (chunk_docs_length c) as Hl. rewrite Ed in Hl. cbn [length] in Hl. lia. }
  unfold first_block. rewrite E, filter_app. rewrite (filter_every _ (chunk_docs c)) by (by apply Forall_forall).
  rewrite (filter_never _ (cs ≫= chunk_docs)); [by rewrite app_nil_r|]. apply Forall_forall. intros d Hd.
  apply list_elem_of_bind in Hd as (c' & [Hd _]%chunk_docs_elem & Hc'). rewrite Forall_forall in Hlt. specialize (Hlt c' Hc'). lia.
Qed.

Lemma first_block_access {S} {D : DataInput S} {DS : DataInputSpec S} {II : IndexInput S} {IS : IndexInputSpec S}
    {FI : FileInput S} {FS : FileInputSpec S} (f : list Z) docs cs c r : chunks_of docs cs -> first_block_safe docs ->
  cs ++ [sentinel] = c :: r -> access_ok (S := S) f c.
Proof.
  intros Hcs Hsafe E. destruct cs as [|c' cs]; injection E as <- Er.
  - right. left. right. split; [apply sentinel_offsets|reflexivity].
  - unfold first_block_safe in Hsafe. rewrite (first_block_chunk _ _ _ Hcs), chunk_docs_length in Hsafe.
    destruct Hsafe as [Hs|Hs]; [by left|right; left; left]. apply Forall_forall. intros o Ho.
    rewrite Forall_forall in Hs. pose proof Ho as [Hr _]%offsets_elem. specialize (Hs (kBlockSize * ch_id c' + o)).
    rewrite kBlockSize_eq in *. replace ((65536 * ch_id c' + o) mod 65536) with o in Hs by word_lia. apply Hs.
    apply list_elem_of_fmap. exists o. split; [by rewrite kBlockSize_eq|done].
Qed.

(** The first document of a bitmap *)
Lemma bitmap_make_first {S} {D : DataInput S} {DS : DataInputSpec S} {II : IndexInput S} {IS : IndexInputSpec S}
    {FI : FileInput S} {FS : FileInputSpec S} f p0 track docs cs blocks use_block_index T (in_ : S) :
  stored f p0 track docs cs blocks -> first_block_safe docs -> at_ f p0 in_ -> exists it,
  bitmap_next (bitmap_make in_ blocks use_block_index track T) = Some (negb (doc_limits.is_eof (si_doc it)), it) /\
  si_doc it = default doc_limits.eof (head docs).
Proof.
  intros Hst Hsafe Hat. destruct (cs ++ [sentinel]) as [|c r] eqn:E; [by destruct cs|].
  apply (bitmap_first f p0 track (track && T) docs cs blocks Hst ltac:(by destruct track) ltac:(apply Hat) c r); [done| |].
  - apply (first_block_access f docs cs c r); [apply Hst|done|done].
  - assert (file_pointer in_ = p0) as Ep by apply Hat. unfold bitmap_make. rewrite Ep. repeat split; apply Hat.
Qed.

#[export, program] Instance bitmap_iterator_spec {S} {D : DataInput S} {DS : DataInputSpec S} {II : IndexInput S}
    {IS : IndexInputSpec S} {FI : FileInput S} {FS : FileInputSpec S} : DocIteratorSpec (sparse_bitmap_iterator S) := {
  matches it P := exists docs T, bitmap_state docs T it /\ forall d, P d = is_doc docs d;
}.
Next Obligation.
  intros S D DS II IS FI FS it P (docs & T & Hs & HP). destruct (bitmap_state_spec _ _ _ Hs) as (L & _ & HM). by apply (matches_docs it P), HM.
Qed.
Next Obligation.
  intros S D DS II IS FI FS it P (docs & T & Hs & HP). destruct (bitmap_state_spec _ _ _ Hs) as (L & _ & HM). by apply (matches_position it P), HM.
Qed.
Next Obligation.
  intros S D DS II IS FI FS it P Q (docs & T & Hs & HP) E. exists docs, T. split; [done|]. intros d. by rewrite <-E.
Qed.
Next Obligation.
  intros S D DS II IS FI FS it P (docs & T & Hs & HP). destruct (bitmap_state_spec _ _ _ Hs) as (L & HB & HM).
  destruct (next_spec it P (HM P HP)) as (it' & E & H & HF). exists it'. split; [done|]. split; [|done]. exists docs, T. split; [eauto|done].
Qed.
Next Obligation.
  intros S D DS II IS FI FS it P t (docs & T & Hs & HP) Ht Hle. destruct (bitmap_state_spec _ _ _ Hs) as (L & HB & HM).
  destruct (seek_spec it P t (HM P HP) Ht Hle) as (it' & E & H & HF). exists it'. split; [done|]. split; [|done]. exists docs, T. split; [eauto|done].
Qed.

#[export] Instance bitmap_iterator_ready {S} {D : DataInput S} {DS : DataInputSpec S} {II : IndexInput S}
    {IS : IndexInputSpec S} {FI : FileInput S} {FS : FileInputSpec S} : SeekReady (sparse_bitmap_iterator S).
Proof.
  intros it P t HR Ht. destruct (Z.le_gt_cases t (value it)) as [Hle|Hgt].
  - exists it. split.
    + cbn. unfold bitmap_seek, seek_with at 1. cbn in Hle. by destruct (Z.leb_spec t (si_doc it)); [|lia].
    + split; [by eapply ready_matches|]. eapply ready_first_from; [done|lia|lia].
  - apply seek_spec; [by eapply ready_matches|done|lia].
Qed.

(** ** The round trip *)

Lemma written_index_for track docs cs blocks : chunks_of docs cs ->
  Z.of_nat (length blocks) = (if last_id cs <=? 0 then 1 else Z.min (last_id cs + 2) kBlockSize) ->
  (forall i b, blocks !! i = Some b -> entry_ok track (cs ++ [sentinel]) (Z.of_nat i) b) ->
  (2 < length blocks)%nat -> index_for track (cs ++ [sentinel]) blocks.
Proof.
  intros [Hok Ho _] Hlen Hent H2 j Hj. change kBlockScanThreshold with 2 in Hj. rewrite kBlockSize_eq in Hlen.
  destruct (Z.leb_spec (last_id cs) 0); [lia|]. set (k := Z.min j (Z.of_nat (length blocks) - 1)).
  destruct (blocks !! Z.to_nat k) as [b|] eqn:E; [|apply lookup_ge_None in E; lia]. exists b. split; [done|].
  apply Hent in E. rewrite Z2Nat.id in E by lia. destruct E as (l & c & r & E & Hl & Hc & Hb). exists l, c, r.
  split; [done|]. split; [eapply Forall_impl; [exact Hl|]; cbn; lia|]. split; [|done].
  destruct (decide (j = k)) as [Hjk|Hne]; [lia|]. destruct r as [|c' r _] using rev_ind.
  - apply app_inj_tail in E as [_ <-]. change (ch_id sentinel) with 65535. lia.
  - rewrite app_comm_cons, app_assoc in E. apply app_inj_tail in E as [E _].
    assert (c ∈ cs) as Hin by (rewrite E; apply elem_of_app; right; by left). pose proof (ordered_last cs c Ho Hin).
    assert (ch_id c < 2 ^ 16) by (rewrite Forall_forall in Hok; apply (ch_id_range _ (Hok c Hin))). lia.
Qed.

Lemma docs_access {S} {D : DataInput S} {DS : DataInputSpec S} {II : IndexInput S} {IS : IndexInputSpec S}
    {FI : FileInput S} {FS : FileInputSpec S} (f : list Z) docs cs : chunks_of docs cs ->
  (Forall (fun d => d mod kBlockSize < 2 ^ 15) docs \/
   forall n p (s : S), at_ f p s -> (p + n <= length f)%nat -> is_Some (read_buffer n s).1) -> Forall (access_ok (S := S) f) cs.
Proof.
  intros [_ _ ->] H. apply Forall_forall. intros c Hc. destruct H as [H|H]; [right; left; left|by right; right].
  apply Forall_forall. intros o Ho. rewrite Forall_forall in H. pose proof Ho as [Hr _]%offsets_elem.
  specialize (H (kBlockSize * ch_id c + o)). rewrite kBlockSize_eq in *.
  replace ((65536 * ch_id c + o) mod 65536) with o in H by word_lia. apply H.
  apply list_elem_of_bind. exists c. split; [|done]. apply list_elem_of_fmap. exists o. split; [by rewrite kBlockSize_eq|done].
Qed.

(** C8: what [sparse_bitmap_writer] writes is what [sparse_bitmap_iterator] iterates over: on a lawful
    input that holds what was written (after and before anything else), with the index of blocks as the
    column store keeps it (none, or one of more than two entries), the iterator makes the moves of a
    cursor over the documents, for every sequence of calls, with the rank of each document and, if
    asked for, the document before it. A stream that cannot be read through a buffer needs offsets
    below 2^15. *)
Theorem sparse_bitmap_roundtrip {W S} {DO : DataOutput W} {DOS : DataOutputSpec W} {IO : IndexOutput W} {IOS : IndexOutputSpec W}
    {D : DataInput S} {DS : DataInputSpec S} {II : IndexInput S} {IS : IndexInputSpec S} {FI : FileInput S} {FS : FileInputSpec S}
    (big track : bool) (docs : list Z) (out : W) (Hout : out_ok out) (Hs : StronglySorted Z.lt docs)
    (Hd : Forall (fun d => doc_limits.min <= d < doc_limits.eof) docs) :
  exists w, push_all big docs (writer_make out track) ≫= finish big = Some w /\ out_ok (sw_out w) /\
    forall (s : S) (rest : list Z) (blocks : list block) (use_block_index T : bool),
      let f := written (sw_out w) ++ rest in
      at_ f (length (written out)) s ->
      blocks = [] \/ blocks = sw_block_index w /\ (2 < length blocks)%nat ->
      (Forall (fun d => d mod kBlockSize < 2 ^ 15) docs \/
       forall n p (s : S), at_ f p s -> (p + n <= length f)%nat -> is_Some (read_buffer n s).1) ->
      forall cs vs, cursor_trace (is_doc docs) doc_limits.invalid cs vs -> exists it,
        run cs (bitmap_make s blocks use_block_index track T) = Some (vs, it) /\
        (vs <> [] -> exists i, si_value_index it = Z.of_nat i /\ (docs ++ [doc_limits.eof]) !! i = Some (si_doc it) /\
           (track && T = true -> exists prev it', prev_doc it = Some (prev, it') /\ (doc_limits.invalid :: docs) !! i = Some prev)).
Proof.
  destruct (push_all_spec big (written out) track docs [] [] (writer_make out track)) as (w & cks & E & HI).
  - by apply writer_make_inv.
  - done.
  - eapply Forall_impl; [exact Hd|]. cbn. doc_lia.
  - rewrite E. cbn [mbind option_bind].
    destruct (finish_spec big (written out) track docs cks w HI) as (w' & cs & Ef & Hc & Hok & Hw & Hlen & Hent).
    exists w'. split; [done|]. split; [done|]. intros s rest blocks use T Hat Hbl Hacc calls vs Htr.
    set (f := written (sw_out w') ++ rest) in *.
    apply (bitmap_run f (length (written out)) track (track && T) docs cs blocks); [| | | | |done].
    + split; try done.
      * exists rest. unfold f. by rewrite Hw, <-app_assoc, drop_app_length.
      * destruct Hbl as [->|[-> H2]]; [by left|right]. by eapply written_index_for.
    + by destruct track.
    + unfold f. rewrite Hw, !length_app. lia.
    + by eapply docs_access.
    + pose proof Hat as (_ & _ & Hp & _). unfold bitmap_make. rewrite Hp. split; [|done]. done.
Qed.

Lemma example_bitmap : exists w,
  push_all false [1; 40000; 70000] (writer_make (BufferedOutput.Make [] 0 [] 16) true) ≫= finish false = Some w /\
  length (written (sw_out w)) = 32%nat /\ length (sw_block_index w) = 3%nat.
Proof. eexists. split; [vm_compute; reflexivity|]. split; vm_compute; reflexivity. Qed.

Lemma sparse_bitmap_roundtrip_witness : exists w it,
  push_all false [1; 40000; 70000] (writer_make (BufferedOutput.Make [] 0 [] 16) true) ≫= finish false = Some w /\
  run [Next; Seek 40000; Seek 40001; Next] (bitmap_make (BytesView.Make (written (sw_out w) ++ [9]) 0) (sw_block_index w) true true true)
    = Some ([1; 40000; 70000; doc_limits.eof], it) /\
  exists i prev it', si_value_index it = Z.of_nat i /\ prev_doc it = Some (prev, it') /\
    (doc_limits.invalid :: [1; 40000; 70000]) !! i = Some prev.
Proof.
  destruct (sparse_bitmap_roundtrip (S := BytesView.t) false true [1; 40000; 70000] (BufferedOutput.Make [] 0 [] 16)) as (w & E & Hok & H).
  - split; cbn; lia.
  - repeat constructor; lia.
  - repeat (constructor; [split; vm_compute; discriminate || reflexivity|]). constructor.
  - exists w. cbv zeta in H. destruct example_bitmap as (w' & E' & Hw & Hb). rewrite E in E'. injection E' as <-.
    specialize (H (BytesView.Make (written (sw_out w) ++ [9]) 0) [9] (sw_block_index w) true true).
    assert (cursor_trace (is_doc [1; 40000; 70000]) doc_limits.invalid [Next; Seek 40000; Seek 40001; Next]
      [1; 40000; 70000; doc_limits.eof]) as Htr.
    { assert (forall d, is_doc [1; 40000; 70000] d = false <-> d <> 1 /\ d <> 40000 /\ d <> 70000) as Hdoc.
      { intros d. unfold is_doc. rewrite bool_decide_eq_false, !elem_of_cons, elem_of_nil. tauto. }
      assert (forall t v, v = doc_limits.eof \/ t <= v /\ v ∈ [1; 40000; 70000] ->
        (forall d, t <= d < v -> d <> 1 /\ d <> 40000 /\ d <> 70000) -> first_from (is_doc [1; 40000; 70000]) t v) as Hf.
      { intros t v Hv Hg. split; [destruct Hv as [?|[? Hv]]; [by left|right; split; [done|by apply bool_decide_eq_true]]|].
        intros d Hd. apply Hdoc, Hg, Hd. }
      apply trace_cons; [apply step_next, Hf; [right; split; [doc_lia|rewrite !elem_of_cons; tauto]|doc_lia]|].
      apply trace_cons; [apply step_seek, Hf; [doc_lia..|right; split; [doc_lia|rewrite !elem_of_cons; tauto]|doc_lia]|].
      apply trace_cons; [apply step_seek, Hf; [doc_lia..|right; split; [doc_lia|rewrite !elem_of_cons; tauto]|doc_lia]|].
      apply trace_cons; [apply step_next, Hf; [by left|doc_lia]|apply trace_nil]. }
    destruct (fun H1 H2 H3 => H H1 H2 H3 _ _ Htr) as (it & Hrun & Hit).
    { split; [cbn; unfold BytesView.inv; cbn; lia|]. split; [reflexivity|]. split; [reflexivity|cbn; lia]. }
    { right. split; [reflexivity|rewrite Hb; lia]. }
    { right. intros n p s. apply BytesView.view_direct. }
    exists it. split; [exact E|]. split; [exact Hrun|]. destruct (Hit ltac:(discriminate)) as (i & Hi & _ & Hp).
    destruct (Hp eq_refl) as (prev & it' & Hp1 & Hp2). exists i, prev, it'. split; [exact Hi|]. split; [exact Hp1|exact Hp2].
Defined.

(** ** Where the code deviates *)

(** The bytes and the index of blocks of a bitmap. *)
Definition bitmap_file (track : bool) (docs : list Z) : option (list Z * list block) :=
  w ← push_all false docs (writer_make (BufferedOutput.Make [] 0 [] 16) track) ≫= finish false;
  Some (BufferedOutput.written (sw_out w), sw_block_index w).

(** A sparse block that is read from a stream and not through a buffer sign-extends the offsets it
    reads as [int16_t]: an offset of 2^15 or more is lost and the iterator runs to other documents, where
    an iterator over the same bytes in memory delivers the documents written. *)
Lemma sparse_stream_sign_extends :
  exists f blocks, bitmap_file true [1; 40000; 70000] = Some (f, blocks) /\
    fst <$> run [Next; Next; Next; Next] (bitmap_make (BytesView.Make f 0) [] true true true)
      = Some [1; 40000; 70000; doc_limits.eof] /\
    fst <$> run [Next; Next; Next; Next] (bitmap_make (BufferedInput.Make f 0 [] 0 0 1) [] true true true)
      = Some [1; 4294941760; doc_limits.eof; doc_limits.eof].
Proof. eexists _, _. split; [vm_compute; reflexivity|]. split; vm_compute; reflexivity. Qed.

(** Inputs on which the sparse bitmap deviates. A sparse block that is read from a stream sign-extends
    offsets of 2^15 or more and loses their documents. With the index of a bitmap of one block, which
    has one entry, a seek two blocks ahead goes back to the first block and returns a document below its
    target (the column store does not keep an index of at most two entries). [reset] does not reset the
    block: an iterator that starts again after it was moved to a later block does not see the blocks
    before it. [erase] keeps the value it erases as the last one: when the next block is started it is
    written as the document before it, though it is not in the bitmap. *)
Example sparse_bitmap_deviations :
  (exists f blocks, bitmap_file true [1; 40000; 70000] = Some (f, blocks) /\
    fst <$> run [Next; Next; Next; Next] (bitmap_make (BytesView.Make f 0) [] true true true)
      = Some [1; 40000; 70000; doc_limits.eof] /\
    fst <$> run [Next; Next; Next; Next] (bitmap_make (BufferedInput.Make f 0 [] 0 0 1) [] true true true)
      = Some [1; 4294941760; doc_limits.eof; doc_limits.eof]) /\
  (exists f blocks, bitmap_file true [3; 7] = Some (f, blocks) /\ length blocks = 1%nat /\
    fst <$> run [Next; Seek 200000] (bitmap_make (BytesView.Make f 0) [] true true true) = Some [3; doc_limits.eof] /\
    fst <$> run [Next; Seek 200000] (bitmap_make (BytesView.Make f 0) blocks true true true) = Some [3; 3]) /\
  (exists f blocks it, bitmap_file true [3; 70000] = Some (f, blocks) /\
    run [Seek 70000] (bitmap_make (BytesView.Make f 0) [] true true true) = Some ([70000], it) /\
    fst <$> run [Next] (bitmap_reset it) = Some [70000] /\
    fst <$> run [Next] (bitmap_make (BytesView.Make f 0) [] true true true) = Some [3]) /\
  (exists f, (w ← push_all false [5; 7] (writer_make (BufferedOutput.Make [] 0 [] 16) true);
             w ← push_back false 70000 (snd (erase 7 w)) ≫= finish false;
             Some (written (sw_out w))) = Some f /\
    ('(vs, it) ← run [Next; Next] (bitmap_make (BytesView.Make f 0) [] true true true);
     '(prev, _) ← prev_doc it; Some (vs, prev)) = Some ([5; 70000], 7)).
Proof.
  split; [exact sparse_stream_sign_extends|]. split; [|split].
  - eexists _, _. split; [vm_compute; reflexivity|]. split; [|split]; vm_compute; reflexivity.
  - eexists _, _, _. split; [vm_compute; reflexivity|]. split; [vm_compute; reflexivity|]. split; vm_compute; reflexivity.
  - eexists. split; [vm_compute; reflexivity|]. vm_compute. reflexivity.
Qed.
