(* ===== verification/Coding.v ===== *)
(** * Composing writers and readers

    A writer of a format is a sequence of calls on an output, a reader a sequence of calls on an input.
    [writes w enc] says that the calls [w] write the bytes [enc] to any lawful output, [reads_as f rd enc v]
    that the calls [rd] read [v] from [enc] wherever it stands in the file [f], and [returns] the same of
    readers that may throw; the lemmas compose them along the sequence of calls. *)
From S2P Require Import Prelude BitUtils BytesIO Streams FileStreams StoreUtils Outcome.

(** ** Writers *)

Section writers.
Context {O : Type} `{DataOutputSpec O}.

Definition writes (w : O -> O) (enc : list Z) : Prop :=
  forall s, out_ok s -> out_ok (w s) /\ written (w s) = written s ++ enc.

Lemma writes_nothing : writes (fun s => s) [].
Proof. intros s Hs. by rewrite app_nil_r. Qed.

Lemma writes_seq w1 w2 e1 e2 : writes w1 e1 -> writes w2 e2 -> writes (fun s => w2 (w1 s)) (e1 ++ e2).
Proof.
  intros H1 H2 s Hs. destruct (H1 s Hs) as [Ho1 E1]. destruct (H2 _ Ho1) as [Ho2 E2]. split; [done|]. by rewrite E2, E1, <-app_assoc.
Qed.

Lemma writes_fold {A} (w : A -> O -> O) (enc : A -> list Z) l : Forall (fun x => writes (w x) (enc x)) l ->
  writes (fun s => foldl (fun s x => w x s) s l) (l ≫= enc).
Proof.
  induction 1 as [|x l Hx _ IH]; [apply writes_nothing|]. cbn [foldl]. rewrite bind_cons. exact (writes_seq _ _ _ _ Hx IH).
Qed.

Lemma writes_byte b : writes (write_byte b) [b].
Proof. intros s Hs. by apply write_byte_spec. Qed.
Lemma writes_bytes bs : writes (write_bytes bs) bs.
Proof. intros s Hs. by apply write_bytes_spec. Qed.
Lemma writes_short v : writes (write_short v) (Fixed.write16 v).
Proof. rewrite <-Fixed.write16_wrap. intros s Hs. by apply out_iter_spec. Qed.
Lemma writes_int v : writes (write_int v) (Fixed.write32 v).
Proof. rewrite <-Fixed.write32_wrap. intros s Hs. by apply out_iter_spec. Qed.
Lemma writes_long v : writes (write_long v) (Fixed.write64 v).
Proof. rewrite <-Fixed.write64_wrap. intros s Hs. by apply out_iter_spec. Qed.
Lemma writes_enum v : writes (write_enum 2 v) (Fixed.write16 v).
Proof. apply writes_short. Qed.
Lemma writes_vint v : is_word 32 v -> writes (write_vint v) (VInt.vwrite32 v).
Proof. intros Hv s Hs. by apply out_iter_spec. Qed.
Lemma writes_vlong v : is_word 64 v -> writes (write_vlong v) (VInt.vwrite64 v).
Proof. intros Hv s Hs. by apply out_iter_spec. Qed.
Lemma writes_string bs : Z.of_nat (length bs) < 2 ^ 32 -> writes (write_string bs) (string_bytes bs).
Proof. intros Hb s Hs. by apply write_string_spec. Qed.

End writers.

Create HintDb coding.
#[export] Hint Resolve writes_nothing writes_byte writes_bytes writes_short writes_int writes_long writes_enum writes_vint writes_vlong : coding.

(** Takes a sequence of calls apart, from the last one. *)
Ltac writes_calls :=
  rewrite ?app_assoc;
  repeat match goal with |- writes _ (_ ++ _) => apply writes_seq end; auto with coding.

(** ** Readers *)

Section readers.
Context {I : Type} {DI : DataInput I} {DS : DataInputSpec I} {II : IndexInput I} {IS : IndexInputSpec I} {FI : FileInput I} {FS : FileInputSpec I}
  (f : list Z).

Definition reads_as {A} (rd : I -> option (A * I)) (enc : list Z) (v : A) : Prop :=
  forall p s r, at_ f p s -> drop p f = enc ++ r -> exists s', rd s = Some (v, s') /\ at_ f (p + length enc) s'.

Lemma reads_done {A} (v : A) : reads_as (fun s => Some (v, s)) [] v.
Proof. intros p s r Hs Hr. exists s. by rewrite Nat.add_0_r. Qed.

Lemma behind (p : nat) e1 e2 r : drop p f = (e1 ++ e2) ++ r -> drop p f = e1 ++ (e2 ++ r) /\ drop (p + length e1) f = e2 ++ r.
Proof. intros E. rewrite <-app_assoc in E. split; [done|]. by rewrite <-drop_drop, E, drop_app_length. Qed.

Lemma reads_then {A B} (rd : I -> option (A * I)) (k : A -> I -> option (B * I)) e1 e2 v1 v2 :
  reads_as rd e1 v1 -> reads_as (k v1) e2 v2 -> reads_as (fun s => '(v, s) ← rd s; k v s) (e1 ++ e2) v2.
Proof.
  intros H1 H2 p s r Hs Hr. apply behind in Hr as [E1 E2]. destruct (H1 p s _ Hs E1) as (s1 & -> & Hs1). cbn [mbind option_bind].
  rewrite length_app, Nat.add_assoc. by apply (H2 _ _ r).
Qed.

(** The last call of a sequence *)
Lemma reads_last {A B} (rd : I -> option (A * I)) (k : A -> I -> option (B * I)) enc v w :
  reads_as rd enc v -> (forall s, k v s = Some (w, s)) -> reads_as (fun s => '(v, s) ← rd s; k v s) enc w.
Proof.
  intros Hrd Hk p s r Hs Hr. destruct (Hrd p s r Hs Hr) as (s1 & -> & Hs1). cbn [mbind option_bind]. rewrite Hk. by exists s1.
Qed.

Lemma reads_map {A B} (rd : I -> option (A * I)) (g : A -> B) enc v : reads_as rd enc v ->
  reads_as (fun s => '(v, s) ← rd s; Some (g v, s)) enc (g v).
Proof. intros Hrd. by apply (reads_last rd (fun v s => Some (g v, s)) enc v). Qed.

(** What the file still has to hold *)
Lemma in_file (p : nat) (s : I) enc r : at_ f p s -> drop p f = enc ++ r -> (p + length enc <= length f)%nat.
Proof. intros (_ & _ & _ & Hp) E. apply (f_equal length) in E. rewrite length_drop, length_app in E. lia. Qed.

Lemma reads_byte b : reads_as read_byte [b] b.
Proof. intros p s r Hs Hr. apply (at_reads f p s (read_byte s) (Some (b, r)) [b] b r); [done| |done|done].
  intros Hok v r' [= <- <-]. apply (next_ahead (RefinesList := pinned f) s b r Hok). cbn. by rewrite (at_remaining _ _ _ Hs).
Qed.

Lemma reads_bytes bs : reads_as (fun s => Some (read_bytes (length bs) s)) bs bs.
Proof.
  intros p s r Hs Hr. destruct (read_bytes_at_ f p (length bs) s Hs (in_file _ _ _ _ Hs Hr)) as [H1 H2].
  rewrite Hr, take_app_length in H1. destruct (read_bytes (length bs) s) as [b s']. cbn in *. subst. by exists s'.
Qed.

Lemma reads_short v : is_word 16 v -> reads_as read_short (Fixed.write16 v) (to_signed 16 v).
Proof.
  intros Hv p s r Hs Hr. apply (read_short_at f p s _ r); [done|apply to_signed_range; lia|].
  by rewrite wrap_to_signed, wrap_small by (done || lia).
Qed.
Lemma reads_int v : is_word 32 v -> reads_as read_int (Fixed.write32 v) (to_signed 32 v).
Proof.
  intros Hv p s r Hs Hr. apply (read_int_at f p s _ r); [done|apply to_signed_range; lia|].
  by rewrite wrap_to_signed, wrap_small by (done || lia).
Qed.
Lemma reads_long v : is_word 64 v -> reads_as read_long (Fixed.write64 v) (to_signed 64 v).
Proof.
  intros Hv p s r Hs Hr. apply (read_long_at f p s _ r); [done|apply to_signed_range; lia|].
  by rewrite wrap_to_signed, wrap_small by (done || lia).
Qed.
Lemma reads_enum v : is_word 16 v -> reads_as (read_enum 2) (Fixed.write16 v) v.
Proof.
  intros Hv. unfold read_enum, rw_read. rewrite <-(wrap_small 16 v) at 2 by done. rewrite <-(wrap_to_signed 16 v) by lia.
  by apply (reads_map read_short), reads_short.
Qed.
Lemma reads_vint v : is_word 32 v -> reads_as read_vint (VInt.vwrite32 v) v.
Proof.
  intros Hv p s r Hs Hr. destruct (VInt.vwrite32_spec v Hv) as (_ & _ & Hread). specialize (Hread r).
  apply (at_reads f p s (read_vint s) (VInt.vread32 (drop p f)) (VInt.vwrite32 v) v r); [done| |by rewrite Hr|done].
  intros Hok. rewrite <-(at_remaining _ _ _ Hs). exact (VInt.vread_from_reads (H0 := pinned f) 32 4 0 0 s Hok).
Qed.

Lemma reads_vlong v : is_word 64 v -> reads_as read_vlong (VInt.vwrite64 v) v.
Proof.
  intros Hv p s r Hs Hr. destruct (VInt.vwrite64_spec v Hv) as (_ & _ & Hread). specialize (Hread r).
  apply (at_reads f p s (read_vlong s) (VInt.vread64 (drop p f)) (VInt.vwrite64 v) v r); [done| |by rewrite Hr|done].
  intros Hok. rewrite <-(at_remaining _ _ _ Hs). exact (VInt.vread_from_reads (H0 := pinned f) 64 9 0 0 s Hok).
Qed.

Lemma reads_string bs : Z.of_nat (length bs) < 2 ^ 32 -> reads_as read_string (string_bytes bs) bs.
Proof.
  intros Hb. unfold read_string, string_bytes. eapply reads_then; [apply reads_vint; unfold is_word; lia|]. cbv beta. rewrite Nat2Z.id.
  intros p s r Hs Hr. destruct (reads_bytes bs p s r Hs Hr) as (s' & [= E] & H'). rewrite E, Nat.sub_diag, app_nil_r. by exists s'.
Qed.

(** *** Readers that may throw *)

Definition returns {A} (rd : I -> option (outcome (A * I))) (enc : list Z) (v : A) : Prop :=
  forall p s r, at_ f p s -> drop p f = enc ++ r -> exists s', rd s = Some (Done (v, s')) /\ at_ f (p + length enc) s'.

Lemma returns_ret {A} (v : A) : returns (fun s => done_ (v, s)) [] v.
Proof. intros p s r Hs Hr. exists s. by rewrite Nat.add_0_r. Qed.

Lemma returns_lift {A B} (rd : I -> option (A * I)) (k : A -> I -> option (outcome (B * I))) e1 e2 v1 v2 :
  reads_as rd e1 v1 -> returns (k v1) e2 v2 -> returns (fun s => '(v, s) ⇐ lift (rd s); k v s) (e1 ++ e2) v2.
Proof.
  intros H1 H2 p s r Hs Hr. apply behind in Hr as [E1 E2]. destruct (H1 p s _ Hs E1) as (s1 & -> & Hs1). rewrite bind_lift.
  rewrite length_app, Nat.add_assoc. by apply (H2 _ _ r).
Qed.

Lemma returns_bind {A B} (rd : I -> option (outcome (A * I))) (k : A -> I -> option (outcome (B * I))) e1 e2 v1 v2 :
  returns rd e1 v1 -> returns (k v1) e2 v2 -> returns (fun s => '(v, s) ⇐ rd s; k v s) (e1 ++ e2) v2.
Proof.
  intros H1 H2 p s r Hs Hr. apply behind in Hr as [E1 E2]. destruct (H1 p s _ Hs E1) as (s1 & -> & Hs1). rewrite bind_done.
  rewrite length_app, Nat.add_assoc. by apply (H2 _ _ r).
Qed.

Lemma returns_reads {A} (rd : I -> option (A * I)) enc v : reads_as rd enc v -> returns (fun s => lift (rd s)) enc v.
Proof. intros Hrd p s r Hs Hr. destruct (Hrd p s r Hs Hr) as (s' & -> & H'). by exists s'. Qed.

Lemma returns_check {B} (b : bool) e (k : I -> option (outcome (B * I))) enc v : b = false ->
  returns k enc v -> returns (fun s => _ ⇐ throw_if b e; k s) enc v.
Proof. intros -> H1. exact H1. Qed.

End readers.

#[export] Hint Resolve reads_byte reads_short reads_int reads_long reads_enum reads_vint reads_vlong : coding.

(** The first call of a sequence, read as its lemma in the hint database says *)
Ltac reads_call := eapply reads_then; [solve [eauto with coding]|cbv beta].
Ltac reads_end := eapply reads_last; [solve [eauto with coding]|done].
