(* ===== verification/ColumnFormat.v ===== *)
(** * The metadata of a column

    The header, the index of blocks of the document bitmap and the tables of blocks of a column of
    core/formats/columnstore2.hpp and .cpp, as written to and read from the index file of the column store. *)
From S2P Require Import Prelude Outcome BitUtils BytesIO Streams FileStreams StoreUtils Coding DocIterators SparseBitmap.

(** ** [ColumnType], [ColumnProperty], [column_header] *)

Module ColumnType.
Definition kSparse : Z := 0.
Definition kMask : Z := 1.
Definition kFixed : Z := 2.
Definition kDenseFixed : Z := 3.
End ColumnType.

Module ColumnProperty.
Definition kNormal : Z := 0.
Definition kEncrypt : Z := 1.
Definition kNoName : Z := 2.
Definition kPrevDoc : Z := 4.
(** [p == (props & p)] *)
Definition has (p props : Z) : bool := p =? Z.land props p.
End ColumnProperty.

Record column_header := mkHeader {
  docs_index : Z;
  hdr_id : Z;
  docs_count : Z;
  hdr_min : Z;
  props : Z;
  type_ : Z;
}.

Definition is_encrypted (hdr : column_header) : bool := ColumnProperty.has ColumnProperty.kEncrypt (props hdr).
(** [ToSparseBitmapVersion(props)]: whether previous documents are written *)
Definition prev_doc_version (hdr : column_header) : bool := ColumnProperty.has ColumnProperty.kPrevDoc (props hdr).

(** [column::column_block] *)
Record column_block := mkColumnBlock {
  cb_addr : Z;
  cb_avg : Z;
  cb_data : Z;
  cb_last_size : Z;
  cb_bits : Z;
}.

Section writers.
Context {O : Type} `{DataOutput O}.

Definition write_header (hdr : column_header) (out : O) : O :=
  let out := write_long (docs_index hdr) out in
  let out := write_int (Z.land (hdr_id hdr) 0xFFFFFFFF) out in
  let out := write_int (hdr_min hdr) out in
  let out := write_int (docs_count hdr) out in
  let out := write_enum 2 (type_ hdr) out in
  write_enum 2 (props hdr) out.

Definition write_bitmap_index (blocks : list block) (out : O) : O :=
  let count := wrap 32 (Z.of_nat (length blocks)) in
  if 2 <? count then
    foldl (fun out b => write_int (blk_offset b) (write_int (blk_index b) out)) (write_int count out) blocks
  else write_int 0 out.

Definition write_blocks_sparse (blocks : list column_block) (out : O) : O :=
  foldl (fun out b =>
    let out := write_long (cb_addr b) out in
    let out := write_long (cb_avg b) out in
    let out := write_byte (to_byte (cb_bits b)) out in
    let out := write_long (cb_data b) out in
    write_long (cb_last_size b) out) out blocks.

Definition write_blocks_dense (blocks : list column_block) (out : O) : O :=
  foldl (fun out b => write_long (cb_data b) out) out blocks.

End writers.

Section readers.
Context {I : Type} `{DataInput I} (big : bool).

(** [read_int] assigned to an unsigned of 32 bits or, sign-extended, of 64 bits *)
Definition read_u32 (in_ : I) : option (Z * I) := '(v, in_) ← read_int in_; Some (wrap 32 v, in_).
Definition read_id (in_ : I) : option (Z * I) := '(v, in_) ← read_int in_; Some (wrap 64 v, in_).
Definition read_u64 (in_ : I) : option (Z * I) := '(v, in_) ← read_long in_; Some (wrap 64 v, in_).

Definition read_header (in_ : I) : option (column_header * I) :=
  '(docs_index, in_) ← read_u64 in_;
  '(id, in_) ← read_id in_;
  '(min, in_) ← read_u32 in_;
  '(docs_count, in_) ← read_u32 in_;
  '(type, in_) ← read_enum 2 in_;
  '(props, in_) ← read_enum 2 in_;
  Some (mkHeader docs_index id docs_count min props type, in_).

(** [read_bytes] into zeroed memory *)
Definition read_zeroed (n : nat) (in_ : I) : list Z * I :=
  let '(bs, in_) := read_bytes n in_ in (bs ++ replicate (n - length bs) 0, in_).

(** [ntoh32] and [ntoh64] of integers in memory *)
Definition ntoh (n : nat) (bs : list Z) : Z := let v := Fixed.host_value big bs in if big then v else Fixed.hton big n v.

Fixpoint bitmap_blocks (count : nat) (bs : list Z) : list block :=
  match count with
  | O => []
  | Datatypes.S count =>
      mkBlockEntry (ntoh 4 (take 4 bs)) (ntoh 4 (take 4 (drop 4 bs))) :: bitmap_blocks count (drop 8 bs)
  end.

Definition read_bitmap_index (in_ : I) : option (outcome (list block * I)) :=
  '(count, in_) ⇐ lift (read_u32 in_);
  _ ⇐ throw_if (2 ^ 16 - 1 <? count) (index_error "Invalid number of blocks in column index");
  if 2 <? count then
    '(bs, in_) ⇐ done_ (read_zeroed (Z.to_nat count * 8) in_);
    done_ (bitmap_blocks (Z.to_nat count) bs, in_)
  else done_ ([], in_).

(** [fixed_length_column::read_blocks_dense] *)
Definition blocks_count (hdr : column_header) : nat := Z.to_nat (Math.div_ceil32 (docs_count hdr) kBlockSize).

Fixpoint dense_blocks (count : nat) (bs : list Z) : list Z :=
  match count with
  | O => []
  | Datatypes.S count => ntoh 8 (take 8 bs) :: dense_blocks count (drop 8 bs)
  end.
Definition read_blocks_dense (hdr : column_header) (in_ : I) : option (list Z * I) :=
  '(bs, in_) ← Some (read_zeroed (8 * blocks_count hdr) in_);
  Some (dense_blocks (blocks_count hdr) bs, in_).

(** [sparse_column::column_block]: a block and [last] *)
Definition sparse_block : Type := column_block * Z.

Fixpoint read_sparse_blocks (count : nat) (in_ : I) : option (list sparse_block * I) :=
  match count with
  | O => Some ([], in_)
  | Datatypes.S count =>
      '(addr, in_) ← read_u64 in_;
      '(avg, in_) ← read_u64 in_;
      '(bits, in_) ← read_byte in_;
      '(data, in_) ← read_u64 in_;
      '(last_size, in_) ← read_u64 in_;
      '(blocks, in_) ← read_sparse_blocks count in_;
      Some ((mkColumnBlock addr avg data last_size bits, kBlockSize - 1) :: blocks, in_)
  end.

(** [blocks.back().last = ...]: [None] without blocks *)
Definition set_last (last : Z) (blocks : list sparse_block) : option (list sparse_block) :=
  match rev blocks with
  | [] => None
  | (b, _) :: r => Some (rev r ++ [(b, last)])
  end.
Definition read_blocks_sparse (hdr : column_header) (in_ : I) : option (list sparse_block * I) :=
  '(blocks, in_) ← read_sparse_blocks (blocks_count hdr) in_;
  blocks ← set_last (wrap 16 (docs_count hdr mod kBlockSize -[64] 1)) blocks;
  Some (blocks, in_).

End readers.

(** ** What is written *)

Definition header_bytes (hdr : column_header) : list Z :=
  Fixed.write64 (docs_index hdr) ++ Fixed.write32 (hdr_id hdr) ++ Fixed.write32 (hdr_min hdr) ++
  Fixed.write32 (docs_count hdr) ++ Fixed.write16 (type_ hdr) ++ Fixed.write16 (props hdr).

Definition bitmap_block_bytes (b : block) : list Z := Fixed.write32 (blk_index b) ++ Fixed.write32 (blk_offset b).
Definition bitmap_index_bytes (blocks : list block) : list Z :=
  if decide (2 < length blocks)%nat then Fixed.write32 (Z.of_nat (length blocks)) ++ (blocks ≫= bitmap_block_bytes)
  else Fixed.write32 0.

Definition sparse_block_bytes (b : column_block) : list Z :=
  Fixed.write64 (cb_addr b) ++ Fixed.write64 (cb_avg b) ++ [cb_bits b] ++ Fixed.write64 (cb_data b) ++ Fixed.write64 (cb_last_size b).
Definition sparse_blocks_bytes (blocks : list column_block) : list Z := blocks ≫= sparse_block_bytes.
Definition dense_blocks_bytes (blocks : list column_block) : list Z := blocks ≫= (fun b => Fixed.write64 (cb_data b)).

(** Values of the widths of their types; an identifier below 2^31 *)
Record header_ok (hdr : column_header) : Prop := {
  hdr_docs_index : is_word 64 (docs_index hdr);
  hdr_id_small : is_word 31 (hdr_id hdr);
  hdr_min_word : is_word 32 (hdr_min hdr);
  hdr_count_word : is_word 32 (docs_count hdr);
  hdr_type_word : is_word 16 (type_ hdr);
  hdr_props_word : is_word 16 (props hdr);
}.
Definition bitmap_block_ok (b : block) : Prop := is_word 32 (blk_index b) /\ is_word 32 (blk_offset b).
Record column_block_ok (b : column_block) : Prop := {
  cb_addr_word : is_word 64 (cb_addr b);
  cb_avg_word : is_word 64 (cb_avg b);
  cb_data_word : is_word 64 (cb_data b);
  cb_last_word : is_word 64 (cb_last_size b);
  cb_bits_byte : is_byte (cb_bits b);
}.

Section writing.
Context {O : Type} `{DataOutputSpec O}.

Lemma writes_header hdr : header_ok hdr -> writes (write_header hdr) (header_bytes hdr).
Proof.
  intros []. unfold write_header, header_bytes. cbv zeta.
  assert (Z.land (hdr_id hdr) 0xFFFFFFFF = hdr_id hdr) as ->.
  { change 0xFFFFFFFF with (Z.ones 32). rewrite Z.land_ones by lia. apply wrap_small. unfold is_word in *; lia. }
  writes_calls.
Qed.

Lemma writes_bitmap_index blocks : Z.of_nat (length blocks) < 2 ^ 32 ->
  writes (write_bitmap_index blocks) (bitmap_index_bytes blocks).
Proof.
  intros Hl. unfold write_bitmap_index, bitmap_index_bytes. rewrite wrap_small by (unfold is_word; lia). cbv zeta.
  destruct (Z.ltb_spec 2 (Z.of_nat (length blocks))), (decide (2 < length blocks)%nat); try lia; [|apply writes_int].
  set (fold := fun out => foldl (fun out b => write_int (blk_offset b) (write_int (blk_index b) out)) out blocks).
  apply (writes_seq (write_int (Z.of_nat (length blocks))) fold); [apply writes_int|].
  apply (writes_fold (fun b out => write_int (blk_offset b) (write_int (blk_index b) out)) bitmap_block_bytes).
  apply Forall_true. intros b. unfold bitmap_block_bytes. writes_calls.
Qed.

Lemma writes_blocks_sparse blocks : Forall column_block_ok blocks -> writes (write_blocks_sparse blocks) (sparse_blocks_bytes blocks).
Proof.
  intros Hb. apply (writes_fold (fun b out => _)). eapply Forall_impl; [exact Hb|]. intros b []. unfold sparse_block_bytes. cbv zeta.
  writes_calls. unfold to_byte. rewrite wrap_small by done. auto with coding.
Qed.

Lemma writes_blocks_dense blocks : writes (write_blocks_dense blocks) (dense_blocks_bytes blocks).
Proof. apply (writes_fold (fun b out => _)). apply Forall_true. intros b. auto with coding. Qed.

End writing.

(** ** What is read *)

Section reading.
Context {I : Type} {DI : DataInput I} {DS : DataInputSpec I} {II : IndexInput I} {IS : IndexInputSpec I} {FI : FileInput I} {FS : FileInputSpec I}
  (f : list Z) (big : bool).

Lemma reads_u64 v : is_word 64 v -> reads_as f read_u64 (Fixed.write64 v) v.
Proof.
  intros Hv. unfold read_u64. rewrite <-(wrap_small 64 v) at 2 by done. rewrite <-(wrap_to_signed 64 v) by lia.
  by apply (reads_map f read_long (wrap 64)), reads_long.
Qed.
Lemma reads_u32 v : is_word 32 v -> reads_as f read_u32 (Fixed.write32 v) v.
Proof.
  intros Hv. unfold read_u32. rewrite <-(wrap_small 32 v) at 2 by done. rewrite <-(wrap_to_signed 32 v) by lia.
  by apply (reads_map f read_int (wrap 32)), reads_int.
Qed.
(** An identifier of 2^31 or more is sign-extended. *)
Lemma reads_id v : is_word 32 v -> reads_as f read_id (Fixed.write32 v) (wrap 64 (to_signed 32 v)).
Proof. intros Hv. by apply (reads_map f read_int (wrap 64)), reads_int. Qed.

Lemma to_signed_small w v : 1 <= w -> is_word (w - 1) v -> to_signed w v = v.
Proof.
  intros Hw Hv. assert (2 ^ w = 2 * 2 ^ (w - 1)) by (rewrite <-Z.pow_succ_r by lia; f_equal; lia).
  unfold to_signed, is_word in *. rewrite wrap_small by (unfold is_word; lia). by destruct (Z.ltb_spec v (2 ^ (w - 1))); [|lia].
Qed.

Lemma reads_small_id v : is_word 31 v -> reads_as f read_id (Fixed.write32 v) v.
Proof.
  intros Hv. assert (is_word 32 v) as Hw by (unfold is_word in *; lia). pose proof (reads_id v Hw) as Hr.
  rewrite to_signed_small in Hr by (done || lia). rewrite wrap_small in Hr by (unfold is_word in *; lia). exact Hr.
Qed.

#[local] Hint Resolve reads_u64 reads_u32 reads_small_id : coding.

Lemma reads_header hdr : header_ok hdr -> reads_as f read_header (header_bytes hdr) hdr.
Proof. intros []. unfold read_header, header_bytes. do 5 reads_call. destruct hdr. reads_end. Qed.

(** An identifier of 2^31 or more comes back sign-extended. *)
Lemma reads_header_id hdr : header_ok (mkHeader (docs_index hdr) 0 (docs_count hdr) (hdr_min hdr) (props hdr) (type_ hdr)) ->
  2 ^ 31 <= hdr_id hdr < 2 ^ 32 -> reads_as f read_header (header_bytes hdr)
    (mkHeader (docs_index hdr) (2 ^ 64 - 2 ^ 32 + hdr_id hdr) (docs_count hdr) (hdr_min hdr) (props hdr) (type_ hdr)).
Proof.
  intros [] Hid. cbn [docs_index hdr_id docs_count hdr_min props type_] in *. unfold read_header, header_bytes.
  assert (reads_as f read_id (Fixed.write32 (hdr_id hdr)) (2 ^ 64 - 2 ^ 32 + hdr_id hdr)) as Hr.
  { replace (2 ^ 64 - 2 ^ 32 + hdr_id hdr) with (wrap 64 (to_signed 32 (hdr_id hdr))); [apply reads_id; unfold is_word; lia|].
    unfold to_signed. rewrite (wrap_small 32) by (unfold is_word; lia). cbv zeta. destruct (Z.ltb_spec (hdr_id hdr) (2 ^ (32 - 1))); [lia|].
    unfold wrap. word_lia. }
  reads_call. eapply reads_then; [exact Hr|cbv beta]. do 3 reads_call. reads_end.
Qed.

(** Reading as many bytes as there are leaves none of the zeroes. *)
Lemma reads_zeroed bs n : n = length bs -> reads_as f (fun in_ => Some (read_zeroed n in_)) bs bs.
Proof.
  intros -> p s r Hs Hr. destruct (reads_bytes f bs p s r Hs Hr) as (s' & E & H'). exists s'. split; [|done].
  unfold read_zeroed. injection E as E. rewrite E. by rewrite Nat.sub_diag, app_nil_r.
Qed.

Lemma ntoh_spec n x : is_word (8 * Z.of_nat n) x -> ntoh big n (rev (Fixed.le_bytes n x)) = x.
Proof.
  intros Hx. unfold ntoh, Fixed.hton, Fixed.host_bytes, Fixed.host_value. cbv zeta. destruct big.
  - by rewrite rev_involutive, Fixed.le_value_bytes, wrap_small.
  - pose proof (Fixed.le_bytes_value _ (Fixed.rev_bytes _ (Fixed.le_bytes_bytes n x))) as E.
    rewrite length_rev, Fixed.length_le_bytes in E. by rewrite E, rev_involutive, Fixed.le_value_bytes, wrap_small.
Qed.

Lemma bitmap_blocks_spec blocks : Forall bitmap_block_ok blocks ->
  bitmap_blocks big (length blocks) (blocks ≫= bitmap_block_bytes) = blocks.
Proof.
  induction 1 as [|[i o] blocks [Hi Ho] _ IH]; [done|]. cbn [length bitmap_blocks]. rewrite bind_cons.
  change (bitmap_block_bytes (mkBlockEntry i o)) with (Fixed.write32 i ++ Fixed.write32 o). cbn [blk_index blk_offset] in *.
  assert (length (Fixed.write32 i) = 4%nat /\ length (Fixed.write32 o) = 4%nat) as [H1 H2] by done.
  assert (ntoh big 4 (Fixed.write32 i) = i /\ ntoh big 4 (Fixed.write32 o) = o) as [E1 E2] by (rewrite !Fixed.write32_le; by split; apply ntoh_spec).
  revert H1 H2 E1 E2. generalize (Fixed.write32 i) (Fixed.write32 o). intros bi bo H1 H2 E1 E2.
  rewrite (drop_app_length' (bi ++ bo) _ 8) by (rewrite length_app; lia). rewrite IH, <-!app_assoc.
  by rewrite (take_app_length' bi _ 4), (drop_app_length' bi _ 4), (take_app_length' bo _ 4), E1, E2 by done.
Qed.

Lemma bitmap_block_bytes_length blocks : length (blocks ≫= bitmap_block_bytes) = (length blocks * 8)%nat.
Proof. induction blocks as [|b blocks IH]; [done|]. rewrite bind_cons, length_app, IH. done. Qed.

Lemma returns_bitmap_index blocks : Z.of_nat (length blocks) < 2 ^ 16 -> Forall bitmap_block_ok blocks ->
  returns f (read_bitmap_index big) (bitmap_index_bytes blocks) (if decide (2 < length blocks)%nat then blocks else []).
Proof.
  intros Hl Hb. unfold read_bitmap_index, bitmap_index_bytes. case_decide as H2.
  - eapply returns_lift; [by apply reads_u32; unfold is_word; lia|]. cbv beta.
    apply (returns_check f (B := list block)); [by apply Z.ltb_ge; lia|].
    destruct (Z.ltb_spec 2 (Z.of_nat (length blocks))); [|lia]. rewrite Nat2Z.id.
    intros p s r Hs Hr. destruct (reads_zeroed (blocks ≫= bitmap_block_bytes) (length blocks * 8) ltac:(by rewrite bitmap_block_bytes_length) p s r Hs Hr)
      as (s' & [= E] & H'). exists s'. rewrite bind_done_, E. split; [|done]. by rewrite bitmap_blocks_spec.
  - rewrite <-(app_nil_r (Fixed.write32 0)). eapply returns_lift; [by apply reads_u32|]. cbv beta.
    apply returns_check; [done|]. apply returns_ret.
Qed.

(** An index with more than 2^16 - 1 entries is written and not read. *)
Lemma bitmap_index_too_long blocks p s r : 2 ^ 16 <= Z.of_nat (length blocks) < 2 ^ 32 -> at_ f p s ->
  drop p f = bitmap_index_bytes blocks ++ r ->
  read_bitmap_index big s = Some (Thrown (index_error "Invalid number of blocks in column index")).
Proof.
  intros Hl Hs Hr. unfold bitmap_index_bytes in Hr. rewrite decide_True in Hr by lia. rewrite <-app_assoc in Hr.
  destruct (reads_u32 (Z.of_nat (length blocks)) ltac:(unfold is_word; lia) p s _ Hs Hr) as (s' & E & _).
  unfold read_bitmap_index. rewrite E, bind_lift. destruct (Z.ltb_spec (2 ^ 16 - 1) (Z.of_nat (length blocks))); [done|lia].
Qed.

(** Tables of blocks *)
Lemma dense_blocks_spec vs : Forall (is_word 64) vs -> dense_blocks big (length vs) (vs ≫= Fixed.write64) = vs.
Proof.
  induction 1 as [|v vs Hv _ IH]; [done|]. cbn [length dense_blocks]. rewrite bind_cons.
  assert (length (Fixed.write64 v) = 8%nat) as Hl by done. assert (ntoh big 8 (Fixed.write64 v) = v) as E by (rewrite Fixed.write64_le; by apply ntoh_spec).
  revert Hl E. generalize (Fixed.write64 v). intros bs Hl E. by rewrite (take_app_length' bs _ 8), (drop_app_length' bs _ 8), E, IH by done.
Qed.

Lemma reads_blocks_dense hdr blocks : blocks_count hdr = length blocks -> Forall column_block_ok blocks ->
  reads_as f (read_blocks_dense big hdr) (dense_blocks_bytes blocks) (map cb_data blocks).
Proof.
  intros Hn Hb. unfold read_blocks_dense. rewrite Hn.
  assert (dense_blocks_bytes blocks = map cb_data blocks ≫= Fixed.write64) as E.
  { unfold dense_blocks_bytes. clear. induction blocks as [|b blocks IH]; [done|]. cbn [map]. by rewrite !bind_cons, IH. }
  assert (length (dense_blocks_bytes blocks) = 8 * length blocks)%nat as Hl.
  { unfold dense_blocks_bytes. clear. induction blocks as [|b blocks IH]; [done|]. rewrite bind_cons, length_app, IH. cbn [length]. change (length (Fixed.write64 (cb_data b))) with 8%nat. lia. }
  apply (reads_last f (fun in_ => Some (read_zeroed (8 * length blocks) in_)) (fun bs in_ => Some (dense_blocks big (length blocks) bs, in_)) _ (dense_blocks_bytes blocks)).
  - by apply reads_zeroed.
  - intros s. rewrite E, <-(length_map cb_data blocks), dense_blocks_spec; [done|].
    apply Forall_fmap. eapply Forall_impl; [exact Hb|]. by intros b [].
Qed.

Lemma reads_sparse_blocks blocks : Forall column_block_ok blocks ->
  reads_as f (read_sparse_blocks (length blocks)) (sparse_blocks_bytes blocks) (map (fun b => (b, kBlockSize - 1)) blocks).
Proof.
  induction 1 as [|b blocks [] _ IH]; [apply reads_done|]. cbn [length read_sparse_blocks map]. unfold sparse_blocks_bytes. rewrite bind_cons.
  fold (sparse_blocks_bytes blocks). unfold sparse_block_bytes. rewrite <-!app_assoc. do 5 reads_call. 
  eapply reads_last; [exact IH|]. intros s. by destruct b.
Qed.

Lemma set_last_spec last blocks b : set_last last (map (fun b => (b, kBlockSize - 1)) (blocks ++ [b])) =
  Some (map (fun b => (b, kBlockSize - 1)) blocks ++ [(b, last)]).
Proof. unfold set_last. rewrite map_app, rev_app_distr. cbn [rev map app]. by rewrite rev_involutive. Qed.

Lemma reads_blocks_sparse hdr blocks b : blocks_count hdr = length (blocks ++ [b]) -> Forall column_block_ok (blocks ++ [b]) ->
  reads_as f (read_blocks_sparse hdr) (sparse_blocks_bytes (blocks ++ [b]))
    (map (fun b => (b, kBlockSize - 1)) blocks ++ [(b, wrap 16 (docs_count hdr mod kBlockSize -[64] 1))]).
Proof.
  intros Hn Hb. unfold read_blocks_sparse. rewrite Hn. eapply reads_last; [by apply reads_sparse_blocks|]. intros s.
  by rewrite set_last_spec.
Qed.

End reading.
