(* ===== verification/ColumnIterators.v ===== *)
(** * Iterators over columns

    [range_column_iterator] and [bitmap_column_iterator] of core/formats/columnstore2.cpp, over any payload
    reader: the documents of a column with their values. *)
From S2P Require Import Prelude BitUtils BytesIO Streams FileStreams DocIterators SparseBitmap SparseBitmapWriter SparseBitmapContainers SparseBitmapIterator.

(** ** Payload readers *)

(** The value of the document at a position of the column *)
Class PayloadReader (R : Type) := payload : Z -> R -> option (list Z * R).

(** A reader that serves the values [vals], and goes on to. *)
Class PayloadReaderSpec (R : Type) `{PayloadReader R} := {
  serves : R -> list (list Z) -> Prop;
  payload_spec r vals (i : nat) v : serves r vals -> vals !! i = Some v ->
    exists r', payload (Z.of_nat i) r = Some (v, r') /\ serves r' vals;
}.

(** ** [range_column_iterator] *)

Section range.
Context {R : Type} {PR : PayloadReader R}.

Record range_column_iterator := mkRange {
  rg_reader : R;
  rg_min_base : Z;
  rg_min_doc : Z;
  rg_max_doc : Z;
  rg_doc : Z;               (* document::value *)
  rg_cost : Z;
  rg_track_prev : bool;
  rg_payload : list Z;
}.

Definition range_make (min docs_count : Z) (track_prev : bool) (r : R) : range_column_iterator :=
  mkRange r min min (min + docs_count -[32] 1) doc_limits.invalid docs_count track_prev [].

(** [value()], [min_doc_] and [max_doc_], and the payload of a document *)
Definition rg_move (doc min_doc max_doc : Z) (it : range_column_iterator) : range_column_iterator :=
  mkRange (rg_reader it) (rg_min_base it) min_doc max_doc doc (rg_cost it) (rg_track_prev it) (rg_payload it).
Definition rg_set_payload (v : list Z) (r : R) (it : range_column_iterator) : range_column_iterator :=
  mkRange r (rg_min_base it) (rg_min_doc it) (rg_max_doc it) (rg_doc it) (rg_cost it) (rg_track_prev it) v.
Definition rg_load (it : range_column_iterator) : option range_column_iterator :=
  '(v, r) ← payload (rg_doc it -[32] rg_min_base it) (rg_reader it); Some (rg_set_payload v r it).

Definition range_seek (doc : Z) (it : range_column_iterator) : option (Z * range_column_iterator) :=
  if (rg_min_doc it <=? doc) && (doc <=? rg_max_doc it) then
    it ← rg_load (rg_move doc (doc +[32] 1) (rg_max_doc it) it); Some (doc, it)
  else if negb (doc_limits.valid (rg_doc it)) then
    it ← rg_load (rg_move (rg_min_doc it) (rg_min_doc it +[32] 1) (rg_max_doc it) it); Some (rg_doc it, it)
  else if rg_doc it <? doc then
    Some (doc_limits.eof, rg_set_payload [] (rg_reader it) (rg_move doc_limits.eof doc_limits.eof doc_limits.invalid it))
  else Some (rg_doc it, it).

Definition range_next (it : range_column_iterator) : option (bool * range_column_iterator) :=
  if rg_min_doc it <=? rg_max_doc it then
    it ← rg_load (rg_move (rg_min_doc it) (rg_min_doc it +[32] 1) (rg_max_doc it) it); Some (true, it)
  else Some (false, rg_set_payload [] (rg_reader it) (rg_move doc_limits.eof (rg_min_doc it) (rg_max_doc it) it)).

Definition range_reset (it : range_column_iterator) : range_column_iterator :=
  rg_move doc_limits.invalid (rg_min_base it) (wrap 32 (rg_min_base it + wrap 32 (rg_cost it - 1))) it.

(** The function of the attribute [prev_doc] *)
Definition range_prev_doc (it : range_column_iterator) : Z :=
  if (rg_min_base it <? rg_doc it) && (rg_doc it <=? rg_max_doc it) then rg_doc it -[32] 1
  else if rg_max_doc it <? rg_doc it then rg_max_doc it
  else doc_limits.invalid.

#[global] Instance range_doc_iterator : DocIterator range_column_iterator := {
  value := rg_doc; next := range_next; seek := range_seek;
}.

End range.

Arguments range_column_iterator : clear implicits.

(** ** [bitmap_column_iterator] *)

Section bitmap_column.
Context {R S : Type} {PR : PayloadReader R} {DI : DataInput S} {II : IndexInput S} {FI : FileInput S}.

Record bitmap_column_iterator := mkBitmapColumn {
  bc_reader : R;
  bc_bitmap : sparse_bitmap_iterator S;
  bc_payload : list Z;
}.

Definition bitmap_column_make (in_ : S) (blocks : list block) (use_block_index written track : bool) (r : R) : bitmap_column_iterator :=
  mkBitmapColumn r (bitmap_make in_ blocks use_block_index written track) [].

Definition bc_load (bitmap : sparse_bitmap_iterator S) (it : bitmap_column_iterator) : option bitmap_column_iterator :=
  '(v, r) ← payload (si_value_index bitmap) (bc_reader it); Some (mkBitmapColumn r bitmap v).

Definition bitmap_column_seek (doc : Z) (it : bitmap_column_iterator) : option (Z * bitmap_column_iterator) :=
  '(doc, bitmap) ← bitmap_seek doc (bc_bitmap it);
  if negb (doc_limits.is_eof doc) then
    it ← bc_load bitmap it; Some (doc, it)
  else Some (doc_limits.eof, mkBitmapColumn (bc_reader it) bitmap []).

Definition bitmap_column_next (it : bitmap_column_iterator) : option (bool * bitmap_column_iterator) :=
  '(more, bitmap) ← bitmap_next (bc_bitmap it);
  if more : bool then
    it ← bc_load bitmap it; Some (true, it)
  else Some (false, mkBitmapColumn (bc_reader it) bitmap []).

Definition bitmap_column_reset (it : bitmap_column_iterator) : bitmap_column_iterator :=
  mkBitmapColumn (bc_reader it) (bitmap_reset (bc_bitmap it)) (bc_payload it).

#[global] Instance bitmap_column_doc_iterator : DocIterator bitmap_column_iterator := {
  value it := si_doc (bc_bitmap it); next := bitmap_column_next; seek := bitmap_column_seek;
}.

End bitmap_column.

Arguments bitmap_column_iterator : clear implicits.

(** ** The value at a document *)

(** What a column over [docs] with the values [vals] shows at [d]: its value, and nothing at the end *)
Definition shows (docs : list Z) (vals : list (list Z)) (d : Z) (v : list Z) : Prop :=
  (d = doc_limits.eof -> v = []) /\ forall i, docs !! i = Some d -> vals !! i = Some v.

Lemma sorted_lookup_lt l (i j : nat) a b : StronglySorted Z.lt l -> l !! i = Some a -> l !! j = Some b -> (i < j)%nat -> a < b.
Proof.
  intros Hs. revert i j. induction Hs as [|x l Hs IH Hx]; intros [|i] [|j] Hi Hj Hij; try done; try lia.
  - injection Hi as <-. cbn in Hj. rewrite Forall_forall in Hx. by eapply Hx, list_elem_of_lookup_2.
  - apply (IH i j); done || lia.
Qed.

(** Runs of an iterator whose calls keep an invariant that shows the values *)
Lemma run_shows {S} `{DocIterator S} (P : Z -> bool) (inv : S -> Prop) :
  (forall s v', inv s -> first_from P (value s + 1) v' -> exists s',
     next s = Some (negb (doc_limits.is_eof v'), s') /\ inv s' /\ value s' = v') ->
  (forall s t v', inv s -> doc_limits.min <= t <= doc_limits.eof -> value s <= t -> first_from P t v' -> exists s',
     seek t s = Some (v', s') /\ inv s' /\ value s' = v') ->
  forall calls s vs, inv s -> cursor_trace P (value s) calls vs -> exists s', run calls s = Some (vs, s') /\ inv s' /\
    (forall v, last vs = Some v -> value s' = v).
Proof.
  intros Hnext Hseek. induction calls as [|c calls IH]; intros s vs Hs Ht; inversion Ht as [|? ? v' ? vs' Hc Htr]; subst; [by exists s|].
  assert (forall s', inv s' -> value s' = v' -> exists s2, run calls s' = Some (vs', s2) /\ inv s2 /\
    (forall v, last (v' :: vs') = Some v -> value s2 = v)) as Hrest.
  { intros s' Hs' E. rewrite <-E in Htr. destruct (IH s' vs' Hs' Htr) as (s2 & E2 & H2 & Hl). exists s2. split; [done|]. split; [done|].
    intros v Hv. rewrite last_cons in Hv. destruct (last vs') as [x|] eqn:El; [by apply Hl|]. injection Hv as <-.
    apply last_None in El. subst vs'. inversion Htr; subst. cbn in E2. by injection E2 as <-. }
  inversion Hc as [? ? HF|? t ? H1 H2 HF]; subst.
  - destruct (Hnext s v' Hs HF) as (s' & E & Hs' & Ev). destruct (Hrest s' Hs' Ev) as (s2 & E2 & H2).
    exists s2. split; [|done]. cbn [run]. rewrite E. cbn [mbind option_bind]. rewrite Ev, E2. by destruct (doc_limits.is_eof v').
  - destruct (Hseek s t v' Hs H1 H2 HF) as (s' & E & Hs' & Ev). destruct (Hrest s' Hs' Ev) as (s2 & E2 & H3).
    exists s2. split; [|done]. cbn [run]. rewrite E. cbn [mbind option_bind]. rewrite Ev, Z.eqb_refl. cbn [negb]. by rewrite E2.
Qed.

(** ** Bitmap columns *)

Section bitmap_lemmas.
Context {R S : Type} {PR : PayloadReader R} {PS : PayloadReaderSpec R} {DI : DataInput S} {DIS : DataInputSpec S}
  {II : IndexInput S} {IIS : IndexInputSpec S} {FI : FileInput S} {FS : FileInputSpec S}.
Context (docs : list Z) (vals : list (list Z)) (Hlen : length vals = length docs).
Implicit Types (it : bitmap_column_iterator R S).

Definition bitmap_column_at (T : bool) it : Prop :=
  bitmap_state docs T (bc_bitmap it) /\ serves (bc_reader it) vals /\
  (si_doc (bc_bitmap it) <> doc_limits.invalid -> shows docs vals (si_doc (bc_bitmap it)) (bc_payload it)).

Lemma bitmap_docs T bitmap : bitmap_state docs T bitmap -> StronglySorted Z.lt docs /\ Forall (fun d => doc_limits.min <= d < doc_limits.eof) docs.
Proof using All. intros (f & p0 & track & cs & blocks & Hst & _). by destruct Hst. Qed.

(** Loading the value of the document the bitmap was moved to *)
Lemma bc_load_spec T bitmap it : bitmap_state docs T bitmap -> si_doc bitmap <> doc_limits.invalid -> serves (bc_reader it) vals ->
  if doc_limits.is_eof (si_doc bitmap) then bitmap_column_at T (mkBitmapColumn (bc_reader it) bitmap [])
  else exists it', bc_load bitmap it = Some it' /\ bitmap_column_at T it' /\ bc_bitmap it' = bitmap.
Proof using All.
  intros Hb Hne Hr. destruct (bitmap_docs _ _ Hb) as [Hs Hd]. destruct (doc_limits.is_eof (si_doc bitmap)) eqn:Ee.
  - apply is_eof_spec in Ee. split; [done|]. split; [done|]. intros _. split; [done|]. cbn [bc_bitmap]. rewrite Ee. intros i Hi.
    apply list_elem_of_lookup_2 in Hi. rewrite Forall_forall in Hd. apply Hd in Hi. lia.
  - destruct (bitmap_state_rank _ _ _ Hb Hne) as (i & Ei & Hi & _).
    assert (docs !! i = Some (si_doc bitmap)) as Hi'.
    { apply lookup_app_Some in Hi as [Hi|[_ Hi]]; [done|]. apply list_lookup_singleton_Some in Hi as [_ Hi]. symmetry in Hi. apply is_eof_spec in Hi. congruence. }
    pose proof (lookup_lt_Some _ _ _ Hi') as Hlt. rewrite <-Hlen in Hlt. destruct (lookup_lt_is_Some_2 _ _ Hlt) as [v Hv].
    destruct (payload_spec (bc_reader it) vals i v Hr Hv) as (r' & E & Hr'). unfold bc_load. rewrite Ei, E. cbn [mbind option_bind].
    eexists. split; [reflexivity|]. split; [|done]. split; [done|]. split; [done|]. intros _. split.
    + intros Hc. apply is_eof_spec in Hc. cbn in Hc. congruence.
    + intros j Hj. cbn [bc_bitmap] in Hj. assert (j = i) as ->; [|done].
      destruct (Nat.lt_trichotomy i j) as [Hij|[?|Hij]]; [|done|]; exfalso.
      * pose proof (sorted_lookup_lt docs i j _ _ Hs Hi' Hj Hij). lia.
      * pose proof (sorted_lookup_lt docs j i _ _ Hs Hj Hi' Hij). lia.
Qed.

Lemma bitmap_column_next_spec T it v' : bitmap_column_at T it -> first_from (is_doc docs) (value it + 1) v' -> exists it',
  next it = Some (negb (doc_limits.is_eof v'), it') /\ bitmap_column_at T it' /\ value it' = v'.
Proof using All.
  intros (Hb & Hr & Hp) HF. destruct (bitmap_state_spec _ _ _ Hb) as (L & HB & HM).
  destruct (next_spec (bc_bitmap it) (is_doc docs) (HM _ (fun _ => eq_refl))) as (b' & E & Hm & HF').
  pose proof (HB b' (ex_intro _ _ Hm)) as Hb'. pose proof (matches_docs _ _ Hm) as HP. cbn [value bitmap_doc_iterator] in HF'.
  assert (si_doc b' = v') as Ev by (by eapply first_from_unique). cbn [next bitmap_column_doc_iterator]. unfold bitmap_column_next.
  cbn [next bitmap_doc_iterator value] in E. rewrite E, Ev. cbn [mbind option_bind].
  assert (si_doc b' <> doc_limits.invalid) as Hne.
  { rewrite Ev. cbn [value bitmap_column_doc_iterator] in HF. pose proof (position_range _ HP _ (matches_position _ _ (HM _ (fun _ => eq_refl)))) as Hpos.
    cbn in Hpos. destruct HF as [[->|[? _]] _]; doc_lia. }
  pose proof (bc_load_spec T b' it Hb' Hne Hr) as Hl. rewrite Ev in Hl. destruct (doc_limits.is_eof v'); cbn [negb].
  - eexists. split; [reflexivity|]. by split.
  - destruct Hl as (it' & -> & H1 & H2). cbn [mbind option_bind]. exists it'. split; [done|]. split; [done|]. cbn. by rewrite H2.
Qed.

Lemma bitmap_column_seek_spec T it t v' : bitmap_column_at T it -> doc_limits.min <= t <= doc_limits.eof -> value it <= t ->
  first_from (is_doc docs) t v' -> exists it', seek t it = Some (v', it') /\ bitmap_column_at T it' /\ value it' = v'.
Proof using All.
  intros (Hb & Hr & Hp) Ht Hle HF. destruct (bitmap_state_spec _ _ _ Hb) as (L & HB & HM).
  destruct (seek_spec (bc_bitmap it) (is_doc docs) t (HM _ (fun _ => eq_refl)) Ht Hle) as (b' & E & Hm & HF').
  pose proof (HB b' (ex_intro _ _ Hm)) as Hb'. pose proof (matches_docs _ _ Hm) as HP. cbn [value bitmap_doc_iterator] in HF'.
  assert (si_doc b' = v') as Ev by (by eapply first_from_unique). cbn [seek bitmap_column_doc_iterator]. unfold bitmap_column_seek.
  cbn [seek bitmap_doc_iterator value] in E. rewrite E, Ev. cbn [mbind option_bind].
  assert (si_doc b' <> doc_limits.invalid) as Hne by (rewrite Ev; destruct HF as [[->|[? _]] _]; doc_lia).
  pose proof (bc_load_spec T b' it Hb' Hne Hr) as Hl. rewrite Ev in Hl. destruct (doc_limits.is_eof v') eqn:Ee; cbn [negb].
  - apply is_eof_spec in Ee. subst v'. eexists. split; [by rewrite Ee|]. by split.
  - destruct Hl as (it' & -> & H1 & H2). cbn [mbind option_bind]. exists it'. split; [done|]. split; [done|]. cbn. by rewrite H2.
Qed.

End bitmap_lemmas.

(** ** Range columns *)

Section range_lemmas.
Context {R : Type} {PR : PayloadReader R} {PS : PayloadReaderSpec R}.
Context (vals : list (list Z)) (min : Z) (T : bool) (Hmin : doc_limits.min <= min) (Hne : vals <> [])
  (Hmax : min + Z.of_nat (length vals) <= doc_limits.eof).
Implicit Types (it : range_column_iterator R).

Abbreviation count := (Z.of_nat (length vals)).
Definition range_docs : list Z := seqZ min count.

Lemma count_pos : 0 < count.
Proof using All. destruct vals; [done|cbn; lia]. Qed.

Lemma in_range d : is_doc range_docs d = true <-> min <= d < min + count.
Proof using All. unfold is_doc. rewrite bool_decide_eq_true. unfold range_docs. rewrite elem_of_seqZ. done. Qed.

Lemma range_first t v : t <= v -> (v = doc_limits.eof /\ min + count <= t \/ v = t /\ min <= t < min + count \/ v = min /\ t <= min) ->
  first_from (is_doc range_docs) t v.
Proof using All.
  pose proof count_pos. intros Htv Hc. split.
  - destruct Hc as [[-> _]|[[-> F1]|[-> F1]]]; [by left|right; split; [done|by apply in_range]|right; split; [lia|apply in_range; lia]].
  - intros d Hd. destruct (is_doc range_docs d) eqn:E; [|done]. apply in_range in E. lia.
Qed.

Lemma range_doc_set : doc_set (is_doc range_docs).
Proof using All. intros d Hd%in_range. lia. Qed.

Record range_static it : Prop := {
  rs_base : rg_min_base it = min;
  rs_cost : rg_cost it = count;
  rs_track : rg_track_prev it = T;
  rs_serves : serves (rg_reader it) vals;
}.

(** Before the first call *)
Definition range_fresh it : Prop :=
  range_static it /\ rg_doc it = doc_limits.invalid /\ rg_min_doc it = min /\ rg_max_doc it = min + count - 1.

(** On a document, or at the end *)
Definition range_at it : Prop := range_static it /\ shows range_docs vals (rg_doc it) (rg_payload it) /\
  (min <= rg_doc it < min + count /\ rg_min_doc it = rg_doc it + 1 /\ rg_max_doc it = min + count - 1 \/
   rg_doc it = doc_limits.eof /\ rg_max_doc it < rg_min_doc it /\ rg_max_doc it < doc_limits.eof).

Lemma range_make_fresh r : serves r vals -> range_fresh (range_make min count T r).
Proof using All.
  intros Hr. pose proof count_pos. split; [by split|]. split; [done|]. split; [done|]. cbn [range_make rg_max_doc].
  apply wrap_small. unfold is_word. doc_lia.
Qed.

Lemma range_load_spec it d : range_static it -> min <= d < min + count -> rg_max_doc it = min + count - 1 -> exists it',
  rg_load (rg_move d (d +[32] 1) (rg_max_doc it) it) = Some it' /\ range_at it' /\ rg_doc it' = d.
Proof using All.
  intros [H1 H2 H3 H4] Hd Hm. unfold rg_load. cbn [rg_move rg_doc rg_min_base rg_reader]. rewrite H1.
  rewrite !wrap_small by (unfold is_word; doc_lia).
  destruct (lookup_lt_is_Some_2 vals (Z.to_nat (d - min)) ltac:(lia)) as [v Hv].
  destruct (payload_spec (rg_reader it) vals _ v H4 Hv) as (r' & E & Hr'). rewrite Z2Nat.id in E by lia. rewrite E. cbn [mbind option_bind].
  eexists. split; [reflexivity|]. split; [|done]. split; [by split|]. cbn [rg_set_payload rg_doc rg_payload rg_min_doc rg_max_doc]. split; [|by left].
  split; [intros Hc; cbn in Hc; exfalso; lia|]. intros i Hi. apply lookup_seqZ in Hi as [Hi _]. cbn in Hi. assert (i = Z.to_nat (d - min)) as -> by lia. done.
Qed.

Lemma range_end_shows : shows range_docs vals doc_limits.eof [].
Proof using All.
  split; [done|]. intros i Hi. apply lookup_seqZ in Hi. lia.
Qed.

Lemma range_next_spec it v' : range_fresh it \/ range_at it -> first_from (is_doc range_docs) (value it + 1) v' -> exists it',
  next it = Some (negb (doc_limits.is_eof v'), it') /\ range_at it' /\ value it' = v'.
Proof using All.
  intros Hs HF. pose proof count_pos. cbn [next value range_doc_iterator] in *. unfold range_next.
  assert (forall d, min <= d < min + count -> range_static it -> rg_min_doc it = d -> rg_max_doc it = min + count - 1 -> first_from (is_doc range_docs) (rg_doc it + 1) d ->
    exists it', (if rg_min_doc it <=? rg_max_doc it then
      it ← rg_load (rg_move (rg_min_doc it) (rg_min_doc it +[32] 1) (rg_max_doc it) it); Some (true, it)
      else Some (false, rg_set_payload [] (rg_reader it) (rg_move doc_limits.eof (rg_min_doc it) (rg_max_doc it) it))) =
        Some (negb (doc_limits.is_eof v'), it') /\ range_at it' /\ rg_doc it' = v') as Hmove.
  { intros d Hd Hst <- Hmx HFd. assert (rg_min_doc it = v') as Ev by (eapply first_from_unique; [apply range_doc_set|done|done]).
    destruct (range_load_spec it (rg_min_doc it) Hst Hd Hmx) as (it' & E & H1 & H2).
    destruct (Z.leb_spec (rg_min_doc it) (rg_max_doc it)); [|lia]. rewrite E. cbn [mbind option_bind]. exists it'.
    split; [|split; [done|by rewrite H2]]. rewrite <-Ev. unfold doc_limits.is_eof. rewrite (proj2 (Z.eqb_neq _ _)) by doc_lia. done. }
  assert (rg_max_doc it < rg_min_doc it -> rg_max_doc it < doc_limits.eof -> range_static it -> v' = doc_limits.eof ->
    exists it', (if rg_min_doc it <=? rg_max_doc it then
      it ← rg_load (rg_move (rg_min_doc it) (rg_min_doc it +[32] 1) (rg_max_doc it) it); Some (true, it)
      else Some (false, rg_set_payload [] (rg_reader it) (rg_move doc_limits.eof (rg_min_doc it) (rg_max_doc it) it))) =
        Some (negb (doc_limits.is_eof v'), it') /\ range_at it' /\ rg_doc it' = v') as Hend.
  { intros Hlt Hlt2 [] ->. destruct (Z.leb_spec (rg_min_doc it) (rg_max_doc it)); [lia|]. eexists. split; [reflexivity|]. split; [|done].
    split; [by split|]. split; [apply range_end_shows|]. right. by cbn. }
  destruct Hs as [(Hst & Hd & Hmi & Hmx)|(Hst & _ & [(Hd & Hmi & Hmx)|(Hd & Hlt & Hlt2)])].
  - apply (Hmove min); [lia|done|done|done|]. rewrite Hd. apply range_first; [doc_lia|]. right; right. doc_lia.
  - destruct (decide (rg_doc it + 1 < min + count)).
    + apply (Hmove (rg_doc it + 1)); [lia|done|done|done|]. apply range_first; [lia|]. right; left. lia.
    + apply Hend; [lia|doc_lia|done|]. eapply first_from_unique; [apply range_doc_set|done|]. apply range_first; [doc_lia|]. left. lia.
  - apply Hend; [done|done|done|]. eapply first_from_eof; [apply range_doc_set|done|]. lia.
Qed.

Lemma range_seek_spec it t v' : range_fresh it /\ t < min + count \/ range_at it -> doc_limits.min <= t <= doc_limits.eof ->
  value it <= t -> first_from (is_doc range_docs) t v' -> exists it', seek t it = Some (v', it') /\ range_at it' /\ value it' = v'.
Proof using All.
  intros Hs Ht Hle HF. pose proof count_pos. cbn [seek value range_doc_iterator] in *. unfold range_seek.
  assert (range_static it) as Hst by (destruct Hs as [[[? _] _]|[? _]]; done).
  assert (forall v, first_from (is_doc range_docs) t v -> v = v') as Hu by (intros v Hv; eapply first_from_unique; [apply range_doc_set|done|done]).
  destruct ((rg_min_doc it <=? t) && (t <=? rg_max_doc it)) eqn:Ein.
  - apply andb_true_iff in Ein as [E1%Z.leb_le E2%Z.leb_le].
    assert (rg_max_doc it = min + count - 1 /\ min <= t < min + count) as [Emx Hin].
    { destruct Hs as [[(_ & _ & ? & ?) _]|(_ & _ & [?|?])]; lia. }
    destruct (range_load_spec it t Hst Hin Emx) as (it' & E & H1 & H2). rewrite E. cbn [mbind option_bind]. exists it'.
    assert (t = v') as <- by (apply Hu, range_first; [lia|right; left; lia]). done.
  - apply andb_false_iff in Ein. destruct (doc_limits.valid (rg_doc it)) eqn:Ev; cbn [negb].
    + destruct Hs as [[(_ & Hd & _) _]|(_ & Hsh & Hcase)]; [by rewrite Hd in Ev|]. destruct (Z.ltb_spec (rg_doc it) t) as [Hlt|Hge].
      * assert (doc_limits.eof = v') as <-. { apply Hu, range_first; [lia|]. left. split; [done|]. destruct Hcase as [?|?]; [|lia]. destruct Ein as [?%Z.leb_gt|?%Z.leb_gt]; lia. }
        eexists. split; [reflexivity|]. split; [|done]. destruct Hst. split; [by split|]. split; [apply range_end_shows|]. right. cbn. doc_lia.
      * assert (rg_doc it = v') as <-. { apply Hu, range_first; [lia|]. destruct Hcase as [?|?]; [right; left; lia|left; lia]. }
        eexists. split; [reflexivity|]. done.
    + apply negb_false_iff, Z.eqb_eq in Ev. destruct Hs as [[(_ & Hd & Hmi & Hmx) Htm]|(_ & _ & [?|?])]; [|doc_lia|doc_lia].
      rewrite Hmi. destruct (range_load_spec it min Hst ltac:(lia) Hmx) as (it' & E & H1 & H2). rewrite E. cbn [mbind option_bind]. exists it'.
      assert (min = v') as <-. { apply Hu, range_first; [destruct Ein as [?%Z.leb_gt|?%Z.leb_gt]; lia|]. right; right. destruct Ein as [?%Z.leb_gt|?%Z.leb_gt]; lia. }
      by rewrite H2.
Qed.

(** The run of a fresh iterator, whose first call is not a [seek] behind the documents *)
Lemma range_run calls vs r : serves r vals -> cursor_trace (is_doc range_docs) doc_limits.invalid calls vs ->
  (forall t rest, calls = Seek t :: rest -> t < min + count) -> exists it,
  run calls (range_make min count T r) = Some (vs, it) /\ forall v, last vs = Some v -> rg_doc it = v /\ range_at it.
Proof using All.
  intros Hr Htr Hfirst. pose proof (range_make_fresh r Hr) as Hfr.
  set (it0 := range_make min count T r) in *. assert (value it0 = doc_limits.invalid) as Ev0 by done.
  inversion Htr as [|? c v1 cs vs1 Hc Htr1]; subst; [by exists it0|].
  assert (exists it1, (forall l, run (c :: cs) it0 = Some (v1 :: l.1, l.2) <-> run cs it1 = Some l) /\ range_at it1 /\ value it1 = v1) as (it1 & Hrun & Hat & Ev1).
  { inversion Hc as [? ? HF|? t ? H1 H2 HF]; subst.
    - destruct (range_next_spec it0 v1 (or_introl Hfr) HF) as (it1 & E & H1 & H2). exists it1. split; [|done]. intros [l it']. cbn [run fst snd].
      rewrite E. cbn [mbind option_bind]. rewrite H2. destruct (run cs it1) as [[l2 it2]|]; destruct (doc_limits.is_eof v1); cbn; split; congruence.
    - destruct (range_seek_spec it0 t v1 (or_introl (conj Hfr (Hfirst t cs eq_refl))) H1 H2 HF) as (it1 & E & H3 & H4). exists it1. split; [|done].
      intros [l it']. cbn [run fst snd]. rewrite E. cbn [mbind option_bind]. rewrite H4, Z.eqb_refl. cbn [negb].
      destruct (run cs it1) as [[l2 it2]|]; cbn; split; congruence. }
  rewrite <-Ev1 in Htr1.
  destruct (run_shows (is_doc range_docs) range_at (fun s v' Hs => range_next_spec s v' (or_intror Hs))
    (fun s t v' Hs => range_seek_spec s t v' (or_intror Hs)) cs it1 vs1 Hat Htr1) as (it & E & Hit & Hl).
  exists it. split; [by apply (Hrun (vs1, it))|]. intros v Hv. split; [|done]. rewrite last_cons in Hv. destruct (last vs1) as [x|] eqn:El.
  - injection Hv as <-. by apply Hl.
  - injection Hv as <-. apply last_None in El. subst vs1. inversion Htr1; subst. cbn in E. by injection E as <-.
Qed.

(** The document before the current one *)
Lemma range_prev it : range_at it -> rg_doc it <> doc_limits.eof ->
  range_prev_doc it = if rg_doc it =? min then doc_limits.invalid else rg_doc it - 1.
Proof using All.
  intros ([H1 _ _ _] & _ & [(Hd & Hmi & Hmx)|(Hd & _)]) Hn; [|done]. unfold range_prev_doc. rewrite H1, Hmx.
  destruct (Z.eqb_spec (rg_doc it) min), (Z.ltb_spec min (rg_doc it)), (Z.leb_spec (rg_doc it) (min + count - 1)), (Z.ltb_spec (min + count - 1) (rg_doc it)); cbn; try lia.
  apply wrap_small. unfold is_word. doc_lia.
Qed.

End range_lemmas.
