(* ===== verification/ColumnValues.v ===== *)
(** * Reading the values of columns

    The value readers of core/formats/columnstore2.cpp (direct access to the file, reads from a stream into a
    buffer, with and without decryption) and the payload readers of its kinds of columns, which find the
    value of a document by its position in the column. *)
From S2P Require Import Prelude Outcome BitUtils BytesIO Streams FileStreams StoreUtils Encryption BitPacking BlockCodec DocIterators SparseBitmap SparseBitmapWriter ColumnFormat ColumnIterators.

(** ** Value readers *)

Section values.
Context {I C : Type} {DI : DataInput I} {II : IndexInput I} {EC : EncryptionStream C} (big : bool).

Inductive value_reader :=
  | value_direct_reader (data_ : list Z)
  | stream_value_reader (Resize : bool) (buf_ : list Z) (data_in_ : I)
  | encrypted_value_reader (Resize : bool) (buf_ : list Z) (data_in_ : I) (cipher_ : C).

(** [index_input::read_bytes(offset, b, count)] *)
Definition read_bytes_at (offset : Z) (count : nat) (in_ : I) : list Z * I := read_bytes count (Streams.seek (Z.to_nat offset) in_).

(** [length] bytes at the start of the buffer: [None] when it is smaller. *)
Definition read_into (offset length_ : Z) (buf : list Z) (in_ : I) : option (list Z * I) :=
  if decide (length buf < Z.to_nat length_)%nat then None
  else let '(bs, in_) := read_bytes_at offset (Z.to_nat length_) in_ in Some (poke 0 bs buf, in_).

Definition value (offset length_ : Z) (r : value_reader) : option (list Z * value_reader) :=
  match r with
  | value_direct_reader data =>
      if decide (Z.of_nat (length data) < offset + length_) then None
      else Some (take (Z.to_nat length_) (drop (Z.to_nat offset) data), r)
  | stream_value_reader Resize buf in_ =>
      let buf := if Resize then resize (Z.to_nat length_) buf else buf in
      '(buf, in_) ← read_into offset length_ buf in_;
      Some (take (Z.to_nat length_) buf, stream_value_reader Resize buf in_)
  | encrypted_value_reader Resize buf in_ cipher =>
      let buf := if Resize then resize (Z.to_nat length_) buf else buf in
      '(buf, in_) ← read_into offset length_ buf in_;
      '(_, data) ← decrypt offset (take (Z.to_nat length_) buf) cipher;
      let buf := poke 0 data buf in
      Some (take (Z.to_nat length_) buf, encrypted_value_reader Resize buf in_ cipher)
  end.

(** ** Payload readers *)

(** The payload readers of the kinds of columns: [dense_fixed_length_column], [fixed_length_column],
    [sparse_column], and [noop_value_reader] *)
Inductive payload_reader :=
  | noop_value_reader
  | dense_fixed_payload_reader (data_ len_ : Z) (r : value_reader)
  | fixed_payload_reader (blocks_ : list Z) (len_ : Z) (r : value_reader)
  | sparse_payload_reader (blocks_ : list sparse_block) (r : value_reader).

(** The packed deltas of a block of 64 addresses: from the file, or in a buffer *)
Definition addr_at (offset : Z) (n : nat) (r : value_reader) : option (list Z * value_reader) :=
  match r with
  | value_direct_reader data =>
      if decide (length data < Z.to_nat offset + n)%nat then None else Some (take n (drop (Z.to_nat offset) data), r)
  | stream_value_reader Resize buf in_ =>
      '(buf, in_) ← read_into offset (Z.of_nat n) (resize n buf) in_;
      Some (buf, stream_value_reader Resize buf in_)
  | encrypted_value_reader Resize buf in_ cipher =>
      '(buf, in_) ← read_into offset (Z.of_nat n) (resize n buf) in_;
      Some (buf, encrypted_value_reader Resize buf in_ cipher)
  end.
(** The next such block: [addr_buf += block_size], or [read_bytes] from where the stream is *)
Definition addr_next (offset : Z) (n : nat) (r : value_reader) : option (list Z * value_reader) :=
  match r with
  | value_direct_reader data => addr_at offset n r
  | stream_value_reader Resize buf in_ =>
      let '(bs, in_) := read_bytes n in_ in
      let buf := poke 0 bs (resize n buf) in
      Some (buf, stream_value_reader Resize buf in_)
  | encrypted_value_reader Resize buf in_ cipher =>
      let '(bs, in_) := read_bytes n in_ in
      let buf := poke 0 bs (resize n buf) in
      Some (buf, encrypted_value_reader Resize buf in_ cipher)
  end.

(** [zig_zag_decode64(packed::fastpack_at(addr_buf, value_index, bits))] *)
Definition delta_at (addr_buf : list Z) (value_index bits : Z) : option Z :=
  d ← packed.fastpack_at_64 (words_of_bytes big W64 (Z.to_nat bits) addr_buf) value_index bits;
  Some (wrap 64 (Bit.zig_zag_decode64 d)).

Definition sparse_payload (blocks : list sparse_block) (i : Z) (r : value_reader) : option (list Z * value_reader) :=
  '(block, last) ← blocks !! Z.to_nat (i / kBlockSize);
  let index := i mod kBlockSize in
  if bitpack.ALL_EQUAL =? cb_bits block then
    let addr := wrap 64 (cb_data block + cb_avg block * index) in
    value addr (if last =? index then cb_last_size block else cb_avg block) r
  else
    let block_size := cb_bits block * 8 in
    let block_index := index / 64 in
    let value_index := index mod 64 in
    let addr_offset := wrap 64 (cb_addr block + block_index * block_size) in
    '(addr_buf, r) ← addr_at addr_offset (Z.to_nat block_size) r;
    start_delta ← delta_at addr_buf value_index (cb_bits block);
    let start := wrap 64 (cb_avg block * index + start_delta) in
    '(length_, r) ←
      (if negb (last =? index) then
         '(addr_buf, value_index, r) ←
           (if value_index + 1 =? 64 then
              '(addr_buf, r) ← addr_next (wrap 64 (addr_offset + block_size)) (Z.to_nat block_size) r;
              Some (addr_buf, 0, r)
            else Some (addr_buf, value_index + 1, r));
         end_delta ← delta_at addr_buf value_index (cb_bits block);
         Some (wrap 64 (end_delta - start_delta + cb_avg block), r)
       else Some (cb_last_size block, r));
    value (wrap 64 (cb_data block + start)) length_ r.

Definition column_payload (i : Z) (p : payload_reader) : option (list Z * payload_reader) :=
  match p with
  | noop_value_reader => Some ([], p)
  | dense_fixed_payload_reader data len r =>
      '(v, r) ← value (wrap 64 (data + len * i)) len r; Some (v, dense_fixed_payload_reader data len r)
  | fixed_payload_reader blocks len r =>
      block ← blocks !! Z.to_nat (i / kBlockSize);
      '(v, r) ← value (wrap 64 (block + len * (i mod kBlockSize))) len r; Some (v, fixed_payload_reader blocks len r)
  | sparse_payload_reader blocks r =>
      '(v, r) ← sparse_payload blocks i r; Some (v, sparse_payload_reader blocks r)
  end.

End values.

Arguments value_reader : clear implicits.
Arguments payload_reader : clear implicits.

(** ** Data in files *)

(** The bytes [bs] are at the position [p] of the file [g]. *)
Definition holds (g : list Z) (p : nat) (bs : list Z) : Prop := exists l r, g = l ++ bs ++ r /\ length l = p.

Lemma holds_app g p bs rest : holds g p bs -> holds (g ++ rest) p bs.
Proof. intros (l & r & -> & Hl). exists l, (r ++ rest). by rewrite <-!app_assoc. Qed.

Lemma holds_end g bs : holds (g ++ bs) (length g) bs.
Proof. exists g, []. by rewrite app_nil_r. Qed.

Lemma holds_bound g p bs : holds g p bs -> (p + length bs <= length g)%nat.
Proof. intros (l & r & -> & <-). rewrite !length_app. lia. Qed.

Lemma holds_piece g p bs (k n : nat) : holds g p bs -> (k + n <= length bs)%nat -> holds g (p + k) (take n (drop k bs)).
Proof.
  intros (l & r & -> & <-) Hn. exists (l ++ take k bs), (drop n (drop k bs) ++ r). split.
  - rewrite <-!app_assoc. f_equal. rewrite (app_assoc (take n _)), take_drop, app_assoc, take_drop. done.
  - rewrite length_app, length_take. lia.
Qed.

Lemma holds_read g p bs : holds g p bs -> take (length bs) (drop p g) = bs.
Proof. intros (l & r & -> & <-). by rewrite drop_app_length, take_app_length. Qed.

(** The stored form of data at an offset: as it is, or encrypted *)
Definition stored_form {C} `{EncryptionStreamSpec C} (c : option C) (o : Z) (l : list Z) : list Z :=
  match c with Some c => image c o l | None => l end.

Lemma stored_length {C} `{EncryptionStreamSpec C} c o l : length (stored_form c o l) = length l.
Proof. destruct c; [apply image_length|done]. Qed.

Lemma stored_piece {C} `{EncryptionStreamSpec C} c o (k n : nat) l : (k <= length l)%nat ->
  take n (drop k (stored_form c o l)) = stored_form c (o + Z.of_nat k) (take n (drop k l)).
Proof. intros Hk. destruct c; [by apply image_piece|done]. Qed.

Lemma poke_all {A} (bs data : list A) : (length bs <= length data)%nat -> take (length bs) (poke 0 bs data) = bs.
Proof. intros H. unfold poke. rewrite take_0, app_nil_l. by rewrite take_app_length. Qed.

(** ** Reading values *)

Section reading.
Context {I C : Type} {DI : DataInput I} {DIS : DataInputSpec I} {II : IndexInput I} {IIS : IndexInputSpec I}
  {FI : FileInput I} {FS : FileInputSpec I} {EC : EncryptionStream C} {ES : EncryptionStreamSpec C}.
(** The file: what the column wrote, and the footer *)
Context (g rest : list Z) (Hrest : rest <> []) (Hsize : Z.of_nat (length (g ++ rest)) < 2 ^ 64).
Implicit Types (r : value_reader I C) (v bs : list Z) (p k n : nat).

Definition on_file r (c : option C) : Prop :=
  match r with
  | value_direct_reader data => data = g ++ rest /\ c = None
  | stream_value_reader _ _ in_ => (exists q, at_ (g ++ rest) q in_) /\ c = None
  | encrypted_value_reader _ _ in_ cipher => (exists q, at_ (g ++ rest) q in_) /\ stream_ok cipher /\ c = Some cipher
  end.

(** A value of [n] bytes fits in the buffer. *)
Definition fits n r : Prop :=
  match r with
  | value_direct_reader _ => True
  | stream_value_reader Resize buf _ | encrypted_value_reader Resize buf _ _ => Resize = true \/ (n <= length buf)%nat
  end.

Lemma rest_length : (0 < length rest)%nat.
Proof using All. destruct rest; [done|cbn; lia]. Qed.

Lemma read_at q in_ p bs : at_ (g ++ rest) q in_ -> holds g p bs -> exists in_',
  read_bytes_at (Z.of_nat p) (length bs) in_ = (bs, in_') /\ at_ (g ++ rest) (p + length bs) in_'.
Proof using All.
  intros Hat Hh. pose proof (holds_bound _ _ _ Hh). pose proof rest_length. unfold read_bytes_at. rewrite Nat2Z.id.
  pose proof (seek_at _ _ p _ Hat ltac:(rewrite length_app; lia)) as Hs.
  destruct (read_bytes_at_ _ _ (length bs) _ Hs ltac:(rewrite length_app; lia)) as [E H'].
  rewrite (holds_read _ _ _ (holds_app _ _ _ rest Hh)) in E. destruct (read_bytes (length bs) _) as [b in_']. cbn in *. subst. by exists in_'.
Qed.

Lemma read_into_spec q in_ p bs buf : at_ (g ++ rest) q in_ -> holds g p bs -> (length bs <= length buf)%nat -> exists in_',
  read_into (Z.of_nat p) (Z.of_nat (length bs)) buf in_ = Some (poke 0 bs buf, in_') /\ at_ (g ++ rest) (p + length bs) in_'.
Proof using All.
  intros Hat Hh Hl. unfold read_into. rewrite Nat2Z.id, decide_False by lia. destruct (read_at q in_ p bs Hat Hh) as (in_' & -> & H').
  by exists in_'.
Qed.

Lemma buffer_room n Resize (buf : list Z) : (Resize = true \/ (n <= length buf)%nat) -> (n <= length (if Resize then resize n buf else buf))%nat.
Proof using Type. intros [-> | H]; [by rewrite resize_length|]. destruct Resize; [by rewrite resize_length|done]. Qed.

(** A value of the column, stored as part of the data at [p] *)
Lemma value_spec r c p (k : nat) data v : on_file r c -> holds g p (stored_form c (Z.of_nat p) data) ->
  (k + length v <= length data)%nat -> v = take (length v) (drop k data) -> Forall is_byte v -> fits (length v) r ->
  exists r', value (Z.of_nat (p + k)) (Z.of_nat (length v)) r = Some (v, r') /\ on_file r' c /\ forall n, fits n r -> fits n r'.
Proof using All.
  intros Hr Hh Hk Hv Hb Hf. pose proof (holds_piece _ _ _ k (length v) Hh) as Hp. rewrite stored_length in Hp. specialize (Hp Hk).
  rewrite stored_piece in Hp by lia. rewrite <-Hv in Hp. pose proof (holds_bound _ _ _ Hp) as Hbound. rewrite stored_length in Hbound.
  pose proof rest_length as Hpos. pose proof Hsize as Hsz. rewrite length_app in Hsz.
  assert (length (stored_form c (Z.of_nat p + Z.of_nat k) v) = length v) as Hl by apply stored_length.
  remember (stored_form c (Z.of_nat p + Z.of_nat k) v) as w eqn:Ew. rewrite <-Hl in Hf, Hbound |- *.
  destruct r as [data'|Resize buf in_|Resize buf in_ cipher]; cbn [value on_file fits] in *.
  - destruct Hr as [-> ->]. rewrite decide_False by (rewrite length_app; lia). exists (value_direct_reader (g ++ rest)). split; [|by split].
    by rewrite !Nat2Z.id, (holds_read _ _ _ (holds_app _ _ _ rest Hp)), Ew.
  - destruct Hr as [[q Hat] ->]. rewrite Nat2Z.id. pose proof (buffer_room (length w) Resize buf Hf) as Hroom.
    set (buf' := if Resize then resize (length w) buf else buf) in *.
    destruct (read_into_spec q in_ (p + k) w buf' Hat Hp Hroom) as (in_' & -> & Hat'). cbn [mbind option_bind].
    rewrite poke_all by done. exists (stream_value_reader Resize (poke 0 w buf') in_'). split; [by rewrite Ew|]. split; [split; [by eexists|done]|].
    intros n Hn. cbn [fits] in *. rewrite poke_length by lia. unfold buf'. destruct Resize; [by left|]. by destruct Hn as [|Hn]; [left|right].
  - destruct Hr as ([q Hat] & Hc & ->). rewrite Nat2Z.id. pose proof (buffer_room (length w) Resize buf Hf) as Hroom.
    set (buf' := if Resize then resize (length w) buf else buf) in *.
    destruct (read_into_spec q in_ (p + k) w buf' Hat Hp Hroom) as (in_' & -> & Hat'). cbn [mbind option_bind].
    assert (decrypt (Z.of_nat (p + k)) w cipher = Some (true, v)) as Ed.
    { rewrite Ew, Nat2Z.inj_add. apply decrypt_spec; [done|unfold is_word; lia|done]. }
    rewrite poke_all, Ed by done. cbn [mbind option_bind].
    assert (length (poke 0 w buf') = length buf') as Hlb by (rewrite poke_length; lia).
    exists (encrypted_value_reader Resize (poke 0 v (poke 0 w buf')) in_' cipher). split; [|split; [split; [by eexists|done]|]].
    + by rewrite Hl, poke_all by lia.
    + intros n Hn. cbn [fits] in *. rewrite poke_length by lia. rewrite Hlb. unfold buf'. destruct Resize; [by left|]. by destruct Hn as [|Hn]; [left|right].
Qed.

(** *** Tables of addresses *)

(** Where a table reader stands after reading up to [q] *)
Definition stands (q : nat) r : Prop :=
  match r with
  | value_direct_reader _ => True
  | stream_value_reader _ _ in_ | encrypted_value_reader _ _ in_ _ => at_ (g ++ rest) q in_
  end.

Lemma poke_full (bs buf : list Z) : length bs = length buf -> poke 0 bs buf = bs.
Proof using All. intros H. unfold poke. rewrite take_0, app_nil_l, drop_ge by lia. by rewrite app_nil_r. Qed.

Lemma addr_at_spec r c p bs : on_file r c -> holds g p bs -> exists r',
  addr_at (Z.of_nat p) (length bs) r = Some (bs, r') /\ on_file r' c /\ stands (p + length bs) r' /\
  ((forall n, fits n r) -> forall n, fits n r').
Proof using All.
  intros Hr Hh. pose proof (holds_bound _ _ _ Hh). destruct r as [data|Resize buf in_|Resize buf in_ cipher]; cbn [addr_at on_file] in *.
  - destruct Hr as [-> ->]. rewrite Nat2Z.id, decide_False by (rewrite length_app; lia).
    rewrite (holds_read _ _ _ (holds_app _ _ _ rest Hh)). by eexists.
  - destruct Hr as [[q Hat] ->]. destruct (read_into_spec q in_ p bs (resize (length bs) buf) Hat Hh) as (in_' & -> & Hat'); [by rewrite resize_length|].
    cbn [mbind option_bind]. rewrite poke_full by (by rewrite resize_length). eexists. split; [done|]. split; [split; [by eexists|done]|]. split; [done|].
    intros Hf n. destruct (Hf (S (length buf))) as [->|]; [by left|lia].
  - destruct Hr as ([q Hat] & Hc & ->). destruct (read_into_spec q in_ p bs (resize (length bs) buf) Hat Hh) as (in_' & -> & Hat'); [by rewrite resize_length|].
    cbn [mbind option_bind]. rewrite poke_full by (by rewrite resize_length). eexists. split; [done|]. split; [split; [by eexists|done]|]. split; [done|].
    intros Hf n. destruct (Hf (S (length buf))) as [->|]; [by left|lia].
Qed.

Lemma addr_next_spec r c p bs : on_file r c -> stands p r -> holds g p bs -> exists r',
  addr_next (Z.of_nat p) (length bs) r = Some (bs, r') /\ on_file r' c /\ ((forall n, fits n r) -> forall n, fits n r').
Proof using All.
  intros Hr Hst Hh. pose proof (holds_bound _ _ _ Hh). pose proof rest_length.
  destruct r as [data|Resize buf in_|Resize buf in_ cipher]; cbn [addr_next on_file stands] in *.
  - destruct (addr_at_spec (value_direct_reader data) c p bs Hr Hh) as (r' & E & H1 & _ & H2). by exists r'.
  - destruct Hr as [_ ->]. destruct (read_bytes_at_ _ _ (length bs) _ Hst ltac:(rewrite length_app; lia)) as [E Hat'].
    rewrite (holds_read _ _ _ (holds_app _ _ _ rest Hh)) in E. destruct (read_bytes (length bs) in_) as [b in_']. cbn in E, Hat'. subst b.
    rewrite poke_full by (by rewrite resize_length). eexists. split; [done|]. split; [split; [by eexists|done]|].
    intros Hf n. destruct (Hf (S (length buf))) as [->|]; [by left|lia].
  - destruct Hr as (_ & Hc & ->). destruct (read_bytes_at_ _ _ (length bs) _ Hst ltac:(rewrite length_app; lia)) as [E Hat'].
    rewrite (holds_read _ _ _ (holds_app _ _ _ rest Hh)) in E. destruct (read_bytes (length bs) in_) as [b in_']. cbn in E, Hat'. subst b.
    rewrite poke_full by (by rewrite resize_length). eexists. split; [done|]. split; [split; [by eexists|done]|].
    intros Hf n. destruct (Hf (S (length buf))) as [->|]; [by left|lia].
Qed.

End reading.

(** The [k] blocks of 64 deltas of [bits] bits, packed into the words [tw] *)
Record table_of (bits : Z) (k : nat) (deltas tw : list Z) : Prop := {
  tb_bits : 0 < bits <= 64;
  tb_deltas : length deltas = (k * 64)%nat;
  tb_words : length tw = (k * Z.to_nat bits)%nat;
  tb_deltas_fit : Forall (is_word bits) deltas;
  tb_words_fit : Forall (is_word 64) tw;
  tb_value : digits_value 64 tw = digits_value bits deltas;
}.

Definition table_block (bits : Z) (j : nat) (tw : list Z) : list Z := take (Z.to_nat bits) (drop (Z.to_nat bits * j) tw).

Lemma digits_value_take w n l : 0 <= w -> Forall (is_word w) l -> (n <= length l)%nat ->
  digits_value w (take n l) = wrap (w * Z.of_nat n) (digits_value w l).
Proof.
  intros Hw Hl Hn. rewrite <-(take_drop n l) at 2. rewrite packed.digits_value_app, length_take, Nat.min_l by done.
  set (x := digits_value w (take n l)). assert (is_word (w * Z.of_nat n) x) as Hx.
  { pose proof (packed.digits_value_range w (take n l) Hw (Forall_take _ _ _ Hl)) as H. by rewrite length_take, Nat.min_l in H. }
  pose proof (packed.digits_value_nonneg w (drop n l) Hw (Forall_drop _ _ _ Hl)).
  rewrite lor_low_high by (done || nia). rewrite wrap_add_multiple by nia. by rewrite wrap_small.
Qed.

(** Random access in a block of the table *)
Lemma table_at bits k deltas tw (j i : nat) d : table_of bits k deltas tw -> (j < k)%nat -> (i < 64)%nat ->
  deltas !! (64 * j + i)%nat = Some d ->
  packed.fastpack_at_64 (table_block bits j tw) (Z.of_nat i) bits = Some d.
Proof.
  intros [Hb Hd Hw Fd Fw Hv] Hj Hi E. set (N := Z.to_nat bits) in *. assert (Z.of_nat N = bits) as HN by lia. unfold packed.fastpack_at_64.
  assert (N <= length (drop (N * j) tw))%nat as Hlen by (rewrite length_drop; nia).
  rewrite packed.fastpack_at_value; [|lia|lia|unfold table_block; rewrite length_take; fold N; lia|by apply Forall_take, Forall_drop].
  f_equal. unfold table_block. fold N. rewrite digits_value_take by (try apply Forall_drop; done || lia).
  rewrite packed.digits_value_drop, Hv by (done || lia).
  rewrite (packed.digits_value_lookup bits deltas _ d ltac:(lia) Fd E).
  apply Z.bits_inj'. intros b Hb0. rewrite !wrap_testbit by lia. destruct (Z.ltb_spec b bits); [|done]. cbn [andb].
  rewrite Z.shiftr_spec, wrap_testbit, Z.shiftr_spec by nia.
  destruct (Z.ltb_spec (b + bits * Z.of_nat i) (64 * Z.of_nat N)); [|nia]. cbn [andb]. rewrite Z.shiftr_spec by lia. f_equal. nia.
Qed.

Lemma table_block_length bits k deltas tw j : table_of bits k deltas tw -> (j < k)%nat -> length (table_block bits j tw) = Z.to_nat bits.
Proof. intros [] Hj. unfold table_block. rewrite length_take, length_drop. nia. Qed.

Lemma table_block_bytes big bits k deltas tw g p j : table_of bits k deltas tw -> (j < k)%nat ->
  holds g p (bytes_of_words big W64 tw) ->
  holds g (p + 8 * (Z.to_nat bits * j)) (bytes_of_words big W64 (table_block bits j tw)).
Proof.
  intros Ht Hj Hh. pose proof (table_block_length _ _ _ _ j Ht Hj) as Hl. destruct Ht as [Hb Hd Hw Fd Fw Hv].
  assert (bytes_of_words big W64 (table_block bits j tw) =
    take (8 * Z.to_nat bits) (drop (8 * (Z.to_nat bits * j)) (bytes_of_words big W64 tw))) as ->.
  { unfold table_block. set (m := drop (Z.to_nat bits * j) tw).
    change 8%nat with (bytes_of W64). rewrite <-bytes_of_words_drop. fold m. rewrite <-(take_drop (Z.to_nat bits) m) at 2.
    rewrite bytes_of_words_app, take_app_length'; [done|]. rewrite bytes_of_words_length. unfold m. rewrite length_take, length_drop.
    change (bytes_of W64) with 8%nat. nia. }
  apply holds_piece; [done|]. rewrite bytes_of_words_length. change (bytes_of W64) with 8%nat. nia.
Qed.

Lemma delta_at_spec big bits k deltas tw (j i : nat) d : table_of bits k deltas tw -> (j < k)%nat -> (i < 64)%nat ->
  deltas !! (64 * j + i)%nat = Some d ->
  delta_at big (bytes_of_words big W64 (table_block bits j tw)) (Z.of_nat i) bits = Some (wrap 64 (Bit.zig_zag_decode64 d)).
Proof.
  intros Ht Hj Hi E. unfold delta_at. rewrite <-(app_nil_r (bytes_of_words _ _ _)). rewrite <-(table_block_length _ _ _ _ j Ht Hj).
  rewrite words_of_bytes_words; [|apply Forall_take, Forall_drop, Ht].
  rewrite (table_at bits k deltas tw j i d Ht Hj Hi E). done.
Qed.

(** ** Blocks of values *)

(** Where the value [i] starts in the data of its block *)
Definition start_of (vals : list (list Z)) (i : nat) : nat := length (concat (take i vals)).

Lemma start_of_all vals : start_of vals (length vals) = length (concat vals).
Proof. unfold start_of. by rewrite take_ge. Qed.

Lemma start_of_succ vals i v : vals !! i = Some v -> start_of vals (S i) = (start_of vals i + length v)%nat.
Proof. intros H. unfold start_of. rewrite (take_S_r _ _ _ H), concat_app, length_app. cbn. by rewrite app_nil_r. Qed.

Lemma value_in_data vals i v : vals !! i = Some v ->
  (start_of vals i + length v <= length (concat vals))%nat /\ v = take (length v) (drop (start_of vals i) (concat vals)).
Proof.
  intros H. pose proof (take_drop_middle _ _ _ H) as E. rewrite <-E at 2 4. rewrite concat_app, length_app. cbn [concat].
  unfold start_of. rewrite length_app. split; [lia|]. by rewrite drop_app_length, take_app_length.
Qed.

(** The values [vals] are the block [b] of a column in the file [g]. *)
Record block_stored {C} `{EncryptionStreamSpec C} (big : bool) (c : option C) (g : list Z) (b : column_block) (vals : list (list Z)) : Prop := {
  bs_count : (0 < length vals <= Z.to_nat kBlockSize)%nat;
  bs_last : forall v, last vals = Some v -> cb_last_size b = Z.of_nat (length v);
  bs_data : exists p, cb_data b = Z.of_nat p /\ holds g p (stored_form c (Z.of_nat p) (concat vals));
  bs_starts :
    cb_bits b = bitpack.ALL_EQUAL /\
      (forall i, (i < length vals)%nat -> Z.of_nat (start_of vals i) = cb_avg b * Z.of_nat i) \/
    exists p k deltas tw, cb_addr b = Z.of_nat p /\ table_of (cb_bits b) k deltas tw /\ holds g p (bytes_of_words big W64 tw) /\
      (length vals <= k * 64)%nat /\
      forall i, (i < length vals)%nat -> exists d, deltas !! i = Some d /\
        Z.of_nat (start_of vals i) = wrap 64 (cb_avg b * Z.of_nat i + Bit.zig_zag_decode64 d);
}.

Section payloads.
Context {I C : Type} {DI : DataInput I} {DIS : DataInputSpec I} {II : IndexInput I} {IIS : IndexInputSpec I}
  {FI : FileInput I} {FS : FileInputSpec I} {EC : EncryptionStream C} {ES : EncryptionStreamSpec C}.
Context (g rest : list Z) (Hrest : rest <> []) (Hsize : Z.of_nat (length (g ++ rest)) < 2 ^ 64) (big : bool).
Implicit Types (r : value_reader I C).

Lemma block_all_equal b vals c i v r : block_stored big c g b vals -> cb_bits b = bitpack.ALL_EQUAL -> vals !! i = Some v ->
  (forall i, (i < length vals)%nat -> Z.of_nat (start_of vals i) = cb_avg b * Z.of_nat i) ->
  Forall is_byte v -> on_file g rest r c -> fits (length v) r ->
  exists r', value (wrap 64 (cb_data b + cb_avg b * Z.of_nat i)) (if Z.of_nat (length vals) - 1 =? Z.of_nat i then cb_last_size b else cb_avg b) r
    = Some (v, r') /\ on_file g rest r' c /\ forall n, fits n r -> fits n r'.
Proof using All.
  intros [Hn Hl (p & Ep & Hp) _] Hb Hi Hs Hv Hr Hf. pose proof (lookup_lt_Some _ _ _ Hi) as Hlt. pose proof (value_in_data _ _ _ Hi) as [Hle Ev].
  pose proof (holds_bound _ _ _ Hp) as Hbound. rewrite stored_length in Hbound. pose proof Hsize as Hsz. rewrite length_app in Hsz.
  assert ((if Z.of_nat (length vals) - 1 =? Z.of_nat i then cb_last_size b else cb_avg b) = Z.of_nat (length v)) as ->.
  { destruct (Z.eqb_spec (Z.of_nat (length vals) - 1) (Z.of_nat i)) as [E|E].
    - apply Hl. rewrite last_lookup. by replace (pred (length vals)) with i by lia.
    - pose proof (Hs i ltac:(lia)) as E1. pose proof (Hs (S i) ltac:(lia)) as E2. rewrite (start_of_succ _ _ _ Hi) in E2. lia. }
  assert (wrap 64 (cb_data b + cb_avg b * Z.of_nat i) = Z.of_nat (p + start_of vals i)) as ->.
  { rewrite Ep, <-Hs, wrap_small by (unfold is_word; lia || lia). lia. }
  by apply (value_spec g rest Hrest Hsize r c p (start_of vals i) (concat vals) v).
Qed.

(** The table of a block: where the deltas of the value [j] are read from *)
Section table.
Context (c : option C) (b : column_block) (vals : list (list Z)) (p k : nat) (deltas tw : list Z).
Context (Haddr : cb_addr b = Z.of_nat p) (Ht : table_of (cb_bits b) k deltas tw)
  (Hh : holds g p (bytes_of_words big W64 tw)) (Hk : (length vals <= k * 64)%nat)
  (Hs : forall i, (i < length vals)%nat -> exists d, deltas !! i = Some d /\
     Z.of_nat (start_of vals i) = wrap 64 (cb_avg b * Z.of_nat i + Bit.zig_zag_decode64 d)).

Definition block_of (q : nat) : list Z := bytes_of_words big W64 (table_block (cb_bits b) q tw).
Definition block_at (q : nat) : nat := p + 8 * (Z.to_nat (cb_bits b) * q).

Lemma block_holds q : (q < k)%nat -> holds g (block_at q) (block_of q).
Proof using All. intros Hq. by apply (table_block_bytes big _ k deltas). Qed.

Lemma block_length q : (q < k)%nat -> length (block_of q) = Z.to_nat (cb_bits b * 8).
Proof using All.
  intros Hq. unfold block_of. rewrite bytes_of_words_length, (table_block_length _ _ _ _ _ Ht Hq). change (bytes_of W64) with 8%nat.
  pose proof (tb_bits _ _ _ _ Ht). lia.
Qed.

Lemma table_offset q : (q < k)%nat -> wrap 64 (cb_addr b + Z.of_nat q * (cb_bits b * 8)) = Z.of_nat (block_at q).
Proof using All.
  intros Hq. pose proof (tb_bits _ _ _ _ Ht). pose proof (holds_bound _ _ _ (block_holds q Hq)) as Hb. pose proof Hsize as Hsz.
  rewrite length_app in Hsz. unfold block_at in *. rewrite Haddr, wrap_small by (unfold is_word; nia). nia.
Qed.

Lemma delta_value j d : (j < length vals)%nat -> deltas !! j = Some d ->
  delta_at big (block_of (j / 64)) (Z.of_nat (j mod 64)) (cb_bits b) = Some (wrap 64 (Bit.zig_zag_decode64 d)).
Proof using All.
  intros Hj Hd. apply (delta_at_spec big _ k deltas tw); [done|apply Nat.Div0.div_lt_upper_bound; lia|apply Nat.mod_upper_bound; lia|].
  by rewrite <-Nat.div_mod_eq.
Qed.

(** The delta behind that of [j], which may be in the next block of the table *)
Lemma next_delta j d' r : (S j < length vals)%nat -> deltas !! S j = Some d' -> on_file g rest r c -> (forall n, fits n r) ->
  stands g rest (block_at (j / 64) + Z.to_nat (cb_bits b * 8)) r -> exists addr_buf value_index r',
  (if Z.of_nat (j mod 64) + 1 =? 64 then
     '(addr_buf, r) ← addr_next (wrap 64 (Z.of_nat (block_at (j / 64)) + cb_bits b * 8)) (Z.to_nat (cb_bits b * 8)) r; Some (addr_buf, 0, r)
   else Some (block_of (j / 64), Z.of_nat (j mod 64) + 1, r)) = Some (addr_buf, value_index, r') /\
  delta_at big addr_buf value_index (cb_bits b) = Some (wrap 64 (Bit.zig_zag_decode64 d')) /\
  on_file g rest r' c /\ forall n, fits n r'.
Proof using All.
  intros Hj Hd Hr Hf Hst. pose proof (delta_value (S j) d' Hj Hd) as E. pose proof (tb_bits _ _ _ _ Ht) as Hbits.
  destruct (Z.eqb_spec (Z.of_nat (j mod 64) + 1) 64) as [H64|H64].
  - assert (S j / 64 = S (j / 64) /\ S j mod 64 = 0)%nat as [Eq Em].
    { pose proof (Nat.div_mod_eq j 64). pose proof (Nat.div_mod_eq (S j) 64). pose proof (Nat.mod_upper_bound (S j) 64). lia. }
    rewrite Eq, Em in E. assert (S (j / 64) < k)%nat as Hq by (rewrite <-Eq; apply Nat.Div0.div_lt_upper_bound; lia).
    assert (block_at (j / 64) + Z.to_nat (cb_bits b * 8) = block_at (S (j / 64)))%nat as Eat by (unfold block_at; nia).
    pose proof (table_offset _ Hq) as Eo. rewrite Eat in Hst.
    assert (wrap 64 (Z.of_nat (block_at (j / 64)) + cb_bits b * 8) = Z.of_nat (block_at (S (j / 64)))) as ->.
    { pose proof (holds_bound _ _ _ (block_holds _ Hq)). pose proof Hsize as Hsz. rewrite length_app in Hsz. rewrite <-Eat.
      rewrite wrap_small; [lia|unfold is_word; lia]. }
    destruct (addr_next_spec g rest Hrest Hsize r c _ _ Hr Hst (block_holds _ Hq)) as (r' & En & H1 & H2). rewrite block_length in En by done.
    rewrite En. cbn [mbind option_bind]. eexists _, _, _. split; [reflexivity|]. split; [exact E|]. split; [done|]. by apply H2.
  - assert (S j / 64 = j / 64 /\ S j mod 64 = S (j mod 64))%nat as [Eq Em].
    { pose proof (Nat.div_mod_eq j 64). pose proof (Nat.div_mod_eq (S j) 64). pose proof (Nat.mod_upper_bound (S j) 64).
      pose proof (Nat.mod_upper_bound j 64). lia. }
    rewrite Eq, Em in E. eexists _, _, _. split; [reflexivity|]. replace (Z.of_nat (j mod 64) + 1) with (Z.of_nat (S (j mod 64))) by lia. done.
Qed.

End table.

Lemma sparse_payload_spec blocks (b : column_block) vals c (i : Z) v r : 0 <= i ->
  blocks !! Z.to_nat (i / kBlockSize) = Some (b, Z.of_nat (length vals) - 1) -> block_stored big c g b vals ->
  vals !! Z.to_nat (i mod kBlockSize) = Some v -> Forall is_byte v -> on_file g rest r c -> (forall n, fits n r) ->
  exists r', sparse_payload big blocks i r = Some (v, r') /\ on_file g rest r' c /\ forall n, fits n r'.
Proof using All.
  intros Hi0 Hblock Hst Hi Hv Hr Hf. unfold sparse_payload. rewrite Hblock. cbn [mbind option_bind].
  assert (exists j : nat, i mod kBlockSize = Z.of_nat j) as [j Ej].
  { exists (Z.to_nat (i mod kBlockSize)). rewrite Z2Nat.id; [done|]. apply Z.mod_pos_bound. rewrite kBlockSize_eq. lia. }
  rewrite Ej in *. rewrite Nat2Z.id in Hi. pose proof (lookup_lt_Some _ _ _ Hi) as Hlt. destruct (bs_starts _ _ _ _ _ Hst) as [[Eb Hs]|Hs].
  - rewrite Eb. cbn [Z.eqb bitpack.ALL_EQUAL]. change (0 =? 0) with true. cbv iota.
    destruct (block_all_equal b vals c j v r Hst Eb Hi Hs Hv Hr (Hf _)) as (r' & E & H1 & H2). exists r'. split; [exact E|]. split; [done|]. intros n. by apply H2, Hf.
  - destruct Hs as (p & k & deltas & tw & Ep & Ht & Hh & Hk & Hs). pose proof (tb_bits _ _ _ _ Ht) as Hbits.
    replace (bitpack.ALL_EQUAL =? cb_bits b) with false by (symmetry; apply Z.eqb_neq; unfold bitpack.ALL_EQUAL; lia). cbv zeta.
    destruct (Hs j Hlt) as (d & Hd & Ed). assert (j / 64 < k)%nat as Hq by (apply Nat.Div0.div_lt_upper_bound; lia).
    replace (Z.of_nat j / 64) with (Z.of_nat (j / 64)) by by rewrite Nat2Z.inj_div.
    replace (Z.of_nat j mod 64) with (Z.of_nat (j mod 64)) by by rewrite Nat2Z.inj_mod.
    rewrite (table_offset c b vals p k deltas tw Ep Ht Hh Hk Hs _ Hq).
    pose proof (block_length c b vals p k deltas tw Ep Ht Hh Hk Hs _ Hq) as Hbl.
    destruct (addr_at_spec g rest Hrest Hsize r c _ _ Hr (block_holds c b vals p k deltas tw Ep Ht Hh Hk Hs _ Hq)) as (r1 & E1 & Hr1 & Hst1 & Hf1).
    rewrite Hbl in E1, Hst1. rewrite E1. cbn [mbind option_bind].
    rewrite (delta_value c b vals p k deltas tw Ep Ht Hh Hk Hs j d Hlt Hd). cbn [mbind option_bind].
    rewrite (wrap_add_r 64 (cb_avg b * Z.of_nat j)), <-Ed. destruct (bs_data _ _ _ _ _ Hst) as (o & Eo & Ho). pose proof (value_in_data _ _ _ Hi) as [Hle Ev].
    pose proof (holds_bound _ _ _ Ho) as Hbound. rewrite stored_length in Hbound. pose proof Hsize as Hsz. rewrite length_app in Hsz.
    assert (wrap 64 (cb_data b + Z.of_nat (start_of vals j)) = Z.of_nat (o + start_of vals j)) as ->.
    { rewrite Eo, wrap_small by (unfold is_word; lia). lia. }
    assert (forall r, on_file g rest r c -> (forall n, fits n r) -> exists r', value (Z.of_nat (o + start_of vals j)) (Z.of_nat (length v)) r = Some (v, r') /\
      on_file g rest r' c /\ forall n, fits n r') as Hval.
    { intros r2 H2 Hf2. destruct (value_spec g rest Hrest Hsize r2 c o (start_of vals j) (concat vals) v H2 Ho Hle Ev Hv (Hf2 _)) as (r3 & ? & ? & ?). eauto. }
    destruct (Z.eqb_spec (Z.of_nat (length vals) - 1) (Z.of_nat j)) as [El|El]; cbn [negb].
    + cbn [mbind option_bind]. assert (last vals = Some v) as Hl by (rewrite last_lookup; by replace (pred (length vals)) with j by lia).
      rewrite (bs_last _ _ _ _ _ Hst v Hl). by apply Hval; auto.
    + destruct (Hs (S j) ltac:(lia)) as (d' & Hd' & Ed').
      destruct (next_delta c b vals p k deltas tw Ep Ht Hh Hk Hs j d' r1 ltac:(lia) Hd' Hr1 (Hf1 Hf) Hst1) as (buf & idx & r2 & E2 & E3 & Hr2 & Hf2).
      fold (block_of b tw (j / 64)). rewrite E2. cbn [mbind option_bind]. rewrite E3. cbn [mbind option_bind].
      assert (wrap 64 (wrap 64 (Bit.zig_zag_decode64 d') - wrap 64 (Bit.zig_zag_decode64 d) + cb_avg b) = Z.of_nat (length v)) as ->.
      { rewrite (start_of_succ _ _ _ Hi) in Ed'. rewrite <-(wrap_small 64 (Z.of_nat (length v))) by (unfold is_word; lia).
        assert (Z.of_nat (length v) = Z.of_nat (start_of vals j + length v) - Z.of_nat (start_of vals j)) as -> by lia.
        rewrite Ed', Ed. set (z := Bit.zig_zag_decode64 d). set (z' := Bit.zig_zag_decode64 d').
        replace (wrap 64 z' - wrap 64 z + cb_avg b) with ((cb_avg b + wrap 64 z') - wrap 64 z) by lia. rewrite wrap_sub_r.
        replace (cb_avg b + wrap 64 z' - z) with ((cb_avg b - z) + wrap 64 z') by lia. rewrite wrap_add_r, wrap_sub_r, wrap_sub_l. f_equal. lia. }
      by apply Hval.
Qed.
End payloads.

(** ** Columns of values *)

Definition block_vals (j : nat) (vals : list (list Z)) : list (list Z) := take (Z.to_nat kBlockSize) (drop (Z.to_nat kBlockSize * j) vals).

Lemma block_vals_lookup vals (i : nat) v : vals !! i = Some v ->
  block_vals (Z.to_nat (Z.of_nat i / kBlockSize)) vals !! Z.to_nat (Z.of_nat i mod kBlockSize) = Some v.
Proof.
  intros Hv. unfold block_vals. rewrite kBlockSize_eq in *. change (Z.to_nat 65536) with (Z.to_nat 65536).
  pose proof (Z.mod_pos_bound (Z.of_nat i) 65536 ltac:(lia)). pose proof (Z.div_mod (Z.of_nat i) 65536 ltac:(lia)).
  pose proof (Z.div_pos (Z.of_nat i) 65536 ltac:(lia) ltac:(lia)).
  rewrite lookup_take_lt by lia. rewrite lookup_drop, <-Hv. f_equal. lia.
Qed.

Lemma start_of_equal vals len (i : nat) : Forall (fun v => Z.of_nat (length v) = len) vals -> (i <= length vals)%nat ->
  Z.of_nat (start_of vals i) = len * Z.of_nat i.
Proof.
  intros Hv. unfold start_of. revert i. induction Hv as [|v vals Hv _ IH]; intros [|i] Hi; cbn in *; try lia.
  rewrite length_app. specialize (IH i ltac:(lia)). lia.
Qed.

(** The values [vals] are the blocks [bs] of a column in the file [g]. *)
Definition column_stored {C} `{EncryptionStreamSpec C} (big : bool) (c : option C) (g : list Z) (bs : list column_block) (vals : list (list Z)) : Prop :=
  forall j : nat, (Z.to_nat kBlockSize * j < length vals)%nat -> exists b, bs !! j = Some b /\ block_stored big c g b (block_vals j vals).

Section columns.
Context {I C : Type} {DI : DataInput I} {DIS : DataInputSpec I} {II : IndexInput I} {IIS : IndexInputSpec I}
  {FI : FileInput I} {FS : FileInputSpec I} {EC : EncryptionStream C} {ES : EncryptionStreamSpec C} (big : bool).
Implicit Types (r : value_reader I C).

(** The blocks of a column of values of the length [len], at their places *)
Definition equal_length (len : Z) (vals : list (list Z)) : Prop := Forall (fun v => Z.of_nat (length v) = len) vals.

Definition reader_stored (g : list Z) (bs : list column_block) (p : payload_reader I C) (vals : list (list Z)) : Prop :=
  match p with
  | noop_value_reader => equal_length 0 vals
  | dense_fixed_payload_reader data len r => equal_length len vals /\ fits (Z.to_nat len) r /\
      forall (j : nat) b, (Z.to_nat kBlockSize * j < length vals)%nat -> bs !! j = Some b -> cb_data b = data + len * (kBlockSize * Z.of_nat j)
  | fixed_payload_reader blocks len r => equal_length len vals /\ fits (Z.to_nat len) r /\ blocks = map cb_data bs
  | sparse_payload_reader blocks r => (forall n, fits n r) /\
      forall (j : nat) b, (Z.to_nat kBlockSize * j < length vals)%nat -> bs !! j = Some b -> blocks !! j = Some (b, Z.of_nat (length (block_vals j vals)) - 1)
  end.
Definition reader_on (g rest : list Z) (c : option C) (p : payload_reader I C) : Prop :=
  match p with
  | noop_value_reader => True
  | dense_fixed_payload_reader _ _ r | fixed_payload_reader _ _ r | sparse_payload_reader _ r => on_file g rest r c
  end.

(** The payload reader serves the values of the column. *)
Definition column_serves (p : payload_reader I C) (vals : list (list Z)) : Prop :=
  p = noop_value_reader /\ equal_length 0 vals \/
  exists g rest c bs, rest <> [] /\ Z.of_nat (length (g ++ rest)) < 2 ^ 64 /\ Forall (Forall is_byte) vals /\
    column_stored big c g bs vals /\ reader_stored g bs p vals /\ reader_on g rest c p.

#[local] Instance payload_of : PayloadReader (payload_reader I C) := column_payload big.

Section file.
Context (g rest : list Z) (Hrest : rest <> []) (Hsize : Z.of_nat (length (g ++ rest)) < 2 ^ 64) (c : option C)
  (bs : list column_block) (vals : list (list Z)) (Hvals : Forall (Forall is_byte) vals) (Hst : column_stored big c g bs vals).
Implicit Types (i : nat).

Lemma value_block i v : vals !! i = Some v -> exists b, bs !! Z.to_nat (Z.of_nat i / kBlockSize) = Some b /\
  (Z.to_nat kBlockSize * Z.to_nat (Z.of_nat i / kBlockSize) < length vals)%nat /\
  block_stored big c g b (block_vals (Z.to_nat (Z.of_nat i / kBlockSize)) vals) /\
  block_vals (Z.to_nat (Z.of_nat i / kBlockSize)) vals !! Z.to_nat (Z.of_nat i mod kBlockSize) = Some v /\ Forall is_byte v.
Proof using All.
  intros Hv. pose proof (lookup_lt_Some _ _ _ Hv) as Hlt. pose proof (block_vals_lookup _ _ _ Hv) as Hb.
  assert (Z.to_nat kBlockSize * Z.to_nat (Z.of_nat i / kBlockSize) < length vals)%nat as Hj.
  { rewrite kBlockSize_eq in *. pose proof (Z.div_mod (Z.of_nat i) 65536 ltac:(lia)). pose proof (Z.mod_pos_bound (Z.of_nat i) 65536 ltac:(lia)). lia. }
  destruct (Hst _ Hj) as (b & Eb & Hbs). exists b. split_and!; try done. by eapply Forall_lookup_1.
Qed.

(** A value of a column of values of one length *)
Lemma equal_value len (j k : nat) b v r : equal_length len vals -> block_stored big c g b (block_vals j vals) -> block_vals j vals !! k = Some v ->
  Forall is_byte v -> on_file g rest r c -> fits (Z.to_nat len) r ->
  exists r', value (wrap 64 (cb_data b + len * Z.of_nat k)) len r = Some (v, r') /\ on_file g rest r' c /\ fits (Z.to_nat len) r'.
Proof using All.
  intros Hlen Hb Hk Hv Hr Hf.
  assert (equal_length len (block_vals j vals)) as Hlb by (by apply Forall_take, Forall_drop).
  pose proof (Forall_lookup_1 _ _ _ _ Hlb Hk) as Hl. cbn in Hl. rewrite <-Hl in Hf |- *. rewrite Nat2Z.id in *.
  pose proof (value_in_data _ _ _ Hk) as [Hle Ev]. destruct (bs_data _ _ _ _ _ Hb) as (p & Ep & Hp). pose proof (lookup_lt_Some _ _ _ Hk).
  pose proof (start_of_equal _ _ k Hlb ltac:(lia)) as Hstart. rewrite <-Hl in Hstart. rewrite <-Hstart, Ep.
  pose proof (holds_bound _ _ _ Hp) as Hbound. rewrite stored_length in Hbound. pose proof Hsize as Hsz. rewrite length_app in Hsz.
  rewrite wrap_small by (unfold is_word; lia). rewrite <-Nat2Z.inj_add.
  destruct (value_spec g rest Hrest Hsize r c p _ _ v Hr Hp Hle Ev Hv Hf) as (r' & E & H1 & H2). exists r'. auto.
Qed.

Lemma column_payload_spec p i v : reader_stored g bs p vals -> reader_on g rest c p -> vals !! i = Some v ->
  exists p', column_payload big (Z.of_nat i) p = Some (v, p') /\ reader_stored g bs p' vals /\ reader_on g rest c p'.
Proof using All.
  intros Hp Hon Hv. destruct (value_block i v Hv) as (b & Eb & Hj & Hb & Hk & Hbytes).
  pose proof (Z.mod_pos_bound (Z.of_nat i) kBlockSize ltac:(rewrite kBlockSize_eq; lia)) as Hmod.
  pose proof (Z.div_pos (Z.of_nat i) kBlockSize ltac:(lia) ltac:(rewrite kBlockSize_eq; lia)) as Hdiv.
  pose proof (Z.div_mod (Z.of_nat i) kBlockSize ltac:(rewrite kBlockSize_eq; lia)) as Hdm.
  destruct p as [|data len r|blocks len r|blocks r]; cbn [reader_stored reader_on column_payload] in *.
  - pose proof (Forall_lookup_1 _ _ _ _ Hp Hv) as Hl. cbn in Hl. destruct v; [|cbn in Hl; lia]. by exists noop_value_reader.
  - destruct Hp as (Hlen & Hf & Hd). destruct (equal_value len _ _ b v r Hlen Hb Hk Hbytes Hon Hf) as (r' & E & H1 & H2).
    rewrite (Hd _ b Hj Eb), !Z2Nat.id in E by lia. rewrite <-Z.add_assoc, <-Z.mul_add_distr_l, <-Hdm in E. rewrite E. cbn [mbind option_bind].
    eexists. split; [reflexivity|]. done.
  - destruct Hp as (Hlen & Hf & ->). rewrite list_lookup_fmap, Eb. cbn [fmap option_fmap option_map mbind option_bind].
    destruct (equal_value len _ _ b v r Hlen Hb Hk Hbytes Hon Hf) as (r' & E & H1 & H2). rewrite Z2Nat.id in E by lia. rewrite E. cbn [mbind option_bind].
    eexists. split; [reflexivity|]. done.
  - destruct Hp as (Hf & Hbl). destruct (sparse_payload_spec g rest Hrest Hsize big blocks b _ c (Z.of_nat i) v r ltac:(lia) (Hbl _ b Hj Eb) Hb Hk Hbytes Hon Hf) as (r' & E & H1 & H2).
    rewrite E. cbn [mbind option_bind]. eexists. split; [reflexivity|]. done.
Qed.

End file.

#[local] Program Instance payload_spec_of : PayloadReaderSpec (payload_reader I C) := { serves := column_serves }.
Next Obligation.
  intros p vals i v [[-> Hp]|(g & rest & c & bs & Hrest & Hsize & Hvals & Hst & Hp & Hon)] Hv.
  { pose proof (Forall_lookup_1 _ _ _ _ Hp Hv) as Hl. cbn in Hl. destruct v; [|cbn in Hl; lia]. exists noop_value_reader. split; [done|]. by left. }
  destruct (column_payload_spec g rest Hrest Hsize c bs vals Hvals Hst p i v Hp Hon Hv) as (p' & E & H1 & H2).
  exists p'. split; [exact E|]. right. by exists g, rest, c, bs.
Qed.

End columns.
