(* ===== verification/ColumnWriter.v ===== *)
(** * The column writer

    [column] of core/formats/columnstore2.hpp and .cpp: documents are pushed in increasing order with the
    bytes of their values; full blocks of values go to the data file of the store, and [finish] writes what
    the reader needs to the index file. *)
From S2P Require Import Prelude Outcome BitUtils BytesIO Streams FileStreams MemoryFile StoreUtils Encryption BitPacking BlockCodec DocIterators Bitset SparseBitmap SparseBitmapWriter SparseBitmapContainers SparseBitmapIterator Coding ColumnFormat ColumnValues.

(** ** [column] *)

Section column.
Context {C : Type} {EC : EncryptionStream C} (p : platform).

Record column := mkColumn {
  ctx_cipher : option C;
  ctx_consolidation : bool;
  ctx_version : bool;                  (* [SparseBitmapVersion::kPrevDoc] *)
  compression_ : list Z;
  finalizer_ : option (list Z -> option (list Z) * list Z);
  blocks_ : list column_block;
  data_ : memory_index_output;
  docs_writer_ : sparse_bitmap_writer memory_index_output;
  addr_table_ : list Z;
  payload_ : list Z;
  name_ : option (list Z);
  prev_avg_ : Z;
  docs_count_ : Z;
  prev_ : Z;
  pend_ : Z;
  id_ : Z;
  fixed_length_ : bool;
}.

(** A fresh [memory_output]; [alloc] says what is in fresh memory. *)
Definition memory_output (alloc : nat -> nat -> Z) : memory_index_output := out_make (mkFile alloc [] 0).

Definition column_make (cipher : option C) (consolidation version : bool) (id : Z) (compression : list Z)
    (finalizer : option (list Z -> option (list Z) * list Z)) (alloc : nat -> nat -> Z) : column :=
  mkColumn cipher consolidation version compression finalizer [] (memory_output alloc)
    (writer_make (memory_output alloc) version) [] [] None 0 0 0 0 id true.

Definition set_data (d : memory_index_output) (c : column) : column :=
  mkColumn (ctx_cipher c) (ctx_consolidation c) (ctx_version c) (compression_ c) (finalizer_ c) (blocks_ c) d (docs_writer_ c)
    (addr_table_ c) (payload_ c) (name_ c) (prev_avg_ c) (docs_count_ c) (prev_ c) (pend_ c) (id_ c) (fixed_length_ c).
Definition set_docs (w : sparse_bitmap_writer memory_index_output) (table : list Z) (prev pend : Z) (c : column) : column :=
  mkColumn (ctx_cipher c) (ctx_consolidation c) (ctx_version c) (compression_ c) (finalizer_ c) (blocks_ c) (data_ c) w
    table (payload_ c) (name_ c) (prev_avg_ c) (docs_count_ c) prev pend (id_ c) (fixed_length_ c).

(** [write_byte] and [write_bytes] *)
Definition column_write_byte (b : Z) (c : column) : column := set_data (write_byte b (data_ c)) c.
Definition column_write_bytes (b : list Z) (c : column) : column := set_data (write_bytes b (data_ c)) c.

(** [address_table] *)
Definition table_full (t : list Z) : bool := bool_decide (length t = Z.to_nat kBlockSize).
(** [back()]: [None] without addresses *)
Definition table_back (t : list Z) : option Z := last t.
Definition table_pop (t : list Z) : list Z := take (length t - 1) t.

(** [data_file.visit(encrypt_and_copy)]: the parts of the file, encrypted at where they go, until one
    cannot be *)
Definition encrypt_and_copy {W} `{DataOutput W} (cipher : C) (b : list Z) (st : option (Z * W)) : bool * option (Z * W) :=
  match st with
  | None => (false, None)
  | Some (offset, out) =>
      match encrypt offset b cipher with
      | Some (true, b') => (true, Some (offset + Z.of_nat (length b), write_bytes b' out))
      | Some (false, _) => (false, Some (offset, out))
      | None => (false, None)
      end
  end.

Section output.
Context {W : Type} {DO : DataOutput W} {IO : IndexOutput W}.
Definition pointer_of (out : W) : Z := Z.of_nat (out_pointer out).

(** The data of a block goes to the data file. *)
Definition copy_data (cipher : option C) (f : memory_file) (out : W) : option (outcome W) :=
  match cipher with
  | Some cipher =>
      '(ok, st) ← visit (encrypt_and_copy cipher) f (Some (pointer_of out, out));
      '(_, out) ← st;
      _ ⇐ throw_if (negb ok) (io_error "failed to encrypt columnstore");
      done_ out
  | None => done_ (copy_to f out)
  end.

(** The table of a block: its bits and where the values start from which average, and what the file was
    extended by. The buffer is as many words as are zeroed and written. *)
Definition write_table (table : list Z) (addr_table_size : Z) (bits : Z) (out : W) : option W :=
  let buf_size := packed.bytes_required_64 addr_table_size bits in
  buf ← packed.pack_64 table (replicate (Z.to_nat (buf_size / 8)) 0) bits;
  Some (write_bytes (bytes_of_words (big_endian p) W64 buf) out).

(** The addresses of a block, which are relative to the first one, and whether the column is still one of
    values of the same length: the base, the average, the bits, [fixed_length_] and [prev_avg_]. *)
Definition write_addresses (c : column) (file : memory_file) (last_size docs_count : Z) (out : W) : option (Z * Z * Z * bool * Z * W) :=
  let addr_table_size := Math.ceil 64 docs_count 64 in
  let zeros := replicate (Z.to_nat (addr_table_size - docs_count)) 0 in
  '(table, base, avg, all_equal) ←
    (if mf_len file =? 0 then Some (addr_table_ c, pointer_of out, 0, true) else avg.encode64 p (addr_table_ c));
  if all_equal : bool then
    Some (base, avg, bitpack.ALL_EQUAL,
      fixed_length_ c && ((last_size =? avg) && ((0 =? docs_count_ c) || (avg =? prev_avg_ c))), avg, out)
  else
    let table := table ++ zeros in
    let bits := packed.maxbits64 table in
    out ← write_table table addr_table_size bits out;
    Some (base, avg, bits, false, prev_avg_ c, out).

(** The data of a block: where it is, and the emptied stream *)
Definition write_data (cipher : option C) (base : Z) (data : memory_index_output) (out : W)
    : option (outcome (Z * memory_index_output * W)) :=
  if negb (mf_len (mo_file data) =? 0) then
    let block_data := base +[64] pointer_of out in
    out ⇐ copy_data cipher (mo_file data) out;
    data ⇐ lift (truncate 0 data);
    done_ (block_data, mkOut (mf_reset (mo_file data)) (mo_offset data) (mo_data data) (mo_pos data) (mo_end data), out)
  else done_ (base, data, out).

Definition flush_block (c : column) (out : W) : option (outcome (column * W)) :=
  let data := mo_flush (data_ c) in
  let addr := pointer_of out in
  back ⇐ lift (table_back (addr_table_ c));
  let last_size := mf_len (mo_file data) -[64] back in
  let docs_count := wrap 32 (Z.of_nat (length (addr_table_ c))) in
  '(base, avg, bits, fixed_length, prev_avg, out) ⇐ lift (write_addresses c (mo_file data) last_size docs_count out);
  '(block_data, data, out) ⇐ write_data (ctx_cipher c) base data out;
  done_ (mkColumn (ctx_cipher c) (ctx_consolidation c) (ctx_version c) (compression_ c) (finalizer_ c)
    (blocks_ c ++ [mkColumnBlock addr avg block_data last_size bits]) data (docs_writer_ c) [] (payload_ c) (name_ c)
    prev_avg (docs_count_ c +[32] docs_count) (prev_ c) (pend_ c) (id_ c) fixed_length, out).

Definition Prepare (key : Z) (c : column) (out : W) : option (outcome (column * W)) :=
  if pend_ c <? key then
    '(c, out) ⇐ (if table_full (addr_table_ c) then flush_block c out else done_ (c, out));
    w ⇐ lift (push_back (big_endian p) key (docs_writer_ c));
    done_ (set_docs w (addr_table_ c ++ [mo_file_pointer (data_ c)]) (pend_ c) key c, out)
  else done_ (c, out).

Definition column_reset (c : column) : option column :=
  match table_back (addr_table_ c) with
  | None => Some c
  | Some back =>
      let '(_, w) := erase (pend_ c) (docs_writer_ c) in
      data ← truncate back (data_ c);
      Some (set_docs w (table_pop (addr_table_ c)) (prev_ c) (prev_ c) (set_data data c))
  end.

Definition column_flush (c : column) (out : W) : option (outcome (column * W)) :=
  match addr_table_ c with
  | [] => done_ (c, out)
  | _ => flush_block c out
  end.

Definition set_name (name : option (list Z)) (payload : list Z) (c : column) : column :=
  mkColumn (ctx_cipher c) (ctx_consolidation c) (ctx_version c) (compression_ c) (finalizer_ c) (blocks_ c) (data_ c) (docs_writer_ c)
    (addr_table_ c) payload name (prev_avg_ c) (docs_count_ c) (prev_ c) (pend_ c) (id_ c) (fixed_length_ c).

Definition column_finalize (c : column) (out : W) : option (outcome (column * W)) :=
  '(c, out) ⇐ column_flush c out;
  match finalizer_ c with
  | Some f => let '(name, payload) := f (payload_ c) in done_ (set_name name payload c, out)
  | None => done_ (c, out)
  end.

Definition column_empty (c : column) : bool := bool_decide (addr_table_ c = []) && (docs_count_ c =? 0).

(** [finish], up to the header: the documents go to the data file unless they are all the documents from
    the first to the last. *)
Definition finish_docs (c : column) (out : W) : option (column * column_header * W) :=
  w ← finish (big_endian p) (docs_writer_ c);
  let docs := mo_flush (sw_out w) in
  let w := sw_set_out docs w in
  let c := set_docs w (addr_table_ c) (prev_ c) (pend_ c) c in
  '(more, it) ← bitmap_next (bitmap_make (mi_make (mo_file docs)) [] false (ctx_version c) false);
  let min := if more : bool then si_doc it else doc_limits.invalid in
  let '(docs_index, out) :=
    (if negb (docs_count_ c =? 0) && negb ((min +[32] docs_count_ c) -[32] doc_limits.min =? pend_ c)
     then (pointer_of out, copy_to (mo_file docs) out) else (0, out)) in
  let no_name := match name_ c with None => ColumnProperty.kNoName | Some _ => 0 end in
  let encrypt := match ctx_cipher c with Some _ => ColumnProperty.kEncrypt | None => 0 end in
  let prev := if sw_track_prev_doc w then ColumnProperty.kPrevDoc else 0 in
  let type :=
    if fixed_length_ c then
      if 0 =? prev_avg_ c then ColumnType.kMask
      else if ctx_consolidation c then ColumnType.kDenseFixed else ColumnType.kFixed
    else ColumnType.kSparse in
  Some (c, mkHeader docs_index (id_ c) (docs_count_ c) min (Z.lor (Z.lor no_name encrypt) prev) type, out).

End output.

(** The rest of [finish]: the index file *)
Section index.
Context {V : Type} {DO : DataOutput V} {IO : IndexOutput V}.

Definition write_name (c : column) (index_out : V) : option V :=
  match name_ c with
  | None => Some index_out
  | Some name =>
      match ctx_cipher c with
      | Some cipher =>
          '(_, name) ← encrypt (pointer_of index_out) name cipher;
          Some (write_string name index_out)
      | None => Some (write_string name index_out)
      end
  end.

Definition write_blocks (c : column) (hdr : column_header) (index_out : V) : option V :=
  if type_ hdr =? ColumnType.kSparse then Some (write_blocks_sparse (blocks_ c) index_out)
  else if negb (type_ hdr =? ColumnType.kMask) then
    front ← head (blocks_ c);
    let index_out := write_long (cb_avg front) index_out in
    if type_ hdr =? ColumnType.kDenseFixed then Some (write_long (cb_data front) index_out)
    else Some (write_blocks_dense (blocks_ c) index_out)
  else Some index_out.

Definition finish_index (c : column) (hdr : column_header) (index_out : V) : option V :=
  let index_out := write_string (compression_ c) index_out in
  let index_out := write_header hdr index_out in
  let index_out := write_string (payload_ c) index_out in
  index_out ← write_name c index_out;
  let index_out := if negb (docs_index hdr =? 0) then write_bitmap_index (sw_block_index (docs_writer_ c)) index_out else index_out in
  write_blocks c hdr index_out.

End index.

Definition column_finish {W V} `{IndexOutput W} `{IndexOutput V} (c : column) (out : W) (index_out : V) : option (column * W * V) :=
  '(c, hdr, out) ← finish_docs c out;
  index_out ← finish_index c hdr index_out;
  Some (c, out, index_out).

End column.

Arguments column : clear implicits.

(** ** Columns under construction *)

(** The calls on a column, and what other columns write to the data file between them *)
Inductive column_op :=
  | op_prepare (key : Z)
  | op_write (bs : list Z)
  | op_other (bs : list Z).

Section run.
Context {C W : Type} {EC : EncryptionStream C} {DO : DataOutput W} {IO : IndexOutput W} (p : platform).

Definition run_op (op : column_op) (c : column C) (out : W) : option (outcome (column C * W)) :=
  match op with
  | op_prepare key => Prepare p key c out
  | op_write bs => done_ (column_write_bytes bs c, out)
  | op_other bs => done_ (c, write_bytes bs out)
  end.
Fixpoint run_ops (ops : list column_op) (c : column C) (out : W) : option (outcome (column C * W)) :=
  match ops with
  | [] => done_ (c, out)
  | op :: ops => '(c, out) ⇐ run_op op c out; run_ops ops c out
  end.
End run.

(** What the calls mean: the documents with their values *)
Fixpoint grow_last (bs : list Z) (vals : list (list Z)) : list (list Z) :=
  match vals with
  | [] => []
  | [v] => [v ++ bs]
  | v :: vals => v :: grow_last bs vals
  end.
Definition spec_op (op : column_op) (st : list Z * list (list Z)) : list Z * list (list Z) :=
  match op with
  | op_prepare key => if default 0 (last st.1) <? key then (st.1 ++ [key], st.2 ++ [[]]) else st
  | op_write bs => (st.1, grow_last bs st.2)
  | op_other _ => st
  end.
Definition spec_ops (ops : list column_op) (st : list Z * list (list Z)) : list Z * list (list Z) := foldl (fun st op => spec_op op st) st ops.

(** Documents between the limits; no column writes between the blocks of another one in a consolidation. *)
Definition op_ok (consolidation : bool) (op : column_op) : Prop :=
  match op with
  | op_prepare key => doc_limits.min <= key < doc_limits.eof
  | op_write bs => Forall is_byte bs
  | op_other _ => consolidation = false
  end.
(** Room for the bytes of an operation, with a table of 2^16 addresses *)
Definition op_size (op : column_op) : Z :=
  match op with op_prepare _ => 2 ^ 19 | op_write bs | op_other bs => Z.of_nat (length bs) end.
Definition ops_size (ops : list column_op) : Z := foldr (fun op n => op_size op + n) 0 ops.

(** ** Tables of addresses *)

Lemma lor_zero l a : foldl Z.lor a l = 0 -> a = 0 /\ Forall (fun x => x = 0) l.
Proof.
  revert a. induction l as [|x l IH]; intros a E; [done|]. cbn [foldl] in E. apply IH in E as [E Hl].
  apply Z.lor_eq_0_iff in E as [-> ->]. by split; [|constructor].
Qed.

Lemma visit_lookup w base a l (i : nat) : avg.visit w base a l !! i =
  (fun x => wrap (bits_of w) (base + a * Z.of_nat i + avg.zig_zag_decode w x)) <$> l !! i.
Proof.
  revert base i. induction l as [|x l IH]; intros base [|i]; [done|done| |].
  - cbn [avg.visit lookup list_lookup fmap option_fmap option_map]. do 2 f_equal. lia.
  - cbn [avg.visit]. change ((?y :: ?l) !! S i) with (l !! i). rewrite IH. destruct (l !! i); [|done].
    cbn [fmap option_fmap option_map]. f_equal. rewrite <-Z.add_assoc, wrap_add_l. f_equal. lia.
Qed.

(** The addresses of values *)
Definition addresses (o : nat) (vals : list (list Z)) : list Z := map (fun i => Z.of_nat (o + start_of vals i)) (seq 0 (length vals)).

Lemma addresses_length o vals : length (addresses o vals) = length vals.
Proof. unfold addresses. by rewrite length_map, length_seq. Qed.

Lemma addresses_lookup o vals (i : nat) : (i < length vals)%nat -> addresses o vals !! i = Some (Z.of_nat (o + start_of vals i)).
Proof.
  intros Hi. unfold addresses. change (map ?f ?l) with (f <$> l). rewrite list_lookup_fmap, lookup_seq_lt by done. done.
Qed.

Lemma start_of_app vals vals' i : (i <= length vals)%nat -> start_of (vals ++ vals') i = start_of vals i.
Proof. intros Hi. unfold start_of. by rewrite take_app_le. Qed.

Lemma addresses_snoc o vals v : addresses o (vals ++ [v]) = addresses o vals ++ [Z.of_nat (o + length (concat vals))].
Proof.
  apply list_eq. intros i. destruct (Nat.lt_trichotomy i (length vals)) as [Hi|[->|Hi]].
  - rewrite addresses_lookup, lookup_app_l, addresses_lookup by (rewrite ?addresses_length, ?length_app; cbn; lia).
    by rewrite start_of_app by lia.
  - rewrite addresses_lookup by (rewrite length_app; cbn; lia).
    rewrite <-(addresses_length o vals) at 2. rewrite list_lookup_middle by done. rewrite start_of_app, start_of_all by lia. done.
  - rewrite !lookup_ge_None_2; [done|..]; rewrite ?length_app, !addresses_length, ?length_app; cbn; lia.
Qed.

(** Growing the last value moves no start. *)
Lemma addresses_grow o vals v v' : addresses o (vals ++ [v]) = addresses o (vals ++ [v']).
Proof. by rewrite !addresses_snoc. Qed.

Lemma start_le vals i : (start_of vals i <= length (concat vals))%nat.
Proof. unfold start_of. rewrite <-(take_drop i vals) at 2. rewrite concat_app, length_app. lia. Qed.

Lemma start_mono vals i j : (i <= j)%nat -> (start_of vals i <= start_of vals j)%nat.
Proof.
  intros Hij. unfold start_of. replace i with (i `min` j)%nat by lia. rewrite <-take_take.
  rewrite <-(take_drop i (take j vals)) at 2. rewrite concat_app, length_app. lia.
Qed.

Lemma addresses_words o vals : Z.of_nat (o + length (concat vals)) < 2 ^ 64 -> Forall (is_word 64) (addresses o vals).
Proof.
  intros Hs. apply Forall_forall. intros a Ha. apply list_elem_of_fmap in Ha as (i & -> & _). pose proof (start_le vals i).
  unfold is_word. lia.
Qed.

Section encode.
Context (p : platform) (o : nat) (vals : list (list Z)) (Hvals : vals <> []) (Hsize : Z.of_nat (o + length (concat vals)) < 2 ^ 64).

(** What the encoding of the addresses tells of the starts of the values *)
Lemma encode_addresses : exists enc a rl, avg.encode64 p (addresses o vals) = Some (enc, Z.of_nat o, a, rl) /\
  length enc = length vals /\ Forall (is_word 64) enc /\ is_word 64 a /\
  (forall i : nat, (i < length vals)%nat -> exists d, enc !! i = Some d /\
     Z.of_nat (start_of vals i) = wrap 64 (a * Z.of_nat i + Bit.zig_zag_decode64 d)) /\
  (if rl : bool then Forall (fun d => d = 0) enc else foldl Z.lor 0 enc <> 0).
Proof using All.
  pose proof (addresses_words o vals Hsize) as Hw.
  destruct (avg.encode64 p (addresses o vals)) as [[[[enc base] a] rl]|] eqn:E.
  2: { destruct vals as [|v vals']; [done|]. done. }
  assert (base = Z.of_nat o /\ (if rl then Forall (fun d => d = 0) enc else foldl Z.lor 0 enc <> 0)) as [-> Hrl].
  { destruct vals as [|v vals']; [done|]. cbn [addresses length seq map] in E. unfold avg.encode64, avg.encode in E. injection E as <- <- _ <-.
    split; [unfold start_of; cbn; lia|]. match goal with |- context [?x =? 0] => destruct (Z.eqb_spec x 0) as [Ez|Ez] end.
    - apply lor_zero in Ez as [_ Ez]. by constructor.
    - exact Ez. }
  destruct (visit_encode p W64 (addresses o vals) enc (Z.of_nat o) a rl Hw E) as (Hv & Hl & Hwe & _ & Ha & _).
  exists enc, a, rl. rewrite addresses_length in Hl. split; [done|]. split; [done|]. split; [done|]. split; [done|]. split; [|done].
  intros i Hi. destruct (lookup_lt_is_Some_2 enc i ltac:(lia)) as [d Hd]. exists d. split; [done|].
  pose proof (addresses_lookup o vals i Hi) as Ei. rewrite <-Hv, visit_lookup, Hd in Ei. cbn [fmap option_fmap option_map bits_of avg.zig_zag_decode] in Ei.
  injection Ei as Ei. pose proof (start_le vals i).
  assert (Z.of_nat (start_of vals i) = wrap 64 (Z.of_nat (o + start_of vals i) - Z.of_nat o)) as ->.
  { rewrite wrap_small; [lia|]. unfold is_word. lia. }
  rewrite <-Ei, wrap_sub_l. f_equal. lia.
Qed.

(** Starts at multiples of the average *)
Lemma equal_starts a : is_word 64 a -> (forall i : nat, (i < length vals)%nat -> Z.of_nat (start_of vals i) = wrap 64 (a * Z.of_nat i)) ->
  forall i : nat, (i < length vals)%nat -> Z.of_nat (start_of vals i) = a * Z.of_nat i.
Proof using All.
  intros Ha Hs i. induction i as [|i IH]; intros Hi; [unfold start_of; rewrite take_0; cbn; lia|]. specialize (IH ltac:(lia)).
  pose proof (Hs (S i) Hi) as E. rewrite E. pose proof (start_mono vals i (S i) ltac:(lia)). pose proof (start_le vals (S i)).
  replace (a * Z.of_nat (S i)) with (Z.of_nat (start_of vals i) + a) in * by lia.
  destruct (Z.lt_ge_cases (Z.of_nat (start_of vals i) + a) (2 ^ 64)) as [|Hge]; [apply wrap_small; unfold is_word in *; lia|].
  exfalso. assert (wrap 64 (Z.of_nat (start_of vals i) + a) = Z.of_nat (start_of vals i) + a - 2 ^ 64) as Ew; [|unfold is_word in *; lia].
  unfold wrap, is_word in *. symmetry. apply Z.mod_unique with 1; lia.
Qed.
End encode.

(** ** Memory files *)

(** [truncate(0)] of a stream to which something was written *)
Lemma truncate_all d : mo_ok d -> mo_written d <> [] -> exists d', truncate 0 d = Some d' /\ mo_ok d' /\ mo_written d' = [].
Proof.
  intros Hd Hne. assert (0 <= mo_file_pointer d) by (pose proof (mo_pointer_range d Hd); lia).
  assert (mf_buffers (mo_file d) <> []) as Hb.
  { intros E. apply Hne. unfold mo_written, file_bytes. rewrite E. cbn. by rewrite take_nil. }
  destruct (truncate_spec 0 d Hd) as (d' & E & H1 & _ & H2); [lia| |by exists d'].
  unfold buffer_count. destruct (mf_buffers (mo_file d)) as [|b l]; [done|]. pose proof (boff_lt 0 (Z.of_nat (length (b :: l))) ltac:(cbn; lia)).
  pose proof (bsize_pos 0). change (boff 0) with 0 in *. lia.
Qed.

Lemma set_len_ok d len : mo_ok d -> mo_ok (mkOut (mf_set_len len (mo_file d)) (mo_offset d) (mo_data d) (mo_pos d) (mo_end d)) /\
  mo_written (mkOut (mf_set_len len (mo_file d)) (mo_offset d) (mo_data d) (mo_pos d) (mo_end d)) = mo_written d.
Proof. intros [Hf Hp]. split; [by split|done]. Qed.

Section writing.
Context {C W : Type} {EC : EncryptionStream C} {ES : EncryptionStreamSpec C} {DO : DataOutput W} {DS : DataOutputSpec W}
  {IO : IndexOutput W} {IS : IndexOutputSpec W} (p : platform).
Abbreviation big := (big_endian p).
Implicit Types (out : W) (c : column C) (cipher : option C) (g : list Z) (vals : list (list Z)).

Definition cipher_ok cipher : Prop := match cipher with Some k => stream_ok k | None => True end.

Lemma pointer_of_spec out : out_ok out -> pointer_of out = Z.of_nat (length (written out)).
Proof using All. intros Ho. unfold pointer_of. by rewrite out_pointer_spec. Qed.

Lemma encrypt_parts k parts o out : stream_ok k -> out_ok out -> Forall is_byte (concat parts) ->
  0 <= o -> o + Z.of_nat (length (concat parts)) < 2 ^ 64 -> exists out',
  visit_parts (encrypt_and_copy k) parts (Some (o, out)) = (true, Some (o + Z.of_nat (length (concat parts)), out')) /\
  out_ok out' /\ written out' = written out ++ image k o (concat parts).
Proof using All.
  intros Hk. revert o out. induction parts as [|b parts IH]; intros o out Ho Hb H0 Hs; cbn [visit_parts concat].
  - exists out. rewrite image_nil, app_nil_r. cbn. by rewrite Z.add_0_r.
  - cbn [concat] in Hb, Hs. apply Forall_app in Hb as [Hb Hbs]. rewrite length_app in Hs. cbn [encrypt_and_copy].
    rewrite encrypt_spec by (done || unfold is_word; lia). destruct (write_bytes_spec (image k o b) out Ho) as [H1 H2].
    destruct (IH (o + Z.of_nat (length b)) (write_bytes (image k o b) out) H1 Hbs ltac:(lia) ltac:(lia)) as (out' & -> & H3 & H4).
    exists out'. rewrite length_app, Nat2Z.inj_add, Z.add_assoc. split; [done|]. split; [done|].
    by rewrite H4, H2, image_app, <-app_assoc.
Qed.

Lemma copy_data_spec cipher f out : cipher_ok cipher -> mf_ok f -> Forall is_byte (mf_content f) -> out_ok out ->
  Z.of_nat (length (written out) + length (mf_content f)) < 2 ^ 64 -> exists out',
  copy_data cipher f out = Some (Done out') /\ out_ok out' /\
  written out' = written out ++ stored_form cipher (Z.of_nat (length (written out))) (mf_content f).
Proof using All.
  intros Hc Hf Hb Ho Hs. unfold copy_data. destruct cipher as [k|].
  - destruct (visit_spec f Hf) as (parts & Ep & Hv). rewrite Hv, pointer_of_spec by done. rewrite <-Ep in *.
    destruct (encrypt_parts k parts (Z.of_nat (length (written out))) out Hc Ho Hb) as (out' & E & H1 & H2); [lia|rewrite <-Nat2Z.inj_add; exact Hs|]. rewrite E.
    by exists out'.
  - destruct (copy_to_spec f out Hf Ho) as [H1 H2]. by exists (copy_to f out).
Qed.

(** The words that a block of addresses is packed into *)
Lemma write_table_spec deltas (k : nat) out : length deltas = (k * 64)%nat -> Z.of_nat k <= 1024 -> Forall (is_word 64) deltas ->
  foldl Z.lor 0 deltas <> 0 -> out_ok out -> exists tw out',
  table_of (packed.maxbits64 deltas) k deltas tw /\
  write_table p deltas (Z.of_nat (k * 64)) (packed.maxbits64 deltas) out = Some out' /\ out_ok out' /\
  written out' = written out ++ bytes_of_words big W64 tw /\ Z.of_nat (length (bytes_of_words big W64 tw)) <= 2 ^ 19.
Proof using All.
  intros Hl Hk Hd Hne Ho. destruct (packed.maxbits_word 64 deltas ltac:(lia) Hd) as [[H0 H64] Hfit].
  fold (packed.maxbits64 deltas) in *. set (bits := packed.maxbits64 deltas) in *.
  assert (0 < bits <= 64) as Hbits.
  { split; [|done]. destruct (Z.eq_dec bits 0) as [E|]; [|lia]. exfalso. apply Hne. rewrite E in Hfit. clear -Hfit.
    induction Hfit as [|x l Hx _ IH]; [done|]. cbn [foldl]. assert (x = 0) as -> by (unfold is_word in Hx; lia). exact IH. }
  assert (packed.bytes_required_64 (Z.of_nat (k * 64)) bits = 8 * Z.of_nat (k * Z.to_nat bits)) as Eb.
  { unfold packed.bytes_required_64, Math.div_ceil64. rewrite wrap_small by (unfold is_word; nia).
    assert (Z.of_nat (k * 64) * bits = 8 * (8 * Z.of_nat (k * Z.to_nat bits))) as -> by nia.
    pose proof (Math.div_ceil_spec 64 (8 * (8 * Z.of_nat (k * Z.to_nat bits))) 8 ltac:(lia) ltac:(lia)) as Hq. cbv zeta in Hq.
    assert (Z.of_nat (k * Z.to_nat bits) <= 65536) by nia. specialize (Hq ltac:(lia)). lia. }
  unfold write_table. rewrite Eb. cbv zeta.
  replace (Z.to_nat (8 * Z.of_nat (k * Z.to_nat bits) / 8)) with (k * Z.to_nat bits)%nat by (rewrite Z.mul_comm, Z.div_mul by lia; lia).
  destruct (packed.pack_blocks_value 64 bits k deltas (replicate (k * Z.to_nat bits) 0) [] Hbits Hd) as (tw & E & L & F & V);
    [by rewrite Hl|by rewrite length_replicate|by apply Forall_replicate|]. rewrite !app_nil_r in E.
  unfold packed.pack_64, packed.pack. rewrite Hl. change 64%nat with (Z.to_nat 64). rewrite packed.blocks_exact, E by lia. cbn [mbind option_bind].
  destruct (write_bytes_spec (bytes_of_words big W64 tw) out Ho) as [H1 H2]. exists tw, (write_bytes (bytes_of_words big W64 tw) out).
  rewrite length_replicate in L. split.
  - split; try done. by rewrite V, packed.map_wrap_small.
  - split; [done|]. split; [done|]. split; [done|]. rewrite bytes_of_words_length, L. change (bytes_of W64) with 8%nat.
    assert (Z.of_nat (k * Z.to_nat bits) <= 65536) by nia. lia.
Qed.

(** ** Blocks *)

Record column_at g (docs : list Z) (fvals pvals : list (list Z)) (junk : list Z) c : Prop := {
  ca_cipher : cipher_ok (ctx_cipher c);
  ca_docs : exists cs, writer_inv [] (ctx_version c) docs (docs_writer_ c) cs;
  ca_last : sw_prev_value (docs_writer_ c) = pend_ c;
  ca_sorted : StronglySorted Z.lt docs;
  ca_range : Forall (fun d => doc_limits.min <= d < doc_limits.eof) docs;
  ca_length : length docs = (length fvals + length pvals)%nat;
  ca_count : docs_count_ c = Z.of_nat (length fvals);
  ca_blocks : Z.of_nat (length fvals) <= kBlockSize * Z.of_nat (length (blocks_ c)) < Z.of_nat (length fvals) + kBlockSize;
  ca_data : mo_ok (data_ c);
  ca_written : mo_written (data_ c) = junk ++ concat pvals;
  ca_table : addr_table_ c = addresses (length junk) pvals;
  ca_room : Z.of_nat (length pvals) <= kBlockSize;
  ca_junk : Forall is_byte junk;
  ca_fvals : Forall (Forall is_byte) fvals;
  ca_pvals : Forall (Forall is_byte) pvals;
  ca_stored : column_stored big (ctx_cipher c) g (blocks_ c) fvals;
  ca_words : Forall column_block_ok (blocks_ c);
  ca_fixed : fixed_length_ c = true -> equal_length (prev_avg_ c) fvals /\ Forall (fun b => cb_avg b = prev_avg_ c) (blocks_ c) /\
    (blocks_ c = [] -> prev_avg_ c = 0);
  ca_fresh : blocks_ c = [] -> fixed_length_ c = true;
  ca_dense : ctx_consolidation c = true -> fixed_length_ c = true -> forall b0, head (blocks_ c) = Some b0 -> junk = [] /\
    Z.of_nat (length g) = cb_data b0 + prev_avg_ c * Z.of_nat (length fvals) /\
    forall (j : nat) b, blocks_ c !! j = Some b -> cb_data b = cb_data b0 + prev_avg_ c * (kBlockSize * Z.of_nat j);
}.

(** Starts at multiples of the average, and a last value of that length *)
Lemma equal_lengths a vals : (forall i, (i < length vals)%nat -> Z.of_nat (start_of vals i) = a * Z.of_nat i) ->
  (forall v, last vals = Some v -> Z.of_nat (length v) = a) -> equal_length a vals.
Proof using Type.
  intros Hs Hl. apply Forall_lookup_2. intros i v Hi. pose proof (lookup_lt_Some _ _ _ Hi) as Hlt.
  destruct (decide (S i < length vals)%nat) as [Hn|Hn].
  - pose proof (Hs i Hlt). pose proof (Hs (S i) Hn) as E. rewrite (start_of_succ _ _ _ Hi) in E. lia.
  - apply Hl. rewrite last_lookup, <-Hi. f_equal. lia.
Qed.

Lemma empty_starts vals i : concat vals = [] -> start_of vals i = 0%nat.
Proof using Type. intros E. pose proof (start_le vals i) as H. rewrite E in H. cbn in H. lia. Qed.

(** The addresses of the values behind [junk] are written. *)
Lemma write_addresses_spec c file junk pvals last_size out : pvals <> [] -> Z.of_nat (length pvals) <= kBlockSize ->
  (forall v, last pvals = Some v -> last_size = Z.of_nat (length v)) ->
  addr_table_ c = addresses (length junk) pvals -> mf_len file = Z.of_nat (length (junk ++ concat pvals)) ->
  mf_len file < 2 ^ 64 -> out_ok out ->
  exists base avg bits fixed_length prev_avg out' x,
  write_addresses p c file last_size (Z.of_nat (length pvals)) out =
    Some (base, avg, bits, fixed_length, prev_avg, out') /\ out_ok out' /\ written out' = written out ++ x /\ Z.of_nat (length x) <= 2 ^ 19 /\
  base = (if mf_len file =? 0 then Z.of_nat (length (written out')) else Z.of_nat (length junk)) /\ is_word 64 avg /\ is_byte bits /\
  (bits = bitpack.ALL_EQUAL /\ x = [] /\ (forall i, (i < length pvals)%nat -> Z.of_nat (start_of pvals i) = avg * Z.of_nat i) \/
   exists k deltas tw, table_of bits k deltas tw /\ x = bytes_of_words big W64 tw /\ (length pvals <= k * 64)%nat /\
     forall i, (i < length pvals)%nat -> exists d, deltas !! i = Some d /\
        Z.of_nat (start_of pvals i) = wrap 64 (avg * Z.of_nat i + Bit.zig_zag_decode64 d)) /\
  (fixed_length = true -> fixed_length_ c = true /\ x = [] /\ prev_avg = avg /\ equal_length avg pvals /\ (docs_count_ c = 0 \/ avg = prev_avg_ c)).
Proof using All.
  intros Hne Hroom Hlast Ht Hlen Hsize Ho. rewrite kBlockSize_eq in Hroom. unfold write_addresses. cbv zeta. rewrite Ht. rewrite length_app in Hlen.
  assert (forall avg, (forall i, (i < length pvals)%nat -> Z.of_nat (start_of pvals i) = avg * Z.of_nat i) ->
    fixed_length_ c && ((last_size =? avg) && ((0 =? docs_count_ c) || (avg =? prev_avg_ c))) = true ->
    fixed_length_ c = true /\ ([] : list Z) = [] /\ avg = avg /\ equal_length avg pvals /\ (docs_count_ c = 0 \/ avg = prev_avg_ c)) as Hfixed.
  { intros a Hs Hf. apply andb_true_iff in Hf as [Hf1 Hf]. apply andb_true_iff in Hf as [Hf2%Z.eqb_eq Hf3]. split; [done|]. split; [done|]. split; [done|].
    split; [|apply orb_true_iff in Hf3 as [Hf3%Z.eqb_eq|Hf3%Z.eqb_eq]; [by left|by right]].
    apply equal_lengths; [done|]. intros v Hv. by rewrite <-(Hlast v Hv). }
  destruct (Z.eqb_spec (mf_len file) 0) as [E0|E0].
  - assert (concat pvals = []) as Ec by (apply length_zero_iff_nil; lia).
    assert (forall i, (i < length pvals)%nat -> Z.of_nat (start_of pvals i) = 0 * Z.of_nat i) as Hs by (intros i _; by rewrite (empty_starts pvals i Ec)).
    cbn [mbind option_bind]. eexists _, _, _, _, _, out, []. split; [done|]. split; [done|]. split; [by rewrite app_nil_r|]. split; [done|].
    split; [by rewrite pointer_of_spec|]. split; [done|]. split; [done|]. split; [by left|]. by apply Hfixed.
  - destruct (encode_addresses p (length junk) pvals Hne ltac:(lia)) as (enc & a & rl & -> & Hle & Hwe & Ha & Hs & Hrl). cbn [mbind option_bind].
    destruct rl.
    + assert (forall i, (i < length pvals)%nat -> Z.of_nat (start_of pvals i) = a * Z.of_nat i) as Hs'.
      { apply (equal_starts p (length junk) pvals Hne ltac:(lia) a Ha). intros i Hi. destruct (Hs i Hi) as (d & Hd & ->).
        pose proof (Forall_lookup_1 _ _ _ _ Hrl Hd) as ->. by rewrite Z.add_0_r. }
      eexists _, _, _, _, _, out, []. split; [done|]. split; [done|]. split; [by rewrite app_nil_r|]. split; [done|].
      split; [done|]. split; [done|]. split; [done|]. split; [by left|]. by apply Hfixed.
    + set (n := length pvals) in *. set (k := ((n + 63) / 64)%nat).
      assert (n <= k * 64 < n + 64)%nat as Hk.
      { unfold k. pose proof (Nat.div_mod_eq (n + 63) 64). pose proof (Nat.mod_upper_bound (n + 63) 64). lia. }
      pose proof (ceil_spec W64 n k (k * 64 - n)) as Ec. cbn [bits_of] in Ec. change (Z.to_nat 64) with 64%nat in Ec.
      rewrite Ec by lia. replace (Z.to_nat (Z.of_nat (k * 64) - Z.of_nat n)) with (k * 64 - n)%nat by lia.
      set (deltas := enc ++ replicate (k * 64 - n) 0).
      destruct (write_table_spec deltas k out) as (tw & out' & Htab & -> & H1 & H2 & H3); [..|done|].
      { unfold deltas. rewrite length_app, length_replicate. lia. }
      { lia. }
      { apply Forall_app_2; [done|]. by apply Forall_replicate. }
      { unfold deltas. rewrite foldl_app. intros E. apply lor_zero in E as [E _]. done. }
      cbn [mbind option_bind]. eexists _, _, _, _, _, out', _. split; [done|]. split; [done|]. split; [exact H2|]. split; [done|]. split; [done|]. split; [done|].
      pose proof (tb_bits _ _ _ _ Htab). split; [unfold is_byte, is_word; lia|]. split; [|done]. right.
      exists k, deltas, tw. split; [done|]. split; [done|]. split; [lia|]. intros i Hi. destruct (Hs i Hi) as (d & Hd & E). exists d.
      split; [|done]. unfold deltas. by apply lookup_app_l_Some.
Qed.

Lemma write_data_spec cipher base d content (junk : nat) out : cipher_ok cipher -> mo_ok d -> mo_written d = content -> Forall is_byte content ->
  base = (if mf_len (mo_file (mo_flush d)) =? 0 then Z.of_nat (length (written out)) else Z.of_nat junk) -> (junk <= length content)%nat ->
  out_ok out -> Z.of_nat (length (written out) + length content) < 2 ^ 64 -> exists d' out',
  write_data cipher base (mo_flush d) out = Some (Done (Z.of_nat (length (written out) + junk), d', out')) /\
  mo_ok d' /\ mo_written d' = [] /\ out_ok out' /\ written out' = written out ++ stored_form cipher (Z.of_nat (length (written out))) content.
Proof using All.
  intros Hc Hd <- Hb -> Hj Ho Hs. destruct (flushed_file d Hd) as (Hf & Ef & El). destruct (mo_flush_ok d Hd) as [Hd' Ew].
  unfold write_data. rewrite El. destruct (Z.eqb_spec (Z.of_nat (length (mo_written d))) 0) as [E|E]; cbn [negb].
  - assert (mo_written d = []) as E0 by (apply length_zero_iff_nil; lia). rewrite E0 in *. cbn in Hj.
    exists (mo_flush d), out. split; [unfold done_; do 5 f_equal; lia|]. split; [done|]. split; [done|]. split; [done|].
    destruct cipher as [k|]; cbn [stored_form]; rewrite ?image_nil; by rewrite app_nil_r.
  - destruct (copy_data_spec cipher (mo_file (mo_flush d)) out Hc Hf) as (out' & Eq & H1 & H2); [by rewrite Ef|done|by rewrite Ef|].
    rewrite Eq, Ef in *. rewrite bind_done. destruct (truncate_all (mo_flush d) Hd') as (d' & Et & Hd2 & Ew2).
    { rewrite Ew. intros E0. rewrite E0 in E. done. }
    rewrite Et, bind_lift, pointer_of_spec by done. destruct (set_len_ok d' 0 Hd2) as [H3 H4].
    eexists _, out'. split; [unfold done_; do 5 f_equal; rewrite wrap_small by (unfold is_word; lia); lia|]. split; [exact H3|]. split; [exact (eq_trans H4 Ew2)|]. done.
Qed.

(** What does not change in a column *)
Definition config c := (ctx_cipher c, ctx_consolidation c, ctx_version c, compression_ c, finalizer_ c, payload_ c, name_ c, id_ c).

Lemma block_stored_app cipher g x b vals : block_stored big cipher g b vals -> block_stored big cipher (g ++ x) b vals.
Proof using All.
  intros [H1 H2 (q & H3 & H4) H5]. split; [done|done| |].
  - exists q. split; [done|by apply holds_app].
  - destruct H5 as [H5|(q' & k & deltas & tw & E1 & E2 & E3 & E4)]; [by left|right]. exists q', k, deltas, tw.
    split; [done|]. split; [done|]. split; [by apply holds_app|done].
Qed.

Lemma block_vals_app (j : nat) vals vals' : (Z.to_nat kBlockSize * S j <= length vals)%nat -> block_vals j (vals ++ vals') = block_vals j vals.
Proof using Type.
  intros Hj. unfold block_vals. rewrite drop_app_le, take_app_le by (rewrite ?length_drop; lia). done.
Qed.

Lemma block_vals_end n vals vals' : length vals = (Z.to_nat kBlockSize * n)%nat -> Z.of_nat (length vals') <= kBlockSize -> block_vals n (vals ++ vals') = vals'.
Proof using Type. intros Hl Hr. unfold block_vals. rewrite <-Hl, drop_app_length, take_ge by lia. done. Qed.

Lemma stored_snoc cipher g x bs b fvals pvals : column_stored big cipher g bs fvals -> Z.of_nat (length fvals) = kBlockSize * Z.of_nat (length bs) ->
  block_stored big cipher (g ++ x) b pvals -> Z.of_nat (length pvals) <= kBlockSize ->
  column_stored big cipher (g ++ x) (bs ++ [b]) (fvals ++ pvals).
Proof using All.
  intros Hst Hal Hb Hr j Hj. rewrite kBlockSize_eq in *. rewrite length_app in Hj. assert (j <= length bs)%nat as Hle by lia.
  destruct (decide (j < length bs)%nat) as [Hlt|Hge].
  - destruct (Hst j) as (b' & E & Hb'); [rewrite kBlockSize_eq; lia|]. exists b'. split; [by apply lookup_app_l_Some|].
    rewrite block_vals_app by (rewrite kBlockSize_eq; lia). by apply block_stored_app.
  - assert (j = length bs) as -> by lia. exists b. split; [by apply list_lookup_middle|].
    rewrite block_vals_end; [done|rewrite kBlockSize_eq; lia|rewrite kBlockSize_eq; lia].
Qed.

Lemma addresses_last o vals v : last vals = Some v ->
  table_back (addresses o vals) = Some (Z.of_nat (o + length (concat vals) - length v)).
Proof using Type.
  intros Hv. destruct vals as [|w vals _] using rev_ind; [done|]. rewrite last_snoc in Hv. injection Hv as ->.
  unfold table_back. rewrite addresses_snoc, last_snoc, concat_app, length_app. cbn [concat]. rewrite app_nil_r. do 2 f_equal. lia.
Qed.

Lemma equal_total len vals : equal_length len vals -> Z.of_nat (length (concat vals)) = len * Z.of_nat (length vals).
Proof using Type. intros Hv. rewrite <-start_of_all. by apply start_of_equal. Qed.

(** A block in the file after its table and its data were written *)
Lemma new_block cipher g x junk pvals addr avg bits last_size : pvals <> [] -> Z.of_nat (length pvals) <= kBlockSize ->
  (forall v, last pvals = Some v -> last_size = Z.of_nat (length v)) -> addr = Z.of_nat (length g) ->
  (bits = bitpack.ALL_EQUAL /\ x = [] /\ (forall i, (i < length pvals)%nat -> Z.of_nat (start_of pvals i) = avg * Z.of_nat i) \/
   exists k deltas tw, table_of bits k deltas tw /\ x = bytes_of_words big W64 tw /\ (length pvals <= k * 64)%nat /\
     forall i, (i < length pvals)%nat -> exists d, deltas !! i = Some d /\
        Z.of_nat (start_of pvals i) = wrap 64 (avg * Z.of_nat i + Bit.zig_zag_decode64 d)) ->
  block_stored big cipher (g ++ x ++ stored_form cipher (Z.of_nat (length (g ++ x))) (junk ++ concat pvals))
    (mkColumnBlock addr avg (Z.of_nat (length (g ++ x) + length junk)) last_size bits) pvals.
Proof using All.
  intros Hne Hr Hl -> Hs. split; cbn [cb_addr cb_avg cb_data cb_last_size cb_bits].
  - destruct pvals; [done|]. cbn [length] in *. lia.
  - exact Hl.
  - eexists. split; [reflexivity|]. rewrite app_assoc. set (o := length (g ++ x)).
    pose proof (holds_piece _ _ _ (length junk) (length (concat pvals)) (holds_end (g ++ x) (stored_form cipher (Z.of_nat o) (junk ++ concat pvals)))) as Hp.
    rewrite stored_length, length_app in Hp. specialize (Hp ltac:(lia)). fold o in Hp.
    rewrite stored_piece in Hp by (rewrite length_app; lia). rewrite drop_app_length, take_ge in Hp by lia. by rewrite <-Nat2Z.inj_add in Hp.
  - destruct Hs as [(-> & _ & Hs)|(k & deltas & tw & H1 & -> & H2 & H3)]; [by left|right]. exists (length g), k, deltas, tw.
    split; [done|]. split; [done|]. split; [|done]. rewrite app_assoc. apply holds_app, holds_end.
Qed.

(** The block of the pending values *)
Lemma flush_block_spec g docs fvals pvals junk c out : column_at g docs fvals pvals junk c -> pvals <> [] ->
  Z.of_nat (length fvals) = kBlockSize * Z.of_nat (length (blocks_ c)) -> out_ok out -> written out = g ->
  Z.of_nat (length g + length (mo_written (data_ c))) + 2 ^ 19 < 2 ^ 64 ->
  exists c' out' x, flush_block p c out = Some (Done (c', out')) /\ out_ok out' /\ written out' = g ++ x /\
    Z.of_nat (length x) <= 2 ^ 19 + Z.of_nat (length (mo_written (data_ c))) /\ length (blocks_ c') = S (length (blocks_ c)) /\
    column_at (g ++ x) docs (fvals ++ pvals) [] [] c' /\ config c' = config c /\ pend_ c' = pend_ c /\ mo_written (data_ c') = [] /\
    docs_writer_ c' = docs_writer_ c.
Proof using All.
  intros [] Hne Hal Ho Hw Hs. destruct (flushed_file _ ca_data0) as (Hf & Ef & El). rewrite ca_written0, length_app in Hs, El.
  assert (exists v, last pvals = Some v) as [v Hv] by (destruct (last pvals) eqn:E; [by eexists|by apply last_None in E]).
  assert (length v <= length (concat pvals))%nat as Hlv.
  { destruct pvals as [|w pv _] using rev_ind; [done|]. rewrite last_snoc in Hv. injection Hv as ->. rewrite concat_app, length_app. cbn [concat]. rewrite length_app. lia. }
  unfold flush_block. rewrite ca_table0, (addresses_last _ _ v Hv), bind_lift, addresses_length, El. cbv zeta.
  rewrite (wrap_small 64 (_ - _)) by (unfold is_word; lia). pose proof ca_room0 as Hroom. rewrite kBlockSize_eq in Hroom.
  rewrite (wrap_small 32 (Z.of_nat (length pvals))) by (unfold is_word; lia).
  replace (Z.of_nat (length junk + length (concat pvals)) - Z.of_nat (length junk + length (concat pvals) - length v)) with (Z.of_nat (length v)) by lia.
  assert (forall u, last pvals = Some u -> Z.of_nat (length v) = Z.of_nat (length u)) as Hlast by (intros u; rewrite Hv; by intros [= ->]).
  destruct (write_addresses_spec c (mo_file (mo_flush (data_ c))) junk pvals (Z.of_nat (length v)) out Hne ca_room0 Hlast ca_table0
    ltac:(by rewrite El, length_app) ltac:(lia) Ho) as (base & avg & bits & fl & pa & out1 & x & -> & Ho1 & Hw1 & Hx & Hbase & Havg & Hbits & Hst & Hfl).
  rewrite bind_lift. rewrite Hw in Hw1.
  assert (Forall is_byte (junk ++ concat pvals)) as Hbytes by (apply Forall_app_2; [done|by apply Forall_concat]).
  assert (length (written out1) = length g + length x)%nat as Hl1 by (by rewrite Hw1, length_app).
  destruct (write_data_spec (ctx_cipher c) base (data_ c) (junk ++ concat pvals) (length junk) out1 ca_cipher0 ca_data0 ca_written0 Hbytes Hbase)
    as (d' & out' & E & Hd' & Ed' & Ho' & Hw'); [rewrite length_app; lia|done|rewrite Hl1, length_app; lia|]. rewrite E, bind_done. clear E.
  set (b := mkColumnBlock (pointer_of out) avg (Z.of_nat (length (written out1) + length junk)) (Z.of_nat (length v)) bits).
  set (y := x ++ stored_form (ctx_cipher c) (Z.of_nat (length (written out1))) (junk ++ concat pvals)) in *.
  rewrite Hw1, <-app_assoc in Hw'. rewrite <-Hw1 in Hw'. fold y in Hw'.
  assert (length y = length x + (length junk + length (concat pvals)))%nat as Hy by (unfold y; by rewrite length_app, stored_length, length_app).
  assert (pointer_of out = Z.of_nat (length g)) as Ep by (by rewrite pointer_of_spec, Hw).
  assert (block_stored big (ctx_cipher c) (g ++ y) b pvals) as Hnew.
  { unfold b, y. rewrite Ep, Hw1. by apply new_block. }
  eexists _, out', y. split; [reflexivity|]. split; [done|]. split; [done|]. split; [rewrite Hy, ca_written0, length_app; lia|].
  cbn [blocks_ data_ pend_ docs_writer_]. split; [rewrite length_app; cbn; lia|]. split; [|done].
  assert (Z.of_nat (length docs) < 2 ^ 32) as Hdl by (pose proof (sorted_length docs _ _ ca_sorted0 ca_range0); doc_lia).
  assert (blocks_ c = [] -> fvals = []) as Hnil by (intros En; rewrite En in Hal; cbn in Hal; apply length_zero_iff_nil; lia).
  split; cbn [ctx_cipher ctx_version docs_writer_ pend_ docs_count_ blocks_ data_ addr_table_ fixed_length_ prev_avg_ ctx_consolidation]; try done.
  - rewrite length_app. cbn [length]. lia.
  - rewrite ca_count0, length_app, wrap_small; [lia|unfold is_word; lia].
  - rewrite !length_app. cbn [length]. destruct pvals; [done|]. cbn [length] in *. lia.
  - by apply Forall_app_2.
  - by apply stored_snoc.
  - apply Forall_app_2; [done|]. apply Forall_singleton. unfold b. split; cbn; try done; unfold is_word; rewrite ?Ep; lia.
  - intros Ht. destruct (Hfl Ht) as (Hc & _ & -> & Heq & Hprev). destruct (ca_fixed0 Hc) as (F1 & F2 & _).
    assert (avg = prev_avg_ c \/ blocks_ c = [] /\ fvals = []) as Hcase.
    { destruct Hprev as [E0|E0]; [right|by left]. assert (fvals = []) as E1 by (apply length_zero_iff_nil; lia). split; [|done].
      rewrite E1 in Hal. destruct (blocks_ c); [done|]. cbn [length] in Hal. rewrite kBlockSize_eq in Hal. lia. }
    split; [|split; [|by destruct (blocks_ c)]].
    + apply Forall_app_2; [|done]. destruct Hcase as [->|[_ ->]]; [done|constructor].
    + apply Forall_app_2; [|by apply Forall_singleton]. destruct Hcase as [->|[-> _]]; [done|constructor].
  - by destruct (blocks_ c).
  - intros Hcons Ht b0 Hb0. destruct (Hfl Ht) as (Hc & Hx0 & -> & Heq & Hprev). pose proof (equal_total _ _ Heq) as Htot. split; [done|].
    rewrite !length_app, Hy, Hx0. cbn [length]. destruct (blocks_ c) as [|b1 bs] eqn:Ebs.
    + rewrite (Hnil eq_refl) in *. cbn in Hb0. injection Hb0 as <-. unfold b. cbn [cb_data length app]. rewrite Hl1, Hx0. cbn [length]. split; [lia|].
      intros [|j] b' Hb'; [injection Hb' as <-; unfold b; cbn [cb_data]; rewrite ?Hl1, ?Hx0; cbn [length]; lia|done].
    + cbn in Hb0. injection Hb0 as <-. destruct (ca_dense0 Hcons Hc b1 eq_refl) as (-> & D1 & D2).
      assert (avg = prev_avg_ c) as ->. { destruct Hprev as [E0|E0]; [|done]. rewrite kBlockSize_eq in *. cbn [length] in *. lia. }
      cbn [length]. split; [lia|]. intros j b' Hb'. apply lookup_app_Some in Hb' as [Hb'|[Hj Hb']]; [by apply D2|].
      apply list_lookup_singleton_Some in Hb' as [Hj' <-]. unfold b. cbn [cb_data]. rewrite Hl1, Hx0. cbn [length] in *.
      assert (j = S (length bs)) as -> by lia. rewrite <-Hal. lia.
Qed.

(** ** Sequences of calls *)

(** A column of the documents [docs] with the values [vals], some of them in blocks in the file [g] *)
Definition column_inv g docs vals c : Prop := exists fvals pvals junk, vals = fvals ++ pvals /\ column_at g docs fvals pvals junk c /\
  Z.of_nat (length fvals) = kBlockSize * Z.of_nat (length (blocks_ c)) /\ (pvals = [] -> vals = []).

Lemma grow_last_snoc bs vals v : grow_last bs (vals ++ [v]) = vals ++ [v ++ bs].
Proof using Type. induction vals as [|u vals IH]; [done|]. cbn [app grow_last]. destruct (vals ++ [v]) eqn:E; [by destruct vals|]. by rewrite <-IH. Qed.

Lemma column_at_file g x docs fvals pvals junk c : ctx_consolidation c = false -> column_at g docs fvals pvals junk c -> column_at (g ++ x) docs fvals pvals junk c.
Proof using All.
  intros Hc []. split; try done; [|by rewrite Hc]. intros j Hj. destruct (ca_stored0 j Hj) as (b & E & Hb). exists b. split; [done|]. by apply block_stored_app.
Qed.

Lemma column_write_inv g docs vals c bs : Forall is_byte bs -> column_inv g docs vals c ->
  column_inv g docs (grow_last bs vals) (column_write_bytes bs c) /\ mo_written (data_ (column_write_bytes bs c)) = mo_written (data_ c) ++ bs.
Proof using All.
  intros Hbs (fvals & pvals & junk & -> & [] & Hal & Hne). destruct (mo_write_bytes_spec bs (data_ c) ca_data0) as [H1 H2].
  assert (mo_written (data_ (column_write_bytes bs c)) = mo_written (data_ c) ++ bs) as Ew by exact H2. split; [|exact Ew].
  destruct pvals as [|v pvals _] using rev_ind.
  - pose proof (Hne eq_refl) as En. rewrite app_nil_r in En. subst fvals. cbn [app]. exists [], [], (junk ++ bs). split; [done|]. split; [|by split].
    split; try done; [by rewrite Ew, ca_written0, !app_nil_r|by apply Forall_app_2|]. intros _ _ b0 Hb0. cbn [column_write_bytes set_data blocks_] in Hb0.
    cbn [length] in Hal. destruct (blocks_ c); [done|]. rewrite kBlockSize_eq in Hal. cbn [length] in Hal. lia.
  - exists fvals, (pvals ++ [v ++ bs]), junk. split; [by rewrite app_assoc, grow_last_snoc, <-app_assoc|]. split; [|split; [done|by intros [_ ?]%app_nil]].
    rewrite length_app in ca_length0, ca_room0. apply Forall_app in ca_pvals0 as [F1 [F2 _]%Forall_cons].
    split; try done.
    + rewrite length_app. exact ca_length0.
    + rewrite Ew, ca_written0, !concat_app. cbn [concat]. by rewrite !app_nil_r, <-!app_assoc.
    + cbn [column_write_bytes set_data addr_table_]. rewrite ca_table0. apply addresses_grow.
    + rewrite length_app. exact ca_room0.
    + apply Forall_app_2; [done|]. apply Forall_singleton. by apply Forall_app_2.
Qed.

(** A document is pushed behind values that have room for it. *)
Lemma push_doc_spec g docs fvals pvals junk c key : column_at g docs fvals pvals junk c -> pend_ c < key < doc_limits.eof ->
  doc_limits.min <= key -> Z.of_nat (length pvals) < kBlockSize -> exists w,
  push_back big key (docs_writer_ c) = Some w /\
  column_at g (docs ++ [key]) fvals (pvals ++ [[]]) junk (set_docs w (addr_table_ c ++ [mo_file_pointer (data_ c)]) (pend_ c) key c).
Proof using All.
  intros [] Hk Hmin Hroom. destruct ca_docs0 as [cs Hcs].
  destruct (push_back_spec big [] (ctx_version c) docs cs (docs_writer_ c) key Hcs) as (w & cs' & E & Hw); [by rewrite ca_last0|].
  exists w. split; [done|]. split; cbn [set_docs ctx_cipher ctx_version docs_writer_ pend_ docs_count_ blocks_ data_ addr_table_ fixed_length_ prev_avg_ ctx_consolidation]; try done.
  - by exists cs'.
  - rewrite (wi_prev _ _ _ _ _ Hw), last_snoc. done.
  - apply StronglySorted_app_2; [|done|repeat constructor]. intros x1 x2 Hx1 Hx2%list_elem_of_singleton. subst x2.
    pose proof (wi_docs _ _ _ _ _ Hcs) as Hd. rewrite Forall_forall in Hd. specialize (Hd x1 Hx1). cbn in Hd. lia.
  - apply Forall_app_2; [done|]. apply Forall_singleton. lia.
  - rewrite !length_app. cbn [length]. lia.
  - by rewrite ca_written0, concat_app, !app_nil_r.
  - rewrite ca_table0, addresses_snoc. do 2 f_equal. rewrite <-(mo_written_length _ ca_data0), ca_written0, length_app. done.
  - rewrite length_app. cbn [length]. lia.
  - apply Forall_app_2; [done|]. apply Forall_singleton. constructor.
Qed.

Lemma prepare_spec docs vals c out key : column_inv (written out) docs vals c -> out_ok out -> pend_ c < key < doc_limits.eof -> doc_limits.min <= key ->
  Z.of_nat (length (written out) + length (mo_written (data_ c))) + 2 ^ 19 < 2 ^ 64 ->
  exists c' out', Prepare p key c out = Some (Done (c', out')) /\ out_ok out' /\ column_inv (written out') (docs ++ [key]) (vals ++ [[]]) c' /\
    config c' = config c /\ pend_ c' = key /\
    Z.of_nat (length (written out') + length (mo_written (data_ c'))) <= Z.of_nat (length (written out) + length (mo_written (data_ c))) + 2 ^ 19 /\
    exists x, written out' = written out ++ x.
Proof using All.
  intros (fvals & pvals & junk & -> & Hc & Hal & Hne) Ho Hk Hmin Hs. unfold Prepare. destruct (Z.ltb_spec (pend_ c) key); [|lia].
  pose proof (ca_room _ _ _ _ _ _ Hc) as Hroom. unfold table_full. rewrite (ca_table _ _ _ _ _ _ Hc), addresses_length. rewrite kBlockSize_eq in *.
  case_bool_decide as Hfull.
  - assert (pvals <> []) as Hpn by (intros ->; cbn [length] in Hfull; lia).
    destruct (flush_block_spec _ docs fvals pvals junk c out Hc Hpn ltac:(by rewrite kBlockSize_eq) Ho eq_refl Hs)
      as (c1 & out1 & x & -> & Ho1 & Hw1 & Hx & Hb1 & Hc1 & Hcfg & Hp1 & Hd1 & Hdw). rewrite bind_done.
    destruct (push_doc_spec _ docs (fvals ++ pvals) [] [] c1 key Hc1 ltac:(by rewrite Hp1) Hmin ltac:(by rewrite kBlockSize_eq)) as (w & -> & Hc2).
    rewrite bind_lift. eexists _, out1. split; [reflexivity|]. split; [done|]. rewrite Hw1. split.
    + exists (fvals ++ pvals), [[]], []. split; [done|]. split; [exact Hc2|]. split; [|done]. cbn [set_docs blocks_]. rewrite Hb1, length_app, kBlockSize_eq. lia.
    + split; [exact Hcfg|]. split; [done|]. cbn [set_docs data_]. rewrite Hd1, length_app. cbn [length]. split; [lia|by exists x].
  - rewrite bind_done_. destruct (push_doc_spec _ docs fvals pvals junk c key Hc Hk Hmin ltac:(rewrite kBlockSize_eq; lia)) as (w & -> & Hc2).
    rewrite bind_lift. eexists _, out. rewrite (ca_table _ _ _ _ _ _ Hc) in *. split; [reflexivity|]. split; [done|]. split.
    + exists fvals, (pvals ++ [[]]), junk. split; [by rewrite app_assoc|]. split; [exact Hc2|]. cbn [set_docs blocks_]. rewrite kBlockSize_eq. split; [done|]. by intros [_ ?]%app_nil.
    + split; [done|]. split; [done|]. cbn [set_docs data_]. split; [lia|exists []; by rewrite app_nil_r].
Qed.

Lemma inv_pend g docs vals c : column_inv g docs vals c -> pend_ c = default 0 (last docs) /\ 0 <= pend_ c.
Proof using All.
  intros (fvals & pvals & junk & _ & [] & _). destruct ca_docs0 as [cs Hcs]. rewrite <-ca_last0. split; [by rewrite (wi_prev _ _ _ _ _ Hcs)|].
  pose proof (wi_range _ _ _ _ _ Hcs). lia.
Qed.

(** A sequence of calls leaves the documents with their values in the column. *)
Lemma run_ops_spec ops docs vals c out : column_inv (written out) docs vals c -> out_ok out -> Forall (op_ok (ctx_consolidation c)) ops ->
  Z.of_nat (length (written out) + length (mo_written (data_ c))) + ops_size ops < 2 ^ 64 ->
  exists c' out', run_ops p ops c out = Some (Done (c', out')) /\ out_ok out' /\
    column_inv (written out') (spec_ops ops (docs, vals)).1 (spec_ops ops (docs, vals)).2 c' /\ config c' = config c /\
    Z.of_nat (length (written out') + length (mo_written (data_ c'))) <=
      Z.of_nat (length (written out) + length (mo_written (data_ c))) + ops_size ops /\
    exists x, written out' = written out ++ x.
Proof using All.
  revert docs vals c out. induction ops as [|op ops IH]; intros docs vals c out Hc Ho Hok Hs.
  { exists c, out. cbn in Hs |- *. split; [done|]. split; [done|]. split; [done|]. split; [done|]. split; [lia|exists []; by rewrite app_nil_r]. }
  apply Forall_cons in Hok as [Hop Hok]. cbn [ops_size foldr] in Hs. fold (ops_size ops) in Hs.
  assert (0 <= ops_size ops) as Hpos by (clear; unfold ops_size; induction ops as [|[] ops IH]; cbn [foldr op_size]; lia).
  assert (exists c1 out1, run_op p op c out = Some (Done (c1, out1)) /\ out_ok out1 /\
    column_inv (written out1) (spec_op op (docs, vals)).1 (spec_op op (docs, vals)).2 c1 /\ config c1 = config c /\
    Z.of_nat (length (written out1) + length (mo_written (data_ c1))) <= Z.of_nat (length (written out) + length (mo_written (data_ c))) + op_size op /\
    exists x, written out1 = written out ++ x) as (c1 & out1 & E & Ho1 & Hc1 & Hcfg & Hsz & x1 & Hx1).
  { destruct op as [key|bs|bs]; cbn [run_op spec_op op_ok op_size fst snd] in *.
    - destruct (inv_pend _ _ _ _ Hc) as [Ep _]. rewrite <-Ep. destruct (Z.ltb_spec (pend_ c) key) as [Hlt|Hge].
      + destruct (prepare_spec docs vals c out key Hc Ho ltac:(lia) ltac:(lia) ltac:(lia)) as (c1 & out1 & E & H1 & H2 & H3 & _ & H4 & H5). exists c1, out1. done.
      + unfold Prepare. destruct (Z.ltb_spec (pend_ c) key); [lia|]. exists c, out. split; [done|]. split; [done|]. split; [done|]. split; [done|]. split; [lia|exists []; by rewrite app_nil_r].
    - destruct (column_write_inv _ docs vals c bs Hop Hc) as [H1 H2]. eexists _, out. split; [done|]. split; [done|]. split; [done|]. split; [done|]. rewrite H2, length_app. split; [lia|exists []; by rewrite app_nil_r].
    - destruct (write_bytes_spec bs out Ho) as [H1 H2]. exists c, (write_bytes bs out). split; [done|]. split; [done|]. rewrite H2. split; [|split; [done|split; [rewrite length_app; lia|by exists bs]]].
      destruct Hc as (fvals & pvals & junk & E & Hc & H3). exists fvals, pvals, junk. split; [done|]. split; [by apply column_at_file|done]. }
  cbn [run_ops]. rewrite E, bind_done. assert (ctx_consolidation c1 = ctx_consolidation c) as Econs by (unfold config in Hcfg; congruence).
  destruct (IH _ _ c1 out1 Hc1 Ho1) as (c2 & out2 & E2 & Ho2 & Hc2 & Hcfg2 & Hsz2 & x2 & Hx2); [by rewrite Econs|lia|].
  exists c2, out2. split; [done|]. split; [done|]. cbn [spec_ops foldl]. fold (spec_ops ops (spec_op op (docs, vals))).
  rewrite <-surjective_pairing in Hc2. split; [done|]. split; [congruence|]. cbn [ops_size foldr]. fold (ops_size ops).
  split; [lia|]. exists (x1 ++ x2). by rewrite Hx2, Hx1, <-app_assoc.
Qed.

(** ** The end of a column *)

Lemma column_make_inv g cipher consolidation version id compression finalizer alloc : cipher_ok cipher ->
  column_inv g [] [] (column_make cipher consolidation version id compression finalizer alloc).
Proof using All.
  intros Hc. assert (file_ok (mkFile alloc [] 0)) as Hf by (intros i b Hb; done). destruct (out_make_ok _ Hf) as [H1 H2].
  exists [], [], []. split; [done|]. split; [|by rewrite Z.mul_0_r].
  split; cbn [column_make ctx_cipher ctx_version docs_writer_ pend_ docs_count_ blocks_ data_ addr_table_ fixed_length_ prev_avg_ ctx_consolidation]; try done.
  - exists []. by apply writer_make_inv.
  - constructor.
  - intros j Hj. cbn in Hj. lia.
  - intros _. split; [constructor|]. by split; [constructor|].
Qed.

(** [finalize]: all the values are in blocks. *)
Lemma column_finalize_spec docs vals c out : column_inv (written out) docs vals c -> out_ok out ->
  Z.of_nat (length (written out) + length (mo_written (data_ c))) + 2 ^ 19 < 2 ^ 64 ->
  exists c' out' x junk, column_finalize p c out = Some (Done (c', out')) /\ out_ok out' /\ written out' = written out ++ x /\
    Z.of_nat (length x) <= 2 ^ 19 + Z.of_nat (length (mo_written (data_ c))) /\ column_at (written out') docs vals [] junk c' /\
    (ctx_cipher c', ctx_consolidation c', ctx_version c', compression_ c', id_ c') = (ctx_cipher c, ctx_consolidation c, ctx_version c, compression_ c, id_ c) /\
    (name_ c', payload_ c') = match finalizer_ c with Some f => f (payload_ c) | None => (name_ c, payload_ c) end.
Proof using All.
  intros (fvals & pvals & junk & -> & Hc & Hal & Hne) Ho Hs.
  assert (exists c1 out1 x junk1, column_flush p c out = Some (Done (c1, out1)) /\ out_ok out1 /\ written out1 = written out ++ x /\
    Z.of_nat (length x) <= 2 ^ 19 + Z.of_nat (length (mo_written (data_ c))) /\ column_at (written out1) docs (fvals ++ pvals) [] junk1 c1 /\ config c1 = config c)
    as (c1 & out1 & x & junk1 & E & Ho1 & Hw1 & Hx & Hc1 & Hcfg).
  { unfold column_flush. rewrite (ca_table _ _ _ _ _ _ Hc). destruct pvals as [|v pvals].
    - exists c, out, [], junk. rewrite !app_nil_r. split; [done|]. split; [done|]. split; [done|]. split; [cbn [length]; lia|]. by split.
    - destruct (flush_block_spec _ docs fvals (v :: pvals) junk c out Hc ltac:(done) Hal Ho eq_refl Hs) as (c1 & out1 & x & E & Ho1 & Hw1 & Hx & _ & Hc1 & Hcfg & _).
      exists c1, out1, x, []. rewrite Hw1. by split. }
  unfold column_finalize. rewrite E, bind_done. assert (finalizer_ c1 = finalizer_ c /\ payload_ c1 = payload_ c /\ name_ c1 = name_ c) as (Ef & Ep & En) by (unfold config in Hcfg; by simplify_eq).
  rewrite Ef, Ep. destruct (finalizer_ c) as [f|].
  - destruct (f (payload_ c)) as [name payload]. exists (set_name name payload c1), out1, x, junk1. split; [done|]. split; [done|]. split; [done|]. split; [done|].
    split; [by destruct Hc1; split|]. split; [|done]. unfold config in Hcfg. cbn. congruence.
  - exists c1, out1, x, junk1. split; [done|]. split; [done|]. split; [done|]. split; [done|]. split; [done|]. split; [|by rewrite En, Ep]. unfold config in Hcfg. congruence.
Qed.

(** Documents without a gap *)
Lemma sorted_gap docs d0 : StronglySorted Z.lt (d0 :: docs) ->
  d0 + Z.of_nat (length docs) <= default 0 (last (d0 :: docs)) /\
  (default 0 (last (d0 :: docs)) = d0 + Z.of_nat (length docs) -> d0 :: docs = seqZ d0 (Z.of_nat (S (length docs)))).
Proof using Type.
  revert d0. induction docs as [|d1 docs IH]; intros d0 Hs.
  - cbn [length last default]. split; [cbn; lia|done].
  - inversion Hs as [|? ? Hs1 Hlt]; subst. apply Forall_cons in Hlt as [Hlt _]. destruct (IH d1 Hs1) as [H1 H2].
    change (last (d0 :: d1 :: docs)) with (last (d1 :: docs)). cbn [length]. split; [lia|]. intros E.
    assert (d1 = d0 + 1) as -> by lia. rewrite seqZ_cons by lia. f_equal. rewrite H2 by lia. f_equal; lia.
Qed.

Lemma contiguous docs pend min : StronglySorted Z.lt docs -> Forall (fun d => doc_limits.min <= d < doc_limits.eof) docs -> docs <> [] ->
  pend = default 0 (last docs) -> min = default 0 (head docs) ->
  (min +[32] Z.of_nat (length docs)) -[32] doc_limits.min = pend -> docs = seqZ min (Z.of_nat (length docs)).
Proof using Type.
  intros Hs Hd Hne -> -> E. destruct docs as [|d0 docs]; [done|]. destruct (sorted_gap docs d0 Hs) as [H1 H2]. cbn [head default] in *.
  assert (default 0 (last (d0 :: docs)) ∈ d0 :: docs) as Hin.
  { destruct (last (d0 :: docs)) as [x|] eqn:El; [by apply last_Some_elem_of|]. by apply last_None in El. }
  rewrite Forall_forall in Hd. pose proof (Hd _ Hin) as Hr. pose proof (Hd d0 ltac:(left)) as Hr0.
  rewrite wrap_sub_l, wrap_small in E by (unfold is_word; cbn [length]; unfold id; doc_lia). apply H2. cbn [length] in *. unfold doc_limits.min in *. unfold id in *. lia.
Qed.

(** The bitmap of the documents: its blocks [cks] and the index that is kept of them *)
Record bitmap_of (track : bool) (docs : list Z) (cks : list chunk) (idx : list block) : Prop := {
  bo_chunks : chunks_of docs cks;
  bo_index_length : Z.of_nat (length idx) < 2 ^ 16;
  bo_index_words : Forall bitmap_block_ok idx;
  bo_index : (2 < length idx)%nat -> index_for track (cks ++ [sentinel]) idx;
}.

(** What the header says of the column *)
Record header_of c (docs : list Z) (hdr : column_header) : Prop := {
  ho_id : hdr_id hdr = id_ c;
  ho_count : docs_count hdr = Z.of_nat (length docs);
  ho_min : is_word 32 (hdr_min hdr);
  ho_props : is_word 16 (props hdr);
  ho_encrypted : is_encrypted hdr = match ctx_cipher c with Some _ => true | None => false end;
  ho_no_name : ColumnProperty.has ColumnProperty.kNoName (props hdr) = match name_ c with Some _ => false | None => true end;
  ho_prev : prev_doc_version hdr = ctx_version c;
  ho_type : type_ hdr = (if fixed_length_ c then
      if prev_avg_ c =? 0 then ColumnType.kMask
      else if ctx_consolidation c then ColumnType.kDenseFixed else ColumnType.kFixed
    else ColumnType.kSparse);
}.

Lemma finished_index docs cks (w : sparse_bitmap_writer memory_index_output) track : chunks_of docs cks -> Forall (fun d => d < 2 ^ 32 - 2 ^ 17) docs ->
  Z.of_nat (length (sw_block_index w)) = (if last_id cks <=? 0 then 1 else Z.min (last_id cks + 2) kBlockSize) ->
  (forall i b, sw_block_index w !! i = Some b -> entry_ok track (cks ++ [sentinel]) (Z.of_nat i) b) ->
  bitmap_of track docs cks (sw_block_index w).
Proof using Type.
  intros Hc Hd Hlen Hent. pose proof Hc as [Hok Ho Edocs]. split; [done| | |].
  - assert (last_id cks < 65534) as Hl; [|rewrite Hlen, kBlockSize_eq; destruct (Z.leb_spec (last_id cks) 0); lia].
    apply last_id_lt; [lia|]. apply Forall_forall. intros c Hin. pose proof Hok as Hok'. rewrite Forall_forall in Hok'. specialize (Hok' c Hin).
    destruct (offsets (ch_bits c)) as [|o l] eqn:Eo; [apply ch_count_nil in Eo; pose proof (ch_some _ Hok'); lia|].
    assert (kBlockSize * ch_id c + o ∈ docs) as Hdoc.
    { rewrite Edocs. apply list_elem_of_bind. exists c. split; [|done]. apply list_elem_of_fmap. exists o. split; [reflexivity|rewrite Eo; left]. }
    assert (o ∈ offsets (ch_bits c)) as [Hr _]%offsets_elem by (rewrite Eo; left). rewrite Forall_forall in Hd. specialize (Hd _ Hdoc). cbn in Hd.
    rewrite kBlockSize_eq in *. lia.
  - apply Forall_lookup_2. intros i b Hb. destruct (Hent i b Hb) as (l & c & r & _ & _ & _ & ->). split; cbn [blk_index blk_offset]; apply wrap_range; lia.
  - intros H2. by eapply written_index_for.
Qed.

Lemma column_props (no_name encrypt prev : bool) hdr :
  props hdr = Z.lor (Z.lor (if no_name then ColumnProperty.kNoName else 0) (if encrypt then ColumnProperty.kEncrypt else 0)) (if prev then ColumnProperty.kPrevDoc else 0) ->
  is_word 16 (props hdr) /\ is_encrypted hdr = encrypt /\ ColumnProperty.has ColumnProperty.kNoName (props hdr) = no_name /\ prev_doc_version hdr = prev.
Proof using Type. unfold is_encrypted, prev_doc_version. intros ->. by destruct no_name, encrypt, prev. Qed.

Lemma do_flush_track b n (w w' : sparse_bitmap_writer memory_index_output) : do_flush b n w = Some w' -> sw_track_prev_doc w' = sw_track_prev_doc w.
Proof using Type.
  unfold do_flush. cbv zeta. destruct (sw_track_prev_doc w) eqn:E; cbn [mbind option_bind];
    match goal with |- (?x ≫= _) = _ -> _ => destruct x as [[? ?]|] end; cbn [mbind option_bind]; by intros [= <-].
Qed.

Lemma finish_track b (w w' : sparse_bitmap_writer memory_index_output) : finish b w = Some w' -> sw_track_prev_doc w' = sw_track_prev_doc w.
Proof using Type.
  unfold finish, writer_flush. cbv zeta. destruct (_ =? 0); cbn [mbind option_bind].
  - intros E. apply do_flush_track in E. rewrite E. by destruct (_ <? _).
  - destruct (do_flush b _ (add_block _ w)) as [w1|] eqn:E1; [|done]. cbn [mbind option_bind]. intros E. apply do_flush_track in E, E1. rewrite E.
    change (sw_track_prev_doc w) with (sw_track_prev_doc (add_block (sw_block w) w)). rewrite <-E1. by destruct (_ <? _).
Qed.

Lemma finish_docs_spec g docs vals junk c out : column_at g docs vals [] junk c -> out_ok out -> written out <> [] -> first_block_safe docs ->
  Forall (fun d => d < 2 ^ 32 - 2 ^ 17) docs -> exists w cks hdr out',
  finish_docs p c out = Some (set_docs w (addr_table_ c) (prev_ c) (pend_ c) c, hdr, out') /\ out_ok out' /\
  bitmap_of (ctx_version c) docs cks (sw_block_index w) /\ header_of c docs hdr /\
  (docs_index hdr = 0 /\ written out' = written out /\ (docs = [] \/ docs = seqZ (hdr_min hdr) (docs_count hdr)) \/
   docs_index hdr = Z.of_nat (length (written out)) /\ written out' = written out ++ layout (ctx_version c) 0 (cks ++ [sentinel]) /\ docs <> []).
Proof using All.
  intros [] Ho Hne Hsafe Hd. destruct ca_docs0 as [cs Hcs]. unfold finish_docs.
  destruct (finish_spec big [] (ctx_version c) docs cs (docs_writer_ c) Hcs) as (w & cks & Efin & Hcks & Hok & Hw & Hlen & Hent). rewrite Efin. cbn [mbind option_bind].
  apply finish_track in Efin. rewrite (wb_track _ _ _ _ _ _ (wi_base _ _ _ _ _ Hcs)) in Efin.
  destruct (flushed_file _ Hok) as (Hf & Ef & _). cbn [app] in Hw. pose proof (eq_trans Ef Hw) as Econtent. cbv zeta.
  cbn [sw_block_index sw_set_out docs_count_ pend_ set_docs ctx_version]. set (file := mo_file (mo_flush (sw_out w))) in *. clearbody file.
  assert (stored (mf_content file) 0 (ctx_version c) docs cks []) as Hst.
  { split; [done|done|done| |by left]. exists []. by rewrite app_nil_r, drop_0. }
  assert (at_ (mf_content file) 0 (mi_make file)) as Hat.
  { split; [split; [done|]; destruct Hf; cbn; unfold mi_length; cbn; lia|]. split; [done|]. split; [done|lia]. }
  destruct (bitmap_make_first (mf_content file) 0 (ctx_version c) docs cks [] false false (mi_make file) Hst Hsafe Hat) as (it & -> & Ed). cbn [mbind option_bind].
  rewrite ca_count0, app_nil_r in *. cbn [length] in ca_length0. rewrite Nat.add_0_r in ca_length0. rewrite <-ca_length0 in *.
  set (min := if negb (doc_limits.is_eof (si_doc it)) then si_doc it else doc_limits.invalid).
  assert (min = default 0 (head docs) /\ is_word 32 min) as [Em Hmin].
  { unfold min. rewrite Ed. destruct docs as [|d0 ds]; [done|]. cbn [head default]. apply Forall_cons in ca_range0 as [Hd0 _].
    cbn in Hd0. unfold id. unfold doc_limits.is_eof. rewrite (proj2 (Z.eqb_neq _ _)) by lia. cbn [negb]. split; [done|]. unfold is_word. doc_lia. }
  destruct (column_props (match name_ c with None => true | Some _ => false end) (match ctx_cipher c with None => false | Some _ => true end) (sw_track_prev_doc w)
    (mkHeader 0 0 0 0 (Z.lor (Z.lor (match name_ c with None => ColumnProperty.kNoName | Some _ => 0 end)
      (match ctx_cipher c with Some _ => ColumnProperty.kEncrypt | None => 0 end)) (if sw_track_prev_doc w then ColumnProperty.kPrevDoc else 0)) 0))
    as (P1 & P2 & P3 & P4); [by destruct (name_ c), (ctx_cipher c)|]. cbn [props] in *.
  assert (pend_ c = default 0 (last docs)) as Epend by (rewrite <-ca_last0; apply (wi_prev _ _ _ _ _ Hcs)).
  assert (forall docs_index, header_of c docs (mkHeader docs_index (id_ c) (Z.of_nat (length docs)) min
    (Z.lor (Z.lor (match name_ c with None => ColumnProperty.kNoName | Some _ => 0 end)
      (match ctx_cipher c with Some _ => ColumnProperty.kEncrypt | None => 0 end)) (if sw_track_prev_doc w then ColumnProperty.kPrevDoc else 0))
    (if fixed_length_ c then if 0 =? prev_avg_ c then ColumnType.kMask else if ctx_consolidation c then ColumnType.kDenseFixed else ColumnType.kFixed
     else ColumnType.kSparse))) as Hhdr.
  { intros docs_index. split; try done; first [by rewrite (Z.eqb_sym 0)|by rewrite <-Efin]. }
  destruct (negb (Z.of_nat (length docs) =? 0) && negb ((min +[32] Z.of_nat (length docs)) -[32] doc_limits.min =? pend_ c)) eqn:Econd.
  - apply andb_true_iff in Econd as [En%negb_true_iff%Z.eqb_neq _]. destruct (copy_to_spec file out Hf Ho) as [Ho' Hw'].
    eexists _, cks, _, _. split; [reflexivity|]. split; [done|]. split; [by apply finished_index|]. split; [apply Hhdr|]. right.
    cbn [docs_index]. rewrite pointer_of_spec by done. split; [done|]. split; [by rewrite Hw', Econtent|]. intros ->. done.
  - eexists _, cks, _, out. split; [reflexivity|]. split; [done|]. split; [by apply finished_index|]. split; [apply Hhdr|]. left.
    split; [done|]. split; [done|]. cbn [hdr_min docs_count]. destruct docs as [|d0 ds] eqn:Edocs; [by left|right]. rewrite <-Edocs in *.
    apply andb_false_iff in Econd as [E%negb_false_iff%Z.eqb_eq|E%negb_false_iff%Z.eqb_eq]; [rewrite Edocs in E; cbn [length] in E; lia|].
    apply (contiguous docs (pend_ c)); try done. by rewrite Edocs.
Qed.

End writing.

(** ** The index file *)

Section index_file.
Context {C V : Type} {EC : EncryptionStream C} {ES : EncryptionStreamSpec C} {DO : DataOutput V} {DS : DataOutputSpec V}
  {IO : IndexOutput V} {IS : IndexOutputSpec V}.
Implicit Types (c : column C) (hdr : column_header) (out : V).

Definition name_bytes c (pos : nat) : list Z :=
  match name_ c with
  | Some name => string_bytes (stored_form (ctx_cipher c) (Z.of_nat pos) name)
  | None => []
  end.
Definition kind_bytes c hdr : list Z :=
  if type_ hdr =? ColumnType.kSparse then sparse_blocks_bytes (blocks_ c)
  else if type_ hdr =? ColumnType.kMask then []
  else
    let front := default (mkColumnBlock 0 0 0 0 0) (head (blocks_ c)) in
    Fixed.write64 (cb_avg front) ++
    (if type_ hdr =? ColumnType.kDenseFixed then Fixed.write64 (cb_data front) else dense_blocks_bytes (blocks_ c)).
Definition front_bytes c hdr : list Z := string_bytes (compression_ c) ++ header_bytes hdr ++ string_bytes (payload_ c).
Definition docs_bytes c hdr : list Z := if docs_index hdr =? 0 then [] else bitmap_index_bytes (sw_block_index (docs_writer_ c)).
Definition index_bytes c hdr (pos : nat) : list Z :=
  front_bytes c hdr ++ name_bytes c (pos + length (front_bytes c hdr)) ++ docs_bytes c hdr ++ kind_bytes c hdr.

(** Strings whose lengths are stored in 32 bits, and a name of bytes *)
Record strings_ok c : Prop := {
  so_compression : Z.of_nat (length (compression_ c)) < 2 ^ 32;
  so_payload : Z.of_nat (length (payload_ c)) < 2 ^ 32;
  so_name : forall name, name_ c = Some name -> Z.of_nat (length name) < 2 ^ 32 /\ Forall is_byte name;
}.

Lemma write_name_spec c out : cipher_ok (ctx_cipher c) -> strings_ok c -> out_ok out -> Z.of_nat (length (written out)) < 2 ^ 64 -> exists out',
  write_name c out = Some out' /\ out_ok out' /\ written out' = written out ++ name_bytes c (length (written out)).
Proof using All.
  intros Hc [_ _ Hn] Ho Hs. unfold write_name, name_bytes. destruct (name_ c) as [name|]; [|exists out; by rewrite app_nil_r].
  destruct (Hn name eq_refl) as [Hl Hb]. destruct (ctx_cipher c) as [k|]; cbn [stored_form].
  - unfold pointer_of. rewrite out_pointer_spec, encrypt_spec by (done || unfold is_word; lia). cbn [mbind option_bind].
    assert (Z.of_nat (length (image k (Z.of_nat (length (written out))) name)) < 2 ^ 32) as Hl' by (by rewrite image_length).
    destruct (writes_string _ Hl' out Ho) as [H1 H2]. by eexists.
  - destruct (writes_string name Hl out Ho) as [H1 H2]. by eexists.
Qed.

Lemma write_blocks_spec c hdr out : Forall column_block_ok (blocks_ c) -> out_ok out ->
  (type_ hdr = ColumnType.kSparse \/ type_ hdr = ColumnType.kMask \/ blocks_ c <> []) -> exists out',
  write_blocks c hdr out = Some out' /\ out_ok out' /\ written out' = written out ++ kind_bytes c hdr.
Proof using All.
  intros Hb Ho Ht. unfold write_blocks, kind_bytes. destruct (Z.eqb_spec (type_ hdr) ColumnType.kSparse) as [E1|E1].
  - destruct (writes_blocks_sparse _ Hb out Ho). by eexists.
  - destruct (Z.eqb_spec (type_ hdr) ColumnType.kMask) as [E2|E2]; cbn [negb]; [exists out; by rewrite app_nil_r|].
    destruct (blocks_ c) as [|b bs] eqn:Ebs; [by destruct Ht as [?|[?|?]]|]. cbn [head mbind option_bind default].
    destruct (writes_long (cb_avg b) out Ho) as [Ho1 Hw1]. unfold id. destruct (type_ hdr =? ColumnType.kDenseFixed).
    + destruct (writes_long (cb_data b) _ Ho1) as [Ho2 Hw2]. eexists. split; [done|]. split; [done|]. by rewrite Hw2, Hw1, <-app_assoc.
    + destruct (writes_blocks_dense (b :: bs) _ Ho1) as [Ho2 Hw2]. eexists. split; [done|]. split; [done|]. by rewrite Hw2, Hw1, <-app_assoc.
Qed.

Lemma finish_index_spec c hdr out : cipher_ok (ctx_cipher c) -> strings_ok c -> header_ok hdr -> Forall column_block_ok (blocks_ c) ->
  (type_ hdr = ColumnType.kSparse \/ type_ hdr = ColumnType.kMask \/ blocks_ c <> []) ->
  Z.of_nat (length (sw_block_index (docs_writer_ c))) < 2 ^ 32 -> out_ok out ->
  Z.of_nat (length (written out) + length (front_bytes c hdr)) < 2 ^ 64 -> exists out',
  finish_index c hdr out = Some out' /\ out_ok out' /\ written out' = written out ++ index_bytes c hdr (length (written out)).
Proof using All.
  intros Hc Hso Hh Hb Ht Hi Ho Hs. pose proof Hso as [S1 S2 _]. unfold finish_index. cbv zeta.
  assert (writes (fun s => write_string (payload_ c) (write_header hdr (write_string (compression_ c) s))) (front_bytes c hdr)) as Hfront.
  { unfold front_bytes. rewrite app_assoc. apply writes_seq; [|by apply writes_string]. apply writes_seq; [by apply writes_string|by apply writes_header]. }
  destruct (Hfront out Ho) as [Ho1 Hw1]. revert Ho1 Hw1. generalize (write_string (payload_ c) (write_header hdr (write_string (compression_ c) out))).
  intros out1 Ho1 Hw1. destruct (write_name_spec c out1 Hc Hso Ho1) as (out2 & -> & Ho2 & Hw2); [by rewrite Hw1, length_app|]. cbn [mbind option_bind].
  assert (exists out3, (if negb (docs_index hdr =? 0) then write_bitmap_index (sw_block_index (docs_writer_ c)) out2 else out2) = out3 /\ out_ok out3 /\
    written out3 = written out2 ++ docs_bytes c hdr) as (out3 & -> & Ho3 & Hw3).
  { unfold docs_bytes. destruct (docs_index hdr =? 0); cbn [negb]; [exists out2; by rewrite app_nil_r|].
    destruct (writes_bitmap_index _ Hi out2 Ho2). by eexists. }
  destruct (write_blocks_spec c hdr out3 Hb Ho3 Ht) as (out4 & -> & Ho4 & Hw4). exists out4. split; [done|]. split; [done|].
  unfold index_bytes. by rewrite Hw4, Hw3, Hw2, Hw1, length_app, <-!app_assoc.
Qed.

End index_file.
