(* ===== verification/ColumnReader.v ===== *)
(** * The column readers

    [column_base] and its kinds of columns of core/formats/columnstore2.cpp: how [reader::prepare_index] reads
    a column from the index file, and the iterators that a column makes over the data file. *)
From S2P Require Import Prelude Outcome BitUtils BytesIO Streams FileStreams StoreUtils Encryption BitPacking BlockCodec DocIterators SparseBitmap ColumnFormat ColumnIterators ColumnValues.

Module ColumnHint.
Definition kNormal : Z := 0.
Definition kConsolidation : Z := 1.
Definition kMask : Z := 2.
Definition kPrevDoc : Z := 4.
Definition has (h hint : Z) : bool := h =? Z.land h hint.
End ColumnHint.

(** The kinds of [column_base] with what they read from the index file *)
Inductive column_kind :=
  | sparse_column (blocks_ : list sparse_block)
  | mask_column
  | fixed_length_column (len_ : Z) (blocks_ : list Z)
  | dense_fixed_length_column (len_ data_ : Z).

Record column_base := mkColumnBase {
  hdr_ : column_header;
  index_ : list block;
  payload_ : list Z;
  name_ : option (list Z);
  kind_ : column_kind;
}.

(** [less] of names, of which anonymous columns are the first *)
Fixpoint bytes_less (lhs rhs : list Z) : bool :=
  match lhs, rhs with
  | _, [] => false
  | [], _ => true
  | a :: lhs, b :: rhs => if a =? b then bytes_less lhs rhs else a <? b
  end.
Definition less (lhs rhs : option (list Z)) : bool :=
  match rhs, lhs with
  | None, _ => false
  | _, None => true
  | Some rhs, Some lhs => bytes_less lhs rhs
  end.

(** ** Reading the index file *)

Section index.
Context {I C : Type} {DI : DataInput I} {II : IndexInput I} {EC : EncryptionStream C} (big : bool).
(** The registered compressions: what is not registered, and the decompressor, if there is one, with its [prepare] *)
Context (registry : list Z -> option (option (I -> option (bool * I)))) (data_cipher : option C).

Definition prepare_inflater (compression_id : list Z) (in_ : I) : option (outcome I) :=
  match registry compression_id with
  | None => throw (index_error "Failed to load compression for column")
  | Some None => done_ in_
  | Some (Some prepare) =>
      '(ok, in_) ⇐ lift (prepare in_);
      _ ⇐ throw_if (negb ok) (index_error "Failed to prepare compression for column");
      done_ in_
  end.

(** The name of the column, if it has one; the result of [decrypt] is not looked at. *)
Definition read_name (hdr : column_header) (in_ : I) : option (option (list Z) * I) :=
  if negb (ColumnProperty.has ColumnProperty.kNoName (props hdr)) then
    let offset := Z.of_nat (file_pointer in_) in
    '(name, in_) ← read_string in_;
    match is_encrypted hdr, data_cipher with
    | true, Some cipher => '(_, name) ← decrypt offset name cipher; Some (Some name, in_)
    | _, _ => Some (Some name, in_)
    end
  else Some (None, in_).

(** [kFactories[type]]: [read] of the kind of column *)
Definition read_kind (hdr : column_header) (in_ : I) : option (outcome (column_kind * I)) :=
  if type_ hdr =? ColumnType.kSparse then
    '(blocks, in_) ⇐ lift (read_blocks_sparse hdr in_); done_ (sparse_column blocks, in_)
  else if type_ hdr =? ColumnType.kMask then done_ (mask_column, in_)
  else if type_ hdr =? ColumnType.kFixed then
    '(len, in_) ⇐ lift (read_u64 in_);
    '(blocks, in_) ⇐ lift (read_blocks_dense big hdr in_); done_ (fixed_length_column len blocks, in_)
  else if type_ hdr =? ColumnType.kDenseFixed then
    '(len, in_) ⇐ lift (read_u64 in_);
    '(data, in_) ⇐ lift (read_u64 in_); done_ (dense_fixed_length_column len data, in_)
  else throw (index_error "Failed to load column, got invalid type").

(** The checks of a header in a store of [count] columns *)
Definition check_header (count : Z) (hdr : column_header) : option (outcome ()) :=
  _ ⇐ throw_if (is_encrypted hdr && match data_cipher with None => true | Some _ => false end)
        (index_error "Failed to load encrypted column without a cipher");
  _ ⇐ throw_if (negb (ColumnType.kMask =? type_ hdr) && (0 =? docs_count hdr))
        (index_error "Failed to load column, only mask column may be empty");
  throw_if ((2 ^ 32 - 1 <=? hdr_id hdr) || (count <=? hdr_id hdr))
    (index_error "Failed to load column, invalid ordinal position").

(** One round of the loop over the columns *)
Definition read_column (count : Z) (in_ : I) : option (outcome (column_base * I)) :=
  '(compression_id, in_) ⇐ lift (read_string in_);
  in_ ⇐ prepare_inflater compression_id in_;
  '(hdr, in_) ⇐ lift (read_header in_);
  _ ⇐ check_header count hdr;
  '(payload, in_) ⇐ lift (read_string in_);
  '(name, in_) ⇐ lift (read_name hdr in_);
  '(index, in_) ⇐ (if negb (docs_index hdr =? 0) then read_bitmap_index big in_ else done_ ([], in_));
  '(kind, in_) ⇐ read_kind hdr in_;
  done_ (mkColumnBase hdr index payload name kind, in_).

(** The loop: the columns in the order of the file, and by their identifiers ([None]: no such column). *)
Fixpoint read_columns (n : nat) (count : Z) (sorted_columns : list column_base) (columns : list (option column_base)) (in_ : I)
    : option (outcome (list column_base * list (option column_base) * I)) :=
  match n with
  | O => done_ (sorted_columns, columns, in_)
  | S n =>
      '(column, in_) ⇐ read_column count in_;
      _ ⇐ throw_if (match last sorted_columns with Some back => less (name_ column) (name_ back) | None => false end)
            (index_error "Invalid column order in segment");
      read_columns n count (sorted_columns ++ [column]) (<[Z.to_nat (hdr_id (hdr_ column)) := Some column]> columns) in_
  end.

(** The part of [prepare_index] between the checks of the file's header and footer *)
Definition read_index (in_ : I) : option (outcome (list column_base * list (option column_base) * I)) :=
  '(count, in_) ⇐ lift (read_vint in_);
  read_columns (Z.to_nat count) count [] (replicate (Z.to_nat count) None) in_.

End index.

(** [reader::column] and [reader::header] *)
Definition reader_column (field : Z) (columns : list (option column_base)) : option column_base :=
  if Z.of_nat (length columns) <=? field then None else mjoin (columns !! Z.to_nat field).
Definition reader_header (field : Z) (columns : list (option column_base)) : option column_header := hdr_ <$> reader_column field columns.

(** ** Iterators over columns *)

Section iterators.
Context {I C : Type} {DI : DataInput I} {II : IndexInput I} {FI : FileInput I} {EC : EncryptionStream C} (big : bool).

#[local] Instance payloads : PayloadReader (payload_reader I C) := payload_of big.

Context (ops : input_operations I) (stream_ : I) (cipher_ : option C).

Inductive column_iterator :=
  | empty_it (it : EmptyDocIterator)
  | range_it (it : range_column_iterator (payload_reader I C))
  | mask_bitmap_it (it : sparse_bitmap_iterator I)
  | bitmap_it (it : bitmap_column_iterator (payload_reader I C) I).

(** The payload of the current document, of an iterator that has one *)
Definition it_payload (it : column_iterator) : list Z :=
  match it with
  | range_it it => rg_payload it
  | bitmap_it it => bc_payload it
  | _ => []
  end.

Definition track_prev_doc (hint : Z) : bool := ColumnHint.has ColumnHint.kPrevDoc hint.

(** An iterator over the bitmap of the column *)
Definition open_bitmap (col : column_base) (hint : Z) (in_ : I) : sparse_bitmap_iterator I :=
  bitmap_make (Streams.seek (Z.to_nat (docs_index (hdr_ col))) in_) (index_ col) true (prev_doc_version (hdr_ col)) (track_prev_doc hint).

Definition open_range (col : column_base) (hint : Z) (r : payload_reader I C) : range_column_iterator (payload_reader I C) :=
  range_make (hdr_min (hdr_ col)) (docs_count (hdr_ col)) (track_prev_doc hint) r.

Definition make_mask_iterator (col : column_base) (hint : Z) : outcome column_iterator :=
  if 0 =? docs_count (hdr_ col) then Done (empty_it mkEmpty)
  else if 0 =? docs_index (hdr_ col) then Done (range_it (open_range col hint noop_value_reader))
  else
    match in_reopen ops stream_ with
    | None => Thrown (io_error "failed to reopen input")
    | Some dup => Done (mask_bitmap_it (open_bitmap col hint dup))
    end.

(** The factories of the kinds of columns: the payload reader over a value reader, whose buffer they size *)
Definition buffer_size (kind : column_kind) : Z :=
  match kind with
  | dense_fixed_length_column _ data => data
  | fixed_length_column len _ => len
  | _ => 0
  end.
Definition resizes (kind : column_kind) : bool := match kind with sparse_column _ => true | _ => false end.
Definition payload_over (kind : column_kind) (r : value_reader I C) : payload_reader I C :=
  match kind with
  | sparse_column blocks => sparse_payload_reader blocks r
  | fixed_length_column len blocks => fixed_payload_reader blocks len r
  | dense_fixed_length_column len data => dense_fixed_payload_reader data len r
  | mask_column => noop_value_reader
  end.
Definition make_value_reader (kind : column_kind) (encrypted : bool) (value_in : I) : option (value_reader I C) :=
  let buf := replicate (Z.to_nat (buffer_size kind)) 0 in
  if encrypted then
    cipher ← cipher_; Some (encrypted_value_reader (resizes kind) buf value_in cipher)
  else
    match read_persistent (in_length ops value_in) (Streams.seek 0 value_in) with
    | (Some data, _) => Some (value_direct_reader data)
    | (None, value_in) => Some (stream_value_reader (resizes kind) buf value_in)
    end.

(** [column_base::make_iterator] *)
Definition make_iterator (col : column_base) (hint : Z) : option (outcome column_iterator) :=
  match in_reopen ops stream_ with
  | None => throw (io_error "failed to reopen input")
  | Some value_in =>
      let index_in := if negb (0 =? docs_index (hdr_ col)) then in_dup ops value_in else None in
      _ ⇐ throw_if (negb (0 =? docs_index (hdr_ col)) && match index_in with None => true | Some _ => false end)
            (io_error "failed to duplicate input");
      r ⇐ lift (make_value_reader (kind_ col) (is_encrypted (hdr_ col)) value_in);
      match index_in with
      | None => done_ (range_it (open_range col hint (payload_over (kind_ col) r)))
      | Some index_in => done_ (bitmap_it (mkBitmapColumn (payload_over (kind_ col) r) (open_bitmap col hint index_in) []))
      end
  end.

(** [iterator(hint)] of the kinds of columns *)
Definition iterator (col : column_base) (hint : Z) : option (outcome column_iterator) :=
  match kind_ col with
  | mask_column => Some (make_mask_iterator col hint)
  | _ => if ColumnHint.has ColumnHint.kMask hint then Some (make_mask_iterator col hint) else make_iterator col hint
  end.

#[local] Instance column_doc_iterator : DocIterator column_iterator := {
  value it :=
    match it with
    | empty_it it => DocIterators.value it | range_it it => DocIterators.value it | mask_bitmap_it it => DocIterators.value it | bitmap_it it => DocIterators.value it
    end;
  next it :=
    match it with
    | empty_it it => '(b, it) ← next it; Some (b, empty_it it)
    | range_it it => '(b, it) ← next it; Some (b, range_it it)
    | mask_bitmap_it it => '(b, it) ← next it; Some (b, mask_bitmap_it it)
    | bitmap_it it => '(b, it) ← next it; Some (b, bitmap_it it)
    end;
  seek t it :=
    match it with
    | empty_it it => '(d, it) ← seek t it; Some (d, empty_it it)
    | range_it it => '(d, it) ← seek t it; Some (d, range_it it)
    | mask_bitmap_it it => '(d, it) ← seek t it; Some (d, mask_bitmap_it it)
    | bitmap_it it => '(d, it) ← seek t it; Some (d, bitmap_it it)
    end;
}.

End iterators.

Arguments column_iterator : clear implicits.
