(* ===== verification/ColumnStore.v ===== *)
(** * The column store

    What the reader of core/formats/columnstore2.cpp makes of the files that the writer leaves: a column is
    read back with its header, its name and its tables, and its iterators show the documents that were
    pushed, with their values. *)
From S2P Require Import Prelude Outcome BitUtils BytesIO Streams FileStreams MemoryFile StoreUtils Encryption BitPacking BlockCodec DocIterators Bitset SparseBitmap SparseBitmapWriter SparseBitmapContainers SparseBitmapIterator Coding ColumnFormat ColumnIterators ColumnValues ColumnWriter ColumnReader.

(** ** A column of the index file *)

(** [last] of the last block, and the table of blocks of a sparse column of [n] documents *)
Definition table_last (n : Z) : Z := wrap 16 (n mod kBlockSize -[64] 1).
Definition sparse_table (bs : list column_block) (n : Z) : list sparse_block :=
  match rev bs with
  | [] => []
  | b :: r => map (fun b => (b, kBlockSize - 1)) (rev r) ++ [(b, table_last n)]
  end.

(** The column that the reader makes of what the writer wrote of [c] under the header [hdr] *)
Definition kind_of {C} (c : column C) (hdr : column_header) : column_kind :=
  let front := default (mkColumnBlock 0 0 0 0 0) (head (blocks_ c)) in
  if type_ hdr =? ColumnType.kSparse then sparse_column (sparse_table (blocks_ c) (docs_count hdr))
  else if type_ hdr =? ColumnType.kMask then mask_column
  else if type_ hdr =? ColumnType.kFixed then fixed_length_column (cb_avg front) (map cb_data (blocks_ c))
  else dense_fixed_length_column (cb_avg front) (cb_data front).
Definition kept_index {C} (c : column C) (hdr : column_header) : list block :=
  let idx := sw_block_index (docs_writer_ c) in
  if negb (docs_index hdr =? 0) then (if decide (2 < length idx)%nat then idx else []) else [].
Definition column_of {C} (c : column C) (hdr : column_header) : column_base :=
  mkColumnBase hdr (kept_index c hdr) (ColumnWriter.payload_ c) (ColumnWriter.name_ c) (kind_of c hdr).

(** What the writer promises of a column that it finishes *)
Record finished {C} `{EncryptionStreamSpec C} (c : column C) (hdr : column_header) : Prop := {
  fi_strings : strings_ok c;
  fi_cipher : cipher_ok (ctx_cipher c);
  fi_header : header_ok hdr;
  fi_words : Forall column_block_ok (blocks_ c);
  fi_encrypted : is_encrypted hdr = match ctx_cipher c with Some _ => true | None => false end;
  fi_no_name : ColumnProperty.has ColumnProperty.kNoName (props hdr) = match ColumnWriter.name_ c with Some _ => false | None => true end;
  fi_count : blocks_count hdr = length (blocks_ c);
  fi_index : Z.of_nat (length (sw_block_index (docs_writer_ c))) < 2 ^ 16 /\ Forall bitmap_block_ok (sw_block_index (docs_writer_ c));
  fi_type : type_ hdr = ColumnType.kMask \/
    (type_ hdr = ColumnType.kSparse \/ type_ hdr = ColumnType.kFixed \/ type_ hdr = ColumnType.kDenseFixed) /\ docs_count hdr <> 0 /\ blocks_ c <> [];
}.

Section index_reading.
Context {I C : Type} {DI : DataInput I} {DS : DataInputSpec I} {II : IndexInput I} {IS : IndexInputSpec I} {FI : FileInput I} {FS : FileInputSpec I}
  {EC : EncryptionStream C} {ES : EncryptionStreamSpec C} (f : list Z) (big : bool).
Context (registry : list Z -> option (option (I -> option (bool * I)))) (data_cipher : option C).
Implicit Types (c : column C) (hdr : column_header).

(** The next call of a reader on the file *)
Lemma reads_step {A} (rd : I -> option (A * I)) enc v (p : nat) s r : reads_as f rd enc v -> at_ f p s -> drop p f = enc ++ r -> exists s',
  rd s = Some (v, s') /\ at_ f (p + length enc) s' /\ drop (p + length enc) f = r.
Proof using Type.
  intros Hrd Hs E. destruct (Hrd p s r Hs E) as (s' & H1 & H2). exists s'. split; [done|]. split; [done|]. by rewrite <-drop_drop, E, drop_app_length.
Qed.

Lemma read_name_spec c hdr (p : nat) s r : finished c hdr -> (forall k, ctx_cipher c = Some k -> data_cipher = Some k) -> at_ f p s ->
  Z.of_nat (length f) < 2 ^ 64 -> drop p f = name_bytes c p ++ r -> exists s',
  read_name data_cipher hdr s = Some (ColumnWriter.name_ c, s') /\ at_ f (p + length (name_bytes c p)) s'.
Proof using All.
  intros [[_ _ Hn] Hc _ _ He Hno _ _ _] Hk Hs Hf E. unfold read_name, name_bytes in *. rewrite Hno, He.
  destruct (ColumnWriter.name_ c) as [name|]; cbn [negb]; [|exists s; by rewrite Nat.add_0_r].
  destruct (Hn name eq_refl) as [Hl Hb]. pose proof Hs as (_ & _ & Hp & Hle). rewrite Hp.
  destruct (reads_string f (stored_form (ctx_cipher c) (Z.of_nat p) name) ltac:(by rewrite stored_length) p s r Hs E) as (s' & -> & Hs').
  cbn [mbind option_bind]. exists s'. split; [|done]. destruct (ctx_cipher c) as [k|] eqn:Ek; cbn [stored_form]; [|by destruct data_cipher].
  rewrite (Hk k eq_refl), decrypt_spec by (done || unfold is_word; lia). done.
Qed.

Lemma reads_kind c hdr : finished c hdr -> returns f (read_kind big hdr) (kind_bytes c hdr) (kind_of c hdr).
Proof using All.
  intros [_ _ _ Hw _ _ Hcount _ Ht]. unfold read_kind, kind_bytes, kind_of.
  destruct Ht as [->|(Ht & _ & Hne)]; [apply returns_ret|].
  assert (exists b0 bs, blocks_ c = b0 :: bs) as (b0 & bs0 & Eb) by (destruct (blocks_ c) as [|b0 bs0]; [done|by exists b0, bs0]).
  assert (column_block_ok b0) as [_ Havg Hdata _ _] by (rewrite Eb in Hw; by apply Forall_cons in Hw as [? _]).
  destruct Ht as [-> | [-> | ->] ]; cbn [Z.eqb Pos.eqb ColumnType.kSparse ColumnType.kMask ColumnType.kFixed ColumnType.kDenseFixed].
  - rewrite <-(app_nil_r (sparse_blocks_bytes _)). eapply returns_lift; [|apply returns_ret]. unfold sparse_table, table_last.
    destruct (blocks_ c) as [|b bs _] eqn:El using rev_ind; [done|]. rewrite rev_app_distr. cbn [rev app]. rewrite rev_involutive.
    by apply reads_blocks_sparse.
  - rewrite <-(app_nil_r (dense_blocks_bytes _)). rewrite Eb at 1 3. cbn [head default]. eapply returns_lift; [by apply reads_u64|]. cbv beta.
    eapply returns_lift; [by apply reads_blocks_dense|]. apply returns_ret.
  - rewrite Eb. cbn [head default]. eapply returns_lift; [by apply reads_u64|]. cbv beta. rewrite <-(app_nil_r (Fixed.write64 _)).
    eapply returns_lift; [by apply reads_u64|]. apply returns_ret.
Qed.

Lemma reads_docs c hdr : finished c hdr ->
  returns f (fun s => if negb (docs_index hdr =? 0) then read_bitmap_index big s else done_ ([], s)) (docs_bytes c hdr) (kept_index c hdr).
Proof using All.
  intros [_ _ _ _ _ _ _ [Hl Hw] _]. unfold docs_bytes, kept_index. destruct (docs_index hdr =? 0); cbn [negb]; [apply returns_ret|].
  by apply returns_bitmap_index.
Qed.

(** A column is read back. *)
Lemma read_column_spec c hdr count (p : nat) s r : finished c hdr -> registry (compression_ c) = Some None ->
  (forall k, ctx_cipher c = Some k -> data_cipher = Some k) -> hdr_id hdr < count -> at_ f p s -> Z.of_nat (length f) < 2 ^ 64 ->
  drop p f = index_bytes c hdr p ++ r -> exists s',
  read_column big registry data_cipher count s = Some (Done (column_of c hdr, s')) /\ at_ f (p + length (index_bytes c hdr p)) s'.
Proof using All.
  intros Hfi Hreg Hk Hid Hs Hf E. pose proof Hfi as [[S1 S2 _] _ Hh _ He _ _ _ Ht].
  set (q := (p + length (string_bytes (compression_ c)) + length (header_bytes hdr) + length (string_bytes (ColumnWriter.payload_ c)))%nat).
  assert (p + length (front_bytes c hdr) = q)%nat as Eq by (unfold front_bytes, q; rewrite !length_app; lia).
  unfold index_bytes in *. rewrite Eq in *. unfold front_bytes in E. rewrite <-!app_assoc in E. unfold read_column.
  destruct (reads_step _ _ _ p s _ (reads_string f _ S1) Hs E) as (s1 & -> & Hs1 & E1). rewrite bind_lift. unfold prepare_inflater. rewrite Hreg, bind_done_.
  destruct (reads_step _ _ _ _ s1 _ (reads_header f _ Hh) Hs1 E1) as (s2 & -> & Hs2 & E2). rewrite bind_lift.
  assert (check_header data_cipher count hdr = done_ ()) as ->.
  { unfold check_header. rewrite He.
    assert ((match ctx_cipher c with Some _ => true | None => false end) && match data_cipher with None => true | Some _ => false end = false) as ->.
    { destruct (ctx_cipher c) as [k|]; [by rewrite (Hk k eq_refl)|done]. }
    rewrite bind_check. assert (negb (ColumnType.kMask =? type_ hdr) && (0 =? docs_count hdr) = false) as ->.
    { destruct Ht as [->|(_ & Hn & _)]; [done|]. by rewrite (proj2 (Z.eqb_neq 0 _)), andb_false_r by done. }
    rewrite bind_check. pose proof (hdr_id_small _ Hh) as Hw. unfold is_word in Hw.
    assert ((2 ^ 32 - 1 <=? hdr_id hdr) || (count <=? hdr_id hdr) = false) as ->; [|done].
    apply orb_false_iff. split; apply Z.leb_gt; lia. }
  rewrite bind_done_. destruct (reads_step _ _ _ _ s2 _ (reads_string f _ S2) Hs2 E2) as (s3 & -> & Hs3 & E3). rewrite bind_lift. fold q in Hs3, E3.
  destruct (read_name_spec c hdr q s3 _ Hfi Hk Hs3 Hf E3) as (s4 & -> & Hs4). rewrite bind_lift.
  assert (drop (q + length (name_bytes c q)) f = docs_bytes c hdr ++ kind_bytes c hdr ++ r) as E4 by (by rewrite <-drop_drop, E3, drop_app_length).
  destruct (reads_docs c hdr Hfi _ s4 _ Hs4 E4) as (s5 & -> & Hs5). rewrite bind_done.
  assert (drop (q + length (name_bytes c q) + length (docs_bytes c hdr)) f = kind_bytes c hdr ++ r) as E5 by (by rewrite <-drop_drop, E4, drop_app_length).
  destruct (reads_kind c hdr Hfi _ s5 _ Hs5 E5) as (s6 & -> & Hs6). rewrite bind_done. exists s6. split; [done|].
  match goal with |- at_ _ ?a _ => match type of Hs6 with at_ _ ?b _ => replace a with b; [done|rewrite !length_app; lia] end end.
Qed.

End index_reading.

(** ** The writer finishes columns as the reader expects them *)

(** The entry of a block in the table: as many values as are in the block *)
Lemma sparse_table_lookup bs (vals : list (list Z)) (j : nat) b :
  Z.of_nat (length vals) <= kBlockSize * Z.of_nat (length bs) < Z.of_nat (length vals) + kBlockSize ->
  (Z.to_nat kBlockSize * j < length vals)%nat -> bs !! j = Some b ->
  sparse_table bs (Z.of_nat (length vals)) !! j = Some (b, Z.of_nat (length (block_vals j vals)) - 1).
Proof.
  intros Hn Hj Hb. pose proof (lookup_lt_Some _ _ _ Hb) as Hlt. unfold sparse_table. rewrite kBlockSize_eq in *.
  destruct bs as [|bl bs _] using rev_ind; [done|]. rewrite rev_app_distr. cbn [rev app]. rewrite rev_involutive. rewrite length_app in *. cbn [length] in *.
  assert (length (block_vals j vals) = Nat.min (Z.to_nat 65536) (length vals - Z.to_nat 65536 * j)) as ->.
  { unfold block_vals. rewrite kBlockSize_eq. by rewrite length_take, length_drop. }
  destruct (decide (j < length bs)%nat) as [Hlj|Hlj].
  - rewrite lookup_app_l in Hb by done. rewrite lookup_app_l by (by rewrite length_map). change (map ?f ?l) with (f <$> l). rewrite list_lookup_fmap, Hb. cbn.
    do 2 f_equal. rewrite Nat.min_l; lia.
  - assert (j = length bs) as -> by lia. rewrite list_lookup_middle in Hb by done. injection Hb as ->. rewrite list_lookup_middle by (by rewrite length_map).
    do 2 f_equal. unfold table_last. rewrite kBlockSize_eq. set (n := Z.of_nat (length vals)) in *. set (m := Z.of_nat (length bs)) in *.
    rewrite Nat.min_r by lia. assert (Z.of_nat (length vals - Z.to_nat 65536 * length bs) = n - 65536 * m) as -> by lia.
    destruct (Z.eq_dec (n - 65536 * m) 65536) as [E|E].
    + assert (n = (m + 1) * 65536) as -> by lia. rewrite Z.mod_mul by lia. rewrite E. done.
    + assert (n mod 65536 = n - 65536 * m) as -> by (symmetry; apply Z.mod_unique with m; lia).
      rewrite (wrap_small 64) by (unfold is_word; lia). by rewrite wrap_small by (unfold is_word; lia).
Qed.

Section finish.
Context {I C : Type} {DI : DataInput I} {DIS : DataInputSpec I} {II : IndexInput I} {IIS : IndexInputSpec I}
  {FI : FileInput I} {FS : FileInputSpec I} {EC : EncryptionStream C} {ES : EncryptionStreamSpec C} (p : platform).
Implicit Types (c : column C) (hdr : column_header).


Lemma docs_bound docs : StronglySorted Z.lt docs -> Forall (fun d => doc_limits.min <= d < doc_limits.eof) docs ->
  Forall (fun d => d < 2 ^ 32 - 2 ^ 17) docs -> Z.of_nat (length docs) < 2 ^ 32 - 2 ^ 17.
Proof using Type.
  intros Hs Hr Hd. assert (Forall (fun d => 1 <= d < 2 ^ 32 - 2 ^ 17) docs) as Hb.
  { rewrite Forall_forall in *. intros d Hin. specialize (Hr d Hin). specialize (Hd d Hin). cbn in Hr, Hd. doc_lia. }
  pose proof (sorted_length docs _ _ Hs Hb). lia.
Qed.

Lemma finished_column g docs vals junk c hdr w cks table prev pend : column_at p g docs vals [] junk c -> strings_ok c -> is_word 31 (id_ c) ->
  header_of c docs hdr -> is_word 64 (docs_index hdr) -> Forall (fun d => d < 2 ^ 32 - 2 ^ 17) docs ->
  bitmap_of (ctx_version c) docs cks (sw_block_index w) -> finished (set_docs w table prev pend c) hdr.
Proof using Type.
  intros [] [Hs1 Hs2 Hs3] Hid [] Hdi Hd []. cbn [length] in *. rewrite Nat.add_0_r in *.
  pose proof (docs_bound docs ca_sorted ca_range Hd) as Hn. rewrite ca_length in *. rewrite kBlockSize_eq in *.
  assert (blocks_ c = [] -> vals = []) as Hnil by (intros E; rewrite E in ca_blocks; cbn in ca_blocks; apply length_zero_iff_nil; lia).
  split; cbn [set_docs ctx_cipher blocks_ docs_writer_ ColumnWriter.name_ ColumnWriter.payload_]; try done.
  - split; try done. 1: by rewrite ho_id. 1: unfold is_word; lia. rewrite ho_type. by destruct (fixed_length_ c), (prev_avg_ c =? 0), (ctx_consolidation c).
  - unfold blocks_count. rewrite ho_count, kBlockSize_eq. pose proof (Math.div_ceil_spec 32 (Z.of_nat (length vals)) 65536 ltac:(lia) ltac:(lia) ltac:(lia)) as Hq.
    cbv zeta in Hq. unfold Math.div_ceil32. nia.
  - rewrite ho_type, ho_count. destruct (fixed_length_ c) eqn:Ef.
    + destruct (Z.eqb_spec (prev_avg_ c) 0) as [E|E]; [by left|right]. destruct (ca_fixed eq_refl) as (_ & _ & Hb).
      assert (blocks_ c <> []) as Hbn by (intros Eb; by apply E, Hb). split; [destruct (ctx_consolidation c); auto|]. split; [|done].
      intros E0. apply Hbn. destruct (blocks_ c); [done|]. cbn [length] in ca_blocks. lia.
    + right. split; [by left|]. assert (blocks_ c <> []) as Hbn by (intros Eb; apply ca_fresh in Eb; congruence). split; [|done].
      intros E0. apply Hbn. destruct (blocks_ c); [done|]. cbn [length] in ca_blocks. lia.
Qed.

(** The buffer of a value reader is large enough for the values of a column. *)
Definition room (kind : column_kind) (r : value_reader I C) : Prop :=
  match kind with
  | sparse_column _ => forall n, fits n r
  | fixed_length_column len _ | dense_fixed_length_column len _ => fits (Z.to_nat len) r
  | mask_column => True
  end.

Lemma mask_values g docs vals junk c hdr : column_at p g docs vals [] junk c -> header_of c docs hdr -> type_ hdr = ColumnType.kMask -> equal_length 0 vals.
Proof using Type.
  intros [] [] Ht. rewrite ho_type in Ht. destruct (fixed_length_ c); [|done]. destruct (Z.eqb_spec (prev_avg_ c) 0) as [E|E].
  - rewrite <-E. by apply ca_fixed.
  - by destruct (ctx_consolidation c).
Qed.

(** The payload reader of the column that is read has the blocks of the column that was written. *)
Lemma values_stored g docs vals junk c hdr r : column_at p g docs vals [] junk c -> header_of c docs hdr -> room (kind_of c hdr) r ->
  reader_stored g (blocks_ c) (payload_over (kind_of c hdr) r) vals.
Proof using All.
  intros Hc Hh Hr. pose proof (mask_values g docs vals junk c hdr Hc Hh) as Hmask. revert Hr Hmask. destruct Hc, Hh. unfold kind_of.
  rewrite ho_type, ho_count, ca_length, Nat.add_0_r. cbn [length] in *. destruct (fixed_length_ c) eqn:Ef.
  - destruct (ca_fixed eq_refl) as (Hv & Ha & Hb). destruct (Z.eqb_spec (prev_avg_ c) 0) as [E|E]; [intros _ Hm; by apply Hm|].
    destruct (blocks_ c) as [|b0 bs] eqn:Eb; [by destruct E; apply Hb|]. apply Forall_cons in Ha as [Ha0 Ha].
    destruct (ctx_consolidation c) eqn:Ec; cbn [Z.eqb Pos.eqb ColumnType.kSparse ColumnType.kMask ColumnType.kFixed ColumnType.kDenseFixed
      payload_over reader_stored room head default]; unfold id; rewrite Ha0; intros Hr _.
    + split; [done|]. split; [done|]. intros j b _ Hj. destruct (ca_dense eq_refl eq_refl b0 eq_refl) as (_ & _ & Hd). by apply Hd.
    + by split.
  - intros Hr _. cbn [Z.eqb ColumnType.kSparse payload_over reader_stored room] in *. split; [done|]. intros j b Hj Hb. by apply sparse_table_lookup.
Qed.

End finish.

(** ** Iterators *)

(** Runs of an iterator in another one that forwards its calls *)
Lemma run_map {S T} {DS : DocIterator S} {DT : DocIterator T} (K : S -> T) : (forall s, DocIterators.value (K s) = DocIterators.value s) ->
  (forall s, next (K s) = '(b, s) ← next s; Some (b, K s)) -> (forall t s, DocIterators.seek t (K s) = '(d, s) ← DocIterators.seek t s; Some (d, K s)) ->
  forall cs s vs s', run cs s = Some (vs, s') -> run cs (K s) = Some (vs, K s').
Proof.
  intros Hv Hn Hk. induction cs as [|[|t] cs IH]; intros s vs s' E; cbn [run] in *; [by injection E as <- <-|rewrite Hn|rewrite Hk].
  - destruct (next s) as [[b s1]|]; [|done]. cbn [mbind option_bind] in *. rewrite Hv. destruct (Bool.eqb _ _); [done|].
    destruct (run cs s1) as [[vs1 s2]|] eqn:Er; [|done]. cbn [mbind option_bind] in E. injection E as <- <-. by rewrite (IH _ _ _ Er).
  - destruct (DocIterators.seek t s) as [[d s1]|]; [|done]. cbn [mbind option_bind] in *. rewrite Hv. destruct (negb _); [done|].
    destruct (run cs s1) as [[vs1 s2]|] eqn:Er; [|done]. cbn [mbind option_bind] in E. injection E as <- <-. by rewrite (IH _ _ _ Er).
Qed.

(** The values of a trace *)
Lemma trace_values P v0 calls vs v : cursor_trace P v0 calls vs -> last vs = Some v -> v = doc_limits.eof \/ P v = true.
Proof.
  intros Ht Hl. assert (v ∈ vs) as Hin by (by apply last_Some_elem_of). clear Hl. induction Ht as [|v0 c v' cs vs Hc _ IH]; [by apply elem_of_nil in Hin|].
  apply elem_of_cons in Hin as [->|Hin]; [|by apply IH]. inversion Hc as [? ? HF|? t ? H1 H2 HF]; subst; destruct HF as [[->|[_ ?]] _]; auto.
Qed.

Lemma no_values_shown docs v : shows docs (replicate (length docs) []) v [].
Proof. split; [done|]. intros i Hi. apply lookup_replicate_2. by eapply lookup_lt_Some. Qed.

Lemma no_values vals : equal_length 0 vals -> vals = replicate (length vals) [].
Proof. induction 1 as [|v vals Hv _ IH]; [done|]. cbn [length replicate]. f_equal; [by destruct v|exact IH]. Qed.

Section iterate.
Context {I C : Type} {DI : DataInput I} {DIS : DataInputSpec I} {II : IndexInput I} {IIS : IndexInputSpec I}
  {FI : FileInput I} {FS : FileInputSpec I} {EC : EncryptionStream C} {ES : EncryptionStreamSpec C} (big : bool).
#[local] Instance payloads : PayloadReader (payload_reader I C) := payload_of big.
#[local] Instance payloads_spec : PayloadReaderSpec (payload_reader I C) := payload_spec_of big.
#[local] Instance columns : DocIterator (column_iterator I C) := column_doc_iterator big.
Implicit Types (it : column_iterator I C) (docs : list Z) (vals : list (list Z)).

(** The iterator shows the documents [docs] with the values [vals], from its first call on, which may not be a
    [seek] behind the documents. *)
Definition iterates docs vals it : Prop := forall calls vs, cursor_trace (is_doc docs) doc_limits.invalid calls vs ->
  (forall t d r, calls = Seek t :: r -> last docs = Some d -> t <= d) ->
  exists it', run calls it = Some (vs, it') /\ forall v, last vs = Some v -> shows docs vals v (it_payload it').

Lemma empty_iterates : iterates [] [] (empty_it mkEmpty).
Proof using Type.
  intros calls vs Ht _. exists (empty_it mkEmpty). split; [|intros v _; apply (no_values_shown [])].
  assert (forall v0, cursor_trace (is_doc []) v0 calls vs -> run calls (empty_it mkEmpty : column_iterator I C) = Some (vs, empty_it mkEmpty)) as H; [|by eapply H].
  clear Ht. intros v0 Ht. induction Ht as [|v0 c v' cs vs Hc _ IH]; [done|].
  assert (v' = doc_limits.eof) as -> by (inversion Hc as [? ? HF|? t ? H1 H2 HF]; subst; destruct HF as [[->|[_ HF]] _]; done).
  destruct c; cbn; by rewrite IH.
Qed.

Lemma range_iterates docs vals r (min : Z) T : docs = seqZ min (Z.of_nat (length vals)) -> docs <> [] ->
  Forall (fun d => doc_limits.min <= d < doc_limits.eof) docs -> column_serves big r vals ->
  iterates docs vals (range_it (range_make min (Z.of_nat (length vals)) T r)).
Proof using All.
  intros -> Hne Hd Hr calls vs Ht Hfirst. assert (vals <> []) as Hv by (by destruct vals).
  assert (0 < length vals)%nat as Hpos by (destruct vals; [done|cbn; lia]).
  assert (forall d, min <= d < min + Z.of_nat (length vals) -> doc_limits.min <= d < doc_limits.eof) as Hin.
  { intros d Hr'. rewrite Forall_forall in Hd. apply Hd, elem_of_seqZ. lia. }
  destruct (range_run vals min T ltac:(apply (Hin min); lia) Hv ltac:(specialize (Hin (min + Z.of_nat (length vals) - 1) ltac:(lia)); lia) calls vs r Hr Ht)
    as (it & E & Hl).
  { intros t rs Ec. specialize (Hfirst t (min + Z.of_nat (length vals) - 1) rs Ec). rewrite last_lookup, length_seqZ, lookup_seqZ_lt in Hfirst by lia.
    ospecialize (Hfirst _); [f_equal; lia|]. lia. }
  exists (range_it it). split; [by apply (run_map range_it)|]. intros v Hv'. destruct (Hl v Hv') as [<- (_ & Hs & _)]. exact Hs.
Qed.

Lemma mask_iterates docs T bitmap : bitmap_state docs T bitmap -> si_doc bitmap = doc_limits.invalid ->
  iterates docs (replicate (length docs) []) (mask_bitmap_it bitmap).
Proof using Type.
  intros Hb H0 calls vs Ht _. destruct (bitmap_state_spec _ _ _ Hb) as (L & _ & HM). rewrite <-H0 in Ht.
  destruct (run_refines (is_doc docs) calls bitmap vs (HM _ (fun _ => eq_refl)) Ht) as (it & E & _).
  exists (mask_bitmap_it it). split; [by apply (run_map mask_bitmap_it)|]. intros v _. apply no_values_shown.
Qed.

Lemma bitmap_iterates docs vals T bitmap r : length vals = length docs -> bitmap_state docs T bitmap -> si_doc bitmap = doc_limits.invalid ->
  column_serves big r vals -> iterates docs vals (bitmap_it (mkBitmapColumn r bitmap [])).
Proof using All.
  intros Hl Hb H0 Hr calls vs Ht _. assert (bitmap_column_at docs vals T (mkBitmapColumn r bitmap [])) as Hat by (split; [done|]; by split).
  destruct (run_shows (is_doc docs) (bitmap_column_at docs vals T) (bitmap_column_next_spec docs vals Hl T) (bitmap_column_seek_spec docs vals Hl T) calls
    (mkBitmapColumn r bitmap []) vs Hat) as (it & E & (_ & _ & Hs) & Hv); [by cbn; rewrite H0|].
  exists (bitmap_it it). split; [by apply (run_map bitmap_it)|]. intros v Hlast. specialize (Hv v Hlast). cbn in Hv. subst v. apply Hs.
  intros Ev. destruct (bitmap_docs docs vals Hl T bitmap Hb) as [_ Hd]. rewrite Ev in Hlast. apply (trace_values _ _ _ _ _ Ht) in Hlast as [?|Hlast]; [done|].
  apply bool_decide_eq_true in Hlast. rewrite Forall_forall in Hd. apply Hd in Hlast. cbn in Hlast. doc_lia.
Qed.

End iterate.

(** ** Opening a column *)

Section open.
Context {I C : Type} {DI : DataInput I} {DIS : DataInputSpec I} {II : IndexInput I} {IIS : IndexInputSpec I}
  {FI : FileInput I} {FS : FileInputSpec I} {EC : EncryptionStream C} {ES : EncryptionStreamSpec C} (p : platform).
Abbreviation big := (big_endian p).

(** The buffer of a dense column is as large as the position of its values is high: it is used unless the file
    is read without one. *)
Definition buffer_fits (f : list Z) (kind : column_kind) (encrypted : bool) : Prop :=
  match kind with
  | dense_fixed_length_column len data => len <= data \/ encrypted = false /\ forall s : I, at_ f 0 s -> is_Some (read_persistent (length f) s).1
  | _ => True
  end.

(** Where the documents of a column are: they are all those of a range, or in a bitmap in the data file *)
Definition docs_stored (f : list Z) docs (hdr : column_header) (track : bool) (cks : list chunk) : Prop :=
  docs_index hdr = 0 /\ (docs = [] \/ docs = seqZ (hdr_min hdr) (docs_count hdr)) \/
  docs_index hdr <> 0 /\ docs <> [] /\ exists q r, docs_index hdr = Z.of_nat q /\ (q < length f)%nat /\
    drop q f = layout track 0 (cks ++ [sentinel]) ++ r.

(** A stream that cannot be read through a buffer needs offsets below 2^15. *)
Definition docs_readable (f : list Z) (docs : list Z) : Prop :=
  Forall (fun d => d mod kBlockSize < 2 ^ 15) docs \/
  forall n q (s : I), at_ f q s -> (q + n <= length f)%nat -> is_Some (read_buffer n s).1.

Context (g rest : list Z) (Hrest : rest <> []) (Hsize : Z.of_nat (length (g ++ rest)) < 2 ^ 64).
Context (ops : input_operations I) (Hops : input_laws (g ++ rest) ops) (cipher_ : option C).

Definition reads_cipher (c : option C) : Prop := forall k, c = Some k -> cipher_ = Some k.

Lemma make_value_reader_spec (c : option C) kind (q : nat) s : cipher_ok c -> reads_cipher c -> at_ (g ++ rest) q s ->
  buffer_fits (g ++ rest) kind (match c with Some _ => true | None => false end) -> exists r,
  make_value_reader ops cipher_ kind (match c with Some _ => true | None => false end) s = Some r /\ on_file g rest r c /\ room kind r.
Proof using All.
  intros Hc Hk Hs Hb. unfold make_value_reader. set (buf := replicate (Z.to_nat (buffer_size kind)) 0).
  assert (forall R : value_reader I C, (forall n, (resizes kind = true \/ (n <= length buf)%nat) -> fits n R) ->
    (forall len data, kind = dense_fixed_length_column len data -> len <= data) -> room kind R) as Hroom.
  { intros R Hf Hd. unfold buf in Hf. rewrite length_replicate in Hf.
    destruct kind as [blocks| |len blocks|len data]; cbn [room buffer_size resizes] in *; [intros n|exact Logic.I| |]; apply Hf; [by left|right; lia|right].
    specialize (Hd len data eq_refl). lia. }
  destruct c as [k|].
  - rewrite (Hk k eq_refl). cbn [mbind option_bind]. eexists. split; [reflexivity|]. split; [split; [by eexists|by split]|].
    apply Hroom; [done|]. intros len data ->. by destruct Hb as [?|[? _]].
  - rewrite (length_law _ _ Hops s q Hs). assert (0 < length (g ++ rest))%nat as Hpos by (rewrite length_app; destruct rest; [done|cbn; lia]).
    pose proof (seek_at _ _ 0 _ Hs Hpos) as Hs0. pose proof (read_persistent_at _ 0 (length (g ++ rest)) _ Hs0 ltac:(lia)) as Hr.
    destruct (read_persistent (length (g ++ rest)) (Streams.seek 0 s)) as [[b|] s'] eqn:Er.
    + destruct Hr as [-> _]. rewrite drop_0, firstn_all. eexists. split; [reflexivity|]. split; [done|]. destruct kind; done.
    + subst s'. eexists. split; [reflexivity|]. split; [split; [by eexists|done]|]. apply Hroom; [done|].
      intros len data ->. destruct Hb as [?|[_ Hb]]; [done|]. specialize (Hb _ Hs0). rewrite Er in Hb. by destruct Hb.
Qed.

Section column.
Context docs vals junk (c : column C) hdr (w : sparse_bitmap_writer memory_index_output) cks (Hc : column_at p g docs vals [] junk c) (Hh : header_of c docs hdr)
  (Hbm : bitmap_of (ctx_version c) docs cks (sw_block_index w)) (Hdocs : docs_stored (g ++ rest) docs hdr (ctx_version c) cks) (Hacc : docs_readable (g ++ rest) docs)
  (stream_ : I) (Hs : exists q, at_ (g ++ rest) q stream_) (Hk : reads_cipher (ctx_cipher c)).
Abbreviation col := (column_of (set_docs w (addr_table_ c) (prev_ c) (pend_ c) c) hdr).

Lemma open_bitmap_spec hint (q : nat) s : docs_index hdr <> 0 -> at_ (g ++ rest) q s ->
  exists T, bitmap_state docs T (open_bitmap col hint s) /\ si_doc (open_bitmap col hint s) = doc_limits.invalid.
Proof using All.
  intros Hn Hq. destruct Hdocs as [[? _]|(_ & Hne & q' & r & E & Hlt & Hd)]; [done|]. exists (ctx_version c && track_prev_doc hint). split; [|done].
  unfold open_bitmap. cbn [column_of hdr_ index_]. rewrite (ho_prev _ _ _ Hh), E, Nat2Z.id.
  destruct Hc, Hbm. eapply bitmap_make_state; [split|by eapply docs_access|by eapply seek_at]; try done; [by eexists|].
  unfold kept_index. cbn [docs_writer_ set_docs]. rewrite (proj2 (Z.eqb_neq _ _) Hn). cbn [negb]. case_decide; [right; by apply bo_index|by left].
Qed.

Lemma stored_range : docs_index hdr = 0 -> docs_count hdr <> 0 -> docs = seqZ (hdr_min hdr) (Z.of_nat (length docs)) /\ docs <> [].
Proof using All.
  intros H0 Hn. rewrite (ho_count _ _ _ Hh) in Hn. destruct Hdocs as [[_ [->|E]]|(? & _)]; [done| |done].
  rewrite (ho_count _ _ _ Hh) in E. split; [done|]. by intros ->.
Qed.

Lemma make_mask_spec hint : exists it, make_mask_iterator ops stream_ col hint = Done it /\ iterates big docs (replicate (length docs) []) it.
Proof using All.
  unfold make_mask_iterator. cbn [column_of hdr_]. destruct (Z.eqb_spec 0 (docs_count hdr)) as [E|E].
  - eexists. split; [reflexivity|]. rewrite (ho_count _ _ _ Hh) in E. destruct docs; [|done]. apply empty_iterates.
  - destruct (Z.eqb_spec 0 (docs_index hdr)) as [E0|E0].
    + destruct (stored_range ltac:(done) ltac:(done)) as [Ed Hne]. eexists. split; [reflexivity|]. unfold open_range. cbn [column_of hdr_].
      rewrite (ho_count _ _ _ Hh). pose proof (length_replicate (length docs) ([] : list Z)) as El. rewrite <-El at 2.
      apply range_iterates; [by rewrite El|done|by destruct Hc|]. left. split; [done|]. by apply Forall_replicate.
    + destruct Hs as [q Hq]. destruct (reopen_law _ _ Hops _ _ Hq) as (s' & -> & Hq'). eexists. split; [reflexivity|].
      destruct (open_bitmap_spec hint q s' ltac:(done) Hq') as (T & H1 & H2). by eapply mask_iterates.
Qed.

Lemma make_iterator_spec hint : docs_count hdr <> 0 -> buffer_fits (g ++ rest) (kind_of c hdr) (is_encrypted hdr) -> exists it,
  make_iterator ops stream_ cipher_ col hint = Some (Done it) /\ iterates big docs vals it.
Proof using All.
  intros Hn Hb. unfold make_iterator. cbn [column_of hdr_ kind_]. change (kind_of (set_docs w _ _ _ c) hdr) with (kind_of c hdr).
  destruct Hs as [q Hq]. destruct (reopen_law _ _ Hops _ _ Hq) as (s' & -> & Hq'). cbv zeta.
  rewrite (ho_encrypted _ _ _ Hh) in *.
  destruct (make_value_reader_spec (ctx_cipher c) (kind_of c hdr) q s' (ca_cipher _ _ _ _ _ _ _ Hc) Hk Hq' Hb) as (r & -> & Hr & Hroom).
  pose proof (values_stored p g docs vals junk c hdr r Hc Hh Hroom) as Hst.
  assert (column_serves big (payload_over (kind_of c hdr) r) vals) as Hserves.
  { destruct Hc. right. exists g, rest, (ctx_cipher c), (blocks_ c). split_and!; try done. by destruct (kind_of c hdr). }
  assert (length vals = length docs) as Hl by (rewrite (ca_length _ _ _ _ _ _ _ Hc); cbn; lia).
  destruct (Z.eqb_spec 0 (docs_index hdr)) as [E0|E0]; cbn [negb andb].
  - rewrite bind_check, bind_lift. destruct (stored_range ltac:(done) ltac:(done)) as [Ed Hne]. eexists. split; [reflexivity|].
    unfold open_range. cbn [column_of hdr_]. rewrite (ho_count _ _ _ Hh), <-Hl. apply range_iterates; [by rewrite Hl|done|by destruct Hc|done].
  - destruct (dup_law _ _ Hops _ _ Hq') as (s2 & -> & Hq2). rewrite bind_check, bind_lift. eexists. split; [reflexivity|].
    destruct (open_bitmap_spec hint q s2 ltac:(done) Hq2) as (T & H1 & H2). by eapply bitmap_iterates.
Qed.

(** An iterator over the column: the documents with their values, or only the documents *)
Lemma iterator_spec hint : finished (set_docs w (addr_table_ c) (prev_ c) (pend_ c) c) hdr -> buffer_fits (g ++ rest) (kind_of c hdr) (is_encrypted hdr) -> exists it,
  iterator ops stream_ cipher_ col hint = Some (Done it) /\
  iterates big docs (if ColumnHint.has ColumnHint.kMask hint then replicate (length docs) [] else vals) it.
Proof using All.
  intros Hfi Hb. destruct (make_mask_spec hint) as (mit & Em & Hm). unfold iterator.
  destruct (decide (type_ hdr = ColumnType.kMask)) as [Et|Et].
  - pose proof (mask_values p g docs vals junk c hdr Hc Hh Et) as Hv%no_values.
    assert (length docs = length vals) as El by (rewrite (ca_length _ _ _ _ _ _ _ Hc); cbn; lia).
    rewrite El, <-Hv in Hm. exists mit. split; [|rewrite El, <-Hv; by destruct (ColumnHint.has _ _)].
    cbn [column_of kind_]. unfold kind_of. rewrite Et. cbn [Z.eqb Pos.eqb ColumnType.kSparse ColumnType.kMask]. by rewrite Em.
  - destruct (fi_type _ _ Hfi) as [?|(_ & Hn & _)]; [done|]. destruct (make_iterator_spec hint Hn Hb) as (it & E & Hit).
    assert (kind_ col <> mask_column) as Hkind.
    { cbn [column_of kind_]. unfold kind_of. rewrite (proj2 (Z.eqb_neq _ _) Et). by repeat case_match. }
    destruct (ColumnHint.has ColumnHint.kMask hint); [exists mit|exists it]; (split; [|done]); destruct (kind_ col); try done; by rewrite Em.
Qed.

End column.

End open.

(** ** From the calls on a column to its iterators *)

(** The documents and the values that the calls on a column say *)
Definition told (ops : list column_op) : list Z * list (list Z) := spec_ops ops ([], []).
(** The name and the payload that the finalizer gives *)
Definition named (finalizer : option (list Z -> option (list Z) * list Z)) : option (list Z) * list Z :=
  match finalizer with Some f => f [] | None => (None, []) end.

Record column_fits (consolidation : bool) (id : Z) (compression : list Z) finalizer (ops : list column_op) (n : nat) : Prop := {
  cf_id : is_word 31 id;
  cf_compression : Z.of_nat (length compression) < 2 ^ 32;
  cf_payload : Z.of_nat (length (named finalizer).2) < 2 ^ 32;
  cf_name : forall name, (named finalizer).1 = Some name -> Z.of_nat (length name) < 2 ^ 32 /\ Forall is_byte name;
  cf_ops : Forall (op_ok consolidation) ops;
  cf_size : Z.of_nat n + ops_size ops + 2 ^ 19 < 2 ^ 64;
  cf_docs : Forall (fun d => d < 2 ^ 32 - 2 ^ 17) (told ops).1;
  cf_first : first_block_safe (told ops).1;
}.

Lemma string_bytes_length s : Z.of_nat (length s) < 2 ^ 32 -> Z.of_nat (length (string_bytes s)) <= 5 + Z.of_nat (length s).
Proof.
  intros Hs. unfold string_bytes. rewrite length_app, Nat2Z.inj_add, VInt.vsize32_length by (unfold is_word; lia).
  destruct (VInt.vsize_bound (Z.of_nat (length s))) as [Hb _]. specialize (Hb ltac:(unfold is_word; lia)). lia.
Qed.

Section calls.
Context {W C : Type} {DO : DataOutput W} {DS : DataOutputSpec W} {IO : IndexOutput W} {IS : IndexOutputSpec W}
  {EC : EncryptionStream C} {ES : EncryptionStreamSpec C} (p : platform).

(** [run_ops] and [finalize] of a fresh column *)
Lemma column_finished cipher consolidation version id compression finalizer alloc ops (out : W) : cipher_ok cipher ->
  column_fits consolidation id compression finalizer ops (length (written out)) -> out_ok out -> written out <> [] -> exists c1 out1 c2 out2 junk,
  run_ops p ops (column_make cipher consolidation version id compression finalizer alloc) out = Some (Done (c1, out1)) /\
  column_finalize p c1 out1 = Some (Done (c2, out2)) /\ out_ok out2 /\ written out2 <> [] /\
  column_at p (written out2) (told ops).1 (told ops).2 [] junk c2 /\ strings_ok c2 /\ id_ c2 = id /\ ctx_cipher c2 = cipher /\
  compression_ c2 = compression /\ (ColumnWriter.name_ c2, ColumnWriter.payload_ c2) = named finalizer.
Proof using All.
  intros Hcipher [] Ho Hne. set (c0 := column_make cipher consolidation version id compression finalizer alloc).
  pose proof (column_make_inv p (written out) cipher consolidation version id compression finalizer alloc Hcipher) as Hinv. fold c0 in Hinv.
  assert (mo_written (data_ c0) = []) as Hd0 by (by destruct (out_make_ok (mkFile alloc [] 0)) as [_ ?]; [intros i b Hb|]).
  destruct (run_ops_spec p ops [] [] c0 out Hinv Ho cf_ops0) as (c1 & out1 & E1 & Ho1 & Hinv1 & Hcfg & Hsz1 & x1 & Hx1); [rewrite Hd0; cbn; lia|].
  rewrite Hd0, Nat.add_0_r in Hsz1. fold (told ops) in Hinv1.
  destruct (column_finalize_spec p _ _ c1 out1 Hinv1 Ho1 ltac:(lia)) as (c2 & out2 & x & junk & E2 & Ho2 & Hw2 & _ & Hc2 & Hcfg2 & Hname).
  unfold config in Hcfg. cbn [c0 column_make ctx_cipher ctx_consolidation ctx_version compression_ finalizer_ ColumnWriter.payload_ ColumnWriter.name_ id_] in Hcfg.
  assert ((ColumnWriter.name_ c2, ColumnWriter.payload_ c2) = named finalizer) as Hn.
  { rewrite Hname. unfold named. simplify_eq. destruct (finalizer_ c1); congruence. }
  exists c1, out1, c2, out2, junk. split; [done|]. split; [done|]. split; [done|]. simplify_eq. split_and!; try congruence.
  - rewrite Hw2, Hx1. by destruct (written out).
  - split; [congruence|by rewrite <-Hn in cf_payload0|]. intros name En. apply cf_name0. by rewrite <-Hn.
Qed.

End calls.

Section roundtrip.
Context {W V C : Type} {DO : DataOutput W} {DS : DataOutputSpec W} {IO : IndexOutput W} {IS : IndexOutputSpec W}
  {DOV : DataOutput V} {DSV : DataOutputSpec V} {IOV : IndexOutput V} {ISV : IndexOutputSpec V}
  {EC : EncryptionStream C} {ES : EncryptionStreamSpec C} (p : platform).
Abbreviation big := (big_endian p).
Implicit Types (out : W) (iout : V).

(** The column that is finished, and where its parts are in the data file [d] and the index file *)
Record column_written (docs : list Z) (vals : list (list Z)) (g x : list Z) (c : column C) (hdr : column_header) (w : sparse_bitmap_writer memory_index_output)
    (cks : list chunk) (d : list Z) : Prop := {
  cw_column : exists junk, column_at p g docs vals [] junk c;
  cw_header : header_of c docs hdr;
  cw_bitmap : bitmap_of (ctx_version c) docs cks (sw_block_index w);
  cw_finished : finished (set_docs w (addr_table_ c) (prev_ c) (pend_ c) c) hdr;
  cw_file : exists y, d = g ++ x ++ y;
  cw_docs : docs_index hdr = 0 /\ (docs = [] \/ docs = seqZ (hdr_min hdr) (docs_count hdr)) \/
    docs_index hdr <> 0 /\ docs <> [] /\ exists q l, docs_index hdr = Z.of_nat q /\ d = l ++ layout (ctx_version c) 0 (cks ++ [sentinel]) /\ length l = q;
}.

Lemma front_bound (c : column C) hdr : strings_ok c -> Z.of_nat (length (front_bytes c hdr)) < 2 ^ 34.
Proof using Type.
  intros [S1 S2 _]. unfold front_bytes. rewrite !length_app. pose proof (string_bytes_length _ S1). pose proof (string_bytes_length _ S2).
  assert (length (header_bytes hdr) = 24%nat) by done. lia.
Qed.

Lemma column_finish_spec g docs vals junk (c : column C) out iout x : column_at p g docs vals [] junk c -> strings_ok c -> is_word 31 (id_ c) ->
  Forall (fun d => d < 2 ^ 32 - 2 ^ 17) docs -> first_block_safe docs -> g <> [] -> out_ok out -> written out = g ++ x ->
  Z.of_nat (length (written out)) < 2 ^ 64 -> out_ok iout -> Z.of_nat (length (written iout)) < 2 ^ 63 -> exists hdr w cks out' iout',
  column_finish p c out iout = Some (set_docs w (addr_table_ c) (prev_ c) (pend_ c) c, out', iout') /\ out_ok out' /\ out_ok iout' /\
  written iout' = written iout ++ index_bytes (set_docs w (addr_table_ c) (prev_ c) (pend_ c) c) hdr (length (written iout)) /\
  column_written docs vals g x c hdr w cks (written out').
Proof using All.
  intros Hc Hs Hid Hd Hfirst Hg Ho Hw Hsz Hio Hisz. assert (written out <> []) as Hne by (rewrite Hw; by destruct g).
  destruct (finish_docs_spec p g docs vals junk c out Hc Ho Hne Hfirst Hd) as (w & cks & hdr & out' & E & Ho' & Hbm & Hh & Hdocs).
  assert (is_word 64 (docs_index hdr)) as Hdi by (destruct Hdocs as [[-> _]|[-> _]]; [done|unfold is_word; lia]).
  pose proof (finished_column p g docs vals junk c hdr w cks (addr_table_ c) (prev_ c) (pend_ c) Hc Hs Hid Hh Hdi Hd Hbm) as Hfi.
  pose proof Hfi as [F1 F2 F3 F4 _ _ _ F5 F6]. pose proof (front_bound _ hdr F1) as Hfb.
  destruct (finish_index_spec (set_docs w (addr_table_ c) (prev_ c) (pend_ c) c) hdr iout F2 F1 F3 F4) as (iout' & Ei & Hio' & Hiw);
    [destruct F6 as [?|(_ & _ & ?)]; auto|cbn [docs_writer_ set_docs] in *; lia|done|lia|].
  exists hdr, w, cks, out', iout'. unfold column_finish. rewrite E. cbn [mbind option_bind]. rewrite Ei. split; [done|]. split; [done|]. split; [done|]. split; [done|].
  split; [by exists junk|done|done|done| |].
  - destruct Hdocs as [(_ & -> & _)|(_ & -> & _)]; rewrite Hw; [exists []; by rewrite app_nil_r|eexists; by rewrite <-app_assoc].
  - destruct Hdocs as [(E0 & _ & ?)|(E0 & Ew & Hn)]; [by left|right]. split; [|split; [done|by eexists _, _]].
    rewrite E0. destruct (written out); [done|]. cbn [length]. lia.
Qed.


Context {I : Type} {DI : DataInput I} {DIS : DataInputSpec I} {II : IndexInput I} {IIS : IndexInputSpec I} {FI : FileInput I} {FS : FileInputSpec I}.

(** Iterators over a column that is read, on any input that holds the data file [d] with more behind it *)
Lemma column_iterates docs vals g x (c : column C) hdr w cks d rest (ops : input_operations I) stream_ cipher_ hint :
  column_written docs vals g x c hdr w cks d -> rest <> [] -> Z.of_nat (length (d ++ rest)) < 2 ^ 64 -> input_laws (d ++ rest) ops ->
  (exists q, at_ (d ++ rest) q stream_) -> (forall k, ctx_cipher c = Some k -> cipher_ = Some k) -> docs_readable (I := I) (d ++ rest) docs ->
  buffer_fits (I := I) (d ++ rest) (kind_of c hdr) (is_encrypted hdr) -> exists it,
  iterator ops stream_ cipher_ (column_of (set_docs w (addr_table_ c) (prev_ c) (pend_ c) c) hdr) hint = Some (Done it) /\
  iterates big docs (if ColumnHint.has ColumnHint.kMask hint then replicate (length docs) [] else vals) it.
Proof using All.
  intros [[junk Hc] Hh Hbm Hfi [y Ed] Hdocs] Hrest Hsize Hops Hs Hk Hacc Hbuf.
  assert (d ++ rest = g ++ (x ++ y ++ rest)) as E by (by rewrite Ed, <-!app_assoc).
  assert (docs_stored (d ++ rest) docs hdr (ctx_version c) cks) as Hst.
  { destruct Hdocs as [?|(H0 & Hne & q & l & Hq & El & Hl)]; [by left|right]. split; [done|]. split; [done|]. exists q, rest. split; [done|].
    rewrite El, <-!app_assoc. split; [rewrite !length_app; destruct rest; [done|cbn; lia]|]. by rewrite <-Hl, drop_app_length. }
  rewrite E in *. by apply (iterator_spec p g (x ++ y ++ rest) ltac:(by destruct x, y, rest) Hsize ops Hops cipher_ docs vals junk c hdr w cks).
Qed.

(** C7: a column is read back as it was told: whatever documents and bytes are pushed, while other columns write
    to the same data file before, between and after, with or without encryption, [finalize] and [finish]
    return, the reader takes exactly the column's part of the index file, gets its name, its payload, its
    identifier and the number of its documents, and opens iterators that show exactly the documents that were
    pushed, each with the bytes that were written for it (with the hint [kMask], without them), for every
    sequence of calls that does not begin with a [seek] behind the last document. What is pushed is limited where the code fails
    ([column_fits]): identifiers below 2^31, documents below 2^32 - 2^17, strings and files whose lengths fit their fields, and a first block of documents that is
    dense or has offsets below 2^15 ([first_block_safe]). The input that is iterated over gives access to its buffers, or all offsets
    of documents in their blocks are below 2^15 ([docs_readable]); the values of a column that is dense and of equal lengths are not longer than their
    offset in the file, or the file is in memory and not encrypted ([buffer_fits]). *)
Theorem column_roundtrip (cipher : option C) (consolidation version : bool) (id : Z) (compression : list Z) finalizer alloc ops out :
  cipher_ok cipher -> column_fits consolidation id compression finalizer ops (length (written out)) -> out_ok out -> written out <> [] ->
  let docs := (told ops).1 in let vals := (told ops).2 in
  exists c1 out1 c2 out2, run_ops p ops (column_make cipher consolidation version id compression finalizer alloc) out = Some (Done (c1, out1)) /\
    column_finalize p c1 out1 = Some (Done (c2, out2)) /\ out_ok out2 /\
    forall out3 x iout, out_ok out3 -> written out3 = written out2 ++ x -> Z.of_nat (length (written out3)) < 2 ^ 64 ->
      out_ok iout -> Z.of_nat (length (written iout)) < 2 ^ 63 ->
      exists c3 out4 iout' enc, column_finish p c2 out3 iout = Some (c3, out4, iout') /\ out_ok out4 /\ out_ok iout' /\
        (exists y, written out4 = written out3 ++ y) /\ written iout' = written iout ++ enc /\
        forall (registry : list Z -> option (option (I -> option (bool * I)))) data_cipher count more (s : I),
          let fi := written iout' ++ more in
          at_ fi (length (written iout)) s -> Z.of_nat (length fi) < 2 ^ 64 -> registry compression = Some None ->
          (forall k, cipher = Some k -> data_cipher = Some k) -> id < count ->
          exists col s', read_column big registry data_cipher count s = Some (Done (col, s')) /\ at_ fi (length (written iout')) s' /\
            hdr_id (hdr_ col) = id /\ docs_count (hdr_ col) = Z.of_nat (length docs) /\ (name_ col, payload_ col) = named finalizer /\
            forall rest (iops : input_operations I) (stream_ : I) hint,
              let fd := written out4 ++ rest in
              rest <> [] -> Z.of_nat (length fd) < 2 ^ 64 -> input_laws fd iops -> (exists q, at_ fd q stream_) ->
              docs_readable (I := I) fd docs -> buffer_fits (I := I) fd (kind_ col) (is_encrypted (hdr_ col)) -> exists it,
              iterator iops stream_ data_cipher col hint = Some (Done it) /\
              iterates big docs (if ColumnHint.has ColumnHint.kMask hint then replicate (length docs) [] else vals) it.
Proof using All.
  intros Hcipher Hfits Ho Hne docs vals.
  destruct (column_finished p cipher consolidation version id compression finalizer alloc ops out Hcipher Hfits Ho Hne)
    as (c1 & out1 & c2 & out2 & junk & E1 & E2 & Ho2 & Hne2 & Hc2 & Hs2 & Hid & Hcc & Hcomp & Hn).
  fold docs vals in Hc2. exists c1, out1, c2, out2. split; [done|]. split; [done|]. split; [done|]. intros out3 x iout Ho3 Hw3 Hsz3 Hio Hisz. destruct Hfits.
  destruct (column_finish_spec (written out2) docs vals junk c2 out3 iout x Hc2 Hs2 ltac:(by rewrite Hid) cf_docs0 cf_first0 Hne2 Ho3 Hw3 Hsz3 Hio Hisz)
    as (hdr & w & cks & out4 & iout' & E3 & Ho4 & Hio' & Hiw & Hcw). pose proof Hcw as [_ Hh _ Hfi [y Ed] _].
  eexists _, out4, iout', _. split; [exact E3|]. split; [done|]. split; [done|]. split; [exists y; by rewrite Hw3, Ed, <-app_assoc|]. split; [exact Hiw|].
  intros registry data_cipher count more s fi Hs Hfsz Hreg Hk Hcount.
  assert (drop (length (written iout)) fi = index_bytes (set_docs w (addr_table_ c2) (prev_ c2) (pend_ c2) c2) hdr (length (written iout)) ++ more) as Ef.
  { unfold fi. by rewrite Hiw, <-app_assoc, drop_app_length. }
  destruct (read_column_spec fi big registry data_cipher _ hdr count (length (written iout)) s more Hfi) as (s' & Er & Hs'); [..|exact Ef|];
    [by cbn [set_docs compression_]; rewrite Hcomp|by cbn [set_docs ctx_cipher]; rewrite Hcc|by rewrite (ho_id _ _ _ Hh), Hid|exact Hs|done|].
  eexists _, s'. split; [exact Er|]. split; [by rewrite Hiw, length_app|]. cbn [column_of hdr_ name_ payload_ kind_ set_docs ColumnWriter.name_ ColumnWriter.payload_].
  split; [by rewrite (ho_id _ _ _ Hh)|]. split; [apply (ho_count _ _ _ Hh)|]. split; [done|]. intros rest iops stream_ hint Hrest Hfd Hops Hst Hacc Hbuf.
  by apply (column_iterates docs vals (written out2) x c2 hdr w cks (written out4) rest iops stream_ data_cipher hint Hcw); rewrite ?Hcc.
Qed.

End roundtrip.

(** A column of three documents *)
Definition example_platform : platform := Platform false false 8 0.
Definition example_ops : list column_op := [op_prepare 1; op_write [1; 2]; op_prepare 2; op_other [9]; op_prepare 4; op_write [5; 6]; op_write [7]].
Definition example_column : column ctr_cipher_stream := column_make None false false 0 [110] None (fun _ _ => 7).
Definition example_data : BufferedOutput.t := BufferedOutput.Make [] 0 [9; 9; 9] 16.
Definition example_index : BufferedOutput.t := BufferedOutput.Make [] 0 [] 16.
Definition example_registry : list Z -> option (option (BytesView.t -> option (bool * BytesView.t))) := fun _ => Some None.

Definition example_read (out : BufferedOutput.t) (c : column ctr_cipher_stream) : option (outcome (nat * nat * nat * bool)) :=
  '(c, out4, iout) ⇐ lift (column_finish example_platform c out example_index);
  '(col, _) ⇐ read_column (C := ctr_cipher_stream) false example_registry None 1 (BytesView.Make (written iout ++ []) 0);
  done_ (length (written out), length (written out4), length (written iout), match kind_ col with sparse_column _ => true | _ => false end).
Lemma example_sizes : ('(c, out) ⇐ run_ops example_platform example_ops example_column example_data; '(c, out) ⇐ column_finalize example_platform c out;
  example_read out c) = Some (Done (25, 41, 64, true)%nat).
Proof. vm_compute. reflexivity. Qed.

Lemma first_of docs t v : v = doc_limits.eof \/ t <= v /\ v ∈ docs -> Forall (fun d => d < t \/ v <= d) docs -> first_from (is_doc docs) t v.
Proof.
  intros Hv Hd. split; [destruct Hv as [?|[? ?]]; [by left|right; split; [done|by apply bool_decide_eq_true]]|].
  intros d Hr. apply bool_decide_eq_false. intros Hin. rewrite Forall_forall in Hd. specialize (Hd d Hin). cbn in Hd. lia.
Qed.

Lemma example_trace : cursor_trace (is_doc [1; 2; 4]) doc_limits.invalid [Next; Seek 3] [1; 4].
Proof.
  apply trace_cons; [apply step_next, first_of; [right; split; [doc_lia|left]|repeat constructor; doc_lia]|].
  apply trace_cons; [apply step_seek, first_of; [doc_lia..|right; split; [lia|do 2 right; left]|repeat constructor; lia]|apply trace_nil].
Qed.

Lemma column_roundtrip_witness : exists c1 out1 c2 out2 c3 out4 iout s' col it it',
  run_ops example_platform example_ops example_column example_data = Some (Done (c1, out1)) /\
  column_finalize example_platform c1 out1 = Some (Done (c2, out2)) /\
  column_finish example_platform c2 out2 example_index = Some (c3, out4, iout) /\
  read_column (C := ctr_cipher_stream) false example_registry None 1 (BytesView.Make (written iout ++ []) 0) = Some (Done (col, s')) /\
  iterator view_inputs (BytesView.Make (written out4 ++ [0]) 0) None col 0 = Some (Done it) /\
  run (D := column_doc_iterator false) [Next; Seek 3] it = Some ([1; 4], it') /\ it_payload it' = [5; 6; 7].
Proof.
  destruct (column_roundtrip (V := BufferedOutput.t) (I := BytesView.t) example_platform None false false 0 [110] None (fun _ _ => 7) example_ops example_data)
    as (c1 & out1 & c2 & out2 & E1 & E2 & Ho2 & H).
  - exact Logic.I.
  - split; try done.
    + unfold example_ops. repeat (constructor; [cbn; try doc_lia; try done; try (repeat constructor; unfold is_byte, is_word; lia)|]). constructor.
    + repeat constructor.
    + right. assert (first_block (told example_ops).1 = [1; 2; 4]) as -> by (vm_compute; reflexivity). apply Forall_forall. intros d Hd.
      rewrite kBlockSize_eq. rewrite !elem_of_cons, elem_of_nil in Hd. destruct Hd as [->|[->|[->|[]]]]; done.
  - split; cbn; lia.
  - done.
  - pose proof example_sizes as Es. fold example_column in E1. rewrite E1, bind_done, E2, bind_done in Es.
    assert (exists c3 out4 iout, column_finish example_platform c2 out2 example_index = Some (c3, out4, iout) /\ Z.of_nat (length (written out2)) = 25) as (c3 & out4 & iout & E3 & Es2).
    { unfold example_read in Es. destruct (column_finish example_platform c2 out2 example_index) as [[[c3 out4] iout]|]; [|done]. rewrite bind_lift in Es.
      destruct (read_column _ _ _ _ _) as [[[col s']|]|]; try done. rewrite bind_done in Es. injection Es as Es _ _ _. exists c3, out4, iout. split; [done|]. exact (f_equal Z.of_nat Es). }
    destruct (H out2 [] example_index Ho2) as (c3' & out4' & iout' & enc & E3' & Ho4 & Hio & (y & Ey) & Ei & Hr); [by rewrite app_nil_r|lia|split; cbn; lia|done|].
    rewrite E3 in E3'. injection E3' as <- <- <-. unfold example_read in Es. rewrite E3, bind_lift in Es.
    destruct (Hr example_registry None 1 [] (BytesView.Make (written iout ++ []) 0)) as (col & s' & E4 & _ & Hid & Hcount & _ & Hit); [by apply view_at; cbn; lia| |done|done|lia|].
    { destruct (read_column _ _ _ _ _) as [[[col s']|]|]; try done. rewrite bind_done in Es. injection Es as _ _ Es _. rewrite app_nil_r. assert (length (written iout) = 64%nat) as -> by exact Es. lia. }
    change (big_endian example_platform) with false in *. rewrite E4, bind_done in Es. injection Es as _ Es4 _ Ek. assert (length (written out4) = 41%nat) as Ed by exact Es4.
    destruct (Hit [0] view_inputs (BytesView.Make (written out4 ++ [0]) 0) 0) as (it & E5 & Hrun); [done|rewrite length_app, Ed; cbn; lia|apply view_laws|by exists 0%nat; apply view_at; lia| | |].
    { left. repeat constructor. }
    { by destruct (kind_ col). }
    destruct (Hrun [Next; Seek 3] [1; 4] example_trace) as (it' & E6 & Hs); [done|].
    exists c1, out1, c2, out2, c3, out4, iout, s', col, it, it'. do 6 (split; [assumption|]).
    destruct (Hs 4 eq_refl) as [_ Hv]. specialize (Hv 2%nat eq_refl). vm_compute in Hv. by injection Hv as ->.
Defined.
