(* ===== verification/ColumnIndex.v ===== *)
(** * The index of a column store

    All the columns of a store: the index file as [reader::prepare_index] of core/formats/columnstore2.cpp reads
    it, the errors it reports, and where the code of the columns deviates from what it means to do. *)
From S2P Require Import Prelude Outcome BitUtils BytesIO Streams FileStreams MemoryFile StoreUtils Encryption BitPacking BlockCodec DocIterators SparseBitmap SparseBitmapWriter SparseBitmapIterator Coding ColumnFormat ColumnIterators ColumnValues ColumnWriter ColumnReader ColumnStore.

(** ** The columns of an index file *)

Section index.
Context {I C : Type} {DI : DataInput I} {DS : DataInputSpec I} {II : IndexInput I} {IS : IndexInputSpec I} {FI : FileInput I} {FS : FileInputSpec I}
  {EC : EncryptionStream C} {ES : EncryptionStreamSpec C} (f : list Z) (big : bool).
Context (registry : list Z -> option (option (I -> option (bool * I)))) (data_cipher : option C).
Implicit Types (c : column C) (hdr : column_header) (cols : list (column C * column_header)).

(** Finished columns one after the other *)
Fixpoint columns_bytes cols (pos : nat) : list Z :=
  match cols with
  | [] => []
  | (c, hdr) :: cols => index_bytes c hdr pos ++ columns_bytes cols (pos + length (index_bytes c hdr pos))
  end.

Definition read_of (ch : column C * column_header) : column_base := column_of ch.1 ch.2.
Definition id_of (ch : column C * column_header) : nat := Z.to_nat (hdr_id ch.2).

(** The columns by their identifiers *)
Definition by_id (columns : list (option column_base)) cols : list (option column_base) :=
  foldl (fun columns ch => <[id_of ch := Some (read_of ch)]> columns) columns cols.

(** The names are in the order of [less], from the one before on. *)
Fixpoint in_order (back : option column_base) cols : Prop :=
  match cols with
  | [] => True
  | ch :: cols => match back with Some b => less (name_ (read_of ch)) (name_ b) = false | None => True end /\ in_order (Some (read_of ch)) cols
  end.

(** A column that the reader accepts in a store of [count] columns *)
Definition readable (count : Z) (ch : column C * column_header) : Prop :=
  finished ch.1 ch.2 /\ registry (compression_ ch.1) = Some None /\ (forall k, ctx_cipher ch.1 = Some k -> data_cipher = Some k) /\ hdr_id ch.2 < count.

Lemma read_columns_spec count cols : forall sorted columns (p : nat) s r, Forall (readable count) cols -> in_order (last sorted) cols ->
  at_ f p s -> Z.of_nat (length f) < 2 ^ 64 -> drop p f = columns_bytes cols p ++ r -> exists s',
  read_columns big registry data_cipher (length cols) count sorted columns s = Some (Done (sorted ++ map read_of cols, by_id columns cols, s')) /\
  at_ f (p + length (columns_bytes cols p)) s'.
Proof using All.
  induction cols as [|[c hdr] cols IH]; intros sorted columns p s r Hc Ho Hs Hf E; cbn [length read_columns map columns_bytes in_order] in *.
  - exists s. by rewrite app_nil_r, Nat.add_0_r.
  - apply Forall_cons in Hc as [(Hfi & Hreg & Hk & Hid) Hc]. destruct Ho as [Ho1 Ho2]. rewrite <-app_assoc in E.
    destruct (read_column_spec f big registry data_cipher c hdr count p s _ Hfi Hreg Hk Hid Hs Hf E) as (s1 & -> & Hs1). rewrite bind_done.
    assert (match last sorted with Some back => less (name_ (column_of c hdr)) (name_ back) | None => false end = false) as -> by (by destruct (last sorted)).
    rewrite bind_check. destruct (IH (sorted ++ [column_of c hdr]) (<[Z.to_nat (hdr_id hdr) := Some (column_of c hdr)]> columns) (p + length (index_bytes c hdr p))%nat s1 r Hc) as (s' & E' & Hs').
    + by rewrite last_snoc.
    + exact Hs1.
    + done.
    + by rewrite <-drop_drop, E, drop_app_length.
    + exists s'. split; [|by rewrite length_app, Nat.add_assoc]. cbn [column_of hdr_]. by rewrite E', <-app_assoc.
Qed.

Lemma by_id_length cols : forall columns, length (by_id columns cols) = length columns.
Proof using Type. induction cols as [|ch cols IH]; intros columns; [done|]. cbn [by_id foldl]. fold (by_id (<[id_of ch:=Some (read_of ch)]> columns) cols). by rewrite IH, length_insert. Qed.

Lemma by_id_other cols (i : nat) : forall columns, i ∉ map id_of cols -> by_id columns cols !! i = columns !! i.
Proof using Type.
  induction cols as [|ch cols IH]; intros columns Hi; [done|]. cbn [map] in Hi. apply not_elem_of_cons in Hi as [Hne Hi]. cbn [by_id foldl].
  fold (by_id (<[id_of ch:=Some (read_of ch)]> columns) cols). rewrite IH by done. by rewrite list_lookup_insert_ne by congruence.
Qed.

Lemma by_id_lookup cols ch : forall columns, NoDup (map id_of cols) -> ch ∈ cols -> (id_of ch < length columns)%nat -> by_id columns cols !! id_of ch = Some (Some (read_of ch)).
Proof using Type.
  induction cols as [|ch' cols IH]; intros columns Hn Hin Hl; [by apply elem_of_nil in Hin|]. cbn [map] in Hn. apply NoDup_cons in Hn as [Hni Hn].
  cbn [by_id foldl]. fold (by_id (<[id_of ch':=Some (read_of ch')]> columns) cols). apply elem_of_cons in Hin as [->|Hin].
  - rewrite by_id_other by done. by apply list_lookup_insert_eq.
  - apply IH; [done|done|by rewrite length_insert].
Qed.

(** C14: an index file is read back as it was written: the columns in the order of their names, each with its header, its name,
    its payload and its tables, found by its identifier, and no other identifier finds a column. *)
Theorem index_roundtrip cols (p : nat) s r : Forall (readable (Z.of_nat (length cols))) cols -> NoDup (map id_of cols) -> in_order None cols ->
  Z.of_nat (length cols) < 2 ^ 32 -> Z.of_nat (length f) < 2 ^ 64 -> at_ f p s ->
  let count := VInt.vwrite32 (Z.of_nat (length cols)) in
  drop p f = count ++ columns_bytes cols (p + length count) ++ r -> exists columns s',
  read_index big registry data_cipher s = Some (Done (map read_of cols, columns, s')) /\
  at_ f (p + length count + length (columns_bytes cols (p + length count))) s' /\
  (forall ch, ch ∈ cols -> reader_column (hdr_id ch.2) columns = Some (column_of ch.1 ch.2)) /\
  (forall field col, 0 <= field -> reader_column field columns = Some col -> hdr_id (hdr_ col) = field /\ col ∈ map read_of cols).
Proof using All.
  intros Hc Hn Ho Hl Hf Hs count E. unfold count in *. clear count. assert (is_word 32 (Z.of_nat (length cols))) as Hw by (unfold is_word; lia).
  destruct (reads_step f _ _ _ p s _ (reads_vint f _ Hw) Hs E) as (s1 & E1 & Hs1 & E2). unfold read_index. rewrite E1, bind_lift, Nat2Z.id.
  destruct (read_columns_spec (Z.of_nat (length cols)) cols [] (replicate (length cols) None) (p + length (VInt.vwrite32 (Z.of_nat (length cols))))%nat s1 r Hc Ho Hs1 Hf E2) as (s' & -> & Hs').
  exists (by_id (replicate (length cols) None) cols), s'. split; [done|]. split; [done|].
  assert (forall field, 0 <= field -> reader_column field (by_id (replicate (length cols) None) cols) = mjoin (by_id (replicate (length cols) None) cols !! Z.to_nat field)) as Hcol.
  { intros field H0. unfold reader_column. rewrite by_id_length, length_replicate. destruct (Z.leb_spec (Z.of_nat (length cols)) field); [|done].
    rewrite lookup_ge_None_2; [done|rewrite by_id_length, length_replicate; lia]. }
  assert (forall ch, ch ∈ cols -> 0 <= hdr_id ch.2 < Z.of_nat (length cols)) as Hid.
  { intros ch Hin. rewrite Forall_forall in Hc. destruct (Hc ch Hin) as (Hfi & _ & _ & H). split; [|done]. apply (hdr_id_small _ (fi_header _ _ Hfi)). }
  split.
  - intros ch Hin. pose proof (Hid ch Hin). rewrite Hcol by lia. fold (id_of ch). rewrite by_id_lookup; [done|done|done|]. unfold id_of. rewrite length_replicate. lia.
  - intros field col H0 Hcl. rewrite Hcol in Hcl by done. destruct (decide (Z.to_nat field ∈ map id_of cols)) as [Hin|Hni].
    + apply list_elem_of_fmap in Hin as (ch & E3 & Hin). pose proof (Hid ch Hin). rewrite E3, by_id_lookup in Hcl; [|done|done|unfold id_of; rewrite length_replicate; lia].
      injection Hcl as <-. split; [|by apply list_elem_of_fmap_2]. unfold id_of in E3. cbn. lia.
    + rewrite by_id_other in Hcl by done. destruct (replicate (length cols) None !! Z.to_nat field) as [x|] eqn:Er; [|done].
      apply lookup_replicate in Er as [-> _]. done.
Qed.

(** An encrypted column and no cipher; an empty column that is no mask *)
Definition sealed hdr : bool := is_encrypted hdr && match data_cipher with None => true | Some _ => false end.
Definition lacks_values hdr : bool := negb (type_ hdr =? ColumnType.kMask) && (docs_count hdr =? 0).

(** C15: what the reader of a column reports: whatever follows in the file, a compression that is not registered, an
    encrypted column without a cipher, an empty column that is no mask, an identifier outside of the store and an
    unknown type each throw their [index_error], in this order, and an input that cannot be reopened or duplicated
    throws an [io_error] when an iterator is opened. *)
Theorem column_errors compression hdr payload count (p : nat) s r : Z.of_nat (length compression) < 2 ^ 32 -> Z.of_nat (length payload) < 2 ^ 32 ->
  header_ok hdr -> at_ f p s -> drop p f = string_bytes compression ++ header_bytes hdr ++ string_bytes payload ++ r ->
  let result := read_column big registry data_cipher count s in
  (registry compression = None -> result = throw (index_error "Failed to load compression for column")) /\
  (registry compression = Some None ->
    (sealed hdr = true -> result = throw (index_error "Failed to load encrypted column without a cipher")) /\
    (sealed hdr = false -> lacks_values hdr = true -> result = throw (index_error "Failed to load column, only mask column may be empty")) /\
    (sealed hdr = false -> lacks_values hdr = false -> count <= hdr_id hdr -> result = throw (index_error "Failed to load column, invalid ordinal position")) /\
    (sealed hdr = false -> lacks_values hdr = false -> hdr_id hdr < count -> ColumnProperty.has ColumnProperty.kNoName (props hdr) = true -> docs_index hdr = 0 ->
       ColumnType.kDenseFixed < type_ hdr -> result = throw (index_error "Failed to load column, got invalid type"))) /\
  (forall (ops : input_operations I) stream cipher col hint, in_reopen ops stream = None ->
     make_iterator (C := C) ops stream cipher col hint = throw (io_error "failed to reopen input")) /\
  (forall (ops : input_operations I) stream cipher col hint value_in, in_reopen ops stream = Some value_in -> docs_index (hdr_ col) <> 0 ->
     in_dup ops value_in = None -> make_iterator (C := C) ops stream cipher col hint = throw (io_error "failed to duplicate input")).
Proof using All.
  intros S1 S2 Hh Hs E result. split_and!.
  - intros Hreg. unfold result, read_column. destruct (reads_step f _ _ _ p s _ (reads_string f _ S1) Hs E) as (s1 & -> & _). rewrite bind_lift.
    unfold prepare_inflater. by rewrite Hreg.
  - intros Hreg. destruct (reads_step f _ _ _ p s _ (reads_string f _ S1) Hs E) as (s1 & E1 & Hs1 & D1).
    destruct (reads_step f _ _ _ _ s1 _ (reads_header f _ Hh) Hs1 D1) as (s2 & E2 & Hs2 & D2).
    destruct (reads_step f _ _ _ _ s2 _ (reads_string f _ S2) Hs2 D2) as (s3 & E3 & _).
    assert (exists k, result = outcome_bind k (check_header data_cipher count hdr) /\ (k () = '(payload, in_) ⇐ lift (read_string s2); '(name, in_) ⇐ lift (read_name data_cipher hdr in_);
      '(index, in_) ⇐ (if negb (docs_index hdr =? 0) then read_bitmap_index big in_ else done_ ([], in_)); '(kind, in_) ⇐ read_kind big hdr in_;
      done_ (mkColumnBase hdr index payload name kind, in_))) as (k & -> & Hk).
    { eexists. unfold result, read_column. rewrite E1, bind_lift. unfold prepare_inflater. rewrite Hreg, bind_done_, E2, bind_lift. split; reflexivity. }
    unfold check_header. fold (sealed hdr). rewrite (Z.eqb_sym ColumnType.kMask), (Z.eqb_sym 0). fold (lacks_values hdr). pose proof (hdr_id_small _ Hh) as Hid. unfold is_word in Hid.
    split_and!.
    + intros ->. done.
    + intros -> ->. done.
    + intros -> -> Hc. rewrite !bind_check, (proj2 (Z.leb_le count _)), orb_true_r by done. done.
    + intros -> -> Hc Hn Hd Ht. rewrite !bind_check, (proj2 (Z.leb_gt count _)), (proj2 (Z.leb_gt (2 ^ 32 - 1) _)) by lia. cbn [orb]. rewrite bind_check, Hk, E3, bind_lift.
      unfold read_name. rewrite Hn. cbn [negb]. rewrite bind_lift, Hd. cbn [negb Z.eqb]. rewrite bind_done_. unfold read_kind.
      unfold ColumnType.kDenseFixed, ColumnType.kSparse, ColumnType.kMask, ColumnType.kFixed in *. by rewrite !(proj2 (Z.eqb_neq _ _)) by lia.
  - intros ops stream cipher col hint Hr. unfold make_iterator. by rewrite Hr.
  - intros ops stream cipher col hint v Hr Hd Hdup. unfold make_iterator. rewrite Hr, Hdup. by rewrite (proj2 (Z.eqb_neq 0 _)) by congruence.
Qed.

End index.

(** Two empty columns, one of them with a name *)
Definition example_columns : list (column ctr_cipher_stream * column_header) :=
  let c := column_make None false false 1 [110] None (fun _ _ => 7) in
  [(c, mkHeader 0 1 0 0 ColumnProperty.kNoName ColumnType.kMask);
   (set_name (Some [97]) [5] c, mkHeader 0 0 0 0 0 ColumnType.kMask)].
Definition example_file : list Z := VInt.vwrite32 2 ++ columns_bytes example_columns 1.

Lemma index_roundtrip_witness : exists columns s',
  read_index (C := ctr_cipher_stream) false example_registry None (BytesView.Make example_file 0) = Some (Done (map read_of example_columns, columns, s')) /\
  name_ <$> reader_column 0 columns = Some (Some [97]) /\ reader_column 2 columns = None.
Proof.
  destruct (index_roundtrip example_file false example_registry None example_columns 0 (BytesView.Make example_file 0) []) as (columns & s' & E & _ & H1 & H2).
  - assert (forall c hdr, ctx_cipher c = None -> strings_ok c -> header_ok hdr -> blocks_ c = [] -> is_encrypted hdr = false ->
      ColumnProperty.has ColumnProperty.kNoName (props hdr) = match ColumnWriter.name_ c with Some _ => false | None => true end ->
      docs_count hdr = 0 -> sw_block_index (docs_writer_ c) = [] -> type_ hdr = ColumnType.kMask -> compression_ c = [110] -> hdr_id hdr < 2 ->
      readable example_registry None 2 (c, hdr)) as Hr.
    { intros c hdr Hc Hs Hh Hb He Hn Hd Hi Ht Hcomp Hid. unfold readable. cbn [fst snd]. split; [|split; [done|split; [intros k; by rewrite Hc|done]]].
      split; rewrite ?Hc, ?Hb, ?Hi; try done; [|by left]. unfold blocks_count. rewrite Hd. vm_compute. reflexivity. }
    assert (strings_ok (column_make (C := ctr_cipher_stream) None false false 1 [110] None (fun _ _ => 7))) as S1 by (split; [done..|intros name [=]]).
    assert (strings_ok (set_name (Some [97]) [5] (column_make (C := ctr_cipher_stream) None false false 1 [110] None (fun _ _ => 7)))) as S2.
    { split; [done..|]. intros name [= <-]. split; [done|by repeat constructor]. }
    unfold example_columns. cbv zeta. apply Forall_cons. split; [|apply Forall_cons; split; [|by apply Forall_nil] ]; (apply Hr; try done; by split).
  - by apply (bool_decide_unpack _).
  - done.
  - done.
  - done.
  - apply view_at. lia.
  - vm_compute. reflexivity.
  - exists columns, s'. split; [exact E|]. split.
    + specialize (H1 (nth 1 example_columns (nth 0 example_columns (column_make None false false 1 [110] None (fun _ _ => 7), mkHeader 0 0 0 0 0 0)))). cbn in H1. rewrite H1; [done|]. right. left.
    + destruct (reader_column 2 columns) as [col|] eqn:Ec; [|done]. destruct (H2 2 col ltac:(lia) Ec) as [Hid Hin]. cbn in Hin.
      rewrite !elem_of_cons, elem_of_nil in Hin. by destruct Hin as [->|[->|[]]].
Defined.

Definition example_header : column_header := mkHeader 0 3 4 1 ColumnProperty.kNoName 9.
Definition example_broken : list Z := string_bytes [110] ++ header_bytes example_header ++ string_bytes [].

Lemma column_errors_witness :
  read_column (C := ctr_cipher_stream) false (fun _ => None) None 4 (BytesView.Make example_broken 0) =
    throw (index_error "Failed to load compression for column") /\
  read_column (C := ctr_cipher_stream) false example_registry None 3 (BytesView.Make example_broken 0) =
    throw (index_error "Failed to load column, invalid ordinal position") /\
  read_column (C := ctr_cipher_stream) false example_registry None 4 (BytesView.Make example_broken 0) =
    throw (index_error "Failed to load column, got invalid type").
Proof.
  assert (header_ok example_header) as Hh by done.
  assert (at_ example_broken 0 (BytesView.Make example_broken 0)) as Hs by (apply view_at; lia).
  split; [|split].
  - by apply (column_errors (C := ctr_cipher_stream) example_broken false (fun _ => None) None [110] example_header [] 4 0 (BytesView.Make example_broken 0) []).
  - destruct (column_errors (C := ctr_cipher_stream) example_broken false example_registry None [110] example_header [] 3 0 (BytesView.Make example_broken 0) [])
      as (_ & H & _); [done..|]. by apply H.
  - destruct (column_errors (C := ctr_cipher_stream) example_broken false example_registry None [110] example_header [] 4 0 (BytesView.Make example_broken 0) [])
      as (_ & H & _); [done..|]. by apply H.
Defined.

(** ** Where the code deviates *)






