(* ===== verification/SkipList.v ===== *)
(** * Skip lists

    [SkipWriter], [SkipReaderBase] and [SkipReader] of core/formats/skip_list.hpp and .cpp: an index of several
    levels over a list of documents that is stored in blocks of [skip_0]. Level 0 has an entry for every block
    but the last; a level above has an entry for every [skip_n]-th entry of the level below, with a pointer to it.
    What an entry holds is up to the users of the list: a function that writes it, and a reader
    ([SkipRead]) that keeps a key per level.

    The layout of the levels is a function of the entries ([level_bytes]); the writer produces it, and [Seek]
    finds in it, for any reader that keeps the laws [skip_reader_laws], the first entry that is not less than
    the target, over any number of calls. *)
From stdpp Require Import functions.
From S2P Require Import Prelude BitUtils BytesIO Streams FileStreams MemoryFile StoreUtils Outcome Coding.

(** ** [SkipWriter] *)

(** [CountMaxLevels] *)
Definition CountMaxLevels (skip_0 skip_n count : Z) : option Z :=
  if skip_0 <? count then l ← Math.log (count / skip_0) skip_n; Some (1 + l) else Some 0.

(** [memory_output]: a file and the stream into it *)
Definition memory_output_make (alloc : nat -> nat -> Z) : memory_index_output := out_make (mkFile alloc [] 0).
Definition memory_output_reset (s : memory_index_output) : memory_index_output := out_make (mf_reset (mo_file s)).

Record SkipWriter := mkSkipWriter {
  levels_ : list memory_index_output;
  max_levels_ : nat;
  skip_0_ : Z;
  skip_n_ : Z;
}.

Definition SkipWriter_init (skip_0 skip_n : Z) : SkipWriter := mkSkipWriter [] 0 skip_0 skip_n.
Definition set_levels (ls : list memory_index_output) (s : SkipWriter) : SkipWriter :=
  mkSkipWriter ls (max_levels_ s) (skip_0_ s) (skip_n_ s).

(** [Prepare]; the memory of the levels it adds holds [alloc]. *)
Definition SkipWriter_Prepare (alloc : nat -> nat -> Z) (max_levels count : Z) (s : SkipWriter) : option SkipWriter :=
  n ← CountMaxLevels (skip_0_ s) (skip_n_ s) count;
  let max := Z.to_nat (Z.min max_levels n) in
  let ls := map memory_output_reset (levels_ s) in
  Some (mkSkipWriter (ls ++ replicate (max - length ls) (memory_output_make alloc)) max (skip_0_ s) (skip_n_ s)).

Definition SkipWriter_Reset (s : SkipWriter) : SkipWriter := set_levels (map out_reset (levels_ s)) s.

Section skip.
Context {W : Type} (write : nat -> memory_index_output -> W -> memory_index_output * W).

(** The loop over the levels from [i] on, [n] of them at most. *)
Fixpoint skip_levels (n i : nat) (count child skip_n : Z) (ls : list memory_index_output) (w : W)
    : option (list memory_index_output * W) :=
  match n with
  | O => Some (ls, w)
  | S n =>
      if count mod skip_n =? 0 then
        stream ← ls !! i;
        let '(stream, w) := write i stream w in
        let next_child := mo_file_pointer stream in
        let stream := mo_write_vlong child stream in
        skip_levels n (S i) (count / skip_n) next_child skip_n (<[i := stream]> ls) w
      else Some (ls, w)
  end.

(** [Skip]: [None] is an access outside of the levels. *)
Definition SkipWriter_Skip (count : Z) (s : SkipWriter) (w : W) : option (SkipWriter * W) :=
  if count mod skip_0_ s =? 0 then
    stream ← levels_ s !! 0%nat;
    let '(stream, w) := write 0 stream w in
    let count := count / skip_0_ s in
    let child := mo_file_pointer stream in
    '(ls, w) ← skip_levels (max_levels_ s - 1) 1 count child (skip_n_ s) (<[0%nat := stream]> (levels_ s)) w;
    Some (set_levels ls s, w)
  else Some (s, w).
End skip.

(** [CountLevels]: the filled levels among the first [n] *)
Fixpoint count_levels (n : nat) (ls : list memory_index_output) : option nat :=
  match n with
  | O => Some O
  | S n' =>
      stream ← ls !! n';
      if mo_file_pointer stream =? 0 then count_levels n' ls else Some n
  end.
Definition CountLevels (s : SkipWriter) : option nat := count_levels (max_levels_ s) (levels_ s).

Section flush.
Context {Out : Type} `{DataOutput Out}.

Fixpoint flush_levels (n : nat) (ls : list memory_index_output) (out : Out) : option (list memory_index_output * Out) :=
  match n with
  | O => Some (ls, out)
  | S n =>
      stream ← ls !! n;
      let stream := mo_flush stream in
      let out := write_vlong (mo_file_pointer stream) out in
      flush_levels n (<[n := stream]> ls) (copy_to (mo_file stream) out)
  end.
Definition FlushLevels (num_levels : nat) (s : SkipWriter) (out : Out) : option (SkipWriter * Out) :=
  '(ls, out) ← flush_levels num_levels (levels_ s) (write_vint (Z.of_nat num_levels) out);
  Some (set_levels ls s, out).
Definition SkipWriter_Flush (s : SkipWriter) (out : Out) : option (SkipWriter * Out) :=
  n ← CountLevels s; FlushLevels n s out.
End flush.

(** ** [SkipReader] *)

(** What a reader is called for; levels are counted from the top. *)
Class SkipRead (R I : Type) := {
  IsLess : nat -> Z -> R -> bool;
  AdjustLevel : nat -> R -> nat;
  Read : nat -> I -> R -> option (I * R);
  Seal : nat -> R -> R;
  MoveDown : nat -> R -> R;
}.

Definition kUndefined : Z := 2 ^ 64 - 1.

Section reader.
Context {R I : Type} `{SkipRead R I, IndexInput I}.

(** [left] and [step] are below [2 ^ 32] and [left] goes below zero once, by a step: an [int64_t] holds it. *)
Record Level := mkLevel { lv_stream : I; lv_begin : Z; lv_child : Z; lv_left : Z; lv_step : Z }.

Record SkipReader := mkSkipReader {
  rd_levels : list Level;
  rd_skip_0 : Z;
  rd_skip_n : Z;
  rd_docs_count : Z;
  rd_reader : R;
}.

Definition SkipReader_init (skip_0 skip_n : Z) (reader : R) : SkipReader := mkSkipReader [] skip_0 skip_n 0 reader.
Definition NumLevels (s : SkipReader) : nat := length (rd_levels s).
Definition set_reader (r : R) (s : SkipReader) : SkipReader :=
  mkSkipReader (rd_levels s) (rd_skip_0 s) (rd_skip_n s) (rd_docs_count s) r.
Definition set_level (id : nat) (l : Level) (s : SkipReader) : SkipReader :=
  mkSkipReader (<[id := l]> (rd_levels s)) (rd_skip_0 s) (rd_skip_n s) (rd_docs_count s) (rd_reader s).

Definition SkipReader_Reset (s : SkipReader) : SkipReader :=
  let reset l := mkLevel (seek (Z.to_nat (lv_begin l)) (lv_stream l)) (lv_begin l)
                   (if lv_child l =? kUndefined then kUndefined else 0) (rd_docs_count s) (lv_step l) in
  mkSkipReader (map reset (rd_levels s)) (rd_skip_0 s) (rd_skip_n s) (rd_docs_count s) (rd_reader s).

(** *** [SkipReaderBase::Prepare]

    [dup] duplicates an input, or returns null, which [load_level] does not check. *)
Section prepare.
Context (dup : I -> option I).

(** [load_level]: the level and where the next one starts *)
Definition load_level (stream : I) (step left : Z) : option (outcome (Level * Z)) :=
  '(length, stream) ⇐ lift (read_vlong stream);
  _ ⇐ throw_if (length =? 0) (index_error "while loading level, error: zero length");
  let begin := Z.of_nat (file_pointer stream) in
  done_ (mkLevel stream begin 0 left step, begin + length).

(** The levels from [n] down to 1 *)
Fixpoint load_levels (n : nat) (in_ : I) (step skip_n left : Z) : option (outcome (list Level * I)) :=
  match n with
  | O => done_ ([], in_)
  | S n =>
      stream ⇐ lift (dup in_);
      '(level, offset) ⇐ load_level stream step left;
      '(ls, in_) ⇐ load_levels n (seek (Z.to_nat offset) in_) (step / skip_n) skip_n left;
      done_ (level :: ls, in_)
  end.

(** [static_cast<uint32_t>(std::pow(skip_n, n))]; small powers are exact, the conversion of others is
    undefined. *)
Definition pow_u32 (skip_n : Z) (n : nat) : option Z :=
  let x := skip_n ^ Z.of_nat n in if x <? 2 ^ 32 then Some x else None.

Definition SkipReader_Prepare (in_ : I) (left : Z) (s : SkipReader) : option (outcome SkipReader) :=
  '(max_levels, in_) ⇐ lift (read_vint in_);
  if max_levels =? 0 then done_ s
  else
    let n := Z.to_nat (max_levels - 1) in
    x ⇐ lift (pow_u32 (rd_skip_n s) n);
    '(ls, in_) ⇐ load_levels n in_ (wrap 32 (rd_skip_0 s * x)) (rd_skip_n s) left;
    '(level, _) ⇐ load_level in_ (rd_skip_0 s) left;
    let level := mkLevel (lv_stream level) (lv_begin level) kUndefined (lv_left level) (lv_step level) in
    done_ (mkSkipReader (ls ++ [level]) (rd_skip_0 s) (rd_skip_n s) left (rd_reader s)).
End prepare.

(** *** [SkipReader::Seek] *)

Definition SeekToChild (lvl : Level) (ptr : Z) (prev : Level) : option Level :=
  let absolute_ptr := lv_begin lvl + ptr in
  if Z.of_nat (file_pointer (lv_stream lvl)) <? absolute_ptr then
    let stream := seek (Z.to_nat absolute_ptr) (lv_stream lvl) in
    let left := lv_left prev + lv_step prev in
    if lv_child lvl =? kUndefined then Some (mkLevel stream (lv_begin lvl) (lv_child lvl) left (lv_step lvl))
    else
      '(child, stream) ← read_vlong stream;
      Some (mkLevel stream (lv_begin lvl) child left (lv_step lvl))
  else Some lvl.

(** The first level, from [id] on, [n] of them, that is less than the target *)
Fixpoint first_less (n id : nat) (target : Z) (r : R) : nat :=
  match n with
  | O => id
  | S n => if IsLess id target r then id else first_less n (S id) target r
  end.

(** To the level below. *)
Definition descend (id : nat) (child_ptr : Z) (level : Level) (s : SkipReader) : option (nat * SkipReader) :=
  if child_ptr =? kUndefined then Some (S id, s)
  else
    next ← rd_levels s !! S id;
    next ← SeekToChild next child_ptr level;
    let s := set_level (S id) next s in
    Some (S id, set_reader (MoveDown (S id) (rd_reader s)) s).

(** A round of the loop over the levels *)
Definition seek_round (target : Z) (st : nat * SkipReader) : option ((nat * SkipReader) + SkipReader) :=
  let '(id, s) := st in
  if decide (id = length (rd_levels s)) then Some (inr s)
  else
    let id := AdjustLevel id (rd_reader s) in
    level ← rd_levels s !! id;
    let child_ptr := lv_child level in
    let left := lv_left level - lv_step level in
    if 0 <? left then
      '(stream, r) ← Read id (lv_stream level) (rd_reader s);
      '(child, stream) ← (if child_ptr =? kUndefined then Some (child_ptr, stream) else read_vlong stream);
      let level := mkLevel stream (lv_begin level) child left (lv_step level) in
      let s := set_reader r (set_level id level s) in
      if IsLess id target (rd_reader s) then Some (inl (id, s)) else inl <$> descend id child_ptr level s
    else
      let level := mkLevel (lv_stream level) (lv_begin level) child_ptr left (lv_step level) in
      let s := set_level id level s in
      inl <$> descend id child_ptr level (set_reader (Seal id (rd_reader s)) s).

(** The rounds of a search: every one reads a block's entry or goes a level down. *)
Definition skip_fuel : nat := 33.

Definition SkipReader_Seek (target : Z) (s : SkipReader) : option (Z * SkipReader) :=
  let id := first_less (length (rd_levels s)) 0 target (rd_reader s) in
  s ← iterate skip_fuel (seek_round target) (id, s);
  level_0 ← last (rd_levels s);
  Some (wrap 32 (lv_left level_0 + lv_step level_0), s).
End reader.
Arguments Level : clear implicits.
Arguments SkipReader : clear implicits.

(** ** The layout of the levels

    A list of [m] entries: at height [h] the entries are [entry h k] for [k] from 1 to [m / N ^ h]; the entry
    [k] covers the first [k * N ^ h] blocks. *)
Section layout.
Context (N : nat) (entry : nat -> nat -> list Z).

(** Where entry [i] of a level with the bytes [bytes] ends, its pointer excluded. *)
Definition entry_end (bytes : nat -> list Z) (h i : nat) : Z :=
  match i with O => 0 | S j => Z.of_nat (length (bytes j) + length (entry h i)) end.

(** The first [k] entries at height [h], with the pointers to the level below *)
Fixpoint level_bytes (h : nat) : nat -> list Z :=
  let child := match h with
               | O => fun _ => []
               | S g => fun k => VInt.vwrite64 (entry_end (level_bytes g) g (k * N))
               end in
  fix bytes (k : nat) : list Z :=
    match k with O => [] | S j => bytes j ++ entry h (S j) ++ child (S j) end.

Definition child_ptr (h k : nat) : Z :=
  match h with O => kUndefined | S g => entry_end (level_bytes g) g (k * N) end.
Definition child_bytes (h k : nat) : list Z := match h with O => [] | S _ => VInt.vwrite64 (child_ptr h k) end.

(** The entries at height [h] *)
Definition entries (m h : nat) : nat := (m / N ^ h)%nat.

(** The levels below [n], from the top *)
Fixpoint levels_bytes (m n : nat) : list Z :=
  match n with
  | O => []
  | S h =>
      let bytes := level_bytes h (entries m h) in
      VInt.vwrite64 (Z.of_nat (length bytes)) ++ bytes ++ levels_bytes m h
  end.
Definition skip_list_bytes (m n : nat) : list Z := VInt.vwrite32 (Z.of_nat n) ++ levels_bytes m n.

Lemma level_bytes_S h k : level_bytes h (S k) = level_bytes h k ++ entry h (S k) ++ child_bytes h (S k).
Proof. by destruct h. Qed.

Lemma level_bytes_mono h k k' : (k <= k')%nat -> (length (level_bytes h k) <= length (level_bytes h k'))%nat.
Proof.
  induction 1 as [|k' _ IH]; [done|]. rewrite level_bytes_S, !length_app. lia.
Qed.

Lemma entry_end_le h k : entry_end (level_bytes h) h k <= Z.of_nat (length (level_bytes h k)).
Proof. destruct k as [|k]; [cbn; lia|]. cbn [entry_end]. rewrite level_bytes_S, !length_app. lia. Qed.

Lemma entry_end_S h k : entry_end (level_bytes h) h (S k) = Z.of_nat (length (level_bytes h k) + length (entry h (S k))).
Proof. done. Qed.

End layout.

(** *** Division by the steps of the levels *)

Lemma div_pred_divide d m : (0 < d)%nat -> (0 < m)%nat -> (m mod d = 0)%nat -> (m / d = S ((m - 1) / d))%nat.
Proof.
  intros Hd Hm Hz. pose proof (Nat.div_mod_eq m d) as E. rewrite Hz in E. destruct (m / d)%nat as [|q]; [lia|]. f_equal.
  apply (Nat.div_unique (m - 1) d q (d - 1)); lia.
Qed.

Lemma div_pred_not_divide d m : (0 < d)%nat -> (m mod d <> 0)%nat -> (m / d = (m - 1) / d)%nat.
Proof.
  intros Hd Hz. pose proof (Nat.div_mod_eq m d) as E. pose proof (Nat.mod_upper_bound m d).
  apply (Nat.div_unique (m - 1) d (m / d) (m mod d - 1)); lia.
Qed.

Lemma pow_pos N h : (0 < N)%nat -> (0 < N ^ h)%nat.
Proof. intros HN. pose proof (Nat.pow_nonzero N h). lia. Qed.

Lemma mod_pow_mono N i h m : (0 < N)%nat -> (i <= h)%nat -> (m mod N ^ i <> 0)%nat -> (m mod N ^ h <> 0)%nat.
Proof.
  intros HN Hle Hi Hh. apply Hi. apply Nat.Lcm0.mod_divide in Hh. apply Nat.Lcm0.mod_divide.
  eapply Nat.divide_trans; [|exact Hh]. exists (N ^ (h - i))%nat. rewrite <-Nat.pow_add_r. f_equal. lia.
Qed.

(** ** The writer produces the layout *)

Section writer.
Context (N : nat) (HN : (1 < N)%nat) (max : nat) (entry : nat -> nat -> list Z).
Context {W : Type} (write : nat -> memory_index_output -> W -> memory_index_output * W).

(** [w_ok m f w]: behind [m] blocks, with [f h] entries written at height [h]; the entry that covers the
    [m] blocks is the next one to write. *)
Context (w_ok : nat -> (nat -> nat) -> W -> Prop)
  (write_spec : forall m f w h out, w_ok m f w -> (h < max)%nat -> (S (f h) * N ^ h = m)%nat -> mo_ok out ->
     let '(out', w') := write h out w in
     mo_ok out' /\ mo_written out' = mo_written out ++ entry h (S (f h)) /\ w_ok m (<[h := S (f h)]> f) w').
#[local] Abbreviation level := (level_bytes N entry).
#[local] Abbreviation entry_end := (entry_end entry).

(** The stream [i] of [ls] holds [k] entries. *)
Definition level_holds (ls : list memory_index_output) (i k : nat) : Prop :=
  exists stream, ls !! i = Some stream /\ mo_ok stream /\ mo_written stream = level i k.

Definition levels_fit (m : nat) : Prop := forall h, (h < max)%nat -> Z.of_nat (length (level h (entries N m h))) < 2 ^ 64.

(** The entry of a level that ends at [m] is written. *)
Lemma write_level h ls f w m : w_ok m f w -> (h < max)%nat -> level_holds ls h (entries N (m - 1) h) ->
  f h = entries N (m - 1) h -> (m mod N ^ h = 0)%nat -> (0 < m)%nat -> exists stream stream' w',
  ls !! h = Some stream /\ write h stream w = (stream', w') /\ mo_ok stream' /\
  entries N m h = S (entries N (m - 1) h) /\
  mo_file_pointer stream' = entry_end (level h) h (entries N m h) /\
  mo_written stream' = level h (entries N (m - 1) h) ++ entry h (entries N m h) /\
  w_ok m (<[h := entries N m h]> f) w'.
Proof using HN write_spec.
  intros Hw Hh (stream & Hs & Ho & Hwr) Hf Hdiv Hm. unfold entries in *. pose proof (pow_pos N h ltac:(lia)).
  rewrite (div_pred_divide (N ^ h) m) by done. exists stream.
  pose proof (write_spec m f w h stream Hw Hh) as Hspec. rewrite Hf in Hspec.
  specialize (Hspec ltac:(rewrite <-(div_pred_divide (N ^ h) m) by done; pose proof (Nat.div_mod_eq m (N ^ h)); lia) Ho).
  destruct (write h stream w) as [stream' w']. destruct Hspec as (H1 & H2 & H3). rewrite Hwr in H2.
  exists stream', w'. split; [done|]. split; [done|]. split; [done|]. split; [done|]. split; [|split; [done|done]].
  rewrite <-(mo_written_length stream') by done. rewrite H2, length_app. cbn [SkipList.entry_end]. done.
Qed.

Lemma skip_levels_spec n i m count child ls f w : w_ok m f w -> (0 < m)%nat -> (0 < i)%nat -> (i + n = max)%nat ->
  (m = count * N ^ (i - 1))%nat -> child = entry_end (level (i - 1)) (i - 1) count -> levels_fit m ->
  (forall h, (h < i)%nat -> level_holds ls h (entries N m h) /\ f h = entries N m h) ->
  (forall h, (i <= h < max)%nat -> level_holds ls h (entries N (m - 1) h) /\ f h = entries N (m - 1) h) ->
  exists ls' f' w', skip_levels write n i (Z.of_nat count) child (Z.of_nat N) ls w = Some (ls', w') /\ w_ok m f' w' /\
    forall h, (h < max)%nat -> level_holds ls' h (entries N m h) /\ f' h = entries N m h.
Proof using HN write_spec.
  intros Hw Hm. revert i count child ls f w Hw. 
  induction n as [|n IH]; intros i count child ls f w Hw Hi Hmax Hcount Hchild Hfit Hlow Hhigh; cbn [skip_levels].
  { exists ls, f, w. split; [done|]. split; [done|]. intros h Hh. apply Hlow. lia. }
  pose proof (pow_pos N (i - 1) ltac:(lia)) as Hp. assert (N ^ i = N * N ^ (i - 1))%nat as Epow.
  { destruct i as [|i]; [lia|]. rewrite Nat.sub_1_r. done. }
  destruct (Z.eqb_spec (Z.of_nat count mod Z.of_nat N) 0) as [Hz|Hz].
  - assert (count mod N = 0)%nat as Hz' by (apply Nat2Z.inj; by rewrite Nat2Z.inj_mod). clear Hz. apply Nat.Lcm0.mod_divide in Hz' as [q ->].
    assert (m mod N ^ i = 0)%nat as Hdiv.
    { apply Nat.Lcm0.mod_divide. exists q. rewrite Hcount, Epow. lia. }
    destruct (Hhigh i ltac:(lia)) as [Hl Hf].
    destruct (write_level i ls f w m Hw ltac:(lia) Hl Hf Hdiv Hm) as (stream & stream' & w' & -> & Ewr & Ho & Ecnt & Hptr & Hwr & Hw').
    cbn [mbind option_bind]. rewrite Ewr. assert (entries N m i = q) as Eq.
    { unfold entries. rewrite Hcount, Epow, <-Nat.mul_assoc. apply Nat.div_mul. nia. }
    assert (Z.of_nat (q * N) / Z.of_nat N = Z.of_nat q) as -> by (rewrite Nat2Z.inj_mul, Z.div_mul by lia; done).
    pose proof (entry_end_le N entry (i - 1) (q * N)) as Hbound.
    assert (entries N m (i - 1) = q * N)%nat as Eprev by (unfold entries; rewrite Hcount; apply Nat.div_mul; lia).
    pose proof (Hfit (i - 1)%nat ltac:(lia)) as Hfi. rewrite Eprev in Hfi.
    destruct (mo_write_vlong_spec child stream' Ho) as [Ho2 Hwr2].
    { subst child. unfold is_word. split; [|lia]. destruct (q * N)%nat; cbn; lia. }
    eapply (IH (S i) q _ _ (<[i := entries N m i]> f) w'); [done|lia|lia| | |done| |].
    + rewrite Hcount, Nat.sub_succ, Nat.sub_0_r, Epow. lia.
    + rewrite Hptr, Eq, Nat.sub_succ, Nat.sub_0_r. done.
    + intros h Hh. destruct (decide (h = i)) as [->|Hne].
      * split; [|by rewrite fn_lookup_insert]. eexists. split; [apply list_lookup_insert_eq; destruct Hl as (? & Hl & _); by eapply lookup_lt_Some|].
        split; [done|]. rewrite Hwr2, Hwr, Ecnt, level_bytes_S, <-app_assoc. do 2 f_equal.
        subst child. unfold child_bytes, child_ptr. destruct i as [|i]; [lia|]. rewrite <-Ecnt, Eq, Nat.sub_succ, Nat.sub_0_r. done.
      * rewrite fn_lookup_insert_ne by done. unfold level_holds. rewrite list_lookup_insert_ne by done. apply Hlow. lia.
    + intros h Hh. rewrite fn_lookup_insert_ne by lia. unfold level_holds. rewrite list_lookup_insert_ne by lia. apply Hhigh. lia.
  - exists ls, f, w. split; [done|]. split; [done|]. intros h Hh. destruct (decide (h < i)%nat) as [|Hge]; [by apply Hlow|].
    assert (entries N m h = entries N (m - 1) h) as ->; [|apply Hhigh; lia].
    apply div_pred_not_divide; [apply pow_pos; lia|]. apply (mod_pow_mono N i); [lia|lia|].
    intros E. apply Hz. apply Nat.Lcm0.mod_divide in E as [q E]. rewrite Epow in E. 
    assert (count = q * N)%nat as -> by nia. rewrite Nat2Z.inj_mul. apply Z.mod_mul. lia.
Qed.

Context (B : nat) (HB : (0 < B)%nat).

(** The writer behind [m] blocks, with all the entries of them *)
Definition skip_holds (m : nat) (s : SkipWriter) : Prop :=
  skip_0_ s = Z.of_nat B /\ skip_n_ s = Z.of_nat N /\ max_levels_ s = max /\ forall h, (h < max)%nat -> level_holds (levels_ s) h (entries N m h).

(** A skip behind [m] blocks *)
Lemma SkipWriter_Skip_spec m f s w : (0 < m)%nat -> (0 < max)%nat -> skip_holds (m - 1) s -> levels_fit m -> w_ok m f w ->
  (forall h, (h < max)%nat -> f h = entries N (m - 1) h) ->
  exists f' s' w', SkipWriter_Skip write (Z.of_nat (m * B)) s w = Some (s', w') /\ skip_holds m s' /\ w_ok m f' w' /\
    forall h, (h < max)%nat -> f' h = entries N m h.
Proof using HB HN write_spec.
  intros Hm Hmax (Es0 & Esn & Emax & Hh) Hfit Hw Hf. unfold SkipWriter_Skip. rewrite Es0, Esn, Emax.
  rewrite Nat2Z.inj_mul, Z.mod_mul by lia. cbv iota. rewrite Z.eqb_refl, Z.div_mul by lia.
  assert (forall k, entries N k 0 = k) as E0 by (intros k; unfold entries; cbn; apply Nat.div_1_r).
  destruct (write_level 0 (levels_ s) f w m Hw Hmax (Hh _ Hmax) (Hf _ Hmax) (Nat.mod_1_r m) Hm)
    as (stream & stream' & w' & Hl & Ewr & Ho & Ecnt & Hptr & Hwr & Hw').
  rewrite Hl. cbn [mbind option_bind]. rewrite Ewr.
  edestruct (skip_levels_spec (max - 1) 1 m m (mo_file_pointer stream') (<[0%nat := stream']> (levels_ s)) (<[0%nat := entries N m 0]> f) w')
    as (ls' & f' & w2 & -> & Hw2 & Hall); [done|done|lia|lia|cbn; lia|by rewrite Hptr, E0|done| | |].
  - intros h Hlt. replace h with 0%nat by lia. split; [|by rewrite fn_lookup_insert]. exists stream'.
    split; [apply list_lookup_insert_eq; by eapply lookup_lt_Some|]. split; [done|]. rewrite Hwr, Ecnt, level_bytes_S. by rewrite app_nil_r.
  - intros h Hlt. rewrite fn_lookup_insert_ne by lia. unfold level_holds. rewrite list_lookup_insert_ne by lia.
    split; [apply Hh; lia|apply Hf; lia].
  - cbn [mbind option_bind]. exists f', (set_levels ls' s), w2. split; [done|]. split; [|split; [done|]; intros h Hlt; by apply Hall].
    split; [done|]. split; [done|]. split; [done|]. intros h Hlt. by apply Hall.
Qed.

(** *** Counting and flushing *)

Context (entry_nonempty : forall h k, entry h k <> []).

Lemma level_nonempty h k : (0 < k)%nat -> (0 < length (level h k))%nat.
Proof using entry_nonempty.
  clear HB HN. intros Hk. destruct k as [|k]; [lia|]. rewrite level_bytes_S, !length_app.
  pose proof (entry_nonempty h (S k)). destruct (entry h (S k)); [done|cbn; lia].
Qed.

Lemma count_levels_spec m n ls : (forall h, (h < n)%nat -> level_holds ls h (entries N m h)) -> exists L,
  count_levels n ls = Some L /\ (L <= n)%nat /\ (forall h, (h < L)%nat -> (0 < entries N m h)%nat) /\
  (forall h, (L <= h < n)%nat -> entries N m h = 0%nat).
Proof using entry_nonempty HN.
  clear HB. induction n as [|n IH]; intros Hh; cbn [count_levels]; [exists 0%nat; repeat split; lia|].
  destruct (Hh n ltac:(lia)) as (stream & -> & Ho & Hw). cbn [mbind option_bind].
  pose proof (mo_written_length stream Ho) as Hl. rewrite Hw in Hl.
  destruct (decide (entries N m n = 0)%nat) as [E|Hne].
  - rewrite E in Hl. cbn in Hl. destruct (level_bytes N entry n 0) eqn:El; [|by destruct n]. cbn in Hl. rewrite <-Hl. cbn [Z.eqb].
    destruct IH as (L & -> & H1 & H2 & H3); [intros h Hlt; apply Hh; lia|]. exists L. split; [done|]. split; [lia|]. split; [done|].
    intros h Hlt. destruct (decide (h = n)) as [->|]; [done|apply H3; lia].
  - pose proof (level_nonempty n (entries N m n) ltac:(lia)). destruct (Z.eqb_spec (mo_file_pointer stream) 0); [lia|].
    exists (S n). split; [done|]. split; [done|]. split; [|lia]. intros h Hlt. unfold entries in *.
    pose proof (Nat.div_le_compat_l m (N ^ h) (N ^ n)) as Hle. pose proof (pow_pos N h ltac:(lia)).
    pose proof (Nat.pow_le_mono_r N h n ltac:(lia) ltac:(lia)). lia.
Qed.

Lemma level_holds_insert ls i h k stream : level_holds ls h k -> (h < i)%nat -> level_holds (<[i := stream]> ls) h k.
Proof using Type. clear HB HN. intros Hh Hlt. unfold level_holds. by rewrite list_lookup_insert_ne by lia. Qed.

Lemma flush_levels_spec {Out} `{DataOutputSpec Out} m n ls (out : Out) : (n <= max)%nat -> levels_fit m ->
  (forall h, (h < n)%nat -> level_holds ls h (entries N m h)) -> out_ok out -> exists ls' out',
  flush_levels n ls out = Some (ls', out') /\ out_ok out' /\ written out' = written out ++ levels_bytes N entry m n /\
  forall h k, level_holds ls h k -> level_holds ls' h k.
Proof using Type.
  clear HB HN. revert ls out. induction n as [|n IH]; intros ls out Hn Hfit Hh Ho; cbn [flush_levels levels_bytes].
  { exists ls, out. rewrite app_nil_r. auto. }
  destruct (Hh n ltac:(lia)) as (stream & Es & Hs & Hw). rewrite Es. cbn [mbind option_bind].
  destruct (mo_flush_ok stream Hs) as [Hs' Hw']. destruct (flushed_file stream Hs) as (Hf & Hc & _).
  rewrite <-(mo_written_length (mo_flush stream)) by done. rewrite Hw', Hw.
  destruct (writes_vlong (Z.of_nat (length (level n (entries N m n)))) ltac:(specialize (Hfit n ltac:(lia)); unfold is_word; lia) out Ho) as [Ho1 E1].
  destruct (copy_to_spec _ _ Hf Ho1) as [Ho2 E2].
  destruct (IH (<[n := mo_flush stream]> ls) _ ltac:(lia) Hfit (fun h Hlt => level_holds_insert _ _ _ _ _ (Hh h ltac:(lia)) Hlt) Ho2)
    as (ls' & out' & -> & Ho' & E' & Hkeep).
  exists ls', out'. split; [done|]. split; [done|]. split; [by rewrite E', E2, E1, Hc, Hw, <-!app_assoc|].
  intros h k Hk. apply Hkeep. destruct (decide (h = n)) as [->|Hne].
  - destruct Hk as (stream2 & Es2 & Ho3 & Hw3). exists (mo_flush stream). split; [apply list_lookup_insert_eq; by eapply lookup_lt_Some|].
    split; [done|]. rewrite Hw'. congruence.
  - destruct Hk as (stream2 & Es2 & Ho3 & Hw3). exists stream2. by rewrite list_lookup_insert_ne by done.
Qed.

(** What [Flush] writes *)
Lemma SkipWriter_Flush_spec {Out} `{DataOutputSpec Out} m s (out : Out) : skip_holds m s -> (0 < m)%nat -> (0 < max)%nat ->
  Z.of_nat max < 2 ^ 32 -> levels_fit m -> out_ok out ->
  exists L s' out', CountLevels s = Some L /\ FlushLevels L s out = Some (s', out') /\ (0 < L <= max)%nat /\
    (forall h, (h < L)%nat -> (0 < entries N m h)%nat) /\
    out_ok out' /\ written out' = written out ++ skip_list_bytes N entry m L /\ skip_holds m s'.
Proof using entry_nonempty HN.
  clear HB. intros (E0 & En & Emax & Hh) Hm Hmax Hmax32 Hfit Ho. unfold CountLevels. rewrite Emax.
  destruct (count_levels_spec m max (levels_ s) Hh) as (L & EL & HL & Hpos & Hzero). exists L.
  assert (0 < L)%nat as HL0.
  { destruct (decide (L = 0)%nat) as [->|]; [|lia]. specialize (Hzero 0%nat ltac:(lia)). unfold entries in Hzero.
    change (N ^ 0)%nat with 1%nat in Hzero. rewrite Nat.div_1_r in Hzero. lia. }
  destruct (writes_vint (Z.of_nat L) ltac:(unfold is_word; lia) out Ho) as [Ho1 E1].
  destruct (flush_levels_spec m L (levels_ s) _ HL Hfit (fun h Hlt => Hh h ltac:(lia)) Ho1) as (ls' & out' & Eq & Ho' & E' & Hkeep).
  exists (set_levels ls' s), out'. split; [done|]. split; [unfold FlushLevels; by rewrite Eq|]. split; [lia|].
  split; [done|]. split; [done|]. split; [unfold skip_list_bytes; by rewrite E', E1, <-app_assoc|].
  split; [done|]. split; [done|]. split; [done|]. intros h Hlt. by apply Hkeep, Hh.
Qed.

(** *** The levels before the first document *)

(** [max] levels, with files in order *)
Definition skip_prepared (s : SkipWriter) : Prop :=
  skip_0_ s = Z.of_nat B /\ skip_n_ s = Z.of_nat N /\ max_levels_ s = max /\
  forall h, (h < max)%nat -> exists stream, levels_ s !! h = Some stream /\ file_ok (mo_file stream).

Lemma skip_holds_prepared m s : skip_holds m s -> skip_prepared s.
Proof using Type.
  clear HB HN. intros (E0 & En & Em & Hh). split; [done|]. split; [done|]. split; [done|]. intros h Hlt.
  destruct (Hh h Hlt) as (stream & Es & [Hf _] & _). by exists stream.
Qed.

Lemma skip_holds_reset s : skip_prepared s -> skip_holds 0 (SkipWriter_Reset s).
Proof using HN.
  clear HB. intros (E0 & En & Em & Hl). split; [done|]. split; [done|]. split; [done|]. intros h Hlt.
  destruct (Hl h Hlt) as (stream & Hs & Hf). exists (out_reset stream).
  split; [cbn; by rewrite list_lookup_fmap, Hs|]. destruct (out_make_ok (mo_file stream) Hf) as [H1 H2].
  split; [exact H1|]. unfold entries. rewrite Nat.Div0.div_0_l.
  replace (level h 0) with (@nil Z) by by destruct h. exact H2.
Qed.

End writer.

(** [Prepare] makes room for the levels of [count] documents, the first level included. *)
Lemma CountMaxLevels_spec skip_0 skip_n count : 0 < skip_0 -> 2 <= skip_n -> 0 <= count < 2 ^ 64 ->
  exists n, CountMaxLevels skip_0 skip_n count = Some n /\ 0 <= n /\ (skip_0 < count -> 0 < n).
Proof.
  intros H0 Hn Hc. unfold CountMaxLevels. destruct (Z.ltb_spec skip_0 count) as [Hlt|Hge]; [|exists 0; split; [done|lia]].
  assert (0 < count / skip_0 < 2 ^ 64) as Hq.
  { split; [apply Z.div_str_pos; lia|]. apply Z.div_lt_upper_bound; nia. }
  unfold Math.log. destruct (Math.log_loop_spec skip_n 64 (count / skip_0) 0) as (k & -> & Hk & _); [done|lia| |lia|lia|].
  - apply Z.lt_le_trans with (2 ^ (Z.of_nat 64 + 1)); [cbn; lia|]. by apply Z.pow_le_mono_l.
  - exists (1 + (0 + k)). split; [done|]. lia.
Qed.

Lemma SkipWriter_Prepare_spec alloc B N max_levels count s : (0 < B)%nat -> (1 < N)%nat -> 0 <= count < 2 ^ 64 -> 0 < max_levels < 2 ^ 32 ->
  skip_0_ s = Z.of_nat B -> skip_n_ s = Z.of_nat N -> Forall (fun stream => file_ok (mo_file stream)) (levels_ s) ->
  exists s' max, SkipWriter_Prepare alloc max_levels count s = Some s' /\ skip_prepared N max B s' /\
    Z.of_nat max <= max_levels /\ (Z.of_nat B < count -> (0 < max)%nat).
Proof.
  intros HB HN Hc Hm E0 En Hf. unfold SkipWriter_Prepare. rewrite E0, En.
  destruct (CountMaxLevels_spec (Z.of_nat B) (Z.of_nat N) count) as (n & -> & Hn0 & Hn); [lia|lia|lia|]. cbn [mbind option_bind].
  eexists _, (Z.to_nat (Z.min max_levels n)). split; [done|]. split; [|lia].
  split; [done|]. split; [done|]. split; [done|]. cbn [levels_]. intros h Hh.
  destruct (lookup_lt_is_Some_2 (map memory_output_reset (levels_ s) ++
    replicate (Z.to_nat (Z.min max_levels n) - length (map memory_output_reset (levels_ s))) (memory_output_make alloc)) h) as [stream Hs].
  { rewrite length_app, length_map, length_replicate. lia. }
  exists stream. split; [done|]. apply list_elem_of_lookup_2, elem_of_app in Hs as [Hs|Hs].
  - apply list_elem_of_fmap in Hs as (s0 & -> & Hs0). rewrite Forall_forall in Hf. exact (Hf s0 Hs0).
  - apply elem_of_replicate_inv in Hs as ->. intros i b Hb. discriminate Hb.
Qed.
