(* ===== verification/SkipListSeek.v ===== *)
(** * Searching in skip lists

    [Prepare] and [Seek] of [SkipReader] on the layout that [SkipWriter] produces. At height [h] (counted from the
    bottom) a level of the reader holds a number of entries [K h] that it has read, one more than there are when
    it is exhausted ([level_at]); the levels of a reader form a chain, none ahead of the one above it. A search
    moves the levels that are less than its target to the first entry that is not. *)
From stdpp Require Import functions.
From S2P Require Import Prelude BitUtils BytesIO Streams FileStreams MemoryFile StoreUtils Outcome Coding SkipList.

Section seek.
Context {I : Type} {DI : DataInput I} {DS : DataInputSpec I} {II : IndexInput I} {IS : IndexInputSpec I} {FI : FileInput I} {FS : FileInputSpec I}
  (f : list Z).

(** The list: [n] documents in blocks of [B], with [m] entries in [L] levels. *)
Context (B N n L : nat) (entry : nat -> nat -> list Z).
Definition blocks : nat := (n - 1) / B.
#[local] Abbreviation m := blocks.
#[local] Abbreviation level := (level_bytes N entry).
#[local] Abbreviation count := (entries N m).
#[local] Abbreviation child := (child_ptr N entry).

Record skip_list_ok : Prop := {
  skip_B : (0 < B)%nat;
  skip_N : (1 < N)%nat;
  skip_n : (0 < n)%nat /\ Z.of_nat n < 2 ^ 32;
  skip_L : (0 < L)%nat;
  skip_counts h : (h < L)%nat -> (0 < count h)%nat;
  skip_entries h k : entry h k <> [];
  skip_file : Z.of_nat (length f) < 2 ^ 64;
}.

(** Where the levels start in the file *)
Definition begins (begin : nat -> nat) : Prop :=
  forall h, (h < L)%nat -> exists r, drop (begin h) f = level h (count h) ++ r /\ r <> [].

(** A level at height [h] that has read [k] entries *)
Record level_at (begin : nat -> nat) (h k : nat) (l : Level I) : Prop := {
  la_stream : at_ f (begin h + length (level h (k `min` count h)%nat)) (lv_stream l);
  la_begin : lv_begin l = Z.of_nat (begin h);
  la_child : lv_child l = child h (k `min` count h)%nat;
  la_left : lv_left l = Z.of_nat n - Z.of_nat (k * N ^ h * B);
  la_step : lv_step l = Z.of_nat (N ^ h * B);
}.

Definition levels_at (begin : nat -> nat) (K : nat -> nat) (ls : list (Level I)) : Prop :=
  length ls = L /\ forall h, (h < L)%nat -> exists l, ls !! (L - 1 - h)%nat = Some l /\ level_at begin h (K h) l.

(** No level is ahead of the one above it, or beyond its end. *)
Definition chained (K : nat -> nat) : Prop :=
  (forall h, (h < L)%nat -> (K h <= S (count h))%nat) /\ forall h, (S h < L)%nat -> (K h <= K (S h) * N)%nat.

(** ** What the reader must do *)

Section reader.
Context {R : Type} {SR : SkipRead R I} (key : nat -> Z).

(** The entry that covers [e] blocks is less than [t]. *)
Definition less (t : Z) (e : nat) : bool := (e <=? m)%nat && (key e <? t).

(** [reader_ok v K p r]: at height [h] the reader holds the key of entry [K h], and all of the entry from height
    [v] on; [p] is the number of blocks of the entry it left last. *)
Record skip_reader_laws (reader_ok : nat -> (nat -> nat) -> option nat -> R -> Prop) (target_ok : Z -> Prop) : Prop := {
  law_key e e' : (e <= e' <= m)%nat -> key e <= key e';
  law_less v K p r h t : reader_ok v K p r -> (h < L)%nat -> target_ok t -> IsLess (L - 1 - h)%nat t r = less t (K h * N ^ h);
  law_adjust id r : AdjustLevel id r = id;
  law_read v K p r h s q rest : reader_ok v K p r -> (v <= h < L)%nat -> (K h < count h)%nat ->
    at_ f q s -> drop q f = entry h (S (K h)) ++ rest -> exists s' r',
    Read (L - 1 - h)%nat s r = Some (s', r') /\ at_ f (q + length (entry h (S (K h)))) s' /\
    reader_ok v (<[h := S (K h)]> K) (Some (K h * N ^ h)%nat) r';
  law_seal v K p r h : reader_ok v K p r -> (v <= h < L)%nat -> K h = count h ->
    reader_ok v (<[h := S (K h)]> K) (Some (K h * N ^ h)%nat) (Seal (L - 1 - h)%nat r);
  law_move v K k r h : reader_ok v K (Some (k * N ^ h)%nat) r -> (v <= S h)%nat -> (h < L)%nat -> (k * N ^ h <= m)%nat ->
    reader_ok (v `min` h)%nat (<[h := k]> K) (Some (k * N ^ h)%nat) (MoveDown (L - 1 - h)%nat r);
}.
End reader.

(** ** Arithmetic of the levels *)

Section facts.
Context (Hok : skip_list_ok).
#[local] Arguments Nat.pow : simpl never.

Lemma step_pos h : (0 < N ^ h)%nat.
Proof. apply pow_pos. destruct Hok. lia. Qed.

(** Entry [k] of a level exists when it covers blocks that are there. *)
Lemma entry_exists h k : (k * N ^ h <= m)%nat <-> (k <= count h)%nat.
Proof.
  pose proof (step_pos h). unfold entries. split; intros Hk.
  - apply Nat.div_le_lower_bound; lia.
  - pose proof (Nat.Div0.mul_div_le m (N ^ h)). nia.
Qed.

Lemma left_pos h k : (0 < Z.of_nat n - Z.of_nat (k * N ^ h * B)) <-> (k <= count h)%nat.
Proof.
  rewrite <-entry_exists. destruct Hok as [HB _ [Hn _] _ _ _ _]. unfold blocks. split; intros Hk.
  - apply Nat.div_le_lower_bound; lia.
  - pose proof (Nat.Div0.mul_div_le (n - 1) B). nia.
Qed.

Lemma step_up h k : (k * N ^ S h = k * N * N ^ h)%nat.
Proof. rewrite Nat.pow_succ_r'. lia. Qed.

Lemma begin_seek begin h k : begins begin -> (h < L)%nat -> (k <= count h)%nat ->
  (begin h + length (level h k) < length f)%nat.
Proof.
  intros Hb Hh Hk. destruct (Hb h Hh) as (r & E & Hr). pose proof (level_bytes_mono N entry h k (count h) Hk).
  apply (f_equal length) in E. rewrite length_drop, length_app in E. destruct r; [done|cbn in E]. lia.
Qed.

(** The bytes behind [k] entries *)
Lemma drop_level begin h k : begins begin -> (h < L)%nat -> (k < count h)%nat -> exists r,
  drop (begin h + length (level h k)) f = (entry h (S k) ++ child_bytes N entry h (S k)) ++ r /\ r <> [].
Proof.
  intros Hb Hh Hk. destruct (Hb h Hh) as (r & E & Hr).
  assert (exists t, level h (count h) = level h (S k) ++ t) as (t & Et).
  { clear -Hk. induction (count h) as [|c IH]; [lia|]. destruct (decide (k = c)) as [->|]; [exists []; by rewrite app_nil_r|].
    destruct IH as (t & Et); [lia|]. eexists. by rewrite level_bytes_S, Et, <-app_assoc. }
  exists (t ++ r). rewrite <-drop_drop, E, Et, level_bytes_S, <-!app_assoc, drop_app_length. split; [done|]. by destruct t.
Qed.

Lemma child_word begin h k : begins begin -> (S h < L)%nat -> (k <= count (S h))%nat ->
  0 <= child (S h) k < 2 ^ 64 - 1 /\ (k * N <= count h)%nat.
Proof.
  intros Hb Hh Hk. assert (k * N <= count h)%nat as Hkn.
  { apply entry_exists. rewrite <-step_up. by apply entry_exists. }
  split; [|done]. cbn [child_ptr]. pose proof (entry_end_le N entry h (k * N)). pose proof (begin_seek begin h (k * N) Hb ltac:(lia) Hkn).
  destruct Hok as [_ _ _ _ _ _ Hf]. split; [destruct (k * N)%nat; cbn; lia|]. lia.
Qed.

End facts.

(** ** Moving through the levels *)

Section search.
Context (Hok : skip_list_ok) (begin : nat -> nat) (Hbegin : begins begin).
Context {R : Type} {SR : SkipRead R I} (key : nat -> Z) (reader_ok : nat -> (nat -> nat) -> option nat -> R -> Prop) (target_ok : Z -> Prop)
  (laws : skip_reader_laws key reader_ok target_ok).
#[local] Arguments Nat.pow : simpl never.

Lemma child_leaf h k : (h < L)%nat -> (k <= count h)%nat -> child h k = kUndefined <-> h = 0%nat.
Proof using Hok Hbegin.
  intros Hh Hk. destruct h as [|h]; [done|]. destruct (child_word Hok begin h k Hbegin Hh Hk). split; [|done]. unfold kUndefined. intros. lia.
Qed.

(** The pointer behind an entry is read. *)
Lemma read_child h k s c : (h < L)%nat -> (k < count h)%nat -> (c = kUndefined <-> h = 0%nat) ->
  at_ f (begin h + length (level h k) + length (entry h (S k))) s -> exists s',
  (if c =? kUndefined then Some (c, s) else read_vlong s) = Some (if c =? kUndefined then c else child h (S k), s') /\
  at_ f (begin h + length (level h (S k))) s'.
Proof using Hok Hbegin.
  intros Hh Hk Hc Hs. destruct (drop_level begin h k Hbegin Hh Hk) as (r & E & Hr). rewrite level_bytes_S, !length_app.
  destruct (Z.eqb_spec c kUndefined) as [Ec|Ec].
  - exists s. split; [done|]. destruct h as [|h]; [|by apply Hc in Ec]. cbn [child_bytes length]. rewrite Nat.add_0_r, Nat.add_assoc. done.
  - destruct h as [|h]; [by destruct Ec; apply Hc|]. destruct (child_word Hok begin h (S k) Hbegin Hh Hk) as [Hw _].
    destruct (reads_vlong f (child (S h) (S k)) ltac:(unfold is_word; lia) _ s r Hs) as (s' & -> & Hs').
    { rewrite <-drop_drop, E, <-!app_assoc. by rewrite drop_app_length. }
    exists s'. split; [done|]. by rewrite !Nat.add_assoc.
Qed.

(** A level follows the pointer of entry [k] of the level above it. *)
Lemma SeekToChild_spec h k j l prev : (S h < L)%nat -> (k <= count (S h))%nat -> (j <= k * N)%nat -> level_at begin h j l ->
  lv_left prev = Z.of_nat n - Z.of_nat (S k * N ^ S h * B) -> lv_step prev = Z.of_nat (N ^ S h * B) ->
  exists l', SeekToChild l (child (S h) k) prev = Some l' /\ level_at begin h (k * N) l'.
Proof using Hok Hbegin.
  intros Hh Hk Hj [Hs Hb Hc Hl Hst] Hpl Hps. unfold SeekToChild. rewrite Hb.
  destruct (child_word Hok begin h k Hbegin Hh Hk) as [Hw Hkn]. pose proof Hs as (_ & _ & Hfp & _). rewrite Hfp.
  rewrite (Nat.min_l j) in * by lia. cbn [child_ptr] in *.
  destruct (decide (j = k * N)%nat) as [->|Hne].
  - pose proof (entry_end_le N entry h (k * N)). destruct (Z.ltb_spec (Z.of_nat (begin h + length (level h (k * N))))
      (Z.of_nat (begin h) + entry_end entry (level h) h (k * N))); [lia|]. exists l. split; [done|].
    split; rewrite ?(Nat.min_l (k * N)) by lia; done.
  - destruct (k * N)%nat as [|e] eqn:Ek; [lia|]. rewrite entry_end_S in *.
    pose proof (level_bytes_mono N entry h j e ltac:(lia)). pose proof (skip_entries Hok h (S e)) as Hne'.
    assert (0 < length (entry h (S e)))%nat by (destruct (entry h (S e)); [done|cbn; lia]).
    destruct (Z.ltb_spec (Z.of_nat (begin h + length (level h j))) (Z.of_nat (begin h) + Z.of_nat (length (level h e) + length (entry h (S e)))));
      [|lia].
    replace (Z.to_nat _) with (begin h + length (level h e) + length (entry h (S e)))%nat by lia.
    pose proof (begin_seek begin h (S e) Hbegin ltac:(lia) Hkn) as Hlt. rewrite level_bytes_S, !length_app in Hlt.
    pose proof (seek_at f _ (begin h + length (level h e) + length (entry h (S e))) _ Hs ltac:(lia)) as Hs1.
    set (s1 := seek _ _) in *. assert (lv_child l = kUndefined <-> h = 0%nat) as Hleaf by (rewrite Hc; apply child_leaf; lia).
    destruct (read_child h e s1 (lv_child l) ltac:(lia) Hkn Hleaf Hs1) as (s2 & E & Hs2).
    assert (Z.of_nat n - Z.of_nat (S e * N ^ h * B) = lv_left prev + lv_step prev) as Hleft.
    { rewrite Hpl, Hps, <-Ek, <-step_up. nia. }
    destruct (lv_child l =? kUndefined) eqn:Eu.
    + injection E as <-. eexists. split; [done|].
      split; cbn [lv_stream lv_begin lv_child lv_left lv_step]; rewrite ?(Nat.min_l (S e)) by lia; try done.
      apply Z.eqb_eq in Eu. rewrite Eu. symmetry. apply child_leaf; [lia|lia|]. by apply Hleaf.
    + rewrite E. cbn [mbind option_bind]. eexists. split; [done|].
      split; cbn [lv_stream lv_begin lv_child lv_left lv_step]; rewrite ?(Nat.min_l (S e)) by lia; done.
Qed.

(** *** The state of a search *)

Record reader_at (v : nat) (K : nat -> nat) (p : option nat) (s : SkipReader R I) : Prop := {
  ra_levels : levels_at begin K (rd_levels s);
  ra_chain : chained K;
  ra_reader : reader_ok v K p (rd_reader s);
}.

(** Between searches: after the first one the reader holds all of its entries; before it those of the top. *)
Definition at_rest (K : nat -> nat) (s : SkipReader R I) : Prop :=
  (exists p, reader_at 0 K p s) \/ (exists p, reader_at (L - 1) K p s) /\ forall h, (h < L)%nat -> K h = 0%nat.

Lemma less_mono t e e' : (e <= e')%nat -> less key t e' = true -> less key t e = true.
Proof using laws.
  unfold less. rewrite !andb_true_iff, !Nat.leb_le, !Z.ltb_lt. intros Hle [H1 H2].
  pose proof (law_key _ _ _ laws e e' ltac:(lia)). split; lia.
Qed.

Lemma less_lt t e e' : less key t e = true -> less key t e' = false -> (e < e')%nat.
Proof using laws.
  intros H1 H2. destruct (decide (e < e')%nat) as [|Hge]; [done|]. rewrite (less_mono t e' e) in H2; [done|lia|done].
Qed.

Lemma levels_insert K ls h k l : levels_at begin K ls -> (h < L)%nat -> level_at begin h k l ->
  levels_at begin (<[h := k]> K) (<[(L - 1 - h)%nat := l]> ls).
Proof using Type.
  intros [Hlen Hl] Hh Hk. split; [by rewrite length_insert|]. intros h' Hh'. destruct (decide (h' = h)) as [->|Hne].
  - exists l. split; [apply list_lookup_insert_eq; lia|]. by rewrite fn_lookup_insert.
  - rewrite fn_lookup_insert_ne by done. rewrite list_lookup_insert_ne by lia. by apply Hl.
Qed.

(** Down to the level below, when level [S h] has left entry [k] behind. *)
Lemma descend_spec v K h k l s : (S h < L)%nat -> (v <= S h)%nat -> (k <= count (S h))%nat -> (K h <= k * N)%nat ->
  levels_at begin K (rd_levels s) -> reader_ok v K (Some (k * N ^ S h)%nat) (rd_reader s) ->
  lv_left l = Z.of_nat n - Z.of_nat (S k * N ^ S h * B) -> lv_step l = Z.of_nat (N ^ S h * B) -> exists s',
  descend (L - 1 - S h) (child (S h) k) l s = Some ((L - 1 - h)%nat, s') /\
  levels_at begin (<[h := k * N]> K)%nat (rd_levels s') /\ reader_ok (v `min` h)%nat (<[h := k * N]> K)%nat (Some (k * N ^ S h)%nat) (rd_reader s').
Proof using Hok Hbegin laws.
  intros Hh Hv Hk Hj Hls Hr Hl Hst. unfold descend. destruct (child_word Hok begin h k Hbegin Hh Hk) as [Hw Hkn].
  destruct (Z.eqb_spec (child (S h) k) kUndefined) as [E|_]; [unfold kUndefined in E; lia|].
  replace (S (L - 1 - S h)) with (L - 1 - h)%nat by lia. destruct (proj2 Hls h ltac:(lia)) as (next & -> & Hnext). cbn [mbind option_bind].
  destruct (SeekToChild_spec h k (K h) next l Hh Hk Hj Hnext Hl Hst) as (next' & -> & Hnext'). cbn [mbind option_bind].
  eexists. split; [done|]. cbn [rd_levels rd_reader set_reader set_level]. split; [by apply levels_insert; [|lia|]|].
  rewrite step_up in Hr |- *. apply (law_move _ _ _ laws); [done|done|lia|]. by apply entry_exists.
Qed.

(** The levels from [h] on are still to be searched. *)
Record searching (t : Z) (v : nat) (K : nat -> nat) (p : option nat) (h : nat) (s : SkipReader R I) : Prop := {
  se_at : reader_at v K p s;
  se_level : (v <= h < L)%nat;
  se_less : less key t (K h * N ^ h) = true;
  se_above h' : (h < h' < L)%nat -> less key t (K h' * N ^ h') = false;
}.

(** Level 0 is at the first entry that is not less than the target, which is the one behind [k] blocks. *)
Definition found (t : Z) (s : SkipReader R I) : Prop := exists K k, reader_at 0 K (Some k) s /\ K 0%nat = S k /\
  less key t k = true /\ less key t (S k) = false.

(** The chain when level [h] moves to its next entry *)
Lemma chained_step K h : chained K -> (h < L)%nat -> (K h <= count h)%nat -> ((S h < L)%nat -> (K h < K (S h) * N)%nat) ->
  chained (<[h := S (K h)]> K).
Proof using Hok.
  intros [H1 H2] Hh Hk Hup. split; intros h' Hh'.
  - destruct (decide (h' = h)) as [->|Hne]; [rewrite fn_lookup_insert; lia|rewrite fn_lookup_insert_ne by done; by apply H1].
  - destruct (decide (h' = h)) as [->|Hne]; [rewrite fn_lookup_insert, fn_lookup_insert_ne by lia; by apply Hup|].
    rewrite (fn_lookup_insert_ne _ h h') by done. specialize (H2 h' Hh'). destruct (decide (S h' = h)) as [<-|Hne'].
    + rewrite fn_lookup_insert. nia.
    + rewrite fn_lookup_insert_ne by done. done.
Qed.

Lemma chained_down K h k : chained K -> (S h < L)%nat -> K (S h) = S k -> (k <= count (S h))%nat -> (K h <= k * N)%nat ->
  chained (<[h := k * N]> K)%nat.
Proof using Hok.
  intros [H1 H2] Hh Hk Hc Hj. assert (k * N <= count h)%nat as Hkn.
  { apply (entry_exists Hok). rewrite <-(step_up h k). by apply (entry_exists Hok). }
  split; intros h' Hh'.
  - destruct (decide (h' = h)) as [->|Hne]; [rewrite fn_lookup_insert; lia|rewrite fn_lookup_insert_ne by done; by apply H1].
  - destruct (decide (h' = h)) as [->|Hne]; [rewrite fn_lookup_insert, fn_lookup_insert_ne by lia; rewrite Hk; lia|].
    rewrite (fn_lookup_insert_ne _ h h') by done. specialize (H2 h' Hh'). destruct (decide (S h' = h)) as [<-|Hne'].
    + rewrite fn_lookup_insert. pose proof (skip_N Hok). nia.
    + by rewrite fn_lookup_insert_ne by done.
Qed.

Lemma se_exists t v K p h s : searching t v K p h s -> (K h <= count h)%nat.
Proof using Hok.
  intros [_ Hh Hl _]. apply (entry_exists Hok). unfold less in Hl. apply andb_true_iff in Hl as [Hl _]. by apply Nat.leb_le.
Qed.

Lemma se_up t v K p h s : searching t v K p h s -> (S h < L)%nat -> (K h < K (S h) * N)%nat.
Proof using Hok laws.
  intros Hs Hh. pose proof (less_lt t _ _ (se_less _ _ _ _ _ _ Hs) (se_above _ _ _ _ _ _ Hs (S h) ltac:(lia))) as Hlt.
  rewrite step_up in Hlt. pose proof (step_pos Hok h). nia.
Qed.

(** What is known of the ghost measure of a round *)
Definition measure (K : nat -> nat) (h : nat) : Z := Z.of_nat m + 1 - Z.of_nat (K h * N ^ h) + Z.of_nat h.

Definition round_at (t : Z) (c : Z) (st : nat * SkipReader R I) : Prop :=
  (exists v K p h, st.1 = (L - 1 - h)%nat /\ searching t v K p h st.2 /\ c = measure K h) \/
  (st.1 = L /\ found t st.2 /\ c = 0).

(** Level [h] has reached the first entry that is not less: down. *)
Lemma next_level t v K p h s s1 l : searching t v K p h s -> let K1 := <[h := S (K h)]> K in
  levels_at begin K1 (rd_levels s1) -> reader_ok v K1 (Some (K h * N ^ h)%nat) (rd_reader s1) ->
  lv_left l = Z.of_nat n - Z.of_nat (S (K h) * N ^ h * B) -> lv_step l = Z.of_nat (N ^ h * B) ->
  less key t (S (K h) * N ^ h) = false ->
  exists st c, descend (L - 1 - h) (child h (K h)) l s1 = Some st /\ round_at t c st /\ c < measure K h.
Proof using Hok Hbegin laws.
  intros Hs K1 Hls Hr Hl Hst Hnot. pose proof (se_exists _ _ _ _ _ _ Hs) as Hk. pose proof (se_up _ _ _ _ _ _ Hs) as Hup.
  destruct Hs as [[_ Hc _] Hh Hless Habove]. pose proof (chained_step K h Hc (proj2 Hh) Hk Hup) as Hc1. fold K1 in Hc1.
  assert (K h * N ^ h <= m)%nat as Hm by (by apply (entry_exists Hok)). unfold measure. destruct h as [|h].
  - unfold descend. cbn [child_ptr]. rewrite Z.eqb_refl. eexists _, 0. split; [done|]. split; [|lia]. right. cbn [fst snd].
    split; [lia|]. split; [|done]. change (N ^ 0)%nat with 1%nat in *. rewrite !Nat.mul_1_r in *.
    replace v with 0%nat in Hr by lia. exists K1, (K 0%nat). split; [by split|]. split; [unfold K1; by rewrite fn_lookup_insert|done].
  - assert (K1 h <= K (S h) * N)%nat as Hj by (unfold K1; rewrite fn_lookup_insert_ne by lia; apply (proj2 Hc); lia).
    destruct (descend_spec v K1 h (K (S h)) l s1 (proj2 Hh) (proj1 Hh) Hk Hj Hls Hr Hl Hst) as (s2 & E & Hls2 & Hr2). 
    eexists _, (measure (<[h := K (S h) * N]> K1)%nat h). split; [exact E|]. split.
    + left. exists (v `min` h)%nat, (<[h := K (S h) * N]> K1)%nat, (Some (K (S h) * N ^ S h)%nat), h. split; [done|]. split; [|done]. split; [split; [done| |done]|lia| |].
      * apply (chained_down K1 h (K (S h))); [done|lia|unfold K1; by rewrite fn_lookup_insert|done|done].
      * rewrite fn_lookup_insert, <-step_up. done.
      * intros h' Hh'. rewrite fn_lookup_insert_ne by lia. unfold K1. destruct (decide (h' = S h)) as [->|Hne].
        -- by rewrite fn_lookup_insert.
        -- rewrite fn_lookup_insert_ne by done. apply Habove. lia.
    + unfold measure. rewrite fn_lookup_insert, <-step_up. lia.
Qed.

Lemma round_spec t c st : target_ok t -> round_at t c st -> 0 <= c /\ exists r, seek_round t st = Some r /\
  match r with inl st' => exists c', c' < c /\ round_at t c' st' | inr s => found t s end.
Proof using Hok Hbegin laws.
  intros Ht [(v & K & p & h & Eid & Hs & ->)|(Eid & Hf & ->)]; destruct st as [id s]; cbn [fst snd] in *; subst id; unfold seek_round.
  2: { split; [done|]. rewrite decide_True; [by exists (inr s)|]. symmetry. destruct Hf as (K & k & [Hls _ _] & _). apply Hls. }
  pose proof (se_exists _ _ _ _ _ _ Hs) as Hk. pose proof (se_level _ _ _ _ _ _ Hs) as [Hv Hh].
  assert (K h * N ^ h <= m)%nat as Hm by (by apply (entry_exists Hok)). split; [unfold measure; lia|].
  destruct (se_at _ _ _ _ _ _ Hs) as [Hls Hc Hr]. rewrite decide_False by (destruct Hls; lia). rewrite (law_adjust _ _ _ laws).
  destruct (proj2 Hls h Hh) as (l & El & [L1 L2 L3 L4 L5]). rewrite El. cbn [mbind option_bind]. rewrite (Nat.min_l (K h)) in * by lia.
  assert (lv_left l - lv_step l = Z.of_nat n - Z.of_nat (S (K h) * N ^ h * B)) as Eleft by (rewrite L4, L5; nia). rewrite Eleft.
  assert (lv_child l = kUndefined <-> h = 0%nat) as Hleaf by (rewrite L3; by apply child_leaf).
  destruct (Z.ltb_spec 0 (Z.of_nat n - Z.of_nat (S (K h) * N ^ h * B))) as [Hleft|Hleft].
  - apply (left_pos Hok) in Hleft. destruct (drop_level begin h (K h) Hbegin Hh Hleft) as (r & Ed & _).
    rewrite <-app_assoc in Ed.
    destruct (law_read _ _ _ laws v K p (rd_reader s) h (lv_stream l) _ _ Hr (conj Hv Hh) Hleft L1 Ed) as (s1 & r1 & -> & Hs1 & Hr1).
    cbn [mbind option_bind]. destruct (read_child h (K h) s1 (lv_child l) Hh Hleft Hleaf Hs1) as (s2 & -> & Hs2). cbn [mbind option_bind].
    set (l' := mkLevel _ _ _ _ _). set (s' := set_reader r1 _).
    assert (level_at begin h (S (K h)) l') as Hl'.
    { split; cbn [l' lv_stream lv_begin lv_child lv_left lv_step]; rewrite ?(Nat.min_l (S (K h))) by lia; try done.
      destruct (Z.eqb_spec (lv_child l) kUndefined) as [E|E]; [|done]. rewrite E. symmetry. apply child_leaf; [done|done|by apply Hleaf]. }
    assert (levels_at begin (<[h := S (K h)]> K) (rd_levels s')) as Hls' by by apply levels_insert.
    change (rd_reader s') with r1. rewrite (law_less _ _ _ laws v (<[h := S (K h)]> K) _ _ h t Hr1 Hh Ht), fn_lookup_insert.
    destruct (less key t (S (K h) * N ^ h)) eqn:Eless.
    + eexists. split; [done|]. exists (measure (<[h := S (K h)]> K) h).
      split; [unfold measure; rewrite fn_lookup_insert; pose proof (step_pos Hok h); nia|]. left.
      eexists v, _, _, h. split; [done|]. split; [|done]. split; [split; [done| |exact Hr1]|done| |].
      * apply chained_step; [done|done|done|]. by eapply se_up.
      * by rewrite fn_lookup_insert.
      * intros h' Hh'. rewrite fn_lookup_insert_ne by lia. by apply (se_above _ _ _ _ _ _ Hs).
    + destruct (next_level t v K p h s s' l' Hs Hls' Hr1) as (st & c & E & Hst & Hlt); [done|done|done|].
      rewrite <-L3 in E. rewrite E. eexists. split; [done|]. by exists c.
  - assert (~ (S (K h) <= count h)%nat) as Hend by (rewrite <-(left_pos Hok h (S (K h))); lia).
    set (l' := mkLevel _ _ _ _ _). set (s' := set_level _ _ _).
    assert (level_at begin h (S (K h)) l') as Hl'.
    { split; cbn [l' lv_stream lv_begin lv_child lv_left lv_step]; rewrite ?(Nat.min_r (S (K h))) by lia; try done;
        by replace (count h) with (K h) by lia. }
    assert (levels_at begin (<[h := S (K h)]> K) (rd_levels s')) as Hls' by by apply levels_insert.
    destruct (next_level t v K p h s (set_reader (Seal (L - 1 - h) (rd_reader s')) s') l' Hs Hls') as (st & c & E & Hst & Hlt).
    + apply (law_seal _ _ _ laws v K p); [done|done|lia].
    + done.
    + done.
    + unfold less. apply andb_false_iff. left. apply Nat.leb_gt. pose proof (entry_exists Hok h (S (K h))). lia.
    + rewrite <-L3 in E. rewrite E. eexists. split; [done|]. by exists c.
Qed.

Lemma first_less_spec t v K p s j id : reader_ok v K p s -> target_ok t -> (id + j = L)%nat ->
  (forall h, (L - id <= h < L)%nat -> less key t (K h * N ^ h) = false) -> (0 < j)%nat -> less key t (K 0%nat * N ^ 0) = true ->
  exists h, first_less j id t s = (L - 1 - h)%nat /\ (h < L)%nat /\ less key t (K h * N ^ h) = true /\
    forall h', (h < h' < L)%nat -> less key t (K h' * N ^ h') = false.
Proof using laws.
  intros Hr Ht. revert id. induction j as [|j IH]; intros id Hid Habove Hj H0; [lia|]. cbn [first_less].
  pose proof (law_less _ _ _ laws v K p s (L - 1 - id) t Hr ltac:(lia) Ht) as El. replace (L - 1 - (L - 1 - id))%nat with id in El by lia.
  rewrite El. destruct (less key t (K (L - 1 - id)%nat * N ^ (L - 1 - id))) eqn:E.
  - exists (L - 1 - id)%nat. split; [lia|]. split; [lia|]. split; [done|]. intros h' Hh'. apply Habove. lia.
  - destruct (decide (j = 0)%nat) as [->|Hne].
    { replace (L - 1 - id)%nat with 0%nat in E by lia. congruence. }
    apply IH; [lia| |lia|done]. intros h Hh. destruct (decide (h = L - 1 - id)%nat) as [->|]; [done|apply Habove; lia].
Qed.

(** A search: what is left of the list from the block that may hold the target. *)
Lemma SkipReader_Seek_spec t K s : target_ok t -> at_rest K s -> less key t (K 0%nat) = true -> exists s' K' k,
  SkipReader_Seek t s = Some (Z.of_nat (n - k * B), s') /\ reader_at 0 K' (Some k) s' /\ K' 0%nat = S k /\
  less key t k = true /\ less key t (S k) = false /\ (K 0%nat <= k)%nat /\ (k * B < n)%nat.
Proof using Hok Hbegin laws.
  intros Ht Hs Hless. unfold SkipReader_Seek.
  assert (exists v p, reader_at v K p s /\ (v = 0%nat \/ v = (L - 1)%nat /\ forall h, (h < L)%nat -> K h = 0%nat)) as (v & p & [Hls Hc Hr] & Hv).
  { destruct Hs as [(p & Hp)|((p & Hp) & H0)]; [exists 0%nat, p; auto|exists (L - 1)%nat, p; auto]. }
  pose proof (proj1 Hls) as Elen. rewrite Elen.
  destruct (first_less_spec t v K p (rd_reader s) L 0 Hr Ht) as (h & -> & Hh & Hl & Habove);
    [lia|lia|apply (skip_L Hok)|change (N ^ 0)%nat with 1%nat; by rewrite Nat.mul_1_r|].
  assert (searching t v K p h s) as Hst.
  { split; [by split| |done|done]. destruct Hv as [->|[-> H0]]; [lia|]. destruct (decide (h = L - 1)%nat) as [->|]; [lia|].
    specialize (Habove (L - 1)%nat ltac:(lia)). rewrite (H0 h) in Hl by done. rewrite (H0 (L - 1)%nat) in Habove by lia.
    cbn [Nat.mul] in *. congruence. }
  assert (measure K h < 2 ^ Z.of_nat skip_fuel) as Hfuel.
  { pose proof (skip_n Hok) as [_ Hn]. pose proof (skip_counts Hok h Hh) as Hcnt. unfold entries in Hcnt.
    assert (N ^ h <= m)%nat as Hle by (destruct (decide (N ^ h <= m)%nat); [done|]; rewrite Nat.div_small in Hcnt; lia).
    pose proof (Nat.pow_gt_lin_r N h (skip_N Hok)). unfold measure, blocks in *.
    pose proof (Nat.Div0.div_le_upper_bound (n - 1) B (n - 1)) as Hd. pose proof (skip_B Hok). specialize (Hd ltac:(nia)).
    change (2 ^ Z.of_nat skip_fuel) with (2 ^ 32 + 2 ^ 32). lia. }
  destruct (iterate_ghost (round_at t) (found t) (seek_round t) (fun c st => round_spec t c st Ht) skip_fuel (measure K h) ((L - 1 - h)%nat, s))
    as (s' & -> & K' & k & Hs' & Hk & Hl1 & Hl2); [left; exists v, K, p, h; done|done|].
  cbn [mbind option_bind]. destruct Hs' as [Hls' Hc' Hr']. destruct (proj2 Hls' 0%nat (skip_L Hok)) as (l0 & El0 & [_ _ _ Eleft Estep]).
  rewrite Nat.sub_0_r, <-(proj1 Hls') in El0.
  rewrite last_lookup, <-Nat.sub_1_r, El0. cbn [mbind option_bind].
  assert (k <= m)%nat as Hkm by (unfold less in Hl1; apply andb_true_iff in Hl1 as [Hl1 _]; by apply Nat.leb_le).
  assert (k * B < n)%nat as Hkn.
  { pose proof (skip_n Hok) as [Hn _]. unfold blocks in Hkm. pose proof (Nat.Div0.mul_div_le (n - 1) B). nia. }
  change (N ^ 0)%nat with 1%nat in *. rewrite Hk in *. rewrite Eleft, Estep, wrap_small.
  - exists s', K', k. split; [do 2 f_equal; nia|]. split; [by split|]. split; [done|]. split; [done|]. split; [done|]. split; [|done].
    pose proof (less_lt t (K 0%nat) (S k) Hless Hl2). lia.
  - pose proof (skip_n Hok) as [_ Hn]. unfold is_word. nia.
Qed.

End search.

(** ** Opening a list *)

Section prepare.
Context (Hok : skip_list_ok) {R : Type}.
Context (dup : I -> option I) (Hdup : forall s q, at_ f q s -> exists s', dup s = Some s' /\ at_ f q s').
#[local] Arguments Nat.pow : simpl never.

(** A level as [load_level] makes it *)
Definition loaded (b h : nat) (l : Level I) : Prop :=
  at_ f b (lv_stream l) /\ lv_begin l = Z.of_nat b /\ lv_child l = 0 /\ lv_left l = Z.of_nat n /\ lv_step l = Z.of_nat (N ^ h * B).

Lemma load_level_spec q s h r : (h < L)%nat -> at_ f q s -> r <> [] ->
  drop q f = VInt.vwrite64 (Z.of_nat (length (level h (count h)))) ++ level h (count h) ++ r -> exists l b,
  load_level s (Z.of_nat (N ^ h * B)) (Z.of_nat n) = Some (Done (l, Z.of_nat (b + length (level h (count h))))) /\
  loaded b h l /\ drop b f = level h (count h) ++ r /\ (b + length (level h (count h)) < length f)%nat.
Proof using Hok.
  intros Hh Hs Hr E. pose proof (skip_counts Hok h Hh) as Hc. pose proof (skip_file Hok) as Hf.
  assert (0 < length (level h (count h)))%nat as Hpos.
  { destruct (count h) as [|c]; [lia|]. rewrite level_bytes_S, !length_app. pose proof (skip_entries Hok h (S c)).
    destruct (entry h (S c)); [done|cbn; lia]. }
  pose proof (f_equal length E) as El. rewrite length_drop, !length_app in El. assert (0 < length r)%nat by (destruct r; [done|cbn; lia]).
  unfold load_level. destruct (reads_vlong f (Z.of_nat (length (level h (count h)))) ltac:(unfold is_word; lia) _ _ _ Hs E) as (s1 & -> & Hs1).
  rewrite bind_lift. destruct (Z.eqb_spec (Z.of_nat (length (level h (count h)))) 0); [lia|]. rewrite bind_check.
  set (b := (q + length (VInt.vwrite64 _))%nat) in *. pose proof Hs1 as (_ & _ & Hfp & _).
  eexists _, b. split; [unfold done_; rewrite Hfp, <-Nat2Z.inj_add; done|]. split; [done|].
  split; [unfold b; by rewrite <-drop_drop, E, drop_app_length|]. unfold b. lia.
Qed.

Lemma load_levels_spec h q s r : (h < L)%nat -> at_ f q s -> r <> [] -> drop q f = levels_bytes N entry m (S h) ++ r -> exists begin ls q' s',
  load_levels dup h s (Z.of_nat (N ^ h * B)) (Z.of_nat N) (Z.of_nat n) = Some (Done (ls, s')) /\ length ls = h /\
  at_ f q' s' /\ drop q' f = levels_bytes N entry m 1 ++ r /\
  (forall g, (0 < g <= h)%nat -> exists r, drop (begin g) f = level g (count g) ++ r /\ r <> []) /\
  forall g, (0 < g <= h)%nat -> exists l, ls !! (h - g)%nat = Some l /\ loaded (begin g) g l.
Proof using Hok Hdup.
  revert q s. induction h as [|h IH]; intros q s Hh Hs Hr E.
  { exists (fun _ => 0%nat), [], q, s. split; [done|]. split; [done|]. split; [done|]. split; [done|]. split; intros g Hg; lia. }
  cbn [load_levels]. destruct (Hdup s q Hs) as (s1 & -> & Hs1). rewrite bind_lift.
  remember (S h) as h' eqn:Eh. cbn [levels_bytes] in E. rewrite <-!app_assoc in E.
  assert (levels_bytes N entry m h' ++ r <> []) as Hne by (destruct r; [done|]; intros [_ ?]%app_nil; done).
  destruct (load_level_spec q s1 h' _ Hh Hs1 Hne E) as (l & b & -> & Hl & Eb & Hlt). rewrite bind_done.
  pose proof (seek_at f _ _ _ Hs Hlt) as Hs2. rewrite Nat2Z.id.
  assert (Z.of_nat (N ^ h' * B) / Z.of_nat N = Z.of_nat (N ^ h * B)) as ->.
  { subst h'. rewrite Nat.pow_succ_r'. pose proof (skip_N Hok). rewrite <-Nat.mul_assoc, Nat.mul_comm, Nat2Z.inj_mul. apply Z.div_mul. lia. }
  destruct (IH _ _ ltac:(lia) Hs2 Hr) as (begin & ls & q' & s' & -> & Hlen & Hs' & E' & Hb & Hls).
  { subst h'. by rewrite <-drop_drop, Eb, drop_app_length. }
  rewrite bind_done. exists (<[h' := b]> begin), (l :: ls), q', s'. split; [done|]. split; [cbn; lia|]. split; [done|]. split; [done|]. split.
  - intros g Hg. destruct (decide (g = h')) as [->|]; [rewrite fn_lookup_insert; eauto|rewrite fn_lookup_insert_ne by done; apply Hb; lia].
  - intros g Hg. destruct (decide (g = h')) as [->|].
    + rewrite fn_lookup_insert, Nat.sub_diag. by exists l.
    + rewrite fn_lookup_insert_ne by done. replace (h' - g)%nat with (S (h - g)) by lia. apply Hls. lia.
Qed.

(** [Prepare] opens every level before its first entry. *)
Lemma SkipReader_Prepare_spec q in_ r (s : SkipReader R I) : rd_skip_0 s = Z.of_nat B -> rd_skip_n s = Z.of_nat N ->
  Z.of_nat (N ^ (L - 1) * B) < 2 ^ 32 -> Z.of_nat L < 2 ^ 32 -> at_ f q in_ -> r <> [] ->
  drop q f = skip_list_bytes N entry m L ++ r -> exists begin s',
  SkipReader_Prepare dup in_ (Z.of_nat n) s = Some (Done s') /\ begins begin /\ levels_at begin (fun _ => 0%nat) (rd_levels s') /\
  rd_reader s' = rd_reader s /\ rd_docs_count s' = Z.of_nat n /\ chained (fun _ => 0%nat).
Proof using Hok Hdup.
  intros E0 En Hstep HL Hs Hr E. pose proof (skip_L Hok) as HLpos. unfold SkipReader_Prepare, skip_list_bytes in *. rewrite <-app_assoc in E.
  destruct (reads_vint f (Z.of_nat L) ltac:(unfold is_word; lia) _ _ _ Hs E) as (s1 & -> & Hs1). rewrite bind_lift.
  destruct (Z.eqb_spec (Z.of_nat L) 0); [lia|]. replace (Z.to_nat (Z.of_nat L - 1)) with (L - 1)%nat by lia.
  pose proof (step_pos Hok (L - 1)) as Hpos. pose proof (skip_B Hok) as HB.
  unfold pow_u32. rewrite E0, En, <-Nat2Z.inj_pow. destruct (Z.ltb_spec (Z.of_nat (N ^ (L - 1))) (2 ^ 32)); [|nia]. rewrite bind_lift.
  replace (wrap 32 (Z.of_nat B * Z.of_nat (N ^ (L - 1)))) with (Z.of_nat (N ^ (L - 1) * B)) by (rewrite wrap_small; unfold is_word; lia).
  set (q1 := (q + _)%nat) in *. assert (drop q1 f = levels_bytes N entry m (S (L - 1)) ++ r) as E1.
  { unfold q1. rewrite <-drop_drop, E, drop_app_length. by replace (S (L - 1)) with L by lia. }
  destruct (load_levels_spec (L - 1) q1 s1 r ltac:(lia) Hs1 Hr E1) as (begin & ls & q2 & s2 & -> & Hlen & Hs2 & E2 & Hb & Hls). rewrite bind_done.
  cbn [levels_bytes] in E2. rewrite app_nil_r, <-app_assoc in E2. 
  pose proof (load_level_spec q2 s2 0 r HLpos Hs2 Hr E2) as Hload. change (N ^ 0)%nat with 1%nat in Hload. rewrite Nat.mul_1_l in Hload.
  destruct Hload as (l & b & -> & (L1 & L2 & L3 & L4 & L5) & Eb & _). rewrite bind_done.
  exists (<[0%nat := b]> begin). eexists. split; [done|]. split; [|split; [|split; [done|split; [done|]]]].
  - intros h Hh. destruct (decide (h = 0)%nat) as [->|]; [rewrite fn_lookup_insert; eauto|rewrite fn_lookup_insert_ne by done; apply Hb; lia].
  - cbn [rd_levels]. split; [rewrite length_app; cbn; lia|]. intros h Hh.
    assert (forall b h l c, loaded b h l -> (h = 0%nat -> c = kUndefined) -> (h <> 0%nat -> c = 0) ->
      level_at (fun _ => b) h 0 (mkLevel (lv_stream l) (lv_begin l) c (lv_left l) (lv_step l))) as Hat.
    { clear. intros b h l c (L1 & L2 & L3 & L4 & L5) Hc1 Hc2. split; cbn [lv_stream lv_begin lv_child lv_left lv_step Nat.min]; try done.
      - replace (level h 0) with (@nil Z) by by destruct h. cbn [length]. by rewrite Nat.add_0_r.
      - destruct h; [by apply Hc1|by apply Hc2].
      - rewrite L4. cbn. lia. }
    destruct (decide (h = 0)%nat) as [->|Hne].
    + eexists. split; [rewrite lookup_app_r by lia; by replace (L - 1 - 0 - length ls)%nat with 0%nat by lia|].
      destruct (Hat b 0%nat l kUndefined) as [A1 A2 A3 A4 A5]; [by split|done|done|]. split; rewrite ?fn_lookup_insert; done.
    + destruct (Hls h ltac:(lia)) as (l' & El' & Hl'). exists l'. split; [rewrite lookup_app_l by lia; done|].
      pose proof Hl' as (_ & _ & Hc & _). destruct (Hat (begin h) h l' 0 Hl') as [A1 A2 A3 A4 A5]; [done|done|].
      destruct l'. cbn in *. split; rewrite ?fn_lookup_insert_ne by done; cbn; try done. by rewrite Hc.
  - split; intros; lia.
Qed.

(** [Reset] goes back before the first entries. *)
Lemma SkipReader_Reset_spec begin K (s : SkipReader R I) : begins begin -> levels_at begin K (rd_levels s) -> chained K ->
  rd_docs_count s = Z.of_nat n -> levels_at begin (fun _ => 0%nat) (rd_levels (SkipReader_Reset s)).
Proof using Hok.
  intros Hb [Hlen Hl] [Hc _] Hn. split; [cbn; by rewrite length_map|]. intros h Hh. destruct (Hl h Hh) as (l & El & [L1 L2 L3 L4 L5]).
  eexists. split; [cbn; by rewrite list_lookup_fmap, El|]. 
  pose proof (begin_seek begin h 0 Hb Hh ltac:(lia)) as Hlt. replace (level h 0) with (@nil Z) in Hlt by by destruct h. cbn [length] in Hlt.
  split; cbn [lv_stream lv_begin lv_child lv_left lv_step Nat.min]; try done.
  - rewrite L2, Nat2Z.id. replace (level h 0) with (@nil Z) by by destruct h. cbn [length]. rewrite Nat.add_0_r in *. eapply seek_at; [exact L1|lia].
  - rewrite L3. destruct (child_leaf Hok begin Hb h (K h `min` count h)%nat Hh ltac:(lia)) as [C1 C2]. destruct h as [|h]; [done|].
    destruct (Z.eqb_spec (child (S h) (K (S h) `min` count (S h))%nat) kUndefined) as [E|_]; [by apply C1 in E|]. done.
  - rewrite Hn. cbn. lia.
Qed.
End prepare.
End seek.
