(* ===== verification/Postings.v ===== *)
(** * Postings: the writer and the metadata of terms

    [postings_writer] of core/formats/formats_10.cpp without positions, payloads and block-max scores: the
    documents of a term, and their frequencies when the field has them, in packed blocks of 128, the rest of them as
    variable-length integers, and a skip list behind them; the [term_meta] of formats_10_attributes.hpp with the coding
    of it, for fields of all features. *)
From stdpp Require Import functions.
From S2P Require Import Prelude BitUtils BytesIO Streams FileStreams MemoryFile StoreUtils BitPacking Simd BlockCodec Outcome Coding DocIterators Bitset SkipList SkipListSeek.

(** ** Features of fields: [IndexFeatures] and [Features] *)

Module IndexFeatures.
Definition NONE : Z := 0.
Definition FREQ : Z := 1.
Definition POS : Z := 2.
Definition OFFS : Z := 4.
Definition PAY : Z := 8.
Definition has (features f : Z) : bool := negb (NONE =? Z.land features f).
End IndexFeatures.

Record Features := mkFeatures { HasFrequency : bool; HasPosition : bool; HasOffset : bool; HasPayload : bool }.
Definition Features_Reset (features : Z) : Features :=
  mkFeatures (IndexFeatures.has features IndexFeatures.FREQ) (IndexFeatures.has features IndexFeatures.POS)
    (IndexFeatures.has features IndexFeatures.OFFS) (IndexFeatures.has features IndexFeatures.PAY).
Definition HasOffsetOrPayload (f : Features) : bool := HasOffset f || HasPayload f.

(** ** [term_meta] *)

Module address_limits.
Definition invalid : Z := 2 ^ 64 - 1.
Definition valid (addr : Z) : bool := negb (invalid =? addr).
End address_limits.

(** The union of [e_single_doc] and [e_skip_start]: the member stored last *)
Inductive term_ext := e_single_doc (doc : Z) | e_skip_start (ptr : Z).
Definition single_doc (e : term_ext) : option Z := match e with e_single_doc d => Some d | e_skip_start _ => None end.
Definition skip_start (e : term_ext) : option Z := match e with e_skip_start p => Some p | e_single_doc _ => None end.

Record term_meta := mkMeta {
  tm_docs_count : Z;
  tm_freq : Z;
  tm_doc_start : Z;
  tm_pos_start : Z;
  tm_pos_end : Z;
  tm_pay_start : Z;
  tm_ext : term_ext;
}.

Definition term_meta_init : term_meta := mkMeta 0 0 0 0 address_limits.invalid 0 (e_skip_start 0).
Definition term_meta_clear (m : term_meta) : term_meta := mkMeta 0 0 0 0 address_limits.invalid 0 (tm_ext m).

Definition kBlock : nat := format_traits.block_size.
Definition kMaxSkipLevels : nat := 9.
Definition kSkipN : Z := 8.

(** [encode]: what is written, when [last] was encoded before. *)
Definition encode_meta {O} `{DataOutput O} (f : Features) (last meta : term_meta) (out : O) : option O :=
  let out := write_vint (tm_docs_count meta) out in
  let out := if negb (tm_freq meta =? 0) then write_vint (tm_freq meta -[32] tm_docs_count meta) out else out in
  let out := write_vlong (tm_doc_start meta -[64] tm_doc_start last) out in
  let out :=
    if HasPosition f then
      let out := write_vlong (tm_pos_start meta -[64] tm_pos_start last) out in
      let out := if address_limits.valid (tm_pos_end meta) then write_vlong (tm_pos_end meta) out else out in
      if HasOffsetOrPayload f then write_vlong (tm_pay_start meta -[64] tm_pay_start last) out else out
    else out in
  if tm_docs_count meta =? 1 then d ← single_doc (tm_ext meta); Some (write_vint d out)
  else if Z.of_nat kBlock <? tm_docs_count meta then s ← skip_start (tm_ext meta); Some (write_vlong s out)
  else Some out.

(** [decode]: the metadata, when [state] was decoded before, and the bytes behind it. *)
Definition decode_meta (features : Z) (p : list Z) (state : term_meta) : option (term_meta * list Z) :=
  let has_freq := IndexFeatures.has features IndexFeatures.FREQ in
  '(docs_count, p) ← VInt.vread32 p;
  '(freq, p) ← (if has_freq then '(v, p) ← VInt.vread32 p; Some (docs_count +[32] v, p) else Some (tm_freq state, p));
  '(v, p) ← VInt.vread64 p;
  let doc_start := tm_doc_start state +[64] v in
  '(pos_start, pos_end, pay_start, p) ←
    (if has_freq && negb (freq =? 0) && IndexFeatures.has features IndexFeatures.POS then
       '(v, p) ← VInt.vread64 p;
       let pos_start := tm_pos_start state +[64] v in
       '(pos_end, p) ← (if Z.of_nat kBlock <? freq then VInt.vread64 p else Some (address_limits.invalid, p));
       if IndexFeatures.has features (Z.lor IndexFeatures.PAY IndexFeatures.OFFS) then
         '(v, p) ← VInt.vread64 p; Some (pos_start, pos_end, tm_pay_start state +[64] v, p)
       else Some (pos_start, pos_end, tm_pay_start state, p)
     else Some (tm_pos_start state, tm_pos_end state, tm_pay_start state, p));
  '(ext, p) ←
    (if docs_count =? 1 then '(v, p) ← VInt.vread32 p; Some (e_single_doc v, p)
     else if Z.of_nat kBlock <? docs_count then '(v, p) ← VInt.vread64 p; Some (e_skip_start v, p)
     else Some (tm_ext state, p));
  Some (mkMeta docs_count freq doc_start pos_start pos_end pay_start ext, p).

(** ** The buffer of documents *)

Record doc_buffer := mkDocs {
  db_docs : list Z;       (* kBlock documents *)
  db_freqs : list Z;      (* kBlock frequencies *)
  db_doc : nat;           (* the end of the documents *)
  db_freq : nat;          (* the end of the frequencies *)
  db_last : Z;            (* last buffered document *)
  db_block_last : Z;      (* last document in a block *)
  db_start : Z;           (* start position of the term *)
  db_end : Z;             (* end position of the last block *)
  db_skip_doc : list Z;   (* kMaxSkipLevels documents *)
  db_skip_ptr : list Z;   (* kMaxSkipLevels positions *)
}.

Definition doc_buffer_init : doc_buffer :=
  mkDocs (replicate kBlock 0) (replicate kBlock 0) 0 0 doc_limits.invalid doc_limits.min 0 0
    (replicate kMaxSkipLevels 0) (replicate kMaxSkipLevels 0).

Definition db_full (b : doc_buffer) : bool := (db_doc b =? length (db_docs b))%nat.
Definition db_empty (b : doc_buffer) : bool := (db_doc b =? 0)%nat.
Definition db_push (doc freq : Z) (b : doc_buffer) : doc_buffer :=
  mkDocs (<[db_doc b := doc]> (db_docs b)) (<[db_freq b := freq]> (db_freqs b)) (S (db_doc b)) (S (db_freq b)) doc
    (db_block_last b) (db_start b) (db_end b) (db_skip_doc b) (db_skip_ptr b).
Definition set_docs (docs : list Z) (b : doc_buffer) : doc_buffer :=
  mkDocs docs (db_freqs b) (db_doc b) (db_freq b) (db_last b) (db_block_last b) (db_start b) (db_end b) (db_skip_doc b) (db_skip_ptr b).

(** [simd::delta_encode<block_size>] *)
Definition delta_encode (p : platform) (docs : list Z) (init : Z) : list Z :=
  if cap_ge256 p then simd.delta_encode_wide 32 (lanes p) docs init else simd.delta_encode_128 32 docs init.

(** ** The writer *)

Section writer.
Context (p : platform) {O : Type} `{IndexOutput O}.

Record postings_writer := mkPostings {
  pw_skip : SkipWriter;
  pw_last_state : term_meta;
  pw_docs : bitset.dynamic_bitset;
  pw_doc_out : O;
  pw_doc : doc_buffer;
  pw_buf : list Z;
  pw_features : Features;
}.

Definition doc_pointer (out : O) : Z := Z.of_nat (out_pointer out).

Definition pw_set_doc (b : doc_buffer) (w : postings_writer) : postings_writer :=
  mkPostings (pw_skip w) (pw_last_state w) (pw_docs w) (pw_doc_out w) b (pw_buf w) (pw_features w).
Definition pw_set_out (out : O) (buf : list Z) (w : postings_writer) : postings_writer :=
  mkPostings (pw_skip w) (pw_last_state w) (pw_docs w) out (pw_doc w) buf (pw_features w).

(** A writer with an output behind its header; [buf] is what its buffer holds. *)
Definition postings_writer_init (out : O) (buf : list Z) : postings_writer :=
  mkPostings (SkipWriter_init (Z.of_nat kBlock) kSkipN) term_meta_init bitset.empty out doc_buffer_init buf (mkFeatures false false false false).

(** The part of [prepare] that follows the opening of the outputs *)
Definition prepare (alloc : nat -> nat -> Z) (allocate : Z -> list Z) (doc_count : Z) (w : postings_writer) : option postings_writer :=
  skip ← SkipWriter_Prepare alloc (Z.of_nat kMaxSkipLevels) doc_count (pw_skip w);
  Some (mkPostings skip (pw_last_state w) (bitset.reset allocate (doc_limits.min + doc_count) (pw_docs w)) (pw_doc_out w) (pw_doc w)
    (pw_buf w) (pw_features w)).

Definition begin_field (index_features : Z) (w : postings_writer) : postings_writer :=
  mkPostings (pw_skip w) (term_meta_clear (pw_last_state w)) (bitset.clear (pw_docs w)) (pw_doc_out w) (pw_doc w) (pw_buf w)
    (Features_Reset index_features).
Definition begin_block (w : postings_writer) : postings_writer :=
  mkPostings (pw_skip w) (term_meta_clear (pw_last_state w)) (pw_docs w) (pw_doc_out w) (pw_doc w) (pw_buf w) (pw_features w).
(** [end_field]: the number of documents of the field *)
Definition end_field (w : postings_writer) : Z := wrap 32 (bitset.count (pw_docs w)).

Definition encode {S} `{DataOutput S} (meta : term_meta) (out : S) (w : postings_writer) : option (S * postings_writer) :=
  out ← encode_meta (pw_features w) (pw_last_state w) meta out;
  Some (out, mkPostings (pw_skip w) meta (pw_docs w) (pw_doc_out w) (pw_doc w) (pw_buf w) (pw_features w)).

(** [WriteSkip], when the documents are written up to [doc_ptr] *)
Definition WriteSkip (doc_ptr : Z) (level : nat) (out : memory_index_output) (b : doc_buffer) : memory_index_output * doc_buffer :=
  let out := mo_write_vint (db_block_last b) out in
  let out := mo_write_vlong (doc_ptr -[64] nth level (db_skip_ptr b) 0) out in
  (out, mkDocs (db_docs b) (db_freqs b) (db_doc b) (db_freq b) (db_last b) (db_block_last b) (db_start b) (db_end b)
     (<[level := db_block_last b]> (db_skip_doc b)) (<[level := doc_ptr]> (db_skip_ptr b))).

Definition BeginTerm (w : postings_writer) : postings_writer :=
  let b := pw_doc w in
  let start := doc_pointer (pw_doc_out w) in
  let b := mkDocs (db_docs b) (db_freqs b) (db_doc b) (db_freq b) doc_limits.invalid doc_limits.min start (db_end b) (db_skip_doc b)
             (replicate kMaxSkipLevels start) in
  mkPostings (SkipWriter_Reset (pw_skip w)) (pw_last_state w) (pw_docs w) (pw_doc_out w) b (pw_buf w) (pw_features w).

(** [BeginDocument] *)
Definition BeginDocument (id freq : Z) (w : postings_writer) : option (outcome postings_writer) :=
  if db_last (pw_doc w) <? id then
    let b := db_push id freq (pw_doc w) in
    w ⇐ lift
      (if db_full b then
         let docs := delta_encode p (db_docs b) (db_block_last b) in
         '(_, out, buf) ← format_traits.write_block p (pw_doc_out w) docs (pw_buf w);
         '(out, buf) ← (if HasFrequency (pw_features w) then
                          '(_, out, buf) ← format_traits.write_block p out (db_freqs b) buf; Some (out, buf)
                        else Some (out, buf));
         Some (pw_set_out out buf (pw_set_doc (set_docs docs b) w))
       else Some (pw_set_doc b w));
    done_ (mkPostings (pw_skip w) (pw_last_state w) (bitset.set id (pw_docs w)) (pw_doc_out w) (pw_doc w) (pw_buf w) (pw_features w))
  else throw (index_error "While beginning document in postings_writer, error: docs out of order").

Definition EndDocument (w : postings_writer) : postings_writer :=
  let b := pw_doc w in
  if db_full b then
    pw_set_doc (mkDocs (db_docs b) (db_freqs b) 0 0 (db_last b) (db_last b) (db_start b) (doc_pointer (pw_doc_out w))
      (db_skip_doc b) (db_skip_ptr b)) w
  else w.

(** The rest of the documents, as variable-length integers *)
Fixpoint write_tail (has_freq : bool) (docs freqs : list Z) (prev : Z) (out : O) : O :=
  match docs, freqs with
  | doc :: docs, freq :: freqs =>
      let delta := doc -[32] prev in
      let out :=
        if has_freq then
          if 1 =? freq then write_vint (shift_pack_32 delta true) out
          else write_vint freq (write_vint (shift_pack_32 delta false) out)
        else write_vint delta out in
      write_tail has_freq docs freqs doc out
  | _, _ => out
  end.

(** [EndTerm], without positions and payloads *)
Definition EndTerm (docs_count freq : Z) (meta : term_meta) (w : postings_writer) : option (term_meta * postings_writer) :=
  if docs_count =? 0 then Some (mkMeta docs_count freq (tm_doc_start meta) (tm_pos_start meta) (tm_pos_end meta) (tm_pay_start meta) (tm_ext meta), w)
  else
    let b := pw_doc w in
    let has_skip_list := skip_0_ (pw_skip w) <? docs_count in
    let '(ext, out) :=
      if docs_count =? 1 then (e_single_doc (nth 0 (db_docs b) 0 -[32] doc_limits.min), pw_doc_out w)
      else (tm_ext meta, write_tail (HasFrequency (pw_features w)) (take (db_doc b) (db_docs b)) (take (db_doc b) (db_freqs b))
                           (db_block_last b) (pw_doc_out w)) in
    '(ext, skip, out) ←
      (if has_skip_list then
         let ext := e_skip_start (doc_pointer out -[64] db_start b) in
         num_levels ← CountLevels (pw_skip w);
         '(skip, out) ← FlushLevels num_levels (pw_skip w) out;
         Some (ext, skip, out)
       else Some (ext, pw_skip w, out));
    let b := mkDocs (db_docs b) (db_freqs b) 0 0 doc_limits.invalid (db_block_last b) (db_start b) (db_end b) (db_skip_doc b) (db_skip_ptr b) in
    Some (mkMeta docs_count freq (db_start b) (tm_pos_start meta) address_limits.invalid (tm_pay_start meta) ext,
      mkPostings skip (pw_last_state w) (pw_docs w) out b (pw_buf w) (pw_features w)).

(** [write]: the loop over the documents of an iterator, whose frequency is [frequency] (0 for an iterator without). *)
Section loop.
Context {D : Type} `{DocIterator D} (frequency : D -> Z).

Definition write_document (doc freq docs_count : Z) (w : postings_writer) : option (outcome postings_writer) :=
  let b := pw_doc w in
  w ⇐ lift
    (if doc_limits.valid (db_last b) && db_empty b then
       '(skip, b) ← SkipWriter_Skip (WriteSkip (doc_pointer (pw_doc_out w))) docs_count (pw_skip w) b;
       Some (mkPostings skip (pw_last_state w) (pw_docs w) (pw_doc_out w) b (pw_buf w) (pw_features w))
     else Some w);
  w ⇐ BeginDocument doc freq w;
  done_ (EndDocument w).

Definition write_round (st : D * Z * Z * postings_writer)
    : option ((D * Z * Z * postings_writer) + outcome (D * Z * Z * postings_writer)) :=
  let '(docs, docs_count, total_freq, w) := st in
  '(go, docs) ← DocIterators.next docs;
  if negb go then Some (inr (Done (docs, docs_count, total_freq, w)))
  else
    r ← write_document (value docs) (frequency docs) docs_count w;
    match r with
    | Done w => Some (inl (docs, docs_count +[32] 1, total_freq +[32] frequency docs, w))
    | Thrown e => Some (inr (Thrown e))
    end.

Definition write (docs : D) (meta : term_meta) (w : postings_writer) : option (outcome (term_meta * postings_writer)) :=
  let w := BeginTerm w in
  '(_, docs_count, total_freq, w) ⇐ iterate 33 write_round (docs, 0, 0, w);
  lift (EndTerm docs_count total_freq meta w).
End loop.
End writer.
Arguments postings_writer : clear implicits.

Lemma kBlock_eq : kBlock = 128%nat.
Proof. done. Qed.
#[global] Opaque kBlock.
