(* ===== verification/PostingsWriter.v ===== *)
(** * What the postings writer writes

    The bytes of a term's postings as a function of its documents and frequencies ([term_bytes]): the blocks, the tail and
    the skip list, whose entries hold the last document of a block and the length of what the entry skips. [write]
    produces them for any iterator whose documents are in order ([write_spec]). *)
From stdpp Require Import functions.
From Stdlib Require Import ZifyNat.
From S2P Require Import Prelude BitUtils BytesIO Streams FileStreams MemoryFile StoreUtils BitPacking Simd BlockCodec Outcome Coding DocIterators Bitset SkipList SkipListSeek Postings.

Lemma delta_words w prev l : 0 <= w -> Forall (is_word w) (delta_encode_from w prev l).
Proof.
  intros Hw. revert prev. induction l as [|x l IH]; intros prev; cbn; [constructor|]. constructor; [by apply wrap_range|apply IH].
Qed.

(** Arithmetic on the size of blocks *)
Ltac kb := rewrite ?kBlock_eq in *; zify; Z.to_euclidean_division_equations; lia.

(** ** The layout *)

Section layout.
Context (big hf : bool) (l : list (Z * Z)).
#[local] Abbreviation docs := (l.*1).
#[local] Abbreviation freqs := (l.*2).

(** The last document before block [b]: the key of its skip entry, and what its first difference is from. *)
Definition key (b : nat) : Z := match b with O => doc_limits.invalid | S _ => nth (kBlock * b - 1) docs 0 end.
Definition base (b : nat) : Z := match b with O => doc_limits.min | S _ => key b end.

Definition block_of (b : nat) (vals : list Z) : list Z := take kBlock (drop (kBlock * b) vals).
Definition block_deltas (b : nat) : list Z := delta_encode_from 32 (base b) (block_of b docs).
Definition block_enc (b : nat) : list Z :=
  block_bytes big W32 (block_deltas b) ++ if hf then block_bytes big W32 (block_of b freqs) else [].
Fixpoint blocks_enc (n : nat) : list Z := match n with O => [] | S b => blocks_enc b ++ block_enc b end.

Fixpoint tail_enc (docs freqs : list Z) (prev : Z) : list Z :=
  match docs, freqs with
  | doc :: docs, freq :: freqs =>
      (if hf then
         if 1 =? freq then VInt.vwrite32 (shift_pack_32 (doc -[32] prev) true)
         else VInt.vwrite32 (shift_pack_32 (doc -[32] prev) false) ++ VInt.vwrite32 freq
       else VInt.vwrite32 (doc -[32] prev)) ++ tail_enc docs freqs doc
  | _, _ => []
  end.

Definition full_blocks : nat := length l / kBlock.
Definition tail_of (vals : list Z) : list Z := drop (kBlock * full_blocks) vals.
Definition tail_bytes : list Z := tail_enc (tail_of docs) (tail_of freqs) (base full_blocks).
Definition postings_bytes : list Z := blocks_enc full_blocks ++ tail_bytes.

(** Where block [b] starts, and the skip entries *)
Definition block_ptr (b : nat) : Z := Z.of_nat (length (blocks_enc b)).
Definition skip_entry (h k : nat) : list Z :=
  VInt.vwrite32 (key (k * 8 ^ h)) ++ VInt.vwrite64 (block_ptr (k * 8 ^ h) - block_ptr ((k - 1) * 8 ^ h)).
Definition skip_blocks : nat := blocks kBlock (length l).

(** The bytes of a term, with a skip list of [L] levels *)
Definition term_bytes (L : nat) : list Z :=
  if decide (length l = 1)%nat then []
  else postings_bytes ++ if decide (kBlock < length l)%nat then skip_list_bytes 8 skip_entry skip_blocks L else [].

(** The documents of a term in order; with frequencies, a difference leaves room for the flag. *)
Record good_postings : Prop := {
  gp_sorted i j x y : (i < j)%nat -> docs !! i = Some x -> docs !! j = Some y -> x < y;
  gp_docs : Forall (fun d => doc_limits.min <= d < doc_limits.eof) docs;
  gp_gaps : hf = true -> Forall (fun d => d <= 2 ^ 31) docs;
  gp_freqs : Forall (is_word 32) freqs;
}.

Lemma length_docs : length docs = length l.
Proof. apply length_fmap. Qed.
Lemma length_freqs : length freqs = length l.
Proof. apply length_fmap. Qed.

Lemma block_ptr_mono b b' : (b <= b')%nat -> block_ptr b <= block_ptr b'.
Proof. unfold block_ptr. induction 1 as [|b' _ IH]; [done|]. cbn [blocks_enc]. rewrite length_app. lia. Qed.

Context (Hl : good_postings).

Lemma docs_range i : (i < length l)%nat -> doc_limits.min <= nth i docs 0 < doc_limits.eof.
Proof using Hl.
  intros Hi. rewrite <-length_docs in Hi. apply (Forall_nth (fun d => doc_limits.min <= d < doc_limits.eof) 0 docs); [apply Hl|done].
Qed.

Lemma docs_lt i j : (i < j < length l)%nat -> nth i docs 0 < nth j docs 0.
Proof using Hl.
  intros Hij. rewrite <-length_docs in Hij. destruct (lookup_lt_is_Some_2 docs i ltac:(lia)) as [x Hx], (lookup_lt_is_Some_2 docs j ltac:(lia)) as [y Hy].
  rewrite (nth_lookup_Some _ _ _ _ Hx), (nth_lookup_Some _ _ _ _ Hy). apply (gp_sorted Hl i j); [lia|done|done].
Qed.

Lemma docs_word : Forall (is_word 32) docs.
Proof using Hl. eapply Forall_impl; [apply (gp_docs Hl)|]. intros d Hd. unfold is_word. doc_lia. Qed.

Lemma key_word b : is_word 32 (key b).
Proof using Hl.
  unfold is_word. destruct b as [|b]; [done|]. cbn [key]. destruct (decide (kBlock * S b - 1 < length l)%nat) as [Hlt|Hge].
  - pose proof (docs_range _ Hlt). doc_lia.
  - rewrite nth_overflow by (rewrite length_docs; lia). done.
Qed.

Lemma skip_entry_ne h k : skip_entry h k <> [].
Proof using Hl.
  unfold skip_entry. intros E%(f_equal length). rewrite length_app in E. pose proof (key_word (k * 8 ^ h)) as Hw.
  pose proof (VInt.vsize32_length _ Hw) as Hv. pose proof (proj1 (VInt.vsize_bound (key (k * 8 ^ h))) Hw). cbn [length] in E. lia.
Qed.

Lemma key_mono b b' : (b <= b')%nat -> (kBlock * b' <= length l)%nat -> key b <= key b'.
Proof using Hl.
  rewrite kBlock_eq. intros Hle Hb. destruct b as [|b], b' as [|b']; cbn [key]; try lia.
  - pose proof (docs_range (kBlock * S b' - 1)). rewrite kBlock_eq in *. doc_lia.
  - rewrite kBlock_eq. destruct (decide (b = b')) as [->|]; [done|]. pose proof (docs_lt (128 * S b - 1) (128 * S b' - 1)). lia.
Qed.

Lemma key_range b : (kBlock * b <= length l)%nat -> 0 <= key b < doc_limits.eof.
Proof using Hl.
  rewrite kBlock_eq. intros Hb. destruct b as [|b]; cbn [key]; [doc_lia|]. pose proof (docs_range (kBlock * S b - 1)).
  rewrite kBlock_eq in *. doc_lia.
Qed.

Lemma docs_index i : (i < length l)%nat -> Z.of_nat i < nth i docs 0.
Proof using Hl.
  induction i as [|i IH]; intros Hi; [pose proof (docs_range 0 Hi); doc_lia|]. pose proof (docs_lt i (S i) ltac:(lia)). specialize (IH ltac:(lia)). lia.
Qed.

Lemma postings_count : Z.of_nat (length l) < 2 ^ 32.
Proof using Hl.
  destruct (length l) as [|k] eqn:E; [done|]. pose proof (docs_index k ltac:(lia)). pose proof (docs_range k ltac:(lia)). doc_lia.
Qed.

Lemma full_blocks_bound : Z.of_nat full_blocks <= 2 ^ 25.
Proof using Hl. pose proof postings_count. unfold full_blocks. rewrite kBlock_eq, Nat2Z.inj_div. word_lia. Qed.

Lemma block_of_length b (vals : list Z) : length vals = length l -> (kBlock * S b <= length l)%nat -> length (block_of b vals) = kBlock.
Proof using Type. rewrite kBlock_eq. unfold block_of. intros E Hb. rewrite kBlock_eq, length_take, length_drop. lia. Qed.

Lemma block_good b : (kBlock * S b <= length l)%nat ->
  good_block W32 4 (block_deltas b) /\ good_block W32 4 (block_of b freqs) /\ length (block_deltas b) = kBlock.
Proof using Hl.
  intros Hb. pose proof (block_of_length b docs length_docs Hb) as E1. pose proof (block_of_length b freqs length_freqs Hb) as E2.
  unfold block_deltas, good_block. rewrite simd.length_delta, E1, E2, kBlock_eq. cbn. split; [|split; [|done]]; (split; [done|]; split; [lia|]; split; [lia|]).
  - by apply delta_words.
  - apply Forall_take, Forall_drop, Hl.
Qed.

End layout.

(** ** The writer *)

(** A block has whole vectors. *)
Definition platform_ok (p : platform) : Prop :=
  (0 < lanes p)%nat /\ (cap_ge256 p = true -> exists k, kBlock = (S k * lanes p)%nat).

Lemma delta_encode_spec p docs init : platform_ok p -> length docs = kBlock -> delta_encode p docs init = delta_encode_from 32 init docs.
Proof.
  intros [Hp Hk] Hd. unfold delta_encode. destruct (cap_ge256 p).
  - apply simd.delta_encode_wide_spec; [done|]. rewrite Hd. by apply Hk.
  - apply simd.delta_encode_128_spec. exists 32%nat. by rewrite Hd, kBlock_eq.
Qed.

Lemma write_tail_spec {Out} `{DataOutputSpec Out} hf ds fs prev (out : Out) : out_ok out -> out_ok (write_tail hf ds fs prev out) /\
  written (write_tail hf ds fs prev out) = written out ++ tail_enc hf ds fs prev.
Proof.
  revert fs prev out. induction ds as [|d ds IH]; intros [|fr fs] prev out Ho; cbn [write_tail tail_enc]; try (by rewrite app_nil_r).
  cbv zeta. rewrite app_assoc. destruct hf; [destruct (1 =? fr)|].
  - destruct (write_vint_spec (shift_pack_32 (d -[32] prev) true) out Ho) as [H1' <-]. by apply IH.
  - destruct (write_vint_spec (shift_pack_32 (d -[32] prev) false) out Ho) as [H1' E1]. rewrite app_assoc, <-E1.
    destruct (write_vint_spec fr _ H1') as [H2' <-]. by apply IH.
  - destruct (write_vint_spec (d -[32] prev) out Ho) as [H1' <-]. by apply IH.
Qed.

Section writing.
Context (p : platform) (Hp : platform_ok p) (hf : bool) (l : list (Z * Z)) (Hl : good_postings hf l).
#[local] Abbreviation docs := (l.*1).
#[local] Abbreviation freqs := (l.*2).
#[local] Abbreviation big := (big_endian p).
#[local] Abbreviation ptr := (block_ptr big hf l).
#[local] Abbreviation entry := (skip_entry big hf l).
#[local] Abbreviation n := (length l).
Context (start : Z) (Hstart : 0 <= start /\ start + Z.of_nat (length (postings_bytes big hf l)) < 2 ^ 64).

Lemma ptr_range m : (m <= full_blocks l)%nat -> 0 <= ptr m /\ start + ptr m < 2 ^ 64.
Proof using Hstart. intros Hm. pose proof (block_ptr_mono big hf l m _ Hm). unfold postings_bytes in Hstart. rewrite length_app in Hstart. unfold block_ptr in *. lia. Qed.

Lemma entry_length h k : (S k * 8 ^ h <= full_blocks l)%nat -> (length (entry h (S k)) <= 15)%nat.
Proof using Hstart Hl.
  intros Hk. unfold skip_entry. rewrite Nat.sub_succ, Nat.sub_0_r, length_app.
  pose proof (proj1 (BufferedOutput.vwrite_max_length (key l (S k * 8 ^ h))) (key_word hf l Hl _)).
  pose proof (ptr_range _ Hk). pose proof (ptr_range (k * 8 ^ h) ltac:(lia)). pose proof (block_ptr_mono big hf l (k * 8 ^ h) (S k * 8 ^ h) ltac:(lia)).
  pose proof (proj2 (BufferedOutput.vwrite_max_length (ptr (S k * 8 ^ h) - ptr (k * 8 ^ h))) ltac:(unfold is_word; lia)). lia.
Qed.

(** A level is never longer than 25 bytes an entry. *)
Lemma level_length h k : (k * 8 ^ h <= full_blocks l)%nat -> (length (level_bytes 8 entry h k) <= 25 * k)%nat.
Proof using Hstart Hl.
  revert k. induction h as [|h IHh]; intros k; (induction k as [|k IH]; intros Hk; [cbn; lia|]); rewrite level_bytes_S, !length_app.
  all: specialize (IH ltac:(lia)).
  - pose proof (entry_length 0 k Hk). cbn [child_bytes length]. lia.
  - pose proof (entry_length (S h) k Hk). rewrite Nat.pow_succ_r' in Hk. specialize (IHh (S k * 8)%nat ltac:(lia)). cbn [child_bytes child_ptr].
    pose proof (entry_end_le 8 entry h (S k * 8)). assert (S k <= full_blocks l)%nat by (pose proof (pow_pos 8 h); nia).
    pose proof (full_blocks_bound hf l Hl).
    pose proof (proj2 (BufferedOutput.vwrite_max_length (entry_end entry (level_bytes 8 entry h) h (S k * 8))) ltac:(unfold is_word; split; [destruct (S k * 8)%nat; cbn; lia|lia])).
    lia.
Qed.

Lemma levels_fit_all max m : (m <= full_blocks l)%nat -> levels_fit 8 max entry m.
Proof using Hstart Hl.
  intros Hm h _. pose proof (Nat.Div0.mul_div_le m (8 ^ h)). pose proof (pow_pos 8 h ltac:(lia)). unfold entries.
  pose proof (level_length h (m / 8 ^ h) ltac:(lia)). pose proof (full_blocks_bound hf l Hl). assert (m / 8 ^ h <= m)%nat by nia. lia.
Qed.

Context (max : nat) (Hmax : (max <= kMaxSkipLevels)%nat).

(** The buffer while a skip behind [m] blocks is written: only its skip data changes. *)
Record skip_ok (b0 : doc_buffer) (m : nat) (f : nat -> nat) (b : doc_buffer) : Prop := {
  so_same : b = mkDocs (db_docs b0) (db_freqs b0) (db_doc b0) (db_freq b0) (db_last b0) (db_block_last b0) (db_start b0) (db_end b0)
                  (db_skip_doc b) (db_skip_ptr b);
  so_last : db_block_last b0 = key l m;
  so_length : length (db_skip_ptr b) = kMaxSkipLevels;
  so_blocks : (m <= full_blocks l)%nat;
  so_ptr h : (h < max)%nat -> nth h (db_skip_ptr b) 0 = start + ptr (f h * 8 ^ h);
}.

Lemma WriteSkip_spec b0 m f b h out : skip_ok b0 m f b -> (h < max)%nat -> (S (f h) * 8 ^ h = m)%nat -> mo_ok out ->
  let '(out', b') := WriteSkip (start + ptr m) h out b in
  mo_ok out' /\ mo_written out' = mo_written out ++ entry h (S (f h)) /\ skip_ok b0 m (<[h := S (f h)]> f) b'.
Proof using Hstart Hl Hmax.
  intros [Es El Elen Hm Hptr] Hh Ek Ho. unfold WriteSkip. rewrite (Hptr h Hh).
  assert (db_block_last b = key l m) as -> by (by rewrite Es).
  destruct (mo_write_vint_spec (key l m) out Ho (key_word hf l Hl m)) as [Ho1 W1].
  assert (start + ptr m -[64] (start + ptr (f h * 8 ^ h)) = ptr m - ptr (f h * 8 ^ h)) as ->.
  { pose proof (ptr_range m Hm). pose proof (block_ptr_mono big hf l (f h * 8 ^ h) m ltac:(lia)).
    pose proof (ptr_range (f h * 8 ^ h) ltac:(lia)). rewrite wrap_small by (unfold is_word; lia). lia. }
  destruct (mo_write_vlong_spec (ptr m - ptr (f h * 8 ^ h)) _ Ho1) as [Ho2 W2].
  { pose proof (ptr_range m Hm). pose proof (block_ptr_mono big hf l (f h * 8 ^ h) m ltac:(lia)).
    pose proof (ptr_range (f h * 8 ^ h) ltac:(lia)). unfold is_word. lia. }
  split; [done|]. split.
  - rewrite W2, W1, <-app_assoc. unfold skip_entry. by rewrite Ek, Nat.sub_succ, Nat.sub_0_r.
  - split; cbn [db_docs db_freqs db_doc db_freq db_last db_block_last db_start db_end db_skip_doc db_skip_ptr]; [clear -Es El; destruct b; cbn in *; congruence|done|by rewrite length_insert|done|].
    intros h' Hh'. rewrite !nth_lookup. destruct (decide (h' = h)) as [->|Hne].
    + rewrite list_lookup_insert_eq by lia. rewrite fn_lookup_insert, Ek. done.
    + rewrite list_lookup_insert_ne, fn_lookup_insert_ne by done. rewrite <-nth_lookup. by apply Hptr.
Qed.

(** The same for the [m] of a skip, as the skip list asks for it *)
Lemma WriteSkip_law b0 m m' f b h out : m' = m /\ skip_ok b0 m f b -> (h < max)%nat -> (S (f h) * 8 ^ h)%nat = m' -> mo_ok out ->
  let '(out', b') := WriteSkip (start + ptr m) h out b in
  mo_ok out' /\ mo_written out' = mo_written out ++ entry h (S (f h)) /\ m' = m /\ skip_ok b0 m (<[h := S (f h)]> f) b'.
Proof using Hstart Hl Hmax.
  intros [-> Hs] Hh Ek Ho. pose proof (WriteSkip_spec b0 m f b h out Hs Hh Ek Ho) as Hw. destruct (WriteSkip _ _ _ _), Hw as (? & ? & ?). done.
Qed.

(** *** The loop *)

Context {Out : Type} `{IndexOutputSpec Out} (w0 : list Z) (Estart : start = Z.of_nat (length w0)) (Hmax0 : (kBlock < n)%nat -> (0 < max)%nat).

(** The buffer behind [i] documents *)
Record doc_state (i : nat) (b : doc_buffer) : Prop := {
  ds_length : length (db_docs b) = kBlock /\ length (db_freqs b) = kBlock;
  ds_pos : db_doc b = (i mod kBlock)%nat /\ db_freq b = (i mod kBlock)%nat;
  ds_docs : take (i mod kBlock) (db_docs b) = drop (kBlock * (i / kBlock)) (take i docs);
  ds_freqs : take (i mod kBlock) (db_freqs b) = drop (kBlock * (i / kBlock)) (take i freqs);
  ds_last : db_last b = match i with O => doc_limits.invalid | S j => nth j docs 0 end;
  ds_block_last : db_block_last b = base l (i / kBlock);
  ds_start : db_start b = start;
}.

(** The skip data behind [m] skips *)
Definition ptr_state (m : nat) (b : doc_buffer) : Prop :=
  length (db_skip_ptr b) = kMaxSkipLevels /\ forall h, (h < max)%nat -> nth h (db_skip_ptr b) 0 = start + ptr (entries 8 m h * 8 ^ h).

Definition buffer_ok (buf : list Z) : Prop := Forall (is_word 32) buf /\ (kBlock <= length buf)%nat.

(** The writer behind [i] documents and [m] skips *)
Record writing (i m : nat) (w : postings_writer Out) : Prop := {
  wr_out : out_ok (pw_doc_out w);
  wr_written : written (pw_doc_out w) = w0 ++ blocks_enc big hf l (i / kBlock);
  wr_skip : skip_holds 8 max entry kBlock m (pw_skip w);
  wr_docs : doc_state i (pw_doc w);
  wr_ptr : ptr_state m (pw_doc w);
  wr_buf : buffer_ok (pw_buf w);
  wr_features : HasFrequency (pw_features w) = hf;
}.

Lemma wr_pointer i m w : writing i m w -> doc_pointer (pw_doc_out w) = start + ptr (i / kBlock).
Proof using All.
  intros [Ho Hw _ _ _ _ _]. unfold doc_pointer. rewrite out_pointer_spec by done. rewrite Hw, length_app, Estart. unfold block_ptr. lia.
Qed.

(** The skip before document [i], when it is the first of a block *)
Lemma skip_phase i w : (i < n)%nat -> writing i ((i - 1) / kBlock) w -> exists w',
  (if doc_limits.valid (db_last (pw_doc w)) && db_empty (pw_doc w) then
     '(skip, b) ← SkipWriter_Skip (WriteSkip (doc_pointer (pw_doc_out w))) (Z.of_nat i) (pw_skip w) (pw_doc w);
     Some (mkPostings skip (pw_last_state w) (pw_docs w) (pw_doc_out w) b (pw_buf w) (pw_features w))
   else Some w) = Some w' /\ writing i (i / kBlock) w' /\ pw_features w' = pw_features w.
Proof using All.
  intros Hi Hw. pose proof (wr_pointer _ _ _ Hw) as Eptr. destruct Hw as [W1 W2 W3 [D1 D2 D3 D4 D5 D6 D7] [P1 P2] W6 W7]. unfold db_empty. rewrite (proj1 D2), D5.
  assert (doc_limits.valid match i with O => doc_limits.invalid | S j => nth j docs 0 end = negb (i =? 0)%nat) as ->.
  { destruct i as [|j]; [done|]. pose proof (docs_range hf l Hl j ltac:(lia)). cbn. unfold doc_limits.valid. destruct (Z.eqb_spec doc_limits.invalid (nth j docs 0)); [doc_lia|done]. }
  destruct (Nat.eqb_spec (i mod kBlock) 0) as [Ez|Ez]; [destruct (Nat.eqb_spec i 0) as [->|Hne]|]; cbn [negb andb].
  - exists w. rewrite kBlock_eq in *. split; [done|]. split; [|done]. by split.
  - set (m := (i / kBlock)%nat) in *. assert (i = m * kBlock)%nat as Em by (pose proof (Nat.div_mod_eq i kBlock); unfold m; lia).
    assert (m <= full_blocks l)%nat as Hmf by (apply Nat.Div0.div_le_mono; lia). clearbody m.
    assert ((i - 1) / kBlock = m - 1)%nat as Em1 by kb. rewrite Em1 in *.
    assert (0 < m)%nat as Hm0 by (kb).
    destruct (SkipWriter_Skip_spec 8 ltac:(lia) max entry (WriteSkip (start + ptr m)) (fun m' f b => m' = m /\ skip_ok (pw_doc w) m f b)
      (WriteSkip_law (pw_doc w) m) kBlock ltac:(rewrite kBlock_eq; lia) m (entries 8 (m - 1)) (pw_skip w) (pw_doc w) Hm0)
      as (f' & s' & b' & E & Hs' & [_ [S1 S2 S3 S4 S5]] & Hf'); [apply Hmax0; kb|done|by apply levels_fit_all| |done|].
    { split; [done|]. split; [by destruct (pw_doc w)|rewrite D6; destruct m; [lia|done]|done|done|done]. }
    assert (i / kBlock = m)%nat as Edm by kb.
    rewrite Eptr, (f_equal Z.of_nat Em), E. cbn [mbind option_bind]. eexists. split; [done|]. split; [|done]. split; try done.
    + cbn [pw_doc_out]. by rewrite Edm.
    + cbn [pw_doc]. rewrite S1. split; rewrite ?Edm; done.
    + split; [done|]. intros h Hh. cbn [pw_doc]. rewrite (S5 h Hh). by rewrite Hf'.
  - exists w. rewrite andb_false_r. split; [done|]. assert ((i - 1) / kBlock = i / kBlock)%nat as <- by kb. split; [|done]. by split.
Qed.

Lemma write_block_128 out vals buf : length vals = kBlock -> good_block W32 4 vals -> buffer_ok buf -> out_ok out -> exists bits out' buf',
  format_traits.write_block p out vals buf = Some (bits, out', buf') /\ out_ok out' /\
  written out' = written out ++ block_bytes big W32 vals /\ buffer_ok buf'.
Proof using All.
  intros Hlen Hg [Hb1 Hb2] Ho. unfold format_traits.write_block, bitpack.write_block32.
  assert (PackFunc W32 (length vals) format_traits.pack_block) as Hpack by (rewrite Hlen; exact format_pack).
  destruct (write_block_spec W32 p (proj1 Hp) format_traits.pack_block 4 vals buf out Hg Hb1 ltac:(lia) Ho)
    as (bits & out' & buf' & E & Ho' & Hw & Hf & El).
  exists bits, out', buf'. split; [done|]. split; [done|]. split; [done|]. split; [done|]. lia.
Qed.

(** One value more in a buffer that is filled in the order of [vals] *)
Lemma push_value (vals mem : list Z) x i : vals !! i = Some x -> length mem = kBlock ->
  take (i mod kBlock) mem = drop (kBlock * (i / kBlock)) (take i vals) ->
  take (S (i mod kBlock)) (<[(i mod kBlock)%nat := x]> mem) = drop (kBlock * (i / kBlock)) (take (S i) vals).
Proof using All.
  intros Hx Hlen E. assert (i mod kBlock < kBlock)%nat by (apply Nat.mod_upper_bound; kb).
  rewrite (take_S_r _ _ x) by (apply list_lookup_insert_eq; lia). rewrite take_insert_ge by lia. rewrite E, (take_S_r _ _ x Hx).
  rewrite drop_app_le; [done|]. rewrite length_take. apply lookup_lt_Some in Hx. kb.
Qed.

Lemma document_phase i w d fr : l !! i = Some (d, fr) -> writing i (i / kBlock) w -> exists w1,
  BeginDocument p d fr w = Some (Done w1) /\ writing (S i) (i / kBlock) (EndDocument w1) /\
  pw_features (EndDocument w1) = pw_features w.
Proof using All.
  intros Hi [W1 W2 W3 [[D1 D1'] [D2 D2'] D3 D4 D5 D6 D7] [P1 P2] W6 W7].
  assert (docs !! i = Some d) as Hd by (by rewrite list_lookup_fmap, Hi). assert (freqs !! i = Some fr) as Hfr by (by rewrite list_lookup_fmap, Hi).
  assert (i < n)%nat as Hlt by (by eapply lookup_lt_Some). unfold BeginDocument.
  assert (db_last (pw_doc w) < d) as Hlast.
  { rewrite D5. rewrite <-(nth_lookup_Some docs i 0 d Hd). destruct i as [|j]; [pose proof (docs_range hf l Hl 0 Hlt); doc_lia|].
    apply (docs_lt hf l Hl). lia. }
  destruct (Z.ltb_spec (db_last (pw_doc w)) d) as [_|]; [|lia].
  set (b := db_push d fr (pw_doc w)).
  pose proof (push_value docs (db_docs (pw_doc w)) d i Hd D1 D3) as Ed. pose proof (push_value freqs (db_freqs (pw_doc w)) fr i Hfr D1' D4) as Ef.
  assert (db_docs b = <[(i mod kBlock)%nat := d]> (db_docs (pw_doc w))) as Ebd by (unfold b; cbn; by rewrite D2).
  assert (db_freqs b = <[(i mod kBlock)%nat := fr]> (db_freqs (pw_doc w))) as Ebf by (unfold b; cbn; by rewrite D2').
  assert (length (db_docs b) = kBlock) as Lbd by (by rewrite Ebd, length_insert).
  assert (length (db_freqs b) = kBlock) as Lbf by (by rewrite Ebf, length_insert).
  assert (db_doc b = S (i mod kBlock) /\ db_freq b = S (i mod kBlock)) as [Eb Eb'] by (unfold b; cbn; by rewrite D2, D2').
  assert (db_last b = nth i docs 0) as Ebl by (unfold b; cbn; by rewrite (nth_lookup_Some docs i 0 d Hd)).
  rewrite <-Ebd in Ed. rewrite <-Ebf in Ef.
  assert (ptr_state (i / kBlock) b) as Pb by (split; [done|exact P2]).
  assert (db_block_last b = base l (i / kBlock) /\ db_start b = start) as [Ebb Ebs] by done. clearbody b.
  unfold db_full at 1. rewrite Lbd, Eb. destruct (Nat.eqb_spec (S (i mod kBlock)) kBlock) as [Efull|Efull].
  - set (k := (i / kBlock)%nat) in *. assert (S i = kBlock * S k)%nat as Ei by (pose proof (Nat.div_mod_eq i kBlock); unfold k; lia).
    assert (S i / kBlock = S k /\ S i mod kBlock = 0)%nat as [Edv Emd].
    { rewrite Ei. split; [rewrite Nat.mul_comm; apply Nat.div_mul; kb|rewrite Nat.mul_comm; apply Nat.Div0.mod_mul]. }
    clearbody k. assert (forall vals mem : list Z, length mem = kBlock ->
      take (S (i mod kBlock)) mem = drop (kBlock * k) (take (S i) vals) -> mem = block_of k vals) as Hblock.
    { intros vals mem Hlen E. rewrite Efull, take_ge in E by lia. rewrite E. unfold block_of.
      rewrite take_drop_commute. do 2 f_equal. lia. }
    pose proof (Hblock _ _ Lbd Ed) as Edocs. pose proof (Hblock _ _ Lbf Ef) as Efreqs.
    destruct (block_good hf l Hl k ltac:(lia)) as (Hg1 & Hg2 & Hlen). pose proof (block_of_length l k freqs (length_freqs l) ltac:(lia)) as Hlenf.
    rewrite delta_encode_spec by done. rewrite Ebb, Edocs, Efreqs.
    destruct (write_block_128 (pw_doc_out w) (block_deltas l k) (pw_buf w) Hlen Hg1 W6 W1) as (bits & o1 & buf1 & E1 & Ho1 & Wr1 & Hb1).
    fold (block_deltas l k). rewrite E1. cbn [mbind option_bind].
    assert (exists o2 buf2, (if HasFrequency (pw_features w) then
        '(_, out, buf) ← format_traits.write_block p o1 (block_of k freqs) buf1; Some (out, buf) else Some (o1, buf1)) = Some (o2, buf2) /\
      out_ok o2 /\ written o2 = w0 ++ blocks_enc big hf l (S k) /\ buffer_ok buf2) as (o2 & buf2 & E2 & Ho2 & Wr2 & Hb2).
    { cbn [blocks_enc]. unfold block_enc. assert (forall x : list Z, (if hf then x else []) = if HasFrequency (pw_features w) then x else []) as -> by (intros; by rewrite W7).
      destruct (HasFrequency (pw_features w)).
      - destruct (write_block_128 o1 (block_of k freqs) buf1 Hlenf Hg2 Hb1 Ho1) as (bits2 & o2 & buf2 & -> & Ho2 & Wr2 & Hb2).
        exists o2, buf2. split; [done|]. split; [done|]. split; [|done]. by rewrite Wr2, Wr1, W2, <-!app_assoc.
      - exists o1, buf1. split; [done|]. split; [done|]. split; [|done]. by rewrite Wr1, W2, app_nil_r, <-!app_assoc. }
    rewrite E2. cbn [mbind option_bind lift fmap option_fmap option_map outcome_bind]. eexists. split; [done|].
    unfold EndDocument. cbn [pw_doc pw_set_doc pw_set_out]. unfold db_full. cbn [db_doc db_docs set_docs].
    rewrite Eb, Hlen, Efull, Nat.eqb_refl. split; [|done]. split; cbn [pw_doc_out pw_skip pw_doc pw_buf pw_features pw_set_doc]; try done.
    + by rewrite Edv.
    + split; cbn [set_docs db_docs db_freqs db_doc db_freq db_last db_block_last db_start]; rewrite ?Emd, ?Edv; try done.
      * rewrite drop_ge; [done|]. rewrite length_take. lia.
      * rewrite drop_ge; [done|]. rewrite length_take. lia.
      * cbn [base key]. rewrite Ebl. f_equal. lia.
  - assert (S i / kBlock = i / kBlock /\ S i mod kBlock = S (i mod kBlock))%nat as [Edv Emd].
    { split; kb. }
    cbn [lift fmap option_fmap option_map outcome_bind]. eexists. split; [done|].
    unfold EndDocument. cbn [pw_doc pw_set_doc pw_set_out]. unfold db_full. rewrite Lbd, Eb.
    destruct (Nat.eqb_spec (S (i mod kBlock)) kBlock) as [|_]; [done|]. split; [|done].
    split; cbn [pw_doc_out pw_skip pw_doc pw_buf pw_features pw_set_doc]; try done.
    + by rewrite Edv.
    + split; rewrite ?Emd, ?Edv; done.
Qed.

Lemma write_document_spec i w d fr : l !! i = Some (d, fr) -> writing i ((i - 1) / kBlock) w -> exists w',
  write_document p d fr (Z.of_nat i) w = Some (Done w') /\ writing (S i) ((S i - 1) / kBlock) w' /\ pw_features w' = pw_features w.
Proof using All.
  intros Hi Hw. assert (i < n)%nat as Hlt by (by eapply lookup_lt_Some). unfold write_document.
  destruct (skip_phase i w Hlt Hw) as (w1 & E1 & Hw1 & F1). rewrite E1, bind_lift.
  destruct (document_phase i w1 d fr Hi Hw1) as (w2 & E2 & Hw2 & F2). rewrite E2, bind_done.
  exists (EndDocument w2). split; [done|]. rewrite Nat.sub_succ, Nat.sub_0_r. split; [done|congruence].
Qed.

(** The documents of the iterator, with their frequencies *)
Section loop.
Context {D : Type} `{DocIterator D} (frequency : D -> Z).

Inductive yields : D -> list (Z * Z) -> Prop :=
  | yields_end s s' : DocIterators.next s = Some (false, s') -> yields s []
  | yields_doc s s' r : DocIterators.next s = Some (true, s') -> yields s' r -> yields s ((value s', frequency s') :: r).

Definition total (r : list (Z * Z)) : Z := wrap 32 (foldr Z.add 0 r.*2).

Lemma total_snoc i d fr : l !! i = Some (d, fr) -> total (take i l) +[32] fr = total (take (S i) l).
Proof using All.
  intros Hi. unfold total. rewrite (take_S_r _ _ _ Hi), fmap_app, foldr_app. cbn. rewrite Z.add_0_r.
  assert (forall r x, foldr Z.add x r = foldr Z.add 0 r + x) as Hx by (induction r as [|y r IH]; intros x; cbn; [lia|rewrite IH; lia]).
  by rewrite (Hx _ fr), wrap_add_l.
Qed.

(** The loop goes through all of the documents. *)
Lemma write_loop_spec docs w : writing 0 0 w -> yields docs l -> exists docs' w',
  iterate 33 (write_round p frequency) (docs, 0, 0, w) = Some (Done (docs', Z.of_nat n, total l, w')) /\
  writing n ((n - 1) / kBlock) w' /\ pw_features w' = pw_features w.
Proof using All.
  intros Hw Hy.
  destruct (iterate_ghost
    (fun c st => exists i docs w', st = (docs, Z.of_nat i, total (take i l), w') /\ (i <= n)%nat /\ yields docs (drop i l) /\
       writing i ((i - 1) / kBlock) w' /\ pw_features w' = pw_features w /\ c = Z.of_nat (n - i))
    (fun r => exists docs' w', r = Done (docs', Z.of_nat n, total l, w') /\ writing n ((n - 1) / kBlock) w' /\ pw_features w' = pw_features w)
    (write_round p frequency)) with (k := 33%nat) (n := Z.of_nat n) (s := (docs, 0, 0, w)) as (r & E & docs' & w' & -> & Hw').
  - intros c st (i & ds & w1 & -> & Hi & Hyi & Hw1 & F1 & ->). split; [lia|]. unfold write_round. remember (drop i l) as rest eqn:El.
    destruct Hyi as [s s' E|s s' r E Hr].
    + rewrite E. cbn [mbind option_bind negb]. eexists. split; [done|]. exists s', w1. apply (f_equal length) in El. rewrite length_drop in El. cbn in El.
      replace i with n in * by lia. rewrite take_ge by lia. done.
    + rewrite E. cbn [mbind option_bind negb].
      assert (l !! i = Some (value s', frequency s')) as Hv by (by rewrite <-(Nat.add_0_r i), <-lookup_drop, <-El; done).
      destruct (write_document_spec i w1 _ _ Hv Hw1) as (w2 & E2 & Hw2 & F2). rewrite E2. cbn [mbind option_bind]. eexists. split; [done|].
      apply lookup_lt_Some in Hv as Hlt. exists (Z.of_nat (n - S i)). split; [lia|]. exists (S i), s', w2.
      split; [|split; [lia|split; [|split; [done|split; [congruence|done]]]]].
      * rewrite (total_snoc i _ _ Hv). pose proof (postings_count hf l Hl). rewrite wrap_small by (unfold is_word; lia). do 3 f_equal. lia.
      * by rewrite <-Nat.add_1_r, <-drop_drop, <-El.
  - exists 0%nat, docs, w. cbn. rewrite Nat.sub_0_r. split; [done|]. split; [lia|]. split; [done|]. split; [|done].
    rewrite Nat.Div0.div_0_l. done.
  - pose proof (postings_count hf l Hl). lia.
  - exists docs', w'. by rewrite E.
Qed.
End loop.

(** *** The end of a term *)

(** What the term's metadata say of its documents *)
Definition meta_of (last meta : term_meta) : Prop :=
  tm_docs_count meta = Z.of_nat n /\ tm_freq meta = total l /\ tm_pos_start meta = tm_pos_start last /\ tm_pay_start meta = tm_pay_start last /\
  (n <> 0%nat -> tm_doc_start meta = start /\ tm_pos_end meta = address_limits.invalid) /\
  (n = 1%nat -> tm_ext meta = e_single_doc (nth 0 docs 0 - doc_limits.min)) /\
  ((kBlock < n)%nat -> tm_ext meta = e_skip_start (Z.of_nat (length (postings_bytes big hf l)))).

Lemma tail_of_take (vals : list Z) : length vals = n -> drop (kBlock * (n / kBlock)) (take n vals) = tail_of l vals.
Proof using All. intros E. unfold tail_of, full_blocks. by rewrite take_ge by lia. Qed.

(** Between terms *)
Record ready (w : postings_writer Out) : Prop := {
  rd_out : out_ok (pw_doc_out w);
  rd_skip : skip_prepared 8 max kBlock (pw_skip w);
  rd_length : length (db_docs (pw_doc w)) = kBlock /\ length (db_freqs (pw_doc w)) = kBlock;
  rd_pos : db_doc (pw_doc w) = 0%nat /\ db_freq (pw_doc w) = 0%nat;
  rd_buf : buffer_ok (pw_buf w);
}.

Lemma BeginTerm_spec w : ready w -> written (pw_doc_out w) = w0 -> HasFrequency (pw_features w) = hf -> writing 0 0 (BeginTerm w).
Proof using All.
  intros [R1 R2 R3 R4 R5] Hw Hf. assert (doc_pointer (pw_doc_out w) = start) as Eptr.
  { unfold doc_pointer. rewrite out_pointer_spec by done. by rewrite Hw, Estart. }
  split; cbn [BeginTerm pw_doc_out pw_skip pw_doc pw_buf pw_features]; try done.
  - rewrite Hw, Nat.Div0.div_0_l. by rewrite app_nil_r.
  - apply skip_holds_reset; [lia|done].
  - split; [cbn [db_skip_ptr]; by rewrite length_replicate|]. intros h Hh. cbn [db_skip_ptr]. rewrite Eptr, nth_lookup, lookup_replicate_2 by lia.
    unfold entries. rewrite Nat.Div0.div_0_l. rewrite Nat.mul_0_l. unfold block_ptr. cbn [blocks_enc length default]. cbn. lia.
Qed.

Lemma EndTerm_spec w meta : writing n ((n - 1) / kBlock) w -> exists L meta' w',
  EndTerm (Z.of_nat n) (total l) meta w = Some (meta', w') /\ ready w' /\
  written (pw_doc_out w') = w0 ++ term_bytes big hf l L /\ meta_of meta meta' /\ pw_features w' = pw_features w /\
  ((kBlock < n)%nat -> (0 < L <= max)%nat /\ forall h, (h < L)%nat -> (0 < entries 8 (skip_blocks l) h)%nat).
Proof using All.
  intros Hw. pose proof (wr_pointer _ _ _ Hw) as Eptr. destruct Hw as [W1 W2 W3 [[D1 D1'] [D2 D2'] D3 D4 D5 D6 D7] P W6 W7]. unfold EndTerm.
  assert (skip_0_ (pw_skip w) = Z.of_nat kBlock) as E0 by apply W3. rewrite E0.
  destruct (Z.eqb_spec (Z.of_nat n) 0) as [En|En].
  { exists 0%nat. eexists _, w. split; [done|]. assert (n = 0%nat) as En' by lia. split; [|split; [|split; [|split; [done|lia]]]].
    - split; [done|by eapply skip_holds_prepared|done|rewrite D2, D2', En'; by rewrite Nat.Div0.mod_0_l|done].
    - rewrite W2. unfold term_bytes, postings_bytes, full_blocks, tail_bytes. rewrite decide_False by lia. rewrite (decide_False (P := (kBlock < n)%nat)) by lia.
      rewrite En', Nat.Div0.div_0_l. cbn [blocks_enc]. f_equal. assert (docs = []) as -> by (apply length_zero_iff_nil; by rewrite length_docs).
      unfold tail_of. by rewrite drop_nil.
    - split; [done|]. split; [done|]. split; [done|]. split; [done|]. split; [lia|]. split; lia. }
  rewrite D2. rewrite D3, D4, D6, D7, W7, !tail_of_take by (apply length_docs || apply length_freqs).
  fold (full_blocks l). fold (tail_bytes hf l).
  set (out1 := write_tail hf (tail_of l docs) (tail_of l freqs) (base l (full_blocks l)) (pw_doc_out w)).
  destruct (write_tail_spec hf (tail_of l docs) (tail_of l freqs) (base l (full_blocks l)) (pw_doc_out w) W1) as [Ho1 Hw1]. fold out1 in Ho1, Hw1.
  rewrite W2, <-app_assoc in Hw1. fold (full_blocks l) in Hw1. fold (tail_bytes hf l) in Hw1. fold (postings_bytes big hf l) in Hw1.
  destruct (Z.ltb_spec (Z.of_nat kBlock) (Z.of_nat n)) as [Hskip|Hskip]; cycle 1.
  { exists 0%nat. destruct (Z.eqb_spec (Z.of_nat n) 1) as [E1|E1]; cbn [mbind option_bind]; eexists _, _; (split; [done|]);
      (split; [split; cbn [pw_doc_out pw_skip pw_doc pw_buf db_docs db_freqs db_doc db_freq]; try done; by eapply skip_holds_prepared|]);
      cbn [pw_doc_out pw_features]; (split; [|split; [|split; [done|lia]]]); unfold term_bytes.
    - rewrite decide_True by lia. rewrite W2, app_nil_r. replace n with 1%nat by lia. rewrite Nat.div_small by kb. by rewrite app_nil_r.
    - split; [done|]. split; [done|]. split; [done|]. split; [done|]. split; [done|]. split; [|lia]. intros En1. cbn [tm_ext]. f_equal.
      rewrite En1 in D3. rewrite Nat.mod_small, Nat.div_small, Nat.mul_0_r in D3 by kb. cbn [drop] in D3.
      assert (nth 0 (db_docs (pw_doc w)) 0 = nth 0 docs 0) as ->.
      { pose proof (f_equal (nth 0) D3) as E. apply (f_equal (fun g => g 0)) in E. pose proof (length_docs l) as Hld. rewrite En1 in Hld.
        destruct (db_docs (pw_doc w)), docs; done. }
      pose proof (docs_range hf l Hl 0 ltac:(lia)). rewrite wrap_small; [done|]. unfold is_word. doc_lia.
    - rewrite decide_False by lia. rewrite (decide_False (P := (kBlock < n)%nat)) by lia. by rewrite app_nil_r, Hw1.
    - split; [done|]. split; [done|]. split; [done|]. split; [done|]. split; [done|]. split; lia. }
  destruct (Z.eqb_spec (Z.of_nat n) 1) as [E1|_]; [kb|].
  assert ((n - 1) / kBlock <= full_blocks l)%nat as Hle by (apply Nat.Div0.div_le_mono; lia).
  destruct (SkipWriter_Flush_spec 8 ltac:(lia) max entry kBlock (skip_entry_ne big hf l Hl) ((n - 1) / kBlock) (pw_skip w) out1 W3)
    as (L & s' & out' & E & E' & HL & Hpos & Ho' & Hw' & Hs'); [kb|apply Hmax0; lia|unfold kMaxSkipLevels in *; lia|by apply levels_fit_all|done|].
  exists L. rewrite E. cbn [mbind option_bind]. rewrite E'. cbn [mbind option_bind]. eexists _, _. split; [done|].
  split; [split; cbn [pw_doc_out pw_skip pw_doc pw_buf db_docs db_freqs db_doc db_freq]; try done; by eapply skip_holds_prepared|].
  cbn [pw_doc_out pw_features]. split; [|split; [|split; [done|done]]].
  - rewrite Hw', Hw1. unfold term_bytes. rewrite decide_False by kb. rewrite decide_True by lia. by rewrite <-!app_assoc.
  - split; [done|]. split; [done|]. split; [done|]. split; [done|]. split; [done|]. split; [kb|]. intros _. cbn [tm_ext]. f_equal.
    unfold doc_pointer. rewrite out_pointer_spec by done. rewrite Hw1, length_app, Estart.
    rewrite wrap_small; [lia|]. unfold is_word. lia.
Qed.

(** [write] of the documents of an iterator *)
Lemma write_spec {D : Type} `{DocIterator D} (frequency : D -> Z) docs meta w :
  ready w -> written (pw_doc_out w) = w0 -> HasFrequency (pw_features w) = hf -> yields frequency docs l -> exists L meta' w',
  write p frequency docs meta w = Some (Done (meta', w')) /\ ready w' /\ written (pw_doc_out w') = w0 ++ term_bytes big hf l L /\
  meta_of meta meta' /\ pw_features w' = pw_features w /\
  ((kBlock < n)%nat -> (0 < L <= max)%nat /\ forall h, (h < L)%nat -> (0 < entries 8 (skip_blocks l) h)%nat).
Proof using All.
  intros Hr Hw Hf Hy. unfold write.
  destruct (write_loop_spec frequency docs (BeginTerm w) (BeginTerm_spec w Hr Hw Hf) Hy) as (docs' & w1 & -> & Hw1 & F1). rewrite bind_done.
  destruct (EndTerm_spec w1 meta Hw1) as (L & meta' & w2 & -> & H1' & H2' & H3' & H4' & H5'). exists L, meta', w2.
  split; [done|]. split; [done|]. split; [done|]. split; [done|]. split; [by rewrite H4'|done].
Qed.

End writing.

(** ** A writer as [prepare] leaves it *)

Lemma prepare_ready {Out : Type} `{IndexOutputSpec Out} alloc allocate (doc_count : Z) (out : Out) buf : out_ok out -> buffer_ok buf -> 0 <= doc_count < 2 ^ 32 ->
  exists max w, prepare alloc allocate doc_count (postings_writer_init out buf) = Some w /\ ready max w /\ pw_doc_out w = out /\
    (max <= kMaxSkipLevels)%nat /\ (Z.of_nat kBlock < doc_count -> (0 < max)%nat).
Proof.
  intros Ho Hb Hc. unfold prepare.
  destruct (SkipWriter_Prepare_spec alloc kBlock 8 (Z.of_nat kMaxSkipLevels) doc_count (SkipWriter_init (Z.of_nat kBlock) kSkipN))
    as (s & max & E & Hs & Hmax & Hpos); [kb|lia|lia|by cbn|done|done|constructor|].
  cbn [pw_skip postings_writer_init]. rewrite E. cbn [mbind option_bind]. exists max. eexists. split; [done|]. split; [|split; [done|split; [lia|done]]].
  split; cbn [pw_doc_out pw_skip pw_doc pw_buf postings_writer_init doc_buffer_init db_docs db_freqs db_doc db_freq]; try done.
Qed.

(** ** The documents of a lawful iterator *)

Lemma lawful_yields {D : Type} `{DocIteratorSpec D} (frequency : D -> Z) (F : Z -> Z) : forall s P, matches s P -> 
  (forall s, matches s P -> P (value s) = true -> frequency s = F (value s)) ->
  exists r, yields frequency s r /\ Forall (fun '(d, fr) => fr = F d) r /\ (forall d, d ∈ r.*1 <-> value s < d /\ P d = true) /\
    forall i j x y, (i < j)%nat -> r.*1 !! i = Some x -> r.*1 !! j = Some y -> x < y.
Proof.
  intros s P HM HF. remember (Z.to_nat (doc_limits.eof - value s)) as k eqn:Ek. revert s HM Ek.
  induction k as [k IH] using lt_wf_ind. intros s HM ->. destruct (next_spec s P HM) as (s' & E & HM' & Hf).
  pose proof (matches_range _ _ HM). pose proof (matches_range _ _ HM') as Hr'. pose proof (matches_docs _ _ HM) as HP.
  destruct (doc_limits.is_eof (value s')) eqn:Eeof.
  - exists []. split; [by eapply yields_end|]. split; [constructor|]. split; [|by intros i j x y _ Hx].
    intros d. cbn. rewrite elem_of_nil. split; [done|]. intros [Hd HPd]. apply is_eof_spec in Eeof. destruct Hf as [_ Hg].
    rewrite Hg in HPd; [done|]. pose proof (HP d HPd). doc_lia.
  - assert (value s' <> doc_limits.eof) as Hne by (intros Ee; apply is_eof_spec in Ee; congruence).
    destruct Hf as [[|[Hge HPv]] Hg]; [done|].
    destruct (IH (Z.to_nat (doc_limits.eof - value s')) ltac:(doc_lia) s' HM' eq_refl) as (r & Hy & Hfr & Hd & Hs).
    exists ((value s', frequency s') :: r). split; [by eapply yields_doc|]. split; [constructor; [by apply HF|done]|]. cbn [fmap list_fmap fst]. split.
    + intros d. rewrite elem_of_cons, Hd. split.
      * intros [->|[? ?]]; [split; [lia|done]|split; [lia|done]].
      * intros [Hlt HPd]. destruct (decide (d = value s')) as [|Hne']; [by left|right]. split; [|done].
        destruct (Z.lt_ge_cases (value s') d); [done|]. rewrite Hg in HPd by lia. done.
    + intros [|i] [|j] x y Hij Hx Hy'; try lia; cbn in *.
      * injection Hx as <-. apply list_elem_of_lookup_2 in Hy'. apply Hd in Hy'. lia.
      * apply (Hs i j x y); [lia|done|done].
Qed.
