(* ===== verification/PostingsReader.v ===== *)
(** * Postings: the reader

    [postings_reader::iterator] of core/formats/formats_10.cpp over fields without positions, and the iterators it
    makes: [single_doc_iterator] for a term with one document, [doc_iterator] for the others, which decodes a block of
    documents at a time and, when a term has more than one block, opens the skip list of the term at the first
    [seek] that can use it; [bit_union], which sets the bits of the documents of a number of terms. *)
From S2P Require Import Prelude BitUtils BytesIO Streams FileStreams MemoryFile StoreUtils BitPacking Simd BlockCodec Outcome Coding DocIterators Bitset SkipList Postings.

(** ** [SkipState] and [ReadSkip], without positions *)

Record SkipState := mkSkipState {
  ss_doc_ptr : Z;  (* pointer to the beginning of document block *)
  ss_doc : Z;      (* last document in a previous block *)
}.
Definition SkipState_init : SkipState := mkSkipState 0 doc_limits.invalid.

Definition ReadState {I} `{DataInput I} (state : SkipState) (in_ : I) : option (SkipState * I) :=
  '(doc, in_) ← read_vint in_;
  '(ptr, in_) ← read_vlong in_;
  Some (mkSkipState (ss_doc_ptr state +[64] ptr) doc, in_).

(** [rs_prev] is the state [prev_] points to. *)
Record ReadSkip := mkReadSkip { rs_levels : list SkipState; rs_prev : SkipState }.

Definition set_back (doc : Z) (r : ReadSkip) : option ReadSkip :=
  back ← last (rs_levels r);
  Some (mkReadSkip (<[(length (rs_levels r) - 1)%nat := mkSkipState (ss_doc_ptr back) doc]> (rs_levels r)) (rs_prev r)).
Definition ReadSkip_Disable : ReadSkip -> option ReadSkip := set_back doc_limits.eof.
Definition ReadSkip_init : option ReadSkip := ReadSkip_Disable (mkReadSkip [SkipState_init] SkipState_init).
(** [Enable(state)]: the front gets the start of the term. *)
Definition ReadSkip_Enable (state : term_meta) (r : ReadSkip) : option ReadSkip :=
  top ← head (rs_levels r);
  set_back doc_limits.invalid (mkReadSkip (<[0%nat := mkSkipState (tm_doc_start state) (ss_doc top)]> (rs_levels r)) (rs_prev r)).
Definition ReadSkip_Init (num_levels : nat) (r : ReadSkip) : ReadSkip :=
  mkReadSkip (take num_levels (rs_levels r) ++ replicate (num_levels - length (rs_levels r)) SkipState_init) (rs_prev r).
Definition ReadSkip_Reset (r : ReadSkip) : ReadSkip := mkReadSkip (rs_levels r) SkipState_init.
Definition ReadSkip_UpperBound (r : ReadSkip) : option Z := ss_doc <$> last (rs_levels r).

Definition ReadSkip_IsLess (level : nat) (target : Z) (r : ReadSkip) : bool :=
  match rs_levels r !! level with Some state => ss_doc state <? target | None => false end.
Definition ReadSkip_Read {I} `{DataInput I} (level : nat) (in_ : I) (r : ReadSkip) : option (I * ReadSkip) :=
  next ← rs_levels r !! level;
  '(state, in_) ← ReadState next in_;
  Some (in_, mkReadSkip (<[level := state]> (rs_levels r)) next).
Definition ReadSkip_Seal (level : nat) (r : ReadSkip) : ReadSkip :=
  match rs_levels r !! level with
  | Some next => mkReadSkip (<[level := mkSkipState (ss_doc_ptr next) doc_limits.eof]> (rs_levels r)) next
  | None => r
  end.
Definition ReadSkip_MoveDown (level : nat) (r : ReadSkip) : ReadSkip :=
  mkReadSkip (<[level := rs_prev r]> (rs_levels r)) (rs_prev r).

#[export] Instance read_skip {I} `{DataInput I} : SkipRead ReadSkip I := {
  IsLess := ReadSkip_IsLess;
  AdjustLevel level _ := level;
  Read := ReadSkip_Read;
  Seal := ReadSkip_Seal;
  MoveDown := ReadSkip_MoveDown;
}.

(** ** [doc_iterator]

    [itf] and [ff] are [IteratorTraits::frequency()] and [FieldTraits::frequency()]. *)

Record doc_iterator (I : Type) := mkDocIterator {
  di_docs : list Z;      (* buf_.docs *)
  di_freqs : list Z;     (* buf_.freqs *)
  di_enc_buf : list Z;
  di_begin : nat;        (* begin_ - buf_.docs *)
  di_freq_ : nat;        (* freq_ - buf_.freqs *)
  di_in : I;             (* doc_in_ *)
  di_left : Z;           (* left_ *)
  di_skip_offs : Z;
  di_skip : SkipReader ReadSkip I;
  di_doc : Z;            (* document::value *)
  di_freq : Z;           (* frequency::value *)
  di_cost : Z;
  di_docs_count : Z;
}.
Arguments mkDocIterator {I}.
Arguments di_docs {I}.
Arguments di_freqs {I}.
Arguments di_enc_buf {I}.
Arguments di_begin {I}.
Arguments di_freq_ {I}.
Arguments di_in {I}.
Arguments di_left {I}.
Arguments di_skip_offs {I}.
Arguments di_skip {I}.
Arguments di_doc {I}.
Arguments di_freq {I}.
Arguments di_cost {I}.
Arguments di_docs_count {I}.

Section iterator.
Context {I : Type} `{IndexInput I} (ops : input_operations I) (p : platform) (itf ff : bool).
Implicit Types s : doc_iterator I.

Definition set_buffers (docs freqs enc : list Z) (begin freq_ : nat) (in_ : I) (left_ : Z) s : doc_iterator I :=
  mkDocIterator docs freqs enc begin freq_ in_ left_ (di_skip_offs s) (di_skip s) (di_doc s) (di_freq s) (di_cost s) (di_docs_count s).
Definition set_doc (doc : Z) s : doc_iterator I :=
  mkDocIterator (di_docs s) (di_freqs s) (di_enc_buf s) (di_begin s) (di_freq_ s) (di_in s) (di_left s) (di_skip_offs s) (di_skip s)
    doc (di_freq s) (di_cost s) (di_docs_count s).
Definition set_position (begin freq_ : nat) (doc freq : Z) s : doc_iterator I :=
  mkDocIterator (di_docs s) (di_freqs s) (di_enc_buf s) begin freq_ (di_in s) (di_left s) (di_skip_offs s) (di_skip s)
    doc freq (di_cost s) (di_docs_count s).
Definition set_skip (skip : SkipReader ReadSkip I) (docs_count : Z) s : doc_iterator I :=
  mkDocIterator (di_docs s) (di_freqs s) (di_enc_buf s) (di_begin s) (di_freq_ s) (di_in s) (di_left s) (di_skip_offs s) skip
    (di_doc s) (di_freq s) (di_cost s) docs_count.

(** [read_tail_block]: [n] documents are read into the buffers from index [i] on. *)
Fixpoint read_tail (n i : nat) (docs freqs : list Z) (in_ : I) : option (list Z * list Z * I) :=
  match n with
  | O => Some (docs, freqs, in_)
  | S n =>
      '(v, in_) ← read_vint in_;
      if ff then
        let '(one, delta) := shift_unpack_32 v in
        let docs := <[i := delta]> docs in
        if itf then
          '(freq, in_) ← (if one : bool then Some (1, in_) else read_vint in_);
          read_tail n (S i) docs (<[i := freq]> freqs) in_
        else
          in_ ← (if one : bool then Some in_ else '(_, in_) ← read_vint in_; Some in_);
          read_tail n (S i) docs freqs in_
      else read_tail n (S i) (<[i := v]> docs) freqs in_
  end.

Definition read_tail_block s : option (doc_iterator I) :=
  let n := Z.to_nat (di_left s) in
  let doc := (length (di_docs s) - n)%nat in
  '(docs, freqs, in_) ← read_tail n doc (di_docs s) (di_freqs s) (di_in s);
  Some (set_buffers docs freqs (di_enc_buf s) doc (if itf then doc else di_freq_ s) in_ 0 s).

Definition refill s : option (doc_iterator I) :=
  if Z.of_nat kBlock <=? di_left s then
    '(docs, enc, in_) ← format_traits.read_block p (di_in s) (di_enc_buf s) (di_docs s);
    '(freqs, enc, in_) ←
      (if itf then format_traits.read_block p in_ enc (di_freqs s)
       else if ff then in_ ← format_traits.skip_block in_; Some (di_freqs s, enc, in_)
       else Some (di_freqs s, enc, in_));
    Some (set_buffers docs freqs enc 0 (if itf then 0%nat else di_freq_ s) in_ (di_left s -[32] Z.of_nat kBlock) s)
  else read_tail_block s.

(** The document becomes [min] before the first difference is added. *)
Definition first_doc s : doc_iterator I := set_doc (di_doc s +[32] (if doc_limits.valid (di_doc s) then 0 else 1)) s.

(** [doc_value += *begin_++; freq.value = *freq_++] *)
Definition advance s : option (doc_iterator I) :=
  delta ← di_docs s !! di_begin s;
  let doc := di_doc s +[32] delta in
  if itf then
    freq ← di_freqs s !! di_freq_ s;
    Some (set_position (S (di_begin s)) (S (di_freq_ s)) doc freq s)
  else Some (set_position (S (di_begin s)) (di_freq_ s) doc (di_freq s) s).

Definition doc_iterator_next s : option (bool * doc_iterator I) :=
  if (di_begin s =? length (di_docs s))%nat then
    if di_left s =? 0 then Some (false, set_doc doc_limits.eof s)
    else s ← refill s; s ← advance (first_doc s); Some (true, s)
  else s ← advance s; Some (true, s).

(** [seek_to_block] *)
Definition seek_to_block (target : Z) s : option (outcome (doc_iterator I)) :=
  let skip := set_reader (ReadSkip_Reset (rd_reader (di_skip s))) (di_skip s) in
  s ⇐ (if di_docs_count s =? 0 then done_ (set_skip skip (di_docs_count s) s)
       else
         match in_dup ops (di_in s) with
         | None => throw (io_error "Failed to duplicate document input")
         | Some skip_in =>
             let skip_in := Streams.seek (Z.to_nat (di_skip_offs s)) skip_in in
             skip ⇐ SkipReader_Prepare (in_dup ops) skip_in (di_docs_count s) skip;
             if (0 <? NumLevels skip)%nat && (NumLevels skip <=? kMaxSkipLevels)%nat then
               done_ (set_skip (set_reader (ReadSkip_Init (NumLevels skip) (rd_reader skip)) skip) 0 s)
             else throw (index_error "Invalid number of skip levels")
         end);
  '(left_, skip) ⇐ lift (SkipReader_Seek target (di_skip s));
  let last := rs_prev (rd_reader skip) in
  let s := set_skip skip (di_docs_count s) s in
  let s := set_buffers (di_docs s) (di_freqs s) (di_enc_buf s) (di_begin s) (di_freq_ s)
             (Streams.seek (Z.to_nat (ss_doc_ptr last)) (di_in s)) left_ s in
  done_ (set_doc (ss_doc last) s).

(** The rest of a block, of [n] documents, up to the first one that is not less than the target *)
Fixpoint scan_block (n : nat) (target : Z) s : option (bool * doc_iterator I) :=
  match n with
  | O => Some (false, s)
  | S n =>
      delta ← di_docs s !! di_begin s;
      let s := set_position (S (di_begin s)) (di_freq_ s) (di_doc s +[32] delta) (di_freq s) s in
      if target <=? di_doc s then
        if itf then
          freq ← di_freqs s !! (di_begin s - 1)%nat;
          Some (true, set_position (di_begin s) (di_begin s) (di_doc s) freq s)
        else Some (true, s)
      else scan_block n target s
  end.

(** [while (doc_value < target) next();] *)
Definition seek_next_round (target : Z) s : option (doc_iterator I + doc_iterator I) :=
  if di_doc s <? target then '(_, s) ← doc_iterator_next s; Some (inl s) else Some (inr s).

Definition scan (target : Z) s : option (Z * doc_iterator I) :=
  '(found, s) ← scan_block (length (di_docs s) - di_begin s) target s;
  if found : bool then Some (di_doc s, s)
  else s ← iterate 33 (seek_next_round target) s; Some (di_doc s, s).

Definition doc_iterator_seek (target : Z) s : option (outcome (Z * doc_iterator I)) :=
  if target <=? di_doc s then done_ (di_doc s, s)
  else
    bound ⇐ lift (ReadSkip_UpperBound (rd_reader (di_skip s)));
    if bound <? target then
      s ⇐ seek_to_block target s;
      if di_left s =? 0 then done_ (doc_limits.eof, set_doc doc_limits.eof s)
      else s ⇐ lift (refill s); lift (scan target (first_doc s))
    else lift (scan target s).

(** The constructor and [prepare]; [freqs] and [enc_buf] are what the memory of the buffers holds. *)
Definition doc_iterator_prepare (freqs enc_buf : list Z) (meta : term_meta) (doc_in : I) : option (outcome (doc_iterator I)) :=
  reader ⇐ lift ReadSkip_init;
  match in_reopen ops doc_in with
  | None => throw (io_error "failed to reopen document input")
  | Some in_ =>
      let in_ := Streams.seek (Z.to_nat (tm_doc_start meta)) in_ in
      '(reader, skip_offs, docs_count) ⇐
        lift (if Z.of_nat kBlock <? tm_docs_count meta then
                reader ← ReadSkip_Enable meta reader;
                e ← skip_start (tm_ext meta);
                Some (reader, tm_doc_start meta +[64] e, tm_docs_count meta)
              else Some (reader, 0, 0));
      done_ (mkDocIterator (replicate kBlock 0) freqs enc_buf kBlock 0 in_ (tm_docs_count meta) skip_offs
               (SkipReader_init (Z.of_nat kBlock) kSkipN reader) doc_limits.invalid 0 (tm_docs_count meta) docs_count)
  end.

(** ** [single_doc_iterator] *)

Record single_doc_iterator := mkSingle { sd_next : Z; sd_doc : Z; sd_freq : Z; sd_cost : Z }.

Definition single_prepare (meta : term_meta) : option single_doc_iterator :=
  d ← single_doc (tm_ext meta);
  Some (mkSingle (doc_limits.min +[32] d) doc_limits.invalid (if itf then tm_freq meta else 0) 1).
Definition single_next (s : single_doc_iterator) : bool * single_doc_iterator :=
  let s := mkSingle doc_limits.eof (sd_next s) (sd_freq s) (sd_cost s) in
  (negb (doc_limits.is_eof (sd_doc s)), s).
Definition single_seek (target : Z) (s : single_doc_iterator) : option (Z * single_doc_iterator) :=
  it ← iterate 2 (fun it : single_doc_iterator => Some (if sd_doc it <? target then inl (single_next it).2 else inr it)) s;
  Some (sd_doc it, it).

(** ** The iterators of a reader *)

Inductive posting_iterator :=
  | empty_posting (s : EmptyDocIterator)
  | single_posting (s : single_doc_iterator)
  | block_posting (s : doc_iterator I).

Definition posting_value (s : posting_iterator) : Z :=
  match s with empty_posting s => value s | single_posting s => sd_doc s | block_posting s => di_doc s end.
Definition posting_next (s : posting_iterator) : option (bool * posting_iterator) :=
  match s with
  | empty_posting s => '(b, s) ← DocIterators.next s; Some (b, empty_posting s)
  | single_posting s => let '(b, s) := single_next s in Some (b, single_posting s)
  | block_posting s => '(b, s) ← doc_iterator_next s; Some (b, block_posting s)
  end.
Definition posting_seek (target : Z) (s : posting_iterator) : option (outcome (Z * posting_iterator)) :=
  match s with
  | empty_posting s => '(v, s) ⇐ lift (DocIterators.seek target s); done_ (v, empty_posting s)
  | single_posting s => '(v, s) ⇐ lift (single_seek target s); done_ (v, single_posting s)
  | block_posting s => '(v, s) ⇐ doc_iterator_seek target s; done_ (v, block_posting s)
  end.
(** [irs::get<frequency>(it)->value] *)
Definition posting_frequency (s : posting_iterator) : Z :=
  match s with empty_posting _ => 0 | single_posting s => sd_freq s | block_posting s => di_freq s end.

(** What [postings_reader::iterator] does for given traits *)
Definition make_iterator (freqs enc_buf : list Z) (meta : term_meta) (doc_in : I) : option (outcome posting_iterator) :=
  if tm_docs_count meta =? 0 then done_ (empty_posting mkEmpty)
  else if tm_docs_count meta =? 1 then s ⇐ lift (single_prepare meta); done_ (single_posting s)
  else s ⇐ doc_iterator_prepare freqs enc_buf meta doc_in; done_ (block_posting s).

(** ** [bit_union] *)

(** [doc += delta; set_bit(set[doc / BITS], doc % BITS)] *)
Definition union_bit (doc : Z) (set : list Z) : option (list Z) :=
  w ← set !! Z.to_nat (doc / 64);
  Some (<[Z.to_nat (doc / 64) := Bit.set_bit 64 w (doc mod 64)]> set).

Fixpoint union_deltas (deltas : list Z) (doc : Z) (set : list Z) : option (Z * list Z) :=
  match deltas with
  | [] => Some (doc, set)
  | delta :: deltas => let doc := doc +[32] delta in set ← union_bit doc set; union_deltas deltas doc set
  end.

Fixpoint union_blocks (n : nat) (doc : Z) (docs enc : list Z) (in_ : I) (set : list Z) : option (Z * list Z * list Z * I * list Z) :=
  match n with
  | O => Some (doc, docs, enc, in_, set)
  | S n =>
      '(docs, enc, in_) ← format_traits.read_block p in_ enc docs;
      in_ ← (if ff then format_traits.skip_block in_ else Some in_);
      '(doc, set) ← union_deltas docs doc set;
      union_blocks n doc docs enc in_ set
  end.

Fixpoint union_tail (n : nat) (doc : Z) (in_ : I) (set : list Z) : option (I * list Z) :=
  match n with
  | O => Some (in_, set)
  | S n =>
      '(v, in_) ← read_vint in_;
      '(delta, in_) ←
        (if ff then
           let '(one, delta) := shift_unpack_32 v in
           in_ ← (if one : bool then Some in_ else '(_, in_) ← read_vint in_; Some in_); Some (delta, in_)
         else Some (v, in_));
      let doc := doc +[32] delta in
      set ← union_bit doc set;
      union_tail n doc in_ set
  end.

(** The function of the name, on the documents of a term: the buffers, the stream and the set behind it *)
Definition union_postings (docs_count : Z) (docs enc : list Z) (in_ : I) (set : list Z) : option (list Z * list Z * I * list Z) :=
  '(doc, docs, enc, in_, set) ← union_blocks (Z.to_nat (docs_count / Z.of_nat kBlock)) doc_limits.min docs enc in_ set;
  '(in_, set) ← union_tail (Z.to_nat (docs_count mod Z.of_nat kBlock)) doc in_ set;
  Some (docs, enc, in_, set).

(** The loop over the terms that the provider gives *)
Fixpoint union_terms (metas : list term_meta) (count : Z) (docs enc : list Z) (in_ : I) (set : list Z) : option (Z * list Z) :=
  match metas with
  | [] => Some (count, set)
  | meta :: metas =>
      if 1 <? tm_docs_count meta then
        '(docs, enc, in_, set) ← union_postings (tm_docs_count meta) docs enc (Streams.seek (Z.to_nat (tm_doc_start meta)) in_) set;
        union_terms metas (count +[64] tm_docs_count meta) docs enc in_ set
      else
        d ← single_doc (tm_ext meta);
        set ← union_bit (doc_limits.min +[32] d) set;
        union_terms metas (count +[64] 1) docs enc in_ set
  end.

(** [postings_reader::bit_union]; [docs] and [enc] are what the memory of the buffers holds. *)
Definition bit_union (metas : list term_meta) (docs enc : list Z) (doc_in : I) (set : list Z) : option (outcome (Z * list Z)) :=
  match in_reopen ops doc_in with
  | None => throw (io_error "failed to reopen document input")
  | Some in_ => lift (union_terms metas 0 docs enc in_ set)
  end.
End iterator.
Arguments posting_iterator : clear implicits.

(** ** [postings_reader::iterator_impl]: the traits of a field and of an iterator *)

Definition ALL : Z := Z.lor (Z.lor IndexFeatures.FREQ IndexFeatures.POS) (Z.lor IndexFeatures.OFFS IndexFeatures.PAY).
Definition with_positions (features : Z) : bool :=
  existsb (Z.eqb features)
    [ALL; Z.lor (Z.lor IndexFeatures.FREQ IndexFeatures.POS) IndexFeatures.OFFS;
     Z.lor (Z.lor IndexFeatures.FREQ IndexFeatures.POS) IndexFeatures.PAY; Z.lor IndexFeatures.FREQ IndexFeatures.POS].
Definition field_frequency (field_features : Z) : bool := field_features =? IndexFeatures.FREQ.
Definition frequency_enabled (field_features required_features : Z) : bool :=
  field_frequency field_features && (Z.land field_features required_features =? IndexFeatures.FREQ).

(** [postings_reader::iterator]; fields with positions are not modelled. *)
Definition postings_iterator {I} `{IndexInput I} (ops : input_operations I) (field_features required_features : Z) (freqs enc_buf : list Z)
    (meta : term_meta) (doc_in : I) : option (outcome (posting_iterator I)) :=
  if with_positions field_features then None
  else make_iterator ops (frequency_enabled field_features required_features) freqs enc_buf meta doc_in.
