(* ===== verification/PostingsErrors.v ===== *)
(** * Postings that cannot be written or read

    The exceptions of the postings writer and of its reader: documents out of order, inputs that cannot be opened or
    duplicated, skip lists that are damaged. *)
From S2P Require Import Prelude BitUtils BytesIO Streams FileStreams MemoryFile StoreUtils BitPacking Simd BlockCodec Outcome Coding DocIterators Bitset SkipList Postings PostingsReader.

(** A term with a skip list, and an iterator that has not opened it yet *)
Definition unopened {I} `{IndexInput I} (s : doc_iterator I) (target : Z) : Prop :=
  di_doc s < target /\ di_docs_count s <> 0 /\
  (exists bound, ReadSkip_UpperBound (rd_reader (di_skip s)) = Some bound /\ bound < target) /\ rd_levels (di_skip s) = [].

Section errors.
Context {I : Type} {DI : DataInput I} {DS : DataInputSpec I} {II : IndexInput I} {IS : IndexInputSpec I} {FI : FileInput I} {FS : FileInputSpec I}
  (p : platform) (itf ff : bool).

Lemma seek_unopened (ops : input_operations I) s target x : unopened s target -> seek_to_block ops target s = Some (Thrown x) ->
  doc_iterator_seek ops p itf ff target s = Some (Thrown x).
Proof.
  intros (Hd & _ & (bound & Eb & Hb) & _) E. unfold doc_iterator_seek. destruct (Z.leb_spec target (di_doc s)); [lia|].
  rewrite Eb, bind_lift. destruct (Z.ltb_spec bound target); [|lia]. by rewrite E.
Qed.

Lemma open_unopened (ops : input_operations I) f q s target x : unopened s target -> input_laws f ops -> at_ f q (di_in s) ->
  0 <= di_skip_offs s < Z.of_nat (length f) ->
  (forall skip_in (skip : SkipReader ReadSkip I), at_ f (Z.to_nat (di_skip_offs s)) skip_in -> rd_levels skip = [] ->
     exists r, SkipReader_Prepare (in_dup ops) skip_in (di_docs_count s) skip = Some r /\
       match r with Done skip => rd_levels skip = [] /\ x = index_error "Invalid number of skip levels" | Thrown y => y = x end) ->
  doc_iterator_seek ops p itf ff target s = Some (Thrown x).
Proof.
  intros Hu Hops Hs Ho Hprep. apply seek_unopened; [done|]. destruct Hu as (_ & Hc & _ & Hl). unfold seek_to_block. cbv zeta.
  destruct (Z.eqb_spec (di_docs_count s) 0); [done|]. destruct (dup_law _ _ Hops _ _ Hs) as (skip_in & -> & Hin).
  pose proof (seek_at f _ (Z.to_nat (di_skip_offs s)) _ Hin ltac:(lia)) as Hin'.
  destruct (Hprep _ (set_reader (ReadSkip_Reset (rd_reader (di_skip s))) (di_skip s)) Hin' Hl) as (r & -> & Hr).
  destruct r as [skip|y]; [|by rewrite Hr]. destruct Hr as [El ->]. rewrite bind_done. unfold NumLevels. by rewrite El.
Qed.

(** C11: What cannot be written or read throws. A document that is not behind the last one is an index error of the writer; an input that cannot
    be reopened is an I/O error of the iterator's construction, one that cannot be duplicated of the first [seek] that needs
    the skip list; a skip list without levels and one with an empty level are index errors of that [seek]. *)
Theorem postings_errors :
  (forall O (DO : DataOutput O) (DIO : IndexOutput O) id freq (w : postings_writer O), id <= db_last (pw_doc w) ->
     BeginDocument p id freq w = Some (Thrown (index_error "While beginning document in postings_writer, error: docs out of order"))) /\
  (forall (ops : input_operations I) freqs enc meta doc_in, 1 < tm_docs_count meta -> in_reopen ops doc_in = None ->
     make_iterator ops itf freqs enc meta doc_in = Some (Thrown (io_error "failed to reopen document input"))) /\
  (forall (ops : input_operations I) s target, unopened s target -> in_dup ops (di_in s) = None ->
     doc_iterator_seek ops p itf ff target s = Some (Thrown (io_error "Failed to duplicate document input"))) /\
  (forall (ops : input_operations I) f q s target r, unopened s target -> input_laws f ops -> at_ f q (di_in s) ->
     0 <= di_skip_offs s < Z.of_nat (length f) -> drop (Z.to_nat (di_skip_offs s)) f = VInt.vwrite32 0 ++ r ->
     doc_iterator_seek ops p itf ff target s = Some (Thrown (index_error "Invalid number of skip levels"))) /\
  (forall (ops : input_operations I) f q s target r, unopened s target -> input_laws f ops -> at_ f q (di_in s) ->
     0 <= di_skip_offs s < Z.of_nat (length f) -> drop (Z.to_nat (di_skip_offs s)) f = VInt.vwrite32 1 ++ VInt.vwrite64 0 ++ r ->
     doc_iterator_seek ops p itf ff target s = Some (Thrown (index_error "while loading level, error: zero length"))).
Proof.
  split; [|split; [|split; [|split]]].
  - intros O DO DIO id freq w Hid. unfold BeginDocument. destruct (Z.ltb_spec (db_last (pw_doc w)) id); [lia|done].
  - intros ops freqs enc meta doc_in Hn E. unfold make_iterator. destruct (Z.eqb_spec (tm_docs_count meta) 0); [lia|].
    destruct (Z.eqb_spec (tm_docs_count meta) 1); [lia|]. unfold doc_iterator_prepare.
    change ReadSkip_init with (Some (mkReadSkip [mkSkipState 0 doc_limits.eof] SkipState_init)). by rewrite bind_lift, E.
  - intros ops s target Hu E. apply seek_unopened; [done|]. destruct Hu as (_ & Hc & _). unfold seek_to_block. cbv zeta.
    destruct (Z.eqb_spec (di_docs_count s) 0); [done|]. by rewrite E.
  - intros ops f q s target r Hu Hops Hs Ho E. eapply open_unopened; [done..|]. intros skip_in skip Hin El. unfold SkipReader_Prepare.
    destruct (reads_vint f 0 ltac:(done) _ skip_in r Hin E) as (s1 & -> & _). rewrite bind_lift. eexists. split; [done|]. done.
  - intros ops f q s target r Hu Hops Hs Ho E. eapply open_unopened; [done..|]. intros skip_in skip Hin El. unfold SkipReader_Prepare.
    destruct (reads_vint f 1 ltac:(done) _ skip_in _ Hin E) as (s1 & -> & Hs1). rewrite bind_lift. cbn [Z.eqb]. change (Z.to_nat (1 - 1)) with 0%nat.
    assert (pow_u32 (rd_skip_n skip) 0 = Some 1) as -> by done. rewrite bind_lift. cbn [load_levels]. rewrite bind_done_. unfold load_level.
    destruct (reads_vlong f 0 ltac:(done) _ s1 r Hs1) as (s2 & -> & _); [by rewrite <-drop_drop, E, drop_app_length|]. rewrite bind_lift.
    eexists. split; [done|]. done.
Qed.
End errors.

(** A term of 200 documents, with a skip list that has no levels, and an input without copies *)
Definition example_meta : term_meta := mkMeta 200 200 0 0 address_limits.invalid 0 (e_skip_start 0).
Definition example_inputs : input_operations BytesView.t := mkInputOps BytesView.view_length (fun _ => None) (fun _ => None).

Lemma postings_errors_witness :
  make_iterator example_inputs true [] [] example_meta (BytesView.Make [0; 0] 0) = Some (Thrown (io_error "failed to reopen document input")) /\
  exists s, doc_iterator_prepare view_inputs [] [] example_meta (BytesView.Make [0; 0] 0) = Some (Done s) /\ unopened s 5 /\
    doc_iterator_seek example_inputs (Platform false false 4 0) true true 5 s = Some (Thrown (io_error "Failed to duplicate document input")) /\
    doc_iterator_seek view_inputs (Platform false false 4 0) true true 5 s = Some (Thrown (index_error "Invalid number of skip levels")).
Proof.
  destruct (postings_errors (I := BytesView.t) (Platform false false 4 0) true true) as (_ & H2 & H3 & H4 & _).
  split; [apply H2; done|]. eexists. split; [vm_compute; reflexivity|]. 
  match goal with |- unopened ?s _ /\ _ => assert (unopened s 5) as Hu end.
  { split; [done|]. split; [done|]. split; [|done]. exists 0. done. }
  split; [done|]. split; [by apply H3|].
  apply (H4 view_inputs [0; 0] 0%nat _ 5 [0]); [done|apply view_laws|by apply view_at; cbn; lia|cbn; lia|done].
Defined.
