(* ===== verification/PostingsBlocks.v ===== *)
(** * Reading the blocks and the tail of a term

    Blocks of the formats at a position of a file; [read_tail], which reads the tail of a term into the end of
    the buffers, and what the two iterators over blocks share. *)
From Stdlib Require Import ZifyNat.
From S2P Require Import Prelude BitUtils BytesIO Streams FileStreams MemoryFile StoreUtils BitPacking Simd BlockCodec Outcome Coding DocIterators Bitset SkipList SkipListSeek Postings PostingsWriter PostingsReader.

(** ** Blocks in files *)

Section blocks.
Context {I : Type} {DI : DataInput I} {DS : DataInputSpec I} {II : IndexInput I} {IS : IndexInputSpec I} {FI : FileInput I} {FS : FileInputSpec I}
  (f : list Z) (p : platform).
#[local] Abbreviation big := (big_endian p).

(** A scratch buffer for [n] words *)
Definition scratch (n : nat) (buf : list Z) : Prop := Forall (is_word 32) buf /\ length buf = n.

Lemma read_block32_at unpack k decoded decoded0 encoded q s r `{!UnpackFunc W32 (length decoded) unpack} :
  good_block W32 k decoded -> length decoded0 = length decoded -> scratch (length decoded) encoded ->
  at_ f q s -> drop q f = block_bytes big W32 decoded ++ r -> exists encoded' s',
  bitpack.read_block32 p unpack s encoded decoded0 = Some (decoded, encoded', s') /\
  at_ f (q + length (block_bytes big W32 decoded)) s' /\ scratch (length decoded) encoded'.
Proof.
  intros Hg Hlen0 [He Hle] Hs Hr. pose proof Hg as (Hl & Hk & Hsize & Hd). unfold bitpack.read_block32.
  unfold block_bytes in *. cbv zeta in *. destruct (forallb _ decoded) eqn:Eq.
  - destruct (reads_byte f 0 q s (var_bytes W32 (hd 0 decoded) ++ r) Hs Hr) as (s1 & -> & Hs1).
    cbn [mbind option_bind]. change (bitpack.ALL_EQUAL =? 0) with true. cbv iota.
    destruct (reads_vint f (hd 0 decoded) ltac:(by destruct Hd) _ s1 r Hs1) as (s2 & -> & Hs2).
    { by rewrite <-drop_drop, Hr. }
    cbn [mbind option_bind]. rewrite Hlen0, <-(all_equal_replicate decoded Eq). exists encoded, s2. split; [done|]. split; [|done].
    cbn [length] in *. by rewrite <-Nat.add_assoc in Hs2.
  - destruct (maxbits_bounds W32 k decoded Hg Eq) as [Hb Fb]. rewrite (block_words W32 k) in * by done.
    remember (packed.maxbits (bits_of W32) decoded) as bits. cbn [bits_of] in *.
    remember (k * Z.to_nat bits)%nat as n eqn:En. remember (bytes_of_words big W32 (digits 32 n (digits_value bits decoded))) as bs.
    destruct (reads_byte f bits q s (bs ++ r) Hs Hr) as (s1 & -> & Hs1). cbn [mbind option_bind].
    destruct (Z.eqb_spec bitpack.ALL_EQUAL bits) as [E0|_]; [unfold bitpack.ALL_EQUAL in E0; lia|].
    rewrite Hlen0. pose proof (bytes_required_spec W32 k decoded bits Hg Hb) as Hreq. cbn [bitpack.bytes_required bytes_of] in Hreq.
    rewrite Hreq, <-En, (Nat.mul_comm 4 n), Nat.div_mul by done.
    destruct (read_words p W32 n (digits_value bits decoded) encoded He ltac:(nia)) as [Eover Ewords]. cbn [bits_of] in *.
    rewrite <-Heqbs in *. assert (length bs = n * 4)%nat as Lbs by (subst bs; rewrite bytes_of_words_length, packed.length_digits; cbn [bytes_of]; lia).
    pose proof (packed.digits_words 32 n (digits_value bits decoded) ltac:(lia)) as Fdig.
    assert (drop (q + length [bits]) f = bs ++ r) as Hr1 by (rewrite <-drop_drop, Hr; done).
    pose proof (in_file f _ _ _ _ Hs1 Hr1) as Hin. rewrite Lbs in Hin.
    pose proof (read_buffer_at_ f _ (n * 4) s1 Hs1 Hin) as Hbuf. rewrite Hr1, take_app_length' in Hbuf by done.
    assert (q + length (bits :: bs) = q + length [bits] + n * 4)%nat as -> by (cbn [length]; lia).
    destruct (read_buffer (n * 4) s1) as [[buf|] s2].
    + destruct Hbuf as (-> & Hs2). rewrite Ewords. rewrite (unpack_func (w:=W32) (size:=length decoded) k) by
        (first [done | cbn [bits_of]; lia | rewrite packed.length_digits; lia]).
      cbn [mbind option_bind bits_of]. pose proof (stored_value 32 bits k decoded [] Hb Hl Fb) as Hsv.
      rewrite app_nil_r, <-En in Hsv. rewrite Hsv. by exists encoded, s2.
    + subst s2. destruct (read_bytes_at_ f _ (n * 4) s1 Hs1 Hin) as [E1 E2]. rewrite Hr1, take_app_length' in E1 by done.
      destruct (read_bytes (n * 4) s1) as [bs' s2]. cbn [fst snd] in *. subst bs'. rewrite Eover.
      assert (length (digits 32 n (digits_value bits decoded) ++ drop n encoded) = length decoded) as El.
      { rewrite length_app, packed.length_digits, length_drop. nia. }
      assert (Forall (is_word 32) (digits 32 n (digits_value bits decoded) ++ drop n encoded)) as Ef.
      { apply Forall_app. split; [done|by apply Forall_drop]. }
      rewrite (unpack_func (w:=W32) (size:=length decoded) k); [|cbn [bits_of]; lia|done|cbn [bits_of]; lia|rewrite El; cbn [bits_of]; nia|done].
      cbn [mbind option_bind bits_of]. rewrite En, (stored_value 32 bits k) by done. eexists _, s2. rewrite En in *. by split.
Qed.

(** What is skipped is not the end of the file. *)
Lemma skip_block32_at k decoded q s r : good_block W32 k decoded -> at_ f q s -> r <> [] ->
  drop q f = block_bytes big W32 decoded ++ r -> exists s',
  bitpack.skip_block32 (length decoded) s = Some s' /\ at_ f (q + length (block_bytes big W32 decoded)) s'.
Proof.
  intros Hg Hs Hne Hr. pose proof Hg as (Hl & Hk & Hsize & Hd). unfold bitpack.skip_block32.
  unfold block_bytes in *. cbv zeta in *. destruct (forallb _ decoded) eqn:Eq.
  - destruct (reads_byte f 0 q s (var_bytes W32 (hd 0 decoded) ++ r) Hs Hr) as (s1 & -> & Hs1).
    cbn [mbind option_bind]. change (bitpack.ALL_EQUAL =? 0) with true. cbv iota.
    destruct (reads_vint f (hd 0 decoded) ltac:(by destruct Hd) _ s1 r Hs1) as (s2 & -> & Hs2).
    { by rewrite <-drop_drop, Hr. }
    exists s2. split; [done|]. cbn [length] in *. by rewrite <-Nat.add_assoc in Hs2.
  - destruct (maxbits_bounds W32 k decoded Hg Eq) as [Hb Fb]. rewrite (block_words W32 k) in * by done.
    remember (packed.maxbits (bits_of W32) decoded) as bits. cbn [bits_of] in *.
    remember (k * Z.to_nat bits)%nat as n eqn:En. remember (bytes_of_words big W32 (digits 32 n (digits_value bits decoded))) as bs.
    destruct (reads_byte f bits q s (bs ++ r) Hs Hr) as (s1 & -> & Hs1). cbn [mbind option_bind].
    destruct (Z.eqb_spec bitpack.ALL_EQUAL bits) as [E0|_]; [unfold bitpack.ALL_EQUAL in E0; lia|].
    pose proof (bytes_required_spec W32 k decoded bits Hg Hb) as Hreq. cbn [bitpack.bytes_required bytes_of] in Hreq. rewrite Hreq, <-En.
    assert (length bs = 4 * n)%nat as Lbs by (subst bs; rewrite bytes_of_words_length, packed.length_digits; cbn [bytes_of]; lia).
    eexists. split; [done|]. assert (q + length (bits :: bs) = q + length [bits] + 4 * n)%nat as -> by (cbn [length]; lia).
    pose proof Hs1 as (_ & _ & -> & _). eapply seek_at; [exact Hs1|]. apply (f_equal length) in Hr. rewrite length_drop, length_app in Hr.
    cbn [length] in *. destruct r; [done|cbn [length] in Hr; lia].
Qed.

(** A block of the postings format *)
Lemma read_block_at decoded decoded0 encoded q s r : good_block W32 4 decoded -> length decoded0 = kBlock -> scratch kBlock encoded ->
  at_ f q s -> drop q f = block_bytes big W32 decoded ++ r -> exists encoded' s',
  format_traits.read_block p s encoded decoded0 = Some (decoded, encoded', s') /\
  at_ f (q + length (block_bytes big W32 decoded)) s' /\ scratch kBlock encoded'.
Proof.
  intros Hg Hl Hs Hq E. assert (length decoded = kBlock) as El by (rewrite kBlock_eq; exact (proj1 Hg)).
  assert (UnpackFunc W32 (length decoded) format_traits.unpack_block) as Hun by (rewrite El; exact format_unpack).
  destruct (read_block32_at format_traits.unpack_block 4 decoded decoded0 encoded q s r Hg) as (e & s' & E1 & H1 & H2); try done; [lia|by rewrite El|].
  exists e, s'. by rewrite <-El.
Qed.

Lemma skip_block_at decoded q s r : good_block W32 4 decoded -> at_ f q s -> r <> [] -> drop q f = block_bytes big W32 decoded ++ r -> exists s',
  format_traits.skip_block s = Some s' /\ at_ f (q + length (block_bytes big W32 decoded)) s'.
Proof. intros Hg. unfold format_traits.skip_block. rewrite <-(proj1 Hg : length decoded = format_traits.block_size). by apply (skip_block32_at 4). Qed.

(** ** The tail *)

Context (itf hf : bool).

(** What is stored of a document that is [delta] behind the one before it *)
Definition tail_entry (delta freq : Z) : list Z :=
  if hf then
    if 1 =? freq then VInt.vwrite32 (shift_pack_32 delta true) else VInt.vwrite32 (shift_pack_32 delta false) ++ VInt.vwrite32 freq
  else VInt.vwrite32 delta.
(** With frequencies, a difference leaves room for the flag. *)
Definition gap_ok (delta : Z) : Prop := is_word (if hf then 31 else 32) delta.

Lemma tail_enc_cons d ds fr fs prev : tail_enc hf (d :: ds) (fr :: fs) prev = tail_entry (d -[32] prev) fr ++ tail_enc hf ds fs d.
Proof. done. Qed.

Lemma tail_entry_spec delta freq q (s : I) r : gap_ok delta -> is_word 32 freq -> at_ f q s -> drop q f = tail_entry delta freq ++ r -> exists v (s1 : I),
  read_vint s = Some (v, s1) /\
  if hf then
    shift_unpack_32 v = (1 =? freq, delta) /\
    if 1 =? freq then at_ f (q + length (tail_entry delta freq)) s1
    else exists s2 : I, read_vint s1 = Some (freq, s2) /\ at_ f (q + length (tail_entry delta freq)) s2
  else v = delta /\ at_ f (q + length (tail_entry delta freq)) s1.
Proof.
  unfold tail_entry, gap_ok. intros Hd Hf Hs E. destruct hf.
  - assert (forall b, is_word 32 (shift_pack_32 delta b) /\ shift_unpack_32 (shift_pack_32 delta b) = (b, delta)) as Hpack.
    { intros b. split; [by apply (shift_pack_word 32 delta b)|by apply (shift_unpack_pack 32)]. }
    destruct (1 =? freq).
    + destruct (Hpack true) as [Hw Hu]. destruct (reads_vint f _ Hw q s r Hs E) as (s1 & E1 & Hs1). by exists (shift_pack_32 delta true), s1.
    + destruct (Hpack false) as [Hw Hu]. rewrite length_app, Nat.add_assoc. apply behind in E as [E E'].
      destruct (reads_vint f _ Hw q s _ Hs E) as (s1 & E1 & Hs1). exists (shift_pack_32 delta false), s1. split; [done|]. split; [done|].
      destruct (reads_vint f freq Hf _ s1 _ Hs1 E') as (s2 & E2 & Hs2). by exists s2.
  - destruct (reads_vint f delta Hd q s r Hs E) as (s1 & E1 & Hs1). by exists delta, s1.
Qed.

(** A value stored at index [i], when the indices behind it follow *)
Lemma drop_stored (i : nat) (x : Z) vals mem mem' : (i < length mem)%nat -> take (S i) mem' = take (S i) (<[i := x]> mem) -> drop (S i) mem' = vals ->
  take i mem' = take i mem /\ drop i mem' = x :: vals.
Proof.
  intros Hi Et Ed. assert (take i mem' = take i mem) as E0.
  { apply (f_equal (take i)) in Et. rewrite !take_take, Nat.min_l in Et by lia. by rewrite Et, take_insert_ge by lia. }
  split; [done|]. assert (mem' !! i = Some x) as Hx.
  { rewrite <-(lookup_take_lt mem' (S i)), Et, lookup_take_lt by lia. by apply list_lookup_insert_eq. }
  by rewrite (drop_S mem' x i Hx), Ed.
Qed.

Context (Hitf : itf = true -> hf = true).

Lemma read_tail_spec ds : forall fs prev i docs freqs q s r, length fs = length ds -> (i + length ds = length docs)%nat -> length freqs = length docs ->
  Forall gap_ok (delta_encode_from 32 prev ds) -> Forall (is_word 32) fs -> at_ f q s -> drop q f = tail_enc hf ds fs prev ++ r ->
  exists docs' freqs' s', read_tail itf hf (length ds) i docs freqs s = Some (docs', freqs', s') /\
    at_ f (q + length (tail_enc hf ds fs prev)) s' /\ take i docs' = take i docs /\ drop i docs' = delta_encode_from 32 prev ds /\
    length freqs' = length freqs /\ take i freqs' = take i freqs /\ (itf = true -> drop i freqs' = fs).
Proof using FS Hitf.
  induction ds as [|d ds IH]; intros [|fr fs] prev i docs freqs q s r Hl Hi Hfl Hd Hf Hs E; try done.
  { exists docs, freqs, s. cbn in *. rewrite Nat.add_0_r in *. rewrite !drop_ge by lia. done. }
  rewrite tail_enc_cons in *. rewrite length_app, Nat.add_assoc. apply Forall_cons in Hf as [Hf1 Hf2].
  cbn [delta_encode_from length read_tail] in *. apply Forall_cons in Hd as [Hd1 Hd2]. apply behind in E as [E E'].
  set (delta := d -[32] prev) in *. destruct (tail_entry_spec delta fr q s _ Hd1 Hf1 Hs E) as (v & s1 & -> & Hv). cbn [mbind option_bind].
  assert (forall s2 freqs1, at_ f (q + length (tail_entry delta fr)) s2 -> length freqs1 = length freqs ->
    freqs1 = (if itf then <[i := fr]> freqs else freqs) -> exists docs' freqs' s',
    read_tail itf hf (length ds) (S i) (<[i := delta]> docs) freqs1 s2 = Some (docs', freqs', s') /\
    at_ f (q + length (tail_entry delta fr) + length (tail_enc hf ds fs d)) s' /\ take i docs' = take i docs /\
    drop i docs' = delta :: delta_encode_from 32 d ds /\ length freqs' = length freqs /\ take i freqs' = take i freqs /\
    (itf = true -> drop i freqs' = fr :: fs)) as Hrec.
  { intros s2 freqs1 Hs2 Hl1 Ef1. destruct (IH fs d (S i) (<[i := delta]> docs) freqs1 _ s2 r ltac:(lia) ltac:(rewrite length_insert; lia)
      ltac:(rewrite length_insert; lia) Hd2 Hf2 Hs2 E') as (docs' & freqs' & s' & -> & Hs' & Et & Ed & El & Etf & Edf).
    exists docs', freqs', s'. split; [done|]. split; [done|]. destruct (drop_stored i delta _ docs docs' ltac:(lia) Et Ed) as [-> ->].
    split; [done|]. split; [done|]. split; [lia|]. subst freqs1. destruct itf.
    - destruct (drop_stored i fr _ freqs freqs' ltac:(lia) Etf (Edf eq_refl)) as [-> ->]. done.
    - split; [|done]. apply (f_equal (take i)) in Etf. by rewrite !take_take, Nat.min_l in Etf by lia. }
  destruct hf.
  - destruct Hv as [-> Hv]. destruct (1 =? fr) eqn:E1.
    + apply Z.eqb_eq in E1. subst fr. destruct itf; cbn [mbind option_bind]; apply Hrec; rewrite ?length_insert; done.
    + destruct Hv as (s2 & E2 & Hs2). rewrite E2. cbn [mbind option_bind]. destruct itf; apply Hrec; rewrite ?length_insert; done.
  - destruct Hv as [-> Hv]. destruct itf; [by specialize (Hitf eq_refl)|]. by apply Hrec.
Qed.

End blocks.
