(* ===== verification/PostingsIterator.v ===== *)
(** * Iterating over postings

    [doc_iterator] on the bytes that the postings writer leaves of a term ([term_bytes]): its state behind a number of
    documents ([stands]) and what [next] and [seek] do to it, the search in the skip list included. Every
    iterator of the reader ([posting_iterator]) is a lawful iterator over the documents of its term, and its
    frequencies are those of the term. *)
From stdpp Require Import functions.
From Stdlib Require Import ZifyNat.
From S2P Require Import Prelude BitUtils BytesIO Streams FileStreams MemoryFile StoreUtils BitPacking Simd BlockCodec Outcome Coding DocIterators Bitset SkipList SkipListSeek Postings PostingsWriter PostingsReader PostingsBlocks.

(** ** Documents and their differences *)

Section documents.
Context (big hf : bool) (l : list (Z * Z)) (Hl : good_postings hf l).
#[local] Abbreviation docs := (l.*1).
#[local] Abbreviation freqs := (l.*2).
#[local] Abbreviation n := (length l).

(** What the difference of document [i] is from, and where an iterator stands behind [i] documents. *)
Definition prev (i : nat) : Z := match i with O => doc_limits.min | S j => nth j docs 0 end.
Definition value_at (i : nat) : Z := match i with O => doc_limits.invalid | S j => nth j docs doc_limits.eof end.
Definition deltas (i k : nat) : list Z := delta_encode_from 32 (prev i) (take k (drop i docs)).

Lemma base_prev b : base l b = prev (kBlock * b).
Proof.
  unfold base, prev. destruct b as [|b]; [by rewrite Nat.mul_0_r|]. cbn [key]. rewrite kBlock_eq.
  replace (128 * S b)%nat with (S (128 * S b - 1)) at 2 by lia. done.
Qed.

Lemma docs_at i : (i < n)%nat -> docs !! i = Some (nth i docs 0).
Proof using Type. intros Hi. rewrite <-(length_docs l) in Hi. destruct (lookup_lt_is_Some_2 docs i Hi) as [x Hx]. by rewrite (nth_lookup_Some _ _ _ _ Hx). Qed.

Lemma deltas_S i k : (i < n)%nat -> deltas i (S k) = (nth i docs 0 -[32] prev i) :: deltas (S i) k.
Proof using Type. intros Hi. unfold deltas. by rewrite (drop_S docs _ i (docs_at i Hi)). Qed.

Lemma prev_step i : (i < n)%nat -> prev i +[32] (nth i docs 0 -[32] prev i) = nth i docs 0.
Proof using Hl.
  intros Hi. rewrite wrap_add_r. replace (prev i + (nth i docs 0 - prev i)) with (nth i docs 0) by lia. apply wrap_small.
  pose proof (docs_range hf l Hl i Hi). unfold is_word. doc_lia.
Qed.

Lemma gap_ok_at i : (i < n)%nat -> gap_ok hf (nth i docs 0 -[32] prev i).
Proof using Hl.
  intros Hi. pose proof (docs_range hf l Hl i Hi) as Hr.
  assert (1 <= prev i <= nth i docs 0) as Hp.
  { destruct i as [|j]; cbn [prev]; [doc_lia|]. pose proof (docs_lt hf l Hl j (S j)). pose proof (docs_range hf l Hl j). doc_lia. }
  assert (hf = true -> nth i docs 0 <= 2 ^ 31) as Hg.
  { intros Ehf. pose proof (gp_gaps hf l Hl Ehf) as Hg. rewrite Forall_lookup in Hg. apply (Hg i), docs_at, Hi. }
  rewrite wrap_small by (unfold is_word; doc_lia). unfold gap_ok, is_word. destruct hf; [specialize (Hg eq_refl); lia|doc_lia].
Qed.

Lemma deltas_ok i k : Forall (gap_ok hf) (deltas i k).
Proof using Hl.
  revert i. induction k as [|k IH]; intros i; [unfold deltas; rewrite take_0; constructor|].
  destruct (decide (i < n)%nat) as [Hi|Hi].
  - rewrite deltas_S by done. constructor; [by apply gap_ok_at|apply IH].
  - unfold deltas. rewrite drop_ge by (rewrite length_docs; lia). constructor.
Qed.

Lemma length_deltas i k : (i + k <= n)%nat -> length (deltas i k) = k.
Proof using Type. intros Hk. unfold deltas. rewrite simd.length_delta, length_take, length_drop, length_docs. lia. Qed.

Lemma block_deltas_eq b : block_deltas l b = deltas (kBlock * b) kBlock.
Proof using Type. unfold block_deltas, deltas. by rewrite base_prev. Qed.

Lemma value_prev i : (0 < i <= n)%nat -> value_at i = prev i.
Proof using Type. destruct i as [|j]; [lia|]. intros Hj. cbn. apply nth_indep. rewrite length_docs. lia. Qed.

Lemma value_eof i : (n < i)%nat -> value_at i = doc_limits.eof.
Proof using Type. destruct i as [|j]; [lia|]. intros Hj. cbn. apply nth_overflow. rewrite length_docs. lia. Qed.

Lemma value_doc j : (j < n)%nat -> value_at (S j) = nth j docs 0.
Proof using Type. intros Hj. rewrite value_prev by lia. done. Qed.

(** *** Where the blocks are *)

Lemma blocks_enc_split b k : (b <= k)%nat -> exists x, blocks_enc big hf l k = blocks_enc big hf l b ++ x /\
  ((b < k)%nat -> exists y, x = block_enc big hf l b ++ y) /\ (b = k -> x = []).
Proof using Type.
  induction 1 as [|k Hb IH]; [exists []; rewrite app_nil_r; split; [done|]; split; [lia|done]|]. destruct IH as (x & E & Hlt & Heq).
  cbn [blocks_enc]. rewrite E. exists (x ++ block_enc big hf l k). split; [by rewrite app_assoc|]. split; [|lia]. intros _.
  destruct (decide (b = k)) as [->|Hne]; [rewrite Heq by done; exists []; by rewrite app_nil_r|]. destruct (Hlt ltac:(lia)) as (y & ->).
  exists (y ++ block_enc big hf l k). by rewrite app_assoc.
Qed.

Lemma blocks_split b : (b <= full_blocks l)%nat -> exists r, postings_bytes big hf l = blocks_enc big hf l b ++ r /\
  ((b < full_blocks l)%nat -> exists r', r = block_enc big hf l b ++ r') /\ (b = full_blocks l -> r = tail_bytes hf l).
Proof using Type.
  intros Hb. destruct (blocks_enc_split b _ Hb) as (x & E & Hlt & Heq). unfold postings_bytes. exists (x ++ tail_bytes hf l).
  split; [by rewrite E, app_assoc|]. split.
  - intros H. destruct (Hlt H) as (y & ->). exists (y ++ tail_bytes hf l). by rewrite app_assoc.
  - intros H. by rewrite (Heq H).
Qed.
End documents.

(** ** The iterator on a term *)

Section iterating.
Context {I : Type} {DI : DataInput I} {DS : DataInputSpec I} {II : IndexInput I} {IS : IndexInputSpec I} {FI : FileInput I} {FS : FileInputSpec I}
  (f : list Z) (p : platform) (ops : input_operations I) (Hops : input_laws f ops) (itf hf : bool) (Hitf : itf = true -> hf = true)
  (l : list (Z * Z)) (Hl : good_postings hf l).
#[local] Abbreviation big := (big_endian p).
#[local] Abbreviation docs := (l.*1).
#[local] Abbreviation freqs := (l.*2).
#[local] Abbreviation n := (length l).
#[local] Abbreviation ptr b := (length (blocks_enc big hf l b)).
#[local] Abbreviation prev := (prev l).
#[local] Abbreviation deltas := (deltas l).
#[local] Abbreviation value_at := (value_at l).

(** The term in the file *)
Record term_at (start L : nat) : Prop := {
  ta_rest : exists r, drop start f = term_bytes big hf l L ++ r /\ r <> [];
  ta_file : Z.of_nat (length f) < 2 ^ 64;
  ta_levels : (kBlock < n)%nat -> (0 < L <= kMaxSkipLevels)%nat /\ forall h, (h < L)%nat -> (0 < entries 8 (skip_blocks l) h)%nat;
}.
Context (start L : nat) (Ht : term_at start L) (Hn : (1 < n)%nat).

(** What lies behind a number of blocks *)
Lemma behind_blocks b : (b <= full_blocks l)%nat -> exists r r', drop (start + ptr b) f = r ++ r' /\ r' <> [] /\
  ((b < full_blocks l)%nat -> exists x, r = block_enc big hf l b ++ x) /\ (b = full_blocks l -> r = tail_bytes hf l).
Proof using Ht Hn.
  intros Hb. destruct (ta_rest _ _ Ht) as (rest & E & Hrest). destruct (blocks_split big hf l b Hb) as (x & Ex & H1 & H2).
  unfold term_bytes in E. rewrite decide_False in E by lia. rewrite Ex, <-!app_assoc in E.
  eexists x, _. rewrite <-drop_drop, E, drop_app_length. split; [done|]. split; [|done]. intros [_ ?]%app_nil. done.
Qed.

Lemma ptr_lt b : (b <= full_blocks l)%nat -> (start + ptr b < length f)%nat.
Proof using Ht Hn.
  intros Hb. destruct (behind_blocks b Hb) as (r & r' & E & Hne & _). apply (f_equal length) in E. rewrite length_drop, length_app in E.
  destruct r'; [done|]. cbn in E. lia.
Qed.

(** *** The buffers *)

Definition buffers_ok (s : doc_iterator I) : Prop :=
  length (di_docs s) = kBlock /\ length (di_freqs s) = kBlock /\ scratch kBlock (di_enc_buf s).

(** The stream stands at block [b], with the documents from there on left. *)
Record at_block (b : nat) (s : doc_iterator I) : Prop := {
  ab_bufs : buffers_ok s;
  ab_left : di_left s = Z.of_nat n - Z.of_nat (kBlock * b) /\ (kBlock * b < n)%nat;
  ab_in : at_ f (start + ptr b) (di_in s);
}.

(** [N] documents were loaded, [i] of them are behind. *)
Record buffered (i N : nat) (s : doc_iterator I) : Prop := {
  bu_bufs : buffers_ok s;
  bu_range : (i <= N <= n)%nat;
  bu_begin : (di_begin s + (N - i) = kBlock)%nat;
  bu_docs : drop (di_begin s) (di_docs s) = deltas i (N - i);
  bu_freqs : itf = true -> drop (di_begin s) (di_freqs s) = take (N - i) (drop i freqs);
  bu_left : di_left s = Z.of_nat n - Z.of_nat N;
  bu_in : exists q, at_ f q (di_in s);
  bu_next : (N < n)%nat -> exists b, N = (kBlock * b)%nat /\ at_ f (start + ptr b) (di_in s);
}.

(** What [refill] and the scans leave *)
Definition same_skip (s s' : doc_iterator I) : Prop :=
  di_skip_offs s' = di_skip_offs s /\ di_skip s' = di_skip s /\ di_docs_count s' = di_docs_count s.

Lemma full_of b : (kBlock * b <= n)%nat -> (b <= full_blocks l)%nat.
Proof using All. unfold full_blocks. intros Hb. kb. Qed.

Lemma at_block_of i s : buffered i i s -> (i < n)%nat -> exists b, i = (kBlock * b)%nat /\ at_block b s.
Proof using All.
  intros [B1 B2 B3 B4 B5 B6 B7 B8] Hi. destruct (B8 Hi) as (b & -> & Hb). exists b. split; [done|]. by split.
Qed.

Lemma left_range b s : at_block b s -> (Z.of_nat kBlock <=? di_left s) = bool_decide (b < full_blocks l)%nat.
Proof using All.
  intros [_ [-> Hb] _]. unfold full_blocks. case_bool_decide as H; [apply Z.leb_le|apply Z.leb_gt]; kb.
Qed.

(** A block with its frequencies, read or skipped *)
Lemma read_both b s q r : (b < full_blocks l)%nat -> buffers_ok s -> at_ f q (di_in s) -> r <> [] -> drop q f = block_enc big hf l b ++ r ->
  exists enc1 in1 freqs' enc' in', format_traits.read_block p (di_in s) (di_enc_buf s) (di_docs s) = Some (block_deltas l b, enc1, in1) /\
  (if itf then format_traits.read_block p in1 enc1 (di_freqs s)
   else if hf then in_ ← format_traits.skip_block in1; Some (di_freqs s, enc1, in_) else Some (di_freqs s, enc1, in1)) = Some (freqs', enc', in') /\
  length freqs' = kBlock /\ (itf = true -> freqs' = block_of b freqs) /\ scratch kBlock enc' /\ at_ f (q + length (block_enc big hf l b)) in'.
Proof using All.
  intros Hb (B1 & B2 & B3) Hs Hr E.
  destruct (block_good hf l Hl b) as (Hg1 & Hg2 & Hlen); [unfold full_blocks in Hb; kb|]. unfold block_enc in E. rewrite <-app_assoc in E.
  destruct (read_block_at f p (block_deltas l b) (di_docs s) (di_enc_buf s) q (di_in s) _ Hg1 B1 B3 Hs E) as (e1 & s1 & -> & Hs1 & He1).
  exists e1, s1. unfold block_enc. rewrite length_app, Nat.add_assoc.
  assert (drop (q + length (block_bytes big W32 (block_deltas l b))) f = (if hf then block_bytes big W32 (block_of b freqs) else []) ++ r) as E1.
  { by rewrite <-drop_drop, E, drop_app_length. }
  destruct itf.
  - rewrite (Hitf eq_refl) in *. destruct (read_block_at f p (block_of b freqs) (di_freqs s) e1 _ s1 r Hg2 B2 He1 Hs1 E1) as (e2 & s2 & -> & Hs2 & He2).
    exists (block_of b freqs), e2, s2. split; [done|]. split; [done|]. split; [|done]. rewrite kBlock_eq. exact (proj1 Hg2).
  - destruct hf.
    + destruct (skip_block_at f p (block_of b freqs) _ s1 r Hg2 Hs1 Hr E1) as (s2 & -> & Hs2). cbn [mbind option_bind].
      exists (di_freqs s), e1, s2. by split.
    + cbn [length]. rewrite Nat.add_0_r. exists (di_freqs s), e1, s1. by split.
Qed.

Lemma refill_spec b s : at_block b s -> exists s' N, refill p itf hf s = Some s' /\ buffered (kBlock * b) N s' /\ (kBlock * b < N)%nat /\
  (itf = true -> di_freq_ s' = di_begin s') /\ di_doc s' = di_doc s /\ di_freq s' = di_freq s /\ same_skip s s'.
Proof using All.
  intros Hs. unfold refill. rewrite (left_range b s Hs). destruct Hs as [(B1 & B2 & B3) [El Hlt] Hin].
  destruct (behind_blocks b (full_of b ltac:(lia))) as (x & r & E & Hr & Hfull & Htail).
  case_bool_decide as Hb.
  - destruct (Hfull Hb) as (y & ->). rewrite <-app_assoc in E. assert (kBlock * S b <= n)%nat as Hsb by (unfold full_blocks in Hb; kb).
    destruct (read_both b s _ (y ++ r) Hb ltac:(done) Hin) as (e1 & s1 & fs' & e' & s' & E1 & E2 & L1 & L2 & L3 & Hs'); [by destruct y, r|done|].
    rewrite E1. cbn [mbind option_bind]. rewrite E2. cbn [mbind option_bind].
    eexists _, (kBlock * S b)%nat. split; [done|]. pose proof (length_deltas l (kBlock * b) kBlock ltac:(lia)) as Hld.
    split; [|split; [kb|split; [by intros ->|done]]]. split; cbn [set_buffers di_docs di_freqs di_enc_buf di_begin di_freq_ di_left di_in].
    + split; cbn; [rewrite block_deltas_eq by done; done|done].
    + lia.
    + kb.
    + replace (kBlock * S b - kBlock * b)%nat with kBlock by lia. cbn [drop]. by rewrite block_deltas_eq.
    + intros Hi. replace (kBlock * S b - kBlock * b)%nat with kBlock by lia. cbn [drop]. by rewrite L2.
    + rewrite El, wrap_small; [lia|]. pose proof (postings_count hf l Hl). unfold is_word. kb.
    + by eexists.
    + intros _. exists (S b). split; [done|]. cbn [blocks_enc]. by rewrite length_app, Nat.add_assoc.
  - assert (b = full_blocks l) as Eb by (pose proof (full_of b); lia). rewrite (Htail Eb) in E. unfold read_tail_block.
    set (m := (n - kBlock * b)%nat) in *. assert (m < kBlock)%nat as Hm by (subst b; unfold m, full_blocks; kb).
    assert (Z.to_nat (di_left s) = m) as -> by (unfold m; lia). rewrite B1. unfold tail_bytes, tail_of in E. rewrite <-Eb in E.
    assert (length (drop (kBlock * b) docs) = m) as Lm by (rewrite length_drop, length_docs; done).
    assert (length (drop (kBlock * b) freqs) = m) as Lmf by (rewrite length_drop, length_freqs; done).
    assert (delta_encode_from 32 (base l b) (drop (kBlock * b) docs) = deltas (kBlock * b) m) as Ed.
    { unfold PostingsIterator.deltas. rewrite take_ge by lia. by rewrite base_prev. }
    destruct (read_tail_spec f itf hf Hitf (drop (kBlock * b) docs) (drop (kBlock * b) freqs) (base l b) (kBlock - m) (di_docs s) (di_freqs s)
        (start + ptr b) (di_in s) r)
      as (ds' & fs' & s' & Er & Hs' & T1 & T2 & T3 & T4 & T5); rewrite ?Lm; try done; try lia;
      [rewrite Ed; by apply deltas_ok|apply Forall_drop, Hl|].
    rewrite Lm in Er. rewrite Er. cbn [mbind option_bind]. eexists _, n. split; [done|]. split; [|split; [done|split; [by intros ->|done]]].
    pose proof (f_equal length T1) as T1'. pose proof (f_equal length T2) as T2'. rewrite !length_take in T1'. rewrite length_drop, simd.length_delta, Lm in T2'.
    split; cbn [set_buffers di_docs di_freqs di_enc_buf di_begin di_freq_ di_left di_in].
    + split; cbn; [lia|]. split; [lia|done].
    + lia.
    + lia.
    + fold m. by rewrite T2, Ed.
    + intros Hi. rewrite (T5 Hi). fold m. by rewrite take_ge by lia.
    + lia.
    + by eexists.
    + lia.
Qed.

(** *** Documents from the buffer *)

Lemma buffered_head i N s : buffered i N s -> (i < N)%nat -> di_docs s !! di_begin s = Some (nth i docs 0 -[32] prev i) /\
  (itf = true -> di_freqs s !! di_begin s = Some (nth i freqs 0)).
Proof using All.
  intros [B1 B2 B3 B4 B5 B6 B7 B8] Hi. replace (N - i)%nat with (S (N - S i)) in B4, B5 by lia. split.
  - rewrite deltas_S in B4 by lia. by rewrite <-(Nat.add_0_r (di_begin s)), <-lookup_drop, B4.
  - intros Ht'. specialize (B5 Ht'). rewrite <-(Nat.add_0_r (di_begin s)), <-lookup_drop, B5, lookup_take_lt, lookup_drop, Nat.add_0_r by lia.
    assert (i < length freqs)%nat as Hf by (rewrite length_freqs; lia). destruct (lookup_lt_is_Some_2 freqs i Hf) as [x Hx].
    by rewrite (nth_lookup_Some _ _ _ _ Hx).
Qed.

(** One document further; the other fields do not matter. *)
Lemma buffered_step i N s freq_ doc freq : buffered i N s -> (i < N)%nat -> buffered (S i) N (set_position (S (di_begin s)) freq_ doc freq s).
Proof using All.
  intros [B1 B2 B3 B4 B5 B6 B7 B8] Hi. replace (N - i)%nat with (S (N - S i)) in B4, B5 by lia.
  split; cbn [set_position di_docs di_freqs di_enc_buf di_begin di_freq_ di_left di_in]; try done; try lia.
  - rewrite deltas_S in B4 by lia. rewrite <-Nat.add_1_r, <-drop_drop, B4. done.
  - intros Ht'. specialize (B5 Ht'). rewrite <-Nat.add_1_r, <-drop_drop, B5. rewrite skipn_firstn_comm, drop_drop, Nat.add_1_r. f_equal. lia.
Qed.

(** [freq_] follows [begin_]. *)
Definition freq_follows (i N : nat) (s : doc_iterator I) : Prop := itf = true -> (i < N)%nat -> di_freq_ s = di_begin s.

Lemma advance_spec i N s : buffered i N s -> (i < N)%nat -> freq_follows i N s -> di_doc s = prev i -> exists s',
  advance itf s = Some s' /\ buffered (S i) N s' /\ freq_follows (S i) N s' /\ di_doc s' = nth i docs 0 /\
  (itf = true -> di_freq s' = nth i freqs 0) /\ same_skip s s'.
Proof using All.
  intros Hs Hi Hfr Hd. destruct (buffered_head i N s Hs Hi) as [E1 E2]. unfold advance. rewrite E1. cbn [mbind option_bind].
  rewrite Hd, (prev_step hf l Hl) by (destruct Hs; lia). pose proof (fun fr doc freq => buffered_step i N s fr doc freq Hs Hi) as Hstep.
  unfold freq_follows in *. destruct itf.
  - rewrite (Hfr eq_refl Hi), E2 by done. cbn [mbind option_bind]. eexists. split; [done|]. split; [apply Hstep|]. done.
  - eexists. split; [done|]. split; [apply Hstep|]. done.
Qed.

(** Up to the first document that is not less than the target *)
Lemma scan_block_spec t k : forall i N s, buffered i N s -> (k = N - i)%nat -> di_doc s = prev i -> (forall j, (j < i)%nat -> nth j docs 0 < t) ->
  exists found s' i', scan_block itf k t s = Some (found, s') /\ buffered i' N s' /\ di_doc s' = prev i' /\ same_skip s s' /\
  if found : bool then (0 < i')%nat /\ t <= prev i' /\ (forall j, (j < i' - 1)%nat -> nth j docs 0 < t) /\ freq_follows i' N s' /\
    (itf = true -> di_freq s' = nth (i' - 1) freqs 0)
  else i' = N /\ (forall j, (j < N)%nat -> nth j docs 0 < t).
Proof using All.
  induction k as [|k IH]; intros i N s Hs Hk Hd Hlt; cbn [scan_block].
  { exists false, s, i. split; [done|]. split; [done|]. split; [done|]. split; [done|]. assert (i = N) as -> by (destruct Hs; lia). done. }
  assert (i < N)%nat as Hi by lia. destruct (buffered_head i N s Hs Hi) as [-> E2]. cbn [mbind option_bind]. cbv zeta.
  rewrite Hd, (prev_step hf l Hl) by (destruct Hs; lia). set (s1 := set_position _ _ _ _ _).
  assert (buffered (S i) N s1) as Hs1 by by apply buffered_step. assert (di_doc s1 = nth i docs 0) as E1 by done. rewrite E1.
  assert (di_begin s1 = S (di_begin s) /\ di_freqs s1 = di_freqs s) as [E3 E4] by done.
  destruct (Z.leb_spec t (nth i docs 0)) as [Hge|Hlt1].
  - pose proof (fun fr doc freq => buffered_step i N s fr doc freq Hs Hi) as Hstep. unfold freq_follows.
    destruct itf; [|exists true, s1, (S i); rewrite Nat.sub_succ, Nat.sub_0_r; do 4 (split; [done|]); split; [lia|]; done].
    rewrite E3, E4, Nat.sub_succ, Nat.sub_0_r, E2 by done. cbn [mbind option_bind]. eexists true, _, (S i). split; [done|].
    rewrite Nat.sub_succ, Nat.sub_0_r. split; [|do 2 (split; [done|]); split; [lia|done]].
    apply Hstep.
  - destruct (IH (S i) N s1 Hs1 ltac:(lia) E1) as (found & s' & i' & -> & Hs' & Ed' & Hsame & Hres).
    { intros j Hj. destruct (decide (j = i)) as [->|]; [done|apply Hlt; lia]. }
    exists found, s', i'. split; [done|]. split; [done|]. split; [done|]. split; [exact Hsame|done].
Qed.

(** ** The skip list of a term *)

#[local] Abbreviation bptr := (block_ptr big hf l).
#[local] Abbreviation entry := (skip_entry big hf l).
#[local] Abbreviation m := (skip_blocks l).
#[local] Abbreviation skey := (PostingsWriter.key l).

Lemma blocks_full : (m <= full_blocks l)%nat.
Proof using All. unfold skip_blocks, blocks, full_blocks. kb. Qed.

Lemma bptr_range b : (b <= m)%nat -> 0 <= bptr b /\ Z.of_nat start + bptr b < 2 ^ 64.
Proof using All.
  intros Hb. pose proof blocks_full. pose proof (ptr_lt b ltac:(lia)). pose proof (ta_file _ _ Ht). unfold block_ptr. lia.
Qed.

(** The state of [ReadSkip]: see [skip_reader_laws]. *)
Definition skip_at (v : nat) (K : nat -> nat) (h : nat) (s : SkipState) : Prop :=
  ss_doc s = (if decide (K h * 8 ^ h <= m)%nat then skey (K h * 8 ^ h) else doc_limits.eof) /\
  ((v <= h)%nat -> ss_doc_ptr s = Z.of_nat start + bptr (K h `min` entries 8 m h * 8 ^ h)%nat).
Definition left_behind (e : nat) : SkipState := mkSkipState (Z.of_nat start + bptr e) (skey e).
Record reader_ok (v : nat) (K : nat -> nat) (pp : option nat) (r : ReadSkip) : Prop := {
  ro_length : length (rs_levels r) = L;
  ro_levels h : (h < L)%nat -> exists s, rs_levels r !! (L - 1 - h)%nat = Some s /\ skip_at v K h s;
  ro_prev e : pp = Some e -> rs_prev r = left_behind e;
}.

Lemma entry_covers h k : (k <= entries 8 m h)%nat <-> (k * 8 ^ h <= m)%nat.
Proof using All.
  pose proof (pow_pos 8 h ltac:(lia)). unfold entries. split; intros Hk.
  - pose proof (Nat.Div0.mul_div_le m (8 ^ h)). nia.
  - apply Nat.div_le_lower_bound; lia.
Qed.

(** A level that changes *)
Lemma reader_update v v' K K' pp pp' r h s prev_ : reader_ok v K pp r -> (h < L)%nat -> skip_at v' K' h s ->
  (forall h', h' <> h -> K' h' = K h' /\ (v' <= h' -> v <= h')%nat) -> (forall e, pp' = Some e -> prev_ = left_behind e) ->
  reader_ok v' K' pp' (mkReadSkip (<[(L - 1 - h)%nat := s]> (rs_levels r)) prev_).
Proof using All.
  intros [H1 H2 H3] Hh Hs Hother Hp. split; cbn [rs_levels rs_prev]; [by rewrite length_insert| |done].
  intros h' Hh'. destruct (decide (h' = h)) as [->|Hne].
  - exists s. split; [|done]. apply list_lookup_insert_eq. lia.
  - destruct (H2 h' Hh') as (s' & E & Hd & Hptr). exists s'. split; [by rewrite list_lookup_insert_ne by lia|].
    destruct (Hother h' Hne) as [EK Hv]. unfold skip_at. rewrite EK. split; [done|]. intros. apply Hptr. by apply Hv.
Qed.

Lemma level_left v K pp r h s : reader_ok v K pp r -> (h < L)%nat -> (v <= h)%nat -> (K h <= entries 8 m h)%nat ->
  rs_levels r !! (L - 1 - h)%nat = Some s -> s = left_behind (K h * 8 ^ h).
Proof using All.
  intros [_ H2 _] Hh Hv HK E. destruct (H2 h Hh) as (s' & E' & Hd & Hptr). rewrite E in E'. injection E' as <-.
  specialize (Hptr Hv). rewrite Nat.min_l in Hptr by done. rewrite decide_True in Hd by by apply entry_covers.
  destruct s. cbn in *. unfold left_behind. congruence.
Qed.

Lemma m_blocks e : (e <= m)%nat -> (kBlock * e <= n)%nat.
Proof using All. unfold skip_blocks, blocks. intros He. kb. Qed.

#[local] Arguments Nat.pow : simpl never.
#[local] Arguments Nat.min : simpl never.

Lemma read_entry v K pp r h s q rest : reader_ok v K pp r -> (v <= h < L)%nat -> (K h < entries 8 m h)%nat ->
  at_ f q s -> drop q f = entry h (S (K h)) ++ rest -> exists s' r',
  ReadSkip_Read (L - 1 - h)%nat s r = Some (s', r') /\ at_ f (q + length (entry h (S (K h)))) s' /\
  reader_ok v (<[h := S (K h)]> K) (Some (K h * 8 ^ h)%nat) r'.
Proof using All.
  intros Hr [Hv Hh] HK Hs E. destruct (ro_levels v K pp r Hr h Hh) as (st & Est & Hst).
  pose proof (level_left v K pp r h st Hr Hh Hv ltac:(lia) Est) as ->. unfold ReadSkip_Read. rewrite Est. cbn [mbind option_bind]. unfold ReadState.
  unfold skip_entry in *. rewrite Nat.sub_succ, Nat.sub_0_r in *. apply behind in E as [E E']. rewrite length_app, Nat.add_assoc.
  assert (S (K h) * 8 ^ h <= m)%nat as Hm by (apply entry_covers; lia). assert (K h * 8 ^ h <= m)%nat as Hm0 by lia.
  pose proof (bptr_range _ Hm). pose proof (bptr_range _ Hm0). pose proof (block_ptr_mono big hf l (K h * 8 ^ h) (S (K h) * 8 ^ h) ltac:(lia)).
  destruct (reads_vint f _ (key_word hf l Hl (S (K h) * 8 ^ h)) q s _ Hs E) as (s1 & -> & Hs1). cbn [mbind option_bind].
  destruct (reads_vlong f (bptr (S (K h) * 8 ^ h) - bptr (K h * 8 ^ h)) ltac:(unfold is_word; lia) _ s1 _ Hs1 E') as (s2 & -> & Hs2).
  cbn [mbind option_bind]. eexists s2, _. split; [done|]. split; [done|]. eapply reader_update; [exact Hr|done| | |].
  - unfold skip_at. rewrite fn_lookup_insert. cbn [left_behind ss_doc ss_doc_ptr]. split; [by rewrite decide_True|]. intros _.
    rewrite Nat.min_l by (apply entry_covers; lia). rewrite wrap_small by (unfold is_word; lia). lia.
  - intros h' Hne. by rewrite fn_lookup_insert_ne.
  - by intros e [= <-].
Qed.

Lemma seal_level v K pp r h : reader_ok v K pp r -> (v <= h < L)%nat -> K h = entries 8 m h ->
  reader_ok v (<[h := S (K h)]> K) (Some (K h * 8 ^ h)%nat) (ReadSkip_Seal (L - 1 - h)%nat r).
Proof using All.
  intros Hr [Hv Hh] HK. destruct (ro_levels v K pp r Hr h Hh) as (st & Est & Hst). 
  pose proof (level_left v K pp r h st Hr Hh Hv ltac:(lia) Est) as ->. unfold ReadSkip_Seal. rewrite Est.
  eapply reader_update; [exact Hr|done| | |].
  - unfold skip_at. rewrite fn_lookup_insert. cbn [left_behind ss_doc ss_doc_ptr]. split.
    + rewrite decide_False; [done|]. rewrite <-entry_covers. lia.
    + intros _. rewrite HK, Nat.min_r by lia. done.
  - intros h' Hne. by rewrite fn_lookup_insert_ne.
  - by intros e [= <-].
Qed.

Lemma move_down v K k r h : reader_ok v K (Some (k * 8 ^ h)%nat) r -> (v <= S h)%nat -> (h < L)%nat -> (k * 8 ^ h <= m)%nat ->
  reader_ok (v `min` h)%nat (<[h := k]> K) (Some (k * 8 ^ h)%nat) (ReadSkip_MoveDown (L - 1 - h)%nat r).
Proof using All.
  intros Hr Hv Hh Hk. unfold ReadSkip_MoveDown. pose proof (ro_prev _ _ _ _ Hr _ eq_refl) as Ep. rewrite Ep.
  eapply reader_update; [exact Hr|done| | |].
  - unfold skip_at. rewrite fn_lookup_insert. cbn [left_behind ss_doc ss_doc_ptr]. split; [by rewrite decide_True|]. intros _.
    rewrite Nat.min_l by by apply entry_covers. done.
  - intros h' Hne. rewrite fn_lookup_insert_ne by done. split; [done|]. lia.
  - by intros e [= <-].
Qed.

Lemma skip_laws : skip_reader_laws (SR := read_skip) f kBlock 8 n L entry skey reader_ok (fun t => t <= doc_limits.eof).
Proof using All.
  split.
  - intros e e' [He He']. apply (key_mono hf l Hl); [done|]. by apply m_blocks.
  - intros v K pp r h t Hr Hh Ht'. cbn [IsLess read_skip]. unfold ReadSkip_IsLess. destruct (ro_levels v K pp r Hr h Hh) as (st & -> & Hd & _).
    rewrite Hd. unfold less. fold (skip_blocks l). case_decide as Hc.
    + assert ((K h * 8 ^ h <=? m)%nat = true) as -> by by apply Nat.leb_le. done.
    + assert ((K h * 8 ^ h <=? m)%nat = false) as -> by (apply Nat.leb_gt; lia). cbn. apply Z.ltb_ge. lia.
  - done.
  - intros v K pp r h s q rest. by apply read_entry.
  - intros v K pp r h. by apply seal_level.
  - intros v K k r h. by apply move_down.
Qed.

Section skipping.
Context (Hlong : (kBlock < n)%nat).

Lemma term_skip_list_ok : skip_list_ok f kBlock 8 n L entry.
Proof using All.
  destruct (ta_levels _ _ Ht Hlong) as [HL Hc]. pose proof (postings_count hf l Hl). split.
  - kb.
  - lia.
  - lia.
  - lia.
  - exact Hc.
  - apply (skip_entry_ne big hf l Hl).
  - apply (ta_file _ _ Ht).
Qed.

#[local] Abbreviation rests := (at_rest f kBlock 8 n L entry).

Lemma reader_reset v K pp r : reader_ok v K pp r -> reader_ok v K None (ReadSkip_Reset r).
Proof using All. intros [H1 H2 _]. by split. Qed.

Lemma rests_reset begin K s : rests begin reader_ok K s -> rests begin reader_ok K (set_reader (ReadSkip_Reset (rd_reader s)) s).
Proof using All.
  intros [(pp & [H1 H2 H3])|[(pp & [H1 H2 H3]) H0]]; [left|right; split; [|done]]; exists None; (split; [done|done|by eapply reader_reset]).
Qed.

(** The reader of a list that was opened *)
Lemma reader_opened pp : reader_ok (L - 1) (fun _ => 0%nat) None
  (ReadSkip_Init L (mkReadSkip [mkSkipState (Z.of_nat start) doc_limits.invalid] pp)).
Proof using All.
  destruct (ta_levels _ _ Ht Hlong) as [[HL _] _]. unfold ReadSkip_Init. cbn [rs_levels rs_prev]. rewrite take_ge by (cbn; lia).
  split; cbn [rs_levels]; [rewrite length_app, length_replicate; cbn; lia| |done].
  intros h Hh. unfold skip_at. rewrite Nat.mul_0_l, decide_True by lia. cbn [key length app]. destruct (L - 1 - h)%nat as [|i] eqn:Ei.
  - eexists. split; [done|]. split; [done|]. intros _. cbn [ss_doc_ptr]. rewrite Nat.min_l, Nat.mul_0_l by lia. unfold block_ptr. cbn. lia.
  - exists SkipState_init. split; [|split; [done|lia]]. cbn [lookup list_lookup]. apply lookup_replicate_2. lia.
Qed.

(** The stream stands behind the documents: there the list is opened. *)
Lemma open_spec (s : doc_iterator I) pp : di_docs_count s = Z.of_nat n -> di_skip_offs s = Z.of_nat (start + length (postings_bytes big hf l)) ->
  (exists q, at_ f q (di_in s)) -> exists skip_in skip begin,
  in_dup ops (di_in s) = Some skip_in /\
  SkipReader_Prepare (in_dup ops) (Streams.seek (Z.to_nat (di_skip_offs s)) skip_in) (di_docs_count s)
    (SkipReader_init (Z.of_nat kBlock) kSkipN (mkReadSkip [mkSkipState (Z.of_nat start) doc_limits.invalid] pp)) = Some (Done skip) /\
  NumLevels skip = L /\ begins f kBlock 8 n L entry begin /\
  rests begin reader_ok (fun _ => 0%nat) (set_reader (ReadSkip_Init (NumLevels skip) (rd_reader skip)) skip).
Proof using All.
  intros Ec Eo [q Hq]. destruct (dup_law _ _ Hops _ _ Hq) as (skip_in & Ed & Hs). exists skip_in. rewrite Ec, Eo, Nat2Z.id.
  destruct (ta_levels _ _ Ht Hlong) as [[HL HL9] _]. destruct (ta_rest _ _ Ht) as (r & E & Hr).
  unfold term_bytes in E. rewrite decide_False in E by lia. rewrite decide_True in E by done. rewrite <-app_assoc in E.
  assert (drop (start + length (postings_bytes big hf l)) f = skip_list_bytes 8 entry (blocks kBlock n) L ++ r) as E1.
  { rewrite <-drop_drop, E, drop_app_length. done. }
  assert (start + length (postings_bytes big hf l) < length f)%nat as Hlt.
  { apply (f_equal length) in E1. rewrite length_drop, length_app in E1. destruct r; [done|cbn in E1; lia]. }
  assert (Z.of_nat (8 ^ (L - 1) * kBlock) < 2 ^ 32) as Hstep.
  { rewrite kBlock_eq, Nat2Z.inj_mul, Nat2Z.inj_pow. change (Z.of_nat 8) with 8. change (Z.of_nat 128) with 128.
    assert (8 ^ Z.of_nat (L - 1) <= 8 ^ 8) as Hpow by (apply Z.pow_le_mono_r; unfold kMaxSkipLevels in *; lia). change (8 ^ 8) with 16777216 in Hpow. lia. }
  destruct (SkipReader_Prepare_spec f kBlock 8 n L entry term_skip_list_ok (in_dup ops) (fun s q => dup_law _ _ Hops s q)
    (start + length (postings_bytes big hf l)) (Streams.seek (start + length (postings_bytes big hf l)) skip_in) r
    (SkipReader_init (Z.of_nat kBlock) kSkipN (mkReadSkip [mkSkipState (Z.of_nat start) doc_limits.invalid] pp)))
    as (begin & skip & Ep & Hb & Hl' & Er & _ & Hc); try done; [unfold kMaxSkipLevels in *; lia|by eapply seek_at|].
  exists skip, begin. split; [done|]. split; [exact Ep|]. assert (NumLevels skip = L) as EL by apply Hl'. split; [done|]. split; [done|].
  right. split; [|done]. exists None. rewrite EL, Er. split; [exact Hl'|done|apply reader_opened].
Qed.

Lemma rests_bound begin K s t : rests begin reader_ok K s -> t <= doc_limits.eof -> exists bound,
  ReadSkip_UpperBound (rd_reader s) = Some bound /\ (bound <? t) = less kBlock n skey t (K 0%nat).
Proof using All.
  intros Hs Ht'. destruct (ta_levels _ _ Ht Hlong) as [[HL _] _].
  assert (exists v pp, reader_ok v K pp (rd_reader s)) as (v & pp & Hr) by (destruct Hs as [(pp & [_ _ H3])|[(pp & [_ _ H3]) _]]; by eexists _, _).
  pose proof (law_less _ _ _ _ _ _ _ _ _ skip_laws v K pp (rd_reader s) 0 t Hr HL Ht') as El. change (8 ^ 0)%nat with 1%nat in El. rewrite Nat.mul_1_r, Nat.sub_0_r in El.
  cbn [IsLess read_skip] in El. unfold ReadSkip_IsLess in El. unfold ReadSkip_UpperBound. rewrite last_lookup, (ro_length _ _ _ _ Hr).
  rewrite <-Nat.sub_1_r. destruct (ro_levels _ _ _ _ Hr 0 HL) as (st & Est & _). rewrite Nat.sub_0_r in Est. rewrite Est in *. by eexists.
Qed.
End skipping.

(** ** The iterator's state *)

(** The skip list: not in use, not opened yet, opened *)
Inductive skip_state (s : doc_iterator I) : Prop :=
  | skip_none : (n <= kBlock)%nat -> ReadSkip_UpperBound (rd_reader (di_skip s)) = Some doc_limits.eof -> skip_state s
  | skip_new pp : (kBlock < n)%nat -> di_docs_count s = Z.of_nat n ->
      di_skip_offs s = Z.of_nat (start + length (postings_bytes big hf l)) ->
      di_skip s = SkipReader_init (Z.of_nat kBlock) kSkipN (mkReadSkip [mkSkipState (Z.of_nat start) doc_limits.invalid] pp) -> skip_state s
  | skip_open begin K : (kBlock < n)%nat -> di_docs_count s = 0 -> begins f kBlock 8 n L entry begin ->
      at_rest f kBlock 8 n L entry begin reader_ok K (di_skip s) -> skip_state s.

Lemma same_skip_trans s s1 s2 : same_skip s s1 -> same_skip s1 s2 -> same_skip s s2.
Proof using Type. intros (E1 & E2 & E3) (E1' & E2' & E3'). split; [|split]; congruence. Qed.

Lemma skip_state_same s s' : same_skip s s' -> skip_state s -> skip_state s'.
Proof using All.
  intros (E1 & E2 & E3) [H1 H2|pp H1 H2 H3 H4|begin K H1 H2 H3 H4].
  - apply skip_none; [done|]. by rewrite E2.
  - apply (skip_new _ pp); congruence.
  - apply (skip_open _ begin K); rewrite ?E2; congruence || done.
Qed.

(** A search moves to the last block whose documents may be the first that is not less than the target. *)
Lemma seek_opened s t begin K : (kBlock < n)%nat -> di_docs_count s = 0 -> begins f kBlock 8 n L entry begin ->
  at_rest f kBlock 8 n L entry begin reader_ok K (di_skip s) -> less kBlock n skey t (K 0%nat) = true -> t <= doc_limits.eof ->
  buffers_ok s -> (exists q, at_ f q (di_in s)) -> exists s' b,
  ('(left_, skip) ⇐ lift (SkipReader_Seek t (di_skip s));
   let last := rs_prev (rd_reader skip) in
   let s := set_skip skip (di_docs_count s) s in
   let s := set_buffers (di_docs s) (di_freqs s) (di_enc_buf s) (di_begin s) (di_freq_ s)
              (Streams.seek (Z.to_nat (ss_doc_ptr last)) (di_in s)) left_ s in
   done_ (set_doc (ss_doc last) s)) = Some (Done s') /\ at_block b s' /\ di_doc s' = skey b /\ skip_state s' /\
  (forall j, (j < kBlock * b)%nat -> nth j docs 0 < t).
Proof using All.
  intros Hlong Ec Hb Hrest Hless Ht' Hbuf [q Hq].
  destruct (SkipReader_Seek_spec f kBlock 8 n L entry (term_skip_list_ok Hlong) begin Hb skey reader_ok _ skip_laws t K (di_skip s) Ht' Hrest Hless)
    as (skip & K' & b & E & Hs' & EK & Hl1 & Hl2 & _ & Hbn). rewrite E, bind_lift. eexists _, b. split; [done|].
  rewrite (ro_prev _ _ _ _ (ra_reader _ _ _ _ _ _ _ _ _ _ _ _ Hs') b eq_refl). cbn [left_behind ss_doc ss_doc_ptr].
  assert (b <= m)%nat as Hbm by (unfold less in Hl1; apply andb_true_iff in Hl1 as [Hl1 _]; by apply Nat.leb_le).
  split; [|split; [done|split]].
  - split; cbn [set_doc set_buffers set_skip di_docs di_freqs di_enc_buf di_left di_in]; [done|split; [kb|kb]|].
    unfold block_ptr. rewrite <-Nat2Z.inj_add, Nat2Z.id. eapply seek_at; [exact Hq|]. apply ptr_lt. pose proof blocks_full. lia.
  - apply (skip_open _ begin K'); try done. left. by exists (Some b).
  - intros j Hj. unfold less in Hl1. apply andb_true_iff in Hl1 as [_ Hl1%Z.ltb_lt]. destruct b as [|b]; [lia|]. cbn [key] in Hl1.
    destruct (decide (j = kBlock * S b - 1)%nat) as [->|Hne]; [done|]. pose proof (docs_lt hf l Hl j (kBlock * S b - 1)). lia.
Qed.

Lemma posting_block_spec s t bound : skip_state s -> ReadSkip_UpperBound (rd_reader (di_skip s)) = Some bound -> bound < t -> t <= doc_limits.eof ->
  buffers_ok s -> (exists q, at_ f q (di_in s)) -> exists s' b,
  seek_to_block ops t s = Some (Done s') /\ at_block b s' /\ di_doc s' = skey b /\ skip_state s' /\ (forall j, (j < kBlock * b)%nat -> nth j docs 0 < t).
Proof using All.
  intros Hs Eb Hlt Ht' Hbuf Hin. unfold seek_to_block. cbv zeta. destruct Hs as [H1 H2|pp Hlong Ec Eo Es|begin K Hlong Ec Hb Hr].
  - rewrite H2 in Eb. injection Eb as <-. lia.
  - rewrite Ec. destruct (Z.eqb_spec (Z.of_nat n) 0) as [|_]; [lia|].
    destruct (open_spec Hlong s SkipState_init Ec Eo Hin) as (skip_in & skip & begin & Ed & Ep & EL & Hb & Hr). rewrite Ed, Es.
    match type of Ep with context [SkipReader_init ?a ?b ?c] =>
      match goal with |- context [set_reader ?r ?x] => change (set_reader r x) with (SkipReader_init (I := I) a b c) end end.
    rewrite Ec in Ep. rewrite Ep, bind_done.
    destruct (ta_levels _ _ Ht Hlong) as [[HL0 HL9] Hc]. rewrite EL.
    destruct (Nat.ltb_spec 0 L) as [_|]; [|lia]. destruct (Nat.leb_spec L kMaxSkipLevels) as [_|]; [|lia]. cbn [andb]. rewrite bind_done_.
    rewrite EL in Hr. set (s1 := set_skip _ 0 s).
    destruct (seek_opened s1 t begin (fun _ => 0%nat) Hlong eq_refl Hb Hr) as (s' & b & E & Hs'); try done.
    { unfold less. rewrite Es in Eb. cbn in Eb. injection Eb as <-. cbn. apply Z.ltb_lt. exact Hlt. }
    by exists s', b.
  - rewrite Ec. cbn [Z.eqb]. rewrite bind_done_. set (s1 := set_skip _ 0 s).
    destruct (seek_opened s1 t begin K Hlong eq_refl Hb (rests_reset Hlong begin K _ Hr)) as (s' & b & E & Hs'); try done.
    { destruct (rests_bound Hlong begin K (di_skip s) t Hr Ht') as (bound' & E & <-). rewrite E in Eb. injection Eb as <-. by apply Z.ltb_lt. }
    by exists s', b.
Qed.

(** The iterator behind [i] documents, or at the end ([i] is then [n + 1]); [freq_at] once its frequency is the document's *)
Record near (i : nat) (s : doc_iterator I) : Prop := {
  nr_range : (i <= S n)%nat;
  nr_buf : exists N, buffered (i `min` n)%nat N s /\ freq_follows (i `min` n)%nat N s /\ (i = 0%nat -> N = 0%nat);
  nr_doc : di_doc s = value_at i;
  nr_skip : skip_state s;
}.
Definition freq_at (i : nat) (s : doc_iterator I) : Prop := itf = true -> (0 < i <= n)%nat -> di_freq s = nth (i - 1) freqs 0.
Definition stands (i : nat) (s : doc_iterator I) : Prop := near i s /\ freq_at i s.

Lemma first_doc_spec i s : di_doc s = value_at i -> (i <= n)%nat -> di_doc (first_doc s) = prev i /\ same_skip s (first_doc s).
Proof using All.
  intros E Hi. unfold first_doc. cbn [set_doc di_doc]. split; [|done]. rewrite E. destruct i as [|j].
  - cbn [PostingsIterator.value_at PostingsIterator.prev]. done.
  - rewrite value_prev by lia. cbn [PostingsIterator.prev]. pose proof (docs_range hf l Hl j ltac:(lia)) as Hr.
    assert (doc_limits.valid (nth j docs 0) = true) as ->.
    { unfold doc_limits.valid. destruct (Z.eqb_spec doc_limits.invalid (nth j docs 0)); [doc_lia|done]. }
    rewrite Z.add_0_r, wrap_small; [done|]. unfold is_word. doc_lia.
Qed.

Lemma buffered_doc i N s doc : buffered i N s -> buffered i N (set_doc doc s).
Proof using Type. by intros []. Qed.

(** After a document was read *)
Lemma stands_read i N s s' : (i < n)%nat -> skip_state s -> same_skip s s' -> buffered (S i) N s' -> freq_follows (S i) N s' -> di_doc s' = nth i docs 0 ->
  (itf = true -> di_freq s' = nth i freqs 0) -> stands (S i) s'.
Proof using All.
  intros Hi Hsk Hsame Hb Hf Hd Hfr. split.
  - split; [lia| | |by eapply skip_state_same].
    + exists N. rewrite Nat.min_l by lia. split; [done|]. split; [done|lia].
    + by rewrite value_doc by done.
  - intros Ht' _. rewrite Nat.sub_succ, Nat.sub_0_r. by apply Hfr.
Qed.

Lemma next_stands i s : near i s -> exists s', doc_iterator_next p itf hf s = Some (bool_decide (i < n)%nat, s') /\
  stands (S i `min` S n)%nat s' /\ same_skip s s'.
Proof using All.
  intros [H1 (N & Hb & Hf & H0) H3 H4]. unfold doc_iterator_next. pose proof (bu_bufs _ _ _ Hb) as (B1 & _ & _). rewrite B1.
  pose proof (bu_range _ _ _ Hb) as Hr. pose proof (bu_begin _ _ _ Hb) as Hbg.
  destruct (Nat.eqb_spec (di_begin s) kBlock) as [Ebg|Ebg].
  - assert (N = i `min` n)%nat as -> by lia. rewrite (bu_left _ _ _ Hb). destruct (Z.eqb_spec (Z.of_nat n - Z.of_nat (i `min` n)) 0) as [El|El].
    + rewrite bool_decide_false by lia. eexists. split; [done|]. rewrite Nat.min_r by lia. split; [|done]. split; [|intros _; lia].
      split; [lia| | |by eapply (skip_state_same s)].
      * assert (i `min` n = n)%nat as Ein by lia. rewrite Ein in Hb. exists n. rewrite (Nat.min_r (S n)) by lia.
        split; [by apply buffered_doc|]. split; [intros _; lia|lia].
      * rewrite value_eof by lia. done.
    + assert (i < n)%nat as Hi by lia. rewrite bool_decide_true by done. rewrite !Nat.min_l in * by lia.
      destruct (at_block_of i s Hb Hi) as (b & -> & Hat). destruct (refill_spec b s Hat) as (s1 & N' & -> & Hb1 & Hlt & Hf1 & Ed & Ef & Hsame).
      cbn [mbind option_bind]. destruct (first_doc_spec (kBlock * b) s1 ltac:(by rewrite Ed) ltac:(lia)) as [E1 E2].
      destruct (advance_spec (kBlock * b) N' (first_doc s1)) as (s2 & -> & Hb2 & Hf2 & Ed2 & Efr & Hsame2); [by apply buffered_doc|done| |done|].
      { intros Ht' _. by apply Hf1. }
      cbn [mbind option_bind]. exists s2. split; [done|]. assert (same_skip s s2) as Hs2 by (by eapply same_skip_trans; [exact Hsame|eapply same_skip_trans]).
      split; [|done]. by apply (stands_read _ N' s).
  - assert (i < n)%nat as Hi by lia. rewrite bool_decide_true by done. rewrite !Nat.min_l in * by lia.
    assert (i <> 0%nat) as Hne by (intros ->; specialize (H0 eq_refl); lia).
    destruct (advance_spec i N s Hb) as (s2 & -> & Hb2 & Hf2 & Ed2 & Efr & Hsame2); [lia|done|by rewrite H3, value_prev by lia|].
    cbn [mbind option_bind]. exists s2. split; [done|]. split; [|done]. by apply (stands_read _ N s).
Qed.

(** On the first document that is not less than the target, or at the end *)
Definition found_at (t : Z) (i : nat) (s : doc_iterator I) : Prop :=
  stands i s /\ (0 < i)%nat /\ t <= value_at i /\ forall j, (j < i - 1)%nat -> (j < n)%nat -> nth j docs 0 < t.

Lemma seek_next_spec t s i : doc_limits.min <= t <= doc_limits.eof -> near i s -> (t <= value_at i -> stands i s) ->
  (forall j, (j < i - 1)%nat -> (j < n)%nat -> nth j docs 0 < t) -> exists s' i',
  iterate 33 (seek_next_round p itf hf t) s = Some s' /\ found_at t i' s'.
Proof using All.
  intros Ht' Hs Hst Hlt.
  destruct (iterate_ghost (fun c s => exists i, c = Z.of_nat (S n - i) /\ near i s /\ (t <= value_at i -> stands i s) /\
      forall j, (j < i - 1)%nat -> (j < n)%nat -> nth j docs 0 < t) (fun s' => exists i', found_at t i' s') (seek_next_round p itf hf t))
    with (k := 33%nat) (n := Z.of_nat (S n - i)) (s := s) as (s' & E & i' & Hs').
  - clear s i Hs Hst Hlt. intros c s (i & -> & Hs & Hst & Hlt). split; [lia|]. unfold seek_next_round. rewrite (nr_doc _ _ Hs).
    destruct (Z.ltb_spec (value_at i) t) as [Hv|Hv].
    + assert (i <= n)%nat as Hin by (destruct (decide (i <= n)%nat); [done|]; rewrite value_eof in Hv by lia; lia).
      destruct (next_stands i s Hs) as (s' & -> & Hs' & _). cbn [mbind option_bind]. eexists. split; [done|]. rewrite Nat.min_l in Hs' by lia.
      exists (Z.of_nat (S n - S i)). split; [lia|]. exists (S i). split; [done|]. split; [apply Hs'|]. split; [done|].
      intros j Hj Hjn. destruct (decide (j = i - 1)%nat) as [->|]; [|apply Hlt; lia]. rewrite value_prev in Hv by lia. destruct i; [lia|].
      rewrite Nat.sub_succ, Nat.sub_0_r in *. exact Hv.
    + eexists. split; [done|]. exists i. split; [by apply Hst|]. split; [|done]. destruct i; [cbn in Hv; doc_lia|lia].
  - by exists i.
  - pose proof (postings_count hf l Hl). lia.
  - by exists s', i'.
Qed.

Lemma scan_spec t s i N : doc_limits.min <= t <= doc_limits.eof -> buffered i N s -> (0 < N)%nat -> di_doc s = prev i -> skip_state s -> (forall j, (j < i)%nat -> nth j docs 0 < t) ->
  exists s' i', scan p itf hf t s = Some (di_doc s', s') /\ found_at t i' s'.
Proof using All.
  intros Ht' Hb HN Hd Hsk Hlt. unfold scan. pose proof (bu_bufs _ _ _ Hb) as (B1 & _ & _). pose proof (bu_begin _ _ _ Hb) as Hbg. rewrite B1.
  destruct (scan_block_spec t (kBlock - di_begin s) i N s Hb ltac:(lia) Hd Hlt) as (found & s' & i' & -> & Hb' & Ed & Hsame & Hres).
  cbn [mbind option_bind]. pose proof (bu_range _ _ _ Hb') as Hr. pose proof (skip_state_same _ _ Hsame Hsk) as Hsk'. destruct found.
  - destruct Hres as (H0 & Hge & Hbelow & Hf & Hfr). exists s', i'. split; [done|]. split; [|split; [done|split; [by rewrite value_prev by lia|]]].
    + split; [|intros ? _; by apply Hfr]. split; [lia| |by rewrite value_prev by lia|done]. exists N. rewrite Nat.min_l by lia. split; [done|]. split; [done|lia].
    + intros j Hj _. by apply Hbelow.
  - destruct Hres as [-> Hbelow]. destruct (seek_next_spec t s' N Ht') as (s2 & i2 & -> & Hs2).
    + split; [lia| |by rewrite value_prev by lia|done]. exists N. rewrite Nat.min_l by lia. split; [done|]. split; [intros _ ?; lia|lia].
    + intros Hge. rewrite value_prev in Hge by lia. destruct N as [|N']; [lia|]. cbn in Hge. pose proof (Hbelow N' ltac:(lia)). lia.
    + intros j Hj _. apply Hbelow. lia.
    + cbn [mbind option_bind]. by exists s2, i2.
Qed.

Lemma bind_some {A B} (k : A -> option B) (x : A) : mbind k (Some x) = k x.
Proof using Type. done. Qed.

(** The same from where an iterator stands *)
Lemma scan_near t i s : doc_limits.min <= t <= doc_limits.eof -> near i s -> value_at i < t -> (forall j, (j < i)%nat -> nth j docs 0 < t) ->
  exists s' i', scan p itf hf t s = Some (di_doc s', s') /\ found_at t i' s'.
Proof using All.
  intros Ht' Hs Hv Hlt. pose proof Hs as [H1 (N & Hb & Hf & H0) H3 H4].
  assert (i <= n)%nat as Hin by (destruct (decide (i <= n)%nat); [done|]; rewrite value_eof in Hv by lia; lia). rewrite Nat.min_l in * by done.
  destruct (decide (i = 0)%nat) as [->|Hne].
  - specialize (H0 eq_refl). subst N. unfold scan. pose proof (bu_begin _ _ _ Hb) as Hbg. rewrite (proj1 (bu_bufs _ _ _ Hb)).
    assert (scan_block itf (kBlock - di_begin s) t s = Some (false, s)) as -> by (replace (kBlock - di_begin s)%nat with 0%nat by lia; done).
    destruct (seek_next_spec t s 0 Ht' Hs) as (s' & i' & E & Hs'); [lia|lia|]. exists s', i'. split; [|done].
    rewrite bind_some. cbv beta iota. rewrite E. done.
  - destruct (scan_spec t s i N Ht' Hb) as (s' & i' & -> & Hs'); [destruct Hb; lia|by rewrite H3, value_prev by lia|done|done|]. by exists s', i'.
Qed.

Lemma seek_stands i s t : stands i s -> doc_limits.min <= t <= doc_limits.eof -> value_at i <= t -> exists s' i',
  doc_iterator_seek ops p itf hf t s = Some (Done (di_doc s', s')) /\ found_at t i' s'.
Proof using All.
  intros Hs Ht' Hv. pose proof Hs as [[H1 (N & Hb & Hf & H0) H3 H4] Hfr]. unfold doc_iterator_seek. rewrite H3.
  assert (forall j, (j < i - 1)%nat -> (j < n)%nat -> nth j docs 0 < t) as Hbelow.
  { intros j Hj Hjn. assert (nth j docs 0 < value_at i); [|lia]. destruct (decide (i <= n)%nat) as [Hin|].
    - rewrite value_prev by lia. destruct i; [lia|]. apply (docs_lt hf l Hl). lia.
    - rewrite value_eof by lia. pose proof (docs_range hf l Hl j Hjn). doc_lia. }
  destruct (Z.leb_spec t (value_at i)) as [Hle|Hgt].
  { exists s, i. rewrite H3. split; [done|]. assert (0 < i)%nat by (destruct i; [cbn in Hle; doc_lia|lia]). done. }
  assert (i <= n)%nat as Hin by (destruct (decide (i <= n)%nat); [done|]; rewrite value_eof in Hgt by lia; lia). rewrite Nat.min_l in * by done.
  assert (forall j, (j < i)%nat -> nth j docs 0 < t) as Hbelow'.
  { intros j Hj. destruct (decide (j = i - 1)%nat) as [->|]; [|apply Hbelow; lia]. rewrite value_prev in Hgt by lia. destruct i; [lia|].
    by rewrite Nat.sub_succ, Nat.sub_0_r. }
  assert (exists bound, ReadSkip_UpperBound (rd_reader (di_skip s)) = Some bound) as (bound & Eb).
  { destruct H4 as [_ E|pp _ _ _ E|begin K Hlong _ _ Hr]; [by eexists|rewrite E; by eexists|].
    destruct (rests_bound Hlong begin K _ t Hr ltac:(lia)) as (bound & E & _). by exists bound. }
  rewrite Eb, bind_lift. pose proof (bu_bufs _ _ _ Hb) as Hbufs. destruct (Z.ltb_spec bound t) as [Hbt|Hbt].
  - destruct (posting_block_spec s t bound H4 Eb Hbt ltac:(lia) Hbufs (bu_in _ _ _ Hb)) as (s1 & b & -> & Hat & Ed & Hsk & Hbl). rewrite bind_done.
    pose proof (ab_left _ _ Hat) as [El Hbn]. rewrite El. destruct (Z.eqb_spec (Z.of_nat n - Z.of_nat (kBlock * b)) 0) as [|_]; [lia|].
    destruct (refill_spec b s1 Hat) as (s2 & N' & -> & Hb2 & HN' & Hf2 & Ed2 & _ & Hsame). rewrite bind_lift.
    assert (value_at (kBlock * b) = skey b) as Ekey.
    { destruct b as [|b]; [by rewrite Nat.mul_0_r|]. rewrite value_prev by kb. rewrite <-base_prev by done. done. }
    destruct (first_doc_spec (kBlock * b) s2) as [E1 E2]; [by rewrite Ed2, Ed|lia|].
    destruct (scan_spec t (first_doc s2) (kBlock * b) N') as (s3 & i3 & -> & H3'); [done|by apply buffered_doc|lia|done| |done|].
    { eapply skip_state_same; [exact E2|]. eapply skip_state_same; [exact Hsame|exact Hsk]. }
    by exists s3, i3.
  - destruct (scan_near t i s Ht' (proj1 Hs) Hgt Hbelow') as (s' & i' & -> & Hs'). by exists s', i'.
Qed.

(** *** A new iterator *)

Definition meta_at (meta : term_meta) : Prop :=
  tm_docs_count meta = Z.of_nat n /\ tm_doc_start meta = Z.of_nat start /\
  ((kBlock < n)%nat -> tm_ext meta = e_skip_start (Z.of_nat (length (postings_bytes big hf l)))).

Lemma prepare_stands freqs0 enc_buf meta doc_in q : length freqs0 = kBlock -> scratch kBlock enc_buf -> meta_at meta -> at_ f q doc_in ->
  exists s, doc_iterator_prepare ops freqs0 enc_buf meta doc_in = Some (Done s) /\ stands 0 s /\ di_cost s = Z.of_nat n.
Proof using All.
  intros Hfr He (M1 & M2 & M3) Hq. unfold doc_iterator_prepare. destruct (reopen_law _ _ Hops _ _ Hq) as (in_ & -> & Hin).
  change ReadSkip_init with (Some (mkReadSkip [mkSkipState 0 doc_limits.eof] SkipState_init)). rewrite bind_lift, M1, M2, Nat2Z.id.
  pose proof (ptr_lt 0 ltac:(lia)) as Hlt. cbn [blocks_enc length] in Hlt. rewrite Nat.add_0_r in Hlt. pose proof (seek_at f _ _ _ Hin Hlt) as Hs.
  assert (forall offs skip dc, let s := mkDocIterator (replicate kBlock 0) freqs0 enc_buf kBlock 0 (Streams.seek start in_) (Z.of_nat n) offs skip
      doc_limits.invalid 0 (Z.of_nat n) dc in skip_state s -> stands 0 s) as Hstands.
  { intros offs skip dc s Hsk. split; [|intros _ ?; lia]. split; [lia| |done|done]. exists 0%nat. rewrite Nat.min_l by lia. split; [|split; [intros _ ?; lia|done]].
    split; cbn [s di_docs di_freqs di_enc_buf di_begin di_left di_in].
    - split; [cbn; by rewrite length_replicate|done].
    - lia.
    - lia.
    - rewrite drop_ge by (rewrite length_replicate; lia). done.
    - intros _. rewrite drop_ge by lia. done.
    - lia.
    - by eexists.
    - intros _. exists 0%nat. split; [lia|]. cbn [blocks_enc length]. by rewrite Nat.add_0_r. }
  destruct (Z.ltb_spec (Z.of_nat kBlock) (Z.of_nat n)) as [Hlong|Hshort].
  - rewrite M3 by lia. assert (ReadSkip_Enable meta (mkReadSkip [mkSkipState 0 doc_limits.eof] SkipState_init) =
      Some (mkReadSkip [mkSkipState (Z.of_nat start) doc_limits.invalid] SkipState_init)) as -> by (unfold ReadSkip_Enable; by rewrite M2).
    cbn [mbind option_bind skip_start]. rewrite bind_lift.
    eexists. split; [done|]. split; [|done]. apply Hstands. apply (skip_new _ SkipState_init); [lia|done| |].
    + cbn [di_skip_offs]. destruct (ta_rest _ _ Ht) as (r & E & Hr). unfold term_bytes in E. rewrite decide_False in E by lia.
      apply (f_equal length) in E. rewrite length_drop, !length_app in E. pose proof (ta_file _ _ Ht). rewrite wrap_small; [lia|]. unfold is_word. lia.
    + done.
  - rewrite bind_lift. eexists. split; [done|]. split; [|done]. apply Hstands. apply skip_none; [lia|done].
Qed.
End iterating.
