(* ===== verification/PostingsCursor.v ===== *)
(** * The iterators of the postings reader as cursors

    [posting_iterator], what [postings_reader::iterator] makes, implements the interface [DocIterator] lawfully over the
    documents of the term, with the frequencies of the term ([posting_spec]). *)
From Stdlib Require Import ZifyNat.
From S2P Require Import Prelude BitUtils BytesIO Streams FileStreams MemoryFile StoreUtils BitPacking Simd BlockCodec Outcome Coding DocIterators Bitset SkipList SkipListSeek Postings PostingsWriter PostingsReader PostingsBlocks PostingsIterator.

Definition is_posting (l : list (Z * Z)) (d : Z) : bool := bool_decide (d ∈ l.*1).

(** The frequency of a document *)
Definition freq_of (l : list (Z * Z)) (d : Z) : Z := default 0 (list_find (fun x => x.1 = d) l ≫= fun x => Some x.2.2).

Section sorted.
Context (hf : bool) (l : list (Z * Z)) (Hl : good_postings hf l).
#[local] Abbreviation docs := (l.*1).

Lemma is_posting_nth d : is_posting l d = true <-> exists i, (i < length l)%nat /\ nth i docs 0 = d.
Proof using Type.
  unfold is_posting. rewrite bool_decide_eq_true, list_elem_of_lookup. split.
  - intros (i & E). exists i. split; [rewrite <-(length_docs l); by eapply lookup_lt_Some|]. by apply nth_lookup_Some.
  - intros (i & Hi & <-). exists i. apply docs_at. done.
Qed.

Lemma docs_unique i j : (i < length l)%nat -> (j < length l)%nat -> nth i docs 0 = nth j docs 0 -> i = j.
Proof using Hl.
  intros Hi Hj E. destruct (Nat.lt_trichotomy i j) as [H|[H|H]]; [|done|]; pose proof (docs_lt hf l Hl) as Hlt; [specialize (Hlt i j)|specialize (Hlt j i)]; lia.
Qed.

Lemma doc_set_posting : doc_set (is_posting l).
Proof using Hl. intros d (i & Hi & <-)%is_posting_nth. by apply (docs_range hf l Hl). Qed.

(** The first documents of a list from a target on *)
Lemma cursor_found t i : (0 < i <= S (length l))%nat -> ((i <= length l)%nat -> t <= value_at l i) -> (forall j, (j < i - 1)%nat -> (j < length l)%nat -> nth j docs 0 < t) ->
  first_from (is_posting l) t (value_at l i).
Proof using Hl.
  intros Hi Hge Hlt. destruct i as [|k]; [lia|]. rewrite Nat.sub_succ, Nat.sub_0_r in Hlt. split.
  - destruct (decide (k < length l)%nat) as [Hk|Hk]; [|left; apply value_eof; lia]. right. split; [apply Hge; lia|]. rewrite value_doc by done.
    apply is_posting_nth. by exists k.
  - intros d Hd. apply not_true_iff_false. intros (j & Hj & <-)%is_posting_nth. destruct (decide (j < k)%nat) as [Hjk|Hjk].
    + specialize (Hlt j Hjk Hj). lia.
    + rewrite value_doc in Hd by lia. destruct (decide (j = k)) as [->|]; [lia|]. pose proof (docs_lt hf l Hl k j). lia.
Qed.

Lemma next_first i : (i <= S (length l))%nat -> first_from (is_posting l) (value_at l i + 1) (value_at l (S i `min` S (length l))).
Proof using Hl.
  intros Hi. destruct (decide (i <= length l)%nat) as [Hle|Hgt].
  - rewrite Nat.min_l by lia. apply cursor_found; [lia| |].
    + intros Hlt. rewrite value_doc by lia. destruct i as [|k]; [cbn; pose proof (docs_range hf l Hl 0 Hlt); doc_lia|].
      rewrite value_doc by lia. pose proof (docs_lt hf l Hl k (S k)). lia.
    + intros j Hj _. destruct i as [|k]; [lia|]. rewrite value_doc by lia. destruct (decide (j = k)) as [->|]; [lia|].
      pose proof (docs_lt hf l Hl j k). lia.
  - rewrite Nat.min_r, !value_eof by lia. split; [by left|]. intros d Hd. lia.
Qed.

Lemma value_position i : position (is_posting l) (value_at l i).
Proof using Type.
  destruct i as [|k]; [by left|]. destruct (decide (k < length l)%nat); [|right; left; apply value_eof; lia].
  right. right. rewrite value_doc by done. apply is_posting_nth. by exists k.
Qed.

Lemma freq_of_nth i : (i < length l)%nat -> freq_of l (nth i docs 0) = nth i (l.*2) 0.
Proof using Hl.
  intros Hi. destruct (lookup_lt_is_Some_2 l i Hi) as [[d fr] E]. 
  assert (nth i docs 0 = d) as Ed by (apply nth_lookup_Some; by rewrite list_lookup_fmap, E).
  assert (nth i (l.*2) 0 = fr) as -> by (apply nth_lookup_Some; by rewrite list_lookup_fmap, E).
  unfold freq_of. assert (list_find (fun x => x.1 = nth i docs 0) l = Some (i, (d, fr))) as ->; [|done].
  apply list_find_Some. split; [done|]. split; [done|]. intros j y Ej Hj E1.
  assert (nth j docs 0 = y.1) as Ey by (apply nth_lookup_Some; by rewrite list_lookup_fmap, Ej).
  pose proof (docs_lt hf l Hl j i). lia.
Qed.

Lemma freq_of_in d fr : (d, fr) ∈ l -> freq_of l d = fr.
Proof using Hl.
  intros (i & E)%list_elem_of_lookup. pose proof (freq_of_nth i (lookup_lt_Some _ _ _ E)) as Ef.
  by rewrite (nth_lookup_Some (l.*1) i 0 d), (nth_lookup_Some (l.*2) i 0 fr) in Ef by (by rewrite list_lookup_fmap, E).
Qed.
End sorted.

(** ** The iterators *)

Section cursor.
Context {I : Type} {DI : DataInput I} {DS : DataInputSpec I} {II : IndexInput I} {IS : IndexInputSpec I} {FI : FileInput I} {FS : FileInputSpec I}
  (ops : input_operations I) (p : platform) (itf ff : bool).

(** A call that throws is a failure of the interface's. *)
#[local] Instance posting_doc_iterator : DocIterator (posting_iterator I) := {
  value := posting_value;
  next := posting_next p itf ff;
  seek t s := r ← posting_seek ops p itf ff t s; match r with Done x => Some x | Thrown _ => None end;
}.

(** [single_doc_iterator]: before, on and behind its document *)
Definition single_at (d : Z) (s : single_doc_iterator) : Prop :=
  sd_doc s = doc_limits.invalid /\ sd_next s = d \/ (sd_doc s = d \/ sd_doc s = doc_limits.eof) /\ sd_next s = doc_limits.eof.

(** An iterator over the postings [l] *)
Inductive posting_of : posting_iterator I -> list (Z * Z) -> Prop :=
  | empty_of s : posting_of (empty_posting s) []
  | single_of s d fr : doc_limits.min <= d < doc_limits.eof -> single_at d s -> (itf = true -> sd_freq s = fr) -> posting_of (single_posting s) [(d, fr)]
  | blocks_of f start L i s l : input_laws f ops -> (itf = true -> ff = true) -> good_postings ff l -> term_at f p ff l start L -> (1 < length l)%nat ->
      stands f p itf ff l start L i s -> posting_of (block_posting s) l.

Lemma posting_docs s l : posting_of s l -> doc_set (is_posting l) /\ position (is_posting l) (posting_value s).
Proof using All.
  intros [s0|s0 d fr Hd Hs Hfr|f start L i s0 l' Hops Hitf Hl Ht Hn [Hs Hf]].
  - split; [intros d Hd; by apply bool_decide_eq_true, elem_of_nil in Hd|by right; left].
  - assert (forall x, is_posting [(d, fr)] x = true <-> x = d) as Hp.
    { intros x. unfold is_posting. rewrite bool_decide_eq_true. cbn. by rewrite list_elem_of_singleton. }
    split; [by intros x ->%Hp|]. cbn. destruct Hs as [[-> _]|[[->| ->] _]]; [by left|right; right; by apply Hp|by right; left].
  - split; [by eapply doc_set_posting|]. cbn. rewrite (nr_doc _ _ _ _ _ _ _ _ _ Hs). apply value_position.
Qed.

Lemma single_first d fr t v : doc_limits.min <= d < doc_limits.eof -> (v = d /\ t <= d) \/ (v = doc_limits.eof /\ d < t) -> first_from (is_posting [(d, fr)]) t v.
Proof using All.
  intros Hd Hv. assert (forall x, is_posting [(d, fr)] x = true <-> x = d) as Hp.
  { intros x. unfold is_posting. rewrite bool_decide_eq_true. cbn. by rewrite list_elem_of_singleton. }
  split; [destruct Hv as [[-> ?]|[-> ?]]; [right; split; [done|by apply Hp]|by left]|].
  intros x Hx. apply not_true_iff_false. intros ->%Hp. lia.
Qed.

Lemma posting_next_of s l : posting_of s l -> exists s', next s = Some (negb (doc_limits.is_eof (value s')), s') /\
  posting_of s' l /\ first_from (is_posting l) (value s + 1) (value s').
Proof using All.
  intros [s0|s0 d fr Hd Hs Hfr|f start L i s0 l' Hops Hitf Hl Ht Hn Hs]; cbn [next value posting_doc_iterator posting_next posting_value].
  - exists (empty_posting s0). split; [done|]. split; [constructor|]. split; [by left|]. intros d Hd. cbn in Hd. lia.
  - exists (single_posting (single_next s0).2). split; [done|]. cbn [single_next snd sd_doc posting_value sd_next]. destruct Hs as [[E1 E2]|[E1 E2]].
    + split; [apply single_of; [done|right; split; [by left|done]|done]|]. apply single_first; [done|]. left. rewrite E1, E2. doc_lia.
    + split; [apply single_of; [done|right; split; [by right|done]|done]|]. rewrite E2. destruct E1 as [E1|E1]; [apply single_first; [done|right; lia]|].
      split; [by left|]. intros x Hx. lia.
  - destruct (next_stands f p ops Hops itf ff Hitf l' Hl start L Ht Hn i s0 (proj1 Hs)) as (s' & E & Hs' & _). rewrite E.
    pose proof (nr_range _ _ _ _ _ _ _ _ _ (proj1 Hs)) as Hi. pose proof (nr_doc _ _ _ _ _ _ _ _ _ (proj1 Hs)) as Ed. pose proof (nr_doc _ _ _ _ _ _ _ _ _ (proj1 Hs')) as Ed'.
    exists (block_posting s'). cbn [posting_value mbind option_bind]. rewrite Ed, Ed'. split; [|split; [by eapply blocks_of|by apply (next_first ff)]].
    do 2 f_equal. case_bool_decide as Hlt.
    + rewrite Nat.min_l, value_doc by lia. pose proof (docs_range ff l' Hl i Hlt). unfold doc_limits.is_eof. destruct (Z.eqb_spec doc_limits.eof (nth i l'.*1 0)); [lia|done].
    + by rewrite value_eof by lia.
Qed.

Lemma posting_seek_of s l t : posting_of s l -> doc_limits.min <= t <= doc_limits.eof -> value s <= t -> exists s',
  seek t s = Some (value s', s') /\ posting_of s' l /\ first_from (is_posting l) t (value s').
Proof using All.
  intros [s0|s0 d fr Hd Hs Hfr|f start L i s0 l' Hops Hitf Hl Ht Hn Hs] Ht' Hv; cbn [seek value posting_doc_iterator posting_seek posting_value] in *.
  - exists (empty_posting s0). split; [done|]. split; [constructor|]. cbn in *. split; [by left|]. intros d Hd. lia.
  - assert (exists s1, single_seek t s0 = Some (sd_doc s1, s1) /\ single_at d s1 /\ sd_freq s1 = sd_freq s0 /\
      (sd_doc s1 = d /\ t <= d \/ sd_doc s1 = doc_limits.eof /\ d < t)) as (s1 & E & Hs1 & Ef & Hdt).
    { unfold single_seek, single_at in *. destruct s0 as [nx dc fq c]. cbn in Hs, Hv |- *. destruct Hs as [[-> ->]|[[->| ->] ->]].
      - destruct (Z.ltb_spec doc_limits.invalid t); [|doc_lia]. unfold single_next. cbn. destruct (Z.ltb_spec d t); cbn.
        + destruct (Z.ltb_spec doc_limits.eof t); [lia|]. exists (mkSingle doc_limits.eof doc_limits.eof fq c). cbn. split; [done|]. split; [auto|]. split; [done|auto].
        + exists (mkSingle doc_limits.eof d fq c). cbn. split; [done|]. split; [auto|]. split; [done|auto].
      - destruct (Z.ltb_spec d t); cbn.
        + destruct (Z.ltb_spec doc_limits.eof t); [lia|]. exists (mkSingle doc_limits.eof doc_limits.eof fq c). cbn. split; [done|]. split; [auto|]. split; [done|auto].
        + exists (mkSingle doc_limits.eof d fq c). cbn. split; [done|]. split; [auto|]. split; [done|auto].
      - destruct (Z.ltb_spec doc_limits.eof t); [lia|]. exists (mkSingle doc_limits.eof doc_limits.eof fq c). cbn. split; [done|]. split; [auto|].
        split; [done|]. right. split; [done|lia]. }
    exists (single_posting s1). rewrite E. split; [done|]. split; [|by apply single_first].
    apply single_of; [done|done|]. intros H. rewrite Ef. by apply Hfr.
  - rewrite (nr_doc _ _ _ _ _ _ _ _ _ (proj1 Hs)) in Hv.
    destruct (seek_stands f p ops Hops itf ff Hitf l' Hl start L Ht Hn i s0 t Hs Ht' Hv) as (s' & i' & E & Hs' & Hi' & Hge & Hlt). rewrite E.
    pose proof (nr_range _ _ _ _ _ _ _ _ _ (proj1 Hs')) as Hr. pose proof (nr_doc _ _ _ _ _ _ _ _ _ (proj1 Hs')) as Ed'.
    exists (block_posting s'). split; [done|]. split; [by eapply blocks_of|]. cbn [posting_value]. rewrite Ed'. by apply (cursor_found ff); [done|lia|..].
Qed.

(** The frequency of the document that an iterator stands on *)
Lemma posting_frequency_of s l d fr : posting_of s l -> itf = true -> (d, fr) ∈ l -> value s = d -> posting_frequency s = fr.
Proof using All.
  intros [s0|s0 d0 fr0 Hd Hs Hfr|f start L i s0 l' Hops Hitf Hl Ht Hn Hs] Hi Hin; cbn [value posting_doc_iterator posting_value posting_frequency].
  - by apply elem_of_nil in Hin.
  - apply list_elem_of_singleton in Hin as [= -> ->]. intros _. by apply Hfr.
  - rewrite (nr_doc _ _ _ _ _ _ _ _ _ (proj1 Hs)). apply list_elem_of_lookup in Hin as (k & E). intros Ev.
    assert (nth k (l'.*1) 0 = d) as Ed by (apply nth_lookup_Some; by rewrite list_lookup_fmap, E).
    assert (nth k (l'.*2) 0 = fr) as Ef by (apply nth_lookup_Some; by rewrite list_lookup_fmap, E). apply lookup_lt_Some in E.
    pose proof (docs_range ff l' Hl k E) as Hr. assert (i = S k) as ->.
    { destruct i as [|j]; [cbn in Ev; doc_lia|]. destruct (decide (j < length l')%nat) as [Hj|Hj].
      - rewrite value_doc in Ev by done. f_equal. apply (docs_unique ff l' Hl); [done|done|congruence].
      - rewrite value_eof in Ev by lia. lia. }
    pose proof (proj2 Hs Hi ltac:(lia)) as Hf. rewrite Nat.sub_succ, Nat.sub_0_r in Hf. congruence.
Qed.

(** The frequencies are those of the function [F]. *)
#[local] Instance posting_spec (F : Z -> Z) : DocIteratorSpec (posting_iterator I).
Proof using All.
  refine {| matches s P := exists l, posting_of s l /\ (forall d, P d = is_posting l d) /\ (itf = true -> forall d fr, (d, fr) ∈ l -> fr = F d) |}.
  - intros s P (l & Hs & HP & _). eapply doc_set_ext; [|exact (proj1 (posting_docs s l Hs))]. done.
  - intros s P (l & Hs & HP & _). eapply position_ext; [|exact (proj2 (posting_docs s l Hs))]. done.
  - intros s P Q (l & Hs & HP & HF) E. exists l. split; [done|]. split; [|done]. intros d. by rewrite <-E.
  - intros s P (l & Hs & HP & HF). destruct (posting_next_of s l Hs) as (s' & E & Hs' & Hf). exists s'. split; [done|]. split; [by exists l|].
    eapply first_from_ext; [|exact Hf]. done.
  - intros s P t (l & Hs & HP & HF) Ht Hv. destruct (posting_seek_of s l t Hs Ht Hv) as (s' & E & Hs' & Hf). exists s'. split; [done|]. split; [by exists l|].
    eapply first_from_ext; [|exact Hf]. done.
Defined.

Lemma posting_frequency_spec F s P : matches (DocIteratorSpec := posting_spec F) s P -> itf = true -> P (value s) = true -> posting_frequency s = F (value s).
Proof using All.
  intros (l & Hs & HP & HF) Hi Hv. rewrite HP in Hv. unfold is_posting in Hv. apply bool_decide_eq_true in Hv.
  apply list_elem_of_fmap in Hv as ([d fr] & E & Hin). cbn [fst] in E. rewrite (posting_frequency_of s l d fr Hs Hi Hin E). rewrite E. by apply HF.
Qed.

(** [iterator] on the bytes of a term *)
Definition reads_meta (l : list (Z * Z)) (start : nat) (meta : term_meta) : Prop :=
  tm_docs_count meta = Z.of_nat (length l) /\ (l <> [] -> tm_doc_start meta = Z.of_nat start) /\
  (length l = 1%nat -> tm_ext meta = e_single_doc (nth 0 (l.*1) 0 - doc_limits.min) /\ (itf = true -> tm_freq meta = nth 0 (l.*2) 0)) /\
  ((kBlock < length l)%nat -> tm_ext meta = e_skip_start (Z.of_nat (length (postings_bytes (big_endian p) ff l)))).

Lemma postings_iterator_made f l start L freqs0 enc_buf meta doc_in q : input_laws f ops -> (itf = true -> ff = true) -> good_postings ff l ->
  ((1 < length l)%nat -> term_at f p ff l start L) -> length freqs0 = kBlock -> scratch kBlock enc_buf -> reads_meta l start meta -> at_ f q doc_in ->
  exists it, make_iterator ops itf freqs0 enc_buf meta doc_in = Some (Done it) /\ posting_of it l /\
    posting_value it = (if decide (l = []) then doc_limits.eof else doc_limits.invalid).
Proof using All.
  intros Hops Hitf Hl Ht Hfr He (M1 & M2 & M3 & M4) Hq. unfold make_iterator. rewrite M1.
  destruct (Z.eqb_spec (Z.of_nat (length l)) 0) as [E0|E0].
  { destruct l; [|done]. eexists. split; [done|]. split; [constructor|]. by rewrite decide_True. }
  rewrite (decide_False (P := l = [])) by (intros ->; done).
  destruct (Z.eqb_spec (Z.of_nat (length l)) 1) as [E1|E1].
  - destruct (M3 ltac:(lia)) as [Ee Ef]. unfold single_prepare. rewrite Ee. cbn [single_doc mbind option_bind]. rewrite bind_lift. eexists. split; [done|].
    split; [|done]. destruct l as [|[d fr] [|? ?]]; [cbn in E1; lia| |cbn in E1; lia]. cbn in *. pose proof (docs_range ff _ Hl 0 ltac:(cbn; lia)) as Hd. cbn in Hd.
    apply single_of; [done|left; split; [done|]|].
    + cbn. rewrite wrap_small by (unfold is_word; doc_lia). lia.
    + intros Hi. cbn. rewrite Hi. by apply Ef.
  - destruct (prepare_stands f p ops Hops itf ff Hitf l Hl start L (Ht ltac:(lia)) ltac:(lia) freqs0 enc_buf meta doc_in q Hfr He) as (s & Es & Hs & _); [|done|].
    { split; [done|]. split; [|done]. apply M2. by intros ->. }
    rewrite Es, bind_done. eexists. split; [done|]. split.
    + eapply (blocks_of f start L 0); try done; [apply Ht; lia|lia].
    + exact (nr_doc _ _ _ _ _ _ _ _ _ (proj1 Hs)).
Qed.
End cursor.
