(* ===== verification/PostingsUnion.v ===== *)
(** * The union of postings

    [postings_reader::bit_union] sets in an array of words the bits of all of the documents of a number of terms, without
    iterators: it decodes the blocks and the tail of each term in place. *)
From Stdlib Require Import ZifyNat.
From S2P Require Import Prelude BitUtils BytesIO Streams FileStreams MemoryFile StoreUtils BitPacking Simd BlockCodec Outcome Coding DocIterators Bitset SkipList SkipListSeek Postings PostingsWriter PostingsReader PostingsBlocks PostingsIterator PostingsCursor.

(** ** Sets of documents as words *)

Definition in_words (set : list Z) (d : Z) : bool := Z.testbit (nth (Z.to_nat (d / 64)) set 0) (d mod 64).
Definition good_words (set : list Z) : Prop := Forall (is_word 64) set.

(** [set'] has the documents [ds] more. *)
Definition adds (ds set set' : list Z) : Prop :=
  length set' = length set /\ good_words set' /\ forall d, 0 <= d -> in_words set' d = bool_decide (d ∈ ds) || in_words set d.

Lemma adds_nil set : good_words set -> adds [] set set.
Proof. intros Hs. split; [done|]. split; [done|]. intros d _. by rewrite bool_decide_false by apply not_elem_of_nil. Qed.

Lemma adds_app ds ds' set set1 set2 : adds ds set set1 -> adds ds' set1 set2 -> adds (ds ++ ds') set set2.
Proof.
  intros (L1 & _ & E1) (L2 & W2 & E2). split; [congruence|]. split; [done|]. intros d Hd. rewrite E2, E1 by done. rewrite orb_assoc. f_equal.
  apply Bool.eq_iff_eq_true. rewrite orb_true_iff, !bool_decide_eq_true, elem_of_app. tauto.
Qed.

Lemma union_bit_spec doc set : good_words set -> 0 <= doc < 64 * Z.of_nat (length set) -> exists set', union_bit doc set = Some set' /\ adds [doc] set set'.
Proof.
  intros Hs Hd. unfold union_bit. set (i := Z.to_nat (doc / 64)). assert (i < length set)%nat as Hi.
  { unfold i. pose proof (Z.div_lt_upper_bound doc 64 (Z.of_nat (length set))). pose proof (Z.div_pos doc 64). lia. }
  destruct (lookup_lt_is_Some_2 set i Hi) as [w Ew]. rewrite Ew. cbn [mbind option_bind]. eexists. split; [done|].
  pose proof (Z.mod_pos_bound doc 64 ltac:(lia)) as Hm. assert (is_word 64 w) as Hw by (by apply (proj1 (Forall_lookup _ _) Hs i)).
  split; [by rewrite length_insert|]. split; [apply Forall_insert; [done|by apply Bit.set_bit_word]|]. intros d Hd0. unfold in_words. pose proof (Z.mod_pos_bound d 64 ltac:(lia)) as Hmd.
  assert (bool_decide (d ∈ [doc]) = (d =? doc)) as ->.
  { apply Bool.eq_iff_eq_true. by rewrite bool_decide_eq_true, list_elem_of_singleton, Z.eqb_eq. }
  rewrite !nth_lookup. destruct (decide (Z.to_nat (d / 64) = i)) as [E|E].
  - rewrite E, list_lookup_insert_eq, Ew by done. cbn [from_option id]. rewrite Bit.set_bit_testbit by lia. f_equal.
    apply Bool.eq_iff_eq_true. rewrite !Z.eqb_eq. pose proof (Z.div_mod d 64 ltac:(lia)). pose proof (Z.div_mod doc 64 ltac:(lia)). unfold i in E.
    pose proof (Z.div_pos d 64). pose proof (Z.div_pos doc 64). split; [|congruence]. intros Eb. assert (d / 64 = doc / 64) by lia. lia.
  - rewrite list_lookup_insert_ne by congruence. destruct (Z.eqb_spec d doc) as [->|]; [by destruct E|done].
Qed.

(** ** A term *)

Section term.
Context {I : Type} {DI : DataInput I} {DS : DataInputSpec I} {II : IndexInput I} {IS : IndexInputSpec I} {FI : FileInput I} {FS : FileInputSpec I}
  (f : list Z) (p : platform) (ff : bool) (l : list (Z * Z)) (Hl : good_postings ff l) (start L : nat) (Ht : term_at f p ff l start L) (Hn : (1 < length l)%nat).
#[local] Abbreviation docs := (l.*1).
#[local] Abbreviation ptr b := (length (blocks_enc (big_endian p) ff l b)).

(** The documents have bits. *)
Definition fits (set : list Z) : Prop := good_words set /\ Forall (fun d => d < 64 * Z.of_nat (length set)) docs.

Lemma fits_adds ds set set' : fits set -> adds ds set set' -> fits set'.
Proof using All. intros [_ H2] (E & W & _). split; [done|]. by rewrite E. Qed.

Lemma union_doc i set : fits set -> (i < length l)%nat -> exists set', union_bit (prev l i +[32] (nth i docs 0 -[32] prev l i)) set = Some set' /\
  adds [nth i docs 0] set set' /\ fits set'.
Proof using All.
  intros Hs Hi. rewrite (prev_step ff l Hl) by done. destruct Hs as [H1 H2]. rewrite Forall_lookup in H2. pose proof (H2 i _ (docs_at l i Hi)) as Hlt. cbn in Hlt.
  pose proof (docs_range ff l Hl i Hi). destruct (union_bit_spec (nth i docs 0) set H1 ltac:(doc_lia)) as (set' & E & Ha).
  exists set'. split; [done|]. split; [done|]. eapply fits_adds; [|exact Ha]. split; [done|by rewrite Forall_lookup].
Qed.

Lemma union_deltas_spec k : forall i set, fits set -> (i + k <= length l)%nat -> exists set',
  union_deltas (deltas l i k) (prev l i) set = Some (prev l (i + k), set') /\ adds (take k (drop i docs)) set set' /\ fits set'.
Proof using All.
  induction k as [|k IH]; intros i set Hs Hk.
  { exists set. unfold deltas. rewrite !take_0, Nat.add_0_r. split; [done|]. split; [apply adds_nil, Hs|done]. }
  rewrite deltas_S by lia. cbn [union_deltas]. destruct (union_doc i set Hs ltac:(lia)) as (s1 & E & Ha & Hs1). rewrite E. cbn [mbind option_bind].
  rewrite (prev_step ff l Hl) by lia. destruct (IH (S i) s1 Hs1 ltac:(lia)) as (s2 & E2 & Ha2 & Hs2). change (nth i docs 0) with (prev l (S i)) at 1.
  rewrite E2. exists s2. replace (i + S k)%nat with (S i + k)%nat by lia. split; [done|]. split; [|done].
  rewrite (drop_S docs _ i (docs_at l i ltac:(lia))). by apply (adds_app [nth i docs 0] _ set s1 s2).
Qed.

Lemma union_blocks_spec k : forall b docs0 enc in_ set, (b + k <= full_blocks l)%nat -> length docs0 = kBlock -> scratch kBlock enc ->
  at_ f (start + ptr b) in_ -> fits set -> exists docs' enc' in' set',
  union_blocks p ff k (prev l (kBlock * b)) docs0 enc in_ set = Some (prev l (kBlock * (b + k)), docs', enc', in', set') /\
  length docs' = kBlock /\ scratch kBlock enc' /\ at_ f (start + ptr (b + k)) in' /\
  adds (take (kBlock * k) (drop (kBlock * b) docs)) set set' /\ fits set'.
Proof using All.
  induction k as [|k IH]; intros b docs0 enc in_ set Hb Hd He Hs Hf; cbn [union_blocks].
  { exists docs0, enc, in_, set. rewrite Nat.mul_0_r, Nat.add_0_r. rewrite take_0. do 4 (split; [done|]). split; [apply adds_nil, Hf|done]. }
  destruct (behind_blocks f p ff l start L Ht Hn b ltac:(lia)) as (x & r & E & Hr & Hfull & _). destruct (Hfull ltac:(lia)) as (y & ->).
  assert (kBlock * S b <= length l)%nat as Hsb by (unfold full_blocks in Hb; kb).
  destruct (block_good ff l Hl b Hsb) as (Hg1 & Hg2 & Hlen). unfold block_enc in E. rewrite <-!app_assoc in E.
  destruct (read_block_at f p (block_deltas l b) docs0 enc _ in_ _ Hg1 Hd He Hs E) as (e1 & s1 & -> & Hs1 & He1). cbn [mbind option_bind].
  assert (exists s2, (if ff then format_traits.skip_block s1 else Some s1) = Some s2 /\ at_ f (start + ptr (S b)) s2) as (s2 & -> & Hs2).
  { cbn [blocks_enc]. unfold block_enc. rewrite !length_app, !Nat.add_assoc. clear IH Ht. assert (y ++ r <> []) as Hne by (by destruct y, r).
    destruct ff; [|cbn [length]; rewrite Nat.add_0_r; by exists s1].
    apply (skip_block_at f p (block_of b (l.*2)) _ s1 (y ++ r) Hg2 Hs1 Hne). by rewrite <-drop_drop, E, drop_app_length. }
  cbn [mbind option_bind]. rewrite block_deltas_eq. destruct (union_deltas_spec kBlock (kBlock * b) set Hf ltac:(lia)) as (s3 & -> & Ha & Hf3).
  cbn [mbind option_bind]. replace (kBlock * b + kBlock)%nat with (kBlock * S b)%nat by lia.
  destruct (IH (S b) (deltas l (kBlock * b) kBlock) e1 s2 s3 ltac:(lia) ltac:(by rewrite <-block_deltas_eq) He1 Hs2 Hf3)
    as (d4 & e4 & s4 & set4 & -> & Hd4 & He4 & Hs4 & Ha4 & Hf4).
  replace (S b + k)%nat with (b + S k)%nat in * by lia. exists d4, e4, s4, set4. do 4 (split; [done|]). split; [|done].
  replace (take (kBlock * S k) (drop (kBlock * b) docs)) with (take kBlock (drop (kBlock * b) docs) ++ take (kBlock * k) (drop (kBlock * S b) docs)).
  - by eapply adds_app.
  - replace (kBlock * S b)%nat with (kBlock * b + kBlock)%nat by lia. rewrite <-drop_drop, take_take_drop. f_equal. lia.
Qed.

Lemma union_tail_spec k : forall i in_ q r set, (i + k = length l)%nat -> at_ f q in_ ->
  drop q f = tail_enc ff (drop i docs) (drop i (l.*2)) (prev l i) ++ r -> fits set -> exists in' q' set',
  union_tail ff k (prev l i) in_ set = Some (in', set') /\ at_ f q' in' /\ adds (drop i docs) set set' /\ fits set'.
Proof using All.
  induction k as [|k IH]; intros i in_ q r set Hi Hs E Hf; cbn [union_tail].
  { exists in_, q, set. split; [done|]. split; [done|]. rewrite drop_ge by (rewrite length_docs; lia). split; [apply adds_nil, Hf|done]. }
  assert (i < length (l.*2))%nat as Hf2 by (rewrite length_freqs; lia). destruct (lookup_lt_is_Some_2 _ _ Hf2) as [fr Efr].
  rewrite (drop_S docs _ i (docs_at l i ltac:(lia))), (drop_S (l.*2) _ i Efr), tail_enc_cons, <-app_assoc in E.
  assert (is_word 32 fr) as Hw by (pose proof (gp_freqs ff l Hl) as Hg; rewrite Forall_lookup in Hg; by apply (Hg i)).
  destruct (tail_entry_spec f ff _ fr q in_ _ (gap_ok_at ff l Hl i ltac:(lia)) Hw Hs E) as (v & s1 & -> & Hv). cbn [mbind option_bind].
  set (delta := nth i docs 0 -[32] prev l i) in *. set (q1 := (q + length (tail_entry ff delta fr))%nat) in *.
  assert (drop q1 f = tail_enc ff (drop (S i) docs) (drop (S i) (l.*2)) (prev l (S i)) ++ r) as E1 by (unfold q1; by rewrite <-drop_drop, E, drop_app_length).
  assert (exists s2, (if ff then let '(one, delta) := shift_unpack_32 v in
        in_ ← (if one : bool then Some s1 else '(_, in_) ← read_vint s1; Some in_); Some (delta, in_) else Some (v, s1)) = Some (delta, s2) /\ at_ f q1 s2)
    as (s2 & E2 & Hs2).
  { clear IH Ht Hl E E1 Hf. destruct ff; [|destruct Hv as [-> Hv]; by exists s1]. destruct Hv as [-> Hv]. destruct (1 =? fr); [by exists s1|].
    destruct Hv as (s2 & -> & Hs2). by exists s2. }
  rewrite E2. cbn [mbind option_bind]. pose proof (union_doc i set Hf ltac:(lia)) as Hdoc. fold delta in Hdoc. destruct Hdoc as (s3 & -> & Ha & Hf3). cbn [mbind option_bind].
  unfold delta. rewrite (prev_step ff l Hl) by lia. change (nth i docs 0) with (prev l (S i)) at 1.
  destruct (IH (S i) s2 q1 r s3 ltac:(lia) Hs2 E1 Hf3) as (s4 & q4 & set4 & -> & Hs4 & Ha4 & Hf4). exists s4, q4, set4. split; [done|]. split; [done|].
  split; [|done]. rewrite (drop_S docs _ i (docs_at l i ltac:(lia))). by apply (adds_app [nth i docs 0] _ set s3 set4).
Qed.

(** All of the documents of the term *)
Lemma union_postings_spec docs0 enc in_ set q : length docs0 = kBlock -> scratch kBlock enc -> at_ f q in_ -> fits set -> exists docs' enc' in' q' set',
  union_postings p ff (Z.of_nat (length l)) docs0 enc (Streams.seek start in_) set = Some (docs', enc', in', set') /\
  length docs' = kBlock /\ scratch kBlock enc' /\ at_ f q' in' /\ adds docs set set' /\ good_words set'.
Proof using All.
  intros Hd He Hq Hf. unfold union_postings. assert (start < length f)%nat as Hlt.
  { pose proof (ptr_lt f p ff l start L Ht Hn 0 ltac:(lia)) as H. cbn in H. lia. }
  pose proof (seek_at f _ _ _ Hq Hlt) as Hs. rewrite <-(Nat.add_0_r start) in Hs at 1.
  assert (Z.to_nat (Z.of_nat (length l) / Z.of_nat kBlock) = full_blocks l) as -> by (unfold full_blocks; kb).
  assert (Z.to_nat (Z.of_nat (length l) mod Z.of_nat kBlock) = (length l - kBlock * full_blocks l)%nat) as -> by (unfold full_blocks; kb).
  destruct (union_blocks_spec (full_blocks l) 0 docs0 enc _ set ltac:(lia) Hd He Hs Hf) as (d1 & e1 & s1 & set1 & E1 & Hd1 & He1 & Hs1 & Ha1 & Hf1).
  rewrite Nat.mul_0_r in E1. change (prev l 0) with doc_limits.min in E1. rewrite E1. cbn [mbind option_bind]. cbn [Nat.add] in *.
  destruct (behind_blocks f p ff l start L Ht Hn (full_blocks l) ltac:(lia)) as (x & r & E & _ & _ & Htail). rewrite (Htail eq_refl) in E.
  unfold tail_bytes, tail_of in E. rewrite base_prev in E.
  destruct (union_tail_spec (length l - kBlock * full_blocks l) (kBlock * full_blocks l) s1 (start + ptr (full_blocks l)) r set1) as (s2 & q2 & set2 & E2 & Hs2 & Ha2 & Hf2);
    [unfold full_blocks; kb|exact Hs1|exact E|exact Hf1|].
  rewrite E2. cbn [mbind option_bind]. exists d1, e1, s2, q2, set2. do 4 (split; [done|]). split; [|apply Hf2].
  rewrite Nat.mul_0_r, drop_0 in Ha1. rewrite <-(take_drop (kBlock * full_blocks l) docs). by eapply adds_app.
Qed.
End term.

(** ** A number of terms *)

Section terms.
Context {I : Type} {DI : DataInput I} {DS : DataInputSpec I} {II : IndexInput I} {IS : IndexInputSpec I} {FI : FileInput I} {FS : FileInputSpec I}
  (f : list Z) (p : platform) (ff : bool).

(** A term in the file with its metadata, as the reader of the field knows them *)
Definition term_known (t : list (Z * Z) * term_meta) : Prop :=
  exists start L, good_postings ff t.1 /\ t.1 <> [] /\ reads_meta p false ff t.1 start t.2 /\ ((1 < length t.1)%nat -> term_at f p ff t.1 start L).

Lemma union_terms_spec terms : Forall term_known terms -> forall count docs0 enc in_ set q, length docs0 = kBlock -> scratch kBlock enc -> at_ f q in_ ->
  good_words set -> Forall (fun t => Forall (fun d => d < 64 * Z.of_nat (length set)) (t.1.*1)) terms -> exists set',
  union_terms p ff (terms.*2) count docs0 enc in_ set = Some (foldl (fun c t => c +[64] Z.of_nat (length t.1)) count terms, set') /\
  adds (terms ≫= fun t => t.1.*1) set set'.
Proof using All.
  induction 1 as [|[l m] terms (start & L & Hl & Hne & (M1 & M2 & M3 & M4) & Ht) _ IH]; intros count docs0 enc in_ set q Hd He Hs Hw Hfit.
  { exists set. split; [done|by apply adds_nil]. }
  apply Forall_cons in Hfit as [Hfit1 Hfit]. cbn [fst snd] in *. rewrite fmap_cons, bind_cons. cbn [fst snd union_terms foldl]. rewrite M1.
  destruct (Z.ltb_spec 1 (Z.of_nat (length l))) as [Hn|Hn].
  - rewrite M2, Nat2Z.id by done.
    destruct (union_postings_spec f p ff l Hl start L (Ht ltac:(lia)) ltac:(lia) docs0 enc in_ set q Hd He Hs (conj Hw Hfit1))
      as (d1 & e1 & s1 & q1 & set1 & -> & Hd1 & He1 & Hs1 & Ha & Hw1). cbn [mbind option_bind].
    destruct (IH (count +[64] Z.of_nat (length l)) d1 e1 s1 set1 q1 Hd1 He1 Hs1 Hw1) as (set2 & -> & Ha2); [by rewrite (proj1 Ha)|].
    exists set2. split; [done|by eapply adds_app].
  - assert (length l = 1%nat) as E1 by (destruct l; [done|cbn [length] in *; lia]). destruct (M3 E1) as [-> _]. cbn [single_doc mbind option_bind].
    pose proof (docs_range ff l Hl 0 ltac:(lia)) as Hr. rewrite (wrap_small 32 (doc_limits.min + _)) by (unfold is_word; doc_lia).
    replace (doc_limits.min + (nth 0 l.*1 0 - doc_limits.min)) with (nth 0 l.*1 0) by lia.
    destruct l as [|[d fr] [|? ?]]; [done| |done]. cbn [nth fmap list_fmap fst length app] in *. apply Forall_cons in Hfit1 as [Hfit1 _].
    destruct (union_bit_spec d set Hw ltac:(doc_lia)) as (set1 & -> & Ha). cbn [mbind option_bind].
    destruct (IH (count +[64] 1) docs0 enc in_ set1 q Hd He Hs (proj1 (proj2 Ha))) as (set2 & E2 & Ha2); [by rewrite (proj1 Ha)|].
    cbn [mbind option_bind] in E2. rewrite E2. exists set2. split; [done|]. by apply (adds_app [d] _ set set1 set2).
Qed.

(** C9: [bit_union] sets the bits of all of the documents of its terms, and no others, in whatever the array held, and returns the number
    of the documents it has decoded; without a stream of its own it throws [io_error]. *)
Theorem bit_union_spec (ops : input_operations I) terms docs0 enc doc_in set q : input_laws f ops -> Forall term_known terms ->
  length docs0 = kBlock -> scratch kBlock enc -> at_ f q doc_in -> good_words set ->
  Forall (fun t => Forall (fun d => d < 64 * Z.of_nat (length set)) (t.1.*1)) terms ->
  (exists set', bit_union ops p ff (terms.*2) docs0 enc doc_in set =
     Some (Done (foldl (fun c t => c +[64] Z.of_nat (length t.1)) 0 terms, set')) /\
     length set' = length set /\ forall d, 0 <= d -> in_words set' d = existsb (fun t => is_posting t.1 d) terms || in_words set d) /\
  (forall ops', in_reopen ops' doc_in = None -> bit_union ops' p ff (terms.*2) docs0 enc doc_in set = Some (Thrown (io_error "failed to reopen document input"))).
Proof using All.
  intros Hops Hterms Hd He Hs Hw Hfit. split; [|by intros ops' E; unfold bit_union; rewrite E].
  destruct (reopen_law _ _ Hops _ _ Hs) as (in_ & E & Hin). unfold bit_union. rewrite E.
  destruct (union_terms_spec terms Hterms 0 docs0 enc in_ set q Hd He Hin Hw Hfit) as (set' & -> & (El & _ & Hb)).
  exists set'. split; [done|]. split; [done|]. intros d Hd0. rewrite Hb by done. f_equal. apply Bool.eq_iff_eq_true.
  rewrite bool_decide_eq_true, existsb_exists, list_elem_of_bind. split.
  - intros (t & Hin' & Ht). exists t. split; [by apply list_elem_of_In|]. by apply bool_decide_eq_true.
  - intros (t & Ht & Hp). exists t. split; [by apply bool_decide_eq_true in Hp|by apply list_elem_of_In].
Qed.
End terms.

(** A term with one document and one with three, whose tail is the file *)
Definition example_single : list (Z * Z) := [(70, 1)].
Definition example_tail : list (Z * Z) := [(2, 1); (5, 1); (64, 1)].

Lemma example_tail_good : good_postings false example_tail.
Proof.
  split; [|cbn; repeat (apply Forall_cons_2; [doc_lia|]); apply Forall_nil_2|done|cbn; repeat (apply Forall_cons_2; [done|]); apply Forall_nil_2].
  intros [|[|[|i]]] [|[|[|j]]] x y Hij Hx Hy; cbn in Hx, Hy; try done; try lia; injection Hx as <-; injection Hy as <-; lia.
Qed.

Lemma bit_union_spec_witness : exists count set',
  bit_union view_inputs example_platform false
    [mkMeta 1 0 9 0 0 0 (e_single_doc 69); mkMeta 3 0 1 0 0 0 (e_skip_start 0)]
    (replicate 128 3) (replicate 128 4) (BytesView.Make ([8] ++ tail_enc false [2; 5; 64] [1; 1; 1] 1 ++ [0]) 0) [1; 0] = Some (Done (count, set')) /\
  count = 4 /\ in_words set' 70 = true /\ in_words set' 64 = true /\ in_words set' 0 = true /\ in_words set' 3 = false.
Proof.
  destruct (bit_union_spec (I := BytesView.t) ([8] ++ tail_enc false [2; 5; 64] [1; 1; 1] 1 ++ [0]) example_platform false view_inputs
    [(example_single, mkMeta 1 0 9 0 0 0 (e_single_doc 69)); (example_tail, mkMeta 3 0 1 0 0 0 (e_skip_start 0))]
    (replicate 128 3) (replicate 128 4) (BytesView.Make ([8] ++ tail_enc false [2; 5; 64] [1; 1; 1] 1 ++ [0]) 0) [1; 0] 0) as [(set' & E & _ & Hb) _].
  - apply view_laws.
  - constructor; [|constructor; [|constructor]].
    + exists 9%nat, 0%nat. cbn [fst snd]. split; [|split; [done|split]].
      * split; [|cbn; apply Forall_cons_2; [doc_lia|apply Forall_nil_2]|done|cbn; apply Forall_cons_2; [done|apply Forall_nil_2]].
        intros [|i] [|j] x y Hij Hx Hy; cbn in Hx, Hy; try done; lia.
      * repeat split; try done. rewrite kBlock_eq. cbn. lia.
      * cbn. lia.
    + exists 1%nat, 0%nat. cbn [fst snd]. split; [exact example_tail_good|]. split; [done|]. split.
      * repeat split; try done. rewrite kBlock_eq. cbn. lia.
      * intros _. split; [|done|rewrite kBlock_eq; cbn; lia]. exists [0]. split; [|done]. unfold term_bytes.
        rewrite decide_False, decide_False by (rewrite ?kBlock_eq; cbn; lia). rewrite app_nil_r. unfold postings_bytes, tail_bytes, tail_of, full_blocks.
        rewrite Nat.div_small by (rewrite kBlock_eq; cbn; lia). rewrite Nat.mul_0_r. done.
  - by rewrite length_replicate, kBlock_eq.
  - split; [apply Forall_replicate; done|by rewrite length_replicate, kBlock_eq].
  - apply view_at. lia.
  - by repeat constructor.
  - repeat constructor; cbn; lia.
  - exists 4, set'. split; [exact E|]. split; [done|]. rewrite !Hb by lia. done.
Defined.
