(* ===== verification/TermMeta.v ===== *)
(** * The metadata of terms, encoded and decoded

    [postings_writer::encode] stores the metadata of a term as differences from the term before it, and
    [postings_reader::decode] adds them up again: decoding in order what was encoded in order gives the metadata of every
    term, for fields of all features. *)
From S2P Require Import Prelude BitUtils BytesIO Streams FileStreams MemoryFile StoreUtils BitPacking Simd BlockCodec Outcome Coding DocIterators Bitset SkipList SkipListSeek Postings.

#[local] Abbreviation has := IndexFeatures.has.

(** Positions need frequencies. *)
Definition good_features (features : Z) : Prop := has features IndexFeatures.POS = true -> has features IndexFeatures.FREQ = true.

Record good_meta (features : Z) (m : term_meta) : Prop := {
  gm_count : is_word 32 (tm_docs_count m);
  gm_freq : is_word 32 (tm_freq m);
  gm_doc : is_word 64 (tm_doc_start m);
  gm_pos : is_word 64 (tm_pos_start m);
  gm_end : is_word 64 (tm_pos_end m);
  gm_pay : is_word 64 (tm_pay_start m);
  gm_has_freq : tm_freq m <> 0 <-> has features IndexFeatures.FREQ = true;
  gm_has_end : has features IndexFeatures.POS = true -> address_limits.valid (tm_pos_end m) = (Z.of_nat kBlock <? tm_freq m);
  gm_single : tm_docs_count m = 1 -> exists d, tm_ext m = e_single_doc d /\ is_word 32 d;
  gm_skip : Z.of_nat kBlock < tm_docs_count m -> exists s, tm_ext m = e_skip_start s /\ is_word 64 s;
}.

(** What a field stores of the metadata *)
Definition same_starts (features : Z) (m m' : term_meta) : Prop :=
  tm_doc_start m = tm_doc_start m' /\
  (has features IndexFeatures.POS = true -> tm_pos_start m = tm_pos_start m') /\
  (has features IndexFeatures.POS = true -> has features (Z.lor IndexFeatures.PAY IndexFeatures.OFFS) = true -> tm_pay_start m = tm_pay_start m').
Definition same_meta (features : Z) (m m' : term_meta) : Prop :=
  same_starts features m m' /\ tm_docs_count m = tm_docs_count m' /\
  (has features IndexFeatures.FREQ = true -> tm_freq m = tm_freq m') /\
  (has features IndexFeatures.POS = true -> tm_pos_end m = tm_pos_end m') /\
  (tm_docs_count m = 1 \/ Z.of_nat kBlock < tm_docs_count m -> tm_ext m = tm_ext m').

Lemma has_pay_or_offs features : has features (Z.lor IndexFeatures.PAY IndexFeatures.OFFS) = HasOffsetOrPayload (Features_Reset features).
Proof.
  unfold HasOffsetOrPayload, IndexFeatures.has. cbn [Features_Reset HasOffset HasPayload]. unfold IndexFeatures.has, IndexFeatures.NONE.
  rewrite Z.land_lor_distr_r. generalize (Z.land features IndexFeatures.PAY), (Z.land features IndexFeatures.OFFS). intros a b.
  destruct (Z.eqb_spec 0 (Z.lor a b)) as [E|E], (Z.eqb_spec 0 b) as [Eb|Eb], (Z.eqb_spec 0 a) as [Ea|Ea]; try done; exfalso.
  1-3: symmetry in E; apply Z.lor_eq_0_iff in E as [-> ->]; by (apply Eb || apply Ea).
  apply E. by rewrite <-Ea, <-Eb.
Qed.

Section coding.
Context {O : Type} `{DataOutputSpec O}.

(** What was written, and what decoding gives back *)
Definition wrote (out out' : O) (enc : list Z) : Prop := out_ok out' /\ written out' = written out ++ enc.

Lemma wrote_vint v (out out1 : O) enc : wrote out out1 enc -> wrote out (write_vint v out1) (enc ++ VInt.vwrite32 v).
Proof. intros [H1 H2]. destruct (write_vint_spec v out1 H1) as [H3 H4]. split; [done|]. by rewrite H4, H2, app_assoc. Qed.
Lemma wrote_vlong v (out out1 : O) enc : wrote out out1 enc -> wrote out (write_vlong v out1) (enc ++ VInt.vwrite64 v).
Proof. intros [H1 H2]. destruct (out_iter_spec (VInt.vwrite64 v) out1 H1) as [H3 H4]. split; [done|]. unfold write_vlong. by rewrite H4, H2, app_assoc. Qed.

Lemma vread32_app v r : is_word 32 v -> VInt.vread32 (VInt.vwrite32 v ++ r) = Some (v, r).
Proof. intros Hv. by apply (VInt.vwrite32_spec v Hv). Qed.
Lemma vread64_app v r : is_word 64 v -> VInt.vread64 (VInt.vwrite64 v ++ r) = Some (v, r).
Proof. intros Hv. by apply (VInt.vwrite64_spec v Hv). Qed.

(** A difference that is added again *)
Lemma diff_word w x y : 0 <= w -> is_word w (x -[w] y).
Proof. intros. by apply wrap_range. Qed.
Lemma diff_back w x y : 0 <= w -> is_word w x -> y +[w] (x -[w] y) = x.
Proof. intros Hw Hx. rewrite wrap_add_r. replace (y + (x - y)) with x by lia. by apply wrap_small. Qed.
End coding.

(** The three parts of the encoding: counts, positions, what the term has instead of postings or behind them *)
Section parts.
Context (features : Z) (Hfeat : good_features features).
#[local] Abbreviation fs := (Features_Reset features).

Definition counts_enc (last m : term_meta) : list Z :=
  VInt.vwrite32 (tm_docs_count m) ++ (if negb (tm_freq m =? 0) then VInt.vwrite32 (tm_freq m -[32] tm_docs_count m) else []) ++
  VInt.vwrite64 (tm_doc_start m -[64] tm_doc_start last).
Definition pos_enc (last m : term_meta) : list Z :=
  if HasPosition fs then
    VInt.vwrite64 (tm_pos_start m -[64] tm_pos_start last) ++
    (if address_limits.valid (tm_pos_end m) then VInt.vwrite64 (tm_pos_end m) else []) ++
    (if HasOffsetOrPayload fs then VInt.vwrite64 (tm_pay_start m -[64] tm_pay_start last) else [])
  else [].
Definition ext_enc (m : term_meta) : option (list Z) :=
  if tm_docs_count m =? 1 then VInt.vwrite32 <$> single_doc (tm_ext m)
  else if Z.of_nat kBlock <? tm_docs_count m then VInt.vwrite64 <$> skip_start (tm_ext m)
  else Some [].

Lemma ext_enc_some m : good_meta features m -> exists e, ext_enc m = Some e.
Proof.
  intros Hm. unfold ext_enc. destruct (Z.eqb_spec (tm_docs_count m) 1) as [E|E]; [destruct (gm_single _ _ Hm E) as (d & -> & _); by eexists|].
  destruct (Z.ltb_spec (Z.of_nat kBlock) (tm_docs_count m)) as [E'|E']; [destruct (gm_skip _ _ Hm E') as (s & -> & _); by eexists|by eexists].
Qed.

Lemma encode_meta_spec {O} `{DataOutputSpec O} last m e (out : O) : ext_enc m = Some e -> out_ok out -> exists out',
  encode_meta fs last m out = Some out' /\ wrote out out' (counts_enc last m ++ pos_enc last m ++ e).
Proof.
  intros He Ho. unfold encode_meta. cbv zeta. assert (wrote out out []) as Hw by (split; [done|by rewrite app_nil_r]).
  apply (wrote_vint (tm_docs_count m)) in Hw. cbn [app] in Hw. set (o1 := write_vint _ out) in *.
  assert (exists o2, (if negb (tm_freq m =? 0) then write_vint (tm_freq m -[32] tm_docs_count m) o1 else o1) = o2 /\
    wrote out o2 (VInt.vwrite32 (tm_docs_count m) ++ (if negb (tm_freq m =? 0) then VInt.vwrite32 (tm_freq m -[32] tm_docs_count m) else []))) as (o2 & -> & H2).
  { destruct (negb _); eexists; (split; [done|]); [by apply wrote_vint|by rewrite app_nil_r]. }
  apply (wrote_vlong (tm_doc_start m -[64] tm_doc_start last)) in H2. rewrite <-app_assoc in H2. fold (counts_enc last m) in H2.
  set (o3 := write_vlong _ o2) in *.
  assert (exists o4, (if HasPosition fs then
      let out := write_vlong (tm_pos_start m -[64] tm_pos_start last) o3 in
      let out := if address_limits.valid (tm_pos_end m) then write_vlong (tm_pos_end m) out else out in
      if HasOffsetOrPayload fs then write_vlong (tm_pay_start m -[64] tm_pay_start last) out else out else o3) = o4 /\
    wrote out o4 (counts_enc last m ++ pos_enc last m)) as (o4 & E4 & H4).
  { unfold pos_enc. destruct (HasPosition fs); [|eexists; split; [done|by rewrite app_nil_r]]. cbv zeta. eexists. split; [done|].
    apply (wrote_vlong (tm_pos_start m -[64] tm_pos_start last)) in H2. rewrite !app_assoc.
    destruct (address_limits.valid _), (HasOffsetOrPayload _); rewrite ?app_nil_r; repeat (exact H2 || apply wrote_vlong). }
  cbv zeta in E4. rewrite E4. rewrite app_assoc. unfold ext_enc in He. destruct (_ =? 1); [|destruct (_ <? _)].
  - destruct (single_doc _); [|done]. injection He as <-. eexists. split; [done|]. by apply wrote_vint.
  - destruct (skip_start _); [|done]. injection He as <-. eexists. split; [done|]. by apply wrote_vlong.
  - injection He as <-. eexists. split; [done|]. by rewrite app_nil_r.
Qed.

Lemma decode_meta_spec last last' m e r : good_meta features m -> ext_enc m = Some e -> same_starts features last last' -> exists m',
  decode_meta features ((counts_enc last m ++ pos_enc last m ++ e) ++ r) last' = Some (m', r) /\ same_meta features m m'.
Proof using Hfeat.
  intros Hm He (S1 & S2 & S3). pose proof Hm as [M1 M2 M3 M4 M5 M6 M7 M8 M9 M10]. unfold decode_meta, counts_enc. rewrite <-!app_assoc.
  rewrite vread32_app by done. cbn [mbind option_bind].
  assert (forall x, exists fr, (if has features IndexFeatures.FREQ then '(v, p) ← VInt.vread32 ((if negb (tm_freq m =? 0) then
      VInt.vwrite32 (tm_freq m -[32] tm_docs_count m) else []) ++ x); Some (tm_docs_count m +[32] v, p)
    else Some (tm_freq last', (if negb (tm_freq m =? 0) then VInt.vwrite32 (tm_freq m -[32] tm_docs_count m) else []) ++ x)) = Some (fr, x) /\
    (has features IndexFeatures.FREQ = true -> tm_freq m = fr)) as Hfr.
  { intros x. destruct (Z.eqb_spec (tm_freq m) 0) as [E|E], (has features IndexFeatures.FREQ) eqn:Ef.
    - exfalso. by apply (proj2 M7 eq_refl).
    - by eexists.
    - cbn [negb]. rewrite vread32_app by by apply diff_word. cbn [mbind option_bind]. rewrite diff_back by done. by eexists.
    - by pose proof (proj1 M7 E). }
  match goal with |- context [(if negb (tm_freq m =? 0) then _ else []) ++ ?x] => destruct (Hfr x) as (fr & -> & Efr) end.
  cbn [mbind option_bind]. rewrite vread64_app by by apply diff_word. cbn [mbind option_bind]. rewrite <-S1, diff_back by done.
  assert (has features IndexFeatures.FREQ && negb (fr =? 0) && has features IndexFeatures.POS = HasPosition fs) as Epos.
  { cbn [Features_Reset HasPosition]. destruct (has features IndexFeatures.POS) eqn:Ep; [|by rewrite andb_false_r]. rewrite (Hfeat Ep) in *.
    rewrite <-Efr by done. destruct (Z.eqb_spec (tm_freq m) 0) as [E|E]; [|done]. exfalso. by apply (proj2 M7 eq_refl). }
  rewrite Epos. rewrite has_pay_or_offs in *.
  assert (exists ps pe py, forall x, (if HasPosition fs then
       '(v, p) ← VInt.vread64 (pos_enc last m ++ x);
       '(pos_end, p) ← (if Z.of_nat kBlock <? fr then VInt.vread64 p else Some (address_limits.invalid, p));
       if HasOffsetOrPayload fs then '(w, p) ← VInt.vread64 p; Some (tm_pos_start last' +[64] v, pos_end, tm_pay_start last' +[64] w, p)
       else Some (tm_pos_start last' +[64] v, pos_end, tm_pay_start last', p)
     else Some (tm_pos_start last', tm_pos_end last', tm_pay_start last', pos_enc last m ++ x)) = Some (ps, pe, py, x) /\
     (HasPosition fs = true -> tm_pos_start m = ps /\ tm_pos_end m = pe /\ (HasOffsetOrPayload fs = true -> tm_pay_start m = py))) as (ps & pe & py & Hpos).
  { unfold pos_enc. destruct (HasPosition fs) eqn:Ep; [|by do 3 eexists].
    cbn [Features_Reset HasPosition] in Ep. specialize (M8 Ep). specialize (S2 Ep). specialize (S3 Ep). rewrite (Efr (Hfeat Ep)) in M8. rewrite <-S2.
    exists (tm_pos_start m), (tm_pos_end m), (if HasOffsetOrPayload fs then tm_pay_start m else tm_pay_start last').
    intros x. rewrite <-!app_assoc. rewrite vread64_app by by apply diff_word. cbn [mbind option_bind]. cbv zeta. rewrite diff_back, <-M8 by done.
    destruct (address_limits.valid (tm_pos_end m)) eqn:Ev.
    - rewrite vread64_app by done. cbn [mbind option_bind]. destruct (HasOffsetOrPayload fs); [|by split].
      rewrite vread64_app by by apply diff_word. cbn [mbind option_bind]. rewrite <-S3, diff_back by done. by split.
    - assert (tm_pos_end m = address_limits.invalid) as <- by (unfold address_limits.valid in Ev; lia). cbn [app mbind option_bind].
      destruct (HasOffsetOrPayload fs); [|by split].
      rewrite vread64_app by by apply diff_word. cbn [mbind option_bind]. rewrite <-S3, diff_back by done. by split. }
  destruct (Hpos (e ++ r)) as [-> Hp]. cbn [mbind option_bind].
  assert (exists x, (if tm_docs_count m =? 1 then '(v, p) ← VInt.vread32 (e ++ r); Some (e_single_doc v, p)
     else if Z.of_nat kBlock <? tm_docs_count m then '(v, p) ← VInt.vread64 (e ++ r); Some (e_skip_start v, p)
     else Some (tm_ext last', e ++ r)) = Some (x, r) /\ (tm_docs_count m = 1 \/ Z.of_nat kBlock < tm_docs_count m -> tm_ext m = x)) as (x & Ex & Hx).
  { unfold ext_enc in He. destruct (Z.eqb_spec (tm_docs_count m) 1) as [E|E]; [|destruct (Z.ltb_spec (Z.of_nat kBlock) (tm_docs_count m)) as [E'|E']].
    - destruct (M9 E) as (d & Ed & Hd). rewrite Ed in He. injection He as <-. rewrite vread32_app by done. by eexists.
    - destruct (M10 E') as (s & Es & Hs). rewrite Es in He. injection He as <-. rewrite vread64_app by done. by eexists.
    - injection He as <-. eexists. split; [done|]. intros [?|?]; [done|lia]. }
  rewrite Ex. cbn [mbind option_bind]. eexists. split; [done|]. cbn [Features_Reset HasPosition] in Hp.
  split; [|split; [done|split; [done|split; [|done]]]].
  - split; [done|]. rewrite has_pay_or_offs. split; [by intros E; apply Hp|]. intros E1 E2. by apply Hp.
  - intros E. by apply Hp.
Qed.
End parts.

(** ** The terms of a block *)

Section block.
Context {Out Buf : Type} `{DataOutputSpec Buf}.

(** The calls that write and read the terms of a block *)
Fixpoint encode_terms (metas : list term_meta) (out : Buf) (w : postings_writer Out) : option (Buf * postings_writer Out) :=
  match metas with
  | [] => Some (out, w)
  | m :: metas => '(out, w) ← encode m out w; encode_terms metas out w
  end.
Fixpoint decode_terms (features : Z) (n : nat) (p : list Z) (state : term_meta) : option (list term_meta * list Z) :=
  match n with
  | O => Some ([], p)
  | S n => '(m, p) ← decode_meta features p state; '(ms, p) ← decode_terms features n p m; Some (m :: ms, p)
  end.

Lemma terms_spec features metas : good_features features -> Forall (good_meta features) metas -> forall (out : Buf) (w : postings_writer Out),
  pw_features w = Features_Reset features -> out_ok out -> exists out' w' enc,
  encode_terms metas out w = Some (out', w') /\ wrote out out' enc /\
  forall r state, same_starts features (pw_last_state w) state -> exists ms,
    decode_terms features (length metas) (enc ++ r) state = Some (ms, r) /\ Forall2 (same_meta features) metas ms.
Proof.
  intros Hfeat Hm. induction Hm as [|m metas Hm _ IH]; intros out w Hw Ho.
  { exists out, w, []. split; [done|]. split; [split; [done|by rewrite app_nil_r]|]. intros r state _. exists []. by split. }
  destruct (ext_enc_some features m Hm) as (e & He). destruct (encode_meta_spec features (pw_last_state w) m e out He Ho) as (out1 & E1 & Ho1 & Hw1).
  cbn [encode_terms]. unfold encode. rewrite Hw, E1. cbn [mbind option_bind]. set (w1 := mkPostings _ m _ _ _ _ _).
  destruct (IH out1 w1 eq_refl Ho1) as (out2 & w2 & enc & E2 & [Ho2 Hw2] & Hdec). rewrite E2. exists out2, w2, ((counts_enc (pw_last_state w) m ++ pos_enc features (pw_last_state w) m ++ e) ++ enc).
  split; [done|]. split; [split; [done|by rewrite Hw2, Hw1, <-(app_assoc (written out))]|]. intros r state Hs. cbn [length decode_terms].
  destruct (decode_meta_spec features Hfeat (pw_last_state w) state m e (enc ++ r) Hm He Hs) as (m' & Ed & Hm'). rewrite <-app_assoc, Ed. cbn [mbind option_bind].
  destruct (Hdec r m') as (ms & -> & Hms); [apply Hm'|]. cbn [mbind option_bind]. exists (m' :: ms). split; [done|]. by constructor.
Qed.

(** C12: The metadata of the terms of a block, written by [begin_block] and a call of [encode] per term and read by a call of
    [decode] per term, come back: the counts, the frequency when the field has it, the positions of
    the postings, the single document and the position of the skip list, for fields of all features; decoding reads exactly
    the bytes that were written. *)
Theorem term_metas_roundtrip features metas (out : Buf) (w : postings_writer Out) : good_features features -> Forall (good_meta features) metas ->
  pw_features w = Features_Reset features -> out_ok out -> exists out' w' enc,
  encode_terms metas out (begin_block w) = Some (out', w') /\ out_ok out' /\ written out' = written out ++ enc /\
  forall r, exists ms, decode_terms features (length metas) (enc ++ r) term_meta_init = Some (ms, r) /\ Forall2 (same_meta features) metas ms.
Proof.
  intros Hf Hm Hw Ho. destruct (terms_spec features metas Hf Hm out (begin_block w) Hw Ho) as (out' & w' & enc & E & [H1 H2] & Hd).
  exists out', w', enc. split; [done|]. split; [done|]. split; [done|]. intros r. by apply Hd.
Qed.
End block.

(** A term with one document and a term with a skip list *)
Lemma term_metas_roundtrip_witness : exists out' w' enc ms,
  encode_terms [mkMeta 1 3 20 40 address_limits.invalid 0 (e_single_doc 6); mkMeta 200 500 90 41 7 0 (e_skip_start 64)] ([] : list Z)
    (begin_block (begin_field 3 (postings_writer_init ([] : list Z) []))) = Some (out', w') /\
  decode_terms 3 2 enc term_meta_init = Some (ms, []) /\
  tm_ext <$> ms = [e_single_doc 6; e_skip_start 64] /\ tm_doc_start <$> ms = [20; 90] /\ tm_pos_end <$> ms = [address_limits.invalid; 7].
Proof.
  destruct (term_metas_roundtrip 3 [mkMeta 1 3 20 40 address_limits.invalid 0 (e_single_doc 6); mkMeta 200 500 90 41 7 0 (e_skip_start 64)] ([] : list Z)
    (begin_field 3 (postings_writer_init ([] : list Z) []))) as (out' & w' & enc & E & _ & _ & Hd).
  - done.
  - repeat constructor; cbn; try done; try (by eexists); rewrite ?kBlock_eq; try lia; intros; by eexists.
  - done.
  - done.
  - destruct (Hd []) as (ms & E2 & Hms). rewrite app_nil_r in E2. exists out', w', enc, ms. split; [done|]. split; [done|].
    apply Forall2_cons_inv_l in Hms as (m1 & ms1 & (H1 & H2 & H3 & H4 & H5) & Hms & ->). apply Forall2_cons_inv_l in Hms as (m2 & ms2 & (G1 & G2 & G3 & G4 & G5) & Hms & ->).
    apply Forall2_nil_inv_l in Hms as ->. cbn in *. rewrite <-H5, <-G5, <-H4, <-G4, <-(proj1 H1), <-(proj1 G1) by (rewrite ?kBlock_eq; first [done|lia]). done.
Defined.
