(* ===== verification/PostingsRoundtrip.v ===== *)
(** * Postings, written and read

    The terms of a field, their documents with frequencies given by any lawful iterators: [postings_writer] writes
    them and encodes their metadata, [postings_reader] decodes the metadata and iterates over the terms. *)
From Stdlib Require Import ZifyNat Sorted.
From S2P Require Import Prelude BitUtils BytesIO Streams FileStreams MemoryFile StoreUtils BitPacking Simd BlockCodec Outcome Coding DocIterators Bitset SkipList SkipListSeek Postings PostingsWriter PostingsReader PostingsBlocks PostingsIterator PostingsCursor TermMeta.

(** ** An iterator over a list of postings *)

Definition in_order (ds : list Z) : Prop := forall i j x y, (i < j)%nat -> ds !! i = Some x -> ds !! j = Some y -> x < y.

Lemma in_order_sorted ds : in_order ds -> StronglySorted Z.lt ds.
Proof.
  induction ds as [|d ds IH]; intros Ho; constructor.
  - apply IH. intros i j x y Hij Hx Hy. apply (Ho (S i) (S j) x y); [lia|done|done].
  - apply Forall_lookup. intros j y Hy. apply (Ho 0%nat (S j) d y); [lia|done|done].
Qed.

Lemma in_order_eq ds ds' : in_order ds -> in_order ds' -> (forall d, d ∈ ds <-> d ∈ ds') -> ds = ds'.
Proof.
  intros H1 H2 He. assert (forall ds, in_order ds -> NoDup ds) as Hnd.
  { intros l Ho. apply NoDup_alt. intros i j x Hi Hj. destruct (Nat.lt_trichotomy i j) as [H|[H|H]]; [|done|].
    - pose proof (Ho i j x x H Hi Hj). lia.
    - pose proof (Ho j i x x H Hj Hi). lia. }
  assert (AntiSymm (=) Z.lt) as Has by (intros x y ? ?; lia).
  apply (StronglySorted_unique Z.lt); [by apply in_order_sorted|by apply in_order_sorted|].
  apply NoDup_Permutation; [by apply Hnd|by apply Hnd|done].
Qed.

(** The frequencies of the list *)
Definition frequencies_of {D} `{DocIteratorSpec D} (frequency : D -> Z) (l : list (Z * Z)) : Prop :=
  forall s fr, matches s (is_posting l) -> (value s, fr) ∈ l -> frequency s = fr.

Lemma lawful_list {D} `{DocIteratorSpec D} (frequency : D -> Z) hf l docs : good_postings hf l -> matches docs (is_posting l) ->
  value docs = doc_limits.invalid -> frequencies_of frequency l -> yields frequency docs l.
Proof.
  intros Hl Hm Hv HF. destruct (lawful_yields frequency (freq_of l) docs (is_posting l) Hm) as (r & Hy & Hfr & Hd & Ho).
  { intros s Hs Hp. apply is_posting_nth in Hp as (i & Hi & E). rewrite <-E, (freq_of_nth hf l Hl i Hi). apply HF; [done|]. rewrite <-E.
    apply list_elem_of_lookup. exists i. destruct (lookup_lt_is_Some_2 l i Hi) as [[d fr] El]. rewrite El.
    by rewrite (nth_lookup_Some (l.*1) i 0 d), (nth_lookup_Some (l.*2) i 0 fr) by (by rewrite list_lookup_fmap, El). }
  assert (r = l) as ->; [|done]. assert (r.*1 = l.*1) as E1.
  { apply in_order_eq; [exact Ho|exact (gp_sorted hf l Hl)|]. intros d. rewrite Hd, Hv. unfold is_posting. rewrite bool_decide_eq_true.
    split; [by intros [_ ?]|]. intros Hin. split; [|done]. pose proof (gp_docs hf l Hl) as Hg. rewrite Forall_forall in Hg. specialize (Hg d Hin). doc_lia. }
  apply list_eq. intros i. destruct (l !! i) as [[d fr]|] eqn:El.
  - assert (r.*1 !! i = Some d) as Er by (by rewrite E1, list_lookup_fmap, El). rewrite list_lookup_fmap in Er.
    destruct (r !! i) as [[d' fr']|] eqn:Er'; [|done]. injection Er as ->. rewrite Forall_lookup in Hfr. specialize (Hfr i _ Er'). cbn in Hfr.
    rewrite (freq_of_in hf l Hl d fr) in Hfr by (apply list_elem_of_lookup; by exists i). congruence.
  - apply lookup_ge_None in El. apply lookup_ge_None. rewrite <-(length_fmap fst r), E1, length_fmap. done.
Qed.

(** ** The size of a term *)

Section size.
Context (big hf : bool) (l : list (Z * Z)) (Hl : good_postings hf l).

Lemma block_bytes_length vals : good_block W32 4 vals -> (length (block_bytes big W32 vals) <= 513)%nat.
Proof using All.
  intros Hg. pose proof Hg as (Hlen & Hk & Hsize & Hd). unfold block_bytes. cbv zeta. destruct (forallb _ vals) eqn:E.
  - cbn [length var_bytes]. pose proof (proj1 (BufferedOutput.vwrite_max_length (hd 0 vals))) as Hv. destruct vals; [done|]. cbn [hd] in *.
    assert (is_word 32 z) as Hz by by inversion Hd. specialize (Hv Hz). lia.
  - destruct (maxbits_bounds W32 4 vals Hg E) as [Hb _]. rewrite (block_words W32 4) by done. cbn [length bits_of] in *.
    rewrite bytes_of_words_length, packed.length_digits. cbn [bytes_of]. lia.
Qed.

Lemma tail_enc_length ds fs pv : Forall (is_word 32) fs -> (length (tail_enc hf ds fs pv) <= 10 * length ds)%nat.
Proof using All.
  assert (forall x, is_word 32 x -> length (VInt.vwrite32 x) <= 5)%nat as Hv by (intros x; apply BufferedOutput.vwrite_max_length).
  assert (forall x b, is_word 32 (shift_pack_32 x b)) as Hs.
  { intros x b. unfold shift_pack_32, shift_pack. apply packed.is_word_lor; [lia|by apply wrap_range|destruct b; done]. }
  revert fs pv. induction ds as [|d ds IH]; intros [|fr fs] pv Hf; cbn [tail_enc length]; try lia. apply Forall_cons in Hf as [Hf1 Hf2].
  rewrite length_app. specialize (IH fs d Hf2). assert (is_word 32 (d -[32] pv)) as Hw by by apply wrap_range. pose proof (Hv _ Hw). pose proof (Hv fr Hf1).
  pose proof (Hv _ (Hs (d -[32] pv) true)). pose proof (Hv _ (Hs (d -[32] pv) false)). destruct hf; [destruct (1 =? fr)|]; rewrite ?length_app; lia.
Qed.

Lemma postings_bytes_length : Z.of_nat (length (postings_bytes big hf l)) < 2 ^ 38.
Proof using All.
  unfold postings_bytes. rewrite length_app. assert (forall m, (m <= full_blocks l)%nat -> (length (blocks_enc big hf l m) <= 1026 * m)%nat) as Hb.
  { induction m as [|m IH]; intros Hm; [done|]. cbn [blocks_enc]. rewrite length_app. specialize (IH ltac:(lia)).
    destruct (block_good hf l Hl m) as (H1 & H2 & _); [unfold full_blocks in Hm; kb|]. pose proof (block_bytes_length _ H1). pose proof (block_bytes_length _ H2).
    unfold block_enc. rewrite length_app. destruct hf; cbn [length]; lia. }
  specialize (Hb _ ltac:(done)). pose proof (full_blocks_bound hf l Hl). unfold tail_bytes.
  pose proof (tail_enc_length (tail_of l l.*1) (tail_of l l.*2) (base l (full_blocks l)) ltac:(apply Forall_drop, Hl)) as Htl.
  assert (length (tail_of l l.*1) <= 128)%nat as Ht by (unfold tail_of, full_blocks; rewrite length_drop, length_docs; kb).
  unfold tail_of in *. lia.
Qed.
End size.

Section term_size.
Context (p : platform) (hf : bool) (l : list (Z * Z)) (Hl : good_postings hf l).

Lemma level_bytes_bound h : (length (level_bytes 8 (skip_entry (big_endian p) hf l) h (entries 8 (skip_blocks l) h)) <= 25 * full_blocks l)%nat.
Proof using Hl.
  pose proof (postings_bytes_length (big_endian p) hf l Hl) as Hp. assert (skip_blocks l <= full_blocks l)%nat as Hm by (unfold skip_blocks, blocks, full_blocks; kb).
  unfold entries. pose proof (Nat.Div0.mul_div_le (skip_blocks l) (8 ^ h)). pose proof (pow_pos 8 h ltac:(lia)).
  pose proof (level_length p hf l Hl 0 ltac:(lia) h (skip_blocks l / 8 ^ h) ltac:(lia)). assert (skip_blocks l / 8 ^ h <= skip_blocks l)%nat by nia. lia.
Qed.

Lemma term_bytes_length L : (L <= kMaxSkipLevels)%nat -> Z.of_nat (length (term_bytes (big_endian p) hf l L)) < 2 ^ 39.
Proof using Hl.
  intros HL. pose proof (postings_bytes_length (big_endian p) hf l Hl) as Hp. pose proof (full_blocks_bound hf l Hl) as Hb. unfold term_bytes.
  assert (Z.of_nat (length (skip_list_bytes 8 (skip_entry (big_endian p) hf l) (skip_blocks l) L)) < 2 ^ 38) as Hs; [|repeat case_decide; rewrite ?length_app; cbn [length]; lia].
  unfold skip_list_bytes. rewrite length_app. assert (is_word 32 (Z.of_nat L)) as Hw by (unfold kMaxSkipLevels, is_word in *; lia).
  pose proof (proj1 (BufferedOutput.vwrite_max_length _) Hw).
  assert (length (levels_bytes 8 (skip_entry (big_endian p) hf l) (skip_blocks l) L) <= L * (10 + 25 * full_blocks l))%nat as Hlv; [|unfold kMaxSkipLevels in *; nia].
  clear H Hw HL. induction L as [|L IH]; [done|]. cbn [levels_bytes]. rewrite !length_app. pose proof (level_bytes_bound L) as Hlb.
  pose proof (proj2 (BufferedOutput.vwrite_max_length (Z.of_nat (length (level_bytes 8 (skip_entry (big_endian p) hf l) L (entries 8 (skip_blocks l) L)))))
    ltac:(unfold is_word; lia)). lia.
Qed.
End term_size.

(** ** A number of terms *)

(** The loop over the terms of a field, as the writer of a field makes it *)
Fixpoint write_terms {Out D} `{IndexOutput Out, DocIterator D} (p : platform) (frequency : D -> Z) (its : list D) (w : postings_writer Out)
    : option (outcome (list term_meta * postings_writer Out)) :=
  match its with
  | [] => done_ ([], w)
  | it :: its =>
      '(m, w) ⇐ write p frequency it term_meta_init w;
      '(ms, w) ⇐ write_terms p frequency its w;
      done_ (m :: ms, w)
  end.

(** An iterator over the postings [l], for a segment of [doc_count] documents and a field with or without frequencies *)
Record term_ok {D} `{DocIteratorSpec D} (doc_count : Z) (hf : bool) (frequency : D -> Z) (it : D) (l : list (Z * Z)) : Prop := {
  to_postings : good_postings hf l;
  to_some : l <> [];
  to_count : Forall (fun d => d <= doc_count) (l.*1);
  to_matches : matches it (is_posting l);
  to_start : value it = doc_limits.invalid;
  to_frequency : frequencies_of frequency l;
  to_total : if hf then total l <> 0 else Forall (fun fr => fr = 0) (l.*2);
}.

(** Where a term is in the file, and what its metadata say *)
Definition term_in (p : platform) (hf : bool) (file : list Z) (l : list (Z * Z)) (m : term_meta) : Prop :=
  exists start L x, (start <= length file)%nat /\ drop start file = term_bytes (big_endian p) hf l L ++ x /\
    meta_of p hf l (Z.of_nat start) term_meta_init m /\
    ((kBlock < length l)%nat -> (0 < L <= kMaxSkipLevels)%nat /\ forall h, (h < L)%nat -> (0 < entries 8 (skip_blocks l) h)%nat).

Lemma term_in_app p hf file y l m : term_in p hf file l m -> term_in p hf (file ++ y) l m.
Proof.
  intros (start & L & x & Hs & E & Hm & HL). exists start, L, (x ++ y). rewrite length_app. split; [lia|]. split; [|done].
  rewrite drop_app_le, E by done. by rewrite app_assoc.
Qed.

Lemma docs_count_bound {D} `{DocIteratorSpec D} doc_count hf frequency (it : D) l : term_ok doc_count hf frequency it l -> Z.of_nat (length l) <= doc_count.
Proof.
  intros [Hl Hne Hc _ _ _ _]. destruct (length l) as [|k] eqn:E; [by destruct l|]. pose proof (docs_index hf l Hl k ltac:(lia)) as Hi.
  rewrite Forall_lookup in Hc. specialize (Hc k _ (docs_at l k ltac:(lia))). cbn in Hc. lia.
Qed.

Section terms.
Context {Out : Type} `{IndexOutputSpec Out} {D : Type} `{DocIteratorSpec D} (p : platform) (Hp : platform_ok p) (doc_count : Z) (hf : bool)
  (frequency : D -> Z) (max : nat) (Hmax : (max <= kMaxSkipLevels)%nat) (Hpos : Z.of_nat kBlock < doc_count -> (0 < max)%nat).

Lemma write_terms_spec terms : Forall (fun t => term_ok doc_count hf frequency t.1 t.2) terms -> forall w : postings_writer Out,
  ready max w -> HasFrequency (pw_features w) = hf -> Z.of_nat (length (written (pw_doc_out w))) + 2 ^ 39 * Z.of_nat (length terms) < 2 ^ 64 ->
  exists metas w', write_terms p frequency (terms.*1) w = Some (Done (metas, w')) /\ ready max w' /\ pw_features w' = pw_features w /\
    (exists x, written (pw_doc_out w') = written (pw_doc_out w) ++ x /\ Z.of_nat (length x) <= 2 ^ 39 * Z.of_nat (length terms)) /\
    Forall2 (fun t m => term_in p hf (written (pw_doc_out w')) t.2 m) terms metas.
Proof using All.
  induction 1 as [|[it l] terms Hterm _ IH]; intros w Hr Hf Hsize; cbn [fmap list_fmap fst write_terms].
  { exists [], w. split; [done|]. split; [done|]. split; [done|]. split; [exists []; by rewrite app_nil_r|constructor]. }
  cbn [fst snd] in Hterm. pose proof (docs_count_bound _ _ _ _ _ Hterm) as Hc. destruct Hterm as [Hl Hne _ Hm Hv HF _].
  pose proof (lawful_list frequency hf l it Hl Hm Hv HF) as Hy. cbn [length] in Hsize. set (w0 := written (pw_doc_out w)) in *.
  pose proof (postings_bytes_length (big_endian p) hf l Hl) as Hpb.
  destruct (write_spec p Hp hf l Hl (Z.of_nat (length w0)) ltac:(lia) max Hmax w0 eq_refl ltac:(intros; apply Hpos; lia) frequency it term_meta_init w Hr eq_refl Hf Hy)
    as (L & m & w1 & E & Hr1 & Hw1 & Hmeta & Hf1 & HL). rewrite E, bind_done.
  assert (L <= kMaxSkipLevels \/ length l <= kBlock)%nat as HLb.
  { destruct (decide (kBlock < length l)%nat) as [Hlong|]; [|lia]. destruct (HL Hlong). lia. }
  assert (Z.of_nat (length (term_bytes (big_endian p) hf l L)) < 2 ^ 39) as Htb.
  { destruct HLb as [HLb|Hshort]; [by apply term_bytes_length|]. unfold term_bytes. rewrite (decide_False (P := (kBlock < length l)%nat)) by lia.
    case_decide; [done|]. rewrite app_nil_r. lia. }
  destruct (IH w1 Hr1 ltac:(by rewrite Hf1)) as (metas & w2 & E2 & Hr2 & Hf2 & (x & Hw2 & Hx) & Hall).
  { rewrite Hw1, length_app. lia. }
  rewrite E2, bind_done. exists (m :: metas), w2. split; [done|]. split; [done|]. split; [congruence|]. split.
  { exists (term_bytes (big_endian p) hf l L ++ x). rewrite Hw2, Hw1, app_assoc. split; [done|]. rewrite length_app. cbn [length]. lia. }
  constructor; [|done]. cbn [snd]. rewrite Hw2. apply term_in_app. exists (length w0), L, []. rewrite Hw1, length_app, drop_app_length, app_nil_r.
  split; [lia|]. split; [done|]. split; [done|]. intros Hlong. destruct (HL Hlong). split; [lia|done].
Qed.
End terms.

(** The metadata of a term can be stored. *)
Definition field_ok (features : Z) : Prop := features = IndexFeatures.NONE \/ features = IndexFeatures.FREQ.

Lemma field_features features : field_ok features -> IndexFeatures.has features IndexFeatures.FREQ = field_frequency features /\
  IndexFeatures.has features IndexFeatures.POS = false /\ HasFrequency (Features_Reset features) = field_frequency features /\ with_positions features = false.
Proof. by intros [-> | ->]. Qed.

Lemma total_zero l : Forall (fun fr => fr = 0) (l.*2) -> total l = 0.
Proof.
  intros H. unfold total. assert (foldr Z.add 0 l.*2 = 0) as ->; [|done]. induction H as [|x r -> _ IH]; [done|]. cbn. by rewrite IH.
Qed.

Lemma term_in_good {D} `{DocIteratorSpec D} p features file doc_count frequency (it : D) l m : field_ok features ->
  term_ok doc_count (field_frequency features) frequency it l -> term_in p (field_frequency features) file l m -> Z.of_nat (length file) < 2 ^ 64 ->
  good_meta features m.
Proof.
  intros Hfeat [Hl Hne _ _ _ _ Htot] (start & L & x & Hs & E & (M1 & M2 & M3 & M4 & M5 & M6 & M7) & _) Hfile.
  destruct (field_features features Hfeat) as (F1 & F2 & _). assert (length l <> 0%nat) as Hn by (by destruct l). destruct (M5 Hn) as [M5a M5b].
  cbn in M3, M4. split; rewrite ?M1, ?M2, ?M3, ?M4, ?M5a, ?M5b; try (unfold is_word, address_limits.invalid; lia).
  - pose proof (postings_count _ l Hl). unfold is_word. lia.
  - by apply wrap_range.
  - rewrite F1. destruct (field_frequency features); [split; [done|by intros _]|]. rewrite (total_zero l Htot). by split.
  - by rewrite F2.
  - intros En. rewrite M6 by lia. eexists. split; [done|]. pose proof (docs_range _ l Hl 0 ltac:(lia)). unfold is_word. doc_lia.
  - intros Hlong. rewrite M7 by lia. eexists. split; [done|]. pose proof (postings_bytes_length (big_endian p) _ l Hl). unfold is_word. lia.
Qed.

(** Decoded, they say where the term is. *)
Lemma term_in_reads p features itf file l m m' : field_ok features -> good_postings (field_frequency features) l -> l <> [] ->
  (itf = true -> field_frequency features = true) -> term_in p (field_frequency features) file l m -> same_meta features m m' -> exists start L,
  reads_meta p itf (field_frequency features) l start m' /\ forall rest, rest <> [] -> Z.of_nat (length (file ++ rest)) < 2 ^ 64 ->
    term_at (file ++ rest) p (field_frequency features) l start L.
Proof.
  intros Hfeat Hl Hne Hitf (start & L & x & Hs & E & (M1 & M2 & _ & _ & M5 & M6 & M7) & HL) ((S1 & _) & S2 & S3 & _ & S5).
  destruct (field_features features Hfeat) as (F1 & _). assert (length l <> 0%nat) as Hn by (by destruct l). destruct (M5 Hn) as [M5a _].
  exists start, L. split.
  - split; [congruence|]. split; [congruence|]. split.
    + intros En. split; [rewrite <-S5 by lia; by apply M6|]. intros Hi. rewrite <-S3, M2 by (rewrite F1; by apply Hitf). unfold total.
      destruct l as [|[d fr] [|? ?]]; try done. cbn. rewrite Z.add_0_r. apply wrap_small. pose proof (gp_freqs _ _ Hl) as Hf. by inversion Hf.
    + intros Hlong. rewrite <-S5 by lia. by apply M7.
  - intros rest Hrest Hfile. split; [|done|done]. exists (x ++ rest). rewrite drop_app_le, E by done. rewrite app_assoc. split; [done|]. by destruct x, rest.
Qed.

(** C1: The postings of a field, written and read. A writer that [prepare] set up for a segment and [begin_field] for a field without positions
    writes any number of terms, each from any lawful iterator over its documents and frequencies, and encodes their metadata;
    the reader decodes the metadata and makes of each of them, over the finished file, whose storage may give access to its memory or not, an
    iterator that visits exactly the documents of the term for every sequence of calls of [next] and [seek], searching
    the skip list, and gives their frequencies when both the field and the request have them. *)
Theorem postings_roundtrip {Out I D : Type} `{IndexOutputSpec Out, DocIteratorSpec D}
    {DI : DataInput I} {DS : DataInputSpec I} {II : IndexInput I} {IS : IndexInputSpec I} {FI : FileInput I} {FS : FileInputSpec I}
    (p : platform) alloc allocate doc_count features (frequency : D -> Z) (out : Out) buf (terms : list (D * list (Z * Z))) :
  platform_ok p -> 0 <= doc_count < 2 ^ 32 -> field_ok features -> out_ok out -> buffer_ok buf ->
  Forall (fun t => term_ok doc_count (field_frequency features) frequency t.1 t.2) terms ->
  Z.of_nat (length (written out)) + 2 ^ 39 * Z.of_nat (length terms) < 2 ^ 64 -> exists w0 metas w1 enc w2,
  prepare alloc allocate doc_count (postings_writer_init out buf) = Some w0 /\
  write_terms p frequency (terms.*1) (begin_field features w0) = Some (Done (metas, w1)) /\
  encode_terms metas ([] : list Z) (begin_block w1) = Some (enc, w2) /\
  out_ok (pw_doc_out w1) /\ Z.of_nat (length (written (pw_doc_out w1))) <= Z.of_nat (length (written out)) + 2 ^ 39 * Z.of_nat (length terms) /\
  forall r, exists metas', decode_terms features (length terms) (enc ++ r) term_meta_init = Some (metas', r) /\ length metas' = length terms /\
  forall rest (ops : input_operations I) required freqs0 enc_buf doc_in q k it l m,
    rest <> [] -> Z.of_nat (length (written (pw_doc_out w1) ++ rest)) < 2 ^ 64 -> input_laws (written (pw_doc_out w1) ++ rest) ops ->
    at_ (written (pw_doc_out w1) ++ rest) q doc_in -> length freqs0 = kBlock -> scratch kBlock enc_buf ->
    terms !! k = Some (it, l) -> metas' !! k = Some m -> exists s,
    postings_iterator ops features required freqs0 enc_buf m doc_in = Some (Done s) /\
    forall cs vs, cursor_trace (is_posting l) doc_limits.invalid cs vs -> exists s',
      run (D := posting_doc_iterator ops p (frequency_enabled features required) (field_frequency features)) cs s = Some (vs, s') /\
      (frequency_enabled features required = true -> forall fr, (posting_value s', fr) ∈ l -> posting_frequency s' = fr).
Proof.
  intros Hp Hc Hfeat Ho Hb Hterms Hsize. destruct (field_features features Hfeat) as (F1 & F2 & F3 & F4).
  destruct (prepare_ready alloc allocate doc_count out buf Ho Hb Hc) as (max & w0 & E0 & Hr0 & Eo & Hmax & Hpos).
  assert (ready max (begin_field features w0)) as Hr by (destruct Hr0; by split).
  destruct (write_terms_spec p Hp doc_count (field_frequency features) frequency max Hmax Hpos terms Hterms (begin_field features w0) Hr)
    as (metas & w1 & E1 & Hr1 & Hf1 & (x & Hx & Hlx) & Hall); [done|by cbn [begin_field pw_doc_out]; rewrite Eo|]. cbn [begin_field pw_doc_out] in Hx.
  assert (Z.of_nat (length (written (pw_doc_out w1))) <= Z.of_nat (length (written out)) + 2 ^ 39 * Z.of_nat (length terms)) as Hlen
    by (rewrite Hx, length_app, Eo; lia).
  assert (Forall (good_meta features) metas) as Hgood.
  { assert (Z.of_nat (length (written (pw_doc_out w1))) < 2 ^ 64) as Hfile by lia. apply Forall_lookup. intros k m Em. destruct (Forall2_lookup_r _ _ _ _ _ Hall Em) as ([it l] & Et & Hin).
    rewrite Forall_lookup in Hterms. specialize (Hterms k _ Et). by eapply term_in_good. }
  destruct (term_metas_roundtrip features metas ([] : list Z) w1) as (enc & w2 & enc' & E2 & _ & Henc & Hdec); [by intros E; rewrite F2 in E|done|by rewrite Hf1|done|].
  exists w0, metas, w1, enc, w2. split; [done|]. split; [done|]. split; [done|]. split; [apply Hr1|]. split; [done|]. intros r. cbn in Henc. subst enc'.
  destruct (Hdec r) as (metas' & Ed & Hsame). rewrite (Forall2_length _ _ _ Hall). exists metas'. split; [done|].
  split; [symmetry; by eapply Forall2_length|].
  intros rest ops required freqs0 enc_buf doc_in q k it l m' Hrest Hfile Hops Hat Hl0 He Et Em'.
  destruct (Forall2_lookup_r _ _ _ _ _ Hsame Em') as (m & Em & Hmm). destruct (Forall2_lookup_r _ _ _ _ _ Hall Em) as ([it' l'] & Et' & Hin).
  rewrite Et in Et'. injection Et' as <- <-. rewrite Forall_lookup in Hterms. specialize (Hterms k _ Et). cbn [fst snd] in *. pose proof Hterms as [Hl Hne _ _ _ _ _].
  assert (frequency_enabled features required = true -> field_frequency features = true) as Hitf by (unfold frequency_enabled; by intros [? _]%andb_true_iff).
  destruct (term_in_reads p features (frequency_enabled features required) _ l m m' Hfeat Hl Hne Hitf Hin Hmm) as (start & L & Hreads & Hterm).
  unfold postings_iterator. rewrite F4.
  destruct (postings_iterator_made ops p (frequency_enabled features required) (field_frequency features) _ l start L freqs0 enc_buf m' doc_in q Hops Hitf Hl
    (fun _ => Hterm rest Hrest Hfile) Hl0 He Hreads Hat) as (s & Es & Hs & Ev). rewrite decide_False in Ev by done.
  exists s. split; [done|]. intros cs vs Htr.
  assert (matches (DocIteratorSpec := posting_spec ops p (frequency_enabled features required) (field_frequency features) (freq_of l)) s (is_posting l)) as Hm.
  { exists l. split; [done|]. split; [done|]. intros _ d fr Hin'. symmetry. by apply (freq_of_in _ l Hl). }
  rewrite <-Ev in Htr. destruct (run_refines (L := posting_spec ops p _ _ (freq_of l)) (is_posting l) cs s vs Hm Htr) as (s' & Erun & Hm').
  exists s'. split; [done|]. intros Hi fr Hfr. pose proof (posting_frequency_spec ops p _ _ (freq_of l) s' (is_posting l) Hm' Hi) as Ef.
  cbn [value posting_doc_iterator] in Ef. rewrite Ef.
  - by apply (freq_of_in _ l Hl).
  - unfold is_posting. apply bool_decide_eq_true. apply list_elem_of_fmap. by exists (posting_value s', fr).
Qed.

(** The documents from 1 to [k], with frequencies 2, 3 and 1 in turn *)
Definition example_postings (k : nat) : list (Z * Z) := (fun i => (Z.of_nat i, Z.of_nat i mod 3 + 1)) <$> seq 1 k.
Definition example_frequency (s : AllIterator) : Z := all_doc s mod 3 + 1.

Lemma example_lookup k i x : (example_postings k).*1 !! i = Some x -> x = Z.of_nat (S i) /\ (i < k)%nat.
Proof.
  unfold example_postings. rewrite <-list_fmap_compose, list_lookup_fmap. intros E. destruct (seq 1 k !! i) as [j|] eqn:Ej; [|done].
  apply lookup_seq in Ej as [-> Hi]. cbn in E. injection E as <-. split; [lia|done].
Qed.

Lemma example_is_posting k d : is_posting (example_postings k) d = (doc_limits.min <=? d) && (d <=? Z.of_nat k).
Proof.
  apply Bool.eq_iff_eq_true. unfold is_posting. rewrite bool_decide_eq_true, andb_true_iff, !Z.leb_le, list_elem_of_lookup. split.
  - intros (i & [-> Hi]%example_lookup). doc_lia.
  - intros Hd. exists (Z.to_nat d - 1)%nat. unfold example_postings. rewrite <-list_fmap_compose, list_lookup_fmap.
    rewrite lookup_seq_lt by doc_lia. cbn. f_equal. doc_lia.
Qed.

Lemma example_good k : Z.of_nat k <= 2 ^ 31 -> good_postings true (example_postings k).
Proof.
  intros Hk. split.
  - intros i j x y Hij [-> Hi]%example_lookup [-> Hj]%example_lookup. lia.
  - apply Forall_lookup. intros i x [-> Hi]%example_lookup. doc_lia.
  - intros _. apply Forall_lookup. intros i x [-> Hi]%example_lookup. lia.
  - apply Forall_forall. intros fr (x & -> & (i & -> & _)%list_elem_of_fmap)%list_elem_of_fmap. cbn.
    pose proof (Z.mod_pos_bound (Z.of_nat i) 3 ltac:(lia)). unfold is_word. lia.
Qed.

Lemma example_term k : (0 < k)%nat -> Z.of_nat k <= 200 -> total (example_postings k) <> 0 ->
  term_ok 200 true example_frequency (AllIterator_init (Z.of_nat k)) (example_postings k).
Proof.
  intros H0 Hk Ht. split; [apply example_good; lia|by destruct k| | | | |done].
  - apply Forall_lookup. intros i x [-> Hi]%example_lookup. lia.
  - eapply matches_ext; [apply AllIterator_init_matches; doc_lia|]. intros d. by rewrite example_is_posting.
  - done.
  - intros s fr _ (x & [= Ev ->] & _)%list_elem_of_fmap. unfold example_frequency. by rewrite Ev.
Qed.

Lemma example_moves : cursor_trace (is_posting (example_postings 200)) doc_limits.invalid [Next; Seek 150; Next] [1; 150; 151].
Proof.
  apply (check_trace_sound 201); [|vm_compute; reflexivity]. intros d Hd. rewrite example_is_posting. apply andb_false_iff. right. apply Z.leb_gt. lia.
Qed.

(** Two terms, the first one long enough for a skip list *)
Lemma postings_roundtrip_witness : exists w0 metas w1 enc w2 metas' m s s',
  prepare (fun _ _ => 7) (fun n => replicate (Z.to_nat n) 9) 200 (postings_writer_init (BufferedOutput.Make [] 0 [8; 8] 16) (replicate 128 5)) = Some w0 /\
  write_terms example_platform example_frequency [AllIterator_init 200; AllIterator_init 1] (begin_field IndexFeatures.FREQ w0) = Some (Done (metas, w1)) /\
  encode_terms metas ([] : list Z) (begin_block w1) = Some (enc, w2) /\ decode_terms IndexFeatures.FREQ 2 (enc ++ []) term_meta_init = Some (metas', []) /\
  metas' !! 0%nat = Some m /\
  postings_iterator view_inputs IndexFeatures.FREQ IndexFeatures.FREQ (replicate 128 3) (replicate 128 4) m
    (BytesView.Make (written (pw_doc_out w1) ++ [0]) 0) = Some (Done s) /\
  run (D := posting_doc_iterator view_inputs example_platform true true) [Next; Seek 150; Next] s = Some ([1; 150; 151], s') /\
  posting_frequency s' = 2.
Proof.
  destruct (postings_roundtrip (I := BytesView.t) example_platform (fun _ _ => 7) (fun n => replicate (Z.to_nat n) 9) 200 IndexFeatures.FREQ example_frequency
    (BufferedOutput.Make [] 0 [8; 8] 16) (replicate 128 5) [(AllIterator_init 200, example_postings 200); (AllIterator_init 1, example_postings 1)])
    as (w0 & metas & w1 & enc & w2 & E0 & E1 & E2 & _ & Hlen & Hdec).
  - split; [cbn; lia|done].
  - lia.
  - by right.
  - split; cbn; lia.
  - split; [apply Forall_replicate; done|by rewrite kBlock_eq].
  - apply Forall_cons_2; [exact (example_term 200 ltac:(lia) ltac:(lia) ltac:(vm_compute; done))|].
    apply Forall_cons_2; [exact (example_term 1 ltac:(lia) ltac:(lia) ltac:(vm_compute; done))|constructor].
  - cbn. lia.
  - destruct (Hdec []) as (metas' & Ed & Hl & Hit). destruct metas' as [|m metas']; [done|].
    change (length (written (BufferedOutput.Make [] 0 [8; 8] 16))) with 2%nat in Hlen. cbn [length] in Hlen.
    destruct (Hit [0] view_inputs IndexFeatures.FREQ (replicate 128 3) (replicate 128 4) (BytesView.Make (written (pw_doc_out w1) ++ [0]) 0) 0%nat
      0%nat (AllIterator_init 200) (example_postings 200) m) as (s & Es & Hrun); try done.
    + rewrite length_app. cbn [length]. lia.
    + apply view_laws.
    + apply view_at. lia.
    + split; [apply Forall_replicate; done|by rewrite kBlock_eq].
    + destruct (Hrun _ _ example_moves) as (s' & Er & Hf). exists w0, metas, w1, enc, w2, (m :: metas'), m, s, s'.
      do 7 (split; [done|]). apply (Hf eq_refl). pose proof (run_last _ _ _ _ Er) as Ev. cbn in Ev. rewrite Ev.
      apply list_elem_of_fmap. exists 151%nat. split; [done|]. apply elem_of_seq. lia.
Defined.
