(* ===== verification/Utf8.v ===== *)
(** * UTF-8

    utils/utf8_utils.hpp: code points of strings of bytes. A pointer into a string is the list of the bytes behind it,
    up to the end of the string. *)
From S2P Require Import Prelude BitUtils.

Definition kMaxCharSize : nat := 4.

(** The bytes that follow a first byte from [kNextTableBegin] on *)
Definition kNextTableBegin : Z := 0xC0.
Definition kNextTable : list nat :=
  [0; 0; 1; 1; 1; 1; 1; 1; 1; 1; 1; 1; 1; 1; 1; 1;
   1; 1; 1; 1; 1; 1; 1; 1; 1; 1; 1; 1; 1; 1; 1; 1;
   2; 2; 2; 2; 2; 2; 2; 2; 2; 2; 2; 2; 2; 2; 2; 2;
   3; 3; 3; 3; 3; 0; 0; 0; 0; 0; 0; 0; 0; 0; 0; 0]%nat.
Definition next_length (cp : Z) : nat := nth (Z.to_nat (cp - kNextTableBegin)) kNextTable 0%nat.

Definition kInvalidChar32 : Z := 0xFFFF.

(** [Next]; the code asserts that the string is not at its end. *)
Definition Next (it : list Z) : list Z :=
  match it with
  | [] => []
  | cp_first :: it => if cp_first <? kNextTableBegin then it else drop (next_length cp_first) it
  end.

Lemma Next_length it : it <> [] -> (length (Next it) < length it)%nat.
Proof. destruct it as [|b it]; [done|]. intros _. cbn [Next]. case_match; rewrite ?length_drop; cbn; lia. Qed.

(** The loop of [Length]: every round goes to the next character. *)
Fixpoint length_from (n : nat) (it : list Z) (length : Z) : option Z :=
  match it, n with
  | [], _ => Some length
  | _, O => None
  | _, S n => length_from n (Next it) (length + 1)
  end.
Definition Length (str : list Z) : option Z := length_from (length str) str 0.

Definition LengthFromChar32 (cp : Z) : Z :=
  if cp <? 0x80 then 1 else if cp <? 0x800 then 2 else if cp <? 0x10000 then 3 else 4.

(** [static_cast<uint32_t>( *it++) & 0x3F]: [None] reads behind the string. *)
Definition next_bits (it : list Z) : option (Z * list Z) :=
  match it with [] => None | b :: it => Some (Z.land b 0x3F, it) end.

(** [ToChar32Impl]: the code point and the pointer behind it. [None] is undefined behaviour: a read behind the string, or a first
    byte that [ABSL_UNREACHABLE] is reached with. *)
Definition ToChar32Impl (checked : bool) (it : list Z) : option (Z * list Z) :=
  match it with
  | [] => None
  | cp :: it =>
      if cp <? kNextTableBegin then Some (if negb checked || (cp <? 0x80) then cp else kInvalidChar32, it)
      else
        let len := next_length cp in
        if checked && ((len =? 0)%nat || (length it <? len)%nat) then Some (kInvalidChar32, it)
        else
          match len with
          | 1%nat =>
              '(c, it) ← next_bits it;
              Some (Z.lor (Z.shiftl (Z.land cp 0x1F) 6) c, it)
          | 2%nat =>
              '(b, it) ← next_bits it;
              '(c, it) ← next_bits it;
              Some (Z.lor (Z.lor (Z.shiftl (Z.land cp 0xF) 12) (Z.shiftl b 6)) c, it)
          | 3%nat =>
              '(a, it) ← next_bits it;
              '(b, it) ← next_bits it;
              '(c, it) ← next_bits it;
              Some (Z.lor (Z.lor (Z.lor (Z.shiftl (Z.land cp 0x7) 18) (Z.shiftl a 12)) (Z.shiftl b 6)) c, it)
          | _ => None
          end
  end.
Definition ToChar32_checked : list Z -> option (Z * list Z) := ToChar32Impl true.
Definition ToChar32 : list Z -> option (Z * list Z) := ToChar32Impl false.

(** The lambda [convert] of [FromChar32], and the bytes that [FromChar32] stores *)
Definition convert (cp mask header : Z) : Z := wrap 8 (Z.lor (Z.land cp mask) header).
Definition FromChar32 (cp : Z) : list Z :=
  if cp <? 0x80 then [wrap 8 cp]
  else if cp <? 0x800 then [convert (Z.shiftr cp 6) 0x1F 0xC0; convert cp 0x3F 0x80]
  else if cp <? 0x10000 then [convert (Z.shiftr cp 12) 0xF 0xE0; convert (Z.shiftr cp 6) 0x3F 0x80; convert cp 0x3F 0x80]
  else [convert (Z.shiftr cp 18) 0x7 0xF0; convert (Z.shiftr cp 12) 0x3F 0x80; convert (Z.shiftr cp 6) 0x3F 0x80; convert cp 0x3F 0x80].

(** [ToUTF32]: whether all of the string is valid, and the code points that were appended to the output [out] *)
Fixpoint to_utf32 (checked : bool) (n : nat) (it out : list Z) : option (bool * list Z) :=
  match it, n with
  | [], _ => Some (true, out)
  | _, O => None
  | _, S n =>
      '(cp, it) ← ToChar32Impl checked it;
      if checked && (cp =? kInvalidChar32) then Some (false, out) else to_utf32 checked n it (out ++ [cp])
  end.
Definition ToUTF32 (checked : bool) (data : list Z) : option (bool * list Z) := to_utf32 checked (length data) data [].

(** ** Code points and their bytes *)

(** The code points that have a first byte in the table; [0x10FFFF] is the last one of Unicode. *)
Definition code_point (cp : Z) : Prop := 0 <= cp < 0x140000.
#[global] Instance code_point_dec cp : Decision (code_point cp).
Proof. unfold code_point. apply _. Defined.

Lemma low_bits a b k : 0 <= k -> is_word k a -> Z.land (Z.lor a (Z.shiftl b k)) (Z.ones k) = a.
Proof.
  intros Hk Ha. rewrite <-wrap_land by done. rewrite lor_low_high by done. rewrite wrap_add_multiple by done. by apply wrap_small.
Qed.

Lemma next_length_spec b : 0xC0 <= b < 0x100 ->
  next_length b = if b <? 0xC2 then 0%nat else if b <? 0xE0 then 1%nat else if b <? 0xF0 then 2%nat else if b <? 0xF5 then 3%nat else 0%nat.
Proof.
  intros Hb. assert (exists n, (n < 64)%nat /\ b = Z.of_nat n + 0xC0) as (n & Hn & ->) by (exists (Z.to_nat (b - 0xC0)); lia).
  unfold next_length, kNextTableBegin. rewrite Z.add_simpl_r, Nat2Z.id. clear Hb. do 64 (destruct n as [|n]; [done|]). lia.
Qed.

Lemma convert_spec x k q : 0 <= k -> 0 <= q -> (q + 1) * 2 ^ k <= 256 -> convert x (Z.ones k) (q * 2 ^ k) = q * 2 ^ k + x mod 2 ^ k.
Proof.
  intros Hk Hq Hh. unfold convert. rewrite Z.land_ones by done. pose proof (Z.mod_pos_bound x (2 ^ k) (pow2_pos k Hk)) as Hm.
  rewrite <-Z.shiftl_mul_pow2, lor_low_high by done. rewrite wrap_small by (unfold is_word; change (2 ^ 8) with 256; nia).
  rewrite Z.shiftl_mul_pow2 by done. lia.
Qed.

Lemma head_bits q k d : 0 <= k -> is_word k d -> Z.land (q * 2 ^ k + d) (Z.ones k) = d.
Proof.
  intros Hk Hd. rewrite Z.land_ones by done. rewrite Z.add_comm, Z_mod_plus_full. by apply Z.mod_small.
Qed.

(** The bytes of a code point *)
Lemma FromChar32_spec cp : code_point cp -> FromChar32 cp =
  if cp <? 0x80 then [cp]
  else if cp <? 0x800 then [0xC0 + cp / 64; 0x80 + cp mod 64]
  else if cp <? 0x10000 then [0xE0 + cp / 64 / 64; 0x80 + cp / 64 mod 64; 0x80 + cp mod 64]
  else [0xF0 + cp / 64 / 64 / 64; 0x80 + cp / 64 / 64 mod 64; 0x80 + cp / 64 mod 64; 0x80 + cp mod 64].
Proof.
  intros Hc. unfold FromChar32, code_point in *. pose proof (fun x => convert_spec x 6 2 ltac:(done) ltac:(done) ltac:(done)) as C2.
  pose proof (fun x => convert_spec x 5 6 ltac:(done) ltac:(done) ltac:(done)) as C6.
  pose proof (fun x => convert_spec x 4 14 ltac:(done) ltac:(done) ltac:(done)) as C14.
  pose proof (fun x => convert_spec x 3 30 ltac:(done) ltac:(done) ltac:(done)) as C30.
  change (Z.ones 6) with 0x3F in C2. change (Z.ones 5) with 0x1F in C6. change (Z.ones 4) with 0xF in C14. change (Z.ones 3) with 7 in C30.
  change (2 * 2 ^ 6) with 0x80 in C2. change (6 * 2 ^ 5) with 0xC0 in C6. change (14 * 2 ^ 4) with 0xE0 in C14. change (30 * 2 ^ 3) with 0xF0 in C30.
  rewrite !Z.shiftr_div_pow2, !C2, C6, C14, C30 by done. change (2 ^ 6) with 64. change (2 ^ 12) with (64 * 64). change (2 ^ 18) with (64 * 64 * 64).
  change (2 ^ 5) with 32. change (2 ^ 4) with 16. change (2 ^ 3) with 8. rewrite !Z.div_div by done. change (64 * (64 * 64)) with (64 * 64 * 64).
  repeat case_match; repeat f_equal; bdestruct_all; try done; try (apply wrap_small; unfold is_word; lia); apply Z.mod_small; word_lia.
Qed.

Lemma next_bits_spec d r : is_word 6 d -> next_bits (0x80 + d :: r) = Some (d, r).
Proof. intros Hd. cbn [next_bits]. change 0x80 with (2 * 2 ^ 6). change 0x3F with (Z.ones 6). by rewrite head_bits. Qed.

Lemma lor_digit a c : is_word 6 c -> Z.lor (Z.shiftl a 6) c = a * 64 + c.
Proof. intros Hc. rewrite Z.lor_comm, lor_low_high by done. lia. Qed.

(** A code point is read back from its bytes, and what follows is left; checking only rejects the one that marks errors. *)
Lemma ToChar32_FromChar32 checked cp r : code_point cp -> ToChar32Impl checked (FromChar32 cp ++ r) = Some (cp, r).
Proof.
  intros Hc. rewrite FromChar32_spec by done. unfold code_point in Hc.
  assert (forall x, is_word 6 (x mod 64)) as Hm by (intros x; unfold is_word; change (2 ^ 6) with 64; by apply Z.mod_pos_bound).
  destruct (Z.ltb_spec cp 0x80); [|destruct (Z.ltb_spec cp 0x800); [|destruct (Z.ltb_spec cp 0x10000)]]; cbn [app ToChar32Impl]; unfold kNextTableBegin.
  - destruct (Z.ltb_spec cp 0xC0); [|lia]. destruct (Z.ltb_spec cp 0x80); [|lia]. by rewrite orb_true_r.
  - assert (2 <= cp / 64 < 32) as H2 by word_lia. destruct (Z.ltb_spec (0xC0 + cp / 64) 0xC0); [lia|]. rewrite next_length_spec by lia.
    destruct (Z.ltb_spec (0xC0 + cp / 64) 0xC2); [lia|]. destruct (Z.ltb_spec (0xC0 + cp / 64) 0xE0); [|lia]. cbv zeta. cbn [Nat.eqb length Nat.ltb Nat.leb orb].
    rewrite andb_false_r, next_bits_spec by done. cbn [mbind option_bind].
    change 0xC0 with (6 * 2 ^ 5). change 0x1F with (Z.ones 5). rewrite head_bits by (unfold is_word; lia). rewrite lor_digit by done. do 2 f_equal. word_lia.
  - assert (0 <= cp / 64 / 64 < 16) as H2 by word_lia. destruct (Z.ltb_spec (0xE0 + cp / 64 / 64) 0xC0); [lia|]. rewrite next_length_spec by lia.
    destruct (Z.ltb_spec (0xE0 + cp / 64 / 64) 0xC2); [lia|]. destruct (Z.ltb_spec (0xE0 + cp / 64 / 64) 0xE0); [lia|].
    destruct (Z.ltb_spec (0xE0 + cp / 64 / 64) 0xF0); [|lia]. cbv zeta. cbn [Nat.eqb length Nat.ltb Nat.leb orb].
    rewrite andb_false_r. rewrite !next_bits_spec by done. cbn [mbind option_bind]. rewrite next_bits_spec by done. cbn [mbind option_bind].
    change 0xE0 with (14 * 2 ^ 4). change 0xF with (Z.ones 4). rewrite head_bits by (unfold is_word; lia).
    change 12 with (6 + 6). rewrite <-Z.shiftl_shiftl, <-Z.shiftl_lor, !lor_digit by done. do 2 f_equal. word_lia.
  - assert (0 <= cp / 64 / 64 / 64 < 5) as H2 by word_lia. destruct (Z.ltb_spec (0xF0 + cp / 64 / 64 / 64) 0xC0); [lia|]. rewrite next_length_spec by lia.
    destruct (Z.ltb_spec (0xF0 + cp / 64 / 64 / 64) 0xC2); [lia|]. destruct (Z.ltb_spec (0xF0 + cp / 64 / 64 / 64) 0xE0); [lia|].
    destruct (Z.ltb_spec (0xF0 + cp / 64 / 64 / 64) 0xF0); [lia|]. destruct (Z.ltb_spec (0xF0 + cp / 64 / 64 / 64) 0xF5); [|lia].
    cbv zeta. cbn [Nat.eqb length Nat.ltb Nat.leb orb].
    rewrite andb_false_r. rewrite !next_bits_spec by done. cbn [mbind option_bind]. rewrite next_bits_spec by done. cbn [mbind option_bind].
    rewrite next_bits_spec by done. cbn [mbind option_bind].
    change 0xF0 with (30 * 2 ^ 3). change 0x7 with (Z.ones 3). rewrite head_bits by (unfold is_word; lia).
    change 18 with (6 + (6 + 6)). change 12 with (6 + 6). rewrite <-!Z.shiftl_shiftl, <-!Z.shiftl_lor, !lor_digit by done. do 2 f_equal. word_lia.
Qed.

Lemma FromChar32_length cp : Z.of_nat (length (FromChar32 cp)) = LengthFromChar32 cp.
Proof. unfold FromChar32, LengthFromChar32. by repeat case_match. Qed.

Lemma FromChar32_nonempty cp : (0 < length (FromChar32 cp))%nat.
Proof. unfold FromChar32. repeat case_match; cbn; lia. Qed.

Lemma FromChar32_bytes cp : code_point cp -> Forall is_byte (FromChar32 cp).
Proof.
  intros Hc. rewrite FromChar32_spec by done. unfold code_point in Hc. unfold is_word.
  repeat case_match; bdestruct_all; try done; repeat constructor; cbn; word_lia.
Qed.

Lemma Next_FromChar32 cp r : code_point cp -> Next (FromChar32 cp ++ r) = r.
Proof.
  intros Hc. rewrite FromChar32_spec by done. unfold code_point in Hc. unfold Next, kNextTableBegin.
  assert (cp / 64 / 64 / 64 < 5) by word_lia.
  destruct (Z.ltb_spec cp 0x80); [|destruct (Z.ltb_spec cp 0x800); [|destruct (Z.ltb_spec cp 0x10000)]]; cbn [app];
    match goal with |- context [?a <? 0xC0] => destruct (Z.ltb_spec a 0xC0) end; try done; try word_lia;
    rewrite next_length_spec by word_lia; repeat match goal with |- context [?a <? ?b] => destruct (Z.ltb_spec a b); try word_lia end; done.
Qed.

(** ** Strings of code points *)

(** A string in UTF-8 *)
Definition utf8 (cps : list Z) : list Z := cps ≫= FromChar32.

Lemma utf8_cons cp cps : utf8 (cp :: cps) = FromChar32 cp ++ utf8 cps.
Proof. done. Qed.

Lemma utf8_app a b : utf8 (a ++ b) = utf8 a ++ utf8 b.
Proof. apply bind_app. Qed.

Lemma utf8_length cps : (length cps <= length (utf8 cps))%nat.
Proof. induction cps as [|cp cps IH]; [done|]. rewrite utf8_cons, length_app. cbn [length]. pose proof (FromChar32_nonempty cp). lia. Qed.

Lemma utf8_bytes cps : Forall code_point cps -> Forall is_byte (utf8 cps).
Proof. induction 1 as [|cp cps Hc _ IH]; [constructor|]. rewrite utf8_cons. apply Forall_app. split; [by apply FromChar32_bytes|done]. Qed.

(** The code points are appended one by one, up to the one that marks errors when the string is checked. *)
Lemma to_utf32_utf8 checked cps : Forall code_point cps -> (checked = true -> kInvalidChar32 ∉ cps) -> forall n r out,
  (length cps <= n)%nat -> exists n', (n - length cps <= n')%nat /\ to_utf32 checked n (utf8 cps ++ r) out = to_utf32 checked n' r (out ++ cps).
Proof.
  induction 1 as [|cp cps Hc _ IH]; intros Hv n r out Hn.
  { exists n. rewrite app_nil_r. cbn. split; [lia|done]. }
  cbn [length] in Hn. destruct n as [|n]; [lia|]. destruct (IH ltac:(intros E; specialize (Hv E); by apply not_elem_of_cons in Hv as [_ ?]) n r (out ++ [cp]) ltac:(lia)) as (n' & Hn' & E).
  exists n'. split; [cbn [length]; lia|]. rewrite utf8_cons, <-app_assoc. rewrite <-app_assoc in E. change (([cp] ++ cps)) with (cp :: cps) in E. rewrite <-E.
  pose proof (FromChar32_nonempty cp) as Hne. pose proof (ToChar32_FromChar32 checked cp (utf8 cps ++ r) Hc) as Ec.
  destruct (FromChar32 cp ++ utf8 cps ++ r) as [|b it] eqn:Eb; [by apply (f_equal length) in Eb; rewrite length_app in Eb; cbn in Eb; lia|].
  cbn [to_utf32]. rewrite Ec. cbn [mbind option_bind]. destruct (checked && (cp =? kInvalidChar32)) eqn:Ek; [|done].
  apply andb_true_iff in Ek as [Ech Ecp%Z.eqb_eq]. specialize (Hv Ech). apply not_elem_of_cons in Hv as [Hv _]. by destruct Hv.
Qed.

Lemma ToUTF32_utf8 checked cps : Forall code_point cps -> (checked = true -> kInvalidChar32 ∉ cps) -> ToUTF32 checked (utf8 cps) = Some (true, cps).
Proof.
  intros Hc Hv. unfold ToUTF32. destruct (to_utf32_utf8 checked cps Hc Hv (length (utf8 cps)) [] [] (utf8_length cps)) as (n' & _ & E).
  rewrite app_nil_r in E. rewrite E. by destruct n'.
Qed.

Lemma length_from_utf8 cps : Forall code_point cps -> forall n c, (length cps <= n)%nat -> length_from n (utf8 cps) c = Some (c + Z.of_nat (length cps)).
Proof.
  induction 1 as [|cp cps Hc _ IH]; intros n c Hn; [cbn; destruct n; f_equal; lia|]. cbn [length] in *. destruct n as [|n]; [lia|].
  rewrite utf8_cons. pose proof (Next_FromChar32 cp (utf8 cps) Hc) as E. pose proof (FromChar32_nonempty cp).
  destruct (FromChar32 cp ++ utf8 cps) as [|b it] eqn:Eb; [by apply (f_equal length) in Eb; rewrite length_app in Eb; cbn in Eb; lia|].
  cbn [length_from]. rewrite E, IH by lia. f_equal. lia.
Qed.

(** A checked conversion never leaves its string. *)
Lemma checked_char it : it <> [] -> exists cp it', ToChar32Impl true it = Some (cp, it') /\ (length it' < length it)%nat.
Proof.
  destruct it as [|b it]; [done|]. intros _. cbn [ToChar32Impl]. destruct (b <? kNextTableBegin); [eexists _, it; split; [done|cbn; lia]|]. cbv zeta.
  assert (next_length b <= 3)%nat as Hn.
  { unfold next_length. destruct (nth_in_or_default (Z.to_nat (b - kNextTableBegin)) kNextTable 0%nat) as [Hin| ->]; [|lia].
    assert (Forall (fun n => n <= 3)%nat kNextTable) as Hall by (apply (bool_decide_unpack _); vm_compute; done).
    rewrite Forall_forall in Hall. apply Hall. by apply list_elem_of_In. }
  cbn [andb]. destruct (next_length b =? 0)%nat eqn:E0; [eexists _, it; split; [done|cbn; lia]|]. cbn [orb].
  destruct (Nat.ltb_spec (length it) (next_length b)); [eexists _, it; split; [done|cbn; lia]|]. apply Nat.eqb_neq in E0.
  destruct (next_length b) as [|[|[|[|n]]]]; [lia| | | |lia];
    (destruct it as [|c0 it]; [cbn in *; lia|]); try (destruct it as [|c1 it]; [cbn in *; lia|]); try (destruct it as [|c2 it]; [cbn in *; lia|]);
    cbn [next_bits mbind option_bind]; eexists _, it; split; [done|cbn; lia|done|cbn; lia|done|cbn; lia].
Qed.

Lemma checked_total n it : (length it <= n)%nat -> forall out, exists r, to_utf32 true n it out = Some r.
Proof.
  revert it. induction n as [|n IH]; intros it Hn out.
  { destruct it; [by eexists|cbn in *; lia]. }
  destruct it as [|b it]; [by eexists|]. destruct (checked_char (b :: it) ltac:(done)) as (cp & it' & E & Hl). cbn [to_utf32]. rewrite E. cbn [mbind option_bind].
  case_match; [by eexists|]. apply IH. cbn in *. lia.
Qed.

(** ** Properties *)

(** C26: UTF-8 is a code: a code point is written as the number of bytes that is predicted, at most four, and read back, with or without checks, whatever
    follows it, which is where the next character starts; a string of code points is converted to them and has as many characters; a checked conversion
    never leaves its string, and stops at U+FFFF, the value that marks errors. *)
Theorem utf8_roundtrip :
  (forall cp r, code_point cp -> Z.of_nat (length (FromChar32 cp)) = LengthFromChar32 cp /\ (length (FromChar32 cp) <= kMaxCharSize)%nat /\
     Forall is_byte (FromChar32 cp) /\ (forall checked, ToChar32Impl checked (FromChar32 cp ++ r) = Some (cp, r)) /\ Next (FromChar32 cp ++ r) = r) /\
  (forall cps, Forall code_point cps -> ToUTF32 false (utf8 cps) = Some (true, cps) /\ Length (utf8 cps) = Some (Z.of_nat (length cps))) /\
  (forall cps, Forall code_point cps -> kInvalidChar32 ∉ cps -> ToUTF32 true (utf8 cps) = Some (true, cps)) /\
  (forall cps r, Forall code_point cps -> kInvalidChar32 ∉ cps -> ToUTF32 true (utf8 cps ++ FromChar32 kInvalidChar32 ++ r) = Some (false, cps)) /\
  (forall data, exists r, ToUTF32 true data = Some r).
Proof.
  split; [|split; [|split; [|split]]].
  - intros cp r Hc. split; [apply FromChar32_length|]. split; [unfold FromChar32; repeat case_match; cbn; unfold kMaxCharSize; lia|].
    split; [by apply FromChar32_bytes|]. split; [intros checked; by apply ToChar32_FromChar32|by apply Next_FromChar32].
  - intros cps Hc. split; [by apply ToUTF32_utf8|]. unfold Length. by rewrite length_from_utf8 by (done || apply utf8_length).
  - intros cps Hc Hv. by apply ToUTF32_utf8.
  - intros cps r Hc Hv. unfold ToUTF32. destruct (to_utf32_utf8 true cps Hc ltac:(done) (length (utf8 cps ++ FromChar32 kInvalidChar32 ++ r)) (FromChar32 kInvalidChar32 ++ r) [])
      as (n' & Hn & E); [rewrite length_app; pose proof (utf8_length cps); lia|]. rewrite E. clear E. rewrite !length_app in Hn.
    pose proof (utf8_length cps). pose proof (FromChar32_nonempty kInvalidChar32). destruct n' as [|n']; [lia|]. cbn [app].
    pose proof (ToChar32_FromChar32 true kInvalidChar32 r ltac:(done)) as Ec. change (FromChar32 kInvalidChar32) with [0xEF; 0xBF; 0xBF] in *. cbn [app to_utf32] in *.
    rewrite Ec. done.
  - intros data. by apply checked_total.
Qed.

(** [utf8_roundtrip] on a string of one, two, three and four bytes, and on U+FFFF. *)
Lemma utf8_roundtrip_witness :
  ToUTF32 true [0x61; 0xC3; 0xA4; 0xE2; 0x82; 0xAC; 0xF0; 0x9F; 0x98; 0x80] = Some (true, [0x61; 0xE4; 0x20AC; 0x1F600]) /\
  ToUTF32 true [0x61; 0xEF; 0xBF; 0xBF; 0x62] = Some (false, [0x61]) /\
  Length [0x61; 0xC3; 0xA4; 0xE2; 0x82; 0xAC; 0xF0; 0x9F; 0x98; 0x80] = Some 4.
Proof.
  assert (Forall code_point [0x61; 0xE4; 0x20AC; 0x1F600]) as Hc by (repeat constructor; done).
  split; [|split].
  - apply (proj1 (proj2 (proj2 utf8_roundtrip)) [0x61; 0xE4; 0x20AC; 0x1F600] Hc). apply (bool_decide_unpack _). vm_compute. done.
  - apply (proj1 (proj2 (proj2 (proj2 utf8_roundtrip))) [0x61] [0x62]); [repeat constructor; done|]. apply (bool_decide_unpack _). vm_compute. done.
  - apply (proj2 (proj1 (proj2 utf8_roundtrip) [0x61; 0xE4; 0x20AC; 0x1F600] Hc)).
Defined.
