(* ===== verification/EditDistance.v ===== *)
(** * Edit distances

    The template [edit_distance] of utils/levenshtein_utils.hpp, and what it computes: the least number of insertions, deletions and
    substitutions that turn one word into the other. The theory of distances is for words over any type, for any cost of
    a substitution, with or without transpositions of neighbours. *)
From stdpp Require Import relations.
From S2P Require Import Prelude.

(** ** [edit_distance] *)

Open Scope word_scope.

Section rows.
Context {T : Type} `{EqDecision T} (SubstCost : Z).

(** The loop over a row, [n] cells from [i] on: [rhs] is the character of the row. Costs are of type [size_t]. *)
Fixpoint edit_row (n i : nat) (lhs : list T) (rhs : T) (current next : list Z) : option (list Z) :=
  match n with
  | O => Some next
  | S n =>
      deletion ← next !! (i - 1)%nat;
      insertion ← current !! i;
      substitution ← current !! (i - 1)%nat;
      c ← lhs !! (i - 1)%nat;
      let cost := Z.min (deletion +[64] 1) (Z.min (insertion +[64] 1) (substitution +[64] (if decide (c = rhs) then 0 else SubstCost))) in
      edit_row n (S i) lhs rhs current (<[i := cost]> next)
  end.

(** The loop over the rows: [rhs] is what is left of the longer word, [j] the number of its next character. *)
Fixpoint edit_rows (j : nat) (lhs rhs : list T) (current next : list Z) : option (list Z) :=
  match rhs with
  | [] => Some current
  | c :: rhs => next ← edit_row (length lhs) 1 lhs c current (<[0%nat := wrap 64 (Z.of_nat j)]> next); edit_rows (S j) lhs rhs next current
  end.

(** [std::iota] from the literal 0, which counts in [int]: [None] is the overflow behind the last of [n] numbers. *)
Definition iota (n : nat) : option (list Z) := if Z.of_nat n <? 2 ^ 31 then Some (map Z.of_nat (seq 0 n)) else None.

Definition edit_distance (lhs rhs : list T) : option Z :=
  let '(lhs, rhs) := if (length rhs <? length lhs)%nat then (rhs, lhs) else (lhs, rhs) in
  current ← iota (length lhs + 1);
  current ← edit_rows 1 lhs rhs current (replicate (length lhs + 1) 0);
  current !! length lhs.
End rows.

(** ** Alignments *)

Section alignments.
Context {T : Type} `{EqDecision T} (swap : bool) (subst : nat).
Implicit Types l r : list T.

(** [aligned l r n]: the word [l] is turned into [r] from left to right at the cost of [n]. *)
Inductive aligned : list T -> list T -> nat -> Prop :=
  | al_nil : aligned [] [] 0
  | al_delete a l r n : aligned l r n -> aligned (a :: l) r (S n)
  | al_insert b l r n : aligned l r n -> aligned l (b :: r) (S n)
  | al_keep a l r n : aligned l r n -> aligned (a :: l) (a :: r) n
  | al_substitute a b l r n : aligned l r n -> aligned (a :: l) (b :: r) (subst + n)
  | al_transpose a b l r n : swap = true -> aligned l r n -> aligned (a :: b :: l) (b :: a :: r) (S n).
#[local] Hint Constructors aligned : core.

(** The least cost *)
Fixpoint dist l : list T -> nat :=
  match l with
  | [] => fun r => length r
  | a :: l' =>
      fix dist_ r :=
        match r with
        | [] => length l
        | b :: r' =>
            let base := Nat.min (dist l' r + 1) (Nat.min (dist_ r' + 1) (dist l' r' + (if decide (a = b) then 0 else subst))) in
            match l', r' with
            | x :: l2, y :: r2 => if swap && bool_decide (a = y /\ x = b) then Nat.min base (dist l2 r2 + 1) else base
            | _, _ => base
            end
        end
  end%nat.

Lemma dist_nil_r l : dist l [] = length l.
Proof. by destruct l. Qed.

Lemma dist_cons a l b r : dist (a :: l) (b :: r) =
  let base := Nat.min (dist l (b :: r) + 1) (Nat.min (dist (a :: l) r + 1) (dist l r + (if decide (a = b) then 0 else subst))) in
  match l, r with
  | x :: l2, y :: r2 => if swap && bool_decide (a = y /\ x = b) then Nat.min base (dist l2 r2 + 1) else base
  | _, _ => base
  end%nat.
Proof. done. Qed.

Lemma aligned_delete_all l : aligned l [] (length l).
Proof. induction l; cbn; auto. Qed.
Lemma aligned_insert_all r : aligned [] r (length r).
Proof. induction r; cbn; auto. Qed.

Lemma min_cases (P : nat -> Prop) a b : P a -> P b -> P (Nat.min a b).
Proof. intros. by destruct (Nat.min_spec a b) as [[_ ->]|[_ ->]]. Qed.

Lemma dist_aligned l : forall r, aligned l r (dist l r).
Proof.
  induction l as [l IH] using (induction_ltof1 _ (@length T)). unfold ltof in IH. destruct l as [|a l]; [apply aligned_insert_all|].
  induction r as [|b r IHr]; [apply aligned_delete_all|]. rewrite dist_cons.
  assert (aligned (a :: l) (b :: r) (Nat.min (dist l (b :: r) + 1) (Nat.min (dist (a :: l) r + 1) (dist l r + (if decide (a = b) then 0 else subst)))))%nat as Hbase.
  { apply min_cases; [rewrite Nat.add_1_r; apply al_delete, IH; cbn; lia|]. apply min_cases; [rewrite Nat.add_1_r; by apply al_insert|].
    destruct (decide (a = b)) as [->|]; [rewrite Nat.add_0_r|rewrite Nat.add_comm]; constructor; apply IH; cbn; lia. }
  cbv zeta. destruct l as [|x l]; [done|]. destruct r as [|y r]; [done|]. destruct (swap && bool_decide (a = y /\ x = b)) eqn:E; [|done].
  apply andb_true_iff in E as [Es [-> ->]%bool_decide_eq_true]. apply min_cases; [done|]. rewrite Nat.add_1_r. apply al_transpose; [done|]. apply IH. cbn. lia.
Qed.

Lemma dist_base a l b r : (dist (a :: l) (b :: r) <=
  Nat.min (dist l (b :: r) + 1) (Nat.min (dist (a :: l) r + 1) (dist l r + (if decide (a = b) then 0 else subst))))%nat.
Proof. rewrite dist_cons. cbv zeta. destruct l; [lia|]. destruct r; [lia|]. case_match; lia. Qed.

Lemma dist_delete a l r : (dist (a :: l) r <= S (dist l r))%nat.
Proof. destruct r as [|b r]; [rewrite !dist_nil_r; cbn; lia|]. pose proof (dist_base a l b r). lia. Qed.
Lemma dist_insert l b r : (dist l (b :: r) <= S (dist l r))%nat.
Proof. destruct l as [|a l]; [done|]. pose proof (dist_base a l b r). lia. Qed.

Lemma dist_bound l r : (dist l r <= length l + length r)%nat.
Proof. induction l as [|a l IH]; [cbn; lia|]. pose proof (dist_delete a l r). cbn [length]. lia. Qed.

Lemma dist_least l r n : aligned l r n -> (dist l r <= n)%nat.
Proof.
  induction 1 as [|a l r n _ IH|b l r n _ IH|a l r n _ IH|a b l r n _ IH|a b l r n Hs _ IH]; [done| | | | |].
  - pose proof (dist_delete a l r). lia.
  - pose proof (dist_insert l b r). lia.
  - pose proof (dist_base a l a r). rewrite decide_True in H by done. lia.
  - pose proof (dist_base a l b r). case_decide; lia.
  - rewrite dist_cons. cbv zeta. rewrite Hs, bool_decide_eq_true_2 by done. cbn [andb]. lia.
Qed.

(** ** Symmetries *)

Lemma aligned_app l r n l' r' n' : aligned l r n -> aligned l' r' n' -> aligned (l ++ l') (r ++ r') (n + n').
Proof. induction 1; cbn; rewrite <-?Nat.add_assoc; auto. Qed.

Lemma aligned_rev l r n : aligned l r n -> aligned (rev l) (rev r) n.
Proof.
  induction 1 as [|a l r n _ IH|b l r n _ IH|a l r n _ IH|a b l r n _ IH|a b l r n Hs _ IH]; cbn [rev]; [auto| | | | |].
  - rewrite <-(app_nil_r (rev r)), <-Nat.add_1_r. by apply aligned_app; [|repeat constructor].
  - rewrite <-(app_nil_r (rev l)), <-Nat.add_1_r. by apply aligned_app; [|repeat constructor].
  - rewrite <-(Nat.add_0_r n). by apply aligned_app; [|repeat constructor].
  - rewrite Nat.add_comm. apply aligned_app; [done|]. rewrite <-(Nat.add_0_r subst). auto.
  - rewrite <-!app_assoc, <-Nat.add_1_r. apply aligned_app; [done|]. cbn [app]. by apply al_transpose; [|constructor].
Qed.

Lemma dist_rev l r : dist (rev l) (rev r) = dist l r.
Proof.
  apply Nat.le_antisymm; apply dist_least; [apply aligned_rev, dist_aligned|]. rewrite <-(rev_involutive l) at 1. rewrite <-(rev_involutive r) at 1.
  apply aligned_rev, dist_aligned.
Qed.

Lemma aligned_sym l r n : aligned l r n -> aligned r l n.
Proof. induction 1; auto. Qed.

Lemma dist_sym l r : dist l r = dist r l.
Proof. apply Nat.le_antisymm; apply dist_least, aligned_sym, dist_aligned. Qed.

(** Without its first character a word is at most one further away. *)
Lemma aligned_tail a l r n : aligned (a :: l) r n -> exists m, (m <= S n)%nat /\ aligned l r m.
Proof.
  intros H0. remember (a :: l) as w eqn:E. revert a l E. induction H0 as [|a' l' r n H IH|b l' r n H IH|a' l' r n H IH|a' b l' r n H IH|a' b l' r n Hs H IH]; intros a l E.
  - done.
  - injection E as -> ->. exists n. split; [lia|done].
  - destruct (IH a l E) as (m & Hm & Ha). exists (S m). split; [lia|auto].
  - injection E as -> ->. exists (S n). auto.
  - injection E as -> ->. exists (S n). split; [lia|auto].
  - injection E as -> <-. exists (S n). split; [lia|auto].
Qed.

Lemma dist_tail a l r : (dist l r <= S (dist (a :: l) r))%nat.
Proof. destruct (aligned_tail a l r _ (dist_aligned _ _)) as (m & Hm & Ha). apply dist_least in Ha. lia. Qed.

End alignments.

(** ** Single edits *)

Section edits.
Context {T : Type} `{EqDecision T}.
Implicit Types l m r : list T.

(** A character is deleted, inserted or substituted, anywhere in a word. *)
Inductive edit : list T -> list T -> Prop :=
  | edit_delete x a y : edit (x ++ a :: y) (x ++ y)
  | edit_insert x a y : edit (x ++ y) (x ++ a :: y)
  | edit_substitute x a b y : edit (x ++ a :: y) (x ++ b :: y).

#[local] Abbreviation aligned := (aligned false 1).
#[local] Hint Constructors EditDistance.aligned : core.

Lemma aligned_refl l : aligned l l 0.
Proof. induction l; auto. Qed.

Lemma aligned_skip x l r n : aligned l r n -> aligned (x ++ l) (x ++ r) n.
Proof. intros H. by apply (aligned_app false 1 x x 0 l r n (aligned_refl x)). Qed.

Lemma edit_aligned l r : edit l r -> aligned l r 1.
Proof.
  intros []; apply aligned_skip; [apply al_delete|apply al_insert|apply (al_substitute false 1 a b y y 0)]; apply aligned_refl.
Qed.

Lemma edit_cons a l r : edit l r -> edit (a :: l) (a :: r).
Proof.
  intros [x b y|x b y|x b c y]; [apply (edit_delete (a :: x))|apply (edit_insert (a :: x))|apply (edit_substitute (a :: x))].
Qed.

Lemma edits_cons a n l r : nsteps edit n l r -> nsteps edit n (a :: l) (a :: r).
Proof. induction 1 as [l|n l m r Hs _ IH]; [constructor|]. econstructor; [by apply edit_cons|done]. Qed.

Lemma aligned_edits l r n : aligned l r n -> nsteps edit n l r.
Proof.
  induction 1 as [|a l r n _ IH|b l r n _ IH|a l r n _ IH|a b l r n _ IH|]; [constructor| | |by apply edits_cons| |done].
  - econstructor; [apply (edit_delete [])|done].
  - econstructor; [apply (edit_insert [] b l)|by apply edits_cons].
  - econstructor; [apply (edit_substitute [] a b l)|by apply edits_cons].
Qed.

(** The triangle inequality *)
Lemma aligned_trans l m a : aligned l m a -> forall r b, aligned m r b -> exists c, (c <= a + b)%nat /\ aligned l r c.
Proof.
  induction 1 as [|x l m n _ IH|y l m n Hlm IH|x l m n Hlm IH|x y l m n Hlm IH|x y l m n Hs _ _]; intros r b H2; [eauto| | | | |done].
  { destruct (IH r b H2) as (c & Hc & Ha). exists (S c). split; [lia|auto]. }
  - remember (y :: m) as w eqn:E. induction H2 as [|u w r k H2 _|v w r k H2 IH2|u w r k H2 _|u v w r k H2 _|u v w r k Hs H2 _]; try done.
    + injection E as -> ->. destruct (IH _ _ H2) as (c & Hc & Ha). exists c. split; [lia|done].
    + destruct (IH2 E) as (c & Hc & Ha). exists (S c). split; [lia|auto].
    + injection E as -> ->. destruct (IH _ _ H2) as (c & Hc & Ha). exists (S c). split; [lia|auto].
    + injection E as -> ->. destruct (IH _ _ H2) as (c & Hc & Ha). exists (S c). split; [lia|auto].
  - remember (x :: m) as w eqn:E. induction H2 as [|u w r k H2 _|v w r k H2 IH2|u w r k H2 _|u v w r k H2 _|u v w r k Hs H2 _]; try done.
    + injection E as -> ->. destruct (IH _ _ H2) as (c & Hc & Ha). exists (S c). split; [lia|auto].
    + destruct (IH2 E) as (c & Hc & Ha). exists (S c). split; [lia|auto].
    + injection E as -> ->. destruct (IH _ _ H2) as (c & Hc & Ha). exists c. split; [lia|auto].
    + injection E as -> ->. destruct (IH _ _ H2) as (c & Hc & Ha). exists (1 + c)%nat. split; [lia|auto].
  - remember (y :: m) as w eqn:E. induction H2 as [|u w r k H2 _|v w r k H2 IH2|u w r k H2 _|u v w r k H2 _|u v w r k Hs H2 _]; try done.
    + injection E as -> ->. destruct (IH _ _ H2) as (c & Hc & Ha). exists (S c). split; [lia|auto].
    + destruct (IH2 E) as (c & Hc & Ha). exists (S c). split; [lia|auto].
    + injection E as -> ->. destruct (IH _ _ H2) as (c & Hc & Ha). exists (1 + c)%nat. split; [lia|auto].
    + injection E as -> ->. destruct (IH _ _ H2) as (c & Hc & Ha). exists (1 + c)%nat. split; [lia|auto].
Qed.

Lemma edits_aligned l r n : nsteps edit n l r -> exists m : nat, (m <= n)%nat /\ aligned l r m.
Proof.
  induction 1 as [l|n l m r Hs _ (k & Hk & Ha)]; [exists 0%nat; split; [lia|apply aligned_refl]|].
  destruct (aligned_trans _ _ _ (edit_aligned _ _ Hs) _ _ Ha) as (c & Hc & Hlr). exists c. split; [lia|done].
Qed.
End edits.

(** ** The rows hold the distances of the prefixes *)

Section correct.
Context {T : Type} `{EqDecision T} (SubstCost : nat).

Definition prefix_dist (lhs rhs : list T) (i j : nat) : nat := dist false SubstCost (rev (take i lhs)) (rev (take j rhs)).

Lemma prefix_dist_S lhs rhs i j a b : lhs !! i = Some a -> rhs !! j = Some b -> prefix_dist lhs rhs (S i) (S j) =
  Nat.min (prefix_dist lhs rhs i (S j) + 1)%nat (Nat.min (prefix_dist lhs rhs (S i) j + 1)
    (prefix_dist lhs rhs i j + (if decide (a = b) then 0 else SubstCost)))%nat.
Proof.
  intros Ha Hb. unfold prefix_dist. rewrite (take_S_r _ _ _ Ha), (take_S_r _ _ _ Hb), !rev_app_distr. cbn [rev app]. rewrite dist_cons.
  cbv zeta. cbn [andb]. by destruct (rev (take i lhs)), (rev (take j rhs)).
Qed.

(** Costs of prefixes of words of these sizes do not overflow. *)
Definition no_overflow (lhs rhs : list T) : Prop := Z.of_nat (length lhs + length rhs) + Z.max 1 (Z.of_nat SubstCost) < 2 ^ 64.

Lemma prefix_dist_bound lhs rhs i j : (prefix_dist lhs rhs i j <= Nat.min i (length lhs) + Nat.min j (length rhs))%nat.
Proof. unfold prefix_dist. pose proof (dist_bound false SubstCost (rev (take i lhs)) (rev (take j rhs))) as H. by rewrite !length_rev, !length_take in H. Qed.

Definition row_of (lhs rhs : list T) (j k : nat) (row : list Z) : Prop :=
  length row = S (length lhs) /\ forall i, (i < k)%nat -> row !! i = Some (Z.of_nat (prefix_dist lhs rhs i j)).

Lemma edit_row_spec lhs rhs j c : no_overflow lhs rhs -> rhs !! j = Some c -> forall n i current next, (i + n = S (length lhs))%nat -> (0 < i)%nat ->
  row_of lhs rhs j (S (length lhs)) current -> row_of lhs rhs (S j) i next ->
  exists next', edit_row (Z.of_nat SubstCost) n i lhs c current next = Some next' /\ row_of lhs rhs (S j) (S (length lhs)) next'.
Proof.
  intros Hov Hc. induction n as [|n IH]; intros i current next Hi Hpos [Hcl Hcur] [Hnl Hnext].
  { exists next. split; [done|]. split; [done|]. intros k Hk. apply Hnext. lia. }
  cbn [edit_row]. destruct i as [|i]; [lia|]. replace (S i - 1)%nat with i by lia.
  rewrite (Hnext i), (Hcur (S i)), (Hcur i) by lia. cbn [mbind option_bind].
  destruct (lookup_lt_is_Some_2 lhs i ltac:(lia)) as (a & Ha). rewrite Ha. cbn [mbind option_bind]. cbv zeta.
  pose proof (prefix_dist_bound lhs rhs i (S j)). pose proof (prefix_dist_bound lhs rhs (S i) j). pose proof (prefix_dist_bound lhs rhs i j).
  pose proof (lookup_lt_Some _ _ _ Hc). unfold no_overflow in Hov.
  assert (Z.min (Z.of_nat (prefix_dist lhs rhs i (S j)) +[64] 1) (Z.min (Z.of_nat (prefix_dist lhs rhs (S i) j) +[64] 1)
    (Z.of_nat (prefix_dist lhs rhs i j) +[64] (if decide (a = c) then 0 else Z.of_nat SubstCost))) = Z.of_nat (prefix_dist lhs rhs (S i) (S j))) as ->.
  { rewrite (prefix_dist_S lhs rhs i j a c Ha Hc), !wrap_small by (unfold is_word; repeat case_decide; lia). repeat case_decide; lia. }
  apply IH; [lia|lia|done|]. split; [by rewrite length_insert|]. intros k Hk.
  destruct (decide (k = S i)) as [->|]; [apply list_lookup_insert_eq; lia|]. rewrite list_lookup_insert_ne by lia. apply Hnext. lia.
Qed.

Lemma edit_rows_spec lhs rhs : no_overflow lhs rhs -> forall rest j current next, rest = drop j rhs -> (j <= length rhs)%nat -> row_of lhs rhs j (S (length lhs)) current ->
  length next = S (length lhs) -> exists current', edit_rows (Z.of_nat SubstCost) (S j) lhs rest current next = Some current' /\
    row_of lhs rhs (length rhs) (S (length lhs)) current'.
Proof.
  intros Hov. induction rest as [|c rest IH]; intros j current next E Hj Hcur Hnl.
  { exists current. split; [done|]. replace (length rhs) with j; [done|]. apply (f_equal length) in E. rewrite length_drop in E. cbn in E. lia. }
  assert (rhs !! j = Some c) as Hc by (rewrite <-(Nat.add_0_r j), <-lookup_drop, <-E; done).
  pose proof (lookup_lt_Some _ _ _ Hc) as Hlt. cbn [edit_rows].
  destruct (edit_row_spec lhs rhs j c Hov Hc (length lhs) 1 current (<[0%nat := wrap 64 (Z.of_nat (S j))]> next) eq_refl ltac:(lia) Hcur) as (next' & -> & Hn').
  { split; [by rewrite length_insert|]. intros i Hi. destruct i as [|i]; [|lia]. rewrite list_lookup_insert_eq by lia. do 2 f_equal.
    unfold no_overflow in Hov. rewrite wrap_small by (unfold is_word; lia). unfold prefix_dist. rewrite take_0.
    change (Z.of_nat (S j) = Z.of_nat (length (rev (take (S j) rhs)))). rewrite length_rev, length_take. lia. }
  cbn [mbind option_bind]. apply IH; [|lia|done|by destruct Hcur].
  apply (f_equal (drop 1)) in E. change (drop 1 (c :: rest)) with rest in E. rewrite E, drop_drop. f_equal. lia.
Qed.

(** The function computes the least cost of an alignment. *)
Lemma edit_distance_dist (lhs rhs : list T) : no_overflow lhs rhs -> Z.of_nat (Nat.min (length lhs) (length rhs)) + 1 < 2 ^ 31 ->
  edit_distance (Z.of_nat SubstCost) lhs rhs = Some (Z.of_nat (dist false SubstCost lhs rhs)).
Proof.
  unfold edit_distance. assert (forall l r : list T, no_overflow l r -> Z.of_nat (length l) + 1 < 2 ^ 31 ->
    (current ← iota (length l + 1); current ← edit_rows (Z.of_nat SubstCost) 1 l r current (replicate (length l + 1) 0); current !! length l) =
    Some (Z.of_nat (dist false SubstCost l r))) as Hd.
  { intros l r Hov Hint. unfold iota. destruct (Z.ltb_spec (Z.of_nat (length l + 1)) (2 ^ 31)); [|lia]. cbn [mbind option_bind].
    destruct (edit_rows_spec l r Hov r 0 (map Z.of_nat (seq 0 (length l + 1))) (replicate (length l + 1) 0)) as (cur & -> & Hcur).
    - done.
    - lia.
    - split; [rewrite length_map, length_seq; lia|]. intros i Hi. rewrite list_lookup_fmap, lookup_seq_lt by lia. cbn [fmap option_fmap option_map]. do 2 f_equal.
      unfold prefix_dist. rewrite take_0. cbn [rev]. rewrite dist_nil_r, length_rev, length_take. lia.
    - rewrite length_replicate. lia.
    - cbn [mbind option_bind]. rewrite (proj2 Hcur) by lia. unfold prefix_dist. by rewrite !firstn_all, dist_rev. }
  intros Hov Hint. destruct (Nat.ltb_spec (length rhs) (length lhs)).
  - rewrite Hd by (unfold no_overflow in *; lia). by rewrite dist_sym.
  - by rewrite Hd by (done || lia).
Qed.
End correct.

(** ** Properties *)

(** C13: For words of fewer than [2 ^ 31 - 1] characters in the shorter one, with sums that fit in 64 bits, [edit_distance] returns the least number of
    single edits, the deletion, insertion or substitution of a character, that turn one word into the other; for another cost of substitutions, with which the sums
    fit as well, it is the least cost of an alignment. *)
Theorem edit_distance_spec {T} `{EqDecision T} (lhs rhs : list T) : Z.of_nat (Nat.min (length lhs) (length rhs)) + 1 < 2 ^ 31 ->
  Z.of_nat (length lhs + length rhs) + 1 < 2 ^ 64 -> exists n, edit_distance 1 lhs rhs = Some (Z.of_nat n) /\
  nsteps edit n lhs rhs /\ (forall m, nsteps edit m lhs rhs -> (n <= m)%nat) /\
  forall SubstCost, Z.of_nat (length lhs + length rhs) + Z.of_nat SubstCost < 2 ^ 64 -> exists c, edit_distance (Z.of_nat SubstCost) lhs rhs = Some (Z.of_nat c) /\
    aligned false SubstCost lhs rhs c /\ forall c', aligned false SubstCost lhs rhs c' -> (c <= c')%nat.
Proof.
  intros Hint Hsum. exists (dist false 1 lhs rhs). split; [by apply (edit_distance_dist 1)|]. split; [apply aligned_edits, dist_aligned|]. split.
  - intros m Hm. destruct (edits_aligned _ _ _ Hm) as (k & Hk & Ha). apply dist_least in Ha. lia.
  - intros SubstCost Hov. exists (dist false SubstCost lhs rhs). split; [apply edit_distance_dist; [unfold no_overflow; lia|done]|].
    split; [apply dist_aligned|apply dist_least].
Qed.

(** [edit_distance_spec] on "kitten" and "sitting": three edits; with substitutions that cost two, five. *)
Lemma edit_distance_witness : edit_distance 1 [11; 9; 20; 20; 5; 14] [19; 9; 20; 20; 9; 14; 7] = Some 3 /\
  (forall m, nsteps edit m [11; 9; 20; 20; 5; 14] [19; 9; 20; 20; 9; 14; 7] -> (3 <= m)%nat) /\
  exists c, edit_distance 2 [11; 9; 20; 20; 5; 14] [19; 9; 20; 20; 9; 14; 7] = Some (Z.of_nat c) /\
    aligned false 2 [11; 9; 20; 20; 5; 14] [19; 9; 20; 20; 9; 14; 7] c.
Proof.
  destruct (edit_distance_spec [11; 9; 20; 20; 5; 14] [19; 9; 20; 20; 9; 14; 7] ltac:(cbn; lia) ltac:(cbn; lia)) as (n & E & _ & Hm & Hc).
  assert (edit_distance 1 [11; 9; 20; 20; 5; 14] [19; 9; 20; 20; 9; 14; 7] = Some 3) as E3 by (vm_compute; reflexivity).
  rewrite E3 in E. assert (n = 3%nat) as -> by (injection E as E; lia).
  split; [exact E3|]. split; [exact Hm|]. destruct (Hc 2%nat ltac:(cbn; lia)) as (c & E2 & Ha & _). exists c. split; [exact E2|exact Ha].
Defined.
