(* ===== verification/Levenshtein.v ===== *)
(** * Parametric descriptions of Levenshtein automata

    utils/levenshtein_utils.hpp and .cpp: [make_parametric_description] builds, for a maximum distance and any word, the table of
    an automaton whose states are sets of positions in the word (Schulz and Mihov); [write] and [read] store the table;
    [edit_distance] runs it over a word. The construction of an OpenFst automaton from the table is not modelled.

    Offsets are below [2 ^ 7] and distances below [2 ^ 6] in every state that is built, so the sums of offsets
    and distances do not wrap. The hash map of the states is code of the abseil library; what matters of it is when it moves its
    entries, which is a parameter. *)
From S2P Require Import Prelude BitUtils BytesIO Streams FileStreams StoreUtils Utf8.

(** ** Positions and states *)

(** [INVALID_STATE]: the identifier of the state without positions *)
Definition INVALID_STATE : Z := 0.

Record position := mkPosition { offset : Z; distance_ : Z; transpose : bool }.
#[global] Instance position_eq_dec : EqDecision position.
Proof. solve_decision. Defined.

(** [operator<] *)
Definition position_lt (lhs rhs : position) : bool :=
  if offset lhs =? offset rhs then
    if distance_ lhs =? distance_ rhs then negb (transpose lhs) && transpose rhs else distance_ lhs <? distance_ rhs
  else offset lhs <? offset rhs.

Definition abs_diff (lhs rhs : Z) : Z := if lhs <? rhs then rhs - lhs else lhs - rhs.

Definition subsumes (lhs rhs : position) : bool :=
  let d := abs_diff (offset lhs) (offset rhs) + distance_ lhs in
  if transpose lhs || negb (transpose rhs) then d <=? distance_ rhs else d <? distance_ rhs.

Abbreviation parametric_state := (list position).

(** [irstd::swap_remove] *)
Definition swap_remove {A} (i : nat) (l : list A) : list A :=
  match last l with
  | Some back => take (length l - 1) (<[i := back]> l)
  | None => l
  end.

(** The loop of [parametric_state::emplace], from [begin] on *)
Fixpoint remove_subsumed (n begin : nat) (new_pos : position) (positions : parametric_state) : parametric_state :=
  match n, positions !! begin with
  | S n, Some pos =>
      if subsumes new_pos pos then remove_subsumed n begin new_pos (swap_remove begin positions)
      else remove_subsumed n (S begin) new_pos positions
  | _, _ => positions
  end.

Definition emplace (new_pos : position) (positions : parametric_state) : parametric_state :=
  if existsb (fun pos => subsumes pos new_pos) positions then positions
  else remove_subsumed (length positions) 0 new_pos positions ++ [new_pos].

(** [std::sort] of positions *)
Definition position_le (lhs rhs : position) : Prop := position_lt rhs lhs = false.
#[global] Instance position_le_dec lhs rhs : Decision (position_le lhs rhs).
Proof. unfold position_le. apply _. Defined.
Definition sort_positions : parametric_state -> parametric_state := merge_sort position_le.

(** ** Transitions *)

(** The deletions, [n] of them from [j] on *)
Fixpoint add_deletions (n : nat) (j : Z) (pos : position) (chi : Z) (state : parametric_state) : parametric_state :=
  match n with
  | O => state
  | S n =>
      let state := if Bit.check_bit 64 chi j then emplace (mkPosition (offset pos + 1 + j) (distance_ pos + j) false) state else state in
      add_deletions n (j + 1) pos chi state
  end.

Definition add_elementary_transitions (state : parametric_state) (pos : position) (chi max_distance : Z) (with_transpositions : bool)
    : parametric_state :=
  let state :=
    if Bit.check_bit 64 chi 0 then
      let state := emplace (mkPosition (offset pos + 1) (distance_ pos) false) state in
      if transpose pos then emplace (mkPosition (offset pos + 2) (distance_ pos) false) state else state
    else state in
  if distance_ pos <? max_distance then
    let state := emplace (mkPosition (offset pos) (distance_ pos + 1) false) state in
    let state := emplace (mkPosition (offset pos + 1) (distance_ pos + 1) false) state in
    let state := add_deletions (Z.to_nat (max_distance - distance_ pos)) 1 pos chi state in
    if with_transpositions && Bit.check_bit 64 chi 1 then emplace (mkPosition (offset pos) (distance_ pos + 1) true) state
    else state
  else state.

Definition add_transition (from : parametric_state) (cv max_distance : Z) (with_transpositions : bool) : parametric_state :=
  sort_positions (foldl (fun to pos => add_elementary_transitions to pos (Z.shiftr cv (offset pos)) max_distance with_transpositions) [] from).

Definition chi_size (max_distance : Z) : Z := 2 * max_distance + 1.
Definition chi_max (chi_size : Z) : Z := 1 <<[64] chi_size.

Definition NUM_STATES : list Z := [2; 2; 6; 8; 31; 68; 197; 769; 1354; 9628; 9714; 0].
Definition predict_num_states (max_distance : Z) (with_transpositions : bool) : Z :=
  nth (Z.to_nat (2 * max_distance + Z.b2z with_transpositions)) NUM_STATES 0.

(** [normalize]: the least offset and the state behind it *)
Definition min_offset (state : parametric_state) : Z :=
  match state with [] => 0 | pos :: state => foldl (fun m pos => Z.min m (offset pos)) (offset pos) state end.
Definition normalize (state : parametric_state) : Z * parametric_state :=
  let m := min_offset state in
  (m, sort_positions (map (fun pos => mkPosition (offset pos - m) (distance_ pos) (transpose pos)) state)).

Definition MAX_DISTANCE : Z := 31.

(** The loop of the function [distance], and the function; [None] is the assertion that fails. *)
Definition least_distance (state : parametric_state) (max_distance off : Z) : Z :=
  foldl (fun min_dist pos => let dist := distance_ pos + abs_diff off (offset pos) in if dist <? min_dist then dist else min_dist)
    (max_distance + 1) state.
Definition state_distance (state : parametric_state) (max_distance off : Z) : option Z :=
  if max_distance <? MAX_DISTANCE then Some (least_distance state max_distance off) else None.

(** ** Descriptions *)

Record parametric_description := mkDescription {
  pd_transitions : list (Z * Z);  (* destination and offset *)
  pd_distance : list Z;           (* distances per state and offset *)
  pd_chi_size : Z;
  pd_chi_max : Z;
  pd_num_states : Z;
  pd_max_distance : Z;
}.

Definition default_description : parametric_description := mkDescription [] [] 0 0 0 0.
Definition description (transitions : list (Z * Z)) (distance : list Z) (max_distance : Z) : parametric_description :=
  let size := chi_size max_distance in
  mkDescription transitions distance size (chi_max size) (Z.of_nat (length transitions) / chi_max size) max_distance.

Definition pd_transition (d : parametric_description) (from chi : Z) : option (Z * Z) :=
  pd_transitions d !! Z.to_nat (from * pd_chi_max d + chi).
(** [offset] is a [size_t]. *)
Definition pd_distance_at (d : parametric_description) (state off : Z) : option Z :=
  if pd_chi_size d <=? off then Some (pd_max_distance d + 1)
  else pd_distance d !! Z.to_nat (state * pd_chi_size d + off).
Definition pd_valid (d : parametric_description) : bool := 0 <? pd_chi_size d.

(** ** [parametric_states] and the construction *)

(** The states are the keys of an [absl::flat_hash_map] that was reserved for [ps_capacity] entries; [states_by_id_] has pointers to the keys, in
    the order in which they came. A map that grows moves its entries: the pointers to them dangle. [ps_valid] is the number of the first state whose
    pointer stands. *)
Record parametric_states := mkStates {
  ps_capacity : Z;
  ps_states : list parametric_state;
  ps_valid : nat;
}.
Definition states_make (capacity : Z) : parametric_states := mkStates capacity [] 0.

(** [operator[]]: [None] is a pointer that dangles, or none. *)
Definition states_at (states : parametric_states) (i : nat) : option parametric_state :=
  if (i <? ps_valid states)%nat then None else ps_states states !! i.

Section construction.
(** [moves capacity n]: whether the map, which was reserved for [capacity] entries, moves those it has when entry number [n] is inserted *)
Context (moves : Z -> Z -> bool).

(** [parametric_states::emplace]: the identifier of a state, which is added if it is new *)
Definition emplace_state (state : parametric_state) (states : parametric_states) : Z * parametric_states :=
  match list_find (eq state) (ps_states states) with
  | Some (i, _) => (wrap 32 (Z.of_nat i), states)
  | None =>
      let size := length (ps_states states) in
      (wrap 32 (Z.of_nat size), mkStates (ps_capacity states) (ps_states states ++ [state])
         (if moves (ps_capacity states) (Z.of_nat size + 1) then size else ps_valid states))
  end.

(** The transitions of a state for the characteristic vectors from [chi] on, [n] of them *)
Fixpoint add_transitions (n : nat) (chi max_distance : Z) (with_transpositions : bool) (from_id : nat)
    (states : parametric_states) : option (list (Z * Z) * parametric_states) :=
  match n with
  | O => Some ([], states)
  | S n =>
      from ← states_at states from_id;
      let '(off, to) := normalize (add_transition from chi max_distance with_transpositions) in
      let '(to_id, states) := emplace_state to states in
      '(transitions, states) ← add_transitions n (chi + 1) max_distance with_transpositions from_id states;
      Some ((to_id, off) :: transitions, states)
  end.

(** A round of the loop over the states: the vector of transitions has room for the predicted number of states. *)
Definition states_round (max_distance : Z) (with_transpositions : bool) (st : parametric_states * list (Z * Z) * nat)
    : option ((parametric_states * list (Z * Z) * nat) + (parametric_states * list (Z * Z))) :=
  let '(states, transitions, from_id) := st in
  let max := chi_max (chi_size max_distance) in
  let num_states := predict_num_states max_distance with_transpositions in
  if (from_id =? length (ps_states states))%nat then Some (inr (states, transitions))
  else
    '(row, states) ← add_transitions (Z.to_nat max) 0 max_distance with_transpositions from_id states;
    let transitions := transitions ++ row in
    if negb (num_states =? 0) && (Z.of_nat (length transitions) =? num_states * max) then Some (inr (states, transitions))
    else Some (inl (states, transitions, S from_id)).

(** A state is a set of positions with offsets up to twice the maximum distance. *)
Definition states_fuel (max_distance : Z) : nat := Z.to_nat (2 * ((2 * max_distance + 1) * (max_distance + 1)) + 1).

(** The distances of all states at all offsets *)
Definition state_distances (states : parametric_states) (max_distance : Z) : option (list Z) :=
  rows ← mapM (fun i => state ← states_at states i; mapM (fun off => wrap 8 <$> state_distance state max_distance off) (seqZ 0 (chi_size max_distance)))
    (seq 0 (length (ps_states states)));
  Some (concat rows).

Definition make_parametric_description (max_distance : Z) (with_transpositions : bool) : option parametric_description :=
  if MAX_DISTANCE <? max_distance then Some default_description
  else
    let states := states_make (predict_num_states max_distance with_transpositions) in
    let '(from_id, states) := emplace_state [] states in
    let '(_, states) := emplace_state [mkPosition 0 0 false] states in
    '(states, transitions) ← iterate (states_fuel max_distance) (states_round max_distance with_transpositions) (states, [], Z.to_nat from_id);
    distance ← state_distances states max_distance;
    Some (description transitions distance max_distance).
End construction.

(** ** [write] and [read] *)

Section write.
Context {O : Type} `{DataOutput O}.

Fixpoint write_transitions (transitions : list (Z * Z)) (last_state last_offset : Z) (out : O) : O :=
  match transitions with
  | [] => out
  | (first, second) :: transitions =>
      let out := write_zvint (to_signed 32 (first -[32] last_state)) out in
      let out := write_zvint (to_signed 32 (second -[32] last_offset)) out in
      write_transitions transitions first second out
  end.
Definition write (d : parametric_description) (out : O) : O :=
  let out := write_byte (pd_max_distance d) out in
  let out := write_vlong (Z.of_nat (length (pd_transitions d))) out in
  let out := write_transitions (pd_transitions d) 0 0 out in
  let out := write_vlong (Z.of_nat (length (pd_distance d))) out in
  write_bytes (pd_distance d) out.
End write.

Section read.
Context {I : Type} `{DataInput I}.

Fixpoint read_transitions (n : nat) (last_state last_offset : Z) (in_ : I) : option (list (Z * Z) * I) :=
  match n with
  | O => Some ([], in_)
  | S n =>
      '(first, in_) ← read_zvint in_;
      let first := last_state +[32] first in
      '(second, in_) ← read_zvint in_;
      let second := last_offset +[32] second in
      '(transitions, in_) ← read_transitions n first second in_;
      Some ((first, second) :: transitions, in_)
  end.
(** The vector of distances is zeros before the bytes are read into it. *)
Definition read (in_ : I) : option (parametric_description * I) :=
  '(max_distance, in_) ← read_byte in_;
  '(tcount, in_) ← read_vlong in_;
  '(transitions, in_) ← read_transitions (Z.to_nat tcount) 0 0 in_;
  '(dcount, in_) ← read_vlong in_;
  let '(distances, in_) := read_bytes (Z.to_nat dcount) in_ in
  Some (description transitions (distances ++ replicate (Z.to_nat dcount - length distances) 0) max_distance, in_).
End read.

(** ** [edit_distance] by a description *)

(** [chi]: the characteristic vector of a character, for the characters from number [i] on *)
Fixpoint chi_from (i : Z) (chars : list Z) (c : Z) : Z :=
  match chars with
  | [] => 0
  | x :: chars => Z.lor (Z.b2z (c =? x) <<[64] i) (chi_from (i + 1) chars c)
  end.
Definition chi (chars : list Z) (c : Z) : Z := chi_from 0 chars c.

(** The characters from [off] on that the automaton looks at *)
Definition window (d : parametric_description) (lhs_chars : list Z) (off : Z) : list Z :=
  drop (Z.to_nat off) (take (Z.to_nat (Z.min (off + pd_chi_size d) (Z.of_nat (length lhs_chars)))) lhs_chars).

(** A step by a character: the state and the offset behind it, or [None] when the distance is exceeded *)
Definition edit_step (d : parametric_description) (lhs_chars : list Z) (c state off : Z) : option (option (Z * Z)) :=
  '(first, second) ← pd_transition d state (chi (window d lhs_chars off) c);
  Some (if first =? INVALID_STATE then None else Some (first, off + second)).

Fixpoint edit_loop (n : nat) (d : parametric_description) (lhs_chars rhs : list Z) (state off : Z) : option Z :=
  match rhs, n with
  | [], _ => pd_distance_at d state (Z.of_nat (length lhs_chars) -[64] off)
  | _, O => None
  | _, S n =>
      '(c, rhs) ← ToChar32 rhs;
      next ← edit_step d lhs_chars c state off;
      match next with
      | None => Some (pd_max_distance d + 1)
      | Some (state, off) => edit_loop n d lhs_chars rhs state off
      end
  end.
Definition edit_distance_up_to (d : parametric_description) (lhs rhs : list Z) : option Z :=
  '(_, lhs_chars) ← ToUTF32 false lhs;
  edit_loop (length rhs) d lhs_chars rhs 1 0.

(** The overload that checks its words: [None] in the result is a word that is not valid. *)
Fixpoint edit_loop_checked (n : nat) (d : parametric_description) (lhs_chars rhs : list Z) (state off : Z) : option (option Z) :=
  match rhs, n with
  | [], _ => Some <$> pd_distance_at d state (Z.of_nat (length lhs_chars) -[64] off)
  | _, O => None
  | _, S n =>
      '(c, rhs) ← ToChar32_checked rhs;
      if c =? kInvalidChar32 then Some None
      else
        next ← edit_step d lhs_chars c state off;
        match next with
        | None => Some (Some (pd_max_distance d + 1))
        | Some (state, off) => edit_loop_checked n d lhs_chars rhs state off
        end
  end.
Definition edit_distance_checked (d : parametric_description) (lhs rhs : list Z) : option (option Z) :=
  '(valid, lhs_chars) ← ToUTF32 true lhs;
  if valid : bool then edit_loop_checked (length rhs) d lhs_chars rhs 1 0 else Some None.
