(* ===== verification/LevenshteinStates.v ===== *)
(** * The states of Levenshtein automata

    What the construction of a description makes of states: the positions that a transition adds, up to subsumption;
    the bounds of states, by which there are finitely many of them, so that the construction ends; the table it builds. *)
From S2P Require Import Prelude BitUtils Levenshtein.

(** ** Subsumption is a preorder *)

Lemma abs_diff_abs x y : abs_diff x y = Z.abs (x - y).
Proof. unfold abs_diff. bdestruct_all; lia. Qed.

Lemma subsumes_spec p q : subsumes p q = true <->
  Z.abs (offset p - offset q) + distance_ p <= distance_ q /\
  (transpose p = false -> transpose q = true -> Z.abs (offset p - offset q) + distance_ p < distance_ q).
Proof.
  unfold subsumes. cbv zeta. rewrite abs_diff_abs. destruct (transpose p), (transpose q); cbn [orb negb]; rewrite ?Z.leb_le, ?Z.ltb_lt; intuition (try congruence; lia).
Qed.

Lemma subsumes_refl p : subsumes p p = true.
Proof. apply subsumes_spec. split; [lia|congruence]. Qed.

Lemma subsumes_trans p q r : subsumes p q = true -> subsumes q r = true -> subsumes p r = true.
Proof.
  rewrite !subsumes_spec. intros [H1 H2] [H3 H4]. split; [lia|]. intros Ep Er. destruct (transpose q) eqn:Eq.
  - specialize (H2 Ep eq_refl). lia.
  - specialize (H4 eq_refl Er). lia.
Qed.

(** ** Additions to a state *)

Section swap_remove.
Context {A : Type}.

Lemma swap_remove_perm i (l : list A) x : l !! i = Some x -> l ≡ₚ x :: swap_remove i l.
Proof.
  intros Hi. pose proof (lookup_lt_Some _ _ _ Hi) as Hlt. unfold swap_remove. destruct l as [|b l0 _] using rev_ind; [done|].
  rewrite last_snoc. rewrite length_app in *. cbn [length] in *. replace (length l0 + 1 - 1)%nat with (length l0) by lia.
  destruct (decide (i = length l0)) as [->|].
  - rewrite list_lookup_middle in Hi by done. injection Hi as ->. rewrite insert_app_r_alt by lia. rewrite Nat.sub_diag. cbn. rewrite take_app_length. apply Permutation_app_comm.
  - rewrite insert_app_l by lia. rewrite lookup_app_l in Hi by lia. rewrite take_app_le by (rewrite length_insert; lia).
    rewrite take_ge by (rewrite length_insert; lia). rewrite insert_take_drop by lia. rewrite <-(take_drop_middle l0 i x Hi) at 1.
    rewrite <-app_assoc. cbn [app]. rewrite <-Permutation_middle. constructor. apply Permutation_app_head. apply Permutation_app_comm.
Qed.
End swap_remove.

(** [grows G m m']: [m'] is [m] with the positions of [G], up to subsumption. *)
Record grows (G : position -> Prop) (m m' : parametric_state) : Prop := {
  gr_from : forall x, x ∈ m' -> x ∈ m \/ G x;
  gr_all : forall x, x ∈ m \/ G x -> exists p, p ∈ m' /\ subsumes p x = true;
  gr_nodup : NoDup m -> NoDup m';
}.

Lemma grows_none (G : position -> Prop) m : (forall x, G x -> False) -> grows G m m.
Proof. intros HG. split; [by left| |done]. intros x [Hx|Hx]; [|by destruct (HG x)]. exists x. split; [done|apply subsumes_refl]. Qed.

Lemma grows_then (G1 G2 G : position -> Prop) m m1 m2 : grows G1 m m1 -> grows G2 m1 m2 -> (forall x, G x <-> G1 x \/ G2 x) -> grows G m m2.
Proof.
  intros [F1 A1 N1] [F2 A2 N2] HG. split; [| |auto].
  - intros x Hx. rewrite HG. destruct (F2 x Hx) as [H|H]; [|tauto]. destruct (F1 x H); tauto.
  - intros x Hx. rewrite HG in Hx. assert (exists p, p ∈ m1 /\ subsumes p x = true \/ G2 x) as (p & Hp).
    { destruct Hx as [Hx|[Hx|Hx]]; [| |by exists x; right]; (destruct (A1 x) as (p & Hp); [tauto|]; exists p; by left). }
    destruct Hp as [[Hp Hs]|Hp].
    + destruct (A2 p (or_introl Hp)) as (q & Hq & Hqs). exists q. split; [done|]. by apply (subsumes_trans q p x).
    + apply A2. by right.
Qed.

Lemma grows_seq (G1 G2 : position -> Prop) m m1 m2 : grows G1 m m1 -> grows G2 m1 m2 -> grows (fun x => G1 x \/ G2 x) m m2.
Proof. intros H1 H2. by apply (grows_then G1 G2 _ m m1 m2 H1 H2). Qed.

Lemma grows_if (b : bool) (G : position -> Prop) m m' : (b = true -> grows G m m') -> grows (fun x => b = true /\ G x) m (if b then m' else m).
Proof.
  intros H. destruct b; [|by apply grows_none; intros x [? _]]. destruct (H eq_refl) as [F A N]. split; [|intros x Hx; apply A; tauto|done].
  intros x Hx. destruct (F x Hx); tauto.
Qed.

Lemma grows_iff (G G' : position -> Prop) m m' : grows G m m' -> (forall x, G x <-> G' x) -> grows G' m m'.
Proof. intros [F A N] HG. split; [|intros x; rewrite <-HG; apply A|done]. intros x Hx. rewrite <-HG. by apply F. Qed.

Lemma remove_subsumed_spec new n : forall begin m, (length m <= n + begin)%nat -> exists gone,
  m ≡ₚ remove_subsumed n begin new m ++ gone /\ Forall (fun x => subsumes new x = true) gone.
Proof.
  induction n as [|n IH]; intros begin m Hn.
  { exists []. cbn. rewrite app_nil_r. by split. }
  cbn [remove_subsumed]. destruct (m !! begin) as [pos|] eqn:E; [|exists []; rewrite app_nil_r; by split]. pose proof (lookup_lt_Some _ _ _ E) as Hlt.
  destruct (subsumes new pos) eqn:Es.
  - pose proof (swap_remove_perm _ _ _ E) as Hp. pose proof (Permutation_length Hp) as Hlen. cbn [length] in Hlen.
    destruct (IH begin (swap_remove begin m) ltac:(lia)) as (gone & Hg & Hall). exists (pos :: gone). split; [|by constructor].
    rewrite Hp, Hg at 1. by rewrite Permutation_middle.
  - apply IH. lia.
Qed.

Lemma grows_emplace new m : grows (fun x => x = new) m (emplace new m).
Proof.
  unfold emplace. destruct (existsb (fun pos => subsumes pos new) m) eqn:E.
  - apply existsb_exists in E as (p & Hp & Hs). apply list_elem_of_In in Hp. split; [tauto| |done]. intros x [Hx| ->].
    + exists x. split; [done|apply subsumes_refl].
    + by exists p.
  - destruct (remove_subsumed_spec new (length m) 0 m ltac:(lia)) as (gone & Hp & Hg). set (r := remove_subsumed (length m) 0 new m) in *.
    assert (forall x, x ∈ m <-> x ∈ r \/ x ∈ gone) as Hm by (intros x; by rewrite Hp, elem_of_app).
    split.
    + intros x. rewrite elem_of_app, list_elem_of_singleton, Hm. tauto.
    + intros x Hx. destruct Hx as [Hx| ->].
      * apply Hm in Hx as [Hx|Hx]; [exists x; rewrite elem_of_app; split; [by left|apply subsumes_refl]|].
        exists new. rewrite elem_of_app, list_elem_of_singleton. rewrite Forall_forall in Hg. split; [by right|]. apply Hg. done.
      * exists new. rewrite elem_of_app, list_elem_of_singleton. split; [by right|apply subsumes_refl].
    + rewrite Hp. rewrite NoDup_app. intros (Hr & _). apply NoDup_app. split; [done|]. split; [|apply NoDup_singleton].
      intros x Hx. rewrite list_elem_of_singleton. intros ->. assert (existsb (fun pos => subsumes pos new) m = true); [|congruence].
      apply existsb_exists. exists new. split; [apply list_elem_of_In, Hm; by left|apply subsumes_refl].
Qed.

(** ** Transitions *)

Section transitions.
Context (d : Z) (t : bool).

(** The positions that [pos] leads to; [bit m] says that the character is the one [m] places behind the position. *)
Inductive elementary (pos : position) (bit : Z -> bool) : position -> Prop :=
  | el_match : bit 0 = true -> elementary pos bit (mkPosition (offset pos + 1) (distance_ pos) false)
  | el_swap : bit 0 = true -> transpose pos = true -> elementary pos bit (mkPosition (offset pos + 2) (distance_ pos) false)
  | el_insert : distance_ pos < d -> elementary pos bit (mkPosition (offset pos) (distance_ pos + 1) false)
  | el_substitute : distance_ pos < d -> elementary pos bit (mkPosition (offset pos + 1) (distance_ pos + 1) false)
  | el_delete m : 1 <= m <= d - distance_ pos -> bit m = true -> elementary pos bit (mkPosition (offset pos + 1 + m) (distance_ pos + m) false)
  | el_transpose : distance_ pos < d -> t = true -> bit 1 = true -> elementary pos bit (mkPosition (offset pos) (distance_ pos + 1) true).

Lemma grows_deletions pos chi n : forall j m, 1 <= j -> j + Z.of_nat n <= 64 ->
  grows (fun x => exists i, j <= i < j + Z.of_nat n /\ Z.testbit chi i = true /\ x = mkPosition (offset pos + 1 + i) (distance_ pos + i) false) m
    (add_deletions n j pos chi m).
Proof.
  induction n as [|n IH]; intros j m Hj Hn; [apply grows_none; intros x (i & ? & _); lia|]. cbn [add_deletions]. eapply grows_then.
  - apply (grows_if (Bit.check_bit 64 chi j)). intros _. apply grows_emplace.
  - apply (IH (j + 1)); lia.
  - intros x. rewrite Bit.check_bit_testbit by lia. split.
    + intros (i & Hi & Hb & ->). destruct (decide (i = j)) as [->|]; [by left|right]. exists i. split; [lia|done].
    + intros [[Hb ->]|(i & Hi & Hb & ->)]; [exists j|exists i]; (split; [lia|done]).
Qed.

Lemma grows_elementary pos chi m : 0 <= d <= 31 -> 0 <= distance_ pos <= d ->
  grows (elementary pos (Z.testbit chi)) m (add_elementary_transitions m pos chi d t).
Proof.
  intros Hd Hp. unfold add_elementary_transitions. rewrite !Bit.check_bit_testbit by lia. cbv zeta.
  eapply grows_then; [apply (grows_if (Z.testbit chi 0)); intros _|apply (grows_if (distance_ pos <? d)); intros Hlt%Z.ltb_lt|].
  - eapply grows_seq; [apply grows_emplace|apply (grows_if (transpose pos)); intros _; apply grows_emplace].
  - eapply grows_seq; [eapply grows_seq; [eapply grows_seq; apply grows_emplace|apply (grows_deletions pos chi (Z.to_nat (d - distance_ pos)) 1); lia]
      |apply (grows_if (t && Z.testbit chi 1)); intros _; apply grows_emplace].
  - intros x. cbv beta. rewrite andb_true_iff, Z.ltb_lt. split.
    + intros [| | | |i Hi|]; [tauto|tauto|tauto|tauto| |tauto]. right. split; [lia|]. left. right. exists i. split; [lia|done].
    + intros [[Hb [->|[Ht ->]]]|[Hlt [[[->| ->]|(i & Hi & Hb & ->)]|[[Ht Hb] ->]]]]; constructor; try done. lia.
Qed.

(** The positions that a state leads to *)
Definition reached (from : parametric_state) (cv : Z) (x : position) : Prop :=
  exists p, p ∈ from /\ elementary p (fun m => Z.testbit cv (offset p + m)) x.

Definition in_box (p : position) : Prop := 0 <= offset p <= 2 * d /\ 0 <= distance_ p <= d.

Lemma elementary_bits p bit bit' x : (forall m, 0 <= m -> bit m = bit' m) -> elementary p bit x <-> elementary p bit' x.
Proof.
  intros E. split; intros [| | | |m|]; constructor; try done; try lia; first [rewrite <-E by lia; done|rewrite E by lia; done].
Qed.

Lemma sort_perm m : sort_positions m ≡ₚ m.
Proof. apply merge_sort_Permutation. Qed.

Lemma add_transition_grows from cv : 0 <= d <= 31 -> Forall in_box from -> grows (reached from cv) [] (add_transition from cv d t).
Proof.
  intros Hd Hbox. unfold add_transition. set (step := fun _ _ => _).
  assert (forall m, grows (reached from cv) m (foldl step m from)) as Hf.
  { induction Hbox as [|p from [Hp1 Hp2] _ IH]; intros m; [apply grows_none; by intros x (p & Hp%elem_of_nil & _)|]. cbn [foldl]. eapply grows_then.
    - by apply (grows_elementary p (Z.shiftr cv (offset p))).
    - apply IH.
    - intros x. rewrite (elementary_bits p _ (fun m => Z.testbit cv (offset p + m)) x) by (intros i Hi; rewrite Z.shiftr_spec by lia; f_equal; lia).
      split; [intros (q & [->|Hq]%elem_of_cons & Hx); [by left|right; by exists q]|].
      intros [Hx|(q & Hq & Hx)]; [exists p|exists q]; rewrite elem_of_cons; tauto. }
  destruct (Hf []) as [F A N]. split.
  - intros x. rewrite sort_perm. apply F.
  - intros x Hx. destruct (A x Hx) as (p & Hp & Hs). exists p. by rewrite sort_perm.
  - intros Hn. rewrite sort_perm. by apply N.
Qed.

(** ** Bounds

    The positions of a state are around some place, each as far as its distance. *)
Definition around (w : Z) (p : position) : Prop :=
  0 <= distance_ p <= d /\ Z.abs (offset p - w) <= distance_ p /\ (transpose p = true -> Z.abs (offset p - (w - 1)) <= distance_ p - 1).

Lemma elementary_around w p bit x : around w p -> elementary p bit x -> around (w + 1) x.
Proof.
  intros (H1 & H2 & H3) [| | | | |]; unfold around; cbn [offset distance_ transpose]; try (split; [lia|split; [lia|congruence]]).
  - specialize (H3 ltac:(done)). split; [lia|split; [lia|congruence]].
  - split; [lia|split; [lia|]]. intros _. lia.
Qed.

Definition good_state (m : parametric_state) : Prop :=
  NoDup m /\ Forall (fun p => 0 <= offset p) m /\ (m <> [] -> exists p, p ∈ m /\ offset p = 0) /\ exists w, Forall (around w) m.

Lemma good_in_box m : good_state m -> Forall in_box m.
Proof.
  intros (_ & H0 & Hmin & w & Hw). rewrite Forall_forall in *. intros p Hp. destruct (Hmin ltac:(by intros ->; apply elem_of_nil in Hp)) as (p0 & Hp0 & E0).
  destruct (Hw p Hp) as (H1 & H2 & _). destruct (Hw p0 Hp0) as (H3 & H4 & _). specialize (H0 p Hp). split; lia.
Qed.

Lemma min_offset_spec m : (forall p, p ∈ m -> min_offset m <= offset p) /\ (m <> [] -> exists p, p ∈ m /\ offset p = min_offset m) /\ (m = [] -> min_offset m = 0).
Proof.
  destruct m as [|p m]; [split; [by intros p Hp%elem_of_nil|done]|]. cbn [min_offset].
  assert (forall l a, (exists x, x ∈ p :: m /\ offset x = a) -> l ⊆ p :: m -> exists x, x ∈ p :: m /\ offset x = foldl (fun m pos => Z.min m (offset pos)) a l /\
    foldl (fun m pos => Z.min m (offset pos)) a l <= a /\ forall y, y ∈ l -> foldl (fun m pos => Z.min m (offset pos)) a l <= offset y) as H.
  { induction l as [|q l IH]; intros a (x & Hx & Ea) Hl; [exists x; split; [done|]; split; [done|]; split; [done|by intros y Hy%elem_of_nil]|]. cbn [foldl].
    destruct (IH (Z.min a (offset q))) as (y & Hy & Ey & Hle & Hall).
    - destruct (decide (offset q <= a)); [exists q; split; [apply Hl; by left|lia]|exists x; split; [done|lia]].
    - intros y Hy. apply Hl. by right.
    - exists y. split; [done|]. split; [done|]. split; [lia|]. intros z [->|Hz]%elem_of_cons; [lia|by apply Hall]. }
  destruct (H m (offset p)) as (x & Hx & Ex & Hle & Hall); [exists p; split; [by left|done]|by intros y Hy; right|].
  split; [|split; [|done]]; [intros q [->|Hq]%elem_of_cons; [done|by apply Hall]|]. intros _. by exists x.
Qed.

Definition shift (k : Z) (p : position) : position := mkPosition (offset p - k) (distance_ p) (transpose p).

Lemma normalize_spec m : exists m', normalize m = (min_offset m, m') /\ m' ≡ₚ map (shift (min_offset m)) m.
Proof. eexists. split; [reflexivity|]. apply sort_perm. Qed.

(** The state behind a transition, and where it is *)
Lemma next_state from cv off to : 0 <= d <= 31 -> good_state from -> normalize (add_transition from cv d t) = (off, to) ->
  good_state to /\ 0 <= off /\ grows (reached from cv) [] (map (shift (- off)) to).
Proof.
  intros Hd Hfrom E. pose proof (good_in_box _ Hfrom) as Hbox. pose proof (add_transition_grows from cv Hd Hbox) as Hg.
  set (m := add_transition from cv d t) in *. clearbody m. destruct (normalize_spec m) as (m' & E' & Hp). rewrite E in E'. injection E' as -> ->.
  destruct (min_offset_spec m) as (Hle & Hmin & Hnil). set (k := min_offset m) in *. clearbody k. destruct Hg as [F A N].
  assert (forall x, x ∈ m -> exists p, p ∈ from /\ elementary p (fun i => Z.testbit cv (offset p + i)) x) as HF by (intros x Hx; by destruct (F x Hx) as [Hx'%elem_of_nil|]).
  destruct Hfrom as (_ & H0 & _ & w & Hw). rewrite Forall_forall in H0, Hw.
  assert (forall x, x ∈ m -> 0 <= offset x) as Hm0.
  { intros x Hx. destruct (HF x Hx) as (p & Hpf & Hel). specialize (H0 p Hpf). destruct Hel; cbn; lia. }
  assert (0 <= k) as Hk0.
  { destruct m as [|x m]; [by rewrite (Hnil eq_refl)|]. destruct (Hmin ltac:(done)) as (p & Hpm & <-). by apply Hm0. }
  assert (Inj eq eq (shift k)) as Hinj by (intros [o1 e1 t1] [o2 e2 t2] Es; injection Es as E1 -> ->; f_equal; cbn in E1; lia).
  split; [|split; [done|]].
  - split; [|split; [|split]].
    + rewrite Hp. apply NoDup_fmap_2; [done|]. apply N. constructor.
    + rewrite Hp. apply Forall_forall. intros x (y & -> & Hy)%list_elem_of_fmap. cbn. specialize (Hle y Hy). lia.
    + intros Hne. destruct Hmin as (p & Hpm & Ep). { intros ->. apply Hne. by apply Permutation_nil_r in Hp. }
      exists (shift k p). rewrite Hp. split; [by apply list_elem_of_fmap_2|cbn; lia].
    + exists (w + 1 - k). rewrite Hp. apply Forall_forall. intros x (y & -> & Hy)%list_elem_of_fmap. destruct (HF y Hy) as (p & Hpf & Hel).
      destruct (elementary_around w p _ y (Hw p Hpf) Hel) as (H1 & H2 & H3). unfold around. cbn [offset distance_ transpose shift].
      split; [lia|]. split; [lia|]. intros E1. specialize (H3 E1). lia.
  - assert (map (shift (- k)) m' ≡ₚ m) as Hback.
    { rewrite Hp. rewrite map_map.
      rewrite <-(map_id m) at 2. erewrite map_ext; [done|]. intros [o e b]. unfold shift. cbn. f_equal. lia. }
    split.
    + intros x. rewrite Hback. apply F.
    + intros x Hx. destruct (A x Hx) as (p & Hpm & Hs). exists p. by rewrite Hback.
    + intros _. rewrite Hback. apply N. constructor.
Qed.
End transitions.

(** ** There are finitely many states *)

Lemma position_lt_spec p q : position_lt p q = true <->
  offset p < offset q \/ offset p = offset q /\ (distance_ p < distance_ q \/ distance_ p = distance_ q /\ transpose p = false /\ transpose q = true).
Proof.
  unfold position_lt. destruct (Z.eqb_spec (offset p) (offset q)); [destruct (Z.eqb_spec (distance_ p) (distance_ q))|].
  - rewrite andb_true_iff, negb_true_iff. intuition lia.
  - rewrite Z.ltb_lt. intuition lia.
  - rewrite Z.ltb_lt. intuition lia.
Qed.

Lemma position_le_spec p q : position_le p q <->
  offset p < offset q \/ offset p = offset q /\ (distance_ p < distance_ q \/ distance_ p = distance_ q /\ (transpose p = true -> transpose q = true)).
Proof.
  unfold position_le. rewrite <-not_true_iff_false, position_lt_spec. destruct (transpose p), (transpose q); intuition (try congruence; lia).
Qed.

#[global] Instance position_le_trans : Transitive position_le.
Proof. intros p q r. rewrite !position_le_spec. intuition lia. Qed.
#[global] Instance position_le_total : Total position_le.
Proof.
  intros p q. rewrite !position_le_spec. destruct (Z.lt_trichotomy (offset p) (offset q)) as [|[|]]; [tauto| |tauto].
  destruct (Z.lt_trichotomy (distance_ p) (distance_ q)) as [|[|]]; [tauto| |intuition lia]. destruct (transpose p), (transpose q); intuition lia.
Qed.
#[global] Instance position_le_antisymm : AntiSymm eq position_le.
Proof.
  intros [o1 e1 t1] [o2 e2 t2]. rewrite !position_le_spec. cbn [offset distance_ transpose]. intros H1 H2.
  assert (o1 = o2) as -> by lia. assert (e1 = e2) as -> by lia. f_equal.
  destruct H1 as [?|[_ [?|[_ H1]]]], H2 as [?|[_ [?|[_ H2]]]]; try lia. destruct t1, t2; try done; [by specialize (H1 eq_refl)|by specialize (H2 eq_refl)].
Qed.

Section finite.
Context (d : Z) (Hd : 0 <= d <= 31).

Definition index (p : position) : Z := (offset p * (d + 1) + distance_ p) * 2 + Z.b2z (transpose p).
Definition state_bits : Z := 2 * ((2 * d + 1) * (d + 1)).
Definition mask (m : parametric_state) : Z := foldr (fun p z => Z.lor (2 ^ index p) z) 0 m.

Lemma index_bound p : in_box d p -> 0 <= index p < state_bits.
Proof using Hd. unfold in_box, index, state_bits. intros [H1 H2]. destruct (transpose p); cbn [Z.b2z]; nia. Qed.

Lemma index_inj p q : in_box d p -> in_box d q -> index p = index q -> p = q.
Proof using Hd.
  destruct p as [o1 e1 t1], q as [o2 e2 t2]. unfold in_box, index. cbn [offset distance_ transpose]. intros [H1 H2] [H3 H4] E.
  assert (t1 = t2) as -> by (destruct t1, t2; cbn [Z.b2z] in E; try done; lia). assert (o1 = o2) as -> by nia. f_equal. lia.
Qed.

Lemma mask_testbit m i : Forall (in_box d) m -> 0 <= i -> Z.testbit (mask m) i = true <-> exists p, p ∈ m /\ index p = i.
Proof using Hd.
  intros Hm Hi. induction Hm as [|p m Hp _ IH]; [cbn; rewrite Z.bits_0; split; [done|intros (p & Hp%elem_of_nil & _); done]|].
  cbn [mask foldr]. fold (mask m). pose proof (index_bound p Hp). rewrite Z.lor_spec, Z.pow2_bits_eqb, orb_true_iff, Z.eqb_eq, IH by lia. split.
  - intros [<-|(q & Hq & E)]; [exists p|exists q]; rewrite elem_of_cons; tauto.
  - intros (q & [->|Hq]%elem_of_cons & E); [by left|right; by exists q].
Qed.

Lemma mask_bound m : Forall (in_box d) m -> 0 <= mask m < 2 ^ state_bits.
Proof using Hd.
  intros Hm. assert (0 <= state_bits) by (unfold state_bits; nia). induction Hm as [|p m Hp _ IH]; [cbn; split; [lia|by apply pow2_pos]|]. cbn [mask foldr]. fold (mask m).
  pose proof (index_bound p Hp) as Hi. assert (0 <= 2 ^ index p < 2 ^ state_bits) as [Ha Hb] by (split; [lia|apply Z.pow_lt_mono_r; lia]).
  split; [apply Z.lor_nonneg; lia|]. destruct (Z.eq_dec (Z.lor (2 ^ index p) (mask m)) 0) as [->|Hne]; [by apply pow2_pos|].
  apply Z.log2_lt_pow2; [pose proof (proj2 (Z.lor_nonneg (2 ^ index p) (mask m)) (conj Ha (proj1 IH))); lia|]. rewrite Z.log2_lor by tauto.
  apply Z.max_lub_lt; [rewrite Z.log2_pow2; lia|]. destruct (Z.eq_dec (mask m) 0) as [->|]; [cbn; lia|]. apply Z.log2_lt_pow2; lia.
Qed.

Definition sorted_state (m : parametric_state) : Prop := good_state d m /\ Sorted position_le m.

Lemma mask_inj m m' : sorted_state m -> sorted_state m' -> mask m = mask m' -> m = m'.
Proof using Hd.
  intros [Hg Hs] [Hg' Hs'] E. pose proof (good_in_box d m Hg) as Hb. pose proof (good_in_box d m' Hg') as Hb'.
  apply (Sorted_unique position_le); [done..|]. apply NoDup_Permutation; [apply Hg|apply Hg'|].
  assert (forall a b, Forall (in_box d) a -> Forall (in_box d) b -> mask a = mask b -> forall x, x ∈ a -> x ∈ b) as Hsub.
  { intros a b Ha Hb1 Eab x Hx. rewrite Forall_forall in Ha. pose proof (index_bound x (Ha x Hx)) as Hi.
    assert (Z.testbit (mask b) (index x) = true) as Ht by (rewrite <-Eab; apply mask_testbit; [by apply Forall_forall|lia|by exists x]).
    apply mask_testbit in Ht as (y & Hy & Ey); [|done|lia]. rewrite Forall_forall in Hb1. by rewrite <-(index_inj y x (Hb1 y Hy) (Ha x Hx) Ey). }
  intros x. split; by apply Hsub.
Qed.

Lemma states_bound states : NoDup states -> Forall sorted_state states -> Z.of_nat (length states) <= 2 ^ state_bits.
Proof using Hd.
  intros Hn Hs. assert (NoDup (map mask states)) as Hnm.
  { induction Hn as [|m states Hm _ IH]; [constructor|]. inversion_clear Hs as [|? ? H1 H2]. cbn [map]. constructor; [|by apply IH].
    intros (m' & E & Hm')%list_elem_of_fmap. rewrite Forall_forall in H2. apply Hm. by rewrite (mask_inj m m' H1 (H2 m' Hm') E). }
  assert (map mask states ⊆ seqZ 0 (2 ^ state_bits)) as Hsub.
  { intros z (m & -> & Hm)%list_elem_of_fmap. rewrite Forall_forall in Hs. destruct (Hs m Hm) as [Hg _]. pose proof (mask_bound m (good_in_box d m Hg)). apply elem_of_seqZ. lia. }
  pose proof (submseteq_length _ _ (NoDup_submseteq _ _ Hnm Hsub)) as Hlen. rewrite length_map, length_seqZ in Hlen. pose proof (mask_bound [] (Forall_nil_2 _)). lia.
Qed.
End finite.

(** ** The construction of the table *)

Section build.
Context (d : Z) (Hd : 0 <= d <= 31) (t : bool).

Definition initial_state : parametric_state := [mkPosition 0 0 false].

(** The states of the automaton *)
Inductive reachable : parametric_state -> Prop :=
  | reach_none : reachable []
  | reach_initial : reachable initial_state
  | reach_next from chi : reachable from -> 0 <= chi < chi_max (chi_size d) -> reachable (normalize (add_transition from chi d t)).2.

(** States are numbered in the order in which they were found, and are different. *)
Record states_ok (states : list parametric_state) : Prop := {
  so_first : exists rest, states = [] :: initial_state :: rest;
  so_nodup : NoDup states;
  so_states : Forall (sorted_state d) states;
  so_reachable : Forall reachable states;
}.

Lemma sort_sorted m : Sorted position_le (sort_positions m).
Proof. apply (Sorted_merge_sort position_le). Qed.

Lemma states_ok_init : states_ok [[]; initial_state].
Proof using Hd.
  split; [by exists []| | |repeat constructor].
  - constructor; [by intros ?%list_elem_of_singleton|apply NoDup_singleton].
  - constructor; [|constructor; [|constructor]].
    + split; [|constructor]. split; [constructor|]. split; [constructor|]. split; [done|]. exists 0. constructor.
    + split; [|repeat constructor]. split; [apply NoDup_singleton|]. split; [repeat constructor; done|]. split.
      * intros _. exists (mkPosition 0 0 false). by split; [left|].
      * exists 0. constructor; [|constructor]. unfold around. cbn. split; [lia|]. split; [lia|done].
Qed.

Lemma next_sorted from cv off to : good_state d from -> normalize (add_transition from cv d t) = (off, to) -> sorted_state d to.
Proof using Hd.
  intros Hf E. split; [by eapply next_state|]. unfold normalize in E. injection E as _ <-. apply sort_sorted.
Qed.

(** The map does not move its entries when it has no more of them than there are states. *)
Definition fixed (moves : Z -> Z -> bool) : Prop := forall all, NoDup all -> Forall reachable all -> forall n, n <= Z.of_nat (length all) ->
  moves (predict_num_states d t) n = false.

(** What the construction keeps of [parametric_states] *)
Record tracked (moves : Z -> Z -> bool) (states : parametric_states) : Prop := {
  tr_states : states_ok (ps_states states);
  tr_capacity : ps_capacity states = predict_num_states d t;
  tr_valid : fixed moves -> ps_valid states = 0%nat;
}.

Lemma emplace_state_spec moves to states : tracked moves states -> sorted_state d to -> reachable to -> exists id ext states',
  emplace_state moves to states = (wrap 32 (Z.of_nat id), states') /\ tracked moves states' /\ ps_states states' = ps_states states ++ ext /\
  ps_states states' !! id = Some to.
Proof.
  intros [[Hf Hn Hs Hr] Hcap Hv] Hto Hreach. unfold emplace_state. destruct (list_find (eq to) (ps_states states)) as [[i x]|] eqn:E.
  - apply list_find_Some in E as (Ei & <- & _). exists i, [], states. rewrite app_nil_r. by split; [|split].
  - apply list_find_None in E. eexists (length (ps_states states)), [to], _. split; [done|]. cbn [ps_states].
    assert (states_ok (ps_states states ++ [to])) as Hok.
    { split.
      - destruct Hf as (rest & ->). by exists (rest ++ [to]).
      - apply NoDup_app. split; [done|]. split; [|apply NoDup_singleton]. intros x Hx ->%list_elem_of_singleton. rewrite Forall_forall in E. by apply (E to Hx).
      - by apply Forall_app_2; [|constructor].
      - by apply Forall_app_2; [|constructor]. }
    split; [|split; [done|by rewrite list_lookup_middle]]. split; [done|done|]. cbn [ps_valid]. intros Hfix.
    rewrite Hcap, (Hfix _ (so_nodup _ Hok) (so_reachable _ Hok)) by (rewrite length_app; cbn; lia). by apply Hv.
Qed.

Lemma states_at_spec moves states i from : tracked moves states -> ps_states states !! i = Some from ->
  states_at states i = Some from \/ states_at states i = None /\ ~ fixed moves.
Proof.
  intros [_ _ Hv] Hi. unfold states_at. destruct (Nat.ltb_spec i (ps_valid states)); [|by left]. right. split; [done|]. intros Hfix%Hv. lia.
Qed.

(** The entry of the table for a state and a characteristic vector *)
Definition entry_ok (states : list parametric_state) (from : parametric_state) (chi : Z) (entry : Z * Z) : Prop :=
  exists off to id, normalize (add_transition from chi d t) = (off, to) /\ states !! id = Some to /\ entry = (wrap 32 (Z.of_nat id), off).

Lemma transition_ok_app states ext from chi entry : entry_ok states from chi entry -> entry_ok (states ++ ext) from chi entry.
Proof. intros (off & to & id & E & Hid & ->). exists off, to, id. split; [done|]. split; [by apply lookup_app_l_Some|done]. Qed.

Lemma add_transitions_spec moves from_id from : good_state d from -> reachable from -> forall n chi states, tracked moves states ->
  ps_states states !! from_id = Some from -> 0 <= chi -> chi + Z.of_nat n <= chi_max (chi_size d) ->
  match add_transitions moves n chi d t from_id states with
  | Some (row, states') => exists ext, ps_states states' = ps_states states ++ ext /\ tracked moves states' /\ length row = n /\
      forall k entry, row !! k = Some entry -> entry_ok (ps_states states') from (chi + Z.of_nat k) entry
  | None => ~ fixed moves
  end.
Proof using Hd.
  intros Hf Hreach. induction n as [|n IH]; intros chi states Hs Hat H0 Hmax.
  { exists []. rewrite app_nil_r. by split; [|split; [|split]]. }
  cbn [add_transitions]. destruct (states_at_spec moves states from_id from Hs Hat) as [->|[-> Hno]]; [|done]. cbn [mbind option_bind].
  destruct (normalize (add_transition from chi d t)) as [off to] eqn:E.
  destruct (emplace_state_spec moves to states Hs (next_sorted _ _ _ _ Hf E)) as (id & ext & states1 & -> & Hs1 & E1 & Hid).
  { change to with (off, to).2. rewrite <-E. apply reach_next; [done|lia]. }
  specialize (IH (chi + 1) states1 Hs1 ltac:(rewrite E1; by apply lookup_app_l_Some) ltac:(lia) ltac:(lia)).
  destruct (add_transitions moves n (chi + 1) d t from_id states1) as [[row states2]|]; [|done]. cbn [mbind option_bind].
  destruct IH as (ext' & E2 & Hs2 & Hl & Hrow). exists (ext ++ ext'). split; [by rewrite E2, E1, app_assoc|]. split; [done|]. split; [cbn; lia|]. intros [|k] entry Hk.
  - injection Hk as <-. exists off, to, id. rewrite Z.add_0_r. split; [done|]. split; [|done]. rewrite E2. by apply lookup_app_l_Some.
  - replace (chi + Z.of_nat (S k)) with (chi + 1 + Z.of_nat k) by lia. by apply Hrow.
Qed.

Definition chi_count : nat := Z.to_nat (chi_max (chi_size d)).

Lemma chi_max_pow : chi_max (chi_size d) = 2 ^ (2 * d + 1).
Proof using Hd.
  unfold chi_max, chi_size. rewrite Z.shiftl_mul_pow2, Z.mul_1_l by lia. apply wrap_small. unfold is_word. split; [lia|]. apply Z.pow_lt_mono_r; lia.
Qed.

(** The table of the first [m] states *)
Record table_ok (states : list parametric_state) (transitions : list (Z * Z)) (m : nat) : Prop := {
  tb_states : states_ok states;
  tb_length : length transitions = (m * chi_count)%nat;
  tb_count : (m <= length states)%nat;
  tb_entries : forall s from c entry, (s < m)%nat -> states !! s = Some from -> (c < chi_count)%nat ->
    transitions !! (s * chi_count + c)%nat = Some entry -> entry_ok states from (Z.of_nat c) entry;
}.

Lemma table_row moves states transitions m : tracked moves states -> table_ok (ps_states states) transitions m -> (m < length (ps_states states))%nat ->
  match add_transitions moves chi_count 0 d t m states with
  | Some (row, states') => tracked moves states' /\ table_ok (ps_states states') (transitions ++ row) (S m)
  | None => ~ fixed moves
  end.
Proof using Hd.
  intros Htr [Hs Hl Hc He] Hm. destruct (lookup_lt_is_Some_2 _ _ Hm) as (from & Hfrom).
  pose proof (so_states _ Hs) as Hall. rewrite Forall_forall in Hall. destruct (Hall from ltac:(by eapply list_elem_of_lookup_2)) as [Hgood _].
  pose proof (so_reachable _ Hs) as Hreach. rewrite Forall_forall in Hreach.
  assert (0 < chi_max (chi_size d)) as Hmax by (rewrite chi_max_pow; apply pow2_pos; lia).
  pose proof (add_transitions_spec moves m from Hgood (Hreach from ltac:(by eapply list_elem_of_lookup_2)) chi_count 0 states Htr Hfrom ltac:(done)
    ltac:(unfold chi_count; lia)) as Hadd.
  destruct (add_transitions moves chi_count 0 d t m states) as [[row states']|]; [|done].
  destruct Hadd as (ext & E & Hs' & Hlr & Hrow). split; [done|]. rewrite E in *. split.
  - rewrite <-E. by apply (tr_states moves).
  - rewrite length_app. lia.
  - rewrite length_app. lia.
  - intros s f c entry Hsm Hf Hcc Hentry. destruct (decide (s = m)) as [->|].
    + rewrite lookup_app_l in Hf by lia. rewrite Hfrom in Hf. injection Hf as <-. rewrite lookup_app_r in Hentry by lia.
      replace (m * chi_count + c - length transitions)%nat with c in Hentry by lia. exact (Hrow c entry Hentry).
    + rewrite lookup_app_l in Hf by lia. rewrite lookup_app_l in Hentry by (rewrite Hl; nia). apply transition_ok_app. apply (He s f c entry); [lia|done..].
Qed.

(** The loop over the states ends with the table of all states that were found or of the predicted number of them. *)
Definition stopped (states : list parametric_state) (m : nat) : Prop :=
  m = length states \/ predict_num_states d t <> 0 /\ Z.of_nat m = predict_num_states d t.

Definition building moves (st : parametric_states * list (Z * Z) * nat) : Prop := tracked moves st.1.1 /\ table_ok (ps_states st.1.1) st.1.2 st.2.
Definition finished moves (r : parametric_states * list (Z * Z)) : Prop :=
  tracked moves r.1 /\ exists m, table_ok (ps_states r.1) r.2 m /\ stopped (ps_states r.1) m.

Lemma states_round_spec moves st : building moves st ->
  match states_round moves d t st with
  | Some (inl st') => building moves st' /\ st'.2 = S st.2
  | Some (inr r) => finished moves r
  | None => ~ fixed moves
  end.
Proof using Hd.
  destruct st as [[states transitions] m]. intros [Htr Ht]. cbn [fst snd] in *. pose proof (tb_count _ _ _ Ht). unfold states_round.
  destruct (Nat.eqb_spec m (length (ps_states states))) as [Em|Em]; [split; [done|]; exists m; split; [done|by left]|].
  pose proof (table_row moves states transitions m Htr Ht ltac:(lia)) as Hrow. unfold chi_count in Hrow.
  destruct (add_transitions moves (Z.to_nat (chi_max (chi_size d))) 0 d t m states) as [[row states']|]; [|done]. cbn [mbind option_bind].
  destruct Hrow as [Htr' Ht']. destruct (negb (predict_num_states d t =? 0) && _) eqn:Est; [|by split].
  split; [done|]. exists (S m). split; [done|]. right. apply andb_true_iff in Est as [Hnz%negb_true_iff%Z.eqb_neq Hlen%Z.eqb_eq]. split; [done|].
  cbn [snd] in *. rewrite (tb_length _ _ _ Ht') in Hlen. unfold chi_count in Hlen. pose proof (pow2_pos (2 * d + 1) ltac:(lia)) as Hp. rewrite <-chi_max_pow in Hp.
  rewrite Nat2Z.inj_mul, Z2Nat.id in Hlen by lia. nia.
Qed.

(** Two states are there before the loop. *)
Lemma building_init moves : exists states, (let '(from_id, states) := emplace_state moves [] (states_make (predict_num_states d t)) in
    let '(_, states) := emplace_state moves initial_state states in (states, @nil (Z * Z), Z.to_nat from_id)) = (states, [], 0%nat) /\
  building moves (states, [], 0%nat).
Proof using Hd.
  unfold emplace_state at 1, states_make. cbn [ps_states list_find length ps_capacity ps_valid app Z.of_nat].
  unfold emplace_state. cbn [ps_states ps_capacity ps_valid]. assert (list_find (eq initial_state) [[]] = None) as -> by reflexivity.
  eexists. split; [done|]. split; cbn [fst snd].
  - split; [apply states_ok_init|done|]. cbn [ps_valid length]. intros Hfix. pose proof states_ok_init as Hok.
    rewrite !(Hfix _ (so_nodup _ Hok) (so_reachable _ Hok)) by (cbn; lia). done.
  - split; [apply states_ok_init|done|cbn; lia|]. intros s from c entry Hs. lia.
Qed.

Lemma build_partial moves states r : building moves (states, [], 0%nat) -> iterate (states_fuel d) (states_round moves d t) (states, [], 0%nat) = Some r ->
  finished moves r.
Proof using Hd.
  apply (iterate_partial (building moves) (finished moves)). intros st r' Hb Hr. pose proof (states_round_spec moves st Hb) as H. rewrite Hr in H.
  destruct r'; [by destruct H|done].
Qed.

Lemma build_total moves states : fixed moves -> building moves (states, [], 0%nat) ->
  exists r, iterate (states_fuel d) (states_round moves d t) (states, [], 0%nat) = Some r /\ finished moves r.
Proof using Hd.
  intros Hfix Hb. assert (0 <= state_bits d) as Hsb by (unfold state_bits; nia).
  apply (iterate_rule (building moves) (fun st => 2 ^ state_bits d + 1 - Z.of_nat st.2) (finished moves)); [|done|].
  - intros st Hst. pose proof Hst as [_ Ht]. pose proof (states_bound d Hd _ (so_nodup _ (tb_states _ _ _ Ht)) (so_states _ (tb_states _ _ _ Ht))) as Hbound.
    pose proof (tb_count _ _ _ Ht). split; [lia|]. pose proof (states_round_spec moves st Hst) as H1.
    destruct (states_round moves d t st) as [[st'|r]|]; [|by eexists|done]. destruct H1 as [H1 E]. eexists. split; [done|]. split; [done|lia].
  - cbn [fst snd]. unfold states_fuel, state_bits in *. rewrite Z2Nat.id by lia. rewrite Z.pow_add_r by lia.
    assert (2 ^ 1 <= 2 ^ (2 * ((2 * d + 1) * (d + 1)))) by (apply Z.pow_le_mono_r; nia). lia.
Qed.

(** A list of states that has the first two and the next states of all its states has all states. *)
Definition closed (states : list parametric_state) : Prop :=
  [] ∈ states /\ initial_state ∈ states /\
  forall from chi, from ∈ states -> 0 <= chi < chi_max (chi_size d) -> (normalize (add_transition from chi d t)).2 ∈ states.

Lemma reachable_closed states st : closed states -> reachable st -> st ∈ states.
Proof using Type. intros (H1 & H2 & H3). induction 1; auto. Qed.

Lemma table_closed states transitions : table_ok states transitions (length states) -> closed states.
Proof using Hd.
  intros [Hs Hl _ He]. destruct (so_first _ Hs) as (rest & E). split; [rewrite E; left|]. split; [rewrite E; right; left|].
  intros from chi (s & Hfrom)%list_elem_of_lookup Hchi. pose proof (lookup_lt_Some _ _ _ Hfrom) as Hlt.
  assert (Z.to_nat chi < chi_count)%nat as Hc by (unfold chi_count; lia).
  destruct (lookup_lt_is_Some_2 transitions (s * chi_count + Z.to_nat chi)%nat ltac:(rewrite Hl; nia)) as (entry & Hentry).
  destruct (He s from (Z.to_nat chi) entry Hlt Hfrom Hc Hentry) as (off & to & id & En & Hid & _). rewrite Z2Nat.id in En by lia.
  rewrite En. by eapply list_elem_of_lookup_2.
Qed.

(** A table for which as many states are predicted as there are is complete. *)
Lemma table_complete states transitions m all : table_ok states transitions m -> stopped states m -> NoDup all -> Forall reachable all -> closed all ->
  Z.of_nat (length all) = predict_num_states d t -> m = length states /\ Z.of_nat m = predict_num_states d t.
Proof using Hd.
  intros Ht Hstop Hn Hr Hc Hall. pose proof (tb_states _ _ _ Ht) as Hs. pose proof (tb_count _ _ _ Ht) as Hm.
  assert (length states <= length all)%nat as Hle.
  { apply submseteq_length, NoDup_submseteq; [by apply so_nodup|]. intros st Hst. apply reachable_closed; [done|].
    pose proof (so_reachable _ Hs) as H. rewrite Forall_forall in H. by apply H. }
  destruct Hstop as [->|[_ E]]; [|lia]. split; [done|]. apply table_closed in Ht.
  assert (length all <= length states)%nat; [|lia]. apply submseteq_length, NoDup_submseteq; [done|]. intros st Hst. apply reachable_closed; [done|].
  rewrite Forall_forall in Hr. by apply Hr.
Qed.
End build.
