(* ===== verification/LevenshteinTables.v ===== *)
(** * Tables that are complete

    The construction of a table stops when it has as many states as are predicted. For the maximum distances that are used the predictions
    of utils/levenshtein_utils.cpp are the numbers of states: all states are listed here, each found from one before it, and the list is closed under
    transitions. *)
From stdpp Require Import pmap fin_maps.
From S2P Require Import Prelude BitUtils Levenshtein LevenshteinStates.

(** ** Lists of states *)

Section tables.
Context (d : Z) (t : bool).
#[local] Abbreviation next from chi := (normalize (add_transition from chi d t)).2.

(** The states that are found one after the other, each from a state before it by a characteristic vector *)
Fixpoint found (all : list parametric_state) (discoveries : list (nat * Z)) : list parametric_state :=
  match discoveries with
  | [] => all
  | (from, chi) :: discoveries => found (all ++ [next (nth from all []) chi]) discoveries
  end.

Lemma found_reachable discoveries : forallb (fun x => (0 <=? x.2) && (x.2 <? chi_max (chi_size d))) discoveries = true ->
  forall all, Forall (reachable d t) all -> Forall (reachable d t) (found all discoveries).
Proof using Type.
  induction discoveries as [|[from chi] discoveries IH]; intros Hd all Hall; [done|]. cbn [forallb found snd] in *.
  apply andb_true_iff in Hd as [[H1%Z.leb_le H2%Z.ltb_lt]%andb_true_iff Hd]. apply IH; [done|]. apply Forall_app_2; [done|]. constructor; [|done].
  apply reach_next; [|done]. destruct (nth_in_or_default from all []) as [Hin| ->]; [|constructor]. rewrite Forall_forall in Hall. by apply Hall, list_elem_of_In.
Qed.

(** A key of a state in a search tree; two states with the same key are told apart by comparing them. *)
Definition key (st : parametric_state) : positive :=
  Z.to_pos (foldl (fun k pos => k * 256 + (offset pos * 16 + distance_ pos * 2 + Z.b2z (transpose pos))) 1 st).
Definition tree (all : list parametric_state) : Pmap parametric_state := list_to_map (map (fun st => (key st, st)) all).
Definition member (states : Pmap parametric_state) (st : parametric_state) : bool :=
  match states !! key st with Some st' => bool_decide (st = st') | None => false end.
Definition check_row (states : Pmap parametric_state) (from : parametric_state) : bool :=
  forallb (fun chi => member states (next from chi)) (seqZ 0 (chi_max (chi_size d))).
Definition check_all (all : list parametric_state) : bool :=
  let states := tree all in
  member states [] && member states initial_state && bool_decide (NoDup (map key all)) && forallb (check_row states) all.

Lemma member_elem all st : member (tree all) st = true -> st ∈ all.
Proof using Type.
  unfold member, tree. destruct (_ !! key st) as [st'|] eqn:E; [|done]. intros ->%bool_decide_eq_true_1.
  apply elem_of_list_to_map_2 in E. apply list_elem_of_fmap in E as (x & [= _ ->] & Hx). done.
Qed.

Lemma check_all_spec all : check_all all = true -> NoDup all /\ closed d t all.
Proof using Type.
  unfold check_all. intros [[[H1 H2]%andb_true_iff H3%bool_decide_eq_true_1]%andb_true_iff H4]%andb_true_iff. split; [by apply (NoDup_fmap_1 key)|].
  split; [by apply member_elem|]. split; [by apply member_elem|]. intros from chi Hfrom Hchi. apply member_elem. rewrite forallb_forall in H4.
  specialize (H4 from ltac:(by apply list_elem_of_In)). unfold check_row in H4. rewrite forallb_forall in H4. apply H4, list_elem_of_In, elem_of_seqZ. lia.
Qed.
End tables.

(** ** Predictions *)

(** The predicted number is the number of states. *)
Definition predicted (d : Z) (t : bool) : Prop :=
  exists all, NoDup all /\ Forall (reachable d t) all /\ closed d t all /\ Z.of_nat (length all) = predict_num_states d t.

(** A hash map does not move its entries as long as there are no more than it was reserved for. *)
Definition reserved (moves : Z -> Z -> bool) : Prop := forall capacity n, n <= capacity -> moves capacity n = false.

Lemma predicted_fixed d t moves : predicted d t -> reserved moves -> fixed d t moves.
Proof.
  intros (all & _ & _ & Hc & Hlen) Hres all' Hn Hr n Hle. apply Hres. rewrite <-Hlen. etrans; [exact Hle|]. apply inj_le.
  apply submseteq_length, NoDup_submseteq; [done|]. intros st Hst. apply (reachable_closed d t); [done|]. rewrite Forall_forall in Hr. by apply Hr.
Qed.

(** ** The discoveries of a table *)

(** The places of a table at which a new state appears *)
Fixpoint new_places (next place : Z) (transitions : list (Z * Z)) : list Z :=
  match transitions with
  | [] => []
  | (to, _) :: transitions => if to =? next then place :: new_places (next + 1) (place + 1) transitions else new_places next (place + 1) transitions
  end.
Definition discoveries (d : Z) (t : bool) : list (nat * Z) :=
  match make_parametric_description (fun _ _ => false) d t with
  | Some desc => map (fun place => (Z.to_nat (place / pd_chi_max desc), place mod pd_chi_max desc)) (new_places 2 0 (pd_transitions desc))
  | None => []
  end.

Definition discoveries_0 := Eval vm_compute in discoveries 0 false.
Definition discoveries_0t := Eval vm_compute in discoveries 0 true.
Definition discoveries_1 := Eval vm_compute in discoveries 1 false.
Definition discoveries_1t := Eval vm_compute in discoveries 1 true.
Definition discoveries_2 := Eval vm_compute in discoveries 2 false.
Definition discoveries_2t := Eval vm_compute in discoveries 2 true.
Definition discoveries_3 := Eval vm_compute in discoveries 3 false.

(** The maximum distances, and whether transpositions count, for which all states are listed *)
Definition built : list (Z * bool) := [(0, false); (0, true); (1, false); (1, true); (2, false); (2, true); (3, false)].

Definition check_table (d : Z) (t : bool) (ds : list (nat * Z)) : bool :=
  forallb (fun x => (0 <=? x.2) && (x.2 <? chi_max (chi_size d))) ds &&
  (Z.of_nat (length (found d t [[]; initial_state] ds)) =? predict_num_states d t) && check_all d t (found d t [[]; initial_state] ds).

Lemma check_table_spec d t ds : check_table d t ds = true -> predicted d t.
Proof.
  unfold check_table. intros [[H1 H2%Z.eqb_eq]%andb_true_iff [H3 H4]%check_all_spec]%andb_true_iff. exists (found d t [[]; initial_state] ds). split; [done|]. split; [|done].
  apply found_reachable; [done|]. repeat constructor.
Qed.

Lemma tables_0 : check_table 0 false discoveries_0 && check_table 0 true discoveries_0t = true.
Proof. vm_compute. reflexivity. Qed.
Lemma tables_1 : check_table 1 false discoveries_1 && check_table 1 true discoveries_1t = true.
Proof. vm_compute. reflexivity. Qed.
Lemma table_2 : check_table 2 false discoveries_2 = true.
Proof. vm_compute. reflexivity. Qed.
Lemma table_2t : check_table 2 true discoveries_2t = true.
Proof. vm_compute. reflexivity. Qed.
Lemma table_3 : check_table 3 false discoveries_3 = true.
Proof. vm_compute. reflexivity. Qed.

Lemma built_predicted d t : (d, t) ∈ built -> predicted d t.
Proof.
  pose proof tables_0 as [T1 T2]%andb_true_iff. pose proof tables_1 as [T3 T4]%andb_true_iff. unfold built. rewrite !elem_of_cons, elem_of_nil.
  intros [H|[H|[H|[H|[H|[H|[H|[]]]]]]]]; injection H as -> ->; eapply check_table_spec;
    [exact T1|exact T2|exact T3|exact T4|exact table_2|exact table_2t|exact table_3].
Qed.
