(* ===== verification/LevenshteinDistance.v ===== *)
(** * Levenshtein automata compute distances

    What a state stands for: behind the characters [w] of one word, the positions of the state say, up to the maximum distance, how
    far every prefix of the other word is from [w] ([represents]). A transition keeps this ([represents_step]), so the table of a description
    computes distances, with transpositions of neighbours or without. *)
From S2P Require Import Prelude BitUtils Outcome BytesIO Streams FileStreams StoreUtils Coding Utf8 EditDistance Levenshtein LevenshteinStates LevenshteinTables.

(** ** Rows of distances *)

Section row.
Context (t : bool) (l : list Z).
Implicit Types w v : list Z.

Definition D w (i : Z) : Z := Z.of_nat (dist t 1 (rev (take (Z.to_nat i) l)) (rev w)).
Definition len : Z := Z.of_nat (length l).
Definition char (i : Z) : option Z := l !! Z.to_nat i.

Lemma char_in i : 0 <= i < len -> exists x, char i = Some x.
Proof. intros Hi. apply lookup_lt_is_Some_2. unfold len in Hi. lia. Qed.
Lemma char_bound i x : char i = Some x -> i < len.
Proof. intros Hi%lookup_lt_Some. unfold len. lia. Qed.

Lemma prefix_next i x : 0 <= i -> char i = Some x -> rev (take (Z.to_nat (i + 1)) l) = x :: rev (take (Z.to_nat i) l).
Proof. intros Hi Hx. replace (Z.to_nat (i + 1)) with (S (Z.to_nat i)) by lia. by rewrite (take_S_r _ _ _ Hx), rev_app_distr. Qed.

Lemma D_pos w i : 0 <= D w i.
Proof. unfold D. lia. Qed.

Lemma D_nil i : 0 <= i <= len -> D [] i = i.
Proof. intros Hi. unfold D, len in *. cbn [rev]. rewrite dist_nil_r, length_rev, length_take. lia. Qed.

Lemma D_zero w : D w 0 = Z.of_nat (length w).
Proof. unfold D. change (Z.to_nat 0) with 0%nat. rewrite take_0. cbn [rev]. change (dist t 1 [] (rev w)) with (length (rev w)). by rewrite length_rev. Qed.

Lemma rev_snoc w c : rev (w ++ [c]) = c :: rev w.
Proof. by rewrite rev_app_distr. Qed.

Lemma D_insert w c i : D (w ++ [c]) i <= D w i + 1.
Proof. unfold D. rewrite rev_snoc. pose proof (dist_insert t 1 (rev (take (Z.to_nat i) l)) c (rev w)). lia. Qed.

Lemma D_delete w i : 0 <= i < len -> D w (i + 1) <= D w i + 1.
Proof.
  intros Hi. destruct (char_in i Hi) as (x & Hx). unfold D. rewrite (prefix_next i x) by (done || lia).
  pose proof (dist_delete t 1 x (rev (take (Z.to_nat i) l)) (rev w)). lia.
Qed.

Lemma D_shorter w i : 0 <= i < len -> D w i <= D w (i + 1) + 1.
Proof.
  intros Hi. destruct (char_in i Hi) as (x & Hx). unfold D. rewrite (prefix_next i x) by (done || lia).
  pose proof (dist_tail t 1 x (rev (take (Z.to_nat i) l)) (rev w)). lia.
Qed.

(** Neighbours in a row differ by one at most. *)
Lemma D_lipschitz w i j : 0 <= i <= len -> 0 <= j <= len -> D w i <= D w j + Z.abs (i - j).
Proof.
  assert (forall k i, 0 <= i -> i + Z.of_nat k <= len -> D w (i + Z.of_nat k) <= D w i + Z.of_nat k /\ D w i <= D w (i + Z.of_nat k) + Z.of_nat k) as H.
  { induction k as [|k IH]; intros a Ha Hk; [rewrite Z.add_0_r; lia|]. destruct (IH a ltac:(lia) ltac:(lia)) as [H1 H2].
    pose proof (D_delete w (a + Z.of_nat k) ltac:(lia)) as H3. pose proof (D_shorter w (a + Z.of_nat k) ltac:(lia)) as H4.
    replace (a + Z.of_nat (S k)) with (a + Z.of_nat k + 1) by lia. lia. }
  intros Hi Hj. destruct (Z.le_ge_cases i j).
  - destruct (H (Z.to_nat (j - i)) i ltac:(lia) ltac:(lia)) as [_ H2]. replace (i + Z.of_nat (Z.to_nat (j - i))) with j in H2 by lia. lia.
  - destruct (H (Z.to_nat (i - j)) j ltac:(lia) ltac:(lia)) as [H1 _]. replace (j + Z.of_nat (Z.to_nat (i - j))) with i in H1 by lia. lia.
Qed.

Lemma D_base w c i x : 0 <= i -> char i = Some x -> D (w ++ [c]) (i + 1) <= D w i + (if decide (x = c) then 0 else 1).
Proof.
  intros Hi Hx. unfold D. rewrite (prefix_next i x), rev_snoc by done. pose proof (dist_base t 1 x (rev (take (Z.to_nat i) l)) c (rev w)). case_decide; lia.
Qed.

Lemma D_substitute w c i : 0 <= i < len -> D (w ++ [c]) (i + 1) <= D w i + 1.
Proof. intros Hi. destruct (char_in i Hi) as (x & Hx). pose proof (D_base w c i x ltac:(lia) Hx). case_decide; lia. Qed.

Lemma D_match w c i : 0 <= i -> char i = Some c -> D (w ++ [c]) (i + 1) <= D w i.
Proof. intros Hi Hx. pose proof (D_base w c i c Hi Hx) as H. rewrite decide_True in H by done. lia. Qed.

Lemma D_swap v a c j : t = true -> 0 <= j -> char (j + 1) = Some a -> char j = Some c -> D ((v ++ [a]) ++ [c]) (j + 2) <= D v j + 1.
Proof.
  intros Ht Hj Ha Hc. unfold D. replace (j + 2) with (j + 1 + 1) by lia. rewrite (prefix_next (j + 1) a), (prefix_next j c), !rev_snoc by (done || lia).
  rewrite dist_cons. cbv zeta. rewrite Ht, bool_decide_eq_true_2 by done. cbn [andb]. lia.
Qed.

(** How a distance comes about *)
Lemma D_cases w c i : 0 <= i < len ->
  D (w ++ [c]) (i + 1) = D (w ++ [c]) i + 1 \/ D (w ++ [c]) (i + 1) = D w (i + 1) + 1 \/ D (w ++ [c]) (i + 1) = D w i + 1 \/
  char i = Some c /\ D (w ++ [c]) (i + 1) = D w i \/
  t = true /\ exists v a j, w = v ++ [a] /\ i = j + 1 /\ 0 <= j /\ char i = Some a /\ char j = Some c /\ D (w ++ [c]) (i + 1) = D v j + 1.
Proof.
  intros Hi. destruct (char_in i Hi) as (x & Hx). unfold D. rewrite (prefix_next i x), rev_snoc by (done || lia). rewrite dist_cons. cbv zeta.
  set (l0 := rev (take (Z.to_nat i) l)). set (base := Nat.min _ _).
  assert (base = dist t 1 l0 (c :: rev w) + 1 \/ base = dist t 1 (x :: l0) (rev w) + 1 \/ base = dist t 1 l0 (rev w) + 1 \/ x = c /\ base = dist t 1 l0 (rev w))%nat as Hbase
    by (unfold base; case_decide; lia).
  assert (Z.of_nat base = Z.of_nat (dist t 1 l0 (c :: rev w)) + 1 \/ Z.of_nat base = Z.of_nat (dist t 1 (x :: l0) (rev w)) + 1 \/
    Z.of_nat base = Z.of_nat (dist t 1 l0 (rev w)) + 1 \/ char i = Some c /\ Z.of_nat base = Z.of_nat (dist t 1 l0 (rev w))) as Hb.
  { destruct Hbase as [->|[->|[->|[-> ->]]]]; [left|right; left|right; right; left|right; right; right; split; [done|]]; lia. }
  clear Hbase. destruct l0 as [|x2 l2] eqn:El; [tauto|].
  destruct (rev w) as [|y w2] eqn:Ew; [tauto|]. destruct (t && bool_decide (x = y /\ x2 = c)) eqn:E; [|tauto].
  apply andb_true_iff in E as [Et [-> ->]%bool_decide_eq_true]. destruct (Nat.min_spec base (dist t 1 l2 w2 + 1)) as [[_ ->]|[_ ->]]; [tauto|].
  right; right; right; right. split; [done|]. assert (w = rev w2 ++ [y]) as -> by (rewrite <-(rev_involutive w), Ew; done).
  assert (0 < i) as Hpos by (destruct (Z.eq_dec i 0) as [->|]; [unfold l0 in El; by rewrite take_0 in El|lia]).
  destruct (char_in (i - 1) ltac:(lia)) as (z & Hz). unfold l0 in El. replace i with (i - 1 + 1) in El at 1 by lia. rewrite (prefix_next (i - 1) z) in El by (done || lia).
  injection El as -> El. exists (rev w2), y, (i - 1). split; [done|]. split; [lia|]. split; [lia|]. split; [done|]. split; [done|]. rewrite El, rev_involutive. lia.
Qed.
End row.

(** ** What a state stands for *)

Section represents.
Context (t : bool) (l : list Z) (d : Z) (Hd : 0 <= d <= 31).
#[local] Abbreviation D := (D t l).
#[local] Abbreviation n := (len l).
#[local] Abbreviation char := (char l).
Implicit Types (M N : list position) (w v : list Z).

Definition far (p : position) (i : Z) : Z := distance_ p + Z.abs (i - offset p).

(** The positions [M], with offsets in the word, stand for the row of [w]. *)
Record represents w M : Prop := {
  rp_sound : forall p, p ∈ M -> offset p <= n -> D w (offset p) <= distance_ p;
  rp_complete : forall i, 0 <= i <= n -> D w i <= d -> exists p, p ∈ M /\ far p i <= D w i;
  rp_beyond : forall p, p ∈ M -> n < offset p -> exists q, q ∈ M /\ offset q <= n /\ far q n <= distance_ p;
  rp_around : forall p, p ∈ M -> around d (Z.of_nat (length w)) p /\ 0 <= offset p;
  rp_swap : forall p, p ∈ M -> transpose p = true ->
    t = true /\ exists v a, w = v ++ [a] /\ char (offset p + 1) = Some a /\ D v (offset p) <= distance_ p - 1;
  rp_swaps : t = true -> forall v a j, w = v ++ [a] -> 0 <= j -> char (j + 1) = Some a -> D v j + 1 <= d ->
    (exists p, p ∈ M /\ transpose p = true /\ offset p = j /\ distance_ p <= D v j + 1) \/
    D w j <= D v j \/ D w (j + 1) <= D v j \/ D w (j + 2) <= D v j;
}.

(** A position bounds all the distances of the row. *)
Lemma far_sound w M p i : represents w M -> p ∈ M -> 0 <= i <= n -> D w i <= far p i.
Proof using Hd.
  intros [Hs _ Hb Ha _ _] Hp Hi. assert (forall q, q ∈ M -> offset q <= n -> D w i <= far q i) as H.
  { intros q Hq Hle. specialize (Hs q Hq Hle). destruct (Ha q Hq) as [_ H0]. pose proof (D_lipschitz t l w i (offset q) Hi ltac:(lia)). unfold far. lia. }
  destruct (Z.le_gt_cases (offset p) n) as [|Hgt]; [by apply H|]. destruct (Hb p Hp Hgt) as (q & Hq & Hle & Hf). specialize (H q Hq Hle). unfold far in *. lia.
Qed.

Lemma represents_init : represents [] [mkPosition 0 0 false].
Proof using Hd.
  assert (0 <= n) by (unfold len; lia). split.
  - intros p ->%list_elem_of_singleton Hle. cbn in *. rewrite D_nil by lia. lia.
  - intros i Hi _. exists (mkPosition 0 0 false). split; [by left|]. rewrite D_nil by done. unfold far. cbn. lia.
  - intros p ->%list_elem_of_singleton. cbn. lia.
  - intros p ->%list_elem_of_singleton. unfold around. cbn. split; [|done]. split; [lia|]. split; [lia|done].
  - by intros p ->%list_elem_of_singleton.
  - intros _ v a j E. by destruct v.
Qed.

(** ** A transition *)

Section step.
Context (w : list Z) (c : Z) (M : list position) (bit : position -> Z -> bool) (HM : represents w M)
  (Hbit : forall p m, p ∈ M -> 0 <= m <= d - distance_ p -> bit p m = true <-> char (offset p + m) = Some c).
#[local] Abbreviation w' := (w ++ [c]).

Definition generated (x : position) : Prop := exists p, p ∈ M /\ elementary d t p (bit p) x.
Definition covered (i k : Z) : Prop := exists x, generated x /\ far x i <= k.

Lemma bounds p : p ∈ M -> 0 <= distance_ p <= d /\ 0 <= offset p.
Proof using HM. intros Hp. destruct (rp_around w M HM p Hp) as [(H1 & _) H2]. by split. Qed.

Lemma covered_insert i : 0 <= i <= n -> D w i + 1 <= d -> covered i (D w i + 1).
Proof using HM.
  intros Hi Hle. destruct (rp_complete w M HM i Hi ltac:(lia)) as (p & Hp & Hf). pose proof (bounds p Hp). unfold far in Hf.
  eexists. split; [exists p; split; [done|]; apply el_insert; lia|]. unfold far. cbn. lia.
Qed.

Lemma covered_substitute i : 0 <= i < n -> D w i + 1 <= d -> covered (i + 1) (D w i + 1).
Proof using HM.
  intros Hi Hle. destruct (rp_complete w M HM i ltac:(lia) ltac:(lia)) as (p & Hp & Hf). pose proof (bounds p Hp). unfold far in Hf.
  eexists. split; [exists p; split; [done|]; apply el_substitute; lia|]. unfold far. cbn. lia.
Qed.

Lemma covered_match i : 0 <= i < n -> char i = Some c -> D w i <= d -> covered (i + 1) (D w i).
Proof using HM Hbit.
  intros Hi Hc Hle. destruct (rp_complete w M HM i ltac:(lia) Hle) as (p & Hp & Hf). pose proof (bounds p Hp). unfold far in Hf.
  destruct (Z.lt_trichotomy i (offset p)) as [Hlt|[E|Hgt]].
  - eexists. split; [exists p; split; [done|]; apply el_insert; lia|]. unfold far. cbn. lia.
  - eexists. split; [exists p; split; [done|]; apply el_match, Hbit; [done|lia|by rewrite Z.add_0_r, <-E]|]. unfold far. cbn. lia.
  - eexists. split; [exists p; split; [done|]; apply (el_delete d t p (bit p) (i - offset p)); [lia|]; apply Hbit; [done|lia|]|].
    + by replace (offset p + (i - offset p)) with i by lia.
    + unfold far. cbn. lia.
Qed.

Lemma covered_delete i k : covered i k -> covered (i + 1) (k + 1).
Proof. intros (x & Hx & Hf). exists x. split; [done|]. unfold far in *. lia. Qed.

Lemma covered_le i k k' : covered i k -> k <= k' -> covered i k'.
Proof. intros (x & Hx & Hf) Hle. exists x. split; [done|lia]. Qed.

Lemma generated_complete i : 0 <= i <= n -> D w' i <= d -> covered i (D w' i).
Proof using HM Hbit Hd.
  intros Hi. replace i with (Z.of_nat (Z.to_nat i)) in * by lia. generalize dependent (Z.to_nat i). clear i. intros i0. induction i0 as [|i IH]; intros Hi Hle.
  - change (Z.of_nat 0) with 0 in *. rewrite D_zero, length_app in *. cbn [length] in *. eapply covered_le; [apply covered_insert; [done|]|]; rewrite D_zero; lia.
  - replace (Z.of_nat (S i)) with (Z.of_nat i + 1) in * by lia. specialize (IH ltac:(lia)). pose proof (D_pos t l w' (Z.of_nat i)).
    destruct (D_cases t l w c (Z.of_nat i) ltac:(lia)) as [E|[E|[E|[[Hc E]|(Ht & v & a & j & Ew & Ej & Hj & Ha & Hc & E)]]]]; rewrite E in Hle |- *.
    + apply covered_delete, IH. lia.
    + apply covered_insert; lia.
    + apply covered_substitute; lia.
    + apply covered_match; [lia|done..].
    + destruct (rp_swaps w M HM Ht v a j Ew Hj ltac:(by rewrite <-Ej) Hle) as [(p & Hp & Htp & Eo & Hdp)|[H1|[H1|H1]]].
      * pose proof (bounds p Hp). eexists. split; [exists p; split; [done|]; apply el_swap; [|done]; apply Hbit; [done|lia|by rewrite Z.add_0_r, Eo]|]. unfold far. cbn. lia.
      * pose proof (D_match t l w c j Hj Hc) as Hm. rewrite Ej in IH |- *. eapply covered_le; [apply covered_delete, IH; lia|lia].
      * rewrite Ej. eapply covered_le; [apply covered_substitute; lia|lia].
      * replace (Z.of_nat i + 1) with (j + 2) by lia. eapply covered_le; [apply covered_insert; lia|lia].
Qed.

Lemma generated_sound x : generated x -> offset x <= n -> D w' (offset x) <= distance_ x.
Proof using HM Hbit Hd.
  intros (p & Hp & Hx) Hle. pose proof (bounds p Hp) as [Hb H0].
  destruct Hx as [Hm|Hm Ht|Hlt|Hlt|m Hm Hbm|Hlt Ht Hb1]; cbn [offset distance_] in *.
  - apply Hbit in Hm; [|done|lia]. rewrite Z.add_0_r in Hm. pose proof (D_match t l w c _ H0 Hm). pose proof (far_sound w M p (offset p) HM Hp ltac:(pose proof (char_bound _ _ _ Hm); lia)).
    unfold far in *. lia.
  - apply Hbit in Hm; [|done|lia]. rewrite Z.add_0_r in Hm. destruct (rp_swap w M HM p Hp Ht) as (Htt & v & a & Ew & Ha & Hv).
    pose proof (D_swap t l v a c _ Htt H0 Ha Hm). rewrite Ew. lia.
  - pose proof (D_insert t l w c (offset p)). pose proof (rp_sound w M HM p Hp Hle). lia.
  - pose proof (D_substitute t l w c (offset p) ltac:(lia)). pose proof (rp_sound w M HM p Hp ltac:(lia)). lia.
  - apply Hbit in Hbm; [|done|lia]. pose proof (char_bound _ _ _ Hbm). pose proof (D_match t l w c (offset p + m) ltac:(lia) Hbm).
    pose proof (far_sound w M p (offset p + m) HM Hp ltac:(lia)). unfold far in *. replace (offset p + 1 + m) with (offset p + m + 1) by lia. lia.
  - pose proof (D_insert t l w c (offset p)). pose proof (rp_sound w M HM p Hp Hle). lia.
Qed.

Lemma generated_around x : generated x -> around d (Z.of_nat (length w')) x /\ 0 <= offset x.
Proof using HM.
  intros (p & Hp & Hx). destruct (rp_around w M HM p Hp) as [Ha H0]. rewrite length_app, Nat2Z.inj_add. split; [by eapply elementary_around|].
  destruct Hx; cbn; lia.
Qed.

Lemma generated_beyond x : generated x -> n < offset x -> exists y, generated y /\ offset y <= n /\ far y n <= distance_ x.
Proof using HM Hbit.
  assert (forall p, p ∈ M -> n < offset p -> distance_ p < d -> exists y, generated y /\ offset y <= n /\ far y n <= distance_ p + 1) as H.
  { intros p Hp Hgt Hlt. destruct (rp_beyond w M HM p Hp Hgt) as (q & Hq & Hle & Hf). pose proof (bounds q Hq). unfold far in Hf.
    eexists. split; [exists q; split; [done|]; apply el_insert; lia|]. unfold far. cbn. lia. }
  intros (p & Hp & Hx) Hgt. pose proof (bounds p Hp) as [Hb H0]. destruct Hx as [Hm|Hm Ht|Hlt|Hlt|m Hm Hbm|Hlt Ht Hb1]; cbn [offset distance_] in *.
  - apply Hbit in Hm; [|done|lia]. apply char_bound in Hm. lia.
  - destruct (rp_swap w M HM p Hp Ht) as (_ & v & a & _ & Ha & _). apply char_bound in Ha. lia.
  - by apply H.
  - destruct (Z.eq_dec (offset p) n) as [E|]; [|apply H; [done|lia|done]].
    eexists. split; [exists p; split; [done|]; by apply el_insert|]. unfold far. cbn. lia.
  - apply Hbit in Hbm; [|done|lia]. apply char_bound in Hbm. lia.
  - by apply H.
Qed.

Lemma generated_swap x : generated x -> transpose x = true ->
  t = true /\ exists v a, w' = v ++ [a] /\ char (offset x + 1) = Some a /\ D v (offset x) <= distance_ x - 1.
Proof using HM Hbit.
  intros (p & Hp & Hx) Ht. pose proof (bounds p Hp) as [Hb H0]. destruct Hx as [| | | | |Hlt Htt Hb1]; try done. cbn [offset distance_] in *.
  split; [done|]. exists w, c. apply Hbit in Hb1; [|done|lia]. split; [done|]. split; [done|]. pose proof (char_bound _ _ _ Hb1).
  pose proof (rp_sound w M HM p Hp ltac:(lia)). lia.
Qed.

Lemma generated_swaps j : t = true -> 0 <= j -> char (j + 1) = Some c -> D w j + 1 <= d ->
  (exists x, generated x /\ transpose x = true /\ offset x = j /\ distance_ x <= D w j + 1) \/ D w' j <= D w j \/ D w' (j + 1) <= D w j \/ D w' (j + 2) <= D w j.
Proof using HM Hbit Hd.
  intros Ht Hj Hc Hle. pose proof (char_bound _ _ _ Hc). destruct (rp_complete w M HM j ltac:(lia) ltac:(lia)) as (p & Hp & Hf). pose proof (bounds p Hp).
  unfold far in Hf. destruct (Z.lt_trichotomy (offset p) j) as [Hlt|[E|Hgt]].
  - right; left. pose proof (D_substitute t l w c (offset p) ltac:(lia)). pose proof (rp_sound w M HM p Hp ltac:(lia)).
    pose proof (D_lipschitz t l w' j (offset p + 1) ltac:(lia) ltac:(lia)). lia.
  - left. eexists. split; [exists p; split; [done|]; apply el_transpose; [lia|done|]; apply Hbit; [done|lia|by rewrite E]|]. cbn. split; [done|]. lia.
  - right; right; right. pose proof (D_match t l w c (j + 1) ltac:(lia) Hc). pose proof (far_sound w M p (j + 1) HM Hp ltac:(lia)). unfold far in *.
    replace (j + 2) with (j + 1 + 1) by lia. lia.
Qed.

(** The positions generated, up to subsumption, stand for the next row. *)
Lemma represents_step N : grows generated [] N -> represents w' N.
Proof using HM Hbit Hd.
  intros [F A _]. assert (forall x, x ∈ N -> generated x) as HN by (intros x Hx; by destruct (F x Hx) as [Hx'%elem_of_nil|]).
  assert (forall x, generated x -> exists p, p ∈ N /\ subsumes p x = true) as HA by (intros x Hx; apply A; by right).
  assert (forall p, p ∈ N -> n < offset p -> exists q, q ∈ N /\ offset q <= n /\ far q n <= distance_ p) as Hbeyond.
  { assert (forall k p, p ∈ N -> n < offset p -> distance_ p < Z.of_nat k -> exists q, q ∈ N /\ offset q <= n /\ far q n <= distance_ p) as H.
    { induction k as [|k IH]; intros p Hp Hgt Hk; [destruct (generated_around p (HN p Hp)) as [(? & _) _]; lia|].
      destruct (generated_beyond p (HN p Hp) Hgt) as (y & Hy & Hle & Hf). destruct (HA y Hy) as (q & Hq & Hs). apply subsumes_spec in Hs as [Hs _]. unfold far in *.
      destruct (Z.le_gt_cases (offset q) n) as [|Hgq]; [exists q; split; [done|]; split; [done|lia]|].
      destruct (IH q Hq Hgq ltac:(lia)) as (q' & Hq' & Hle' & Hf'). exists q'. split; [done|]. split; [done|lia]. }
    intros p Hp Hgt. destruct (generated_around p (HN p Hp)) as [(? & _) _]. apply (H (S (Z.to_nat (distance_ p)))); [done|done|lia]. }
  assert (forall p i, p ∈ N -> 0 <= i <= n -> D w' i <= far p i) as Hfar.
  { assert (forall q i, q ∈ N -> offset q <= n -> 0 <= i <= n -> D w' i <= far q i) as H.
    { intros q i Hq Hle Hi. pose proof (generated_sound q (HN q Hq) Hle). destruct (generated_around q (HN q Hq)) as [_ H0].
      pose proof (D_lipschitz t l w' i (offset q) Hi ltac:(lia)). unfold far. lia. }
    intros p i Hp Hi. destruct (Z.le_gt_cases (offset p) n) as [|Hgt]; [by apply H|]. destruct (Hbeyond p Hp Hgt) as (q & Hq & Hle & Hf).
    specialize (H q i Hq Hle Hi). unfold far in *. lia. }
  split; [intros p Hp; by apply generated_sound, HN| |done|intros p Hp; by apply generated_around, HN|intros p Hp; by apply generated_swap, HN|].
  - intros i Hi Hle. destruct (generated_complete i Hi Hle) as (x & Hx & Hf). destruct (HA x Hx) as (p & Hp & Hs). apply subsumes_spec in Hs as [Hs _].
    exists p. split; [done|]. unfold far in *. lia.
  - intros Ht v a j E Hj Ha Hle. apply app_inj_tail in E as [<- <-]. pose proof (char_bound _ _ _ Ha).
    destruct (generated_swaps j Ht Hj Ha Hle) as [(x & Hx & Htx & Eo & Hdx)|?]; [|by right].
    destruct (HA x Hx) as (p & Hp & Hs). apply subsumes_spec in Hs as [Hs1 Hs2]. destruct (transpose p) eqn:Htp.
    + destruct (Z.lt_trichotomy (offset p) j) as [Hlt|[Ep|Hgt]].
      * right; right; left. destruct (generated_swap p (HN p Hp) Htp) as (_ & v & a & E & Ha2 & Hv). apply app_inj_tail in E as [<- <-].
        destruct (generated_around p (HN p Hp)) as [_ H0]. pose proof (D_match t l w c (offset p + 1) ltac:(lia) Ha2). pose proof (D_delete t l w (offset p) ltac:(lia)).
        pose proof (D_lipschitz t l w' (j + 1) (offset p + 1 + 1) ltac:(lia) ltac:(lia)). lia.
      * left. exists p. split; [done|]. split; [done|]. split; [done|lia].
      * right; right; right. destruct (generated_swap p (HN p Hp) Htp) as (_ & v & a & E & Ha2 & Hv). apply app_inj_tail in E as [<- <-]. apply char_bound in Ha2.
        pose proof (D_match t l w c (j + 1) ltac:(lia) Ha). pose proof (D_lipschitz t l w (j + 1) (offset p) ltac:(lia) ltac:(lia)).
        replace (j + 2) with (j + 1 + 1) by lia. lia.
    + specialize (Hs2 eq_refl Htx). right; left. pose proof (Hfar p j Hp ltac:(lia)). unfold far in *. lia.
Qed.
End step.
End represents.

(** ** Characteristic vectors *)

Lemma chi_from_testbit c chars : forall i k, 0 <= i -> i + Z.of_nat (length chars) <= 64 -> 0 <= k ->
  Z.testbit (chi_from i chars c) k = bool_decide (i <= k /\ chars !! Z.to_nat (k - i) = Some c).
Proof.
  induction chars as [|x chars IH]; intros i k Hi Hl Hk.
  { cbn [chi_from]. rewrite Z.bits_0. symmetry. apply bool_decide_eq_false_2. intros [_ E]. by rewrite lookup_nil in E. }
  cbn [length] in Hl. cbn [chi_from]. rewrite Z.lor_spec, IH by lia. rewrite wrap_testbit, Z.shiftl_spec by lia.
  destruct (Z.lt_trichotomy k i) as [Hlt|[->|Hgt]].
  - rewrite (Z.testbit_neg_r _ (k - i)) by lia. rewrite andb_false_r. cbn [orb]. rewrite !bool_decide_eq_false_2 by lia. done.
  - rewrite Z.sub_diag. rewrite (bool_decide_eq_false_2 (i + 1 <= i /\ _)) by lia. rewrite orb_false_r. destruct (Z.ltb_spec i 64); [|lia]. cbn [andb].
    change (Z.to_nat 0) with 0%nat. cbn [lookup list_lookup]. destruct (Z.eqb_spec c x) as [->|Hne]; cbn [Z.b2z].
    + symmetry. by apply bool_decide_eq_true_2.
    + symmetry. apply bool_decide_eq_false_2. intros [_ [= ->]]. done.
  - assert (Z.testbit (Z.b2z (c =? x)) (k - i) = false) as -> by (destruct (c =? x); cbn [Z.b2z]; [apply (testbit_high 1); unfold is_word; lia|apply Z.bits_0]).
    rewrite andb_false_r. cbn [orb]. replace (Z.to_nat (k - i)) with (S (Z.to_nat (k - (i + 1)))) by lia. cbn [lookup list_lookup].
    apply bool_decide_ext. split; intros [? ?]; (split; [lia|done]).
Qed.

Lemma chi_from_nonneg c chars : forall i, 0 <= i -> 0 <= chi_from i chars c.
Proof.
  induction chars as [|x chars IH]; intros i Hi; [done|]. cbn [chi_from]. apply Z.lor_nonneg. split; [|apply IH; lia]. by apply wrap_range.
Qed.

Lemma low_bits_bound x k : 0 <= k -> (forall i, k <= i -> Z.testbit x i = false) -> 0 <= x -> x < 2 ^ k.
Proof.
  intros Hk Hb Hx. assert (wrap k x = x) as E; [|rewrite <-E; by apply wrap_range].
  apply Z.bits_inj'. intros i Hi. rewrite wrap_testbit by lia. destruct (Z.ltb_spec i k); [done|]. by rewrite Hb.
Qed.

Section window.
Context (desc : parametric_description) (d : Z) (Hd : 0 <= d <= 31) (Hdesc : pd_chi_size desc = 2 * d + 1) (l : list Z) (c off : Z) (Ho : 0 <= off).

Lemma window_lookup m x : window desc l off !! m = Some x <-> Z.of_nat m < 2 * d + 1 /\ char l (off + Z.of_nat m) = Some x.
Proof using Hd Hdesc Ho.
  unfold window, char. rewrite Hdesc, lookup_drop. replace (Z.to_nat (off + Z.of_nat m)) with (Z.to_nat off + m)%nat by lia.
  destruct (decide (Z.of_nat (Z.to_nat off + m) < Z.min (off + (2 * d + 1)) (Z.of_nat (length l)))).
  - rewrite lookup_take_lt by lia. intuition lia.
  - rewrite lookup_take_ge by lia. split; [done|]. intros [Hm Hx%lookup_lt_Some]. lia.
Qed.

Lemma window_length : (length (window desc l off) <= Z.to_nat (2 * d + 1))%nat.
Proof using Hd Hdesc Ho. unfold window. rewrite Hdesc, length_drop, length_take. lia. Qed.

Lemma chi_testbit m : 0 <= m -> Z.testbit (chi (window desc l off) c) m = true <-> m < 2 * d + 1 /\ char l (off + m) = Some c.
Proof using Hd Hdesc Ho.
  intros Hm. unfold chi. pose proof window_length. rewrite chi_from_testbit by lia. rewrite bool_decide_eq_true. rewrite Z.sub_0_r, window_lookup, Z2Nat.id by lia. intuition lia.
Qed.

Lemma chi_bound : 0 <= chi (window desc l off) c < 2 ^ (2 * d + 1).
Proof using Hd Hdesc Ho.
  assert (0 <= chi (window desc l off) c) as H0 by (by apply chi_from_nonneg). split; [done|]. apply low_bits_bound; [lia| |done].
  intros i Hi. apply not_true_iff_false. rewrite chi_testbit by lia. lia.
Qed.
End window.

(** ** The automaton over a word *)

Lemma bind_lookup {A B} (f : A -> list B) k (xs : list A) : (forall x, length (f x) = k) -> forall s j x, xs !! s = Some x -> (j < k)%nat ->
  (xs ≫= f) !! (s * k + j)%nat = f x !! j.
Proof.
  intros Hk. induction xs as [|y xs IH]; intros s j x Hs Hj; [done|]. rewrite bind_cons. destruct s as [|s].
  - injection Hs as ->. rewrite lookup_app_l by (rewrite Hk; lia). done.
  - rewrite lookup_app_r by (rewrite Hk; lia). rewrite Hk. replace (S s * k + j - k)%nat with (s * k + j)%nat by lia. by apply IH.
Qed.

Lemma bind_length_const {A B} (f : A -> list B) k (xs : list A) : (forall x, length (f x) = k) -> length (xs ≫= f) = (length xs * k)%nat.
Proof. intros Hk. induction xs as [|x xs IH]; [done|]. rewrite bind_cons, length_app, Hk, IH. cbn. lia. Qed.

Lemma least_distance_spec st d off : let r := least_distance st d off in
  r <= d + 1 /\ (forall p, p ∈ st -> r <= distance_ p + Z.abs (off - offset p)) /\ (r = d + 1 \/ exists p, p ∈ st /\ r = distance_ p + Z.abs (off - offset p)).
Proof.
  cbv zeta. unfold least_distance.
  assert (forall m, let r := foldl (fun min_dist pos => let dist := distance_ pos + abs_diff off (offset pos) in if dist <? min_dist then dist else min_dist) m st in
    r <= m /\ (forall p, p ∈ st -> r <= distance_ p + Z.abs (off - offset p)) /\ (r = m \/ exists p, p ∈ st /\ r = distance_ p + Z.abs (off - offset p))) as H; [|apply (H (d + 1))].
  induction st as [|p st IH]; intros m; cbv zeta; cbn [foldl]; [split; [lia|]; split; [by intros p Hp%elem_of_nil|by left]|].
  specialize (IH (if distance_ p + abs_diff off (offset p) <? m then distance_ p + abs_diff off (offset p) else m)). cbv zeta in IH. destruct IH as (H1 & H2 & H3).
  rewrite abs_diff_abs in *. set (r := foldl _ _ _) in *. clearbody r. destruct (Z.ltb_spec (distance_ p + Z.abs (off - offset p)) m).
  - split; [lia|]. split; [intros q [->|Hq]%elem_of_cons; [done|by apply H2]|]. right. destruct H3 as [->|(q & Hq & ->)]; [exists p|exists q]; rewrite elem_of_cons; tauto.
  - split; [done|]. split; [intros q [->|Hq]%elem_of_cons; [lia|by apply H2]|]. destruct H3 as [->|(q & Hq & ->)]; [by left|]. right. exists q. rewrite elem_of_cons. tauto.
Qed.

(** Positions at an offset in the word *)
Definition absolute (o : Z) (st : parametric_state) : list position := map (shift (- o)) st.

Lemma elem_of_absolute o st p : p ∈ absolute o st <-> exists q, q ∈ st /\ p = shift (- o) q.
Proof. unfold absolute. rewrite list_elem_of_fmap. split; intros (q & H1 & H2); exists q; by split. Qed.

Lemma elementary_shift d t k p bit y : elementary d t p bit y -> elementary d t (shift k p) bit (shift k y).
Proof.
  intros [Hm|Hm Ht|Hlt|Hlt|m Hm Hbm|Hlt Ht Hb]; unfold shift at 2; cbn [offset distance_ transpose].
  - replace (offset p + 1 - k) with (offset (shift k p) + 1) by (cbn; lia). exact (el_match d t (shift k p) bit Hm).
  - replace (offset p + 2 - k) with (offset (shift k p) + 2) by (cbn; lia). exact (el_swap d t (shift k p) bit Hm Ht).
  - exact (el_insert d t (shift k p) bit Hlt).
  - replace (offset p + 1 - k) with (offset (shift k p) + 1) by (cbn; lia). exact (el_substitute d t (shift k p) bit Hlt).
  - replace (offset p + 1 + m - k) with (offset (shift k p) + 1 + m) by (cbn; lia). exact (el_delete d t (shift k p) bit m Hm Hbm).
  - exact (el_transpose d t (shift k p) bit Hlt Ht Hb).
Qed.

Lemma shift_shift k k' p : shift k (shift k' p) = shift (k + k') p.
Proof. unfold shift. cbn. f_equal. lia. Qed.
Lemma shift_0 p : shift 0 p = p.
Proof. destruct p. unfold shift. cbn. f_equal. lia. Qed.

Lemma grows_shift k G m : grows G [] m -> grows (fun x => G (shift k x)) [] (absolute k m).
Proof.
  intros [F A N]. split.
  - intros x (q & Hq & ->)%elem_of_absolute. right. rewrite shift_shift. replace (k + - k) with 0 by lia. rewrite shift_0. by destruct (F q Hq) as [Hx%elem_of_nil|].
  - intros x [Hx%elem_of_nil|Hx]; [done|]. destruct (A (shift k x)) as (p & Hp & Hs); [by right|]. exists (shift (- k) p).
    split; [apply elem_of_absolute; by exists p|]. rewrite !subsumes_spec in *. cbn [shift offset distance_ transpose] in *.
    replace (offset p - - k - offset x) with (offset p - (offset x - k)) by lia. done.
  - intros _. unfold absolute. apply NoDup_fmap_2; [|apply N; constructor]. intros [o1 e1 t1] [o2 e2 t2] Es. injection Es as E1 -> ->. f_equal. lia.
Qed.

Section automaton.
Context (t : bool) (d : Z) (Hd : 0 <= d <= 31) (l : list Z) (Hlen : Z.of_nat (length l) < 2 ^ 64) (states : list parametric_state) (transitions : list (Z * Z))
  (Ht : table_ok d t states transitions (length states)) (Hcount : Z.of_nat (length states) <= 2 ^ 32).

Definition distances_of (state : parametric_state) : list Z := map (fun off => wrap 8 (least_distance state d off)) (seqZ 0 (chi_size d)).
#[local] Abbreviation desc := (description transitions (states ≫= distances_of) d).
#[local] Abbreviation D := (D t l).
#[local] Abbreviation represents := (represents t l d).

(** The automaton is in state [s] at the offset [o], behind the word [w]. *)
Record running (w : list Z) (s : nat) (st : parametric_state) (o : Z) : Prop := {
  ru_state : states !! s = Some st;
  ru_some : st <> [];
  ru_represents : represents w (absolute o st);
  ru_offset : 0 <= o;
}.

Lemma state_good s st : states !! s = Some st -> good_state d st.
Proof using All.
  intros Hs. pose proof (so_states _ _ _ (tb_states _ _ _ _ _ Ht)) as H. rewrite Forall_forall in H. apply H. by eapply list_elem_of_lookup_2.
Qed.

Lemma represents_nothing w c : represents w [] -> represents (w ++ [c]) [].
Proof using All.
  intros H. apply (represents_step t l d Hd w c [] (fun _ _ => false) H); [by intros p m Hp%elem_of_nil|].
  apply grows_none. by intros x (p & Hp%elem_of_nil & _).
Qed.

Lemma represents_nothing_app w cs : represents w [] -> represents (w ++ cs) [].
Proof using All.
  revert w. induction cs as [|c cs IH]; intros w H; [by rewrite app_nil_r|]. rewrite cons_middle, app_assoc. by apply IH, represents_nothing.
Qed.

Lemma transition_lookup s chi : (s < length states)%nat -> 0 <= chi < 2 ^ (2 * d + 1) -> exists entry from,
  pd_transition desc (Z.of_nat s) chi = Some entry /\ states !! s = Some from /\ entry_ok d t states from chi entry.
Proof using All.
  intros Hs Hchi. destruct (lookup_lt_is_Some_2 states s Hs) as (from & Hf). pose proof (chi_max_pow d Hd) as Hmax.
  assert (chi_count d = Z.to_nat (2 ^ (2 * d + 1))) as Hcc by (unfold chi_count; by rewrite Hmax).
  destruct Ht as [_ Hl _ He].
  destruct (lookup_lt_is_Some_2 transitions (s * chi_count d + Z.to_nat chi)%nat) as (entry & Hentry); [rewrite Hl; nia|]. exists entry, from.
  split; [|split; [done|]].
  - unfold pd_transition, description. cbn [pd_transitions pd_chi_max]. rewrite Hmax, <-Hentry. f_equal. rewrite Hcc. lia.
  - replace chi with (Z.of_nat (Z.to_nat chi)) by lia. by apply (He s from (Z.to_nat chi) entry Hs Hf ltac:(lia)).
Qed.

(** The character of a characteristic vector, at a position *)
Lemma chi_bit st o c p m : good_state d st -> 0 <= o -> p ∈ absolute o st -> 0 <= m <= d - distance_ p ->
  Z.testbit (chi (window desc l o) c) (offset p - o + m) = true <-> char l (offset p + m) = Some c.
Proof using All.
  intros (_ & H0 & Hmin & w0 & Hw) Ho (q & Hq & ->)%elem_of_absolute Hm. cbn [shift offset distance_] in *. rewrite Forall_forall in H0, Hw.
  destruct (Hmin ltac:(by intros ->; apply elem_of_nil in Hq)) as (p0 & Hp0 & E0). destruct (Hw q Hq) as (A1 & A2 & _). destruct (Hw p0 Hp0) as (A3 & A4 & _).
  specialize (H0 q Hq). rewrite (chi_testbit desc d Hd eq_refl l c o Ho) by lia. replace (o + (offset q - - o - o + m)) with (offset q - - o + m) by lia.
  split; [tauto|]. intros E. split; [lia|done].
Qed.

Lemma edit_step_spec w s st o c : running w s st o -> exists r, edit_step desc l c (Z.of_nat s) o = Some r /\
  match r with
  | None => represents (w ++ [c]) []
  | Some (id, o') => exists s' st', id = Z.of_nat s' /\ running (w ++ [c]) s' st' o'
  end.
Proof using All.
  intros [Hs Hne Hr Ho]. pose proof (chi_bound desc d Hd eq_refl l c o Ho) as Hchi. set (x := chi (window desc l o) c) in *.
  destruct (transition_lookup s x (lookup_lt_Some _ _ _ Hs) Hchi) as (entry & from & E & Hf & off & to & id & Enorm & Hid & ->).
  rewrite Hs in Hf. injection Hf as <-. unfold edit_step. fold x. rewrite E. cbn [mbind option_bind]. eexists. split; [done|].
  pose proof (lookup_lt_Some _ _ _ Hid) as Hidlt. rewrite wrap_small by (unfold is_word; lia).
  pose proof (state_good s st Hs) as Hgood. destruct (next_state d t st x off to Hd Hgood Enorm) as (_ & Hoff & Hg).
  assert (represents (w ++ [c]) (absolute (o + off) to)) as Hrep.
  { apply (represents_step t l d Hd w c (absolute o st) (fun p m => Z.testbit x (offset p - o + m)) Hr).
    - intros p m Hp Hm. by apply chi_bit with (st := st).
    - apply (grows_shift o) in Hg. replace (absolute (o + off) to) with (absolute o (map (shift (- off)) to)).
      + eapply grows_iff; [exact Hg|]. intros y. split.
        * intros (p & Hp & Hel). exists (shift (- o) p). split; [apply elem_of_absolute; by exists p|].
          apply (elementary_shift d t (- o)) in Hel. rewrite shift_shift in Hel. replace (- o + o) with 0 in Hel by lia. rewrite shift_0 in Hel.
          eapply elementary_bits; [|exact Hel]. intros m _. cbn. f_equal. lia.
        * intros (p & (q & Hq & ->)%elem_of_absolute & Hel). exists q. split; [done|]. apply (elementary_shift d t o) in Hel.
          rewrite shift_shift in Hel. replace (o + - o) with 0 in Hel by lia. rewrite shift_0 in Hel.
          eapply elementary_bits; [|exact Hel]. intros m _. cbn. f_equal. lia.
      + unfold absolute. rewrite map_map. apply map_ext. intros p. rewrite shift_shift. f_equal. lia. }
  destruct (so_first _ _ _ (tb_states _ _ _ _ _ Ht)) as (rest & Est). unfold INVALID_STATE. destruct (Z.eqb_spec (Z.of_nat id) 0) as [E0|E0].
  - assert (to = []) as ->; [|done]. replace id with 0%nat in Hid by lia. rewrite Est in Hid. by injection Hid.
  - exists id, to. split; [done|]. split; [done| |done|lia]. intros ->. apply E0.
    assert (states !! 0%nat = Some []) as H0 by (by rewrite Est). by rewrite (NoDup_lookup _ _ _ _ (so_nodup _ _ _ (tb_states _ _ _ _ _ Ht)) Hid H0).
Qed.

(** What is read off at the end of the word *)
Lemma final_distance w s st o : running w s st o ->
  pd_distance_at desc (Z.of_nat s) (Z.of_nat (length l) -[64] o) = Some (Z.min (d + 1) (D w (len l))).
Proof using All.
  intros [Hs Hne Hr Ho]. destruct (state_good s st Hs) as (_ & H0 & Hmin & _). rewrite Forall_forall in H0. destruct (Hmin Hne) as (p0 & Hp0 & E0).
  assert (0 <= len l) as Hn by (unfold len; lia). fold (len l).
  assert (shift (- o) p0 ∈ absolute o st) as Ha0 by (apply elem_of_absolute; by exists p0).
  assert (o <= len l) as Hol.
  { destruct (Z.le_gt_cases o (len l)) as [|Hgt]; [done|]. destruct (rp_beyond _ _ _ _ _ Hr _ Ha0) as (q & (q0 & Hq0 & ->)%elem_of_absolute & Hle & _); [cbn; lia|].
    cbn in Hle. specialize (H0 q0 Hq0). lia. }
  rewrite wrap_small by (unfold is_word, len in *; lia). unfold pd_distance_at, description. cbn [pd_chi_size pd_max_distance pd_distance]. unfold chi_size.
  destruct (rp_around _ _ _ _ _ Hr _ Ha0) as [(B1 & B2 & _) _]. cbn [shift offset distance_] in B1, B2.
  destruct (Z.leb_spec (2 * d + 1) (len l - o)) as [Hbig|Hsmall].
  - f_equal. symmetry. apply Z.min_l. destruct (Z.le_gt_cases (D w (len l)) d) as [Hle|]; [|lia].
    destruct (rp_complete _ _ _ _ _ Hr (len l) ltac:(lia) Hle) as (p & Hp & Hf). destruct (rp_around _ _ _ _ _ Hr p Hp) as [(C1 & C2 & _) _]. unfold far in Hf. lia.
  - assert (forall st, length (distances_of st) = Z.to_nat (2 * d + 1)) as Hk by (intros st'; unfold distances_of, chi_size; rewrite length_map, length_seqZ; done).
    replace (Z.to_nat (Z.of_nat s * (2 * d + 1) + (len l - o))) with (s * Z.to_nat (2 * d + 1) + Z.to_nat (len l - o))%nat by lia.
    rewrite (bind_lookup distances_of _ states Hk s _ st Hs) by lia. unfold distances_of, chi_size.
    change (map ?f (seqZ 0 (2 * d + 1))) with (f <$> seqZ 0 (2 * d + 1)). rewrite list_lookup_fmap, lookup_seqZ_lt by lia. cbn [fmap option_fmap option_map]. f_equal.
    replace (0 + Z.of_nat (Z.to_nat (len l - o))) with (len l - o) by lia. destruct (least_distance_spec st d (len l - o)) as (S1 & S2 & S3). cbv zeta in *.
    set (r := least_distance st d (len l - o)) in *.
    assert (r = Z.min (d + 1) (D w (len l))) as Er.
    { assert (forall p, p ∈ st -> D w (len l) <= distance_ p + Z.abs (len l - o - offset p)) as Hle.
      { intros p Hp. pose proof (far_sound t l d Hd w _ (shift (- o) p) (len l) Hr ltac:(apply elem_of_absolute; by exists p) ltac:(lia)) as Hf. unfold far in Hf. cbn in Hf. lia. }
      destruct (Z.le_gt_cases (D w (len l)) d) as [Hsm|].
      - destruct (rp_complete _ _ _ _ _ Hr (len l) ltac:(lia) Hsm) as (p & (q & Hq & ->)%elem_of_absolute & Hf). unfold far in Hf. cbn in Hf.
        specialize (S2 q Hq). destruct S3 as [->|(q2 & Hq2 & E2)]; [lia|]. specialize (Hle q2 Hq2). lia.
      - destruct S3 as [->|(q2 & Hq2 & E2)]; [lia|]. specialize (Hle q2 Hq2). lia. }
    rewrite Er. apply wrap_small. pose proof (D_pos t l w (len l)). unfold is_word. lia.
Qed.
End automaton.

(** ** Runs over strings *)

Section runs.
Context (t : bool) (d : Z) (Hd : 0 <= d <= 31) (l : list Z) (Hlen : Z.of_nat (length l) < 2 ^ 64) (states : list parametric_state) (transitions : list (Z * Z))
  (Ht : table_ok d t states transitions (length states)) (Hcount : Z.of_nat (length states) <= 2 ^ 32).
#[local] Abbreviation desc := (description transitions (states ≫= distances_of d) d).
#[local] Abbreviation running := (running t d l states).

Lemma utf8_head c cps : exists b rest, utf8 (c :: cps) = b :: rest.
Proof.
  rewrite utf8_cons. pose proof (FromChar32_nonempty c). destruct (FromChar32 c ++ utf8 cps) as [|b rest] eqn:E; [|eauto].
  apply (f_equal length) in E. rewrite length_app in E. cbn in E. lia.
Qed.

Lemma edit_loop_spec cps : Forall code_point cps -> forall w s st o k, running w s st o -> (length cps <= k)%nat ->
  edit_loop k desc l (utf8 cps) (Z.of_nat s) o = Some (Z.min (d + 1) (D t l (w ++ cps) (len l))) /\
  (kInvalidChar32 ∉ cps -> edit_loop_checked k desc l (utf8 cps) (Z.of_nat s) o = Some (Some (Z.min (d + 1) (D t l (w ++ cps) (len l))))).
Proof using All.
  induction 1 as [|c cps Hc _ IH]; intros w s st o k Hr Hk.
  { pose proof (final_distance t d Hd l Hlen states transitions Ht Hcount w s st o Hr) as E. rewrite app_nil_r. cbn [utf8 mbind list_bind].
    change (utf8 []) with (@nil Z). destruct k; cbn [edit_loop edit_loop_checked]; rewrite E; by split. }
  cbn [length] in Hk. destruct k as [|k]; [lia|]. destruct (utf8_head c cps) as (b & rest & E).
  pose proof (ToChar32_FromChar32 false c (utf8 cps) Hc) as E1. pose proof (ToChar32_FromChar32 true c (utf8 cps) Hc) as E2. rewrite <-utf8_cons, E in E1, E2.
  destruct (edit_step_spec t d Hd l Hlen states transitions Ht Hcount w s st o c Hr) as (r & Es & Hnext). rewrite E. cbn [edit_loop edit_loop_checked].
  unfold ToChar32, ToChar32_checked. rewrite E1, E2. cbn [mbind option_bind]. rewrite Es. cbn [mbind option_bind]. rewrite cons_middle, app_assoc.
  assert (kInvalidChar32 ∉ c :: cps -> (c =? kInvalidChar32) = false /\ kInvalidChar32 ∉ cps) as Hv
    by (intros [Hne Hn]%not_elem_of_cons; split; [by apply Z.eqb_neq|done]).
  destruct r as [[id o']|].
  - destruct Hnext as (s' & st' & -> & Hr'). destruct (IH _ s' st' o' k Hr' ltac:(lia)) as [I1 I2]. split; [done|]. intros Hn. destruct (Hv Hn) as [-> Hn']. by apply I2.
  - assert (Z.min (d + 1) (D t l ((w ++ [c]) ++ cps) (len l)) = d + 1) as ->.
    { apply Z.min_l. pose proof (represents_nothing_app t d Hd l Hlen states transitions Ht Hcount (w ++ [c]) cps Hnext) as Hrep.
      destruct (Z.le_gt_cases (D t l ((w ++ [c]) ++ cps) (len l)) d) as [Hle|]; [|lia].
      destruct (rp_complete _ _ _ _ _ Hrep (len l) ltac:(unfold len; lia) Hle) as (p & Hp%elem_of_nil & _). done. }
    split; [done|]. intros Hn. by destruct (Hv Hn) as [-> _].
Qed.

Lemma edit_distance_run rhs : Forall code_point l -> Forall code_point rhs ->
  edit_distance_up_to desc (utf8 l) (utf8 rhs) = Some (Z.min (d + 1) (Z.of_nat (dist t 1 l rhs))) /\
  (kInvalidChar32 ∉ l -> kInvalidChar32 ∉ rhs ->
     edit_distance_checked desc (utf8 l) (utf8 rhs) = Some (Some (Z.min (d + 1) (Z.of_nat (dist t 1 l rhs))))).
Proof using All.
  intros Hl Hr. assert (running [] 1 initial_state 0) as Hrun.
  { destruct (so_first _ _ _ (tb_states _ _ _ _ _ Ht)) as (rest & Est). split; [by rewrite Est|done| |done].
    change (absolute 0 initial_state) with [mkPosition 0 0 false]. by apply represents_init. }
  destruct (edit_loop_spec rhs Hr [] 1 initial_state 0 (length (utf8 rhs)) Hrun (utf8_length rhs)) as [H1 H2]. cbn [app] in H1, H2.
  assert (D t l rhs (len l) = Z.of_nat (dist t 1 l rhs)) as ED by (unfold D, len; by rewrite Nat2Z.id, firstn_all, dist_rev).
  rewrite ED in H1, H2. unfold edit_distance_up_to, edit_distance_checked. rewrite (ToUTF32_utf8 false) by done. cbn [mbind option_bind].
  split; [done|]. intros Hvl Hvr. rewrite (ToUTF32_utf8 true) by done. cbn [mbind option_bind]. by apply H2.
Qed.
End runs.

(** ** Properties *)

(** The table of a description has the transitions of all its states. *)
Definition complete (desc : parametric_description) : Prop :=
  Z.of_nat (length (pd_distance desc)) = pd_num_states desc * pd_chi_size desc /\ pd_num_states desc <= 2 ^ 32.

(** The distances of the states, if no pointer to them dangles *)
Lemma state_distances_spec d states : 0 <= d -> match state_distances states d with
  | Some distance => distance = ps_states states ≫= distances_of d
  | None => 31 <= d \/ ps_valid states <> 0%nat
  end.
Proof.
  intros Hd. unfold state_distances. set (row := fun i => state ← states_at states i; mapM _ _).
  assert (forall i st, ps_states states !! i = Some st -> match row i with Some r => r = distances_of d st | None => 31 <= d \/ ps_valid states <> 0%nat end) as Hrow.
  { intros i st Hi. unfold row, states_at. destruct (Nat.ltb_spec i (ps_valid states)); [right; lia|]. rewrite Hi. cbn [mbind option_bind].
    unfold state_distance, MAX_DISTANCE. destruct (Z.ltb_spec d 31).
    - cbn [fmap option_fmap option_map]. unfold distances_of. generalize (seqZ 0 (chi_size d)) as offs. induction offs as [|off offs IH]; [done|].
      cbn [mapM mbind option_bind]. destruct (mapM _ offs) as [l|]; [|done]. cbn [mbind option_bind]. by rewrite IH.
    - unfold chi_size. rewrite seqZ_cons by lia. by left. }
  assert (forall k sts, (forall i st, sts !! i = Some st -> ps_states states !! (k + i)%nat = Some st) ->
    match mapM row (seq k (length sts)) with Some rows => concat rows = sts ≫= distances_of d | None => 31 <= d \/ ps_valid states <> 0%nat end) as Hall.
  { intros k sts. revert k. induction sts as [|st sts IH]; intros k Hsts; [done|]. cbn [length seq mapM].
    pose proof (Hrow k st ltac:(rewrite <-(Nat.add_0_r k); by apply (Hsts 0%nat))) as H0. destruct (row k) as [r|]; [|done]. cbn [mbind option_bind].
    specialize (IH (S k) ltac:(intros i st' Hi; rewrite Nat.add_succ_l, <-Nat.add_succ_r; by apply (Hsts (S i)))).
    destruct (mapM row (seq (S k) (length sts))) as [rows|]; [|done]. cbn [mbind option_bind mret option_ret concat list_bind]. rewrite H0. f_equal. exact IH. }
  specialize (Hall 0%nat (ps_states states) ltac:(done)). destruct (mapM row (seq 0 (length (ps_states states)))) as [rows|]; done.
Qed.

(** What was made is the table of the states; something is made if the hash map does not move them, below 31. *)
Lemma make_table moves d t : 0 <= d <= 31 ->
  match make_parametric_description moves d t with
  | Some desc => exists states transitions m, table_ok d t states transitions m /\ stopped d t states m /\
      desc = description transitions (states ≫= distances_of d) d
  | None => fixed d t moves -> 31 <= d
  end.
Proof.
  intros Hd. unfold make_parametric_description. unfold MAX_DISTANCE. destruct (Z.ltb_spec 31 d); [lia|]. cbv zeta.
  destruct (building_init d Hd t moves) as (states0 & E0 & Hb). unfold initial_state in E0.
  destruct (emplace_state moves [] (states_make (predict_num_states d t))) as [from_id states1].
  destruct (emplace_state moves [mkPosition 0 0 false] states1) as [id2 states2]. injection E0 as -> ->.
  destruct (iterate (states_fuel d) (states_round moves d t) (states0, [], 0%nat)) as [[states transitions]|] eqn:E.
  - cbn [mbind option_bind]. destruct (build_partial d Hd t moves states0 _ Hb E) as (Htr & m & Hm & Hstop). cbn [fst snd] in *.
    pose proof (state_distances_spec d states ltac:(lia)) as Hdist. destruct (state_distances states d) as [distance|]; cbn [mbind option_bind].
    + exists (ps_states states), transitions, m. by rewrite Hdist.
    + intros Hfix. destruct Hdist as [?|Hne]; [done|]. by destruct Hne; apply (tr_valid _ _ _ _ Htr).
  - intros Hfix. destruct (build_total d Hd t moves states0 Hfix Hb) as (r & Er & _). congruence.
Qed.

Lemma description_counts d t states transitions m : 0 <= d <= 31 -> table_ok d t states transitions m -> let desc := description transitions (states ≫= distances_of d) d in
  Z.of_nat (length (pd_distance desc)) = Z.of_nat (length states) * pd_chi_size desc /\ pd_num_states desc = Z.of_nat m.
Proof.
  intros Hd Hm. cbn zeta. unfold description. cbn [pd_distance pd_num_states pd_chi_size]. rewrite (tb_length _ _ _ _ _ Hm), (chi_max_pow d Hd).
  rewrite (bind_length_const (distances_of d) (Z.to_nat (2 * d + 1))) by (intros st; unfold distances_of, chi_size; by rewrite length_map, length_seqZ).
  unfold chi_count. rewrite (chi_max_pow d Hd). unfold chi_size. pose proof (pow2_pos (2 * d + 1) ltac:(lia)) as Hp.
  rewrite !Nat2Z.inj_mul, !Z2Nat.id by lia. split; [done|]. apply Z.div_mul. lia.
Qed.

Lemma complete_table d t states transitions m : 0 <= d <= 31 -> table_ok d t states transitions m ->
  complete (description transitions (states ≫= distances_of d) d) -> m = length states /\ Z.of_nat (length states) <= 2 ^ 32.
Proof.
  intros Hd Hm [H1 H2]. destruct (description_counts d t states transitions m Hd Hm) as [E1 E2]. rewrite E1, E2 in H1. rewrite E2 in H2.
  unfold description, chi_size in H1. cbn [pd_chi_size] in H1. assert (Z.of_nat (length states) = Z.of_nat m) by nia. lia.
Qed.

Lemma predicted_complete moves d t : 0 <= d < 31 -> predicted d t -> predict_num_states d t <= 2 ^ 32 -> reserved moves -> exists desc,
  make_parametric_description moves d t = Some desc /\ complete desc /\ pd_num_states desc = predict_num_states d t.
Proof.
  intros Hd Hp Hle Hres. assert (0 <= d <= 31) as Hd' by lia. pose proof (make_table moves d t Hd') as H. pose proof (predicted_fixed d t moves Hp Hres) as Hfix.
  destruct (make_parametric_description moves d t) as [desc|]; [|specialize (H Hfix); lia].
  destruct H as (states & transitions & m & Hm & Hstop & ->). destruct Hp as (all & Hn & Hr & Hc & Hall).
  destruct (table_complete d Hd' t states transitions m all Hm Hstop Hn Hr Hc Hall) as [-> Ep].
  destruct (description_counts d t states transitions _ Hd' Hm) as [E1 E2]. eexists. split; [done|]. unfold complete. by rewrite E1, E2, Ep.
Qed.

Lemma predictions_small d t : predict_num_states d t <= 2 ^ 32.
Proof.
  assert (Forall (fun n => n <= 2 ^ 32) NUM_STATES) as H by (apply (bool_decide_unpack _); vm_compute; done).
  unfold predict_num_states. destruct (nth_in_or_default (Z.to_nat (2 * d + Z.b2z t)) NUM_STATES 0) as [Hin| ->]; [|lia].
  rewrite Forall_forall in H. by apply H, list_elem_of_In.
Qed.

(** C10: A parametric description computes edit distances: for any maximum distance and whatever the hash map of the states does with its entries, if a description
    is made and its table is complete, it gives the edit distance of any two strings in UTF-8, in code points, up to the maximum distance, and one more for all beyond it;
    the distance counts transpositions of neighbours when the description was built with them. When the number of states is predicted, and the map
    does not move entries while there are no more than it was reserved for, a description is made, and it is complete; the predictions are right for distances up to
    2, and for 3 without transpositions. With a map that never moves its entries, building ends for every distance below 31. Beyond 31 the description is invalid. *)
Theorem parametric_distance_spec (moves : Z -> Z -> bool) :
  (forall d t desc lhs rhs, 0 <= d <= 31 -> make_parametric_description moves d t = Some desc -> complete desc ->
     Forall code_point lhs -> Forall code_point rhs -> Z.of_nat (length lhs) < 2 ^ 64 ->
     edit_distance_up_to desc (utf8 lhs) (utf8 rhs) = Some (Z.min (d + 1) (Z.of_nat (dist t 1 lhs rhs))) /\
     (kInvalidChar32 ∉ lhs -> kInvalidChar32 ∉ rhs ->
        edit_distance_checked desc (utf8 lhs) (utf8 rhs) = Some (Some (Z.min (d + 1) (Z.of_nat (dist t 1 lhs rhs)))))) /\
  (forall d t, 0 <= d < 31 -> predicted d t -> reserved moves -> exists desc,
     make_parametric_description moves d t = Some desc /\ complete desc /\ pd_num_states desc = predict_num_states d t) /\
  (forall d t, (d, t) ∈ built -> predicted d t) /\
  (forall d t, 0 <= d < 31 -> (forall n, moves (predict_num_states d t) n = false) -> exists desc,
     make_parametric_description moves d t = Some desc /\ pd_valid desc = true) /\
  (forall d t, 31 < d -> exists desc, make_parametric_description moves d t = Some desc /\ pd_valid desc = false).
Proof.
  split; [|split; [|split; [|split]]].
  - intros d t desc lhs rhs Hd E Hc Hl Hr Hlen. pose proof (make_table moves d t Hd) as H. rewrite E in H. destruct H as (states & transitions & m & Hm & _ & ->).
    destruct (complete_table d t states transitions m Hd Hm Hc) as [-> Hcount]. by apply (edit_distance_run t d Hd lhs Hlen states transitions Hm Hcount rhs).
  - intros d t Hd Hp Hres. apply predicted_complete; [done|done|apply predictions_small|done].
  - apply built_predicted.
  - intros d t Hd Hmoves. pose proof (make_table moves d t ltac:(lia)) as H.
    destruct (make_parametric_description moves d t) as [desc|]; [|assert (31 <= d) by (apply H; intros all _ _ n _; apply Hmoves); lia].
    destruct H as (states & transitions & m & _ & _ & ->). eexists. split; [done|]. apply Z.ltb_lt. cbn [description pd_chi_size]. unfold chi_size. lia.
  - intros d t Hd. unfold make_parametric_description, MAX_DISTANCE. destruct (Z.ltb_spec 31 d); [|lia]. by exists default_description.
Qed.

(** A hash map that moves its entries whenever it gets more of them than it was reserved for *)
Definition example_moves (capacity n : Z) : bool := capacity <? n.

(** [parametric_distance_spec] for distances up to 2 with transpositions: "cat" and "act" are one apart, "abcd" and "efgh" more than two. *)
Lemma parametric_distance_witness : exists desc, make_parametric_description example_moves 2 true = Some desc /\
  edit_distance_up_to desc (utf8 [99; 97; 116]) (utf8 [97; 99; 116]) = Some 1 /\
  edit_distance_checked desc (utf8 [97; 98; 99; 100]) (utf8 [101; 102; 103; 104]) = Some (Some 3).
Proof.
  destruct (parametric_distance_spec example_moves) as (H & Hp & Hb & _).
  destruct (Hp 2 true) as (desc & E & Hc & _); [lia|by apply Hb; do 5 right; left|by intros capacity n Hle; apply Z.ltb_ge|].
  exists desc. split; [exact E|]. split.
  - by apply (H 2 true desc [99; 97; 116] [97; 99; 116]); [lia|exact E|exact Hc|repeat constructor; done..].
  - apply (H 2 true desc [97; 98; 99; 100] [101; 102; 103; 104]); [lia|exact E|exact Hc|repeat constructor; done..|done| |]; apply (bool_decide_unpack _); vm_compute; done.
Defined.
