(* ===== verification/LevenshteinCoding.v ===== *)
(** * Stored descriptions

    [write] and [read] of utils/levenshtein_utils.cpp: a description is read back as it was written. *)
From S2P Require Import Prelude BitUtils BytesIO Streams FileStreams StoreUtils Outcome Coding Levenshtein LevenshteinStates LevenshteinDistance.

Definition zvint_enc (v : Z) : list Z := VInt.vwrite32 (Bit.zig_zag_encode32 v).

Lemma writes_zvint {O} `{DataOutputSpec O} v : is_int 32 v -> writes (write_zvint v) (zvint_enc v).
Proof. intros Hv. apply writes_vint. apply Bit.zig_zag_encode_word; done || lia. Qed.

(** The bytes of the transitions behind the last one *)
Fixpoint transitions_enc (transitions : list (Z * Z)) (last_state last_offset : Z) : list Z :=
  match transitions with
  | [] => []
  | (first, second) :: transitions =>
      zvint_enc (to_signed 32 (first -[32] last_state)) ++ zvint_enc (to_signed 32 (second -[32] last_offset)) ++ transitions_enc transitions first second
  end.
Definition description_enc (desc : parametric_description) : list Z :=
  [pd_max_distance desc] ++ VInt.vwrite64 (Z.of_nat (length (pd_transitions desc))) ++ transitions_enc (pd_transitions desc) 0 0 ++
  VInt.vwrite64 (Z.of_nat (length (pd_distance desc))) ++ pd_distance desc.

(** What the format can hold *)
Record storable (desc : parametric_description) : Prop := {
  st_transitions : Forall (fun x => is_word 32 x.1 /\ is_word 32 x.2) (pd_transitions desc);
  st_counts : Z.of_nat (length (pd_transitions desc)) < 2 ^ 64 /\ Z.of_nat (length (pd_distance desc)) < 2 ^ 64;
  st_derived : desc = description (pd_transitions desc) (pd_distance desc) (pd_max_distance desc);
}.

Lemma writes_transitions {O} `{DataOutputSpec O} transitions : forall a b, writes (write_transitions transitions a b) (transitions_enc transitions a b).
Proof.
  induction transitions as [|[first second] transitions IH]; intros a b; [apply writes_nothing|]. cbn [write_transitions transitions_enc].
  apply (writes_seq (write_zvint (to_signed 32 (first -[32] a))) (fun s => write_transitions transitions first second (write_zvint (to_signed 32 (second -[32] b)) s)));
    [apply writes_zvint, to_signed_range; lia|].
  apply (writes_seq (write_zvint (to_signed 32 (second -[32] b))) (write_transitions transitions first second)); [apply writes_zvint, to_signed_range; lia|apply IH].
Qed.

Lemma writes_description {O} `{DataOutputSpec O} desc : storable desc -> writes (write desc) (description_enc desc).
Proof.
  intros [_ [H1 H2] _]. unfold write, description_enc.
  apply (writes_seq (write_byte (pd_max_distance desc)) (fun s => write_bytes (pd_distance desc) (write_vlong (Z.of_nat (length (pd_distance desc)))
    (write_transitions (pd_transitions desc) 0 0 (write_vlong (Z.of_nat (length (pd_transitions desc))) s))))); [apply writes_byte|].
  apply (writes_seq (write_vlong (Z.of_nat (length (pd_transitions desc)))) (fun s => write_bytes (pd_distance desc) (write_vlong (Z.of_nat (length (pd_distance desc)))
    (write_transitions (pd_transitions desc) 0 0 s)))); [apply writes_vlong; unfold is_word; lia|].
  apply (writes_seq (write_transitions (pd_transitions desc) 0 0) (fun s => write_bytes (pd_distance desc) (write_vlong (Z.of_nat (length (pd_distance desc))) s)));
    [apply writes_transitions|].
  apply (writes_seq (write_vlong (Z.of_nat (length (pd_distance desc)))) (write_bytes (pd_distance desc))); [apply writes_vlong; unfold is_word; lia|apply writes_bytes].
Qed.

Section reading.
Context {I : Type} {DI : DataInput I} {DS : DataInputSpec I} {II : IndexInput I} {IS : IndexInputSpec I} {FI : FileInput I} {FS : FileInputSpec I} (f : list Z).

Lemma reads_zvint v : is_int 32 v -> reads_as f read_zvint (zvint_enc v) v.
Proof.
  intros Hv. unfold read_zvint, zvint_enc. eapply reads_last; [apply reads_vint; apply Bit.zig_zag_encode_word; done || lia|]. intros s. do 2 f_equal.
  unfold Bit.zig_zag_decode32, Bit.zig_zag_encode32. by apply Bit.zig_zag_decode_encode.
Qed.

Lemma add_difference x y : is_word 32 x -> is_word 32 y -> y +[32] to_signed 32 (x -[32] y) = x.
Proof.
  intros Hx Hy. rewrite <-wrap_add_r, wrap_to_signed, wrap_wrap, wrap_add_r by lia. replace (y + (x - y)) with x by lia. by apply wrap_small.
Qed.

Lemma reads_transitions transitions : Forall (fun x => is_word 32 x.1 /\ is_word 32 x.2) transitions -> forall a b, is_word 32 a -> is_word 32 b ->
  reads_as f (read_transitions (length transitions) a b) (transitions_enc transitions a b) transitions.
Proof.
  induction 1 as [|[first second] transitions [H1 H2] _ IH]; intros a b Ha Hb; [apply reads_done|]. cbn [fst snd] in *. cbn [length read_transitions transitions_enc].
  eapply reads_then; [apply reads_zvint, to_signed_range; lia|]. cbv beta zeta. rewrite add_difference by done.
  eapply reads_then; [apply reads_zvint, to_signed_range; lia|]. cbv beta zeta. rewrite add_difference by done.
  eapply reads_last; [by apply IH|]. done.
Qed.

Lemma reads_description desc : storable desc -> reads_as f read (description_enc desc) desc.
Proof.
  intros [Ht [H1 H2] E]. unfold read, description_enc. eapply reads_then; [apply reads_byte|]. cbv beta.
  eapply reads_then; [apply reads_vlong; unfold is_word; lia|]. cbv beta. rewrite Nat2Z.id.
  eapply reads_then; [by apply reads_transitions|]. cbv beta. eapply reads_then; [apply reads_vlong; unfold is_word; lia|]. cbv beta. rewrite Nat2Z.id.
  intros p s r Hs Hr. destruct (reads_bytes f (pd_distance desc) p s r Hs Hr) as (s' & [= Eb] & Hs'). exists s'. rewrite Eb, Nat.sub_diag. cbn [replicate].
  rewrite app_nil_r, <-E. by split.
Qed.
End reading.

(** A description that was made holds what the format can hold. *)
Lemma offset_bound d t from chi off to : 0 <= d <= 31 -> good_state d from -> normalize (add_transition from chi d t) = (off, to) -> 0 <= off <= 3 * d + 2.
Proof.
  intros Hd Hf E. destruct (next_state d t from chi off to Hd Hf E) as (Hto & Hoff & [F _ _]). pose proof (good_in_box d from Hf) as Hbox. rewrite Forall_forall in Hbox.
  split; [done|]. destruct to as [|p0 to0].
  - destruct (normalize_spec (add_transition from chi d t)) as (m' & E' & Hp). rewrite E in E'. injection E' as -> <-. apply Permutation_nil_l in Hp. symmetry in Hp.
    apply map_eq_nil in Hp. rewrite Hp. cbn. lia.
  - destruct Hto as (_ & _ & Hmin & _). destruct (Hmin ltac:(done)) as (p & Hp & E0). destruct (F (shift (- off) p)) as [Hx%elem_of_nil|(q & Hq & Hel)]; [by apply list_elem_of_fmap_2|done|].
    destruct (Hbox q Hq) as [B1 B2]. assert (offset (shift (- off) p) = off) as Eo by (cbn; lia). rewrite <-Eo. destruct Hel; cbn; lia.
Qed.

Lemma made_storable moves d t desc : 0 <= d <= 31 -> make_parametric_description moves d t = Some desc -> Z.of_nat (length (pd_transitions desc)) < 2 ^ 64 ->
  Z.of_nat (length (pd_distance desc)) < 2 ^ 64 -> storable desc.
Proof.
  intros Hd E H1 H2. pose proof (make_table moves d t Hd) as H. rewrite E in H. destruct H as (states & transitions & m & [Hs Hl Hc He] & _ & ->). split; [|done|done].
  cbn [description pd_transitions]. apply Forall_lookup. intros i entry Hi. pose proof (lookup_lt_Some _ _ _ Hi) as Hlt.
  assert (0 < chi_count d)%nat as Hpos by (unfold chi_count; rewrite (chi_max_pow d Hd); pose proof (pow2_pos (2 * d + 1) ltac:(lia)); lia).
  pose proof (Nat.div_mod_eq i (chi_count d)) as Ei. pose proof (Nat.mod_upper_bound i (chi_count d) ltac:(lia)) as Hmod.
  assert (i / chi_count d < m)%nat as Hs' by (apply Nat.Div0.div_lt_upper_bound; lia).
  destruct (lookup_lt_is_Some_2 states (i / chi_count d)%nat ltac:(lia)) as (from & Hfrom).
  destruct (He (i / chi_count d)%nat from (i mod chi_count d)%nat entry Hs' Hfrom Hmod) as (off & to & id & En & _ & ->).
  { rewrite <-Hi. f_equal. lia. }
  pose proof (so_states _ _ _ Hs) as Hall. rewrite Forall_forall in Hall. destruct (Hall from ltac:(by eapply list_elem_of_lookup_2)) as [Hgood _].
  pose proof (offset_bound d t from _ off to Hd Hgood En). cbn [fst snd]. split; [by apply wrap_range|]. unfold is_word. lia.
Qed.

(** ** Properties *)

(** C27: A description that was made is read back as it was written, by any lawful output and input, wherever it stands in a file, and the reading ends where
    the writing ended. *)
Theorem description_roundtrip {O I} `{DataOutputSpec O} {DI : DataInput I} {DS : DataInputSpec I} {II : IndexInput I} {IS : IndexInputSpec I}
    {FI : FileInput I} {FS : FileInputSpec I} moves d t desc (out : O) (in_ : I) f p r :
  0 <= d <= 31 -> make_parametric_description moves d t = Some desc -> Z.of_nat (length (pd_transitions desc)) < 2 ^ 64 ->
  Z.of_nat (length (pd_distance desc)) < 2 ^ 64 -> out_ok out -> at_ f p in_ -> drop p f = description_enc desc ++ r ->
  out_ok (write desc out) /\ written (write desc out) = written out ++ description_enc desc /\
  exists in', read in_ = Some (desc, in') /\ at_ f (p + length (description_enc desc)) in'.
Proof.
  intros Hd E H1 H2 Ho Hat Hr. pose proof (made_storable moves d t desc Hd E H1 H2) as Hst. destruct (writes_description desc Hst out Ho) as [Ho' Ew].
  split; [done|]. split; [done|]. by apply (reads_description f desc Hst p in_ r).
Qed.

(** [description_roundtrip] for the description of distance 1 with transpositions, written behind a byte and followed by one. *)
Lemma description_roundtrip_witness : exists desc enc in', make_parametric_description example_moves 1 true = Some desc /\
  (write desc ([7] : list Z)) = [7] ++ enc /\ read (BytesView.Make ([7] ++ enc ++ [9]) 1) = Some (desc, in').
Proof.
  destruct (make_parametric_description example_moves 1 true) as [desc|] eqn:E; [|vm_compute in E; done].
  assert (Z.of_nat (length (pd_transitions desc)) < 2 ^ 64 /\ Z.of_nat (length (pd_distance desc)) < 2 ^ 64) as [H1 H2].
  { vm_compute in E. injection E as <-. split; vm_compute; done. }
  assert (out_ok ([7] : list Z)) as Ho by done.
  exists desc, (description_enc desc).
  destruct (description_roundtrip (O := list Z) (I := BytesView.t) example_moves 1 true desc ([7] : list Z) (BytesView.Make ([7] ++ description_enc desc ++ [9]) 1) ([7] ++ description_enc desc ++ [9]) 1 [9]
    ltac:(lia) E H1 H2 Ho) as (_ & Ew & in' & Er & _).
  - apply view_at. rewrite length_app. cbn. lia.
  - done.
  - exists in'. split; [exact eq_refl|]. split; [exact Ew|exact Er].
Defined.
